(* ===== verification/_CoqProject ===== *)
-Q . S2P
Prelude.v
Record.v
Window.v
Rfc3339.v
Decimal.v
Float64.v
State.v
Pebble.v
PebbleRefine.v
KeyBy.v
Stateless.v
Merge.v
Parallel.v
Reduce.v
WindowOp.v
WindowCorrect.v
WindowRun.v
Join.v
JoinCorrect.v
Storage.v
Coordinator.v
ExactlyOnce.v
Injector.v
Positions.v
Snapshots.v
Planner.v
Lifecycle.v
TxnSink.v
TxnProbe.v
JobStore.v
Controller.v
Fencing.v
KeyedProcess.v
KeyedProcessCorrect.v
Workflow.v
WorkflowCompile.v
WorkflowCorrect.v
FieldOps.v
FieldOpsCorrect.v
FieldOpsRun.v
SourceWatermark.v
KafkaSource.v
KafkaSourceCorrect.v
BatchSink.v
PostgresSink.v
FileConnector.v
Stages.v
Engine.v
Supervisor.v
AtLeastOnce.v
Savepoint.v
JsonText.v
HttpSink.v
Backend.v
S3Blobstore.v
JobAgent.v
Sdk.v
TypedStream.v
History.v
Api.v
Cli.v
