(* ===== verification/Prelude.v ===== *)
(** * Verification of the Weibo stream-processing engine

    Weibo is a stream processor written in Go.  A job reads records from a
    source, runs them through a chain of operators and writes them to a sink.
    Markers flow with the data: watermarks carry event time, barriers cut the
    stream into checkpoints.  The planner turns the operator list into stages;
    a stage fans out over workers and an aligned merge puts their outputs back
    together so that markers stay where they belong.  Stateful operators keep
    keyed state in a backend.  When a barrier has crossed all operators, the
    checkpoint is saved; with a transactional sink a coordinator also commits
    the sink's transaction, in two phases.  After a crash, recovery decides from
    the checkpoint directory and the sink's markers where to resume.  Jobs are
    Go programs or workflow documents that a compiler turns into one; a control
    plane keeps jobs and runs in a store and drives containers that run them.
    Inside a container a job agent supervises the run and answers the control
    plane; operators reach the control plane over an HTTP API or with a command
    line that speaks it.

    ** Files and the code they model

    Data and libraries:
    - [Prelude]: bytes, machine integers, instants, the [result] type of
      fallible Go code, shared lemmas and tactics, the hint database [weibo].
    - [Record]: src/types/record.go.
    - [Rfc3339], [Decimal], [Float64], [JsonText]: the text of instants and
      integers, the numbers of float64, the validity and quoting of JSON text,
      as the time, strconv and encoding/json packages have them.

    Operators and stages:
    - [Window]: src/window (tumbling, sliding, session assigners) and
      src/watermark/bounded.go.
    - [State], [Pebble], [PebbleRefine]: src/state.  [StateBackend] with
      [StateBackendLaws] is the interface that operators are verified against;
      the in-memory and the Pebble backend are its implementations.  Pebble
      itself is the class [PebbleDB] with [PebbleLaws]: an ordered key-value
      store.
    - [KeyBy]: src/operator/keyby.go and the router of
      src/pipeline/keyed_stage.go.
    - [Stateless]: src/operator/{map,filter,flatmap,process}.go and
      src/pipeline/stateless_stage.go.
    - [Merge]: alignedMerge of src/pipeline/markers.go, a step relation over all
      interleavings of its goroutines and its bounded channel.
    - [Parallel]: the parallel and keyed stages: dispatcher, workers, merge.
    - [Stages]: src/pipeline/stage.go; the sink stage is a step relation.
    - [Reduce]: src/operator/reduce.go.
    - [WindowOp], [WindowCorrect], [WindowRun]: src/operator/window.go.
    - [Join], [JoinCorrect]: src/operator/join.go.
    - [KeyedProcess], [KeyedProcessCorrect]: src/operator/keyed_process.go; user
      functions are programs over the calls of their context.
    - [Planner]: src/pipeline/planner.go and NewKeyedStage.
    - [TypedStream]: src/typed_stream.go; types are indices of a family of Go
      types with their JSON codec.

    Checkpoints:
    - [Storage]: src/checkpoint/checkpoint.go, the save of
      src/checkpoint/archive.go.  The directory is a record; an operation is
      the list of its atomic actions; a crash leaves a prefix of them done.
    - [Coordinator]: src/checkpoint/coordinator.go, resolveCoordinatedRecovery of
      src/engine.go and the restart of a process.
    - [ExactlyOnce]: the crash-safety proofs over both.
    - [Injector]: injectBarriers and the position registry of src/engine.go.
    - [Positions]: src/source/source.go (position format) and
      src/source/kafka_offset_tracker.go.
    - [Snapshots]: addBarrierSnapshot, collectSnapshots and
      restoreWorkersFromCheckpoint of src/engine.go.
    - [Engine]: the rest of src/engine.go: checks, resuming, saving, results.
    - [Supervisor]: the goroutines of Execute around a running pipeline, a step
      relation over their interleavings with time and the caller.
    - [AtLeastOnce]: a job with a plain sink end to end, from the logs of the
      partitions to the restored process.
    - [Savepoint], [S3Blobstore]: src/checkpoint/{archive,savepoint,blob,
      s3_blobstore}.go.  [Blobstore] with [BlobstoreLaws] is the interface that
      savepoints are verified against; files and S3 implement it.

    Connectors:
    - [SourceWatermark]: src/source/watermark.go, kafka_watermark_tracker.go.
    - [KafkaSource], [KafkaSourceCorrect]: src/source/kafka*.go, auth.go,
      failure.go, deserialize.go.
    - [TxnSink], [TxnProbe]: src/sink/kafka_txn.go and the authentication of
      src/sink/auth.go.
    - [BatchSink]: src/sink/{batch,failure,kafka}.go.
    - [PostgresSink]: src/sink/postgres*.go.
    - [HttpSink]: src/sink/{http,s3,dlq}*.go.
    - [FileConnector]: src/source/{file,slice,generator}.go, src/sink/file.go.

    Workflows:
    - [Workflow]: src/workflow/{spec,validate}.go.
    - [WorkflowCompile], [WorkflowCorrect]: src/workflow/compiler, src/stream.go.
    - [FieldOps], [FieldOpsCorrect], [FieldOpsRun]: src/workflow/record and
      src/workflow/operators; Go maps are objects in a heap.

    Control plane:
    - [Lifecycle]: src/control/lifecycle/lifecycle.go.
    - [JobStore]: src/control/store.
    - [Controller]: src/control/{controller,reconcile,launch_failure,secrets,
      sweep}.go, in a monad whose oracle answers every call and may kill the
      process before any of them.
    - [Fencing]: the invariants of the controller, in a crash logic over that
      monad.
    - [Backend]: src/control/backend/{docker,kubernetes,backend}.go.
    - [JobAgent]: src/jobagent and Serve of src/sdk/sdk.go: the process of a job.
    - [Sdk]: the rest of src/sdk/sdk.go and src/cmd/weibo-runner: what that
      process reads from its environment.
    - [History]: src/control/{history,discovery,diagnostics}.go.
    - [Api]: src/control/api/api.go, over the monad of the controller.
    - [Cli]: src/control/cmd/weibo: flags, client, dashboard checks, deployment.

    Function names are the source's; a Go method and its receiver become a
    function on the record that models the receiver.  Select loops are functions
    of the list of chosen branches.  Loops are structural recursion, or recursion
    on fuel with a proof that a stated amount suffices or with fuel that the
    input bounds: sliding windows ([sliding_assign_spec]), the marker probe (one
    round more than there are records left, [probe_tells_committed]), the reading
    of a heap value (one more than the objects allocated), the lines of a file
    and the tokens of an address template (the length of the text), the pages of
    an object listing (one round per page, [s3_List_spec]).  Integers are [Z] with
    the 64-bit wrap-around written out ([i64_add], [wrap64]) wherever Go's
    arithmetic could wrap.

    ** What is assumed

    Code outside the repository is a parameter; its documented behaviour is the
    laws of a class or a named hypothesis, and each has an instance that a
    witness runs: [PebbleLaws] (an ordered store), [KafkaTransactions] (what
    read-committed consumers see of a transaction) with the laws on offset
    listings and fetches of [TxnProbe], [fencing_laws] (the backend names new
    containers freshly and lists them), [DockerDaemon] (create, start, stop,
    remove, inspect), [S3Laws] (objects by key, listings in pages), round trips of
    JSON and YAML codecs ([RecordCodec], [TimerJSON], [PositionJSON], the codecs of
    [FieldOps], [TypedStream], the request bodies and manifests of [Cli],
    checkpoint records in [Savepoint]), that a SHA-256 digest has 32 bytes, the
    injectivity of the %#v verb on column values, and that ranging over a map
    or walking a directory visits each entry once.

    ** What the theorems show

    - Exactly once ([exactly_once_job], [exactly_once_after_crash],
      [finalize_completes]): whatever the sequence of checkpoints, crashes and
      restarts, recovery restores the checkpoint of the last transaction the
      sink committed.  One window is excluded and is a real gap:
      [stale_pointer_replays].  The transactional sink and its probe meet what
      this asks of a sink ([txn_sink_refines_contract], [probe_tells_committed],
      [restart_agrees_with_output]).
    - At least once ([at_least_once]): with plain sinks, what the sink had taken
      at the restored barrier and the output of the restored process cover the
      uninterrupted run; a sink that buffers loses what it had only taken
      ([checkpoint_before_flush]).
    - Runs ([execute_never_loses_failure], [shutdown_unwinds]): whatever the
      interleaving, a run ends with the error it has to report, is cancelled hard
      only for a reason, and its supervision never gets stuck.
    - Storage ([retention_keeps_newest], [load_pointer_repairs]): retention and
      pointer repair; [extract_older_is_lost] for archives.  Savepoints restore
      ([savepoint_restores]) and stay in their directory ([extract_confined]), on
      files and on S3 alike ([s3_store_as_files]).
    - Alignment ([injector_aligned], [tracker_restores_snapshot]): a barrier's
      registered positions are exactly those of the records before it;
      [quiet_partition_forgotten] shows what they omit.
    - Stages ([merge_refines_aligned], [merge_always_finishes],
      [parallel_stage_correct], [keyed_stage_correct], [keyed_route_correct],
      [round_robin_correct], [stateless_fusion_correct], ...): parallel stages
      refine the sequential reading of the pipeline, up to the order of data
      between two markers; they terminate and do not get stuck, unless a worker
      closes early ([merge_early_close_stuck]).
    - Operators ([window_emits_accepted_once], [watermark_fires_exactly],
      [window_never_reopens], [session_merge_correct], [reduce_*],
      [keyed_timers_exact], [keyed_restore_transparent]): windows fire once and
      completely, sessions merge without loss, eviction is invisible, timers fire
      exactly, snapshots restore; the join emits every pair once
      ([join_emits_all_pairs]).
    - Typed streams ([typed_pipeline_correct], [typed_sink_delivers]): a chain of
      typed operators computes the chain of its functions, and its sink gets
      every value once and in order.
    - Operator state ([collected_state_restored]): every operator gets its own
      snapshot back.
    - Backends ([pebble_refines_memory], [pebble_checkpoint_restore]): Pebble
      behaves as memory does, except for list keys with a NUL byte
      ([pebble_nul_key_leak]).
    - Sources ([watermark_source_in_time], [source_windows_complete],
      [committed_were_delivered], [exactly_once_commits],
      [readers_follow_partitions]): watermarks respect the bound of disorder,
      offsets are committed only for what was handed on.
    - Sinks ([kafka_sink_accounts], [http_sink_accounts], [s3_sink_accounts],
      [dedupe_matches_upserts], [file_written_read_once]): every record is
      written or accounted for by the failure policy.
    - Workflows ([validate_accepts_exactly], [workflow_compiles],
      [rename_fields_move]): validation is a predicate on documents, and valid
      documents compile to what they say.
    - Control plane ([one_live_container], [store_well_formed],
      [docker_backs_controller], [capacity_slots_fit]): at most one container of
      a job lives, but for requests that overtake the reconciler
      ([restart_before_reattach_runs_two]); Docker implements the backend that
      the proof assumes.
    - Job processes ([agent_phases_forward], [stop_with_savepoint],
      [launched_runner_configured]): phases only advance, a process exits with 0
      exactly if it ended cleanly and its savepoint exists, and it finds the
      settings both backends launch it with.
    - API and command line ([api_change_accounted], [submit_binds_answer],
      [mutations_limited], [configured_tokens_accepted],
      [commands_reach_controller], [public_bind_needs_token],
      [deployed_image_is_pushed]): nothing changes without a read-write token, a
      place under the limit and an audit entry; a command has the effect of the
      controller's operation.  Flags after the job ID are lost
      ([flags_after_id_ignored]).
    - History ([history_keeps_recent], [sampling_order_free]): the newest samples
      are kept, whatever order the scrapes end in.

    ** What is left out

    Metrics, tracing, logging, the embedded page, the printing of the command line
    and the parsing of YAML are I/O or library code; examples and benchmarks use
    what is modelled.  Opening state backends, connecting the channels of the
    stages and the rows behind the records of the store are left out.  A request
    to the API is served in one step, and the probes of a sampling pass read the
    store one after the other.  I/O errors of the checkpoint directory are not
    modelled: writes either happen or the process dies before them.
    Cancellation inside the stateless and keyed stages is not modelled. *)

From stdpp Require Export base tactics option list list_numbers sorting gmap strings.
From Stdlib Require Export ZArith Lia.
From Stdlib Require Import Strings.Byte.

#[global] Set Default Goal Selector "!".
#[global] Open Scope Z_scope.

(** ** Byte strings

    A Go [string] and a Go [[]byte] are both a sequence of octets and the code
    converts freely between them, so both are [bytes] here.  The difference
    between a nil and an empty slice is modelled (with [option]) only where
    the code observes it. *)

Abbreviation bytes := (list byte).

#[global] Instance byte_eq_dec : EqDecision byte := Byte.byte_eq_dec.

#[global] Program Instance byte_countable : Countable byte :=
  {| encode b := encode (Byte.to_N b); decode p := decode (A:=N) p ≫= Byte.of_N |}.
Next Obligation.
  intros b. change (decode (A:=N) (encode (Byte.to_N b)) ≫= Byte.of_N = Some b).
  rewrite decode_encode. apply Byte.of_to_N.
Qed.

(** A string literal as a byte string. *)
Definition bs (s : string) : bytes := String.list_byte_of_string s.

(** The numeric value of a byte and the byte of a number (Go's [byte(z)]
    conversion truncates). *)
Definition Z_of_byte (b : byte) : Z := Z.of_N (Byte.to_N b).

Definition byte_of_Z (z : Z) : byte :=
  match Byte.of_N (Z.to_N (z mod 256)) with Some b => b | None => x00 end.

Lemma Z_of_byte_range b : 0 ≤ Z_of_byte b < 256.
Proof. unfold Z_of_byte. pose proof (Byte.to_N_bounded b). lia. Qed.

Lemma Z_of_byte_of_Z z : Z_of_byte (byte_of_Z z) = z mod 256.
Proof.
  unfold Z_of_byte, byte_of_Z. pose proof (Z.mod_pos_bound z 256 eq_refl).
  destruct (Byte.of_N _) as [b|] eqn:E.
  - apply Byte.to_of_N in E. rewrite E. lia.
  - apply Byte.of_N_None_iff in E. lia.
Qed.

Lemma byte_of_Z_of_byte b : byte_of_Z (Z_of_byte b) = b.
Proof.
  unfold byte_of_Z, Z_of_byte. pose proof (Byte.to_N_bounded b).
  rewrite Z.mod_small, N2Z.id by lia. by rewrite Byte.of_to_N.
Qed.

Lemma Z_of_byte_inj a b : Z_of_byte a = Z_of_byte b → a = b.
Proof. intros H. by rewrite <- (byte_of_Z_of_byte a), <- (byte_of_Z_of_byte b), H. Qed.

(** Byte-wise lexicographic order, Go's [bytes.Compare(a, b) < 0]. *)
Fixpoint bytes_ltb (a b : bytes) : bool :=
  match a, b with
  | _, [] => false
  | [], _ :: _ => true
  | x :: a', y :: b' =>
      if Z_of_byte x <? Z_of_byte y then true
      else if Z_of_byte x =? Z_of_byte y then bytes_ltb a' b' else false
  end.

Definition bytes_lt (a b : bytes) : Prop := bytes_ltb a b = true.

#[global] Instance bytes_lt_dec : RelDecision bytes_lt.
Proof. intros a b. unfold bytes_lt. apply _. Defined.

(** ** Machine integers *)

Definition two63 : Z := 2 ^ 63.
Definition two64 : Z := 2 ^ 64.

(** Two's-complement reinterpretation as [int64]. *)
Definition wrap64 (z : Z) : Z := (z + two63) mod two64 - two63.
(** Reinterpretation as [uint64] / [uint32]. *)
Definition wrapu64 (z : Z) : Z := z mod two64.
Definition wrapu32 (z : Z) : Z := z mod 2 ^ 32.

Definition in_i64 (z : Z) : Prop := - two63 ≤ z < two63.

#[global] Instance in_i64_dec z : Decision (in_i64 z).
Proof. unfold in_i64. apply _. Defined.

(** [solve_i64] closes range goals after unfolding the constants. *)
Ltac unfold_i64 := unfold in_i64, two63, two64 in *; change (2 ^ 63) with 9223372036854775808 in *;
  change (2 ^ 64) with 18446744073709551616 in *.
Ltac solve_i64 := unfold_i64; lia.

Lemma wrap64_range z : in_i64 (wrap64 z).
Proof. unfold wrap64. pose proof (Z.mod_pos_bound (z + two63) two64 eq_refl). solve_i64. Qed.

Lemma wrap64_id z : in_i64 z → wrap64 z = z.
Proof. intros H. unfold wrap64. rewrite Z.mod_small; solve_i64. Qed.

Lemma wrap64_idemp z : wrap64 (wrap64 z) = wrap64 z.
Proof. apply wrap64_id, wrap64_range. Qed.

Lemma wrap64_wrapu64 z : wrap64 (wrapu64 z) = wrap64 z.
Proof.
  unfold wrap64, wrapu64. f_equal. by rewrite Zplus_mod_idemp_l.
Qed.

Lemma wrap64_mod z : wrapu64 (wrap64 z) = wrapu64 z.
Proof.
  unfold wrap64, wrapu64. rewrite Zminus_mod_idemp_l. f_equal. lia.
Qed.

(** Go's signed division truncates toward zero (and wraps at MinInt64 / -1);
    a zero divisor panics, which the callers model. *)
Definition i64_add (a b : Z) : Z := wrap64 (a + b).
Definition i64_sub (a b : Z) : Z := wrap64 (a - b).
Definition i64_mul (a b : Z) : Z := wrap64 (a * b).
Definition i64_div (a b : Z) : Z := wrap64 (Z.quot a b).

(** ** Instants and durations

    A [time.Time] is the number of nanoseconds since the Unix epoch, as an
    unbounded integer: Go's representation covers far more than 64 bits of
    nanoseconds.  [UnixNano] is the 64-bit view, which wraps outside years 1678
    to 2262, as Go's does.  A [time.Duration] is an [int64] of nanoseconds. *)

Definition time := Z.
Definition duration := Z.

(** The zero [time.Time], January 1 of year 1, UTC. *)
Definition zeroTime : time := -62135596800 * 1000000000.

Definition IsZero (t : time) : bool := t =? zeroTime.
Definition Before (t u : time) : bool := t <? u.
Definition After (t u : time) : bool := u <? t.
Definition Add (t : time) (d : duration) : time := t + d.
Definition UnixNano (t : time) : Z := wrap64 t.
(** [time.Unix(0, n).UTC()] *)
Definition UnixTime (n : Z) : time := n.

Lemma UnixTime_UnixNano t : in_i64 t → UnixTime (UnixNano t) = t.
Proof. apply wrap64_id. Qed.

(** The zero time does not survive a trip through [UnixNano]. *)
Lemma zeroTime_UnixNano : UnixTime (UnixNano zeroTime) = -6795364578871345152.
Proof. reflexivity. Qed.

(** ** Results

    [Ok]/[Err] for the [(value, error)] convention; an [error] is carried as
    the message bytes.  [Panic] is a Go run-time panic. *)

Inductive result (A : Type) : Type :=
| Ok (a : A)
| Err (e : bytes)
| Panic (e : bytes).
Arguments Ok {A} a.
Arguments Err {A} e.
Arguments Panic {A} e.

Declare Scope weibo_scope.
Delimit Scope weibo_scope with weibo.
#[global] Open Scope weibo_scope.

Definition rbind {A B} (c : result A) (k : A → result B) : result B :=
  match c with Ok a => k a | Err e => Err e | Panic e => Panic e end.

Notation "x <-? c ;; k" := (rbind c (fun x => k))
  (at level 60, c at next level, right associativity) : weibo_scope.
Lemma rbind_Ok {A B} (c : result A) (k : A → result B) b :
  rbind c k = Ok b ↔ ∃ a, c = Ok a ∧ k a = Ok b.
Proof. destruct c as [a| |]; simpl; split; [eauto|by intros (? & [= <-] & ?)|done|by intros (? & ? & ?)|done|by intros (? & ? & ?)]. Qed.

(** ** The lexicographic order is a strict total order *)

Lemma bytes_ltb_irrefl a : bytes_ltb a a = false.
Proof. induction a as [|x a IH]; simpl; [done|]. by rewrite Z.ltb_irrefl, Z.eqb_refl. Qed.

Lemma bytes_ltb_trans a b c :
  bytes_ltb a b = true → bytes_ltb b c = true → bytes_ltb a c = true.
Proof.
  revert b c. induction a as [|x a IH]; intros [|y b] [|z c]; simpl; try done.
  destruct (Z.ltb_spec (Z_of_byte x) (Z_of_byte y)),
    (Z.ltb_spec (Z_of_byte y) (Z_of_byte z)), (Z.ltb_spec (Z_of_byte x) (Z_of_byte z));
    try done; try lia;
    destruct (Z.eqb_spec (Z_of_byte x) (Z_of_byte y)),
      (Z.eqb_spec (Z_of_byte y) (Z_of_byte z)), (Z.eqb_spec (Z_of_byte x) (Z_of_byte z));
    try done; try lia; eauto.
Qed.

Lemma bytes_ltb_total a b : bytes_ltb a b = false → bytes_ltb b a = false → a = b.
Proof.
  revert b. induction a as [|x a IH]; intros [|y b]; simpl; try done.
  destruct (Z.ltb_spec (Z_of_byte x) (Z_of_byte y)); [done|].
  destruct (Z.ltb_spec (Z_of_byte y) (Z_of_byte x)); [done|].
  assert (Z_of_byte x = Z_of_byte y) as E by lia.
  rewrite E, Z.eqb_refl. apply Z_of_byte_inj in E as ->. intros. f_equal. auto.
Qed.

Lemma bytes_ltb_app_l p a b : bytes_ltb (p ++ a) (p ++ b) = bytes_ltb a b.
Proof. induction p as [|x p IH]; simpl; [done|]. by rewrite Z.ltb_irrefl, Z.eqb_refl. Qed.

(** ** Generic list lemmas *)

Section list_lemmas.
Context {A : Type}.

Lemma filter_all (P : A → Prop) `{!∀ x, Decision (P x)} l :
  Forall P l → filter P l = l.
Proof.
  induction 1 as [|x l Hx _ IH]; [done|]. by rewrite filter_cons_True, IH.
Qed.

Lemma filter_none (P : A → Prop) `{!∀ x, Decision (P x)} l :
  Forall (λ x, ¬ P x) l → filter P l = [].
Proof.
  induction 1 as [|x l Hx _ IH]; [done|]. by rewrite filter_cons_False, IH.
Qed.

Lemma StronglySorted_filter (R : A → A → Prop) (P : A → Prop) `{!∀ x, Decision (P x)} l :
  StronglySorted R l → StronglySorted R (filter P l).
Proof.
  induction 1 as [|x l Hs IH Hx]; [constructor|]. rewrite filter_cons.
  destruct (decide (P x)); [|done]. constructor; [done|].
  rewrite Forall_forall in *. intros y [_ Hy]%list_elem_of_filter. auto.
Qed.
End list_lemmas.

(** Decide equality hypotheses on booleans coming from comparisons. *)
Ltac b2p :=
  repeat match goal with
  | H : _ && _ = true |- _ => apply andb_true_iff in H; destruct H
  | H : negb _ = true |- _ => apply negb_true_iff in H
  | H : negb _ = false |- _ => apply negb_false_iff in H
  | H : (_ <? _) = true |- _ => apply Z.ltb_lt in H
  | H : (_ <? _) = false |- _ => apply Z.ltb_ge in H
  | H : (_ <=? _) = true |- _ => apply Z.leb_le in H
  | H : (_ <=? _) = false |- _ => apply Z.leb_gt in H
  | H : (_ =? _) = true |- _ => apply Z.eqb_eq in H
  | H : (_ =? _) = false |- _ => apply Z.eqb_neq in H
  end.

(** Case analysis on an [if] whose condition is a comparison on [Z]. *)
Ltac case_Z :=
  match goal with
  | |- context [Z.ltb ?a ?b] => destruct (Z.ltb_spec a b)
  | |- context [Z.leb ?a ?b] => destruct (Z.leb_spec a b)
  | |- context [Z.eqb ?a ?b] => destruct (Z.eqb_spec a b)
  end.

(** Linear arithmetic with divisions by constants. *)
Ltac zdiv := Z.to_euclidean_division_equations; lia.

(** Reduce binds in the option monad. *)
Ltac osimpl := cbn [mbind option_bind].

(** Unfold the comparisons on instants. *)
Ltac unfold_time := unfold Before, After, Add, UnixTime, IsZero, time, duration in *.

(** Numbers as bytes, one bit each: with [Countable] this gives concrete codecs. *)
Fixpoint bytes_of_pos (p : positive) : bytes :=
  match p with xH => [] | xO p => x00 :: bytes_of_pos p | xI p => x01 :: bytes_of_pos p end.
Fixpoint pos_of_bytes (l : bytes) : positive :=
  match l with [] => xH | b :: l => if decide (b = x00) then xO (pos_of_bytes l) else xI (pos_of_bytes l) end.
Lemma pos_of_bytes_of p : pos_of_bytes (bytes_of_pos p) = p.
Proof. induction p as [p IH|p IH|]; simpl; [by rewrite IH..|done]. Qed.

(** ** Text *)

(** [strings.ToLower] on ASCII. *)
Definition to_lower (s : bytes) : bytes :=
  (λ b, let z := Z_of_byte b in if (65 <=? z) && (z <=? 90) then byte_of_Z (z + 32) else b) <$> s.

(** [strings.HasPrefix], prefix first. *)
Fixpoint has_prefix (p s : bytes) : bool :=
  match p, s with
  | [], _ => true
  | a :: p, b :: s => bool_decide (a = b) && has_prefix p s
  | _ :: _, [] => false
  end.

(** [strings.ToUpper] on ASCII. *)
Definition to_upper (s : bytes) : bytes :=
  (λ b, let z := Z_of_byte b in if (97 <=? z) && (z <=? 122) then byte_of_Z (z - 32) else b) <$> s.

(** [strings.TrimSpace] on ASCII. *)
Definition is_space (b : byte) : bool := let z := Z_of_byte b in (z =? 32) || ((9 <=? z) && (z <=? 13)).
Fixpoint trim_left (s : bytes) : bytes :=
  match s with b :: s' => if is_space b then trim_left s' else s | [] => [] end.
Definition trim_space (s : bytes) : bytes := reverse (trim_left (reverse (trim_left s))).

(** [strings.Contains] *)
Fixpoint bytes_contains (s sub : bytes) : bool :=
  has_prefix sub s || match s with [] => false | _ :: s => bytes_contains s sub end.

(** [strings.Join], and [strings.Split] at a byte. *)
Fixpoint strings_Join (sep : bytes) (l : list bytes) : bytes :=
  match l with [] => [] | [x] => x | x :: l => x ++ sep ++ strings_Join sep l end.
Fixpoint strings_Split (sep : byte) (s : bytes) : list bytes :=
  match s with
  | [] => [[]]
  | c :: s =>
      if decide (c = sep) then [] :: strings_Split sep s
      else match strings_Split sep s with p :: ps => (c :: p) :: ps | [] => [[c]] end
  end.

Lemma strings_Split_free sep s p : p ∈ strings_Split sep s → sep ∉ p.
Proof.
  revert p. induction s as [|c s IH]; intros p; cbn [strings_Split].
  - intros ->%list_elem_of_singleton. apply not_elem_of_nil.
  - case_decide as Hc.
    + intros [->|Hp]%elem_of_cons; [apply not_elem_of_nil|by apply IH].
    + destruct (strings_Split sep s) as [|q qs] eqn:E.
      * intros ->%list_elem_of_singleton. intros Hin. apply list_elem_of_singleton in Hin. congruence.
      * intros [->|Hp]%elem_of_cons; [|by apply IH; right]. intros [Hc'|Hin]%elem_of_cons; [congruence|]. by apply (IH q); [left|].
Qed.

Lemma trim_left_plain s : (∀ b, head s = Some b → is_space b = false) → trim_left s = s.
Proof. destruct s as [|b s]; [done|]. intros H. cbn. by rewrite (H b eq_refl). Qed.
Lemma trim_space_plain s : Forall (λ b, is_space b = false) s → trim_space s = s.
Proof.
  intros Hs. unfold trim_space. rewrite (trim_left_plain s); [|intros b Hb; rewrite Forall_forall in Hs; by apply Hs, head_Some_elem_of].
  rewrite trim_left_plain; [apply reverse_involutive|]. intros b Hb. apply head_Some_elem_of in Hb. rewrite elem_of_reverse in Hb. rewrite Forall_forall in Hs. by apply Hs.
Qed.
Lemma Split_app c x s : c ∉ x → strings_Split c (x ++ c :: s) = x :: strings_Split c s.
Proof.
  induction x as [|b x IH]; intros Hx; cbn [app strings_Split]; [by rewrite decide_True|]. apply not_elem_of_cons in Hx as [Hb Hx].
  rewrite decide_False by congruence. by rewrite IH.
Qed.
Lemma Split_single c x : c ∉ x → strings_Split c x = [x].
Proof.
  induction x as [|b x IH]; intros Hx; cbn [strings_Split]; [done|]. apply not_elem_of_cons in Hx as [Hb Hx]. rewrite decide_False by congruence. by rewrite IH.
Qed.
Lemma strings_Split_Join c l : Forall (λ x, c ∉ x) l → l ≠ [] → strings_Split c (strings_Join [c] l) = l.
Proof.
  induction 1 as [|x l Hx Hl IH]; [done|]. intros _. destruct l as [|y l]; [by apply Split_single|].
  change (strings_Join [c] (x :: y :: l)) with (x ++ c :: strings_Join [c] (y :: l)). rewrite Split_app by done. by rewrite IH.
Qed.
Lemma trim_left_spec s : ∃ sp, s = sp ++ trim_left s ∧ ∀ b, head (trim_left s) = Some b → is_space b = false.
Proof.
  induction s as [|b s (sp & E & Hh)]; [by exists []|]. cbn [trim_left]. destruct (is_space b) eqn:Eb.
  - exists (b :: sp). split; [cbn; by f_equal|done].
  - exists []. split; [done|]. by intros c [= <-].
Qed.
Lemma trim_space_sub s b : b ∈ trim_space s → b ∈ s.
Proof.
  unfold trim_space. rewrite elem_of_reverse. destruct (trim_left_spec s) as (sp & E & _). destruct (trim_left_spec (reverse (trim_left s))) as (sp' & E' & _).
  intros Hb. rewrite E. apply elem_of_app. right. rewrite <- elem_of_reverse, E'. apply elem_of_app. by right.
Qed.
Lemma trim_space_idem s : trim_space (trim_space s) = trim_space s.
Proof.
  destruct (trim_left_spec s) as (sp & E & Hh). destruct (trim_left_spec (reverse (trim_left s))) as (sp' & E' & Hh').
  unfold trim_space at 2 3. set (v := trim_left (reverse (trim_left s))) in *. unfold trim_space. rewrite (trim_left_plain (reverse v)).
  - rewrite reverse_involutive. by rewrite trim_left_plain.
  - intros b Hb. destruct v as [|x v _] using rev_ind; [done|]. rewrite reverse_snoc in Hb. injection Hb as <-. apply Hh.
    rewrite <- (reverse_involutive (trim_left s)), E', app_assoc, reverse_snoc. done.
Qed.

Lemma has_prefix_spec p s : has_prefix p s = true ↔ p `prefix_of` s.
Proof.
  revert s. induction p as [|a p IH]; intros s; [split; [intros _; apply prefix_nil|done]|]. destruct s as [|b s]; cbn [has_prefix].
  - split; [done|]. by intros ?%prefix_nil_inv.
  - rewrite andb_true_iff, bool_decide_eq_true, IH. split; [intros [-> Hp]; by apply prefix_cons|].
    intros H. split; [by eapply prefix_cons_inv_1|by eapply prefix_cons_inv_2].
Qed.

Create HintDb weibo.
#[export] Hint Resolve wrap64_range wrap64_id : weibo.
