(* ===== verification/Record.v ===== *)
(** * The record flowing through the pipeline ([src/types/record.go])

    A record is data, a watermark or a checkpoint barrier; the three kinds
    share one struct, as in the code.  [Parsed], an arbitrary Go value filled in
    by an optional deserializer, is kept beside the record where it is used: in
    the deliveries of [KafkaSource] and the records of [FieldOps]. *)

From S2P Require Import Prelude.

(** [types.Record] *)
Record Record_ := mkRecord {
  Key : bytes;
  Value : bytes;
  Timestamp : time;
  Offset : Z;
  Partition : Z;
  Source : bytes;
  Headers : gmap bytes bytes;
  IsWatermark : bool;
  IsBarrier : bool;
  CheckpointID : bytes
}.

#[export] Instance Record_eq_dec : EqDecision Record_.
Proof. solve_decision. Defined.

(** The Go zero value of the struct. *)
Definition zeroRecord : Record_ :=
  mkRecord [] [] zeroTime 0 0 [] ∅ false false [].

(** [types.NewRecord]; the current time is an argument. *)
Definition NewRecord (now : time) (key value : bytes) : Record_ :=
  mkRecord key value now 0 0 [] ∅ false false [].

(** [types.NewWatermark] *)
Definition NewWatermark (ts : time) : Record_ :=
  mkRecord [] [] ts 0 0 [] ∅ true false [].

(** [types.NewBarrier] *)
Definition NewBarrier (checkpointID : bytes) : Record_ :=
  mkRecord [] [] zeroTime 0 0 [] ∅ false true checkpointID.

(** [Record.WithTimestamp] *)
Definition WithTimestamp (r : Record_) (t : time) : Record_ :=
  mkRecord (Key r) (Value r) t (Offset r) (Partition r) (Source r) (Headers r)
    (IsWatermark r) (IsBarrier r) (CheckpointID r).

(** [Record.WithOffset] *)
Definition WithOffset (r : Record_) (off : Z) : Record_ :=
  mkRecord (Key r) (Value r) (Timestamp r) off (Partition r) (Source r) (Headers r)
    (IsWatermark r) (IsBarrier r) (CheckpointID r).

(** [r.Key = k] on a copy of the record, as the keyed router does. *)
Definition setKey (r : Record_) (k : bytes) : Record_ :=
  mkRecord k (Value r) (Timestamp r) (Offset r) (Partition r) (Source r) (Headers r)
    (IsWatermark r) (IsBarrier r) (CheckpointID r).

Definition setHeaders (r : Record_) (h : gmap bytes bytes) : Record_ :=
  mkRecord (Key r) (Value r) (Timestamp r) (Offset r) (Partition r) (Source r) h
    (IsWatermark r) (IsBarrier r) (CheckpointID r).

(** [Record.WithHeader]: the map is cloned, then the entry added. *)
Definition WithHeader (r : Record_) (key value : bytes) : Record_ :=
  setHeaders r (<[key := value]> (Headers r)).

(** A marker is a barrier or a watermark: the test every stage makes. *)
Definition isMarker (r : Record_) : bool := IsBarrier r || IsWatermark r.

Definition is_data (r : Record_) : Prop := isMarker r = false.

#[export] Instance is_data_dec r : Decision (is_data r).
Proof. unfold is_data. apply _. Defined.

Lemma isMarker_NewBarrier id : isMarker (NewBarrier id) = true.
Proof. done. Qed.
Lemma isMarker_NewWatermark t : isMarker (NewWatermark t) = true.
Proof. done. Qed.
Lemma isMarker_setKey r k : isMarker (setKey r k) = isMarker r.
Proof. done. Qed.
