(* ===== verification/Window.v ===== *)
(** * Window assigners and watermark generation

    [src/window/] (tumbling, sliding and session assigners, [WindowStart],
    [MergeSessions]) and [src/watermark/bounded.go].

    [WindowStart] is modelled at 64 bits with Go's truncating division; a zero
    size is the run-time panic of an integer division by zero.  The two loops
    of [Sliding.AssignWindows] are fuelled: [None] is "fuel exhausted", and
    [sliding_assign_spec] shows that a fuel of [sliding_fuel] is enough
    whenever the slide is positive. *)

From S2P Require Import Prelude.

(** [window.Window]: the half-open interval [[Start, End)). *)
Record Window := mkWindow { Start : time; End_ : time }.

#[export] Instance Window_eq_dec : EqDecision Window.
Proof. solve_decision. Defined.

Definition contains (w : Window) (ts : time) : Prop := Start w ≤ ts < End_ w.

#[export] Instance contains_dec w ts : Decision (contains w ts).
Proof. unfold contains. apply _. Defined.

(** ** [WindowStart] *)

Definition WindowStart (ts : time) (size offset : duration) : result time :=
  let tsUnix := UnixNano ts in
  let aligned := i64_sub tsUnix offset in
  if size =? 0 then Panic (bs "integer divide by zero")
  else
    let start := i64_mul (i64_div aligned size) size in
    let start := i64_add start offset in
    Ok (UnixTime start).

(** The configurations for which no intermediate of [WindowStart] overflows. *)
Definition ws_safe (ts : time) (size offset : duration) : Prop :=
  0 < size ∧ in_i64 size ∧ in_i64 offset ∧ in_i64 ts ∧ in_i64 (ts - offset).

Lemma quot_mul_between a s : 0 < s →
  (0 ≤ a → 0 ≤ Z.quot a s * s ≤ a ∧ a < Z.quot a s * s + s)
  ∧ (a ≤ 0 → a ≤ Z.quot a s * s ≤ 0 ∧ Z.quot a s * s - s < a).
Proof.
  intros Hs. pose proof (Z.quot_rem a s ltac:(lia)) as E.
  split; intros Ha.
  - pose proof (Z.rem_bound_pos a s Ha Hs). pose proof (Z.quot_pos a s Ha Hs). nia.
  - pose proof (Z.rem_bound_pos (-a) s ltac:(lia) Hs) as Hr.
    rewrite Z.rem_opp_l in Hr by lia.
    assert (Z.quot a s ≤ 0) by (destruct (Z.le_gt_cases (Z.quot a s) 0); [done|nia]).
    nia.
Qed.

Lemma WindowStart_safe ts size offset :
  ws_safe ts size offset →
  WindowStart ts size offset = Ok (Z.quot (ts - offset) size * size + offset).
Proof.
  intros (Hs & Hsz & Ho & Ht & Hd). unfold WindowStart, UnixNano, i64_sub, i64_add, i64_mul, i64_div.
  rewrite (wrap64_id ts) by done. rewrite (wrap64_id (ts - offset)) by done.
  destruct (Z.eqb_spec size 0); [lia|].
  destruct (quot_mul_between (ts - offset) size Hs) as [Hp Hn].
  assert (in_i64 (Z.quot (ts - offset) size * size)) as Hq by solve_i64.
  assert (in_i64 (Z.quot (ts - offset) size)) as Hq' by (unfold_i64; nia).
  rewrite (wrap64_id (Z.quot _ _)), (wrap64_id (_ * _)) by done.
  by rewrite wrap64_id by solve_i64.
Qed.

(** ** Tumbling windows *)

Record Tumbling := mkTumbling { t_size : duration; t_offset : duration }.

Definition NewTumbling (size : duration) : Tumbling := mkTumbling size 0.
Definition Tumbling_WithOffset (t : Tumbling) (offset : duration) : Tumbling :=
  mkTumbling (t_size t) offset.

Definition Tumbling_AssignWindows (t : Tumbling) (timestamp : time) : result (list Window) :=
  start <-? WindowStart timestamp (t_size t) (t_offset t) ;;
  Ok [mkWindow start (Add start (t_size t))].

(** The windows of the tumbling grid: [[offset + k*size, offset + (k+1)*size)). *)
Definition tumbling_grid (t : Tumbling) (w : Window) : Prop :=
  ∃ k, Start w = t_offset t + k * t_size t ∧ End_ w = Start w + t_size t.

Lemma grid_unique off size k1 k2 ts : 0 < size →
  off + k1 * size ≤ ts < off + k1 * size + size →
  off + k2 * size ≤ ts < off + k2 * size + size → k1 = k2.
Proof. intros. nia. Qed.

(** ** Sliding windows *)

Record Sliding := mkSliding { s_size : duration; s_slide : duration; s_offset : duration }.

Definition NewSliding (size slide : duration) : Sliding := mkSliding size slide 0.
Definition Sliding_WithOffset (s : Sliding) (offset : duration) : Sliding :=
  mkSliding (s_size s) (s_slide s) offset.

(** The backward loop:
    [for start := lastStart; start.Add(size).After(ts); start = start.Add(-slide)]. *)
Fixpoint sliding_back (fuel : nat) (s : Sliding) (ts start : time) : option (list Window) :=
  match fuel with
  | O => None
  | S fuel' =>
      if After (Add start (s_size s)) ts then
        rest ← sliding_back fuel' s ts (Add start (- s_slide s));
        Some ((if negb (After start ts) then [mkWindow start (Add start (s_size s))] else [])
                ++ rest)
      else Some []
  end.

(** The forward loop:
    [for start := lastStart.Add(slide); start.Before(ts.Add(size)); start = start.Add(slide)]. *)
Fixpoint sliding_fwd (fuel : nat) (s : Sliding) (ts start : time) : option (list Window) :=
  match fuel with
  | O => None
  | S fuel' =>
      if Before start (Add ts (s_size s)) then
        rest ← sliding_fwd fuel' s ts (Add start (s_slide s));
        Some ((if negb (After start ts) && After (Add start (s_size s)) ts
               then [mkWindow start (Add start (s_size s))] else []) ++ rest)
      else Some []
  end.

Definition Sliding_AssignWindows (fuel : nat) (s : Sliding) (timestamp : time)
    : option (result (list Window)) :=
  match WindowStart timestamp (s_slide s) (s_offset s) with
  | Err e => Some (Err e)
  | Panic e => Some (Panic e)
  | Ok lastStart =>
      back ← sliding_back fuel s timestamp lastStart;
      fwd ← sliding_fwd fuel s timestamp (Add lastStart (s_slide s));
      let windows := back ++ fwd in
      Some (Ok (if decide (windows = [])
                then [mkWindow lastStart (Add lastStart (s_size s))]
                else windows))
  end.

(** Enough iterations for either loop. *)
Definition sliding_fuel (s : Sliding) : nat := Z.to_nat (s_size s / s_slide s + 3).

Definition sliding_safe (s : Sliding) (ts : time) : Prop :=
  s_slide s ≤ s_size s ∧ ws_safe ts (s_slide s) (s_offset s).

(** The reference: every window of the sliding grid that contains [ts]. *)
Definition sliding_member (s : Sliding) (ts : time) (w : Window) : Prop :=
  (∃ k, Start w = s_offset s + k * s_slide s)
  ∧ End_ w = Start w + s_size s ∧ contains w ts.

(** ** Session windows *)

Record Session := mkSession { gap : duration }.

Definition Session_AssignWindows (s : Session) (timestamp : time) : list Window :=
  [mkWindow timestamp (Add timestamp (gap s))].

Definition MergeSessions (a b : Window) : list Window :=
  if After (End_ a) (Start b) && Before (Start a) (End_ b) then
    let start := if Before (Start b) (Start a) then Start b else Start a in
    let end_ := if After (End_ b) (End_ a) then End_ b else End_ a in
    [mkWindow start end_]
  else [a; b].

(** ** Bounded out-of-orderness watermarks *)

Module Watermark.

Record BoundedOutOfOrderness := mkBounded {
  maxTimestamp : time;
  allowedLateness : duration
}.

Definition NewBoundedOutOfOrderness (lateness : duration) : BoundedOutOfOrderness :=
  mkBounded zeroTime lateness.

Definition OnRecord (g : BoundedOutOfOrderness) (timestamp : time) : BoundedOutOfOrderness :=
  if After timestamp (maxTimestamp g) then mkBounded timestamp (allowedLateness g) else g.

Definition GetWatermark (g : BoundedOutOfOrderness) : time :=
  if IsZero (maxTimestamp g) then zeroTime
  else Add (maxTimestamp g) (- allowedLateness g).

Definition CurrentWatermark (g : BoundedOutOfOrderness) : time := GetWatermark g.

Definition OnRecords (g : BoundedOutOfOrderness) (tss : list time) : BoundedOutOfOrderness :=
  foldl OnRecord g tss.

Lemma OnRecords_max tss g :
  maxTimestamp (OnRecords g tss) = foldl Z.max (maxTimestamp g) tss
  ∧ allowedLateness (OnRecords g tss) = allowedLateness g.
Proof.
  revert g. induction tss as [|t tss IH]; intros g; simpl; [done|].
  destruct (IH (OnRecord g t)) as [-> ->]. unfold OnRecord, After.
  case_Z; simpl; (split; [f_equal; lia|done]).
Qed.

Lemma foldl_max_ge m tss : m ≤ foldl Z.max m tss.
Proof.
  revert m. induction tss as [|u tss IH]; intros m; simpl; [lia|].
  specialize (IH (Z.max m u)). lia.
Qed.

Lemma foldl_max_ub m tss t : t ∈ tss → t ≤ foldl Z.max m tss.
Proof.
  revert m. induction tss as [|u tss IH]; intros m; simpl; [by intros ?%not_elem_of_nil|].
  intros [->|Hin]%elem_of_cons; [|by apply IH].
  pose proof (foldl_max_ge (Z.max m u) tss). lia.
Qed.

Lemma foldl_max_in m tss : foldl Z.max m tss = m ∨ foldl Z.max m tss ∈ tss.
Proof.
  revert m. induction tss as [|u tss IH]; intros m; simpl; [by left|].
  destruct (IH (Z.max m u)) as [E|Hin]; [|right; set_solver].
  rewrite E. destruct (Z.max_spec m u) as [[_ ->]|[_ ->]]; [right; set_solver|by left].
Qed.

End Watermark.

(** ** Correctness of the assigners *)

Lemma sliding_back_spec fuel s ts start :
  0 < s_slide s → start + s_size s - ts ≤ (Z.of_nat fuel - 1) * s_slide s → (0 < fuel)%nat →
  ∃ ws, sliding_back fuel s ts start = Some ws ∧ NoDup ws
    ∧ ∀ w, w ∈ ws ↔ (∃ i, 0 ≤ i ∧ Start w = start - i * s_slide s)
                    ∧ End_ w = Start w + s_size s ∧ contains w ts.
Proof.
  intros Hs. revert start. induction fuel as [|fuel IH]; intros start Hf ?; [lia|].
  simpl. unfold_time. case_Z.
  - destruct (IH (start + - s_slide s)) as (ws & -> & Hnd & Hin); [lia| |].
    { destruct fuel; [|lia]. nia. }
    eexists. split; [done|].
    assert (∀ w, w ∈ ws → Start w < start) as Hlt.
    { intros w (( i & ? & ->) & _)%Hin. nia. }
    split.
    + destruct (Z.ltb_spec ts start); simpl; [done|].
      apply NoDup_cons. split; [|done]. intros Hm%Hlt. simpl in Hm. lia.
    + intros [a b]. rewrite elem_of_app, Hin. unfold contains; simpl. split.
      * intros [Hw|((i & ? & ->) & -> & ?)].
        -- destruct (Z.ltb_spec ts start); simpl in Hw; [by apply not_elem_of_nil in Hw|].
           apply list_elem_of_singleton in Hw as [= -> ->].
           split; [exists 0; lia|]. lia.
        -- split; [exists (i + 1); lia|]. lia.
      * intros ((i & Hi & ->) & -> & ?). destruct (decide (i = 0)) as [->|].
        -- left. destruct (Z.ltb_spec ts start); simpl; [lia|].
           apply list_elem_of_singleton. f_equal; lia.
        -- right. split; [exists (i - 1); lia|]. lia.
  - eexists. split; [done|]. split; [constructor|].
    intros [a b]. split; [by intros ?%not_elem_of_nil|].
    unfold contains; simpl. intros ((i & ? & ->) & -> & ?). nia.
Qed.

Lemma sliding_fwd_spec fuel s ts start :
  0 < s_slide s → ts < start → (0 < fuel)%nat →
  ts + s_size s - start ≤ (Z.of_nat fuel - 1) * s_slide s →
  sliding_fwd fuel s ts start = Some [].
Proof.
  intros Hs. revert start. induction fuel as [|fuel IH]; intros start Hst ? Hf; [lia|].
  simpl. unfold_time. case_Z; [|done].
  rewrite IH by (destruct fuel; nia). simpl.
  destruct (Z.ltb_spec ts start); [done|lia].
Qed.

(** A timestamp not before the offset is assigned to exactly one
    tumbling window, the only window of the grid that contains it. *)
Theorem tumbling_assign_correct (t : Tumbling) (ts : time) :
  ws_safe ts (t_size t) (t_offset t) → t_offset t ≤ ts →
  ∃ w, Tumbling_AssignWindows t ts = Ok [w]
    ∧ tumbling_grid t w ∧ contains w ts
    ∧ ∀ w', tumbling_grid t w' → contains w' ts → w' = w.
Proof.
  intros Hsafe Hle. unfold Tumbling_AssignWindows. rewrite WindowStart_safe by done. simpl.
  destruct Hsafe as (Hs & _). eexists. split; [done|].
  destruct (quot_mul_between (ts - t_offset t) (t_size t) Hs) as [Hp _].
  specialize (Hp ltac:(lia)). unfold_time.
  split; [eexists; simpl; split; [apply Z.add_comm|done]|].
  split; [unfold contains; simpl; lia|].
  intros [a b] [k [Ha Hb]]; unfold contains; simpl in *; intros Hc; subst.
  rewrite (grid_unique (t_offset t) (t_size t) k (Z.quot (ts - t_offset t) (t_size t)) ts)
    by lia. f_equal; lia.
Qed.

Lemma tumbling_assign_correct_witness :
  ∃ w, Tumbling_AssignWindows (mkTumbling 300 60) 1000 = Ok [w]
    ∧ tumbling_grid (mkTumbling 300 60) w ∧ contains w 1000
    ∧ ∀ w', tumbling_grid (mkTumbling 300 60) w' → contains w' 1000 → w' = w.
Proof.
  apply (tumbling_assign_correct (mkTumbling 300 60) 1000).
  - unfold ws_safe; simpl. solve_i64.
  - simpl. lia.
Defined.

(** A timestamp before the offset that is not on the grid is assigned
    to a window that starts after it and does not contain it. *)
Theorem tumbling_before_offset_misses (t : Tumbling) (ts : time) :
  ws_safe ts (t_size t) (t_offset t) → ts < t_offset t →
  (ts - t_offset t) mod t_size t ≠ 0 →
  ∃ w, Tumbling_AssignWindows t ts = Ok [w] ∧ ts < Start w ∧ ¬ contains w ts.
Proof.
  intros Hsafe Hlt Hmod. unfold Tumbling_AssignWindows. rewrite WindowStart_safe by done. simpl.
  destruct Hsafe as (Hs & _). eexists. split; [done|].
  destruct (quot_mul_between (ts - t_offset t) (t_size t) Hs) as [_ Hn].
  specialize (Hn ltac:(lia)).
  assert (Z.quot (ts - t_offset t) (t_size t) * t_size t ≠ ts - t_offset t) as Hne.
  { intros E. apply Hmod. rewrite <- E. apply Z.mod_mul. lia. }
  unfold contains, Add; simpl. lia.
Qed.

Lemma tumbling_before_offset_misses_witness :
  ∃ w, Tumbling_AssignWindows (NewTumbling 10) (-3) = Ok [w] ∧ -3 < Start w ∧ ¬ contains w (-3).
Proof.
  apply (tumbling_before_offset_misses (NewTumbling 10) (-3)).
  - unfold ws_safe; simpl. solve_i64.
  - simpl. lia.
  - vm_compute. discriminate.
Defined.

(** Sliding assignment terminates and returns, without duplicates,
    exactly the windows of the slide grid that contain the timestamp. *)
Theorem sliding_assign_spec (s : Sliding) (ts : time) (fuel : nat) :
  sliding_safe s ts → (sliding_fuel s ≤ fuel)%nat →
  ∃ ws, Sliding_AssignWindows fuel s ts = Some (Ok ws) ∧ ws ≠ [] ∧ NoDup ws
    ∧ ∀ w, w ∈ ws ↔ sliding_member s ts w.
Proof.
  intros (Hle & Hsafe) Hfuel. unfold Sliding_AssignWindows.
  rewrite WindowStart_safe by done. destruct Hsafe as (Hs & _ & _).
  destruct (quot_mul_between (ts - s_offset s) (s_slide s) Hs) as [Hp Hn].
  set (q := Z.quot _ _) in *.
  assert (ts < q * s_slide s + s_offset s + s_slide s
          ∧ q * s_slide s + s_offset s < ts + s_slide s) as [Hlo Hhi].
  { destruct (decide (0 ≤ ts - s_offset s)); lia. }
  assert (Hdiv : s_size s < (s_size s / s_slide s + 1) * s_slide s).
  { pose proof (Z.mul_succ_div_gt (s_size s) (s_slide s) Hs). lia. }
  assert (0 ≤ s_size s / s_slide s) by (apply Z.div_pos; lia).
  assert (s_size s + s_slide s ≤ (Z.of_nat fuel - 1) * s_slide s) as Hb.
  { unfold sliding_fuel in Hfuel. nia. }
  assert (0 < fuel)%nat by (unfold sliding_fuel in Hfuel; lia).
  destruct (sliding_back_spec fuel s ts (q * s_slide s + s_offset s)) as (ws & -> & Hnd & Hin);
    [lia|lia|done|].
  simpl. unfold Add. rewrite sliding_fwd_spec; [|lia..]. simpl. rewrite app_nil_r.
  assert (∀ w, w ∈ ws ↔ sliding_member s ts w) as Hmem.
  { intros w. rewrite Hin. unfold sliding_member, contains. split.
    - intros ((i & ? & E) & ? & ?). split; [exists (q - i); lia|done].
    - intros ((k & E) & ? & ?). split; [|done]. exists (q - k). split; [|lia]. nia. }
  assert (ws ≠ []) as Hne.
  { set (k := (ts - s_offset s) / s_slide s).
    pose proof (Z.mul_div_le (ts - s_offset s) (s_slide s) Hs).
    pose proof (Z.mul_succ_div_gt (ts - s_offset s) (s_slide s) Hs).
    intros ->. apply (not_elem_of_nil (mkWindow (s_offset s + k * s_slide s)
                                        (s_offset s + k * s_slide s + s_size s))).
    apply Hmem. split; [by exists k|]. unfold contains; simpl. lia. }
  rewrite decide_False by done. eauto.
Qed.

Lemma sliding_assign_spec_witness :
  ∃ ws, Sliding_AssignWindows 8 (NewSliding 5 1) 3 = Some (Ok ws) ∧ ws ≠ [] ∧ NoDup ws
    ∧ ∀ w, w ∈ ws ↔ sliding_member (NewSliding 5 1) 3 w.
Proof.
  apply (sliding_assign_spec (NewSliding 5 1) 3 8).
  - unfold sliding_safe, ws_safe; simpl. solve_i64.
  - vm_compute. lia.
Defined.

(** Two windows that share no instant are returned unchanged; two that
    overlap become their union, the hull of both. *)
Theorem MergeSessions_spec (a b : Window) :
  (∀ ts, ¬ (contains a ts ∧ contains b ts)) ∧ MergeSessions a b = [a; b]
  ∨ Start a < End_ b ∧ Start b < End_ a
    ∧ ∃ w, MergeSessions a b = [w]
        ∧ Start w = Z.min (Start a) (Start b) ∧ End_ w = Z.max (End_ a) (End_ b)
        ∧ (Start a ≤ End_ a → Start b ≤ End_ b →
           ∀ ts, contains w ts ↔ contains a ts ∨ contains b ts).
Proof.
  unfold MergeSessions, contains. unfold_time.
  destruct (Z.ltb_spec (Start b) (End_ a)), (Z.ltb_spec (Start a) (End_ b)); simpl.
  - right. split; [done|]. split; [done|].
    eexists; split; [done|]. simpl.
    repeat case_Z; simpl; split; try lia; split; try lia; intros; lia.
  - left. split; [intros; lia|done].
  - left. split; [intros; lia|done].
  - left. split; [intros; lia|done].
Qed.

Import Watermark.

(** The bounded-out-of-orderness watermark is the largest timestamp
    seen minus the bound, never makes a record within the bound late, and
    never goes back. *)
Theorem bounded_watermark_spec (lateness : duration) (tss : list time) (t : time) :
  0 ≤ lateness → t ∈ tss → Forall (λ u, zeroTime < u) tss →
  let g := OnRecords (NewBoundedOutOfOrderness lateness) tss in
  (∃ m, m ∈ tss ∧ (∀ u, u ∈ tss → u ≤ m) ∧ GetWatermark g = m - lateness)
  ∧ (∀ late, (∀ u, u ∈ tss → u - lateness ≤ late) → Before late (GetWatermark g) = false)
  ∧ (∀ next, GetWatermark g ≤ GetWatermark (OnRecord g next)).
Proof.
  intros Hl Ht Hz. simpl.
  destruct (OnRecords_max tss (NewBoundedOutOfOrderness lateness)) as [Hm Ha].
  set (g := OnRecords _ tss) in *. simpl in Hm, Ha.
  assert (Hub : ∀ u, u ∈ tss → u ≤ maxTimestamp g) by (rewrite Hm; intros; by apply foldl_max_ub).
  assert (zeroTime < maxTimestamp g) as Hpos.
  { rewrite Forall_forall in Hz. specialize (Hz t Ht). specialize (Hub t Ht). lia. }
  assert (HW : GetWatermark g = maxTimestamp g - lateness).
  { unfold GetWatermark, IsZero. rewrite Ha. destruct (Z.eqb_spec (maxTimestamp g) zeroTime); [lia|].
    unfold Add. lia. }
  split; [|split].
  - exists (maxTimestamp g). split; [|done].
    rewrite Hm. destruct (foldl_max_in zeroTime tss) as [E|]; [|done].
    rewrite <- Hm in E. lia.
  - intros late Hlate. rewrite HW. unfold Before. apply Z.ltb_ge. apply Hlate.
    rewrite Hm. destruct (foldl_max_in zeroTime tss) as [E|]; [|done].
    rewrite <- Hm in E. lia.
  - intros next. unfold OnRecord. unfold_time. case_Z; [|lia].
    rewrite HW. unfold GetWatermark, IsZero; simpl. rewrite Ha. unfold Add.
    destruct (Z.eqb_spec next zeroTime); lia.
Qed.

Lemma bounded_watermark_spec_witness :
  let g := OnRecords (NewBoundedOutOfOrderness 5) [10; 8; 15; 12] in
  (∃ m, m ∈ [10; 8; 15; 12] ∧ (∀ u, u ∈ [10; 8; 15; 12] → u ≤ m) ∧ GetWatermark g = m - 5)
  ∧ (∀ late, (∀ u, u ∈ [10; 8; 15; 12] → u - 5 ≤ late) → Before late (GetWatermark g) = false)
  ∧ (∀ next, GetWatermark g ≤ GetWatermark (OnRecord g next)).
Proof.
  apply (bounded_watermark_spec 5 [10; 8; 15; 12] 10).
  - lia.
  - apply elem_of_cons. by left.
  - unfold zeroTime. repeat constructor; lia.
Defined.
