(* ===== verification/Rfc3339.v ===== *)
(** * RFC 3339 instants with nanoseconds

    What the operators use of Go's [time] package to turn window bounds into
    the text of state keys and headers: [t.UTC().Format(time.RFC3339Nano)] and
    [time.Parse(time.RFC3339Nano, s)], with the proleptic Gregorian calendar.
    The parser follows the package's layout-driven one: four-digit year,
    two-digit month, day, minute and second, one- or two-digit hour, an
    optional fraction introduced by a period or a comma, and ["Z"] or a
    [±hh:mm] zone.

    [parse_format] is the round trip the operators depend on; [TimeText] is
    the interface through which they use it. *)

From S2P Require Import Prelude.
From Stdlib Require Import Strings.Byte.

(** ** Calendar *)

Record date := mkDate { year : Z; month : Z; day : Z }.

(** Days are counted from 1970-01-01; the computation works on years that
    start in March, so that the leap day comes last. *)
Definition civil_from_days (z : Z) : date :=
  let z := z + 719468 in
  let era := z / 146097 in
  let doe := z mod 146097 in
  let c := Z.min 3 (doe / 36524) in
  let doe1 := doe - 36524 * c in
  let q := doe1 / 1461 in
  let doe2 := doe1 - 1461 * q in
  let r := Z.min 3 (doe2 / 365) in
  let doy := doe2 - 365 * r in
  let mp := (5 * doy + 2) / 153 in
  let d := doy - (153 * mp + 2) / 5 + 1 in
  let m := if mp <? 10 then mp + 3 else mp - 9 in
  let y := 400 * era + 100 * c + 4 * q + r in
  mkDate (if m <=? 2 then y + 1 else y) m d.

Definition days_from_civil (dt : date) : Z :=
  let y := if month dt <=? 2 then year dt - 1 else year dt in
  let era := y / 400 in
  let yoe := y mod 400 in
  let mp := if 2 <? month dt then month dt - 3 else month dt + 9 in
  let doy := (153 * mp + 2) / 5 + day dt - 1 in
  era * 146097 + (yoe * 365 + yoe / 4 - yoe / 100 + doy) - 719468.

Definition isLeap (y : Z) : bool :=
  (y mod 4 =? 0) && (negb (y mod 100 =? 0) || (y mod 400 =? 0)).

Definition daysIn (m y : Z) : Z :=
  if m =? 2 then (if isLeap y then 29 else 28)
  else if (m =? 4) || (m =? 6) || (m =? 9) || (m =? 11) then 30 else 31.

(** ** Formatting *)

Definition dig (n : Z) : byte := byte_of_Z (48 + n).
Definition fmt2 (n : Z) : bytes := [dig (n / 10); dig (n mod 10)].
Definition fmt4 (n : Z) : bytes := fmt2 (n / 100) ++ fmt2 (n mod 100).

(** The fraction: nine digits without trailing zeros, or nothing. *)
Fixpoint digits (k : nat) (n : Z) : list Z :=
  match k with O => [] | S k' => digits k' (n / 10) ++ [n mod 10] end.

Fixpoint strip_zeros (l : list Z) : list Z :=
  match l with
  | [] => []
  | d :: l' =>
      let l'' := strip_zeros l' in
      if (d =? 0) && bool_decide (l'' = []) then [] else d :: l''
  end.

Definition fmt_frac (ns : Z) : bytes :=
  match strip_zeros (digits 9 ns) with
  | [] => []
  | ds => x2e :: (dig <$> ds)
  end.

Definition nanosPerDay : Z := 86400 * 1000000000.

(** [t.UTC().Format(time.RFC3339Nano)], for years 0 to 9999. *)
Definition formatRFC3339Nano (t : time) : bytes :=
  let dt := civil_from_days (t / nanosPerDay) in
  let rem := t mod nanosPerDay in
  let secs := rem / 1000000000 in
  fmt4 (year dt) ++ [x2d] ++ fmt2 (month dt) ++ [x2d] ++ fmt2 (day dt) ++ [x54]
  ++ fmt2 (secs / 3600) ++ [x3a] ++ fmt2 (secs / 60 mod 60) ++ [x3a] ++ fmt2 (secs mod 60)
  ++ fmt_frac (rem mod 1000000000) ++ [x5a].

(** ** Parsing *)

Definition digval (b : byte) : option Z :=
  let n := Z_of_byte b - 48 in
  if (0 <=? n) && (n <=? 9) then Some n else None.

(** [getnum(s, fixed)] *)
Definition getnum (s : bytes) (fixed : bool) : option (Z * bytes) :=
  match s with
  | [] => None
  | b0 :: s1 =>
      n0 ← digval b0;
      match s1 with
      | [] => if fixed then None else Some (n0, s1)
      | b1 :: s2 =>
          match digval b1 with
          | None => if fixed then None else Some (n0, s1)
          | Some n1 => Some (n0 * 10 + n1, s2)
          end
      end
  end.

Definition skip_lit (c : byte) (s : bytes) : option bytes :=
  match s with
  | b :: s' => if decide (b = c) then Some s' else None
  | [] => None
  end.

Definition get_year (s : bytes) : option (Z * bytes) :=
  match s with
  | a :: b :: c :: d :: s' =>
      na ← digval a; nb ← digval b; nc ← digval c; nd ← digval d;
      Some (na * 1000 + nb * 100 + nc * 10 + nd, s')
  | _ => None
  end.

(** The longest prefix of digits. *)
Fixpoint span_digits (s : bytes) : list Z * bytes :=
  match s with
  | [] => ([], [])
  | b :: s' =>
      match digval b with
      | None => ([], s)
      | Some n => let '(ds, r) := span_digits s' in (n :: ds, r)
      end
  end.

Definition num (ds : list Z) : Z := foldl (λ a d, 10 * a + d) 0 ds.

(** [parseNanoseconds]: at most nine digits count. *)
Definition nanos_of_digits (ds : list Z) : Z :=
  let ds := take 9 ds in num ds * 10 ^ (9 - Z.of_nat (length ds)).

Definition get_frac (s : bytes) : Z * bytes :=
  match s with
  | sep :: s' =>
      if bool_decide (sep = x2e) || bool_decide (sep = x2c) then
        match span_digits s' with
        | ([], _) => (0, s)
        | (ds, r) => (nanos_of_digits ds, r)
        end
      else (0, s)
  | [] => (0, s)
  end.

(** The zone offset in seconds; nothing may follow it. *)
Definition get_zone (s : bytes) : option Z :=
  match s with
  | [b] => if decide (b = x5a) then Some 0 else None
  | [sg; h1; h2; c; m1; m2] =>
      '(hh, _) ← getnum [h1; h2] true;
      _ ← (if decide (c = x3a) then Some tt else None);
      '(mm, _) ← getnum [m1; m2] true;
      if (24 <? hh) || (60 <? mm) then None
      else if decide (sg = x2b) then Some ((hh * 60 + mm) * 60)
      else if decide (sg = x2d) then Some (- ((hh * 60 + mm) * 60))
      else None
  | _ => None
  end.

(** [time.Parse(time.RFC3339Nano, s)]; [None] is a parse error. *)
Definition parseRFC3339Nano (s : bytes) : option time :=
  '(y, s) ← get_year s;
  s ← skip_lit x2d s;
  '(mo, s) ← getnum s true;
  s ← skip_lit x2d s;
  '(d, s) ← getnum s true;
  s ← skip_lit x54 s;
  '(hh, s) ← getnum s false;
  s ← skip_lit x3a s;
  '(mm, s) ← getnum s true;
  s ← skip_lit x3a s;
  '(ss, s) ← getnum s true;
  let '(ns, s) := get_frac s in
  off ← get_zone s;
  if (mo <? 1) || (12 <? mo) || (23 <? hh) || (59 <? mm) || (59 <? ss)
     || (d <? 1) || (daysIn mo y <? d)
  then None
  else Some (((days_from_civil (mkDate y mo d) * 86400 + hh * 3600 + mm * 60 + ss) - off)
               * 1000000000 + ns).

Example format_ex1 : formatRFC3339Nano 0 = bs "1970-01-01T00:00:00Z".
Proof. reflexivity. Qed.
Example format_ex2 : formatRFC3339Nano 1700000000123000000 = bs "2023-11-14T22:13:20.123Z".
Proof. reflexivity. Qed.
Example parse_ex1 : parseRFC3339Nano (bs "2023-11-14T23:13:20.123+01:00") = Some 1700000000123000000.
Proof. reflexivity. Qed.
Example parse_ex2 : parseRFC3339Nano (bs "2023-02-29T00:00:00Z") = None.
Proof. reflexivity. Qed.

(** ** The calendar round trip *)

Record civil_parts (z : Z) (era c q r doy : Z) : Prop := {
  cp_c : 0 ≤ c ≤ 3;
  cp_q : 0 ≤ q ≤ 24;
  cp_r : 0 ≤ r ≤ 3;
  cp_doy : 0 ≤ doy ≤ 365;
  cp_z : z + 719468 = 146097 * era + 36524 * c + 1461 * q + 365 * r + doy;
  cp_leap : doy = 365 → r = 3 ∧ (q = 24 → c = 3)
}.

Lemma civil_parts_ok z :
  let z' := z + 719468 in
  let doe := z' mod 146097 in
  let c := Z.min 3 (doe / 36524) in
  let q := (doe - 36524 * c) / 1461 in
  let doe2 := doe - 36524 * c - 1461 * q in
  let r := Z.min 3 (doe2 / 365) in
  civil_parts z (z' / 146097) c q r (doe2 - 365 * r).
Proof.
  intros z' doe.
  assert (0 ≤ doe < 146097) by (apply Z.mod_pos_bound; lia).
  assert (z' = 146097 * (z' / 146097) + doe) by (apply Z.div_mod; lia).
  clearbody doe. intros c.
  assert (0 ≤ c ≤ 3 ∧ 0 ≤ doe - 36524 * c ≤ 36524 ∧ (doe - 36524 * c = 36524 → c = 3))
    by (unfold c; zdiv).
  clearbody c. intros q doe2.
  assert (0 ≤ q ≤ 24 ∧ 0 ≤ doe2 < 1461)
    by (unfold doe2, q; zdiv).
  assert (doe2 = doe - 36524 * c - 1461 * q) by done.
  clearbody doe2 q. intros r.
  assert (0 ≤ r ≤ 3 ∧ 0 ≤ doe2 - 365 * r ≤ 365 ∧ (doe2 - 365 * r = 365 → r = 3))
    by (unfold r; zdiv).
  clearbody r. split; lia.
Qed.

Lemma civil_from_days_parts z : ∃ era c q r doy,
  civil_parts z era c q r doy
  ∧ let mp := (5 * doy + 2) / 153 in
    let m := if mp <? 10 then mp + 3 else mp - 9 in
    let y := 400 * era + 100 * c + 4 * q + r in
    civil_from_days z
    = mkDate (if m <=? 2 then y + 1 else y) m (doy - (153 * mp + 2) / 5 + 1).
Proof. do 5 eexists. split; [apply civil_parts_ok|reflexivity]. Qed.

Lemma days_from_civil_from_days z : days_from_civil (civil_from_days z) = z.
Proof.
  destruct (civil_from_days_parts z) as (era & c & q & r & doy & [? ? ? ? ? _] & ->).
  unfold days_from_civil; cbn [year month day].
  set (mp := (5 * doy + 2) / 153). assert (0 ≤ mp ≤ 11) by (unfold mp; zdiv). clearbody mp.
  set (m := if mp <? 10 then mp + 3 else mp - 9).
  assert ((if 2 <? m then m - 3 else m + 9) = mp) as -> by (subst m; repeat case_Z; lia).
  set (y := 400 * era + 100 * c + 4 * q + r).
  assert ((if m <=? 2 then (if m <=? 2 then y + 1 else y) - 1 else (if m <=? 2 then y + 1 else y)) = y)
    as -> by (destruct (m <=? 2); lia).
  subst y. clear m.
  assert ((400 * era + 100 * c + 4 * q + r) / 400 = era) as -> by zdiv.
  assert ((400 * era + 100 * c + 4 * q + r) mod 400 = 100 * c + 4 * q + r) as -> by zdiv.
  assert ((100 * c + 4 * q + r) / 4 = 25 * c + q) as -> by zdiv.
  assert ((100 * c + 4 * q + r) / 100 = c) as -> by zdiv.
  lia.
Qed.

(** The date produced is a valid one: what the parser's range checks need. *)
Lemma civil_from_days_valid z :
  let dt := civil_from_days z in
  1 ≤ month dt ≤ 12 ∧ 1 ≤ day dt ≤ daysIn (month dt) (year dt) ∧ day dt ≤ 31.
Proof.
  destruct (civil_from_days_parts z) as (era & c & q & r & doy & [? ? ? ? _ Hl] & ->).
  cbn [year month day].
  set (mp := (5 * doy + 2) / 153). set (d := doy - (153 * mp + 2) / 5 + 1).
  assert (0 ≤ mp ≤ 11 ∧ 1 ≤ d ≤ 31) as [??] by (unfold d, mp; zdiv).
  assert (mp = 1 ∨ mp = 3 ∨ mp = 6 ∨ mp = 8 → d ≤ 30) by (unfold d, mp; zdiv).
  assert (mp = 11 → d ≤ 29 ∧ (d = 29 → doy = 365)) as Hfeb by (unfold d, mp; zdiv).
  clearbody d. unfold daysIn.
  destruct (decide (mp = 11)) as [->|Hm].
  - change (if 11 <? 10 then 11 + 3 else 11 - 9) with 2.
    change (2 =? 2) with true; change (2 <=? 2) with true; cbv iota. split; [lia|]. destruct (Hfeb eq_refl) as [? Hd]. split; [|lia].
    destruct (isLeap _) eqn:E; [lia|]. destruct (decide (d = 29)) as [Hd29|]; [|lia].
    destruct (Hl (Hd Hd29)) as [-> Hq]. exfalso. revert E. unfold isLeap.
    destruct (Z.eqb_spec ((400 * era + 100 * c + 4 * q + 3 + 1) mod 4) 0); [|zdiv].
    destruct (Z.eqb_spec ((400 * era + 100 * c + 4 * q + 3 + 1) mod 100) 0); [|done].
    destruct (Z.eqb_spec ((400 * era + 100 * c + 4 * q + 3 + 1) mod 400) 0); [done|].
    assert (q = 24) by zdiv. zdiv.
  - clearbody mp. repeat case_Z; simpl; lia.
Qed.

(** ** The text round trip *)

Lemma digval_dig n : 0 ≤ n < 10 → digval (dig n) = Some n.
Proof.
  intros Hn. unfold digval, dig. rewrite Z_of_byte_of_Z, Z.mod_small by lia.
  replace (48 + n - 48) with n by lia.
  destruct (Z.leb_spec 0 n), (Z.leb_spec n 9); (lia || done).
Qed.

Lemma getnum_fmt2 n s fixed : 0 ≤ n < 100 → getnum (fmt2 n ++ s) fixed = Some (n, s).
Proof.
  intros Hn. simpl. rewrite !digval_dig by zdiv. osimpl. do 2 f_equal. zdiv.
Qed.

Lemma get_year_fmt4 n s : 0 ≤ n < 10000 → get_year (fmt4 n ++ s) = Some (n, s).
Proof.
  intros Hn. unfold fmt4. simpl.
  rewrite !digval_dig by zdiv. osimpl. do 2 f_equal. zdiv.
Qed.

Lemma skip_lit_eq c s : skip_lit c (c :: s) = Some s.
Proof. simpl. by rewrite decide_True. Qed.

Lemma length_digits k n : length (digits k n) = k.
Proof. revert n. induction k as [|k IH]; intros n; simpl; [done|]. rewrite length_app, IH. simpl. lia. Qed.

Lemma digits_range k n : Forall (λ d, 0 ≤ d < 10) (digits k n).
Proof.
  revert n. induction k as [|k IH]; intros n; simpl; [constructor|].
  apply Forall_app. split; [done|]. constructor; [zdiv|constructor].
Qed.

Lemma num_app l k : num (l ++ [k]) = 10 * num l + k.
Proof. unfold num. by rewrite foldl_app. Qed.

Lemma num_digits k n : 0 ≤ n < 10 ^ Z.of_nat k → num (digits k n) = n.
Proof.
  revert n. induction k as [|k IH]; intros n Hn.
  - change (10 ^ Z.of_nat 0) with 1 in Hn. simpl. unfold num. simpl. lia.
  - rewrite Nat2Z.inj_succ, Z.pow_succ_r in Hn by lia. simpl.
    rewrite num_app, IH by zdiv. zdiv.
Qed.

Lemma num_app_zeros l k : num (l ++ replicate k 0) = num l * 10 ^ Z.of_nat k.
Proof.
  induction k as [|k IH].
  - simpl. rewrite app_nil_r. lia.
  - rewrite replicate_S_end, app_assoc, num_app, IH, Nat2Z.inj_succ, Z.pow_succ_r by lia. lia.
Qed.

Lemma strip_zeros_spec l : ∃ k, l = strip_zeros l ++ replicate k 0.
Proof.
  induction l as [|d l [k IH]]; simpl; [by exists 0%nat|].
  destruct (Z.eqb_spec d 0) as [->|]; simpl; [|exists k; congruence].
  case_bool_decide as E.
  - exists (S k). simpl. rewrite E in IH. simpl in IH. congruence.
  - exists k. simpl. congruence.
Qed.

Lemma span_digits_dig ds s : Forall (λ d, 0 ≤ d < 10) ds →
  (∀ b s', s = b :: s' → digval b = None) →
  span_digits ((dig <$> ds) ++ s) = (ds, s).
Proof.
  intros Hds Hs. induction Hds as [|d ds Hd _ IH]; csimpl.
  - destruct s as [|b s]; [done|]. simpl. by rewrite (Hs b s).
  - rewrite digval_dig by done. by rewrite IH.
Qed.

Lemma get_frac_fmt ns : 0 ≤ ns < 1000000000 → get_frac (fmt_frac ns ++ [x5a]) = (ns, [x5a]).
Proof.
  intros Hns. unfold fmt_frac. destruct (strip_zeros_spec (digits 9 ns)) as [k Hk].
  pose proof (digits_range 9 ns) as Hr. pose proof (length_digits 9 ns) as Hl.
  pose proof (num_digits 9 ns Hns) as Hnum.
  rewrite Hk in Hr, Hl, Hnum. apply Forall_app in Hr as [Hr _].
  rewrite num_app_zeros in Hnum. rewrite length_app, length_replicate in Hl.
  destruct (strip_zeros (digits 9 ns)) as [|d ds] eqn:E.
  - simpl. unfold num in Hnum. simpl in Hnum. f_equal. lia.
  - change ((x2e :: (dig <$> d :: ds)) ++ [x5a]) with (x2e :: ((dig <$> d :: ds) ++ [x5a])).
    unfold get_frac. rewrite bool_decide_eq_true_2 by done. cbn [orb].
    rewrite span_digits_dig; [|done|by intros b s' [= <- <-]].
    unfold nanos_of_digits. rewrite take_ge by lia. f_equal. rewrite <- Hnum. do 2 f_equal. lia.
Qed.

Definition formattable (t : time) : Prop := 0 ≤ year (civil_from_days (t / nanosPerDay)) < 10000.

Lemma parse_format t : formattable t → parseRFC3339Nano (formatRFC3339Nano t) = Some t.
Proof.
  intros Hy. unfold formatRFC3339Nano, parseRFC3339Nano, formattable in *.
  pose proof (civil_from_days_valid (t / nanosPerDay)) as (Hm & Hd & Hd').
  pose proof (days_from_civil_from_days (t / nanosPerDay)) as Hdays.
  destruct (civil_from_days (t / nanosPerDay)) as [y m d]. cbn [year month day] in *.
  set (rem := t mod nanosPerDay). set (secs := rem / 1000000000).
  assert (t = (t / nanosPerDay) * nanosPerDay + rem) as Ht
    by (unfold rem; rewrite Z.mul_comm; apply Z.div_mod; done).
  assert (0 ≤ rem < nanosPerDay) as Hrem by (by apply Z.mod_pos_bound).
  unfold nanosPerDay in Hrem.
  assert (0 ≤ secs < 86400) by (unfold secs; zdiv).
  rewrite get_year_fmt4 by done. osimpl. cbn [app]. rewrite skip_lit_eq. osimpl.
  rewrite getnum_fmt2 by lia. osimpl. rewrite skip_lit_eq. osimpl.
  rewrite getnum_fmt2 by lia. osimpl. rewrite skip_lit_eq. osimpl.
  rewrite getnum_fmt2 by zdiv. osimpl. rewrite skip_lit_eq. osimpl.
  rewrite getnum_fmt2 by zdiv. osimpl. rewrite skip_lit_eq. osimpl.
  rewrite getnum_fmt2 by zdiv. osimpl.
  rewrite get_frac_fmt by zdiv. simpl (get_zone _). osimpl.
  rewrite Hdays.
  set (days := t / nanosPerDay) in *. clearbody days.
  replace (_ || _) with false.
  2: { symmetry. rewrite !orb_false_iff, !Z.ltb_ge. repeat split; try lia; zdiv. }
  f_equal. clearbody rem. subst t. unfold secs, nanosPerDay. zdiv.
Qed.

(** Every instant a 64-bit nanosecond count can denote has a four-digit year. *)
Lemma in_i64_formattable t : in_i64 t → formattable t.
Proof.
  intros Ht. unfold formattable.
  destruct (civil_from_days_parts (t / nanosPerDay)) as (era & c & q & r & doy & [? ? ? ? Hz _] & ->).
  cbn [year].
  assert (-106752 ≤ t / nanosPerDay ≤ 106752) by (unfold nanosPerDay; unfold_i64; zdiv).
  assert (1600 ≤ 400 * era + 100 * c + 4 * q + r ≤ 3000) by lia.
  destruct (_ <=? 2); lia.
Qed.

(** ** The formatted text contains no slash *)

Definition slash : byte := x2f.

Lemma dig_not_slash n : 0 ≤ n < 10 → dig n ≠ slash.
Proof.
  intros Hn E. assert (digval (dig n) = digval slash) as D by (by rewrite E).
  rewrite digval_dig in D by done. discriminate D.
Qed.

Lemma format_no_slash t : formattable t → slash ∉ formatRFC3339Nano t.
Proof.
  intros Hy. unfold formattable, formatRFC3339Nano in *.
  pose proof (civil_from_days_valid (t / nanosPerDay)) as (Hm & _ & Hd).
  pose proof (civil_from_days_valid (t / nanosPerDay)) as (_ & Hd1 & _).
  destruct (civil_from_days (t / nanosPerDay)) as [y m d]. cbn [year month day] in *.
  assert (0 ≤ t mod nanosPerDay / 1000000000 < 86400) as Hs.
  { pose proof (Z.mod_pos_bound t nanosPerDay eq_refl) as Hrem. unfold nanosPerDay in *. zdiv. }
  set (secs := _ / 1000000000) in *. clearbody secs.
  assert (slash ∉ fmt_frac ((t mod nanosPerDay) mod 1000000000)) as Hf.
  { unfold fmt_frac. pose proof (digits_range 9 ((t mod nanosPerDay) mod 1000000000)) as Hr.
    destruct (strip_zeros_spec (digits 9 ((t mod nanosPerDay) mod 1000000000))) as [k Hk].
    rewrite Hk in Hr. apply Forall_app in Hr as [Hr _].
    destruct (strip_zeros _) as [|x l]; [apply not_elem_of_nil|].
    rewrite not_elem_of_cons. split; [done|]. intros (n & E & Hin)%list_elem_of_fmap.
    rewrite Forall_forall in Hr. by apply (dig_not_slash n); [apply Hr|]. }
  assert (∀ n, 0 ≤ n < 100 → slash ∉ fmt2 n) as H2.
  { intros n Hn. unfold fmt2. rewrite !not_elem_of_cons.
    split; [apply not_eq_sym, dig_not_slash; zdiv|].
    split; [apply not_eq_sym, dig_not_slash; zdiv|apply not_elem_of_nil]. }
  unfold fmt4. rewrite !not_elem_of_app, !not_elem_of_cons.
  repeat split; try done; try apply not_elem_of_nil; apply H2; zdiv.
Qed.

(** ** The interface the operators use *)

(** What an operator that puts instants into state keys and headers needs of
    the text form: it can be read back, and it contains no slash, the field
    separator of the keys.  [text_ok] is the range in which this holds. *)
Class TimeText := {
  text_of : time → bytes;
  of_text : bytes → option time;
  text_ok : time → Prop;
  of_text_of : ∀ t, text_ok t → of_text (text_of t) = Some t;
  text_no_slash : ∀ t, text_ok t → slash ∉ text_of t;
  text_ok_i64 : ∀ t, in_i64 t → text_ok t
}.

#[export] Program Instance rfc3339_text : TimeText := {|
  text_of := formatRFC3339Nano;
  of_text := parseRFC3339Nano;
  text_ok := formattable
|}.
Solve Obligations with eauto using parse_format, format_no_slash, in_i64_formattable.

Lemma text_of_inj `{!TimeText} t u : text_ok t → text_ok u → text_of t = text_of u → t = u.
Proof.
  intros Ht Hu E. apply (f_equal of_text) in E. rewrite !of_text_of in E by done. congruence.
Qed.

#[export] Hint Resolve of_text_of text_no_slash text_ok_i64 : weibo.
