(* ===== verification/Decimal.v ===== *)
(** * Decimal text of integers

    What the code uses of [strconv] and [fmt]: [strconv.FormatInt(n, 10)]
    (also [%d]) and [strconv.ParseInt(s, 10, 64)].  Twenty digits cover every
    64-bit integer. *)

From S2P Require Import Prelude Rfc3339.
From Stdlib Require Import Strings.Byte.

(** Leading zeros go, but one digit stays. *)
Fixpoint drop_zeros (l : list Z) : list Z :=
  match l with
  | [] => []
  | [d] => [d]
  | d :: l' => if d =? 0 then drop_zeros l' else l
  end.

Definition minus : byte := x2d.
Definition plus : byte := x2b.

Definition FormatUint (n : Z) : bytes := dig <$> drop_zeros (digits 20 n).

(** [strconv.FormatInt(z, 10)] *)
Definition FormatInt (z : Z) : bytes :=
  if z <? 0 then minus :: FormatUint (- z) else FormatUint z.

(** [strconv.ParseUint(s, 10, 64)] before the range check: all digits, one at
    least. *)
Definition parse_digits (s : bytes) : option Z :=
  match span_digits s with
  | ([], _) => None
  | (ds, []) => Some (num ds)
  | (_, _ :: _) => None
  end.

(** [strconv.ParseInt(s, 10, 64)]; [None] is a syntax or range error. *)
Definition ParseInt (s : bytes) : option Z :=
  match s with
  | [] => None
  | b :: s' =>
      let neg := bool_decide (b = minus) in
      let body := if neg || bool_decide (b = plus) then s' else s in
      un ← parse_digits body;
      if neg then (if two63 <? un then None else Some (- un))
      else (if two63 <=? un then None else Some un)
  end.

(** The value [strconv.ParseInt] returns beside its error: the nearest bound when
    the number is out of range, zero when the text is no number. *)
Definition ParseInt_value (s : bytes) : Z :=
  match s with
  | [] => 0
  | b :: s' =>
      let neg := bool_decide (b = minus) in
      let body := if neg || bool_decide (b = plus) then s' else s in
      match parse_digits body with
      | None => 0
      | Some un => if neg then Z.max (- two63) (- un) else Z.min (two63 - 1) un
      end
  end.

Lemma num_cons d l : num (d :: l) = d * 10 ^ Z.of_nat (length l) + num l.
Proof.
  induction l as [|e l IH] using rev_ind; [unfold num; simpl; lia|].
  rewrite (num_app (d :: l) e : num (d :: l ++ [e]) = _), IH, num_app, length_app. simpl.
  rewrite Nat2Z.inj_add, Z.pow_add_r by lia. lia.
Qed.

Lemma num_drop_zeros l : num (drop_zeros l) = num l.
Proof.
  induction l as [|d l IH]; [done|]. destruct l as [|e l]; [done|].
  change (drop_zeros (d :: e :: l)) with (if d =? 0 then drop_zeros (e :: l) else d :: e :: l).
  destruct (Z.eqb_spec d 0) as [->|]; [|done]. rewrite IH, (num_cons 0 (e :: l)). lia.
Qed.

Lemma drop_zeros_range l : Forall (λ d, 0 ≤ d < 10) l → Forall (λ d, 0 ≤ d < 10) (drop_zeros l).
Proof.
  induction 1 as [|d l Hd Hl IH]; [done|]. destruct l as [|e l]; [by constructor|].
  cbn [drop_zeros]. destruct (d =? 0); [done|]. by constructor.
Qed.

Lemma drop_zeros_nil l : drop_zeros l = [] → l = [].
Proof.
  induction l as [|d l IH]; [done|]. destruct l as [|e l]; [done|]. cbn [drop_zeros].
  destruct (d =? 0); [|done]. intros E. by apply IH in E.
Qed.

Lemma FormatUint_digits n : ∃ d ds, FormatUint n = dig <$> d :: ds ∧ Forall (λ d, 0 ≤ d < 10) (d :: ds)
  ∧ (0 ≤ n < 10 ^ 20 → num (d :: ds) = n).
Proof.
  unfold FormatUint. pose proof (drop_zeros_range _ (digits_range 20 n)) as Hr.
  pose proof (num_drop_zeros (digits 20 n)) as Hn.
  destruct (drop_zeros (digits 20 n)) as [|d ds] eqn:E.
  { apply drop_zeros_nil, (f_equal length) in E. by rewrite length_digits in E. }
  exists d, ds. split_and!; [done|done|]. intros Hb. rewrite Hn. by apply num_digits.
Qed.

Lemma parse_digits_dig d ds : Forall (λ d, 0 ≤ d < 10) (d :: ds) →
  parse_digits (dig <$> d :: ds) = Some (num (d :: ds)).
Proof.
  intros Hr. unfold parse_digits. pose proof (span_digits_dig (d :: ds) [] Hr) as E.
  rewrite app_nil_r in E. by rewrite E.
Qed.

Lemma dig_value d : 0 ≤ d < 10 → Z_of_byte (dig d) = 48 + d.
Proof. intros Hd. unfold dig. rewrite Z_of_byte_of_Z. apply Z.mod_small. lia. Qed.

Lemma dig_not d b : 0 ≤ d < 10 → Z_of_byte b < 48 ∨ 57 < Z_of_byte b → dig d ≠ b.
Proof. intros Hd Hb <-. rewrite dig_value in Hb by done. lia. Qed.

(** Parsing reads back what formatting wrote. *)
Lemma ParseInt_FormatInt z : in_i64 z → ParseInt (FormatInt z) = Some z.
Proof.
  intros Hz. assert (two63 = 9223372036854775808) as H63 by done. unfold FormatInt.
  destruct (Z.ltb_spec z 0).
  - destruct (FormatUint_digits (- z)) as (d & ds & -> & Hr & Hn).
    unfold ParseInt. rewrite bool_decide_eq_true_2 by done. cbn [orb].
    rewrite parse_digits_dig by done. osimpl. rewrite Hn by (unfold in_i64 in *; lia).
    destruct (Z.ltb_spec two63 (- z)); [unfold in_i64 in *; lia|]. f_equal. lia.
  - destruct (FormatUint_digits z) as (d & ds & -> & Hr & Hn).
    pose proof Hr as Hr'. apply Forall_cons in Hr' as [Hd _].
    unfold ParseInt. rewrite fmap_cons.
    rewrite !bool_decide_eq_false_2 by (apply dig_not; [done|by left]). cbn [orb].
    rewrite <- fmap_cons, parse_digits_dig by done. osimpl. rewrite Hn by (unfold in_i64 in *; lia).
    destruct (Z.leb_spec two63 z); [unfold in_i64 in *; lia|done].
Qed.

Lemma FormatInt_inj a b : in_i64 a → in_i64 b → FormatInt a = FormatInt b → a = b.
Proof. intros Ha Hb E. apply (f_equal ParseInt) in E. rewrite !ParseInt_FormatInt in E by done. congruence. Qed.

(** A byte that is neither a digit nor the minus sign. *)
Lemma FormatInt_no b z : b ≠ minus → Z_of_byte b < 48 ∨ 57 < Z_of_byte b → b ∉ FormatInt z.
Proof.
  intros Hm Hb. assert (∀ n, b ∉ FormatUint n) as Hu.
  { intros n. destruct (FormatUint_digits n) as (d & ds & -> & Hr & _).
    rewrite list_elem_of_fmap. intros (e & -> & He). rewrite Forall_forall in Hr.
    by apply (dig_not e (dig e)); [apply Hr| |]. }
  unfold FormatInt. case_Z; [|apply Hu]. apply not_elem_of_cons. split; [exact Hm|apply Hu].
Qed.

Lemma FormatInt_nonempty z : FormatInt z ≠ [].
Proof.
  unfold FormatInt. case_Z; [discriminate|].
  destruct (FormatUint_digits z) as (d & ds & -> & _). discriminate.
Qed.

Example FormatInt_42 : FormatInt 42 = bs "42".
Proof. reflexivity. Qed.
Example FormatInt_min : FormatInt (- two63) = bs "-9223372036854775808".
Proof. vm_compute. reflexivity. Qed.
Example ParseInt_plus : ParseInt (bs "+7") = Some 7.
Proof. reflexivity. Qed.
Example ParseInt_range : ParseInt (bs "9223372036854775808") = None.
Proof. vm_compute. reflexivity. Qed.
