(* ===== verification/Float64.v ===== *)
(** * Double-precision numbers

    What the field operators use of [float64] and [strconv]: reading and
    writing decimal text, addition, comparison and conversion to and from
    64-bit integers.  A [float64] is the [spec_float] of the Standard Library
    with 53 bits of precision; decimal text is rounded once, from its exact
    value.  Conversion of a value out of range to [int64] is the one of amd64. *)

From S2P Require Import Prelude Rfc3339 Decimal.
From Stdlib Require Import Strings.Byte SpecFloat.

Notation float64 := spec_float.
Notation prec := 53%Z.
Notation emax := 1024%Z.

Definition f_add : float64 → float64 → float64 := SFadd prec emax.
Definition f_eqb : float64 → float64 → bool := SFeqb.
Definition f_ltb : float64 → float64 → bool := SFltb.
Definition f_zero : float64 := S754_zero false.

(** [float64(n)] *)
Definition f_of_int (n : Z) : float64 := binary_normalize prec emax n 0 false.

(** [int64(f)] *)
Definition f_to_int (f : float64) : Z :=
  match f with
  | S754_finite s m e =>
      let z := if 0 <=? e then Zpos m * 2 ^ e else Zpos m / 2 ^ (- e) in
      let z := if s then - z else z in
      if (- two63 <=? z) && (z <? two63) then z else - two63
  | S754_zero _ => 0
  | _ => - two63
  end.

(** The value [m * 10 ^ e], rounded to nearest even. *)
Definition f_of_decimal (neg : bool) (m e : Z) : float64 :=
  match m with
  | Zpos p =>
      if 0 <=? e then binary_round prec emax neg (Z.to_pos (Zpos p * 10 ^ e)) 0
      else let '(q, e', l) := SFdiv_core_binary prec emax (Zpos p) 0 (10 ^ (- e)) 0 in binary_round_aux prec emax neg q e' l
  | _ => S754_zero neg
  end.

(** ** [strconv.ParseFloat] *)

(** The exponent part, after [e] or [E]. *)
Definition parse_exponent (s : bytes) : option Z :=
  match s with
  | [] => Some 0
  | b :: s =>
      if bool_decide (b = x65) || bool_decide (b = x45) then
        match s with
        | c :: s' => if bool_decide (c = minus) then (λ n, - n) <$> parse_digits s'
                     else if bool_decide (c = plus) then parse_digits s' else parse_digits s
        | [] => None
        end
      else None
  end.

(** An unsigned decimal: digits, an optional fraction, an optional exponent. *)
Definition parse_unsigned (s : bytes) : option (Z * Z) :=
  let '(ip, s) := span_digits s in
  let '(fp, s) := match s with
                  | b :: s' => if bool_decide (b = x2e) then span_digits s' else ([], s)
                  | [] => ([], [])
                  end in
  if bool_decide (ip ++ fp = []) then None
  else (λ e, (num (ip ++ fp), e - Z.of_nat (length fp))) <$> parse_exponent s.

(** The value and whether there is no error: a range error comes with an infinity. *)
Definition ParseFloat (s : bytes) : float64 * bool :=
  let '(neg, body) := match s with
                      | b :: s' => if bool_decide (b = minus) then (true, s')
                                   else if bool_decide (b = plus) then (false, s') else (false, s)
                      | [] => (false, [])
                      end in
  if decide (body = bs "Inf") then (S754_infinity neg, true)
  else if decide (s = bs "NaN") then (S754_nan, true)
  else match parse_unsigned body with
       | None => (f_zero, false)
       | Some (m, e) => match f_of_decimal neg m e with
                        | S754_infinity s => (S754_infinity s, false)
                        | f => (f, true)
                        end
       end.

(** ** [strconv.FormatFloat(f, 'g', -1, 64)] *)

(** The least [k] from [k0] with [num < den * 10 ^ k]. *)
Fixpoint decimal_point (fuel : nat) (n d k : Z) : Z :=
  match fuel with
  | O => k
  | S fuel =>
      let below := if 0 <=? k then n <? d * 10 ^ k else n * 10 ^ (- k) <? d in
      if below then k else decimal_point fuel n d (k + 1)
  end.

Definition round_half_even (n d : Z) : Z :=
  let '(q, r) := Z.div_eucl n d in
  match 2 * r ?= d with Lt => q | Gt => q + 1 | Eq => if Z.even q then q else q + 1 end.

(** The shortest digits that read back as [f] and their decimal point, from
    [digs] digits on; 17 are always enough. *)
Fixpoint shortest (tries : nat) (digs : Z) (f : float64) (n d k : Z) : Z * Z :=
  let q := if 0 <=? digs - k then round_half_even (n * 10 ^ (digs - k)) d else round_half_even n (d * 10 ^ (k - digs)) in
  let found := if q =? 10 ^ digs then (10 ^ (digs - 1), k + 1) else (q, k) in
  match tries with
  | O => found
  | S tries => if f_eqb (f_of_decimal false q (k - digs)) f then found else shortest tries (digs + 1) f n d k
  end.

(** Two digits of exponent at least. *)
Definition fmt_exponent (e : Z) : bytes :=
  (if e <? 0 then [minus] else [plus])
  ++ (let t := FormatInt (Z.abs e) in if Z.abs e <? 10 then x30 :: t else t).

(** The digits [ds] of a number below [10 ^ k]. *)
Definition fmt_digits (ds : bytes) (k : Z) : bytes :=
  let nd := Z.of_nat (length ds) in
  if (k - 1 <? -4) || (6 <=? k - 1) then
    take 1 ds ++ (match drop 1 ds with [] => [] | ds => x2e :: ds end) ++ [x65] ++ fmt_exponent (k - 1)
  else if k <=? 0 then bs "0." ++ replicate (Z.to_nat (- k)) x30 ++ ds
  else if nd <=? k then ds ++ replicate (Z.to_nat (k - nd)) x30
  else take (Z.to_nat k) ds ++ [x2e] ++ drop (Z.to_nat k) ds.

Definition FormatFloat (f : float64) : bytes :=
  match f with
  | S754_nan => bs "NaN"
  | S754_infinity s => (if s then minus else plus) :: bs "Inf"
  | S754_zero s => (if s then [minus] else []) ++ bs "0"
  | S754_finite s m e =>
      let n := Zpos m * 2 ^ Z.max 0 e in
      let d := 2 ^ Z.max 0 (- e) in
      let k := decimal_point 6 n d ((Z.log2 n - Z.log2 d) * 30103 / 100000 - 1) in
      let '(q, k) := shortest 16 1 (S754_finite false m e) n d k in
      (if s then [minus] else []) ++ fmt_digits (dig <$> strip_zeros (drop_zeros (digits 18 q))) k
  end.

Example format_floats : FormatFloat ∘ fst ∘ ParseFloat ∘ bs
    <$> ["0.1"; "1.5"; "1234567.25"; "-2.5e-7"; "100"; "1e21"; "0.00012"; "123456.789"; "1.7976931348623157e308"; "5e-324"; "9.5";
         "0.30000000000000004"; "999999.99999999999"]%string
  = bs <$> ["0.1"; "1.5"; "1.23456725e+06"; "-2.5e-07"; "100"; "1e+21"; "0.00012"; "123456.789"; "1.7976931348623157e+308"; "5e-324"; "9.5";
            "0.30000000000000004"; "1e+06"]%string.
Proof. vm_compute. reflexivity. Qed.

Example float_sum : FormatFloat (f_add (ParseFloat (bs "0.1")).1 (ParseFloat (bs "0.2")).1) = bs "0.30000000000000004".
Proof. vm_compute. reflexivity. Qed.

Example float_range : (ParseFloat (bs "1e400")).2 = false ∧ (ParseFloat (bs "-")).2 = false ∧ (ParseFloat (bs "1.")).2 = true.
Proof. vm_compute. done. Qed.

(** ** Integers up to 2^53 are exact *)

Lemma digits2_log2 p : Zpos (digits2_pos p) = Z.log2 (Zpos p) + 1.
Proof.
  induction p as [p IH|p IH|]; [| |done]; cbn [digits2_pos]; rewrite Pos2Z.inj_succ, IH.
  - rewrite Pos2Z.inj_xI, Z.log2_succ_double by lia. lia.
  - rewrite Pos2Z.inj_xO, Z.log2_double by lia. lia.
Qed.

Lemma log2_mantissa m : 2 ^ 52 ≤ m < 2 ^ 53 → Z.log2 m = 52.
Proof. intros H. apply Z.log2_unique; [lia|]. by change (Z.succ 52) with 53. Qed.

Lemma Zdigits2_log2 m : 0 < m → Zdigits2 m = Z.log2 m + 1.
Proof. intros H. destruct m; [lia| |lia]. apply digits2_log2. Qed.

Lemma iter_pos_nat {A} (f : A → A) n x : iter_pos f n x = Nat.iter (Pos.to_nat n) f x.
Proof.
  revert x. induction n as [n IH|n IH|]; intros x; cbn [iter_pos]; [| |done]; rewrite !IH, <- ?Nat.iter_succ_r, <- Nat.iter_add; f_equal; lia.
Qed.

Lemma shr_1_double m : 0 < m → shr_1 (Build_shr_record (2 * m) false false) = Build_shr_record m false false.
Proof. by destruct m. Qed.

(** Shifting out zeros is exact. *)
Lemma shr_exact m e n : 0 < m → 0 ≤ n → shr (Build_shr_record (m * 2 ^ n) false false) e n = (Build_shr_record m false false, e + n).
Proof.
  intros Hm Hn. destruct n as [|p|p]; [by rewrite Z.mul_1_r, Z.add_0_r| |lia]. cbn [shr]. f_equal.
  rewrite iter_pos_nat. rewrite <- (positive_nat_Z p). generalize (Pos.to_nat p). intros k.
  induction k as [|k IH]; [by rewrite Z.mul_1_r|].
  rewrite Nat.iter_succ_r. rewrite Nat2Z.inj_succ, Z.pow_succ_r by lia.
  replace (m * (2 * 2 ^ Z.of_nat k)) with (2 * (m * 2 ^ Z.of_nat k)) by lia.
  rewrite shr_1_double; [done|]. apply Z.mul_pos_pos; [done|]. by apply Z.pow_pos_nonneg; [|lia].
Qed.

(** A mantissa of 53 bits is kept. *)
Lemma round_aux_exact sx m e j : 2 ^ 52 ≤ m < 2 ^ 53 → 0 ≤ j → -1074 ≤ e + j ≤ 971 →
  binary_round_aux prec emax sx (m * 2 ^ j) e loc_Exact = S754_finite sx (Z.to_pos m) (e + j).
Proof.
  intros Hm Hj He. unfold binary_round_aux.
  assert (∀ j, 0 ≤ j → 0 < m * 2 ^ j) as Hpos by (intros; apply Z.mul_pos_pos; [lia|by apply Z.pow_pos_nonneg]).
  assert (∀ e j, 0 ≤ j → -1074 ≤ e + j → shr_fexp prec emax (m * 2 ^ j) e loc_Exact = (Build_shr_record m false false, e + j)) as Hshr.
  { intros e' j' Hj' He'. unfold shr_fexp, fexp, emin. rewrite Zdigits2_log2 by auto.
    rewrite Z.log2_mul_pow2, (log2_mantissa m) by lia. cbn [shr_record_of_loc].
    replace (Z.max _ _ - e') with j' by lia. apply shr_exact; lia. }
  rewrite (Hshr e j) by lia. cbn [shr_m loc_of_shr_record round_nearest_even].
  pose proof (Hshr (e + j) 0 ltac:(lia) ltac:(lia)) as H0. rewrite Z.mul_1_r, Z.add_0_r in H0. rewrite H0. cbn [shr_m].
  destruct m as [|m|m]; [lia| |lia]. by rewrite (proj2 (Z.leb_le _ _)) by lia.
Qed.

Lemma iter_xO p d : Zpos (Pos.iter xO p d) = Zpos p * 2 ^ Zpos d.
Proof.
  rewrite Pos2Nat.inj_iter, <- (positive_nat_Z d). induction (Pos.to_nat d) as [|k IH]; [cbn; lia|].
  rewrite Nat2Z.inj_succ, Z.pow_succ_r by lia. cbn [nat_rect]. rewrite Pos2Z.inj_xO, IH. lia.
Qed.

(** A number with a 53-bit mantissa is rounded to itself, however it is written. *)
Lemma round_exact sx p e m j : 2 ^ 52 ≤ m < 2 ^ 53 → -1074 ≤ e + j ≤ 971 →
  (0 ≤ j ∧ Zpos p = m * 2 ^ j) ∨ (j < 0 ∧ Zpos p * 2 ^ (- j) = m) →
  binary_round prec emax sx p e = S754_finite sx (Z.to_pos m) (e + j).
Proof.
  intros Hm He Hp. unfold binary_round, fexp, emin. rewrite digits2_log2.
  assert (Z.log2 (Zpos p) = 52 + j) as ->.
  { destruct Hp as [[Hj ->]|[Hj <-]].
    - rewrite Z.log2_mul_pow2, (log2_mantissa m) by lia. lia.
    - pose proof (log2_mantissa _ Hm) as Hl. rewrite Z.log2_mul_pow2 in Hl by lia. lia. }
  replace (Z.max _ _) with (e + j) by lia. unfold shl_align. replace (e + j - e) with j by lia.
  destruct Hp as [[Hj Hp]|[Hj Hp]].
  - assert ((match j with Z.neg d => (Pos.iter xO p d, e + j) | _ => (p, e) end) = (p, e)) as -> by (destruct j; [done..|lia]).
    rewrite Hp. by apply round_aux_exact.
  - destruct j as [|j|j]; [lia..|]. change (- Z.neg j) with (Z.pos j) in Hp. rewrite iter_xO, Hp.
    rewrite <- (Z.mul_1_r m) at 1. change 1 with (2 ^ 0). rewrite round_aux_exact by lia. by rewrite Z.add_0_r.
Qed.

(** The mantissa and exponent of an integer. *)
Definition int_exp (n : Z) : Z := Z.log2 n - 52.
Definition int_mant (n : Z) : Z := if 0 <=? int_exp n then n / 2 ^ int_exp n else n * 2 ^ (- int_exp n).
Definition exact_int (n : Z) : Prop := 0 < n ≤ 2 ^ 53.

Lemma int_mant_spec n : exact_int n → 2 ^ 52 ≤ int_mant n < 2 ^ 53 ∧ -52 ≤ int_exp n ≤ 1
  ∧ ((0 ≤ int_exp n ∧ n = int_mant n * 2 ^ int_exp n) ∨ (int_exp n < 0 ∧ n * 2 ^ (- int_exp n) = int_mant n)).
Proof.
  intros [H0 H1]. unfold int_mant. pose proof (Z.log2_nonneg n) as Hn.
  assert (Z.log2 n ≤ 53) as Hl by (rewrite <- (Z.log2_pow2 53) by lia; by apply Z.log2_le_mono).
  destruct (Z.log2_spec n H0) as [Ha Hb].
  destruct (decide (Z.log2 n = 53)) as [E|E].
  { assert (n = 2 ^ 53) as -> by (rewrite E in Ha; lia). split; [done|]. split; [done|]. by left. }
  unfold int_exp in *. destruct (Z.leb_spec 0 (Z.log2 n - 52)).
  { assert (Z.log2 n = 52) as E2 by lia. rewrite E2 in *. change (2 ^ (52 - 52)) with 1. rewrite Z.div_1_r.
    change (Z.succ 52) with 53 in Hb. lia. }
  replace (- (Z.log2 n - 52)) with (52 - Z.log2 n) by lia.
  assert (∀ a b, 0 ≤ a → 0 ≤ b → a + b = 52 → 2 ^ a * 2 ^ b = 2 ^ 52) as Hpow
    by (intros a b ? ? Eab; by rewrite <- Z.pow_add_r, Eab).
  pose proof (Hpow (Z.log2 n) (52 - Z.log2 n) ltac:(lia) ltac:(lia) ltac:(lia)) as Hp.
  assert (0 < 2 ^ (52 - Z.log2 n)) by (apply Z.pow_pos_nonneg; lia).
  rewrite Z.pow_succ_r in Hb by lia. split; [nia|]. split; [lia|]. right. lia.
Qed.

Lemma f_of_int_exact n : exact_int n → f_of_int n = S754_finite false (Z.to_pos (int_mant n)) (int_exp n).
Proof.
  intros Hn. destruct (int_mant_spec n Hn) as (Hm & He & Hr). destruct n as [|p|p]; [by destruct Hn|..|by destruct Hn].
  cbn [f_of_int binary_normalize]. unfold f_of_int, binary_normalize. by rewrite (round_exact _ p 0 (int_mant (Zpos p)) (int_exp (Zpos p))) by (lia || done).
Qed.

Lemma f_to_int_exact n : 0 ≤ n ≤ 2 ^ 53 → f_to_int (f_of_int n) = n.
Proof.
  intros Hn. destruct (decide (n = 0)) as [->|]; [done|]. assert (exact_int n) as He by (split; lia).
  rewrite f_of_int_exact by done. destruct (int_mant_spec n He) as (Hm & Hx & Hr). unfold f_to_int.
  rewrite Z2Pos.id by lia.
  assert ((if 0 <=? int_exp n then int_mant n * 2 ^ int_exp n else int_mant n / 2 ^ (- int_exp n)) = n) as ->.
  { destruct (Z.leb_spec 0 (int_exp n)); [lia|]. destruct Hr as [|[_ <-]]; [lia|]. apply Z.div_mul.
    assert (0 < 2 ^ (- int_exp n)) by (apply Z.pow_pos_nonneg; lia). lia. }
  unfold two63. by rewrite (proj2 (Z.leb_le _ _)), (proj2 (Z.ltb_lt _ _)) by lia.
Qed.

Lemma scale52 m x n : -52 ≤ x → (0 ≤ x ∧ n = m * 2 ^ x) ∨ (x < 0 ∧ n * 2 ^ (- x) = m) → m * 2 ^ (52 + x) = n * 2 ^ 52.
Proof.
  intros Hx [[Hj ->]|[Hj <-]].
  - rewrite Z.pow_add_r by lia. lia.
  - rewrite <- Z.mul_assoc, <- Z.pow_add_r by lia. do 2 f_equal. lia.
Qed.

(** The alignment of an addition. *)
Lemma shl_align_52 m x n : 0 < m → -52 ≤ x → m * 2 ^ (52 + x) = n * 2 ^ 52 →
  Zpos (shl_align (Z.to_pos m) x (-52)).1 = n * 2 ^ 52.
Proof.
  intros Hm Hx <-. unfold shl_align. destruct (-52 - x) as [|d|d] eqn:Ed; [|lia|]; cbn [fst].
  - rewrite Z2Pos.id by lia. replace (52 + x) with 0 by lia. lia.
  - rewrite iter_xO, Z2Pos.id by lia. do 2 f_equal. lia.
Qed.

(** One more than an integer below 2^53. *)
Lemma f_add_one n : 0 ≤ n < 2 ^ 53 → f_add (f_of_int n) (f_of_int 1) = f_of_int (n + 1).
Proof.
  intros Hn. destruct (decide (n = 0)) as [->|]; [done|]. assert (exact_int n) as He by (split; lia).
  assert (exact_int (n + 1)) as He1 by (split; lia). rewrite (f_of_int_exact (n + 1)) by done.
  rewrite f_of_int_exact by done. destruct (int_mant_spec n He) as (Hm & Hx & Hr).
  destruct (int_mant_spec (n + 1) He1) as (Hm1 & Hx1 & Hr1).
  change (f_of_int 1) with (S754_finite false (Z.to_pos (2 ^ 52)) (-52)). unfold f_add, SFadd.
  rewrite Z.min_r by lia. unfold cond_Zopp.
  rewrite (shl_align_52 (int_mant n) (int_exp n) n), (shl_align_52 (2 ^ 52) (-52) 1) by (lia || (apply scale52; [lia|done])).
  replace (n * 2 ^ 52 + 1 * 2 ^ 52) with (Zpos (Z.to_pos ((n + 1) * 2 ^ 52))) by (rewrite Z2Pos.id; lia).
  unfold binary_normalize.
  rewrite (round_exact _ _ (-52) (int_mant (n + 1)) (52 + int_exp (n + 1))); [f_equal; lia|done|lia|].
  left. split; [lia|]. rewrite Z2Pos.id by lia. symmetry. by apply scale52; [lia|].
Qed.

(** 2^53 is where counting stops. *)
Example f_add_one_stops : f_add (f_of_int (2 ^ 53)) (f_of_int 1) = f_of_int (2 ^ 53).
Proof. vm_compute. reflexivity. Qed.

Lemma f_of_int_neg n : exact_int n → f_of_int (- n) = S754_finite true (Z.to_pos (int_mant n)) (int_exp n).
Proof.
  intros Hn. destruct (int_mant_spec n Hn) as (Hm & He & Hr). destruct n as [|p|p]; [by destruct Hn|..|by destruct Hn].
  change (- Zpos p) with (Zneg p). unfold f_of_int, binary_normalize.
  by rewrite (round_exact _ p 0 (int_mant (Zpos p)) (int_exp (Zpos p))) by (lia || done).
Qed.

(** The integers that a [float64] holds without a gap. *)
Definition safe_int (n : Z) : Prop := - 2 ^ 53 ≤ n ≤ 2 ^ 53.

Lemma safe_int_cases n : safe_int n → n = 0 ∨ exact_int n ∨ (∃ k, n = - k ∧ exact_int k).
Proof. unfold safe_int, exact_int. intros H. destruct (Z.lt_total n 0) as [|[|]]; [|lia|lia]. right. right. exists (- n). lia. Qed.

(** The mantissas of integers order as the integers do. *)
Lemma compare_exact a b : exact_int a → exact_int b →
  (match int_exp a ?= int_exp b with Lt => Lt | Gt => Gt | Eq => Pos.compare_cont Eq (Z.to_pos (int_mant a)) (Z.to_pos (int_mant b)) end)
  = (a ?= b).
Proof.
  intros Ha Hb. destruct (int_mant_spec a Ha) as (Hma & Hxa & Hra), (int_mant_spec b Hb) as (Hmb & Hxb & Hrb).
  pose proof (scale52 _ _ _ (proj1 Hxa) Hra) as Ea. pose proof (scale52 _ _ _ (proj1 Hxb) Hrb) as Eb.
  assert (∀ x y, exact_int x → int_exp x < int_exp y → x < y) as Hlog.
  { intros x y _ H. unfold int_exp in H. apply Z.log2_lt_cancel. lia. }
  change (Pos.compare_cont Eq (Z.to_pos (int_mant a)) (Z.to_pos (int_mant b)))
    with (Zpos (Z.to_pos (int_mant a)) ?= Zpos (Z.to_pos (int_mant b))). rewrite !Z2Pos.id by lia. symmetry.
  destruct (Z.compare_spec (int_exp a) (int_exp b)) as [E|H|H].
  - rewrite E in Ea. assert (0 < 2 ^ (52 + int_exp b)) by (apply Z.pow_pos_nonneg; lia).
    destruct (Z.compare_spec (int_mant a) (int_mant b)) as [Em|Em|Em]; [rewrite Em in Ea|..].
    + apply Z.compare_eq_iff. lia.
    + apply Z.compare_lt_iff. nia.
    + apply Z.compare_gt_iff. nia.
  - apply Z.compare_lt_iff. auto.
  - apply Z.compare_gt_iff. auto.
Qed.

Lemma f_compare_int a b : safe_int a → safe_int b → SFcompare (f_of_int a) (f_of_int b) = Some (a ?= b).
Proof.
  intros [->|[Ha|(a' & -> & Ha)]]%safe_int_cases [->|[Hb|(b' & -> & Hb)]]%safe_int_cases;
    change (f_of_int 0) with (S754_zero false); rewrite ?f_of_int_neg by done; rewrite ?f_of_int_exact by done; cbn [SFcompare].
  all: try (unfold exact_int in *; by f_equal; symmetry; (apply Z.compare_lt_iff || apply Z.compare_gt_iff); lia); f_equal.
  - apply (compare_exact _ _ Ha Hb).
  - rewrite Z.compare_opp. rewrite <- (compare_exact b' a') by done. rewrite (Z.compare_antisym (int_exp a') (int_exp b')).
    destruct (int_exp a' ?= int_exp b'); cbn [CompOpp]; [|done..]. apply (Pos.compare_cont_antisym _ _ Eq).
Qed.

Lemma parse_unsigned_digits n : 0 ≤ n < 10 ^ 20 → parse_unsigned (FormatUint n) = Some (n, 0).
Proof.
  intros Hn. destruct (FormatUint_digits n) as (d & ds & E & Hr & Hnum); rewrite E.
  unfold parse_unsigned. pose proof (span_digits_dig (d :: ds) [] Hr) as Es. rewrite app_nil_r in Es. rewrite Es by done.
  rewrite app_nil_r, bool_decide_eq_false_2 by done. cbn [parse_exponent fmap option_fmap option_map length]. by rewrite Hnum.
Qed.

(** A number starts with a digit. *)
Lemma FormatUint_head n : ∃ b s, FormatUint n = b :: s ∧ ∀ c, Z_of_byte c < 48 ∨ 57 < Z_of_byte c → b ≠ c.
Proof.
  destruct (FormatUint_digits n) as (d & ds & -> & Hr & _). exists (dig d), (dig <$> ds). split; [done|].
  intros c Hc. apply dig_not; [|done]. by apply Forall_cons_1 in Hr as [? _].
Qed.

(** The text of an integer reads back as the integer. *)
Lemma ParseFloat_int n : safe_int n → ParseFloat (FormatInt n) = (f_of_int n, true).
Proof.
  intros Hn. unfold FormatInt, safe_int in *.
  assert (∀ m neg, exact_int m → f_of_decimal neg m 0 = S754_finite neg (Z.to_pos (int_mant m)) (int_exp m)) as Hd.
  { intros [|p|p] neg Hm; [by destruct Hm| |by destruct Hm]. destruct (int_mant_spec _ Hm) as (? & ? & ?). unfold f_of_decimal.
    cbn [Z.leb Z.compare]. change (10 ^ 0) with 1. rewrite Z.mul_1_r. cbn [Z.to_pos].
    by rewrite (round_exact _ p 0 (int_mant (Zpos p)) (int_exp (Zpos p))) by (lia || done). }
  destruct (Z.ltb_spec n 0).
  - assert (exact_int (- n)) as He by (split; lia). pose proof (f_of_int_neg _ He) as Ef. rewrite Z.opp_involutive in Ef.
    destruct (FormatUint_head (- n)) as (b & s & E & Hb).
    unfold ParseFloat. rewrite bool_decide_eq_true_2 by done. rewrite decide_False, decide_False, parse_unsigned_digits by
      (lia || by rewrite E; intros [= E1]; revert E1; apply Hb; right).
    by rewrite Hd, Ef.
  - destruct (FormatUint_head n) as (b & s & E & Hb). unfold ParseFloat. rewrite E.
    rewrite !bool_decide_eq_false_2 by (apply Hb; by left). rewrite !decide_False by (intros [= E1]; revert E1; apply Hb; by right).
    rewrite <- E, parse_unsigned_digits by lia. destruct (decide (n = 0)) as [->|]; [done|].
    assert (exact_int n) as He by (split; lia). by rewrite Hd, f_of_int_exact.
Qed.
