(* ===== verification/State.v ===== *)
(** * Keyed state: the backend interface and the in-memory backend

    [src/state/state.go] (the interfaces) and [src/state/memory.go].

    A Go [ValueState] or [ListState] is a cursor into one namespace of a
    backend: [SetKey] scopes the following calls to a key.  [handle] is that
    cursor; every operation takes the backend and the cursor and returns the
    new backend.  The mutexes and the per-handle cache of the namespace map
    ([vs.data], re-read from the backend at the start of every operation) carry
    no state of their own.

    [StateBackend] is the interface and [StateBackendLaws] is what the
    operators rely on; [Memory] implements it.  The order in which Go iterates
    over a map is unspecified: [MapOrder] is an arbitrary choice of it. *)

From S2P Require Import Prelude.

(** ** The interface *)

(** [ValueState] / [ListState] handle: namespace and current key. *)
Record handle := mkHandle { h_ns : bytes; h_key : bytes }.

#[export] Instance handle_eq_dec : EqDecision handle.
Proof. solve_decision. Defined.

(** [backend.ValueState(name)] / [backend.ListState(name)]: the key is unset. *)
Definition open_ns (name : bytes) : handle := mkHandle name [].

(** [SetKey] *)
Definition SetKey (h : handle) (key : bytes) : handle := mkHandle (h_ns h) key.

Class StateBackend (B : Type) := {
  vs_Get : B → handle → option bytes;
  vs_Set : B → handle → bytes → B;
  vs_Clear : B → handle → B;
  vs_Keys : B → handle → list bytes;
  vs_SnapshotAll : B → handle → gmap bytes bytes;
  vs_RestoreAll : B → handle → gmap bytes bytes → B;
  ls_Append : B → handle → bytes → B;
  ls_GetAll : B → handle → list bytes;
  ls_Clear : B → handle → B;
  ls_Keys : B → handle → list bytes
}.

(** The contract of a backend.  [sb_inv] is its representation invariant. *)
Class StateBackendLaws (B : Type) `{!StateBackend B} := {
  sb_inv : B → Prop;

  vs_Set_inv : ∀ b h v, sb_inv b → sb_inv (vs_Set b h v);
  vs_Clear_inv : ∀ b h, sb_inv b → sb_inv (vs_Clear b h);
  vs_RestoreAll_inv : ∀ b h m, sb_inv b → sb_inv (vs_RestoreAll b h m);
  ls_Append_inv : ∀ b h v, sb_inv b → sb_inv (ls_Append b h v);
  ls_Clear_inv : ∀ b h, sb_inv b → sb_inv (ls_Clear b h);

  vs_Get_Set : ∀ b h v h', sb_inv b →
    vs_Get (vs_Set b h v) h' = if decide (h = h') then Some v else vs_Get b h';
  vs_Get_Clear : ∀ b h h', sb_inv b →
    vs_Get (vs_Clear b h) h' = if decide (h = h') then None else vs_Get b h';
  vs_Get_RestoreAll : ∀ b h m h', sb_inv b →
    vs_Get (vs_RestoreAll b h m) h'
    = if decide (h_ns h = h_ns h') then m !! h_key h' else vs_Get b h';
  vs_Get_Append : ∀ b h v h', sb_inv b → vs_Get (ls_Append b h v) h' = vs_Get b h';
  vs_Get_ls_Clear : ∀ b h h', sb_inv b → vs_Get (ls_Clear b h) h' = vs_Get b h';
  vs_Keys_spec : ∀ b h k, sb_inv b →
    k ∈ vs_Keys b h ↔ is_Some (vs_Get b (SetKey h k));
  vs_Keys_NoDup : ∀ b h, sb_inv b → NoDup (vs_Keys b h);
  vs_SnapshotAll_spec : ∀ b h k, sb_inv b →
    vs_SnapshotAll b h !! k = vs_Get b (SetKey h k);

  ls_GetAll_Append : ∀ b h v h', sb_inv b →
    ls_GetAll (ls_Append b h v) h'
    = if decide (h = h') then ls_GetAll b h' ++ [v] else ls_GetAll b h';
  ls_GetAll_Clear : ∀ b h h', sb_inv b →
    ls_GetAll (ls_Clear b h) h' = if decide (h = h') then [] else ls_GetAll b h';
  ls_GetAll_Set : ∀ b h v h', sb_inv b → ls_GetAll (vs_Set b h v) h' = ls_GetAll b h';
  ls_GetAll_vs_Clear : ∀ b h h', sb_inv b → ls_GetAll (vs_Clear b h) h' = ls_GetAll b h';
  ls_GetAll_RestoreAll : ∀ b h m h', sb_inv b →
    ls_GetAll (vs_RestoreAll b h m) h' = ls_GetAll b h';
  ls_Keys_spec : ∀ b h k, sb_inv b →
    k ∈ ls_Keys b h ↔ ls_GetAll b (SetKey h k) ≠ [];
  ls_Keys_NoDup : ∀ b h, sb_inv b → NoDup (ls_Keys b h)
}.

#[export] Hint Resolve vs_Set_inv vs_Clear_inv vs_RestoreAll_inv ls_Append_inv ls_Clear_inv : weibo.

(** ** Go map iteration *)

(** [for k := range m]: some enumeration of the keys, each once. *)
Class MapOrder := {
  map_order : ∀ {A : Type}, gmap bytes A → list bytes;
  map_order_perm : ∀ {A} (m : gmap bytes A), map_order m ≡ₚ (map_to_list m).*1
}.

#[export] Program Instance map_order_default : MapOrder :=
  {| map_order _ m := (map_to_list m).*1 |}.
Next Obligation. done. Qed.

Lemma elem_of_map_order `{!MapOrder} {A} (m : gmap bytes A) k :
  k ∈ map_order m ↔ is_Some (m !! k).
Proof.
  rewrite map_order_perm, list_elem_of_fmap. split.
  - intros ([k' v] & -> & Hin%elem_of_map_to_list). simpl. eauto.
  - intros [v Hv]. exists (k, v). by rewrite elem_of_map_to_list.
Qed.

Lemma NoDup_map_order `{!MapOrder} {A} (m : gmap bytes A) : NoDup (map_order m).
Proof. rewrite map_order_perm. apply NoDup_fst_map_to_list. Qed.

(** ** The in-memory backend *)

Module Memory.
Section memory.
Context {MO : MapOrder}.

(** [MemoryBackend]: name -> key -> value, and name -> key -> list. *)
Record MemoryBackend := mkMemory {
  value : gmap bytes (gmap bytes bytes);
  list_ : gmap bytes (gmap bytes (list bytes))
}.

Definition NewMemoryBackend : MemoryBackend := mkMemory ∅ ∅.

(** The namespace map; a missing one reads as an empty map, and is created
    by the first write (or by [ValueState] / [ListState]). *)
Definition value_ns (m : MemoryBackend) (name : bytes) : gmap bytes bytes :=
  default ∅ (value m !! name).
Definition list_ns (m : MemoryBackend) (name : bytes) : gmap bytes (list bytes) :=
  default ∅ (list_ m !! name).

Definition set_value_ns (m : MemoryBackend) (name : bytes) (d : gmap bytes bytes) :=
  mkMemory (<[name := d]> (value m)) (list_ m).
Definition set_list_ns (m : MemoryBackend) (name : bytes) (d : gmap bytes (list bytes)) :=
  mkMemory (value m) (<[name := d]> (list_ m)).

(** [memoryValueState.Get] *)
Definition value_Get (m : MemoryBackend) (h : handle) : option bytes :=
  match value m !! h_ns h with
  | None => None
  | Some data => data !! h_key h
  end.

(** [memoryValueState.Set] *)
Definition value_Set (m : MemoryBackend) (h : handle) (v : bytes) : MemoryBackend :=
  let data := match value m !! h_ns h with None => ∅ | Some data => data end in
  set_value_ns m (h_ns h) (<[h_key h := v]> data).

(** [memoryValueState.Clear] *)
Definition value_Clear (m : MemoryBackend) (h : handle) : MemoryBackend :=
  match value m !! h_ns h with
  | None => m
  | Some data => set_value_ns m (h_ns h) (delete (h_key h) data)
  end.

(** [memoryValueState.Keys] *)
Definition value_Keys (m : MemoryBackend) (h : handle) : list bytes :=
  map_order (value_ns m (h_ns h)).

(** [memoryValueState.SnapshotAll]: a copy of the namespace. *)
Definition value_SnapshotAll (m : MemoryBackend) (h : handle) : gmap bytes bytes :=
  match value m !! h_ns h with None => ∅ | Some data => data end.

(** [memoryValueState.RestoreAll]: the namespace is replaced. *)
Definition value_RestoreAll (m : MemoryBackend) (h : handle) (entries : gmap bytes bytes) :=
  set_value_ns m (h_ns h) entries.

(** [memoryListState.Append] *)
Definition list_Append (m : MemoryBackend) (h : handle) (v : bytes) : MemoryBackend :=
  let data := match list_ m !! h_ns h with None => ∅ | Some data => data end in
  set_list_ns m (h_ns h) (<[h_key h := default [] (data !! h_key h) ++ [v]]> data).

(** [memoryListState.GetAll]; nil is the empty list. *)
Definition list_GetAll (m : MemoryBackend) (h : handle) : list bytes :=
  match list_ m !! h_ns h with
  | None => []
  | Some data => default [] (data !! h_key h)
  end.

(** [memoryListState.Clear] *)
Definition list_Clear (m : MemoryBackend) (h : handle) : MemoryBackend :=
  match list_ m !! h_ns h with
  | None => m
  | Some data => set_list_ns m (h_ns h) (delete (h_key h) data)
  end.

(** [memoryListState.Keys] *)
Definition list_Keys (m : MemoryBackend) (h : handle) : list bytes :=
  map_order (list_ns m (h_ns h)).

(** No key is stored with an empty list. *)
Definition inv (m : MemoryBackend) : Prop :=
  ∀ name data k, list_ m !! name = Some data → data !! k ≠ Some [].

Lemma inv_new : inv NewMemoryBackend.
Proof. intros ??? H. simpl in H. by rewrite lookup_empty in H. Qed.

#[global] Instance memory_backend : StateBackend MemoryBackend := {|
  vs_Get := value_Get; vs_Set := value_Set; vs_Clear := value_Clear;
  vs_Keys := value_Keys; vs_SnapshotAll := value_SnapshotAll;
  vs_RestoreAll := value_RestoreAll;
  ls_Append := list_Append; ls_GetAll := list_GetAll; ls_Clear := list_Clear;
  ls_Keys := list_Keys
|}.

(** Every operation in terms of the namespace maps. *)
Lemma value_Get_ns m h : value_Get m h = value_ns m (h_ns h) !! h_key h.
Proof. unfold value_Get, value_ns. destruct (value m !! h_ns h); simpl; [done|]. by rewrite lookup_empty. Qed.
Lemma list_GetAll_ns m h : list_GetAll m h = default [] (list_ns m (h_ns h) !! h_key h).
Proof. unfold list_GetAll, list_ns. destruct (list_ m !! h_ns h); simpl; [done|]. by rewrite lookup_empty. Qed.

Lemma value_ns_set m name d n :
  value_ns (set_value_ns m name d) n = if decide (name = n) then d else value_ns m n.
Proof. unfold value_ns. simpl. rewrite lookup_insert. by case_decide. Qed.
Lemma list_ns_set m name d n :
  list_ns (set_list_ns m name d) n = if decide (name = n) then d else list_ns m n.
Proof. unfold list_ns. simpl. rewrite lookup_insert. by case_decide. Qed.

Lemma value_Set_eq m h v :
  value_Set m h v = set_value_ns m (h_ns h) (<[h_key h := v]> (value_ns m (h_ns h))).
Proof. unfold value_Set, value_ns. by destruct (value m !! h_ns h). Qed.
Lemma list_Append_eq m h v :
  list_Append m h v
  = set_list_ns m (h_ns h) (<[h_key h := list_GetAll m h ++ [v]]> (list_ns m (h_ns h))).
Proof. rewrite list_GetAll_ns. unfold list_Append, list_ns. by destruct (list_ m !! h_ns h). Qed.

Lemma value_ns_Clear m h n :
  value_ns (value_Clear m h) n
  = if decide (h_ns h = n) then delete (h_key h) (value_ns m n) else value_ns m n.
Proof.
  unfold value_Clear. destruct (value m !! h_ns h) as [d|] eqn:E.
  - rewrite value_ns_set. case_decide; [|done]. subst n. unfold value_ns. by rewrite E.
  - case_decide; [|done]. subst n. unfold value_ns. rewrite E. simpl. by rewrite delete_empty.
Qed.
Lemma list_ns_Clear m h n :
  list_ns (list_Clear m h) n
  = if decide (h_ns h = n) then delete (h_key h) (list_ns m n) else list_ns m n.
Proof.
  unfold list_Clear. destruct (list_ m !! h_ns h) as [d|] eqn:E.
  - rewrite list_ns_set. case_decide; [|done]. subst n. unfold list_ns. by rewrite E.
  - case_decide; [|done]. subst n. unfold list_ns. rewrite E. simpl. by rewrite delete_empty.
Qed.

Lemma list_ns_vs_Clear m h n : list_ns (value_Clear m h) n = list_ns m n.
Proof. unfold value_Clear. by destruct (value m !! h_ns h). Qed.
Lemma value_ns_ls_Clear m h n : value_ns (list_Clear m h) n = value_ns m n.
Proof. unfold list_Clear. by destruct (list_ m !! h_ns h). Qed.

Lemma inv_ns m : inv m ↔ ∀ n k, list_ns m n !! k ≠ Some [].
Proof.
  unfold inv, list_ns. split.
  - intros Hi n k. destruct (list_ m !! n) as [d|] eqn:E; simpl; [by eapply Hi|].
    by rewrite lookup_empty.
  - intros Hi n d k E. specialize (Hi n k). by rewrite E in Hi.
Qed.

(** Rewrite everything to namespace maps, then split on the key tests. *)
Ltac mem_simpl :=
  simpl in *; rewrite ?value_Get_ns, ?list_GetAll_ns, ?value_Set_eq, ?list_Append_eq in *;
  unfold value_RestoreAll;
  rewrite ?value_ns_set, ?list_ns_set, ?value_ns_Clear, ?list_ns_Clear,
    ?list_ns_vs_Clear, ?value_ns_ls_Clear.
Ltac mem_split :=
  repeat match goal with h : handle |- _ => destruct h as [? ?] end; simpl in *;
  repeat (case_decide; simplify_eq/=; rewrite ?lookup_insert, ?lookup_delete); try done.

#[global] Instance memory_laws : StateBackendLaws MemoryBackend.
Proof.
  refine {| sb_inv := inv |}.
  - intros b h v Hi. simpl. by rewrite value_Set_eq.
  - intros b h Hi. simpl. apply inv_ns. intros n k. rewrite list_ns_vs_Clear.
    by apply inv_ns.
  - done.
  - intros b h v Hi. simpl. rewrite list_Append_eq. apply inv_ns. intros n k.
    rewrite list_ns_set. case_decide; [|by apply inv_ns].
    rewrite lookup_insert. case_decide; [|by apply inv_ns]. by destruct (list_GetAll b h).
  - intros b h Hi. simpl. apply inv_ns. intros n k. rewrite list_ns_Clear.
    case_decide; [|by apply inv_ns]. rewrite lookup_delete. case_decide; [done|by apply inv_ns].
  - intros b h v h' Hi. mem_simpl. mem_split.
  - intros b h h' Hi. mem_simpl. mem_split.
  - intros b h m h' Hi. mem_simpl. mem_split.
  - intros b h v h' Hi. mem_simpl. done.
  - intros b h h' Hi. mem_simpl. done.
  - intros b h k Hi. mem_simpl. apply elem_of_map_order.
  - intros b h Hi. apply NoDup_map_order.
  - intros b h k Hi. mem_simpl. unfold value_SnapshotAll, value_ns.
    cbn [h_ns h_key SetKey]. by destruct (value b !! h_ns h).
  - intros b h v h' Hi. mem_simpl. mem_split. by rewrite list_GetAll_ns.
  - intros b h h' Hi. mem_simpl. mem_split.
  - intros b h v h' Hi. mem_simpl. done.
  - intros b h h' Hi. mem_simpl. done.
  - intros b h m h' Hi. mem_simpl. done.
  - intros b h k Hi. mem_simpl. unfold list_Keys. rewrite elem_of_map_order.
    rewrite inv_ns in Hi. specialize (Hi (h_ns h) k).
    cbn [h_ns h_key SetKey].
    destruct (list_ns b (h_ns h) !! k) as [[|]|]; simpl; [done|by split|].
    split; [by intros [? ?]|done].
  - intros b h Hi. apply NoDup_map_order.
Defined.
End memory.
End Memory.
