(* ===== verification/Pebble.v ===== *)
(** * The Pebble state backend ([src/state/pebble.go])

    The backend keeps values and list entries in one ordered key-value store
    (CockroachDB's Pebble, a third-party library).  The store is a parameter:
    [PebbleDB] lists the calls the backend makes and [PebbleLaws] the documented
    behaviour it relies on (point reads and writes, range deletion of
    [[start, end)), iteration over [[lower, upper)) in byte order); [gmap_db] is
    an instance.  I/O failures of the store, which the backend turns into
    panics, are not modelled.

    The key encoding, the sequence counters, [prefixUpperBound], [Keys],
    [CheckpointTo], [RestoreFrom], [Reset] and the closed state are the
    source's.  The main result is that the backend refines the in-memory one:
    over namespaces and keys without a NUL byte, and fewer than 2^64 appends,
    every read returns what the in-memory backend returns.  With a NUL byte in
    a list key it does not ([pebble_nul_key_leak]). *)

From S2P Require Import Prelude State.
From Stdlib Require Import Strings.Byte.

(** ** The ordered store *)

Class PebbleDB (D : Type) := {
  db_empty : D;
  db_get : D → bytes → option bytes;
  db_set : D → bytes → bytes → D;
  db_delete : D → bytes → D;
  db_delete_range : D → bytes → bytes → D;
  db_scan : D → bytes → bytes → list (bytes * bytes)
}.

(** [lo <= k < hi] in byte order. *)
Definition in_range (lo hi k : bytes) : Prop := bytes_ltb k lo = false ∧ bytes_ltb k hi = true.

#[export] Instance in_range_dec lo hi k : Decision (in_range lo hi k).
Proof. unfold in_range. apply _. Defined.

Class PebbleLaws (D : Type) `{!PebbleDB D} := {
  db_get_empty : ∀ k, db_get db_empty k = None;
  db_get_set : ∀ d k v k', db_get (db_set d k v) k' = if decide (k = k') then Some v else db_get d k';
  db_get_delete : ∀ d k k', db_get (db_delete d k) k' = if decide (k = k') then None else db_get d k';
  db_get_delete_range : ∀ d lo hi k,
    db_get (db_delete_range d lo hi) k = if decide (in_range lo hi k) then None else db_get d k;
  db_scan_spec : ∀ d lo hi k v, (k, v) ∈ db_scan d lo hi ↔ in_range lo hi k ∧ db_get d k = Some v;
  db_scan_sorted : ∀ d lo hi, StronglySorted bytes_lt (db_scan d lo hi).*1
}.

(** ** Key encoding *)

Definition valuePrefix : byte := x76.
Definition listPrefix : byte := x6c.
Definition nul : byte := x00.

(** [binary.BigEndian.PutUint64] *)
Fixpoint be (k : nat) (n : Z) : bytes :=
  match k with O => [] | S k' => be k' (n / 256) ++ [byte_of_Z (n mod 256)] end.
Definition PutUint64 (n : Z) : bytes := be 8 n.
(** [binary.BigEndian.Uint64] *)
Definition Uint64 (b : bytes) : Z := foldl (λ a c, 256 * a + Z_of_byte c) 0 b.

Definition valueUserKey (namespace key : bytes) : bytes :=
  [valuePrefix; nul] ++ namespace ++ [nul] ++ key.

Definition valuePrefixBytes (namespace : bytes) : bytes := valueUserKey namespace [].

Definition valueUserKeyFromFull (namespace fullKey : bytes) : bytes :=
  let expected := valuePrefixBytes namespace in
  if decide (length expected < length fullKey)%nat then drop (length expected) fullKey else [].

Definition listEntryKey (namespace key : bytes) (seq : Z) : bytes :=
  [listPrefix; nul] ++ namespace ++ [nul] ++ key ++ [nul] ++ PutUint64 seq.

Definition listPrefixBytes (namespace key : bytes) : bytes :=
  let e := listEntryKey namespace key 0 in take (length e - 8) e.

Definition listNamespacePrefix (namespace : bytes) : bytes :=
  [listPrefix; nul] ++ namespace ++ [nul].

(** [prefixUpperBound]: increment the last byte below 0xff and cut there; the
    loop runs from the end, here over the reversed prefix. *)
Fixpoint upper_rev (r : bytes) : option bytes :=
  match r with
  | [] => None
  | b :: r' => if Z_of_byte b <? 255 then Some (byte_of_Z (Z_of_byte b + 1) :: r') else upper_rev r'
  end.

Definition prefixUpperBound (prefix : bytes) : bytes :=
  match upper_rev (reverse prefix) with
  | Some r => reverse r
  | None => prefix ++ [xff]
  end.

(** ** The backend *)

Section backend.
Context {D : Type} `{!PebbleDB D}.

(** [PebbleBackend]; [dir] and the locks carry no modelled state. *)
Record PebbleBackend := mkPebble {
  db : D;
  seqs : gmap (bytes * bytes) Z;
  closed : bool
}.

(** [OpenPebble] on an existing directory. *)
Definition OpenPebble (d : D) : PebbleBackend := mkPebble d ∅ false.

(** [Close] *)
Definition Close (p : PebbleBackend) : PebbleBackend := mkPebble (db p) (seqs p) true.

Definition set_db (p : PebbleBackend) (d : D) : PebbleBackend := mkPebble d (seqs p) (closed p).

(** Iterate over every key that starts with [prefix]. *)
Definition scan_prefix (p : PebbleBackend) (prefix : bytes) : list (bytes * bytes) :=
  db_scan (db p) prefix (prefixUpperBound prefix).

Definition pvalue_Get (p : PebbleBackend) (h : handle) : option bytes :=
  if closed p then None else db_get (db p) (valueUserKey (h_ns h) (h_key h)).

Definition pvalue_Set (p : PebbleBackend) (h : handle) (v : bytes) : PebbleBackend :=
  if closed p then p else set_db p (db_set (db p) (valueUserKey (h_ns h) (h_key h)) v).

Definition pvalue_Clear (p : PebbleBackend) (h : handle) : PebbleBackend :=
  if closed p then p else set_db p (db_delete (db p) (valueUserKey (h_ns h) (h_key h))).

Definition pvalue_Keys (p : PebbleBackend) (h : handle) : list bytes :=
  if closed p then []
  else (λ kv, valueUserKeyFromFull (h_ns h) kv.1) <$> scan_prefix p (valuePrefixBytes (h_ns h)).

Definition pvalue_SnapshotAll (p : PebbleBackend) (h : handle) : gmap bytes bytes :=
  if closed p then ∅
  else foldl (λ out kv, <[valueUserKeyFromFull (h_ns h) kv.1 := kv.2]> out) ∅
         (scan_prefix p (valuePrefixBytes (h_ns h))).

(** [RestoreAll]: one batch, a range deletion and then the sets. *)
Definition pvalue_RestoreAll (p : PebbleBackend) (h : handle) (entries : gmap bytes bytes)
    : result PebbleBackend :=
  if closed p then Err (bs "state/pebble: restore on closed backend")
  else
    let pre := valuePrefixBytes (h_ns h) in
    let d := db_delete_range (db p) pre (prefixUpperBound pre) in
    Ok (set_db p (map_fold (λ k v d, db_set d (valueUserKey (h_ns h) k) v) d entries)).

(** [nextListSeq]: one past the highest stored entry. *)
Definition nextListSeq (p : PebbleBackend) (namespace key : bytes) : Z :=
  match last (scan_prefix p (listPrefixBytes namespace key)) with
  | None => 0
  | Some (k, _) => wrapu64 (Uint64 (drop (length k - 8) k) + 1)
  end.

Definition plist_Append (p : PebbleBackend) (h : handle) (v : bytes) : PebbleBackend :=
  if closed p then p
  else
    let sk := (h_ns h, h_key h) in
    let seq := match seqs p !! sk with
               | Some seq => seq
               | None => nextListSeq p (h_ns h) (h_key h)
               end in
    mkPebble (db_set (db p) (listEntryKey (h_ns h) (h_key h) seq) v)
      (<[sk := wrapu64 (seq + 1)]> (seqs p)) (closed p).

Definition plist_GetAll (p : PebbleBackend) (h : handle) : list bytes :=
  if closed p then []
  else (scan_prefix p (listPrefixBytes (h_ns h) (h_key h))).*2.

Definition plist_Clear (p : PebbleBackend) (h : handle) : PebbleBackend :=
  if closed p then p
  else
    let start := listPrefixBytes (h_ns h) (h_key h) in
    set_db p (db_delete_range (db p) start (prefixUpperBound start)).

(** The loop of [Keys]: first occurrences, in order ([seen] is the map). *)
Fixpoint list_keys_loop (preLen : nat) (seen : gset bytes) (kvs : list (bytes * bytes))
    : list bytes :=
  match kvs with
  | [] => []
  | (full, _) :: kvs' =>
      if decide (length full < preLen + 9)%nat then list_keys_loop preLen seen kvs'
      else
        let k := take (length full - 9 - preLen) (drop preLen full) in
        if decide (k ∈ seen) then list_keys_loop preLen seen kvs'
        else k :: list_keys_loop preLen ({[k]} ∪ seen) kvs'
  end.

Definition plist_Keys (p : PebbleBackend) (h : handle) : list bytes :=
  if closed p then []
  else
    let prefix := listNamespacePrefix (h_ns h) in
    list_keys_loop (length prefix) ∅ (scan_prefix p prefix).

(** ** Native checkpoints: the state directories, by path *)

Definition CheckpointTo (p : PebbleBackend) (dirs : gmap bytes D) (dir : bytes)
    : result (gmap bytes D) :=
  if closed p then Err (bs "state/pebble: checkpoint on closed backend")
  else match dirs !! dir with
       | Some _ => Err (bs "pebble: checkpoint directory exists")
       | None => Ok (<[dir := db p]> dirs)
       end.

(** The live store is closed and wiped before the copy, so a missing
    checkpoint directory leaves the backend closed. *)
Definition RestoreFrom (p : PebbleBackend) (dirs : gmap bytes D) (dir : bytes)
    : result unit * PebbleBackend :=
  match dirs !! dir with
  | None => (Err (bs "state/pebble: copy checkpoint -> live"), mkPebble db_empty (seqs p) true)
  | Some d => (Ok tt, mkPebble d ∅ false)
  end.

Definition Reset (p : PebbleBackend) : PebbleBackend := mkPebble db_empty ∅ false.
End backend.
Arguments PebbleBackend : clear implicits.

(** ** An instance of the store: a finite map, scanned in byte order *)

Definition kv_le (a b : bytes * bytes) : Prop := bytes_ltb b.1 a.1 = false.

#[export] Instance kv_le_dec : RelDecision kv_le.
Proof. intros a b. unfold kv_le. apply _. Defined.

#[export] Instance gmap_db : PebbleDB (gmap bytes bytes) := {|
  db_empty := ∅;
  db_get d k := d !! k;
  db_set d k v := <[k := v]> d;
  db_delete d k := delete k d;
  db_delete_range d lo hi := filter (λ kv, ¬ in_range lo hi kv.1) d;
  db_scan d lo hi := merge_sort kv_le (filter (λ kv, in_range lo hi kv.1) (map_to_list d))
|}.

#[export] Instance kv_le_total : Total kv_le.
Proof.
  intros a b. unfold kv_le. destruct (bytes_ltb b.1 a.1) eqn:E; [right|by left].
  destruct (bytes_ltb a.1 b.1) eqn:E'; [|done].
  pose proof (bytes_ltb_trans _ _ _ E E') as H. by rewrite bytes_ltb_irrefl in H.
Qed.

#[export] Instance kv_le_trans : Transitive kv_le.
Proof.
  intros a b c. unfold kv_le. intros H1 H2.
  destruct (bytes_ltb c.1 a.1) eqn:E; [|done].
  destruct (bytes_ltb a.1 b.1) eqn:E'.
  - by rewrite (bytes_ltb_trans _ _ _ E E') in H2.
  - rewrite (bytes_ltb_total _ _ H1 E') in H2. congruence.
Qed.

(** A list sorted for [kv_le] with pairwise distinct keys is strictly sorted. *)
Lemma kv_le_strict l : StronglySorted kv_le l → NoDup l.*1 → StronglySorted bytes_lt l.*1.
Proof.
  induction 1 as [|a l Hs IH Ha]; csimpl; [constructor|].
  intros [Hn Hnd]%NoDup_cons. constructor; [by apply IH|].
  apply Forall_fmap, Forall_forall. intros b Hb. rewrite Forall_forall in Ha. specialize (Ha b Hb).
  unfold kv_le in Ha. unfold bytes_lt. simpl. destruct (bytes_ltb a.1 b.1) eqn:E; [done|].
  destruct Hn. rewrite <- (bytes_ltb_total _ _ Ha E). by apply list_elem_of_fmap_2.
Qed.

#[export] Instance gmap_db_laws : PebbleLaws (gmap bytes bytes).
Proof.
  split; simpl.
  - intros k. apply lookup_empty.
  - intros d k v k'. by rewrite lookup_insert.
  - intros d k k'. by rewrite lookup_delete.
  - intros d lo hi k. case_decide as Hr.
    + apply map_lookup_filter_None. right. naive_solver.
    + destruct (d !! k) as [v|] eqn:E.
      * by apply map_lookup_filter_Some.
      * apply map_lookup_filter_None. by left.
  - intros d lo hi k v. rewrite merge_sort_Permutation, list_elem_of_filter, elem_of_map_to_list. done.
  - intros d lo hi. apply kv_le_strict; [apply (StronglySorted_merge_sort kv_le)|].
    rewrite merge_sort_Permutation.
    pose proof (NoDup_fst_map_to_list d) as Hnd. revert Hnd.
    induction (map_to_list d) as [|a l IH]; csimpl; [done|].
    intros [Hn Hnd]%NoDup_cons. rewrite filter_cons. case_decide; [|by apply IH].
    csimpl. constructor; [|by apply IH]. intros (b & E & Hb)%list_elem_of_fmap.
    apply Hn. rewrite E. apply list_elem_of_fmap_2. by apply list_elem_of_filter in Hb as [_ ?].
Qed.

(** ** Encoding lemmas *)

Lemma length_be k n : length (be k n) = k.
Proof. revert n. induction k as [|k IH]; intros n; simpl; [done|]. rewrite length_app, IH. simpl. lia. Qed.

Lemma Uint64_app b c : Uint64 (b ++ [c]) = 256 * Uint64 b + Z_of_byte c.
Proof. unfold Uint64. by rewrite foldl_app. Qed.

Lemma Uint64_be k n : 0 ≤ n < 256 ^ Z.of_nat k → Uint64 (be k n) = n.
Proof.
  revert n. induction k as [|k IH]; intros n Hn.
  - change (256 ^ Z.of_nat 0) with 1 in Hn. unfold Uint64. simpl. lia.
  - rewrite Nat2Z.inj_succ, Z.pow_succ_r in Hn by lia. simpl.
    rewrite Uint64_app, IH, Z_of_byte_of_Z by zdiv. zdiv.
Qed.

Lemma Uint64_Put n : 0 ≤ n < two64 → Uint64 (PutUint64 n) = n.
Proof. apply (Uint64_be 8). Qed.

Lemma bytes_ltb_snoc x y c d : length x = length y →
  bytes_ltb (x ++ [c]) (y ++ [d]) = bytes_ltb x y || bool_decide (x = y) && (Z_of_byte c <? Z_of_byte d).
Proof.
  revert y. induction x as [|a x IH]; intros [|b y] Hl; try done; simpl.
  - destruct (Z.ltb_spec (Z_of_byte c) (Z_of_byte d)); [done|]. by destruct (_ =? _).
  - injection Hl as Hl. destruct (Z.ltb_spec (Z_of_byte a) (Z_of_byte b)); [done|].
    destruct (Z.eqb_spec (Z_of_byte a) (Z_of_byte b)) as [E|].
    + rewrite IH by done. apply Z_of_byte_inj in E as ->. do 2 f_equal.
      apply bool_decide_ext. naive_solver.
    + rewrite bool_decide_eq_false_2; [done|]. congruence.
Qed.

(** Big-endian counters sort numerically. *)
Lemma bytes_ltb_be k a b : 0 ≤ a < 256 ^ Z.of_nat k → 0 ≤ b < 256 ^ Z.of_nat k →
  bytes_ltb (be k a) (be k b) = (a <? b).
Proof.
  revert a b. induction k as [|k IH]; intros a b Ha Hb.
  - change (256 ^ Z.of_nat 0) with 1 in *. simpl. symmetry. apply Z.ltb_ge. lia.
  - rewrite Nat2Z.inj_succ, Z.pow_succ_r in Ha, Hb by lia. simpl.
    rewrite bytes_ltb_snoc, !Z_of_byte_of_Z, IH by (rewrite ?length_be; zdiv).
    rewrite !Z.mod_mod by lia.
    destruct (decide (a / 256 = b / 256)) as [E|E].
    + rewrite E, Z.ltb_irrefl, bool_decide_eq_true_2 by done. simpl.
      destruct (Z.ltb_spec (a mod 256) (b mod 256)), (Z.ltb_spec a b); try done; zdiv.
    + rewrite bool_decide_eq_false_2, orb_false_r.
      * destruct (Z.ltb_spec (a / 256) (b / 256)), (Z.ltb_spec a b); try done; zdiv.
      * intros Eb. apply (f_equal Uint64) in Eb. rewrite !Uint64_be in Eb by zdiv. done.
Qed.

Lemma listPrefixBytes_eq ns k :
  listPrefixBytes ns k = [listPrefix; nul] ++ ns ++ [nul] ++ k ++ [nul].
Proof.
  unfold listPrefixBytes, listEntryKey, PutUint64.
  replace ([listPrefix; nul] ++ ns ++ [nul] ++ k ++ [nul] ++ be 8 0)
    with (([listPrefix; nul] ++ ns ++ [nul] ++ k ++ [nul]) ++ be 8 0) by (by rewrite <- !app_assoc).
  rewrite length_app, length_be, Nat.add_sub. by rewrite take_app_length.
Qed.

Lemma listEntryKey_prefix ns k s : listEntryKey ns k s = listPrefixBytes ns k ++ PutUint64 s.
Proof. rewrite listPrefixBytes_eq. unfold listEntryKey. by rewrite <- !app_assoc. Qed.

Definition nul_free (b : bytes) : Prop := nul ∉ b.
#[export] Instance nul_free_dec b : Decision (nul_free b).
Proof. unfold nul_free. apply _. Defined.

Lemma split_nul a b x y : nul_free a → nul_free b → a ++ nul :: x = b ++ nul :: y → a = b ∧ x = y.
Proof.
  unfold nul_free. revert b. induction a as [|c a IH]; intros [|d b] Ha Hb E; simplify_eq/=.
  - done.
  - set_solver.
  - set_solver.
  - destruct (IH b) as [-> ->]; [set_solver..|done|done].
Qed.

(** ** [prefixUpperBound] bounds exactly the keys with the prefix *)

Lemma upper_rev_spec r :
  (∃ k b r', r = replicate k xff ++ b :: r' ∧ Z_of_byte b < 255
     ∧ upper_rev r = Some (byte_of_Z (Z_of_byte b + 1) :: r'))
  ∨ (r = replicate (length r) xff ∧ upper_rev r = None).
Proof.
  induction r as [|b r IH]; simpl; [by right|].
  destruct (Z.ltb_spec (Z_of_byte b) 255).
  - left. exists 0%nat, b, r. done.
  - assert (b = xff) as ->. { apply Z_of_byte_inj. pose proof (Z_of_byte_range b). change (Z_of_byte xff) with 255. lia. }
    destruct IH as [(k & b & r' & -> & Hb & IH)|[E IH]].
    + left. exists (S k), b, r'. done.
    + right. split; [by rewrite E at 1|done].
Qed.

Lemma ltb_ffs k x : bytes_ltb x (replicate k xff) = false ↔ replicate k xff `prefix_of` x.
Proof.
  revert x. induction k as [|k IH]; intros x; simpl.
  - split; [intros _; apply prefix_nil|by destruct x].
  - destruct x as [|c x]; simpl.
    + split; [done|]. intros [? ?]; done.
    + pose proof (Z_of_byte_range c). change (Z_of_byte xff) with 255.
      destruct (Z.ltb_spec (Z_of_byte c) 255).
      * split; [done|]. intros Hp%prefix_cons_inv_1. subst c. change (Z_of_byte xff) with 255 in *. lia.
      * replace (Z_of_byte c =? 255) with true by (symmetry; apply Z.eqb_eq; lia).
        assert (c = xff) as -> by (apply Z_of_byte_inj; change (Z_of_byte xff) with 255; lia).
        rewrite IH. split; [apply prefix_cons|apply prefix_cons_inv_2].
Qed.

Lemma upper_between q b k x : Z_of_byte b < 255 →
  in_range (q ++ b :: replicate k xff) (q ++ [byte_of_Z (Z_of_byte b + 1)]) x
  ↔ (q ++ b :: replicate k xff) `prefix_of` x.
Proof.
  intros Hb. pose proof (Z_of_byte_range b).
  assert (Hb1 : Z_of_byte (byte_of_Z (Z_of_byte b + 1)) = Z_of_byte b + 1)
    by (rewrite Z_of_byte_of_Z, Z.mod_small; lia).
  unfold in_range. revert x. induction q as [|a q IH]; intros [|c x].
  - simpl. split; [by intros []|]. intros [? ?]; done.
  - simpl. rewrite Hb1. destruct (Z.ltb_spec (Z_of_byte c) (Z_of_byte b)).
    { split; [by intros []|]. intros Hp%prefix_cons_inv_1. subst. lia. }
    destruct (Z.eqb_spec (Z_of_byte c) (Z_of_byte b)) as [E|].
    + apply Z_of_byte_inj in E as ->. destruct (Z.ltb_spec (Z_of_byte b) (Z_of_byte b + 1)); [|lia].
      rewrite ltb_ffs. split; [intros [? _]; by apply prefix_cons|].
      intros Hp%prefix_cons_inv_2. done.
    + destruct (Z.ltb_spec (Z_of_byte c) (Z_of_byte b + 1)); [lia|].
      split; [|intros Hp%prefix_cons_inv_1; subst; done].
      intros [_ Hx]. destruct x, (Z_of_byte c =? Z_of_byte b + 1); done.
  - simpl. split; [by intros []|]. intros [? ?]; done.
  - simpl. destruct (Z.ltb_spec (Z_of_byte c) (Z_of_byte a)).
    { split; [by intros []|]. intros Hp%prefix_cons_inv_1. subst. lia. }
    destruct (Z.eqb_spec (Z_of_byte c) (Z_of_byte a)) as [E|].
    + apply Z_of_byte_inj in E as ->. rewrite IH.
      split; [apply prefix_cons|apply prefix_cons_inv_2].
    + split; [by intros []|]. intros Hp%prefix_cons_inv_1. subst. done.
Qed.

Lemma prefix_range p x : (∃ b, b ∈ p ∧ b ≠ xff) →
  in_range p (prefixUpperBound p) x ↔ p `prefix_of` x.
Proof.
  intros (b0 & Hb0 & Hne). unfold prefixUpperBound.
  destruct (upper_rev_spec (reverse p)) as [(k & b & r' & E & Hb & ->)|[E _]].
  - apply (f_equal reverse) in E. rewrite reverse_involutive in E. subst p.
    rewrite reverse_app, !reverse_cons, reverse_replicate, <- app_assoc. simpl.
    by apply upper_between.
  - exfalso. apply Hne. apply elem_of_reverse in Hb0. rewrite E in Hb0.
    by apply elem_of_replicate in Hb0 as [-> _].
Qed.

Lemma prefix_range_nul p x : nul ∈ p → in_range p (prefixUpperBound p) x ↔ p `prefix_of` x.
Proof. intros Hn. apply prefix_range. by exists nul. Qed.
