(* ===== verification/PebbleRefine.v ===== *)
(** * The Pebble backend refines the in-memory backend

    The laws of the operations of [Pebble] over namespaces and keys without a
    NUL byte, the refinement of [State.Memory] over arbitrary sequences of
    operations, the native checkpoint round trip, and the failure of the
    refinement on list keys that contain a NUL byte. *)

From S2P Require Import Prelude State Pebble.
From Stdlib Require Import Strings.Byte.

(** ** Sorted lists of pairs are determined by their elements *)

Lemma fst_sorted_NoDup l : StronglySorted bytes_lt l.*1 → NoDup (l : list (bytes * bytes)).
Proof.
  intros Hs. apply (NoDup_fmap_1 fst). induction Hs as [|k ks _ IH Hk]; constructor; [|done].
  intros Hin. rewrite Forall_forall in Hk. specialize (Hk k Hin).
  unfold bytes_lt in Hk. by rewrite bytes_ltb_irrefl in Hk.
Qed.

Lemma fst_sorted_pairs (l : list (bytes * bytes)) :
  StronglySorted bytes_lt l.*1 → StronglySorted (λ a b, bytes_lt a.1 b.1) l.
Proof.
  induction l as [|a l IH]; csimpl; [constructor|].
  intros [Ha Hs]%StronglySorted_cons. constructor; [by apply IH|].
  rewrite Forall_fmap in Ha. exact Ha.
Qed.

Lemma fst_sorted_unique (l1 l2 : list (bytes * bytes)) :
  StronglySorted bytes_lt l1.*1 → StronglySorted bytes_lt l2.*1 →
  (∀ k v, (k, v) ∈ l1 ↔ (k, v) ∈ l2) → l1 = l2.
Proof.
  intros H1 H2 Hin.
  apply (StronglySorted_unique_strong (λ a b, bytes_lt a.1 b.1)).
  - intros a b _ _ Ha Hb. unfold bytes_lt in *. pose proof (bytes_ltb_trans _ _ _ Ha Hb) as H.
    by rewrite bytes_ltb_irrefl in H.
  - by apply fst_sorted_pairs.
  - by apply fst_sorted_pairs.
  - apply NoDup_Permutation; [by apply fst_sorted_NoDup..|]. intros [k v]. apply Hin.
Qed.

Section laws.
Context {D : Type} {PD : PebbleDB D} {PL : PebbleLaws D}.
Implicit Types (p : PebbleBackend D) (h : handle).

(** ** Scans *)

Lemma scan_prefix_spec p pre k v : nul ∈ pre →
  (k, v) ∈ scan_prefix p pre ↔ pre `prefix_of` k ∧ db_get (db p) k = Some v.
Proof. intros Hn. unfold scan_prefix. by rewrite db_scan_spec, prefix_range_nul. Qed.

Lemma scan_prefix_eq p p' pre : nul ∈ pre →
  (∀ k v, pre `prefix_of` k → db_get (db p) k = Some v ↔ db_get (db p') k = Some v) →
  scan_prefix p pre = scan_prefix p' pre.
Proof.
  intros Hn Heq. apply fst_sorted_unique; [apply db_scan_sorted..|].
  intros k v. rewrite !scan_prefix_spec by done. split; intros [? ?]; split; naive_solver.
Qed.

Lemma nul_in_list ns k : nul ∈ listPrefixBytes ns k.
Proof. rewrite listPrefixBytes_eq. set_solver. Qed.
Lemma nul_in_ns ns : nul ∈ listNamespacePrefix ns.
Proof. unfold listNamespacePrefix. set_solver. Qed.
Lemma nul_in_value ns : nul ∈ valuePrefixBytes ns.
Proof. unfold valuePrefixBytes, valueUserKey. set_solver. Qed.

(** ** Which keys share a prefix *)

Lemma list_prefix_entry ns k ns' k' s :
  nul_free ns → nul_free k → nul_free ns' → nul_free k' →
  listPrefixBytes ns k `prefix_of` listEntryKey ns' k' s ↔ ns = ns' ∧ k = k'.
Proof.
  intros Hns Hk Hns' Hk'. rewrite listPrefixBytes_eq. unfold listEntryKey. split.
  - intros [x E]. rewrite <- !app_assoc in E. simpl in E. injection E as E.
    apply split_nul in E as [-> E]; [|done..]. by apply split_nul in E as [-> _].
  - intros [-> ->]. exists (PutUint64 s). by rewrite <- !app_assoc.
Qed.

Lemma list_ns_prefix_entry ns ns' k' s : nul_free ns → nul_free ns' →
  listNamespacePrefix ns `prefix_of` listEntryKey ns' k' s ↔ ns = ns'.
Proof.
  intros Hns Hns'. unfold listNamespacePrefix, listEntryKey. split.
  - intros [x E]. rewrite <- !app_assoc in E. simpl in E. injection E as E.
    by apply split_nul in E as [-> _].
  - intros ->. eexists. by rewrite <- !app_assoc.
Qed.

Lemma value_prefix_entry ns ns' k' : nul_free ns → nul_free ns' →
  valuePrefixBytes ns `prefix_of` valueUserKey ns' k' ↔ ns = ns'.
Proof.
  intros Hns Hns'. unfold valuePrefixBytes, valueUserKey. split.
  - intros [x E]. rewrite <- !app_assoc in E. simpl in E. injection E as E.
    by apply split_nul in E as [-> _].
  - intros ->. exists k'. by rewrite app_nil_r, <- !app_assoc.
Qed.

Lemma valueUserKey_inj ns k ns' k' : nul_free ns → nul_free ns' →
  valueUserKey ns k = valueUserKey ns' k' → ns = ns' ∧ k = k'.
Proof. intros ?? E. unfold valueUserKey in E. simpl in E. injection E as E. by apply split_nul in E. Qed.

Lemma listEntryKey_inj ns k s ns' k' s' :
  nul_free ns → nul_free k → nul_free ns' → nul_free k' → 0 ≤ s < two64 → 0 ≤ s' < two64 →
  listEntryKey ns k s = listEntryKey ns' k' s' → ns = ns' ∧ k = k' ∧ s = s'.
Proof.
  intros ?????? E. unfold listEntryKey in E. simpl in E. injection E as E.
  apply split_nul in E as [-> E]; [|done..]. apply split_nul in E as [-> E]; [|done..].
  apply (f_equal Uint64) in E. by rewrite !Uint64_Put in E.
Qed.

Lemma value_not_list ns k ns' k' s : valueUserKey ns k ≠ listEntryKey ns' k' s.
Proof. done. Qed.
Lemma list_prefix_not_value ns k ns' k' : ¬ listPrefixBytes ns k `prefix_of` valueUserKey ns' k'.
Proof. rewrite listPrefixBytes_eq. by intros [? ?]. Qed.
Lemma list_ns_prefix_not_value ns ns' k' : ¬ listNamespacePrefix ns `prefix_of` valueUserKey ns' k'.
Proof. by intros [? ?]. Qed.
Lemma value_prefix_not_list ns ns' k' s : ¬ valuePrefixBytes ns `prefix_of` listEntryKey ns' k' s.
Proof. by intros [? ?]. Qed.

Lemma entry_lt ns k s s' : 0 ≤ s < two64 → 0 ≤ s' < two64 →
  bytes_lt (listEntryKey ns k s) (listEntryKey ns k s') ↔ s < s'.
Proof.
  intros. unfold bytes_lt. rewrite !listEntryKey_prefix, bytes_ltb_app_l.
  unfold PutUint64. by rewrite (bytes_ltb_be 8), Z.ltb_lt.
Qed.

(** ** The representation invariant

    [n] bounds every sequence number in use. *)
Record PInv (n : Z) p : Prop := {
  pi_open : closed p = false;
  pi_n : 0 ≤ n < two64;
  pi_keys : ∀ key v, db_get (db p) key = Some v →
    (∃ ns k, nul_free ns ∧ key = valueUserKey ns k)
    ∨ (∃ ns k s, nul_free ns ∧ nul_free k ∧ 0 ≤ s < n ∧ key = listEntryKey ns k s);
  pi_seqs : ∀ ns k q, seqs p !! (ns, k) = Some q →
    nul_free ns ∧ nul_free k ∧ 0 ≤ q ≤ n
    ∧ ∀ s, 0 ≤ s < n → is_Some (db_get (db p) (listEntryKey ns k s)) → s < q
}.

Lemma PInv_empty : PInv 0 (OpenPebble db_empty).
Proof.
  split; simpl; [done|done|..].
  - intros key v. by rewrite db_get_empty.
  - intros ns k q. by rewrite lookup_empty.
Qed.

(** An entry of the scan for [(ns, k)] is one of its sequence numbers. *)
Lemma list_scan_spec n p ns k key v : PInv n p → nul_free ns → nul_free k →
  (key, v) ∈ scan_prefix p (listPrefixBytes ns k)
  ↔ ∃ s, 0 ≤ s < n ∧ key = listEntryKey ns k s ∧ db_get (db p) key = Some v.
Proof.
  intros Hi Hns Hk. rewrite scan_prefix_spec by apply nul_in_list. split.
  - intros [Hp Hg]. destruct (pi_keys _ _ Hi _ _ Hg) as [(? & ? & ? & ->)|(ns' & k' & s & ? & ? & ? & ->)].
    + by apply list_prefix_not_value in Hp.
    + apply list_prefix_entry in Hp as [-> ->]; [|done..]. eauto.
  - intros (s & ? & -> & ?). split; [|done]. by apply list_prefix_entry.
Qed.

Lemma stored_seq n p ns k s v : PInv n p → nul_free ns → nul_free k → 0 ≤ s < two64 →
  db_get (db p) (listEntryKey ns k s) = Some v → 0 ≤ s < n.
Proof.
  intros Hi Hns Hk Hs Hg. pose proof (pi_n _ _ Hi).
  destruct (pi_keys _ _ Hi _ _ Hg) as [(? & ? & _ & E)|(ns' & k' & s' & ? & ? & ? & E)].
  - by apply symmetry, value_not_list in E.
  - apply listEntryKey_inj in E as (_ & _ & ->); (done || lia).
Qed.

(** The sequence number an append will use. *)
Definition next_seq p (ns k : bytes) : Z :=
  match seqs p !! (ns, k) with Some q => q | None => nextListSeq p ns k end.

Lemma drop_entry ns k s : drop (length (listEntryKey ns k s) - 8) (listEntryKey ns k s) = PutUint64 s.
Proof.
  rewrite listEntryKey_prefix, length_app. unfold PutUint64. rewrite length_be, Nat.add_sub.
  apply drop_app_length.
Qed.

Lemma next_seq_spec n p ns k : PInv n p → nul_free ns → nul_free k →
  0 ≤ next_seq p ns k ≤ n
  ∧ ∀ s, 0 ≤ s < n → is_Some (db_get (db p) (listEntryKey ns k s)) → s < next_seq p ns k.
Proof.
  intros Hi Hns Hk. pose proof (pi_n _ _ Hi) as Hn. unfold next_seq.
  destruct (seqs p !! (ns, k)) as [q|] eqn:E; [by apply (pi_seqs _ _ Hi) in E as (_ & _ & ?)|].
  unfold nextListSeq. destruct (last _) as [[key v]|] eqn:El.
  - apply last_Some in El as [l El].
    assert ((key, v) ∈ scan_prefix p (listPrefixBytes ns k)) as Hin by (rewrite El; set_solver).
    apply (list_scan_spec n) in Hin as (s & Hs & -> & Hg); [|done..].
    rewrite drop_entry, Uint64_Put by lia.
    unfold wrapu64. rewrite Z.mod_small by lia. split; [lia|].
    intros s' Hs' [v' Hv'].
    assert ((listEntryKey ns k s', v') ∈ scan_prefix p (listPrefixBytes ns k)) as Hin'
      by (apply (list_scan_spec n); eauto).
    pose proof (db_scan_sorted (db p) (listPrefixBytes ns k) (prefixUpperBound (listPrefixBytes ns k))) as Hsd.
    unfold scan_prefix in El, Hin'. rewrite El in Hsd, Hin'. rewrite fmap_app in Hsd.
    apply elem_of_app in Hin' as [Hin'|Hin'%list_elem_of_singleton].
    + apply StronglySorted_app in Hsd as [Hsd _].
      specialize (Hsd (listEntryKey ns k s') (listEntryKey ns k s)).
      apply entry_lt in Hsd; [lia|lia|lia| |csimpl; set_solver].
      by apply (list_elem_of_fmap_2 fst) in Hin'.
    + assert (listEntryKey ns k s' = listEntryKey ns k s) as E' by congruence.
      apply listEntryKey_inj in E' as (_ & _ & ->); (done || lia).
  - split; [lia|]. intros s Hs [v Hv]. apply last_None in El.
    assert ((listEntryKey ns k s, v) ∈ scan_prefix p (listPrefixBytes ns k)) as Hin
      by (apply (list_scan_spec n); eauto).
    rewrite El in Hin. by apply not_elem_of_nil in Hin.
Qed.

Definition h_ok h : Prop := nul_free (h_ns h) ∧ nul_free (h_key h).

(** ** Append *)

Lemma Append_db p h v : closed p = false →
  db (plist_Append p h v)
  = db_set (db p) (listEntryKey (h_ns h) (h_key h) (next_seq p (h_ns h) (h_key h))) v.
Proof. intros E. unfold plist_Append. by rewrite E. Qed.

Lemma Append_inv n p h v : PInv n p → h_ok h → n + 1 < two64 → PInv (n + 1) (plist_Append p h v).
Proof.
  intros Hi [Hns Hk] Hn1. pose proof (pi_n _ _ Hi) as Hn.
  destruct (next_seq_spec n p (h_ns h) (h_key h)) as [Hr Hlt]; [done..|].
  split.
  - unfold plist_Append. by rewrite (pi_open _ _ Hi).
  - lia.
  - intros key w. rewrite Append_db, db_get_set by apply (pi_open _ _ Hi).
    case_decide as E.
    { subst key. intros _. right. exists (h_ns h), (h_key h), (next_seq p (h_ns h) (h_key h)).
      split_and!; (done || lia). }
    intros Hg. destruct (pi_keys _ _ Hi _ _ Hg) as [?|(ns & k & s & ? & ? & ? & ->)]; [by left|].
    right. exists ns, k, s. split_and!; (done || lia).
  - intros ns k q. rewrite Append_db by apply (pi_open _ _ Hi).
    unfold plist_Append. rewrite (pi_open _ _ Hi). cbn [seqs].
    fold (next_seq p (h_ns h) (h_key h)).
    rewrite lookup_insert. case_decide as E.
    + injection E as <- <-. unfold wrapu64. rewrite Z.mod_small by lia. intros [= <-].
      split_and!; [done|done|lia|lia|]. intros s Hs. rewrite db_get_set.
      case_decide as E; intros [w Hw].
      * apply listEntryKey_inj in E as (_ & _ & <-); (done || lia).
      * assert (0 ≤ s < n) by (apply (stored_seq n p (h_ns h) (h_key h) s w); (done || lia)).
        enough (s < next_seq p (h_ns h) (h_key h)) by lia. apply Hlt; [lia|eauto].
    + intros Hq. destruct (pi_seqs _ _ Hi _ _ _ Hq) as (? & ? & ? & Hs'). split_and!; [done|done|lia|lia|].
      intros s Hs [w Hw]. rewrite db_get_set in Hw. case_decide as E'.
      * apply listEntryKey_inj in E' as (<- & <- & _); (done || lia).
      * assert (0 ≤ s < n) by (apply (stored_seq n p ns k s w); (done || lia)). eauto.
Qed.

(** The list of [(ns, k)], as stored. *)
Lemma GetAll_scan n p h : PInv n p →
  plist_GetAll p h = (scan_prefix p (listPrefixBytes (h_ns h) (h_key h))).*2.
Proof. intros Hi. unfold plist_GetAll. by rewrite (pi_open _ _ Hi). Qed.

Lemma GetAll_Append n p h v h' : PInv n p → h_ok h → h_ok h' → n + 1 < two64 →
  plist_GetAll (plist_Append p h v) h'
  = if decide (h = h') then plist_GetAll p h' ++ [v] else plist_GetAll p h'.
Proof.
  intros Hi [Hns Hk] [Hns' Hk'] Hn1. pose proof (pi_n _ _ Hi) as Hn.
  destruct (next_seq_spec n p (h_ns h) (h_key h)) as [Hr Hlt]; [done..|].
  assert (PInv (n + 1) (plist_Append p h v)) as Hi' by (by apply Append_inv).
  rewrite (GetAll_scan (n + 1) (plist_Append p h v)), (GetAll_scan n p) by done.
  set (key := listEntryKey (h_ns h) (h_key h) (next_seq p (h_ns h) (h_key h))).
  assert (Hdb : db (plist_Append p h v) = db_set (db p) key v) by (apply Append_db, (pi_open _ _ Hi)).
  case_decide as E.
  - subst h'. change ([v]) with ([(key, v)].*2). rewrite <- fmap_app. f_equal.
    apply fst_sorted_unique; [apply db_scan_sorted| |].
    + rewrite fmap_app. apply StronglySorted_app_2; [|apply db_scan_sorted|repeat constructor].
      intros x1 x2 ([x1' w] & -> & Hx)%list_elem_of_fmap ->%list_elem_of_singleton.
      apply (list_scan_spec n) in Hx as (s & Hs & -> & Hg); [|done..].
      apply entry_lt; [lia|lia|]. apply Hlt; [lia|eauto].
    + intros k' w. rewrite elem_of_app, list_elem_of_singleton, !scan_prefix_spec, Hdb, db_get_set
        by apply nul_in_list.
      destruct (decide (key = k')) as [<-|Hne].
      * split; [intros [_ [= ->]]; by right|].
        intros [[_ Hg]|[= ->]].
        -- exfalso. assert (next_seq p (h_ns h) (h_key h) < next_seq p (h_ns h) (h_key h)); [|lia].
           apply Hlt; [|eauto].
           apply (stored_seq n p (h_ns h) (h_key h) _ w); (done || lia).
        -- split; [|done]. by apply list_prefix_entry.
      * split; [by left|]. intros [?|[= <- <-]]; done.
  - f_equal. apply scan_prefix_eq; [apply nul_in_list|].
    intros k' w Hp. rewrite Hdb, db_get_set. destruct (decide (key = k')) as [<-|]; [|done].
    exfalso. apply list_prefix_entry in Hp as [E1 E2]; [|done..].
    apply E. destruct h, h'. simpl in *. congruence.
Qed.

(** ** Clear, and the operations on values *)

Lemma PInv_sub n p d' : PInv n p →
  (∀ key v, db_get d' key = Some v →
     db_get (db p) key = Some v ∨ ∃ ns k, nul_free ns ∧ key = valueUserKey ns k) →
  PInv n (set_db p d').
Proof.
  intros Hi Hsub. split.
  - apply (pi_open _ _ Hi).
  - apply (pi_n _ _ Hi).
  - intros key v [Hg|?]%Hsub; [by apply (pi_keys _ _ Hi key v)|by left].
  - intros ns k q Hq. destruct (pi_seqs _ _ Hi _ _ _ Hq) as (? & ? & ? & Hs).
    split_and!; try (done || lia). intros s Hs' [v [Hg|(? & ? & _ & E)]%Hsub]; [eauto|].
    by apply symmetry, value_not_list in E.
Qed.

Lemma ls_Clear_db n p h : PInv n p →
  plist_Clear p h
  = set_db p (db_delete_range (db p) (listPrefixBytes (h_ns h) (h_key h))
                (prefixUpperBound (listPrefixBytes (h_ns h) (h_key h)))).
Proof. intros Hi. unfold plist_Clear. by rewrite (pi_open _ _ Hi). Qed.

Lemma delete_range_get d pre key : nul ∈ pre →
  db_get (db_delete_range d pre (prefixUpperBound pre)) key
  = if decide (pre `prefix_of` key) then None else db_get d key.
Proof.
  intros Hn. rewrite db_get_delete_range.
  destruct (decide (in_range _ _ _)) as [Hr|Hr], (decide (pre `prefix_of` key)) as [Hp|Hp]; try done.
  - by apply prefix_range_nul in Hr.
  - by apply prefix_range_nul in Hp.
Qed.

Lemma ls_Clear_inv' n p h : PInv n p → PInv n (plist_Clear p h).
Proof.
  intros Hi. rewrite (ls_Clear_db n) by done. apply PInv_sub; [done|].
  intros key v. rewrite delete_range_get by apply nul_in_list. case_decide; [done|by left].
Qed.

Lemma GetAll_Clear' n p h h' : PInv n p → h_ok h → h_ok h' →
  plist_GetAll (plist_Clear p h) h' = if decide (h = h') then [] else plist_GetAll p h'.
Proof.
  intros Hi [Hns Hk] [Hns' Hk'].
  rewrite (GetAll_scan n), (GetAll_scan n) by auto using ls_Clear_inv'.
  rewrite (ls_Clear_db n) by done. case_decide as E.
  - subst h'. replace (scan_prefix _ _) with (@nil (bytes * bytes)); [done|].
    apply fst_sorted_unique; [constructor|apply db_scan_sorted|].
    intros k v. rewrite scan_prefix_spec by apply nul_in_list.
    split; [by intros ?%not_elem_of_nil|]. intros [Hp Hg]. simpl in Hg.
    rewrite delete_range_get, decide_True in Hg by (done || apply nul_in_list). done.
  - f_equal. apply scan_prefix_eq; [apply nul_in_list|].
    intros k v Hp. simpl. rewrite delete_range_get by apply nul_in_list.
    case_decide as Hp2; [|done]. split; [done|]. intros Hg. exfalso.
    destruct (pi_keys _ _ Hi _ _ Hg) as [(? & ? & ? & ->)|(ns & k' & s & ? & ? & ? & ->)].
    + by apply list_prefix_not_value in Hp.
    + apply list_prefix_entry in Hp as [E1 E2]; [|done..].
      apply list_prefix_entry in Hp2 as [E3 E4]; [|done..].
      apply E. destruct h, h'. simpl in *. congruence.
Qed.

(** An update that touches only value keys leaves every list alone. *)
Lemma GetAll_value_update n p d' h' : PInv n p → PInv n (set_db p d') → h_ok h' →
  (∀ key, (∀ ns k, key ≠ valueUserKey ns k) → db_get d' key = db_get (db p) key) →
  plist_GetAll (set_db p d') h' = plist_GetAll p h'.
Proof.
  intros Hi Hi' [Hns Hk] Heq. rewrite (GetAll_scan n), (GetAll_scan n) by done. f_equal.
  apply scan_prefix_eq; [apply nul_in_list|]. intros k v Hp. simpl. rewrite Heq; [done|].
  intros ns k' ->. by apply list_prefix_not_value in Hp.
Qed.

Lemma value_Set_db n p h v : PInv n p →
  pvalue_Set p h v = set_db p (db_set (db p) (valueUserKey (h_ns h) (h_key h)) v).
Proof. intros Hi. unfold pvalue_Set. by rewrite (pi_open _ _ Hi). Qed.
Lemma value_Clear_db n p h : PInv n p →
  pvalue_Clear p h = set_db p (db_delete (db p) (valueUserKey (h_ns h) (h_key h))).
Proof. intros Hi. unfold pvalue_Clear. by rewrite (pi_open _ _ Hi). Qed.
Lemma value_Get_db n p h : PInv n p → pvalue_Get p h = db_get (db p) (valueUserKey (h_ns h) (h_key h)).
Proof. intros Hi. unfold pvalue_Get. by rewrite (pi_open _ _ Hi). Qed.

Lemma value_Set_inv n p h v : PInv n p → nul_free (h_ns h) → PInv n (pvalue_Set p h v).
Proof.
  intros Hi Hns. rewrite (value_Set_db n) by done. apply PInv_sub; [done|].
  intros key w. rewrite db_get_set. case_decide as E; [|by left]. right. subst key. eauto.
Qed.
Lemma value_Clear_inv n p h : PInv n p → PInv n (pvalue_Clear p h).
Proof.
  intros Hi. rewrite (value_Clear_db n) by done. apply PInv_sub; [done|].
  intros key w. rewrite db_get_delete. case_decide; [done|by left].
Qed.

Lemma handle_eq h h' : h_ns h = h_ns h' → h_key h = h_key h' → h = h'.
Proof. destruct h, h'. simpl. congruence. Qed.

Lemma Get_Set' n p h v h' : PInv n p → nul_free (h_ns h) → nul_free (h_ns h') →
  pvalue_Get (pvalue_Set p h v) h' = if decide (h = h') then Some v else pvalue_Get p h'.
Proof.
  intros Hi Hns Hns'. rewrite !(value_Get_db n) by auto using value_Set_inv.
  rewrite (value_Set_db n) by done. simpl. rewrite db_get_set.
  destruct (decide (h = h')) as [<-|Hne]; [by rewrite decide_True|].
  rewrite decide_False; [done|]. intros E. apply Hne.
  apply valueUserKey_inj in E as [E1 E2]; [|done..]. by apply handle_eq.
Qed.

Lemma Get_Clear' n p h h' : PInv n p → nul_free (h_ns h) → nul_free (h_ns h') →
  pvalue_Get (pvalue_Clear p h) h' = if decide (h = h') then None else pvalue_Get p h'.
Proof.
  intros Hi Hns Hns'. rewrite !(value_Get_db n) by auto using value_Clear_inv.
  rewrite (value_Clear_db n) by done. simpl. rewrite db_get_delete.
  destruct (decide (h = h')) as [<-|Hne]; [by rewrite decide_True|].
  rewrite decide_False; [done|]. intros E. apply Hne.
  apply valueUserKey_inj in E as [E1 E2]; [|done..]. by apply handle_eq.
Qed.

(** ** Keys and snapshots *)

Lemma FromFull_key ns k : valueUserKeyFromFull ns (valueUserKey ns k) = k.
Proof.
  unfold valueUserKeyFromFull, valuePrefixBytes.
  assert (valueUserKey ns k = valueUserKey ns [] ++ k) as ->
    by (unfold valueUserKey; by rewrite app_nil_r, <- !app_assoc).
  case_decide as Hl; [apply drop_app_length|]. rewrite length_app in Hl.
  destruct k; [done|]. simpl in Hl. lia.
Qed.

Lemma value_scan_spec n p ns key v : PInv n p → nul_free ns →
  (key, v) ∈ scan_prefix p (valuePrefixBytes ns)
  ↔ ∃ k, key = valueUserKey ns k ∧ db_get (db p) key = Some v.
Proof.
  intros Hi Hns. rewrite scan_prefix_spec by apply nul_in_value. split.
  - intros [Hp Hg]. destruct (pi_keys _ _ Hi _ _ Hg) as [(ns' & k & ? & ->)|(? & ? & ? & ? & ? & ? & ->)].
    + apply value_prefix_entry in Hp as ->; [|done..]. eauto.
    + by apply value_prefix_not_list in Hp.
  - intros (k & -> & Hg). split; [|done]. by apply value_prefix_entry.
Qed.

Lemma value_Keys_spec n p h k : PInv n p → nul_free (h_ns h) →
  k ∈ pvalue_Keys p h ↔ is_Some (pvalue_Get p (SetKey h k)).
Proof.
  intros Hi Hns. rewrite (value_Get_db n) by done. unfold pvalue_Keys. rewrite (pi_open _ _ Hi).
  rewrite list_elem_of_fmap. split.
  - intros ([key v] & -> & (k' & -> & Hg)%(value_scan_spec n)); [|done..].
    simpl. rewrite FromFull_key. eauto.
  - intros [v Hv]. exists (valueUserKey (h_ns h) k, v). simpl. rewrite FromFull_key.
    split; [done|]. apply (value_scan_spec n); eauto.
Qed.

Lemma value_Keys_NoDup n p h : PInv n p → nul_free (h_ns h) → NoDup (pvalue_Keys p h).
Proof.
  intros Hi Hns. unfold pvalue_Keys. rewrite (pi_open _ _ Hi).
  apply NoDup_fmap_2_strong; [|apply fst_sorted_NoDup, db_scan_sorted].
  intros [k1 v1] [k2 v2] (k1' & -> & H1)%(value_scan_spec n) (k2' & -> & H2)%(value_scan_spec n); [|done..].
  simpl. rewrite !FromFull_key. intros ->. congruence.
Qed.

Lemma foldl_insert_lookup {A} (f g : A → bytes) (l : list A) (m : gmap bytes bytes) (k v : bytes) :
  NoDup (f <$> l) → (∀ x, x ∈ l → m !! f x = None) →
  foldl (λ out x, <[f x := g x]> out) m l !! k = Some v
  ↔ m !! k = Some v ∨ ∃ x, x ∈ l ∧ f x = k ∧ g x = v.
Proof.
  revert m. induction l as [|x l IH]; intros m Hnd Hm; simpl.
  - split; [by left|]. intros [?|(? & ?%not_elem_of_nil & _)]; done.
  - csimpl in Hnd. apply NoDup_cons in Hnd as [Hx Hnd]. rewrite IH; [|done|].
    + rewrite lookup_insert. split.
      * intros [Hl|(y & ? & ?)]; [|right; set_solver].
        case_decide; [simplify_eq; right; set_solver|by left].
      * intros [Hl|(y & [->|Hy]%elem_of_cons & <- & <-)].
        -- left. rewrite decide_False; [done|]. intros <-. rewrite Hm in Hl; set_solver.
        -- left. by rewrite decide_True.
        -- right. eauto.
    + intros y Hy. rewrite lookup_insert_ne; [apply Hm; set_solver|].
      intros E. apply Hx. rewrite E. by apply list_elem_of_fmap_2.
Qed.

Lemma SnapshotAll_spec n p h k : PInv n p → nul_free (h_ns h) →
  pvalue_SnapshotAll p h !! k = pvalue_Get p (SetKey h k).
Proof.
  intros Hi Hns. apply option_eq. intros v.
  unfold pvalue_SnapshotAll. rewrite (pi_open _ _ Hi), (value_Get_db n) by done.
  rewrite foldl_insert_lookup.
  - rewrite lookup_empty. split.
    + intros [?|([key w] & (k' & -> & Hg)%(value_scan_spec n) & Ek & Ev)]; [done| |done|done].
      simpl in *. rewrite FromFull_key in Ek. congruence.
    + intros Hg. right. exists (valueUserKey (h_ns h) k, v). simpl. rewrite FromFull_key.
      split; [|done]. apply (value_scan_spec n); eauto.
  - pose proof (value_Keys_NoDup n p h Hi Hns) as Hnd. unfold pvalue_Keys in Hnd.
    by rewrite (pi_open _ _ Hi) in Hnd.
  - intros. apply lookup_empty.
Qed.

(** The user key inside a list entry key. *)
Definition entry_key (preLen : nat) (full : bytes) : bytes :=
  take (length full - 9 - preLen) (drop preLen full).

Lemma entry_key_eq ns k s :
  (length (listNamespacePrefix ns) + 9 ≤ length (listEntryKey ns k s))%nat
  ∧ entry_key (length (listNamespacePrefix ns)) (listEntryKey ns k s) = k.
Proof.
  assert (Hlen : length (listEntryKey ns k s)
                 = (length (listNamespacePrefix ns) + (length k + 9))%nat).
  { unfold listEntryKey, listNamespacePrefix, PutUint64. rewrite !length_app, length_be. simpl. lia. }
  split; [lia|]. unfold entry_key. rewrite Hlen.
  replace (_ - 9 - _)%nat with (length k) by lia.
  replace (listEntryKey ns k s) with (listNamespacePrefix ns ++ k ++ [nul] ++ PutUint64 s)
    by (unfold listEntryKey, listNamespacePrefix; by rewrite <- !app_assoc).
  by rewrite drop_app_length, take_app_length.
Qed.

Lemma list_keys_loop_spec preLen kvs seen :
  (∀ kv, kv ∈ kvs → (preLen + 9 ≤ length kv.1)%nat) →
  NoDup (list_keys_loop preLen seen kvs)
  ∧ ∀ k, k ∈ list_keys_loop preLen seen kvs
         ↔ k ∉ seen ∧ ∃ kv, kv ∈ kvs ∧ entry_key preLen kv.1 = k.
Proof.
  revert seen. induction kvs as [|[full v] kvs IH]; intros seen Hall; cbn [list_keys_loop].
  - split; [constructor|]. intros k. set_solver.
  - pose proof (Hall (full, v) ltac:(set_solver)) as Hl. simpl in Hl.
    rewrite decide_False by lia. fold (entry_key preLen full).
    assert (Htl : ∀ kv, kv ∈ kvs → (preLen + 9 ≤ length kv.1)%nat) by set_solver.
    case_decide as Hseen.
    + destruct (IH seen Htl) as [? Hin]. split; [done|]. intros k. rewrite Hin. split.
      * intros (? & kv & ? & ?). split; [done|]. exists kv. set_solver.
      * intros (? & kv & [->|?]%elem_of_cons & ?); [simpl in *; congruence|eauto].
    + destruct (IH ({[entry_key preLen full]} ∪ seen) Htl) as [? Hin]. split.
      * apply NoDup_cons. split; [|done]. rewrite Hin. set_solver.
      * intros k. rewrite elem_of_cons, Hin. split.
        -- intros [->|(? & kv & ? & ?)]; (split; [set_solver|]); [exists (full, v)|exists kv]; set_solver.
        -- intros (? & kv & [->|?]%elem_of_cons & <-); [by left|].
           destruct (decide (entry_key preLen kv.1 = entry_key preLen full)) as [->|]; [by left|].
           right. split; [set_solver|]. eauto.
Qed.

Lemma ns_scan_spec n p ns key v : PInv n p → nul_free ns →
  (key, v) ∈ scan_prefix p (listNamespacePrefix ns)
  ↔ ∃ k s, nul_free k ∧ 0 ≤ s < n ∧ key = listEntryKey ns k s ∧ db_get (db p) key = Some v.
Proof.
  intros Hi Hns. rewrite scan_prefix_spec by apply nul_in_ns. split.
  - intros [Hp Hg]. destruct (pi_keys _ _ Hi _ _ Hg) as [(? & ? & ? & ->)|(ns' & k' & s & ? & ? & ? & ->)].
    + by apply list_ns_prefix_not_value in Hp.
    + apply list_ns_prefix_entry in Hp as ->; [|done..]. eauto 10.
  - intros (k & s & ? & ? & -> & ?). split; [|done]. by apply list_ns_prefix_entry.
Qed.

Lemma list_Keys_spec n p h : PInv n p → nul_free (h_ns h) →
  NoDup (plist_Keys p h)
  ∧ ∀ k, k ∈ plist_Keys p h ↔ nul_free k ∧ plist_GetAll p (SetKey h k) ≠ [].
Proof.
  intros Hi Hns. unfold plist_Keys. rewrite (pi_open _ _ Hi).
  destruct (list_keys_loop_spec (length (listNamespacePrefix (h_ns h)))
              (scan_prefix p (listNamespacePrefix (h_ns h))) ∅) as [Hnd Hin].
  { intros [key v] (k & s & _ & _ & -> & _)%(ns_scan_spec n); [|done..].
    apply (entry_key_eq (h_ns h) k s). }
  split; [done|]. intros k. rewrite Hin. split.
  - intros (_ & [key v] & Hkv & <-).
    apply (ns_scan_spec n) in Hkv as (k' & s & Hk' & Hs & -> & Hg); [|done..]. cbn [fst]. rewrite (proj2 (entry_key_eq (h_ns h) k' s)). split; [done|].
    rewrite (GetAll_scan n) by done. cbn [h_ns h_key SetKey]. intros E%fmap_nil_inv.
    eapply not_elem_of_nil. rewrite <- E. apply (list_scan_spec n); eauto.
  - intros [Hk Hne]. split; [set_solver|]. rewrite (GetAll_scan n) in Hne by done.
    cbn [h_ns h_key SetKey] in Hne. destruct (scan_prefix p (listPrefixBytes (h_ns h) k)) as [|[key v] l] eqn:E; [done|].
    assert ((key, v) ∈ scan_prefix p (listPrefixBytes (h_ns h) k)) as Hkv by (rewrite E; set_solver).
    apply (list_scan_spec n) in Hkv as (s & Hs & -> & Hg); [|done..].
    exists (listEntryKey (h_ns h) k s, v). cbn [fst].
    rewrite (proj2 (entry_key_eq (h_ns h) k s)). split; [|done].
    apply (ns_scan_spec n); eauto 10.
Qed.

(** ** RestoreAll *)

Lemma restore_fold_get (ns : bytes) (d : D) (m : gmap bytes bytes) (key : bytes) :
  db_get (map_fold (λ k v d, db_set d (valueUserKey ns k) v) d m) key
  = match (if decide (valuePrefixBytes ns `prefix_of` key)
           then m !! drop (length (valuePrefixBytes ns)) key else None) with
    | Some v => Some v
    | None => db_get d key
    end.
Proof.
  apply (map_fold_weak_ind (λ r m, db_get r key = match (if decide _ then m !! _ else None) with
           | Some v => Some v | None => db_get d key end)).
  - case_decide; by rewrite ?lookup_empty.
  - intros k v m' r Hk IH. rewrite db_get_set, IH.
    assert (valueUserKey ns k = valuePrefixBytes ns ++ k) as Ek
      by (unfold valuePrefixBytes, valueUserKey; by rewrite app_nil_r, <- !app_assoc).
    destruct (decide (valueUserKey ns k = key)) as [<-|Hne].
    + rewrite Ek, decide_True by (by exists k). by rewrite drop_app_length, lookup_insert_eq.
    + case_decide as Hp; [|done]. destruct Hp as [x ->]. rewrite drop_app_length.
      rewrite lookup_insert_ne; [done|]. intros ->. by rewrite Ek in Hne.
Qed.

(** The store after [RestoreAll]. *)
Definition restored_db (ns : bytes) (d : D) (m : gmap bytes bytes) : D :=
  let pre := valuePrefixBytes ns in
  map_fold (λ k v d, db_set d (valueUserKey ns k) v)
    (db_delete_range d pre (prefixUpperBound pre)) m.

Lemma restored_get ns d m key :
  db_get (restored_db ns d m) key
  = if decide (valuePrefixBytes ns `prefix_of` key)
    then m !! drop (length (valuePrefixBytes ns)) key else db_get d key.
Proof.
  unfold restored_db. rewrite restore_fold_get, delete_range_get by apply nul_in_value.
  case_decide; [|done]. by destruct (m !! _).
Qed.

Lemma RestoreAll_db n p h m : PInv n p →
  pvalue_RestoreAll p h m = Ok (set_db p (restored_db (h_ns h) (db p) m)).
Proof. intros Hi. unfold pvalue_RestoreAll. by rewrite (pi_open _ _ Hi). Qed.

Lemma RestoreAll_inv n p h m : PInv n p → nul_free (h_ns h) →
  PInv n (set_db p (restored_db (h_ns h) (db p) m)).
Proof.
  intros Hi Hns. apply PInv_sub; [done|]. intros key v. rewrite restored_get.
  case_decide as Hp; [|by left]. intros _. right. destruct Hp as [x ->].
  exists (h_ns h), x. split; [done|]. unfold valuePrefixBytes, valueUserKey.
  by rewrite app_nil_r, <- !app_assoc.
Qed.

Lemma Get_RestoreAll' n p h m h' : PInv n p → nul_free (h_ns h) → nul_free (h_ns h') →
  pvalue_Get (set_db p (restored_db (h_ns h) (db p) m)) h'
  = if decide (h_ns h = h_ns h') then m !! h_key h' else pvalue_Get p h'.
Proof.
  intros Hi Hns Hns'. rewrite !(value_Get_db n) by auto using RestoreAll_inv. simpl.
  rewrite restored_get.
  destruct (decide (h_ns h = h_ns h')) as [E|Hne].
  - rewrite decide_True by (by apply value_prefix_entry). rewrite E.
    unfold valuePrefixBytes.
    assert (valueUserKey (h_ns h') (h_key h') = valueUserKey (h_ns h') [] ++ h_key h') as ->
      by (unfold valueUserKey; by rewrite app_nil_r, <- !app_assoc).
    by rewrite drop_app_length.
  - rewrite decide_False; [done|]. intros Hp. apply value_prefix_entry in Hp; done.
Qed.
End laws.

(** ** Refinement *)

(** The Pebble backend behind the interface; [RestoreAll] on a closed backend
    is an error the caller sees, and never happens on an open one. *)
#[export] Instance pebble_backend {D} `{!PebbleDB D} : StateBackend (PebbleBackend D) := {|
  vs_Get := pvalue_Get; vs_Set := pvalue_Set; vs_Clear := pvalue_Clear;
  vs_Keys := pvalue_Keys; vs_SnapshotAll := pvalue_SnapshotAll;
  vs_RestoreAll p h m := match pvalue_RestoreAll p h m with Ok p' => p' | _ => p end;
  ls_Append := plist_Append; ls_GetAll := plist_GetAll; ls_Clear := plist_Clear;
  ls_Keys := plist_Keys
|}.

(** One call on a backend and what it returns. *)
Inductive sop :=
| OpGet (h : handle) | OpSet (h : handle) (v : bytes) | OpClear (h : handle)
| OpKeys (h : handle) | OpSnapshotAll (h : handle) | OpRestoreAll (h : handle) (m : gmap bytes bytes)
| OpAppend (h : handle) (v : bytes) | OpGetAll (h : handle) | OpListClear (h : handle)
| OpListKeys (h : handle).

Inductive sobs :=
| NoObs | ObsValue (v : option bytes) | ObsKeys (ks : list bytes)
| ObsMap (m : gmap bytes bytes) | ObsList (l : list bytes).

Definition run_sop {B} `{!StateBackend B} (b : B) (o : sop) : B * sobs :=
  match o with
  | OpGet h => (b, ObsValue (vs_Get b h))
  | OpSet h v => (vs_Set b h v, NoObs)
  | OpClear h => (vs_Clear b h, NoObs)
  | OpKeys h => (b, ObsKeys (vs_Keys b h))
  | OpSnapshotAll h => (b, ObsMap (vs_SnapshotAll b h))
  | OpRestoreAll h m => (vs_RestoreAll b h m, NoObs)
  | OpAppend h v => (ls_Append b h v, NoObs)
  | OpGetAll h => (b, ObsList (ls_GetAll b h))
  | OpListClear h => (ls_Clear b h, NoObs)
  | OpListKeys h => (b, ObsKeys (ls_Keys b h))
  end.

Fixpoint run_sops {B} `{!StateBackend B} (b : B) (os : list sop) : list sobs :=
  match os with
  | [] => []
  | o :: os' => let '(b', x) := run_sop b o in x :: run_sops b' os'
  end.

(** Observations agree; the order of [Keys] is unspecified. *)
Inductive obs_eq : sobs → sobs → Prop :=
| obs_same x : obs_eq x x
| obs_keys ks ks' : ks ≡ₚ ks' → obs_eq (ObsKeys ks) (ObsKeys ks').

(** Namespaces never contain a NUL byte, nor do the keys used with lists. *)
Definition sop_ok (o : sop) : Prop :=
  match o with
  | OpGet h | OpSet h _ | OpClear h | OpKeys h | OpSnapshotAll h | OpRestoreAll h _
  | OpListKeys h => nul_free (h_ns h)
  | OpAppend h _ | OpGetAll h | OpListClear h => h_ok h
  end.

#[export] Instance sop_ok_dec o : Decision (sop_ok o).
Proof. destruct o; simpl; unfold h_ok; apply _. Defined.

Section refinement.
Context {MO : MapOrder} {D : Type} {PD : PebbleDB D} {PL : PebbleLaws D}.
Import Memory.

(** The simulation relation: same values, same lists. *)
Record sim (n : Z) (m : MemoryBackend) (p : PebbleBackend D) : Prop := {
  sim_mem : sb_inv m;
  sim_peb : PInv n p;
  sim_value : ∀ h, nul_free (h_ns h) → vs_Get m h = vs_Get p h;
  sim_list : ∀ h, h_ok h → ls_GetAll m h = ls_GetAll p h;
  sim_nul : ∀ h, ls_GetAll m h ≠ [] → h_ok h
}.

Lemma sim_init : sim 0 NewMemoryBackend (OpenPebble db_empty).
Proof.
  split; [apply inv_new|apply PInv_empty|..].
  - intros h _. simpl. unfold pvalue_Get. simpl. rewrite db_get_empty. unfold value_Get. simpl.
    by rewrite lookup_empty.
  - intros h [? ?]. simpl. rewrite (GetAll_scan 0) by apply PInv_empty.
    unfold list_GetAll. simpl. rewrite lookup_empty.
    replace (scan_prefix _ _) with (@nil (bytes * bytes)); [done|].
    apply fst_sorted_unique; [constructor|apply db_scan_sorted|].
    intros k v. rewrite scan_prefix_spec by apply nul_in_list. simpl. rewrite db_get_empty. set_solver.
  - intros h. simpl. unfold list_GetAll. simpl. by rewrite lookup_empty.
Qed.

Lemma sim_step n m p o : sim n m p → sop_ok o → n + 1 < two64 →
  obs_eq (run_sop m o).2 (run_sop p o).2 ∧ ∃ n', n' ≤ n + 1 ∧ sim n' (run_sop m o).1 (run_sop p o).1.
Proof.
  intros Hsim Ho Hn. pose proof Hsim as [Hm Hp Hv Hl Hnul].
  assert (Hsame : ∃ n', n' ≤ n + 1 ∧ sim n' m p) by (exists n; split; [lia|done]).
  destruct o as [h|h v|h|h|h|h mm|h v|h|h|h]; cbn [run_sop fst snd] in *; cbn [sop_ok] in Ho.
  - split; [|done]. rewrite Hv by done. constructor.
  - split; [constructor|]. exists n. split; [lia|]. split.
    + by apply vs_Set_inv.
    + by apply value_Set_inv.
    + intros h' Hh'. rewrite vs_Get_Set by done. cbn. rewrite (Get_Set' n) by done.
      case_decide; [done|]. by apply Hv.
    + intros h' Hh'. rewrite ls_GetAll_Set by done. cbn.
      rewrite (value_Set_db n) by done. rewrite (GetAll_value_update n); [by apply Hl|done| |done|].
      * rewrite <- (value_Set_db n) by done. by apply value_Set_inv.
      * intros key Hk. rewrite db_get_set, decide_False; [done|]. intros <-. by eapply Hk.
    + intros h'. rewrite ls_GetAll_Set by done. apply Hnul.
  - split; [constructor|]. exists n. split; [lia|]. split.
    + by apply vs_Clear_inv.
    + by apply value_Clear_inv.
    + intros h' Hh'. rewrite vs_Get_Clear by done. cbn. rewrite (Get_Clear' n) by done.
      case_decide; [done|]. by apply Hv.
    + intros h' Hh'. rewrite ls_GetAll_vs_Clear by done. cbn.
      rewrite (value_Clear_db n) by done. rewrite (GetAll_value_update n); [by apply Hl|done| |done|].
      * rewrite <- (value_Clear_db n) by done. by apply value_Clear_inv.
      * intros key Hk. rewrite db_get_delete, decide_False; [done|]. intros <-. by eapply Hk.
    + intros h'. rewrite ls_GetAll_vs_Clear by done. apply Hnul.
  - split; [|done]. constructor. apply NoDup_Permutation.
    + by apply vs_Keys_NoDup.
    + by apply (value_Keys_NoDup n).
    + intros k. rewrite vs_Keys_spec by done. cbn. rewrite (value_Keys_spec n) by done.
      pose proof (Hv (SetKey h k) Ho) as E. cbn in E. by rewrite E.
  - split; [|done]. replace (vs_SnapshotAll p h) with (vs_SnapshotAll m h); [constructor|].
    apply map_eq. intros k. rewrite vs_SnapshotAll_spec by done. cbn.
    rewrite (SnapshotAll_spec n) by done. by apply (Hv (SetKey h k)).
  - split; [constructor|]. exists n. split; [lia|]. cbn.
    rewrite (RestoreAll_db n) by done. split.
    + done.
    + by apply RestoreAll_inv.
    + intros h' Hh'. cbn. rewrite (Get_RestoreAll' n) by done.
      pose proof (vs_Get_RestoreAll m h mm h' Hm) as E. cbn in E. rewrite E.
      case_decide; [done|]. by apply Hv.
    + intros h' Hh'. pose proof (ls_GetAll_RestoreAll m h mm h' Hm) as E. cbn in E |- *. rewrite E.
      rewrite (GetAll_value_update n); [by apply Hl|done|by apply RestoreAll_inv|done|].
      intros key Hk. rewrite restored_get, decide_False; [done|]. intros [x ->].
      apply (Hk (h_ns h) x). unfold valuePrefixBytes, valueUserKey.
      by rewrite app_nil_r, <- !app_assoc.
    + intros h'. pose proof (ls_GetAll_RestoreAll m h mm h' Hm) as E. cbn in E |- *. rewrite E. apply Hnul.
  - split; [constructor|]. exists (n + 1). split; [lia|]. split.
    + by apply ls_Append_inv.
    + by apply Append_inv.
    + intros h' Hh'. rewrite vs_Get_Append by done. rewrite Hv by done. cbn.
      rewrite (value_Get_db (n + 1) (plist_Append p h v)), (value_Get_db n p) by (done || by apply Append_inv).
      rewrite Append_db, db_get_set, decide_False by (done || apply (pi_open _ _ Hp)). done.
    + intros h' Hh'. rewrite ls_GetAll_Append by done. cbn. rewrite (GetAll_Append n) by done.
      pose proof (Hl h' Hh') as E. cbn in E. rewrite E. done.
    + intros h'. rewrite ls_GetAll_Append by done. case_decide; [by subst|apply Hnul].
  - split; [|done]. rewrite Hl by done. constructor.
  - split; [constructor|]. exists n. split; [lia|]. split.
    + by apply ls_Clear_inv.
    + by apply ls_Clear_inv'.
    + intros h' Hh'. rewrite vs_Get_ls_Clear by done. rewrite Hv by done. cbn.
      rewrite !(value_Get_db n) by (done || by apply ls_Clear_inv').
      rewrite (ls_Clear_db n) by done. simpl. rewrite delete_range_get, decide_False; [done| |apply nul_in_list].
      apply list_prefix_not_value.
    + intros h' Hh'. rewrite ls_GetAll_Clear by done. cbn. rewrite (GetAll_Clear' n) by done.
      case_decide; [done|]. by apply Hl.
    + intros h'. rewrite ls_GetAll_Clear by done. case_decide; [done|apply Hnul].
  - split; [|done]. destruct (list_Keys_spec n p h Hp Ho) as [Hnd Hin]. constructor.
    apply NoDup_Permutation; [by apply ls_Keys_NoDup|done|].
    intros k. rewrite ls_Keys_spec by done. cbn. rewrite Hin. split.
    + intros Hne. destruct (Hnul (SetKey h k) Hne) as [_ Hk]. split; [done|].
      pose proof (Hl (SetKey h k) (conj Ho Hk)) as E. cbn in E. by rewrite E in Hne.
    + intros [Hk Hne]. pose proof (Hl (SetKey h k) (conj Ho Hk)) as E. cbn in E. by rewrite E.
Qed.

Lemma sim_run n m p os : sim n m p → Forall sop_ok os → n + Z.of_nat (length os) < two64 →
  Forall2 obs_eq (run_sops m os) (run_sops p os).
Proof.
  revert n m p. induction os as [|o os IH]; intros n m p Hs Hok Hn; cbn [run_sops]; [constructor|].
  apply Forall_cons in Hok as [Ho Hok]. cbn [length] in Hn.
  destruct (sim_step n m p o) as (Hobs & n' & Hn' & Hs'); [done|done|lia|].
  destruct (run_sop m o), (run_sop p o). constructor; [done|].
  apply (IH n'); [done|done|lia].
Qed.
(** The state after a list of calls. *)
Definition exec_sops {B} `{!StateBackend B} (b : B) (os : list sop) : B :=
  foldl (λ b o, (run_sop b o).1) b os.

Lemma sim_exec n m p os : sim n m p → Forall sop_ok os → n + Z.of_nat (length os) < two64 →
  ∃ n', n' ≤ n + Z.of_nat (length os) ∧ sim n' (exec_sops m os) (exec_sops p os).
Proof.
  revert n m p. induction os as [|o os IH]; intros n m p Hs Hok Hn; cbn [exec_sops foldl].
  { exists n. split; [simpl; lia|done]. }
  apply Forall_cons in Hok as [Ho Hok]. cbn [length] in Hn |- *.
  destruct (sim_step n m p o) as (_ & n' & Hn' & Hs'); [done|done|lia|].
  destruct (IH n' _ _ Hs' Hok) as (n'' & Hn'' & Hs''); [lia|].
  exists n''. split; [lia|done].
Qed.

(** Forgetting the cached sequence numbers is harmless: they are re-seeded
    from the stored entries. *)
Lemma sim_reopen n m p : sim n m p → sim n m (mkPebble (db p) ∅ false).
Proof.
  intros [Hm Hp Hv Hl Hnul]. pose proof (pi_open _ _ Hp) as Ho. split; [done|..].
  - destruct Hp as [_ Hn Hk _]. split; simpl; [done|done|done|]. intros ns k q. by rewrite lookup_empty.
  - intros h Hh. rewrite Hv by done. cbn. unfold pvalue_Get. cbn. by rewrite Ho.
  - intros h Hh. rewrite Hl by done. cbn. unfold plist_GetAll. cbn. by rewrite Ho.
  - done.
Qed.

(** C23: On every sequence of state operations whose list keys contain no
    NUL byte, the Pebble backend makes the same observations as the in-
    memory backend. *)
Theorem pebble_refines_memory (ops : list sop) :
  Forall sop_ok ops → Z.of_nat (length ops) < two64 →
  Forall2 obs_eq (run_sops NewMemoryBackend ops) (run_sops (OpenPebble db_empty) ops).
Proof. intros Hok Hn. apply (sim_run 0); [apply sim_init|done|lia]. Qed.

(** A Pebble checkpoint restored later, after any further operations,
    behaves as the in-memory backend did at the time of the checkpoint. *)
Theorem pebble_checkpoint_restore (before between after : list sop) (dirs : gmap bytes D) (dir : bytes) :
  Forall sop_ok before → Forall sop_ok after →
  Z.of_nat (length before) + Z.of_nat (length after) < two64 → dirs !! dir = None →
  let p := exec_sops (OpenPebble db_empty) before in
  ∃ dirs' p', CheckpointTo p dirs dir = Ok dirs'
    ∧ RestoreFrom (exec_sops p between) dirs' dir = (Ok tt, p')
    ∧ Forall2 obs_eq (run_sops (exec_sops NewMemoryBackend before) after) (run_sops p' after).
Proof.
  intros Hb Ha Hlen Hdir p.
  destruct (sim_exec 0 NewMemoryBackend (OpenPebble db_empty) before) as (n & Hn & Hs);
    [apply sim_init|done|lia|]. fold p in Hs.
  exists (<[dir := db p]> dirs), (mkPebble (db p) ∅ false). split_and!.
  - unfold CheckpointTo. by rewrite (pi_open _ _ (sim_peb _ _ _ Hs)), Hdir.
  - unfold RestoreFrom. by rewrite lookup_insert_eq.
  - apply (sim_run n); [by apply sim_reopen|done|lia].
Qed.
End refinement.

(** A small history that exercises values, lists and a namespace restore. *)
Definition demo_calls : list sop :=
  let v := mkHandle (bs "counts") (bs "k") in
  let l := mkHandle (bs "buffer") (bs "k") in
  [OpAppend l (bs "a"); OpSet v (bs "1"); OpAppend l (bs "b"); OpKeys v; OpGetAll l;
   OpRestoreAll v ∅; OpGet v; OpListKeys l; OpListClear l; OpAppend l (bs "c"); OpGetAll l].

Lemma demo_calls_ok : Forall sop_ok demo_calls.
Proof. apply (bool_decide_unpack _). by vm_compute. Qed.

Lemma pebble_refines_memory_witness :
  Forall sop_ok demo_calls
  ∧ Forall2 obs_eq (run_sops Memory.NewMemoryBackend demo_calls)
      (run_sops (OpenPebble (db_empty : gmap bytes bytes)) demo_calls).
Proof. split; [apply demo_calls_ok|]. apply pebble_refines_memory; [apply demo_calls_ok|reflexivity]. Defined.

Lemma pebble_checkpoint_restore_witness :
  ∃ dirs' p', CheckpointTo (exec_sops (OpenPebble (db_empty : gmap bytes bytes)) demo_calls) ∅ (bs "chk") = Ok dirs'
    ∧ RestoreFrom (exec_sops (exec_sops (OpenPebble db_empty) demo_calls) demo_calls) dirs' (bs "chk") = (Ok tt, p')
    ∧ Forall2 obs_eq (run_sops (exec_sops Memory.NewMemoryBackend demo_calls) demo_calls) (run_sops p' demo_calls).
Proof.
  apply (pebble_checkpoint_restore demo_calls demo_calls demo_calls ∅ (bs "chk"));
    [apply demo_calls_ok|apply demo_calls_ok|reflexivity|reflexivity].
Defined.

(** A list entry appended under a key that contains a NUL byte is
    returned when the list of the shorter key is read from the Pebble
    backend, but not from the in-memory backend. *)
Theorem pebble_nul_key_leak :
  let l := open_ns (bs "buffer") in
  let k := bs "a" in
  let k' := bs "a" ++ nul :: bs "b" in
  let ops := [OpAppend (SetKey l k') (bs "secret"); OpGetAll (SetKey l k)] in
  run_sops Memory.NewMemoryBackend ops = [NoObs; ObsList []]
  ∧ run_sops (OpenPebble (db_empty : gmap bytes bytes)) ops = [NoObs; ObsList [bs "secret"]].
Proof. split; vm_compute; reflexivity. Qed.

(** For a prefix with a byte other than 0xff, the scan range up to
    [prefixUpperBound] contains exactly the keys that start with the prefix. *)
Theorem prefixUpperBound_exact (p x : bytes) :
  (∃ b, b ∈ p ∧ b ≠ xff) → in_range p (prefixUpperBound p) x ↔ p `prefix_of` x.
Proof. apply prefix_range. Qed.

Lemma prefixUpperBound_exact_witness :
  in_range (bs "l" ++ [xff]) (prefixUpperBound (bs "l" ++ [xff])) (bs "l" ++ [xff; xff; xff])
  ↔ (bs "l" ++ [xff]) `prefix_of` (bs "l" ++ [xff; xff; xff]).
Proof. apply prefixUpperBound_exact. exists x6c. split; [vm_compute; left|done]. Defined.
