(* ===== verification/KeyBy.v ===== *)
(** * Keyed routing ([src/operator/keyby.go], the router of
      [src/pipeline/keyed_stage.go])

    [RouteKey] is the FNV-1a hash at 32 bits, reduced modulo the partition
    count.  [route] is the router goroutine of [KeyedStage.Run]: it reads the
    stage input to its end and appends to the worker queues; data goes to the
    worker of its key, markers to every worker.  Indexing a missing worker is a
    run-time panic.

    [deliver] is the specification of a dispatcher: the queue of worker [w] is
    the sub-stream of the items addressed to [w] or to everybody. *)

From S2P Require Import Prelude Record.

(** ** The operator *)

Definition defaultPartitions : Z := 16.
Definition fnvOffset32 : Z := 2166136261.
Definition fnvPrime32 : Z := 16777619.

(** [KeyByOperator] *)
Record KeyByOperator := mkKeyBy {
  KeySelector : Record_ → bytes;
  Partitions : Z;
  KeyBy_Label : bytes
}.

Definition KeyBy (fn : Record_ → bytes) : KeyByOperator := mkKeyBy fn defaultPartitions [].

Definition WithPartitions (op : KeyByOperator) (n : Z) : KeyByOperator :=
  mkKeyBy (KeySelector op) n (KeyBy_Label op).

Definition SelectKey (op : KeyByOperator) (r : Record_) : bytes := KeySelector op r.

(** The hashing loop: [h ^= b; h *= prime] on [uint32]. *)
Fixpoint fnv1a (h : Z) (key : bytes) : Z :=
  match key with
  | [] => h
  | b :: key' => fnv1a (wrapu32 (Z.lxor h (Z_of_byte b) * fnvPrime32)) key'
  end.

Definition RouteKey (op : KeyByOperator) (key : bytes) : Z :=
  if (Z.of_nat (length key) =? 0) || (Partitions op <=? 1) then 0
  else Z.rem (fnv1a fnvOffset32 key) (Partitions op).

Definition Route (op : KeyByOperator) (r : Record_) : Z := RouteKey op (SelectKey op r).

(** ** Worker queues *)

(** [for _, ch := range workerIns { ch <- r }] *)
Definition broadcast (queues : list (list Record_)) (r : Record_) : list (list Record_) :=
  (λ q, q ++ [r]) <$> queues.

(** [workerIns[w] <- r]; an index out of range panics. *)
Definition sendTo (queues : list (list Record_)) (w : Z) (r : Record_)
    : result (list (list Record_)) :=
  if w <? 0 then Panic (bs "index out of range")
  else match queues !! Z.to_nat w with
       | None => Panic (bs "index out of range")
       | Some q => Ok (<[Z.to_nat w := q ++ [r]]> queues)
       end.

(** The router goroutine of [KeyedStage.Run]. *)
Fixpoint route (op : KeyByOperator) (queues : list (list Record_)) (input : list Record_)
    : result (list (list Record_)) :=
  match input with
  | [] => Ok queues
  | r :: input' =>
      if isMarker r then route op (broadcast queues r) input'
      else
        let key := SelectKey op r in
        queues' <-? sendTo queues (RouteKey op key) (setKey r key) ;;
        route op queues' input'
  end.

(** ** What a dispatcher does *)

(** An item addressed to one worker, or to all of them. *)
Definition addressed := (option nat * Record_)%type.

Definition for_worker (w : nat) (a : addressed) : Prop := a.1 = None ∨ a.1 = Some w.

#[export] Instance for_worker_dec w a : Decision (for_worker w a).
Proof. unfold for_worker. apply _. Defined.

Definition queue_of (items : list addressed) (w : nat) : list Record_ :=
  (filter (for_worker w) items).*2.

Definition deliver (n : nat) (items : list addressed) : list (list Record_) :=
  queue_of items <$> seq 0 n.

(** How the router addresses a record. *)
Definition keyed_address (op : KeyByOperator) (r : Record_) : addressed :=
  if isMarker r then (None, r)
  else (Some (Z.to_nat (Route op r)), setKey r (SelectKey op r)).

(** ** Hash range *)

Lemma wrapu32_range z : 0 ≤ wrapu32 z < 2 ^ 32.
Proof. apply Z.mod_pos_bound. done. Qed.

Lemma fnv1a_range key h : 0 ≤ h < 2 ^ 32 → 0 ≤ fnv1a h key < 2 ^ 32.
Proof. revert h. induction key as [|b key IH]; intros h Hh; simpl; [done|]. apply IH, wrapu32_range. Qed.

Lemma RouteKey_range op key : 1 ≤ Partitions op → 0 ≤ RouteKey op key < Partitions op.
Proof.
  intros Hp. unfold RouteKey. destruct (_ || _); [lia|].
  assert (0 ≤ fnvOffset32 < 2 ^ 32) as H0 by done.
  pose proof (fnv1a_range key fnvOffset32 H0). pose proof (Z.rem_bound_pos (fnv1a fnvOffset32 key) (Partitions op)).
  lia.
Qed.

(** ** Queues of a dispatcher *)

Lemma queue_of_app items items' w : queue_of (items ++ items') w = queue_of items w ++ queue_of items' w.
Proof. unfold queue_of. by rewrite filter_app, fmap_app. Qed.

Lemma queue_of_None r w : queue_of [(None, r)] w = [r].
Proof. unfold queue_of. rewrite filter_cons_True; [done|]. by left. Qed.

Lemma queue_of_Some v r w : queue_of [(Some v, r)] w = if decide (v = w) then [r] else [].
Proof.
  unfold queue_of. case_decide.
  - subst. rewrite filter_cons_True; [done|]. by right.
  - rewrite filter_cons_False; [done|]. intros [?|?]; naive_solver.
Qed.

Lemma length_deliver n items : length (deliver n items) = n.
Proof. unfold deliver. by rewrite length_fmap, length_seq. Qed.

Lemma deliver_lookup n items w : (w < n)%nat → deliver n items !! w = Some (queue_of items w).
Proof. intros Hw. unfold deliver. rewrite list_lookup_fmap, lookup_seq_lt by done. done. Qed.

Lemma deliver_nil n : deliver n [] = replicate n [].
Proof.
  apply list_eq_same_length with n; [by rewrite length_replicate|by rewrite length_deliver|].
  intros i x y Hi. rewrite deliver_lookup by lia. rewrite lookup_replicate_2 by lia. by intros [= <-] [= <-].
Qed.

Lemma broadcast_deliver n items r : broadcast (deliver n items) r = deliver n (items ++ [(None, r)]).
Proof.
  unfold broadcast, deliver. rewrite <- list_fmap_compose. apply list_fmap_ext. intros _ w _.
  simpl. by rewrite queue_of_app, queue_of_None.
Qed.

Lemma sendTo_deliver n items w r : 0 ≤ w < Z.of_nat n →
  sendTo (deliver n items) w r = Ok (deliver n (items ++ [(Some (Z.to_nat w), r)])).
Proof.
  intros Hw. unfold sendTo. case_Z; [lia|]. rewrite deliver_lookup by lia. f_equal.
  apply list_eq_same_length with n; [by rewrite length_deliver|by rewrite length_insert, length_deliver|].
  intros i x y Hi. rewrite deliver_lookup, queue_of_app, queue_of_Some by lia.
  rewrite list_lookup_insert. rewrite length_deliver.
  repeat case_decide; simplify_eq; try lia; try naive_solver lia.
  - rewrite deliver_lookup by lia. intros [= <-] [= <-]. by rewrite app_nil_r.
Qed.

(** The router's loop from any point of the stream. *)
Lemma route_deliver op n items input : Z.of_nat n = Partitions op → (1 ≤ n)%nat →
  route op (deliver n items) input = Ok (deliver n (items ++ (keyed_address op <$> input))).
Proof.
  intros Hn Hpos. revert items. induction input as [|r input IH]; intros items.
  - simpl. by rewrite app_nil_r.
  - cbn [route fmap list_fmap]. unfold keyed_address at 1. destruct (isMarker r).
    + rewrite broadcast_deliver, IH. by rewrite <- app_assoc.
    + rewrite sendTo_deliver by (rewrite Hn; apply RouteKey_range; lia).
      cbn [rbind]. rewrite IH. by rewrite <- app_assoc.
Qed.

(** ** What the router guarantees *)

(** A record as the router forwards it. *)
Definition rekey (op : KeyByOperator) (r : Record_) : Record_ :=
  if isMarker r then r else setKey r (SelectKey op r).

Definition data_of_key (k : bytes) (r : Record_) : Prop := is_data r ∧ Key r = k.

#[export] Instance data_of_key_dec k r : Decision (data_of_key k r).
Proof. unfold data_of_key. apply _. Defined.

(** The queue of worker [w], record by record. *)
Lemma queue_of_keyed op (input : list Record_) w :
  queue_of (keyed_address op <$> input) w
  = filter (λ r, isMarker r = true ∨ Z.to_nat (RouteKey op (Key r)) = w) (rekey op <$> input).
Proof.
  induction input as [|r input IH]; [done|]. rewrite !fmap_cons, filter_cons.
  rewrite (eq_refl : keyed_address op r :: _ = [keyed_address op r] ++ _).
  rewrite queue_of_app, IH. unfold keyed_address, rekey.
  destruct (isMarker r) eqn:E.
  - rewrite queue_of_None, decide_True by auto. done.
  - rewrite queue_of_Some. unfold Route.
    destruct (decide (Z.to_nat (RouteKey op (SelectKey op r)) = w)) as [Hw|Hw].
    + rewrite decide_True by auto. done.
    + rewrite decide_False; [done|]. rewrite isMarker_setKey, E. simpl. naive_solver.
Qed.

Lemma filter_marker_rekey op (input : list Record_) :
  filter (λ r, isMarker r = true) (rekey op <$> input) = filter (λ r, isMarker r = true) input.
Proof.
  induction input as [|r input IH]; [done|]. rewrite fmap_cons, !filter_cons, IH. unfold rekey.
  destruct (isMarker r) eqn:E; [by rewrite E|]. by rewrite isMarker_setKey, E.
Qed.

Lemma filter_filter_sub {A} (P Q : A → Prop) `{!∀ x, Decision (P x), !∀ x, Decision (Q x)} (l : list A) :
  (∀ x, x ∈ l → P x → Q x) → filter P (filter Q l) = filter P l.
Proof.
  induction l as [|x l IH]; intros HPQ; [done|].
  assert (∀ y, y ∈ l → P y → Q y) as HPQ' by (intros; apply HPQ; set_solver).
  rewrite filter_cons. destruct (decide (Q x)).
  - rewrite !filter_cons, IH by done. done.
  - rewrite IH, filter_cons_False; [done| |done]. intros Hp. apply HPQ in Hp; [done|set_solver].
Qed.

(** The keyed router never fails: every worker gets every marker, data
    goes to the worker its key hashes to, and the records of one key arrive
    at one worker in their order. *)
Theorem keyed_route_correct (op : KeyByOperator) (input : list Record_) :
  1 ≤ Partitions op →
  ∃ queues, route op (replicate (Z.to_nat (Partitions op)) []) input = Ok queues
    ∧ length queues = Z.to_nat (Partitions op)
    ∧ (∀ w q, queues !! w = Some q →
        filter (λ r, isMarker r = true) q = filter (λ r, isMarker r = true) input
        ∧ ∀ r, r ∈ q → is_data r → RouteKey op (Key r) = Z.of_nat w)
    ∧ (∀ k q, queues !! Z.to_nat (RouteKey op k) = Some q →
        filter (data_of_key k) q = filter (data_of_key k) (rekey op <$> input)).
Proof.
  intros Hp. exists (deliver (Z.to_nat (Partitions op)) (keyed_address op <$> input)).
  assert (Hq : ∀ w q, deliver (Z.to_nat (Partitions op)) (keyed_address op <$> input) !! w = Some q →
    q = filter (λ r, isMarker r = true ∨ Z.to_nat (RouteKey op (Key r)) = w) (rekey op <$> input)).
  { intros w q Hw. pose proof (lookup_lt_Some _ _ _ Hw) as Hlt. rewrite length_deliver in Hlt.
    rewrite deliver_lookup in Hw by done. injection Hw as <-. apply queue_of_keyed. }
  split_and!.
  - rewrite <- deliver_nil, (route_deliver op) by lia. done.
  - apply length_deliver.
  - intros w q ->%Hq. split.
    + rewrite filter_filter_sub by auto. apply filter_marker_rekey.
    + intros r [[Hm|Hw] _]%list_elem_of_filter Hd; [unfold is_data in Hd; congruence|].
      pose proof (RouteKey_range op (Key r) Hp). lia.
  - intros k q ->%Hq. apply filter_filter_sub. intros r _ [_ <-]. by right.
Qed.

Lemma keyed_route_correct_witness :
  let op := WithPartitions (KeyBy Key) 4 in
  let input := [NewRecord 1 (bs "a") (bs "1"); NewWatermark 5; NewRecord 2 (bs "b") (bs "2");
                NewRecord 3 (bs "a") (bs "3")] in
  1 ≤ Partitions op
  ∧ ∃ queues, route op (replicate 4 []) input = Ok queues
    ∧ length queues = 4%nat
    ∧ (∀ w q, queues !! w = Some q →
        filter (λ r, isMarker r = true) q = filter (λ r, isMarker r = true) input
        ∧ ∀ r, r ∈ q → is_data r → RouteKey op (Key r) = Z.of_nat w)
    ∧ (∀ k q, queues !! Z.to_nat (RouteKey op k) = Some q →
        filter (data_of_key k) q = filter (data_of_key k) (rekey op <$> input)).
Proof. intros op input. split; [done|]. apply (keyed_route_correct op input). done. Defined.

(** Published FNV-1a test vectors. *)
Example fnv1a_a : fnv1a fnvOffset32 (bs "a") = 0xe40c292c.
Proof. reflexivity. Qed.
Example fnv1a_foobar : fnv1a fnvOffset32 (bs "foobar") = 0xbf9cf968.
Proof. reflexivity. Qed.
