(* ===== verification/Stateless.v ===== *)
(** * Stateless operators and their fused stage

    [src/operator/{map,filter,flatmap,process}.go] and
    [src/pipeline/stateless_stage.go].

    An operator's user function is a parameter of the operator value; it may
    return, fail with an error ([Process] only) or panic.  A dead-letter sink is
    code outside the engine: a function from what was written to it so far and
    the record to an optional error.  The records written to dead-letter sinks
    are the state threaded through every definition.

    A channel is the list of the records sent on it until it is closed;
    [op_Process] is an operator's own channel loop, [runWorker] the fused loop
    of the stage.  Cancellation of the pipeline context is not modelled. *)

From S2P Require Import Prelude Record KeyBy.

(** ** Operators *)

(** What a call of a user function does. *)
Inductive call (A : Type) := Returns (a : A) | Panics (e : bytes).
Arguments Returns {A} a.
Arguments Panics {A} e.

(** [ProcFailurePolicy] *)
Inductive ProcFailurePolicy := ProcFailureDrop | ProcFailureDLQ | ProcFailureFail.

(** [RecordSink]: [Some e] when the write fails. *)
Definition RecordSink := list Record_ → Record_ → option bytes.

(** [ProcessOperator]; the function returns a record or an error. *)
Record ProcessOperator := mkProcess {
  Proc_Fn : Record_ → call (Record_ + bytes);
  Proc_Label : bytes;
  FailurePolicy : ProcFailurePolicy;
  DLQ : option RecordSink
}.

(** The operators that implement [SingleProcessor]. *)
Inductive SingleProcessor :=
| MapOperator (Fn : Record_ → call Record_)
| FilterOperator (Fn : Record_ → call bool)
| FlatMapOperator (Fn : Record_ → call (list Record_))
| ProcOperator (op : ProcessOperator).

(** [OperatorError] *)
Record OperatorError := mkOperatorError {
  oe_Operator : bytes; oe_Label : bytes; oe_Key : bytes; oe_Err : bytes
}.

(** How a call into an operator ends. *)
Inductive outcome (A : Type) :=
| Done (a : A)
| Failed (e : OperatorError)
| Panicked (e : bytes).
Arguments Done {A} a.
Arguments Failed {A} e.
Arguments Panicked {A} e.

Definition obind {S A B} (c : S * outcome A) (k : S → A → S * outcome B) : S * outcome B :=
  match c with
  | (s, Done a) => k s a
  | (s, Failed e) => (s, Failed e)
  | (s, Panicked e) => (s, Panicked e)
  end.

Definition opErr (op : ProcessOperator) (r : Record_) (msg : bytes) : OperatorError :=
  mkOperatorError (bs "Process") (Proc_Label op) (Key r) msg.

(** [ProcessOperator.handleFailure] *)
Definition handleFailure (op : ProcessOperator) (dlq : list Record_) (r : Record_) (err : bytes)
    : list Record_ * outcome unit :=
  match FailurePolicy op with
  | ProcFailureDrop => (dlq, Done tt)
  | ProcFailureDLQ =>
      match DLQ op with
      | None => (dlq, Failed (opErr op r (bs "DLQ is nil: " ++ err)))
      | Some write =>
          let r := WithHeader r (bs "_error") err in
          match write dlq r with
          | Some werr => (dlq, Failed (opErr op r (bs "DLQ write failed: " ++ werr)))
          | None => (dlq ++ [r], Done tt)
          end
      end
  | ProcFailureFail => (dlq, Failed (opErr op r err))
  end.

(** [ProcessOperator.ProcessOneE] *)
Definition ProcessOneE (op : ProcessOperator) (dlq : list Record_) (r : Record_)
    : list Record_ * outcome (list Record_) :=
  match Proc_Fn op r with
  | Panics e => (dlq, Panicked e)
  | Returns (inl result) => (dlq, Done [result])
  | Returns (inr err) => obind (handleFailure op dlq r err) (λ dlq _, (dlq, Done []))
  end.

(** [ProcessOne] of each operator ([ProcessOneE] where there is one). *)
Definition ProcessOne (op : SingleProcessor) (dlq : list Record_) (r : Record_)
    : list Record_ * outcome (list Record_) :=
  match op with
  | MapOperator Fn =>
      match Fn r with Returns x => (dlq, Done [x]) | Panics e => (dlq, Panicked e) end
  | FilterOperator Fn =>
      match Fn r with
      | Returns true => (dlq, Done [r]) | Returns false => (dlq, Done [])
      | Panics e => (dlq, Panicked e)
      end
  | FlatMapOperator Fn =>
      match Fn r with Returns xs => (dlq, Done xs) | Panics e => (dlq, Panicked e) end
  | ProcOperator op => ProcessOneE op dlq r
  end.

(** The channel loop [Process]/[ProcessE] of an operator: markers pass through,
    data goes through the function.  The output, the dead letters, and how the
    loop ended. *)
Fixpoint op_Process (op : SingleProcessor) (dlq : list Record_) (input : list Record_)
    : list Record_ * list Record_ * outcome unit :=
  match input with
  | [] => ([], dlq, Done tt)
  | r :: input' =>
      if isMarker r then
        let '(out, dlq', o) := op_Process op dlq input' in (r :: out, dlq', o)
      else
        match ProcessOne op dlq r with
        | (dlq1, Done xs) =>
            let '(out, dlq', o) := op_Process op dlq1 input' in (xs ++ out, dlq', o)
        | (dlq1, Failed e) => ([], dlq1, Failed e)
        | (dlq1, Panicked e) => ([], dlq1, Panicked e)
        end
  end.

(** ** The fused stage *)

(** [for _, rec := range cur { ...; alt = append(alt, next...) }] *)
Fixpoint run_batch (op : SingleProcessor) (dlq : list Record_) (cur alt : list Record_)
    : list Record_ * outcome (list Record_) :=
  match cur with
  | [] => (dlq, Done alt)
  | rec :: cur' =>
      obind (ProcessOne op dlq rec) (λ dlq next, run_batch op dlq cur' (alt ++ next))
  end.

(** [for i, sp := range sps], with the [break] on an empty batch. *)
Fixpoint run_chain (ops : list SingleProcessor) (dlq : list Record_) (cur : list Record_)
    : list Record_ * outcome (list Record_) :=
  match ops with
  | [] => (dlq, Done cur)
  | op :: ops' =>
      obind (run_batch op dlq cur [])
        (λ dlq cur, match cur with [] => (dlq, Done []) | _ => run_chain ops' dlq cur end)
  end.

(** The error a worker returns. *)
Inductive stageErr :=
| StageFailed (stage : bytes) (e : OperatorError)
| StagePanicked (stage : bytes) (msg : bytes).

(** [runWorker]: output, dead letters, error. *)
Fixpoint runWorker (stage : bytes) (ops : list SingleProcessor) (dlq : list Record_)
    (input : list Record_) : list Record_ * list Record_ * option stageErr :=
  match input with
  | [] => ([], dlq, None)
  | r :: input' =>
      if isMarker r then
        let '(out, dlq', err) := runWorker stage ops dlq input' in (r :: out, dlq', err)
      else
        match run_chain ops dlq [r] with
        | (dlq1, Done cur) =>
            let '(out, dlq', err) := runWorker stage ops dlq1 input' in (cur ++ out, dlq', err)
        | (dlq1, Failed e) => ([], dlq1, Some (StageFailed stage e))
        | (dlq1, Panicked e) => ([], dlq1, Some (StagePanicked stage e))
        end
  end.

(** The dispatcher goroutine of [runParallel]: round robin over the workers,
    markers to all of them. *)
Fixpoint dispatch (n next : Z) (queues : list (list Record_)) (input : list Record_)
    : result (list (list Record_)) :=
  match input with
  | [] => Ok queues
  | r :: input' =>
      if isMarker r then dispatch n next (broadcast queues r) input'
      else
        queues' <-? sendTo queues next r ;;
        dispatch n (Z.rem (next + 1) n) queues' input'
  end.

(** ** Reference semantics *)

(** The stage as the unfused pipeline: each operator's channel loop reads the
    output of the previous one. *)
Fixpoint channel_pipeline (ops : list SingleProcessor) (dlq : list Record_) (input : list Record_)
    : list Record_ :=
  match ops with
  | [] => input
  | op :: ops' => channel_pipeline ops' dlq (op_Process op dlq input).1.1
  end.

(** An operator that never fails and never turns data into a marker, with the
    function [f] from a record to the records it becomes. *)
Definition acts_as (op : SingleProcessor) (f : Record_ → list Record_) : Prop :=
  ∀ dlq r, is_data r → (∃ dlq', ProcessOne op dlq r = (dlq', Done (f r))) ∧ Forall is_data (f r).

(** Record-at-a-time application of a chain of such functions. *)
Definition apply_chain (fs : list (Record_ → list Record_)) (rs : list Record_) : list Record_ :=
  foldl (λ rs f, flat_map f rs) rs fs.

Definition on_data (f : Record_ → list Record_) (r : Record_) : list Record_ :=
  if isMarker r then [r] else f r.

(** ** The fused stage computes the pipeline *)

Lemma Forall_flat_map {A B} (P : B → Prop) (f : A → list B) (l : list A) :
  Forall P (flat_map f l) ↔ Forall (λ x, Forall P (f x)) l.
Proof.
  induction l as [|x l IH]; simpl; [by split|]. by rewrite Forall_app, Forall_cons, IH.
Qed.

Lemma acts_as_data op f rs : acts_as op f → Forall is_data rs → Forall is_data (flat_map f rs).
Proof.
  intros Ha Hd. apply Forall_flat_map. eapply Forall_impl; [exact Hd|].
  intros r Hr. by destruct (Ha [] r Hr).
Qed.

Lemma run_batch_acts op f dlq cur alt : acts_as op f → Forall is_data cur →
  ∃ dlq', run_batch op dlq cur alt = (dlq', Done (alt ++ flat_map f cur)).
Proof.
  intros Ha. revert dlq alt. induction cur as [|r cur IH]; intros dlq alt Hd; simpl.
  - rewrite app_nil_r. eauto.
  - apply Forall_cons in Hd as [Hr Hd]. destruct (Ha dlq r Hr) as [[dlq1 E] _]. rewrite E. simpl.
    destruct (IH dlq1 (alt ++ f r) Hd) as [dlq' ->]. rewrite <- app_assoc. eauto.
Qed.

Lemma apply_chain_cons f fs rs : apply_chain (f :: fs) rs = apply_chain fs (flat_map f rs).
Proof. done. Qed.

Lemma apply_chain_nil fs : apply_chain fs [] = [].
Proof. by induction fs. Qed.

Lemma apply_chain_app fs rs rs' : apply_chain fs (rs ++ rs') = apply_chain fs rs ++ apply_chain fs rs'.
Proof.
  revert rs rs'. induction fs as [|f fs IH]; intros rs rs'; simpl; [done|].
  by rewrite flat_map_app, IH.
Qed.

Lemma apply_chain_flat_map fs rs : apply_chain fs rs = flat_map (λ r, apply_chain fs [r]) rs.
Proof.
  induction rs as [|r rs IH]; [apply apply_chain_nil|].
  change (r :: rs) with ([r] ++ rs) at 1. rewrite apply_chain_app, IH. done.
Qed.

Lemma run_chain_acts ops fs dlq cur : Forall2 acts_as ops fs → Forall is_data cur →
  ∃ dlq', run_chain ops dlq cur = (dlq', Done (apply_chain fs cur)).
Proof.
  intros Ha. revert dlq cur. induction Ha as [|op f ops fs Ha _ IH]; intros dlq cur Hd; cbn [run_chain]; [eauto|].
  destruct (run_batch_acts op f dlq cur [] Ha Hd) as [dlq1 ->]. cbn [obind app].
  pose proof (acts_as_data op f cur Ha Hd) as Hd'.
  rewrite apply_chain_cons. destruct (flat_map f cur) as [|r rs].
  - exists dlq1. by rewrite apply_chain_nil.
  - destruct (IH dlq1 (r :: rs) Hd') as [dlq2 ->]. by exists dlq2.
Qed.

Lemma runWorker_acts stage ops fs dlq input : Forall2 acts_as ops fs →
  ∃ dlq', runWorker stage ops dlq input
    = (flat_map (on_data (λ r, apply_chain fs [r])) input, dlq', None).
Proof.
  intros Ha. revert dlq. induction input as [|r input IH]; intros dlq; simpl; [eauto|].
  unfold on_data at 1. destruct (isMarker r) eqn:Em.
  - destruct (IH dlq) as [dlq' ->]. eauto.
  - destruct (run_chain_acts ops fs dlq [r] Ha) as [dlq1 ->]; [by constructor|].
    destruct (IH dlq1) as [dlq' ->]. eauto.
Qed.

Lemma op_Process_acts op f dlq input : acts_as op f →
  (op_Process op dlq input).1.1 = flat_map (on_data f) input.
Proof.
  intros Ha. revert dlq. induction input as [|r input IH]; intros dlq; simpl; [done|].
  unfold on_data at 1. destruct (isMarker r) eqn:Em.
  - rewrite <- (IH dlq). by destruct (op_Process op dlq input) as [[? ?] ?].
  - destruct (Ha dlq r Em) as [[dlq1 ->] _]. rewrite <- (IH dlq1).
    by destruct (op_Process op dlq1 input) as [[? ?] ?].
Qed.

Lemma channel_pipeline_acts ops fs dlq input : Forall2 acts_as ops fs →
  channel_pipeline ops dlq input = apply_chain (on_data <$> fs) input.
Proof.
  intros Ha. revert input. induction Ha as [|op f ops fs Ha _ IH]; intros input; simpl; [done|].
  rewrite (op_Process_acts op f) by done. by rewrite IH.
Qed.

Lemma on_data_all f rs : Forall is_data rs → flat_map (on_data f) rs = flat_map f rs.
Proof.
  induction 1 as [|r rs Hr _ IH]; simpl; [done|]. rewrite IH. unfold on_data. by rewrite Hr.
Qed.

(** Chaining record by record or stream by stream makes no difference. *)
Lemma apply_chain_on_data ops fs input : Forall2 acts_as ops fs →
  apply_chain (on_data <$> fs) input = flat_map (on_data (λ r, apply_chain fs [r])) input.
Proof.
  intros Ha. rewrite apply_chain_flat_map. apply flat_map_ext. intros r. unfold on_data at 2.
  destruct (isMarker r) eqn:Em.
  - clear Ha. induction fs as [|f fs IH]; [done|].
    rewrite fmap_cons, apply_chain_cons.
    assert (flat_map (on_data f) [r] = [r]) as -> by (simpl; unfold on_data; by rewrite Em). done.
  - assert (Forall is_data [r]) as Hd by (by constructor). revert Hd. generalize [r] as rs.
    induction Ha as [|op f ops fs Ha _ IH]; intros rs Hd; cbn; [done|].
    rewrite on_data_all by done. apply IH. by apply (acts_as_data op).
Qed.

(** Running a chain of stateless operators fused in one worker gives
    the same output as connecting them by channels, and both apply the
    composed functions to each data record and pass markers through. *)
Theorem stateless_fusion_correct (stage : bytes) (ops : list SingleProcessor)
    (fs : list (Record_ → list Record_)) (dlq input : list Record_) :
  Forall2 acts_as ops fs →
  ∃ dlq', runWorker stage ops dlq input = (channel_pipeline ops dlq input, dlq', None)
    ∧ channel_pipeline ops dlq input = flat_map (on_data (λ r, apply_chain fs [r])) input.
Proof.
  intros Ha. destruct (runWorker_acts stage ops fs dlq input Ha) as [dlq' E].
  rewrite (channel_pipeline_acts ops fs), (apply_chain_on_data ops) by done. eauto.
Qed.

(** ** Failures *)

(** When a stage fails, its output is exactly the output for the
    records before the failing one, and the error names the stage and the
    failure of that record. *)
Theorem runWorker_error_prefix (stage : bytes) (ops : list SingleProcessor)
    (dlq input out dlq' : list Record_) (err : stageErr) :
  runWorker stage ops dlq input = (out, dlq', Some err) →
  ∃ pre r post dlq1, input = pre ++ r :: post ∧ is_data r
    ∧ runWorker stage ops dlq pre = (out, dlq1, None)
    ∧ (run_chain ops dlq1 [r]).1 = dlq'
    ∧ match err with
      | StageFailed s e => s = stage ∧ (run_chain ops dlq1 [r]).2 = Failed e
      | StagePanicked s e => s = stage ∧ (run_chain ops dlq1 [r]).2 = Panicked e
      end.
Proof.
  revert dlq out. induction input as [|r input IH]; intros dlq out E; simpl in E; [done|].
  destruct (isMarker r) eqn:Em.
  - destruct (runWorker stage ops dlq input) as [[out1 d1] e1] eqn:E1. injection E as <- <- ->.
    destruct (IH _ _ E1) as (pre & r' & post & d2 & -> & Hd & Hpre & Hrest).
    exists (r :: pre), r', post, d2. split; [done|]. split; [done|]. split; [|done]. simpl. by rewrite Em, Hpre.
  - destruct (run_chain ops dlq [r]) as [d1 [cur|e|e]] eqn:Ec.
    + destruct (runWorker stage ops d1 input) as [[out1 d2] e1] eqn:E1. injection E as <- <- ->.
      destruct (IH _ _ E1) as (pre & r' & post & d3 & -> & Hd & Hpre & Hrest).
      exists (r :: pre), r', post, d3. split; [done|]. split; [done|]. split; [|done]. simpl. by rewrite Em, Ec, Hpre.
    + injection E as <- <- <-. exists [], r, input, dlq. by rewrite Ec.
    + injection E as <- <- <-. exists [], r, input, dlq. by rewrite Ec.
Qed.

(** What one record becomes under a [Process] operator with a dead-letter
    queue. *)
Definition success_of (op : ProcessOperator) (r : Record_) : option Record_ :=
  if isMarker r then Some r
  else match Proc_Fn op r with Returns (inl x) => Some x | _ => None end.

Definition dead_letter_of (op : ProcessOperator) (r : Record_) : option Record_ :=
  if isMarker r then None
  else match Proc_Fn op r with
       | Returns (inr err) => Some (WithHeader r (bs "_error") err)
       | _ => None
       end.

Definition never_panics (op : ProcessOperator) : Prop := ∀ r e, Proc_Fn op r ≠ Panics e.

(** With a dead-letter queue that accepts everything, every input
    record is either processed or dead-lettered, exactly once and in order. *)
Theorem process_dlq_exact (stage : bytes) (op : ProcessOperator) (write : RecordSink)
    (dlq input : list Record_) :
  FailurePolicy op = ProcFailureDLQ → DLQ op = Some write → (∀ l r, write l r = None) →
  never_panics op →
  runWorker stage [ProcOperator op] dlq input
    = (omap (success_of op) input, dlq ++ omap (dead_letter_of op) input, None)
  ∧ (length (omap (success_of op) input) + length (omap (dead_letter_of op) input)
     = length input)%nat.
Proof.
  intros Hp Hd Hw Hn. revert dlq. induction input as [|r input IH]; intros dlq.
  { simpl. by rewrite app_nil_r. }
  cbn [runWorker omap list_omap length].
  assert (success_of op r = if isMarker r then Some r
    else match Proc_Fn op r with Returns (inl x) => Some x | _ => None end) as -> by done.
  assert (dead_letter_of op r = if isMarker r then None
    else match Proc_Fn op r with
         | Returns (inr err) => Some (WithHeader r (bs "_error") err) | _ => None end) as -> by done.
  destruct (isMarker r) eqn:Em.
  - destruct (IH dlq) as [-> Hl]. split; [done|]. rewrite <- Hl. done.
  - cbn [run_chain run_batch ProcessOne]. unfold ProcessOneE.
    destruct (Proc_Fn op r) as [[x|err]|e] eqn:Ef; [| |by apply Hn in Ef].
    + cbn [obind app]. destruct (IH dlq) as [-> Hl]. split; [done|]. by rewrite <- Hl.
    + unfold handleFailure. rewrite Hp, Hd, Hw. cbn [obind app].
      destruct (IH (dlq ++ [WithHeader r (bs "_error") err])) as [-> Hl].
      rewrite <- app_assoc. split; [done|]. rewrite <- Hl. simpl. lia.
Qed.

(** ** The dispatcher *)

(** How the dispatcher addresses the records, from worker [next] on. *)
Fixpoint rr_address (n next : Z) (input : list Record_) : list addressed :=
  match input with
  | [] => []
  | r :: input' =>
      if isMarker r then (None, r) :: rr_address n next input'
      else (Some (Z.to_nat next), r) :: rr_address n (Z.rem (next + 1) n) input'
  end.

Lemma dispatch_deliver n next items input : 1 ≤ n → 0 ≤ next < n →
  dispatch n next (deliver (Z.to_nat n) items) input
  = Ok (deliver (Z.to_nat n) (items ++ rr_address n next input)).
Proof.
  intros Hn. revert next items. induction input as [|r input IH]; intros next items Hx.
  - simpl. by rewrite app_nil_r.
  - cbn [dispatch rr_address]. destruct (isMarker r).
    + rewrite broadcast_deliver, IH by done. by rewrite <- app_assoc.
    + rewrite sendTo_deliver by lia. cbn [rbind].
      rewrite IH by (apply Z.rem_bound_pos; lia). by rewrite <- app_assoc.
Qed.

Lemma rr_address_snd n next input : (rr_address n next input).*2 = input.
Proof.
  revert next. induction input as [|r input IH]; intros next; simpl; [done|].
  destruct (isMarker r); by rewrite fmap_cons, IH.
Qed.

Lemma queue_of_cons a items w :
  queue_of (a :: items) w = queue_of [a] w ++ queue_of items w.
Proof. apply (queue_of_app [a]). Qed.

Lemma rr_queue_markers n next input w :
  filter (λ r, isMarker r = true) (queue_of (rr_address n next input) w)
  = filter (λ r, isMarker r = true) input.
Proof.
  revert next. induction input as [|r input IH]; intros next; [done|]. cbn [rr_address].
  rewrite filter_cons. destruct (isMarker r) eqn:Em; rewrite queue_of_cons, filter_app, IH.
  - rewrite queue_of_None, filter_cons_True, decide_True by done. done.
  - rewrite queue_of_Some, (decide_False (P := false = true)) by done. case_decide; [|done].
    by rewrite filter_cons_False by congruence.
Qed.

(** Worker [w] gets the data records number [w - next], [w - next + n], ... *)
Lemma rr_queue_data n next input w i : 1 ≤ n → 0 ≤ next < n → Z.of_nat w < n →
  filter is_data (queue_of (rr_address n next input) w) !! i
  = filter is_data input !! (Z.to_nat ((Z.of_nat w - next) mod n) + i * Z.to_nat n)%nat.
Proof.
  intros Hn. revert next i. induction input as [|r input IH]; intros next i Hx Hw; [done|].
  cbn [rr_address]. rewrite filter_cons.
  destruct (isMarker r) eqn:Em; rewrite queue_of_cons, filter_app.
  - assert (¬ is_data r) by (unfold is_data; congruence).
    rewrite queue_of_None, filter_cons_False, decide_False by done. rewrite filter_nil. cbn [app]. by rewrite IH.
  - rewrite queue_of_Some, (decide_True (P := is_data r)) by done.
    assert (0 ≤ Z.rem (next + 1) n < n) as Hb by (apply Z.rem_bound_pos; lia).
    assert ((Z.of_nat w - Z.rem (next + 1) n) mod n = (Z.of_nat w - next - 1) mod n) as Hm.
    { rewrite Z.rem_mod_nonneg, Zminus_mod_idemp_r by lia. f_equal. lia. }
    case_decide as Hwn.
    + rewrite filter_cons_True, filter_nil by done.
      assert (Z.of_nat w - next = 0) as E0 by lia. rewrite E0, Z.mod_0_l by lia.
      destruct i as [|i]; [done|]. cbn [app]. change ((r :: ?l) !! S i) with (l !! i).
      rewrite lookup_cons_ne_0 by lia. rewrite IH, Hm by lia.
      assert ((Z.of_nat w - next - 1) mod n = n - 1) as ->.
      { rewrite E0. symmetry. apply Z.mod_unique with (-1); lia. }
      f_equal. lia.
    + rewrite filter_nil. cbn [app]. rewrite IH, Hm by lia.
      assert ((Z.of_nat w - next) mod n = (Z.of_nat w - next - 1) mod n + 1) as Hs.
      { symmetry. pose proof (Z.mod_pos_bound (Z.of_nat w - next - 1) n ltac:(lia)).
        destruct (decide (Z.of_nat w < next)).
        - rewrite <- (Z.mod_unique (Z.of_nat w - next - 1) n (-1) (Z.of_nat w - next - 1 + n)) by lia.
          apply Z.mod_unique with (-1); lia.
        - rewrite !Z.mod_small by lia. lia. }
      rewrite Hs. pose proof (Z.mod_pos_bound (Z.of_nat w - next - 1) n ltac:(lia)).
      rewrite (lookup_cons_ne_0 _ r) by lia. f_equal. lia.
Qed.

(** The round-robin dispatcher gives every worker all markers, and worker [w] the
    data records [w], [w+n], [w+2n] and so on, in order. *)
Theorem round_robin_correct (n : Z) (input : list Record_) :
  1 ≤ n →
  ∃ queues, dispatch n 0 (replicate (Z.to_nat n) []) input = Ok queues
    ∧ length queues = Z.to_nat n
    ∧ ∀ w q, queues !! w = Some q →
        filter (λ r, isMarker r = true) q = filter (λ r, isMarker r = true) input
        ∧ ∀ i, filter is_data q !! i = filter is_data input !! (w + i * Z.to_nat n)%nat.
Proof.
  intros Hn. exists (deliver (Z.to_nat n) (rr_address n 0 input)). split_and!.
  - rewrite <- deliver_nil, dispatch_deliver by lia. done.
  - apply length_deliver.
  - intros w q Hw. pose proof (lookup_lt_Some _ _ _ Hw) as Hlt. rewrite length_deliver in Hlt.
    rewrite deliver_lookup in Hw by done. injection Hw as <-.
    split; [apply rr_queue_markers|]. intros i. rewrite rr_queue_data by lia.
    rewrite Z.sub_0_r, Z.mod_small, Nat2Z.id by lia. done.
Qed.

(** ** Witnesses *)

Definition demo_input : list Record_ :=
  [NewRecord 1 (bs "a") (bs "1"); NewRecord 2 (bs "b") []; NewWatermark 5;
   NewRecord 3 (bs "a") (bs "3")].

(** Keep non-empty values, then duplicate. *)
Definition demo_keep (r : Record_) : bool := negb (bool_decide (Value r = [])).
Definition demo_ops : list SingleProcessor :=
  [FilterOperator (λ r, Returns (demo_keep r));
   FlatMapOperator (λ r, Returns [setKey r (bs "x"); setKey r (bs "y")])].
Definition demo_fs : list (Record_ → list Record_) :=
  [(λ r, if demo_keep r then [r] else []); (λ r, [setKey r (bs "x"); setKey r (bs "y")])].

Lemma demo_acts : Forall2 acts_as demo_ops demo_fs.
Proof.
  constructor; [|constructor; [|constructor]].
  - intros dlq r Hr. simpl. destruct (demo_keep r); (split; [by eexists|]); by repeat constructor.
  - intros dlq r Hr. split; [by eexists|]. by repeat constructor.
Qed.

Lemma stateless_fusion_correct_witness :
  ∃ dlq', runWorker (bs "stateless-0") demo_ops [] demo_input
      = (channel_pipeline demo_ops [] demo_input, dlq', None)
    ∧ channel_pipeline demo_ops [] demo_input
      = flat_map (on_data (λ r, apply_chain demo_fs [r])) demo_input.
Proof. apply (stateless_fusion_correct (bs "stateless-0") demo_ops demo_fs). apply demo_acts. Defined.

(** A function that rejects empty values. *)
Definition demo_proc (p : ProcFailurePolicy) : ProcessOperator :=
  mkProcess (λ r, Returns (if demo_keep r then inl r else inr (bs "empty value"))) []
    p (Some (λ _ _, None)).

Lemma runWorker_error_prefix_witness :
  let r2 := NewRecord 2 (bs "b") [] in
  let run := runWorker (bs "s") [ProcOperator (demo_proc ProcFailureFail)] [] demo_input in
  let e := opErr (demo_proc ProcFailureFail) r2 (bs "empty value") in
  run = ([NewRecord 1 (bs "a") (bs "1")], [], Some (StageFailed (bs "s") e))
  ∧ ∃ pre r post dlq1, demo_input = pre ++ r :: post ∧ is_data r
    ∧ runWorker (bs "s") [ProcOperator (demo_proc ProcFailureFail)] [] pre
      = ([NewRecord 1 (bs "a") (bs "1")], dlq1, None)
    ∧ (run_chain [ProcOperator (demo_proc ProcFailureFail)] dlq1 [r]).1 = []
    ∧ bs "s" = bs "s"
    ∧ (run_chain [ProcOperator (demo_proc ProcFailureFail)] dlq1 [r]).2 = Failed e.
Proof.
  intros r2 run e. assert (run = ([NewRecord 1 (bs "a") (bs "1")], [], Some (StageFailed (bs "s") e))) as E
    by (vm_compute; reflexivity).
  split; [exact E|]. exact (runWorker_error_prefix _ _ _ _ _ _ _ E).
Defined.

Lemma process_dlq_exact_witness :
  runWorker (bs "s") [ProcOperator (demo_proc ProcFailureDLQ)] [] demo_input
    = (omap (success_of (demo_proc ProcFailureDLQ)) demo_input,
       [] ++ omap (dead_letter_of (demo_proc ProcFailureDLQ)) demo_input, None)
  ∧ (length (omap (success_of (demo_proc ProcFailureDLQ)) demo_input)
     + length (omap (dead_letter_of (demo_proc ProcFailureDLQ)) demo_input) = length demo_input)%nat.
Proof.
  apply (process_dlq_exact (bs "s") (demo_proc ProcFailureDLQ) (λ _ _, None)); [done|done|done|].
  intros r e. done.
Defined.

Lemma round_robin_correct_witness :
  1 ≤ 2
  ∧ ∃ queues, dispatch 2 0 (replicate (Z.to_nat 2) []) demo_input = Ok queues
    ∧ length queues = Z.to_nat 2
    ∧ ∀ w q, queues !! w = Some q →
        filter (λ r, isMarker r = true) q = filter (λ r, isMarker r = true) demo_input
        ∧ ∀ i, filter is_data q !! i = filter is_data demo_input !! (w + i * Z.to_nat 2)%nat.
Proof. split; [lia|]. apply (round_robin_correct 2 demo_input). lia. Defined.
