(* ===== verification/Merge.v ===== *)
(** * Aligned merge ([alignedMerge] in [src/pipeline/markers.go])

    Worker outputs are fanned into one channel by one forwarding goroutine per
    worker; a forwarder that delivered a marker parks until the merge loop has
    counted that marker from every worker and hands out resume tokens.  The
    model is a step relation over the shared state: one constructor per
    communication of a forwarder or of the merge loop, interleaved freely.

    A worker's output is the list of records it sends before closing its
    channel; when the records become available is unconstrained, since a
    forwarder's step may be delayed at will.  Cancellation ([hardCtx]) is not
    modelled.

    [aligned] is the abstract specification: an interleaving of the worker
    streams that takes a marker from all of them at once. *)

From S2P Require Import Prelude Record.

(** ** The machine *)

(** Channel capacity inside a stage, [src/pipeline/stage.go]. *)
Definition internalBuf : nat := 256.

(** One worker: the rest of its output, whether its forwarder is parked, and
    its [resume] channel (capacity one). *)
Record worker := mkWorker { rest : list Record_; parked : bool; token : bool }.

(** Where the merge loop is: at the receive, or handing out resume tokens from
    worker [i] on. *)
Inductive mode := Receiving | Resuming (i : nat).

(** Items in [fanIn] carry the worker they came from; the merge loop does not
    look at it. *)
Record merge_state := mkMerge {
  workers : list worker;
  fanIn : list (nat * Record_);
  arrived : nat;
  loop : mode;
  out : list Record_
}.

Definition merge_init (streams : list (list Record_)) : merge_state :=
  mkMerge ((λ s, mkWorker s false false) <$> streams) [] 0 Receiving [].

Inductive merge_step : merge_state → merge_state → Prop :=
(** forwarder: [case fanIn <- r], then park after a marker *)
| step_forward ws q a l o w r rs t :
    ws !! w = Some (mkWorker (r :: rs) false t) → (length q < internalBuf)%nat →
    merge_step (mkMerge ws q a l o)
      (mkMerge (<[w := mkWorker rs (isMarker r) t]> ws) (q ++ [(w, r)]) a l o)
(** forwarder: [case <-resume[w]] *)
| step_wake ws q a l o w rs :
    ws !! w = Some (mkWorker rs true true) →
    merge_step (mkMerge ws q a l o) (mkMerge (<[w := mkWorker rs false false]> ws) q a l o)
(** merge loop: a data record *)
| step_data ws q a o w r :
    isMarker r = false →
    merge_step (mkMerge ws ((w, r) :: q) a Receiving o) (mkMerge ws q a Receiving (o ++ [r]))
(** merge loop: a marker some worker has yet to deliver *)
| step_hold ws q a o w r :
    isMarker r = true → (a + 1 < length ws)%nat →
    merge_step (mkMerge ws ((w, r) :: q) a Receiving o) (mkMerge ws q (a + 1) Receiving o)
(** merge loop: the last copy of the marker *)
| step_emit ws q a o w r :
    isMarker r = true → (length ws ≤ a + 1)%nat →
    merge_step (mkMerge ws ((w, r) :: q) a Receiving o) (mkMerge ws q 0 (Resuming 0) (o ++ [r]))
(** merge loop: [ch <- struct{}{}] *)
| step_resume ws q a o i rs p :
    ws !! i = Some (mkWorker rs p false) →
    merge_step (mkMerge ws q a (Resuming i) o)
      (mkMerge (<[i := mkWorker rs p true]> ws) q a (Resuming (i + 1)) o)
(** merge loop: back to the receive *)
| step_loop ws q a o i :
    (length ws ≤ i)%nat →
    merge_step (mkMerge ws q a (Resuming i) o) (mkMerge ws q a Receiving o).

(** [alignedMerge] returns: every forwarder ended and [fanIn] is closed. *)
Definition merge_done (s : merge_state) : Prop :=
  Forall (λ w, rest w = [] ∧ parked w = false) (workers s) ∧ fanIn s = [] ∧ loop s = Receiving.

Definition merge_reach : merge_state → merge_state → Prop := rtc merge_step.

(** ** Specification *)

Inductive aligned : list (list Record_) → list Record_ → Prop :=
| aligned_nil ss : Forall (.= []) ss → aligned ss []
| aligned_data ss w r rs o :
    ss !! w = Some (r :: rs) → isMarker r = false →
    aligned (<[w := rs]> ss) o → aligned ss (r :: o)
| aligned_marker ss m o :
    ss ≠ [] → isMarker m = true → aligned ss o → aligned ((m ::.) <$> ss) (m :: o).

Definition markers (l : list Record_) : list Record_ := filter (λ r, isMarker r = true) l.

(** Every worker was sent, and passes on, the same markers. *)
Definition same_markers (streams : list (list Record_)) : Prop :=
  ∃ ms, Forall (λ s, markers s = ms) streams.

(** ** Simulation *)

(** The part of [fanIn] that came from worker [w]. *)
Definition fan (q : list (nat * Record_)) (w : nat) : list Record_ :=
  (filter (λ x, x.1 = w) q).*2.

(** Worker [w] was counted and waits for its resume token. *)
Definition awaiting (l : mode) (w : nat) : bool :=
  match l with Receiving => false | Resuming i => (i <=? w)%nat end.

(** The states a worker goes through between two markers: [c] is its marker
    when already counted, [f] its records in [fanIn]. *)
Inductive winv : bool → list Record_ → list Record_ → worker → Prop :=
| w_run f rs : Forall is_data f → winv false [] f (mkWorker rs false false)
| w_flight f m rs : Forall is_data f → isMarker m = true →
    winv false [] (f ++ [m]) (mkWorker rs true false)
| w_counted m rs : isMarker m = true → winv false [m] [] (mkWorker rs true false)
| w_token rs : winv false [] [] (mkWorker rs true true)
| w_await rs : winv true [] [] (mkWorker rs true false).

(** What is still to be emitted, per worker. *)
Definition residual (cs : list (list Record_)) (q : list (nat * Record_)) (ws : list worker)
    : list (list Record_) :=
  imap (λ w x, default [] (cs !! w) ++ fan q w ++ rest x) ws.

Definition counted (cs : list (list Record_)) : nat := length (filter (λ c, c ≠ []) cs).

Record merge_inv (streams : list (list Record_)) (s : merge_state) (cs : list (list Record_)) : Prop := {
  mi_len : length cs = length (workers s);
  mi_workers : ∀ w x, workers s !! w = Some x →
    ∃ c, cs !! w = Some c ∧ winv (awaiting (loop s) w) c (fan (fanIn s) w) x;
  mi_arrived : arrived s = counted cs;
  mi_lt : workers s ≠ [] → (arrived s < length (workers s))%nat;
  mi_fan : Forall (λ x, (x.1 < length (workers s))%nat) (fanIn s);
  mi_resuming : loop s ≠ Receiving → arrived s = 0%nat;
  mi_same : same_markers (residual cs (fanIn s) (workers s));
  mi_out : ∀ o, aligned (residual cs (fanIn s) (workers s)) o → aligned streams (out s ++ o)
}.

Lemma residual_lookup cs q ws w :
  residual cs q ws !! w = (λ x, default [] (cs !! w) ++ fan q w ++ rest x) <$> ws !! w.
Proof. unfold residual. by rewrite list_lookup_imap. Qed.

Lemma fan_nil w : fan [] w = [].
Proof. done. Qed.
Lemma fan_cons v r q w : fan ((v, r) :: q) w = if decide (v = w) then r :: fan q w else fan q w.
Proof. unfold fan. rewrite filter_cons. simpl. by case_decide. Qed.
Lemma fan_snoc v r q w : fan (q ++ [(v, r)]) w = if decide (v = w) then fan q w ++ [r] else fan q w.
Proof. unfold fan. rewrite filter_app, fmap_app, filter_cons. simpl. case_decide; simpl; [done|]. by rewrite app_nil_r. Qed.

(** One worker changes, and what is left to emit stays the same. *)
Lemma residual_insert cs q ws w x c cs' q' x' :
  ws !! w = Some x → cs !! w = Some c →
  (∀ v, v ≠ w → fan q' v = fan q v ∧ cs' !! v = cs !! v) →
  default [] (cs' !! w) ++ fan q' w ++ rest x' = c ++ fan q w ++ rest x →
  residual cs' q' (<[w := x']> ws) = residual cs q ws.
Proof.
  intros Hx Hc Hv He. apply list_eq. intros v. rewrite !residual_lookup.
  pose proof (lookup_lt_Some _ _ _ Hx).
  destruct (decide (v = w)) as [->|Hne].
  - rewrite list_lookup_insert_eq, Hx, Hc by done. simpl. by rewrite He.
  - rewrite list_lookup_insert_ne by done. destruct (Hv v Hne) as [-> ->]. done.
Qed.

Lemma counted_insert cs w c m : cs !! w = Some c → c = [] → counted (<[w := [m]]> cs) = S (counted cs).
Proof.
  unfold counted. revert w. induction cs as [|c' cs IH]; intros [|w] Hw Hc; simpl in *; try done.
  - simplify_eq. rewrite !filter_cons. simpl. done.
  - rewrite !filter_cons. specialize (IH w Hw Hc). destruct (decide (c' ≠ [])); simpl; lia.
Qed.

Lemma counted_all cs : (length cs ≤ counted cs)%nat → Forall (.≠ []) cs.
Proof.
  unfold counted. induction cs as [|c cs IH]; intros Hl; [done|]. rewrite filter_cons in Hl.
  pose proof (length_filter (λ c : list Record_, c ≠ []) cs).
  destruct (decide (c ≠ [])) as [Hc|Hc]; simpl in Hl; [constructor; [exact Hc|apply IH; lia]|lia].
Qed.

Lemma counted_none n : counted (replicate n []) = 0%nat.
Proof. unfold counted. induction n; simpl; [done|]. rewrite filter_cons_False; [done|by intros []]. Qed.

Lemma fan_nil_residual streams ws : (∀ w x, ws !! w = Some x → streams !! w = Some (rest x)) →
  length ws = length streams → residual (replicate (length ws) []) [] ws = streams.
Proof.
  intros Hr Hl. apply list_eq. intros w. rewrite residual_lookup, fan_nil.
  destruct (ws !! w) as [x|] eqn:E; simpl.
  - rewrite (Hr w x E), lookup_replicate_2 by (by eapply lookup_lt_Some). done.
  - apply lookup_ge_None in E. symmetry. apply lookup_ge_None. lia.
Qed.

Lemma merge_inv_init streams : same_markers streams →
  merge_inv streams (merge_init streams) (replicate (length streams) []).
Proof.
  intros Hsame. set (ws := workers (merge_init streams)).
  assert (length ws = length streams) as Hl by apply length_fmap.
  assert (residual (replicate (length streams) []) [] ws = streams) as Hr.
  { rewrite <- Hl. apply fan_nil_residual; [|done]. intros w x. unfold ws. simpl.
    rewrite list_lookup_fmap. destruct (streams !! w); naive_solver. }
  split; simpl.
  - by rewrite length_replicate.
  - intros w x Hw. pose proof (lookup_lt_Some _ _ _ Hw) as Hlt. exists [].
    rewrite lookup_replicate_2 by (rewrite length_fmap in Hlt; done). split; [done|].
    rewrite list_lookup_fmap in Hw. destruct (streams !! w); simplify_eq/=. by constructor.
  - by rewrite counted_none.
  - rewrite length_fmap. by destruct streams; simpl; [|lia].
  - constructor.
  - done.
  - change (same_markers (residual (replicate (length streams) []) [] ws)). by rewrite Hr.
  - change (∀ o, aligned (residual (replicate (length streams) []) [] ws) o → aligned streams o).
    by rewrite Hr.
Qed.

(** A step by one worker that leaves [fanIn] of the others, the count and what
    is left to emit alone. *)
Lemma merge_inv_worker streams ws q a l o cs w x x' c q' :
  merge_inv streams (mkMerge ws q a l o) cs →
  ws !! w = Some x → cs !! w = Some c →
  (∀ v, v ≠ w → fan q' v = fan q v) → Forall (λ y, (y.1 < length ws)%nat) q' →
  c ++ fan q' w ++ rest x' = c ++ fan q w ++ rest x →
  winv (awaiting l w) c (fan q' w) x' →
  merge_inv streams (mkMerge (<[w := x']> ws) q' a l o) cs.
Proof.
  intros Hi Hx Hc Hv Hlt He Hw. destruct Hi as [H1 H2 H3 H4 H5 H6 H7 H8]; simpl in *.
  assert (residual cs q' (<[w := x']> ws) = residual cs q ws) as Hr.
  { apply (residual_insert cs q ws w x c); [done|done|auto|by rewrite Hc]. }
  split; simpl; rewrite ?Hr, ?length_insert; try done.
  - intros v y Hy. destruct (decide (v = w)) as [->|Hne].
    + rewrite list_lookup_insert_eq in Hy by (by eapply lookup_lt_Some). simplify_eq. eauto.
    + rewrite list_lookup_insert_ne in Hy by done. rewrite Hv by done. auto.
  - intros _. apply H4. by destruct ws.
Qed.

Lemma inv_step_forward streams ws q a l o cs w r rs t :
  merge_inv streams (mkMerge ws q a l o) cs →
  ws !! w = Some (mkWorker (r :: rs) false t) →
  merge_inv streams (mkMerge (<[w := mkWorker rs (isMarker r) t]> ws) (q ++ [(w, r)]) a l o) cs.
Proof.
  intros Hi Hx. destruct (mi_workers _ _ _ Hi w _ Hx) as (c & Hc & Hw); simpl in *.
  pose proof (lookup_lt_Some _ _ _ Hx).
  assert (fan (q ++ [(w, r)]) w = fan q w ++ [r]) as Hf by (by rewrite fan_snoc, decide_True).
  apply (merge_inv_worker streams ws q a l o cs w (mkWorker (r :: rs) false t) _ c); try done.
  - intros v Hne. by rewrite fan_snoc, decide_False.
  - apply Forall_app. split; [apply (mi_fan _ _ _ Hi)|]. by repeat constructor.
  - rewrite Hf. simpl. by rewrite <- !app_assoc.
  - rewrite Hf. inversion Hw; subst. destruct (isMarker r) eqn:Em; [by constructor|].
    constructor. apply Forall_app. split; [done|]. by repeat constructor.
Qed.

Lemma inv_step_wake streams ws q a l o cs w rs :
  merge_inv streams (mkMerge ws q a l o) cs →
  ws !! w = Some (mkWorker rs true true) →
  merge_inv streams (mkMerge (<[w := mkWorker rs false false]> ws) q a l o) cs.
Proof.
  intros Hi Hx. destruct (mi_workers _ _ _ Hi w _ Hx) as (c & Hc & Hw); simpl in *.
  apply (merge_inv_worker streams ws q a l o cs w (mkWorker rs true true) _ c); try done.
  - apply (mi_fan _ _ _ Hi).
  - inversion Hw; subst. by constructor.
Qed.

Lemma inv_step_resume streams ws q a o cs i rs p :
  merge_inv streams (mkMerge ws q a (Resuming i) o) cs →
  ws !! i = Some (mkWorker rs p false) →
  merge_inv streams (mkMerge (<[i := mkWorker rs p true]> ws) q a (Resuming (i + 1)) o) cs.
Proof.
  intros Hi Hx. destruct (mi_workers _ _ _ Hi i _ Hx) as (c & Hc & Hw); simpl in *.
  rewrite Nat.leb_refl in Hw. inversion Hw as [| | | |rs' Ht Hcn Hfan Heq]; subst.
  assert (residual cs q (<[i := mkWorker rs true true]> ws) = residual cs q ws) as Hr.
  { eapply residual_insert; [exact Hx|exact Hc|done|]. by rewrite Hc. }
  destruct Hi as [H1 H2 H3 H4 H5 H6 H7 H8]; simpl in *.
  split; simpl; rewrite ?Hr, ?length_insert; try done.
  - intros v y Hy. destruct (decide (v = i)) as [->|Hne].
    + rewrite list_lookup_insert_eq in Hy by (by eapply lookup_lt_Some). simplify_eq.
      rewrite (proj2 (Nat.leb_gt (i + 1) i)) by lia. exists []. split; [done|].
      rewrite <- Hfan. constructor.
    + rewrite list_lookup_insert_ne in Hy by done. destruct (H2 v y Hy) as (c & ? & Hv).
      exists c. split; [done|]. replace (i + 1 <=? v)%nat with (i <=? v)%nat; [done|].
      destruct (Nat.leb_spec i v), (Nat.leb_spec (i + 1) v); lia || done.
  - intros _. apply H4. by destruct ws.
  - intros _. by apply H6.
Qed.

Lemma inv_step_loop streams ws q a o cs i :
  merge_inv streams (mkMerge ws q a (Resuming i) o) cs → (length ws ≤ i)%nat →
  merge_inv streams (mkMerge ws q a Receiving o) cs.
Proof.
  intros Hi Hl. destruct Hi as [H1 H2 H3 H4 H5 H6 H7 H8]; simpl in *. split; simpl; try done.
  intros w x Hw. destruct (H2 w x Hw) as (c & Hc & Hv). exists c. split; [done|].
  apply lookup_lt_Some in Hw. by rewrite (proj2 (Nat.leb_gt i w)) in Hv by lia.
Qed.

Lemma same_markers_lookup ss : same_markers ss ↔ ∃ ms, ∀ w s, ss !! w = Some s → markers s = ms.
Proof. unfold same_markers. by setoid_rewrite Forall_lookup. Qed.

Lemma markers_cons r l : markers (r :: l) = if isMarker r then r :: markers l else markers l.
Proof. unfold markers. rewrite filter_cons. by destruct (isMarker r). Qed.

(** A worker whose first record in [fanIn] is data. *)
Lemma winv_data aw c r f x : isMarker r = false → winv aw c (r :: f) x → aw = false ∧ c = [] ∧ winv false [] f x.
Proof.
  intros Hr Hw. inversion Hw as [f' rs Hd|f' m rs Hd Hm E1 E2 E3| | |]; subst.
  - apply Forall_cons in Hd as [_ ?]. split_and!; [done..|by constructor].
  - destruct f' as [|r' f']; simplify_eq/=; [congruence|]. apply Forall_cons in Hd as [_ ?].
    split_and!; [done..|by constructor].
Qed.

(** A worker whose first record in [fanIn] is a marker. *)
Lemma winv_marker aw c m f x : isMarker m = true → winv aw c (m :: f) x →
  aw = false ∧ c = [] ∧ f = [] ∧ ∃ rs, x = mkWorker rs true false.
Proof.
  intros Hm Hw. inversion Hw as [f' rs Hd|f' m' rs Hd Hm' E1 E2 E3| | |]; subst.
  - apply Forall_cons in Hd as [Hd _]. unfold is_data in Hd. congruence.
  - destruct f' as [|r' f']; simplify_eq/=; [eauto|]. apply Forall_cons in Hd as [Hd _].
    unfold is_data in Hd. congruence.
Qed.

Lemma inv_fan_head streams ws w r q a l o cs :
  merge_inv streams (mkMerge ws ((w, r) :: q) a l o) cs →
  ∃ x c, ws !! w = Some x ∧ cs !! w = Some c ∧ winv (awaiting l w) c (r :: fan q w) x.
Proof.
  intros Hi. pose proof (mi_fan _ _ _ Hi) as Hf. simpl in Hf. apply Forall_cons in Hf as [Hlt _].
  destruct (lookup_lt_is_Some_2 ws w Hlt) as [x Hx].
  destruct (mi_workers _ _ _ Hi w x Hx) as (c & Hc & Hw). simpl in Hw.
  rewrite fan_cons, decide_True in Hw by done. eauto.
Qed.

Lemma inv_step_data streams ws q a o cs w r :
  merge_inv streams (mkMerge ws ((w, r) :: q) a Receiving o) cs → isMarker r = false →
  merge_inv streams (mkMerge ws q a Receiving (o ++ [r])) cs.
Proof.
  intros Hi Hr. destruct (inv_fan_head _ _ _ _ _ _ _ _ _ Hi) as (x & c & Hx & Hc & Hw).
  apply winv_data in Hw as (_ & -> & Hw); [|done].
  assert (residual cs q ws = <[w := fan q w ++ rest x]> (residual cs ((w, r) :: q) ws)) as Hres.
  { pose proof (lookup_lt_Some _ _ _ Hx). apply list_eq. intros v.
    destruct (decide (v = w)) as [->|Hne].
    - rewrite list_lookup_insert_eq by (unfold residual; rewrite length_imap; done).
      by rewrite residual_lookup, Hx, Hc.
    - rewrite list_lookup_insert_ne, !residual_lookup, fan_cons, decide_False by done. done. }
  assert (residual cs ((w, r) :: q) ws !! w = Some (r :: fan q w ++ rest x)) as Hold
    by (by rewrite residual_lookup, Hx, Hc, fan_cons, decide_True).
  destruct Hi as [H1 H2 H3 H4 H5 H6 H7 H8]; simpl in *. split; simpl; try done.
  - intros v y Hy. destruct (H2 v y Hy) as (c & Hcv & Hv). exists c. split; [done|].
    rewrite fan_cons in Hv. case_decide; [subst; by simplify_eq|done].
  - by apply Forall_cons in H5 as [_ ?].
  - apply same_markers_lookup in H7 as [ms Hms]. apply same_markers_lookup. exists ms.
    intros v s. rewrite Hres. destruct (decide (v = w)) as [->|Hne].
    + rewrite list_lookup_insert_eq by (by eapply lookup_lt_Some). intros [= <-].
      apply Hms in Hold. by rewrite markers_cons, Hr in Hold.
    + rewrite list_lookup_insert_ne by done. apply Hms.
  - intros o' Ho. rewrite <- app_assoc. apply H8. eapply aligned_data; [done|done|].
    by rewrite <- Hres.
Qed.

(** Counting a marker. *)
Lemma inv_count streams ws q a o cs w r :
  merge_inv streams (mkMerge ws ((w, r) :: q) a Receiving o) cs → isMarker r = true →
  let cs' := <[w := [r]]> cs in
  length cs' = length ws ∧ counted cs' = S a
  ∧ residual cs' q ws = residual cs ((w, r) :: q) ws
  ∧ residual cs' q ws !! w ≫= head = Some r
  ∧ ∀ v y, ws !! v = Some y → ∃ c, cs' !! v = Some c ∧ winv false c (fan q v) y.
Proof.
  intros Hi Hr. destruct (inv_fan_head _ _ _ _ _ _ _ _ _ Hi) as (x & c & Hx & Hc & Hw).
  apply winv_marker in Hw as (_ & -> & Hf & rs & ->); [|done]. intros cs'.
  pose proof (lookup_lt_Some _ _ _ Hc) as Hlt.
  assert (cs' !! w = Some [r]) as Hcw by (by apply list_lookup_insert_eq).
  destruct Hi as [H1 H2 H3 H4 H5 H6 H7 H8]; simpl in *. split_and!.
  - unfold cs'. by rewrite length_insert.
  - unfold cs'. rewrite (counted_insert cs w []) by done. by rewrite H3.
  - rewrite <- (list_insert_id ws w _ Hx) at 1.
    eapply residual_insert; [exact Hx|exact Hc| |].
    + intros v Hv. split; [by rewrite fan_cons, decide_False|]. by apply list_lookup_insert_ne.
    + by rewrite Hcw, fan_cons, decide_True.
  - by rewrite residual_lookup, Hx, Hcw.
  - intros v y Hy. destruct (decide (v = w)) as [->|Hne].
    + simplify_eq. exists [r]. split; [done|]. rewrite Hf. by constructor.
    + destruct (H2 v y Hy) as (c & Hcv & Hv). exists c. unfold cs'.
      rewrite list_lookup_insert_ne by done. by rewrite fan_cons, decide_False in Hv by done.
Qed.

Lemma inv_step_hold streams ws q a o cs w r :
  merge_inv streams (mkMerge ws ((w, r) :: q) a Receiving o) cs → isMarker r = true →
  (a + 1 < length ws)%nat →
  merge_inv streams (mkMerge ws q (a + 1) Receiving o) (<[w := [r]]> cs).
Proof.
  intros Hi Hr Hlt. destruct (inv_count _ _ _ _ _ _ _ _ Hi Hr) as (Hl & Hcnt & Hres & _ & Hws).
  destruct Hi as [H1 H2 H3 H4 H5 H6 H7 H8]; simpl in *. split; simpl; rewrite ?Hres; try done.
  - rewrite Hcnt. lia.
  - by apply Forall_cons in H5 as [_ ?].
Qed.

Lemma inv_step_emit streams ws q a o cs w r :
  merge_inv streams (mkMerge ws ((w, r) :: q) a Receiving o) cs → isMarker r = true →
  (length ws ≤ a + 1)%nat →
  merge_inv streams (mkMerge ws q 0 (Resuming 0) (o ++ [r])) (replicate (length ws) []).
Proof.
  intros Hi Hr Hle. destruct (inv_count _ _ _ _ _ _ _ _ Hi Hr) as (Hl & Hcnt & Hres & Hhead & Hws).
  set (cs' := <[w := [r]]> cs) in *.
  assert (Hall : Forall (.≠ []) cs') by (apply counted_all; lia).
  assert (Hw : ∀ v y, ws !! v = Some y → ∃ m rs, cs' !! v = Some [m] ∧ isMarker m = true
    ∧ fan q v = [] ∧ y = mkWorker rs true false).
  { intros v y Hy. destruct (Hws v y Hy) as (c & Hc & Hv).
    rewrite Forall_lookup in Hall. specialize (Hall v c Hc). simpl in Hall. inversion Hv; subst; try done. eauto 10. }
  destruct Hi as [H1 H2 H3 H4 H5 H6 H7 H8]; simpl in *. rewrite <- Hres in H7, H8.
  assert (Hm : residual cs' q ws = (r ::.) <$> residual (replicate (length ws) []) q ws).
  { apply same_markers_lookup in H7 as [ms Hms]. apply list_eq. intros v.
    rewrite list_lookup_fmap, !residual_lookup. destruct (ws !! v) as [y|] eqn:Hy; [|done].
    destruct (Hw v y Hy) as (m & rs & Hc & Hmm & Hf & ->).
    rewrite Hc, Hf, lookup_replicate_2 by (by eapply lookup_lt_Some). simpl. do 2 f_equal.
    destruct (residual cs' q ws !! w) as [sw|] eqn:Esw; [|done]. destruct sw as [|r' sw]; [done|].
    injection Hhead as ->. apply Hms in Esw.
    assert (residual cs' q ws !! v = Some (m :: rs)) as Ev by (by rewrite residual_lookup, Hy, Hc, Hf).
    apply Hms in Ev. rewrite markers_cons, Hr in Esw. rewrite markers_cons, Hmm in Ev. congruence. }
  split; simpl.
  - by rewrite length_replicate.
  - intros v y Hy. destruct (Hw v y Hy) as (m & rs & Hc & Hmm & Hf & ->). exists [].
    rewrite lookup_replicate_2 by (by eapply lookup_lt_Some). rewrite Hf. split; [done|constructor].
  - by rewrite counted_none.
  - intros Hne. destruct ws; simpl; [done|lia].
  - by apply Forall_cons in H5 as [_ ?].
  - done.
  - rewrite Hm in H7. apply same_markers_lookup in H7 as [ms Hms]. apply same_markers_lookup.
    exists (tail ms). intros v s Hs. specialize (Hms v (r :: s)).
    rewrite list_lookup_fmap, Hs, markers_cons, Hr in Hms. by rewrite <- Hms.
  - intros o' Ho. rewrite <- app_assoc. apply H8. rewrite Hm. simpl. constructor; [|done|done].
    destruct ws; [by rewrite residual_lookup in Hhead|done].
Qed.

Lemma merge_inv_step streams s s' cs : merge_inv streams s cs → merge_step s s' →
  ∃ cs', merge_inv streams s' cs'.
Proof.
  intros Hi Hs. destruct Hs.
  - eauto using inv_step_forward.
  - eauto using inv_step_wake.
  - eauto using inv_step_data.
  - eauto using inv_step_hold.
  - eauto using inv_step_emit.
  - eauto using inv_step_resume.
  - eauto using inv_step_loop.
Qed.

Lemma merge_inv_reach streams s : same_markers streams → merge_reach (merge_init streams) s →
  ∃ cs, merge_inv streams s cs.
Proof.
  intros Hs. apply (rtc_ind_r (λ s, ∃ cs, merge_inv streams s cs) (merge_init streams)).
  - eauto using merge_inv_init.
  - intros y z _ Hst [cs Hi]. by eapply merge_inv_step.
Qed.

(** ** Progress and termination *)

(** When no forwarder can move, each has ended, or its marker was counted. *)
Definition settled (c : list Record_) (x : worker) : Prop :=
  (c = [] ∧ rest x = [] ∧ parked x = false) ∨ (c ≠ [] ∧ ∃ m, c = [m] ∧ isMarker m = true).

Lemma settled_or_step ws a o w x c :
  ws !! w = Some x → winv false c [] x →
  settled c x ∨ ∃ s', merge_step (mkMerge ws [] a Receiving o) s'.
Proof.
  intros Hx Hw. inversion Hw as [f rs Hd|f m rs Hd Hm E1 E2 E3|m rs Hm|rs|]; subst.
  - destruct rs as [|r rs].
    + left. by left.
    + right. eexists. eapply step_forward; [done|]. unfold internalBuf. simpl. lia.
  - by destruct f.
  - left. right. eauto.
  - right. eexists. by eapply step_wake.
Qed.

Lemma winv_await_token c f x : winv true c f x → ∃ rs, x = mkWorker rs true false.
Proof. inversion 1; eauto. Qed.

(** With nothing in [fanIn] and every forwarder settled, all have ended. *)
Lemma settled_done streams ws a o cs : merge_inv streams (mkMerge ws [] a Receiving o) cs →
  (∀ w x c, ws !! w = Some x → cs !! w = Some c → settled c x) →
  merge_done (mkMerge ws [] a Receiving o).
Proof.
  intros Hi Hs. split; [|done]. simpl. apply Forall_lookup. intros w x Hx.
  destruct (mi_workers _ _ _ Hi w x Hx) as (c & Hc & _).
  destruct (Hs w x c Hx Hc) as [(_ & ? & ?)|(Hne & m & -> & Hm)]; [done|exfalso].
  destruct Hi as [H1 H2 H3 H4 H5 H6 H7 H8]; simpl in *.
  assert (∃ v c', cs !! v = Some c' ∧ c' = []) as (v & c' & Hv & ->).
  { destruct (decide (Forall (.≠ []) cs)) as [Hall|Hn].
    - exfalso. assert (counted cs = length cs) as E.
      { unfold counted. by rewrite filter_all. }
      assert (ws ≠ []) as Hwne by (by intros ->). specialize (H4 Hwne). lia.
    - apply not_Forall_Exists in Hn; [|intros y; apply _].
      apply Exists_exists in Hn as (y & [v Hv]%list_elem_of_lookup & Hy). exists v, y.
      split; [done|]. by destruct (decide (y = [])). }
  apply same_markers_lookup in H7 as [ms Hms].
  assert (is_Some (ws !! v)) as [y Hy] by (apply lookup_lt_is_Some; rewrite <- H1; by eapply lookup_lt_Some).
  destruct (Hs v y [] Hy Hv) as [(_ & Hr & _)|[? _]]; [|done].
  assert (markers [] = ms) as <-.
  { apply (Hms v). rewrite residual_lookup, Hy, Hv, fan_nil. simpl. by rewrite Hr. }
  specialize (Hms w (m :: fan [] w ++ rest x)).
  rewrite residual_lookup, Hx, Hc in Hms. specialize (Hms eq_refl). by rewrite markers_cons, Hm in Hms.
Qed.

Lemma merge_inv_progress streams s cs : merge_inv streams s cs →
  merge_done s ∨ ∃ s', merge_step s s'.
Proof.
  intros Hi. destruct s as [ws q a [|i] o].
  - destruct q as [|[w r] q].
    + assert (Hcase : (∀ w x c, ws !! w = Some x → cs !! w = Some c → settled c x)
        ∨ ∃ s', merge_step (mkMerge ws [] a Receiving o) s').
      { pose proof (mi_workers _ _ _ Hi) as Hw. simpl in Hw.
        assert (Hall : ∀ ws', ws' `prefix_of` ws →
          (∀ w x c, ws' !! w = Some x → cs !! w = Some c → settled c x)
          ∨ ∃ s', merge_step (mkMerge ws [] a Receiving o) s').
        { intros ws'. induction ws' as [|x ws' IH] using rev_ind; intros Hp; [by left|].
          destruct IH as [Hl|?]; [by eapply prefix_app_l|..|by right].
          assert (ws !! length ws' = Some x) as Hx
            by (eapply prefix_lookup_Some; [|exact Hp]; by rewrite lookup_app_r, Nat.sub_diag).
          destruct (Hw _ x Hx) as (c & Hc & Hv).
          destruct (settled_or_step ws a o _ x c Hx Hv) as [?|?]; [left|by right].
          intros w y c' Hy Hc'. apply lookup_app_Some in Hy as [Hy|[Hge Hy]]; [by eapply Hl|].
          apply list_lookup_singleton_Some in Hy as [Hz ->].
          assert (w = length ws') as -> by lia. by simplify_eq. }
        by apply Hall. }
      destruct Hcase as [Hs|?]; [left|by right]. by eapply settled_done.
    + right. destruct (isMarker r) eqn:Em; [|eexists; by apply step_data].
      destruct (decide (a + 1 < length ws)%nat).
      * eexists. by apply step_hold.
      * eexists. apply step_emit; [done|lia].
  - right. destruct (decide (length ws ≤ i)%nat); [eexists; by apply step_loop|].
    destruct (lookup_lt_is_Some_2 ws i) as [x Hx]; [lia|].
    destruct (mi_workers _ _ _ Hi i x Hx) as (c & _ & Hw). simpl in Hw.
    rewrite Nat.leb_refl in Hw. apply winv_await_token in Hw as [rs ->].
    eexists. by eapply step_resume.
Qed.

(** Weight of a worker: a record still to forward outweighs one in [fanIn],
    which outweighs a whole round of resume tokens. *)
Definition fan_weight (n : nat) : nat := (2 * n + 2)%nat.
Definition worker_weight (n : nat) (x : worker) : nat :=
  (length (rest x) * (fan_weight n + 1) + (if token x then 1 else 0))%nat.
Definition mode_weight (n : nat) (l : mode) : nat :=
  match l with Receiving => 0 | Resuming i => 2 * (n - i) + 1 end%nat.

Definition merge_measure (s : merge_state) : nat :=
  let n := length (workers s) in
  (sum_list_with (worker_weight n) (workers s) + length (fanIn s) * fan_weight n
   + mode_weight n (loop s))%nat.

Lemma sum_insert {A} (f : A → nat) (l : list A) i x y : l !! i = Some x →
  (sum_list_with f (<[i := y]> l) + f x = sum_list_with f l + f y)%nat.
Proof.
  revert i. induction l as [|z l IH]; intros [|i] Hi; simplify_eq/=; [lia|].
  specialize (IH i Hi). lia.
Qed.

Lemma merge_measure_step s s' : merge_step s s' → (merge_measure s' < merge_measure s)%nat.
Proof.
  intros Hs. destruct Hs as [ws q a l o w r rs t Hx Hq|ws q a l o w rs Hx|ws q a o w r Hr|ws q a o w r Hr Hl
    |ws q a o w r Hr Hl|ws q a o i rs p Hx|ws q a o i Hl];
    unfold merge_measure; simpl; rewrite ?length_insert; set (n := length ws).
  - pose proof (sum_insert (worker_weight n) ws w _ (mkWorker rs (isMarker r) t) Hx) as Hs.
    unfold worker_weight in Hs at 2 4. simpl in Hs. rewrite length_app. simpl. lia.
  - pose proof (sum_insert (worker_weight n) ws w _ (mkWorker rs false false) Hx) as Hs.
    unfold worker_weight in Hs at 2 4. simpl in Hs. lia.
  - unfold fan_weight. lia.
  - unfold fan_weight. lia.
  - unfold fan_weight. lia.
  - pose proof (sum_insert (worker_weight n) ws i _ (mkWorker rs p true) Hx) as Hs.
    unfold worker_weight in Hs at 2 4. simpl in Hs. apply lookup_lt_Some in Hx. fold n in Hx. lia.
  - lia.
Qed.

Lemma merge_sn s : sn merge_step s.
Proof.
  remember (merge_measure s) as k eqn:Hk. revert s Hk. induction (lt_wf k) as [k _ IH].
  intros s ->. constructor. intros s' Hs. eapply IH; [by apply merge_measure_step|done].
Qed.

(** ** Correctness *)

Lemma merge_sound streams s : same_markers streams → merge_reach (merge_init streams) s →
  merge_done s → aligned streams (out s).
Proof.
  intros Hs Hr (Hw & Hq & Hl). destruct (merge_inv_reach _ _ Hs Hr) as [cs Hi].
  rewrite <- (app_nil_r (out s)). apply (mi_out _ _ _ Hi). constructor.
  apply Forall_lookup. intros w x. rewrite residual_lookup, Hq, fan_nil.
  destruct (workers s !! w) as [y|] eqn:Ey; [|done]. simpl. intros [= <-].
  destruct (mi_workers _ _ _ Hi w y Ey) as (c & Hc & Hv). rewrite Hl in Hv. simpl in Hv.
  rewrite Forall_lookup in Hw. destruct (Hw w y Ey) as [Hrest Hpk]. rewrite Hc, Hrest.
  inversion Hv; subst; done.
Qed.

Lemma merge_progress streams s : same_markers streams → merge_reach (merge_init streams) s →
  merge_done s ∨ ∃ s', merge_step s s'.
Proof. intros Hs Hr. destruct (merge_inv_reach _ _ Hs Hr) as [cs Hi]. by eapply merge_inv_progress. Qed.

Lemma merge_can_finish streams s : same_markers streams → merge_reach (merge_init streams) s →
  ∃ s', merge_reach s s' ∧ merge_done s'.
Proof.
  intros Hs. induction (merge_sn s) as [s _ IH]. intros Hr.
  destruct (merge_progress streams s Hs Hr) as [?|[s' Hst]]; [exists s; split; [constructor|done]|].
  destruct (IH s' Hst) as (s'' & Hr'' & Hd); [by eapply rtc_r|].
  exists s''. split; [|done]. by eapply rtc_l.
Qed.

(** C14: Whatever the interleaving of the workers, a finished aligned merge
    outputs the streams epoch by epoch: the data of each epoch from all
    workers, then the marker once. *)
Theorem merge_refines_aligned (streams : list (list Record_)) (s : merge_state) :
  same_markers streams → merge_reach (merge_init streams) s → merge_done s →
  aligned streams (out s).
Proof. apply merge_sound. Qed.

(** C15: When all workers carry the same markers, every run of the aligned
    merge is finite, is never stuck before it is done, and can be completed
    from any reachable state. *)
Theorem merge_always_finishes (streams : list (list Record_)) (s : merge_state) :
  same_markers streams → merge_reach (merge_init streams) s →
  sn merge_step s ∧ (merge_done s ∨ ∃ s', merge_step s s')
  ∧ ∃ s', merge_reach s s' ∧ merge_done s'.
Proof. eauto using merge_sn, merge_progress, merge_can_finish. Qed.

(** If one worker closes while another holds a marker, the aligned
    merge can get stuck: the marker and the data after it are never emitted. *)
Theorem merge_early_close_stuck :
  let m := NewBarrier (bs "chk-1") in
  let d := NewRecord 1 (bs "k") (bs "v") in
  ∃ s, merge_reach (merge_init [[m; d]; []]) s
    ∧ ¬ merge_done s ∧ (∀ s', ¬ merge_step s s') ∧ out s = [].
Proof.
  intros m d.
  exists (mkMerge [mkWorker [d] true false; mkWorker [] false false] [] 1 Receiving []). split_and!.
  - eapply rtc_l.
    { apply (step_forward _ _ _ _ _ 0 m [d] false); [done|]. unfold internalBuf. simpl. lia. }
    eapply rtc_once. apply (step_hold _ [] 0 [] 0 m); [done|simpl; lia].
  - intros (Hw & _ & _). apply Forall_cons in Hw as [[? _] _]. done.
  - intros s' Hst. inversion Hst as [ws q a l o w r rs t Hx|ws q a l o w rs Hx| | | | |]; subst;
      (destruct w as [|[|w]]; simplify_eq/=).
  - done.
Qed.

(** ** Witnesses *)

Definition demo_marker : Record_ := NewBarrier (bs "chk-1").
Definition demo_data : Record_ := NewRecord 1 (bs "k") (bs "v").
Definition demo_streams : list (list Record_) := [[demo_data; demo_marker]; [demo_marker]].
Definition demo_end : merge_state :=
  mkMerge [mkWorker [] false false; mkWorker [] false false] [] 0 Receiving [demo_data; demo_marker].

Lemma demo_same : same_markers demo_streams.
Proof. exists [demo_marker]. by repeat constructor. Qed.

(** Run the steps of a concrete execution. *)
Ltac merge_go := eapply rtc_l; [first
  [ eapply step_data; reflexivity
  | eapply step_hold; [reflexivity|simpl; lia]
  | eapply step_emit; [reflexivity|simpl; lia]
  | eapply step_loop; simpl; lia
  | eapply step_resume; reflexivity ]|]; cbn.
Ltac merge_forward w := eapply rtc_l; [eapply (step_forward _ _ _ _ _ w); [reflexivity|unfold internalBuf; simpl; lia]|]; cbn.
Ltac merge_wake w := eapply rtc_l; [eapply (step_wake _ _ _ _ _ w); reflexivity|]; cbn.

Lemma demo_run : merge_reach (merge_init demo_streams) demo_end.
Proof.
  unfold merge_reach, merge_init, demo_streams. cbn.
  merge_forward 0%nat. merge_forward 1%nat. merge_forward 0%nat.
  merge_go. merge_go. merge_go. merge_go. merge_go. merge_go.
  merge_wake 0%nat. merge_wake 1%nat. constructor.
Qed.

Lemma merge_refines_aligned_witness : aligned demo_streams [demo_data; demo_marker].
Proof.
  apply (merge_refines_aligned demo_streams demo_end); [apply demo_same|apply demo_run|].
  split; [by repeat constructor|done].
Defined.

Lemma merge_always_finishes_witness :
  sn merge_step (merge_init demo_streams)
  ∧ (merge_done (merge_init demo_streams) ∨ ∃ s', merge_step (merge_init demo_streams) s')
  ∧ ∃ s', merge_reach (merge_init demo_streams) s' ∧ merge_done s'.
Proof. apply (merge_always_finishes demo_streams); [apply demo_same|constructor]. Defined.
