(* ===== verification/Parallel.v ===== *)
(** * Parallel stages: dispatcher, workers and aligned merge together

    [StatelessStage.runParallel] ([src/pipeline/stateless_stage.go]) and
    [KeyedStage.Run] ([src/pipeline/keyed_stage.go]) run a dispatcher, [n]
    workers and [alignedMerge].  A worker is a function from its queue to its
    output, so an execution of the stage is an execution of the merge over the
    workers' outputs.

    [epoch_perm] is the guarantee a parallel stage gives: the same markers in
    the same order, and between two markers the same data in any order. *)

From S2P Require Import Prelude Record KeyBy Stateless Merge.
From Stdlib Require Import Setoid Morphisms.

(** ** Equal up to reordering between markers *)

Inductive epoch_perm : list Record_ → list Record_ → Prop :=
| ep_nil : epoch_perm [] []
| ep_skip r l l' : epoch_perm l l' → epoch_perm (r :: l) (r :: l')
| ep_swap r r' l : is_data r → is_data r' → epoch_perm (r :: r' :: l) (r' :: r :: l)
| ep_trans l1 l2 l3 : epoch_perm l1 l2 → epoch_perm l2 l3 → epoch_perm l1 l3.

#[export] Instance epoch_perm_equiv : Equivalence epoch_perm.
Proof.
  split.
  - intros l. induction l; by constructor.
  - intros l l' H. induction H; [constructor|by constructor|by constructor|by eapply ep_trans].
  - intros l1 l2 l3. apply ep_trans.
Qed.

#[export] Instance epoch_perm_cons : Proper (eq ==> epoch_perm ==> epoch_perm) cons.
Proof. intros r _ <- l l' H. by constructor. Qed.

#[export] Instance epoch_perm_app_l l : Proper (epoch_perm ==> epoch_perm) (app l).
Proof. intros l1 l2 H. induction l; simpl; [done|]. by constructor. Qed.

(** A data record moves over data records. *)
Lemma epoch_perm_middle r l l' : is_data r → Forall is_data l → epoch_perm (r :: l ++ l') (l ++ r :: l').
Proof.
  intros Hr Hl. induction Hl as [|x l Hx _ IH]; simpl; [reflexivity|].
  rewrite <- IH. by apply ep_swap.
Qed.

Lemma epoch_perm_Permutation l l' : epoch_perm l l' → l ≡ₚ l'.
Proof. induction 1; [done|by constructor|by constructor|by etrans]. Qed.

Lemma epoch_perm_markers l l' : epoch_perm l l' → markers l = markers l'.
Proof.
  induction 1 as [|r l l' _ IH|r r' l Hr Hr'|l1 l2 l3 _ IH1 _ IH2]; rewrite ?markers_cons.
  - done.
  - by rewrite IH.
  - by rewrite Hr, Hr'.
  - by rewrite IH1.
Qed.

(** ** Any aligned interleaving of delivered queues *)

(** Markers go to everybody, data to one of the [n] workers. *)
Definition addr_ok (n : nat) (a : addressed) : Prop :=
  match a.1 with None => isMarker a.2 = true | Some w => is_data a.2 ∧ (w < n)%nat end.

(** The first record of a queue: what precedes it went to other workers. *)
Lemma queue_of_head items w r rs : queue_of items w = r :: rs →
  ∃ i1 o i2, items = i1 ++ (o, r) :: i2 ∧ for_worker w (o, r)
    ∧ Forall (λ a, ¬ for_worker w a) i1 ∧ rs = queue_of i2 w.
Proof.
  induction items as [|[o x] items IH]; [done|].
  rewrite queue_of_cons. unfold queue_of at 1. rewrite filter_cons.
  destruct (decide (for_worker w (o, x))) as [Hf|Hf].
  - intros E. simpl in E. injection E as -> <-. exists [], o, items. by split_and!.
  - intros (i1 & o' & i2 & -> & ? & ? & ?)%IH. exists ((o, x) :: i1), o', i2.
    split_and!; [done|done| |done]. by constructor.
Qed.

Lemma queue_of_skip i1 w : Forall (λ a, ¬ for_worker w a) i1 → queue_of i1 w = [].
Proof. intros H. unfold queue_of. by rewrite filter_none. Qed.

Lemma not_for_worker_data n w i1 : Forall (addr_ok n) i1 → Forall (λ a, ¬ for_worker w a) i1 →
  Forall is_data i1.*2.
Proof.
  intros Hok Hn. apply Forall_fmap. rewrite Forall_lookup in *. intros i a Ha.
  specialize (Hok i a Ha). specialize (Hn i a Ha). destruct a as [[v|] x]; simpl; [by destruct Hok|].
  exfalso. apply Hn. by left.
Qed.

Lemma deliver_remove n i1 i2 w r : (w < n)%nat → Forall (λ a, ¬ for_worker w a) i1 →
  <[w := queue_of i2 w]> (deliver n (i1 ++ (Some w, r) :: i2)) = deliver n (i1 ++ i2).
Proof.
  intros Hw Hn. apply list_eq_same_length with n; [by rewrite length_deliver|by rewrite length_insert, length_deliver|].
  intros v x y Hv. rewrite deliver_lookup by lia. rewrite queue_of_app.
  destruct (decide (v = w)) as [->|Hne].
  - rewrite list_lookup_insert_eq by (by rewrite length_deliver). rewrite (queue_of_skip i1) by done.
    by intros [= <-] [= <-].
  - rewrite list_lookup_insert_ne by done. rewrite deliver_lookup by done.
    rewrite queue_of_app, (queue_of_cons (Some w, r)), queue_of_Some, decide_False by congruence.
    by intros [= <-] [= <-].
Qed.

Lemma deliver_all_empty n items : (0 < n)%nat → Forall (addr_ok n) items →
  Forall (.= []) (deliver n items) → items = [].
Proof.
  intros Hn Hok He. destruct items as [|[o r] items]; [done|exfalso].
  apply Forall_cons in Hok as [Hok _].
  set (w := default 0%nat o). assert (w < n)%nat as Hw by (destruct o; simpl in *; [by destruct Hok|done]).
  rewrite Forall_lookup in He. specialize (He w _ (deliver_lookup n _ w Hw)).
  rewrite queue_of_cons in He. destruct o as [v|]; subst w.
  - change (default 0%nat (Some v)) with v in He. by rewrite queue_of_Some, decide_True in He by done.
  - by rewrite queue_of_None in He.
Qed.

(** All queues start with the same marker: so does the addressed stream. *)
Lemma deliver_marker n items m ss : (0 < n)%nat → Forall (addr_ok n) items → isMarker m = true →
  deliver n items = (m ::.) <$> ss → ∃ items', items = (None, m) :: items' ∧ ss = deliver n items'.
Proof.
  intros Hn Hok Hm He.
  assert (Hq : ∀ w, (w < n)%nat → ∃ s, ss !! w = Some s ∧ queue_of items w = m :: s).
  { intros w Hw. pose proof (deliver_lookup n items w Hw) as Hd. rewrite He, list_lookup_fmap in Hd.
    destruct (ss !! w) as [s|]; simplify_eq/=. eauto. }
  assert (length ss = n) as Hl by (apply (f_equal length) in He; by rewrite length_deliver, length_fmap in He).
  destruct items as [|[o r] items].
  { destruct (Hq 0%nat Hn) as (? & _ & ?). done. }
  apply Forall_cons in Hok as [Ho _].
  assert (o = None) as ->.
  { destruct o as [w|]; [|done]. destruct Ho as [Hd Hw]. simpl in *. destruct (Hq w Hw) as (s & _ & E).
    rewrite queue_of_cons, queue_of_Some, decide_True in E by done. simplify_eq/=. unfold is_data in Hd. congruence. }
  assert (r = m) as ->.
  { destruct (Hq 0%nat Hn) as (s & _ & E). rewrite queue_of_cons, queue_of_None in E. by simplify_eq/=. }
  exists items. split; [done|].
  apply list_eq_same_length with n; [by rewrite length_deliver|done|].
  intros w x y Hw. destruct (Hq w Hw) as (s & Hs & E). rewrite deliver_lookup by done.
  rewrite queue_of_cons, queue_of_None in E. simplify_eq/=. rewrite Hs. by intros [= <-] [= <-].
Qed.

Lemma aligned_deliver n items o : (0 < n)%nat → Forall (addr_ok n) items →
  aligned (deliver n items) o → epoch_perm o items.*2.
Proof.
  intros Hn Hok Ha. remember (deliver n items) as ss eqn:Hss. revert items Hok Hss.
  induction Ha as [ss He|ss w r rs o Hw Hr Ha IH|ss m o Hne Hm Ha IH]; intros items Hok Hss.
  - subst ss. apply deliver_all_empty in He; [|done..]. by subst.
  - subst ss. pose proof (lookup_lt_Some _ _ _ Hw) as Hlt. rewrite length_deliver in Hlt.
    rewrite deliver_lookup in Hw by done. injection Hw as Hw.
    apply queue_of_head in Hw as (i1 & o' & i2 & -> & Hf & Hn1 & ->).
    apply Forall_app in Hok as [Hok1 Hok2]. apply Forall_cons in Hok2 as [Ho Hok2].
    assert (o' = Some w) as ->.
    { destruct Hf as [Hf|Hf]; simpl in Hf; [|done]. subst. unfold addr_ok in Ho. simpl in Ho. congruence. }
    rewrite (IH (i1 ++ i2)); [|by apply Forall_app|by apply deliver_remove].
    rewrite !fmap_app, fmap_cons. simpl. apply epoch_perm_middle; [done|].
    by eapply not_for_worker_data.
  - symmetry in Hss. apply deliver_marker in Hss as (items' & -> & ->); [|done..].
    apply Forall_cons in Hok as [_ Hok]. rewrite fmap_cons. simpl. rewrite (IH items'); done.
Qed.

(** ** Workers *)

(** Stream functions that act record by record. *)
Definition per_record (F : Record_ → list Record_) (a : addressed) : list addressed :=
  (λ r, (a.1, r)) <$> F a.2.

Lemma queue_of_per_record F items w :
  queue_of (flat_map (per_record F) items) w = flat_map F (queue_of items w).
Proof.
  induction items as [|[o r] items IH]; [done|]. cbn [flat_map].
  rewrite queue_of_app, IH, queue_of_cons, flat_map_app. f_equal.
  unfold per_record, queue_of. simpl. rewrite filter_cons.
  destruct (decide (for_worker w (o, r))) as [Hf|Hf]; simpl.
  - rewrite app_nil_r, filter_all; [|apply Forall_fmap, Forall_true; done].
    rewrite <- list_fmap_compose. apply list_fmap_id.
  - rewrite filter_none; [done|]. apply Forall_fmap, Forall_true. done.
Qed.

Lemma snd_per_record F items : (flat_map (per_record F) items).*2 = flat_map F items.*2.
Proof.
  induction items as [|[o r] items IH]; [done|]. rewrite fmap_cons. cbn [flat_map].
  rewrite fmap_app, IH. f_equal. unfold per_record. rewrite <- list_fmap_compose. apply list_fmap_id.
Qed.

Lemma addr_ok_per_record n f items : (∀ r, is_data r → Forall is_data (f r)) →
  Forall (addr_ok n) items → Forall (addr_ok n) (flat_map (per_record (on_data f)) items).
Proof.
  intros Hf Hok. apply Forall_flat_map. eapply Forall_impl; [exact Hok|].
  intros [[w|] r] Ha; unfold per_record, on_data; simpl in *.
  - destruct Ha as [Hd Hw]. simpl in *. rewrite Hd. apply Forall_fmap.
    eapply Forall_impl; [by apply Hf|]. by split.
  - unfold addr_ok in Ha. simpl in Ha. rewrite Ha. by repeat constructor.
Qed.

Lemma addr_ok_rr n next input : 1 ≤ n → 0 ≤ next < n → Forall (addr_ok (Z.to_nat n)) (rr_address n next input).
Proof.
  intros Hn. revert next. induction input as [|r input IH]; intros next Hx; simpl; [done|].
  destruct (isMarker r) eqn:Em; constructor; auto.
  - split; [done|]. simpl. lia.
  - apply IH, Z.rem_bound_pos; lia.
Qed.

Lemma addr_ok_keyed op (input : list Record_) : 1 ≤ Partitions op →
  Forall (addr_ok (Z.to_nat (Partitions op))) (keyed_address op <$> input).
Proof.
  intros Hp. apply Forall_fmap, Forall_true. intros r. unfold addr_ok, keyed_address. simpl.
  destruct (isMarker r) eqn:Em; simpl; [done|]. split; [by unfold is_data; rewrite isMarker_setKey|].
  pose proof (RouteKey_range op (SelectKey op r) Hp). unfold Route. lia.
Qed.

Lemma markers_queue_of n items w : Forall (addr_ok n) items → markers (queue_of items w) = markers items.*2.
Proof.
  induction 1 as [|[[v|] r] items Ha _ IH]; [done|..]; rewrite queue_of_cons, fmap_cons; cbn [snd].
  - destruct Ha as [Hd _]. simpl in Hd. rewrite queue_of_Some, markers_cons, Hd, <- IH.
    case_decide; simpl; [|done]. by rewrite markers_cons, Hd.
  - unfold addr_ok in Ha. simpl in Ha. rewrite queue_of_None, markers_cons, Ha, <- IH. simpl.
    by rewrite markers_cons, Ha.
Qed.

Lemma deliver_same_markers n items : Forall (addr_ok n) items → same_markers (deliver n items).
Proof.
  intros Hok. exists (markers items.*2). apply Forall_fmap, Forall_true. intros w. by apply (markers_queue_of n).
Qed.

(** ** The parallel stateless stage *)

(** The workers' outputs in [runParallel]. *)
Definition worker_outs (stage : bytes) (ops : list SingleProcessor) (queues : list (list Record_))
    : list (list Record_) :=
  (λ q, (runWorker stage ops [] q).1.1) <$> queues.

(** [RunParallel n stage ops input o]: some execution of [runParallel] with [n]
    workers on [input] runs to its end with output [o]. *)
Definition RunParallel (n : Z) (stage : bytes) (ops : list SingleProcessor) (input o : list Record_) : Prop :=
  ∃ queues s, dispatch n 0 (replicate (Z.to_nat n) []) input = Ok queues
    ∧ merge_reach (merge_init (worker_outs stage ops queues)) s ∧ merge_done s ∧ out s = o.

Lemma worker_outs_deliver stage ops fs n items : Forall2 acts_as ops fs →
  worker_outs stage ops (deliver n items)
  = deliver n (flat_map (per_record (on_data (λ r, apply_chain fs [r]))) items).
Proof.
  intros Ha. unfold worker_outs, deliver. rewrite <- list_fmap_compose. apply list_fmap_ext.
  intros _ w _. simpl. rewrite queue_of_per_record.
  destruct (runWorker_acts stage ops fs [] (queue_of items w) Ha) as [dlq' ->]. done.
Qed.

Lemma apply_chain_data ops fs rs : Forall2 acts_as ops fs → Forall is_data rs → Forall is_data (apply_chain fs rs).
Proof.
  intros Ha. revert rs. induction Ha as [|op f ops fs Ha _ IH]; intros rs Hd; [done|].
  rewrite apply_chain_cons. apply IH. by eapply acts_as_data.
Qed.

Lemma dispatched n input : 1 ≤ n →
  dispatch n 0 (replicate (Z.to_nat n) []) input = Ok (deliver (Z.to_nat n) (rr_address n 0 input)).
Proof. intros Hn. by rewrite <- deliver_nil, dispatch_deliver by lia. Qed.

(** A parallel stateless stage can always finish and, for operators
    without failures, its output equals the sequential stage's output up to
    the order of data within an epoch. *)
Theorem parallel_stage_correct (n : Z) (stage : bytes) (ops : list SingleProcessor)
    (fs : list (Record_ → list Record_)) (input : list Record_) :
  1 ≤ n → Forall2 acts_as ops fs →
  (∃ o, RunParallel n stage ops input o)
  ∧ ∀ o, RunParallel n stage ops input o → epoch_perm o (runWorker stage ops [] input).1.1.
Proof.
  intros Hn Ha. unfold RunParallel. rewrite dispatched by done.
  set (items := flat_map (per_record (on_data (λ r, apply_chain fs [r]))) (rr_address n 0 input)).
  assert (Forall (addr_ok (Z.to_nat n)) items) as Hok.
  { apply addr_ok_per_record; [|apply addr_ok_rr; lia]. intros r Hr.
    apply (apply_chain_data ops); [done|]. by constructor. }
  assert (worker_outs stage ops (deliver (Z.to_nat n) (rr_address n 0 input)) = deliver (Z.to_nat n) items) as Ho
    by (by apply worker_outs_deliver).
  split.
  - destruct (merge_can_finish (deliver (Z.to_nat n) items) (merge_init (deliver (Z.to_nat n) items)))
      as (s & Hr & Hd); [by apply deliver_same_markers|constructor|].
    exists (out s), (deliver (Z.to_nat n) (rr_address n 0 input)), s. by rewrite Ho.
  - intros o (queues & s & [= <-] & Hr & Hd & <-). rewrite Ho in Hr.
    apply merge_sound in Hr; [|by apply deliver_same_markers|done].
    apply aligned_deliver in Hr; [|lia|done]. rewrite Hr. unfold items. rewrite snd_per_record, rr_address_snd.
    destruct (runWorker_acts stage ops fs [] input Ha) as [dlq' ->]. reflexivity.
Qed.

Lemma parallel_stage_correct_witness :
  (∃ o, RunParallel 2 (bs "stateless-0") demo_ops demo_input o)
  ∧ ∀ o, RunParallel 2 (bs "stateless-0") demo_ops demo_input o →
      epoch_perm o (runWorker (bs "stateless-0") demo_ops [] demo_input).1.1.
Proof.
  apply (parallel_stage_correct 2 (bs "stateless-0") demo_ops demo_fs demo_input); [lia|apply demo_acts].
Defined.

(** ** The keyed stage *)

(** [RunKeyed op chain input o]: some execution of [KeyedStage.Run] ends with
    output [o]; [chain w] is what worker [w]'s operators make of its queue. *)
Definition RunKeyed (op : KeyByOperator) (chain : nat → list Record_ → list Record_)
    (input o : list Record_) : Prop :=
  ∃ queues s, route op (replicate (Z.to_nat (Partitions op)) []) input = Ok queues
    ∧ merge_reach (merge_init (imap chain queues)) s ∧ merge_done s ∧ out s = o.

(** What the workers do to the markers, the same in each: a reduce passes all of
    them on, a window operator consumes the watermarks. *)
Definition marker_map (chain : nat → list Record_ → list Record_) (g : list Record_ → list Record_) : Prop :=
  ∀ w q, markers (chain w q) = g (markers q).

Lemma aligned_markers ss o : aligned ss o → ∀ w s, ss !! w = Some s → markers s = markers o.
Proof.
  induction 1 as [ss He|ss v r rs o Hv Hr _ IH|ss m o Hne Hm _ IH]; intros w s Hs.
  - rewrite Forall_lookup in He. apply He in Hs as ->. done.
  - rewrite markers_cons, Hr. destruct (decide (w = v)) as [->|Hn].
    + simplify_eq. rewrite markers_cons, Hr. apply (IH v). apply list_lookup_insert_eq. by eapply lookup_lt_Some.
    + apply (IH w). by rewrite list_lookup_insert_ne.
  - rewrite list_lookup_fmap in Hs. destruct (ss !! w) as [s'|] eqn:E; simplify_eq/=.
    rewrite !markers_cons, Hm. by rewrite (IH w s').
Qed.


