(* ===== verification/Reduce.v ===== *)
(** * The keyed reduce operator ([src/operator/reduce.go])

    The operator keeps one accumulator per state key in the ["reduce"]
    namespace of its backend; for windowed records the state key carries the
    window bounds, and the accumulators of closed windows are evicted when the
    window frontier moves.

    The model is parametric in the backend ([StateBackend]) and in the text of
    instants ([TimeText]).  [Process] is one iteration of the operator's loop;
    it also returns what the barrier callback receives.  [Snapshot] returns the
    struct that the code marshals to JSON, [Restore] takes it.

    The specification [spec_step] never evicts; the theorem is that eviction is
    invisible to a stream that respects the frontier. *)

From S2P Require Import Prelude Record Rfc3339 Decimal State.
From Stdlib Require Import Strings.Byte.

(** ** State keys *)

Definition h_window_start : bytes := bs "window_start".
Definition h_window_end : bytes := bs "window_end".
Definition h_window_lateness : bytes := bs "window_allowed_lateness_nanos".

(** [StateKey]; a missing [window_end] reads as the empty string. *)
Definition StateKey (r : Record_) : bytes :=
  match Headers r !! h_window_start with
  | Some ws => Key r ++ [slash] ++ ws ++ [slash] ++ default [] (Headers r !! h_window_end)
  | None => Key r
  end.

(** Split at the last slash: [s[:i]] and [s[i+1:]] for
    [i = strings.LastIndex(s, "/")]. *)
Fixpoint split_last (s : bytes) : option (bytes * bytes) :=
  match s with
  | [] => None
  | b :: s' =>
      match split_last s' with
      | Some (p, q) => Some (b :: p, q)
      | None => if decide (b = slash) then Some ([], s') else None
      end
  end.

Section reduce.
Context {TT : TimeText} {B : Type} {SB : StateBackend B} {SL : StateBackendLaws B}.

Definition stateKeyWindowEnd (sk : bytes) : option time :=
  '(pre, last) ← split_last sk;
  '(_, first) ← split_last pre;
  _ ← of_text first;
  of_text last.

(** [windowAllowedLateness] *)
Definition windowAllowedLateness (r : Record_) : duration :=
  match Headers r !! h_window_lateness with
  | None => 0
  | Some raw => match ParseInt raw with
                | None => 0
                | Some n => if n <=? 0 then 0 else n
                end
  end.

(** ** The operator *)

(** [ReduceFn]; no accumulator yet is [None]. *)
Definition ReduceFn := option bytes → Record_ → bytes.

(** What the barrier callback receives: the state, or the marker (or error) of
    a native snapshot. *)
Inductive snapshot :=
| Serialized (entries : gmap bytes bytes)
| Native (r : result bytes).

(** [ReduceOperator].  [barrierSnapshot] tells whether the callback is set. *)
Record ReduceOperator := mkReduce {
  Fn : ReduceFn;
  backend : B;
  barrierSnapshot : bool;
  nativeSnapshot : option (bytes → B → result bytes);
  windowFrontier : time
}.

Definition set_backend (op : ReduceOperator) (b : B) : ReduceOperator :=
  mkReduce (Fn op) b (barrierSnapshot op) (nativeSnapshot op) (windowFrontier op).
Definition set_frontier (op : ReduceOperator) (f : time) : ReduceOperator :=
  mkReduce (Fn op) (backend op) (barrierSnapshot op) (nativeSnapshot op) f.

(** [Reduce] and [Clone], with the backend the engine assigns. *)
Definition Reduce (fn : ReduceFn) (b : B) : ReduceOperator := mkReduce fn b false None zeroTime.
Definition Clone (op : ReduceOperator) (fresh : B) : ReduceOperator :=
  mkReduce (Fn op) fresh false None zeroTime.

(** The state handle [op.backend.ValueState("reduce")]. *)
Definition vs : handle := open_ns (bs "reduce").
Definition at_key (k : bytes) : handle := SetKey vs k.

(** [evictClosedWindows] *)
Definition is_stale (frontier : time) (k : bytes) : bool :=
  match stateKeyWindowEnd k with Some e => Before e frontier | None => false end.

Definition evictClosedWindows (op : ReduceOperator) : ReduceOperator :=
  let stale := filter (λ k, is_stale (windowFrontier op) k = true) (vs_Keys (backend op) vs) in
  set_backend op (foldl (λ b k, vs_Clear b (at_key k)) (backend op) stale).

(** The frontier a windowed record moves to. *)
Definition record_frontier (r : Record_) : option time :=
  raw ← Headers r !! h_window_end;
  e ← of_text raw;
  let allowed := windowAllowedLateness r in
  let frontier := Add e (- allowed) in
  Some (if 0 <? allowed then Add frontier 1 else frontier).

(** [advanceWindowFrontier] *)
Definition advanceWindowFrontier (op : ReduceOperator) (r : Record_) : ReduceOperator :=
  match record_frontier r with
  | None => op
  | Some frontier =>
      if negb (After frontier (windowFrontier op)) then op
      else evictClosedWindows (set_frontier op frontier)
  end.

(** [Snapshot] and [Restore], around the JSON text. *)
Definition Snapshot (op : ReduceOperator) : gmap bytes bytes := vs_SnapshotAll (backend op) vs.
Definition Restore (op : ReduceOperator) (entries : gmap bytes bytes) : ReduceOperator :=
  set_backend op (vs_RestoreAll (backend op) vs entries).

(** The record emitted for an update. *)
Definition update_record (r : Record_) (newAccum : bytes) : Record_ :=
  mkRecord (Key r) newAccum (Timestamp r) (Offset r) 0 [] (Headers r) false false [].

Definition barrier_snapshot (op : ReduceOperator) (id : bytes) : list (bytes * snapshot) :=
  if barrierSnapshot op then
    [(id, match nativeSnapshot op with
          | Some f => Native (f id (backend op))
          | None => Serialized (Snapshot op)
          end)]
  else [].

(** One iteration of [Process]: output and snapshots taken. *)
Definition Process (op : ReduceOperator) (r : Record_)
    : ReduceOperator * list Record_ * list (bytes * snapshot) :=
  if IsWatermark r then (op, [r], [])
  else if IsBarrier r then (op, [r], barrier_snapshot op (CheckpointID r))
  else
    let sk := StateKey r in
    let accum := vs_Get (backend op) (at_key sk) in
    let newAccum := Fn op accum r in
    let op1 := set_backend op (vs_Set (backend op) (at_key sk) newAccum) in
    (advanceWindowFrontier op1 r, [update_record r newAccum], []).

Fixpoint run_reduce (op : ReduceOperator) (input : list Record_) : ReduceOperator * list Record_ :=
  match input with
  | [] => (op, [])
  | r :: input' =>
      let '(op1, o, _) := Process op r in
      let '(op2, os) := run_reduce op1 input' in (op2, o ++ os)
  end.

(** ** Specification: accumulators that live forever *)

Definition spec_step (fn : ReduceFn) (h : bytes → option bytes) (r : Record_)
    : (bytes → option bytes) * list Record_ :=
  if isMarker r then (h, [r])
  else
    let a := fn (h (StateKey r)) r in
    (λ k, if decide (k = StateKey r) then Some a else h k, [update_record r a]).

Fixpoint spec_run (fn : ReduceFn) (h : bytes → option bytes) (input : list Record_) : list Record_ :=
  match input with
  | [] => []
  | r :: input' => let '(h', o) := spec_step fn h r in o ++ spec_run fn h' input'
  end.

(** The frontier after a record. *)
Definition next_frontier (f : time) (r : Record_) : time :=
  if isMarker r then f
  else match record_frontier r with Some g => if After g f then g else f | None => f end.

(** No record belongs to a window that ended below the frontier reached before
    it: what a window operator upstream guarantees. *)
Fixpoint in_order (f : time) (input : list Record_) : Prop :=
  match input with
  | [] => True
  | r :: input' =>
      (is_data r → is_stale f (StateKey r) = false) ∧ in_order (next_frontier f r) input'
  end.

(** ** Eviction *)

Lemma vs_Get_fold_Clear b ks k : sb_inv b →
  sb_inv (foldl (λ b k, vs_Clear b (at_key k)) b ks)
  ∧ vs_Get (foldl (λ b k, vs_Clear b (at_key k)) b ks) (at_key k)
    = if decide (k ∈ ks) then None else vs_Get b (at_key k).
Proof.
  revert b. induction ks as [|k' ks IH]; intros b Hb; cbn [foldl].
  - split; [done|]. rewrite decide_False; [done|]. apply not_elem_of_nil.
  - destruct (IH (vs_Clear b (at_key k')) (vs_Clear_inv _ _ Hb)) as [Hi ->]. split; [done|].
    rewrite vs_Get_Clear by done.
    destruct (decide (k ∈ ks)) as [Hin|Hnin]; [by rewrite decide_True by (by right)|].
    destruct (decide (k' = k)) as [->|Hne].
    + rewrite !decide_True by (done || left). done.
    + rewrite !decide_False; [done| |].
      * intros [->|?]%elem_of_cons; done.
      * intros E. apply (f_equal h_key) in E. done.
Qed.

Lemma evict_Get op k : sb_inv (backend op) →
  sb_inv (backend (evictClosedWindows op))
  ∧ vs_Get (backend (evictClosedWindows op)) (at_key k)
    = if is_stale (windowFrontier op) k then None else vs_Get (backend op) (at_key k).
Proof.
  intros Hb. unfold evictClosedWindows. simpl.
  set (st := filter _ _). destruct (vs_Get_fold_Clear (backend op) st k Hb) as [Hi ->].
  split; [done|]. destruct (is_stale (windowFrontier op) k) eqn:Es.
  - destruct (decide (k ∈ st)) as [|Hn]; [done|].
    destruct (vs_Get (backend op) (at_key k)) eqn:Eg; [|done]. exfalso. apply Hn.
    apply list_elem_of_filter. split; [done|]. apply vs_Keys_spec; [done|]. eauto.
  - rewrite decide_False; [done|]. intros [Ht _]%list_elem_of_filter. congruence.
Qed.

Lemma is_stale_mono f f' k : f ≤ f' → is_stale f' k = false → is_stale f k = false.
Proof. unfold is_stale. destruct (stateKeyWindowEnd k); [|done]. unfold Before, time in *. intros. b2p. apply Z.ltb_ge. lia. Qed.

Lemma advance_frontier op r : windowFrontier (advanceWindowFrontier op r)
  = match record_frontier r with
    | Some g => if After g (windowFrontier op) then g else windowFrontier op
    | None => windowFrontier op
    end.
Proof.
  unfold advanceWindowFrontier. destruct (record_frontier r) as [g|]; [|done].
  by destruct (After g (windowFrontier op)).
Qed.

Lemma advance_Get op r k : sb_inv (backend op) →
  sb_inv (backend (advanceWindowFrontier op r))
  ∧ (is_stale (windowFrontier (advanceWindowFrontier op r)) k = false →
     vs_Get (backend (advanceWindowFrontier op r)) (at_key k) = vs_Get (backend op) (at_key k)).
Proof.
  intros Hb. rewrite advance_frontier. unfold advanceWindowFrontier.
  destruct (record_frontier r) as [g|]; [|done]. destruct (After g (windowFrontier op)); [|done]. cbn [negb].
  destruct (evict_Get (set_frontier op g) k Hb) as [? ->]. split; [done|]. simpl. by intros ->.
Qed.

Lemma next_frontier_ge f r : f ≤ next_frontier f r.
Proof.
  unfold next_frontier. destruct (isMarker r); [lia|]. destruct (record_frontier r) as [g|]; [|lia].
  destruct (After g f) eqn:E; unfold After, time in *; b2p; lia.
Qed.

(** ** The operator refines the specification *)

(** Every accumulator that is not stale at frontier [f] agrees.  The operator's
    own frontier may lag behind [f]: it restarts from zero after a restore. *)
Record reduce_sim (op : ReduceOperator) (f : time) (h : bytes → option bytes) : Prop := {
  rs_inv : sb_inv (backend op);
  rs_le : windowFrontier op ≤ f;
  rs_get : ∀ k, is_stale f k = false → vs_Get (backend op) (at_key k) = h k
}.

Lemma at_key_inj k k' : at_key k = at_key k' ↔ k = k'.
Proof. split; [intros E; by apply (f_equal h_key) in E|by intros ->]. Qed.

Lemma next_frontier_mono f f' r : f ≤ f' → next_frontier f r ≤ next_frontier f' r.
Proof.
  intros Hf. unfold next_frontier. destruct (isMarker r); [done|]. destruct (record_frontier r) as [g|]; [|done].
  destruct (After g f) eqn:E1, (After g f') eqn:E2; unfold After, time in *; b2p; lia.
Qed.

Lemma Process_frontier op r : windowFrontier (Process op r).1.1 = next_frontier (windowFrontier op) r.
Proof.
  unfold Process, next_frontier, isMarker.
  destruct (IsWatermark r); [by rewrite orb_true_r|]. destruct (IsBarrier r); [done|].
  simpl. by rewrite advance_frontier.
Qed.

Lemma Process_Fn op r : Fn (Process op r).1.1 = Fn op.
Proof.
  unfold Process. destruct (IsWatermark r); [done|]. destruct (IsBarrier r); [done|]. simpl.
  unfold advanceWindowFrontier. destruct (record_frontier r); [|done]. by case_match.
Qed.

(** What one data record does to the accumulators. *)
Lemma Process_Get op r k : sb_inv (backend op) → is_data r →
  is_stale (next_frontier (windowFrontier op) r) k = false →
  sb_inv (backend (Process op r).1.1)
  ∧ vs_Get (backend (Process op r).1.1) (at_key k)
    = if decide (k = StateKey r) then Some (Fn op (vs_Get (backend op) (at_key (StateKey r))) r)
      else vs_Get (backend op) (at_key k).
Proof.
  intros Hb Hd Hk. rewrite <- Process_frontier in Hk. unfold Process in *. unfold is_data, isMarker in Hd.
  apply orb_false_iff in Hd as [Eb Ew]. rewrite Ew, Eb in Hk |- *. cbn [fst] in *. set (op1 := set_backend op _) in *.
  destruct (advance_Get op1 r k) as [Hi Hg]; [by apply vs_Set_inv|]. split; [done|].
  rewrite (Hg Hk). unfold op1. simpl. rewrite vs_Get_Set by done.
  destruct (decide (k = StateKey r)) as [->|Hne]; [by rewrite decide_True|].
  by rewrite decide_False by (rewrite at_key_inj; congruence).
Qed.

Lemma Process_marker op r : isMarker r = true →
  (Process op r).1.1 = op ∧ (Process op r).1.2 = [r].
Proof.
  unfold Process, isMarker. destruct (IsWatermark r); [done|]. by destruct (IsBarrier r).
Qed.

Lemma Process_out op r : is_data r →
  (Process op r).1.2 = [update_record r (Fn op (vs_Get (backend op) (at_key (StateKey r))) r)].
Proof. unfold Process, is_data, isMarker. by intros [-> ->]%orb_false_iff. Qed.

Lemma Process_inv op r : sb_inv (backend op) → sb_inv (backend (Process op r).1.1).
Proof.
  intros Hb. unfold Process. destruct (IsWatermark r); [done|]. destruct (IsBarrier r); [done|]. cbn [fst].
  by apply (advance_Get _ r []), vs_Set_inv.
Qed.

Lemma run_reduce_inv op input : sb_inv (backend op) → sb_inv (backend (run_reduce op input).1).
Proof.
  revert op. induction input as [|r input IH]; intros op Hb; simpl; [done|].
  pose proof (Process_inv op r Hb) as Hi. destruct (Process op r) as [[op1 o] sn].
  specialize (IH op1 Hi). by destruct (run_reduce op1 input).
Qed.

Lemma Process_sim op f h r : reduce_sim op f h → (is_data r → is_stale f (StateKey r) = false) →
  reduce_sim (Process op r).1.1 (next_frontier f r) (spec_step (Fn op) h r).1
  ∧ (Process op r).1.2 = (spec_step (Fn op) h r).2.
Proof.
  intros [Hb Hle Hg] Hin. unfold spec_step. destruct (isMarker r) eqn:Em.
  - destruct (Process_marker op r Em) as [-> ->]. unfold next_frontier. by rewrite Em.
  - rewrite (Process_out op r Em), (Hg _ (Hin Em)). split; [|done]. split.
    + by apply Process_inv.
    + rewrite Process_frontier. by apply next_frontier_mono.
    + intros k Hk. destruct (Process_Get op r k Hb Em) as [_ ->].
      { eapply is_stale_mono; [|exact Hk]. by apply next_frontier_mono. }
      rewrite (Hg _ (Hin Em)). simpl. case_decide; [done|]. apply Hg.
      eapply is_stale_mono; [|exact Hk]. apply next_frontier_ge.
Qed.

Lemma run_sim op f h input : reduce_sim op f h → in_order f input →
  (run_reduce op input).2 = spec_run (Fn op) h input.
Proof.
  revert op f h. induction input as [|r input IH]; intros op f h Hs Ho; simpl; [done|].
  destruct Ho as [Hr Ho]. destruct (Process_sim op f h r Hs Hr) as [Hs' Hout].
  specialize (IH _ _ _ Hs' Ho). rewrite Process_Fn in IH.
  destruct (Process op r) as [[op1 o] sn]. destruct (spec_step (Fn op) h r) as [h' o']. simpl in *.
  destruct (run_reduce op1 input) as [op2 os]. simpl in *. by subst.
Qed.

(** The simulation at the end of a run. *)
Lemma run_sim_end op f h input : reduce_sim op f h → in_order f input →
  Fn (run_reduce op input).1 = Fn op
  ∧ reduce_sim (run_reduce op input).1 (foldl next_frontier f input)
      (foldl (λ h r, (spec_step (Fn op) h r).1) h input).
Proof.
  revert op f h. induction input as [|r input IH]; intros op f h Hs Ho; [done|]. cbn [run_reduce foldl].
  destruct Ho as [Hr Ho]. destruct (Process_sim op f h r Hs Hr) as [Hs' _].
  specialize (IH _ _ _ Hs' Ho). rewrite Process_Fn in IH.
  destruct (Process op r) as [[op1 o] sn]. simpl in *. by destruct (run_reduce op1 input).
Qed.

Lemma reduce_sim_init fn b : sb_inv b → (∀ k, vs_Get b (at_key k) = None) →
  reduce_sim (Reduce fn b) zeroTime (λ _, None).
Proof. intros Hb He. split; simpl; [done|lia|auto]. Qed.

Lemma Restore_sim op f h fn b : reduce_sim op f h → Fn op = fn → zeroTime ≤ f → sb_inv b →
  reduce_sim (Restore (Reduce fn b) (Snapshot op)) f h.
Proof.
  intros [Hb Hle Hg] <- Hz Hb'. split; simpl; [by apply vs_RestoreAll_inv|done|].
  intros k Hk. rewrite vs_Get_RestoreAll, decide_True by done.
  unfold Snapshot. rewrite vs_SnapshotAll_spec by done. by apply Hg.
Qed.

Lemma frontier_end_ge f input : f ≤ foldl next_frontier f input.
Proof.
  revert f. induction input as [|r input IH]; intros f; simpl; [lia|].
  pose proof (IH (next_frontier f r)). pose proof (next_frontier_ge f r). lia.
Qed.

Lemma in_order_app f input input' :
  in_order f (input ++ input') ↔ in_order f input ∧ in_order (foldl next_frontier f input) input'.
Proof.
  revert f. induction input as [|r input IH]; intros f; simpl; [naive_solver|]. rewrite IH. naive_solver.
Qed.

(** ** Keys of windowed records *)

Lemma split_last_app p q : slash ∉ q → split_last (p ++ slash :: q) = Some (p, q).
Proof.
  intros Hq. induction p as [|b p IH]; simpl.
  - assert (split_last q = None) as ->; [|done].
    clear -Hq. induction q as [|c q IH]; [done|]. apply not_elem_of_cons in Hq as [Hc Hq]. simpl.
    rewrite IH by done. by rewrite decide_False.
  - by rewrite IH.
Qed.

(** The headers the window operator writes. *)
Definition windowed (r : Record_) (s e : time) : Prop :=
  Headers r !! h_window_start = Some (text_of s) ∧ Headers r !! h_window_end = Some (text_of e)
  ∧ text_ok s ∧ text_ok e.

Lemma windowed_key_end r s e : windowed r s e → stateKeyWindowEnd (StateKey r) = Some e.
Proof.
  intros (Hs & He & Hts & Hte). unfold StateKey. rewrite Hs, He. cbn [default from_option id].
  unfold stateKeyWindowEnd.
  replace (Key r ++ [slash] ++ text_of s ++ [slash] ++ text_of e)
    with ((Key r ++ slash :: text_of s) ++ slash :: text_of e) by (by rewrite <- app_assoc).
  rewrite split_last_app by (by apply text_no_slash).
  osimpl. rewrite split_last_app by (by apply text_no_slash). osimpl. by rewrite !of_text_of.
Qed.

Lemma windowAllowedLateness_nonneg r : 0 ≤ windowAllowedLateness r.
Proof.
  unfold windowAllowedLateness. destruct (Headers r !! _) as [raw|]; [|lia].
  destruct (ParseInt raw) as [n|]; [|lia]. case_Z; lia.
Qed.

Lemma windowed_frontier r s e : windowed r s e → ∃ g, record_frontier r = Some g ∧ g ≤ e.
Proof.
  intros (Hs & He & Hts & Hte). unfold record_frontier. rewrite He. osimpl. rewrite of_text_of by done. osimpl.
  eexists. split; [done|]. pose proof (windowAllowedLateness_nonneg r).
  case_Z; unfold Add, time, duration in *; lia.
Qed.

(** On input in event-time order, evicting the state of closed windows
    never changes an output: the operator emits what a reducer that keeps
    everything emits. *)
Theorem reduce_eviction_invisible (fn : ReduceFn) (b : B) (input : list Record_) :
  sb_inv b → (∀ k, vs_Get b (at_key k) = None) → in_order zeroTime input →
  (run_reduce (Reduce fn b) input).2 = spec_run fn (λ _, None) input.
Proof. intros Hb He Ho. exact (run_sim (Reduce fn b) zeroTime _ input (reduce_sim_init fn b Hb He) Ho). Qed.

(** Processing a record of a window that is not behind the frontier stores the
    reduced value under its key, and the eviction it triggers never removes it. *)
Theorem reduce_own_window_survives (op : ReduceOperator) (r : Record_) (s e : time) :
  sb_inv (backend op) → is_data r → windowed r s e → windowFrontier op ≤ e →
  vs_Get (backend (Process op r).1.1) (at_key (StateKey r))
  = Some (Fn op (vs_Get (backend op) (at_key (StateKey r))) r)
  ∧ is_stale (windowFrontier (Process op r).1.1) (StateKey r) = false.
Proof.
  intros Hb Hd Hw Hle.
  assert (is_stale (next_frontier (windowFrontier op) r) (StateKey r) = false) as Hst.
  { destruct (windowed_frontier r s e Hw) as (g & Hg & Hge).
    unfold is_stale, next_frontier. rewrite (windowed_key_end r s e Hw), Hd, Hg.
    destruct (After g (windowFrontier op)); unfold Before, time in *; apply Z.ltb_ge; lia. }
  rewrite Process_frontier. split; [|done].
  destruct (Process_Get op r (StateKey r) Hb Hd Hst) as [_ ->]. by rewrite decide_True.
Qed.

(** When a record advances the window frontier, the state of every
    window that ended before the new frontier is gone afterwards. *)
Theorem reduce_evicts_closed_windows (op : ReduceOperator) (r : Record_) (k : bytes) (e : time) :
  sb_inv (backend op) → is_data r →
  windowFrontier op < windowFrontier (Process op r).1.1 →
  stateKeyWindowEnd k = Some e → e < windowFrontier (Process op r).1.1 →
  vs_Get (backend (Process op r).1.1) (at_key k) = None.
Proof.
  intros Hb Hd Hmove Hk He. unfold Process in *. unfold is_data, isMarker in Hd.
  apply orb_false_iff in Hd as [Eb Ew]. rewrite Ew, Eb in *. cbn [fst] in *.
  set (op1 := set_backend op _) in *. rewrite advance_frontier in Hmove, He. unfold advanceWindowFrontier.
  destruct (record_frontier r) as [g|]; [|simpl in Hmove; lia].
  destruct (After g (windowFrontier op1)) eqn:Ea; [|simpl in Hmove; lia]. cbn [negb].
  destruct (evict_Get (set_frontier op1 g) k) as [_ ->]; [by apply vs_Set_inv|].
  unfold is_stale. rewrite Hk. unfold Before. cbn [windowFrontier set_frontier].
  by rewrite (proj2 (Z.ltb_lt e g)).
Qed.

(** A reduce operator restored from a snapshot emits on the rest of an
    in-order stream what the original would have emitted. *)
Theorem reduce_restore_transparent (fn : ReduceFn) (b b' : B) (before after : list Record_) :
  sb_inv b → (∀ k, vs_Get b (at_key k) = None) → sb_inv b' → in_order zeroTime (before ++ after) →
  let op := (run_reduce (Reduce fn b) before).1 in
  (run_reduce (Restore (Reduce fn b') (Snapshot op)) after).2 = (run_reduce op after).2.
Proof.
  intros Hb He Hb' Ho op. apply in_order_app in Ho as [Ho1 Ho2].
  destruct (run_sim_end _ _ _ _ (reduce_sim_init fn b Hb He) Ho1) as [HF Hs]. fold op in HF, Hs.
  rewrite (run_sim op _ _ _ Hs Ho2), HF.
  apply (run_sim (Restore (Reduce fn b') (Snapshot op)) (foldl next_frontier zeroTime before)); [|done].
  apply (Restore_sim op); [done|done|apply frontier_end_ge|done].
Qed.
End reduce.
Arguments ReduceOperator : clear implicits.

(** ** Witnesses *)

(** One mark per record of a key and window. *)
Definition demo_count : ReduceFn := λ a _, default [] a ++ bs "x".

Definition demo_windowed (k : string) (s e : Z) : Record_ :=
  setHeaders (NewRecord s (bs k) (bs "v"))
    (<[h_window_start := formatRFC3339Nano s]> (<[h_window_end := formatRFC3339Nano e]> ∅)).

Definition demo_before : list Record_ :=
  [demo_windowed "a" 0 10; demo_windowed "b" 0 10; demo_windowed "a" 0 10; NewBarrier (bs "chk-1")].
Definition demo_after : list Record_ := [demo_windowed "b" 0 10; demo_windowed "a" 10 20].

Lemma demo_in_order : in_order zeroTime (demo_before ++ demo_after).
Proof. vm_compute. tauto. Qed.

Lemma reduce_eviction_invisible_witness :
  (run_reduce (Reduce demo_count Memory.NewMemoryBackend) (demo_before ++ demo_after)).2
  = spec_run demo_count (λ _, None) (demo_before ++ demo_after).
Proof. apply (reduce_eviction_invisible demo_count); [apply Memory.inv_new|done|apply demo_in_order]. Defined.

Lemma reduce_own_window_survives_witness :
  let op := Reduce demo_count Memory.NewMemoryBackend in
  let r := demo_windowed "a" 0 10 in
  vs_Get (backend (Process op r).1.1) (at_key (StateKey r))
  = Some (demo_count (vs_Get (backend op) (at_key (StateKey r))) r)
  ∧ is_stale (windowFrontier (Process op r).1.1) (StateKey r) = false.
Proof.
  intros op r. apply (reduce_own_window_survives op r 0 10); [apply Memory.inv_new|done| |done].
  split_and!; [reflexivity|reflexivity|by vm_compute..].
Defined.

Lemma reduce_evicts_closed_windows_witness :
  let op := (run_reduce (Reduce demo_count Memory.NewMemoryBackend) demo_before).1 in
  let r := demo_windowed "a" 10 20 in
  let k := StateKey (demo_windowed "a" 0 10) in
  is_Some (vs_Get (backend op) (at_key k)) ∧ vs_Get (backend (Process op r).1.1) (at_key k) = None.
Proof.
  intros op r k. split; [by vm_compute; eexists|].
  apply (reduce_evicts_closed_windows op r k 10); [|done|by vm_compute..].
  apply run_reduce_inv, Memory.inv_new.
Defined.

Lemma reduce_restore_transparent_witness :
  let op := (run_reduce (Reduce demo_count Memory.NewMemoryBackend) demo_before).1 in
  (run_reduce (Restore (Reduce demo_count Memory.NewMemoryBackend) (Snapshot op)) demo_after).2
  = (run_reduce op demo_after).2.
Proof.
  apply (reduce_restore_transparent demo_count); [apply Memory.inv_new|done|apply Memory.inv_new|apply demo_in_order].
Defined.
