(* ===== verification/WindowOp.v ===== *)
(** * The window operator ([src/operator/window.go])

    Records are buffered per (key, window) in the list state
    ["window_records"] under the text of the window key, and emitted when the
    watermark passes the window's end plus the allowed lateness.

    The model is parametric in the backend, in the text of instants and in the
    record codec: entries are the JSON text of [recordJSON], and [RecordCodec]
    states that decoding undoes encoding on records whose strings survive JSON.
    A window assigner is the Go interface: a function that may panic, and the
    session flag; the three assigners of [src/window] are its instances.

    [step] is one iteration of the [Process] loop and [run] the whole loop up to
    the flush when the input closes (an idle timeout is the same flush after a
    prefix of the input). *)

From S2P Require Import Prelude Record Window Rfc3339 Decimal State Pebble Reduce.
From Stdlib Require Import Strings.Byte.

(** ** Records as stored *)

(** [recordJSON] *)
Record recordJSON := mkRecordJSON {
  rj_Key : bytes; rj_Value : bytes; rj_Timestamp : Z; rj_Offset : Z;
  rj_Partition : Z; rj_Source : bytes; rj_Headers : gmap bytes bytes
}.

#[export] Instance recordJSON_eq_dec : EqDecision recordJSON.
Proof. solve_decision. Defined.

Definition recordToJSON (r : Record_) : recordJSON :=
  mkRecordJSON (Key r) (Value r) (UnixNano (Timestamp r)) (Offset r) (Partition r) (Source r) (Headers r).

Definition recordFromJSON (r : recordJSON) : Record_ :=
  mkRecord (rj_Key r) (rj_Value r) (UnixTime (rj_Timestamp r)) (rj_Offset r) (rj_Partition r)
    (rj_Source r) (rj_Headers r) false false [].

(** [json.Marshal] and [json.Unmarshal] at [recordJSON]; [codec_ok] are the
    records whose strings survive JSON. *)
Class RecordCodec := {
  encodeRecordJSON : recordJSON → bytes;
  decodeRecordJSON : bytes → recordJSON;
  codec_ok : recordJSON → Prop;
  json_roundtrip : ∀ r, codec_ok r → decodeRecordJSON (encodeRecordJSON r) = r
}.

Definition encodeRecord `{!RecordCodec} (r : Record_) : bytes := encodeRecordJSON (recordToJSON r).
Definition decodeRecord `{!RecordCodec} (b : bytes) : Record_ := recordFromJSON (decodeRecordJSON b).

(** ** Window keys *)

(** [windowKey] *)
Record windowKey := mkWindowKey { wk_Key : bytes; wk_Start : Z; wk_End : Z }.

#[export] Instance windowKey_eq_dec : EqDecision windowKey.
Proof. solve_decision. Defined.

Definition toWindowKey (key : bytes) (win : Window) : windowKey :=
  mkWindowKey key (UnixNano (Start win)) (UnixNano (End_ win)).

(** [windowKey.String] *)
Definition wk_String `{!TimeText} (k : windowKey) : bytes :=
  wk_Key k ++ [slash] ++ text_of (UnixTime (wk_Start k)) ++ [slash] ++ text_of (UnixTime (wk_End k)).

(** [time.Parse], ignoring the error: the zero time when it fails. *)
Definition parse_or_zero `{!TimeText} (s : bytes) : time := default zeroTime (of_text s).

(** [parseWindowKey]: the last two slashes delimit the bounds. *)
Definition parseWindowKey `{!TimeText} (s : bytes) : windowKey :=
  match split_last s with
  | None => mkWindowKey [] 0 0
  | Some (pre, e) =>
      match split_last pre with
      | None => mkWindowKey [] 0 0
      | Some (key, st) =>
          mkWindowKey key (UnixNano (parse_or_zero st)) (UnixNano (parse_or_zero e))
      end
  end.

Definition wk_win (k : windowKey) : Window := mkWindow (UnixTime (wk_Start k)) (UnixTime (wk_End k)).

(** [tagWithWindowAndLateness] *)
Definition tagWithWindowAndLateness `{!TimeText} (r : Record_) (win : Window) (allowed : duration) : Record_ :=
  let headers := <[h_window_end := text_of (End_ win)]> (<[h_window_start := text_of (Start win)]> (Headers r)) in
  let headers := if 0 <? allowed then <[h_window_lateness := FormatInt allowed]> headers else headers in
  mkRecord (Key r) (Value r) (Timestamp r) (Offset r) 0 [] headers false false [].

(** ** The assigner interface *)

Record WindowAssigner := mkAssigner {
  AssignWindows : time → result (list Window);
  IsSession : bool
}.

Definition tumbling_assigner (t : Tumbling) : WindowAssigner :=
  mkAssigner (Tumbling_AssignWindows t) false.
Definition sliding_assigner (s : Sliding) : WindowAssigner :=
  mkAssigner (λ ts, default (Panic (bs "unreachable")) (Sliding_AssignWindows (sliding_fuel s) s ts)) false.
Definition session_assigner (s : Session) : WindowAssigner :=
  mkAssigner (λ ts, Ok (Session_AssignWindows s ts)) true.

Section window_op.
Context {TT : TimeText} {RC : RecordCodec} {B : Type} {SB : StateBackend B} {SL : StateBackendLaws B}.

Definition windowRecordsNS : bytes := bs "window_records".
Definition windowWatermarkNS : bytes := bs "window_wm".
Definition windowWatermarkK : bytes := bs "wm".

(** The handle [op.backend.ListState(windowRecordsNS)] at a key. *)
Definition rec_at (k : bytes) : handle := SetKey (open_ns windowRecordsNS) k.
Definition wm_at : handle := SetKey (open_ns windowWatermarkNS) windowWatermarkK.

(** ** The operator *)

Record WindowOperator := mkWindowOp {
  Assigner : WindowAssigner;
  AllowedLateness : duration;
  LateSink : bool;
  Reducer : option ReduceFn;
  backend : B;
  currentWatermark : time;
  barrierSnapshot : bool;
  nativeSnapshot : option (bytes → B → result bytes)
}.

Definition set_backend (op : WindowOperator) (b : B) : WindowOperator :=
  mkWindowOp (Assigner op) (AllowedLateness op) (LateSink op) (Reducer op) b (currentWatermark op)
    (barrierSnapshot op) (nativeSnapshot op).
Definition set_watermark (op : WindowOperator) (t : time) : WindowOperator :=
  mkWindowOp (Assigner op) (AllowedLateness op) (LateSink op) (Reducer op) (backend op) t
    (barrierSnapshot op) (nativeSnapshot op).

(** [Window], with the backend the engine injects. *)
Definition NewWindow (assigner : WindowAssigner) (b : B) : WindowOperator :=
  mkWindowOp assigner 0 false None b zeroTime false None.
Definition Clone (op : WindowOperator) (fresh : B) : WindowOperator :=
  mkWindowOp (Assigner op) (AllowedLateness op) (LateSink op) (Reducer op) fresh zeroTime false None.
Definition WithAllowedLateness (op : WindowOperator) (d : duration) : WindowOperator :=
  mkWindowOp (Assigner op) (if d <? 0 then 0 else d) (LateSink op) (Reducer op) (backend op)
    (currentWatermark op) (barrierSnapshot op) (nativeSnapshot op).

(** [isTooLate] *)
Definition isTooLate (op : WindowOperator) (ts : time) : bool :=
  if IsZero (currentWatermark op) then false
  else Before ts (Add (currentWatermark op) (- AllowedLateness op)).

(** [emitLate]: what goes to the late sink; its errors are ignored. *)
Definition emitLate (op : WindowOperator) (r : Record_) : list Record_ :=
  if LateSink op then
    [WithHeader (WithHeader r (bs "_late_reason")
                   (bs "event time before current watermark minus allowed lateness"))
       (bs "_watermark") (text_of (currentWatermark op))]
  else [].

(** [loadWatermark]; [int64(binary.BigEndian.Uint64(b))] *)
Definition loadWatermark (op : WindowOperator) : time :=
  match vs_Get (backend op) wm_at with
  | Some b => if decide (length b = 8%nat) then UnixTime (wrap64 (Uint64 b)) else zeroTime
  | None => zeroTime
  end.

(** [storeWatermark] *)
Definition storeWatermark (op : WindowOperator) : WindowOperator :=
  set_backend op (vs_Set (backend op) wm_at (PutUint64 (wrapu64 (UnixNano (currentWatermark op))))).

(** The loop of the session branch of [assignToWindow]: bounds, records and
    keys of the sessions that overlap. *)
Fixpoint collect_overlaps (b : B) (key : bytes) (win : Window) (keys : list bytes)
    (acc : time * time * list bytes * list bytes) : time * time * list bytes * list bytes :=
  match keys with
  | [] => acc
  | existingStr :: keys' =>
      let '(newStart, newEnd, mergedRecords, toRemove) := acc in
      let ek := parseWindowKey existingStr in
      if negb (bool_decide (wk_Key ek = key)) then collect_overlaps b key win keys' acc
      else
        let eStart := UnixTime (wk_Start ek) in
        let eEnd := UnixTime (wk_End ek) in
        if negb (Before (Start win) eEnd) || negb (After (End_ win) eStart)
        then collect_overlaps b key win keys' acc
        else
          collect_overlaps b key win keys'
            (if Before eStart newStart then eStart else newStart,
             if After eEnd newEnd then eEnd else newEnd,
             mergedRecords ++ ls_GetAll b (rec_at existingStr), toRemove ++ [existingStr])
  end.

(** [assignToWindow] *)
Definition assignToWindow (op : WindowOperator) (b : B) (key : bytes) (win : Window) (recBytes : bytes) : B :=
  let plain := ls_Append b (rec_at (wk_String (toWindowKey key win))) recBytes in
  if IsSession (Assigner op) then
    let '(newStart, newEnd, mergedRecords, toRemove) :=
      collect_overlaps b key win (ls_Keys b (open_ns windowRecordsNS)) (Start win, End_ win, [], []) in
    match toRemove with
    | [] => plain
    | _ =>
        let mergedStr := wk_String (toWindowKey key (mkWindow newStart newEnd)) in
        let b := foldl (λ b oldKey, ls_Clear b (rec_at oldKey)) b toRemove in
        let b := foldl (λ b r, ls_Append b (rec_at mergedStr) r) b mergedRecords in
        ls_Append b (rec_at mergedStr) recBytes
    end
  else plain.

(** [handleDataRecord] *)
Definition handleDataRecord (op : WindowOperator) (r : Record_) : result WindowOperator :=
  let recBytes := encodeRecord r in
  wins <-? AssignWindows (Assigner op) (Timestamp r) ;;
  Ok (set_backend op (foldl (λ b win, assignToWindow op b (Key r) win recBytes) (backend op) wins)).

(** What [fireWindow] emits for the entries of a window. *)
Definition fire_output (op : WindowOperator) (win : Window) (entries : list bytes) : list Record_ :=
  match Reducer op with
  | Some fn =>
      match last entries with
      | None => []
      | Some lb =>
          let accum := foldl (λ a rb, Some (fn a (decodeRecord rb))) None entries in
          let l := decodeRecord lb in
          [tagWithWindowAndLateness (update_record l (default [] accum)) win (AllowedLateness op)]
      end
  | None => (λ rb, tagWithWindowAndLateness (decodeRecord rb) win (AllowedLateness op)) <$> entries
  end.

(** [fireWindow] *)
Definition fireWindow (op : WindowOperator) (b : B) (keyStr : bytes) : B * list Record_ :=
  let entries := ls_GetAll b (rec_at keyStr) in
  (ls_Clear b (rec_at keyStr), fire_output op (wk_win (parseWindowKey keyStr)) entries).

Fixpoint fire_keys (op : WindowOperator) (b : B) (keys : list bytes) : B * list Record_ :=
  match keys with
  | [] => (b, [])
  | k :: keys' =>
      let '(b1, o) := fireWindow op b k in
      let '(b2, os) := fire_keys op b1 keys' in (b2, o ++ os)
  end.

(** The window under a key closes at watermark [wm]. *)
Definition closes (allowed : duration) (wm : time) (keyStr : bytes) : bool :=
  negb (After (Add (UnixTime (wk_End (parseWindowKey keyStr))) allowed) wm).

(** [handleWatermark] *)
Definition handleWatermark (op : WindowOperator) (wm : Record_) : WindowOperator * list Record_ :=
  let op := if After (Timestamp wm) (currentWatermark op)
            then storeWatermark (set_watermark op (Timestamp wm)) else op in
  let keys := ls_Keys (backend op) (open_ns windowRecordsNS) in
  let '(b, o) := fire_keys op (backend op)
    (filter (λ k, closes (AllowedLateness op) (currentWatermark op) k = true) keys) in
  (set_backend op b, o).

(** [flushRemaining] *)
Definition flushRemaining (op : WindowOperator) : WindowOperator * list Record_ :=
  let '(b, o) := fire_keys op (backend op) (ls_Keys (backend op) (open_ns windowRecordsNS)) in
  (set_backend op b, o).

(** ** Snapshots *)

(** [windowState] and [windowOperatorSnapshotJSON] *)
Record windowState := mkWindowState { Win : Window; Records : list recordJSON }.
Record windowSnapshot := mkSnapshot { snap_watermark : Z; snap_windows : gmap bytes windowState }.

Definition Snapshot (op : WindowOperator) : windowSnapshot :=
  let b := backend op in
  mkSnapshot (UnixNano (currentWatermark op))
    (foldl (λ m keyStr,
       <[keyStr := mkWindowState (wk_win (parseWindowKey keyStr))
                     (decodeRecordJSON <$> ls_GetAll b (rec_at keyStr))]> m)
       ∅ (ls_Keys b (open_ns windowRecordsNS))).

Definition append_all (b : B) (h : handle) (vs : list bytes) : B := foldl (λ b v, ls_Append b h v) b vs.

(** [Restore]; Go iterates over the map in some order, here [keys]. *)
Definition Restore (op : WindowOperator) (s : windowSnapshot) (keys : list bytes) : WindowOperator :=
  let op := storeWatermark (set_watermark op (UnixTime (snap_watermark s))) in
  let b := foldl (λ b k, ls_Clear b (rec_at k)) (backend op)
             (ls_Keys (backend op) (open_ns windowRecordsNS)) in
  set_backend op
    (foldl (λ b k, append_all b (rec_at k)
                     (encodeRecordJSON <$> default [] (Records <$> snap_windows s !! k))) b keys).

(** ** The loop *)

Inductive window_snap := WSerialized (s : windowSnapshot) | WNative (r : result bytes).

(** What one iteration produces: output, late records, snapshots. *)
Record effects := mkEffects {
  emitted : list Record_; late : list Record_; snaps : list (bytes * window_snap)
}.

Definition step (op : WindowOperator) (r : Record_) : result (WindowOperator * effects) :=
  if IsWatermark r then
    let '(op', o) := handleWatermark op r in Ok (op', mkEffects o [] [])
  else if IsBarrier r then
    let sn := if barrierSnapshot op then
                [(CheckpointID r, match nativeSnapshot op with
                                  | Some f => WNative (f (CheckpointID r) (backend op))
                                  | None => WSerialized (Snapshot op)
                                  end)]
              else [] in
    Ok (op, mkEffects [r] [] sn)
  else if isTooLate op (Timestamp r) then Ok (op, mkEffects [] (emitLate op r) [])
  else op' <-? handleDataRecord op r ;; Ok (op', mkEffects [] [] []).

Fixpoint steps (op : WindowOperator) (input : list Record_) : result (WindowOperator * list Record_) :=
  match input with
  | [] => Ok (op, [])
  | r :: input' =>
      x <-? step op r ;;
      y <-? steps x.1 input' ;;
      Ok (y.1, emitted x.2 ++ y.2)
  end.

(** [Process] on a whole input: load the watermark, loop, flush. *)
Definition run (op : WindowOperator) (input : list Record_) : result (list Record_) :=
  let op := set_watermark op (loadWatermark op) in
  x <-? steps op input ;;
  Ok (x.2 ++ (flushRemaining x.1).2).
End window_op.
Arguments WindowOperator : clear implicits.
