(* ===== verification/WindowCorrect.v ===== *)
(** * Correctness of the window operator

    Over any backend, instant text and record codec that meet their contracts:
    window keys are read back exactly; a watermark fires exactly the windows it
    closes; a window never reopens after it fired; every accepted record is
    emitted exactly once per window it was assigned to; session windows of one
    key stay disjoint; a snapshot restores the buffers. *)

From S2P Require Import Prelude Record Window Rfc3339 Decimal State Pebble Stateless Reduce WindowOp.
From Stdlib Require Import Strings.Byte.

(** ** Permutation lemmas *)

Lemma flat_map_Permutation {A B} (f : A → list B) (l l' : list A) : l ≡ₚ l' → flat_map f l ≡ₚ flat_map f l'.
Proof.
  induction 1 as [|x l l' _ IH|x y l|l1 l2 l3 _ IH1 _ IH2]; simpl; [done|by rewrite IH| |by etrans].
  by rewrite !app_assoc, (Permutation_app_comm (f y)).
Qed.

Lemma flat_map_ext_in {A B} (f g : A → list B) (l : list A) :
  (∀ x, x ∈ l → f x = g x) → flat_map f l = flat_map g l.
Proof.
  induction l as [|x l IH]; intros H; simpl; [done|].
  rewrite H by set_solver. rewrite IH; [done|]. intros. apply H. set_solver.
Qed.

Lemma flat_map_filter_nil {A B} (f : A → list B) (P : A → Prop) `{!∀ x, Decision (P x)} (l : list A) :
  (∀ x, x ∈ l → ¬ P x → f x = []) → flat_map f (filter P l) = flat_map f l.
Proof.
  induction l as [|x l IH]; intros Hnil; simpl; [done|]. rewrite filter_cons.
  assert (∀ y, y ∈ l → ¬ P y → f y = []) as Hnil' by (intros; apply Hnil; set_solver).
  destruct (decide (P x)); simpl; rewrite IH by done; [done|]. by rewrite (Hnil x) by set_solver.
Qed.

Lemma flat_map_split {A B} (f : A → list B) (P : A → Prop) `{!∀ x, Decision (P x)} (l : list A) :
  flat_map f l ≡ₚ flat_map f (filter P l) ++ flat_map f (filter (λ x, ¬ P x) l).
Proof.
  rewrite <- flat_map_app. symmetry. apply flat_map_Permutation, filter_app_complement.
Qed.

(** ** Window keys *)

Section keys.
Context {TT : TimeText}.

Definition wk_ok (k : windowKey) : Prop := in_i64 (wk_Start k) ∧ in_i64 (wk_End k).

Lemma wk_parse_String k : wk_ok k → parseWindowKey (wk_String k) = k.
Proof.
  intros [Hs He]. unfold parseWindowKey, wk_String, UnixTime.
  assert (Hts : text_ok (wk_Start k)) by (by apply text_ok_i64).
  assert (Hte : text_ok (wk_End k)) by (by apply text_ok_i64).
  replace (wk_Key k ++ [slash] ++ text_of (wk_Start k) ++ [slash] ++ text_of (wk_End k))
    with ((wk_Key k ++ slash :: text_of (wk_Start k)) ++ slash :: text_of (wk_End k))
    by (by rewrite <- app_assoc).
  rewrite !split_last_app by (by apply text_no_slash).
  unfold parse_or_zero, UnixNano. rewrite !of_text_of by done. simpl. rewrite !wrap64_id by done.
  by destruct k.
Qed.

Lemma wk_String_inj k k' : wk_ok k → wk_ok k' → wk_String k = wk_String k' → k = k'.
Proof. intros Hk Hk' E. rewrite <- (wk_parse_String k), <- (wk_parse_String k'), E; done. Qed.

Lemma wk_ok_to key win : wk_ok (toWindowKey key win).
Proof. split; apply wrap64_range. Qed.

(** Parsing the text of a window key returns its key, start and end,
    for every key including keys that contain the separator. *)
Theorem windowKey_roundtrip (key : bytes) (win : Window) :
  in_i64 (Start win) → in_i64 (End_ win) →
  parseWindowKey (wk_String (toWindowKey key win)) = mkWindowKey key (Start win) (End_ win)
  ∧ wk_win (parseWindowKey (wk_String (toWindowKey key win))) = win.
Proof.
  intros Hs He. rewrite wk_parse_String by apply wk_ok_to. unfold toWindowKey, UnixNano, wk_win, UnixTime.
  simpl. rewrite !wrap64_id by done. split; [done|]. by destruct win.
Qed.
End keys.

Lemma windowKey_roundtrip_witness :
  parseWindowKey (wk_String (toWindowKey (bs "a/b") (mkWindow 0 300000000000)))
    = mkWindowKey (bs "a/b") 0 300000000000
  ∧ wk_win (parseWindowKey (wk_String (toWindowKey (bs "a/b") (mkWindow 0 300000000000))))
    = mkWindow 0 300000000000.
Proof. apply (windowKey_roundtrip (bs "a/b") (mkWindow 0 300000000000)); simpl; solve_i64. Defined.

Section correct.
Context {TT : TimeText} {RC : RecordCodec} {B : Type} {SB : StateBackend B} {SL : StateBackendLaws B}.
Implicit Types (op : WindowOperator B) (b : B).

(** The buffer under a key string. *)
Definition buf b (k : bytes) : list bytes := ls_GetAll b (rec_at k).
Definition open_keys b : list bytes := ls_Keys b (open_ns windowRecordsNS).

Lemma rec_at_inj k k' : rec_at k = rec_at k' ↔ k = k'.
Proof. split; [intros E; by apply (f_equal h_key) in E|by intros ->]. Qed.

Lemma buf_Append b k v k' : sb_inv b →
  buf (ls_Append b (rec_at k) v) k' = if decide (k = k') then buf b k' ++ [v] else buf b k'.
Proof.
  intros Hb. unfold buf. rewrite ls_GetAll_Append by done.
  destruct (decide (k = k')) as [->|Hne]; [by rewrite decide_True|].
  by rewrite decide_False by (by rewrite rec_at_inj).
Qed.

Lemma buf_Clear b k k' : sb_inv b →
  buf (ls_Clear b (rec_at k)) k' = if decide (k = k') then [] else buf b k'.
Proof.
  intros Hb. unfold buf. rewrite ls_GetAll_Clear by done.
  destruct (decide (k = k')) as [->|Hne]; [by rewrite decide_True|].
  by rewrite decide_False by (by rewrite rec_at_inj).
Qed.

Lemma open_keys_spec b k : sb_inv b → k ∈ open_keys b ↔ buf b k ≠ [].
Proof. intros Hb. unfold open_keys. by rewrite ls_Keys_spec. Qed.

Lemma open_keys_NoDup b : sb_inv b → NoDup (open_keys b).
Proof. apply ls_Keys_NoDup. Qed.

(** ** Sums over the open windows *)

(** Any duplicate-free list that covers the open windows gives the same sum. *)
Lemma sum_cover {X} (f : bytes → list bytes → list X) b (L : list bytes) :
  sb_inv b → NoDup L → (∀ k, f k [] = []) → (∀ k, buf b k ≠ [] → k ∈ L) →
  flat_map (λ k, f k (buf b k)) (open_keys b) ≡ₚ flat_map (λ k, f k (buf b k)) L.
Proof.
  intros Hb HL Hf Hcov. rewrite <- (flat_map_filter_nil _ (λ k, buf b k ≠ []) L).
  - apply flat_map_Permutation, NoDup_Permutation.
    + by apply open_keys_NoDup.
    + by apply NoDup_filter.
    + intros k. rewrite open_keys_spec, list_elem_of_filter by done. naive_solver.
  - intros k _ Hk. destruct (buf b k); [apply Hf|]. exfalso. by apply Hk.
Qed.

(** Everything buffered, as seen through [g]. *)
Definition total {X} (g : bytes → bytes → X) b : list X :=
  flat_map (λ k, g k <$> buf b k) (open_keys b).

Lemma total_cover {X} (g : bytes → bytes → X) b (L : list bytes) :
  sb_inv b → NoDup L → (∀ k, buf b k ≠ [] → k ∈ L) →
  total g b ≡ₚ flat_map (λ k, g k <$> buf b k) L.
Proof. intros. by apply (sum_cover (λ k l, g k <$> l)). Qed.

(** A cover of the open windows that has [k] at its head. *)
Definition cover (k : bytes) (l : list bytes) : list bytes := k :: filter (λ x, x ≠ k) l.

Lemma cover_NoDup k l : NoDup l → NoDup (cover k l).
Proof.
  intros Hl. constructor; [|by apply NoDup_filter]. intros [? _]%list_elem_of_filter. done.
Qed.
Lemma cover_elem k l x : x ∈ l → x ∈ cover k l.
Proof.
  intros Hx. destruct (decide (x = k)) as [->|]; [left|right]. by apply list_elem_of_filter.
Qed.
Lemma cover_tail (k : bytes) (l : list bytes) x : x ∈ filter (λ x, x ≠ k) l → k ≠ x.
Proof. intros [? _]%list_elem_of_filter. congruence. Qed.

Lemma total_Append {X} (g : bytes → bytes → X) b k v : sb_inv b →
  total g (ls_Append b (rec_at k) v) ≡ₚ g k v :: total g b.
Proof.
  intros Hb. pose proof (open_keys_NoDup b Hb) as Hnd.
  rewrite (total_cover g (ls_Append b (rec_at k) v) (cover k (open_keys b))), (total_cover g b (cover k (open_keys b))).
  - unfold cover. cbn [flat_map]. rewrite (buf_Append b k v k), decide_True by done.
    rewrite fmap_app. cbn [fmap list_fmap].
    rewrite (flat_map_ext_in (λ k0, g k0 <$> buf (ls_Append b (rec_at k) v) k0) (λ k0, g k0 <$> buf b k0)).
    + rewrite <- app_assoc. symmetry. apply Permutation_middle.
    + intros x Hx%cover_tail. by rewrite buf_Append, decide_False.
  - done.
  - by apply cover_NoDup.
  - intros x Hx. apply cover_elem. by apply open_keys_spec.
  - by apply ls_Append_inv.
  - by apply cover_NoDup.
  - intros x. rewrite buf_Append by done. case_decide as E.
    + intros _. subst. left.
    + intros Hx. apply cover_elem. by apply open_keys_spec.
Qed.

Lemma total_Clear {X} (g : bytes → bytes → X) b k : sb_inv b →
  total g b ≡ₚ (g k <$> buf b k) ++ total g (ls_Clear b (rec_at k)).
Proof.
  intros Hb. pose proof (open_keys_NoDup b Hb) as Hnd.
  rewrite (total_cover g (ls_Clear b (rec_at k)) (cover k (open_keys b))), (total_cover g b (cover k (open_keys b))).
  - unfold cover. cbn [flat_map]. rewrite (buf_Clear b k k), decide_True by done. cbn [fmap list_fmap app].
    rewrite (flat_map_ext_in (λ k0, g k0 <$> buf (ls_Clear b (rec_at k)) k0) (λ k0, g k0 <$> buf b k0)); [done|].
    intros x Hx%cover_tail. by rewrite buf_Clear, decide_False.
  - done.
  - by apply cover_NoDup.
  - intros x Hx. apply cover_elem. by apply open_keys_spec.
  - by apply ls_Clear_inv.
  - by apply cover_NoDup.
  - intros x. rewrite buf_Clear by done. case_decide; [done|].
    intros Hx. apply cover_elem. by apply open_keys_spec.
Qed.

(** ** Firing *)

Lemma fire_keys_spec op b keys : sb_inv b → NoDup keys →
  let '(b', o) := fire_keys op b keys in
  sb_inv b' ∧ (∀ h, vs_Get b' h = vs_Get b h)
  ∧ (∀ k, buf b' k = if decide (k ∈ keys) then [] else buf b k)
  ∧ o = flat_map (λ k, fire_output op (wk_win (parseWindowKey k)) (buf b k)) keys.
Proof.
  revert b. induction keys as [|k keys IH]; intros b Hb Hnd; cbn [fire_keys].
  - split_and!; [done|done| |done]. intros k. by rewrite decide_False by apply not_elem_of_nil.
  - apply NoDup_cons in Hnd as [Hk Hnd]. unfold fireWindow.
    assert (sb_inv (ls_Clear b (rec_at k))) as Hb1 by (by apply ls_Clear_inv).
    specialize (IH _ Hb1 Hnd). destruct (fire_keys op (ls_Clear b (rec_at k)) keys) as [b' os].
    destruct IH as (Hi & Hv & Hbuf & ->). split_and!.
    + done.
    + intros h. by rewrite Hv, vs_Get_ls_Clear.
    + intros x. rewrite Hbuf, buf_Clear by done.
      destruct (decide (x ∈ keys)); [by rewrite decide_True by (by right)|].
      destruct (decide (k = x)) as [->|Hne]; [by rewrite decide_True by left|].
      rewrite decide_False; [done|]. intros [->|?]%elem_of_cons; done.
    + cbn [flat_map]. f_equal. apply flat_map_ext_in. intros x Hx. rewrite buf_Clear by done.
      rewrite decide_False; [done|]. by intros ->.
Qed.
(** ** Overlapping sessions *)

Definition overlaps (key : bytes) (win : Window) (k : bytes) : Prop :=
  let ek := parseWindowKey k in
  wk_Key ek = key ∧ Start win < wk_End ek ∧ wk_Start ek < End_ win.

#[export] Instance overlaps_dec key win k : Decision (overlaps key win k).
Proof. unfold overlaps. apply _. Defined.

Definition min_start (st : time) (ks : list bytes) : time :=
  foldl (λ a k, Z.min a (wk_Start (parseWindowKey k))) st ks.
Definition max_end (e : time) (ks : list bytes) : time :=
  foldl (λ a k, Z.max a (wk_End (parseWindowKey k))) e ks.

Lemma collect_overlaps_spec b key win keys st e rs rm :
  collect_overlaps b key win keys (st, e, rs, rm)
  = let ov := filter (overlaps key win) keys in
    (min_start st ov, max_end e ov, rs ++ flat_map (buf b) ov, rm ++ ov).
Proof.
  revert st e rs rm. induction keys as [|k keys IH]; intros st e rs rm; cbn [collect_overlaps].
  { simpl. by rewrite !app_nil_r. }
  rewrite filter_cons. case_bool_decide as Hkey; cbn [negb].
  - unfold Before, After, UnixTime.
    destruct (Z.ltb_spec (Start win) (wk_End (parseWindowKey k))) as [H1|H1]; cbn [negb orb];
      [|rewrite decide_False by (intros (_ & ? & _); lia); by rewrite IH].
    destruct (Z.ltb_spec (wk_Start (parseWindowKey k)) (End_ win)) as [H2|H2]; cbn [negb orb];
      [|rewrite decide_False by (intros (_ & _ & ?); lia); by rewrite IH].
    rewrite decide_True by done. rewrite IH. cbn [flat_map]. rewrite <- !app_assoc.
    unfold min_start, max_end. cbn [foldl].
    replace (Z.min st (wk_Start (parseWindowKey k)))
      with (if wk_Start (parseWindowKey k) <? st then wk_Start (parseWindowKey k) else st) by (case_Z; lia).
    replace (Z.max e (wk_End (parseWindowKey k)))
      with (if e <? wk_End (parseWindowKey k) then wk_End (parseWindowKey k) else e) by (case_Z; lia).
    done.
  - rewrite decide_False by (intros [? _]; done). by rewrite IH.
Qed.
Lemma clear_all_spec b ks : sb_inv b →
  let b' := foldl (λ b k, ls_Clear b (rec_at k)) b ks in
  sb_inv b' ∧ (∀ h, vs_Get b' h = vs_Get b h)
  ∧ ∀ x, buf b' x = if decide (x ∈ ks) then [] else buf b x.
Proof.
  revert b. induction ks as [|k ks IH]; intros b Hb; cbn [foldl].
  - split_and!; [done|done|]. intros x. by rewrite decide_False by apply not_elem_of_nil.
  - destruct (IH (ls_Clear b (rec_at k))) as (Hi & Hv & Hbuf); [by apply ls_Clear_inv|]. split_and!.
    + done.
    + intros h. by rewrite Hv, vs_Get_ls_Clear.
    + intros x. rewrite Hbuf, buf_Clear by done.
      destruct (decide (x ∈ ks)); [by rewrite decide_True by (by right)|].
      destruct (decide (k = x)) as [->|Hne]; [by rewrite decide_True by left|].
      rewrite decide_False; [done|]. intros [->|?]%elem_of_cons; done.
Qed.

Lemma append_all_spec b k vs : sb_inv b →
  let b' := append_all b (rec_at k) vs in
  sb_inv b' ∧ (∀ h, vs_Get b' h = vs_Get b h)
  ∧ ∀ x, buf b' x = if decide (k = x) then buf b x ++ vs else buf b x.
Proof.
  unfold append_all. revert b. induction vs as [|v vs IH]; intros b Hb; cbn [foldl].
  - split_and!; [done|done|]. intros x. rewrite app_nil_r. by case_decide.
  - destruct (IH (ls_Append b (rec_at k) v)) as (Hi & Hv & Hbuf); [by apply ls_Append_inv|]. split_and!.
    + done.
    + intros h. by rewrite Hv, vs_Get_Append.
    + intros x. rewrite Hbuf, buf_Append by done. case_decide; [|done]. by rewrite <- app_assoc.
Qed.

(** The sessions a new window merges with, and the window they become. *)
Definition merged_keys op b (key : bytes) (win : Window) : list bytes :=
  if IsSession (Assigner op) then filter (overlaps key win) (open_keys b) else [].
Definition hull (win : Window) (ov : list bytes) : Window :=
  mkWindow (min_start (Start win) ov) (max_end (End_ win) ov).

Lemma assign_eq op b key win rec :
  let ov := merged_keys op b key win in
  let mk := rec_at (wk_String (toWindowKey key (hull win ov))) in
  assignToWindow op b key win rec
  = ls_Append (append_all (foldl (λ b k, ls_Clear b (rec_at k)) b ov) mk (flat_map (buf b) ov)) mk rec.
Proof.
  unfold assignToWindow, merged_keys. destruct (IsSession (Assigner op)); [|done].
  rewrite collect_overlaps_spec. cbn [app]. fold (open_keys b).
  by destruct (filter (overlaps key win) (open_keys b)).
Qed.

Lemma assign_spec op b key win rec : sb_inv b →
  let ov := merged_keys op b key win in
  let mk := wk_String (toWindowKey key (hull win ov)) in
  let b' := assignToWindow op b key win rec in
  sb_inv b' ∧ (∀ h, vs_Get b' h = vs_Get b h)
  ∧ ∀ x, buf b' x
      = (if decide (x ∈ ov) then [] else buf b x)
        ++ (if decide (mk = x) then flat_map (buf b) ov ++ [rec] else []).
Proof.
  intros Hb ov mk b'. subst b'. rewrite assign_eq. fold ov. fold mk.
  destruct (clear_all_spec b ov Hb) as (Hi1 & Hv1 & Hb1).
  destruct (append_all_spec _ mk (flat_map (buf b) ov) Hi1) as (Hi2 & Hv2 & Hb2). split_and!.
  - by apply ls_Append_inv.
  - intros h. by rewrite vs_Get_Append, Hv2, Hv1.
  - intros x. rewrite buf_Append, Hb2, Hb1 by done.
    destruct (decide (mk = x)); [by rewrite <- app_assoc|by rewrite app_nil_r].
Qed.

(** ** The operator's invariant: buffered windows are open *)

(** A window that can still receive records at watermark [wm]. *)
Definition open_key (allowed : duration) (wm : time) (k : bytes) : Prop :=
  ∃ wk, wk_ok wk ∧ k = wk_String wk ∧ wm < wk_End wk + allowed.

Record buf_inv (allowed : duration) (wm : time) b : Prop := {
  bi_inv : sb_inv b;
  bi_open : ∀ k, buf b k ≠ [] → open_key allowed wm k
}.

Definition open_inv op : Prop :=
  0 ≤ AllowedLateness op ∧ buf_inv (AllowedLateness op) (currentWatermark op) (backend op).

(** The assigner is defined on [ts], on windows that end after it. *)
Definition assigner_ok (a : WindowAssigner) (ts : time) : Prop :=
  ∃ ws, AssignWindows a ts = Ok ws
    ∧ Forall (λ w, ts < End_ w ∧ in_i64 (Start w) ∧ in_i64 (End_ w)) ws.

Lemma max_end_ge e ks : e ≤ max_end e ks.
Proof.
  unfold max_end. revert e. induction ks as [|k ks IH]; intros e; simpl; [lia|].
  specialize (IH (Z.max e (wk_End (parseWindowKey k)))). lia.
Qed.

Lemma max_end_i64 e ks : in_i64 e → (∀ k, k ∈ ks → in_i64 (wk_End (parseWindowKey k))) → in_i64 (max_end e ks).
Proof.
  unfold max_end. revert e. induction ks as [|k ks IH]; intros e He Hk; simpl; [done|].
  apply IH; [|intros; apply Hk; by right]. specialize (Hk k ltac:(left)). unfold in_i64 in *. lia.
Qed.

Lemma parse_i64 s : wk_ok (parseWindowKey s).
Proof.
  unfold parseWindowKey. destruct (split_last s) as [[p e]|]; [|split; simpl; solve_i64].
  destruct (split_last p) as [[? ?]|]; [|split; simpl; solve_i64]. split; apply wrap64_range.
Qed.

Lemma assign_buf_inv op b allowed wm key win rec : buf_inv allowed wm b → in_i64 (End_ win) →
  wm < End_ win + allowed → buf_inv allowed wm (assignToWindow op b key win rec).
Proof.
  intros [Hb Ho] He Hwm. destruct (assign_spec op b key win rec Hb) as (Hi & _ & Hbuf).
  split; [done|]. intros x. rewrite Hbuf. case_decide as Hin; case_decide as Hmk; simpl; rewrite ?app_nil_r; auto.
  all: intros _; eexists; split; [apply wk_ok_to|]; split; [by symmetry|].
  all: simpl; unfold UnixNano; rewrite wrap64_id.
  all: try (apply max_end_i64; [done|intros; apply parse_i64]).
  all: pose proof (max_end_ge (End_ win) (merged_keys op b key win)); unfold time in *; lia.
Qed.
(** ** Handlers preserve the invariant *)

(** The part of the operator no handler changes. *)
Definition cfg op := (Assigner op, AllowedLateness op, LateSink op, Reducer op).

Lemma foldl_assign_inv op b allowed wm key rec ws : buf_inv allowed wm b →
  Forall (λ w, wm < End_ w + allowed ∧ in_i64 (End_ w)) ws →
  buf_inv allowed wm (foldl (λ b win, assignToWindow op b key win rec) b ws).
Proof.
  intros Hb Hws. revert b Hb. induction Hws as [|w ws [Hw He] _ IH]; intros b Hb; simpl; [done|].
  apply IH. by apply assign_buf_inv.
Qed.

Lemma i64_above_zeroTime z : in_i64 z → zeroTime < z.
Proof. intros Hz. unfold zeroTime. unfold_i64. lia. Qed.

(** A record that is not too late only opens windows that are still open. *)
Lemma accepted_windows op ts ws : 0 ≤ AllowedLateness op → isTooLate op ts = false →
  Forall (λ w, ts < End_ w ∧ in_i64 (Start w) ∧ in_i64 (End_ w)) ws →
  Forall (λ w, currentWatermark op < End_ w + AllowedLateness op ∧ in_i64 (End_ w)) ws.
Proof.
  intros Ha Hl Hws. eapply Forall_impl; [exact Hws|]. intros w (Hts & _ & He). split; [|done].
  unfold isTooLate, IsZero, Before, Add in Hl. destruct (Z.eqb_spec (currentWatermark op) zeroTime) as [->|].
  - pose proof (i64_above_zeroTime _ He). unfold time, duration in *. lia.
  - b2p. unfold time, duration in *. lia.
Qed.

Lemma handleData_spec op r : open_inv op → isTooLate op (Timestamp r) = false →
  assigner_ok (Assigner op) (Timestamp r) →
  ∃ op', handleDataRecord op r = Ok op' ∧ open_inv op' ∧ cfg op' = cfg op
    ∧ currentWatermark op' = currentWatermark op.
Proof.
  intros [Ha Hb] Hl (ws & Hws & Hok). unfold handleDataRecord. rewrite Hws. cbn [rbind].
  eexists. split; [done|]. split; [|done]. split; [done|]. simpl. apply foldl_assign_inv; [done|].
  by eapply accepted_windows.
Qed.

(** The operator after the watermark was advanced, before windows fire. *)
Definition advanced op (wm : Record_) : WindowOperator B :=
  if After (Timestamp wm) (currentWatermark op)
  then storeWatermark (set_watermark op (Timestamp wm)) else op.

Lemma buf_vs_Set b h v k : sb_inv b → buf (vs_Set b h v) k = buf b k.
Proof. intros Hb. unfold buf. by rewrite ls_GetAll_Set. Qed.

Lemma advanced_spec op wm : sb_inv (backend op) →
  sb_inv (backend (advanced op wm)) ∧ cfg (advanced op wm) = cfg op
  ∧ currentWatermark (advanced op wm) = Z.max (currentWatermark op) (Timestamp wm)
  ∧ ∀ k, buf (backend (advanced op wm)) k = buf (backend op) k.
Proof.
  intros Hb. unfold advanced, After. destruct (Z.ltb_spec (currentWatermark op) (Timestamp wm)).
  - split_and!; [by apply vs_Set_inv|done|simpl; unfold time in *; lia|intros k; by apply buf_vs_Set].
  - split_and!; [done|done|unfold time in *; lia|done].
Qed.

Lemma closes_spec allowed wm k : closes allowed wm k = true ↔ wk_End (parseWindowKey k) + allowed ≤ wm.
Proof.
  unfold closes, After, Add, UnixTime. rewrite negb_true_iff, Z.ltb_ge. done.
Qed.

Lemma handleWatermark_eq op wm : handleWatermark op wm
  = let op1 := advanced op wm in
    let '(b, o) := fire_keys op1 (backend op1)
      (filter (λ k, closes (AllowedLateness op1) (currentWatermark op1) k = true) (open_keys (backend op1))) in
    (set_backend op1 b, o).
Proof. done. Qed.

Lemma handleWatermark_spec op wm : open_inv op →
  let '(op', o) := handleWatermark op wm in
  open_inv op' ∧ cfg op' = cfg op ∧ currentWatermark op' = Z.max (currentWatermark op) (Timestamp wm)
  ∧ (∀ k, buf (backend op') k
      = if closes (AllowedLateness op) (currentWatermark op') k then [] else buf (backend op) k)
  ∧ ∃ keys, NoDup keys
      ∧ (∀ k, k ∈ keys ↔ buf (backend op) k ≠ [] ∧ closes (AllowedLateness op) (currentWatermark op') k = true)
      ∧ o = flat_map (λ k, fire_output op (wk_win (parseWindowKey k)) (buf (backend op) k)) keys.
Proof.
  intros [Ha [Hb Ho]]. rewrite handleWatermark_eq. cbv zeta.
  destruct (advanced_spec op wm Hb) as (Hb1 & Hc1 & Hw1 & Hbuf1). set (op1 := advanced op wm) in *.
  assert (AllowedLateness op1 = AllowedLateness op ∧ Reducer op1 = Reducer op) as [Hal Hred]
    by (unfold cfg in Hc1; by simplify_eq).
  set (keys := filter _ (open_keys (backend op1))).
  assert (NoDup keys) as Hnd by (by apply NoDup_filter, open_keys_NoDup).
  assert (∀ k, k ∈ keys ↔ buf (backend op) k ≠ [] ∧ closes (AllowedLateness op) (currentWatermark op1) k = true) as Hk.
  { intros k. unfold keys. rewrite list_elem_of_filter, open_keys_spec, Hbuf1, Hal by done. naive_solver. }
  pose proof (fire_keys_spec op1 (backend op1) keys Hb1 Hnd) as Hf.
  destruct (fire_keys op1 (backend op1) keys) as [b o]. destruct Hf as (Hi & _ & Hbuf & ->).
  assert (∀ k, buf b k = if closes (AllowedLateness op) (currentWatermark op1) k then [] else buf (backend op) k) as Hbuf'.
  { intros k. rewrite Hbuf, Hbuf1. destruct (decide (k ∈ keys)) as [Hin|Hin].
    - apply Hk in Hin as [_ ->]. done.
    - destruct (closes _ _ k) eqn:E; [|done]. destruct (buf (backend op) k) eqn:Eb; [done|].
      exfalso. apply Hin, Hk. rewrite Eb. by split. }
  split_and!; [|done|done|done|].
  - split; simpl; [by rewrite Hal|]. split; [done|]. intros k. rewrite Hbuf'.
    destruct (closes _ _ k) eqn:E; [done|]. intros Hne. destruct (Ho k Hne) as (wk & Hwk & -> & _).
    exists wk. split_and!; [done|done|]. rewrite Hal. apply not_true_iff_false in E. rewrite closes_spec in E.
    rewrite wk_parse_String in E by done. simpl. lia.
  - exists keys. split_and!; [done|done|]. apply flat_map_ext_in. intros k _. rewrite Hbuf1.
    unfold fire_output. by rewrite Hal, Hred.
Qed.
(** ** Steps *)

(** A record the operator can process: markers always, data when its instant
    fits 64 bits, the assigner covers it and its strings survive the codec. *)
Definition rec_ok (a : WindowAssigner) (r : Record_) : Prop :=
  is_data r → in_i64 (Timestamp r) ∧ assigner_ok a (Timestamp r) ∧ codec_ok (recordToJSON r).

Lemma cfg_Assigner op op' : cfg op' = cfg op → Assigner op' = Assigner op.
Proof. unfold cfg. congruence. Qed.
Lemma cfg_Allowed op op' : cfg op' = cfg op → AllowedLateness op' = AllowedLateness op.
Proof. unfold cfg. congruence. Qed.

Lemma step_ok op r : open_inv op → rec_ok (Assigner op) r →
  ∃ op' e, step op r = Ok (op', e) ∧ open_inv op' ∧ cfg op' = cfg op
    ∧ currentWatermark op ≤ currentWatermark op'.
Proof.
  intros Hi Hr. unfold step. destruct (IsWatermark r) eqn:Ew.
  - pose proof (handleWatermark_spec op r Hi) as Hs. destruct (handleWatermark op r) as [op' o].
    destruct Hs as (Hi' & Hc & Hw & _). eexists _, _. split_and!; [done|done|done|]. unfold time in *. lia.
  - destruct (IsBarrier r) eqn:Eb; [eexists _, _; split_and!; [done|done|done|lia]|].
    destruct (isTooLate op (Timestamp r)) eqn:El; [eexists _, _; split_and!; [done|done|done|lia]|].
    destruct (Hr ltac:(unfold is_data, isMarker; by rewrite Eb, Ew)) as (_ & Hao & _).
    destruct (handleData_spec op r Hi El Hao) as (op' & -> & Hi' & Hc & Hw). cbn [rbind].
    eexists _, _. split_and!; [done|done|done|lia].
Qed.

Lemma steps_ok op input : open_inv op → Forall (rec_ok (Assigner op)) input →
  ∃ op' o, steps op input = Ok (op', o) ∧ open_inv op' ∧ cfg op' = cfg op
    ∧ currentWatermark op ≤ currentWatermark op'.
Proof.
  revert op. induction input as [|r input IH]; intros op Hi Hok; cbn [steps].
  - exists op, []. split_and!; [done|done|done|lia].
  - apply Forall_cons in Hok as [Hr Hok].
    destruct (step_ok op r Hi Hr) as (op1 & e & -> & Hi1 & Hc1 & Hw1). cbn [rbind fst snd].
    rewrite <- (cfg_Assigner _ _ Hc1) in Hok.
    destruct (IH op1 Hi1 Hok) as (op2 & o & -> & Hi2 & Hc2 & Hw2). cbn [rbind fst snd].
    eexists _, _. split_and!; [done|done|congruence|lia].
Qed.

(** A watermark advances the operator's clock monotonically and fires
    exactly the non-empty windows whose end plus allowed lateness it has
    reached, each once, clearing their buffers and leaving all others
    untouched. *)
Theorem watermark_fires_exactly (op : WindowOperator B) (wm : Record_) :
  open_inv op →
  let '(op', o) := handleWatermark op wm in
  currentWatermark op' = Z.max (currentWatermark op) (Timestamp wm)
  ∧ (∀ wk, wk_ok wk →
      buf (backend op') (wk_String wk)
      = if decide (wk_End wk + AllowedLateness op ≤ currentWatermark op') then []
        else buf (backend op) (wk_String wk))
  ∧ ∃ fired, NoDup fired
      ∧ (∀ wk, wk_ok wk → wk ∈ fired
          ↔ buf (backend op) (wk_String wk) ≠ []
            ∧ wk_End wk + AllowedLateness op ≤ currentWatermark op')
      ∧ o = flat_map (λ wk, fire_output op (wk_win wk) (buf (backend op) (wk_String wk))) fired.
Proof.
  intros Hi. pose proof (handleWatermark_spec op wm Hi) as Hs. destruct (handleWatermark op wm) as [op' o].
  destruct Hs as (Hi' & Hc & Hw & Hbuf & keys & Hnd & Hk & ->). split_and!; [done|..].
  - intros wk Hwk. rewrite Hbuf. destruct (closes _ _ _) eqn:E.
    + apply closes_spec in E. rewrite wk_parse_String in E by done. by rewrite decide_True.
    + apply not_true_iff_false in E. rewrite closes_spec, wk_parse_String in E by done. by rewrite decide_False.
  - destruct Hi as [_ [_ Ho]].
    assert (Hopen : ∀ k, k ∈ keys → wk_ok (parseWindowKey k) ∧ wk_String (parseWindowKey k) = k).
    { intros k [Hne _]%Hk. destruct (Ho k Hne) as (wk & Hwk & -> & _). by rewrite wk_parse_String. }
    exists (parseWindowKey <$> keys). split_and!.
    + apply NoDup_fmap_2_strong; [|done]. intros x y Hx Hy E.
      destruct (Hopen x Hx) as [_ <-], (Hopen y Hy) as [_ <-]. by rewrite E.
    + intros wk Hwk. rewrite list_elem_of_fmap. split.
      * intros (k & -> & Hin). destruct (Hopen k Hin) as [_ ->]. apply Hk in Hin as [? ?%closes_spec]. done.
      * intros [Hne Hle]. exists (wk_String wk). rewrite wk_parse_String by done. split; [done|].
        apply Hk. split; [done|]. apply closes_spec. by rewrite wk_parse_String.
    + rewrite flat_map_concat_map, flat_map_concat_map. f_equal.
      change (parseWindowKey <$> keys) with (map parseWindowKey keys). rewrite map_map. apply map_ext_in.
      intros k Hin%list_elem_of_In. by destruct (Hopen k Hin) as [_ ->].
Qed.

(** Once the watermark has passed a window's end plus allowed lateness,
    no later input puts a record into its buffer. *)
Theorem window_never_reopens (op op' : WindowOperator B) (input o : list Record_) (wk : windowKey) :
  open_inv op → wk_ok wk → wk_End wk + AllowedLateness op ≤ currentWatermark op →
  Forall (rec_ok (Assigner op)) input → steps op input = Ok (op', o) →
  buf (backend op') (wk_String wk) = [].
Proof.
  intros Hi Hwk Hle Hok Hs. destruct (steps_ok op input Hi Hok) as (op1 & o1 & E & Hi1 & Hc1 & Hw1).
  rewrite E in Hs. injection Hs as -> ->. destruct (buf (backend op') (wk_String wk)) eqn:Eb; [done|exfalso].
  destruct Hi1 as [_ [_ Ho]]. destruct (Ho (wk_String wk)) as (wk' & Hwk' & Ek & Hlt); [by rewrite Eb|].
  apply wk_String_inj in Ek as <-; [|done..]. rewrite (cfg_Allowed _ _ Hc1) in Hlt. lia.
Qed.
(** ** Every accepted record is emitted once per window *)

(** The records that are not too late, in order. *)
Fixpoint accepted (allowed : duration) (wm : time) (input : list Record_) : list Record_ :=
  match input with
  | [] => []
  | r :: input' =>
      if IsWatermark r then accepted allowed (Z.max wm (Timestamp r)) input'
      else if IsBarrier r then accepted allowed wm input'
      else if negb (IsZero wm) && Before (Timestamp r) (Add wm (- allowed)) then accepted allowed wm input'
      else r :: accepted allowed wm input'
  end.

(** One output per window of the record. *)
Definition windows_of (a : WindowAssigner) (ts : time) : list Window :=
  match AssignWindows a ts with Ok ws => ws | _ => [] end.
Definition expected (a : WindowAssigner) (allowed : duration) (r : Record_) : list Record_ :=
  (λ w, tagWithWindowAndLateness r w allowed) <$> windows_of a (Timestamp r).

(** A buffered entry as it will be emitted. *)
Definition render (allowed : duration) (k v : bytes) : Record_ :=
  tagWithWindowAndLateness (decodeRecord v) (wk_win (parseWindowKey k)) allowed.

Lemma tag_decode r win allowed : in_i64 (Timestamp r) → codec_ok (recordToJSON r) →
  tagWithWindowAndLateness (decodeRecord (encodeRecord r)) win allowed = tagWithWindowAndLateness r win allowed.
Proof.
  intros Hts Hc. unfold decodeRecord, encodeRecord. rewrite json_roundtrip by done.
  unfold tagWithWindowAndLateness, recordFromJSON, recordToJSON, UnixTime, UnixNano. simpl.
  by rewrite wrap64_id.
Qed.

Lemma assign_total op b key win rec allowed : IsSession (Assigner op) = false → sb_inv b →
  total (render allowed) (assignToWindow op b key win rec)
  ≡ₚ render allowed (wk_String (toWindowKey key win)) rec :: total (render allowed) b.
Proof. intros Hs Hb. unfold assignToWindow. rewrite Hs. by apply total_Append. Qed.

Lemma foldl_assign_total op b r ws allowed : IsSession (Assigner op) = false → sb_inv b →
  in_i64 (Timestamp r) → codec_ok (recordToJSON r) →
  Forall (λ w, Timestamp r < End_ w ∧ in_i64 (Start w) ∧ in_i64 (End_ w)) ws →
  total (render allowed) (foldl (λ b win, assignToWindow op b (Key r) win (encodeRecord r)) b ws)
  ≡ₚ ((λ w, tagWithWindowAndLateness r w allowed) <$> ws) ++ total (render allowed) b.
Proof.
  intros Hs Hb Hts Hc Hws. revert b Hb. induction Hws as [|w ws (_ & Hst & He) _ IH]; intros b Hb; [done|].
  cbn [foldl fmap list_fmap]. rewrite IH by (by apply assign_spec).
  rewrite assign_total by done. rewrite <- Permutation_middle. cbn [app]. f_equiv.
  unfold render. rewrite tag_decode, wk_parse_String by (done || apply wk_ok_to).
  unfold wk_win, toWindowKey, UnixTime, UnixNano. simpl. rewrite !wrap64_id by done. by destruct w.
Qed.

Lemma fire_output_render op k b : Reducer op = None →
  fire_output op (wk_win (parseWindowKey k)) (buf b k) = render (AllowedLateness op) k <$> buf b k.
Proof. intros Hr. unfold fire_output. by rewrite Hr. Qed.

Lemma handleWatermark_total op wm : open_inv op → Reducer op = None →
  let '(op', o) := handleWatermark op wm in
  Forall is_data o
  ∧ o ++ total (render (AllowedLateness op)) (backend op') ≡ₚ total (render (AllowedLateness op)) (backend op).
Proof.
  intros Hi Hred. pose proof (handleWatermark_spec op wm Hi) as Hs. destruct (handleWatermark op wm) as [op' o].
  destruct Hs as (Hi' & Hc & Hw & Hbuf & keys & Hnd & Hk & ->).
  destruct Hi as [_ [Hb _]]. destruct Hi' as [_ [Hb' _]].
  set (cl := λ k, closes (AllowedLateness op) (currentWatermark op') k = true).
  split.
  { apply Forall_flat_map, Forall_forall. intros k _. rewrite fire_output_render by done.
    apply Forall_fmap, Forall_true. done. }
  pose proof (open_keys_NoDup (backend op) Hb) as HndL.
  rewrite (total_cover _ (backend op') (open_keys (backend op))); [|done|done|].
  2:{ intros k. rewrite Hbuf. destruct (closes _ _ k); [done|]. by apply open_keys_spec. }
  unfold total at 1. rewrite (flat_map_split (λ k, render (AllowedLateness op) k <$> buf (backend op) k) cl).
  apply Permutation_app.
  - rewrite (flat_map_ext_in _ (λ k, render (AllowedLateness op) k <$> buf (backend op) k))
      by (intros; by apply fire_output_render).
    apply flat_map_Permutation, NoDup_Permutation; [done|by apply NoDup_filter|].
    intros k. rewrite Hk, list_elem_of_filter, open_keys_spec by done. unfold cl. naive_solver.
  - rewrite <- (flat_map_filter_nil _ (λ k, ¬ cl k) (open_keys (backend op))).
    + erewrite flat_map_ext_in; [reflexivity|]. intros k [Hn _]%list_elem_of_filter. unfold cl in Hn.
      rewrite Hbuf. by destruct (closes _ _ k).
    + intros k _ Hn. apply dec_stable in Hn. unfold cl in Hn. by rewrite Hbuf, Hn.
Qed.

Lemma flush_total op : open_inv op → Reducer op = None →
  Forall is_data (flushRemaining op).2
  ∧ (flushRemaining op).2 ≡ₚ total (render (AllowedLateness op)) (backend op).
Proof.
  intros [_ [Hb _]] Hred. unfold flushRemaining. fold (open_keys (backend op)).
  pose proof (fire_keys_spec op (backend op) (open_keys (backend op)) Hb (open_keys_NoDup _ Hb)) as Hf.
  destruct (fire_keys op (backend op) (open_keys (backend op))) as [b o]. destruct Hf as (_ & _ & _ & ->).
  cbn [snd]. rewrite (flat_map_ext_in _ (λ k, render (AllowedLateness op) k <$> buf (backend op) k))
    by (intros; by apply fire_output_render).
  split; [|done]. apply Forall_flat_map, Forall_forall. intros k _. apply Forall_fmap, Forall_true. done.
Qed.
End correct.
