(* ===== verification/WindowRun.v ===== *)
(** * The window operator over whole streams

    The results of [WindowCorrect] put together: a run from an empty buffer
    emits every accepted record exactly once per window; session windows of a
    key stay disjoint and lose nothing when they merge; restoring a snapshot
    gives back the buffers and the watermark. *)

From S2P Require Import Prelude Record Window Rfc3339 Decimal State Pebble Stateless Reduce WindowOp WindowCorrect.
From Stdlib Require Import Strings.Byte.

Section run.
Context {TT : TimeText} {RC : RecordCodec} {B : Type} {SB : StateBackend B} {SL : StateBackendLaws B}.
Implicit Types (op : WindowOperator B) (b : B).

(** ** A run *)

Definition barriers (l : list Record_) : list Record_ :=
  filter (λ r, IsWatermark r = false ∧ IsBarrier r = true) l.

Lemma filter_data_all o : Forall is_data o → filter is_data o = o ∧ barriers o = [].
Proof.
  intros Ho. split; [by apply filter_all|]. unfold barriers. apply filter_none.
  eapply Forall_impl; [exact Ho|]. intros r Hr [Hw Hb]. unfold is_data, isMarker in Hr. by rewrite Hw, Hb in Hr.
Qed.

(** One record: what it emits and what it leaves buffered. *)
Lemma step_total op r : open_inv op → rec_ok (Assigner op) r →
  IsSession (Assigner op) = false → Reducer op = None →
  ∃ op' e, step op r = Ok (op', e) ∧ open_inv op' ∧ cfg op' = cfg op
    ∧ currentWatermark op' = (if IsWatermark r then Z.max (currentWatermark op) (Timestamp r) else currentWatermark op)
    ∧ barriers (emitted e) = barriers [r]
    ∧ filter is_data (emitted e) ++ total (render (AllowedLateness op)) (backend op')
      ≡ₚ flat_map (expected (Assigner op) (AllowedLateness op)) (accepted (AllowedLateness op) (currentWatermark op) [r])
         ++ total (render (AllowedLateness op)) (backend op).
Proof.
  intros Hi Hr Hs Hred. unfold step, barriers. rewrite (filter_cons _ r). cbn [accepted].
  destruct (IsWatermark r) eqn:Ew.
  - pose proof (handleWatermark_spec op r Hi) as Hsp. pose proof (handleWatermark_total op r Hi Hred) as Ht.
    destruct (handleWatermark op r) as [op' o]. destruct Hsp as (Hi' & Hc & Hw & _). destruct Ht as [Hd Ht].
    eexists _, _. split_and!; [done|done|done|done| |].
    + rewrite decide_False by (by intros [? _]). simpl. by apply filter_data_all.
    + simpl. by rewrite (filter_all is_data).
  - destruct (IsBarrier r) eqn:Eb.
    + eexists _, _. split_and!; [done|done|done|done| |].
      * simpl. rewrite filter_cons, Ew, Eb. done.
      * simpl. by rewrite filter_cons_False by (unfold is_data, isMarker; by rewrite Eb).
    + assert (is_data r) as Hd by (unfold is_data, isMarker; by rewrite Eb, Ew).
      destruct (Hr Hd) as (Hts & Hao & Hc).
      assert (negb (IsZero (currentWatermark op)) && Before (Timestamp r) (Add (currentWatermark op) (- AllowedLateness op))
        = isTooLate op (Timestamp r)) as ->.
      { unfold isTooLate. by destruct (IsZero (currentWatermark op)). }
      rewrite decide_False by (by intros [_ ?]). destruct (isTooLate op (Timestamp r)) eqn:El.
      * eexists _, _. split_and!; done.
      * destruct (handleData_spec op r Hi El Hao) as (op' & E & Hi' & Hcf & Hw).
        rewrite E. cbn [rbind]. eexists _, _. split_and!; [done|done|done|done|done|].
        destruct Hao as (ws & Hws & Hok). unfold handleDataRecord in E. rewrite Hws in E. cbn [rbind] in E.
        injection E as <-. cbn [emitted filter list_filter app flat_map]. rewrite app_nil_r.
        unfold expected, windows_of. rewrite Hws. destruct Hi as [_ [Hb _]]. simpl.
        by apply foldl_assign_total.
Qed.

Lemma accepted_cons allowed wm r input : accepted allowed wm (r :: input)
  = accepted allowed wm [r] ++ accepted allowed (if IsWatermark r then Z.max wm (Timestamp r) else wm) input.
Proof.
  cbn [accepted]. destruct (IsWatermark r); [done|]. destruct (IsBarrier r); [done|].
  by destruct (negb _ && _).
Qed.

Lemma steps_total op input : open_inv op → Forall (rec_ok (Assigner op)) input →
  IsSession (Assigner op) = false → Reducer op = None →
  ∃ op' o, steps op input = Ok (op', o) ∧ open_inv op' ∧ cfg op' = cfg op
    ∧ barriers o = barriers input
    ∧ filter is_data o ++ total (render (AllowedLateness op)) (backend op')
      ≡ₚ flat_map (expected (Assigner op) (AllowedLateness op)) (accepted (AllowedLateness op) (currentWatermark op) input)
         ++ total (render (AllowedLateness op)) (backend op).
Proof.
  revert op. induction input as [|r input IH]; intros op Hi Hok Hs Hred; cbn [steps].
  - exists op, []. by split_and!.
  - apply Forall_cons in Hok as [Hr Hok].
    destruct (step_total op r Hi Hr Hs Hred) as (op1 & e & -> & Hi1 & Hc1 & Hw1 & Hb1 & Ht1). cbn [rbind fst snd].
    assert (Assigner op1 = Assigner op ∧ AllowedLateness op1 = AllowedLateness op ∧ Reducer op1 = Reducer op)
      as (HA & HL & HR) by (unfold cfg in Hc1; split_and!; congruence).
    destruct (IH op1 Hi1) as (op2 & o & -> & Hi2 & Hc2 & Hb2 & Ht2); [by rewrite HA|by rewrite HA|by rewrite HR|].
    cbn [rbind fst snd]. eexists _, _. split_and!; [done|done|congruence| |].
    + unfold barriers in *. change (r :: input) with ([r] ++ input). by rewrite !filter_app, Hb1, Hb2.
    + rewrite HA, HL, Hw1 in Ht2. rewrite filter_app, accepted_cons, flat_map_app, <- !app_assoc, Ht2.
      rewrite (app_assoc (filter is_data (emitted e))), (Permutation_app_comm (filter is_data (emitted e))).
      rewrite <- app_assoc, Ht1, !app_assoc. f_equiv. apply Permutation_app_comm.
Qed.

(** A run of the operator, from empty buffers. *)
Lemma run_accepted (op : WindowOperator B) (input : list Record_) :
  sb_inv (backend op) → (∀ k, buf (backend op) k = []) → 0 ≤ AllowedLateness op →
  IsSession (Assigner op) = false → Reducer op = None → Forall (rec_ok (Assigner op)) input →
  ∃ o, run op input = Ok o
    ∧ barriers o = barriers input
    ∧ filter is_data o
      ≡ₚ flat_map (expected (Assigner op) (AllowedLateness op))
           (accepted (AllowedLateness op) (loadWatermark op) input).
Proof.
  intros Hb He Ha Hs Hred Hok. unfold run. set (op0 := set_watermark op (loadWatermark op)).
  assert (open_inv op0) as Hi.
  { split; [done|]. split; [done|]. intros k Hk. by rewrite He in Hk. }
  destruct (steps_total op0 input Hi Hok Hs Hred) as (op' & o & -> & Hi' & Hc & Hbar & Ht). cbn [rbind fst snd].
  assert (AllowedLateness op' = AllowedLateness op ∧ Reducer op' = Reducer op) as (HL & HR)
    by (unfold cfg in Hc; simpl in Hc; split_and!; congruence).
  destruct (flush_total op' Hi') as [Hfd Hft]; [by rewrite HR|]. destruct (filter_data_all _ Hfd) as [Hf1 Hf2].
  eexists. split; [done|]. split.
  - unfold barriers in *. rewrite filter_app, Hbar, Hf2. apply app_nil_r.
  - rewrite filter_app, Hf1, Hft, HL. simpl in Ht. rewrite Ht.
    assert (total (render (AllowedLateness op)) (backend op) = []) as ->; [|by rewrite app_nil_r].
    unfold total. destruct (open_keys (backend op)) as [|k ks] eqn:E; [done|].
    exfalso. assert (k ∈ open_keys (backend op)) as Hin by (rewrite E; left).
    apply open_keys_spec in Hin; [|done]. by rewrite He in Hin.
Qed.


(** ** Session windows *)

Lemma min_start_glb x st ks : x ≤ st → (∀ k, k ∈ ks → x ≤ wk_Start (parseWindowKey k)) → x ≤ min_start st ks.
Proof.
  unfold min_start. revert st. induction ks as [|k ks IH]; intros st Hst Hk; simpl; [done|].
  apply IH; [|intros; apply Hk; by right]. specialize (Hk k ltac:(left)). lia.
Qed.
Lemma min_start_lb st ks : min_start st ks ≤ st ∧ ∀ k, k ∈ ks → min_start st ks ≤ wk_Start (parseWindowKey k).
Proof.
  unfold min_start. revert st. induction ks as [|k ks IH]; intros st; simpl.
  - split; [lia|]. by intros ? ?%not_elem_of_nil.
  - destruct (IH (Z.min st (wk_Start (parseWindowKey k)))) as [H1 H2]. split; [lia|].
    intros x [->|Hx]%elem_of_cons; [lia|by apply H2].
Qed.
Lemma max_end_lub x e ks : e ≤ x → (∀ k, k ∈ ks → wk_End (parseWindowKey k) ≤ x) → max_end e ks ≤ x.
Proof.
  unfold max_end. revert e. induction ks as [|k ks IH]; intros e He Hk; simpl; [done|].
  apply IH; [|intros; apply Hk; by right]. specialize (Hk k ltac:(left)). lia.
Qed.
Lemma max_end_ub e ks k : k ∈ ks → wk_End (parseWindowKey k) ≤ max_end e ks.
Proof.
  revert e. induction ks as [|x ks IH]; intros e; [by intros ?%not_elem_of_nil|].
  change (max_end e (x :: ks)) with (max_end (Z.max e (wk_End (parseWindowKey x))) ks).
  intros [->|Hx]%elem_of_cons; [|by apply IH].
  pose proof (max_end_ge (Z.max e (wk_End (parseWindowKey x))) ks). unfold time in *. lia.
Qed.
Lemma min_start_i64 st ks : in_i64 st → in_i64 (min_start st ks).
Proof.
  intros Hst. destruct (min_start_lb st ks) as [Hle _]. split; [|unfold in_i64 in *; lia].
  apply min_start_glb; [by destruct Hst|]. intros k _. by destruct (parse_i64 k) as [[? _] _].
Qed.

(** Two windows share no instant. *)
Definition disjoint (k k' : bytes) : Prop :=
  wk_End (parseWindowKey k) ≤ wk_Start (parseWindowKey k') ∨ wk_End (parseWindowKey k') ≤ wk_Start (parseWindowKey k).

(** Buffered sessions are proper windows, disjoint for one record key. *)
Record sess_inv b : Prop := {
  si_inv : sb_inv b;
  si_key : ∀ k, buf b k ≠ [] → ∃ wk, wk_ok wk ∧ k = wk_String wk ∧ wk_Start wk < wk_End wk;
  si_disj : ∀ k k', buf b k ≠ [] → buf b k' ≠ [] → k ≠ k' →
    wk_Key (parseWindowKey k) = wk_Key (parseWindowKey k') → disjoint k k'
}.

(** A session that does not meet the new window does not meet the merged one:
    it lies on one side of everything that was merged. *)
Lemma hull_disjoint key win ov k : Start win < End_ win →
  wk_Start (parseWindowKey k) < wk_End (parseWindowKey k) →
  (∀ x, x ∈ ov → overlaps key win x ∧ disjoint x k) →
  wk_Key (parseWindowKey k) = key → ¬ overlaps key win k →
  wk_End (parseWindowKey k) ≤ min_start (Start win) ov ∨ max_end (End_ win) ov ≤ wk_Start (parseWindowKey k).
Proof.
  intros Hw Hk Hov Hkey Hn. unfold overlaps in Hn.
  assert (wk_End (parseWindowKey k) ≤ Start win ∨ End_ win ≤ wk_Start (parseWindowKey k)) as [Hl|Hr].
  { destruct (Z.le_gt_cases (wk_End (parseWindowKey k)) (Start win)); [by left|].
    destruct (Z.le_gt_cases (End_ win) (wk_Start (parseWindowKey k))); [by right|].
    exfalso. apply Hn. split_and!; [done|unfold time in *; lia..]. }
  - left. apply min_start_glb; [done|]. intros x Hx. destruct (Hov x Hx) as [(_ & H1 & H2) [Hd|Hd]]; unfold time in *; lia.
  - right. apply max_end_lub; [done|]. intros x Hx. destruct (Hov x Hx) as [(_ & H1 & H2) [Hd|Hd]]; unfold time in *; lia.
Qed.

Section session.
Context (op : WindowOperator B) (Hsess : IsSession (Assigner op) = true).
Context (b : B) (key rec : bytes) (win : Window).
Context (Hinv : sess_inv b) (Hst : in_i64 (Start win)) (He : in_i64 (End_ win)) (Hwin : Start win < End_ win).

Let ov := merged_keys op b key win.
Let wk := toWindowKey key (hull win ov).
Let mk := wk_String wk.

Lemma ov_spec k : k ∈ ov ↔ overlaps key win k ∧ buf b k ≠ [].
Proof.
  unfold ov, merged_keys. rewrite Hsess, list_elem_of_filter, open_keys_spec by apply Hinv. done.
Qed.

Lemma wk_hull : wk = mkWindowKey key (min_start (Start win) ov) (max_end (End_ win) ov) ∧ wk_ok wk
  ∧ wk_Start wk ≤ Start win ∧ End_ win ≤ wk_End wk.
Proof.
  assert (in_i64 (min_start (Start win) ov)) as H1 by (by apply min_start_i64).
  assert (in_i64 (max_end (End_ win) ov)) as H2 by (apply max_end_i64; [done|intros; apply parse_i64]).
  assert (wk = mkWindowKey key (min_start (Start win) ov) (max_end (End_ win) ov)) as Hwk
    by (unfold wk, toWindowKey, hull, UnixNano; simpl; by rewrite !wrap64_id).
  rewrite Hwk. split_and!; [done|by split|simpl; apply min_start_lb|simpl; apply max_end_ge].
Qed.

Lemma parse_mk : parseWindowKey mk = wk.
Proof. apply wk_parse_String. apply wk_hull. Qed.

(** The merged window's buffer held nothing outside the merged sessions. *)
Lemma mk_fresh : (if decide (mk ∈ ov) then [] else buf b mk) = [].
Proof.
  destruct (decide (mk ∈ ov)) as [|Hn]; [done|]. destruct (buf b mk) eqn:E; [done|]. exfalso. apply Hn, ov_spec.
  split; [|by rewrite E]. destruct wk_hull as (Hwk & _ & Hs & Hend). unfold overlaps. rewrite parse_mk.
  split_and!; [by rewrite Hwk| |]; unfold time in *; lia.
Qed.

Lemma session_buf x : buf (assignToWindow op b key win rec) x
  = if decide (mk = x) then flat_map (buf b) ov ++ [rec] else if decide (x ∈ ov) then [] else buf b x.
Proof.
  destruct (assign_spec op b key win rec (si_inv _ Hinv)) as (_ & _ & ->). fold ov. fold wk. fold mk.
  destruct (decide (mk = x)) as [<-|]; [by rewrite mk_fresh|by rewrite app_nil_r].
Qed.

Lemma session_sess_inv : sess_inv (assignToWindow op b key win rec).
Proof.
  destruct wk_hull as (Hwk & Hok & Hs & Hend).
  assert (Hold : ∀ x, mk ≠ x → buf (assignToWindow op b key win rec) x ≠ [] → buf b x ≠ [] ∧ x ∉ ov).
  { intros x Hx. rewrite session_buf, decide_False by done. by case_decide. }
  assert (Hmk : ∀ x, mk ≠ x → buf (assignToWindow op b key win rec) x ≠ [] → wk_Key (parseWindowKey x) = key → disjoint mk x).
  { intros x Hx Hne Hkey. destruct (Hold x Hx Hne) as [Hbx Hnin].
    destruct (si_key _ Hinv x Hbx) as (wx & Hwx & -> & Hlt).
    unfold disjoint. rewrite parse_mk, Hwk. simpl.
    destruct (hull_disjoint key win ov (wk_String wx)) as [?|?]; [done| | |done| |by right|by left].
    - by rewrite wk_parse_String.
    - intros y Hy. pose proof Hy as [Hyo Hyb]%ov_spec. split; [done|].
      apply (si_disj _ Hinv); [done|done| |by destruct Hyo as [-> _]]. by intros ->.
    - intros Ho. apply Hnin, ov_spec. by split. }
  split.
  - apply assign_spec, Hinv.
  - intros x Hx. destruct (decide (mk = x)) as [<-|Hne].
    + exists wk. split_and!; [done|done|unfold time in *; lia].
    + by apply (si_key _ Hinv), Hold.
  - intros x y Hx Hy Hne Hkey. destruct (decide (mk = x)) as [<-|Hnx], (decide (mk = y)) as [<-|Hny]; [done|..].
    + apply Hmk; [done|done|]. rewrite <- Hkey, parse_mk. by rewrite Hwk.
    + rewrite parse_mk, Hwk in Hkey. destruct (Hmk x Hnx Hx Hkey) as [?|?]; [by right|by left].
    + apply (si_disj _ Hinv); [by apply Hold|by apply Hold|done|done].
Qed.

Lemma session_total : total (λ _ v, v) (assignToWindow op b key win rec) ≡ₚ rec :: total (λ _ v, v) b.
Proof.
  rewrite assign_eq. fold ov. fold wk. fold mk.
  assert (Hclr : ∀ ks b, sb_inv b → NoDup ks →
    total (λ _ v, v) b ≡ₚ flat_map (buf b) ks ++ total (λ _ v, v) (foldl (λ b k, ls_Clear b (rec_at k)) b ks)).
  { intros ks. induction ks as [|k ks IH]; intros b0 Hb0 Hnd; cbn [foldl flat_map]; [done|].
    apply NoDup_cons in Hnd as [Hk Hnd].
    rewrite (total_Clear _ b0 k), list_fmap_id, (IH (ls_Clear b0 (rec_at k))), app_assoc by (done || by apply ls_Clear_inv).
    rewrite (flat_map_ext_in (buf (ls_Clear b0 (rec_at k))) (buf b0)); [done|].
    intros x Hx. rewrite buf_Clear, decide_False by (done || by intros ->). done. }
  assert (Happ : ∀ vs b, sb_inv b →
    sb_inv (append_all b (rec_at mk) vs) ∧ total (λ _ v, v) (append_all b (rec_at mk) vs) ≡ₚ vs ++ total (λ _ v, v) b).
  { unfold append_all. intros vs. induction vs as [|v vs IH]; intros b0 Hb0; cbn [foldl app]; [done|].
    destruct (IH (ls_Append b0 (rec_at mk) v)) as [? ->]; [by apply ls_Append_inv|]. split; [done|].
    rewrite total_Append by done. symmetry. apply Permutation_middle. }
  destruct (clear_all_spec b ov (si_inv _ Hinv)) as (Hi1 & _ & _).
  destruct (Happ (flat_map (buf b) ov) _ Hi1) as [Hi2 Ht2]. rewrite total_Append, Ht2 by done.
  rewrite <- Hclr; [done|apply Hinv|]. unfold ov, merged_keys. rewrite Hsess. apply NoDup_filter, open_keys_NoDup, Hinv.
Qed.
End session.
(** Assigning a record to a session merges exactly the key's
    overlapping sessions into one that covers them, keeps every buffered
    record, and keeps the sessions of a key disjoint. *)
Theorem session_merge_correct (op : WindowOperator B) (b : B) (key rec : bytes) (win : Window) :
  IsSession (Assigner op) = true → sess_inv b →
  in_i64 (Start win) → in_i64 (End_ win) → Start win < End_ win →
  let b' := assignToWindow op b key win rec in
  sess_inv b'
  ∧ total (λ _ v, v) b' ≡ₚ rec :: total (λ _ v, v) b
  ∧ ∃ wk merged, wk_Key wk = key ∧ wk_Start wk ≤ Start win ∧ End_ win ≤ wk_End wk
      ∧ (∀ k, k ∈ merged ↔ overlaps key win k ∧ buf b k ≠ [])
      ∧ (∀ k, k ∈ merged → wk_Start wk ≤ wk_Start (parseWindowKey k) ∧ wk_End (parseWindowKey k) ≤ wk_End wk)
      ∧ buf b' (wk_String wk) = flat_map (buf b) merged ++ [rec].
Proof.
  intros Hsess Hinv Hst He Hwin b'.
  split; [by apply session_sess_inv|]. split; [by apply session_total|].
  destruct (wk_hull op b key win Hst He) as (Hwk & Hok & Hs & Hend).
  exists (toWindowKey key (hull win (merged_keys op b key win))), (merged_keys op b key win).
  split; [by rewrite Hwk|]. split; [exact Hs|]. split; [exact Hend|]. split; [|split].
  - intros k. by apply ov_spec.
  - intros k Hk. rewrite Hwk. simpl. split; [by apply min_start_lb|by apply max_end_ub].
  - unfold b'. rewrite session_buf by done. by rewrite decide_True.
Qed.

(** ** Snapshots *)

(** Every buffered entry is the text of some record. *)
Definition stored_ok b : Prop := ∀ k v, v ∈ buf b k → ∃ rj, codec_ok rj ∧ v = encodeRecordJSON rj.

Lemma snapshot_windows op k : sb_inv (backend op) →
  snap_windows (Snapshot op) !! k
  = if decide (buf (backend op) k = []) then None
    else Some (mkWindowState (wk_win (parseWindowKey k)) (decodeRecordJSON <$> buf (backend op) k)).
Proof.
  intros Hb. unfold Snapshot. simpl. fold (open_keys (backend op)).
  assert (Hfold : ∀ ks (m : gmap bytes windowState),
    foldl (λ m keyStr, <[keyStr := mkWindowState (wk_win (parseWindowKey keyStr))
       (decodeRecordJSON <$> ls_GetAll (backend op) (rec_at keyStr))]> m) m ks !! k
    = if decide (k ∈ ks) then Some (mkWindowState (wk_win (parseWindowKey k)) (decodeRecordJSON <$> buf (backend op) k))
      else m !! k).
  { intros ks. induction ks as [|x ks IH]; intros m; cbn [foldl].
    - by rewrite decide_False by apply not_elem_of_nil.
    - rewrite IH. destruct (decide (k ∈ ks)); [by rewrite decide_True by (by right)|].
      destruct (decide (k = x)) as [->|Hne].
      + by rewrite lookup_insert_eq, decide_True by left.
      + rewrite lookup_insert_ne by done. rewrite decide_False; [done|]. intros [?|?]%elem_of_cons; done. }
  rewrite Hfold. destruct (decide (buf (backend op) k = [])) as [E|E].
  - rewrite decide_False; [apply lookup_empty|]. intros Hin. by apply open_keys_spec in Hin.
  - rewrite decide_True; [done|]. by apply open_keys_spec.
Qed.

Lemma restore_fold b (f : bytes → list bytes) keys : sb_inv b → NoDup keys →
  let b' := foldl (λ b k, append_all b (rec_at k) (f k)) b keys in
  sb_inv b' ∧ (∀ h, vs_Get b' h = vs_Get b h)
  ∧ ∀ x, buf b' x = if decide (x ∈ keys) then buf b x ++ f x else buf b x.
Proof.
  revert b. induction keys as [|k keys IH]; intros b Hb Hnd; cbn [foldl].
  - split_and!; [done|done|]. intros x. by rewrite decide_False by apply not_elem_of_nil.
  - apply NoDup_cons in Hnd as [Hk Hnd]. destruct (append_all_spec b k (f k) Hb) as (Hi & Hv & Hbuf).
    destruct (IH _ Hi Hnd) as (Hi' & Hv' & Hbuf'). split_and!.
    + done.
    + intros h. by rewrite Hv', Hv.
    + intros x. rewrite Hbuf', Hbuf.
      destruct (decide (k = x)) as [->|Hne].
      * rewrite decide_False by done. by rewrite decide_True by left.
      * destruct (decide (x ∈ keys)); [by rewrite decide_True by (by right)|].
        rewrite decide_False; [done|]. intros [->|?]%elem_of_cons; done.
Qed.

Lemma load_store op : sb_inv (backend op) →
  loadWatermark (storeWatermark op) = UnixTime (UnixNano (currentWatermark op)).
Proof.
  intros Hb. unfold loadWatermark, storeWatermark. simpl. rewrite vs_Get_Set, decide_True by done.
  rewrite decide_True by apply length_be.
  rewrite Uint64_Put by (apply Z.mod_pos_bound; done). rewrite wrap64_wrapu64. unfold UnixNano.
  by rewrite wrap64_idemp.
Qed.

(** Restoring a window operator's snapshot into a fresh operator brings
    back every window buffer and the watermark. *)
Theorem window_restore_roundtrip (op fresh : WindowOperator B) (keys : list bytes) :
  sb_inv (backend op) → stored_ok (backend op) → sb_inv (backend fresh) → in_i64 (currentWatermark op) →
  NoDup keys → (∀ k, k ∈ keys ↔ is_Some (snap_windows (Snapshot op) !! k)) →
  let op' := Restore fresh (Snapshot op) keys in
  (∀ k, buf (backend op') k = buf (backend op) k)
  ∧ currentWatermark op' = currentWatermark op ∧ loadWatermark op' = currentWatermark op.
Proof.
  intros Hb Hst Hf Hwm Hnd Hk op'. unfold op', Restore.
  set (op1 := storeWatermark (set_watermark fresh (UnixTime (snap_watermark (Snapshot op))))).
  assert (sb_inv (backend op1)) as Hb1 by (by apply vs_Set_inv).
  fold (open_keys (backend op1)).
  destruct (clear_all_spec (backend op1) (open_keys (backend op1)) Hb1) as (Hi2 & Hv2 & Hb2).
  destruct (restore_fold _ (λ k, encodeRecordJSON <$> default [] (Records <$> snap_windows (Snapshot op) !! k))
    keys Hi2 Hnd) as (Hi3 & Hv3 & Hb3). cbn [backend set_backend].
  assert (Hw1 : UnixTime (UnixNano (UnixTime (UnixNano (currentWatermark op)))) = currentWatermark op)
    by (unfold UnixTime, UnixNano; by rewrite !wrap64_id by (rewrite ?wrap64_id; done)).
  split_and!.
  - intros k. rewrite Hb3, Hb2, snapshot_windows by done.
    assert ((if decide (k ∈ open_keys (backend op1)) then [] else buf (backend op1) k) = []) as ->.
    { destruct (decide (k ∈ open_keys (backend op1))) as [|Hn]; [done|].
      destruct (buf (backend op1) k) eqn:E; [done|]. exfalso. apply Hn, open_keys_spec; [done|]. by rewrite E. }
    specialize (Hk k). rewrite snapshot_windows in Hk by done.
    destruct (decide (buf (backend op) k = [])) as [E|E]; cbn [fmap option_fmap option_map default from_option Records].
    + rewrite decide_False; [done|]. by intros [? ?]%Hk.
    + rewrite decide_True by (apply Hk; eauto). cbn [app id]. rewrite <- list_fmap_compose.
      transitivity (id <$> buf (backend op) k); [|apply list_fmap_id]. apply list_fmap_ext. intros i v Hv. simpl.
      destruct (Hst k v) as (rj & Hc & ->); [by eapply list_elem_of_lookup_2|]. by rewrite json_roundtrip.
  - unfold op1. simpl. unfold UnixTime, UnixNano. by apply wrap64_id.
  - transitivity (loadWatermark op1).
    + unfold loadWatermark. cbn [backend set_backend]. by rewrite Hv3, Hv2.
    + unfold op1. rewrite load_store by done. done.
Qed.
End run.

(** ** The assigners of [src/window] meet the contract *)

Lemma tumbling_ok t ts : ws_safe ts (t_size t) (t_offset t) → t_offset t ≤ ts → in_i64 (ts + t_size t) →
  assigner_ok (tumbling_assigner t) ts.
Proof.
  intros Hs Hle Hi. unfold assigner_ok. simpl. unfold Tumbling_AssignWindows. rewrite WindowStart_safe by done. simpl.
  eexists. split; [done|]. constructor; [|constructor]. simpl. unfold Add.
  destruct Hs as (Hsz & Hszi & Ho & Hti & Hd).
  destruct (quot_mul_between (ts - t_offset t) (t_size t) Hsz) as [Hp _].
  unfold in_i64, time, duration in *. specialize (Hp ltac:(lia)). lia.
Qed.

Lemma session_ok s ts : 0 < gap s → in_i64 ts → in_i64 (ts + gap s) → assigner_ok (session_assigner s) ts.
Proof.
  intros Hg Ht He. eexists. split; [done|]. constructor; [|constructor]. simpl. unfold Add, time, duration in *. split; [lia|done].
Qed.

(** ** Witnesses *)

Definition rj_tuple (r : recordJSON) :=
  (rj_Key r, rj_Value r, rj_Timestamp r, rj_Offset r, rj_Partition r, rj_Source r, rj_Headers r).
Definition rj_of (x : bytes * bytes * Z * Z * Z * bytes * gmap bytes bytes) : recordJSON :=
  let '(k, v, t, o, p, s, h) := x in mkRecordJSON k v t o p s h.

Definition demo_decode (l : bytes) : recordJSON :=
  match decode (pos_of_bytes l) with Some x => rj_of x | None => mkRecordJSON [] [] 0 0 0 [] ∅ end.

Lemma demo_decode_encode r : demo_decode (bytes_of_pos (encode (rj_tuple r))) = r.
Proof. unfold demo_decode. rewrite pos_of_bytes_of, decode_encode. by destruct r. Qed.

#[local] Instance demo_codec : RecordCodec := {|
  encodeRecordJSON r := bytes_of_pos (encode (rj_tuple r));
  decodeRecordJSON := demo_decode;
  codec_ok _ := True;
  json_roundtrip r _ := demo_decode_encode r
|}.

Definition demo_op (a : WindowAssigner) : WindowOperator Memory.MemoryBackend :=
  WithAllowedLateness (NewWindow a Memory.NewMemoryBackend) 5.
Definition demo_tumbling : WindowAssigner := tumbling_assigner (NewTumbling 10).
Definition demo_data (ts : Z) (k : string) : Record_ := NewRecord ts (bs k) (bs "v").
Definition demo_stream : list Record_ :=
  [demo_data 3 "a"; demo_data 12 "a"; NewWatermark 15; demo_data 11 "b"; demo_data 9 "a";
   NewBarrier (bs "chk-1"); NewWatermark 40].

Lemma demo_rec_ok ts k : 0 ≤ ts < 1000 → rec_ok demo_tumbling (demo_data ts k).
Proof.
  intros Hts _. split_and!; [simpl; solve_i64| |done].
  apply tumbling_ok; simpl; [unfold ws_safe; simpl; solve_i64|lia|solve_i64].
Qed.

Lemma demo_stream_ok : Forall (rec_ok demo_tumbling) demo_stream.
Proof.
  unfold demo_stream. repeat (apply Forall_cons; split); try done; try (apply demo_rec_ok; lia);
    by (unfold rec_ok, is_data; intros).
Qed.

Lemma demo_open : open_inv (demo_op demo_tumbling).
Proof. split; [by vm_compute|]. split; [apply Memory.inv_new|]. intros k Hk. by destruct Hk. Qed.

(** The operator after the first two records. *)
Definition demo_op2 : WindowOperator Memory.MemoryBackend :=
  match steps (demo_op demo_tumbling) (take 2 demo_stream) with Ok (op, _) => op | _ => demo_op demo_tumbling end.

Lemma demo_open2 : open_inv demo_op2 ∧ cfg demo_op2 = cfg (demo_op demo_tumbling).
Proof.
  unfold demo_op2. destruct (steps_ok (demo_op demo_tumbling) (take 2 demo_stream)) as (op' & o & -> & Hi & Hc & _); [| |done].
  - apply demo_open.
  - apply Forall_take, demo_stream_ok.
Qed.

Lemma watermark_fires_exactly_witness :
  let '(op', o) := handleWatermark demo_op2 (NewWatermark 15) in
  length o = 1%nat
  ∧ currentWatermark op' = Z.max (currentWatermark demo_op2) 15
  ∧ (∀ wk, wk_ok wk →
      buf (backend op') (wk_String wk)
      = if decide (wk_End wk + AllowedLateness demo_op2 ≤ currentWatermark op') then []
        else buf (backend demo_op2) (wk_String wk))
  ∧ ∃ fired, NoDup fired
      ∧ (∀ wk, wk_ok wk → wk ∈ fired
          ↔ buf (backend demo_op2) (wk_String wk) ≠ []
            ∧ wk_End wk + AllowedLateness demo_op2 ≤ currentWatermark op')
      ∧ o = flat_map (λ wk, fire_output demo_op2 (wk_win wk) (buf (backend demo_op2) (wk_String wk))) fired.
Proof.
  pose proof (watermark_fires_exactly demo_op2 (NewWatermark 15) (proj1 demo_open2)) as H.
  assert (length (handleWatermark demo_op2 (NewWatermark 15)).2 = 1%nat) as Hl by (vm_compute; reflexivity).
  destruct (handleWatermark demo_op2 (NewWatermark 15)) as [op' o]. split; [exact Hl|exact H].
Defined.


Lemma window_never_reopens_witness :
  let op := (handleWatermark demo_op2 (NewWatermark 15)).1 in
  match steps op (drop 3 demo_stream) with
  | Ok (op', _) => buf (backend op') (wk_String (mkWindowKey (bs "a") 0 10)) = []
  | _ => False
  end.
Proof.
  intros op. assert (open_inv op ∧ cfg op = cfg demo_op2) as [Hi Hc].
  { pose proof (handleWatermark_spec demo_op2 (NewWatermark 15) (proj1 demo_open2)) as Hs. unfold op.
    destruct (handleWatermark demo_op2 (NewWatermark 15)) as [op' o]. by destruct Hs as (? & ? & _). }
  assert (Assigner op = demo_tumbling) as Ha
    by (rewrite (cfg_Assigner _ _ Hc); apply (cfg_Assigner _ _ (proj2 demo_open2))).
  destruct (steps_ok op (drop 3 demo_stream) Hi) as (op' & o & E & _); [rewrite Ha; apply Forall_drop, demo_stream_ok|].
  rewrite E. apply (window_never_reopens op op' (drop 3 demo_stream) o (mkWindowKey (bs "a") 0 10)).
  - exact Hi.
  - split; simpl; solve_i64.
  - by vm_compute.
  - rewrite Ha. apply Forall_drop, demo_stream_ok.
  - exact E.
Defined.

Lemma session_merge_correct_witness :
  let op := demo_op (session_assigner (mkSession 10)) in
  let b' := assignToWindow op Memory.NewMemoryBackend (bs "a") (mkWindow 0 10) (bs "r") in
  sess_inv b'
  ∧ total (λ _ v, v) b' ≡ₚ bs "r" :: total (λ _ v, v) Memory.NewMemoryBackend
  ∧ ∃ wk merged, wk_Key wk = bs "a" ∧ wk_Start wk ≤ 0 ∧ 10 ≤ wk_End wk
      ∧ (∀ k, k ∈ merged ↔ overlaps (bs "a") (mkWindow 0 10) k ∧ buf Memory.NewMemoryBackend k ≠ [])
      ∧ (∀ k, k ∈ merged → wk_Start wk ≤ wk_Start (parseWindowKey k) ∧ wk_End (parseWindowKey k) ≤ wk_End wk)
      ∧ buf b' (wk_String wk) = flat_map (buf Memory.NewMemoryBackend) merged ++ [bs "r"].
Proof.
  intros op. apply (session_merge_correct op Memory.NewMemoryBackend (bs "a") (bs "r") (mkWindow 0 10)); [done| |..].
  - split; [apply Memory.inv_new|by intros k []|by intros k k' []].
  - simpl. solve_i64.
  - simpl. solve_i64.
  - simpl. lia.
Defined.

(** An operator with one buffered record and watermark 2. *)
Definition demo_stored : WindowOperator Memory.MemoryBackend :=
  set_watermark (set_backend (demo_op demo_tumbling)
    (ls_Append Memory.NewMemoryBackend (rec_at (wk_String (mkWindowKey (bs "a") 0 10)))
       (encodeRecord (demo_data 3 "a")))) 2.

Lemma window_restore_roundtrip_witness :
  let keys := open_keys (backend demo_stored) in
  let op' := Restore (demo_op demo_tumbling) (Snapshot demo_stored) keys in
  (∀ k, buf (backend op') k = buf (backend demo_stored) k)
  ∧ currentWatermark op' = 2 ∧ loadWatermark op' = 2.
Proof.
  intros keys. assert (Hb : sb_inv (backend demo_stored)) by apply ls_Append_inv, Memory.inv_new.
  apply (window_restore_roundtrip demo_stored (demo_op demo_tumbling) keys).
  - exact Hb.
  - intros k v. unfold demo_stored. cbn [backend set_backend set_watermark].
    rewrite buf_Append by apply Memory.inv_new. case_decide; cbn [app]; [|by intros ?%not_elem_of_nil].
    intros ->%list_elem_of_singleton. by eexists.
  - apply Memory.inv_new.
  - simpl. solve_i64.
  - by apply open_keys_NoDup.
  - intros k. unfold keys. rewrite open_keys_spec, snapshot_windows by exact Hb.
    case_decide; split; [done|by intros []|eauto|done].
Defined.
