(* ===== verification/Join.v ===== *)
(** * The interval join ([src/operator/join.go])

    Two logical streams arrive on one channel, told apart by the record's
    source.  Each side is buffered per key in list state; a record joins the
    buffered records of the other side that lie in its interval, and the
    aligned watermark evicts what can no longer match.

    The model is parametric in the backend and the record codec, as the window
    operator's; the JSON of the default join function is the parameter
    [jsonJoin]. *)

From S2P Require Import Prelude Record Rfc3339 State Pebble Reduce WindowOp WindowCorrect.
From Stdlib Require Import Strings.Byte.

Inductive side := SLeft | SRight.

#[export] Instance side_eq_dec : EqDecision side.
Proof. solve_decision. Defined.

Definition other (s : side) : side := match s with SLeft => SRight | SRight => SLeft end.

(** [alignedWatermark], [maxTime], [unixNanoOrZero], [timeFromUnixNanoOrZero] *)
Definition alignedWatermark (a b : time) : time :=
  if IsZero a || IsZero b then zeroTime else if Before a b then a else b.
Definition maxTime (a b : time) : time := if After a b then a else b.
Definition unixNanoOrZero (t : time) : Z := if IsZero t then 0 else UnixNano t.
Definition timeFromUnixNanoOrZero (n : Z) : time := if n =? 0 then zeroTime else UnixTime n.

Section join_op.
Context {RC : RecordCodec} {B : Type} {SB : StateBackend B} {SL : StateBackendLaws B}.
Context (jsonJoin : bytes → bytes → bytes).

Definition joinNS (s : side) : bytes := match s with SLeft => bs "join_left" | SRight => bs "join_right" end.
Definition joinWMNS : bytes := bs "join_watermarks".
Definition joinWMKey (s : side) : bytes := match s with SLeft => bs "left" | SRight => bs "right" end.

(** The list state of a side, at a key; the value state of its watermark. *)
Definition side_at (s : side) (k : bytes) : handle := SetKey (open_ns (joinNS s)) k.
Definition wm_of (s : side) : handle := SetKey (open_ns joinWMNS) (joinWMKey s).

(** [IntervalJoinOperator] *)
Record IntervalJoinOperator := mkJoin {
  LeftSource : bytes;
  RightSource : bytes;
  j_Before : duration;
  j_After : duration;
  j_Fn : option (Record_ → Record_ → Record_);
  j_backend : B;
  leftWatermark : time;
  rightWatermark : time;
  emittedWatermark : time;
  j_barrier : bool;
  j_native : option (bytes → B → result bytes)
}.

Definition set_jbackend (op : IntervalJoinOperator) (b : B) : IntervalJoinOperator :=
  mkJoin (LeftSource op) (RightSource op) (j_Before op) (j_After op) (j_Fn op) b
    (leftWatermark op) (rightWatermark op) (emittedWatermark op) (j_barrier op) (j_native op).
Definition set_wms (op : IntervalJoinOperator) (l r e : time) : IntervalJoinOperator :=
  mkJoin (LeftSource op) (RightSource op) (j_Before op) (j_After op) (j_Fn op) (j_backend op)
    l r e (j_barrier op) (j_native op).

(** [IntervalJoin], [JoinWithin], [Clone]; the backend is an argument. *)
Definition IntervalJoin (l r : bytes) (before after : duration) (fn : option (Record_ → Record_ → Record_)) (b : B)
    : IntervalJoinOperator :=
  mkJoin l r (if before <? 0 then 0 else before) (if after <? 0 then 0 else after) fn b
    zeroTime zeroTime zeroTime false None.
Definition JoinWithin (l r : bytes) (d : duration) fn (b : B) : IntervalJoinOperator := IntervalJoin l r d d fn b.
Definition j_Clone (op : IntervalJoinOperator) (fresh : B) : IntervalJoinOperator :=
  mkJoin (LeftSource op) (RightSource op) (j_Before op) (j_After op) (j_Fn op) fresh
    zeroTime zeroTime zeroTime false None.

(** [Validate] *)
Definition Validate (op : IntervalJoinOperator) : result unit :=
  if decide (LeftSource op = [] ∨ RightSource op = []) then Err (bs "join: left and right sources are required")
  else if decide (LeftSource op = RightSource op) then Err (bs "join: left and right sources must differ")
  else Ok tt.

(** [side] *)
Definition side_of (op : IntervalJoinOperator) (r : Record_) : option side :=
  if decide (Source r = LeftSource op) then Some SLeft
  else if decide (Source r = RightSource op) then Some SRight
  else None.

(** [inRange] *)
Definition inRange (op : IntervalJoinOperator) (leftTS rightTS : time) : bool :=
  negb (Before rightTS (Add leftTS (- j_Before op))) && negb (After rightTS (Add leftTS (j_After op))).

(** [join] *)
Definition join (op : IntervalJoinOperator) (left right : Record_) : Record_ :=
  match j_Fn op with
  | Some fn => fn left right
  | None =>
      mkRecord (Key left) (jsonJoin (Value left) (Value right)) (maxTime (Timestamp left) (Timestamp right)) 0 0 []
        (<[bs "join_left_source" := LeftSource op]> {[bs "join_right_source" := RightSource op]}) false false []
  end.

(** One pair, with the arriving record on side [s]. *)
Definition pair_out (op : IntervalJoinOperator) (s : side) (r o : Record_) : list Record_ :=
  let '(l, r') := match s with SLeft => (r, o) | SRight => (o, r) end in
  if inRange op (Timestamp l) (Timestamp r') then [join op l r'] else [].

(** [emitMatches] *)
Definition emitMatches (op : IntervalJoinOperator) (s : side) (r : Record_) : list Record_ :=
  flat_map (λ raw, pair_out op s r (decodeRecord raw)) (ls_GetAll (j_backend op) (side_at (other s) (Key r))).

(** [handleRecord] *)
Definition handleRecord (op : IntervalJoinOperator) (r : Record_) : IntervalJoinOperator * list Record_ :=
  match side_of op r with
  | None => (op, [])
  | Some s => (set_jbackend op (ls_Append (j_backend op) (side_at s (Key r)) (encodeRecord r)), emitMatches op s r)
  end.

(** [storeWatermark] *)
Definition j_storeWatermark (b : B) (s : side) (ts : time) : B :=
  if IsZero ts then vs_Clear b (wm_of s) else vs_Set b (wm_of s) (PutUint64 (wrapu64 (UnixNano ts))).

(** [loadWatermark] *)
Definition j_loadWatermark (b : B) (s : side) : time :=
  match vs_Get b (wm_of s) with
  | Some raw => if decide (length raw = 8%nat) then UnixTime (wrap64 (Uint64 raw)) else zeroTime
  | None => zeroTime
  end.

(** [loadWatermarks] *)
Definition loadWatermarks (op : IntervalJoinOperator) : IntervalJoinOperator :=
  let l := j_loadWatermark (j_backend op) SLeft in
  let r := j_loadWatermark (j_backend op) SRight in
  set_wms op l r (alignedWatermark l r).

(** One side of the switch in [handleWatermark]. *)
Definition advance (op : IntervalJoinOperator) (s : side) (ts : time) : IntervalJoinOperator :=
  let cur := match s with SLeft => leftWatermark op | SRight => rightWatermark op end in
  if After ts cur then
    let op := set_jbackend op (j_storeWatermark (j_backend op) s ts) in
    match s with
    | SLeft => set_wms op ts (rightWatermark op) (emittedWatermark op)
    | SRight => set_wms op (leftWatermark op) ts (emittedWatermark op)
    end
  else op.

(** The cutoff of [evict] *)
Definition cutoff (op : IntervalJoinOperator) (s : side) (aligned : time) : time :=
  match s with SLeft => Add aligned (- j_After op) | SRight => Add aligned (- j_Before op) end.

(** One key of [evict] *)
Definition evict_key (cut : time) (s : side) (b : B) (key : bytes) : B :=
  let keep := filter (λ r, Before (Timestamp r) cut = false) (decodeRecord <$> ls_GetAll b (side_at s key)) in
  append_all (ls_Clear b (side_at s key)) (side_at s key) (encodeRecord <$> keep).

(** [evict] *)
Definition evict (op : IntervalJoinOperator) (b : B) (s : side) (aligned : time) : B :=
  foldl (evict_key (cutoff op s aligned) s) b (ls_Keys b (open_ns (joinNS s))).

(** [handleWatermark] *)
Definition j_handleWatermark (op : IntervalJoinOperator) (r : Record_) : IntervalJoinOperator * list Record_ :=
  let advanced :=
    match side_of op r with
    | Some s => Some (advance op s (Timestamp r))
    | None => if decide (Source r = []) then Some (advance (advance op SLeft (Timestamp r)) SRight (Timestamp r)) else None
    end in
  match advanced with
  | None => (op, [])
  | Some op =>
      let aligned := alignedWatermark (leftWatermark op) (rightWatermark op) in
      if IsZero aligned then (op, [])
      else
        let op := set_jbackend op (evict op (evict op (j_backend op) SLeft aligned) SRight aligned) in
        if After aligned (emittedWatermark op)
        then (set_wms op (leftWatermark op) (rightWatermark op) aligned, [NewWatermark aligned])
        else (op, [])
  end.

(** ** Snapshots *)

(** [intervalJoinSnapshot] *)
Record intervalJoinSnapshot := mkJoinSnapshot {
  LeftWatermark : Z;
  RightWatermark : Z;
  SideRecords : side → gmap bytes (list recordJSON)
}.

(** [snapshotJoinSide] *)
Definition snapshotJoinSide (b : B) (s : side) : gmap bytes (list recordJSON) :=
  foldl (λ m key, <[key := decodeRecordJSON <$> ls_GetAll b (side_at s key)]> m) ∅ (ls_Keys b (open_ns (joinNS s))).

(** [Snapshot] *)
Definition j_Snapshot (op : IntervalJoinOperator) : intervalJoinSnapshot :=
  mkJoinSnapshot (unixNanoOrZero (leftWatermark op)) (unixNanoOrZero (rightWatermark op)) (snapshotJoinSide (j_backend op)).

(** [restoreJoinSide]; [keys] is the order the map is ranged over. *)
Definition restoreJoinSide (b : B) (s : side) (entries : gmap bytes (list recordJSON)) (keys : list bytes) : B :=
  let b := foldl (λ b k, ls_Clear b (side_at s k)) b (ls_Keys b (open_ns (joinNS s))) in
  foldl (λ b k, append_all b (side_at s k) (encodeRecordJSON <$> default [] (entries !! k))) b keys.

(** [Restore] *)
Definition j_Restore (op : IntervalJoinOperator) (s : intervalJoinSnapshot) (keys : side → list bytes)
    : IntervalJoinOperator :=
  let l := timeFromUnixNanoOrZero (LeftWatermark s) in
  let r := timeFromUnixNanoOrZero (RightWatermark s) in
  let op := set_wms op l r (alignedWatermark l r) in
  let b := j_storeWatermark (j_storeWatermark (j_backend op) SLeft l) SRight r in
  let b := restoreJoinSide b SLeft (SideRecords s SLeft) (keys SLeft) in
  set_jbackend op (restoreJoinSide b SRight (SideRecords s SRight) (keys SRight)).

(** ** The loop *)

Inductive join_snap := JSerialized (s : intervalJoinSnapshot) | JNative (r : result bytes).

(** One iteration of [Process]: output and barrier snapshots. *)
Definition j_step (op : IntervalJoinOperator) (r : Record_)
    : IntervalJoinOperator * list Record_ * list (bytes * join_snap) :=
  if IsWatermark r then (j_handleWatermark op r, [])
  else if IsBarrier r then
    (op, [r], if j_barrier op
              then [(CheckpointID r, match j_native op with
                                     | Some f => JNative (f (CheckpointID r) (j_backend op))
                                     | None => JSerialized (j_Snapshot op)
                                     end)]
              else [])
  else (handleRecord op r, []).

Fixpoint j_steps (op : IntervalJoinOperator) (input : list Record_) : IntervalJoinOperator * list Record_ :=
  match input with
  | [] => (op, [])
  | r :: input' =>
      let '(op1, o, _) := j_step op r in
      let '(op2, os) := j_steps op1 input' in (op2, o ++ os)
  end.

(** [Process] *)
Definition j_run (op : IntervalJoinOperator) (input : list Record_) : list Record_ :=
  (j_steps (loadWatermarks op) input).2.
End join_op.
Arguments IntervalJoinOperator : clear implicits.
