(* ===== verification/JoinCorrect.v ===== *)
(** * Correctness of the interval join

    Eviction is invisible: as long as no record is older than the aligned
    watermark, the join emits the pairs of the whole streams. *)

From S2P Require Import Prelude Record Rfc3339 State Pebble Reduce WindowOp WindowCorrect WindowRun Join.
From Stdlib Require Import Strings.Byte.

Section join_correct.
Context {RC : RecordCodec} {B : Type} {SB : StateBackend B} {SL : StateBackendLaws B}.
Context (jsonJoin : bytes → bytes → bytes).
Implicit Types (op : IntervalJoinOperator B) (b : B) (s : side).

(** ** Buffers *)

Definition jbuf b s (k : bytes) : list bytes := ls_GetAll b (side_at s k).

Lemma side_at_inj s k s' k' : side_at s k = side_at s' k' ↔ s = s' ∧ k = k'.
Proof.
  split; [|by intros [-> ->]]. intros E. unfold side_at, SetKey, open_ns in E. simpl in E.
  injection E as E1 E2. split; [|done]. by destruct s, s'.
Qed.

Lemma GetAll_append_all b h vs : sb_inv b → sb_inv (append_all b h vs)
  ∧ ∀ h', ls_GetAll (append_all b h vs) h' = if decide (h = h') then ls_GetAll b h' ++ vs else ls_GetAll b h'.
Proof.
  unfold append_all. revert b. induction vs as [|v vs IH]; intros b Hb; cbn [foldl].
  - split; [done|]. intros h'. case_decide; by rewrite ?app_nil_r.
  - destruct (IH (ls_Append b h v)) as [Hi Hg]; [auto with weibo|]. split; [done|]. intros h'.
    rewrite Hg, ls_GetAll_Append by done. case_decide; [by rewrite <- app_assoc|done].
Qed.

(** A stored record comes back as it was. *)
Definition stored (r : Record_) : Prop :=
  is_data r ∧ CheckpointID r = [] ∧ in_i64 (Timestamp r) ∧ codec_ok (recordToJSON r).

Lemma decode_encode_record r : stored r → decodeRecord (encodeRecord r) = r.
Proof.
  intros (Hd & Hc & Ht & Hj). unfold decodeRecord, encodeRecord. rewrite json_roundtrip by done.
  unfold recordFromJSON, recordToJSON. simpl. unfold UnixTime, UnixNano. rewrite (wrap64_id _ Ht).
  unfold is_data, isMarker in Hd. apply orb_false_iff in Hd as [H1 H2]. destruct r. simpl in *. by subst.
Qed.

Lemma decode_encode_list l : Forall stored l → decodeRecord <$> (encodeRecord <$> l) = l.
Proof. induction 1 as [|r l Hr _ IH]; [done|]. rewrite !fmap_cons, IH. by rewrite decode_encode_record. Qed.

Lemma evict_key_spec cut s b key : sb_inv b → sb_inv (evict_key cut s b key)
  ∧ (∀ s' k, jbuf (evict_key cut s b key) s' k
       = if decide (s = s' ∧ key = k)
         then encodeRecord <$> filter (λ r, Before (Timestamp r) cut = false) (decodeRecord <$> jbuf b s' k)
         else jbuf b s' k).
Proof.
  intros Hb. unfold evict_key. set (vs := encodeRecord <$> _).
  destruct (GetAll_append_all (ls_Clear b (side_at s key)) (side_at s key) vs) as [Hi Hg]; [auto with weibo|].
  split; [done|]. intros s' k. unfold jbuf. rewrite Hg, ls_GetAll_Clear by done.
  destruct (decide (s = s' ∧ key = k)) as [[-> ->]|Hn].
  - by rewrite !decide_True.
  - by rewrite !decide_False by (by rewrite side_at_inj).
Qed.

Lemma evict_keys_spec cut s ks : ∀ b, sb_inv b → NoDup ks →
  sb_inv (foldl (evict_key cut s) b ks)
  ∧ (∀ s' k, jbuf (foldl (evict_key cut s) b ks) s' k
       = if decide (s = s' ∧ k ∈ ks)
         then encodeRecord <$> filter (λ r, Before (Timestamp r) cut = false) (decodeRecord <$> jbuf b s' k)
         else jbuf b s' k).
Proof.
  induction ks as [|key ks IH]; intros b Hb Hnd.
  - split; [done|]. intros s' k. rewrite decide_False; [done|]. intros [_ Hk]. by apply not_elem_of_nil in Hk.
  - apply NoDup_cons in Hnd as [Hni Hnd]. destruct (evict_key_spec cut s b key Hb) as [Hb1 H1].
    destruct (IH (evict_key cut s b key) Hb1 Hnd) as [Hb2 H2]. split; [done|]. intros s' k. cbn [foldl].
    rewrite H2, H1. destruct (decide (s = s' ∧ k ∈ ks)) as [[-> Hk]|Hn].
    + rewrite (decide_False (P := s' = s' ∧ key = k)) by (intros [_ ->]; done).
      rewrite decide_True by (split; [done|by right]). done.
    + destruct (decide (s = s' ∧ key = k)) as [[-> ->]|Hn2].
      * rewrite decide_True by (split; [done|left]). done.
      * rewrite decide_False; [done|]. intros [-> [->|Hk]%elem_of_cons]; [by apply Hn2|by apply Hn].
Qed.

Lemma evict_spec op b s aligned : sb_inv b → sb_inv (evict op b s aligned)
  ∧ (∀ s' k, jbuf (evict op b s aligned) s' k
       = if decide (s = s')
         then encodeRecord <$> filter (λ r, Before (Timestamp r) (cutoff op s aligned) = false) (decodeRecord <$> jbuf b s' k)
         else jbuf b s' k).
Proof.
  intros Hb. unfold evict. destruct (evict_keys_spec (cutoff op s aligned) s (ls_Keys b (open_ns (joinNS s))) b Hb) as [Hi Hg].
  { by apply ls_Keys_NoDup. }
  split; [done|]. intros s' k. rewrite Hg. destruct (decide (s = s')) as [->|Hn].
  - destruct (decide (s' = s' ∧ k ∈ ls_Keys b (open_ns (joinNS s')))) as [_|Hk]; [done|].
    assert (jbuf b s' k = []) as ->; [|done]. destruct (jbuf b s' k) eqn:E; [done|]. exfalso. apply Hk.
    split; [done|]. apply ls_Keys_spec; [done|]. unfold jbuf, side_at in E. by rewrite E.
  - rewrite decide_False; [done|]. by intros [? _].
Qed.

(** ** The simulation *)

Definition aligned_of op : time := alignedWatermark (leftWatermark op) (rightWatermark op).

(** What the aligned watermark has not evicted. *)
Definition live op s (r : Record_) : Prop :=
  aligned_of op = zeroTime ∨ Before (Timestamp r) (cutoff op s (aligned_of op)) = false.

#[local] Instance live_dec op s r : Decision (live op s r).
Proof. unfold live. apply _. Defined.

(** The live records of one side and key. *)
Definition live_at op s (k : bytes) (past : list Record_) : list Record_ :=
  filter (λ r, side_of op r = Some s ∧ Key r = k ∧ live op s r) past.

(** The buffers hold the live part of the past. *)
Record join_inv op (past : list Record_) : Prop := {
  ji_inv : sb_inv (j_backend op);
  ji_left : zeroTime ≤ leftWatermark op;
  ji_right : zeroTime ≤ rightWatermark op;
  ji_before : 0 ≤ j_Before op;
  ji_after : 0 ≤ j_After op;
  ji_stored : Forall stored past;
  ji_buf : ∀ s k, jbuf (j_backend op) s k = encodeRecord <$> live_at op s k past
}.

(** The aligned watermark is the minimum, the zero time being the smallest. *)
Lemma aligned_min op : zeroTime ≤ leftWatermark op → zeroTime ≤ rightWatermark op →
  aligned_of op = Z.min (leftWatermark op) (rightWatermark op).
Proof.
  intros Hl Hr. unfold aligned_of, alignedWatermark, IsZero, Before, time in *.
  destruct (Z.eqb_spec (leftWatermark op) zeroTime), (Z.eqb_spec (rightWatermark op) zeroTime); simpl; try lia.
  destruct (Z.ltb_spec (leftWatermark op) (rightWatermark op)); lia.
Qed.

Lemma Before_spec a c : Before a c = false ↔ c ≤ a.
Proof. unfold Before, time. destruct (Z.ltb_spec a c); split; intros; try done; lia. Qed.

Lemma After_spec a c : After a c = false ↔ a ≤ c.
Proof. unfold After, time. destruct (Z.ltb_spec c a); split; intros; try done; lia. Qed.

(** A record not older than the aligned watermark. *)
Definition on_time op (r : Record_) : Prop := aligned_of op = zeroTime ∨ aligned_of op ≤ Timestamp r.

Lemma on_time_live op s r : 0 ≤ j_Before op → 0 ≤ j_After op → on_time op r → live op s r.
Proof.
  intros Hb Ha [H|H]; [by left|right]. apply Before_spec. unfold cutoff, Add, time, duration in *. destruct s; lia.
Qed.

(** A record on time matches only live records. *)
Lemma match_live op s r o : on_time op r → pair_out jsonJoin op s r o ≠ [] → live op (other s) o.
Proof.
  intros [H|H] Hp; [by left|right]. apply Before_spec. unfold pair_out in Hp.
  destruct s; cbn [other cutoff]; destruct (inRange op _ _) eqn:E; try done; unfold inRange in E;
    apply andb_true_iff in E as [E1%negb_true_iff E2%negb_true_iff];
    apply Before_spec in E1; apply After_spec in E2; unfold Add, time, duration in *; lia.
Qed.

(** The records of the past a new one is paired with. *)
Definition partners op s (r : Record_) (past : list Record_) : list Record_ :=
  filter (λ o, side_of op o = Some (other s) ∧ Key o = Key r) past.

Lemma emitMatches_spec op past s r : join_inv op past → on_time op r →
  emitMatches jsonJoin op s r = flat_map (pair_out jsonJoin op s r) (partners op s r past).
Proof.
  intros Hi Ht. unfold emitMatches. pose proof (ji_buf _ _ Hi (other s) (Key r)) as Hb. unfold jbuf in Hb. rewrite Hb.
  assert (∀ l, Forall stored l → flat_map (λ raw, pair_out jsonJoin op s r (decodeRecord raw)) (encodeRecord <$> l)
    = flat_map (pair_out jsonJoin op s r) l) as Hm.
  { induction 1 as [|x l Hx _ IH]; [done|]. cbn [fmap list_fmap flat_map]. by rewrite decode_encode_record, IH. }
  rewrite Hm by (pose proof (ji_stored _ _ Hi) as Hst; rewrite Forall_forall in *;
    intros x [_ Hx]%list_elem_of_filter; by apply Hst).
  rewrite <- (flat_map_filter_nil (pair_out jsonJoin op s r) (live op (other s)) (partners op s r past)).
  - unfold partners, live_at. rewrite list_filter_filter. f_equal. apply list_filter_iff. intros o. tauto.
  - intros o _ Hn. destruct (pair_out jsonJoin op s r o) eqn:E; [done|]. exfalso. apply Hn.
    apply (match_live op s r); [done|]. by rewrite E.
Qed.

(** ** Data records *)

Lemma handleRecord_inv op past r : join_inv op past → stored r → (is_Some (side_of op r) → on_time op r) →
  let '(op', o) := handleRecord jsonJoin op r in
  join_inv op' (past ++ [r]) ∧ leftWatermark op' = leftWatermark op ∧ rightWatermark op' = rightWatermark op
  ∧ o = match side_of op r with
        | Some s => flat_map (pair_out jsonJoin op s r) (partners op s r past)
        | None => []
        end.
Proof.
  intros Hi Hs Ht. unfold handleRecord. pose proof Hi as [H1 H2 H3 H4 H5 H6 H7].
  assert (Forall stored (past ++ [r])) as Hst by (apply Forall_app; split; [done|by apply Forall_singleton]).
  destruct (side_of op r) as [s|] eqn:Es.
  - specialize (Ht ltac:(done)). split_and!; [|done|done|by apply emitMatches_spec].
    split; try done; [cbn [set_jbackend j_backend]; auto with weibo|].
    intros s' k. cbn [set_jbackend j_backend]. unfold jbuf. rewrite ls_GetAll_Append by done.
    change (ls_GetAll (j_backend op) (side_at s' k)) with (jbuf (j_backend op) s' k). rewrite H7.
    unfold live_at. rewrite filter_app, filter_cons, filter_nil.
    destruct (decide (side_at s (Key r) = side_at s' k)) as [E|E].
    + apply side_at_inj in E as [-> <-]. rewrite decide_True; [by rewrite fmap_app|].
      split_and!; [done|done|]. by apply on_time_live.
    + rewrite decide_False; [by rewrite app_nil_r|]. intros (E1 & E2 & _). apply E. apply side_at_inj.
      split; [|done]. change (side_of op r = Some s') in E1. congruence.
  - split_and!; [|done|done|done]. split; try done. intros s k. rewrite H7. unfold live_at.
    rewrite filter_app, filter_cons, filter_nil, decide_False; [by rewrite app_nil_r|]. intros [E _]. congruence.
Qed.

(** ** Watermarks *)

(** The fields no step changes. *)
Definition jcfg op := (LeftSource op, RightSource op, j_Before op, j_After op, j_Fn op).

Lemma jcfg_side op op' r : jcfg op' = jcfg op → side_of op' r = side_of op r.
Proof. unfold jcfg, side_of. by intros [= -> -> _ _ _]. Qed.

Lemma jcfg_cutoff op op' s a : jcfg op' = jcfg op → cutoff op' s a = cutoff op s a.
Proof. unfold jcfg, cutoff. by intros [= _ _ -> -> _]. Qed.

Lemma jcfg_pair op op' s r o : jcfg op' = jcfg op → pair_out jsonJoin op' s r o = pair_out jsonJoin op s r o.
Proof. unfold jcfg, pair_out, inRange, join. by intros [= -> -> -> -> ->]. Qed.

Lemma store_spec b s ts : sb_inv b → sb_inv (j_storeWatermark b s ts)
  ∧ ∀ s' k, jbuf (j_storeWatermark b s ts) s' k = jbuf b s' k.
Proof.
  intros Hb. unfold j_storeWatermark, jbuf. destruct (IsZero ts); split; auto with weibo; intros s' k.
  - by apply ls_GetAll_vs_Clear.
  - by apply ls_GetAll_Set.
Qed.

(** What advancing a side's watermark leaves true. *)
Definition advanced op op' : Prop :=
  jcfg op' = jcfg op ∧ sb_inv (j_backend op') ∧ (∀ s k, jbuf (j_backend op') s k = jbuf (j_backend op) s k)
  ∧ leftWatermark op ≤ leftWatermark op' ∧ rightWatermark op ≤ rightWatermark op'.

Lemma advance_spec op s ts : sb_inv (j_backend op) → advanced op (advance op s ts).
Proof.
  intros Hb. unfold advance. destruct (After ts _) eqn:E; [|by repeat split].
  assert (match s with SLeft => leftWatermark op | SRight => rightWatermark op end ≤ ts) as Hle.
  { unfold After, time in *. apply Z.ltb_lt in E. lia. }
  destruct (store_spec (j_backend op) s ts Hb) as [Hi Hg]. destruct s; repeat split; try done; cbn; lia.
Qed.

Lemma advanced_trans op op1 op2 : advanced op op1 → advanced op1 op2 → advanced op op2.
Proof.
  intros (A1 & A2 & A3 & A4 & A5) (B1 & B2 & B3 & B4 & B5).
  split_and!; [congruence|done|intros; by rewrite B3|lia|lia].
Qed.

Lemma aligned_mono op op' past : join_inv op past → advanced op op' → aligned_of op ≤ aligned_of op'.
Proof.
  intros [_ Hl Hr _ _ _ _] (_ & _ & _ & H1 & H2). rewrite !aligned_min by (unfold time in *; lia).
  unfold time in *; lia.
Qed.

(** The live part of the past shrinks to what the new watermark keeps. *)
Lemma live_at_advance op op' past s k : join_inv op past → advanced op op' → aligned_of op' ≠ zeroTime →
  filter (λ r, Before (Timestamp r) (cutoff op' s (aligned_of op')) = false) (live_at op s k past) = live_at op' s k past.
Proof.
  intros Hi Hadv Hz. pose proof (aligned_mono op op' past Hi Hadv) as Hmono. destruct Hadv as (Hc & _).
  unfold live_at. rewrite list_filter_filter. apply list_filter_iff. intros r.
  rewrite (jcfg_side op op' r Hc). unfold live. rewrite !Before_spec, (jcfg_cutoff op op' s _ Hc).
  assert (cutoff op s (aligned_of op) ≤ cutoff op s (aligned_of op')) by (unfold cutoff, Add, time in *; destruct s; lia).
  unfold time in *. split; [tauto|]. intros (H1 & H2 & [H3|H3]); [done|]. split_and!; [done|done|done|]. right. lia.
Qed.

(** Below the first aligned watermark everything is live. *)
Lemma live_at_zero op op' past s k : join_inv op past → advanced op op' → aligned_of op' = zeroTime →
  live_at op s k past = live_at op' s k past.
Proof.
  intros Hi Hadv Hz. pose proof (aligned_mono op op' past Hi Hadv) as Hmono.
  assert (aligned_of op = zeroTime) as Hz'.
  { pose proof Hi as [_ Hl Hr _ _ _ _]. rewrite aligned_min in * by done. unfold time in *. lia. }
  destruct Hadv as (Hc & _). unfold live_at. apply list_filter_iff. intros r.
  rewrite (jcfg_side op op' r Hc). unfold live. tauto.
Qed.

(** Eviction restores the invariant under the new watermarks. *)
Definition settle op : IntervalJoinOperator B * list Record_ :=
  let aligned := aligned_of op in
  if IsZero aligned then (op, [])
  else
    let op := set_jbackend op (evict op (evict op (j_backend op) SLeft aligned) SRight aligned) in
    if After aligned (emittedWatermark op)
    then (set_wms op (leftWatermark op) (rightWatermark op) aligned, [NewWatermark aligned])
    else (op, []).

Lemma settle_inv op op1 past : join_inv op past → advanced op op1 →
  let '(op2, o) := settle op1 in
  join_inv op2 past ∧ jcfg op2 = jcfg op ∧ leftWatermark op2 = leftWatermark op1
  ∧ rightWatermark op2 = rightWatermark op1 ∧ Forall (λ r, IsWatermark r = true) o.
Proof.
  intros Hi Hadv. pose proof Hi as [H1 H2 H3 H4 H5 H6 H7]. pose proof Hadv as (Hc & Hb & Hg & Hl & Hr).
  assert (j_Before op1 = j_Before op ∧ j_After op1 = j_After op) as [Eb Ea] by (unfold jcfg in Hc; by injection Hc).
  assert (zeroTime ≤ leftWatermark op1 ∧ zeroTime ≤ rightWatermark op1) as [Hl1 Hr1] by (unfold time in *; lia).
  unfold settle. destruct (IsZero (aligned_of op1)) eqn:Ez.
  - split_and!; [|done|done|done|constructor]. split; try done; [by rewrite Eb|by rewrite Ea|].
    intros s k. rewrite Hg, H7. f_equal. apply live_at_zero; [done|done|]. unfold IsZero, time in *. by apply Z.eqb_eq.
  - assert (aligned_of op1 ≠ zeroTime) as Hz by (unfold IsZero, time in *; by apply Z.eqb_neq).
    set (b2 := evict op1 (evict op1 (j_backend op1) SLeft (aligned_of op1)) SRight (aligned_of op1)).
    destruct (evict_spec op1 (j_backend op1) SLeft (aligned_of op1) Hb) as [Hb1 Hg1].
    destruct (evict_spec op1 _ SRight (aligned_of op1) Hb1) as [Hb2 Hg2]. fold b2 in Hb2, Hg2.
    assert (∀ s k, jbuf b2 s k = encodeRecord <$> live_at op1 s k past) as Hbuf.
    { intros s k. assert (Forall stored (live_at op s k past)) as Hst.
      { rewrite Forall_forall in *. intros x [_ Hx]%list_elem_of_filter. by apply H6. }
      rewrite <- (live_at_advance op op1 past s k Hi Hadv Hz).
      rewrite Hg2, Hg1. destruct s; [rewrite (decide_False (P := SRight = SLeft)), (decide_True (P := SLeft = SLeft)) by done
        |rewrite (decide_True (P := SRight = SRight)), (decide_False (P := SLeft = SRight)) by done];
        by rewrite Hg, H7, decode_encode_list. }
    destruct (After _ _); (split_and!; [|done|done|done|by repeat constructor]); split; try done; cbn; by rewrite ?Eb, ?Ea.
Qed.

(** ** All pairs of two streams *)

(** Every left record with every right record of its key in its interval. *)
Definition all_pairs op (l : list Record_) : list Record_ :=
  flat_map (λ x, flat_map (pair_out jsonJoin op SLeft x) (partners op SLeft x l))
    (filter (λ x, side_of op x = Some SLeft) l).

Lemma flat_map_app_perm {X Y} (f g : X → list Y) (l : list X) :
  flat_map (λ x, f x ++ g x) l ≡ₚ flat_map f l ++ flat_map g l.
Proof.
  induction l as [|x l IH]; [done|]. cbn [flat_map]. rewrite IH, <- !app_assoc. f_equiv.
  rewrite !app_assoc. by rewrite (Permutation_app_comm (g x)).
Qed.

Lemma partners_snoc op s x past r : partners op s x (past ++ [r])
  = partners op s x past ++ (if decide (side_of op r = Some (other s) ∧ Key r = Key x) then [r] else []).
Proof. unfold partners. by rewrite filter_app, filter_cons, filter_nil. Qed.

(** The pairs a right record adds, seen from the left. *)
Lemma right_pairs op past r :
  flat_map (λ x, if decide (Key r = Key x) then pair_out jsonJoin op SLeft x r else [])
    (filter (λ x, side_of op x = Some SLeft) past)
  = flat_map (pair_out jsonJoin op SRight r) (partners op SRight r past).
Proof.
  rewrite <- (flat_map_filter_nil _ (λ x, Key x = Key r) (filter _ past)).
  - rewrite list_filter_filter. unfold partners. cbn [other].
    rewrite (list_filter_iff _ (λ x, side_of op x = Some SLeft ∧ Key x = Key r)) by (intros; tauto).
    apply flat_map_ext_in. intros x [[_ Hk] _]%list_elem_of_filter. by rewrite decide_True.
  - intros x _ Hk. by rewrite decide_False by congruence.
Qed.

Lemma all_pairs_snoc op past r : all_pairs op (past ++ [r])
  ≡ₚ all_pairs op past ++ match side_of op r with
                           | Some s => flat_map (pair_out jsonJoin op s r) (partners op s r past)
                           | None => []
                           end.
Proof.
  unfold all_pairs. rewrite filter_app, filter_cons, filter_nil, flat_map_app.
  destruct (side_of op r) as [[]|] eqn:Es.
  - rewrite (decide_True (P := Some SLeft = Some SLeft)) by done. cbn [flat_map]. rewrite app_nil_r.
    assert (∀ x, partners op SLeft x (past ++ [r]) = partners op SLeft x past) as Hp.
    { intros x. rewrite partners_snoc, decide_False; [by rewrite app_nil_r|]. intros [E _]. cbn [other] in E. congruence. }
    f_equiv; [|by rewrite Hp]. erewrite flat_map_ext_in; [done|]. intros x _. cbn beta. by rewrite Hp.
  - rewrite (decide_False (P := Some SRight = Some SLeft)) by done. cbn [flat_map]. rewrite app_nil_r.
    rewrite (flat_map_ext_in _ (λ x, flat_map (pair_out jsonJoin op SLeft x) (partners op SLeft x past)
      ++ (if decide (Key r = Key x) then pair_out jsonJoin op SLeft x r else []))).
    + rewrite flat_map_app_perm. f_equiv. by rewrite right_pairs.
    + intros x _. rewrite partners_snoc, flat_map_app. f_equal. cbn [other].
      destruct (decide (Key r = Key x)); [rewrite decide_True by done|rewrite decide_False by naive_solver]; cbn [flat_map];
        by rewrite ?app_nil_r.
  - rewrite (decide_False (P := None = Some SLeft)) by done. cbn [flat_map]. rewrite !app_nil_r.
    erewrite flat_map_ext_in; [done|]. intros x _. cbn beta. rewrite partners_snoc, decide_False; [by rewrite app_nil_r|].
    intros [E _]. congruence.
Qed.

(** ** Whole streams *)

(** The watermarks after a watermark record. *)
Definition wm_next op (w : time * time) (r : Record_) : time * time :=
  let up cur := if After (Timestamp r) cur then Timestamp r else cur in
  match side_of op r with
  | Some SLeft => (up w.1, w.2)
  | Some SRight => (w.1, up w.2)
  | None => if decide (Source r = []) then (up w.1, up w.2) else w
  end.

(** No record of a side is older than the aligned watermark when it arrives. *)
Fixpoint timely op (w : time * time) (input : list Record_) : Prop :=
  match input with
  | [] => True
  | r :: input' =>
      if IsWatermark r then timely op (wm_next op w r) input'
      else if IsBarrier r then timely op w input'
      else (is_Some (side_of op r) → alignedWatermark w.1 w.2 = zeroTime ∨ alignedWatermark w.1 w.2 ≤ Timestamp r)
           ∧ timely op w input'
  end.

Definition wms op : time * time := (leftWatermark op, rightWatermark op).

Lemma advance_wms op s ts : wms (advance op s ts)
  = let up cur := if After ts cur then ts else cur in
    match s with SLeft => (up (leftWatermark op), rightWatermark op) | SRight => (leftWatermark op, up (rightWatermark op)) end.
Proof. unfold advance, wms. destruct s; destruct (After _ _); done. Qed.

Lemma handleWatermark_inv op past r : join_inv op past →
  let '(op', o) := j_handleWatermark op r in
  join_inv op' past ∧ jcfg op' = jcfg op ∧ wms op' = wm_next op (wms op) r ∧ Forall (λ r, IsWatermark r = true) o.
Proof.
  intros Hi. pose proof (ji_inv _ _ Hi) as Hb.
  assert (∀ op1, advanced op op1 → wms op1 = wm_next op (wms op) r →
    let '(op', o) := settle op1 in
    join_inv op' past ∧ jcfg op' = jcfg op ∧ wms op' = wm_next op (wms op) r ∧ Forall (λ r, IsWatermark r = true) o) as Hs.
  { intros op1 Ha Hw. pose proof (settle_inv op op1 past Hi Ha) as H. destruct (settle op1) as [op2 o].
    destruct H as (H1 & H2 & H3 & H4 & H5). split_and!; [done|done| |done]. rewrite <- Hw. unfold wms. by rewrite H3, H4. }
  unfold j_handleWatermark. unfold wm_next in *. destruct (side_of op r) as [s|].
  - apply (Hs (advance op s (Timestamp r))); [by apply advance_spec|]. rewrite advance_wms. by destruct s.
  - case_decide; [|by split_and!].
    apply (Hs (advance (advance op SLeft (Timestamp r)) SRight (Timestamp r))).
    + pose proof (advance_spec op SLeft (Timestamp r) Hb) as Ha. eapply advanced_trans; [exact Ha|].
      apply advance_spec. apply Ha.
    + rewrite advance_wms. pose proof (advance_wms op SLeft (Timestamp r)) as Hw. unfold wms in Hw. cbn zeta in Hw.
      injection Hw as E1 E2. by rewrite E1, E2.
Qed.

Lemma timely_cfg op op' w input : jcfg op' = jcfg op → timely op' w input → timely op w input.
Proof.
  intros Hc. revert w. induction input as [|r input IH]; intros w; [done|]. cbn [timely].
  unfold wm_next. rewrite (jcfg_side op op' r Hc). destruct (IsWatermark r); [apply IH|].
  destruct (IsBarrier r); [apply IH|]. intros [H1 H2]. auto.
Qed.

Lemma all_pairs_cfg op op' l : jcfg op' = jcfg op → all_pairs op' l = all_pairs op l.
Proof.
  intros Hc. unfold all_pairs, partners.
  rewrite (list_filter_iff (λ x, side_of op' x = Some SLeft) (λ x, side_of op x = Some SLeft))
    by (intros; by rewrite (jcfg_side op op')).
  apply flat_map_ext_in. intros x _.
  rewrite (list_filter_iff _ (λ o, side_of op o = Some (other SLeft) ∧ Key o = Key x))
    by (intros; by rewrite (jcfg_side op op')).
  apply flat_map_ext_in. intros o _. by apply jcfg_pair.
Qed.

Lemma watermarks_only o : Forall (λ r, IsWatermark r = true) o → filter is_data o = [] ∧ barriers o = [].
Proof.
  intros Ho. split; apply filter_none; (eapply Forall_impl; [exact Ho|]); intros r Hr; unfold is_data, isMarker.
  - by rewrite Hr, orb_true_r.
  - by intros [? _]; congruence.
Qed.

Lemma handleRecord_cfg op r : jcfg (handleRecord jsonJoin op r).1 = jcfg op.
Proof. unfold handleRecord. by destruct (side_of op r). Qed.

Lemma pair_out_data op s r l : (∀ x y, is_data (join jsonJoin op x y)) → Forall is_data (flat_map (pair_out jsonJoin op s r) l).
Proof.
  intros Hd. induction l as [|o l IH]; [constructor|]. cbn [flat_map]. apply Forall_app. split; [|done].
  unfold pair_out. destruct s; destruct (inRange _ _ _); try constructor; done || constructor.
Qed.

Lemma filter_data_cons r l : filter is_data (r :: l) = if IsBarrier r || IsWatermark r then filter is_data l else r :: filter is_data l.
Proof.
  rewrite filter_cons. case_decide as Hd; unfold is_data, isMarker in Hd.
  - by rewrite Hd.
  - by apply not_false_is_true in Hd as ->.
Qed.

Lemma barriers_cons r l : barriers (r :: l) = if negb (IsWatermark r) && IsBarrier r then r :: barriers l else barriers l.
Proof.
  unfold barriers. rewrite filter_cons. case_decide as Hd.
  - destruct Hd as [-> ->]. done.
  - destruct (IsWatermark r), (IsBarrier r); try done. by destruct Hd.
Qed.

Lemma barriers_app l l' : barriers (l ++ l') = barriers l ++ barriers l'.
Proof. apply filter_app. Qed.

Lemma jcfg_data op op' : jcfg op' = jcfg op → (∀ x y, is_data (join jsonJoin op x y)) → ∀ x y, is_data (join jsonJoin op' x y).
Proof. intros [= E1 E2 _ _ E5] Hd x y. unfold join. rewrite E1, E2, E5. apply Hd. Qed.

(** What the loop emits, given what came before. *)
Lemma j_steps_spec input : ∀ op past, join_inv op past → timely op (wms op) input →
  Forall (λ r, is_data r → stored r) input → (∀ x y, is_data (join jsonJoin op x y)) →
  let o := (j_steps jsonJoin op input).2 in
  all_pairs op past ++ filter is_data o ≡ₚ all_pairs op (past ++ filter is_data input) ∧ barriers o = barriers input.
Proof.
  induction input as [|r input IH]; intros op past Hi Ht Hst Hd.
  - cbn. by rewrite !app_nil_r.
  - apply Forall_cons in Hst as [Hr Hst]. cbn zeta. rewrite filter_data_cons, barriers_cons.
    cbn [timely] in Ht. cbn [j_steps]. unfold j_step.
    destruct (IsWatermark r) eqn:Ew; [|destruct (IsBarrier r) eqn:Eb].
    + pose proof (handleWatermark_inv op past r Hi) as H. destruct (j_handleWatermark op r) as [op1 o1].
      destruct H as (Hi1 & Hc & Hw & Ho1). apply watermarks_only in Ho1 as [D1 B1].
      rewrite <- Hw in Ht. assert (timely op1 (wms op1) input) as Ht1 by (eapply timely_cfg; [symmetry; exact Hc|exact Ht]).
      destruct (IH op1 past Hi1 Ht1 Hst (jcfg_data op op1 Hc Hd)) as [IH1 IH2].
      destruct (j_steps jsonJoin op1 input) as [op2 os]. cbn [snd] in *.
      rewrite filter_app, barriers_app, D1, B1, orb_true_r. cbn [app negb andb].
      by rewrite !(all_pairs_cfg op op1) in IH1 by done.
    + destruct (IH op past Hi Ht Hst Hd) as [IH1 IH2]. destruct (j_steps jsonJoin op input) as [op2 os]. cbn [snd app] in *.
      rewrite filter_data_cons, barriers_cons, Ew, Eb. cbn [orb negb andb]. by rewrite IH2.
    + destruct Ht as [Hon Ht]. assert (is_data r) as Hrd by (unfold is_data, isMarker; by rewrite Ew, Eb).
      pose proof (handleRecord_inv op past r Hi (Hr Hrd) Hon) as H. pose proof (handleRecord_cfg op r) as Hc.
      destruct (handleRecord jsonJoin op r) as [op1 o1] eqn:E. cbn [fst] in Hc. destruct H as (Hi1 & El & Er & Eo).
      assert (timely op1 (wms op1) input) as Ht1.
      { eapply timely_cfg; [symmetry; exact Hc|]. unfold wms. by rewrite El, Er. }
      destruct (IH op1 (past ++ [r]) Hi1 Ht1 Hst (jcfg_data op op1 Hc Hd)) as [IH1 IH2].
      assert (Forall is_data o1) as Ho1 by (rewrite Eo; destruct (side_of op r); [by apply pair_out_data|constructor]).
      apply filter_data_all in Ho1 as [D1 B1]. destruct (j_steps jsonJoin op1 input) as [op2 os]. cbn [snd] in *.
      rewrite filter_app, barriers_app, D1, B1. cbn [orb app negb andb]. split; [|done].
      rewrite !(all_pairs_cfg op op1) in IH1 by done. rewrite all_pairs_snoc, <- Eo in IH1.
      by rewrite app_assoc, IH1, <- app_assoc.
Qed.

(** An operator over an unused backend. *)
Definition fresh_join op : Prop :=
  sb_inv (j_backend op) ∧ (∀ s, vs_Get (j_backend op) (wm_of s) = None) ∧ (∀ s k, jbuf (j_backend op) s k = [])
  ∧ 0 ≤ j_Before op ∧ 0 ≤ j_After op.

Lemma fresh_join_inv op : fresh_join op → join_inv (loadWatermarks op) [] ∧ wms (loadWatermarks op) = (zeroTime, zeroTime).
Proof.
  intros (Hb & Hw & Hg & H1 & H2). assert (∀ s, j_loadWatermark (j_backend op) s = zeroTime) as Hl.
  { intros s. unfold j_loadWatermark. by rewrite Hw. }
  unfold loadWatermarks, wms. rewrite !Hl. split; [|done]. split; cbn; try done.
Qed.
(** ** Snapshots *)

Lemma jclear_spec s ks : ∀ b, sb_inv b →
  let b' := foldl (λ b k, ls_Clear b (side_at s k)) b ks in
  sb_inv b' ∧ (∀ h, vs_Get b' h = vs_Get b h)
  ∧ ∀ s' k, jbuf b' s' k = if decide (s = s' ∧ k ∈ ks) then [] else jbuf b s' k.
Proof.
  induction ks as [|x ks IH]; intros b Hb; cbn [foldl].
  - split_and!; [done|done|]. intros s' k. rewrite decide_False; [done|]. intros [_ Hk]. by apply not_elem_of_nil in Hk.
  - destruct (IH (ls_Clear b (side_at s x))) as (Hi & Hv & Hg); [auto with weibo|]. split_and!; [done| |].
    + intros h. by rewrite Hv, vs_Get_ls_Clear.
    + intros s' k. rewrite Hg. unfold jbuf. rewrite ls_GetAll_Clear by done.
      destruct (decide (s = s' ∧ k ∈ ks)) as [[-> Hk]|Hn]; [by rewrite decide_True by (split; [done|by right])|].
      destruct (decide (side_at s x = side_at s' k)) as [[-> ->]%side_at_inj|Hne].
      * by rewrite decide_True by (split; [done|left]).
      * rewrite decide_False; [done|]. intros [-> [->|Hk]%elem_of_cons]; [done|by apply Hn].
Qed.

Lemma jappend_spec s (f : bytes → list bytes) ks : ∀ b, sb_inv b → NoDup ks →
  let b' := foldl (λ b k, append_all b (side_at s k) (f k)) b ks in
  sb_inv b' ∧ ∀ s' k, jbuf b' s' k = if decide (s = s' ∧ k ∈ ks) then jbuf b s' k ++ f k else jbuf b s' k.
Proof.
  induction ks as [|x ks IH]; intros b Hb Hnd; cbn [foldl].
  - split; [done|]. intros s' k. rewrite decide_False; [done|]. intros [_ Hk]. by apply not_elem_of_nil in Hk.
  - apply NoDup_cons in Hnd as [Hx Hnd]. destruct (GetAll_append_all b (side_at s x) (f x) Hb) as [Hi Hg].
    destruct (IH _ Hi Hnd) as [Hi' Hg']. split; [done|]. intros s' k. rewrite Hg'. unfold jbuf. rewrite Hg.
    destruct (decide (side_at s x = side_at s' k)) as [[-> ->]%side_at_inj|Hne].
    + rewrite decide_False by (by intros [_ ?]). by rewrite decide_True by (split; [done|left]).
    + destruct (decide (s = s' ∧ k ∈ ks)) as [[-> Hk]|Hn]; [by rewrite decide_True by (split; [done|by right])|].
      rewrite decide_False; [done|]. intros [-> [->|Hk]%elem_of_cons]; [done|by apply Hn].
Qed.

Lemma snapshotJoinSide_lookup b s k : sb_inv b →
  snapshotJoinSide b s !! k = if decide (jbuf b s k = []) then None else Some (decodeRecordJSON <$> jbuf b s k).
Proof.
  intros Hb. unfold snapshotJoinSide.
  assert (Hfold : ∀ ks (m : gmap bytes (list recordJSON)),
    foldl (λ m key, <[key := decodeRecordJSON <$> ls_GetAll b (side_at s key)]> m) m ks !! k
    = if decide (k ∈ ks) then Some (decodeRecordJSON <$> jbuf b s k) else m !! k).
  { induction ks as [|x ks IH]; intros m; cbn [foldl]; [by rewrite decide_False by apply not_elem_of_nil|].
    rewrite IH. destruct (decide (k ∈ ks)); [by rewrite decide_True by (by right)|].
    rewrite lookup_insert. case_decide as Hx; [subst; by rewrite decide_True by left|].
    rewrite decide_False; [done|]. intros [?|?]%elem_of_cons; congruence. }
  rewrite Hfold. destruct (decide (jbuf b s k = [])) as [E|E].
  - rewrite decide_False; [apply lookup_empty|]. intros Hin. by apply ls_Keys_spec in Hin.
  - rewrite decide_True; [done|]. by apply ls_Keys_spec.
Qed.

(** Every buffered entry is the text of some record. *)
Definition jstored_ok b : Prop := ∀ s k v, v ∈ jbuf b s k → ∃ rj, codec_ok rj ∧ v = encodeRecordJSON rj.

Lemma restoreJoinSide_spec b b0 s ks : sb_inv b → sb_inv b0 → jstored_ok b0 → NoDup ks →
  (∀ k, k ∈ ks ↔ is_Some (snapshotJoinSide b0 s !! k)) →
  let b' := restoreJoinSide b s (snapshotJoinSide b0 s) ks in
  sb_inv b' ∧ ∀ s' k, jbuf b' s' k = if decide (s = s') then jbuf b0 s' k else jbuf b s' k.
Proof.
  intros Hb Hb0 Hst Hnd Hks. unfold restoreJoinSide. cbn zeta.
  destruct (jclear_spec s (ls_Keys b (open_ns (joinNS s))) b Hb) as (Hi1 & _ & Hg1). cbn zeta in Hi1, Hg1.
  destruct (jappend_spec s (λ k, encodeRecordJSON <$> default [] (snapshotJoinSide b0 s !! k)) ks _ Hi1 Hnd) as [Hi2 Hg2].
  split; [done|]. intros s' k. cbn zeta in Hg2. rewrite Hg2, Hg1. destruct (decide (s = s')) as [<-|Hn].
  - assert ((if decide (s = s ∧ k ∈ ls_Keys b (open_ns (joinNS s))) then [] else jbuf b s k) = []) as ->.
    { case_decide as Hd; [done|]. destruct (jbuf b s k) eqn:E; [done|]. exfalso. apply Hd. split; [done|].
      apply ls_Keys_spec; [done|]. unfold jbuf, side_at in E. by rewrite E. }
    specialize (Hks k). rewrite snapshotJoinSide_lookup in * by done.
    destruct (decide (jbuf b0 s k = [])) as [E|E]; cbn [default from_option].
    + rewrite decide_False; [done|]. by intros [_ [? ?]%Hks].
    + rewrite decide_True by (split; [done|apply Hks; eauto]). cbn [app id]. rewrite <- list_fmap_compose.
      transitivity (id <$> jbuf b0 s k); [|apply list_fmap_id]. apply list_fmap_ext. intros i v Hv. simpl.
      destruct (Hst s k v) as (rj & Hc & ->); [by eapply list_elem_of_lookup_2|]. by rewrite json_roundtrip.
  - rewrite !decide_False by (by intros [? _]). done.
Qed.

Lemma time_roundtrip t : t = zeroTime ∨ (in_i64 t ∧ t ≠ 0) → timeFromUnixNanoOrZero (unixNanoOrZero t) = t.
Proof.
  unfold unixNanoOrZero, timeFromUnixNanoOrZero, IsZero, UnixNano, UnixTime, time in *.
  destruct (Z.eqb_spec t zeroTime) as [->|Hz]; [done|]. intros [?|[Hi H0]]; [done|]. rewrite wrap64_id by done.
  destruct (Z.eqb_spec t 0); [done|done].
Qed.
End join_correct.

(** C21: When no record is older than the aligned watermark, the interval
    join emits, up to order, exactly the pairs of left and right records of
    one key whose times lie in the interval, each once, whatever was
    evicted, and forwards every barrier in order. *)
Theorem join_emits_all_pairs `{!RecordCodec, SB : StateBackend B, !StateBackendLaws B} jsonJoin
    (op : IntervalJoinOperator B) (input : list Record_) :
  fresh_join op → timely op (zeroTime, zeroTime) input → Forall (λ r, is_data r → stored r) input →
  (∀ x y, is_data (join jsonJoin op x y)) →
  let o := j_run jsonJoin op input in
  filter is_data o ≡ₚ all_pairs jsonJoin op (filter is_data input) ∧ barriers o = barriers input.
Proof.
  intros Hf Ht Hst Hd. destruct (fresh_join_inv op Hf) as [Hi Hw]. unfold j_run.
  assert (jcfg (loadWatermarks op) = jcfg op) as Hc by done.
  destruct (j_steps_spec jsonJoin input (loadWatermarks op) [] Hi) as [H1 H2]; [|done| |].
  - rewrite Hw. by eapply timely_cfg; [symmetry; exact Hc|].
  - exact Hd.
  - split; [|done]. cbn [app] in H1. rewrite !(all_pairs_cfg jsonJoin op (loadWatermarks op)) in H1 by done. exact H1.
Qed.

(** Restoring a join's snapshot into a fresh operator brings back the
    buffers of both sides and both watermarks, and the emitted watermark
    follows from them. *)
Theorem join_restore_roundtrip `{!RecordCodec, SB : StateBackend B, !StateBackendLaws B}
    (op fresh : IntervalJoinOperator B) (keys : side → list bytes) :
  sb_inv (j_backend op) → jstored_ok (j_backend op) → sb_inv (j_backend fresh) →
  (∀ t, t = leftWatermark op ∨ t = rightWatermark op → t = zeroTime ∨ (in_i64 t ∧ t ≠ 0)) →
  (∀ s, NoDup (keys s)) → (∀ s k, k ∈ keys s ↔ is_Some (SideRecords (j_Snapshot op) s !! k)) →
  let op' := j_Restore fresh (j_Snapshot op) keys in
  (∀ s k, jbuf (j_backend op') s k = jbuf (j_backend op) s k)
  ∧ leftWatermark op' = leftWatermark op ∧ rightWatermark op' = rightWatermark op
  ∧ emittedWatermark op' = alignedWatermark (leftWatermark op) (rightWatermark op).
Proof.
  intros Hb Hst Hf Hw Hnd Hks. unfold j_Restore, j_Snapshot in *. cbn [LeftWatermark RightWatermark SideRecords] in *.
  rewrite !time_roundtrip by auto. cbn zeta. split_and!; [|done|done|done]. intros s k. cbn [j_backend set_jbackend set_wms].
  destruct (store_spec (j_backend fresh) SLeft (leftWatermark op) Hf) as [Hi1 _].
  destruct (store_spec _ SRight (rightWatermark op) Hi1) as [Hi2 _].
  destruct (restoreJoinSide_spec _ (j_backend op) SLeft (keys SLeft) Hi2 Hb Hst (Hnd SLeft) (Hks SLeft)) as [Hi3 Hg3].
  destruct (restoreJoinSide_spec _ (j_backend op) SRight (keys SRight) Hi3 Hb Hst (Hnd SRight) (Hks SRight)) as [_ Hg4].
  cbn zeta in Hg3, Hg4. rewrite Hg4, Hg3. by destruct s.
Qed.

(** ** A concrete join *)

Definition demo_orders : bytes := bs "orders".
Definition demo_payments : bytes := bs "payments".

Definition demo_join : IntervalJoinOperator Memory.MemoryBackend :=
  JoinWithin demo_orders demo_payments 10 None Memory.NewMemoryBackend.

Definition demo_event (src : bytes) (t : time) (k v : bytes) : Record_ := mkRecord k v t 0 0 src ∅ false false [].

(** Two orders, a payment in the interval of one, a watermark, a late-matching
    payment and a barrier. *)
Definition demo_join_input : list Record_ :=
  [demo_event demo_orders 100 (bs "k") (bs "o1"); demo_event demo_orders 130 (bs "k") (bs "o2");
   demo_event demo_payments 105 (bs "k") (bs "p1"); NewWatermark 125; NewBarrier (bs "cp-1");
   demo_event demo_payments 135 (bs "k") (bs "p2"); demo_event demo_payments 135 (bs "x") (bs "p3")].

Definition demo_concat (l r : bytes) : bytes := l ++ bs "+" ++ r.

Lemma demo_fresh_join : fresh_join demo_join.
Proof. by split_and!. Qed.

Lemma demo_event_stored src t k v : 0 ≤ t < 1000 → stored (RC := demo_codec) (demo_event src t k v).
Proof. intros Ht. split_and!; [done|done| |done]. unfold in_i64, two63. simpl. lia. Qed.

Lemma demo_input_stored : Forall (λ r, is_data r → stored (RC := demo_codec) r) demo_join_input.
Proof.
  unfold demo_join_input.
  repeat (apply Forall_cons; split; [first [intros _; apply demo_event_stored; lia|discriminate]|]). constructor.
Qed.

Lemma join_emits_all_pairs_witness :
  Value <$> all_pairs demo_concat demo_join (filter is_data demo_join_input) = bs <$> ["o1+p1"; "o2+p2"]%string
  ∧ filter is_data (j_run (RC := demo_codec) demo_concat demo_join demo_join_input)
    ≡ₚ all_pairs demo_concat demo_join (filter is_data demo_join_input).
Proof.
  split; [vm_compute; reflexivity|].
  apply (join_emits_all_pairs (H := demo_codec) demo_concat demo_join demo_join_input).
  - exact demo_fresh_join.
  - vm_compute. repeat split; intros; try done; right; discriminate.
  - exact demo_input_stored.
  - done.
Defined.

(** A join that buffered one order and saw both watermarks. *)
Definition demo_order : bytes := encodeRecordJSON (RecordCodec := demo_codec) (recordToJSON (demo_event demo_orders 100 (bs "k") (bs "o1"))).
Definition demo_join_mid : IntervalJoinOperator Memory.MemoryBackend :=
  set_wms (set_jbackend demo_join (ls_Append Memory.NewMemoryBackend (side_at SLeft (bs "k")) demo_order)) 90 95 90.

Definition demo_join_keys (s : side) : list bytes := match s with SLeft => [bs "k"] | SRight => [] end.

Lemma demo_mid_inv : sb_inv (j_backend demo_join_mid).
Proof. apply ls_Append_inv, Memory.inv_new. Qed.

Lemma demo_mid_buf s k : jbuf (j_backend demo_join_mid) s k = if decide (s = SLeft ∧ k = bs "k") then [demo_order] else [].
Proof.
  unfold jbuf, demo_join_mid. cbn [j_backend set_wms set_jbackend]. rewrite ls_GetAll_Append by apply Memory.inv_new.
  destruct (decide (s = SLeft ∧ k = bs "k")) as [[-> ->]|Hn].
  - by rewrite decide_True.
  - rewrite decide_False; [done|]. intros [<- <-]%side_at_inj. by apply Hn.
Qed.

Lemma demo_mid_stored : jstored_ok (RC := demo_codec) (j_backend demo_join_mid).
Proof.
  intros s k v. rewrite demo_mid_buf. case_decide; [|by intros ?%not_elem_of_nil].
  intros ->%list_elem_of_singleton. by eexists.
Qed.

Lemma demo_mid_keys s k : k ∈ demo_join_keys s
  ↔ is_Some (SideRecords (j_Snapshot (RC := demo_codec) demo_join_mid) s !! k).
Proof.
  cbn [j_Snapshot SideRecords]. rewrite snapshotJoinSide_lookup by apply demo_mid_inv. rewrite demo_mid_buf.
  destruct (decide (s = SLeft ∧ k = bs "k")) as [[-> ->]|Hn].
  - rewrite decide_False by done. split; [eauto|]. intros _. cbn. by left.
  - rewrite decide_True by done. split; [|by intros [? ?]]. intros Hk. exfalso. apply Hn.
    destruct s; cbn in Hk; [split; [done|by apply list_elem_of_singleton in Hk]|by apply not_elem_of_nil in Hk].
Qed.

Lemma join_restore_roundtrip_witness :
  jbuf (j_backend (j_Restore (RC := demo_codec) demo_join (j_Snapshot (RC := demo_codec) demo_join_mid) demo_join_keys)) SLeft (bs "k")
  = [demo_order].
Proof.
  rewrite (proj1 (join_restore_roundtrip (H := demo_codec) demo_join_mid demo_join demo_join_keys
    demo_mid_inv demo_mid_stored Memory.inv_new
    ltac:(intros t [->| ->]; right; split; [unfold in_i64, two63; simpl; lia|done|unfold in_i64, two63; simpl; lia|done])
    ltac:(intros []; cbn; [apply NoDup_singleton|constructor]) demo_mid_keys)).
  apply demo_mid_buf.
Defined.
