(* ===== verification/Storage.v ===== *)
(** * Checkpoint storage ([src/checkpoint/checkpoint.go], [src/checkpoint/archive.go])

    [FileStorage] keeps one JSON file per checkpoint, the pointers
    [latest.json] and [latest-completed.json], and one native-state directory
    per checkpoint.  The directory is the record [disk]; a checkpoint file that
    does not parse is [None].  Every write is a temp file, an fsync and a
    rename, so it is one atomic action; an operation is the list of its actions
    in order, and a crash leaves the disk after a prefix of them.

    The JSON text of a checkpoint and I/O errors are not modelled, except that
    syncing a missing state directory fails. *)

From S2P Require Import Prelude Rfc3339 Decimal.
From Stdlib Require Import Strings.Byte.

(** ** Data *)

(** [Status]; the empty string is the legacy value. *)
Inductive Status := StatusPrepared | StatusCompleted | StatusNone.

#[export] Instance Status_eq_dec : EqDecision Status.
Proof. solve_decision. Defined.

(** [CheckpointData] *)
Record CheckpointData := mkCheckpoint {
  ID : bytes;
  Timestamp : time;
  Operators : gmap bytes bytes;
  Source : gmap bytes bytes;
  CStatus : Status;
  TxnID : bytes;
  StateDirs : gmap bytes bytes
}.

#[export] Instance CheckpointData_eq_dec : EqDecision CheckpointData.
Proof. solve_decision. Defined.

Definition setStatus (d : CheckpointData) (s : Status) : CheckpointData :=
  mkCheckpoint (ID d) (Timestamp d) (Operators d) (Source d) s (TxnID d) (StateDirs d).

(** [Completed] *)
Definition Completed (d : CheckpointData) : bool :=
  match CStatus d with StatusCompleted | StatusNone => true | StatusPrepared => false end.

(** ** The directory *)

Record disk := mkDisk {
  files : gmap bytes (option CheckpointData);
  latest : option bytes;
  latestCompleted : option bytes;
  stateDirs : gmap bytes (gset bytes)
}.

(** The atomic actions. *)
Inductive act :=
| AWrite (data : CheckpointData)
| APointer (completed : bool) (id : bytes)
| ARemoveFile (id : bytes)
| ARemoveState (id : bytes).

Definition apply_act (d : disk) (a : act) : disk :=
  match a with
  | AWrite data => mkDisk (<[ID data := Some data]> (files d)) (latest d) (latestCompleted d) (stateDirs d)
  | APointer false id => mkDisk (files d) (Some id) (latestCompleted d) (stateDirs d)
  | APointer true id => mkDisk (files d) (latest d) (Some id) (stateDirs d)
  | ARemoveFile id => mkDisk (delete id (files d)) (latest d) (latestCompleted d) (stateDirs d)
  | ARemoveState id => mkDisk (files d) (latest d) (latestCompleted d) (delete id (stateDirs d))
  end.

Definition exec (d : disk) (acts : list act) : disk := foldl apply_act d acts.

(** ** Reading *)

(** [loadSpecificLocked] *)
Definition loadSpecific (d : disk) (id : bytes) : result (option CheckpointData) :=
  match files d !! id with
  | None => Ok None
  | Some None => Err (bs "checkpoint: unmarshal")
  | Some (Some data) => Ok (Some data)
  end.

Definition dash : byte := x2d.

(** The last dash-separated field. *)
Fixpoint last_field (acc s : bytes) : bytes :=
  match s with
  | [] => acc
  | b :: s' => if decide (b = dash) then last_field [] s' else last_field (acc ++ [b]) s'
  end.

(** [checkpointSequence]: the error of [ParseInt] is ignored. *)
Definition checkpointSequence (id : bytes) : Z := ParseInt_value (last_field [] id).

(** The order of [scanLocked]: time, then sequence. *)
Definition ck_le (a b : CheckpointData) : Prop :=
  Timestamp a < Timestamp b
  ∨ (Timestamp a = Timestamp b ∧ checkpointSequence (ID a) ≤ checkpointSequence (ID b)).

#[export] Instance ck_le_dec : RelDecision ck_le.
Proof. intros a b. unfold ck_le, time. apply _. Defined.

(** [scanLocked]: the readable checkpoints, oldest first. *)
Definition readable (d : disk) : list CheckpointData :=
  omap (λ kv : bytes * option CheckpointData,
          data ← kv.2; if decide (ID data = []) then None else Some data) (map_to_list (files d)).
Definition scan (d : disk) : list CheckpointData := merge_sort ck_le (readable d).

(** [loadPointerLocked]: the pointer's target, or the newest usable file, to
    which the pointer is then repaired. *)
Definition loadPointer (d : disk) (completedOnly : bool) : option CheckpointData * list act :=
  let usable data := negb completedOnly || Completed data in
  let fallback :=
    match last (filter (λ x, usable x = true) (scan d)) with
    | Some x => (Some x, [APointer completedOnly (ID x)])
    | None => (None, [])
    end in
  match (if completedOnly then latestCompleted d else latest d) with
  | Some id =>
      match loadSpecific d id with
      | Ok (Some data) => if usable data then (Some data, []) else fallback
      | _ => fallback
      end
  | None => fallback
  end.

(** [Load] and [LoadLatestCompleted] *)
Definition Load (d : disk) : option CheckpointData * list act := loadPointer d false.
Definition LoadLatestCompleted (d : disk) : option CheckpointData * list act := loadPointer d true.

(** ** Writing *)

(** [enforceRetentionLocked]: the oldest completed checkpoints go. *)
Definition victims (retain : Z) (d : disk) : list CheckpointData :=
  let completed := filter (λ x, Completed x = true) (scan d) in
  take (length completed - Z.to_nat retain) completed.

Definition enforceRetention (retain : Z) (d : disk) : list act :=
  if retain <? 1 then []
  else flat_map (λ v, [ARemoveFile (ID v); ARemoveState (ID v)]) (victims retain d).

(** Every native-state directory the checkpoint refers to is there. *)
Definition has_state (d : disk) (data : CheckpointData) : Prop :=
  map_Forall (λ _ rel, rel ∈ default ∅ (stateDirs d !! ID data)) (StateDirs data).

#[export] Instance has_state_dec d data : Decision (has_state d data).
Proof. unfold has_state. apply _. Defined.

(** [saveLocked] *)
Definition save (retain : Z) (d : disk) (data : CheckpointData) : result (list act) :=
  let data := if decide (CStatus data = StatusNone) then setStatus data StatusCompleted else data in
  if decide (has_state d data) then
    let writes := [AWrite data; APointer false (ID data)]
                  ++ (if decide (CStatus data = StatusCompleted) then [APointer true (ID data)] else []) in
    Ok (writes ++ enforceRetention retain (exec d writes))
  else Err (bs "checkpoint: sync state dir").

(** [UpdateStatus] *)
Definition UpdateStatus (retain : Z) (d : disk) (id : bytes) (s : Status) : result (list act) :=
  data <-? loadSpecific d id ;;
  match data with
  | None => Err (bs "checkpoint: update status: " ++ id ++ bs " not found")
  | Some data => save retain d (setStatus data s)
  end.

(** [sweepOrphansLocked]: state directories without a checkpoint file. *)
Definition sweepOrphans (d : disk) : list act :=
  ARemoveState <$> filter (λ id, files d !! id = None) (map_to_list (stateDirs d)).*1.

(** [maintainLocked], run when the storage is opened. *)
Definition maintain (retain : Z) (d : disk) : list act :=
  let a1 := sweepOrphans d in
  let d1 := exec d a1 in
  let a2 := (loadPointer d1 false).2 in
  let d2 := exec d1 a2 in
  let a3 := (loadPointer d2 true).2 in
  let d3 := exec d2 a3 in
  a1 ++ a2 ++ a3 ++ enforceRetention retain d3.

(** [ExtractCheckpoint] after the archive was read: the state files are in
    place and the record is saved as completed. *)
Definition extract_save (retain : Z) (d : disk) (data : CheckpointData) (rels : gset bytes) : result (list act) :=
  save retain (mkDisk (files d) (latest d) (latestCompleted d) (<[ID data := rels]> (stateDirs d)))
    (setStatus data StatusCompleted).

(** ** Facts about scans *)

#[export] Instance ck_le_total : Total ck_le.
Proof. intros a b. unfold ck_le, time. lia. Qed.
#[export] Instance ck_le_trans : Transitive ck_le.
Proof. intros a b c. unfold ck_le, time. lia. Qed.

(** Files are stored under their own, non-empty identifier. *)
Definition named (d : disk) : Prop :=
  ∀ id data, files d !! id = Some (Some data) → ID data = id ∧ id ≠ [].

Lemma elem_of_scan d x : named d → x ∈ scan d ↔ files d !! ID x = Some (Some x).
Proof.
  intros Hn. unfold scan. rewrite merge_sort_Permutation. unfold readable.
  rewrite list_elem_of_omap. split.
  - intros ([id c] & Hin%elem_of_map_to_list & E). simpl in E. destruct c as [data|]; [|done]. simpl in E.
    case_decide; simplify_eq. by destruct (Hn _ _ Hin) as [-> _].
  - intros Hx. exists (ID x, Some x). rewrite elem_of_map_to_list. split; [done|]. simpl.
    destruct (Hn _ _ Hx) as [_ Hne]. by rewrite decide_False.
Qed.

Lemma scan_NoDup d : named d → NoDup (scan d).
Proof.
  intros Hn. unfold scan. rewrite merge_sort_Permutation. unfold readable.
  assert (NoDup (map_to_list (files d)).*1) as Hnd by apply NoDup_fst_map_to_list.
  assert (∀ kv, kv ∈ map_to_list (files d) → ∀ x, kv.2 = Some x → ID x = kv.1) as Hid.
  { intros [id c] Hin%elem_of_map_to_list x E. simpl in *. subst. by destruct (Hn _ _ Hin). }
  revert Hnd Hid. induction (map_to_list (files d)) as [|[id c] l IH]; intros Hnd Hid; [constructor|].
  cbn [omap list_omap]. apply NoDup_cons in Hnd as [Hni Hnd]. specialize (IH Hnd ltac:(intros; apply Hid; [by right|done])).
  destruct c as [data|]; [|done]. cbn [mbind option_bind snd]. case_decide; [done|].
  constructor; [|done]. intros ([id' c'] & Hin & E)%list_elem_of_omap. simpl in E.
  destruct c' as [data'|]; [|done]. simpl in E. case_decide; simplify_eq.
  apply Hni. pose proof (Hid (id, Some data) ltac:(left) data eq_refl) as H1. simpl in H1.
  pose proof (Hid (id', Some data) ltac:(by right) data eq_refl) as H2. simpl in H2.
  rewrite <- H1, H2. by apply (list_elem_of_fmap_2 fst) in Hin.
Qed.

Lemma scan_sorted d : StronglySorted ck_le (scan d).
Proof. apply (StronglySorted_merge_sort _). Qed.

(** Retention never removes the newest completed checkpoint. *)
Lemma victims_not_newest retain d x : named d → 1 ≤ retain →
  (∀ y, y ∈ scan d → Completed y = true → y ≠ x → Timestamp y < Timestamp x) → x ∉ victims retain d.
Proof.
  intros Hn Hr Hnew Hin. unfold victims in Hin. set (L := filter _ (scan d)) in *.
  assert (StronglySorted ck_le L) as Hs by (apply StronglySorted_filter, scan_sorted).
  assert (NoDup L) as Hnd by (by apply NoDup_filter, scan_NoDup).
  set (k := (length L - Z.to_nat retain)%nat) in *.
  destruct L as [|z L'] eqn:EL; [by rewrite take_nil in Hin; apply not_elem_of_nil in Hin|]. rewrite <- EL in *.
  assert (k < length L)%nat as Hk by (unfold k; rewrite EL; simpl; lia).
  destruct (drop k L) as [|y D] eqn:ED.
  { apply (f_equal length) in ED. rewrite length_drop in ED. simpl in ED. lia. }
  rewrite <- (take_drop k L), ED in Hs, Hnd.
  apply StronglySorted_app in Hs as [Hle _]. specialize (Hle x y Hin ltac:(left)).
  apply NoDup_app in Hnd as (_ & Hdis & _). assert (y ≠ x) as Hne by (intros ->; apply (Hdis x Hin); left).
  assert (y ∈ L) as Hy by (rewrite <- (take_drop k L), ED; apply elem_of_app; right; left).
  unfold L in Hy. apply list_elem_of_filter in Hy as [Hc Hys]. specialize (Hnew y Hys Hc Hne).
  unfold ck_le, time in *. lia.
Qed.

Lemma victims_completed retain d x : x ∈ victims retain d → x ∈ scan d ∧ Completed x = true.
Proof.
  unfold victims. intros Hin%elem_of_take. destruct Hin as (i & Hi & _). apply list_elem_of_lookup_2 in Hi.
  by apply list_elem_of_filter in Hi as [? ?].
Qed.

(** ** Retention *)

Lemma exec_removals_lookup d vs k :
  let d' := exec d (flat_map (λ v, [ARemoveFile (ID v); ARemoveState (ID v)]) vs) in
  files d' !! k = (if decide (k ∈ ID <$> vs) then None else files d !! k)
  ∧ stateDirs d' !! k = (if decide (k ∈ ID <$> vs) then None else stateDirs d !! k)
  ∧ latest d' = latest d ∧ latestCompleted d' = latestCompleted d.
Proof.
  revert d. induction vs as [|v vs IH]; intros d; [done|]. cbn [flat_map app exec foldl].
  destruct (IH (apply_act (apply_act d (ARemoveFile (ID v))) (ARemoveState (ID v)))) as (H1 & H2 & H3 & H4).
  unfold exec in *. cbn zeta in *. rewrite H1, H2, H3, H4. simpl. rewrite !lookup_delete.
  assert (k ∈ ID v :: (ID <$> vs) ↔ ID v = k ∨ k ∈ ID <$> vs) as Hiff by (rewrite elem_of_cons; naive_solver).
  repeat case_decide; naive_solver.
Qed.

Section retention.
Context (retain : Z) (d : disk) (Hn : named d) (Hr : 1 ≤ retain).

Let d' := exec d (enforceRetention retain d).
Let L := filter (λ x, Completed x = true) (scan d).
Let k := (length L - Z.to_nat retain)%nat.

Lemma retention_eq : d' = exec d (flat_map (λ v, [ARemoveFile (ID v); ARemoveState (ID v)]) (take k L)).
Proof. unfold d', enforceRetention. destruct (Z.ltb_spec retain 1); [lia|]. done. Qed.

Lemma retention_named : named d'.
Proof.
  intros id x. rewrite retention_eq. destruct (exec_removals_lookup d (take k L) id) as [-> _].
  case_decide; [done|]. apply Hn.
Qed.

(** An identifier is a victim's only if the file is the victim. *)
Lemma victim_id x : x ∈ scan d → ID x ∈ ID <$> take k L → x ∈ take k L.
Proof.
  intros Hx (v & E & Hv)%list_elem_of_fmap. assert (v ∈ scan d) as Hs.
  { apply elem_of_take in Hv as (i & Hi & _). apply list_elem_of_lookup_2 in Hi.
    by apply list_elem_of_filter in Hi as [_ ?]. }
  apply elem_of_scan in Hx, Hs; [|done..]. rewrite E in Hx. congruence.
Qed.

Lemma retention_scan x : x ∈ scan d' ↔ x ∈ scan d ∧ x ∉ take k L.
Proof.
  rewrite (elem_of_scan d' x retention_named), retention_eq.
  destruct (exec_removals_lookup d (take k L) (ID x)) as [-> _]. case_decide as Hd.
  - split; [done|]. intros [Hx Hv]. destruct Hv. by apply victim_id.
  - rewrite (elem_of_scan d x Hn). split; [|by intros [? _]]. intros Hx. split; [done|].
    intros Hv. apply Hd. by apply list_elem_of_fmap_2.
Qed.

Lemma retention_completed : filter (λ x, Completed x = true) (scan d') ≡ₚ drop k L.
Proof.
  assert (NoDup L) as HL by (by apply NoDup_filter, scan_NoDup). rewrite <- (take_drop k L) in HL.
  apply NoDup_app in HL as (_ & Hdis & HD). apply NoDup_Permutation; [|done|].
  { apply NoDup_filter, scan_NoDup, retention_named. }
  intros x. rewrite list_elem_of_filter, retention_scan. split.
  - intros (Hc & Hx & Hv). assert (x ∈ L) as HxL by (by apply list_elem_of_filter).
    rewrite <- (take_drop k L) in HxL. apply elem_of_app in HxL as [?|?]; [by destruct Hv|done].
  - intros Hx. assert (x ∈ L) as HxL by (rewrite <- (take_drop k L); apply elem_of_app; by right).
    apply list_elem_of_filter in HxL as [Hc Hs]. split_and!; [done|done|]. intros Hv. by apply (Hdis x).
Qed.
End retention.

(** Retention leaves the newest completed checkpoints, at most the
    configured number, never touches prepared ones, and keeps the native
    state of every record it keeps. *)
Theorem retention_keeps_newest retain d :
  named d → 1 ≤ retain →
  let d' := exec d (enforceRetention retain d) in
  let completed d := filter (λ x, Completed x = true) (scan d) in
  length (completed d') = Nat.min (Z.to_nat retain) (length (completed d))
  ∧ (∀ v y, v ∈ completed d → v ∉ completed d' → y ∈ completed d' → ck_le v y)
  ∧ (∀ x, x ∈ scan d → Completed x = false → x ∈ scan d')
  ∧ (∀ x, x ∈ scan d' → x ∈ scan d ∧ stateDirs d' !! ID x = stateDirs d !! ID x)
  ∧ latest d' = latest d ∧ latestCompleted d' = latestCompleted d.
Proof.
  intros Hn Hr d' completed. pose proof (retention_completed retain d Hn Hr) as HP. fold d' in HP.
  pose proof (retention_eq retain d Hr) as Eq. cbn zeta in Eq. fold d' in Eq.
  set (L := filter (λ x, Completed x = true) (scan d)) in *. set (k := (length L - Z.to_nat retain)%nat) in *.
  split_and!.
  - unfold completed. rewrite HP, length_drop. fold L. unfold k. lia.
  - intros v y Hv Hv' Hy. unfold completed in *. rewrite HP in Hv', Hy. fold L in Hv.
    assert (StronglySorted ck_le L) as Hs by (apply StronglySorted_filter, scan_sorted).
    rewrite <- (take_drop k L) in Hs, Hv. apply StronglySorted_app in Hs as [Hle _].
    apply Hle; [|done]. by apply elem_of_app in Hv as [?|?].
  - intros x Hx Hc. apply retention_scan; [done|done|]. split; [done|]. intros Hv%elem_of_take.
    destruct Hv as (i & Hi & _). apply list_elem_of_lookup_2 in Hi. apply list_elem_of_filter in Hi as [Hi _]. congruence.
  - intros x Hx. pose proof Hx as [H1 H2]%retention_scan; [|done|done]. split; [done|]. rewrite Eq.
    destruct (exec_removals_lookup d (take k L) (ID x)) as (_ & -> & _). rewrite decide_False; [done|].
    intros Hv. apply H2. by apply victim_id.
  - rewrite Eq. by destruct (exec_removals_lookup d (take k L) []) as (_ & _ & -> & _).
  - rewrite Eq. by destruct (exec_removals_lookup d (take k L) []) as (_ & _ & _ & ->).
Qed.

(** ** Pointers *)

Definition pointer (d : disk) (completedOnly : bool) : option bytes :=
  if completedOnly then latestCompleted d else latest d.

Definition usable (completedOnly : bool) (x : CheckpointData) : bool := negb completedOnly || Completed x.

Lemma loadPointer_hit d b id x : pointer d b = Some id → files d !! id = Some (Some x) → usable b x = true →
  loadPointer d b = (Some x, []).
Proof.
  intros Hp Hx Hu. unfold loadPointer. change (if b then latestCompleted d else latest d) with (pointer d b).
  rewrite Hp. unfold loadSpecific. rewrite Hx. unfold usable in Hu. by rewrite Hu.
Qed.

Lemma last_scan d (P : CheckpointData → Prop) `{!∀ x, Decision (P x)} x :
  last (filter P (scan d)) = Some x → ∃ id, files d !! id = Some (Some x).
Proof.
  intros [l El]%last_Some. assert (x ∈ scan d) as Hin.
  { assert (x ∈ l ++ [x]) as Hx by set_solver. rewrite <- El in Hx. by apply list_elem_of_filter in Hx as [_ ?]. }
  unfold scan in Hin. rewrite merge_sort_Permutation in Hin. unfold readable in Hin.
  apply list_elem_of_omap in Hin as ([id c] & Hin%elem_of_map_to_list & Ec). exists id. cbn in Ec.
  destruct c as [y|]; [|done]. cbn in Ec. case_decide; [done|]. by injection Ec as ->.
Qed.

(** What is loaded is a file of the directory. *)
Lemma loadPointer_file d b x : (loadPointer d b).1 = Some x → ∃ id, files d !! id = Some (Some x).
Proof.
  unfold loadPointer. destruct (last (filter _ _)) as [y|] eqn:El.
  - apply last_scan in El. destruct (if b then _ else _) as [id|]; [|cbn; by intros [= ->]].
    unfold loadSpecific. destruct (files d !! id) as [[z|]|] eqn:Ez; cbn; [|by intros [= ->]..].
    destruct (negb b || Completed z); cbn; intros [= ->]; eauto.
  - destruct (if b then _ else _) as [id|]; [|done]. unfold loadSpecific. destruct (files d !! id) as [[z|]|] eqn:Ez; cbn; [|done..].
    destruct (negb b || Completed z); cbn; [|done]. intros [= ->]. eauto.
Qed.

Lemma last_sorted_max (l : list CheckpointData) x y :
  StronglySorted ck_le l → last l = Some x → y ∈ l → y = x ∨ ck_le y x.
Proof.
  intros Hs [l' ->]%last_Some Hy. apply StronglySorted_app in Hs as [Hle _].
  apply elem_of_app in Hy as [Hy|Hy]; [right; apply Hle; set_solver|left; set_solver].
Qed.

(** Loading through a pointer returns a usable checkpoint whenever one
    exists, the newest one if the pointer was unusable, and repairs the
    pointer so that the next load returns the same without a scan. *)
Theorem load_pointer_repairs d b :
  named d →
  match loadPointer d b with
  | (Some x, acts) =>
      x ∈ scan d ∧ usable b x = true
      ∧ pointer (exec d acts) b = Some (ID x)
      ∧ (acts ≠ [] → ∀ y, y ∈ scan d → usable b y = true → y = x ∨ ck_le y x)
      ∧ loadPointer (exec d acts) b = (Some x, [])
  | (None, acts) => acts = [] ∧ ∀ y, y ∈ scan d → usable b y = false
  end.
Proof.
  intros Hn. set (F := filter (λ x, usable b x = true) (scan d)).
  assert (∀ r acts, (match last F with Some x => (Some x, [APointer b (ID x)]) | None => (None, []) end) = (r, acts) →
    match r with
    | Some x => x ∈ scan d ∧ usable b x = true ∧ pointer (exec d acts) b = Some (ID x)
        ∧ (acts ≠ [] → ∀ y, y ∈ scan d → usable b y = true → y = x ∨ ck_le y x)
        ∧ loadPointer (exec d acts) b = (Some x, [])
    | None => acts = [] ∧ ∀ y, y ∈ scan d → usable b y = false
    end) as HF.
  { intros r acts E. destruct (last F) as [x|] eqn:El; simplify_eq.
    - assert (x ∈ F) as HxF by (apply last_Some in El as [? ->]; set_solver).
      pose proof HxF as [Hu Hs]%list_elem_of_filter.
      assert (pointer (exec d [APointer b (ID x)]) b = Some (ID x)) as Hp by (by destruct b).
      split_and!; [done|done|done| |].
      + intros _ y Hy Huy. apply (last_sorted_max F); [|done|by apply list_elem_of_filter].
        apply StronglySorted_filter, scan_sorted.
      + apply (loadPointer_hit _ _ (ID x)); [done| |done]. apply elem_of_scan in Hs; [|done]. by destruct b.
    - split; [done|]. intros y Hy. apply not_true_iff_false. intros Hu.
      apply last_None in El. assert (y ∈ F) as HyF by (by apply list_elem_of_filter). rewrite El in HyF. by apply not_elem_of_nil in HyF. }
  destruct (loadPointer d b) as [r acts] eqn:E. unfold loadPointer in E. fold F in E.
  change (if b then latestCompleted d else latest d) with (pointer d b) in E.
  destruct (pointer d b) as [id|] eqn:Ep; [|by apply HF]. unfold loadSpecific in E.
  destruct (files d !! id) as [[data|]|] eqn:Ef; [|by apply HF|by apply HF].
  change (negb b || Completed data) with (usable b data) in E.
  destruct (usable b data) eqn:Eu; [|by apply HF]. simplify_eq. destruct (Hn _ _ Ef) as [E1 _].
  split_and!; [apply elem_of_scan; [done|by rewrite E1]|done|by rewrite E1|done|]. by apply (loadPointer_hit _ _ id).
Qed.

(** ** A concrete directory *)

Definition demo_record (id : bytes) (t : time) (s : Status) : CheckpointData :=
  mkCheckpoint id t ∅ ∅ s (bs "job") ∅.

(** Two completed checkpoints, a prepared one, and a pointer to a file that
    is gone. *)
Definition demo_disk : disk :=
  mkDisk (<[bs "1" := Some (demo_record (bs "1") 10 StatusCompleted)]>
          (<[bs "2" := Some (demo_record (bs "2") 20 StatusCompleted)]>
          {[bs "3" := Some (demo_record (bs "3") 30 StatusPrepared)]}))
    (Some (bs "3")) (Some (bs "0")) ∅.

Lemma demo_named : named demo_disk.
Proof.
  intros id x. unfold demo_disk, files.
  rewrite !lookup_insert, lookup_singleton. repeat case_decide; subst; intros [= <-]; done.
Qed.

Lemma retention_keeps_newest_witness :
  length (filter (λ x, Completed x = true) (scan (exec demo_disk (enforceRetention 1 demo_disk)))) = 1%nat.
Proof. rewrite (proj1 (retention_keeps_newest 1 demo_disk demo_named ltac:(lia))). vm_compute. reflexivity. Defined.

Lemma load_pointer_repairs_witness :
  loadPointer (exec demo_disk [APointer true (bs "2")]) true = (Some (demo_record (bs "2") 20 StatusCompleted), []).
Proof. exact (proj2 (proj2 (proj2 (proj2 (load_pointer_repairs demo_disk true demo_named))))). Defined.

(** Extracting the archive of a checkpoint older than the retained ones reports
    success, but retention removes the record at once and the completed pointer
    dangles. *)
Theorem extract_older_is_lost :
  let data := demo_record (bs "0") 5 StatusCompleted in
  match extract_save 2 demo_disk data ∅ with
  | Ok acts => let d' := exec (mkDisk (files demo_disk) (latest demo_disk) (latestCompleted demo_disk) {[bs "0" := ∅]}) acts in
      latestCompleted d' = Some (bs "0") ∧ files d' !! bs "0" = None
      ∧ (LoadLatestCompleted d').1 = Some (demo_record (bs "2") 20 StatusCompleted)
  | _ => False
  end.
Proof. vm_compute. done. Qed.
