(* ===== verification/Coordinator.v ===== *)
(** * The two-phase checkpoint coordinator and recovery

    [src/checkpoint/coordinator.go] and [resolveCoordinatedRecovery] of
    [src/engine.go].

    The world is the checkpoint directory and the set of sink transactions that
    committed.  [finalize] returns the coordinator's new state and the atomic
    actions it performs, in order; a crash leaves the world after a prefix of
    them.  The sink (its commit outcome, its marker probe) and the test hook are
    parameters. *)

From S2P Require Import Prelude Decimal Storage.
From Stdlib Require Import Strings.Byte.

(** ** Protocol *)

(** [Step] and [HookAction] *)
Inductive Step :=
| StepBarrierInjected | StepStateSnapshotted | StepSinkPrepared | StepPersistPrepared
| StepSinkCommitted | StepPersistCompleted | StepOffsetsCommitted.

(** The text of a step. *)
Definition step_name (s : Step) : bytes :=
  match s with
  | StepBarrierInjected => bs "barrier-injected"
  | StepStateSnapshotted => bs "state-snapshotted"
  | StepSinkPrepared => bs "sink-prepared"
  | StepPersistPrepared => bs "persist-prepared"
  | StepSinkCommitted => bs "sink-committed"
  | StepPersistCompleted => bs "persist-completed"
  | StepOffsetsCommitted => bs "offsets-committed"
  end.

Inductive HookAction := HookContinue | HookFail | HookHalt.

(** [pendingCheckpoint] *)
Record pendingCheckpoint := mkPending {
  p_offsets : option bytes;
  p_state : gmap bytes bytes;
  p_stateDirs : gmap bytes bytes;
  p_prepared : bool;
  p_sinkErr : option bytes
}.

Definition emptyPending : pendingCheckpoint := mkPending None ∅ ∅ false None.

(** [Coordinator]: the channels are the queue [events] and the first error. *)
Record Coordinator := mkCoordinator {
  pending : gmap bytes pendingCheckpoint;
  halted : bool;
  events : list bytes;
  fatal : option bytes
}.

Definition NewCoordinator : Coordinator := mkCoordinator ∅ false [] None.

(** What the sink's commit does: it takes effect or not, and reports an error
    or not; an error leaves the outcome unknown to the coordinator. *)
Inductive commit_outcome := Committed | CommittedError (e : bytes) | NotCommitted (e : bytes).

(** What a coordinator talks to. *)
Record env := mkEnv {
  retain : Z;
  txnID : bytes;
  hook : Step → bytes → HookAction;
  commitSink : bytes → commit_outcome;
  hasAbortSink : bool;
  hasOnCompleted : bool;
  hasCommitOffsets : bool
}.

(** Actions on the world. *)
Inductive wact :=
| WDisk (a : act)
| WCommit (id : bytes)
| WAbort (id : bytes)
| WCompleted (id : bytes)
| WOffsets (offsets : bytes).

Definition world := (disk * gset bytes)%type.

Definition apply_wact (w : world) (a : wact) : world :=
  match a with
  | WDisk a => (apply_act w.1 a, w.2)
  | WCommit id => (w.1, {[id]} ∪ w.2)
  | WAbort _ | WCompleted _ | WOffsets _ => w
  end.

Definition wexec (w : world) (acts : list wact) : world := foldl apply_wact w acts.

Section coordinator.
Context (E : env).

(** [ensure] *)
Definition ensure (c : Coordinator) (id : bytes) : pendingCheckpoint := default emptyPending (pending c !! id).
Definition set_pending (c : Coordinator) (id : bytes) (p : pendingCheckpoint) : Coordinator :=
  mkCoordinator (<[id := p]> (pending c)) (halted c) (events c) (fatal c).
Definition drop_pending (c : Coordinator) (id : bytes) : Coordinator :=
  mkCoordinator (delete id (pending c)) (halted c) (events c) (fatal c).
Definition halt (c : Coordinator) : Coordinator := mkCoordinator (pending c) true (events c) (fatal c).
Definition enqueue (c : Coordinator) (id : bytes) : Coordinator :=
  mkCoordinator (pending c) (halted c) (events c ++ [id]) (fatal c).

(** [reportFatal]: the channel has room for one error. *)
Definition reportFatal (c : Coordinator) (e : bytes) : Coordinator :=
  mkCoordinator (pending c) (halted c) (events c)
    (match fatal c with Some e0 => Some e0 | None => Some e end).

(** An error of checkpoint [id]. *)
Definition ckpt_error (id msg e : bytes) : bytes := bs "checkpoint " ++ id ++ bs ": " ++ msg ++ e.

(** [abortFatal] with [cleanupStateDirs] *)
Definition abortFatal (c : Coordinator) (id e : bytes) : Coordinator * list wact :=
  (reportFatal c e, (if hasAbortSink E then [WAbort id] else []) ++ [WDisk (ARemoveState id)]).

(** [step]: whether to go on, the state, and the actions of an injected failure. *)
Definition step (c : Coordinator) (s : Step) (id : bytes) : bool * Coordinator * list wact :=
  match hook E s id with
  | HookContinue => (true, c, [])
  | HookFail => let '(c', a) := abortFatal c id (ckpt_error id (bs "injected failure after ") (step_name s)) in (false, c', a)
  | HookHalt => (false, halt c, [])
  end.

(** [OnBarrierInjected] *)
Definition OnBarrierInjected (c : Coordinator) (id : bytes) (offsets : option bytes) : Coordinator * list wact :=
  let p := ensure c id in
  let c := set_pending c id (mkPending offsets (p_state p) (p_stateDirs p) (p_prepared p) (p_sinkErr p)) in
  let '(_, c', a) := step c StepBarrierInjected id in (c', a).

(** [OnStateSnapshot] *)
Definition OnStateSnapshot (c : Coordinator) (id : bytes) (state dirs : gmap bytes bytes) : Coordinator * list wact :=
  let p := ensure c id in
  let c := set_pending c id (mkPending (p_offsets p) state dirs (p_prepared p) (p_sinkErr p)) in
  let '(_, c', a) := step c StepStateSnapshotted id in (c', a).

(** [OnSinkPrepared]: queue the finalization unless the coordinator stopped. *)
Definition OnSinkPrepared (c : Coordinator) (id : bytes) (sinkErr : option bytes) : Coordinator * list wact :=
  let p := ensure c id in
  let c := set_pending c id (mkPending (p_offsets p) (p_state p) (p_stateDirs p) true sinkErr) in
  let '(go, c', a) := step c StepSinkPrepared id in
  if go then (if halted c' then (c', a) else (enqueue c' id, a)) else (c', a).

(** [Stop] *)
Definition Stop (c : Coordinator) : Coordinator := halt c.

(** The record persisted at the start of [finalize]. *)
Definition prepared_data (id : bytes) (p : pendingCheckpoint) (now : time) : CheckpointData :=
  mkCheckpoint id now (p_state p)
    (match p_offsets p with Some o => {[bs "offset" := o]} | None => ∅ end)
    StatusPrepared (txnID E) (p_stateDirs p).

(** The tail of [finalize], from [StepPersistCompleted] on. *)
Definition finalize_offsets (c : Coordinator) (id : bytes) (p : pendingCheckpoint) : Coordinator * list wact :=
  let '(go, c, a) := step c StepPersistCompleted id in
  if negb go then (c, a)
  else
    let offs := match p_offsets p with
                | Some o => if hasCommitOffsets E then [WOffsets o] else []
                | None => []
                end in
    let '(_, c, a') := step c StepOffsetsCommitted id in (c, a ++ offs ++ a').

(** From the sink commit on; [d] is the directory at that point. *)
Definition finalize_commit (c : Coordinator) (d : disk) (id : bytes) (p : pendingCheckpoint)
    : Coordinator * list wact :=
  match commitSink E id with
  | NotCommitted e => (reportFatal c (ckpt_error id (bs "sink commit: ") e), [])
  | CommittedError e => (reportFatal c (ckpt_error id (bs "sink commit: ") e), [WCommit id])
  | Committed =>
      let '(go, c, a) := step c StepSinkCommitted id in
      if negb go then (c, WCommit id :: a)
      else
        match UpdateStatus (retain E) d id StatusCompleted with
        | Ok acts =>
            let '(c, a') := finalize_offsets c id p in
            (c, WCommit id :: a ++ (WDisk <$> acts) ++ (if hasOnCompleted E then [WCompleted id] else []) ++ a')
        | Err e | Panic e => (reportFatal c (ckpt_error id (bs "persist completed: ") e), WCommit id :: a)
        end
  end.

(** [finalize] *)
Definition finalize (c : Coordinator) (d : disk) (id : bytes) (now : time) : Coordinator * list wact :=
  if halted c then (c, [])
  else
    match pending c !! id with
    | None => (drop_pending c id, [])
    | Some p =>
        let c := drop_pending c id in
        match p_sinkErr p with
        | Some e => abortFatal c id (ckpt_error id (bs "sink prepare failed: ") e)
        | None =>
            match save (retain E) d (prepared_data id p now) with
            | Err e | Panic e => abortFatal c id (ckpt_error id (bs "persist prepared: ") e)
            | Ok acts =>
                let '(go, c, a) := step c StepPersistPrepared id in
                if negb go then (c, (WDisk <$> acts) ++ a)
                else
                  let '(c, a') := finalize_commit c (exec d acts) id p in
                  (c, (WDisk <$> acts) ++ a ++ a')
            end
        end
    end.
End coordinator.

(** ** Recovery *)

(** [resolveCoordinatedRecovery]: what to restore, and the actions taken.
    [wasCommitted] is the sink's marker probe, which may fail. *)
Definition resolveCoordinatedRecovery (retain : Z) (wasCommitted : bytes → option bool) (d : disk)
    : result (option CheckpointData * list wact) :=
  let '(latest, a) := Load d in
  let d1 := exec d a in
  match latest with
  | None => Ok (None, WDisk <$> a)
  | Some x =>
      if Completed x then Ok (Some x, WDisk <$> a)
      else
        match wasCommitted (ID x) with
        | None => Err (bs "cannot resolve prepared checkpoint")
        | Some true =>
            acts <-? UpdateStatus retain d1 (ID x) StatusCompleted ;;
            Ok (Some (setStatus x StatusCompleted), WDisk <$> a ++ acts)
        | Some false =>
            let '(r, a2) := LoadLatestCompleted d1 in
            Ok (r, (WDisk <$> a) ++ [WAbort (ID x)] ++ (WDisk <$> a2))
        end
  end.

(** A restarted process: the storage is opened ([NewFileStorageWithOptions]
    runs [maintainLocked]), then recovery decides. *)
Definition restart (retain : Z) (wasCommitted : bytes → option bool) (d : disk)
    : result (option CheckpointData * list wact) :=
  let m := maintain retain d in
  r <-? resolveCoordinatedRecovery retain wasCommitted (exec d m) ;;
  Ok (r.1, (WDisk <$> m) ++ r.2).
