(* ===== verification/ExactlyOnce.v ===== *)
(** * Recovery after a crash restores what the sink committed

    [inv w c]: in world [w], [c] is the checkpoint of the last committed
    transaction ([None] when nothing committed), its record and native state
    are on disk, and the pointers lead recovery to it.  [clean] adds that
    [latest-completed.json] points to it, which holds between checkpoints.

    From a clean world, a crash at any point of [finalize] leaves a world that
    satisfies [inv], so recovery restores exactly the committed output.  If the
    crash falls between the completed record and its pointer, the world that
    recovery leaves behind is not clean, and a second crash can make recovery
    go back too far ([stale_pointer_replays]). *)

From S2P Require Import Prelude Decimal Storage Coordinator.
From Stdlib Require Import Strings.Byte.

(** ** The invariant *)

Definition good (d : disk) : Prop := named d ∧ ∀ id, files d !! id ≠ Some None.

Definition promote (x : CheckpointData) : CheckpointData := setStatus x StatusCompleted.
Definition demote (x : CheckpointData) : CheckpointData := setStatus x StatusPrepared.

Lemma promote_demote x : CStatus x = StatusCompleted → setStatus (demote x) StatusCompleted = x.
Proof. destruct x. simpl. by intros ->. Qed.

(** Nothing committed yet. *)
Record inv_none (d : disk) (C : gset bytes) : Prop := {
  in_good : good d;
  in_committed : C = ∅;
  in_prepared : ∀ id x, files d !! id = Some (Some x) → CStatus x = StatusPrepared;
  in_latest : ∀ l, latest d = Some l → is_Some (files d !! l);
  in_pointer : latestCompleted d = None
}.

(** [c] is the last committed checkpoint; its record may still say
    prepared, but then [latest.json] points to it. *)
Record inv_some (d : disk) (C : gset bytes) (c : CheckpointData) : Prop := {
  is_good : good d;
  is_committed : ID c ∈ C;
  is_status : CStatus c = StatusCompleted;
  is_file : files d !! ID c = Some (Some c)
            ∨ (files d !! ID c = Some (Some (demote c)) ∧ latest d = Some (ID c));
  is_latest : ∃ l x, latest d = Some l ∧ files d !! l = Some (Some x)
    ∧ (l = ID c ∨ (CStatus x = StatusPrepared ∧ l ∉ C ∧ latestCompleted d = Some (ID c)
                   ∧ files d !! ID c = Some (Some c)));
  is_newest : ∀ id x, files d !! id = Some (Some x) → id ≠ ID c → Completed x = true →
    Timestamp x < Timestamp c;
  is_state : has_state d c
}.

Definition inv (w : world) (c : option CheckpointData) : Prop :=
  match c with None => inv_none w.1 w.2 | Some c => inv_some w.1 w.2 c end.

Definition clean (w : world) (c : option CheckpointData) : Prop :=
  inv w c
  ∧ match c with
    | None => True
    | Some c => latestCompleted w.1 = Some (ID c) ∧ files w.1 !! ID c = Some (Some c)
    end.

(** ** Reading a world that satisfies the invariant *)

Lemma loadSpecific_file d id x : files d !! id = Some (Some x) → loadSpecific d id = Ok (Some x).
Proof. intros E. unfold loadSpecific. by rewrite E. Qed.

Lemma Completed_prepared x : CStatus x = StatusPrepared → Completed x = false.
Proof. unfold Completed. by intros ->. Qed.

(** Without completed files and pointer there is nothing to go back to. *)
Lemma LoadLatestCompleted_none d : named d → latestCompleted d = None →
  (∀ id x, files d !! id = Some (Some x) → CStatus x = StatusPrepared) →
  LoadLatestCompleted d = (None, []).
Proof.
  intros Hn Hp Hall. unfold LoadLatestCompleted, loadPointer. rewrite Hp.
  replace (filter _ (scan d)) with (@nil CheckpointData); [done|]. symmetry.
  apply filter_none. rewrite Forall_forall. intros x Hx%elem_of_scan; [|done].
  apply Hall, Completed_prepared in Hx. by rewrite Hx.
Qed.

(** ** Single actions *)

Lemma good_write d x : good d → ID x ≠ [] → good (apply_act d (AWrite x)).
Proof.
  intros [Hn Hg] Hx. split; simpl.
  - intros id y. simpl. rewrite lookup_insert. case_decide; [intros [= <-]; subst; done|apply Hn].
  - intros id. rewrite lookup_insert. case_decide; [done|apply Hg].
Qed.

Lemma good_remove d v : good d → good (apply_act d (ARemoveFile v)).
Proof.
  intros [Hn Hg]. split; simpl.
  - intros id y. simpl. rewrite lookup_delete. case_decide; [done|apply Hn].
  - intros id. rewrite lookup_delete. case_decide; [done|apply Hg].
Qed.

(** A file that retention may remove in state [(d, c)]. *)
Definition removable (d : disk) (c : option CheckpointData) (v : bytes) : Prop :=
  (match c with Some c => v ≠ ID c | None => True end)
  ∧ ∀ x, files d !! v = Some (Some x) → Completed x = true.

Lemma inv_remove_file d C c v : inv (d, C) c → removable d c v → inv (apply_act d (ARemoveFile v), C) c.
Proof.
  intros Hi [Hv Hx]. destruct c as [c|]; simpl in *.
  - destruct Hi as [Hg HC Hst Hf (l & x & El & Ex & Hlx) Hnew Hstate].
    assert (v ≠ l) as Hvl.
    { intros ->. destruct Hlx as [->|(Hp & _)]; [done|]. apply Hx in Ex. by rewrite Completed_prepared in Ex. }
    split; simpl; try done.
    + by apply good_remove.
    + by rewrite lookup_delete_ne.
    + exists l, x. rewrite !lookup_delete_ne by done. done.
    + intros id y. rewrite lookup_delete. case_decide; [done|apply Hnew].
  - destruct Hi as [Hg HC Hp Hl Hptr].
    assert (files d !! v = None) as Hvn.
    { destruct (files d !! v) as [[x|]|] eqn:E; [|by apply Hg in E|done].
      specialize (Hx x eq_refl). apply Hp in E. by rewrite Completed_prepared in Hx. }
    split; simpl; try done.
    + by apply good_remove.
    + intros id x. rewrite lookup_delete. case_decide; [done|apply Hp].
    + intros l El. destruct (Hl l El) as [y Ey]. exists y. rewrite lookup_delete_ne; [done|]. by intros ->; congruence.
Qed.

Lemma inv_remove_state d C c v : inv (d, C) c → (match c with Some c => v ≠ ID c | None => True end) →
  inv (apply_act d (ARemoveState v), C) c.
Proof.
  intros Hi Hv. destruct c as [c|]; simpl in *.
  - destruct Hi as [Hg HC Hst Hf Hl Hnew Hstate]. split; simpl; try done.
    unfold has_state in *. simpl. by rewrite lookup_delete_ne.
  - destruct Hi. by split.
Qed.

Lemma removable_remove d c v u : removable d c v → removable (apply_act d (ARemoveFile u)) c v.
Proof.
  intros [Hv Hx]. split; [done|]. intros x. simpl. rewrite lookup_delete. case_decide; [done|apply Hx].
Qed.

(** The world along a list of actions. *)
Definition along (P : world → Prop) (w : world) (acts : list wact) : Prop :=
  ∀ pre, pre `prefix_of` acts → P (wexec w pre).

Lemma along_nil P w : along P w [] ↔ P w.
Proof. unfold along. split; [intros H; by apply (H [])|]. intros H pre ->%prefix_nil_inv. done. Qed.

Lemma along_cons P w a acts : along P w (a :: acts) ↔ P w ∧ along P (apply_wact w a) acts.
Proof.
  unfold along. split.
  - intros H. split; [apply (H []), prefix_nil|]. intros pre Hp. apply (H (a :: pre)). by apply prefix_cons.
  - intros [H1 H2] [|b pre] Hp; [done|]. pose proof (prefix_cons_inv_1 _ _ _ _ Hp) as ->.
    apply prefix_cons_inv_2 in Hp. by apply H2.
Qed.

Lemma along_app P w acts acts' : along P w (acts ++ acts') ↔ along P w acts ∧ along P (wexec w acts) acts'.
Proof.
  revert w. induction acts as [|a acts IH]; intros w; cbn [app].
  - rewrite along_nil. split; [|by intros [_ ?]]. intros H. split; [|done]. apply (H []), prefix_nil.
  - rewrite !along_cons, IH. simpl. tauto.
Qed.

Lemma along_end P w acts : along P w acts → P (wexec w acts).
Proof. intros H. by apply H. Qed.

Lemma wexec_app w acts acts' : wexec w (acts ++ acts') = wexec (wexec w acts) acts'.
Proof. unfold wexec. apply foldl_app. Qed.

Lemma wexec_disk d C acts : wexec (d, C) (WDisk <$> acts) = (exec d acts, C).
Proof. revert d. induction acts as [|a acts IH]; intros d; [done|]. simpl. apply IH. Qed.

(** Actions that leave the world alone. *)
Definition silent (a : wact) : Prop := match a with WAbort _ | WCompleted _ | WOffsets _ => True | _ => False end.

Lemma wexec_silent w acts : Forall silent acts → wexec w acts = w.
Proof.
  revert w. induction acts as [|a acts IH]; intros w Ha; [done|]. apply Forall_cons in Ha as [H1 H2].
  destruct a; try done; by apply IH.
Qed.

Lemma along_silent (P : world → Prop) w acts : Forall silent acts → P w → along P w acts.
Proof. intros Ha Hw pre [k ->]. apply Forall_app in Ha as [Ha _]. by rewrite wexec_silent. Qed.

(** Retention, at every point of its loop. *)
Lemma along_removals d C c vs : inv (d, C) c → Forall (λ v, removable d c (ID v)) vs →
  along (λ w, inv w c) (d, C) (WDisk <$> flat_map (λ v, [ARemoveFile (ID v); ARemoveState (ID v)]) vs).
Proof.
  revert d. induction vs as [|v vs IH]; intros d Hi Hvs; [by apply along_nil|].
  apply Forall_cons in Hvs as [Hv Hvs]. simpl. rewrite !along_cons. simpl.
  pose proof (inv_remove_file d C c (ID v) Hi Hv) as H1.
  assert (match c with Some c => ID v ≠ ID c | None => True end) as Hne by (by destruct Hv).
  pose proof (inv_remove_state _ C c (ID v) H1 Hne) as H2. split_and!; [done|done|].
  apply IH; [done|]. eapply Forall_impl; [exact Hvs|]. intros u Hu.
  by apply (removable_remove _ _ _ (ID v)) in Hu.
Qed.

Lemma along_retention retain d C c : 1 ≤ retain → inv (d, C) c →
  (match c with Some c => files d !! ID c = Some (Some c) ∨ files d !! ID c = Some (Some (demote c)) | None => True end) →
  along (λ w, inv w c) (d, C) (WDisk <$> enforceRetention retain d).
Proof.
  intros Hr Hi Hc. unfold enforceRetention. destruct (Z.ltb_spec retain 1); [lia|].
  apply along_removals; [done|]. rewrite Forall_forall. intros v Hv.
  assert (named d) as Hn by (destruct c; [by destruct Hi as [[? _] _]|by destruct Hi as [[? _] _]]).
  pose proof (victims_completed retain d v Hv) as [Hs%elem_of_scan Hcv]; [|done].
  split; [|intros x Hx; by simplify_eq]. destruct c as [c|]; [|done]. intros Heq.
  assert (v = c) as ->.
  { rewrite Heq in Hs. destruct Hc as [Hc|Hc]; rewrite Hc in Hs; [congruence|].
    injection Hs as <-. by rewrite Completed_prepared in Hcv. }
  revert Hv. apply victims_not_newest; [done|done|]. intros y Hy%elem_of_scan Hcy Hne; [|done].
  destruct Hi as [_ _ _ _ _ Hnew _]. apply (Hnew (ID y)); [done| |done]. intros E. rewrite E in Hy. congruence.
Qed.

(** What removals leave alone. *)
Lemma exec_removals d vs :
  let d' := exec d (flat_map (λ v, [ARemoveFile (ID v); ARemoveState (ID v)]) vs) in
  latest d' = latest d ∧ latestCompleted d' = latestCompleted d
  ∧ (∀ k, k ∉ ID <$> vs → files d' !! k = files d !! k ∧ stateDirs d' !! k = stateDirs d !! k)
  ∧ (∀ k x, files d' !! k = Some x → files d !! k = Some x).
Proof.
  cbn zeta. destruct (exec_removals_lookup d vs []) as (_ & _ & -> & ->). split_and!; [done|done| |].
  - intros k Hk. destruct (exec_removals_lookup d vs k) as (-> & -> & _). by rewrite !decide_False.
  - intros k x. destruct (exec_removals_lookup d vs k) as [-> _]. by case_decide.
Qed.

(** ** Promotion: from prepared on disk to completed *)

Section promotion.
Context (rt : Z) (Hrt : 1 ≤ rt) (d : disk) (C : gset bytes) (x : CheckpointData).
Context (Hi : inv_some d C x) (Hdem : files d !! ID x = Some (Some (demote x))).

Let d4 := apply_act d (AWrite x).
Let d5 := apply_act d4 (APointer false (ID x)).
Let d6 := apply_act d5 (APointer true (ID x)).

Lemma promotion_latest : latest d = Some (ID x).
Proof.
  pose proof Hi as [_ _ Hst [H|[_ H]] _ _ _]; [|done]. rewrite H in Hdem. exfalso.
  injection Hdem as E. rewrite E in Hst. done.
Qed.

Lemma inv_completed_file : inv (d4, C) (Some x).
Proof.
  pose proof promotion_latest as Hl. pose proof Hi as [Hg HC Hst Hfi _ Hnew Hstate].
  pose proof Hg as [Hn _]. destruct (Hn _ _ Hdem) as [_ Hne]. split; cbn [fst snd]; try done.
  - by apply good_write.
  - left. simpl. by rewrite lookup_insert_eq.
  - exists (ID x), x. simpl. rewrite lookup_insert_eq. split_and!; [done|done|by left].
  - intros id y. simpl. rewrite lookup_insert. case_decide; [congruence|apply Hnew].
Qed.

Lemma inv_completed_pointer : inv (d5, C) (Some x) ∧ clean (d6, C) (Some x).
Proof.
  pose proof inv_completed_file as [Hg HC Hst Hfi _ Hnew Hstate]. simpl in *.
  assert (files d5 !! ID x = Some (Some x)) as Hp by (simpl; by rewrite lookup_insert_eq).
  split; [|split; [|done]]; split; simpl in *; try done; try (by left).
  - exists (ID x), x. split_and!; [done|done|by left].
  - exists (ID x), x. split_and!; [done|done|by left].
Qed.

Lemma along_complete : along (λ w, inv w (Some x)) (d, C)
  (WDisk <$> [AWrite x; APointer false (ID x); APointer true (ID x)] ++ enforceRetention rt d6).
Proof.
  rewrite fmap_app. cbn [fmap list_fmap app]. rewrite !along_cons. simpl.
  pose proof inv_completed_pointer as [H5 [H6 Hcl]].
  split_and!; [exact Hi|apply inv_completed_file|exact H5|].
  apply (along_retention rt d6 _ (Some x)); [done|exact H6|]. simpl. left. by rewrite lookup_insert_eq.
Qed.

(** A completed checkpoint leaves a clean world. *)
Lemma clean_complete : clean (exec d6 (enforceRetention rt d6), C) (Some x).
Proof.
  pose proof (along_end _ _ _ along_complete) as He. rewrite wexec_disk in He.
  unfold exec in He. rewrite foldl_app in He. split; [exact He|]. clear He.
  unfold enforceRetention. destruct (Z.ltb_spec rt 1); [lia|].
  destruct (exec_removals d6 (victims rt d6)) as (_ & H2 & H3 & _). cbn [fst]. rewrite H2. split; [done|].
  pose proof inv_completed_pointer as [_ [[[Hn Hg] _ _ _ _ Hnew _] _]]. simpl in Hn, Hnew.
  assert (files d6 !! ID x = Some (Some x)) as Hp by (simpl; by rewrite lookup_insert_eq).
  destruct (H3 (ID x)) as [-> _]; [|done].
  rewrite list_elem_of_fmap. intros (v & E & Hv). pose proof (victims_completed _ _ _ Hv) as [Hs%elem_of_scan _]; [|done].
  rewrite <- E, Hp in Hs. injection Hs as <-. revert Hv. apply victims_not_newest; [done|done|].
  intros y Hy%elem_of_scan Hcy Hne; [|done]. apply (Hnew (ID y)); [done| |done].
  intros Ey. simpl in Ey. rewrite Ey, Hp in Hy. congruence.
Qed.

Lemma update_completed : UpdateStatus rt d (ID x) StatusCompleted
  = Ok ([AWrite x; APointer false (ID x); APointer true (ID x)] ++ enforceRetention rt d6).
Proof.
  pose proof Hi as [_ _ Hst _ _ _ Hstate]. unfold UpdateStatus. rewrite (loadSpecific_file _ _ _ Hdem).
  cbn [rbind]. rewrite (promote_demote x Hst).
  unfold save. rewrite (decide_False (P := CStatus x = StatusNone)) by (by rewrite Hst).
  rewrite (decide_True (P := has_state d x)) by exact Hstate.
  by rewrite (decide_True (P := CStatus x = StatusCompleted)).
Qed.
End promotion.

(** ** Recovery *)

(** The sink's marker probe answers exactly for what it committed. *)
Definition probes (wasCommitted : bytes → option bool) (C : gset bytes) : Prop :=
  ∀ id, wasCommitted id = Some (bool_decide (id ∈ C)).

(** The completed record of [c] has its pointer. *)
Definition settled (w : world) (c : option CheckpointData) : Prop :=
  match c with
  | None => True
  | Some c => files w.1 !! ID c = Some (Some c) → latestCompleted w.1 = Some (ID c)
  end.

Lemma recover_none rt wc d C : probes wc C → inv_none d C →
  ∃ acts, resolveCoordinatedRecovery rt wc d = Ok (None, acts) ∧ along (λ w, inv w None) (d, C) acts.
Proof.
  intros Hpr Hi. pose proof Hi as [[Hn Hg] HC Hp Hl Hptr].
  assert (Hx : ∀ x a, files d !! ID x = Some (Some x) → (a = [] ∨ a = [APointer false (ID x)]) → Load d = (Some x, a) →
    ∃ acts, resolveCoordinatedRecovery rt wc d = Ok (None, acts) ∧ along (λ w, inv w None) (d, C) acts).
  { intros x a Hid Ha E. unfold resolveCoordinatedRecovery. rewrite E.
    rewrite (Completed_prepared x) by (by eapply Hp). rewrite Hpr, HC.
    rewrite bool_decide_eq_false_2 by set_solver.
    rewrite LoadLatestCompleted_none; [|by destruct Ha as [->| ->]..]. eexists. split; [done|].
    assert (inv_none (apply_act d (APointer false (ID x))) C) as Hi'.
    { split; simpl; try done. intros l [= <-]. by rewrite Hid. }
    rewrite HC in Hi, Hi'. destruct Ha as [->| ->]; cbn [fmap list_fmap app]; rewrite !along_cons, along_nil; done. }
  destruct (latest d) as [l|] eqn:El.
  - destruct (Hl l eq_refl) as [[x|] Ex]; [|by apply Hg in Ex]. destruct (Hn _ _ Ex) as [E1 _].
    apply (Hx x []); [by rewrite E1|by left|].
    unfold Load, loadPointer. by rewrite El, (loadSpecific_file d l x).
  - destruct (Load d) as [[x|] a] eqn:E.
    + unfold Load, loadPointer in E. rewrite El in E. destruct (last _) as [y|] eqn:Ey; simplify_eq.
      apply (Hx x [APointer false (ID x)]); [|by right|done].
      apply last_Some in Ey as [l' Ey]. apply elem_of_scan; [done|].
      assert (x ∈ filter (λ x, negb false || Completed x = true) (scan d)) as Hin by (rewrite Ey; set_solver).
      by apply list_elem_of_filter in Hin as [_ ?].
    + unfold resolveCoordinatedRecovery. rewrite E. eexists. split; [done|].
      unfold Load, loadPointer in E. rewrite El in E. destruct (last _); simplify_eq. by apply along_nil.
Qed.

Lemma recover_some rt wc d C c : 1 ≤ rt → probes wc C → inv_some d C c →
  ∃ acts, resolveCoordinatedRecovery rt wc d = Ok (Some c, acts) ∧ along (λ w, inv w (Some c)) (d, C) acts
    ∧ (settled (d, C) (Some c) → clean (wexec (d, C) acts) (Some c)).
Proof.
  intros Hrt Hpr Hi. pose proof Hi as [[Hn Hg] HC Hst Hf (l & x & El & Ex & Hlx) Hnew Hstate].
  assert (Load d = (Some x, [])) as EL.
  { unfold Load, loadPointer. by rewrite El, (loadSpecific_file d l x). }
  unfold resolveCoordinatedRecovery. rewrite EL. cbn [exec foldl]. rewrite Hpr.
  assert (ID x = l) as HID by (by apply Hn in Ex as [? _]). rewrite HID.
  destruct Hlx as [->|(Hpx & HlC & Hptr & Hfc)].
  - assert (x = c ∨ x = demote c) as [->| ->] by (destruct Hf as [Hf|[Hf _]]; rewrite Hf in Ex; naive_solver).
    + unfold Completed. rewrite Hst. eexists. split; [done|]. split; [by apply along_nil|].
      intros Hs. split; [exact Hi|]. simpl. auto.
    + rewrite (Completed_prepared (demote c)) by done. rewrite bool_decide_eq_true_2 by done.
      rewrite (update_completed rt d C c Hi Ex). cbn [rbind]. rewrite (promote_demote c Hst).
      eexists. split; [done|]. rewrite app_nil_l. split; [exact (along_complete rt Hrt d C c Hi Ex)|].
      intros _. rewrite wexec_disk. unfold exec. rewrite foldl_app. exact (clean_complete rt Hrt d C c Hi Ex).
  - rewrite (Completed_prepared x) by done. rewrite bool_decide_eq_false_2 by done.
    assert (LoadLatestCompleted d = (Some c, [])) as ->.
    { unfold LoadLatestCompleted, loadPointer. rewrite Hptr, (loadSpecific_file _ _ _ Hfc).
      unfold Completed. by rewrite Hst. }
    eexists. split; [done|]. split; [by apply along_silent; [repeat constructor|]|]. intros _. split; [exact Hi|done].
Qed.

Lemma recover_inv rt wc w c : 1 ≤ rt → probes wc w.2 → inv w c →
  ∃ acts, resolveCoordinatedRecovery rt wc w.1 = Ok (c, acts) ∧ along (λ w, inv w c) w acts
    ∧ (settled w c → clean (wexec w acts) c).
Proof.
  intros Hrt Hp Hi. destruct w as [d C], c as [c|]; [by apply recover_some|].
  destruct (recover_none rt wc d C Hp Hi) as (acts & E & H). exists acts. split; [done|]. split; [done|].
  intros _. split; [|done]. exact (along_end _ _ _ H).
Qed.

(** ** Opening the storage *)

Section opening.
Context (rt : Z) (Hrt : 1 ≤ rt) (C : gset bytes) (c : option CheckpointData).

(** The record of [c] on disk, whatever its status says. *)
Definition has_record (d : disk) : Prop :=
  match c with
  | Some c => files d !! ID c = Some (Some c) ∨ files d !! ID c = Some (Some (demote c))
  | None => True
  end.

Lemma inv_record d : inv (d, C) c → has_record d.
Proof. unfold has_record. destruct c as [x|]; [|done]. intros [_ _ _ [H|[H _]] _ _ _]; auto. Qed.

Lemma along_sweep d ids : inv (d, C) c → Forall (λ id, files d !! id = None) ids →
  along (λ w, inv w c ∧ w.2 = C ∧ files w.1 = files d ∧ latest w.1 = latest d ∧ latestCompleted w.1 = latestCompleted d)
    (d, C) (WDisk <$> (ARemoveState <$> ids)).
Proof.
  intros Hi. remember d as d0 eqn:Ed in |- * at 1 2 3 4.
  assert (files d = files d0 ∧ latest d = latest d0 ∧ latestCompleted d = latestCompleted d0) as Hd by (by subst).
  clear Ed. revert d Hi Hd. induction ids as [|id ids IH]; intros d Hi Hd Hids.
  - apply along_nil. destruct Hd as (?&?&?). done.
  - apply Forall_cons in Hids as [H1 H2]. cbn [fmap list_fmap]. apply along_cons. split; [by destruct Hd as (?&?&?)|].
    apply IH; [|done|done]. apply inv_remove_state; [done|]. apply inv_record in Hi. unfold has_record in Hi.
    destruct Hd as [Hd _]. rewrite Hd in Hi. destruct c as [x|]; [|done]. intros ->.
    destruct Hi as [Hi|Hi]; rewrite Hi in H1; done.
Qed.

(** Loading a pointer moves at most that pointer. *)
Lemma loadPointer_acts d b : (loadPointer d b).2 = []
  ∨ ∃ x, x ∈ scan d ∧ (loadPointer d b).2 = [APointer b (ID x)].
Proof.
  unfold loadPointer. set (F := match last _ with Some _ => _ | None => _ end).
  assert (F.2 = [] ∨ ∃ x, x ∈ scan d ∧ F.2 = [APointer b (ID x)]) as HF.
  { unfold F. destruct (last _) as [x|] eqn:E; [right|by left]. exists x. split; [|done].
    apply last_Some in E as [l E]. assert (x ∈ l ++ [x]) as Hin by set_solver. rewrite <- E in Hin.
    by apply list_elem_of_filter in Hin as [_ ?]. }
  destruct (if b then _ else _) as [id|]; [|done].
  destruct (loadSpecific d id) as [[data|]| |]; try done. destruct (_ || _); [by left|done].
Qed.

Lemma inv_repair_latest d : inv (d, C) c →
  let d' := exec d (loadPointer d false).2 in
  inv (d', C) c ∧ files d' = files d ∧ latestCompleted d' = latestCompleted d.
Proof.
  intros Hi. destruct (loadPointer_acts d false) as [E|(x & Hx & E)]; cbn zeta; rewrite E; [done|].
  split; [|done]. destruct c as [y|].
  - exfalso. destruct Hi as [_ _ _ _ (l & z & El & Ez & _) _ _]. unfold loadPointer in E.
    simpl in El, Ez. rewrite El, (loadSpecific_file _ _ _ Ez) in E. done.
  - destruct Hi as [Hg HC Hp Hl Hptr]. split; simpl in *; try done. intros l [= <-].
    apply elem_of_scan in Hx; [|apply Hg]. by rewrite Hx.
Qed.

Lemma inv_repair_completed d : inv (d, C) c →
  let d' := exec d (loadPointer d true).2 in
  inv (d', C) c ∧ files d' = files d ∧ (settled (d, C) c → settled (d', C) c).
Proof.
  intros Hi. destruct (loadPointer_acts d true) as [E|(x & Hx & E)]; cbn zeta; rewrite E; [done|].
  destruct c as [y|].
  - assert (latestCompleted d = Some (ID y) → files d !! ID y = Some (Some y) → False) as Hno.
    { intros Hp Hy. unfold loadPointer in E. rewrite Hp, (loadSpecific_file _ _ _ Hy) in E.
      destruct Hi as [_ _ Hst _ _ _ _]. unfold Completed in E. by rewrite Hst in E. }
    destruct Hi as [Hg HC Hst Hf (l & z & El & Ez & Hlz) Hnew Hs]. simpl in *. split_and!; [|done|].
    + split; simpl; try done. exists l, z. split_and!; [done|done|]. left.
      destruct Hlz as [?|(_ & _ & Hp & Hy)]; [done|]. by destruct Hno.
    + intros Hse Hy. by destruct (Hno (Hse Hy) Hy).
  - exfalso. destruct Hi as [[Hn _] _ Hp _ Hptr]. simpl in *.
    pose proof (LoadLatestCompleted_none d Hn Hptr Hp) as H. unfold LoadLatestCompleted in H. by rewrite H in E.
Qed.

Lemma along_repair d b : inv (d, C) c → inv (exec d (loadPointer d b).2, C) c →
  along (λ w, inv w c) (d, C) (WDisk <$> (loadPointer d b).2).
Proof.
  intros H1 H2. destruct (loadPointer_acts d b) as [E|(x & _ & E)]; rewrite E in *; cbn [fmap list_fmap].
  - by apply along_nil.
  - by rewrite along_cons, along_nil.
Qed.

Lemma has_record_retention d : inv (d, C) c → settled (d, C) c →
  settled (exec d (enforceRetention rt d), C) c.
Proof.
  intros Hi Hs. unfold enforceRetention. destruct (Z.ltb_spec rt 1); [done|]. destruct c as [x|]; [|done].
  destruct (exec_removals d (victims rt d)) as (_ & H2 & _ & H4). unfold settled in *. cbn [fst] in *.
  rewrite H2. intros Hx. by apply Hs, H4.
Qed.

(** Opening the storage keeps the invariant, at every point. *)
Lemma along_maintain d : inv (d, C) c →
  along (λ w, inv w c) (d, C) (WDisk <$> maintain rt d)
  ∧ (settled (d, C) c → settled (exec d (maintain rt d), C) c).
Proof.
  intros Hi. unfold maintain. cbn zeta.
  set (a1 := sweepOrphans d). set (d1 := exec d a1). set (d2 := exec d1 (loadPointer d1 false).2).
  set (d3 := exec d2 (loadPointer d2 true).2).
  assert (Forall (λ id, files d !! id = None) (filter (λ id, files d !! id = None) (map_to_list (stateDirs d)).*1)) as Hor
    by (rewrite Forall_forall; by intros ? [? _]%list_elem_of_filter).
  pose proof (along_sweep d _ Hi Hor) as Hsw. fold (sweepOrphans d) a1 in Hsw.
  pose proof (along_end _ _ _ Hsw) as (Hi1 & _ & Hf1 & _ & Hp1). rewrite wexec_disk in Hi1, Hf1, Hp1. fold d1 in Hi1, Hf1, Hp1.
  pose proof (inv_repair_latest d1 Hi1) as (Hi2 & Hf2 & Hp2). fold d2 in Hi2, Hf2, Hp2.
  pose proof (inv_repair_completed d2 Hi2) as (Hi3 & Hf3 & Hs3). fold d3 in Hi3, Hf3, Hs3. split.
  - rewrite !fmap_app, !along_app, !wexec_disk. fold d1 d2 d3. split_and!.
    + intros pre Hpre. by apply Hsw.
    + by apply along_repair.
    + by apply along_repair.
    + apply along_retention; [done|done|]. by apply inv_record in Hi3.
  - intros Hs. unfold exec. rewrite !foldl_app. change (settled (exec d3 (enforceRetention rt d3), C) c).
    apply has_record_retention; [done|]. apply Hs3. unfold settled in *. destruct c as [x|]; [|done].
    cbn [fst] in *. by rewrite Hf2, Hf1, Hp2, Hp1.
Qed.

(** A restart finds [c], at any point keeps the invariant, and settles. *)
Lemma restart_inv wc w : w.2 = C → probes wc C → inv w c →
  ∃ acts, restart rt wc w.1 = Ok (c, acts) ∧ along (λ w, inv w c) w acts
    ∧ (settled w c → clean (wexec w acts) c).
Proof.
  destruct w as [d C']. cbn [snd]. intros -> Hp Hi. destruct (along_maintain d Hi) as [Hm Hs].
  pose proof (along_end _ _ _ Hm) as Hi'. rewrite wexec_disk in Hi'.
  destruct (recover_inv rt wc (exec d (maintain rt d), C) c Hrt Hp Hi') as (acts & E & Ha & Hc).
  exists ((WDisk <$> maintain rt d) ++ acts). unfold restart. cbn [fst] in *. rewrite E. cbn [rbind fst snd].
  split; [done|]. rewrite along_app, wexec_app, wexec_disk. auto.
Qed.
End opening.

(** ** A new checkpoint *)

Section new_checkpoint.
Context (rt : Z) (Hrt : 1 ≤ rt) (d : disk) (C : gset bytes) (c : option CheckpointData).
Context (p : CheckpointData).

(** A fresh identifier and a clock ahead of every stored checkpoint. *)
Record fresh : Prop := {
  fr_id : ID p ≠ [];
  fr_status : CStatus p = StatusPrepared;
  fr_committed : ID p ∉ C;
  fr_file : files d !! ID p = None;
  fr_newer : ∀ id x, files d !! id = Some (Some x) → Timestamp x < Timestamp p;
  fr_state : has_state d p
}.

Context (Hc : clean (d, C) c) (Hf : fresh).

Lemma fresh_ne x : c = Some x → ID x ≠ ID p.
Proof. intros -> E. destruct Hc as [_ [_ Hx]]. simpl in Hx. rewrite E, (fr_file Hf) in Hx. done. Qed.

Lemma inv_write_prepared : clean (apply_act d (AWrite p), C) c.
Proof.
  destruct Hc as [Hi Hcl]. pose proof fresh_ne as Hne. destruct c as [x|]; simpl in *.
  - specialize (Hne x eq_refl). destruct Hcl as [Hptr Hx].
    destruct Hi as [Hg HC Hst Hfi (l & y & El & Ey & Hly) Hnew Hstate].
    assert (l ≠ ID p) as Hlp by (intros ->; rewrite (fr_file Hf) in Ey; done).
    split; [|simpl; by rewrite lookup_insert_ne by congruence]. split; simpl.
    + apply good_write; [done|apply Hf].
    + done.
    + done.
    + left. by rewrite lookup_insert_ne by congruence.
    + exists l, y. by rewrite !lookup_insert_ne by congruence.
    + intros id z. rewrite lookup_insert. case_decide as E; [|apply Hnew].
      intros [= <-] _ Hcz. by rewrite (Completed_prepared p (fr_status Hf)) in Hcz.
    + done.
  - destruct Hi as [Hg HC Hp Hl Hptr]. split; [|done]. split; simpl; try done.
    + apply good_write; [done|apply Hf].
    + intros id z. rewrite lookup_insert. case_decide; [intros [= <-]; apply Hf|apply Hp].
    + intros l El. rewrite lookup_insert. case_decide; [eauto|by apply Hl].
Qed.

Let d2 := apply_act (apply_act d (AWrite p)) (APointer false (ID p)).

Lemma inv_point_prepared : inv (d2, C) c.
Proof.
  pose proof inv_write_prepared as [Hi Hcl]. pose proof fresh_ne as Hne. unfold d2. destruct c as [x|]; simpl in *.
  - destruct Hcl as [Hptr Hx]. destruct Hi as [Hg HC Hst Hfi _ Hnew Hstate]. split; simpl in *; try done.
    + by left.
    + exists (ID p), p. rewrite lookup_insert_eq. split_and!; [done|done|]. right. split_and!; [apply Hf|apply Hf|done|done].
  - destruct Hi as [Hg HC Hp Hl Hptr]. split; simpl in *; try done.
    intros l [= <-]. rewrite lookup_insert_eq. eauto.
Qed.

Let d3 := exec d2 (enforceRetention rt d2).

(** After the prepared record is in place. *)
Lemma prepared_facts :
  files d3 !! ID p = Some (Some p) ∧ latest d3 = Some (ID p) ∧ has_state d3 p
  ∧ (∀ k x, files d3 !! k = Some x → k ≠ ID p → files d !! k = Some x).
Proof.
  unfold d3, enforceRetention. destruct (Z.ltb_spec rt 1); [lia|].
  destruct (exec_removals d2 (victims rt d2)) as (H1 & _ & H3 & H4).
  assert (named d2) as Hn by (pose proof inv_point_prepared as Hi; destruct c; by destruct Hi as [[? _] _]).
  assert (files d2 !! ID p = Some (Some p)) as Hp by (simpl; by rewrite lookup_insert_eq).
  assert (ID p ∉ ID <$> victims rt d2) as Hnv.
  { rewrite list_elem_of_fmap. intros (v & E & [Hv%elem_of_scan Hcv]%victims_completed); [|done].
    rewrite <- E, Hp in Hv. injection Hv as <-. by rewrite (Completed_prepared p (fr_status Hf)) in Hcv. }
  destruct (H3 _ Hnv) as [H5 H6]. split_and!.
  - by rewrite H5.
  - by rewrite H1.
  - unfold has_state. rewrite H6. apply Hf.
  - intros k x Hk Hne. apply H4 in Hk. simpl in Hk. by rewrite lookup_insert_ne in Hk by congruence.
Qed.

Lemma along_prepare : along (λ w, inv w c) (d, C)
  (WDisk <$> [AWrite p; APointer false (ID p)] ++ enforceRetention rt d2).
Proof.
  rewrite fmap_app. cbn [fmap list_fmap app]. rewrite !along_cons. simpl.
  split_and!; [apply Hc|apply inv_write_prepared|]. apply along_retention; [done|apply inv_point_prepared|].
  pose proof inv_point_prepared as Hi. destruct c as [x|]; [|done]. destruct Hi as [_ _ _ [H|[H _]] _ _ _]; auto.
Qed.

Lemma promote_p : demote (promote p) = p ∧ CStatus (promote p) = StatusCompleted ∧ ID (promote p) = ID p.
Proof. pose proof (fr_status Hf). split_and!; [by destruct p; simpl in *; subst|done|done]. Qed.

Lemma inv_commit : inv (d3, {[ID p]} ∪ C) (Some (promote p)).
Proof.
  destruct prepared_facts as (Hp & Hl & Hst & Hsub). destruct promote_p as (Hdp & Hs & HID).
  pose proof (along_end _ _ _ along_prepare) as Hi. rewrite wexec_disk in Hi.
  assert (good d3) as Hg by (destruct c; by destruct Hi).
  simpl. split; simpl; try done.
  - set_solver.
  - right. by rewrite Hdp.
  - exists (ID p), p. split_and!; [done|done|]. by left.
  - intros id x Hx Hne _. apply (fr_newer Hf id). by apply Hsub.
Qed.
End new_checkpoint.

(** ** The whole protocol *)

Section protocol.
Context (E : env) (Hrt : 1 ≤ retain E) (d : disk) (C : gset bytes) (c : option CheckpointData).
Context (id : bytes) (now : time) (p : pendingCheckpoint).

Let data := prepared_data E id p now.

Context (Hc : clean (d, C) c) (Hf : fresh d C data).
Context (Hhook : ∀ s, hook E s id ≠ HookFail).

(** What recovery owes a world: the new checkpoint once its transaction
    committed, the old one before. *)
Definition owed (w : world) : option CheckpointData :=
  if decide (id ∈ w.2) then Some (promote data) else c.

Lemma inv_owed_old w : w.2 = C → inv w c → inv w (owed w).
Proof. intros E2 Hi. unfold owed. rewrite decide_False; [done|]. rewrite E2. apply (fr_committed _ _ _ Hf). Qed.

Lemma inv_owed_new w : w.2 = {[id]} ∪ C → inv w (Some (promote data)) → inv w (owed w).
Proof. intros E2 Hi. unfold owed. rewrite decide_True; [done|]. rewrite E2. set_solver. Qed.

Lemma along_disk P x S acts : along P (x, S) (WDisk <$> acts) →
  along (λ w, P w ∧ w.2 = S) (x, S) (WDisk <$> acts).
Proof.
  intros H pre Hpre. split; [by apply H|]. destruct Hpre as [k Hk].
  apply fmap_app_inv in Hk as (l1 & l2 & -> & _ & _). by rewrite wexec_disk.
Qed.

Lemma along_old x acts : along (λ w, inv w c) (x, C) (WDisk <$> acts) →
  along (λ w, inv w (owed w)) (x, C) (WDisk <$> acts).
Proof. intros H%along_disk pre Hpre. destruct (H pre Hpre) as [??]. by apply inv_owed_old. Qed.

Lemma along_new x acts : along (λ w, inv w (Some (promote data))) (x, {[id]} ∪ C) (WDisk <$> acts) →
  along (λ w, inv w (owed w)) (x, {[id]} ∪ C) (WDisk <$> acts).
Proof. intros H%along_disk pre Hpre. destruct (H pre Hpre) as [??]. by apply inv_owed_new. Qed.

(** Without an injected failure a hook only decides whether to go on. *)
Lemma step_quiet co s : ∃ co' go, step E co s id = (go, co', []) ∧ pending co' = pending co ∧ fatal co' = fatal co.
Proof. unfold step. specialize (Hhook s). destruct (hook E s id); [|done|]; eexists _, _; done. Qed.

Lemma abort_inv co e : along (λ w, inv w c) (d, C) (abortFatal E co id e).2.
Proof.
  unfold abortFatal. cbn [snd]. apply along_app. split.
  - apply along_silent; [|apply Hc]. destruct (hasAbortSink E); by repeat constructor.
  - rewrite wexec_silent by (destruct (hasAbortSink E); by repeat constructor).
    rewrite along_cons, along_nil. split; [apply Hc|]. apply inv_remove_state; [apply Hc|].
    pose proof (fresh_ne d C c data Hc Hf) as Hne. destruct c as [x|]; [|done].
    intros E1. by apply (Hne x eq_refl).
Qed.

Lemma save_prepared : save (retain E) d data
  = Ok ([AWrite data; APointer false id]
        ++ enforceRetention (retain E) (apply_act (apply_act d (AWrite data)) (APointer false id))).
Proof.
  unfold save. rewrite (decide_False (P := CStatus data = StatusNone)) by done.
  rewrite (decide_True (P := has_state d data)) by apply (fr_state _ _ _ Hf).
  by rewrite (decide_False (P := CStatus data = StatusCompleted)).
Qed.

Let d2 := apply_act (apply_act d (AWrite data)) (APointer false id).
Let d3 := exec d2 (enforceRetention (retain E) d2).
Let d6 := apply_act (apply_act (apply_act d3 (AWrite (promote data))) (APointer false id)) (APointer true id).

(** After the sink commit the checkpoint only waits for its promotion. *)
Lemma committed_state : inv_some d3 ({[id]} ∪ C) (promote data) ∧ files d3 !! id = Some (Some (demote (promote data))).
Proof.
  split; [exact (inv_commit (retain E) Hrt d C c data Hc Hf)|].
  destruct (prepared_facts (retain E) Hrt d C c data Hc Hf) as (Hp & _). exact Hp.
Qed.

Lemma promote_new : UpdateStatus (retain E) d3 id StatusCompleted
  = Ok ([AWrite (promote data); APointer false id; APointer true id] ++ enforceRetention (retain E) d6).
Proof. destruct committed_state as [H1 H2]. exact (update_completed _ _ _ _ H1 H2). Qed.

Lemma offsets_silent co : Forall silent (finalize_offsets E co id p).2.
Proof.
  unfold finalize_offsets. destruct (step_quiet co StepPersistCompleted) as (co1 & go & -> & _).
  destruct go; [|by constructor]. cbn [negb].
  destruct (step_quiet co1 StepOffsetsCommitted) as (co2 & go & -> & _). cbn [snd app].
  destruct (p_offsets p); [|by constructor]. destruct (hasCommitOffsets E); by repeat constructor.
Qed.

(** From the sink commit on, at every point. *)
Lemma along_finalize_commit co : along (λ w, inv w (owed w)) (d3, C) (finalize_commit E co d3 id p).2.
Proof.
  assert (inv (d3, C) (owed (d3, C))) as H3.
  { pose proof (along_end _ _ _ (along_prepare (retain E) Hrt d C c data Hc Hf)) as H.
    rewrite wexec_disk in H. unfold exec in H. rewrite foldl_app in H. by apply inv_owed_old. }
  assert (inv (d3, {[id]} ∪ C) (owed (d3, {[id]} ∪ C))) as H4.
  { apply inv_owed_new; [done|]. apply (inv_commit (retain E) Hrt d C c data Hc Hf). }
  unfold finalize_commit. destruct (commitSink E id).
  - destruct (step_quiet co StepSinkCommitted) as (co1 & go & -> & _). destruct go; cbn [negb].
    2:{ cbn [snd]. rewrite along_cons, along_nil. done. }
    rewrite promote_new. pose proof (offsets_silent co1) as Hs. destruct (finalize_offsets E co1 id p) as [co2 a'].
    cbn [snd app] in *. rewrite along_cons. split; [exact H3|]. cbn [apply_wact fst snd].
    destruct committed_state as [Hk1 Hk2].
    pose proof (along_new _ _ (along_complete (retain E) Hrt d3 _ _ Hk1 Hk2)) as Hal. apply along_app. split.
    + exact Hal.
    + apply along_silent; [|exact (along_end _ _ _ Hal)]. apply Forall_app. split; [|done].
      destruct (hasOnCompleted E); by repeat constructor.
  - cbn [snd]. rewrite along_cons, along_nil. done.
  - cbn [snd]. by apply along_nil.
Qed.

(** Along [finalize] the world owes what the sink committed. *)
Lemma along_finalize co : pending co !! id = Some p →
  along (λ w, inv w (owed w)) (d, C) (finalize E co d id now).2.
Proof.
  intros Hp. assert (inv (d, C) (owed (d, C))) as H0 by (by apply inv_owed_old; [|apply Hc]).
  assert (∀ co e, along (λ w, inv w (owed w)) (d, C) (abortFatal E co id e).2) as Hab.
  { intros co' e pre Hpre. apply inv_owed_old; [|exact (abort_inv co' e pre Hpre)].
    destruct Hpre as [k Hk]. unfold abortFatal in Hk. cbn [snd] in Hk.
    assert (Forall (λ a, match a with WCommit _ => False | _ => True end) pre) as Hpre.
    { apply (Forall_app _ pre k). rewrite <- Hk. destruct (hasAbortSink E); by repeat constructor. }
    clear Hk. change C with (d, C).2 at 2. generalize (d, C). induction pre as [|a pre IH]; intros w; [done|].
    apply Forall_cons in Hpre as [Ha Hpre]. cbn [wexec foldl]. rewrite (IH Hpre). by destruct a. }
  unfold finalize. destruct (halted co); [by apply along_nil|]. rewrite Hp.
  destruct (p_sinkErr p); [apply Hab|]. fold data. rewrite save_prepared.
  destruct (step_quiet (drop_pending co id) StepPersistPrepared) as (co1 & go & -> & _).
  pose proof (along_old _ _ (along_prepare (retain E) Hrt d C c data Hc Hf)) as Hpr. destruct go; cbn [negb].
  - pose proof (along_finalize_commit co1) as Hfc. rewrite (surjective_pairing (finalize_commit _ _ _ _ _)).
    cbn [snd app]. apply along_app. split; [exact Hpr|]. rewrite wexec_disk. exact Hfc.
  - cbn [snd]. rewrite app_nil_r. exact Hpr.
Qed.

(** A finalization that is not interrupted completes the checkpoint. *)
Lemma finalize_complete co : pending co !! id = Some p → halted co = false → p_sinkErr p = None →
  (∀ s, hook E s id = HookContinue) → commitSink E id = Committed →
  let '(co', acts) := finalize E co d id now in
  fatal co' = fatal co ∧ pending co' = delete id (pending co) ∧ clean (wexec (d, C) acts) (Some (promote data))
  ∧ (wexec (d, C) acts).2 = {[id]} ∪ C.
Proof.
  intros Hp Hh He Hk Hcs. unfold finalize. rewrite Hh, Hp, He. fold data. rewrite save_prepared.
  unfold step. rewrite Hk. cbn [negb]. unfold finalize_commit. rewrite Hcs. unfold step. rewrite Hk. cbn [negb].
  change (exec d (_ ++ _)) with d3.
  rewrite promote_new. unfold finalize_offsets, step. rewrite !Hk. cbn [negb app].
  set (tail := (if hasOnCompleted E then _ else _) ++ _).
  assert (Forall silent tail) as Hs.
  { unfold tail. apply Forall_app. split; [destruct (hasOnCompleted E); by repeat constructor|].
    destruct (p_offsets p); [|by constructor]. destruct (hasCommitOffsets E); by repeat constructor. }
  rewrite wexec_app, wexec_disk. cbn [wexec foldl apply_wact fst snd]. fold wexec.
  change (foldl apply_wact ?w ?l) with (wexec w l). rewrite wexec_app, wexec_disk, (wexec_silent _ tail Hs).
  destruct committed_state as [Hk1 Hk2]. split_and!; [done|done| |done].
  exact (clean_complete (retain E) Hrt d3 _ _ Hk1 Hk2).
Qed.
End protocol.

(** ** Jobs: checkpoints, crashes and restarts *)

(** A job runs or is down.  Its ghost component is the checkpoint of the last
    committed transaction. *)
Inductive job :=
| Running (w : world) (c : option CheckpointData)
| Down (w : world) (c : option CheckpointData).

Definition write_state (d : disk) (id : bytes) (rels : gset bytes) : disk :=
  mkDisk (files d) (latest d) (latestCompleted d) (<[id := rels]> (stateDirs d)).

Section jobs.
Context (E : env) (wasCommitted : gset bytes → bytes → option bool).

(** The new world owes the new checkpoint once its transaction committed. *)
Definition last_committed (w : world) (id : bytes) (data : CheckpointData) (c : option CheckpointData) :=
  if decide (id ∈ w.2) then Some (promote data) else c.

(** One step of a job. A native snapshot appears on disk; a checkpoint is
    finalized without interruption; the process dies during a finalization or
    during a restart; a restart succeeds.  Crashes between a completed record
    and its pointer are left out ([settled]). *)
Inductive job_step : job → job → Prop :=
| job_snapshot d C c id rels :
    files d !! id = None →
    job_step (Running (d, C) c) (Running (write_state d id rels, C) c)
| job_checkpoint d C c co id now p :
    pending co !! id = Some p → halted co = false → p_sinkErr p = None →
    (∀ s, hook E s id = HookContinue) → commitSink E id = Committed →
    fresh d C (prepared_data E id p now) →
    job_step (Running (d, C) c)
      (Running (wexec (d, C) (finalize E co d id now).2) (Some (promote (prepared_data E id p now))))
| job_crash d C c co id now p pre :
    pending co !! id = Some p → (∀ s, hook E s id ≠ HookFail) →
    fresh d C (prepared_data E id p now) →
    pre `prefix_of` (finalize E co d id now).2 →
    let w := wexec (d, C) pre in
    let c' := last_committed w id (prepared_data E id p now) c in
    settled w c' →
    job_step (Running (d, C) c) (Down w c')
| job_restart w c c' acts :
    restart (retain E) (wasCommitted w.2) w.1 = Ok (c', acts) →
    job_step (Down w c) (Running (wexec w acts) c)
| job_restart_crash w c c' acts pre :
    restart (retain E) (wasCommitted w.2) w.1 = Ok (c', acts) →
    pre `prefix_of` acts → settled (wexec w pre) c →
    job_step (Down w c) (Down (wexec w pre) c).

Definition job_ok (j : job) : Prop :=
  match j with Running w c => clean w c | Down w c => inv w c ∧ settled w c end.

Context (Hrt : 1 ≤ retain E) (Hprobe : ∀ C, probes (wasCommitted C) C).

Lemma clean_settled w c : clean w c → settled w c.
Proof. intros [_ H]. destruct c as [x|]; [|done]. intros _. apply H. Qed.

Lemma clean_snapshot d C c id rels : clean (d, C) c → files d !! id = None → clean (write_state d id rels, C) c.
Proof.
  intros [Hi Hc] Hid. split; [|by destruct c]. destruct c as [x|]; simpl in *; [|by destruct Hi].
  destruct Hi as [Hg HC Hst Hf Hl Hnew Hs]. split; simpl; try done. unfold has_state in *. simpl.
  rewrite lookup_insert_ne; [done|]. intros ->. destruct Hc as [_ Hx]. by rewrite Hx in Hid.
Qed.

Lemma job_step_ok j j' : job_step j j' → job_ok j → job_ok j'.
Proof.
  intros [d C c id rels Hid|d C c co id now p Hp Hh He Hk Hcs Hf|d C c co id now p pre Hp Hk Hf Hpre w c' Hs
         |w c c' acts Hr|w c c' acts pre Hr Hpre Hs] Hok; simpl in *.
  - by apply clean_snapshot.
  - pose proof (finalize_complete E Hrt d C c id now p Hok Hf co Hp Hh He Hk Hcs) as H.
    destruct (finalize E co d id now) as [co' acts]. by destruct H as (_ & _ & H & _).
  - split; [|done]. exact (along_finalize E Hrt d C c id now p Hok Hf Hk co Hp pre Hpre).
  - destruct Hok as [Hi Hs].
    destruct (restart_inv (retain E) Hrt w.2 c (wasCommitted w.2) w eq_refl (Hprobe _) Hi) as (a & Ea & _ & Hcl).
    rewrite Hr in Ea. injection Ea as -> ->. auto.
  - destruct Hok as [Hi _]. split; [|done].
    destruct (restart_inv (retain E) Hrt w.2 c (wasCommitted w.2) w eq_refl (Hprobe _) Hi) as (a & Ea & Hal & _).
    rewrite Hr in Ea. injection Ea as -> ->. by apply Hal.
Qed.

Lemma job_reachable_ok j j' : rtc job_step j j' → job_ok j → job_ok j'.
Proof. induction 1; [done|]. intros. eauto using job_step_ok. Qed.

Definition job_world (j : job) : world := match j with Running w _ | Down w _ => w end.
Definition job_committed (j : job) : option CheckpointData := match j with Running _ c | Down _ c => c end.
End jobs.

Definition empty_disk : disk := mkDisk ∅ None None ∅.
Definition new_job : job := Running (empty_disk, ∅) None.

Lemma new_job_ok : job_ok new_job.
Proof. split; [|done]. by split. Qed.

(** C1: In every job built from native snapshots, finished checkpoints,
    crashes at any point of finalize or of a restart (except between a
    completed record and its pointer) and restarts, a restart succeeds and
    restores exactly the checkpoint of the last transaction the sink
    committed, provided the sink's marker probe answers truthfully. *)
Theorem exactly_once_job E wasCommitted j :
  1 ≤ retain E → (∀ C, probes (wasCommitted C) C) →
  rtc (job_step E wasCommitted) new_job j →
  ∃ acts, restart (retain E) (wasCommitted (job_world j).2) (job_world j).1 = Ok (job_committed j, acts).
Proof.
  intros Hrt Hpr Hr. pose proof (job_reachable_ok E wasCommitted Hrt Hpr _ _ Hr new_job_ok) as Hok.
  assert (inv (job_world j) (job_committed j)) as Hi by (destruct j; [apply Hok|apply Hok]).
  destruct (restart_inv (retain E) Hrt _ _ (wasCommitted (job_world j).2) _ eq_refl (Hpr _) Hi) as (acts & Ea & _). eauto.
Qed.

(** C2: From a clean directory, after a crash at any point of finalize, a
    restart restores the new checkpoint if its transaction committed and the
    previous one otherwise, whatever the sink's commit reported. *)
Theorem exactly_once_after_crash E wasCommitted co d C c id now p pre :
  1 ≤ retain E → clean (d, C) c → pending co !! id = Some p →
  fresh d C (prepared_data E id p now) → (∀ s, hook E s id ≠ HookFail) →
  pre `prefix_of` (finalize E co d id now).2 →
  let w := wexec (d, C) pre in
  probes wasCommitted w.2 →
  ∃ acts, restart (retain E) wasCommitted w.1
          = Ok (if decide (id ∈ w.2) then Some (promote (prepared_data E id p now)) else c, acts).
Proof.
  intros Hrt Hc Hp Hf Hk Hpre w Hpr.
  pose proof (along_finalize E Hrt d C c id now p Hc Hf Hk co Hp pre Hpre) as Hi.
  destruct (restart_inv (retain E) Hrt _ _ wasCommitted _ eq_refl Hpr Hi) as (acts & Ea & _). exists acts. exact Ea.
Qed.

(** C12: An uninterrupted finalize reports no error, forgets the pending
    checkpoint, commits exactly its transaction and leaves a clean directory
    whose pointers lead to the completed record. *)
Theorem finalize_completes E co d C c id now p :
  1 ≤ retain E → clean (d, C) c → fresh d C (prepared_data E id p now) →
  pending co !! id = Some p → halted co = false → p_sinkErr p = None →
  (∀ s, hook E s id = HookContinue) → commitSink E id = Committed →
  let '(co', acts) := finalize E co d id now in
  fatal co' = fatal co ∧ pending co' = delete id (pending co)
  ∧ clean (wexec (d, C) acts) (Some (promote (prepared_data E id p now)))
  ∧ (wexec (d, C) acts).2 = {[id]} ∪ C.
Proof.
  intros Hrt Hc Hf Hp Hh He Hk Hcs. exact (finalize_complete E Hrt d C c id now p Hc Hf co Hp Hh He Hk Hcs).
Qed.

(** ** A concrete job *)

(** No hook, a sink that commits, three retained checkpoints. *)
Definition demo_env : env :=
  mkEnv 3 (bs "job") (λ _ _, HookContinue) (λ _, Committed) true true true.

Definition demo_pending (o : bytes) : pendingCheckpoint := mkPending (Some o) {[bs "count" := o]} ∅ true None.

Definition demo_co (id o : bytes) : Coordinator := mkCoordinator {[id := demo_pending o]} false [id] None.

(** The actions of checkpoint [id], taken at time [now] at offset [id]. *)
Definition demo_finalize (d : disk) (id : bytes) (now : time) : list wact :=
  (finalize demo_env (demo_co id id) d id now).2.

Definition demo_ck (id : bytes) (now : time) : CheckpointData :=
  promote (prepared_data demo_env id (demo_pending id) now).

(** The sink's probe. *)
Definition demo_probe (C : gset bytes) (id : bytes) : option bool := Some (bool_decide (id ∈ C)).

Lemma demo_probes C : probes (demo_probe C) C.
Proof. intros id. reflexivity. Qed.

Lemma demo_clean : clean (empty_disk, ∅) None.
Proof. exact new_job_ok. Qed.

Lemma demo_fresh : fresh empty_disk ∅ (prepared_data demo_env (bs "1") (demo_pending (bs "1")) 10).
Proof. split; try done; intros id x; by rewrite lookup_empty. Qed.

Definition demo_1 : world := wexec (empty_disk, ∅) (demo_finalize empty_disk (bs "1") 10).

(** The crash: the record of checkpoint 2 says completed, its pointer does not. *)
Definition demo_2 : world := wexec demo_1 (take 4 (demo_finalize demo_1.1 (bs "2") 20)).

Definition demo_restart (w : world) : option CheckpointData * world :=
  match restart (retain demo_env) (demo_probe w.2) w.1 with
  | Ok (c, acts) => (c, wexec w acts)
  | _ => (None, w)
  end.

(** The second crash: checkpoint 3 is prepared, not committed. *)
Definition demo_3 : world :=
  let w := (demo_restart demo_2).2 in wexec w (take 2 (demo_finalize w.1 (bs "3") 30)).


Lemma exactly_once_after_crash_witness :
  ∃ acts, restart (retain demo_env) (demo_probe (wexec (empty_disk, ∅) (take 3 (demo_finalize empty_disk (bs "1") 10))).2)
            (wexec (empty_disk, ∅) (take 3 (demo_finalize empty_disk (bs "1") 10))).1
          = Ok (Some (demo_ck (bs "1") 10), acts).
Proof.
  exact (exactly_once_after_crash demo_env _ (demo_co (bs "1") (bs "1")) empty_disk ∅ None (bs "1") 10 (demo_pending (bs "1"))
    (take 3 (demo_finalize empty_disk (bs "1") 10)) ltac:(simpl; lia) demo_clean eq_refl demo_fresh
    ltac:(discriminate) ltac:(apply prefix_take) (demo_probes _)).
Defined.

Lemma finalize_completes_witness :
  clean (wexec (empty_disk, ∅) (demo_finalize empty_disk (bs "1") 10)) (Some (demo_ck (bs "1") 10)).
Proof.
  exact (proj1 (proj2 (proj2 (finalize_completes demo_env (demo_co (bs "1") (bs "1")) empty_disk ∅ None (bs "1") 10
    (demo_pending (bs "1")) ltac:(simpl; lia) demo_clean demo_fresh eq_refl eq_refl eq_refl
    ltac:(reflexivity) eq_refl)))).
Defined.

(** The process dies right after the first transaction committed. *)
Definition demo_down : world := wexec (empty_disk, ∅) (take 3 (demo_finalize empty_disk (bs "1") 10)).

Lemma demo_settled : settled demo_down (Some (demo_ck (bs "1") 10)).
Proof. intros H. exfalso. vm_compute in H. discriminate H. Qed.

Lemma demo_reach : rtc (job_step demo_env demo_probe) new_job (Down demo_down (Some (demo_ck (bs "1") 10))).
Proof.
  apply rtc_once. refine (job_crash demo_env demo_probe empty_disk ∅ None (demo_co (bs "1") (bs "1")) (bs "1") 10
    (demo_pending (bs "1")) (take 3 (demo_finalize empty_disk (bs "1") 10)) eq_refl _ demo_fresh _ demo_settled).
  - discriminate.
  - apply prefix_take.
Qed.

Lemma exactly_once_job_witness :
  ∃ acts, restart 3 (demo_probe demo_down.2) demo_down.1 = Ok (Some (demo_ck (bs "1") 10), acts).
Proof.
  exact (exactly_once_job demo_env demo_probe (Down demo_down (Some (demo_ck (bs "1") 10)))
    ltac:(simpl; lia) demo_probes demo_reach).
Defined.
