(* ===== verification/Injector.v ===== *)
(** * Barrier injection ([injectBarriers] of [src/engine.go])

    The injector stands between the source and the first stage.  It tracks the
    position of every partition, and injects checkpoint barriers on a ticker,
    on shutdown and at the end of the stream; the positions at a barrier are
    registered under its identifier, with the coordinator when there is one.

    The select loop is a function of the list of chosen branches.  Sends fail
    only when the pipeline is torn down: [accepts n] tells whether send number
    [n] succeeds.  The JSON encoding of positions is a parameter. *)

From S2P Require Import Prelude Record Rfc3339 Decimal Storage Coordinator.
From Stdlib Require Import Strings.Byte.

(** [source.PositionKey] *)
Definition PositionKey := (bytes * Z)%type.

(** The chosen branch of the select. *)
Inductive ievent :=
| EvDone
| EvRecord (r : Record_)
| EvClosed
| EvTick.

(** The engine's side: positions waiting for their barrier, or the coordinator
    that owns them. *)
Record engine := mkEngine {
  pendingOffsets : gmap bytes bytes;
  coord : option Coordinator;
  coordActs : list wact
}.

Record injector := mkInjector {
  checkpointID : Z;
  offsets : gmap PositionKey Z;
  forwarded : nat;
  out : list Record_;
  eng : engine
}.

Section injector_ops.
Context (E : env) (positionOf : option (Record_ → PositionKey)).
Context (encode : bool → gmap PositionKey Z → option bytes).
Context (accepts : nat → bool) (runNonce : Z).

(** [mkID] *)
Definition mkID (n : Z) (suffix : bytes) : bytes :=
  bs "cp-" ++ FormatInt runNonce ++ bs "-" ++ FormatInt n ++ suffix.

(** [positionKey]: sources without positions of their own use the partition. *)
Definition positionKey (r : Record_) : PositionKey :=
  match positionOf with Some f => f r | None => ([], Partition r) end.

(** One record's contribution to the positions. *)
Definition track (m : gmap PositionKey Z) (r : Record_) : gmap PositionKey Z :=
  if IsWatermark r || IsBarrier r then m else <[positionKey r := i64_add (Offset r) 1]> m.

(** [registerAlignedOffsets]; an encoding error drops the registration. *)
Definition registerAlignedOffsets (g : engine) (id : bytes) (m : gmap PositionKey Z) : engine :=
  match encode (bool_decide (is_Some positionOf)) m with
  | None => g
  | Some data =>
      match coord g with
      | Some c => let '(c', a) := OnBarrierInjected E c id (Some data) in
                  mkEngine (pendingOffsets g) (Some c') (coordActs g ++ a)
      | None => mkEngine (<[id := data]> (pendingOffsets g)) None (coordActs g)
      end
  end.

(** [takeAlignedOffsets] *)
Definition takeAlignedOffsets (g : engine) (id : bytes) : option bytes * engine :=
  (pendingOffsets g !! id, mkEngine (delete id (pendingOffsets g)) (coord g) (coordActs g)).

(** [forward]: false when the pipeline is torn down. *)
Definition forward (st : injector) (r : Record_) : injector * bool :=
  if accepts (forwarded st)
  then (mkInjector (checkpointID st) (offsets st) (S (forwarded st)) (out st ++ [r]) (eng st), true)
  else (st, false).

(** [barrier], with the increment of [checkpointID] that precedes it. *)
Definition barrier (st : injector) (suffix : bytes) : injector * bool :=
  let n := i64_add (checkpointID st) 1 in
  let id := mkID n suffix in
  forward (mkInjector n (offsets st) (forwarded st) (out st)
             (registerAlignedOffsets (eng st) id (offsets st))) (NewBarrier id).

(** A record passes: track it, then forward it. *)
Definition pass (st : injector) (r : Record_) : injector * bool :=
  forward (mkInjector (checkpointID st) (track (offsets st) r) (forwarded st) (out st) (eng st)) r.

(** The drain after a shutdown barrier: records until the source closes. *)
Fixpoint drain (st : injector) (evs : list ievent) : injector :=
  match evs with
  | EvRecord r :: evs' => let '(st', ok) := pass st r in if ok then drain st' evs' else st'
  | _ => st
  end.

(** [injectBarriers] *)
Fixpoint inject (st : injector) (evs : list ievent) : injector :=
  match evs with
  | [] => st
  | EvDone :: evs' => let '(st', ok) := barrier st (bs "-shutdown") in if ok then drain st' evs' else st'
  | EvClosed :: _ => (barrier st (bs "-final")).1
  | EvRecord r :: evs' => let '(st', ok) := pass st r in if ok then inject st' evs' else st'
  | EvTick :: evs' => let '(st', ok) := barrier st [] in if ok then inject st' evs' else st'
  end.

Definition start_injector (g : engine) : injector := mkInjector 0 ∅ 0 [] g.

(** The positions after a list of records. *)
Definition positions (l : list Record_) : gmap PositionKey Z := foldl track ∅ l.
End injector_ops.

(** ** Identifiers *)

Lemma FormatInt_pos n : 0 ≤ n → FormatInt n = FormatUint n.
Proof. intros H. unfold FormatInt. destruct (Z.ltb_spec n 0); [lia|done]. Qed.

(** What may follow the number in an identifier. *)
Definition suffix_ok (s : bytes) : Prop := s = [] ∨ ∃ s', s = dash :: s'.

Lemma FormatUint_app_inj a b s t : 0 ≤ a < 10 ^ 20 → 0 ≤ b < 10 ^ 20 → suffix_ok s → suffix_ok t →
  FormatUint a ++ s = FormatUint b ++ t → a = b ∧ s = t.
Proof.
  intros Ha Hb Hs Ht E.
  destruct (FormatUint_digits a) as (d & ds & Ea & Hra & Hna), (FormatUint_digits b) as (e & es & Eb & Hrb & Hnb).
  rewrite Ea, Eb in E. apply (f_equal span_digits) in E.
  rewrite !span_digits_dig in E; try done.
  - injection E as E1 E2 E3. rewrite <- Hna, <- Hnb by done. by rewrite E1, E2.
  - destruct Ht as [->|[t' ->]]; [done|]. by intros ? ? [= <- <-].
  - destruct Hs as [->|[s' ->]]; [done|]. by intros ? ? [= <- <-].
Qed.

(** Identifiers of one run differ when their numbers do. *)
Lemma mkID_inj nonce a b s t : 0 ≤ a < 10 ^ 20 → 0 ≤ b < 10 ^ 20 → suffix_ok s → suffix_ok t →
  mkID nonce a s = mkID nonce b t → a = b ∧ s = t.
Proof.
  intros Ha Hb Hs Ht E. unfold mkID in E. rewrite (FormatInt_pos a), (FormatInt_pos b) in E by lia.
  do 3 apply app_inv_head in E. by apply FormatUint_app_inj.
Qed.

(** ** Alignment *)

(** The positions registered for a checkpoint. *)
Definition registered (g : engine) (id : bytes) : option bytes :=
  match coord g with
  | Some c => p ← pending c !! id; p_offsets p
  | None => pendingOffsets g !! id
  end.

(** The records the source delivers along a list of branches. *)
Definition delivered (evs : list ievent) : list Record_ :=
  omap (λ ev, match ev with EvRecord r => Some r | _ => None end) evs.

Section alignment.
Context (E : env) (positionOf : option (Record_ → PositionKey)).
Context (encode : bool → gmap PositionKey Z → option bytes).
Context (accepts : nat → bool) (runNonce : Z).

Local Notation enc := (encode (bool_decide (is_Some positionOf))).
Local Notation pos_of := (positions positionOf).
Local Notation register := (registerAlignedOffsets E positionOf encode).

Lemma step_pending c s id : pending (step E c s id).1.2 = pending c.
Proof. unfold step. destruct (hook E s id); [done|unfold abortFatal|done]. done. Qed.

Lemma registered_register g id m id' : registered (register g id m) id'
  = match enc m with
    | Some data => if decide (id = id') then Some data else registered g id'
    | None => registered g id'
    end.
Proof.
  unfold registerAlignedOffsets, registered. destruct (enc m) as [data|]; [|done].
  destruct (coord g) as [c|] eqn:Ec.
  - unfold OnBarrierInjected. set (c1 := set_pending _ _ _).
    pose proof (step_pending c1 StepBarrierInjected id) as Hs.
    destruct (step E c1 StepBarrierInjected id) as [[go c'] a]. cbn [fst snd coord] in *. rewrite Hs. unfold c1.
    cbn [set_pending pending]. rewrite lookup_insert. by case_decide.
  - cbn [coord pendingOffsets]. rewrite lookup_insert. by case_decide.
Qed.

(** Every barrier sent so far has its own number and its registered positions. *)
Record aligned (st : injector) : Prop := {
  al_num : 0 ≤ checkpointID st;
  al_bar : ∀ pre id post, out st = pre ++ NewBarrier id :: post →
    ∃ n s, id = mkID runNonce n s ∧ 1 ≤ n ≤ checkpointID st ∧ suffix_ok s
      ∧ ∀ data, enc (pos_of pre) = Some data → registered (eng st) id = Some data
}.

Definition tracked (st : injector) : Prop := offsets st = pos_of (out st).

Lemma positions_snoc l r : pos_of (l ++ [r]) = track positionOf (pos_of l) r.
Proof. unfold positions. by rewrite foldl_app. Qed.

Lemma pass_aligned st r st' ok : IsBarrier r = false → aligned st → pass positionOf accepts st r = (st', ok) →
  aligned st' ∧ checkpointID st' = checkpointID st ∧ (ok = true → tracked st → tracked st').
Proof.
  intros Hr [Hn Hb] Ep. unfold pass, forward in Ep. destruct (accepts _); simplify_eq; cbn [out eng checkpointID].
  - split_and!; [|done|].
    + split; [done|]. cbn [out eng checkpointID]. intros pre id post Eo. destruct post as [|x post _] using rev_ind.
      * apply app_inj_tail in Eo as [_ ->]. done.
      * rewrite app_comm_cons, app_assoc in Eo. apply app_inj_tail in Eo as [Eo _]. by apply (Hb pre id post).
    + intros _ Ht. unfold tracked in *. cbn [offsets out]. by rewrite positions_snoc, Ht.
  - split_and!; [by split|done|done].
Qed.

Lemma barrier_aligned st s st' ok : aligned st → tracked st → suffix_ok s → checkpointID st < 2 ^ 62 →
  barrier E positionOf encode accepts runNonce st s = (st', ok) →
  aligned st' ∧ checkpointID st' = checkpointID st + 1 ∧ (ok = true → tracked st').
Proof.
  intros [Hn Hb] Ht Hs Hlt Ep. unfold barrier in Ep.
  assert (i64_add (checkpointID st) 1 = checkpointID st + 1) as En.
  { unfold i64_add. apply wrap64_id. unfold in_i64, two63. lia. }
  rewrite En in Ep. set (n := checkpointID st + 1) in *. set (id := mkID runNonce n s) in *.
  (* the new registration does not disturb the old ones *)
  assert (∀ pre id' post, out st = pre ++ NewBarrier id' :: post →
    ∃ n' s', id' = mkID runNonce n' s' ∧ 1 ≤ n' ≤ n ∧ suffix_ok s'
      ∧ ∀ data, enc (pos_of pre) = Some data → registered (register (eng st) id (offsets st)) id' = Some data) as Hold.
  { intros pre id' post Eo. destruct (Hb pre id' post Eo) as (n' & s' & -> & Hn' & Hs' & Hreg).
    exists n', s'. split_and!; [done|lia|lia|done|]. intros data Hd. rewrite registered_register.
    specialize (Hreg data Hd). destruct (enc (offsets st)); [|done]. rewrite decide_False; [done|].
    intros Eid. apply mkID_inj in Eid as [? _]; [lia|lia|lia|done|done]. }
  unfold forward in Ep. destruct (accepts _); injection Ep as <- <-; cbn [checkpointID out eng].
  - split_and!; [|done|].
    + split; cbn [checkpointID out eng]; [lia|]. intros pre id' post Eo. destruct post as [|x post _] using rev_ind.
      * apply app_inj_tail in Eo as [Eo Ei]. injection Ei as <-. exists n, s.
        split_and!; [done|lia|lia|done|]. intros data Hd. rewrite registered_register. unfold tracked in Ht.
        rewrite Ht, Eo, Hd. by rewrite decide_True.
      * rewrite app_comm_cons, app_assoc in Eo. apply app_inj_tail in Eo as [Eo _]. by apply (Hold pre id' post).
    + intros _. unfold tracked in *. cbn [offsets out]. by rewrite positions_snoc, Ht.
  - split_and!; [|done|done]. split; cbn [checkpointID out eng]; [lia|]. apply Hold.
Qed.

Definition no_barriers (evs : list ievent) : Prop := Forall (λ r, IsBarrier r = false) (delivered evs).

Lemma drain_aligned evs : ∀ st, no_barriers evs → aligned st → aligned (drain positionOf accepts st evs).
Proof.
  induction evs as [|[|r| |] evs IH]; intros st Hb Ha; try done. cbn [drain].
  apply Forall_cons in Hb as [Hr Hb]. destruct (pass positionOf accepts st r) as [st' ok] eqn:Ep.
  apply pass_aligned in Ep as (Ha' & _); [|done|done]. destruct ok; [by apply IH|done].
Qed.

Local Notation inj_run := (inject E positionOf encode accepts runNonce).

Lemma inject_aligned evs : ∀ st, no_barriers evs → aligned st → tracked st →
  checkpointID st + Z.of_nat (length evs) < 2 ^ 62 → aligned (inj_run st evs).
Proof.
  induction evs as [|ev evs IH]; intros st Hb Ha Ht Hlt; [done|]. cbn [length] in Hlt.
  destruct ev as [|r| |]; cbn [inject].
  - destruct (barrier _ _ _ _ _ st _) as [st' ok] eqn:Ep.
    apply barrier_aligned in Ep as (Ha' & _ & _); [|done|done|by right; eexists|lia].
    destruct ok; [|done]. by apply drain_aligned.
  - apply Forall_cons in Hb as [Hr Hb]. destruct (pass positionOf accepts st r) as [st' ok] eqn:Ep.
    apply pass_aligned in Ep as (Ha' & Hn & Ht'); [|done|done]. destruct ok; [|done].
    apply IH; [done|done|by apply Ht'|lia].
  - destruct (barrier _ _ _ _ _ st _) as [st' ok] eqn:Ep.
    by apply barrier_aligned in Ep as (Ha' & _ & _); [|done|done|by right; eexists|lia].
  - destruct (barrier _ _ _ _ _ st _) as [st' ok] eqn:Ep.
    apply barrier_aligned in Ep as (Ha' & Hn & Ht'); [|done|done|by left|lia].
    destruct ok; [|done]. apply IH; [done|done|by apply Ht'|lia].
Qed.

(** What the injector adds to the stream are barriers. *)
Definition data_of (l : list Record_) : list Record_ := filter (λ r, IsBarrier r = false) l.

Lemma data_of_snoc l r : data_of (l ++ [r]) = data_of l ++ (if IsBarrier r then [] else [r]).
Proof.
  unfold data_of. rewrite filter_app. f_equal. rewrite filter_cons, filter_nil.
  destruct (IsBarrier r) eqn:Er; [by rewrite decide_False|by rewrite decide_True].
Qed.

Lemma forward_data st r st' ok : forward accepts st r = (st', ok) →
  data_of (out st') = data_of (out st) ++ (if ok && negb (IsBarrier r) then [r] else []).
Proof.
  unfold forward. destruct (accepts _); intros [= <- <-]; cbn [out andb].
  - rewrite data_of_snoc. by destruct (IsBarrier r).
  - by rewrite app_nil_r.
Qed.

Lemma barrier_data st s : data_of (out (barrier E positionOf encode accepts runNonce st s).1) = data_of (out st).
Proof.
  unfold barrier. destruct (forward _ _ _) as [st' ok] eqn:Ef. apply forward_data in Ef. cbn [fst]. rewrite Ef.
  cbn [IsBarrier NewBarrier negb out]. by rewrite andb_false_r, app_nil_r.
Qed.

Lemma pass_data st r st' ok : IsBarrier r = false → pass positionOf accepts st r = (st', ok) →
  data_of (out st') = data_of (out st) ++ (if ok then [r] else []).
Proof. intros Hr Ef%forward_data. rewrite Ef, Hr. cbn [negb out]. by rewrite andb_true_r. Qed.

(** The stream is a prefix of what the source delivers. *)
Definition feeds (st st' : injector) (evs : list ievent) : Prop :=
  ∃ l, l `prefix_of` delivered evs ∧ data_of (out st') = data_of (out st) ++ l.

Lemma feeds_refl st st' evs : data_of (out st') = data_of (out st) → feeds st st' evs.
Proof. intros Eo. exists []. split; [apply prefix_nil|]. by rewrite Eo, app_nil_r. Qed.

Lemma feeds_pass st st1 st' r evs : data_of (out st1) = data_of (out st) ++ [r] → feeds st1 st' evs →
  feeds st st' (EvRecord r :: evs).
Proof.
  intros E1 (l & Hl & E2). exists (r :: l). split; [by apply prefix_cons|]. by rewrite E2, E1, <- app_assoc.
Qed.

Lemma drain_feeds evs : ∀ st, no_barriers evs → feeds st (drain positionOf accepts st evs) evs.
Proof.
  induction evs as [|[|r| |] evs IH]; intros st Hb; try (by apply feeds_refl). cbn [drain].
  apply Forall_cons in Hb as [Hr Hb]. destruct (pass positionOf accepts st r) as [st' ok] eqn:Ep.
  apply pass_data in Ep; [|done]. destruct ok; [|apply feeds_refl; by rewrite Ep, app_nil_r].
  by eapply feeds_pass; [|apply IH].
Qed.

Lemma inject_feeds evs : ∀ st, no_barriers evs → feeds st (inj_run st evs) evs.
Proof.
  induction evs as [|ev evs IH]; intros st Hb; [by apply feeds_refl|].
  assert (∀ s, data_of (out (barrier E positionOf encode accepts runNonce st s).1) = data_of (out st)) as Hbar
    by (intros; apply barrier_data).
  destruct ev as [|r| |]; cbn [inject].
  - specialize (Hbar (bs "-shutdown")). destruct (barrier _ _ _ _ _ st _) as [st' ok]. cbn [fst] in Hbar.
    destruct ok; [|by apply feeds_refl]. destruct (drain_feeds evs st' Hb) as (l & Hl & El). exists l.
    by rewrite El, Hbar.
  - apply Forall_cons in Hb as [Hr Hb]. destruct (pass positionOf accepts st r) as [st' ok] eqn:Ep.
    apply pass_data in Ep; [|done]. destruct ok; [|apply feeds_refl; by rewrite Ep, app_nil_r].
    by eapply feeds_pass; [|apply IH].
  - apply feeds_refl, Hbar.
  - specialize (Hbar []). destruct (barrier _ _ _ _ _ st _) as [st' ok]. cbn [fst] in Hbar.
    destruct ok; [|by apply feeds_refl]. destruct (IH st' Hb) as (l & Hl & El). exists l. by rewrite El, Hbar.
Qed.

(** The position of a partition: one past the last record that came from it. *)
Lemma positions_lookup l k :
  pos_of l !! k = (λ r, i64_add (Offset r) 1) <$>
    last (filter (λ r, IsWatermark r || IsBarrier r = false ∧ positionKey positionOf r = k) l).
Proof.
  induction l as [|r l IH] using rev_ind; [done|]. rewrite positions_snoc, filter_app, filter_cons, filter_nil.
  unfold track. destruct (IsWatermark r || IsBarrier r) eqn:Er.
  - rewrite decide_False by naive_solver. by rewrite app_nil_r.
  - rewrite lookup_insert. case_decide as Ek.
    + rewrite decide_True by done. by rewrite last_snoc.
    + rewrite decide_False by naive_solver. by rewrite app_nil_r.
Qed.
End alignment.

Lemma inject_aligned_start E positionOf encode accepts runNonce g evs :
  no_barriers evs → Z.of_nat (length evs) < 2 ^ 62 →
  aligned positionOf encode runNonce (inject E positionOf encode accepts runNonce (start_injector g) evs).
Proof.
  intros Hb Hl. apply inject_aligned; [done| |done|simpl; lia]. split; [done|]. intros pre id post Ee. by destruct pre.
Qed.

(** The injector only adds barriers to the source's stream, and the
    positions registered for a barrier are, for each partition, one past the
    last record forwarded before it. *)
Theorem injector_aligned E positionOf encode accepts runNonce g evs :
  no_barriers evs → Z.of_nat (length evs) < 2 ^ 62 →
  let st := inject E positionOf encode accepts runNonce (start_injector g) evs in
  data_of (out st) `prefix_of` delivered evs
  ∧ ∀ pre id post data m,
      out st = pre ++ NewBarrier id :: post →
      (∀ k, m !! k = (λ r, i64_add (Offset r) 1) <$>
         last (filter (λ r, IsWatermark r || IsBarrier r = false ∧ positionKey positionOf r = k) pre)) →
      encode (bool_decide (is_Some positionOf)) m = Some data →
      registered (eng st) id = Some data.
Proof.
  intros Hb Hl st. split.
  - destruct (inject_feeds E positionOf encode accepts runNonce evs (start_injector g) Hb) as (l & Hp & El).
    fold st in El. by rewrite El.
  - intros pre id post data m Eo Hm He.
    destruct (inject_aligned_start E positionOf encode accepts runNonce g evs Hb Hl) as [_ Ha]. fold st in Ha.
    destruct (Ha pre id post Eo) as (_ & _ & _ & _ & _ & Hreg). apply Hreg.
    replace (positions positionOf pre) with m; [done|]. apply map_eq. intros k. by rewrite Hm, positions_lookup.
Qed.

(** ** The sequence number in an identifier *)

Lemma last_field_dash acc s t : last_field acc (s ++ dash :: t) = last_field [] t.
Proof.
  revert acc. induction s as [|b s IH]; intros acc; cbn [app last_field].
  - by rewrite decide_True.
  - case_decide; apply IH.
Qed.

Lemma last_field_plain acc s : dash ∉ s → last_field acc s = acc ++ s.
Proof.
  revert acc. induction s as [|b s IH]; intros acc Hs; cbn [last_field]; [by rewrite app_nil_r|].
  apply not_elem_of_cons in Hs as [Hb Hs]. rewrite decide_False by congruence. rewrite IH by done.
  by rewrite <- app_assoc.
Qed.

Lemma FormatUint_no_dash n : dash ∉ FormatUint n.
Proof.
  destruct (FormatUint_digits n) as (d & ds & -> & Hr & _). rewrite list_elem_of_fmap.
  intros (e & He & Hin). rewrite Forall_forall in Hr. symmetry in He. revert He. apply dig_not; [by apply Hr|by left].
Qed.

Lemma ParseInt_value_FormatUint n : 0 ≤ n < two63 → ParseInt_value (FormatUint n) = n.
Proof.
  intros Hn. assert (two63 = 9223372036854775808) as H63 by done.
  destruct (FormatUint_digits n) as (d & ds & -> & Hr & Hv). pose proof Hr as [Hd _]%Forall_cons.
  unfold ParseInt_value. rewrite fmap_cons.
  rewrite !bool_decide_eq_false_2 by (apply dig_not; [done|by left]). cbn [orb].
  rewrite <- fmap_cons, parse_digits_dig by done. rewrite Hv by lia. lia.
Qed.

(** The sequence number read back from a periodic checkpoint is its number; every
    shutdown or final checkpoint reads back as zero. *)
Theorem checkpoint_sequence_of_id runNonce n :
  0 ≤ n < two63 →
  checkpointSequence (mkID runNonce n []) = n
  ∧ checkpointSequence (mkID runNonce n (bs "-shutdown")) = 0
  ∧ checkpointSequence (mkID runNonce n (bs "-final")) = 0.
Proof.
  intros Hn. unfold checkpointSequence, mkID. rewrite (FormatInt_pos n) by lia.
  rewrite !app_assoc. split_and!.
  - rewrite app_nil_r, <- (app_assoc _ (bs "-")). change (bs "-" ++ FormatUint n) with (dash :: FormatUint n).
    rewrite last_field_dash.
    rewrite last_field_plain by apply FormatUint_no_dash. by apply ParseInt_value_FormatUint.
  - change (bs "-shutdown") with (dash :: bs "shutdown"). by rewrite last_field_dash.
  - change (bs "-final") with (dash :: bs "final"). by rewrite last_field_dash.
Qed.

Lemma checkpoint_sequence_of_id_witness : checkpointSequence (mkID 1700000000 12 []) = 12.
Proof. exact (proj1 (checkpoint_sequence_of_id 1700000000 12 ltac:(unfold two63; lia))). Defined.

(** ** A concrete stream *)

Definition demo_encode (positioned : bool) (m : gmap PositionKey Z) : option bytes :=
  Some (match m !! ([], 0) with Some z => FormatInt z | None => bs "none" end).

Definition demo_rec (off : Z) : Record_ := WithOffset (NewRecord 0 (bs "k") (bs "v")) off.

(** Records at offsets 4 and 5, a tick, one more record, the end. *)
Definition demo_events : list ievent :=
  [EvRecord (demo_rec 4); EvRecord (demo_rec 5); EvTick; EvRecord (demo_rec 6); EvClosed].

Definition demo_injector : injector :=
  inject (mkEnv 3 (bs "job") (λ _ _, HookContinue) (λ _, Committed) true true true)
    None demo_encode (λ _, true) 99 (start_injector (mkEngine ∅ None [])) demo_events.

Lemma injector_aligned_witness : registered (eng demo_injector) (bs "cp-99-1") = Some (bs "6").
Proof.
  refine (proj2 (injector_aligned _ None demo_encode (λ _, true) 99 (mkEngine ∅ None []) demo_events _ _)
    [demo_rec 4; demo_rec 5] (bs "cp-99-1") [demo_rec 6; NewBarrier (bs "cp-99-2-final")] (bs "6") {[([], 0) := 6]} _ _ _).
  - repeat constructor.
  - simpl. lia.
  - vm_compute. reflexivity.
  - intros k. rewrite lookup_singleton. case_decide as Ek; [by subst|].
    rewrite !filter_cons, filter_nil. rewrite !decide_False by (intros [_ Hk]; by destruct Ek). done.
  - vm_compute. reflexivity.
Defined.
