(* ===== verification/Positions.v ===== *)
(** * Source positions ([src/source/source.go], [src/source/kafka_offset_tracker.go])

    The versioned text of source positions in a checkpoint, with its legacy
    form, and the tracker that a Kafka source checkpoints and restores.  JSON is
    the class [PositionJSON]; the iteration order of a Go map is the function
    [range], of which only the contents are known. *)

From S2P Require Import Prelude Record Rfc3339 Decimal Injector.

(** ** Data *)

(** [Position] *)
Record Position := mkPosition {
  p_Source : bytes;
  p_Partition : Z;
  p_Offset : Z
}.

#[export] Instance Position_eq_dec : EqDecision Position.
Proof. solve_decision. Defined.

Definition p_key (p : Position) : PositionKey := (p_Source p, p_Partition p).

(** [positionEnvelope] *)
Record positionEnvelope := mkEnvelope {
  Version : Z;
  Positions : list Position
}.

(** [encoding/json] at the types used here; [text_ok] are the strings that
    survive it. *)
Class PositionJSON := {
  marshal_envelope : positionEnvelope → bytes;
  unmarshal_envelope : bytes → option positionEnvelope;
  unmarshal_legacy : bytes → option (gmap bytes Z);
  text_ok : bytes → Prop;
  envelope_roundtrip : ∀ e, Forall (λ p, text_ok (p_Source p)) (Positions e) →
    unmarshal_envelope (marshal_envelope e) = Some e
}.

(** The order of [EncodePositions]: source, then partition. *)
Definition pos_le (a b : Position) : Prop :=
  if decide (p_Source a = p_Source b) then p_Partition a ≤ p_Partition b
  else bytes_ltb (p_Source a) (p_Source b) = true.

#[export] Instance pos_le_dec : RelDecision pos_le.
Proof. intros a b. unfold pos_le. case_decide; apply _. Defined.

Section positions.
Context `{!PositionJSON}.

(** [EncodePositions] *)
Definition EncodePositions (ps : list Position) : bytes := marshal_envelope (mkEnvelope 2 (merge_sort pos_le ps)).

(** The checks of [DecodePositions] on the current format. *)
Fixpoint check_positions (seen : gset PositionKey) (ps : list Position) : result unit :=
  match ps with
  | [] => Ok tt
  | p :: ps' =>
      if decide (p_Source p = [] ∨ p_Partition p < 0 ∨ p_Offset p < 0)
      then Err (bs "source positions: invalid position")
      else if decide (p_key p ∈ seen)
      then Err (bs "source positions: duplicate " ++ p_Source p ++ bs "/" ++ FormatInt (p_Partition p))
      else check_positions ({[p_key p]} ∪ seen) ps'
  end.

(** The legacy entries, in the order the map is ranged over. *)
Fixpoint legacy_positions (source : bytes) (kvs : list (bytes * Z)) : result (list Position) :=
  match kvs with
  | [] => Ok []
  | (partText, offset) :: kvs' =>
      let bad := Err (bs "source positions: invalid legacy position") in
      match ParseInt partText with
      | None => bad
      | Some part =>
          if decide (part < 0 ∨ offset < 0) then bad
          else ps <-? legacy_positions source kvs' ;; Ok (mkPosition source part offset :: ps)
      end
  end.

(** [DecodePositions] *)
Definition DecodePositions (data legacySource : bytes) : result (list Position) :=
  let legacy :=
    if decide (legacySource = [])
    then Err (bs "source positions: legacy checkpoint has no unambiguous source")
    else match unmarshal_legacy data with
         | None => Err (bs "source positions: decode")
         | Some m => legacy_positions legacySource (map_to_list m)
         end in
  match unmarshal_envelope data with
  | Some e =>
      if decide (Version e = 0) then legacy
      else if decide (Version e = 2)
      then _ <-? check_positions ∅ (Positions e) ;; Ok (Positions e)
      else Err (bs "source positions: unsupported version " ++ FormatInt (Version e))
  | None => legacy
  end.

(** ** The tracker *)

(** What the tracker reads of a [kafka.Message]. *)
Record message := mkMessage {
  m_Topic : bytes;
  m_Partition : Z;
  m_Offset : Z;
  m_HighWaterMark : Z
}.

(** [PartitionProgress] *)
Record PartitionProgress := mkProgress {
  CurrentOffset : Z;
  CheckpointOffset : Z;
  HighWatermark : Z;
  Lag : Z
}.

(** [offsetTracker]; topic and partition of a progress entry are its key. *)
Record offsetTracker := mkTracker {
  consumed : gmap PositionKey Z;
  restored : gmap PositionKey Z;
  progress : gmap PositionKey PartitionProgress;
  committed : gmap PositionKey Z
}.

Definition newOffsetTracker : offsetTracker := mkTracker ∅ ∅ ∅ ∅.

Definition m_key (msg : message) : PositionKey := (m_Topic msg, m_Partition msg).

(** [track] *)
Definition trackMessage (t : offsetTracker) (msg : message) : offsetTracker :=
  let key := m_key msg in
  let next := i64_add (m_Offset msg) 1 in
  mkTracker (<[key := next]> (consumed t)) (restored t)
    (<[key := mkProgress next (Z.max (default 0 (restored t !! key)) (default 0 (committed t !! key)))
                (m_HighWaterMark msg) (Z.max 0 (i64_sub (m_HighWaterMark msg) next))]> (progress t))
    (committed t).

(** [markCommitted] *)
Definition markCommitted1 (t : offsetTracker) (msg : message) : offsetTracker :=
  let key := m_key msg in
  let next := i64_add (m_Offset msg) 1 in
  mkTracker (consumed t) (restored t)
    (match progress t !! key with
     | Some p => <[key := mkProgress (CurrentOffset p) next (HighWatermark p) (Lag p)]> (progress t)
     | None => progress t
     end)
    (<[key := next]> (committed t)).
Definition markCommitted (t : offsetTracker) (msgs : list message) : offsetTracker := foldl markCommitted1 t msgs.

Context (range : gmap PositionKey Z → list (PositionKey * Z)).

Definition position_of (kv : PositionKey * Z) : Position := mkPosition kv.1.1 kv.1.2 kv.2.

(** [snapshot] *)
Definition snapshot (t : offsetTracker) : bytes := EncodePositions (position_of <$> range (consumed t)).

(** [restore] *)
Definition restore_position (t : offsetTracker) (p : Position) : offsetTracker :=
  mkTracker (<[p_key p := p_Offset p]> (consumed t)) (<[p_key p := p_Offset p]> (restored t))
    (progress t) (committed t).
Definition restore (t : offsetTracker) (data legacySource : bytes) : result offsetTracker :=
  ps <-? DecodePositions data legacySource ;; Ok (foldl restore_position t ps).

(** [restoredOffset] *)
Definition restoredOffset (t : offsetTracker) (topic : bytes) (part : Z) : option Z := restored t !! (topic, part).
End positions.

(** ** Encoding is deterministic *)

#[export] Instance pos_le_total : Total pos_le.
Proof.
  intros a b. unfold pos_le. destruct (decide (p_Source a = p_Source b)) as [E|E].
  - rewrite (decide_True (P := p_Source b = p_Source a)) by done. lia.
  - rewrite (decide_False (P := p_Source b = p_Source a)) by congruence.
    destruct (bytes_ltb (p_Source a) (p_Source b)) eqn:E1; [by left|].
    destruct (bytes_ltb (p_Source b) (p_Source a)) eqn:E2; [by right|]. by destruct E; apply bytes_ltb_total.
Qed.

#[export] Instance pos_le_trans : Transitive pos_le.
Proof.
  intros a b c. unfold pos_le.
  destruct (decide (p_Source a = p_Source b)) as [E1|E1], (decide (p_Source b = p_Source c)) as [E2|E2]; intros H1 H2.
  - rewrite decide_True by congruence. lia.
  - rewrite decide_False by congruence. by rewrite E1.
  - rewrite decide_False by congruence. by rewrite <- E2.
  - pose proof (bytes_ltb_trans _ _ _ H1 H2) as H. rewrite decide_False; [done|].
    intros E. rewrite E, bytes_ltb_irrefl in H. done.
Qed.

Lemma pos_le_antisym a b : pos_le a b → pos_le b a → p_key a = p_key b.
Proof.
  unfold pos_le, p_key. destruct (decide (p_Source a = p_Source b)) as [E|E].
  - rewrite decide_True by done. intros. f_equal; [done|lia].
  - rewrite decide_False by congruence. intros H1 H2.
    pose proof (bytes_ltb_trans _ _ _ H1 H2) as H. by rewrite bytes_ltb_irrefl in H.
Qed.

(** Positions with distinct keys sort the same whatever their order. *)
Lemma sort_unique (l1 l2 : list Position) : NoDup (p_key <$> l1) → l1 ≡ₚ l2 → merge_sort pos_le l1 = merge_sort pos_le l2.
Proof.
  intros Hnd Hp. apply (StronglySorted_unique_strong pos_le).
  - intros a b Ha Hb Hab Hba. rewrite merge_sort_Permutation in Ha, Hb. rewrite <- Hp in Hb.
    pose proof (pos_le_antisym a b Hab Hba) as Hk.
    apply list_elem_of_lookup in Ha as [i Hi]. apply list_elem_of_lookup in Hb as [j Hj].
    assert (i = j) as ->; [|congruence].
    eapply (NoDup_lookup (p_key <$> l1)); [done| |]; rewrite list_lookup_fmap; [by rewrite Hi|by rewrite Hj, Hk].
  - apply (StronglySorted_merge_sort _).
  - apply (StronglySorted_merge_sort _).
  - by rewrite !merge_sort_Permutation.
Qed.

Section tracker.
Context `{!PositionJSON}.

Definition pos_ok (p : Position) : Prop :=
  text_ok (p_Source p) ∧ p_Source p ≠ [] ∧ 0 ≤ p_Partition p ∧ 0 ≤ p_Offset p.

Lemma check_positions_ok ps : ∀ seen, Forall pos_ok ps → NoDup (p_key <$> ps) →
  (∀ p, p ∈ ps → p_key p ∉ seen) → check_positions seen ps = Ok tt.
Proof.
  induction ps as [|p ps IH]; intros seen Hok Hnd Hs; [done|]. cbn [check_positions].
  apply Forall_cons in Hok as [(_ & H1 & H2 & H3) Hok]. rewrite fmap_cons in Hnd. apply NoDup_cons in Hnd as [Hni Hnd].
  rewrite decide_False by (intros [?|[?|?]]; [done|lia|lia]).
  rewrite decide_False by (apply Hs; left). apply IH; [done|done|]. intros q Hq Hin.
  apply elem_of_union in Hin as [Hin%elem_of_singleton|Hin]; [|by apply (Hs q); [right|]].
  apply Hni. rewrite <- Hin. by apply list_elem_of_fmap_2.
Qed.

(** Decoding reads back what encoding wrote. *)
Lemma DecodePositions_Encode ps legacy : Forall pos_ok ps → NoDup (p_key <$> ps) →
  DecodePositions (EncodePositions ps) legacy = Ok (merge_sort pos_le ps).
Proof.
  intros Hok Hnd. set (s := merge_sort pos_le ps).
  assert (s ≡ₚ ps) as Hp by apply merge_sort_Permutation.
  assert (Forall pos_ok s) as Hok' by (by rewrite Hp).
  unfold DecodePositions, EncodePositions. fold s. rewrite envelope_roundtrip.
  - cbn [Version Positions]. rewrite decide_False by done. rewrite decide_True by done.
    rewrite check_positions_ok; [done|done|by rewrite Hp|set_solver].
  - cbn [Positions]. eapply Forall_impl; [exact Hok'|]. by intros p [? _].
Qed.

Lemma foldl_restore ps : ∀ t, NoDup (p_key <$> ps) →
  let t' := foldl restore_position t ps in
  (∀ k, consumed t' !! k = match list_find (λ p, p_key p = k) ps with Some (_, p) => Some (p_Offset p) | None => consumed t !! k end)
  ∧ (∀ k, restored t' !! k = match list_find (λ p, p_key p = k) ps with Some (_, p) => Some (p_Offset p) | None => restored t !! k end).
Proof.
  induction ps as [|p ps IH]; intros t Hnd; [done|]. rewrite fmap_cons in Hnd. apply NoDup_cons in Hnd as [Hni Hnd].
  cbn [foldl]. destruct (IH (restore_position t p) Hnd) as [H1 H2].
  assert (∀ k, p_key p = k → list_find (λ p, p_key p = k) ps = None) as Hno.
  { intros k <-. apply list_find_None. rewrite Forall_forall. intros q Hq E. apply Hni. rewrite <- E.
    by apply list_elem_of_fmap_2. }
  split; intros k; cbn [list_find]; [rewrite H1|rewrite H2]; (destruct (decide (p_key p = k)) as [E|E];
    [rewrite (Hno k E); simpl; by rewrite E, lookup_insert_eq
    |simpl; rewrite lookup_insert_ne by done; by destruct (list_find _ ps) as [[]|]]).
Qed.

(** Reading a map's positions back gives the map. *)
Lemma find_position (m : gmap PositionKey Z) ps k : ps ≡ₚ position_of <$> map_to_list m →
  match list_find (λ p, p_key p = k) ps with Some (_, p) => Some (p_Offset p) | None => None end = m !! k.
Proof.
  intros Hp. assert (∀ p, p ∈ ps → m !! p_key p = Some (p_Offset p)) as Hin.
  { intros p. rewrite Hp, list_elem_of_fmap. intros ([[src part] z] & -> & Hkv%elem_of_map_to_list). done. }
  destruct (list_find _ ps) as [[i p]|] eqn:E.
  - apply list_find_Some in E as (Hi & <- & _). apply list_elem_of_lookup_2 in Hi. by rewrite Hin.
  - apply list_find_None in E. destruct (m !! k) as [z|] eqn:Ez; [|done]. exfalso.
    assert (position_of (k, z) ∈ ps) as Hz.
    { rewrite Hp. apply list_elem_of_fmap_2. by apply elem_of_map_to_list. }
    rewrite Forall_forall in E. apply (E _ Hz). unfold p_key, position_of. by destruct k.
Qed.

Lemma positions_NoDup (m : gmap PositionKey Z) ps : ps ≡ₚ position_of <$> map_to_list m → NoDup (p_key <$> ps).
Proof.
  intros ->. rewrite <- list_fmap_compose. replace (p_key ∘ position_of <$> map_to_list m) with ((map_to_list m).*1).
  - apply NoDup_fst_map_to_list.
  - apply list_fmap_ext. intros _ [[src part] z] _. done.
Qed.
End tracker.

(** What a tracker may hold for its checkpoint to be readable. *)
Definition tracker_ok `{!PositionJSON} (t : offsetTracker) : Prop :=
  ∀ src part z, consumed t !! (src, part) = Some z → text_ok src ∧ src ≠ [] ∧ 0 ≤ part ∧ 0 ≤ z.

Definition ranges (range : gmap PositionKey Z → list (PositionKey * Z)) : Prop := ∀ m, range m ≡ₚ map_to_list m.

(** Restoring a tracker's checkpoint into a new tracker succeeds,
    brings back every consumed position as a seek target and as a position
    to checkpoint again, and the text of a checkpoint does not depend on the
    order maps are ranged over. *)
Theorem tracker_restores_snapshot `{!PositionJSON} range range' t legacySource :
  ranges range → ranges range' → tracker_ok t →
  ∃ t', restore newOffsetTracker (snapshot range t) legacySource = Ok t'
    ∧ consumed t' = consumed t ∧ restored t' = consumed t
    ∧ snapshot range' t' = snapshot range t.
Proof.
  intros Hr Hr' Hok. set (ps := position_of <$> range (consumed t)).
  assert (ps ≡ₚ position_of <$> map_to_list (consumed t)) as Hp by (unfold ps; by rewrite (Hr (consumed t))).
  assert (NoDup (p_key <$> ps)) as Hnd by (by eapply positions_NoDup).
  assert (Forall pos_ok ps) as Hpos.
  { rewrite Hp, Forall_forall. intros p ([[src part] z] & -> & Hkv%elem_of_map_to_list)%list_elem_of_fmap.
    apply Hok in Hkv. done. }
  set (s := merge_sort pos_le ps). assert (s ≡ₚ ps) as Hs by apply merge_sort_Permutation.
  assert (NoDup (p_key <$> s)) as Hnd' by (by rewrite Hs).
  unfold restore, snapshot. fold ps. rewrite DecodePositions_Encode by done. fold s. cbn [rbind].
  eexists. split; [done|]. destruct (foldl_restore s newOffsetTracker Hnd') as [H1 H2].
  assert (∀ k, match list_find (λ p, p_key p = k) s with Some (_, p) => Some (p_Offset p) | None => None end
               = consumed t !! k) as Hf by (intros k; apply find_position; by rewrite Hs).
  assert (consumed (foldl restore_position newOffsetTracker s) = consumed t) as Ec.
  { apply map_eq. intros k. rewrite H1, <- Hf. done. }
  split_and!; [done| |].
  - apply map_eq. intros k. rewrite H2, <- Hf. done.
  - rewrite Ec. unfold EncodePositions. do 2 f_equal. apply sort_unique.
    + eapply positions_NoDup. by rewrite (Hr' (consumed t)).
    + unfold ps. by rewrite (Hr (consumed t)), (Hr' (consumed t)).
Qed.

(** ** Partitions without records *)

(** The injector starts from no positions, so a checkpoint knows nothing of a
    partition that delivered no record since the start. *)

Lemma quiet_unpositioned positionOf pre k :
  (∀ r, r ∈ pre → IsWatermark r || IsBarrier r = false → positionKey positionOf r ≠ k) →
  positions positionOf pre !! k = None.
Proof.
  intros Hq. rewrite positions_lookup. replace (filter _ pre) with (@nil Record_); [done|]. symmetry.
  apply filter_none. rewrite Forall_forall. intros r Hr [Hm Hk]. by apply (Hq r).
Qed.

(** Decoding succeeds only with the positions that were encoded. *)
Lemma DecodePositions_sound `{!PositionJSON} ps legacy qs : Forall (λ p, text_ok (p_Source p)) ps →
  DecodePositions (EncodePositions ps) legacy = Ok qs → qs ≡ₚ ps.
Proof.
  intros Hok E. unfold DecodePositions, EncodePositions in E. rewrite envelope_roundtrip in E.
  - cbn [Version Positions] in E. rewrite decide_False in E by done. rewrite decide_True in E by done.
    apply rbind_Ok in E as (_ & _ & [= <-]). apply merge_sort_Permutation.
  - cbn [Positions]. by rewrite merge_sort_Permutation.
Qed.

Definition encode_positions `{!PositionJSON} (range : gmap PositionKey Z → list (PositionKey * Z)) (_ : bool) (m : gmap PositionKey Z) : option bytes :=
  Some (EncodePositions (position_of <$> range m)).

(** A partition that delivers no record in a run is absent from every
    checkpoint of that run, so a restart from it has no seek target for the
    partition even if the run itself had been restored with one. *)
Theorem quiet_partition_forgotten `{!PositionJSON} range E f accepts runNonce g evs pre id post data legacySource t k :
  ranges range → no_barriers evs → Z.of_nat (length evs) < 2 ^ 62 →
  (∀ r, r ∈ delivered evs → text_ok (f r).1 ∧ f r ≠ k) →
  let st := inject E (Some f) (encode_positions range) accepts runNonce (start_injector g) evs in
  out st = pre ++ NewBarrier id :: post → registered (eng st) id = Some data →
  restore newOffsetTracker data legacySource = Ok t →
  restoredOffset t k.1 k.2 = None.
Proof.
  intros Hr Hb Hl Hq st Eo Ed Et.
  assert (∀ r, r ∈ pre → IsWatermark r || IsBarrier r = false → r ∈ delivered evs) as Hpre.
  { intros r Hin [_ Hm]%orb_false_iff.
    destruct (inject_feeds E (Some f) (encode_positions range) accepts runNonce evs (start_injector g) Hb) as (l & Hp & El).
    change (data_of (out st) = l) in El. apply (elem_of_prefix l); [|done]. rewrite <- El, Eo.
    apply list_elem_of_filter. split; [done|]. set_solver. }
  set (m := positions (Some f) pre).
  assert (registered (eng st) id = Some (EncodePositions (position_of <$> range m))) as Er.
  { destruct (inject_aligned_start E (Some f) (encode_positions range) accepts runNonce g evs Hb Hl) as [_ Ha].
    destruct (Ha pre id post Eo) as (_ & _ & _ & _ & _ & Hreg). by apply Hreg. }
  rewrite Ed in Er. injection Er as ->. unfold restore in Et. apply rbind_Ok in Et as (qs & Eq & [= <-]).
  assert (position_of <$> range m ≡ₚ position_of <$> map_to_list m) as Hpm by (by rewrite (Hr m)).
  apply DecodePositions_sound in Eq.
  - assert (qs ≡ₚ position_of <$> map_to_list m) as Hqm by (by rewrite Eq).
    destruct (foldl_restore qs newOffsetTracker (positions_NoDup m qs Hqm)) as [_ H2].
    unfold restoredOffset. rewrite <- surjective_pairing, H2.
    pose proof (find_position m qs k Hqm) as Hf. unfold m in Hf.
    rewrite quiet_unpositioned in Hf; [by destruct (list_find _ qs) as [[]|]|].
    intros r Hin Hm. by apply Hq, Hpre.
  - rewrite Hpm, Forall_forall. intros p ([[src part] z] & -> & Hkv%elem_of_map_to_list)%list_elem_of_fmap.
    unfold m in Hkv. rewrite positions_lookup in Hkv. destruct (last _) as [r|] eqn:Elast; [|done].
    apply last_Some in Elast as [l' El]. assert (r ∈ l' ++ [r]) as Hin by set_solver. rewrite <- El in Hin.
    apply list_elem_of_filter in Hin as [[Hm Hk] Hin]. destruct (Hq r (Hpre r Hin Hm)) as [Ht _].
    cbn [positionKey] in Hk. rewrite Hk in Ht. exact Ht.
Qed.

(** ** A concrete codec *)

Definition env_tuple (e : positionEnvelope) : Z * list (bytes * Z * Z) :=
  (Version e, (λ p, (p_Source p, p_Partition p, p_Offset p)) <$> Positions e).
Definition env_of (x : Z * list (bytes * Z * Z)) : positionEnvelope :=
  mkEnvelope x.1 ((λ y, mkPosition y.1.1 y.1.2 y.2) <$> x.2).

Lemma env_of_tuple e : env_of (env_tuple e) = e.
Proof.
  destruct e as [v ps]. unfold env_of, env_tuple. simpl. f_equal. rewrite <- list_fmap_compose.
  rewrite <- (list_fmap_id ps) at 2. apply list_fmap_ext. by intros _ [] _.
Qed.

#[local] Program Instance demo_json : PositionJSON := {|
  marshal_envelope e := bytes_of_pos (encode (env_tuple e));
  unmarshal_envelope b := env_of <$> decode (pos_of_bytes b);
  unmarshal_legacy _ := None;
  text_ok _ := True
|}.
Next Obligation. intros e _. simpl. rewrite pos_of_bytes_of, decode_encode. simpl. by rewrite env_of_tuple. Qed.

Definition demo_tracker : offsetTracker :=
  trackMessage (trackMessage newOffsetTracker (mkMessage (bs "orders") 0 11 40)) (mkMessage (bs "orders") 1 6 7).

Lemma demo_tracker_ok : tracker_ok demo_tracker.
Proof.
  intros src part z. unfold demo_tracker, trackMessage, newOffsetTracker. cbn [consumed].
  rewrite !lookup_insert, lookup_empty. unfold m_key. cbn [m_Topic m_Partition m_Offset].
  repeat case_decide; simplify_eq; intros Hz; simplify_eq; split_and!; done.
Qed.

Lemma tracker_restores_snapshot_witness :
  ∃ t', restore newOffsetTracker (snapshot map_to_list demo_tracker) [] = Ok t'
    ∧ consumed t' = consumed demo_tracker ∧ restored t' = consumed demo_tracker
    ∧ snapshot (λ m, reverse (map_to_list m)) t' = snapshot map_to_list demo_tracker.
Proof.
  apply (tracker_restores_snapshot map_to_list (λ m, reverse (map_to_list m)) demo_tracker []).
  - by intros m.
  - intros m. apply reverse_Permutation.
  - exact demo_tracker_ok.
Defined.

(** Partition 0 delivers two records, partition 1 none. *)
Definition demo_kafka (off : Z) : Record_ := mkRecord (bs "k") (bs "v") 0 off 0 (bs "orders") ∅ false false [].
Definition demo_key (r : Record_) : PositionKey := (Source r, Partition r).
Definition demo_quiet : list ievent := [EvRecord (demo_kafka 4); EvRecord (demo_kafka 5); EvTick; EvClosed].

Definition demo_quiet_env : Coordinator.env :=
  Coordinator.mkEnv 3 (bs "job") (λ _ _, Coordinator.HookContinue) (λ _, Coordinator.Committed) true true true.

Definition demo_quiet_run : injector :=
  inject demo_quiet_env (Some demo_key) (encode_positions map_to_list) (λ _, true) 99
    (start_injector (mkEngine ∅ None [])) demo_quiet.

Definition demo_quiet_data : bytes := default [] (registered (eng demo_quiet_run) (bs "cp-99-1")).

Definition demo_quiet_tracker : offsetTracker :=
  match restore newOffsetTracker demo_quiet_data [] with Ok t => t | _ => newOffsetTracker end.

Lemma quiet_partition_forgotten_witness :
  restoredOffset demo_quiet_tracker (bs "orders") 0 = Some 6 ∧ restoredOffset demo_quiet_tracker (bs "orders") 1 = None.
Proof.
  split; [vm_compute; reflexivity|].
  refine (quiet_partition_forgotten map_to_list demo_quiet_env demo_key (λ _, true) 99 (mkEngine ∅ None []) demo_quiet
    [demo_kafka 4; demo_kafka 5] (bs "cp-99-1") [NewBarrier (bs "cp-99-2-final")] demo_quiet_data []
    demo_quiet_tracker (bs "orders", 1) _ _ _ _ _ _ _).
  - by intros m.
  - repeat constructor.
  - simpl. lia.
  - intros r Hr. assert (Forall (λ r, demo_key r = (bs "orders", 0)) (delivered demo_quiet)) as Hf by (by repeat constructor).
    rewrite Forall_forall in Hf. rewrite (Hf r Hr). done.
  - vm_compute. reflexivity.
  - vm_compute. reflexivity.
  - vm_compute. reflexivity.
Defined.
