(* ===== verification/Snapshots.v ===== *)
(** * Operator state in checkpoints ([src/engine.go])

    State captured when a barrier crosses an operator is kept per checkpoint
    ([addBarrierSnapshot]) until the barrier reaches the end of the pipeline,
    where the checkpoint's state is assembled ([collectSnapshots]).  On restart
    [restoreWorkersFromCheckpoint] gives each operator its part back.

    An operator is known by the interfaces the engine asks about and by what
    its snapshot calls return; what a restore does to it is a value of
    [restore_action].  Reading a state reference out of a snapshot's JSON is the
    parameter [state_ref]. *)

From S2P Require Import Prelude Rfc3339 Decimal Record Storage Injector.
From Stdlib Require Import Strings.Byte.

(** A snapshot as the map holds it; a nil slice is no state. *)
Definition snap := option bytes.

Record operator := mkOperator {
  op_reduce : bool;                    (* a [*ReduceOperator] *)
  op_native : option (result unit);    (* its backend is [Checkpointable]: what [CheckpointTo] returns *)
  op_snapshot : option (result bytes); (* it is [Snapshotable]: what [Snapshot] returns *)
  op_resettable : bool                 (* its backend is [Resettable] *)
}.

Section snapshots.
Context (state_ref : bytes → option bytes) (mk_ref : bytes → bytes).

(** [addBarrierSnapshot]; [stale] is the first other checkpoint the map's
    iteration meets. *)
Definition addBarrierSnapshot (stale : gmap bytes (gmap bytes snap) → bytes → option bytes)
    (m : gmap bytes (gmap bytes snap)) (id key : bytes) (v : snap) : gmap bytes (gmap bytes snap) :=
  match m !! id with
  | Some inner => <[id := <[key := v]> inner]> m
  | None =>
      let m := if (8 <? size m)%nat
               then match stale m id with Some old => delete old m | None => m end else m in
      <[id := {[key := v]}]> m
  end.

(** [snapshotOrCheckpoint] *)
Definition snapshotOrCheckpoint (owner : bytes) (op : operator) : snap :=
  let serialized := match op_snapshot op with Some (Ok b) => Some b | _ => None end in
  if op_reduce op then
    match op_native op with
    | Some (Ok _) => Some (mk_ref owner)
    | Some _ => None
    | None => serialized
    end
  else serialized.

Definition op_key (i : Z) : bytes := bs "op-" ++ FormatInt i.
Definition worker_key (i : Z) : bytes := bs "worker-" ++ FormatInt i.

(** One loop of [collectSnapshots]: operators without a barrier snapshot. *)
Fixpoint fill (name : Z → bytes) (i : Z) (ops : list operator) (m : gmap bytes snap) : gmap bytes snap :=
  match ops with
  | [] => m
  | op :: ops' =>
      let m := match m !! name i with
               | Some _ => m
               | None => <[name i := snapshotOrCheckpoint (name i) op]> m
               end in
      fill name (i + 1) ops' m
  end.

(** The reference a snapshot holds. *)
Definition ref_of (v : snap) : option bytes :=
  match v with
  | Some b => match state_ref b with Some r => if decide (r = []) then None else Some r | None => None end
  | None => None
  end.

(** [extractStateDirs] *)
Definition extractStateDirs (m : gmap bytes snap) : gmap bytes snap * gmap bytes bytes :=
  ((λ v, match ref_of v with Some _ => None | None => v end) <$> m,
   foldr (λ kv d, match ref_of kv.2 with Some r => <[r := kv.1]> d | None => d end) ∅ (map_to_list m)).

(** The snapshots of a checkpoint, before references are taken out. *)
Definition assemble (m : gmap bytes (gmap bytes snap)) (id : bytes) (join : option operator)
    (ops workers : list operator) : gmap bytes snap :=
  let snaps := default ∅ (m !! id) in
  let snaps := match join with
               | Some j => match snaps !! bs "join-0" with
                           | Some _ => snaps
                           | None => <[bs "join-0" := snapshotOrCheckpoint (bs "join-0") j]> snaps
                           end
               | None => snaps
               end in
  fill worker_key 0 workers (fill op_key 0 ops snaps).

(** [collectSnapshots]: the snapshots and state directories of a checkpoint,
    and the map without them. *)
Definition collectSnapshots (m : gmap bytes (gmap bytes snap)) (id : bytes) (join : option operator)
    (ops workers : list operator) : gmap bytes snap * gmap bytes bytes * gmap bytes (gmap bytes snap) :=
  (extractStateDirs (assemble m id join ops workers), delete id m).

(** ** Restoring *)

(** What a restore does to an operator. *)
Inductive restore_action :=
| RNative (dir : bytes)
| RInline (state : bytes)
| RReset
| RKeep.

(** [resetOperatorState] *)
Definition resetOperatorState (op : operator) : restore_action := if op_resettable op then RReset else RKeep.

(** [restoreOperatorState] on a checkpoint's snapshots and state directories. *)
Definition restoreOperatorState (snaps : gmap bytes snap) (dirs : gmap bytes bytes) (key : bytes) (op : operator)
    : restore_action :=
  let inline :=
    match op_snapshot op, snaps !! key with
    | Some _, Some (Some (b :: bs)) => RInline (b :: bs)
    | _, _ => resetOperatorState op
    end in
  match dirs !! key, op_native op with
  | Some dir, Some _ => RNative dir
  | _, _ => inline
  end.

(** [restoreWorkersFromCheckpoint] *)
Fixpoint restore_all (name : Z → bytes) (i : Z) (snaps : gmap bytes snap) (dirs : gmap bytes bytes)
    (ops : list operator) : list restore_action :=
  match ops with
  | [] => []
  | op :: ops' => restoreOperatorState snaps dirs (name i) op :: restore_all name (i + 1) snaps dirs ops'
  end.
Definition restoreWorkersFromCheckpoint (snaps : gmap bytes snap) (dirs : gmap bytes bytes)
    (ops workers : list operator) : list restore_action :=
  restore_all op_key 0 snaps dirs ops ++ restore_all worker_key 0 snaps dirs workers.

(** ** Every operator gets its own state back *)

(** Snapshots refer to their own owner's directory, as [wireNativeSnapshot]
    writes them. *)
Definition own_refs (m : gmap bytes snap) : Prop := ∀ k v r, m !! k = Some v → ref_of v = Some r → r = k.

(** What an operator is owed for its snapshot. *)
Definition owed_action (op : operator) (key : bytes) (v : snap) : restore_action :=
  match ref_of v, v with
  | Some _, _ => match op_native op with Some _ => RNative key | None => resetOperatorState op end
  | None, Some (b :: bs) => match op_snapshot op with Some _ => RInline (b :: bs) | None => resetOperatorState op end
  | None, _ => resetOperatorState op
  end.

Lemma extract_dirs m k : own_refs m →
  (extractStateDirs m).2 !! k = match m !! k with Some v => match ref_of v with Some _ => Some k | None => None end | None => None end.
Proof.
  intros Ho. unfold extractStateDirs. cbn [snd].
  assert (∀ l : list (bytes * snap), (∀ kv, kv ∈ l → ∀ r, ref_of kv.2 = Some r → r = kv.1) → NoDup l.*1 →
    foldr (λ kv d, match ref_of kv.2 with Some r => <[r := kv.1]> d | None => d end) (∅ : gmap bytes bytes) l !! k
    = match list_find (λ kv, kv.1 = k) l with
      | Some (_, kv) => match ref_of kv.2 with Some _ => Some k | None => None end
      | None => None
      end) as Hf.
  { induction l as [|[k' v] l IH]; intros Hr Hnd; [apply lookup_empty|]. apply NoDup_cons in Hnd as [Hni Hnd].
    specialize (IH ltac:(intros; eapply Hr; [by right|done]) Hnd). cbn [foldr list_find snd fst].
    pose proof (Hr (k', v) ltac:(left)) as Hv. cbn [snd fst] in Hv.
    destruct (decide (k' = k)) as [->|Hne].
    - assert (list_find (λ kv, kv.1 = k) l = None) as Hno.
      { apply list_find_None. rewrite Forall_forall. intros kv Hin E. apply Hni. rewrite <- E. change (kv.1 ∈ l.*1). by apply (list_elem_of_fmap_2 fst). }
      rewrite Hno in IH. cbn [snd]. destruct (ref_of v) as [r|]; [|done]. rewrite (Hv r eq_refl). by rewrite lookup_insert_eq.
    - destruct (ref_of v) as [r|]; [rewrite (Hv r eq_refl), lookup_insert_ne by done|];
        rewrite IH; by destruct (list_find _ l) as [[]|]. }
  rewrite Hf.
  - destruct (list_find _ _) as [[i [k' v]]|] eqn:E.
    + apply list_find_Some in E as (Hi & Hk & _). cbn [fst] in Hk. subst k'.
      apply list_elem_of_lookup_2, elem_of_map_to_list in Hi. by rewrite Hi.
    + apply list_find_None in E. destruct (m !! k) as [v|] eqn:Ev; [|done]. exfalso.
      rewrite Forall_forall in E. by apply (E (k, v)); [apply elem_of_map_to_list|].
  - intros [k' v] Hin%elem_of_map_to_list r. cbn [snd fst]. by apply Ho.
  - apply NoDup_fst_map_to_list.
Qed.

(** Restoring the assembled checkpoint gives an operator what its own
    snapshot holds. *)
Lemma restore_extracted m key op v : own_refs m → m !! key = Some v →
  restoreOperatorState (extractStateDirs m).1 (extractStateDirs m).2 key op = owed_action op key v.
Proof.
  intros Ho Hk. unfold restoreOperatorState. rewrite (extract_dirs m key Ho), Hk.
  assert ((extractStateDirs m).1 !! key = Some (match ref_of v with Some _ => None | None => v end)) as ->.
  { unfold extractStateDirs. cbn [fst]. by rewrite lookup_fmap, Hk. }
  unfold owed_action. destruct (ref_of v) as [r|], v as [[|b l]|], (op_native op), (op_snapshot op); done.
Qed.

Lemma restore_all_extracted m name i ops : own_refs m →
  (∀ j op, ops !! j = Some op → is_Some (m !! name (i + Z.of_nat j))) →
  restore_all name i (extractStateDirs m).1 (extractStateDirs m).2 ops
  = imap (λ j op, owed_action op (name (i + Z.of_nat j)) (default None (m !! name (i + Z.of_nat j)))) ops.
Proof.
  intros Ho. revert i. induction ops as [|op ops IH]; intros i Hc; [done|]. cbn [restore_all]. rewrite imap_cons.
  destruct (Hc 0%nat op eq_refl) as [v Hv]. assert (i + Z.of_nat 0 = i) as Ei by lia. rewrite Ei in Hv.
  rewrite (restore_extracted m (name i) op v Ho Hv). f_equal.
  { rewrite Ei. unfold snap in *. by rewrite Hv. }
  rewrite IH.
  - apply imap_ext. intros j op' _. cbn [compose]. by replace (i + 1 + Z.of_nat j) with (i + Z.of_nat (S j)) by lia.
  - intros j op' Hj. replace (i + 1 + Z.of_nat j) with (i + Z.of_nat (S j)) by lia. by apply (Hc (S j) op').
Qed.

(** ** Assembling *)

Lemma fill_keeps name i ops m k v : m !! k = Some v → fill name i ops m !! k = Some v.
Proof.
  revert i m. induction ops as [|op ops IH]; intros i m Hk; [done|]. cbn [fill]. apply IH.
  destruct (m !! name i) eqn:E; [done|]. rewrite lookup_insert_ne; [done|]. intros E'. rewrite E' in E. congruence.
Qed.

Lemma fill_covers name ops : ∀ i m j op, ops !! j = Some op → is_Some (fill name i ops m !! name (i + Z.of_nat j)).
Proof.
  induction ops as [|op0 ops IH]; intros i m j op Hj; [done|]. cbn [fill]. destruct j as [|j].
  - replace (i + Z.of_nat 0) with i by lia. destruct (m !! name i) as [v|] eqn:E.
    + exists v. by apply fill_keeps.
    + eexists. apply fill_keeps. by rewrite lookup_insert_eq.
  - replace (i + Z.of_nat (S j)) with (i + 1 + Z.of_nat j) by lia. by eapply IH.
Qed.

Lemma assemble_keeps m id join ops workers k v : default ∅ (m !! id) !! k = Some v →
  assemble m id join ops workers !! k = Some v.
Proof.
  intros Hk. unfold assemble. do 2 apply fill_keeps. destruct join as [j|]; [|done].
  destruct (default ∅ (m !! id) !! bs "join-0") eqn:E; [done|]. rewrite lookup_insert_ne; [done|].
  intros E'. rewrite E' in E. congruence.
Qed.
End snapshots.

(** C36: When state references name their own owner, restoring an assembled
    checkpoint gives every operator and worker what its own snapshot holds:
    its native directory, its serialized state, or a reset; a snapshot
    delivered with the barrier is never replaced, and the assembled
    checkpoint's snapshots are forgotten. *)
Theorem collected_state_restored state_ref mk_ref m id join ops workers :
  let all := assemble mk_ref m id join ops workers in
  own_refs state_ref all →
  let '(snaps, dirs, m') := collectSnapshots state_ref mk_ref m id join ops workers in
  restoreWorkersFromCheckpoint snaps dirs ops workers
  = imap (λ j op, owed_action state_ref op (op_key (Z.of_nat j)) (default None (all !! op_key (Z.of_nat j)))) ops
    ++ imap (λ j op, owed_action state_ref op (worker_key (Z.of_nat j)) (default None (all !! worker_key (Z.of_nat j)))) workers
  ∧ (∀ k v, default ∅ (m !! id) !! k = Some v → all !! k = Some v)
  ∧ m' !! id = None.
Proof.
  intros all Ho. unfold collectSnapshots. fold all. rewrite (surjective_pairing (extractStateDirs state_ref all)).
  split_and!; [|intros; by apply assemble_keeps|apply lookup_delete_eq].
  unfold restoreWorkersFromCheckpoint.
  rewrite (restore_all_extracted state_ref all op_key 0 ops Ho), (restore_all_extracted state_ref all worker_key 0 workers Ho).
  - done.
  - intros j op Hj. unfold all, assemble. by eapply fill_covers.
  - intros j op Hj. unfold all, assemble.
    destruct (fill_covers mk_ref op_key ops 0 (match join with
      | Some j => match default ∅ (m !! id) !! bs "join-0" with
                  | Some _ => default ∅ (m !! id)
                  | None => <[bs "join-0" := snapshotOrCheckpoint mk_ref (bs "join-0") j]> (default ∅ (m !! id))
                  end
      | None => default ∅ (m !! id) end) j op Hj) as [v Hv].
    exists v. by apply fill_keeps.
Qed.

(** ** A concrete pipeline *)

(** References are marked by a leading [@]. *)
Definition demo_mk_ref (k : bytes) : bytes := x40 :: k.
Definition demo_state_ref (b : bytes) : option bytes :=
  match b with c :: k => if decide (c = x40) then Some k else None | [] => None end.

(** A serialized reduce and two workers, the second with a native backend. *)
Definition demo_ops : list operator := [mkOperator true None (Some (Ok (bs "sum"))) true].
Definition demo_workers : list operator :=
  [mkOperator false None (Some (Ok (bs "late"))) true; mkOperator true (Some (Ok tt)) (Some (Ok (bs "w1"))) true].

(** The first worker's snapshot came with the barrier. *)
Definition demo_snaps : gmap bytes (gmap bytes snap) := {[bs "cp" := {[bs "worker-0" := Some (bs "early")]}]}.

Lemma demo_own_refs : own_refs demo_state_ref (assemble demo_mk_ref demo_snaps (bs "cp") None demo_ops demo_workers).
Proof.
  assert (map_Forall (λ k v, ref_of demo_state_ref v = Some k ∨ ref_of demo_state_ref v = None)
    (assemble demo_mk_ref demo_snaps (bs "cp") None demo_ops demo_workers)) as Hm.
  { apply (bool_decide_unpack _). vm_compute. exact I. }
  intros k v r Hk Hr. specialize (Hm k v Hk). cbn beta in Hm. rewrite Hr in Hm. destruct Hm; congruence.
Qed.

Lemma collected_state_restored_witness :
  let '(snaps, dirs, _) := collectSnapshots demo_state_ref demo_mk_ref demo_snaps (bs "cp") None demo_ops demo_workers in
  restoreWorkersFromCheckpoint snaps dirs demo_ops demo_workers
  = [RInline (bs "sum"); RInline (bs "early"); RNative (bs "worker-1")].
Proof.
  exact (proj1 (collected_state_restored demo_state_ref demo_mk_ref demo_snaps (bs "cp") None demo_ops demo_workers demo_own_refs)).
Defined.


(** ** More than nine checkpoints on their way *)

(** The first other checkpoint of an iteration. *)
Definition demo_stale (m : gmap bytes (gmap bytes snap)) (id : bytes) : option bytes := head (filter (λ k, k ≠ id) (map_to_list m).*1).

(** Ten barriers have passed an operator and none has reached the sink: the
    state captured with one of them is gone, and its checkpoint takes the state
    the operator has by then. *)
Example captured_state_evicted :
  let ids := (λ i, bs "cp-" ++ FormatInt i) <$> seqZ 0 10 in
  let m := foldl (λ m i, addBarrierSnapshot demo_stale m i (op_key 0) (Some (bs "early"))) ∅ ids in
  ∃ id, id ∈ ids ∧ m !! id = None
    ∧ (collectSnapshots demo_state_ref demo_mk_ref m id None [mkOperator true None (Some (Ok (bs "late"))) true] []).1.1 !! op_key 0 = Some (Some (bs "late")).
Proof.
  intros ids m. set (gone := head (filter (λ i, m !! i = None) ids)).
  assert (is_Some gone) as [id Hid] by (vm_compute; eauto). exists id.
  assert (id ∈ filter (λ i, m !! i = None) ids) as Hin by (by apply head_Some_elem_of).
  apply list_elem_of_filter in Hin as [Hm Hin]. split_and!; [done|done|].
  unfold collectSnapshots, assemble. rewrite Hm. vm_compute. reflexivity.
Qed.
