(* ===== verification/Planner.v ===== *)
(** * The planner ([src/pipeline/planner.go], [NewKeyedStage] of [src/pipeline/keyed_stage.go])

    [BuildPlan] groups the flat operator list into stages.  An operator is
    described by the interfaces the planner asks about; wiring an operator
    records the owner under which its backend, native snapshot and barrier
    snapshot are registered.  The state-backend factory is a parameter. *)

From S2P Require Import Prelude Rfc3339 Decimal.

(** An operator, by the answers to the planner's type assertions. *)
Record Op := mkOp {
  o_name : bytes;
  o_router : option Z;            (* a KeyBy router and its [Partitions] *)
  o_single : bool;                (* [SingleProcessor] *)
  o_parallel : option Z;          (* [Parallel] *)
  o_cloneable : bool;             (* [Cloneable] *)
  o_configurable : bool;          (* [StateConfigurable] *)
  o_native : bool;                (* [NativeSnapshotter] *)
  o_checkpointable : bool;        (* its own backend is [Checkpointable] *)
  o_barrier : bool                (* [BarrierSnapshotter] *)
}.

(** An operator instance after wiring. *)
Record wired := mkWired {
  w_op : Op;
  w_backend : option bytes;
  w_native : option bytes;
  w_snapshot : option bytes
}.

(** [StageHooks]; a created backend is known by whether it is [Checkpointable]. *)
Record StageHooks := mkHooks {
  hasOnClone : bool;
  hasOnSnapshot : bool;
  StateBackendFor : option (bytes → result bool);
  hasNativeStateDir : bool
}.

Inductive Stage :=
| SourceStage
| StatelessStage (name : bytes) (ops : list Op) (labels : list bytes) (par : Z)
| KeyedStage (name : bytes) (kb : Op) (workers : list (list wired))
| ChannelStage (name : bytes) (op : wired) (label : bytes)
| SinkStage.

Section planner.
Context (H : StageHooks).

(** [assignBackend]: the owner of the injected backend, and whether the
    backend the operator now has is checkpointable. *)
Definition assignBackend (op : Op) (owner : bytes) : result (option bytes * bool) :=
  match o_configurable op, StateBackendFor H with
  | true, Some mk =>
      match mk owner with
      | Ok cp => Ok (Some owner, cp)
      | Err e => Err (bs "pipeline: state backend for " ++ owner ++ bs ": " ++ e)
      | Panic e => Panic e
      end
  | _, _ => Ok (None, o_checkpointable op)
  end.

(** [wireNativeSnapshot] *)
Definition wireNativeSnapshot (op : Op) (cp : bool) (owner : bytes) : option bytes :=
  if hasNativeStateDir H && o_native op && cp then Some owner else None.

(** [SetBarrierSnapshot] *)
Definition wireSnapshot (op : Op) (owner : bytes) : option bytes :=
  if o_barrier op && hasOnSnapshot H then Some owner else None.

Definition wire (op : Op) (owner : bytes) : result wired :=
  b <-? assignBackend op owner ;;
  Ok (mkWired op b.1 (wireNativeSnapshot op b.2 owner) (wireSnapshot op owner)).

(** One clone; [next] is the engine's number of clones so far, which
    [OnClone] returns. *)
Definition clone_one (next : Z) (op : Op) : result (wired * Z) :=
  if hasOnClone H
  then w <-? wire op (bs "worker-" ++ FormatInt next) ;; Ok (w, next + 1)
  else Ok (mkWired op None None None, next).

Fixpoint clone_chain (next : Z) (ops : list Op) : result (list wired * Z) :=
  match ops with
  | [] => Ok ([], next)
  | op :: ops' =>
      w <-? clone_one next op ;;
      r <-? clone_chain w.2 ops' ;;
      Ok (w.1 :: r.1, r.2)
  end.

(** [NewKeyedStage]: one chain of clones per partition. *)
Fixpoint NewKeyedStage (next : Z) (partitions : nat) (ops : list Op) : result (list (list wired) * Z) :=
  match partitions with
  | O => Ok ([], next)
  | S n =>
      c <-? clone_chain next ops ;;
      r <-? NewKeyedStage c.2 n ops ;;
      Ok (c.1 :: r.1, r.2)
  end.

(** [takeStateful] *)
Fixpoint takeStateful (ops : list Op) : list Op :=
  match ops with
  | op :: ops' => if o_cloneable op then op :: takeStateful ops' else []
  | [] => []
  end.

(** The variables of [BuildPlan]'s loop. *)
Record plan := mkPlan {
  stages : list Stage;
  group : list Op;
  groupLabels : list bytes;
  groupPar : Z;
  statelessCount : Z;
  keyedCount : Z;
  channelCount : Z;
  clones : Z
}.

(** [flush] *)
Definition flush (p : plan) : plan :=
  match group p with
  | [] => p
  | _ => mkPlan (stages p ++ [StatelessStage (bs "stateless-" ++ FormatInt (statelessCount p))
                                (group p) (groupLabels p) (groupPar p)])
           [] [] (groupPar p) (statelessCount p + 1) (keyedCount p) (channelCount p) (clones p)
  end.

(** A KeyBy router and the stateful operators after it. *)
Definition plan_keyed (p : plan) (op : Op) (parts : Z) (rest : list Op) : result plan :=
  if parts <=? 0 then Err (bs "pipeline: KeyBy partitions must be > 0, got " ++ FormatInt parts)
  else
    let p := flush p in
    ks <-? NewKeyedStage (clones p) (Z.to_nat parts) (takeStateful rest) ;;
    Ok (mkPlan (stages p ++ [KeyedStage (bs "keyed-" ++ FormatInt (keyedCount p)) op ks.1])
          (group p) (groupLabels p) (groupPar p) (statelessCount p) (keyedCount p + 1) (channelCount p) ks.2).

(** A stateless operator joins the open group unless its parallelism differs. *)
Definition plan_single (p : plan) (op : Op) (label : bytes) : plan :=
  let par := default 1 (o_parallel op) in
  let p := if decide (group p ≠ [] ∧ par ≠ groupPar p) then flush p else p in
  mkPlan (stages p) (group p ++ [op]) (groupLabels p ++ [label]) par
    (statelessCount p) (keyedCount p) (channelCount p) (clones p).

(** Any other operator runs alone. *)
Definition plan_channel (p : plan) (i : Z) (op : Op) (label : bytes) : result plan :=
  let p := flush p in
  w <-? wire op (bs "op-" ++ FormatInt i) ;;
  Ok (mkPlan (stages p ++ [ChannelStage (bs "op-" ++ o_name op ++ bs "-" ++ FormatInt (channelCount p)) w label])
        (group p) (groupLabels p) (groupPar p) (statelessCount p) (keyedCount p) (channelCount p + 1) (clones p)).

(** The loop; [skip] operators were consumed by a keyed stage. *)
Fixpoint plan_loop (p : plan) (i : Z) (skip : nat) (ops : list Op) (labels : list bytes) : result plan :=
  match ops with
  | [] => Ok p
  | op :: ops' =>
      match skip with
      | S k => plan_loop p (i + 1) k ops' (tail labels)
      | O =>
          match o_router op with
          | Some parts =>
              p <-? plan_keyed p op parts ops' ;;
              plan_loop p (i + 1) (length (takeStateful ops')) ops' (tail labels)
          | None =>
              let label := default [] (head labels) in
              if o_single op then plan_loop (plan_single p op label) (i + 1) 0 ops' (tail labels)
              else
                p <-? plan_channel p i op label ;;
                plan_loop p (i + 1) 0 ops' (tail labels)
          end
      end
  end.

(** [BuildPlan] *)
Definition BuildPlan (hasSource hasSink : bool) (ops : list Op) (labels : list bytes) : result (list Stage) :=
  if negb hasSource then Err (bs "pipeline: plan has no source")
  else if negb hasSink then Err (bs "pipeline: plan has no sink")
  else if negb (length labels =? length ops)%nat
  then Err (bs "pipeline: " ++ FormatInt (Z.of_nat (length labels)) ++ bs " labels for "
            ++ FormatInt (Z.of_nat (length ops)) ++ bs " operators")
  else
    p <-? plan_loop (mkPlan [SourceStage] [] [] 1 0 0 0 0) 0 0 ops labels ;;
    Ok (stages (flush p) ++ [SinkStage]).
End planner.

(** ** What a plan contains *)

(** The operators a stage runs, in order; a keyed stage runs its router and
    one chain of clones per partition. *)
Definition stage_ops (s : Stage) : list Op :=
  match s with
  | SourceStage | SinkStage => []
  | StatelessStage _ ops _ _ => ops
  | KeyedStage _ kb workers => kb :: (w_op <$> default [] (head workers))
  | ChannelStage _ w _ => [w_op w]
  end.

Definition op_par (op : Op) : Z := default 1 (o_parallel op).

(** A stage is what its kind promises. *)
Definition stage_ok (s : Stage) : Prop :=
  match s with
  | SourceStage | SinkStage => False
  | StatelessStage _ ops labels par =>
      ops ≠ [] ∧ length labels = length ops
      ∧ Forall (λ op, o_router op = None ∧ o_single op = true ∧ op_par op = par) ops
  | KeyedStage _ kb workers =>
      ∃ parts ops, o_router kb = Some parts ∧ 0 < parts ∧ length workers = Z.to_nat parts
        ∧ Forall (λ op, o_cloneable op = true) ops
        ∧ Forall (λ chain, w_op <$> chain = ops) workers
  | ChannelStage _ w _ => o_router (w_op w) = None ∧ o_single (w_op w) = false
  end.

Section plans.
Context (H : StageHooks).

Lemma clone_chain_ops next ops r : clone_chain H next ops = Ok r → w_op <$> r.1 = ops.
Proof.
  revert next r. induction ops as [|op ops IH]; intros next r E; cbn [clone_chain] in E; [by simplify_eq|].
  apply rbind_Ok in E as ([w n] & Ew & E). apply rbind_Ok in E as ([ws m] & Es & E). simplify_eq.
  apply IH in Es. cbn [fst snd] in *. rewrite fmap_cons, Es. f_equal. unfold clone_one in Ew.
  destruct (hasOnClone H); [|by simplify_eq]. apply rbind_Ok in Ew as (w' & Ew & E). simplify_eq.
  unfold wire in Ew. apply rbind_Ok in Ew as (b & _ & E). by simplify_eq.
Qed.

Lemma NewKeyedStage_ops next n ops r : NewKeyedStage H next n ops = Ok r →
  length r.1 = n ∧ Forall (λ chain, w_op <$> chain = ops) r.1.
Proof.
  revert next r. induction n as [|n IH]; intros next r E; cbn [NewKeyedStage] in E; [by simplify_eq|].
  apply rbind_Ok in E as (c & Ec & E). apply rbind_Ok in E as (r' & Er & E). simplify_eq.
  apply IH in Er as [Hl Hf]. apply clone_chain_ops in Ec. cbn [fst length]. split; [by rewrite Hl|by constructor].
Qed.

Lemma takeStateful_prefix ops : ∃ rest, ops = takeStateful ops ++ rest ∧ Forall (λ op, o_cloneable op = true) (takeStateful ops).
Proof.
  induction ops as [|op ops (rest & E & Hf)]; [by exists []|]. cbn [takeStateful].
  destruct (o_cloneable op) eqn:Ec; [|by exists (op :: ops)]. exists rest. split; [by rewrite <- app_comm_cons, <- E|by constructor].
Qed.

(** The loop's invariant: [placed] are the operators placed so far. *)
Record plan_ok (p : plan) (placed : list Op) : Prop := {
  po_stages : ∃ mid, stages p = SourceStage :: mid ∧ Forall stage_ok mid
              ∧ placed = concat (stage_ops <$> mid) ++ group p;
  po_labels : length (groupLabels p) = length (group p);
  po_group : Forall (λ op, o_router op = None ∧ o_single op = true ∧ op_par op = groupPar p) (group p)
}.

Lemma plan_snoc p p' s placed : plan_ok p placed → group p = [] → stages p' = stages p ++ [s] → stage_ok s →
  group p' = [] → groupLabels p' = [] → plan_ok p' (placed ++ stage_ops s).
Proof.
  intros [(mid & Es & Hf & ->) Hl Hg] Eg Es' Hs Eg' El'. split.
  - exists (mid ++ [s]). rewrite Es', Es, Eg, Eg'. split_and!; [done|apply Forall_app; by repeat constructor|].
    rewrite !app_nil_r, fmap_app, concat_app. cbn [fmap list_fmap concat]. by rewrite app_nil_r.
  - by rewrite Eg', El'.
  - rewrite Eg'. constructor.
Qed.

Lemma flush_ok p placed : plan_ok p placed → plan_ok (flush p) placed ∧ group (flush p) = [] ∧ groupLabels (flush p) = [].
Proof.
  intros Hp. pose proof Hp as [(mid & Es & Hf & ->) Hl Hg]. unfold flush. destruct (group p) as [|op g] eqn:Eg.
  - split_and!; [done|done|]. by destruct (groupLabels p).
  - split_and!; [|done|done]. rewrite <- Eg in *. split; [|done|constructor]. cbn [stages group].
    exists (mid ++ [StatelessStage (bs "stateless-" ++ FormatInt (statelessCount p)) (group p) (groupLabels p) (groupPar p)]).
    rewrite Es. split_and!; [done| |].
    + apply Forall_app. split; [done|]. constructor; [|constructor]. split_and!; [by rewrite Eg|done|done].
    + rewrite fmap_app, concat_app. cbn [fmap list_fmap concat stage_ops]. by rewrite !app_nil_r.
Qed.

Lemma plan_keyed_ok p placed op parts rest p' : o_router op = Some parts → plan_ok p placed →
  plan_keyed H p op parts rest = Ok p' → plan_ok p' (placed ++ op :: takeStateful rest).
Proof.
  intros Hr Hp E. unfold plan_keyed in E. destruct (Z.leb_spec parts 0); [done|].
  apply flush_ok in Hp as (Hp & Eg & El). apply rbind_Ok in E as (ks & Ek & E). simplify_eq.
  apply NewKeyedStage_ops in Ek as [Hlen Hf]. destruct (takeStateful_prefix rest) as (_ & _ & Hc).
  assert (stage_ops (KeyedStage (bs "keyed-" ++ FormatInt (keyedCount (flush p))) op ks.1) = op :: takeStateful rest) as Eo.
  { cbn [stage_ops]. f_equal. destruct ks.1 as [|chain chains]; [simpl in Hlen; lia|]. by apply Forall_cons in Hf as [? _]. }
  rewrite <- Eo. eapply (plan_snoc (flush p)); try done. exists parts, (takeStateful rest). done.
Qed.

Lemma plan_single_ok p placed op label : o_router op = None → o_single op = true → plan_ok p placed →
  plan_ok (plan_single p op label) (placed ++ [op]).
Proof.
  intros Hr Hs Hp. unfold plan_single. fold (op_par op).
  set (p1 := if decide _ then _ else _).
  assert (plan_ok p1 placed ∧ (group p1 ≠ [] → groupPar p1 = op_par op)) as [Hp1 Hpar].
  { unfold p1. case_decide as Hd.
    - apply flush_ok in Hp as (? & Eg & _). split; [done|]. by rewrite Eg.
    - split; [done|]. intros Hg. destruct (decide (op_par op = groupPar p)); [done|]. by destruct Hd. }
  destruct Hp1 as [(mid & Es & Hf & ->) Hl Hg]. split; cbn [stages group groupLabels groupPar].
  - exists mid. split_and!; [done|done|]. by rewrite app_assoc.
  - rewrite !length_app. simpl. lia.
  - apply Forall_app. split; [|by repeat constructor].
    destruct (group p1) as [|x g] eqn:Eg; [constructor|]. rewrite (Hpar ltac:(done)) in Hg. done.
Qed.

Lemma plan_channel_ok p placed i op label p' : o_router op = None → o_single op = false → plan_ok p placed →
  plan_channel H p i op label = Ok p' → plan_ok p' (placed ++ [op]).
Proof.
  intros Hr Hs Hp E. unfold plan_channel in E. apply flush_ok in Hp as (Hp & Eg & El).
  apply rbind_Ok in E as (w & Ew & E). simplify_eq. unfold wire in Ew. apply rbind_Ok in Ew as (b & _ & E). simplify_eq.
  eapply (plan_snoc (flush p) _ (ChannelStage _ (mkWired op _ _ _) _)); try done.
Qed.

Lemma plan_loop_ok ops : ∀ p i skip labels placed p',
  plan_ok p (placed ++ take skip ops) → plan_loop H p i skip ops labels = Ok p' → plan_ok p' (placed ++ ops).
Proof.
  induction ops as [|op ops IH]; intros p i skip labels placed p' Hp E.
  - rewrite take_nil in Hp. by simplify_eq/=.
  - cbn [plan_loop] in E. replace (placed ++ op :: ops) with ((placed ++ [op]) ++ ops) by by rewrite <- app_assoc.
    destruct skip as [|k].
    + rewrite take_0, app_nil_r in Hp. destruct (o_router op) as [parts|] eqn:Er.
      * apply rbind_Ok in E as (p1 & Ep & E). apply (plan_keyed_ok _ placed) in Ep; [|done|done].
        eapply IH; [|exact E]. destruct (takeStateful_prefix ops) as (rest & Eo & _).
        rewrite <- app_assoc. cbn [app]. rewrite Eo at 2. by rewrite take_app_length.
      * destruct (o_single op) eqn:Es.
        -- eapply IH; [|exact E]. rewrite take_0, app_nil_r. by apply plan_single_ok.
        -- apply rbind_Ok in E as (p1 & Ep & E). eapply IH; [|exact E]. rewrite take_0, app_nil_r.
           by eapply plan_channel_ok.
    + eapply IH; [|exact E]. cbn [take] in Hp. by rewrite <- app_assoc.
Qed.

(** The backend factory succeeds. *)
Definition backends_ok : Prop := ∀ mk owner, StateBackendFor H = Some mk → ∃ cp, mk owner = Ok cp.

Context (Hb : backends_ok).

Lemma wire_total op owner : ∃ w, wire H op owner = Ok w.
Proof.
  unfold wire, assignBackend. destruct (o_configurable op), (StateBackendFor H) as [mk|] eqn:Em; try by eexists.
  destruct (Hb mk owner Em) as [cp ->]. by eexists.
Qed.

Lemma clone_chain_total next ops : ∃ r, clone_chain H next ops = Ok r.
Proof.
  revert next. induction ops as [|op ops IH]; intros next; [by eexists|]. cbn [clone_chain].
  assert (∃ w, clone_one H next op = Ok w) as [w ->].
  { unfold clone_one. destruct (hasOnClone H); [|by eexists].
    destruct (wire_total op (bs "worker-" ++ FormatInt next)) as [w ->]. by eexists. }
  cbn [rbind]. destruct (IH w.2) as [r ->]. by eexists.
Qed.

Lemma NewKeyedStage_total next n ops : ∃ r, NewKeyedStage H next n ops = Ok r.
Proof.
  revert next. induction n as [|n IH]; intros next; [by eexists|]. cbn [NewKeyedStage].
  destruct (clone_chain_total next ops) as [c ->]. cbn [rbind]. destruct (IH c.2) as [r ->]. by eexists.
Qed.

Definition router_ok (op : Op) : Prop := ∀ parts, o_router op = Some parts → 0 < parts.

Lemma plan_loop_total ops : ∀ p i skip labels, Forall router_ok ops → ∃ p', plan_loop H p i skip ops labels = Ok p'.
Proof.
  induction ops as [|op ops IH]; intros p i skip labels Ho; [by eexists|]. apply Forall_cons in Ho as [Hr Ho].
  cbn [plan_loop]. destruct skip; [|by apply IH]. destruct (o_router op) as [parts|] eqn:Er.
  - unfold plan_keyed. specialize (Hr parts Er). destruct (Z.leb_spec parts 0); [lia|].
    destruct (NewKeyedStage_total (clones (flush p)) (Z.to_nat parts) (takeStateful ops)) as [ks ->]. by apply IH.
  - destruct (o_single op); [by apply IH|]. unfold plan_channel.
    destruct (wire_total op (bs "op-" ++ FormatInt i)) as [w ->]. by apply IH.
Qed.
End plans.

Lemma build_plan_ok H ops labels :
  backends_ok H → Forall router_ok ops → length labels = length ops →
  ∃ mid, BuildPlan H true true ops labels = Ok (SourceStage :: mid ++ [SinkStage])
    ∧ Forall stage_ok mid ∧ concat (stage_ops <$> mid) = ops.
Proof.
  intros Hb Hr Hl. unfold BuildPlan. rewrite (proj2 (Nat.eqb_eq _ _) Hl). cbn [negb].
  destruct (plan_loop_total H Hb ops (mkPlan [SourceStage] [] [] 1 0 0 0 0) 0 0 labels Hr) as [p Ep].
  rewrite Ep. cbn [rbind]. apply (plan_loop_ok H ops _ _ _ _ []) in Ep; [|rewrite take_0; by split; [exists []| |]].
  apply flush_ok in Ep as ([(mid & Es & Hf & Eo) _ _] & Eg & _). rewrite Eg, app_nil_r in Eo.
  exists mid. by rewrite Es.
Qed.

(** With positive partitions, matching labels and a backend factory
    that succeeds, BuildPlan succeeds; its stages are bracketed by source
    and sink, are what their kind promises, and run all operators in their
    order. *)
Theorem build_plan_correct H ops labels :
  backends_ok H → Forall router_ok ops → length labels = length ops →
  ∃ mid, BuildPlan H true true ops labels = Ok (SourceStage :: mid ++ [SinkStage])
    ∧ Forall stage_ok mid ∧ concat (stage_ops <$> mid) = ops.
Proof.
  apply build_plan_ok.
Qed.
(** ** A concrete plan *)

Definition demo_map : Op := mkOp (bs "map") None true (Some 2) false false false false false.
Definition demo_filter : Op := mkOp (bs "filter") None true None false false false false false.
Definition demo_keyby : Op := mkOp (bs "keyby") (Some 2) false None false false false false false.
Definition demo_reduce : Op := mkOp (bs "reduce") None false None true true true false true.

Definition demo_hooks : StageHooks := mkHooks true true (Some (λ _, Ok true)) true.

Definition demo_ops : list Op := [demo_map; demo_map; demo_filter; demo_keyby; demo_reduce; demo_filter].
Definition demo_labels : list bytes := bs <$> ["a"; "b"; "c"; "d"; "e"; "f"]%string.

Lemma build_plan_correct_witness :
  ∃ mid, BuildPlan demo_hooks true true demo_ops demo_labels = Ok (SourceStage :: mid ++ [SinkStage])
    ∧ Forall stage_ok mid ∧ concat (stage_ops <$> mid) = demo_ops.
Proof.
  apply (build_plan_correct demo_hooks demo_ops demo_labels); [|repeat constructor; by intros ? [= <-]|reflexivity].
  intros mk owner [= <-]. by exists true.
Defined.

(** Four stages between source and sink, and one clone per partition. *)
Example demo_plan_stages :
  match BuildPlan demo_hooks true true demo_ops demo_labels with
  | Ok [SourceStage; StatelessStage _ [_; _] _ 2; StatelessStage _ [_] _ 1;
        KeyedStage _ _ [[w0]; [w1]]; StatelessStage _ [_] _ 1; SinkStage] =>
      w_backend w0 = Some (bs "worker-0") ∧ w_snapshot w1 = Some (bs "worker-1")
  | _ => False
  end.
Proof. vm_compute. done. Qed.
