(* ===== verification/Lifecycle.v ===== *)
(** * Job phases and the restart policy ([src/control/lifecycle/lifecycle.go])

    The controller's coarse phase of a run, the legal transitions between
    phases, and the restart policy with its exponential backoff.  Durations are
    64-bit nanoseconds and [d *= 2] wraps. *)

From S2P Require Import Prelude.

(** [Phase] *)
Inductive Phase :=
| Submitted | Starting | PhaseRunning | Restarting | Blocked | Cancelling | Cancelled | Finished | Failed.

#[export] Instance Phase_eq_dec : EqDecision Phase.
Proof. solve_decision. Defined.

(** The text of a phase. *)
Definition phase_text (p : Phase) : bytes :=
  match p with
  | Submitted => bs "submitted" | Starting => bs "starting" | PhaseRunning => bs "running"
  | Restarting => bs "restarting" | Blocked => bs "blocked" | Cancelling => bs "cancelling"
  | Cancelled => bs "cancelled" | Finished => bs "finished" | Failed => bs "failed"
  end.

(** [Terminal] *)
Definition Terminal (p : Phase) : bool :=
  match p with Cancelled | Finished | Failed => true | _ => false end.

(** [valid] *)
Definition valid (p : Phase) : list Phase :=
  match p with
  | Submitted => [Starting; Failed; Cancelled]
  | Starting => [PhaseRunning; Failed; Restarting; Blocked; Cancelling]
  | PhaseRunning => [Cancelling; Cancelled; Finished; Failed; Restarting]
  | Restarting => [Cancelled; Failed]
  | Blocked => [Failed; Cancelled; Restarting]
  | Cancelling => [Cancelled; Finished; Failed]
  | Cancelled | Finished | Failed => []
  end.

(** [CanTransition] *)
Definition CanTransition (from to : Phase) : bool := bool_decide (to ∈ valid from).

(** [FromAgent]: an unknown report counts as a failure. *)
Definition FromAgent (s : bytes) : Phase :=
  if decide (s = phase_text Starting) then Starting
  else if decide (s = phase_text PhaseRunning) then PhaseRunning
  else if decide (s = phase_text Cancelling) then Cancelling
  else if decide (s = phase_text Finished) then Finished
  else Failed.

(** [RestartPolicy] *)
Record RestartPolicy := mkPolicy {
  MaxAttempts : Z;
  BaseBackoff : Z;
  MaxBackoff : Z
}.

(** [DefaultRestartPolicy] *)
Definition DefaultRestartPolicy : RestartPolicy := mkPolicy 5 (2 * 1000000000) (60 * 1000000000).

(** [ShouldRestart] *)
Definition ShouldRestart (p : RestartPolicy) (phase : Phase) (attempt : Z) : bool :=
  if MaxAttempts p <=? 0 then false
  else bool_decide (phase = Failed) && (attempt <? MaxAttempts p).

(** The loop of [Backoff], [n] more doublings. *)
Fixpoint backoff_loop (p : RestartPolicy) (d : Z) (n : nat) : Z :=
  match n with
  | O => d
  | S n' =>
      let d := i64_mul d 2 in
      if (0 <? MaxBackoff p) && (MaxBackoff p <=? d) then MaxBackoff p else backoff_loop p d n'
  end.

(** [Backoff] *)
Definition Backoff (p : RestartPolicy) (attempt : Z) : Z :=
  let attempt := if attempt <? 1 then 1 else attempt in
  backoff_loop p (BaseBackoff p) (Z.to_nat (attempt - 1)).

(** ** Runs end *)

(** A number that every transition lowers. *)
Definition rank (p : Phase) : nat :=
  match p with
  | Submitted => 4 | Starting => 3 | PhaseRunning | Blocked => 2 | Restarting | Cancelling => 1
  | Cancelled | Finished | Failed => 0
  end.

(** A run: each phase may follow the one before. *)
Fixpoint run_of (p : Phase) (l : list Phase) : Prop :=
  match l with [] => True | q :: l' => CanTransition p q = true ∧ run_of q l' end.

Lemma transition_rank p q : CanTransition p q = true → (rank q < rank p)%nat.
Proof. intros Hq%bool_decide_eq_true. destruct p, q; simpl; try lia; vm_compute in Hq; set_solver. Qed.

Lemma run_rank p l : run_of p l → (length l + rank (default p (last l)) ≤ rank p)%nat.
Proof.
  revert p. induction l as [|q l IH]; intros p; [simpl; lia|]. intros [Ht Hr].
  apply transition_rank in Ht. apply IH in Hr. cbn [length].
  replace (last (q :: l)) with (Some (default q (last l))) by (rewrite last_cons; by destruct (last l)).
  simpl. lia.
Qed.

(** A run makes at most four phase transitions, the phases without a
    successor are exactly the terminal ones, and every other phase may fail. *)
Theorem lifecycle_run_ends p l :
  run_of p l →
  (length l ≤ 4)%nat
  ∧ let q := default p (last l) in
    ((∀ q', CanTransition q q' = false) ↔ Terminal q = true)
    ∧ (Terminal q = false → CanTransition q Failed = true ∧ run_of p (l ++ [Failed])).
Proof.
  intros Hr. pose proof (run_rank p l Hr) as Hk. split.
  { assert (rank p ≤ 4)%nat by (destruct p; simpl; lia). lia. }
  cbn zeta. split.
  - destruct (default p (last l)); simpl; split; intros Hq; try done;
      first [by specialize (Hq Failed) | intros q'; by destruct q'].
  - intros Ht. assert (CanTransition (default p (last l)) Failed = true) as Hf by (by destruct (default p (last l))).
    split; [done|]. clear Hk Ht. revert p Hr Hf. induction l as [|q l IH]; intros p Hr Hf; [done|].
    destruct Hr as [H1 H2]. split; [done|]. apply IH; [done|].
    rewrite last_cons in Hf. by destruct (last l).
Qed.

Lemma lifecycle_run_ends_witness : (length [Starting; Blocked; Restarting; Failed] ≤ 4)%nat.
Proof.
  apply (lifecycle_run_ends Submitted [Starting; Blocked; Restarting; Failed]). repeat split.
Defined.

(** ** Backoff *)

Lemma backoff_loop_spec p d n : 0 ≤ d < 2 ^ 62 → 0 < MaxBackoff p ≤ 2 ^ 62 → d < MaxBackoff p ∨ n ≠ 0%nat →
  backoff_loop p d n = Z.min (d * 2 ^ Z.of_nat n) (MaxBackoff p).
Proof.
  revert d. induction n as [|n IH]; intros d Hd Hm Hor.
  - destruct Hor; [simpl; lia|done].
  - cbn [backoff_loop]. assert (i64_mul d 2 = d * 2) as ->.
    { unfold i64_mul. apply wrap64_id. unfold in_i64, two63. lia. }
    rewrite (proj2 (Z.ltb_lt 0 _)) by lia. cbn [andb].
    assert (d * 2 ^ Z.of_nat (S n) = d * 2 * 2 ^ Z.of_nat n) as Ep.
    { rewrite Nat2Z.inj_succ, Z.pow_succ_r by lia. lia. }
    assert (1 ≤ 2 ^ Z.of_nat n) as H1 by (pose proof (Z.pow_pos_nonneg 2 (Z.of_nat n)); lia).
    destruct (Z.leb_spec (MaxBackoff p) (d * 2)).
    + rewrite Ep. nia.
    + rewrite IH by lia. by rewrite Ep.
Qed.

(** Below the overflow range the backoff is the base doubled per attempt and
    capped, except that the first attempt returns the base uncapped. *)
Theorem backoff_spec p attempt :
  0 ≤ BaseBackoff p < 2 ^ 62 → 0 < MaxBackoff p ≤ 2 ^ 62 →
  Backoff p attempt = if attempt <=? 1 then BaseBackoff p
                      else Z.min (BaseBackoff p * 2 ^ (attempt - 1)) (MaxBackoff p).
Proof.
  intros Hb Hm. unfold Backoff. cbn zeta. destruct (Z.leb_spec attempt 1).
  - replace (if attempt <? 1 then 1 else attempt) with 1 by (destruct (Z.ltb_spec attempt 1); lia). done.
  - destruct (Z.ltb_spec attempt 1); [lia|]. rewrite backoff_loop_spec by lia. by rewrite Z2Nat.id by lia.
Qed.

Lemma backoff_spec_witness : Backoff DefaultRestartPolicy 4 = 16 * 1000000000.
Proof. rewrite (backoff_spec DefaultRestartPolicy 4); [reflexivity|simpl; lia|simpl; lia]. Defined.

(** A base above the cap is returned uncapped on the first attempt. *)
Example backoff_first_uncapped : Backoff (mkPolicy 5 100 10) 1 = 100.
Proof. reflexivity. Qed.
(** Without a cap the doubling wraps. *)
Example backoff_uncapped_wraps : Backoff (mkPolicy 100 2000000000 0) 34 < 0.
Proof. reflexivity. Qed.
