(* ===== verification/TxnSink.v ===== *)
(** * The transactional Kafka sink ([src/sink/kafka_txn.go])

    One Kafka transaction per checkpoint interval.  [Write] stages records in
    the open transaction; on a barrier it stages a marker, flushes, reports the
    outcome to the coordinator and waits; [Commit] or [Abort] ends the
    transaction, opens the next and wakes [Write].

    The Kafka client (franz-go) and the brokers are not part of the repository:
    they are the operations of the class [KafkaClient], and
    [KafkaTransactions] states the documented behaviour the sink relies on, in
    terms of what a read-committed consumer sees of this transactional ID, of
    the open transaction and of the calls still in flight.  A produce callback
    may run at any moment; [Flush] returns only after all of them ran.

    The model is a machine driven by events: records arriving at [Write],
    callbacks, calls of the coordinator, the end of the input, a cancelled
    context and a crash of the process.  A call of [Commit] or [Abort] is one
    step: [Write] is parked while it runs. *)

From S2P Require Import Prelude Record Coordinator ExactlyOnce.

(** ** Authentication ([src/auth]) *)

Inductive SASLMechanism := SASLPlain | SASLScramSHA256 | SASLScramSHA512 | SASLOther (name : bytes).

Record SASLConfig := mkSASL { Mechanism : SASLMechanism; Username : bytes; Password : bytes }.

Record TLSConfig := mkTLS { CertFile : bytes; KeyFile : bytes; CAFile : bytes; InsecureSkipVerify : bool }.

(** The mechanism of the client library that [BuildKgoSASL] builds. *)
Inductive kgo_mechanism := KgoPlain (user pass : bytes) | KgoSha256 (user pass : bytes) | KgoSha512 (user pass : bytes).

Definition BuildKgoSASL (cfg : SASLConfig) : result kgo_mechanism :=
  match Mechanism cfg with
  | SASLPlain => Ok (KgoPlain (Username cfg) (Password cfg))
  | SASLScramSHA256 => Ok (KgoSha256 (Username cfg) (Password cfg))
  | SASLScramSHA512 => Ok (KgoSha512 (Username cfg) (Password cfg))
  | SASLOther name => Err (bs "unsupported SASL mechanism: " ++ name)
  end.

(** The mechanism of the other client library; [scram] is its constructor. *)
Inductive sasl_mechanism := MechPlain (user pass : bytes) | MechScram (mech : bytes).

Definition BuildSASLMechanism (scram : bool → bytes → bytes → result bytes) (cfg : SASLConfig) : result sasl_mechanism :=
  let build sha512 label :=
    match scram sha512 (Username cfg) (Password cfg) with
    | Ok m => Ok (MechScram m)
    | Err e => Err (bs "build " ++ label ++ bs " mechanism: " ++ e)
    | Panic e => Panic e
    end in
  match Mechanism cfg with
  | SASLPlain => Ok (MechPlain (Username cfg) (Password cfg))
  | SASLScramSHA256 => build false (bs "SCRAM-SHA-256")
  | SASLScramSHA512 => build true (bs "SCRAM-SHA-512")
  | SASLOther name => Err (bs "unsupported SASL mechanism: " ++ name)
  end.

(** The fields of a [tls.Config] the code fills in: the certificate of the
    client and the pool of root certificates, as the files' contents. *)
Record tls_config := mkTLSConf { tls_insecure : bool; tls_certs : list (bytes * bytes); tls_roots : option bytes }.

Section tls.
(** The file system and the certificate parser. *)
Context (LoadX509KeyPair : bytes → bytes → result (bytes * bytes)).
Context (ReadFile : bytes → result bytes) (AppendCertsFromPEM : bytes → bool).

Definition tls_cert (cfg : TLSConfig) : result (list (bytes * bytes)) :=
  if bool_decide (CertFile cfg ≠ []) && bool_decide (KeyFile cfg ≠ []) then
    match LoadX509KeyPair (CertFile cfg) (KeyFile cfg) with
    | Ok c => Ok [c]
    | Err e => Err (bs "load client cert/key: " ++ e)
    | Panic e => Panic e
    end
  else Ok [].

Definition tls_ca (cfg : TLSConfig) : result (option bytes) :=
  if bool_decide (CAFile cfg ≠ []) then
    match ReadFile (CAFile cfg) with
    | Ok pem =>
        if AppendCertsFromPEM pem then Ok (Some pem)
        else Err (bs "no valid certificates found in CA file " ++ CAFile cfg)
    | Err e => Err (bs "read CA file: " ++ e)
    | Panic e => Panic e
    end
  else Ok None.

(** [BuildTLSConfig]: [Ok None] is the nil configuration. *)
Definition BuildTLSConfig (cfg : TLSConfig) : result (option tls_config) :=
  if bool_decide (CertFile cfg = []) && bool_decide (KeyFile cfg = [])
     && bool_decide (CAFile cfg = []) && negb (InsecureSkipVerify cfg) then Ok None
  else
    certs <-? tls_cert cfg ;;
    roots <-? tls_ca cfg ;;
    Ok (Some (mkTLSConf (InsecureSkipVerify cfg) certs roots)).
End tls.

(** ** The client library *)

(** [kgo.Record], as produced. *)
Record krecord := mkKRecord {
  kTopic : bytes;
  kKey : bytes;
  kValue : bytes;
  kTime : option time;
  kHeaders : gmap bytes bytes
}.

#[export] Instance krecord_eq_dec : EqDecision krecord.
Proof. solve_decision. Defined.

(** The calls of the client library, on a state [B] of client and brokers.  An
    optional error is the returned [error]; [Flush] and [AbortBufferedRecords]
    also give the errors of the callbacks they run. *)
Class KafkaClient (B : Type) := {
  NewClient : B → option bytes * B;
  BeginTransaction : B → option bytes * B;
  Produce : B → krecord → B;
  callback : B → option (option bytes * B);
  Flush : B → option bytes * list bytes * B;
  AbortBufferedRecords : B → option bytes * list bytes * B;
  EndTransaction : B → bool → option bytes * B;
  CloseClient : B → B
}.

(** What the sink relies on.  [committed] is what a read-committed consumer can
    see of this transactional ID, [staged] the records of the open transaction,
    [inflight] the produced records whose callback has not run. *)
Class KafkaTransactions (B : Type) `{KafkaClient B} := {
  committed : B → list krecord;
  staged : B → list krecord;
  inTxn : B → bool;
  inflight : B → nat;
  NewClient_law b e b' : NewClient b = (e, b') →
    committed b' = committed b ∧ (e = None → inTxn b' = false ∧ inflight b' = 0%nat);
  Begin_law b e b' : BeginTransaction b = (e, b') →
    committed b' = committed b ∧ inflight b' = inflight b
    ∧ match e with
      | None => inTxn b' = true ∧ staged b' = []
      | Some _ => inTxn b' = inTxn b ∧ staged b' = staged b
      end;
  Produce_law b r :
    committed (Produce b r) = committed b ∧ inTxn (Produce b r) = inTxn b
    ∧ inflight (Produce b r) = S (inflight b)
    ∧ (inTxn b = true → staged (Produce b r) = staged b ++ [r]);
  callback_law b e b' : callback b = Some (e, b') →
    committed b' = committed b ∧ inTxn b' = inTxn b ∧ inflight b = S (inflight b')
    ∧ (e = None → staged b' = staged b);
  Flush_law b e errs b' : Flush b = (e, errs, b') →
    committed b' = committed b ∧ inTxn b' = inTxn b
    ∧ (e = None → inflight b' = 0%nat) ∧ (errs = [] → staged b' = staged b);
  AbortBuffered_law b e errs b' : AbortBufferedRecords b = (e, errs, b') →
    committed b' = committed b ∧ inTxn b' = inTxn b;
  Commit_law b e b' : EndTransaction b true = (e, b') → inTxn b = true → inflight b = 0%nat →
    match e with
    | None => committed b' = committed b ++ staged b ∧ inTxn b' = false
    | Some _ =>
        (committed b' = committed b ∧ inflight b' = 0%nat ∧ (inTxn b' = true → staged b' = staged b))
        ∨ (committed b' = committed b ++ staged b ∧ inTxn b' = false)
    end;
  Commit_closed b e b' : EndTransaction b true = (e, b') → inTxn b = false →
    e ≠ None ∧ committed b' = committed b ∧ inTxn b' = false;
  Abort_law b e b' : EndTransaction b false = (e, b') →
    committed b' = committed b ∧ (e = None → inTxn b' = false);
  Close_law b : committed (CloseClient b) = committed b ∧ inTxn (CloseClient b) = false
}.

(** ** The sink *)

(** A [Serializer]: the value of the message, or an error. *)
Definition Serializer := Record_ → bytes + bytes.

(** [txnKafkaConfig] *)
Record txnKafkaConfig := mkTxnCfg {
  cfg_brokers : list bytes;
  cfg_topic : bytes;
  cfg_txnID : bytes;
  cfg_markerTopic : bytes;
  cfg_serializer : option Serializer;
  cfg_sasl : option SASLConfig;
  cfg_tls : option TLSConfig
}.

(** Where the [Write] goroutine is: not started, at the head of its loop,
    waiting at a barrier (with the [flushErr] it reported), or returned. *)
Inductive wphase :=
| WIdle
| WReady
| WBlocked (id : bytes) (flushErr : option bytes)
| WReturned (err : option bytes).

(** The options of the constructor. *)
Definition TxnKafkaOption := txnKafkaConfig → txnKafkaConfig.

Definition TxnKafkaBrokers (brokers : list bytes) : TxnKafkaOption := λ c,
  mkTxnCfg brokers (cfg_topic c) (cfg_txnID c) (cfg_markerTopic c) (cfg_serializer c) (cfg_sasl c) (cfg_tls c).
Definition TxnKafkaTopic (topic : bytes) : TxnKafkaOption := λ c,
  mkTxnCfg (cfg_brokers c) topic (cfg_txnID c) (cfg_markerTopic c) (cfg_serializer c) (cfg_sasl c) (cfg_tls c).
Definition TxnKafkaTransactionalID (id : bytes) : TxnKafkaOption := λ c,
  mkTxnCfg (cfg_brokers c) (cfg_topic c) id (cfg_markerTopic c) (cfg_serializer c) (cfg_sasl c) (cfg_tls c).
Definition TxnKafkaMarkerTopic (topic : bytes) : TxnKafkaOption := λ c,
  mkTxnCfg (cfg_brokers c) (cfg_topic c) (cfg_txnID c) topic (cfg_serializer c) (cfg_sasl c) (cfg_tls c).
Definition TxnKafkaSerialize (s : Serializer) : TxnKafkaOption := λ c,
  mkTxnCfg (cfg_brokers c) (cfg_topic c) (cfg_txnID c) (cfg_markerTopic c) (Some s) (cfg_sasl c) (cfg_tls c).
Definition TxnKafkaSASL (s : SASLConfig) : TxnKafkaOption := λ c,
  mkTxnCfg (cfg_brokers c) (cfg_topic c) (cfg_txnID c) (cfg_markerTopic c) (cfg_serializer c) (Some s) (cfg_tls c).
Definition TxnKafkaTLS (t : TLSConfig) : TxnKafkaOption := λ c,
  mkTxnCfg (cfg_brokers c) (cfg_topic c) (cfg_txnID c) (cfg_markerTopic c) (cfg_serializer c) (cfg_sasl c) (Some t).

Definition zeroTxnCfg : txnKafkaConfig := mkTxnCfg [] [] [] [] None None None.

Section constructor.
Context (buildTLS : TLSConfig → result (option tls_config)).

Definition check_sasl (cfg : txnKafkaConfig) : result unit :=
  match cfg_sasl cfg with
  | Some s => match BuildKgoSASL s with
              | Ok _ => Ok ()
              | Err e => Panic (bs "weibo/sink: TxnKafkaSink SASL: " ++ e)
              | Panic e => Panic e
              end
  | None => Ok ()
  end.

Definition check_tls (cfg : txnKafkaConfig) : result unit :=
  match cfg_tls cfg with
  | Some t => match buildTLS t with
              | Ok _ => Ok ()
              | Err e => Panic (bs "weibo/sink: TxnKafkaSink TLS: " ++ e)
              | Panic e => Panic e
              end
  | None => Ok ()
  end.

(** [NewTxnKafkaSink]: the checked configuration of the new sink. *)
Definition NewTxnKafkaSink (opts : list TxnKafkaOption) : result txnKafkaConfig :=
  let cfg := foldl (λ c opt, opt c) zeroTxnCfg opts in
  if bool_decide (cfg_brokers cfg = []) then Panic (bs "weibo/sink: TxnKafkaSink requires TxnKafkaBrokers(...)")
  else if bool_decide (cfg_topic cfg = []) then Panic (bs "weibo/sink: TxnKafkaSink requires TxnKafkaTopic(...)")
  else if bool_decide (cfg_txnID cfg = []) then
    Panic (bs "weibo/sink: TxnKafkaSink requires TxnKafkaTransactionalID(...)")
  else
    let cfg := if bool_decide (cfg_markerTopic cfg = [])
               then TxnKafkaMarkerTopic (cfg_topic cfg ++ bs ".checkpoints") cfg else cfg in
    _ <-? check_sasl cfg ;;
    _ <-? check_tls cfg ;;
    Ok cfg.

(** [baseOpts]: only its failure matters to the callers. *)
Definition baseOpts (cfg : txnKafkaConfig) : result (list bytes * option kgo_mechanism * option (option tls_config)) :=
  mech <-? match cfg_sasl cfg with
           | Some s => match BuildKgoSASL s with
                       | Ok m => Ok (Some m) | Err e => Err (bs "sasl: " ++ e) | Panic e => Panic e end
           | None => Ok None
           end ;;
  tls <-? match cfg_tls cfg with
          | Some t => match buildTLS t with
                      | Ok c => Ok (Some c) | Err e => Err (bs "tls: " ++ e) | Panic e => Panic e end
          | None => Ok None
          end ;;
  Ok (cfg_brokers cfg, mech, tls).
End constructor.

Section sink.
Context {B : Type} `{KafkaClient B}.
Context (cfg : txnKafkaConfig) (buildTLS : TLSConfig → result (option tls_config)).

(** [TxnKafkaSink], with the position of its [Write] goroutine and the state of
    client and brokers. *)
Record TxnKafkaSink := mkTxnSink {
  client : bool;
  waiters : gset bytes;
  produceErr : option bytes;
  phase : wphase;
  kafka : B
}.

Definition set_phase (s : TxnKafkaSink) (p : wphase) : TxnKafkaSink :=
  mkTxnSink (client s) (waiters s) (produceErr s) p (kafka s).
Definition set_kafka (s : TxnKafkaSink) (b : B) : TxnKafkaSink :=
  mkTxnSink (client s) (waiters s) (produceErr s) (phase s) b.

(** [setProduceErr] latches the first error of a transaction. *)
Definition setProduceErr (s : TxnKafkaSink) (e : bytes) : TxnKafkaSink :=
  match produceErr s with
  | None => mkTxnSink (client s) (waiters s) (Some e) (phase s) (kafka s)
  | Some _ => s
  end.
Definition clearProduceErr (s : TxnKafkaSink) : TxnKafkaSink :=
  mkTxnSink (client s) (waiters s) None (phase s) (kafka s).

(** [produce]; its callback calls [setProduceErr] when it runs. *)
Definition produce (s : TxnKafkaSink) (r : krecord) : TxnKafkaSink := set_kafka s (Produce (kafka s) r).
Definition latch (s : TxnKafkaSink) (errs : list bytes) : TxnKafkaSink := foldl setProduceErr s errs.

(** [signal]: the closed channel lets the waiting [Write] go on. *)
Definition signal (s : TxnKafkaSink) (id : bytes) : TxnKafkaSink :=
  if bool_decide (id ∈ waiters s) then
    mkTxnSink (client s) (waiters s ∖ {[id]}) (produceErr s)
      (match phase s with WBlocked id' _ => if bool_decide (id' = id) then WReady else phase s | p => p end) (kafka s)
  else s.

(** The deferred calls of [Write]: abort the open transaction, close the client. *)
Definition deferred_abort (s : TxnKafkaSink) (ret : option bytes) : TxnKafkaSink :=
  let '(_, errs, b1) := AbortBufferedRecords (kafka s) in
  let '(_, b2) := EndTransaction b1 false in
  set_phase (set_kafka (latch s errs) (CloseClient b2)) (WReturned ret).

(** [Write] up to its loop. *)
Definition write_start (s : TxnKafkaSink) : TxnKafkaSink :=
  match baseOpts buildTLS cfg with
  | Err e | Panic e => set_phase s (WReturned (Some (bs "txn kafka sink: " ++ e)))
  | Ok _ =>
      match NewClient (kafka s) with
      | (Some e, b) => set_phase (set_kafka s b) (WReturned (Some (bs "txn kafka sink: client: " ++ e)))
      | (None, b) =>
          let s := mkTxnSink true (waiters s) (produceErr s) (phase s) b in
          match BeginTransaction b with
          | (Some e, b) => set_phase (set_kafka s (CloseClient b)) (WReturned (Some (bs "txn kafka sink: begin: " ++ e)))
          | (None, b) => set_phase (set_kafka s b) WReady
          end
      end
  end.

(** The marker of checkpoint [id]. *)
Definition marker (id : bytes) : krecord := mkKRecord (cfg_markerTopic cfg) (cfg_txnID cfg) id None ∅.

(** The value of a message, or the serializer's error. *)
Definition serialized (r : Record_) : bytes + bytes :=
  match cfg_serializer cfg with None => inl (Value r) | Some f => f r end.
(** The message of a data record; its topic is the client's default. *)
Definition message (r : Record_) (value : bytes) : krecord :=
  mkKRecord [] (Key r) value (Some (Timestamp r)) (Headers r).

(** The barrier branch of the loop. *)
Definition write_barrier (s : TxnKafkaSink) (id : bytes) : TxnKafkaSink * option bytes :=
  let s := produce s (marker id) in
  let '(flushErr, errs, b) := Flush (kafka s) in
  let s := set_kafka (latch s errs) b in
  let flushErr := match flushErr with None => produceErr s | Some e => Some e end in
  (mkTxnSink (client s) ({[id]} ∪ waiters s) (produceErr s) (WBlocked id flushErr) (kafka s), flushErr).

(** The data branch of the loop. *)
Definition write_data (s : TxnKafkaSink) (r : Record_) : TxnKafkaSink :=
  match serialized r with
  | inr e => setProduceErr s (bs "serialize: " ++ e)
  | inl v => produce s (message r v)
  end.

(** [Commit] *)
Definition Commit (s : TxnKafkaSink) (id : bytes) : option bytes * TxnKafkaSink :=
  if client s then
    match EndTransaction (kafka s) true with
    | (Some e, b) => (Some (bs "txn kafka sink: commit " ++ id ++ bs ": " ++ e), set_kafka s b)
    | (None, b) =>
        match BeginTransaction b with
        | (Some e, b) => (Some (bs "txn kafka sink: begin after " ++ id ++ bs ": " ++ e), set_kafka s b)
        | (None, b) => (None, signal (clearProduceErr (set_kafka s b)) id)
        end
    end
  else (Some (bs "txn kafka sink: commit " ++ id ++ bs ": sink not running"), s).

(** [Abort] *)
Definition Abort (s : TxnKafkaSink) (id : bytes) : option bytes * TxnKafkaSink :=
  if client s then
    let '(e1, errs, b) := AbortBufferedRecords (kafka s) in
    let s := set_kafka (latch s errs) b in
    match e1 with
    | Some e => (Some (bs "txn kafka sink: abort " ++ id ++ bs ": " ++ e), s)
    | None =>
        match EndTransaction b false with
        | (Some e, b) => (Some (bs "txn kafka sink: abort " ++ id ++ bs ": " ++ e), set_kafka s b)
        | (None, b) =>
            match BeginTransaction b with
            | (Some e, b) => (Some (bs "txn kafka sink: begin after abort " ++ id ++ bs ": " ++ e), set_kafka s b)
            | (None, b) => (None, signal (clearProduceErr (set_kafka s b)) id)
            end
        end
    end
  else (None, s).

(** ** The machine *)

Inductive event :=
| EvStart | EvRecv (r : Record_) | EvCallback | EvCommit (id : bytes) | EvAbort (id : bytes)
| EvClosed | EvCancel | EvCrash.

Inductive outcome := Quiet | Prepared (id : bytes) (err : option bytes) | Returned (err : option bytes).

(** [onPrepared] and the results of [Commit] and [Abort] are the outcomes; a
    step that the state does not allow gives [None]. *)
Definition sink_do (s : TxnKafkaSink) (ev : event) : option (TxnKafkaSink * outcome) :=
  match ev with
  | EvStart => match phase s with WIdle => Some (write_start s, Quiet) | _ => None end
  | EvRecv r =>
      match phase s with
      | WReady =>
          if IsWatermark r then Some (s, Quiet)
          else if IsBarrier r then
            let '(s', e) := write_barrier s (CheckpointID r) in Some (s', Prepared (CheckpointID r) e)
          else Some (write_data s r, Quiet)
      | _ => None
      end
  | EvCallback =>
      match callback (kafka s) with
      | None => None
      | Some (oe, b) =>
          let s := set_kafka s b in
          Some (match oe with Some e => setProduceErr s e | None => s end, Quiet)
      end
  | EvCommit id => let '(e, s') := Commit s id in Some (s', Returned e)
  | EvAbort id => let '(e, s') := Abort s id in Some (s', Returned e)
  | EvClosed => match phase s with WReady => Some (deferred_abort s None, Quiet) | _ => None end
  | EvCancel => match phase s with WBlocked _ _ => Some (deferred_abort s (Some (bs "context canceled")), Quiet) | _ => None end
  | EvCrash => Some (mkTxnSink false ∅ None WIdle (kafka s), Quiet)
  end.

(** The checkpoint the coordinator may commit after a trace: the last one
    reported as prepared without error that it neither committed nor aborted. *)
Definition prepared_next (p : option bytes) (x : event * outcome) : option bytes :=
  match x with
  | (EvRecv _, Prepared id None) => Some id
  | (EvRecv _, Prepared _ (Some _)) => None
  | (EvCommit _, Returned None) | (EvAbort _, _) | (EvCrash, _) => None
  | _ => p
  end.
Definition prepared_of (tr : list (event * outcome)) : option bytes := foldl prepared_next None tr.

(** What the coordinator calls: it commits such a checkpoint, and it aborts one
    only when its barrier reached the sink (recovery calls both on a sink that is
    not running). *)
Definition allowed (tr : list (event * outcome)) (s : TxnKafkaSink) (ev : event) : Prop :=
  match ev with
  | EvCommit id => prepared_of tr = Some id ∨ client s = false
  | EvAbort _ => phase s ≠ WReady
  | _ => True
  end.

Inductive run (s0 : TxnKafkaSink) : list (event * outcome) → TxnKafkaSink → Prop :=
| run_nil : run s0 [] s0
| run_snoc tr s ev s' o : run s0 tr s → allowed tr s ev → sink_do s ev = Some (s', o) → run s0 (tr ++ [(ev, o)]) s'.
End sink.
Arguments TxnKafkaSink B : clear implicits.
Arguments mkTxnSink {B}.

(** ** What the sink promises

    The contract of [CheckpointedSink]: the state is the list of checkpoints
    whose transaction committed, each with the data records of its interval, and
    the data records received since the transaction was opened.  A failed commit
    may or may not have taken effect. *)

Record contract := mkContract { done : list (bytes * list Record_); open_in : list Record_ }.

Section contract.
Context (cfg : txnKafkaConfig).

Definition serializable (r : Record_) : Prop := ∃ v, serialized cfg r = inl v.

Inductive contract_step : contract → event * outcome → contract → Prop :=
| c_data d l r : is_data r → contract_step (mkContract d l) (EvRecv r, Quiet) (mkContract d (l ++ [r]))
| c_marker c r o : isMarker r = true → contract_step c (EvRecv r, o) c
| c_commit d l id e : Forall serializable l →
    contract_step (mkContract d l) (EvCommit id, Returned e) (mkContract (d ++ [(id, l)]) [])
| c_refused c id e : contract_step c (EvCommit id, Returned (Some e)) c
| c_abort d l id : contract_step (mkContract d l) (EvAbort id, Returned None) (mkContract d [])
| c_abort_failed c id e : contract_step c (EvAbort id, Returned (Some e)) c
| c_restart d l ev o : ev = EvStart ∨ ev = EvCrash → contract_step (mkContract d l) (ev, o) (mkContract d [])
| c_quiet c ev o : ev = EvCallback ∨ ev = EvClosed ∨ ev = EvCancel → contract_step c (ev, o) c.

Inductive contract_run (c0 : contract) : list (event * outcome) → contract → Prop :=
| cr_nil : contract_run c0 [] c0
| cr_snoc tr c x c' : contract_run c0 tr c → contract_step c x c' → contract_run c0 (tr ++ [x]) c'.

(** The messages of an interval: its records and the marker. *)
Definition output (r : Record_) : list krecord :=
  match serialized cfg r with inl v => [message r v] | inr _ => [] end.
Definition interval_out (x : bytes * list Record_) : list krecord := (x.2 ≫= output) ++ [marker cfg x.1].

(** The data records a trace brought. *)
Definition data_of (tr : list (event * outcome)) : list Record_ :=
  omap (λ x, match x.1 with EvRecv r => if isMarker r then None else Some r | _ => None end) tr.

Definition no_loss (x : event * outcome) : Prop :=
  match x.1 with EvAbort _ | EvCrash | EvStart => False | _ => True end.

Lemma contract_data c0 tr c : contract_run c0 tr c → Forall no_loss tr →
  concat (done c).*2 ++ open_in c = concat (done c0).*2 ++ open_in c0 ++ data_of tr.
Proof.
  induction 1 as [|tr c x c' Hr IH Hs]; intros Hn; [cbn; by rewrite (right_id_L [] (++))|].
  apply Forall_app in Hn as [Hn Hx]. rewrite Forall_singleton in Hx. specialize (IH Hn).
  unfold data_of in *. rewrite omap_app. rewrite !(assoc_L (++)) in *.
  inversion Hs as [d l r Hd|c1 r o Hm|d l id e _|c1 id e|d l id|c1 id e|d l ev o Hev|c1 ev o Hev]; subst; cbn in *;
    rewrite <- IH; clear IH Hs.
  - unfold is_data in Hd. rewrite Hd. by rewrite (assoc_L (++)).
  - rewrite Hm. by rewrite (right_id_L [] (++)).
  - rewrite fmap_app, concat_app. cbn. by rewrite !(right_id_L [] (++)).
  - by rewrite (right_id_L [] (++)).
  - exfalso. exact Hx.
  - exfalso. exact Hx.
  - destruct Hev as [-> | ->]; exfalso; exact Hx.
  - by destruct Hev as [-> |[-> | ->]]; rewrite (right_id_L [] (++)).
Qed.
End contract.

(** ** The sink refines its contract *)

Section refinement.
Context {B : Type} `{KafkaTransactions B}.
Context (cfg : txnKafkaConfig) (buildTLS : TLSConfig → result (option tls_config)).

Lemma setProduceErr_fields (s : TxnKafkaSink B) e :
  client (setProduceErr s e) = client s ∧ waiters (setProduceErr s e) = waiters s
  ∧ phase (setProduceErr s e) = phase s ∧ kafka (setProduceErr s e) = kafka s
  ∧ produceErr (setProduceErr s e) ≠ None.
Proof. unfold setProduceErr. by destruct (produceErr s) eqn:E; rewrite ?E. Qed.

Lemma latch_fields (s : TxnKafkaSink B) errs :
  client (latch s errs) = client s ∧ waiters (latch s errs) = waiters s
  ∧ phase (latch s errs) = phase s ∧ kafka (latch s errs) = kafka s
  ∧ (produceErr (latch s errs) = None → produceErr s = None ∧ errs = []).
Proof.
  unfold latch. revert s. induction errs as [|e errs IH]; intros s; [done|]. cbn.
  destruct (IH (setProduceErr s e)) as (-> & -> & -> & -> & Hn).
  destruct (setProduceErr_fields s e) as (-> & -> & -> & -> & He). naive_solver.
Qed.

(** The simulation relation after trace [tr], over what was committed before. *)
Definition phase_rel (tr : list (event * outcome)) (s : TxnKafkaSink B) (c : contract) : Prop :=
  let staged_is ms := staged (kafka s) = (open_in c ≫= output cfg) ++ ms ∧ Forall (serializable cfg) (open_in c) in
  match phase s with
  | WIdle => client s = false ∧ prepared_of tr = None
  | WReady => client s = true ∧ prepared_of tr = None ∧ inTxn (kafka s) = true ∧ (produceErr s = None → staged_is [])
  | WBlocked id _ => client s = true ∧ id ∈ waiters s
      ∧ (∀ id', prepared_of tr = Some id' → id' = id
                ∧ (inTxn (kafka s) = true → inflight (kafka s) = 0%nat ∧ staged_is [marker cfg id]))
  | WReturned _ => ∀ id, prepared_of tr = Some id → inTxn (kafka s) = false
  end.

Record simulates (C0 : list krecord) (tr : list (event * outcome)) (s : TxnKafkaSink B) (c : contract) : Prop := {
  sim_out : committed (kafka s) = C0 ++ (done c ≫= interval_out cfg);
  sim_phase : phase_rel tr s c
}.

Lemma prepared_of_snoc tr x : prepared_of (tr ++ [x]) = prepared_next (prepared_of tr) x.
Proof. unfold prepared_of. by rewrite foldl_app. Qed.

(** The deferred abort leaves nothing open. *)
Lemma deferred_abort_spec (s : TxnKafkaSink B) ret :
  let s' := deferred_abort s ret in
  phase s' = WReturned ret ∧ committed (kafka s') = committed (kafka s) ∧ inTxn (kafka s') = false.
Proof.
  unfold deferred_abort. destruct (AbortBufferedRecords _) as [[e1 errs] b1] eqn:E1.
  destruct (EndTransaction b1 false) as [e2 b2] eqn:E2. cbn.
  destruct (Close_law b2) as [-> ->]. apply Abort_law in E2 as [-> _].
  apply AbortBuffered_law in E1 as [-> _]. done.
Qed.

Lemma write_start_spec (s : TxnKafkaSink B) :
  phase s = WIdle → client s = false →
  let s' := write_start cfg buildTLS s in
  committed (kafka s') = committed (kafka s)
  ∧ match phase s' with
    | WReady => client s' = true ∧ inTxn (kafka s') = true ∧ staged (kafka s') = []
    | WReturned (Some _) => True
    | _ => False
    end.
Proof.
  intros Hp Hc. unfold write_start. destruct (baseOpts _ _); [|done..].
  destruct (NewClient _) as [[e|] b] eqn:E1; apply NewClient_law in E1 as [Hc1 _]; [done|].
  destruct (BeginTransaction b) as [[e|] b'] eqn:E2; apply Begin_law in E2 as (Hc2 & _ & H2); cbn.
  - destruct (Close_law b') as [-> _]. split; [congruence|done].
  - split; [congruence|]. naive_solver.
Qed.

Lemma write_barrier_spec (s : TxnKafkaSink B) id s' err :
  write_barrier cfg s id = (s', err) →
  phase s' = WBlocked id err ∧ client s' = client s ∧ id ∈ waiters s'
  ∧ committed (kafka s') = committed (kafka s)
  ∧ (err = None → inTxn (kafka s) = true → produceErr s = None
       ∧ inflight (kafka s') = 0%nat ∧ staged (kafka s') = staged (kafka s) ++ [marker cfg id]).
Proof.
  unfold write_barrier. intros Hw. destruct (Flush _) as [[fe errs] b] eqn:E.
  apply Flush_law in E as (Hc & Ht & Hi & Hs). cbn in *.
  destruct (latch_fields (produce s (marker cfg id)) errs) as (L1 & L2 & L3 & L4 & L5). cbn in *.
  destruct (Produce_law (kafka s) (marker cfg id)) as (P1 & P2 & P3 & P4).
  injection Hw as <- <-. cbn. split; [done|]. split; [done|]. split; [set_solver|]. split; [congruence|].
  intros He Hin. destruct fe; [done|]. apply L5 in He as [He ->]. rewrite Hs, P4 by done. auto.
Qed.

(** What [Commit] does to the records: nothing, unless a transaction is open;
    then they commit, and on success [Write] goes on in a fresh transaction. *)
Lemma Commit_spec (s : TxnKafkaSink B) id e s' : Commit s id = (e, s') →
  client s = true → inTxn (kafka s) = true → inflight (kafka s) = 0%nat →
  ∃ b, match e with
  | None => s' = signal (clearProduceErr (set_kafka s b)) id
      ∧ committed b = committed (kafka s) ++ staged (kafka s) ∧ inTxn b = true ∧ staged b = []
  | Some _ => s' = set_kafka s b
      ∧ ((committed b = committed (kafka s) ∧ inflight b = 0%nat ∧ (inTxn b = true → staged b = staged (kafka s)))
         ∨ (committed b = committed (kafka s) ++ staged (kafka s) ∧ inTxn b = false))
  end.
Proof.
  unfold Commit. intros Hc Hcl Hin Hfl. rewrite Hcl in Hc.
  destruct (EndTransaction _ true) as [[e1|] b1] eqn:E1; apply Commit_law in E1; try done.
  { injection Hc as <- <-. naive_solver. }
  destruct E1 as [E1 E2]. destruct (BeginTransaction b1) as [[e2|] b2] eqn:E3; apply Begin_law in E3 as (B1 & B2 & B3 & B4);
    injection Hc as <- <-; exists b2.
  - split; [done|]. right. split; congruence.
  - split_and!; [done|congruence|done|done].
Qed.

Lemma Commit_nothing (s : TxnKafkaSink B) id e s' : Commit s id = (e, s') →
  client s = false ∨ inTxn (kafka s) = false →
  e ≠ None ∧ ∃ b, s' = set_kafka s b ∧ committed b = committed (kafka s) ∧ (inTxn (kafka s) = false → inTxn b = false).
Proof.
  unfold Commit. intros Hc Hor. destruct (client s) eqn:Ecl.
  - destruct Hor as [?|Hin]; [done|]. destruct (EndTransaction _ true) as [[e1|] b1] eqn:E1.
    + injection Hc as <- <-. apply Commit_closed in E1 as (_ & E2 & E3); [|done]. naive_solver.
    + apply Commit_closed in E1; [|done]. naive_solver.
  - injection Hc as <- <-. split; [done|]. exists (kafka s). by destruct s.
Qed.

(** What [Abort] does: no record commits; on success of a running sink
    [Write] goes on in a fresh transaction. *)
Lemma Abort_spec (s : TxnKafkaSink B) id e s' : Abort s id = (e, s') →
  committed (kafka s') = committed (kafka s) ∧ client s' = client s
  ∧ match e with
    | None => client s = true → inTxn (kafka s') = true ∧ staged (kafka s') = []
        ∧ phase s' = phase (signal s id) ∧ waiters s' = waiters (signal s id)
    | Some _ => phase s' = phase s ∧ waiters s' = waiters s
    end ∧ (client s = false → s' = s).
Proof.
  unfold Abort. intros Ha. destruct (client s) eqn:Ecl; [|by injection Ha as <- <-].
  destruct (AbortBufferedRecords _) as [[e1 errs] b1] eqn:E1. apply AbortBuffered_law in E1 as [C1 _].
  destruct (latch_fields s errs) as (L1 & L2 & L3 & _ & _).
  destruct e1 as [e1|]; [injection Ha as <- <-; cbn; naive_solver|].
  destruct (EndTransaction b1 false) as [[e2|] b2] eqn:E2; apply Abort_law in E2 as [C2 _].
  { injection Ha as <- <-. cbn. rewrite C2, C1, L1. naive_solver. }
  destruct (BeginTransaction b2) as [[e3|] b3] eqn:E3; apply Begin_law in E3 as (C3 & _ & H3);
    injection Ha as <- <-; cbn.
  - rewrite C3, C2, C1, L1. naive_solver.
  - destruct H3 as [T3 S3]. unfold signal. cbn. rewrite L2, L3.
    case_bool_decide; cbn; rewrite C3, C2, C1, ?L1, ?L2, ?L3; naive_solver.
Qed.

Context (C0 : list krecord).

Ltac sim_intro Hp := destruct 1 as [Ho Hp]; unfold phase_rel in Hp.

Lemma bind_snoc {X Y} (f : X → list Y) l x : (l ++ [x]) ≫= f = (l ≫= f) ++ f x.
Proof. rewrite bind_app. cbn. by rewrite (right_id_L [] (++)). Qed.

Lemma sim_data tr s c r : simulates C0 tr s c → phase s = WReady → is_data r →
  simulates C0 (tr ++ [(EvRecv r, Quiet)]) (write_data cfg s r) (mkContract (done c) (open_in c ++ [r])).
Proof.
  sim_intro Hp. intros Hph Hd. rewrite Hph in Hp. destruct Hp as (Hc & Hpr & Hin & Hst). unfold write_data.
  assert (output cfg r = match serialized cfg r with inl v => [message r v] | inr _ => [] end) as Eo by done.
  destruct (serialized cfg r) as [v|e] eqn:Es; split; unfold phase_rel.
  - cbn. destruct (Produce_law (kafka s) (message r v)) as (-> & _). done.
  - cbn. rewrite Hph, prepared_of_snoc. destruct (Produce_law (kafka s) (message r v)) as (_ & -> & _ & ->); [|done].
    split_and!; try done. intros He. destruct (Hst He) as [-> Hf]. rewrite bind_snoc, Eo, !(right_id_L [] (++)).
    split; [done|]. apply Forall_app. split; [done|]. apply Forall_singleton. by exists v.
  - destruct (setProduceErr_fields s (bs "serialize: " ++ e)) as (_ & _ & _ & -> & _). done.
  - destruct (setProduceErr_fields s (bs "serialize: " ++ e)) as (-> & -> & -> & -> & Hne).
    rewrite Hph, prepared_of_snoc. cbn. split_and!; try done; by intros.
Qed.

Lemma sim_barrier tr s c r s' e : simulates C0 tr s c → phase s = WReady →
  write_barrier cfg s (CheckpointID r) = (s', e) →
  simulates C0 (tr ++ [(EvRecv r, Prepared (CheckpointID r) e)]) s' c.
Proof.
  sim_intro Hp. intros Hph Hw. rewrite Hph in Hp. destruct Hp as (Hc & Hpr & Hin & Hst).
  apply write_barrier_spec in Hw as (W1 & W2 & W3 & W4 & W5). split; [congruence|].
  unfold phase_rel. rewrite W1, prepared_of_snoc. split; [congruence|]. split; [done|].
  intros id'. destruct e as [e|]; cbn; [done|]. intros [= <-]. split; [done|]. intros _.
  destruct W5 as (He & -> & ->); [done..|]. destruct (Hst He) as [-> Hf]. by rewrite (right_id_L [] (++)).
Qed.

Lemma sim_callback tr s c oe b : simulates C0 tr s c → callback (kafka s) = Some (oe, b) →
  simulates C0 (tr ++ [(EvCallback, Quiet)])
    (match oe with Some e => setProduceErr (set_kafka s b) e | None => set_kafka s b end) c.
Proof.
  sim_intro Hp. intros Hcb. apply callback_law in Hcb as (K1 & K2 & K3 & K4).
  set (s' := match oe with Some e => _ | None => _ end).
  assert (client s' = client s ∧ waiters s' = waiters s ∧ phase s' = phase s ∧ kafka s' = b
          ∧ (produceErr s' = None → produceErr s = None ∧ oe = None)) as (Ecl & Ew & Ep & Ek & Ee).
  { subst s'. destruct oe as [e|]; [|done]. destruct (setProduceErr_fields (set_kafka s b) e) as (-> & -> & -> & -> & ?). done. }
  split; [by rewrite Ek, K1|]. unfold phase_rel. rewrite Ep, Ek, Ew, Ecl, prepared_of_snoc. cbn [prepared_next].
  destruct (phase s); [done|..].
  - destruct Hp as (? & ? & ? & Hst). split_and!; [done|done|congruence|].
    intros [He ->]%Ee. rewrite K4 by done. auto.
  - destruct Hp as (? & ? & Hst). split_and!; [done..|]. intros id' [-> Hid]%Hst. split; [done|].
    rewrite K2. intros Hin. destruct (Hid Hin) as [? _]. lia.
  - intros id' Hid. rewrite K2. eauto.
Qed.

Lemma sim_commit tr s c id e s' : simulates C0 tr s c → prepared_of tr = Some id ∨ client s = false →
  Commit s id = (e, s') →
  ∃ c', contract_step cfg c (EvCommit id, Returned e) c' ∧ simulates C0 (tr ++ [(EvCommit id, Returned e)]) s' c'.
Proof.
  sim_intro Hp. intros Hal Hcm. destruct (decide (client s = true ∧ inTxn (kafka s) = true)) as [[Hcl Hin]|Hno].
  - destruct Hal as [Hal|?]; [|congruence]. destruct (phase s) as [| |id0 err|] eqn:Eph.
    + destruct Hp. congruence.
    + destruct Hp as (_ & Hn & _). congruence.
    + destruct Hp as (_ & Hw & Hpr). destruct (Hpr _ Hal) as [<- Hst]. destruct (Hst Hin) as (Hfl & Hs & Hf).
      assert (interval_out cfg (id, open_in c) = staged (kafka s)) as Eout by done.
      destruct (Commit_spec s id e s' Hcm Hcl Hin Hfl) as [b Hspec]. destruct e as [e|].
      * destruct Hspec as [-> [(Ec & Ef & Es)|[Ec Ei]]].
        -- exists c. split; [constructor|]. split; cbn; [congruence|]. unfold phase_rel. cbn. rewrite Eph, prepared_of_snoc.
           split_and!; [done..|]. intros id' Hid. split; [by destruct (Hpr _ Hid)|]. intros Hin'.
           split; [done|]. by rewrite Es.
        -- exists (mkContract (done c ++ [(id, open_in c)]) []). split; [destruct c; by constructor|].
           split; [cbn; rewrite bind_snoc, Eout, (assoc_L (++)); congruence|].
           unfold phase_rel. cbn. rewrite Eph, prepared_of_snoc. split_and!; [done..|].
           intros id' Hid. split; [by destruct (Hpr _ Hid)|]. intros ?. congruence.
      * destruct Hspec as (-> & Ec & Ei & Es).
        exists (mkContract (done c ++ [(id, open_in c)]) []). split; [destruct c; by constructor|].
        unfold signal. cbn. rewrite bool_decide_true, Eph, bool_decide_true by done.
        split; [cbn; rewrite bind_snoc, Eout, (assoc_L (++)); congruence|].
        unfold phase_rel. cbn. rewrite prepared_of_snoc. cbn. by rewrite Es.
    + exfalso. apply Hp in Hal. congruence.
  - destruct (Commit_nothing s id e s' Hcm) as (He & b & -> & Ec & Ei).
    { destruct (client s), (inTxn (kafka s)); naive_solver. }
    destruct e as [e|]; [|done]. exists c. split; [constructor|]. split; cbn; [congruence|].
    unfold phase_rel. cbn. rewrite prepared_of_snoc. cbn.
    destruct (phase s) as [| |id0 err|]; [done|..].
    + destruct Hp as (? & ? & ? & _). exfalso. auto.
    + destruct Hp as (Hcl & Hw & Hpr). split_and!; [done..|]. intros id' Hid. split; [by destruct (Hpr _ Hid)|].
      intros Hin. exfalso. destruct (inTxn (kafka s)) eqn:E; [by apply Hno|]. rewrite Ei in Hin by done. done.
    + intros id' Hid. apply Ei. eauto.
Qed.

Lemma sim_abort tr s c id e s' : simulates C0 tr s c → phase s ≠ WReady → Abort s id = (e, s') →
  ∃ c', contract_step cfg c (EvAbort id, Returned e) c' ∧ simulates C0 (tr ++ [(EvAbort id, Returned e)]) s' c'.
Proof.
  sim_intro Hp. intros Hnr Hab. apply Abort_spec in Hab as (Ec & Ecl & Hr & Hnil). destruct e as [e|].
  - exists c. split; [constructor|]. destruct Hr as [Eph Ew]. split; [congruence|].
    unfold phase_rel. rewrite Eph, prepared_of_snoc, Ecl, Ew. cbn.
    destruct (phase s); [naive_solver|done|naive_solver|done].
  - exists (mkContract (done c) []). split; [destruct c; constructor|]. split; [cbn; congruence|].
    unfold phase_rel. rewrite prepared_of_snoc, Ecl. cbn. destruct (client s) eqn:E; cbn.
    2:{ rewrite Hnil by done. destruct (phase s); naive_solver. }
    destruct (Hr eq_refl) as (-> & -> & -> & ->). unfold signal.
    destruct (phase s) as [| |id0 err|] eqn:Eph; [by destruct Hp|done| |by case_bool_decide; cbn; rewrite ?Eph].
    destruct Hp as (_ & Hw & _). case_bool_decide; cbn; [|by rewrite ?Eph].
    case_bool_decide; [done|]. split_and!; [done|set_solver|done].
Qed.

(** Every step of the sink is a step of the contract. *)
Lemma sink_sim_step tr s c ev s' o : simulates C0 tr s c → allowed tr s ev → sink_do cfg buildTLS s ev = Some (s', o) →
  ∃ c', contract_step cfg c (ev, o) c' ∧ simulates C0 (tr ++ [(ev, o)]) s' c'.
Proof.
  intros Hs Hal Hd. pose proof (sim_out _ _ _ _ Hs) as Ho. pose proof (sim_phase _ _ _ _ Hs) as Hp.
  unfold phase_rel in Hp. destruct ev as [|r| |id|id| | |]; cbn [sink_do allowed] in Hd, Hal.
  - destruct (phase s) eqn:Eph; try done. injection Hd as <- <-. destruct Hp as [Hcl Hn].
    destruct (write_start_spec s Eph Hcl) as [Hc Hw]. exists (mkContract (done c) []).
    split; [destruct c; constructor; auto|]. split; [cbn; congruence|]. unfold phase_rel. rewrite prepared_of_snoc.
    cbn. destruct (phase (write_start _ _ _)) as [| | |[|]]; try done; [|naive_solver].
    destruct Hw as (? & ? & ->). naive_solver.
  - destruct (phase s) eqn:Eph; try done. destruct (IsWatermark r) eqn:Ew; [|destruct (IsBarrier r) eqn:Eb].
    + injection Hd as <- <-. exists c. split; [constructor; unfold isMarker; by rewrite Ew, orb_true_r|].
      split; [done|]. unfold phase_rel. rewrite Eph, prepared_of_snoc. done.
    + destruct (write_barrier _ _ _) as [s1 e] eqn:Ewb. injection Hd as <- <-.
      exists c. split; [constructor; unfold isMarker; by rewrite Eb|]. by eapply sim_barrier.
    + injection Hd as <- <-. assert (is_data r) as Hdat by (unfold is_data, isMarker; by rewrite Eb, Ew).
      exists (mkContract (done c) (open_in c ++ [r])). split; [destruct c; by constructor|]. by apply sim_data.
  - destruct (callback _) as [[oe b]|] eqn:Ecb; [|done]. injection Hd as <- <-. exists c.
    split; [constructor; auto|]. by apply sim_callback.
  - destruct (Commit _ _) as [e s1] eqn:E. injection Hd as <- <-. by eapply sim_commit.
  - destruct (Abort _ _) as [e s1] eqn:E. injection Hd as <- <-. by eapply sim_abort.
  - destruct (phase s) eqn:Eph; try done. injection Hd as <- <-. destruct (deferred_abort_spec s None) as (D1 & D2 & D3).
    exists c. split; [constructor; auto|]. split; [by rewrite D2|]. unfold phase_rel. by rewrite D1.
  - destruct (phase s) eqn:Eph; try done. injection Hd as <- <-.
    destruct (deferred_abort_spec s (Some (bs "context canceled"))) as (D1 & D2 & D3).
    exists c. split; [constructor; auto|]. split; [by rewrite D2|]. unfold phase_rel. by rewrite D1.
  - injection Hd as <- <-. exists (mkContract (done c) []). split; [destruct c; constructor; auto|].
    split; [done|]. unfold phase_rel. by rewrite prepared_of_snoc.
Qed.

Lemma sink_sim_run s0 c0 tr s : simulates C0 [] s0 c0 → run cfg buildTLS s0 tr s →
  ∃ c, contract_run cfg c0 tr c ∧ simulates C0 tr s c.
Proof.
  intros Hs0. induction 1 as [|tr s ev s' o Hr IH Hal Hd]; [exists c0; split; [constructor|exact Hs0]|].
  destruct IH as (c & Hc & Hs). destruct (sink_sim_step _ _ _ _ _ _ Hs Hal Hd) as (c' & Hc' & Hs').
  exists c'. split; [by econstructor|done].
Qed.

(** A sink that was just created. *)
Definition new_sink (b : B) : TxnKafkaSink B := mkTxnSink false ∅ None WIdle b.

Lemma sim_new b : C0 = committed b → simulates C0 [] (new_sink b) (mkContract [] []).
Proof. intros ->. split; cbn; [by rewrite (right_id_L [] (++))|done]. Qed.
End refinement.

(** Every committed interval could be serialized. *)
Lemma contract_serializable cfg c0 tr c : contract_run cfg c0 tr c →
  Forall (λ x, Forall (serializable cfg) x.2) (done c0) → Forall (λ x, Forall (serializable cfg) x.2) (done c).
Proof.
  induction 1 as [|tr c x c' Hr IH Hs]; [done|]. intros H0. specialize (IH H0).
  inversion Hs; subst; cbn in *; try done. apply Forall_app. split; [done|]. by apply Forall_singleton.
Qed.

Lemma contract_run_cons cfg c0 x tr c : contract_run cfg c0 (x :: tr) c →
  ∃ c1, contract_step cfg c0 x c1 ∧ contract_run cfg c1 tr c.
Proof.
  remember (x :: tr) as l eqn:El. intros Hr. revert tr El.
  induction Hr as [|l c y c' Hr IH Hs]; intros tr El; [done|].
  destruct tr as [|z tr _] using rev_ind.
  - destruct l as [|? [|]]; try done. injection El as ->. inversion Hr; subst; [|by destruct tr].
    exists c'. split; [done|constructor].
  - change (x :: tr ++ [z]) with ((x :: tr) ++ [z]) in El. apply app_inj_tail in El as [-> ->].
    destruct (IH tr eq_refl) as (c1 & H1 & H2). exists c1. split; [done|]. by econstructor.
Qed.

(** C5: Every run of the transactional sink, with failing calls, late
    produce callbacks, aborts and crashes at any point, is a run of the sink
    contract: what a read-committed consumer sees is the output of the
    committed intervals in order, each followed by its marker, and every
    record of a committed interval could be serialized. *)
Theorem txn_sink_refines_contract {B} `{KafkaTransactions B} cfg buildTLS (b : B) tr s :
  run cfg buildTLS (new_sink b) tr s →
  ∃ c, contract_run cfg (mkContract [] []) tr c
    ∧ committed (kafka s) = committed b ++ (done c ≫= interval_out cfg)
    ∧ Forall (λ x, Forall (serializable cfg) x.2) (done c).
Proof.
  intros Hr. destruct (sink_sim_run cfg buildTLS (committed b) _ _ _ _ (sim_new cfg _ b eq_refl) Hr) as (c & Hc & Hs).
  exists c. split; [done|]. split; [apply Hs|]. by eapply contract_serializable.
Qed.

(** As long as no transaction is aborted and the process does not
    crash, the visible output is the serialized input in order, cut into
    intervals: a prefix of what was written, with no record lost or
    repeated. *)
Theorem txn_output_is_prefix {B} `{KafkaTransactions B} cfg buildTLS (b : B) o tr s :
  run cfg buildTLS (new_sink b) ((EvStart, o) :: tr) s → Forall no_loss tr →
  ∃ d rest, committed (kafka s) = committed b ++ (d ≫= interval_out cfg)
    ∧ concat d.*2 ++ rest = data_of tr
    ∧ Forall (λ x, Forall (serializable cfg) x.2) d.
Proof.
  intros Hr Hn. destruct (sink_sim_run cfg buildTLS (committed b) _ _ _ _ (sim_new cfg _ b eq_refl) Hr) as (c & Hc & Hs).
  exists (done c), (open_in c). split; [apply Hs|]. split; [|by eapply contract_serializable].
  apply contract_run_cons in Hc as (c1 & H1 & Hc). rewrite (contract_data cfg _ _ _ Hc Hn).
  inversion H1; subst; naive_solver.
Qed.

(** ** A concrete cluster *)

Record demo_broker := mkDemo { dk_committed : list krecord; dk_staged : list krecord; dk_in : bool; dk_flight : nat }.

#[export] Instance demo_client : KafkaClient demo_broker := {|
  NewClient b := (None, mkDemo (dk_committed b) [] false 0);
  BeginTransaction b :=
    if dk_in b then (Some (bs "in a transaction"), b) else (None, mkDemo (dk_committed b) [] true (dk_flight b));
  Produce b r :=
    mkDemo (dk_committed b) (if dk_in b then dk_staged b ++ [r] else dk_staged b) (dk_in b) (S (dk_flight b));
  callback b := match dk_flight b with
                | O => None
                | S n => Some (None, mkDemo (dk_committed b) (dk_staged b) (dk_in b) n)
                end;
  Flush b := (None, [], mkDemo (dk_committed b) (dk_staged b) (dk_in b) 0);
  AbortBufferedRecords b := (None, [], mkDemo (dk_committed b) (dk_staged b) (dk_in b) 0);
  EndTransaction b commit :=
    if commit then
      if dk_in b then (None, mkDemo (dk_committed b ++ dk_staged b) [] false (dk_flight b))
      else (Some (bs "not in a transaction"), b)
    else (None, mkDemo (dk_committed b) [] false (dk_flight b));
  CloseClient b := mkDemo (dk_committed b) [] false (dk_flight b)
|}.

#[export] Program Instance demo_transactions : KafkaTransactions demo_broker := {|
  committed := dk_committed; staged := dk_staged; inTxn := dk_in; inflight := dk_flight
|}.
Solve Obligations with
  cbn; intros; repeat first [case_match | done | progress simplify_eq | split]; auto.

(** A driver: the trace and state after a list of events, if all are allowed. *)
#[export] Instance allowed_dec {B} tr (s : TxnKafkaSink B) ev : Decision (allowed tr s ev).
Proof. destruct ev as [| | | | | | |]; cbn; try apply _. destruct (phase s); [left|right|left|left]; naive_solver. Defined.

Fixpoint drive {B} `{KafkaClient B} cfg buildTLS (tr : list (event * outcome)) (s : TxnKafkaSink B) (evs : list event)
    : option (list (event * outcome) * TxnKafkaSink B) :=
  match evs with
  | [] => Some (tr, s)
  | ev :: evs =>
      if decide (allowed tr s ev) then
        match sink_do cfg buildTLS s ev with
        | Some (s', o) => drive cfg buildTLS (tr ++ [(ev, o)]) s' evs
        | None => None
        end
      else None
  end.

Lemma drive_run {B} `{KafkaClient B} cfg buildTLS (s0 : TxnKafkaSink B) tr s evs tr' s' :
  run cfg buildTLS s0 tr s → drive cfg buildTLS tr s evs = Some (tr', s') → run cfg buildTLS s0 tr' s'.
Proof.
  revert tr s. induction evs as [|ev evs IH]; intros tr s Hr; cbn; [by intros [= <- <-]|].
  case_decide as Hal; [|done]. destruct (sink_do _ _ _ _) as [[s1 o]|] eqn:E; [|done].
  apply IH. by econstructor.
Qed.

Definition demo_cfg : txnKafkaConfig :=
  mkTxnCfg [bs "b:9092"] (bs "out") (bs "job") (bs "out.checkpoints") None None None.
Definition no_tls (_ : TLSConfig) : result (option tls_config) := Ok None.
Definition demo_r1 : Record_ := NewRecord 5 (bs "k") (bs "a").
Definition demo_r2 : Record_ := NewRecord 6 (bs "k") (bs "b").
Definition demo_start : TxnKafkaSink demo_broker := new_sink (mkDemo [] [] false 0).
Definition demo_events : list event :=
  [EvStart; EvRecv demo_r1; EvCallback; EvRecv (NewBarrier (bs "1")); EvCommit (bs "1"); EvRecv demo_r2; EvClosed].
(** The end of the demonstration: one interval is visible, [demo_r2] is not. *)
Definition demo_end : list (event * outcome) * TxnKafkaSink demo_broker :=
  default ([], demo_start) (drive demo_cfg no_tls [] demo_start demo_events).

Lemma demo_sink_run : run demo_cfg no_tls demo_start demo_end.1 demo_end.2.
Proof. apply (drive_run demo_cfg no_tls demo_start [] demo_start demo_events); [constructor|]. vm_compute. reflexivity. Qed.

Lemma txn_sink_refines_contract_witness :
  ∃ c, contract_run demo_cfg (mkContract [] []) demo_end.1 c
    ∧ committed (kafka demo_end.2) = [] ++ (done c ≫= interval_out demo_cfg)
    ∧ Forall (λ x, Forall (serializable demo_cfg) x.2) (done c).
Proof.
  exact (txn_sink_refines_contract demo_cfg no_tls (mkDemo [] [] false 0) demo_end.1 demo_end.2 demo_sink_run).
Defined.

Lemma txn_output_is_prefix_witness :
  ∃ d rest, committed (kafka demo_end.2) = [] ++ (d ≫= interval_out demo_cfg)
    ∧ concat d.*2 ++ rest = [demo_r1; demo_r2]
    ∧ Forall (λ x, Forall (serializable demo_cfg) x.2) d.
Proof.
  refine (txn_output_is_prefix demo_cfg no_tls (mkDemo [] [] false 0) Quiet (tail demo_end.1) demo_end.2 demo_sink_run _).
  vm_compute. repeat constructor.
Defined.
