(* ===== verification/TxnProbe.v ===== *)
(** * The marker probe of the transactional sink

    [WasCommitted] of [src/sink/kafka_txn.go]: after a restart the marker topic
    is read under read-committed isolation up to the stable offsets listed at
    the start, and the checkpoint's transaction committed exactly when its
    marker is found.  The admin and fetch requests are parameters; error texts
    leave out partition numbers and topic names.

    The last section composes the probe with the sink of [TxnSink] and gives
    the checkpoint coordinator the probe its theorems ask for. *)

From S2P Require Import Prelude Record Coordinator ExactlyOnce TxnSink.

(** [kadm.ListedOffset] *)
Record ListedOffset := mkListed { lo_partition : Z; lo_offset : Z; lo_err : option bytes }.

(** A record of a fetched partition. *)
Record frecord := mkFRecord { f_offset : Z; f_key : bytes; f_value : bytes }.

#[export] Instance frecord_eq_dec : EqDecision frecord.
Proof. solve_decision. Defined.

(** [kgo.FetchPartition] *)
Record FetchPartition := mkFetchPartition {
  fp_err : option bytes;
  fp_records : list frecord;
  fp_lastStable : Z
}.

(** A reply of [RequestSharded]. *)
Inductive shard (raw : Type) :=
| ShardErr (e : bytes)
| ShardUnexpected
| ShardResp (topics : list (list (Z * raw))).
Arguments ShardErr {raw} e.
Arguments ShardUnexpected {raw}.
Arguments ShardResp {raw} topics.

(** The marker of [txnID] for [checkpointID]. *)
Definition is_marker (txnID checkpointID : bytes) (r : frecord) : bool :=
  bool_decide (f_key r = txnID) && bool_decide (f_value r = checkpointID).

(** [inspectMarkerPartition]: whether the marker was seen, and whether the
    boundary is known to be reached. *)
Fixpoint inspect_records (txnID checkpointID : bytes) (recs : list frecord) (last : Z) : bool * Z :=
  match recs with
  | [] => (false, last)
  | r :: recs =>
      if is_marker txnID checkpointID r then (true, f_offset r)
      else inspect_records txnID checkpointID recs (f_offset r)
  end.

Definition inspectMarkerPartition (part : FetchPartition) (boundary : Z) (txnID checkpointID : bytes) : bool * bool :=
  match inspect_records txnID checkpointID (fp_records part) (-1) with
  | (true, _) => (true, true)
  | (false, last) =>
      (false, (boundary <=? last + 1)
              || (bool_decide (fp_records part = []) && (boundary <=? fp_lastStable part)))
  end.

(** [positions[partition]]: a missing entry reads as zero. *)
Definition pos_of (positions : gmap Z Z) (p : Z) : Z := default 0 (positions !! p).

(** [allMarkerPartitionsDone] *)
Definition allMarkerPartitionsDone (boundaries positions : gmap Z Z) : bool :=
  forallb (λ '(p, b), negb (pos_of positions p <? b)) (map_to_list boundaries).

Section probe.
Context {raw : Type}.
Context (newProbe : option bytes) (ListCommittedOffsets ListStartOffsets : result (list ListedOffset)).
Context (Metadata : result (option (option bytes))).
Context (RequestSharded : gmap Z Z → list (shard raw)).
Context (ProcessFetchPartition : Z → Z → raw → FetchPartition * Z).
Context (txnID id : bytes).

Definition probe_error (msg : bytes) : bytes := bs "txn kafka sink: marker probe " ++ msg.

(** One fetched partition: look for the marker, move the position. *)
Definition process_part (boundaries : gmap Z Z) (st : bool * bool * gmap Z Z) (x : Z * raw) : result (bool * bool * gmap Z Z) :=
  let '(found, progressed, positions) := st in
  let position := pos_of positions x.1 in
  let '(part, next) := ProcessFetchPartition position x.1 x.2 in
  match fp_err part with
  | Some e => Err (probe_error (bs "fetch partition: " ++ e))
  | None =>
      let found := found || (inspectMarkerPartition part (pos_of boundaries x.1) txnID id).1 in
      if position <? next then Ok (found, true, <[x.1 := next]> positions) else Ok (found, progressed, positions)
  end.

Fixpoint process_parts (boundaries : gmap Z Z) (st : bool * bool * gmap Z Z) (xs : list (Z * raw)) : result (bool * bool * gmap Z Z) :=
  match xs with
  | [] => Ok st
  | x :: xs => st <-? process_part boundaries st x ;; process_parts boundaries st xs
  end.

Fixpoint process_shards (boundaries : gmap Z Z) (st : bool * bool * gmap Z Z) (shards : list (shard raw)) : result (bool * bool * gmap Z Z) :=
  match shards with
  | [] => Ok st
  | ShardErr e :: _ => Err (probe_error (bs "fetch: " ++ e))
  | ShardUnexpected :: _ => Err (probe_error (bs "unexpected fetch response"))
  | ShardResp topics :: shards => st <-? process_parts boundaries st (concat topics) ;; process_shards boundaries st shards
  end.

(** The partitions a round asks for, with the offset to fetch from. *)
Definition fetch_request (boundaries positions : gmap Z Z) : gmap Z Z :=
  map_imap (λ p b, if b <=? pos_of positions p then None else Some (pos_of positions p)) boundaries.

(** The fetch loop; [None] is a lack of fuel. *)
Fixpoint probe_loop (fuel : nat) (boundaries positions : gmap Z Z) : option (result bool) :=
  match fuel with
  | O => None
  | S fuel =>
      match process_shards boundaries (false, false, positions) (RequestSharded (fetch_request boundaries positions)) with
      | Err e => Some (Err e)
      | Panic e => Some (Panic e)
      | Ok (found, progressed, positions) =>
          if found then Some (Ok true)
          else if allMarkerPartitionsDone boundaries positions then Some (Ok false)
          else if negb progressed then Some (Err (probe_error (bs "made no progress before stable boundary")))
          else probe_loop fuel boundaries positions
      end
  end.

(** What is left to read: the rounds never exceed it. *)
Definition remaining (boundaries positions : gmap Z Z) : nat :=
  sum_list ((λ x : Z * Z, Z.to_nat (x.2 - pos_of positions x.1)) <$> map_to_list boundaries).

(** The boundaries of the listed partitions. *)
Definition boundaries_of (ends : list ListedOffset) : gmap Z Z :=
  foldl (λ m lo, if bool_decide (lo_err lo = None) && (0 <=? lo_partition lo)
                 then <[lo_partition lo := lo_offset lo]> m else m) ∅ ends.

(** [starts.Lookup] *)
Definition start_lookup (starts : list ListedOffset) (p : Z) : option ListedOffset :=
  head (filter (λ lo, lo_partition lo = p) starts).

Definition start_ok (starts : list ListedOffset) (p : Z) : option Z :=
  match start_lookup starts p with
  | Some lo => match lo_err lo with None => Some (lo_offset lo) | Some _ => None end
  | None => None
  end.

Definition positions_of (starts : list ListedOffset) (boundaries : gmap Z Z) : gmap Z Z :=
  map_imap (λ p _, start_ok starts p) boundaries.

(** [WasCommitted]; [opts] is the outcome of [baseOpts]. *)
Definition WasCommitted (opts : result unit) : option (result bool) :=
  match opts, newProbe with
  | Err e, _ | Panic e, _ => Some (Err (probe_error e))
  | _, Some e => Some (Err (probe_error (bs "client: " ++ e)))
  | Ok _, None =>
      match ListCommittedOffsets with
      | Err e | Panic e => Some (Err (probe_error (bs "stable offsets: " ++ e)))
      | Ok ends =>
          let boundaries := boundaries_of ends in
          match head (omap lo_err ends) with
          | Some e => Some (Err (probe_error (bs "partition: " ++ e)))
          | None =>
              if bool_decide (boundaries = ∅) then Some (Err (probe_error (bs "topic has no readable partitions")))
              else
                match ListStartOffsets with
                | Err e | Panic e => Some (Err (probe_error (bs "start offsets: " ++ e)))
                | Ok starts =>
                    if forallb (λ x, bool_decide (is_Some (start_ok starts x.1))) (map_to_list boundaries) then
                      let positions := positions_of starts boundaries in
                      match Metadata with
                      | Err e | Panic e => Some (Err (probe_error (bs "metadata: " ++ e)))
                      | Ok None | Ok (Some (Some _)) => Some (Err (probe_error (bs "metadata unavailable")))
                      | Ok (Some None) =>
                          if allMarkerPartitionsDone boundaries positions then Some (Ok false)
                          else probe_loop (S (remaining boundaries positions)) boundaries positions
                      end
                    else Some (Err (probe_error (bs "start offset unavailable")))
                end
          end
      end
  end.

(** ** What the probe relies on

    [clog p] is the read-committed content of partition [p] of the marker topic,
    in offset order. *)
Context (clog : Z → list frecord).

(** The records of [clog p] from [lo] up to [hi]. *)
Definition between (p lo hi : Z) : list frecord := filter (λ r, lo ≤ f_offset r < hi) (clog p).

(** A fetch answers each requested partition at most once, with all committed
    records from the requested offset up to the next one. *)
Definition part_ok (req : gmap Z Z) (x : Z * raw) : Prop :=
  ∃ off part next, req !! x.1 = Some off ∧ ProcessFetchPartition off x.1 x.2 = (part, next)
    ∧ fp_err part = None ∧ off ≤ next ∧ fp_records part = between x.1 off next.

Definition part_advances (req : gmap Z Z) (x : Z * raw) : Prop :=
  ∃ off, req !! x.1 = Some off ∧ off < (ProcessFetchPartition off x.1 x.2).2.

Definition reply_parts (shards : list (shard raw)) : list (Z * raw) :=
  shards ≫= λ s, match s with ShardResp topics => concat topics | _ => [] end.

(** The requests of the probe: listed partitions, below their boundary. *)
Definition requestable (bds req : gmap Z Z) : Prop :=
  ∀ p off, req !! p = Some off → ∃ b, bds !! p = Some b ∧ off < b.

Record fetch_law (bds : gmap Z Z) : Prop := {
  fl_resp req : requestable bds req → Forall (λ s, ∃ topics, s = ShardResp topics) (RequestSharded req);
  fl_once req : requestable bds req → NoDup (reply_parts (RequestSharded req)).*1;
  fl_parts req : requestable bds req → Forall (part_ok req) (reply_parts (RequestSharded req));
  fl_progress req : requestable bds req → req ≠ ∅ →
    Exists (part_advances req) (reply_parts (RequestSharded req))
}.

Notation matches := (is_marker txnID id).

Lemma inspect_records_found recs last :
  (inspect_records txnID id recs last).1 = existsb matches recs.
Proof. revert last. induction recs as [|r recs IH]; intros last; cbn; [done|]. by destruct (matches r). Qed.

Lemma inspect_found part b : (inspectMarkerPartition part b txnID id).1 = existsb matches (fp_records part).
Proof.
  unfold inspectMarkerPartition. rewrite <- (inspect_records_found _ (-1)).
  by destruct (inspect_records _ _ _ _) as [[|] ?].
Qed.

(** A round over the parts of a reply. *)
Record round (st st' : bool * bool * gmap Z Z) : Prop := {
  rd_found : st'.1.1 = true → st.1.1 = true ∨ ∃ p r, r ∈ clog p ∧ matches r = true;
  rd_keeps : st.1.1 = true → st'.1.1 = true;
  rd_mono p : pos_of st.2 p ≤ pos_of st'.2 p;
  rd_scanned : st'.1.1 = false → ∀ p r, r ∈ clog p →
    pos_of st.2 p ≤ f_offset r < pos_of st'.2 p → matches r = false
}.

Lemma pos_of_insert m p q v : pos_of (<[p := v]> m) q = if decide (q = p) then v else pos_of m q.
Proof. unfold pos_of. case_decide; subst; [by rewrite lookup_insert_eq|by rewrite lookup_insert_ne]. Qed.

Lemma process_part_round bds req st x : part_ok req x → req !! x.1 = Some (pos_of st.2 x.1) →
  ∃ st', process_part bds st x = Ok st' ∧ round st st'
    ∧ (∀ q, q ≠ x.1 → pos_of st'.2 q = pos_of st.2 q)
    ∧ (st'.1.2 = true → st.1.2 = true ∨ pos_of st.2 x.1 < pos_of st'.2 x.1)
    ∧ (st.1.2 = true ∨ part_advances req x → st'.1.2 = true).
Proof.
  intros (off & part & next & Hreq & Hpf & He & Hle & Hrecs) Hpos. rewrite Hpos in Hreq. injection Hreq as <-.
  destruct st as [[found prog] pos]. cbn in *. rewrite Hpf, He, inspect_found, Hrecs.
  assert (∀ r, r ∈ clog x.1 → pos_of pos x.1 ≤ f_offset r < next →
    existsb matches (between x.1 (pos_of pos x.1) next) = false → matches r = false) as Hscan.
  { intros r Hr Hb Hex. destruct (matches r) eqn:E; [|done]. rewrite <- Hex. symmetry. apply existsb_exists.
    exists r. split; [|done]. apply list_elem_of_In, list_elem_of_filter. done. }
  assert (existsb matches (between x.1 (pos_of pos x.1) next) = true → ∃ p r, r ∈ clog p ∧ matches r = true) as Hfnd.
  { intros (r & Hr%list_elem_of_In & Hm)%existsb_exists. apply list_elem_of_filter in Hr as [_ Hr]. eauto. }
  assert (part_advances req x → pos_of pos x.1 < next) as Hadv.
  { intros (o & Ho & Hlt). rewrite Hpos in Ho. injection Ho as <-. by rewrite Hpf in Hlt. }
  destruct (Z.ltb_spec (pos_of pos x.1) next) as [Hlt|Hge]; eexists; (split; [done|]); split_and!; cbn.
  - split; cbn.
    + intros [?|?]%orb_true_iff; auto.
    + by intros ->.
    + intros p. rewrite pos_of_insert. case_decide; subst; lia.
    + intros [Hf Hex]%orb_false_iff p r Hr. rewrite pos_of_insert. case_decide; [subst; eauto|lia].
  - intros q Hq. rewrite pos_of_insert. by case_decide.
  - intros _. right. rewrite pos_of_insert, decide_True by done. lia.
  - done.
  - split; cbn.
    + intros [?|?]%orb_true_iff; auto.
    + by intros ->.
    + done.
    + intros; lia.
  - done.
  - auto.
  - intros [?|Ha]; [done|]. apply Hadv in Ha. lia.
Qed.

Lemma round_refl st : round st st.
Proof. split; auto; intros; lia. Qed.

Lemma round_trans st1 st2 st3 : round st1 st2 → round st2 st3 → round st1 st3.
Proof.
  intros R1 R2. split.
  - intros H3. destruct (rd_found _ _ R2 H3) as [H2|]; [|auto]. apply (rd_found _ _ R1 H2).
  - intros H1. apply (rd_keeps _ _ R2), (rd_keeps _ _ R1), H1.
  - intros p. pose proof (rd_mono _ _ R1 p). pose proof (rd_mono _ _ R2 p). lia.
  - intros Hf p r Hr Hb. destruct (decide (f_offset r < pos_of st2.2 p)).
    + eapply (rd_scanned _ _ R1); [|done|lia]. destruct (st2.1.1) eqn:E; [|done].
      by rewrite (rd_keeps _ _ R2 E) in Hf.
    + eapply (rd_scanned _ _ R2); [done|done|lia].
Qed.

Lemma process_parts_round bds req st xs : Forall (part_ok req) xs → NoDup xs.*1 →
  Forall (λ x, req !! x.1 = Some (pos_of st.2 x.1)) xs →
  ∃ st', process_parts bds st xs = Ok st' ∧ round st st'
    ∧ (∀ q, q ∉ xs.*1 → pos_of st'.2 q = pos_of st.2 q)
    ∧ (st'.1.2 = true → st.1.2 = true ∨ ∃ x, x ∈ xs ∧ pos_of st.2 x.1 < pos_of st'.2 x.1)
    ∧ (st.1.2 = true ∨ Exists (part_advances req) xs → st'.1.2 = true).
Proof.
  revert st. induction xs as [|x xs IH]; intros st Hok Hnd Hreq.
  { exists st. split; [done|]. split; [apply round_refl|]. split; [done|]. split; [auto|].
    by intros [?|?%Exists_nil]. }
  apply Forall_cons in Hok as [Hx Hok]. apply NoDup_cons in Hnd as [Hni Hnd]. apply Forall_cons in Hreq as [Hrx Hreq].
  destruct (process_part_round bds req st x Hx Hrx) as (st1 & E1 & R1 & O1 & P1 & A1).
  destruct (IH st1 Hok Hnd) as (st2 & E2 & R2 & O2 & P2 & A2).
  { rewrite Forall_forall in *. intros y Hy. rewrite O1; [by apply Hreq|]. intros Heq. apply Hni. rewrite <- Heq.
    apply list_elem_of_fmap. eauto. }
  exists st2. cbn. rewrite E1. cbn. split; [done|]. split; [by eapply round_trans|]. split_and!.
  - intros q [Hq1 Hq2]%not_elem_of_cons. rewrite O2, O1 by done. done.
  - intros H2. destruct (P2 H2) as [H1|(y & Hy & Hlt)].
    + destruct (P1 H1) as [?|Hlt]; [auto|]. right. exists x. split; [left|].
      pose proof (rd_mono _ _ R2 x.1). lia.
    + right. exists y. split; [by right|]. pose proof (rd_mono _ _ R1 y.1). lia.
  - intros [H0|Hex]; [by apply A2; left; apply A1; left|].
    apply Exists_cons in Hex as [Hex|Hex]; apply A2; [left; apply A1|]; auto.
Qed.

Lemma process_shards_parts bds st shards : Forall (λ s, ∃ topics, s = ShardResp topics) shards →
  process_shards bds st shards = process_parts bds st (reply_parts shards).
Proof.
  intros Hs. revert st. induction Hs as [|s shards [topics ->] _ IH]; intros st; [done|]. cbn.
  assert (∀ xs ys st, process_parts bds st (xs ++ ys) = st' <-? process_parts bds st xs ;; process_parts bds st' ys) as Happ.
  { clear. induction xs as [|x xs IH]; intros ys st; [done|]. cbn. destruct (process_part bds st x); cbn; auto. }
  unfold reply_parts in *. rewrite Happ. destruct (process_parts bds st (concat topics)); cbn; auto.
Qed.

(** ** The loop *)

Lemma fetch_request_lookup bds pos p off : fetch_request bds pos !! p = Some off ↔
  off = pos_of pos p ∧ ∃ b, bds !! p = Some b ∧ pos_of pos p < b.
Proof.
  unfold fetch_request. rewrite map_lookup_imap. destruct (bds !! p) as [b|]; cbn; [|naive_solver].
  destruct (Z.leb_spec b (pos_of pos p)); split.
  - done.
  - intros (_ & b' & [= <-] & ?). lia.
  - intros [= <-]. split; [done|]. exists b. split; [done|lia].
  - by intros [-> _].
Qed.

Lemma all_done_iff bds pos : allMarkerPartitionsDone bds pos = true ↔ ∀ p b, bds !! p = Some b → b ≤ pos_of pos p.
Proof.
  unfold allMarkerPartitionsDone. rewrite forallb_forall. split.
  - intros Ha p b Hb. specialize (Ha (p, b)). cbn in Ha. apply elem_of_map_to_list, list_elem_of_In in Hb.
    specialize (Ha Hb). b2p. lia.
  - intros Ha [p b] Hb. apply list_elem_of_In, elem_of_map_to_list, Ha in Hb. cbn.
    destruct (Z.ltb_spec (pos_of pos p) b); [lia|done].
Qed.

Lemma sum_list_le {A} (f g : A → nat) l : (∀ x, x ∈ l → (f x ≤ g x)%nat) → (sum_list (f <$> l) ≤ sum_list (g <$> l))%nat.
Proof.
  induction l as [|x l IH]; intros Hle; cbn; [done|].
  pose proof (Hle x (list_elem_of_here _ _)). specialize (IH (λ y Hy, Hle y (list_elem_of_further _ _ _ Hy))). lia.
Qed.

Lemma sum_list_lt {A} (f g : A → nat) l x : (∀ y, y ∈ l → (f y ≤ g y)%nat) → x ∈ l → (f x < g x)%nat →
  (sum_list (f <$> l) < sum_list (g <$> l))%nat.
Proof.
  intros Hle Hx Hlt. apply list_elem_of_split in Hx as (l1 & l2 & ->). 
  rewrite !fmap_app. cbn. induction l1 as [|y l1 IH]; cbn in *.
  - pose proof (sum_list_le f g l2 (λ y Hy, Hle y (list_elem_of_further _ _ _ Hy))). lia.
  - pose proof (Hle y (list_elem_of_here _ _)). specialize (IH (λ z Hz, Hle z (list_elem_of_further _ _ _ Hz))). lia.
Qed.

(** A round that moves a position leaves less to read. *)
Lemma remaining_lt bds pos pos' p b : (∀ q, pos_of pos q ≤ pos_of pos' q) →
  bds !! p = Some b → pos_of pos p < b → pos_of pos p < pos_of pos' p →
  (remaining bds pos' < remaining bds pos)%nat.
Proof.
  intros Hm Hp Hb Hlt. unfold remaining. apply (sum_list_lt _ _ _ (p, b)); [|by apply elem_of_map_to_list|cbn; lia].
  intros [q c] _. cbn. specialize (Hm q). lia.
Qed.

Lemma probe_loop_exact fuel bds pos : fetch_law bds → allMarkerPartitionsDone bds pos = false →
  (remaining bds pos < fuel)%nat →
  (∀ p r, is_Some (bds !! p) → r ∈ clog p → f_offset r < pos_of pos p → matches r = false) →
  ∃ found, probe_loop fuel bds pos = Some (Ok found)
    ∧ (found = true → ∃ p r, r ∈ clog p ∧ matches r = true)
    ∧ (found = false → ∀ p b r, bds !! p = Some b → r ∈ clog p → f_offset r < b → matches r = false).
Proof.
  intros HF. revert pos. induction fuel as [|fuel IH]; intros pos Hnd Hfuel Hsc; [lia|]. cbn [probe_loop].
  set (req := fetch_request bds pos).
  assert (requestable bds req) as Hq by (intros p off [-> Hb]%fetch_request_lookup; exact Hb).
  rewrite process_shards_parts by by apply HF.
  assert (req ≠ ∅) as Hne.
  { intros He. apply not_true_iff_false in Hnd. apply Hnd, all_done_iff. intros p b Hb.
    destruct (decide (b ≤ pos_of pos p)); [done|]. assert (req !! p = Some (pos_of pos p)) as Hr
      by (apply fetch_request_lookup; split; [done|]; exists b; split; [done|lia]). by rewrite He, lookup_empty in Hr. }
  destruct (process_parts_round bds req (false, false, pos) (reply_parts (RequestSharded req))) as
    ([[found prog] pos'] & -> & HR & _ & HP & HA); [by apply HF|by apply HF| |]; cbn in *.
  { eapply Forall_impl; [apply (fl_parts _ HF req Hq)|]. intros x (off & part & next & Hx & _). rewrite Hx. f_equal.
    by apply fetch_request_lookup in Hx as [-> _]. }
  destruct HR as [R1 _ R3 R4]. cbn in *. destruct found.
  { exists true. split; [done|]. split; [|done]. intros _. by destruct (R1 eq_refl). }
  assert (∀ p r, r ∈ clog p → is_Some (bds !! p) → f_offset r < pos_of pos' p → matches r = false) as Hsc'.
  { intros p r Hr Hb Ho. destruct (decide (f_offset r < pos_of pos p)); [eauto|]. eapply R4; [done|done|lia]. }
  destruct (allMarkerPartitionsDone bds pos') eqn:Ed.
  { exists false. split; [done|]. split; [done|]. intros _ p b r Hb Hr Ho. apply (Hsc' p); [done|by eexists|].
    pose proof (proj1 (all_done_iff _ _) Ed p b Hb). lia. }
  rewrite HA by (right; by apply HF). cbn. apply IH; [done| |eauto].
  destruct (HP (HA (or_intror (fl_progress _ HF req Hq Hne)))) as [?|(x & Hx & Hlt)]; [done|].
  apply (proj1 (Forall_forall _ _) (fl_parts _ HF req Hq)) in Hx as (off & _ & _ & Hreq & _).
  apply fetch_request_lookup in Hreq as (_ & b & Hb & Hlb).
  pose proof (remaining_lt bds pos pos' x.1 b R3 Hb Hlb Hlt). lia.
Qed.

(** The listed offsets are those of a readable topic whose records are all kept. *)
Record listing_law (ends starts : list ListedOffset) : Prop := {
  ll_ends : ListCommittedOffsets = Ok ends;
  ll_ends_ok : Forall (λ lo, lo_err lo = None ∧ 0 ≤ lo_partition lo) ends;
  ll_some : ends ≠ [];
  ll_starts : ListStartOffsets = Ok starts;
  ll_start_ok p : p ∈ lo_partition <$> ends → ∃ o, start_ok starts p = Some o ∧ Forall (λ r, o ≤ f_offset r) (clog p);
  ll_meta : Metadata = Ok (Some None)
}.

Lemma boundaries_dom ends p : Forall (λ lo, lo_err lo = None ∧ 0 ≤ lo_partition lo) ends →
  is_Some (boundaries_of ends !! p) ↔ p ∈ lo_partition <$> ends.
Proof.
  unfold boundaries_of. intros Hok. induction ends as [|lo ends IH] using rev_ind.
  { cbn. rewrite lookup_empty. split; [by intros [? ?]|by intros ?%not_elem_of_nil]. }
  apply Forall_app in Hok as [Hok Hlo]. rewrite Forall_singleton in Hlo. destruct Hlo as [He Hp].
  rewrite foldl_app, fmap_app, elem_of_app. cbn. rewrite bool_decide_true, (proj2 (Z.leb_le _ _)) by done. cbn.
  rewrite list_elem_of_singleton. destruct (decide (p = lo_partition lo)) as [->|Hne].
  - rewrite lookup_insert_eq. split; [auto|by eexists].
  - rewrite lookup_insert_ne, IH by done. naive_solver.
Qed.

Lemma WasCommitted_exact ends starts : newProbe = None → listing_law ends starts → fetch_law (boundaries_of ends) →
  ∃ found, WasCommitted (Ok ()) = Some (Ok found)
    ∧ (found = true → ∃ p r, r ∈ clog p ∧ matches r = true)
    ∧ (found = false → ∀ p b r, boundaries_of ends !! p = Some b → r ∈ clog p → f_offset r < b → matches r = false).
Proof.
  intros Hnp [L1 L2 L3 L4 L5 L6] HF. unfold WasCommitted. rewrite Hnp, L1, L4, L6.
  assert (omap lo_err ends = []) as ->.
  { clear -L2. induction L2 as [|lo ends [He _] _ IH]; [done|]. cbn. by rewrite He. }
  cbn [head]. rewrite bool_decide_false.
  2:{ intros He. destruct ends as [|lo ends]; [done|]. destruct (proj2 (boundaries_dom (lo :: ends) (lo_partition lo) L2)) as [b Hb].
      - left.
      - by rewrite He, lookup_empty in Hb. }
  rewrite (proj2 (forallb_forall _ _)).
  2:{ intros [p b] Hin. apply list_elem_of_In, elem_of_map_to_list in Hin. apply bool_decide_eq_true. cbn.
      destruct (L5 p) as (o & -> & _); [apply (boundaries_dom ends); [done|by eexists]|by eexists]. }
  assert (∀ p, is_Some (boundaries_of ends !! p) →
    ∀ r, r ∈ clog p → pos_of (positions_of starts (boundaries_of ends)) p ≤ f_offset r) as Hstart.
  { intros p Hb r Hr. destruct (L5 p) as (o & Ho & Hf); [by apply (boundaries_dom ends)|].
    destruct Hb as [b Hb]. unfold pos_of, positions_of. rewrite map_lookup_imap, Hb. cbn. rewrite Ho. cbn.
    by apply (proj1 (Forall_forall _ _) Hf). }
  destruct (allMarkerPartitionsDone _ _) eqn:Ed.
  - exists false. split; [done|]. split; [done|]. intros _ p b r Hb Hr Ho. exfalso.
    pose proof (proj1 (all_done_iff _ _) Ed p b Hb). assert (is_Some (boundaries_of ends !! p)) as Hs by (by eexists).
    specialize (Hstart p Hs r Hr). lia.
  - apply probe_loop_exact; [done|done|lia|]. intros p r Hb Hr Ho. specialize (Hstart p Hb r Hr). lia.
Qed.
End probe.

(** ** Composition with the sink and the coordinator *)

(** The topic a message goes to. *)
Definition topic_of (cfg : txnKafkaConfig) (m : krecord) : bytes :=
  if bool_decide (kTopic m = []) then cfg_topic cfg else kTopic m.

(** A message of the marker topic under this transactional ID. *)
Definition marks (cfg : txnKafkaConfig) (m : krecord) : Prop :=
  topic_of cfg m = cfg_markerTopic cfg ∧ kKey m = cfg_txnID cfg.

#[export] Instance marks_dec cfg m : Decision (marks cfg m).
Proof. unfold marks. apply _. Defined.

(** The checkpoints whose marker a read-committed consumer sees. *)
Definition marked (cfg : txnKafkaConfig) (ms : list krecord) : gset bytes :=
  list_to_set (kValue <$> filter (marks cfg) ms).

Lemma marked_app cfg ms ms' : marked cfg (ms ++ ms') = marked cfg ms ∪ marked cfg ms'.
Proof. unfold marked. by rewrite filter_app, fmap_app, list_to_set_app_L. Qed.

Section separated.
Context (cfg : txnKafkaConfig).
Context (Hsep : cfg_topic cfg ≠ cfg_markerTopic cfg) (Hset : cfg_markerTopic cfg ≠ []).

(** Data never looks like a marker; a marker does. *)
Lemma marked_interval x : marked cfg (interval_out cfg x) = {[x.1]}.
Proof using Hsep Hset.
  unfold interval_out. rewrite marked_app. assert (marked cfg (x.2 ≫= output cfg) = ∅) as ->.
  { unfold marked. rewrite filter_none; [done|]. apply Forall_forall. intros m Hm [Ht _].
    apply list_elem_of_bind in Hm as (r & Hm & _). unfold output in Hm.
    destruct (serialized cfg r); [|by apply not_elem_of_nil in Hm].
    apply list_elem_of_singleton in Hm as ->. unfold topic_of in Ht. cbn in Ht. done. }
  rewrite (left_id_L ∅ (∪)). unfold marked. rewrite filter_cons_True; [cbn; by rewrite (right_id_L ∅ (∪))|].
  split; [|done]. unfold topic_of. cbn. by rewrite bool_decide_false.
Qed.

Lemma marked_done d : marked cfg (d ≫= interval_out cfg) = list_to_set d.*1.
Proof using Hsep Hset.
  induction d as [|x d IH]; [done|]. rewrite bind_cons, marked_app, IH, marked_interval. done.
Qed.
End separated.

(** A topic created by the constructor's default is never the output topic. *)
Lemma default_marker_topic buildTLS opts cfg : NewTxnKafkaSink buildTLS opts = Ok cfg →
  cfg_markerTopic (foldl (λ c opt, opt c) zeroTxnCfg opts) = [] →
  cfg_topic cfg ≠ cfg_markerTopic cfg ∧ cfg_markerTopic cfg ≠ [].
Proof.
  unfold NewTxnKafkaSink. intros Hn Hm. do 3 (case_bool_decide; [done|]).
  rewrite bool_decide_true in Hn by done. set (c := TxnKafkaMarkerTopic _ _) in Hn.
  destruct (check_sasl c); [|done..]. cbn in Hn. destruct (check_tls _ c); [|done..]. cbn in Hn. injection Hn as <-.
  subst c. cbn. split; [|intros [_ ?]%app_eq_nil; done].
  intros He. apply (f_equal length) in He. rewrite length_app in He. cbn in He. lia.
Qed.

Section composed.
Context {B : Type} `{KafkaTransactions B} {raw : Type}.
Context (cfg : txnKafkaConfig) (buildTLS : TLSConfig → result (option tls_config)).
Context (Hsep : cfg_topic cfg ≠ cfg_markerTopic cfg) (Hset : cfg_markerTopic cfg ≠ []).

(** The requests a probe makes, and the topic content they read. *)
Record probe_io := mkProbeIO {
  io_new : option bytes;
  io_ends : result (list ListedOffset);
  io_starts : result (list ListedOffset);
  io_meta : result (option (option bytes));
  io_fetch : gmap Z Z → list (shard raw);
  io_process : Z → Z → raw → FetchPartition * Z
}.

Definition probe (io : probe_io) (id : bytes) : option (result bool) :=
  WasCommitted (io_new io) (io_ends io) (io_starts io) (io_meta io) (io_fetch io) (io_process io)
    (cfg_txnID cfg) id (Ok ()).

(** The answer as the recovery code takes it: an error stops the recovery. *)
Definition probe_answer (io : probe_io) (id : bytes) : option bool :=
  match probe io id with Some (Ok b) => Some b | _ => None end.

(** The marker topic is readable and shows, below its stable offsets, the
    markers among the committed messages [ms]. *)
Definition shows (io : probe_io) (ms : list krecord) : Prop :=
  ∃ clog ends starts, io_new io = None
    ∧ listing_law (io_ends io) (io_starts io) (io_meta io) clog ends starts
    ∧ fetch_law (io_fetch io) (io_process io) clog (boundaries_of ends)
    ∧ (∀ p r, r ∈ clog p → f_key r = cfg_txnID cfg → ∃ b, boundaries_of ends !! p = Some b ∧ f_offset r < b)
    ∧ (∀ id, (∃ p r, r ∈ clog p ∧ f_key r = cfg_txnID cfg ∧ f_value r = id) ↔ id ∈ marked cfg ms).

Lemma probe_exact io ms id : shows io ms → probe io id = Some (Ok (bool_decide (id ∈ marked cfg ms))).
Proof using.
  intros (clog & ends & starts & Hn & Hl & Hf & Hb & Hm). unfold probe.
  destruct (WasCommitted_exact _ _ _ _ _ _ (cfg_txnID cfg) id clog ends starts Hn Hl Hf) as (found & -> & Ht & Hfa).
  do 2 f_equal. symmetry. destruct found.
  - apply bool_decide_eq_true, Hm. destruct (Ht eq_refl) as (p & r & Hr & Hmk).
    unfold is_marker in Hmk. b2p. exists p, r. by rewrite !bool_decide_eq_true in *.
  - apply bool_decide_eq_false. intros (p & r & Hr & Hk & Hv)%Hm. destruct (Hb p r Hr Hk) as (b & Hbd & Hlt).
    specialize (Hfa eq_refl p b r Hbd Hr Hlt). unfold is_marker in Hfa. by rewrite !bool_decide_true in Hfa.
Qed.

Lemma probe_probes io ms : shows io ms → probes (probe_answer io) (marked cfg ms).
Proof using. intros Hs id. unfold probe_answer. by rewrite (probe_exact io ms id Hs). Qed.

Lemma marked_run (b : B) s c : committed (kafka s) = committed b ++ (done c ≫= interval_out cfg) →
  marked cfg (committed (kafka s)) = marked cfg (committed b) ∪ list_to_set (done c).*1.
Proof using Hsep Hset. intros ->. by rewrite marked_app, marked_done. Qed.
End composed.



(** ** A concrete marker topic *)

Definition demo_log (p : Z) : list frecord :=
  if p =? 0 then [mkFRecord 0 (bs "job") (bs "1")] else [].

Definition demo_io : @probe_io () :=
  mkProbeIO None (Ok [mkListed 0 2 None]) (Ok [mkListed 0 0 None]) (Ok (Some None))
    (λ req, match req !! 0 with Some _ => [ShardResp [[(0, ())]]] | None => [] end)
    (λ off p _, (mkFetchPartition None (between demo_log p off 2) 2, 2)).

Lemma demo_marked : marked demo_cfg (committed (kafka demo_end.2)) = {[bs "1"]}.
Proof.
  unfold marked. assert (kValue <$> filter (marks demo_cfg) (committed (kafka demo_end.2)) = [bs "1"]) as ->
    by (vm_compute; reflexivity).
  cbn. by rewrite (right_id_L ∅ (∪)).
Qed.

Lemma demo_shows : shows demo_cfg demo_io (committed (kafka demo_end.2)).
Proof.
  exists demo_log, [mkListed 0 2 None], [mkListed 0 0 None]. split; [done|].
  assert (∀ p r, r ∈ demo_log p → p = 0 ∧ r = mkFRecord 0 (bs "job") (bs "1")) as Hlog.
  { intros p r. unfold demo_log. destruct (Z.eqb_spec p 0); [|by intros ?%not_elem_of_nil].
    by intros ->%list_elem_of_singleton. }
  assert (∀ req p o, requestable (boundaries_of [mkListed 0 2 None]) req → req !! p = Some o → p = 0 ∧ o < 2) as Hreq.
  { intros req p o Hq Hp. destruct (Hq p o Hp) as (b & Hb & Hlt). unfold boundaries_of in Hb. cbn in Hb.
    apply lookup_insert_Some in Hb as [[<- <-]|[_ Hb]]; [done|]. by rewrite lookup_empty in Hb. }
  split_and!.
  - split; try done; [by repeat constructor|]. intros p [->|[]%elem_of_nil]%elem_of_cons. exists 0. split; [done|].
    by repeat constructor.
  - split; intros req Hq; cbn; destruct (req !! 0) as [o|] eqn:E; cbn.
    + by repeat constructor; eexists.
    + constructor.
    + apply NoDup_singleton.
    + constructor.
    + apply Forall_singleton. exists o, (mkFetchPartition None (between demo_log 0 o 2) 2), 2. cbn.
      destruct (Hreq req 0 o Hq E). split_and!; try done. lia.
    + constructor.
    + intros _. apply Exists_cons. left. exists o. split; [done|]. cbn. by apply (Hreq req 0).
    + intros Hne. exfalso. apply Hne. apply map_eq. intros p. rewrite lookup_empty.
      destruct (req !! p) as [o|] eqn:Ep; [|done]. destruct (Hreq req p o Hq Ep) as [-> _]. congruence.
  - intros p r [-> ->]%Hlog _. exists 2. done.
  - intros id. split.
    + intros (p & r & [_ ->]%Hlog & _ & <-). rewrite demo_marked. by apply elem_of_singleton.
    + rewrite demo_marked. intros ->%elem_of_singleton. exists 0, (mkFRecord 0 (bs "job") (bs "1")). split; [by left|]. done.
Qed.


Lemma demo_down_marked : demo_down.2 = marked demo_cfg (committed (kafka demo_end.2)).
Proof. rewrite demo_marked. transitivity ({[bs "1"]} ∪ ∅ : gset bytes); [reflexivity|]. by rewrite (right_id_L ∅ (∪)). Qed.

