(* ===== verification/JobStore.v ===== *)
(** * The control plane's store ([src/control/store])

    The tables of jobs, runs and transitions and the statements on them.  A
    statement either takes effect or fails without effect; rows keep insertion
    order.  [started_at] is stored as RFC 3339 text, and queries that order by
    it compare the text.  The unique index allows one run without
    [stopped_at] per job. *)

From S2P Require Import Prelude Rfc3339 Lifecycle.

(** [DesiredState] *)
Inductive DesiredState := DesiredRunning | DesiredStopped.

#[export] Instance DesiredState_eq_dec : EqDecision DesiredState.
Proof. solve_decision. Defined.

(** [SecretRef] *)
Record SecretRef := mkSecretRef { sr_Provider : bytes; sr_Name : bytes; sr_Key : bytes }.

#[export] Instance SecretRef_eq_dec : EqDecision SecretRef.
Proof. solve_decision. Defined.

(** [Job.Kind] *)
Inductive JobKind := KindYAML | KindSDK.

(** [Job]; the compiled graph is its stored text. *)
Record Job := mkJob {
  jb_ID : bytes;
  jb_Name : bytes;
  jb_Kind : JobKind;
  jb_Spec : bytes;
  jb_Image : bytes;
  jb_Secrets : gmap bytes SecretRef;
  jb_Delivery : bytes;
  jb_Graph : bytes;
  jb_Desired : DesiredState;
  jb_Created : time;
  jb_Updated : time
}.

(** The failure categories of a run; [NoFailure] is the empty text. *)
Inductive FailureKind :=
| NoFailure | FailureLaunchTransient | FailureLaunchPermanent | FailureLaunchRecord
| FailureSecretBlocked | FailureContainerUnhealthy | FailureOOMKilled.

#[export] Instance FailureKind_eq_dec : EqDecision FailureKind.
Proof. solve_decision. Defined.

(** [Run] *)
Record Run := mkRun {
  rn_ID : bytes;
  rn_JobID : bytes;
  rn_ContainerID : bytes;
  rn_HostPort : Z;
  rn_Phase : Phase;
  rn_Attempt : Z;
  rn_Error : bytes;
  rn_FailureKind : FailureKind;
  rn_Started : time;
  rn_Stopped : option time;
  rn_RestartAt : option time
}.

#[export] Instance Run_eq_dec : EqDecision Run.
Proof. solve_decision. Defined.

(** [Transition]; an empty phase is [None]. *)
Record Transition := mkTransition {
  tn_ID : Z;
  tn_JobID : bytes;
  tn_RunID : bytes;
  tn_From : option Phase;
  tn_To : Phase;
  tn_Reason : bytes;
  tn_At : time
}.

(** The tables. *)
Record store := mkStore {
  st_jobs : list Job;
  st_runs : list Run;
  st_transitions : list Transition;
  st_nextID : Z
}.

Definition emptyStore : store := mkStore [] [] [] 1.

(** A run is active until [stopped_at] is set. *)
Definition active (r : Run) : Prop := rn_Stopped r = None.

#[export] Instance active_dec r : Decision (active r).
Proof. unfold active. apply _. Defined.

Definition set_runs (s : store) (rs : list Run) : store := mkStore (st_jobs s) rs (st_transitions s) (st_nextID s).
Definition set_jobs (s : store) (js : list Job) : store := mkStore js (st_runs s) (st_transitions s) (st_nextID s).
Definition set_transitions (s : store) (ts : list Transition) : store := mkStore (st_jobs s) (st_runs s) ts (st_nextID s).

(** ** Jobs *)

Definition get_job (s : store) (id : bytes) : option Job := head (filter (λ j, jb_ID j = id) (st_jobs s)).

(** [CreateJob] *)
Definition CreateJob (s : store) (j : Job) : result store :=
  match get_job s (jb_ID j) with
  | Some _ => Err (bs "UNIQUE constraint failed: jobs.id")
  | None => Ok (set_jobs s (st_jobs s ++ [j]))
  end.

(** [GetJob] *)
Definition GetJob (s : store) (id : bytes) : result Job :=
  match get_job s id with Some j => Ok j | None => Err (bs "sql: no rows in result set") end.

Definition with_desired (d : DesiredState) (now : time) (j : Job) : Job :=
  mkJob (jb_ID j) (jb_Name j) (jb_Kind j) (jb_Spec j) (jb_Image j) (jb_Secrets j) (jb_Delivery j) (jb_Graph j)
    d (jb_Created j) now.

(** [SetDesired] *)
Definition SetDesired (s : store) (now : time) (id : bytes) (d : DesiredState) : result store :=
  match get_job s id with
  | Some _ => Ok (set_jobs s ((λ j, if bool_decide (jb_ID j = id) then with_desired d now j else j) <$> st_jobs s))
  | None => Err (bs "store: job not found")
  end.

(** [DeleteJob] is three statements. *)
Definition delete_transitions (s : store) (id : bytes) : store :=
  set_transitions s (filter (λ t, tn_JobID t ≠ id) (st_transitions s)).
Definition delete_runs (s : store) (id : bytes) : store :=
  set_runs s (filter (λ r, rn_JobID r ≠ id) (st_runs s)).
Definition delete_job (s : store) (id : bytes) : result store :=
  match get_job s id with
  | Some _ => Ok (set_jobs s (filter (λ j, jb_ID j ≠ id) (st_jobs s)))
  | None => Err (bs "store: job not found")
  end.

(** ** Runs *)

Definition get_run (s : store) (id : bytes) : option Run := head (filter (λ r, rn_ID r = id) (st_runs s)).

(** [GetRun] *)
Definition GetRun (s : store) (id : bytes) : result Run :=
  match get_run s id with Some r => Ok r | None => Err (bs "sql: no rows in result set") end.

(** The active runs of a job. *)
Definition active_of (j : bytes) (rs : list Run) : list Run := filter (λ r, rn_JobID r = j ∧ active r) rs.

(** [insertRun]: the primary key and the unique index. *)
Definition insertRun (s : store) (r : Run) : result store :=
  if bool_decide (is_Some (get_run s (rn_ID r))) then Err (bs "UNIQUE constraint failed: runs.id")
  else if bool_decide (active r) && bool_decide (active_of (rn_JobID r) (st_runs s) ≠ [])
  then Err (bs "UNIQUE constraint failed: runs.job_id")
  else Ok (set_runs s (st_runs s ++ [r])).

(** The columns [updateRun] sets; job and start time stay. *)
Definition overwrite (old r : Run) : Run :=
  mkRun (rn_ID old) (rn_JobID old) (rn_ContainerID r) (rn_HostPort r) (rn_Phase r) (rn_Attempt r)
    (rn_Error r) (rn_FailureKind r) (rn_Started old) (rn_Stopped r) (rn_RestartAt r).

(** [updateRun]: the index also guards a row that becomes active again. *)
Definition updateRun (s : store) (r : Run) : result store :=
  match get_run s (rn_ID r) with
  | None => Err (bs "store: run not found")
  | Some old =>
      if bool_decide (active r) && bool_decide (filter (λ x, rn_ID x ≠ rn_ID r) (active_of (rn_JobID old) (st_runs s)) ≠ [])
      then Err (bs "UNIQUE constraint failed: runs.job_id")
      else Ok (set_runs s ((λ x, if bool_decide (rn_ID x = rn_ID r) then overwrite x r else x) <$> st_runs s))
  end.

(** [appendTransition]: the identifier is the next of the table. *)
Definition appendTransition (s : store) (t : Transition) : store :=
  mkStore (st_jobs s) (st_runs s)
    (st_transitions s ++ [mkTransition (st_nextID s) (tn_JobID t) (tn_RunID t) (tn_From t) (tn_To t) (tn_Reason t) (tn_At t)])
    (st_nextID s + 1).

(** [CreateRunWithTransition] and [UpdateRunWithTransition]: one transaction. *)
Definition CreateRunWithTransition (s : store) (r : Run) (t : Transition) : result store :=
  s <-? insertRun s r ;; Ok (appendTransition s t).
Definition UpdateRunWithTransition (s : store) (r : Run) (t : Transition) : result store :=
  s <-? updateRun s r ;; Ok (appendTransition s t).

(** ** Queries *)

(** [ORDER BY started_at DESC] compares the stored text. *)
Definition started_text (r : Run) : bytes := formatRFC3339Nano (rn_Started r).
Definition text_desc (r1 r2 : Run) : Prop := ¬ bytes_lt (started_text r1) (started_text r2).

#[export] Instance text_desc_dec : RelDecision text_desc.
Proof. intros r1 r2. unfold text_desc. apply _. Defined.

(** [ListRuns] *)
Definition ListRuns (s : store) (j : bytes) : list Run :=
  merge_sort text_desc (filter (λ r, rn_JobID r = j) (st_runs s)).

(** [LatestRun] *)
Definition LatestRun (s : store) (j : bytes) : option Run := head (ListRuns s j).

(** [ActiveRuns] *)
Definition ActiveRuns (s : store) : list Run := filter active (st_runs s).

(** [PruneTerminalRuns]: the terminal runs it deletes, and their transitions. *)
Definition prune_victims (s : store) (j : bytes) (keep : Z) : list Run :=
  let terminal := filter (λ r, rn_JobID r = j ∧ ¬ active r) (st_runs s) in
  if keep <=? 0 then terminal else drop (Z.to_nat keep) (merge_sort text_desc terminal).

Definition PruneTerminalRuns (s : store) (j : bytes) (keep : Z) : store :=
  let ids := rn_ID <$> prune_victims s j keep in
  mkStore (st_jobs s) (filter (λ r, rn_ID r ∉ ids) (st_runs s))
    (filter (λ t, tn_RunID t ∉ ids) (st_transitions s)) (st_nextID s).

(** [ListTransitions] and [ListTransitionsPaged] *)
Definition ListTransitions (s : store) (j : bytes) : list Transition := filter (λ t, tn_JobID t = j) (st_transitions s).

Definition ListTransitionsPaged (s : store) (j : bytes) (beforeID limit : Z) : list Transition :=
  let limit := if limit <=? 0 then 50 else limit in
  let limit := if 200 <? limit then 200 else limit in
  let newest := reverse (ListTransitions s j) in
  take (Z.to_nat limit) (if 0 <? beforeID then filter (λ t, tn_ID t < beforeID) newest else newest).

(** ** Well-formed tables *)

Record store_ok (s : store) : Prop := {
  so_jobs : NoDup (jb_ID <$> st_jobs s);
  so_runs : NoDup (rn_ID <$> st_runs s);
  so_one r r' : r ∈ st_runs s → r' ∈ st_runs s → active r → active r' → rn_JobID r = rn_JobID r' → r = r';
  so_sorted : StronglySorted Z.lt (tn_ID <$> st_transitions s);
  so_next : Forall (λ t, 0 < tn_ID t < st_nextID s) (st_transitions s) ∧ 0 < st_nextID s
}.

(** Every statement the store runs. *)
Inductive statement : store → store → Prop :=
| stmt_createJob s s' j : CreateJob s j = Ok s' → statement s s'
| stmt_setDesired s s' now j d : SetDesired s now j d = Ok s' → statement s s'
| stmt_deleteTransitions s j : statement s (delete_transitions s j)
| stmt_deleteRuns s j : statement s (delete_runs s j)
| stmt_deleteJob s s' j : delete_job s j = Ok s' → statement s s'
| stmt_insertRun s s' r : insertRun s r = Ok s' → statement s s'
| stmt_updateRun s s' r : updateRun s r = Ok s' → statement s s'
| stmt_appendTransition s t : statement s (appendTransition s t)
| stmt_createRunT s s' r t : CreateRunWithTransition s r t = Ok s' → statement s s'
| stmt_updateRunT s s' r t : UpdateRunWithTransition s r t = Ok s' → statement s s'
| stmt_prune s j keep : statement s (PruneTerminalRuns s j keep).

(** Rows that go away. *)
Lemma store_ok_sub s js rs ts : store_ok s → js `sublist_of` st_jobs s → rs `sublist_of` st_runs s →
  ts `sublist_of` st_transitions s → store_ok (mkStore js rs ts (st_nextID s)).
Proof.
  intros [O1 O2 O3 O4 O5] Hj Hr Ht. split; cbn.
  - eapply sublist_NoDup; [exact O1|]. by apply fmap_sublist.
  - eapply sublist_NoDup; [exact O2|]. by apply fmap_sublist.
  - intros r r' H1 H2. apply O3; by eapply elem_of_sublist.
  - assert (Hsub : (tn_ID <$> ts) `sublist_of` (tn_ID <$> st_transitions s)) by (by apply fmap_sublist).
    clear -O4 Hsub. revert O4. induction Hsub as [|x l1 l2 Hs IH|x l1 l2 Hs IH]; intros Hso; [constructor|..];
      apply StronglySorted_inv in Hso as [Hso Hall].
    + constructor; [auto|]. rewrite Forall_forall in *. intros y Hy. apply Hall. by eapply elem_of_sublist.
    + auto.
  - destruct O5 as [O5 ?]. split; [|done]. rewrite Forall_forall in *. intros t Hin. apply O5. by eapply elem_of_sublist.
Qed.

Lemma store_ok_append s t : store_ok s → store_ok (appendTransition s t).
Proof.
  intros [O1 O2 O3 O4 [O5 O6]]. split; cbn; try done.
  - rewrite fmap_app. cbn. clear -O4 O5. induction (st_transitions s) as [|x l IH]; cbn; [repeat constructor|].
    apply Forall_cons in O5 as [Hx O5]. apply StronglySorted_inv in O4 as [O4 Hall]. constructor; [auto|].
    apply Forall_app. split; [done|]. apply Forall_singleton. lia.
  - split; [|lia]. apply Forall_app. split; [|apply Forall_singleton; cbn; lia]. eapply Forall_impl; [exact O5|]. cbn. lia.
Qed.

Lemma run_id_inj rs (x y : Run) : NoDup (rn_ID <$> rs) → x ∈ rs → y ∈ rs → rn_ID x = rn_ID y → x = y.
Proof.
  intros Hnd [i Hi]%list_elem_of_lookup [k Hk]%list_elem_of_lookup Hxy. assert (i = k) as ->; [|congruence].
  apply (NoDup_lookup _ _ _ (rn_ID x) Hnd); rewrite list_lookup_fmap; [by rewrite Hi|]. rewrite Hk. cbn. by rewrite Hxy.
Qed.

Lemma get_run_is_Some s r : r ∈ st_runs s → is_Some (get_run s (rn_ID r)).
Proof.
  intros Hr. unfold get_run. assert (r ∈ filter (λ x, rn_ID x = rn_ID r) (st_runs s)) as Hf by (by apply list_elem_of_filter).
  destruct (filter _ _); [by apply not_elem_of_nil in Hf|by eexists].
Qed.

Lemma active_of_nil j rs r : active_of j rs = [] → r ∈ rs → active r → rn_JobID r ≠ j.
Proof.
  intros Hn Hr Ha Hj. assert (r ∈ active_of j rs) as Hin by (by apply list_elem_of_filter).
  rewrite Hn in Hin. by apply not_elem_of_nil in Hin.
Qed.

Lemma store_ok_insertRun s s' r : store_ok s → insertRun s r = Ok s' → store_ok s'.
Proof.
  intros [O1 O2 O3 O4 O5]. unfold insertRun. case_bool_decide as Hid; [done|].
  destruct (_ && _) eqn:Ea; [done|]. intros [= <-]. split; cbn; try done.
  - rewrite fmap_app. apply NoDup_app. split; [done|]. split; [|apply NoDup_singleton].
    intros x Hx ->%list_elem_of_singleton. apply Hid. apply list_elem_of_fmap in Hx as (y & -> & Hin).
    by apply get_run_is_Some.
  - assert (active r → active_of (rn_JobID r) (st_runs s) = []) as Hnil.
    { intros Ha. rewrite bool_decide_true in Ea by done. apply bool_decide_eq_false in Ea. by apply dec_stable in Ea. }
    intros x y [Hx| ->%list_elem_of_singleton]%elem_of_app [Hy| ->%list_elem_of_singleton]%elem_of_app Hxa Hya Hj.
    + by apply O3.
    + exfalso. by apply (active_of_nil _ _ x (Hnil Hya) Hx Hxa).
    + exfalso. by apply (active_of_nil _ _ y (Hnil Hxa) Hy Hya).
    + done.
Qed.

(** A replaced row keeps its identifier and job; the index guards it. *)
Lemma store_ok_updateRun s s' r : store_ok s → updateRun s r = Ok s' → store_ok s'.
Proof.
  intros [O1 O2 O3 O4 O5]. unfold updateRun. destruct (get_run s (rn_ID r)) as [old|] eqn:Eg; [|done].
  destruct (_ && _) eqn:Ea; [done|]. intros [= <-].
  set (f := λ x, if bool_decide (rn_ID x = rn_ID r) then overwrite x r else x).
  assert (∀ x, rn_ID (f x) = rn_ID x) as Hid by (clear Ea; intros x; unfold f; by case_bool_decide).
  pose proof (run_id_inj (st_runs s)) as Hu.
  assert (old ∈ st_runs s ∧ rn_ID old = rn_ID r) as [Hold Hoid].
  { unfold get_run in Eg. destruct (filter _ _) as [|x l] eqn:E; [done|]. injection Eg as ->.
    assert (old ∈ filter (λ x, rn_ID x = rn_ID r) (st_runs s)) as Hin by (rewrite E; left).
    by apply list_elem_of_filter in Hin as [??]. }
  assert (∀ x, x ∈ st_runs s → rn_ID x ≠ rn_ID r → active x → active r → rn_JobID x ≠ rn_JobID old) as Hoth.
  { intros x Hx Hne Hxa Hra Hj. rewrite bool_decide_true in Ea by done. apply bool_decide_eq_false in Ea.
    apply dec_stable in Ea. assert (x ∈ filter (λ x, rn_ID x ≠ rn_ID r) (active_of (rn_JobID old) (st_runs s))) as Hin.
    { apply list_elem_of_filter. split; [done|]. by apply list_elem_of_filter. }
    rewrite Ea in Hin. by apply not_elem_of_nil in Hin. }
  clear Ea. split; cbn; try done.
  - assert (rn_ID <$> (f <$> st_runs s) = rn_ID <$> st_runs s) as ->; [|done].
    rewrite <- list_fmap_compose. apply list_fmap_ext. intros _ x _. apply Hid.
  - intros x y (x0 & -> & Hx)%list_elem_of_fmap (y0 & -> & Hy)%list_elem_of_fmap. unfold f.
    case_bool_decide as Hx0; case_bool_decide as Hy0; cbn.
    + intros _ _ _. f_equal. apply Hu; try done; congruence.
    + rewrite (Hu x0 old) by (done || congruence). intros Hra Hya Hj. exfalso. by apply (Hoth y0).
    + rewrite (Hu y0 old) by (done || congruence). intros Hxa Hra Hj. exfalso. by apply (Hoth x0).
    + by apply O3.
Qed.

Lemma store_ok_statement s s' : statement s s' → store_ok s → store_ok s'.
Proof.
  destruct 1 as [s s' j Hc|s s' now j d Hc|s j|s j|s s' j Hc|s s' r Hc|s s' r Hc|s t|s s' r t Hc|s s' r t Hc|s j keep]; intros Hs.
  - unfold CreateJob in Hc. destruct (get_job s (jb_ID j)) eqn:E; [done|]. injection Hc as <-. destruct Hs as [O1 O2 O3 O4 O5].
    split; cbn; try done. rewrite fmap_app. apply NoDup_app. split; [done|]. split; [|apply NoDup_singleton].
    intros x (y & -> & Hy)%list_elem_of_fmap Hyj%list_elem_of_singleton. unfold get_job in E.
    assert (y ∈ filter (λ x, jb_ID x = jb_ID j) (st_jobs s)) as Hf by (by apply list_elem_of_filter).
    destruct (filter _ (st_jobs s)); [by apply not_elem_of_nil in Hf|done].
  - unfold SetDesired in Hc. destruct (get_job s j); [|done]. injection Hc as <-. destruct Hs as [O1 O2 O3 O4 O5].
    split; cbn; try done. set (f := λ x : Job, _). assert (jb_ID <$> (f <$> st_jobs s) = jb_ID <$> st_jobs s) as ->; [|done].
    rewrite <- list_fmap_compose. apply list_fmap_ext. intros _ x _. unfold f, compose. by case_bool_decide.
  - apply store_ok_sub; [done..|]. apply sublist_filter.
  - apply store_ok_sub; [done|done|apply sublist_filter|done].
  - unfold delete_job in Hc. destruct (get_job s j); [|done]. injection Hc as <-.
    apply store_ok_sub; [done|apply sublist_filter|done|done].
  - by eapply store_ok_insertRun.
  - by eapply store_ok_updateRun.
  - by apply store_ok_append.
  - apply rbind_Ok in Hc as (s1 & Hi & [= <-]). by eapply store_ok_append, store_ok_insertRun.
  - apply rbind_Ok in Hc as (s1 & Hi & [= <-]). by eapply store_ok_append, store_ok_updateRun.
  - apply store_ok_sub; [done|done|apply sublist_filter|apply sublist_filter].
Qed.

Lemma reachable_store_ok s : rtc statement emptyStore s → store_ok s.
Proof.
  assert (store_ok emptyStore) as H0.
  { split; cbn; try constructor; [by intros r r' ?%not_elem_of_nil|constructor|lia]. }
  intros Hr. revert H0. induction Hr as [|s1 s2 s3 Hs _ IH]; [done|]. intros H1. by eapply IH, store_ok_statement.
Qed.

(** C31: Every store reached by the statements is well formed: identifiers
    are unique, a job has at most one active run, and transition identifiers
    increase and were handed out by the counter. *)
Theorem store_well_formed s : rtc statement emptyStore s → store_ok s.
Proof. apply reachable_store_ok. Qed.

(** ** Paging through the history *)

(** Follow the pages, each starting below the last identifier of the one before. *)
Fixpoint pages (fuel : nat) (s : store) (j : bytes) (before limit : Z) : list Transition :=
  match fuel with
  | O => []
  | S fuel =>
      let page := ListTransitionsPaged s j before limit in
      match last page with
      | None => []
      | Some t => page ++ pages fuel s j (tn_ID t) limit
      end
  end.

Definition newest_ids (l : list Transition) : Prop := StronglySorted (λ t u, tn_ID u < tn_ID t) l.

Lemma newest_ids_reverse l : StronglySorted Z.lt (tn_ID <$> l) → newest_ids (reverse l).
Proof.
  unfold newest_ids. induction l as [|t l IH]; [constructor|]. rewrite fmap_cons, reverse_cons.
  intros [Hs Hall]%StronglySorted_inv. specialize (IH Hs). rewrite Forall_fmap in Hall.
  assert (Forall (λ u, tn_ID t < tn_ID u) (reverse l)) as Hr.
  { rewrite Forall_forall in *. intros u Hu. apply Hall. by rewrite elem_of_reverse in Hu. }
  clear Hs Hall. induction IH as [|u r Hr' IH' Hu]; cbn; [repeat constructor|].
  apply Forall_cons in Hr as [Htu Hr]. constructor; [auto|]. apply Forall_app. split; [done|]. by apply Forall_singleton.
Qed.

(** The elements below the last of a non-empty front are the rest. *)
Lemma below_last l n t : newest_ids l → last (take n l) = Some t →
  filter (λ u, tn_ID u < tn_ID t) l = drop n l ∧ t ∈ l.
Proof.
  intros Hs. revert n. induction Hs as [|u l Hs IH Hu]; intros [|n]; try done.
  change (take (S n) (u :: l)) with (u :: take n l). change (drop (S n) (u :: l)) with (drop n l).
  rewrite last_cons. destruct (last (take n l)) as [t'|] eqn:E; intros [= <-].
  - destruct (IH n E) as [Hf Hin]. split; [|by right]. rewrite filter_cons_False; [done|].
    rewrite Forall_forall in Hu. specialize (Hu t' Hin). lia.
  - apply last_None in E. split; [|left]. rewrite filter_cons_False by lia. rewrite filter_all by done.
    destruct n; [done|]. by destruct l.
Qed.

Lemma pages_rest fuel s j before limit rest :
  newest_ids rest → Forall (λ t, 0 < tn_ID t) rest →
  (if 0 <? before then filter (λ t, tn_ID t < before) (reverse (ListTransitions s j)) else reverse (ListTransitions s j)) = rest →
  (length rest < fuel)%nat → pages fuel s j before limit = rest.
Proof.
  revert before rest. induction fuel as [|fuel IH]; intros before rest Hs Hpos Hrest Hlen; [lia|].
  cbn [pages]. unfold ListTransitionsPaged. rewrite Hrest.
  set (n := Z.to_nat _). assert (n ≠ 0%nat) as Hn.
  { unfold n. destruct (Z.leb_spec limit 0); destruct (Z.ltb_spec 200 (if limit <=? 0 then 50 else limit));
      repeat case_match; lia. }
  destruct (last (take n rest)) as [t|] eqn:El.
  - destruct (below_last rest n t Hs El) as [Hf Ht]. rewrite (IH (tn_ID t) (drop n rest)); [apply take_drop|..].
    + rewrite <- Hf. by apply StronglySorted_filter.
    + by apply Forall_drop.
    + rewrite (proj2 (Z.ltb_lt _ _) (proj1 (Forall_forall _ _) Hpos t Ht)).
      rewrite <- Hf, <- Hrest. destruct (Z.ltb_spec 0 before); [|done]. rewrite list_filter_filter.
      apply list_filter_iff. intros u. rewrite <- Hrest in Ht. apply list_elem_of_filter in Ht as [Htb _]. lia.
    + rewrite length_drop. destruct rest as [|u rest]; [by destruct n|]. cbn in *. lia.
  - apply last_None in El. destruct rest; [done|]. by destruct n.
Qed.

(** Following the pages of the transition history lists every transition of the
    job once, newest first, and no page is longer than 200. *)
Theorem paging_is_complete s j limit : rtc statement emptyStore s →
  pages (S (length (ListTransitions s j))) s j 0 limit = reverse (ListTransitions s j)
  ∧ ∀ before, (length (ListTransitionsPaged s j before limit) ≤ 200)%nat.
Proof.
  intros Hr. pose proof (reachable_store_ok s Hr) as [_ _ _ O4 [O5 _]]. split.
  - assert (ListTransitions s j `sublist_of` st_transitions s) as Hsub by apply sublist_filter.
    apply pages_rest; [|..|done|by rewrite length_reverse; lia].
    + apply newest_ids_reverse. unfold ListTransitions. clear -O4.
      induction (st_transitions s) as [|t l IH]; [constructor|]. rewrite fmap_cons in O4.
      apply StronglySorted_inv in O4 as [O4 Hall]. rewrite filter_cons. case_decide; [|auto].
      rewrite fmap_cons. constructor; [auto|]. rewrite Forall_forall in *. intros x (y & -> & [_ Hy]%list_elem_of_filter)%list_elem_of_fmap.
      apply Hall, list_elem_of_fmap. eauto.
    + rewrite Forall_forall in *. intros t Ht. rewrite elem_of_reverse in Ht. apply O5. by eapply elem_of_sublist.
  - intros before. unfold ListTransitionsPaged. rewrite length_take.
    destruct (Z.ltb_spec 200 (if limit <=? 0 then 50 else limit)); lia.
Qed.

(** ** Pruning *)

Definition terminal_of (j : bytes) (r : Run) : Prop := rn_JobID r = j ∧ ¬ active r.
#[export] Instance terminal_of_dec j r : Decision (terminal_of j r).
Proof. unfold terminal_of. apply _. Defined.

Lemma filter_iff_in {A} (P Q : A → Prop) `{!∀ x, Decision (P x), !∀ x, Decision (Q x)} (l : list A) :
  (∀ x, x ∈ l → P x ↔ Q x) → filter P l = filter Q l.
Proof.
  induction l as [|x l IH]; intros Hpq; [done|]. rewrite !filter_cons.
  pose proof (Hpq x (list_elem_of_here _ _)). rewrite IH by (intros y Hy; apply Hpq; by right).
  destruct (decide (P x)), (decide (Q x)); tauto.
Qed.

Lemma prune_victims_spec s j keep : NoDup (rn_ID <$> st_runs s) →
  filter (terminal_of j) (st_runs (PruneTerminalRuns s j keep))
    ≡ₚ (if keep <=? 0 then [] else take (Z.to_nat keep) (merge_sort text_desc (filter (terminal_of j) (st_runs s))))
  ∧ filter (λ r, ¬ terminal_of j r) (st_runs (PruneTerminalRuns s j keep)) = filter (λ r, ¬ terminal_of j r) (st_runs s).
Proof.
  intros Hnd. unfold PruneTerminalRuns. cbn [st_runs].
  set (T := filter (terminal_of j) (st_runs s)). set (V := prune_victims s j keep).
  assert (V = if keep <=? 0 then T else drop (Z.to_nat keep) (merge_sort text_desc T)) as EV by done.
  assert (∃ K, T ≡ₚ K ++ V ∧ K = if keep <=? 0 then [] else take (Z.to_nat keep) (merge_sort text_desc T)) as (K & HT & EK).
  { eexists. split; [|done]. rewrite EV. destruct (keep <=? 0); [done|]. rewrite take_drop. symmetry. apply merge_sort_Permutation. }
  rewrite <- EK. assert (T `sublist_of` st_runs s) as Hsub by apply sublist_filter.
  assert (NoDup (rn_ID <$> (K ++ V))) as HndT.
  { rewrite <- HT. eapply sublist_NoDup; [exact Hnd|]. by apply fmap_sublist. }
  rewrite fmap_app in HndT. apply NoDup_app in HndT as (_ & Hdis & _). split.
  - rewrite list_filter_filter.
    transitivity (filter (λ r, rn_ID r ∉ rn_ID <$> V) T).
    { unfold T. rewrite list_filter_filter. apply Permutation_refl', list_filter_iff. intros r. tauto. }
    rewrite HT, filter_app. rewrite filter_all, filter_none; [by rewrite (right_id_L [] (++))|..]; apply Forall_forall.
    + intros r Hr Hno. apply Hno, list_elem_of_fmap. eauto.
    + intros r Hr. apply Hdis, list_elem_of_fmap. eauto.
  - rewrite list_filter_filter. apply filter_iff_in. intros r Hr. split; [tauto|]. intros Hnt. split; [done|].
    intros (v & Hv & Hvin)%list_elem_of_fmap.
    assert (v ∈ T) as Ht by (rewrite HT; apply elem_of_app; by right).
    apply list_elem_of_filter in Ht as [Hvt Hvs]. apply Hnt. by rewrite (run_id_inj _ _ _ Hnd Hr Hvs Hv).
Qed.

(** Pruning the history keeps exactly the newest terminal runs by their
    stored start text, none when the limit is not positive, and drops
    exactly the transitions of the deleted runs; other runs stay as they
    were. *)
Theorem prune_keeps_newest s j keep : rtc statement emptyStore s →
  let s' := PruneTerminalRuns s j keep in
  filter (terminal_of j) (st_runs s')
    ≡ₚ (if keep <=? 0 then [] else take (Z.to_nat keep) (merge_sort text_desc (filter (terminal_of j) (st_runs s))))
  ∧ filter (λ r, ¬ terminal_of j r) (st_runs s') = filter (λ r, ¬ terminal_of j r) (st_runs s)
  ∧ (∀ t, t ∈ st_transitions s' → t ∈ st_transitions s ∧ ∀ r, r ∈ prune_victims s j keep → tn_RunID t ≠ rn_ID r).
Proof.
  intros Hr. pose proof (so_runs _ (reachable_store_ok s Hr)) as Hnd. cbn zeta.
  destruct (prune_victims_spec s j keep Hnd) as [H1 H2]. split; [done|]. split; [done|].
  intros t [Hn Ht]%list_elem_of_filter. split; [done|]. intros r Hv He. apply Hn. rewrite He. apply list_elem_of_fmap. eauto.
Qed.

(** ** Concrete tables *)

Definition demo_job : Job := mkJob (bs "j") (bs "wf") KindYAML [] [] ∅ [] [] DesiredRunning 0 0.
Definition demo_run (id : bytes) (started : time) (stopped : option time) : Run :=
  mkRun id (bs "j") [] 0 (if stopped then Finished else PhaseRunning) 1 [] NoFailure started stopped None.
Definition demo_transition (p q : Phase) : Transition := mkTransition 0 (bs "j") (bs "a") (Some p) q [] 0.

(** A run that started on the second, and one half a second later. *)
Definition demo_store : store :=
  mkStore [demo_job] [demo_run (bs "a") 0 (Some 100000000); demo_run (bs "b") 500000000 None]
    [mkTransition 1 (bs "j") (bs "a") (Some Submitted) Starting [] 0;
     mkTransition 2 (bs "j") (bs "a") (Some Starting) Finished [] 0] 3.

Lemma demo_store_reachable : rtc statement emptyStore demo_store.
Proof.
  eapply rtc_l; [by apply (stmt_createJob _ _ demo_job)|].
  eapply rtc_l; [by apply (stmt_createRunT _ _ (demo_run (bs "a") 0 (Some 100000000)) (demo_transition Submitted Starting))|].
  eapply rtc_l; [by apply (stmt_updateRunT _ _ (demo_run (bs "a") 0 (Some 100000000)) (demo_transition Starting Finished))|].
  eapply rtc_l; [by apply (stmt_insertRun _ _ (demo_run (bs "b") 500000000 None))|].
  apply rtc_refl.
Qed.

Lemma store_well_formed_witness : store_ok demo_store.
Proof. exact (store_well_formed demo_store demo_store_reachable). Defined.

Lemma paging_is_complete_witness :
  pages 3 demo_store (bs "j") 0 1 = reverse (st_transitions demo_store)
  ∧ ∀ before, (length (ListTransitionsPaged demo_store (bs "j") before 1) ≤ 200)%nat.
Proof. exact (paging_is_complete demo_store (bs "j") 1 demo_store_reachable). Defined.

Lemma prune_keeps_newest_witness :
  filter (λ r, ¬ terminal_of (bs "j") r) (st_runs (PruneTerminalRuns demo_store (bs "j") 0)) = [demo_run (bs "b") 500000000 None].
Proof.
  exact (proj1 (proj2 (prune_keeps_newest demo_store (bs "j") 0 demo_store_reachable))).
Defined.

(** Start times are compared as text: a run started half a second after
    another at a full second is not the latest run. *)
Theorem latest_run_compares_text :
  rn_Started (demo_run (bs "a") 0 (Some 100000000)) < rn_Started (demo_run (bs "b") 500000000 None)
  ∧ active (demo_run (bs "b") 500000000 None)
  ∧ ListRuns demo_store (bs "j") = [demo_run (bs "a") 0 (Some 100000000); demo_run (bs "b") 500000000 None]
  ∧ LatestRun demo_store (bs "j") = Some (demo_run (bs "a") 0 (Some 100000000)).
Proof. split; [cbn; lia|]. split; [done|]. split; vm_compute; reflexivity. Qed.
