(* ===== verification/Controller.v ===== *)
(** * The job controller ([src/control/controller.go], [src/control/reconcile.go])

    The controller's operations over the store of [JobStore], a container
    backend and the process memory.  An operation is a computation in a small
    monad: it changes the world and returns a value, or the process dies.  Store
    statements, backend calls, the clock, new identifiers and secret lookups are
    answered by an oracle, call by call, so that every statement can fail, every
    backend call can answer anything and the process can die before any of them.

    [live] is the set of launched containers that are not known to be down: a
    container leaves it when a stop or a removal succeeded or a status query said
    that it exited or is gone.  A launch that fails leaves no running container.

    Operations on one job run one at a time (the job lock), so an operation is
    executed as a whole; logging, metrics and tracing are left out. *)

From S2P Require Import Prelude Lifecycle JobStore.

(** ** The backend interface ([src/control/backend/backend.go]) *)

Inductive BackendPhase := BPending | BRunning | BExited | BGone | BUnhealthy.

(** [Status] *)
Record BStatus := mkBStatus {
  bst_Phase : BackendPhase;
  bst_ExitCode : Z;
  bst_OOMKilled : bool;
  bst_Reason : bytes;
  bst_HostPort : Z;
  bst_Address : bytes
}.

(** [ResourceLimits] *)
Record ResourceLimits := mkLimits { lim_CPU : bytes; lim_Memory : bytes; lim_Storage : bytes }.

(** [LaunchSpec]; the pull policy is always [PullIfNotPresent] here. *)
Record LaunchSpec := mkLaunchSpec {
  ls_JobID : bytes;
  ls_Name : bytes;
  ls_Image : bytes;
  ls_Doc : bytes;
  ls_Env : gmap bytes bytes;
  ls_Port : Z;
  ls_Restore : bytes;
  ls_Resources : option ResourceLimits
}.

(** [ContainerStats], without its utilization figures. *)
Record ContainerStats := mkContainerStats {
  cs_ID : bytes;
  cs_JobID : bytes;
  cs_Managed : bool;
  cs_StartedAt : Z
}.

(** An error of [Launch]: its text, and its class when it carries one. *)
Record LaunchError := mkLaunchError { le_msg : bytes; le_permanent : option bool }.

(** ** Launch failures ([src/control/launch_failure.go]) *)

Definition permanent_markers : list bytes :=
  [bs "invalid reference format"; bs "pull access denied"; bs "repository does not exist";
   bs "manifest unknown"; bs "not found: manifest"; bs "no such image"].

(** [launchFailureKind], as whether the failure is permanent. *)
Definition launchFailurePermanent (e : LaunchError) : bool :=
  match le_permanent e with
  | Some p => p
  | None => existsb (bytes_contains (to_lower (le_msg e))) permanent_markers
  end.

(** ** The world *)

Record cworld := mkWorld {
  cw_store : store;
  cw_live : gmap bytes bytes;
  cw_secrets : gmap bytes (gmap bytes bytes);
  cw_tick : nat
}.

(** What answers the calls, by call number; a listing of the backend may depend
    on what runs. *)
Record oracle := mkOracle {
  crashAt : nat → bool;
  storeFault : nat → option bytes;
  nowAt : nat → time;
  newIDAt : nat → bytes;
  launchAt : nat → LaunchSpec → bytes + LaunchError;
  stopAt : nat → bytes → option bytes;
  removeAt : nat → bytes → option bytes;
  statusAt : nat → bytes → result BStatus;
  capacityAt : nat → gmap bytes bytes → result (list ContainerStats);
  deleteDataAt : nat → bytes → option bytes;
  secretAt : nat → SecretRef → result bytes
}.

(** The monad: [None] is the death of the process. *)
Definition C (A : Type) : Type := cworld → option A * cworld.

#[export] Instance C_ret : MRet C := λ A a w, (Some a, w).
#[export] Instance C_bind : MBind C := λ A B f m w,
  match m w with (Some a, w) => f a w | (None, w) => (None, w) end.

(** The [if err != nil { return err }] idiom. *)
Definition ebind {A B} (m : C (result A)) (k : A → C (result B)) : C (result B) :=
  r ← m; match r with Ok a => k a | Err e => mret (Err e) | Panic e => mret (Panic e) end.

Notation "x <-! m ;; k" := (ebind m (fun x => k)) (at level 60, m at level 99, k at level 200, right associativity) : weibo_scope.

Definition ret {A} (a : A) : C A := mret a.
Definition ok {A} (a : A) : C (result A) := ret (Ok a).
Definition fail {A} (e : bytes) : C (result A) := ret (Err e).
(** The same idiom where the function returns something else beside the error. *)
Definition on_err {A B} (m : C (result A)) (f : bytes → B) (k : A → C B) : C B :=
  r ← m; match r with Ok a => k a | Err e | Panic e => ret (f e) end.
(** A job and an error; both may be there. *)
Definition job_err : Type := option Job * option bytes.
Definition nil_err (e : bytes) : job_err := (None, Some e).

Section primitives.
Context (O : oracle).

(** A call: the process may die before it; then it is numbered and made. *)
Definition prim {A} (f : nat → cworld → A * cworld) : C A := λ w,
  if crashAt O (cw_tick w) then (None, w)
  else let '(a, w') := f (cw_tick w) w in
       (Some a, mkWorld (cw_store w') (cw_live w') (cw_secrets w') (S (cw_tick w))).

Definition set_store (w : cworld) (s : store) : cworld := mkWorld s (cw_live w) (cw_secrets w) (cw_tick w).
Definition set_live (w : cworld) (l : gmap bytes bytes) : cworld := mkWorld (cw_store w) l (cw_secrets w) (cw_tick w).

(** A query and a statement of the store. *)
Definition query {A} (q : store → result A) : C (result A) := prim (λ t w,
  (match storeFault O t with Some e => Err e | None => q (cw_store w) end, w)).
Definition exec (f : time → store → result store) : C (result unit) := prim (λ t w,
  match storeFault O t with
  | Some e => (Err e, w)
  | None => match f (nowAt O t) (cw_store w) with
            | Ok s => (Ok (), set_store w s)
            | Err e => (Err e, w)
            | Panic e => (Panic e, w)
            end
  end).

Definition Now : C time := λ w, (Some (nowAt O (cw_tick w)), w).
Definition newID : C bytes := λ w, (Some (newIDAt O (cw_tick w)), w).

(** The backend. *)
Definition Launch (spec : LaunchSpec) : C (bytes + LaunchError) := prim (λ t w,
  match launchAt O t spec with
  | inl id => (inl id, set_live w (<[id := ls_JobID spec]> (cw_live w)))
  | inr e => (inr e, w)
  end).
Definition down (w : cworld) (id : bytes) : cworld := set_live w (delete id (cw_live w)).
Definition BStop (id : bytes) : C (result unit) := prim (λ t w,
  match stopAt O t id with Some e => (Err e, w) | None => (Ok (), down w id) end).
Definition BRemove (id : bytes) : C (result unit) := prim (λ t w,
  match removeAt O t id with Some e => (Err e, w) | None => (Ok (), down w id) end).
Definition BGetStatus (id : bytes) : C (result BStatus) := prim (λ t w,
  match statusAt O t id with
  | Ok st => (Ok st, match bst_Phase st with BExited | BGone => down w id | _ => w end)
  | e => (e, w)
  end).
Definition BCapacity : C (result (list ContainerStats)) := prim (λ t w, (capacityAt O t (cw_live w), w)).
Definition BDeleteJobData (job : bytes) : C (result unit) := prim (λ t w,
  (match deleteDataAt O t job with Some e => Err e | None => Ok () end, w)).

(** [c.secrets] *)
Definition getSecrets (job : bytes) : C (gmap bytes bytes) := λ w, (Some (default ∅ (cw_secrets w !! job)), w).
Definition setSecrets (job : bytes) (env : gmap bytes bytes) : C unit := λ w,
  (Some (), if bool_decide (env = ∅) then w
            else mkWorld (cw_store w) (cw_live w) (<[job := env]> (cw_secrets w)) (cw_tick w)).
Definition dropSecrets (job : bytes) : C unit := λ w,
  (Some (), mkWorld (cw_store w) (cw_live w) (delete job (cw_secrets w)) (cw_tick w)).
End primitives.

(** ** Configuration *)

Record Options := mkOptions {
  op_Image : bytes; op_Port : Z; op_Restart : RestartPolicy; op_Retention : Z
}.

(** The fields of [Controller] the operations read. *)
Record Ctl := mkCtl { ct_image : bytes; ct_port : Z; ct_restart : RestartPolicy; ct_retention : Z }.

(** [New] applies the defaults. *)
Definition New (o : Options) : Ctl :=
  mkCtl (op_Image o) (if op_Port o =? 0 then 8080 else op_Port o)
    (if (MaxAttempts (op_Restart o) =? 0) && (BaseBackoff (op_Restart o) =? 0) && (MaxBackoff (op_Restart o) =? 0)
     then DefaultRestartPolicy else op_Restart o)
    (if op_Retention o =? 0 then 5 else op_Retention o).

(** ** Manifests and environments *)

(** [resourceSpec] and [sdkManifest] *)
Record resourceSpec := mkResourceSpec { rs_CPU : bytes; rs_Memory : bytes; rs_Storage : bytes }.
Record sdkManifest := mkManifest {
  mf_Kind : bytes; mf_Name : bytes; mf_Image : bytes; mf_Env : gmap bytes bytes; mf_Resources : option resourceSpec
}.

(** [parseSDKManifest]; [unmarshal] is the YAML library. *)
Definition parseSDKManifest (unmarshal : bytes → option sdkManifest) (doc : bytes) : option sdkManifest :=
  m ← unmarshal doc; if bool_decide (to_lower (mf_Kind m) = bs "sdk") then Some m else None.

(** [validateResources]; [parseQuantity] is the Kubernetes library. *)
Definition validateResources (parseQuantity : bytes → option bytes) (r : option resourceSpec) : result unit :=
  let check field q :=
    if bool_decide (q = []) then Ok () else
    match parseQuantity q with
    | None => Ok ()
    | Some e => Err (bs "invalid resources." ++ field ++ bs ": " ++ e)
    end in
  match r with
  | None => Ok ()
  | Some r =>
      _ <-? check (bs "cpu") (rs_CPU r) ;;
      _ <-? check (bs "memory") (rs_Memory r) ;;
      check (bs "ephemeralStorage") (rs_Storage r)
  end.

(** [toLimits] *)
Definition toLimits (r : option resourceSpec) : option ResourceLimits :=
  match r with
  | Some r => if bool_decide (rs_CPU r = []) && bool_decide (rs_Memory r = []) && bool_decide (rs_Storage r = [])
              then None else Some (mkLimits (rs_CPU r) (rs_Memory r) (rs_Storage r))
  | None => None
  end.

(** [mergeEnv]: the override wins. *)
Definition mergeEnv (base override : gmap bytes bytes) : gmap bytes bytes :=
  if bool_decide (base = ∅) then override else override ∪ base.

(** [secretRefsFromEnv], [mergeSecretRefs] *)
Definition secretRefsFromEnv (env : gmap bytes bytes) : gmap bytes SecretRef :=
  map_imap (λ k _, Some (mkSecretRef (bs "env") k [])) env.
Definition mergeSecretRefs (base override : gmap bytes SecretRef) : gmap bytes SecretRef := override ∪ base.

(** Add the references that [env] does not have yet; the first failure stops. *)
Fixpoint resolve_refs (resolve : SecretRef → result bytes) (env : gmap bytes bytes) (refs : list (bytes * SecretRef))
    : result (gmap bytes bytes) :=
  match refs with
  | [] => Ok env
  | (k, ref) :: refs =>
      match env !! k with
      | Some _ => resolve_refs resolve env refs
      | None => v <-? resolve ref ;; resolve_refs resolve (<[k := v]> env) refs
      end
  end.

(** [resolveEnvRefs] *)
Definition resolveEnvRefs (resolve : SecretRef → result bytes) (env : gmap bytes bytes) (refs : gmap bytes SecretRef)
    : result (gmap bytes bytes) := resolve_refs resolve env (map_to_list refs).

(** [envSecretProvider] and [SecretProviders] *)
Definition envSecret (lookupEnv : bytes → option bytes) (ref : SecretRef) : result bytes :=
  if bool_decide (sr_Provider ref ≠ []) && bool_decide (sr_Provider ref ≠ bs "env")
  then Err (bs "unsupported secret provider " ++ sr_Provider ref ++ bs " for " ++ sr_Name ref)
  else
    let name := if bool_decide (sr_Name ref = []) then sr_Key ref else sr_Name ref in
    match lookupEnv name with Some v => Ok v | None => Err (bs "secret " ++ name ++ bs " is not set") end.

Fixpoint first_secret (providers : list (SecretRef → result bytes)) (last : option bytes) (ref : SecretRef) : result bytes :=
  match providers with
  | [] => match last with
          | Some e => Err e
          | None => Err (bs "no secret provider configured for " ++ sr_Name ref)
          end
  | p :: ps => match p ref with Ok v => Ok v | Err e | Panic e => first_secret ps (Some e) ref end
  end.
Definition SecretProviders (providers : list (SecretRef → result bytes)) (ref : SecretRef) : result bytes :=
  first_secret providers None ref.

Section controller.
Context (O : oracle) (ct : Ctl).
Context (unmarshal : bytes → option sdkManifest) (parseQuantity : bytes → option bytes).
(** The workflow compiler: name, delivery guarantee and graph of a document. *)
Context (compile : bytes → gmap bytes bytes → result (bytes * bytes * bytes)).

Definition resolveSecret (ref : SecretRef) : C (result bytes) := λ w, (Some (secretAt O (cw_tick w) ref), w).
Definition currentResolver : C (SecretRef → result bytes) := λ w, (Some (secretAt O (cw_tick w)), w).

(** [launchEnv] *)
Definition launchEnv (job : Job) : C (result (gmap bytes bytes)) :=
  secrets ← getSecrets (jb_ID job);
  resolve ← currentResolver;
  let env := secrets ∪ {[bs "WEIBO_JOB_ID" := jb_ID job]} in
  ret (resolve_refs resolve env (map_to_list (jb_Secrets job))).

(** [transitionRecord] *)
Definition transitionRecord (now : time) (job run : bytes) (from : option Phase) (to : Phase) (reason : bytes) : Transition :=
  mkTransition 0 job run from to reason now.

(** Updates of a run's fields. *)
Definition with_phase (r : Run) (p : Phase) : Run :=
  mkRun (rn_ID r) (rn_JobID r) (rn_ContainerID r) (rn_HostPort r) p (rn_Attempt r) (rn_Error r) (rn_FailureKind r)
    (rn_Started r) (rn_Stopped r) (rn_RestartAt r).
Definition with_error (r : Run) (e : bytes) : Run :=
  mkRun (rn_ID r) (rn_JobID r) (rn_ContainerID r) (rn_HostPort r) (rn_Phase r) (rn_Attempt r) e (rn_FailureKind r)
    (rn_Started r) (rn_Stopped r) (rn_RestartAt r).
Definition with_kind (r : Run) (k : FailureKind) : Run :=
  mkRun (rn_ID r) (rn_JobID r) (rn_ContainerID r) (rn_HostPort r) (rn_Phase r) (rn_Attempt r) (rn_Error r) k
    (rn_Started r) (rn_Stopped r) (rn_RestartAt r).
Definition with_stop (r : Run) (t : option time) : Run :=
  mkRun (rn_ID r) (rn_JobID r) (rn_ContainerID r) (rn_HostPort r) (rn_Phase r) (rn_Attempt r) (rn_Error r)
    (rn_FailureKind r) (rn_Started r) t (rn_RestartAt r).
Definition with_restartAt (r : Run) (t : option time) : Run :=
  mkRun (rn_ID r) (rn_JobID r) (rn_ContainerID r) (rn_HostPort r) (rn_Phase r) (rn_Attempt r) (rn_Error r)
    (rn_FailureKind r) (rn_Started r) (rn_Stopped r) t.
Definition with_container (r : Run) (c : bytes) : Run :=
  mkRun (rn_ID r) (rn_JobID r) c (rn_HostPort r) (rn_Phase r) (rn_Attempt r) (rn_Error r) (rn_FailureKind r)
    (rn_Started r) (rn_Stopped r) (rn_RestartAt r).
Definition with_port (r : Run) (p : Z) : Run :=
  mkRun (rn_ID r) (rn_JobID r) (rn_ContainerID r) p (rn_Phase r) (rn_Attempt r) (rn_Error r) (rn_FailureKind r)
    (rn_Started r) (rn_Stopped r) (rn_RestartAt r).

Definition UpdateRun (r : Run) : C (result unit) := exec O (λ _ s, updateRun s r).
Definition UpdateRunT (r : Run) (from to : Phase) (reason : bytes) : C (result unit) :=
  exec O (λ now s, UpdateRunWithTransition s r (transitionRecord now (rn_JobID r) (rn_ID r) (Some from) to reason)).

(** [pruneTerminalRuns]: the containers of the victims are removed, then the
    store prunes; failures are ignored. *)
Definition newest_first (r1 r2 : Run) : Prop := rn_Started r2 ≤ rn_Started r1.
#[local] Instance newest_first_dec : RelDecision newest_first.
Proof. intros r1 r2. unfold newest_first. apply _. Defined.

Fixpoint removeAll (victims : list Run) : C unit :=
  match victims with
  | [] => ret ()
  | v :: vs =>
      (if bool_decide (rn_ContainerID v = []) then ret () else _ ← BRemove O (rn_ContainerID v); ret ());;
      removeAll vs
  end.

Definition pruneTerminalRuns (job : bytes) : C unit :=
  if ct_retention ct <? 0 then ret ()
  else
    runs ← query O (λ s, Ok (ListRuns s job));
    match runs with
    | Ok runs =>
        let terminal := filter (λ r, ¬ active r) runs in
        if Z.of_nat (length terminal) <=? ct_retention ct then ret ()
        else
          removeAll (drop (Z.to_nat (ct_retention ct)) (merge_sort newest_first terminal));;
          _ ← exec O (λ _ s, Ok (PruneTerminalRuns s job (ct_retention ct)));
          ret ()
    | _ => ret ()
    end.

(** [finishRun] *)
Definition finishRun (r : Run) (from to : Phase) (reason : bytes) : C (result unit) :=
  now ← Now O;
  let r := with_restartAt (with_stop (with_phase r to) (Some now)) None in
  _ <-! UpdateRunT r from to reason ;;
  pruneTerminalRuns (rn_JobID r);; ok ().

(** [blockRun] *)
Definition blockRun (r : Run) (from : Phase) (reason : bytes) : C (result unit) :=
  UpdateRunT (with_restartAt (with_kind (with_error (with_phase r Blocked) reason) FailureSecretBlocked) None)
    from Blocked reason.

(** [scheduleRestartFrom]; the changed run comes back. *)
Definition scheduleRestartFrom (r : Run) (from : Phase) (reason : bytes) : C (result Run) :=
  now ← Now O;
  let at_ := Add now (Backoff (ct_restart ct) (rn_Attempt r)) in
  let r := with_restartAt (with_error (with_phase r Restarting) reason) (Some at_) in
  _ <-! UpdateRunT r from Restarting reason ;; ok r.
Definition scheduleRestart (r : Run) (reason : bytes) : C (result Run) := scheduleRestartFrom r PhaseRunning reason.

(** [markLaunchRecordFailure] *)
Definition markLaunchRecordFailure (r : Run) (cause : bytes) : C (result unit) :=
  now ← Now O;
  UpdateRun (with_restartAt (with_stop (with_kind (with_error
    (with_phase (with_port (with_container r []) 0) Failed)
    (bs "failed to record launched backend resource: " ++ cause)) FailureLaunchRecord) (Some now)) None).

(** What a launch runs: image, document, environment and limits of the job. *)
Definition launch_spec (job : Job) (env : gmap bytes bytes) (restore : bytes) : LaunchSpec :=
  match jb_Kind job with
  | KindSDK =>
      match parseSDKManifest unmarshal (jb_Spec job) with
      | Some m => mkLaunchSpec (jb_ID job) (jb_Name job) (jb_Image job) [] (mergeEnv (mf_Env m) env)
                    (ct_port ct) restore (toLimits (mf_Resources m))
      | None => mkLaunchSpec (jb_ID job) (jb_Name job) (jb_Image job) [] env (ct_port ct) restore None
      end
  | KindYAML => mkLaunchSpec (jb_ID job) (jb_Name job) (ct_image ct) (jb_Spec job) env (ct_port ct) restore None
  end.

(** [startRun] after a failed launch. *)
Definition launch_failed (r : Run) (e : LaunchError) : C (result unit) :=
  let r := with_kind (with_error r (le_msg e))
             (if launchFailurePermanent e then FailureLaunchPermanent else FailureLaunchTransient) in
  if negb (launchFailurePermanent e) && ShouldRestart (ct_restart ct) Failed (rn_Attempt r) then
    res ← scheduleRestartFrom r Starting (le_msg e);
    match res with
    | Ok _ => fail (le_msg e)
    | Err u | Panic u => fail (bs "launch failed; additionally failed to schedule retry: " ++ u)
    end
  else
    now ← Now O;
    res ← UpdateRunT (with_stop (with_phase r Failed) (Some now)) Starting Failed (le_msg e);
    match res with
    | Ok _ => fail (le_msg e)
    | Err u | Panic u => fail (bs "launch failed; additionally failed to record run failure: " ++ u)
    end.

(** [startRun] after a launch that could not be recorded. *)
Definition launch_unrecorded (r : Run) (id cause : bytes) : C (result unit) :=
  _ ← BRemove O id;
  _ ← markLaunchRecordFailure r cause;
  fail (bs "record launched run: " ++ cause).

(** [startRun] *)
Definition startRun (job : Job) (attempt : Z) (restore : bytes) : C (result unit) :=
  runs <-! query O (λ s, Ok (ListRuns s (jb_ID job))) ;;
  match head (filter active runs) with
  | Some prev => fail (bs "job " ++ jb_ID job ++ bs " already has an active run " ++ rn_ID prev)
  | None =>
      now ← Now O;
      id ← newID O;
      let r := mkRun id (jb_ID job) [] 0 Starting attempt [] NoFailure now None None in
      _ <-! exec O (λ now s, CreateRunWithTransition s r
              (transitionRecord now (jb_ID job) id (Some Submitted) Starting (bs "launch requested"))) ;;
      env ← launchEnv job;
      match env with
      | Err e | Panic e =>
          res ← blockRun r Starting e;
          match res with
          | Ok _ => fail e
          | Err u | Panic u => fail (bs "resolve launch secrets; additionally failed to record blocked run: " ++ u)
          end
      | Ok env =>
          launched ← Launch O (launch_spec job env restore);
          match launched with
          | inr e => launch_failed r e
          | inl cid =>
              let r := with_phase (with_container r cid) PhaseRunning in
              st ← BGetStatus O cid;
              let r := match st with Ok st => with_port r (bst_HostPort st) | _ => r end in
              res ← UpdateRunT r Starting PhaseRunning (bs "launched");
              match res with
              | Ok _ => ok ()
              | Err e | Panic e => launch_unrecorded r cid e
              end
          end
      end
  end.

(** [launch] and [launchLocked] add the lock and a span to [startRun]. *)
Definition launchLocked := startRun.

(** [Controller.transition] *)
Definition AppendTransition (job : bytes) (from : option Phase) (to : Phase) (reason : bytes) : C (result unit) :=
  exec O (λ now s, Ok (appendTransition s (transitionRecord now job [] from to reason))).

(** Record a job and launch its first run: the common end of the submissions. *)
Definition record_and_launch (job : Job) (env : gmap bytes bytes) (reason : bytes) : C job_err :=
  on_err (exec O (λ _ s, CreateJob s job)) nil_err (λ _,
  setSecrets (jb_ID job) env;;
  on_err (AppendTransition (jb_ID job) None Submitted reason) (λ e, (Some job, Some (bs "submit: transition: " ++ e))) (λ _,
  on_err (launchLocked job 1 []) (λ e, (Some job, Some (bs "submit: launch: " ++ e))) (λ _, ret (Some job, None)))).

(** [submitSDK] *)
Definition submitSDK (doc : bytes) (m : sdkManifest) (env : gmap bytes bytes) (refs : gmap bytes SecretRef) : C job_err :=
  if bool_decide (mf_Name m = []) then ret (nil_err (bs "submit: sdk manifest missing 'name'"))
  else if bool_decide (mf_Image m = []) then ret (nil_err (bs "submit: sdk manifest missing 'image'"))
  else
    match validateResources parseQuantity (mf_Resources m) with
    | Err e | Panic e => ret (nil_err (bs "submit: " ++ e))
    | Ok _ =>
        now ← Now O;
        id ← newID O;
        record_and_launch (mkJob id (mf_Name m) KindSDK doc (mf_Image m) refs [] [] DesiredRunning now now) env
          (bs "submitted (sdk)")
    end.

(** [SubmitWithSecretRefs] *)
Definition SubmitWithSecretRefs (doc : bytes) (env : gmap bytes bytes) (refs : gmap bytes SecretRef) : C job_err :=
  let refs := mergeSecretRefs (secretRefsFromEnv env) refs in
  match parseSDKManifest unmarshal doc with
  | Some m => submitSDK doc m env refs
  | None =>
      resolve ← currentResolver;
      match resolveEnvRefs resolve env refs with
      | Err e | Panic e => ret (nil_err (bs "submit: resolve secret refs: " ++ e))
      | Ok venv =>
          match compile doc venv with
          | Err e | Panic e => ret (nil_err (bs "submit: invalid workflow: " ++ e))
          | Ok (name, delivery, graph) =>
              now ← Now O;
              id ← newID O;
              record_and_launch (mkJob id name KindYAML doc [] refs delivery graph DesiredRunning now now) env
                (bs "submitted")
          end
      end
  end.
Definition Submit (doc : bytes) (env : gmap bytes bytes) : C job_err := SubmitWithSecretRefs doc env ∅.

(** [Cancel] *)
Definition Cancel (job : bytes) : C (result unit) :=
  _ <-! query O (λ s, GetJob s job) ;;
  _ <-! exec O (λ now s, SetDesired s now job DesiredStopped) ;;
  latest <-! query O (λ s, Ok (LatestRun s job)) ;;
  match latest with
  | None => ok ()
  | Some r =>
      if bool_decide (active r) then
        stopped ← BStop O (rn_ContainerID r);
        match stopped with
        | Err e | Panic e =>
            _ <-! UpdateRun (with_error r e) ;;
            fail (bs "cancel: stop run " ++ rn_ID r ++ bs ": " ++ e)
        | Ok _ => finishRun r (rn_Phase r) Cancelled (bs "user cancel")
        end
      else ok ()
  end.

(** The loop of [DeleteWithOptions]: stop and remove every recorded container,
    collecting the errors. *)
Fixpoint removeRuns (runs : list Run) : C (list bytes) :=
  match runs with
  | [] => ret []
  | r :: rs =>
      if bool_decide (rn_ContainerID r = []) then removeRuns rs
      else
        e1 ← (if bool_decide (active r) then BStop O (rn_ContainerID r) else ok ());
        e2 ← BRemove O (rn_ContainerID r);
        es ← removeRuns rs;
        ret ((match e1 with Err e | Panic e => [bs "stop run " ++ rn_ID r ++ bs ": " ++ e] | Ok _ => [] end)
             ++ (match e2 with Err e | Panic e => [bs "remove run " ++ rn_ID r ++ bs ": " ++ e] | Ok _ => [] end)
             ++ es)
  end.

(** [Store.DeleteJob], statement by statement. *)
Definition DeleteJob (job : bytes) : C (result unit) :=
  _ <-! exec O (λ _ s, Ok (delete_transitions s job)) ;;
  _ <-! exec O (λ _ s, Ok (delete_runs s job)) ;;
  exec O (λ _ s, delete_job s job).

(** [DeleteWithOptions] *)
Definition DeleteWithOptions (job : bytes) (deleteData : bool) : C (result unit) :=
  _ <-! query O (λ s, GetJob s job) ;;
  runs <-! query O (λ s, Ok (ListRuns s job)) ;;
  errs ← removeRuns runs;
  match errs with
  | _ :: _ => fail (strings_Join [Byte.x0a] errs)
  | [] =>
      data ← (if deleteData then BDeleteJobData O job else ok ());
      match data with
      | Err e | Panic e => fail (bs "delete job data: " ++ e)
      | Ok _ => dropSecrets job;; DeleteJob job
      end
  end.
Definition Delete (job : bytes) : C (result unit) := DeleteWithOptions job false.

(** [doRestart] *)
Definition doRestart (job : bytes) (restore : bytes) : C job_err :=
  on_err (query O (λ s, GetJob s job)) nil_err (λ j,
  on_err (query O (λ s, Ok (LatestRun s job))) nil_err (λ latest,
  on_err (match latest with
          | Some r =>
              if bool_decide (active r) then
                on_err (BStop O (rn_ContainerID r)) (λ e, Err (bs "restart: stop run " ++ rn_ID r ++ bs ": " ++ e)) (λ _,
                (if bool_decide (rn_ContainerID r = []) then ret () else _ ← BRemove O (rn_ContainerID r); ret ());;
                on_err (finishRun r (rn_Phase r) Cancelled (bs "restart")) (λ e, Err (bs "restart: finish run " ++ rn_ID r ++ bs ": " ++ e)) ok)
              else ok ()
          | None => ok ()
          end) (λ e, (Some j, Some e)) (λ _,
  on_err (exec O (λ now s, SetDesired s now job DesiredRunning)) nil_err (λ _,
  on_err (launchLocked j 1 restore) (λ e, (Some j, Some (bs "restart: launch: " ++ e))) (λ _, ret (Some j, None)))))).
Definition Restart (job : bytes) : C job_err := doRestart job [].
Definition RestartFromSavepoint (job label : bytes) : C job_err :=
  if bool_decide (label = []) then ret (nil_err (bs "restart: empty savepoint label")) else doRestart job label.

(** [ControlAddress] *)
Definition ControlAddress (job : bytes) : C (result bytes) :=
  latest <-! query O (λ s, Ok (LatestRun s job)) ;;
  match latest with
  | Some r =>
      if bool_decide (rn_ContainerID r = []) || negb (bool_decide (active r)) then ok []
      else st <-! BGetStatus O (rn_ContainerID r) ;; ok (bst_Address st)
  | None => ok []
  end.

(** [Savepoint]; [agent] is the answer of the job agent. *)
Definition Savepoint (agent : bytes → bytes → result Z) (job label : bytes) : C (result unit) :=
  if bool_decide (label = []) then fail (bs "savepoint: empty label")
  else
    addr <-! ControlAddress job ;;
    if bool_decide (addr = []) then fail (bs "savepoint: job " ++ job ++ bs " has no running control surface")
    else
      match agent addr label with
      | Err e | Panic e => fail (bs "savepoint: contact agent: " ++ e)
      | Ok code =>
          if code =? 202 then
            _ <-! exec O (λ now s, SetDesired s now job DesiredStopped) ;;
            AppendTransition job (Some PhaseRunning) Cancelling (bs "savepoint: " ++ label)
          else fail (bs "savepoint: agent returned an unexpected status")
      end.

(** ** Reconciliation ([src/control/reconcile.go]) *)

(** [maybeRestart] *)
Definition maybeRestart (job : Job) (r : Run) : C (result unit) :=
  if bool_decide (jb_Desired job ≠ DesiredRunning) then ok ()
  else if negb (ShouldRestart (ct_restart ct) Failed (rn_Attempt r)) then ok ()
  else
    now ← Now O;
    if match rn_RestartAt r with Some t => Before now t | None => false end then ok ()
    else
      _ <-! finishRun r Restarting Failed (bs "restart backoff elapsed") ;;
      launchLocked job (rn_Attempt r + 1) [].

(** [maybeUnblock] *)
Definition maybeUnblock (job : Job) (r : Run) : C (result unit) :=
  if bool_decide (jb_Desired job ≠ DesiredRunning) then ok ()
  else
    env ← launchEnv job;
    match env with
    | Err e | Panic e =>
        if bool_decide (rn_Error r = e) then ok () else UpdateRun (with_error r e)
    | Ok _ =>
        _ <-! finishRun r Blocked Failed (bs "secret references resolved; retrying launch") ;;
        launchLocked job (rn_Attempt r + 1) []
    end.

(** [handleExit] *)
Definition handleExit (job : Job) (r : Run) (exitCode : Z) (oomKilled : bool) : C (result unit) :=
  let '(to, reason, kind) :=
    if bool_decide (jb_Desired job = DesiredStopped) then (Cancelled, bs "stopped by request", NoFailure)
    else if exitCode =? 0 then (Finished, bs "container exited", NoFailure)
    else if oomKilled then (Failed, bs "out of memory", FailureOOMKilled)
    else (Failed, bs "nonzero exit", NoFailure) in
  let r := if bool_decide (to = Failed) then with_error (with_kind r kind) reason else r in
  if bool_decide (to = Failed) && ShouldRestart (ct_restart ct) Failed (rn_Attempt r) then
    r <-! scheduleRestart r reason ;;
    maybeRestart job r
  else finishRun r PhaseRunning to reason.

(** The stop a reconcile pass makes when the job should not run. *)
Definition stop_desired (r : Run) (from : Phase) : C (result unit) :=
  stopped ← BStop O (rn_ContainerID r);
  match stopped with
  | Err e | Panic e => UpdateRun (with_error r e)
  | Ok _ => finishRun r from Cancelled (bs "desired stopped")
  end.

(** [reconcileRun] *)
Definition reconcileRun (job : Job) (r : Run) (st : BStatus) : C (result unit) :=
  let stop := bool_decide (jb_Desired job = DesiredStopped) in
  match bst_Phase st with
  | BPending =>
      if stop then stop_desired r Starting
      else if bool_decide (rn_Phase r ≠ Starting) || bool_decide (rn_Error r ≠ bst_Reason st)
      then UpdateRun (with_error (with_phase r Starting) (bst_Reason st)) else ok ()
  | BRunning =>
      if stop then stop_desired r PhaseRunning
      else
        let recovered := bool_decide (rn_FailureKind r = FailureContainerUnhealthy) in
        if bool_decide (rn_Phase r ≠ PhaseRunning)
           || (negb (bst_HostPort st =? 0) && negb (rn_HostPort r =? bst_HostPort st)) || recovered
        then
          let r := with_phase r PhaseRunning in
          let r := if bst_HostPort st =? 0 then r else with_port r (bst_HostPort st) in
          UpdateRun (if recovered then with_kind (with_error r []) NoFailure else r)
        else ok ()
  | BUnhealthy =>
      if stop then stop_desired r PhaseRunning
      else if bool_decide (rn_Error r ≠ bst_Reason st) || bool_decide (rn_FailureKind r ≠ FailureContainerUnhealthy)
      then UpdateRun (with_kind (with_error r (bst_Reason st)) FailureContainerUnhealthy) else ok ()
  | BExited => handleExit job r (bst_ExitCode st) (bst_OOMKilled st)
  | BGone =>
      if stop then finishRun r PhaseRunning Cancelled (bs "container gone; desired stopped")
      else if ShouldRestart (ct_restart ct) Failed (rn_Attempt r) then
        r <-! scheduleRestart r (bs "container gone") ;;
        maybeRestart job r
      else finishRun r PhaseRunning Failed (bs "container gone")
  end.

(** [findManagedContainer]: the newest managed container of the job. *)
Definition newer (best : option ContainerStats) (job : bytes) (c : ContainerStats) : option ContainerStats :=
  if negb (cs_Managed c) || bool_decide (cs_JobID c ≠ job) || bool_decide (cs_ID c = []) then best
  else match best with
       | Some b => if cs_StartedAt b <? cs_StartedAt c then Some c else best
       | None => Some c
       end.
Definition best_container (cs : list ContainerStats) (job : bytes) : option ContainerStats :=
  foldl (λ best c, newer best job c) None cs.
Definition findManagedContainer (job : bytes) : C (result (option ContainerStats)) :=
  cs <-! BCapacity O ;; ok (best_container cs job).

(** [reattachUnrecordedBackendRun] *)
Definition reattach (job : Job) (r : Run) : C (result unit) :=
  found <-! findManagedContainer (jb_ID job) ;;
  match found with
  | None => ok ()
  | Some c =>
      st <-! BGetStatus O (cs_ID c) ;;
      if match bst_Phase st with BGone => true | _ => false end then ok ()
      else
        let r := with_container r (cs_ID c) in
        let r := if bst_HostPort st =? 0 then r else with_port r (bst_HostPort st) in
        match bst_Phase st with
        | BRunning => UpdateRunT (with_phase r PhaseRunning) (rn_Phase r) PhaseRunning (bs "reattached backend resource")
        | BPending => UpdateRun (with_error (with_phase r Starting) (bst_Reason st))
        | _ => reconcileRun job r st
        end
  end.

(** One run of a [reconcile] pass; its errors are logged. *)
Definition reconcile_one (id : bytes) : C unit :=
  current ← query O (λ s, GetRun s id);
  match current with
  | Ok r =>
      if negb (bool_decide (active r)) then ret ()
      else
        job ← query O (λ s, GetJob s (rn_JobID r));
        match job with
        | Ok job =>
            _ ← (if bool_decide (rn_Phase r = Blocked) then maybeUnblock job r
                 else if bool_decide (rn_Phase r = Restarting) then maybeRestart job r
                 else if bool_decide (rn_ContainerID r = []) then reattach job r
                 else st <-! BGetStatus O (rn_ContainerID r) ;; reconcileRun job r st);
            ret ()
        | _ => ret ()
        end
  | _ => ret ()
  end.

Fixpoint reconcile_all (ids : list bytes) : C unit :=
  match ids with [] => ret () | id :: ids => reconcile_one id;; reconcile_all ids end.

(** [reconcile] *)
Definition reconcile : C (result unit) :=
  runs <-! query O (λ s, Ok (ActiveRuns s)) ;;
  reconcile_all (rn_ID <$> runs);; ok ().

(** ** Orphans ([src/control/sweep.go]) *)

Record SweepReport := mkSweep { sw_Removed : list bytes; sw_Running : list bytes; sw_Errors : list bytes }.

(** [referenced]: a stored identifier that the listed one abbreviates counts. *)
Definition referenced (known : list bytes) (id : bytes) : bool := existsb (has_prefix id) known.

(** The containers the store references for a job; [None] when it has no row. *)
Definition known_containers (s : store) (job : bytes) : option (list bytes) :=
  match get_job s job with
  | Some _ => Some (filter (λ c, c ≠ []) (rn_ContainerID <$> ListRuns s job))
  | None => None
  end.

Definition sweep_one (s : store) (rep : SweepReport) (c : ContainerStats) : C SweepReport :=
  if negb (cs_Managed c) || bool_decide (cs_ID c = []) then ret rep
  else if match known_containers s (cs_JobID c) with Some known => referenced known (cs_ID c) | None => false end then ret rep
  else
    st ← BGetStatus O (cs_ID c);
    match st with
    | Err e | Panic e => ret (mkSweep (sw_Removed rep) (sw_Running rep) (sw_Errors rep ++ [cs_ID c ++ bs ": status: " ++ e]))
    | Ok st =>
        match bst_Phase st with
        | BRunning | BPending | BUnhealthy => ret (mkSweep (sw_Removed rep) (sw_Running rep ++ [cs_ID c]) (sw_Errors rep))
        | BExited | BGone =>
            res ← BRemove O (cs_ID c);
            match res with
            | Err e | Panic e =>
                ret (mkSweep (sw_Removed rep) (sw_Running rep) (sw_Errors rep ++ [cs_ID c ++ bs ": remove: " ++ e]))
            | Ok _ => ret (mkSweep (sw_Removed rep ++ [cs_ID c]) (sw_Running rep) (sw_Errors rep))
            end
        end
    end.

Fixpoint sweep_all (s : store) (rep : SweepReport) (cs : list ContainerStats) : C SweepReport :=
  match cs with [] => ret rep | c :: cs => rep ← sweep_one s rep c; sweep_all s rep cs end.

(** [SweepOrphans]; the store is read once, before the first removal. *)
Definition SweepOrphans : C (result SweepReport) :=
  cs <-! BCapacity O ;;
  s <-! query O Ok ;;
  rep ← sweep_all s (mkSweep [] [] []) cs;
  ok rep.
End controller.

(** ** Calls that keep a part of the world *)

Section keeps.
Context {X : Type} (part : cworld → X) (tick_free : ∀ s l k t t', part (mkWorld s l k t) = part (mkWorld s l k t')).

Definition keeps {A} (m : C A) : Prop := ∀ w, part (m w).2 = part w.
Lemma keeps_ret {A} (a : A) : keeps (ret a).
Proof. done. Qed.
Lemma keeps_bind {A B} (m : C A) (k : A → C B) : keeps m → (∀ a, keeps (k a)) → keeps (m ≫= k).
Proof.
  intros Hm Hk w. unfold mbind, C_bind. specialize (Hm w). destruct (m w) as [[a|] w']; [|done]. cbn in Hm. rewrite <- Hm. apply Hk.
Qed.
Lemma keeps_ebind {A B} (m : C (result A)) (k : A → C (result B)) : keeps m → (∀ a, keeps (k a)) → keeps (ebind m k).
Proof. intros Hm Hk. apply keeps_bind; [done|]. intros [a|e|e]; [apply Hk|done|done]. Qed.
Lemma keeps_on_err {A B} (m : C (result A)) (f : bytes → B) (k : A → C B) : keeps m → (∀ a, keeps (k a)) → keeps (on_err m f k).
Proof. intros Hm Hk. apply keeps_bind; [done|]. intros [a|e|e]; [apply Hk|done|done]. Qed.
Lemma keeps_prim {A} O (f : nat → cworld → A * cworld) : (∀ t w, part (f t w).2 = part w) → keeps (prim O f).
Proof using tick_free.
  intros Hf w. unfold prim. destruct (crashAt O (cw_tick w)); [done|]. specialize (Hf (cw_tick w) w). destruct (f (cw_tick w) w) as [a w']. cbn in *.
  rewrite <- Hf. destruct w'. apply tick_free.
Qed.
Lemma keeps_query {A} O (q : store → result A) : keeps (query O q).
Proof using tick_free. by apply keeps_prim. Qed.
Lemma keeps_exec O f : (∀ now w s, f now (cw_store w) = Ok s → part (set_store w s) = part w) → keeps (exec O f).
Proof using tick_free.
  intros Hf. apply keeps_prim. intros t w. destruct (storeFault O t); [done|]. destruct (f (nowAt O t) (cw_store w)) as [s|e|e] eqn:E; [|done|done]. by apply (Hf (nowAt O t)).
Qed.
End keeps.
