(* ===== verification/Fencing.v ===== *)
(** * At most one live container per job

    The single-live-run fencing of the controller: in every state its operations
    reach, with any store failures, backend answers and crashes, a job has at most
    one container that may be running.  The proof is a small Hoare logic over the
    monad of [Controller] whose triples also cover the states a crash leaves. *)

From S2P Require Import Prelude Lifecycle JobStore Controller.
From Stdlib Require Import Strings.Byte.

(** ** The invariant *)

Definition quiet (live : gmap bytes bytes) (j : bytes) : Prop := ∀ c, live !! c ≠ Some j.

(** Phases of an active run that has no container. *)
Definition waiting (p : Phase) : Prop := p = Restarting ∨ p = Blocked.

#[export] Instance waiting_dec p : Decision (waiting p).
Proof. unfold waiting. apply _. Defined.

Record fenced (runs : list Run) (live : gmap bytes bytes) : Prop := {
  fc_ids : NoDup (rn_ID <$> runs);
  fc_one r r' : r ∈ runs → r' ∈ runs → active r → active r' → rn_JobID r = rn_JobID r' → r = r';
  fc_named : live !! [] = None;
  fc_owned c j : live !! c = Some j →
    ∃ r, r ∈ runs ∧ rn_JobID r = j ∧ active r ∧ (rn_ContainerID r = c ∨ rn_ContainerID r = []);
  fc_unique c c' j : live !! c = Some j → live !! c' = Some j → c = c';
  fc_waiting r : r ∈ runs → active r → waiting (rn_Phase r) → quiet live (rn_JobID r)
}.

(** What a row may say about the live containers of its job. *)
Record fits (live : gmap bytes bytes) (r : Run) : Prop := {
  ft_active : active r → ∀ c, live !! c = Some (rn_JobID r) → rn_ContainerID r = c ∨ rn_ContainerID r = [];
  ft_quiet : ¬ active r ∨ waiting (rn_Phase r) → quiet live (rn_JobID r)
}.

Lemma fits_quiet live r : quiet live (rn_JobID r) → fits live r.
Proof. intros Hq. split; [|done]. intros _ c Hc. by destruct (Hq c). Qed.

(** The row of an active run fits. *)
Lemma row_fits runs live r : fenced runs live → r ∈ runs → active r → fits live r.
Proof.
  intros F Hr Ha. split.
  - intros _ c Hc. destruct (fc_owned _ _ F c _ Hc) as (r' & Hr' & Hj & Ha' & Ho).
    by rewrite (fc_one _ _ F r r' Hr Hr' Ha Ha' (eq_sym Hj)).
  - intros [?|Hw]; [done|]. by apply (fc_waiting _ _ F).
Qed.

(** Fewer live containers keep the invariant. *)
Lemma fenced_sub runs live live' : fenced runs live → live' ⊆ live → fenced runs live'.
Proof.
  intros F Hsub. assert (∀ c j, live' !! c = Some j → live !! c = Some j) as Hs by (intros c j Hc; by eapply lookup_weaken).
  split; try apply F.
  - destruct (live' !! []) as [j|] eqn:E; [|done]. apply Hs in E. by rewrite (fc_named _ _ F) in E.
  - intros c j Hc. by apply (fc_owned _ _ F), Hs.
  - intros c c' j Hc Hc'. apply (fc_unique _ _ F c c' j); auto.
  - intros r Hr Ha Hw c Hc. by apply (fc_waiting _ _ F r Hr Ha Hw c), Hs.
Qed.

Lemma quiet_sub live live' j : quiet live j → live' ⊆ live → quiet live' j.
Proof. intros Hq Hs c Hc. apply (Hq c). by eapply lookup_weaken. Qed.

Lemma fits_sub live live' r : fits live r → live' ⊆ live → fits live' r.
Proof.
  intros [F1 F2] Hs. split.
  - intros Ha c Hc. apply F1; [done|]. by eapply lookup_weaken.
  - intros Hw. eapply quiet_sub; eauto.
Qed.

(** A job without active run has no live container. *)
Lemma no_active_quiet runs live j : fenced runs live → active_of j runs = [] → quiet live j.
Proof.
  intros F Hn c Hc. destruct (fc_owned _ _ F c j Hc) as (r & Hr & Hj & Ha & _).
  assert (r ∈ active_of j runs) as Hin by (by apply list_elem_of_filter).
  rewrite Hn in Hin. by apply not_elem_of_nil in Hin.
Qed.

(** ** Statements on the runs *)

Lemma get_run_elem s id r : get_run s id = Some r → r ∈ st_runs s ∧ rn_ID r = id.
Proof.
  unfold get_run. intros Hh. destruct (filter _ (st_runs s)) as [|x l] eqn:E; [done|]. injection Hh as ->.
  assert (r ∈ filter (λ r, rn_ID r = id) (st_runs s)) as Hr by (rewrite E; left).
  apply list_elem_of_filter in Hr as [??]. done.
Qed.

Lemma get_run_unique s r : NoDup (rn_ID <$> st_runs s) → r ∈ st_runs s → get_run s (rn_ID r) = Some r.
Proof.
  intros Hnd Hr. destruct (get_run s (rn_ID r)) as [r'|] eqn:E.
  - apply get_run_elem in E as [Hr' Hid]. f_equal. by apply (run_id_inj (st_runs s)).
  - apply get_run_is_Some in Hr as [? Hr]. congruence.
Qed.

Lemma insertRun_fenced s s' r live : fenced (st_runs s) live → insertRun s r = Ok s' →
  active r → rn_ContainerID r = [] → quiet live (rn_JobID r) →
  fenced (st_runs s') live ∧ r ∈ st_runs s' ∧ st_runs s' = st_runs s ++ [r].
Proof.
  intros F Hi Ha Hc Hq. unfold insertRun in Hi. case_bool_decide as Hid; [done|].
  rewrite bool_decide_true in Hi by done. cbn in Hi. case_bool_decide as Hact; [done|]. injection Hi as <-.
  cbn. split; [|split; [apply elem_of_app; right; by left|done]].
  assert (∀ x, x ∈ st_runs s → active x → rn_JobID x ≠ rn_JobID r) as Hno.
  { intros x Hx Hxa Hj. assert (x ∈ active_of (rn_JobID r) (st_runs s)) as Hin by (by apply list_elem_of_filter).
    rewrite Hact in Hin. by apply not_elem_of_nil in Hin. }
  split.
  - rewrite fmap_app. apply NoDup_app. split; [apply F|]. split; [|apply NoDup_singleton].
    intros x Hx ->%list_elem_of_singleton. apply Hid. apply list_elem_of_fmap in Hx as (y & Hy & Hyr).
    exists y. rewrite Hy. apply get_run_unique; [apply F|done].
  - intros x y [Hx| ->%list_elem_of_singleton]%elem_of_app [Hy| ->%list_elem_of_singleton]%elem_of_app Hxa Hya Hj.
    + by apply (fc_one _ _ F).
    + exfalso. by eapply Hno.
    + exfalso. by eapply Hno.
    + done.
  - apply F.
  - intros c j Hl. destruct (fc_owned _ _ F c j Hl) as (x & Hx & ?). exists x. split; [apply elem_of_app; by left|done].
  - apply F.
  - intros x [Hx| ->%list_elem_of_singleton]%elem_of_app Hxa Hw; [by apply (fc_waiting _ _ F)|done].
Qed.

(** The row of [r] in the table: the statement [updateRun] replaces it. *)
Definition row (runs : list Run) (r : Run) : Prop :=
  ∃ old, old ∈ runs ∧ rn_ID old = rn_ID r ∧ rn_JobID old = rn_JobID r ∧ rn_Started old = rn_Started r.

Lemma overwrite_row old r : rn_ID old = rn_ID r → rn_JobID old = rn_JobID r → rn_Started old = rn_Started r → overwrite old r = r.
Proof. intros. unfold overwrite. destruct r; cbn in *. congruence. Qed.

Lemma updateRun_fenced s s' r live : fenced (st_runs s) live → updateRun s r = Ok s' →
  row (st_runs s) r → (∀ old, old ∈ st_runs s → rn_ID old = rn_ID r → active old ∨ ¬ active r) → fits live r →
  fenced (st_runs s') live ∧ r ∈ st_runs s'.
Proof.
  intros F Hu (old & Hold & Hid & Hj & Hst) Hkeep Hfit. unfold updateRun in Hu.
  pose proof (get_run_unique s old (fc_ids _ _ F) Hold) as Hg. rewrite Hid in Hg. rewrite Hg in Hu.
  destruct (_ && _); [done|]. injection Hu as <-. cbn.
  set (f := λ x, if bool_decide (rn_ID x = rn_ID r) then overwrite x r else x).
  assert (∀ x, x ∈ st_runs s → rn_ID x = rn_ID r → x = old) as Huniq.
  { intros x Hx Hxid. pose proof (get_run_unique s x (fc_ids _ _ F) Hx) as Hgx. rewrite Hxid in Hgx. congruence. }
  assert (∀ x, x ∈ f <$> st_runs s ↔ x = r ∨ (x ∈ st_runs s ∧ rn_ID x ≠ rn_ID r)) as Hin.
  { intros x. rewrite list_elem_of_fmap. split.
    - intros (y & -> & Hy). unfold f. case_bool_decide as Hy'; [|by right]. left.
      rewrite (Huniq y Hy Hy'). by apply overwrite_row.
    - intros [->|[Hx Hne]].
      + exists old. split; [|done]. unfold f. rewrite bool_decide_true by done. symmetry. by apply overwrite_row.
      + exists x. split; [|done]. unfold f. by rewrite bool_decide_false. }
  assert (rn_ID <$> (f <$> st_runs s) = rn_ID <$> st_runs s) as Hids.
  { rewrite <- list_fmap_compose. apply list_fmap_ext. intros _ x _. unfold f, compose. by case_bool_decide. }
  assert (∀ x, x ∈ st_runs s → rn_ID x ≠ rn_ID r → active x → active r → rn_JobID x ≠ rn_JobID r) as Hother.
  { intros x Hx Hne Hxa Hra Hxj. destruct (Hkeep old Hold Hid) as [Hoa|?]; [|done].
    apply Hne. rewrite <- Hid. f_equal. apply (fc_one _ _ F); congruence. }
  split; [|apply Hin; by left]. split.
  - rewrite Hids. apply F.
  - intros x y [->|[Hx Hxne]]%Hin [->|[Hy Hyne]]%Hin Hxa Hya Hxy; [done| | |by apply (fc_one _ _ F)].
    + exfalso. by eapply (Hother y).
    + exfalso. by eapply (Hother x).
  - apply F.
  - intros c j Hc. destruct (fc_owned _ _ F c j Hc) as (x & Hx & Hxj & Hxa & Hxc).
    destruct (decide (rn_ID x = rn_ID r)) as [Hxid|Hne].
    + apply Huniq in Hxid as ->; [|done]. exists r. split; [apply Hin; by left|]. split; [congruence|].
      destruct (decide (active r)) as [Ha|Hna].
      * split; [done|]. apply (ft_active _ _ Hfit Ha). congruence.
      * exfalso. apply (ft_quiet _ _ Hfit (or_introl Hna) c). congruence.
    + exists x. split; [apply Hin; by right|done].
  - apply F.
  - intros x [->|[Hx _]]%Hin Hxa Hw; [|by apply (fc_waiting _ _ F)]. apply (ft_quiet _ _ Hfit). by right.
Qed.

(** Pruning deletes terminal rows only. *)
Lemma prune_victim_terminal s j keep v : v ∈ prune_victims s j keep → v ∈ st_runs s ∧ ¬ active v.
Proof.
  unfold prune_victims. intros Hv. assert (v ∈ filter (λ r, rn_JobID r = j ∧ ¬ active r) (st_runs s)) as Hf.
  { destruct (keep <=? 0); [done|]. apply list_elem_of_lookup in Hv as [i Hi].
    rewrite lookup_drop in Hi. apply list_elem_of_lookup_2 in Hi. rename Hi into Hv. rewrite merge_sort_Permutation in Hv. done. }
  apply list_elem_of_filter in Hf as [[_ ?] ?]. done.
Qed.

Lemma prune_fenced s j keep live : fenced (st_runs s) live → fenced (st_runs (PruneTerminalRuns s j keep)) live.
Proof.
  intros F. cbn. set (ids := rn_ID <$> prune_victims s j keep).
  assert (∀ r, r ∈ st_runs s → active r → rn_ID r ∉ ids) as Hact.
  { intros r Hr Ha (v & Hv & [Hvr Hna]%prune_victim_terminal)%list_elem_of_fmap.
    pose proof (get_run_unique s r (fc_ids _ _ F) Hr) as E1. pose proof (get_run_unique s v (fc_ids _ _ F) Hvr) as E2.
    rewrite Hv in E1. congruence. }
  split; try apply F.
  - assert (filter (λ r, rn_ID r ∉ ids) (st_runs s) `sublist_of` st_runs s) as Hsub by apply sublist_filter.
    eapply sublist_NoDup; [apply (fc_ids _ _ F)|]. by apply fmap_sublist.
  - intros r r' [_ Hr]%list_elem_of_filter [_ Hr']%list_elem_of_filter. by apply (fc_one _ _ F).
  - intros c i Hc. destruct (fc_owned _ _ F c i Hc) as (r & Hr & ? & Ha & ?). exists r.
    split; [apply list_elem_of_filter; split; [by apply Hact|done]|done].
  - intros r [_ Hr]%list_elem_of_filter. by apply (fc_waiting _ _ F).
Qed.

Lemma updateRun_Ok s r live : fenced (st_runs s) live → row (st_runs s) r →
  (∀ old, old ∈ st_runs s → rn_ID old = rn_ID r → active old) → ∃ s', updateRun s r = Ok s'.
Proof.
  intros F (old & Hold & Hid & Hj & _) Hact. unfold updateRun.
  pose proof (get_run_unique s old (fc_ids _ _ F) Hold) as Hg. rewrite Hid in Hg. rewrite Hg.
  rewrite (bool_decide_false (_ ≠ [])); [rewrite andb_false_r; eauto|].
  intros Hne. apply Hne. apply filter_none, Forall_forall.
  intros x [[Hxj Hxa] Hx]%list_elem_of_filter. intros Hxne. apply Hxne. rewrite <- Hid. f_equal.
  apply (fc_one _ _ F); auto.
Qed.

(** ** A Hoare logic *)

Definition Inv (w : cworld) : Prop := fenced (st_runs (cw_store w)) (cw_live w).

(** An assertion on the table of runs and the live containers. *)
Definition assertion := list Run → gmap bytes bytes → Prop.
Definition at_ (A : assertion) (w : cworld) : Prop := A (st_runs (cw_store w)) (cw_live w).

Definition hoare {A} (P : cworld → Prop) (m : C A) (Q : A → cworld → Prop) : Prop :=
  ∀ w, P w → match m w with (Some a, w') => Q a w' | (None, w') => Inv w' end.

(** Assertions that containers going down cannot break, and that keep [Inv]. *)
Class Steady (A : assertion) : Prop := {
  sd_fenced runs live : A runs live → fenced runs live;
  sd_down runs live live' : A runs live → live' ⊆ live → A runs live'
}.

#[export] Instance steady_fenced : Steady fenced.
Proof. split; [done|]. intros. by eapply fenced_sub. Qed.

#[export] Instance steady_and A (B : assertion) :
  Steady A → (∀ runs live live', B runs live → live' ⊆ live → B runs live') → Steady (λ runs live, A runs live ∧ B runs live).
Proof. intros HA HB. split; [intros ?? [? _]; by eapply sd_fenced|]. intros ??? [??] ?. split; [by eapply sd_down|eauto]. Qed.

Lemma hoare_ret {A} (P : cworld → Prop) (a : A) (Q : A → cworld → Prop) : (∀ w, P w → Q a w) → hoare P (ret a) Q.
Proof. intros Hq w Hw. by apply Hq. Qed.

Lemma hoare_bind {A B} P (m : C A) (k : A → C B) R Q :
  hoare P m R → (∀ a, hoare (R a) (k a) Q) → hoare P (m ≫= k) Q.
Proof.
  intros Hm Hk w Hw. specialize (Hm w Hw). unfold mbind, C_bind. destruct (m w) as [[a|] w']; [|done]. by apply Hk.
Qed.

Lemma hoare_ebind {A B} P (m : C (result A)) (k : A → C (result B)) R Q :
  hoare P m R → (∀ a, hoare (R (Ok a)) (k a) Q) →
  (∀ e w, R (Err e) w → Q (Err e) w) → (∀ e w, R (Panic e) w → Q (Panic e) w) → hoare P (ebind m k) Q.
Proof.
  intros Hm Hk He Hp. eapply hoare_bind; [exact Hm|]. intros [a|e|e]; [apply Hk|apply hoare_ret|apply hoare_ret]; auto.
Qed.

Lemma hoare_on_err {A B} P (m : C (result A)) (f : bytes → B) (k : A → C B) R Q :
  hoare P m R → (∀ a, hoare (R (Ok a)) (k a) Q) → (∀ e w, R (Err e) w → Q (f e) w) → (∀ e w, R (Panic e) w → Q (f e) w) →
  hoare P (on_err m f k) Q.
Proof. intros Hm Hk He Hp. apply (hoare_bind _ _ _ R); [done|]. intros [a|e|e]; [apply Hk|apply hoare_ret, He|apply hoare_ret, Hp]. Qed.
Lemma hoare_pre {A} (P P' : cworld → Prop) (m : C A) Q : (∀ w, P w → P' w) → hoare P' m Q → hoare P m Q.
Proof. intros Hp Hm w Hw. apply Hm, Hp, Hw. Qed.

Lemma hoare_post {A} P (m : C A) (Q Q' : A → cworld → Prop) : hoare P m Q' → (∀ a w, Q' a w → Q a w) → hoare P m Q.
Proof. intros Hm Hq w Hw. specialize (Hm w Hw). destruct (m w) as [[a|] w']; [|done]. by apply Hq. Qed.

Section specs.
Context (O : oracle).

Lemma hoare_prim {A} P (f : nat → cworld → A * cworld) Q : (∀ w, P w → Inv w) →
  (∀ w, P w → let '(a, w') := f (cw_tick w) w in
              Q a (mkWorld (cw_store w') (cw_live w') (cw_secrets w') (S (cw_tick w)))) → hoare P (prim O f) Q.
Proof.
  intros Hi Hf w Hw. unfold prim. destruct (crashAt O (cw_tick w)); [by apply Hi|].
  specialize (Hf w Hw). by destruct (f (cw_tick w) w) as [a w'].
Qed.

Lemma hoare_now A (k : time → C A) P Q : (∀ t, hoare P (k t) Q) → hoare P (Now O ≫= k) Q.
Proof. intros Hk w Hw. unfold mbind, C_bind, Now. by apply Hk. Qed.
Lemma hoare_newID A (k : bytes → C A) P Q : (∀ t, hoare P (k t) Q) → hoare P (newID O ≫= k) Q.
Proof. intros Hk w Hw. unfold mbind, C_bind, newID. by apply Hk. Qed.

Lemma spec_query {A} (q : store → result A) (P : assertion) : Steady P →
  hoare (at_ P) (query O q) (λ r w, at_ P w ∧ ∀ a, r = Ok a → q (cw_store w) = Ok a).
Proof.
  intros HP. apply hoare_prim; [intros w; apply (sd_fenced (A:=P))|]. intros w Hw. cbn. split; [done|].
  intros a. by destruct (storeFault O (cw_tick w)).
Qed.

(** A statement that leads from [P] to [P'] when it succeeds. *)
Lemma spec_exec f (P P' : assertion) : Steady P →
  (∀ now s s' live, P (st_runs s) live → f now s = Ok s' → P' (st_runs s') live) →
  hoare (at_ P) (exec O f) (λ r w, match r with Ok _ => at_ P' w | _ => at_ P w end).
Proof.
  intros HP Hf. apply hoare_prim; [intros w; apply (sd_fenced (A:=P))|]. intros w Hw.
  destruct (storeFault O (cw_tick w)); [done|]. destruct (f _ _) as [s| |] eqn:E; [|done..]. by eapply Hf.
Qed.

(** A statement that only a fault of the store can stop. *)
Lemma spec_exec_fault f (P P' : assertion) : Steady P →
  (∀ now s live, P (st_runs s) live → ∃ s', f now s = Ok s' ∧ P' (st_runs s') live) →
  hoare (at_ P) (exec O f) (λ r w, match r with
    | Ok _ => at_ P' w
    | _ => at_ P w ∧ ∃ t, cw_tick w = S t ∧ storeFault O t ≠ None end).
Proof.
  intros HP Hf. apply hoare_prim; [intros w; apply (sd_fenced (A:=P))|]. intros w Hw.
  destruct (storeFault O (cw_tick w)) eqn:Ef.
  - split; [done|]. exists (cw_tick w). split; [done|]. by rewrite Ef.
  - destruct (Hf (nowAt O (cw_tick w)) (cw_store w) (cw_live w) Hw) as (s' & -> & Hs'). done.
Qed.

(** Calls of the backend that may take a container down. *)
Lemma spec_stop id (P : assertion) : Steady P →
  hoare (at_ P) (BStop O id) (λ r w, at_ P w ∧ ∀ a, r = Ok a → cw_live w !! id = None).
Proof.
  intros HP. apply hoare_prim; [intros w; apply (sd_fenced (A:=P))|]. intros w Hw.
  destruct (stopAt O (cw_tick w) id); cbn; [done|]. split; [|intros; apply lookup_delete_eq].
  eapply (sd_down (A:=P)); [exact Hw|apply delete_subseteq].
Qed.
Lemma spec_remove id (P : assertion) : Steady P →
  hoare (at_ P) (BRemove O id) (λ r w, at_ P w ∧ ∀ a, r = Ok a → cw_live w !! id = None).
Proof.
  intros HP. apply hoare_prim; [intros w; apply (sd_fenced (A:=P))|]. intros w Hw.
  destruct (removeAt O (cw_tick w) id); cbn; [done|]. split; [|intros; apply lookup_delete_eq].
  eapply (sd_down (A:=P)); [exact Hw|apply delete_subseteq].
Qed.
Definition is_down (p : BackendPhase) : Prop := p = BExited ∨ p = BGone.
Lemma spec_status id (P : assertion) : Steady P →
  hoare (at_ P) (BGetStatus O id) (λ r w, at_ P w ∧ ∀ st, r = Ok st → is_down (bst_Phase st) → cw_live w !! id = None).
Proof.
  intros HP. apply hoare_prim; [intros w; apply (sd_fenced (A:=P))|]. intros w Hw.
  destruct (statusAt O (cw_tick w) id) as [st| |]; cbn; [|done..]. split.
  - destruct (bst_Phase st); try done; (eapply (sd_down (A:=P)); [exact Hw|apply delete_subseteq]).
  - intros st' [= <-] [-> | ->]; apply lookup_delete_eq.
Qed.
End specs.

(** ** The operations *)

(** What the fencing relies on: a launched container has a name; a container that
    was just launched can be removed when the store refuses to record it; a
    listing of the backend shows the only live container of a job as its newest. *)
Record fencing_laws (O : oracle) : Prop := {
  lw_named t spec : launchAt O t spec ≠ inl [];
  lw_remove t c : storeFault O t ≠ None → removeAt O (S t) c = None;
  lw_listed t live cs c j : capacityAt O t live = Ok cs → live !! c = Some j → (∀ c', live !! c' = Some j → c' = c) →
    ∃ s, s ∈ cs ∧ cs_ID s = c ∧ cs_JobID s = j ∧ cs_Managed s = true
      ∧ ∀ s', s' ∈ cs → cs_JobID s' = j → cs_ID s' ≠ c → cs_StartedAt s' < cs_StartedAt s
}.

Section operations.
Context (O : oracle) (ct : Ctl).
Context (unmarshal : bytes → option sdkManifest) (parseQuantity : bytes → option bytes).
Context (compile : bytes → gmap bytes bytes → result (bytes * bytes * bytes)).
Context (HO : fencing_laws O).

Notation start := (startRun O ct unmarshal).

(** The assertions of the proofs below: a run whose row is active, alone or with
    a job that is quiet. *)
Definition held (r : Run) : assertion := λ runs live,
  fenced runs live ∧ (row runs r ∧ ∀ old, old ∈ runs → rn_ID old = rn_ID r → active old).
Definition idle (r : Run) : assertion := λ runs live,
  held r runs live ∧ quiet live (rn_JobID r).

#[local] Instance steady_held r : Steady (held r).
Proof. apply steady_and; [apply _|done]. Qed.
#[local] Instance steady_idle r : Steady (idle r).
Proof. apply steady_and; [apply _|]. intros. by eapply quiet_sub. Qed.

Lemma held_row runs live r r' : held r runs live → rn_ID r' = rn_ID r → rn_JobID r' = rn_JobID r →
  rn_Started r' = rn_Started r → held r' runs live.
Proof.
  intros (F & (old & Ho & Hi & Hj & Hs) & Ha) E1 E2 E3. split; [done|]. split.
  - exists old. rewrite E1, E2, E3. done.
  - intros x Hx Hid. apply Ha; [done|congruence].
Qed.

Lemma in_held runs live r : fenced runs live → r ∈ runs → active r → held r runs live.
Proof.
  intros F Hr Ha. split; [done|]. split; [by exists r|]. intros old Hold Hid.
  by rewrite (run_id_inj runs old r (fc_ids _ _ F) Hold Hr Hid).
Qed.

(** The update statements, from a run that is held. *)
Lemma update_held s s' r live : held r (st_runs s) live → fits live r → updateRun s r = Ok s' →
  fenced (st_runs s') live ∧ r ∈ st_runs s'.
Proof. intros (F & Hrow & Ha) Hfit Hu. eapply updateRun_fenced; eauto. Qed.

Lemma UpdateT_runs s r t s' : UpdateRunWithTransition s r t = Ok s' → ∃ s1, updateRun s r = Ok s1 ∧ st_runs s' = st_runs s1.
Proof. unfold UpdateRunWithTransition. intros (s1 & E & [= <-])%rbind_Ok. eauto. Qed.

Lemma spec_UpdateRun r (P : assertion) : Steady P →
  (∀ runs live, P runs live → held r runs live ∧ fits live r) →
  hoare (at_ P) (UpdateRun O r) (λ _, at_ fenced).
Proof.
  intros HP Hr. eapply hoare_post; [apply (spec_exec O _ P fenced HP)|].
  - intros now s s' live Hl Hu. destruct (Hr _ _ Hl). by eapply update_held.
  - intros [] w; [done|apply (sd_fenced (A:=P))..].
Qed.

Lemma spec_UpdateRunT r from to reason (P : assertion) : Steady P →
  (∀ runs live, P runs live → held r runs live ∧ fits live r) →
  hoare (at_ P) (UpdateRunT O r from to reason) (λ res w, match res with
    | Ok _ => at_ (λ runs live, fenced runs live ∧ r ∈ runs ∧ ∃ runs0, P runs0 live) w
    | _ => at_ P w end).
Proof.
  intros HP Hr. apply (spec_exec O _ P _ HP). intros now s s' live Hl (s1 & Hu & ->)%UpdateT_runs.
  destruct (Hr _ _ Hl). destruct (update_held s s1 r live) as [? ?]; eauto.
Qed.

(** [pruneTerminalRuns] only takes containers down and deletes terminal rows. *)
Lemma spec_removeAll vs (P : assertion) : Steady P → hoare (at_ P) (removeAll O vs) (λ _, at_ P).
Proof.
  intros HP. induction vs as [|v vs IH]; cbn [removeAll]; [by apply hoare_ret|].
  apply (hoare_bind _ _ _ (λ _, at_ P)); [|intros _; exact IH]. case_bool_decide; [by apply hoare_ret|].
  eapply hoare_bind; [by apply spec_remove|]. intros r. apply hoare_ret. by intros w [? _].
Qed.

Definition calm (j : bytes) : assertion := λ runs live, fenced runs live ∧ quiet live j.
#[local] Instance steady_calm j : Steady (calm j).
Proof. apply steady_and; [apply _|]. intros. by eapply quiet_sub. Qed.

Lemma spec_prune j j' : hoare (at_ (calm j)) (pruneTerminalRuns O ct j') (λ _, at_ (calm j)).
Proof.
  unfold pruneTerminalRuns. destruct (ct_retention ct <? 0); [by apply hoare_ret|].
  eapply hoare_bind; [apply (spec_query O _ (calm j)), _|]. intros [runs| |]; [|apply hoare_ret; by intros w [? _]..].
  destruct (_ <=? _); [apply hoare_ret; by intros w [? _]|].
  apply (hoare_bind _ _ _ (λ _, at_ (calm j))); [eapply hoare_pre; [|apply (spec_removeAll _ (calm j)), _]; by intros w [? _]|].
  intros _.
  eapply hoare_bind; [apply (spec_exec O _ (calm j) (calm j) _)|].
  - intros now s s' live [F Hq] [= <-]. split; [|done]. by apply prune_fenced.
  - intros [] ; apply hoare_ret; done.
Qed.

Lemma spec_finishRun r from to reason :
  hoare (at_ (idle r)) (finishRun O ct r from to reason) (λ _, at_ (calm (rn_JobID r))).
Proof.
  unfold finishRun. apply hoare_now. intros t. cbn zeta. eapply hoare_ebind.
  - apply (spec_UpdateRunT _ _ _ _ (idle r)); [apply _|]. intros runs live [Hh Hq].
    split; [by eapply held_row|]. apply fits_quiet. done.
  - intros []. apply (hoare_bind _ _ _ (λ _, at_ (calm (rn_JobID r)))); [|intros _; by apply hoare_ret].
    eapply hoare_pre; [|apply spec_prune]. intros w (F & _ & runs0 & _ & Hq). by split.
  - intros e w [[F _] Hq]. by split.
  - intros e w [[F _] Hq]. by split.
Qed.

Lemma hoare_weaken {A} P (m : C A) j : hoare P m (λ _, at_ (calm j)) → hoare P m (λ _, at_ fenced).
Proof. intros Hm. eapply hoare_post; [exact Hm|]. by intros a w [? _]. Qed.

Lemma launch_fenced runs live r cid : fenced runs live → r ∈ runs → active r → rn_ContainerID r = [] →
  ¬ waiting (rn_Phase r) → quiet live (rn_JobID r) → cid ≠ [] → fenced runs (<[cid := rn_JobID r]> live).
Proof.
  intros F Hr Ha Hc Hw Hq Hne. split; try apply F.
  - rewrite lookup_insert_ne by done. apply F.
  - intros c j [[<- <-]|[? Hl]]%lookup_insert_Some; [|by apply (fc_owned _ _ F)]. exists r. auto.
  - intros c c' j [[<- <-]|[? Hl]]%lookup_insert_Some [[<- ?]|[? Hl']]%lookup_insert_Some; [done| | |by apply (fc_unique _ _ F c c' j)].
    + by destruct (Hq c').
    + subst. by destruct (Hq c).
  - intros x Hx Hxa Hxw c [[<- Hj]|[_ Hl]]%lookup_insert_Some; [|by apply (fc_waiting _ _ F x Hx Hxa Hxw c)].
    apply Hw. by rewrite (fc_one _ _ F r x).
Qed.

(** A run just created, and the same run with its container launched. *)
Definition created (r : Run) : assertion := λ runs live, calm (rn_JobID r) runs live ∧ r ∈ runs.
Definition launched (r : Run) (cid : bytes) : assertion := λ runs live,
  held r runs live ∧ (∀ c, live !! c = Some (rn_JobID r) → c = cid).
#[local] Instance steady_created r : Steady (created r).
Proof. apply steady_and; [apply _|done]. Qed.
#[local] Instance steady_launched r cid : Steady (launched r cid).
Proof. apply steady_and; [apply _|]. intros runs live live' Hl Hs c Hc. apply Hl. by eapply lookup_weaken. Qed.

Lemma created_idle r runs live : active r → created r runs live → idle r runs live.
Proof. intros Ha [[F Hq] Hr]. split; [|done]. by apply in_held. Qed.

Lemma launched_fits r cid runs live : launched r cid runs live → active r → ¬ waiting (rn_Phase r) →
  rn_ContainerID r = cid → fits live r.
Proof. intros [_ Hl] Ha Hw <-. split; [intros _ c Hc%Hl; by left|]. by intros [?|?]. Qed.

Lemma spec_launchEnv job (P : cworld → Prop) : hoare P (launchEnv O job) (λ _, P).
Proof. intros w Hw. exact Hw. Qed.

Lemma spec_Launch r spec : active r → rn_ContainerID r = [] → ¬ waiting (rn_Phase r) → ls_JobID spec = rn_JobID r →
  hoare (at_ (created r)) (Launch O spec) (λ res w, match res with
    | inl cid => at_ (launched r cid) w | inr _ => at_ (created r) w end).
Proof.
  intros Ha Hc Hw Hj. apply hoare_prim; [intros w; apply (sd_fenced (A := created r))|]. intros w [[F Hq] Hr].
  pose proof (lw_named O HO (cw_tick w) spec) as Hn. destruct (launchAt O (cw_tick w) spec) as [cid|e]; [|done].
  unfold at_. cbn. rewrite Hj. assert (fenced (st_runs (cw_store w)) (<[cid := rn_JobID r]> (cw_live w))) as F'
    by (apply launch_fenced; congruence || done). split; [by apply in_held|].
  intros c [[<- _]|[_ Hl]]%lookup_insert_Some; [done|]. by destruct (Hq c).
Qed.

(** The end of [startRun]: record the container, or remove it again. *)
Lemma spec_record r cid (k : C (result unit)) : active r → ¬ waiting (rn_Phase r) → rn_ContainerID r = cid →
  hoare (at_ fenced) k (λ _, at_ fenced) →
  hoare (at_ (launched r cid))
    (res ← UpdateRunT O r Starting PhaseRunning (bs "launched");
     match res with Ok _ => k | Err e | Panic e => launch_unrecorded O r cid e end) (λ _, at_ fenced).
Proof.
  intros Ha Hw Hc Hk. eapply hoare_bind.
  { apply (spec_exec_fault O _ (launched r cid) fenced _). intros now s live Hl.
    destruct Hl as [(F & Hrow & Hact) Hlive] eqn:EL. destruct (updateRun_Ok s r live F Hrow Hact) as [s1 E1].
    exists (appendTransition s1 (transitionRecord now (rn_JobID r) (rn_ID r) (Some Starting) PhaseRunning (bs "launched"))).
    unfold UpdateRunWithTransition. rewrite E1. cbn. split; [done|].
    eapply update_held; [done|by eapply launched_fits|done]. }
  assert (∀ e, hoare (λ w, at_ (launched r cid) w ∧ ∃ t, cw_tick w = S t ∧ storeFault O t ≠ None)
    (launch_unrecorded O r cid e) (λ _, at_ fenced)) as Hun.
  { intros e. unfold launch_unrecorded. apply (hoare_bind _ _ _ (λ _, at_ (idle r))).
    - apply hoare_prim; [intros w [Hl _]; by apply (sd_fenced (A := launched r cid))|]. intros w [Hl (t & Ht & Hf)].
      rewrite Ht, (lw_remove O HO) by done. destruct Hl as [Hh Hl]. unfold at_. cbn.
      assert (delete cid (cw_live w) ⊆ cw_live w) as Hsub by apply delete_subseteq.
      split; [by apply (sd_down (A := held r)) with (cw_live w)|].
      intros c [Hne Hlc]%lookup_delete_Some. by apply Hl in Hlc.
    - intros _. apply (hoare_bind _ _ _ (λ _, at_ fenced)); [|intros _; by apply hoare_ret].
      apply hoare_now. intros t. apply (spec_UpdateRun _ (idle r)); [apply _|]. intros runs live [Hh Hq].
      split; [by eapply held_row|by apply fits_quiet]. }
  intros []; [exact Hk|apply Hun|apply Hun].
Qed.

Lemma spec_launch_failed r e : active r → hoare (at_ (created r)) (launch_failed O ct r e) (λ _, at_ fenced).
Proof.
  intros Ha. unfold launch_failed. cbn zeta.
  assert (∀ r' from to, rn_ID r' = rn_ID r → rn_JobID r' = rn_JobID r → rn_Started r' = rn_Started r →
    hoare (at_ (created r)) (UpdateRunT O r' from to (le_msg e)) (λ _, at_ fenced)) as Hup.
  { intros r' from to E1 E2 E3. eapply hoare_post; [apply (spec_UpdateRunT _ _ _ _ (created r) _)|].
    - intros runs live Hcr. destruct (created_idle r runs live Ha Hcr) as [Hh Hq].
      split; [by eapply held_row|]. apply fits_quiet. by rewrite E2.
    - intros [] w; [by intros [? _]|apply (sd_fenced (A := created r))..]. }
  destruct (_ && _).
  - apply (hoare_bind _ _ _ (λ _, at_ fenced)); [|intros []; by apply hoare_ret].
    unfold scheduleRestartFrom. apply hoare_now. intros t. cbn zeta.
    apply (hoare_ebind _ _ _ (λ _, at_ fenced)); [by apply Hup|intros; by apply hoare_ret|done|done].
  - apply hoare_now. intros t. apply (hoare_bind _ _ _ (λ _, at_ fenced)); [by apply Hup|intros []; by apply hoare_ret].
Qed.

Lemma ListRuns_active s j : filter active (ListRuns s j) ≡ₚ active_of j (st_runs s).
Proof.
  unfold ListRuns, active_of. rewrite merge_sort_Permutation, list_filter_filter.
  apply Permutation_refl'. apply list_filter_iff. naive_solver.
Qed.

Lemma spec_start job attempt restore : hoare (at_ fenced) (start job attempt restore) (λ _, at_ fenced).
Proof.
  unfold startRun. eapply hoare_ebind; [apply (spec_query O _ fenced), _| |by intros e w [? _]..].
  intros runs. destruct (head (filter active runs)) as [prev|] eqn:Eh; [apply hoare_ret; by intros w [? _]|].
  eapply (hoare_pre _ (at_ (calm (jb_ID job)))).
  { intros w [F Hq]. split; [done|]. apply (no_active_quiet _ _ _ F). specialize (Hq runs eq_refl). injection Hq as Hq.
    apply Permutation_nil_r. rewrite <- ListRuns_active, Hq. destruct (filter active runs); [done|done]. }
  apply hoare_now. intros now. apply hoare_newID. intros id. cbn zeta.
  set (r := mkRun id (jb_ID job) [] 0 Starting attempt [] NoFailure now None None).
  assert (active r) as Ha by done. assert (¬ waiting (rn_Phase r)) as Hw by (by intros [?|?]).
  eapply hoare_ebind; [apply (spec_exec O _ (calm (jb_ID job)) (created r) _)| |by intros e w [? _]..].
  { intros t s s' live [F Hq] (s1 & Hi & [= <-])%rbind_Ok. destruct (insertRun_fenced s s1 r live F Hi) as (F' & Hr & _); done. }
  intros []. eapply hoare_bind; [apply spec_launchEnv|]. cbn beta.
  assert (∀ e, hoare (at_ (created r)) (res ← blockRun O r Starting e;
    match res with Ok _ => fail e
    | Err u | Panic u => fail (bs "resolve launch secrets; additionally failed to record blocked run: " ++ u) end)
    (λ _ : result unit, at_ fenced)) as Hblock.
  { intros e. eapply hoare_bind; [apply (spec_UpdateRunT _ _ _ _ (created r) _)|].
    - intros runs' live Hcr. destruct (created_idle r runs' live Ha Hcr). split; [by eapply held_row|by apply fits_quiet].
    - intros []; apply hoare_ret; intros w; [by intros [? _]|apply (sd_fenced (A := created r))..]. }
  intros [env|e|e]; [|apply Hblock|apply Hblock]. eapply hoare_bind; [apply (spec_Launch r); try done|].
  { unfold launch_spec. destruct (jb_Kind job); [done|]. by destruct (parseSDKManifest unmarshal (jb_Spec job)). }
  intros [cid|e]; [|by apply spec_launch_failed]. cbn beta. set (r1 := with_phase (with_container r cid) PhaseRunning).
  eapply hoare_bind; [apply (spec_status O cid (launched r cid)), _|]. intros st.
  set (r2 := match st with Ok st => with_port r1 (bst_HostPort st) | _ => r1 end).
  assert (rn_ID r2 = rn_ID r ∧ rn_JobID r2 = rn_JobID r ∧ rn_Started r2 = rn_Started r ∧ active r2
    ∧ rn_Phase r2 = PhaseRunning ∧ rn_ContainerID r2 = cid) as (E1 & E2 & E3 & E4 & E5 & E6) by (by destruct st).
  eapply (hoare_pre _ (at_ (launched r2 cid))).
  { intros w [[Hh Hl] _]. split; [by eapply held_row|]. unfold at_ in *. by rewrite E2. }
  apply spec_record; [done|rewrite E5; by intros [?|?]|done|]. by apply hoare_ret.
Qed.

(** *** Reconciliation *)

Lemma hoare_id {A} (P Q : cworld → Prop) (a : A) : (∀ w, P w → Q w) → hoare P (ret a) (λ _, Q).
Proof. intros. by apply hoare_ret. Qed.

Lemma idle_fenced r w : at_ (idle r) w → at_ fenced w.
Proof. apply (sd_fenced (A := idle r)). Qed.

(** Finish a run whose job is quiet, then launch the next. *)
Lemma spec_finish_launch r from reason job attempt :
  hoare (at_ (idle r)) (_ <-! finishRun O ct r from Failed reason ;; start job attempt []) (λ _, at_ fenced).
Proof.
  apply (hoare_ebind _ _ _ (λ _, at_ (calm (rn_JobID r)))); [apply spec_finishRun| |by intros e w [? _]..].
  intros _. eapply hoare_pre; [|apply spec_start]. by intros w [? _].
Qed.

Lemma spec_maybeRestart job r : hoare (at_ (idle r)) (maybeRestart O ct unmarshal job r) (λ _, at_ fenced).
Proof.
  unfold maybeRestart. case_bool_decide; [apply hoare_id, idle_fenced|].
  destruct (negb _); [apply hoare_id, idle_fenced|]. apply hoare_now. intros t.
  destruct (match rn_RestartAt r with Some _ => _ | None => _ end); [apply hoare_id, idle_fenced|].
  apply spec_finish_launch.
Qed.

Lemma spec_maybeUnblock job r : hoare (at_ (idle r)) (maybeUnblock O ct unmarshal job r) (λ _, at_ fenced).
Proof.
  unfold maybeUnblock. case_bool_decide; [apply hoare_id, idle_fenced|].
  eapply hoare_bind; [apply spec_launchEnv|]. cbn beta.
  assert (∀ e, hoare (at_ (idle r)) (if bool_decide (rn_Error r = e) then ok () else UpdateRun O (with_error r e))
    (λ _, at_ fenced)) as He.
  { intros e. case_bool_decide; [apply hoare_id, idle_fenced|]. apply (spec_UpdateRun _ (idle r)); [apply _|].
    intros runs live [Hh Hq]. split; [by eapply held_row|by apply fits_quiet]. }
  intros [env|e|e]; [apply spec_finish_launch|apply He|apply He].
Qed.

Lemma spec_schedule_restart r reason job : active r →
  hoare (at_ (idle r)) (r' <-! scheduleRestart O ct r reason ;; maybeRestart O ct unmarshal job r') (λ _, at_ fenced).
Proof.
  intros Ha. eapply (hoare_ebind _ _ _ (λ res w, match res with Ok r' => at_ (idle r') w | _ => at_ fenced w end));
    [|intros r'; apply spec_maybeRestart|done|done].
  unfold scheduleRestart, scheduleRestartFrom. apply hoare_now. intros t. cbn zeta.
  set (r' := with_restartAt _ _). eapply hoare_ebind.
  - apply (spec_UpdateRunT _ _ _ _ (idle r) _). intros runs live [Hh Hq]. split; [by eapply held_row|by apply fits_quiet].
  - intros []. apply hoare_ret. intros w (F & Hr & runs0 & _ & Hq). split; [by apply in_held|done].
  - intros e w. apply idle_fenced.
  - intros e w. apply idle_fenced.
Qed.

(** A run whose container is the only one of its job that may be live. *)
Lemma launched_stop r runs live live' : launched r (rn_ContainerID r) runs live → live' ⊆ live →
  live' !! rn_ContainerID r = None → idle r runs live'.
Proof.
  intros [Hh Hl] Hs Hn. split; [by eapply (sd_down (A := held r))|]. intros c Hc.
  assert (c = rn_ContainerID r) as -> by (apply Hl; by eapply lookup_weaken). congruence.
Qed.

Lemma launched_with r r' runs live : launched r (rn_ContainerID r) runs live →
  rn_ID r' = rn_ID r → rn_JobID r' = rn_JobID r → rn_Started r' = rn_Started r → rn_ContainerID r' = rn_ContainerID r →
  launched r' (rn_ContainerID r') runs live.
Proof. intros [Hh Hl] E1 E2 E3 E4. split; [by eapply held_row|]. by rewrite E2, E4. Qed.

Lemma spec_update_launched r r' : active r' → ¬ waiting (rn_Phase r') → rn_ID r' = rn_ID r → rn_JobID r' = rn_JobID r →
  rn_Started r' = rn_Started r → rn_ContainerID r' = rn_ContainerID r →
  hoare (at_ (launched r (rn_ContainerID r))) (UpdateRun O r') (λ _, at_ fenced).
Proof.
  intros Ha Hw E1 E2 E3 E4. apply (spec_UpdateRun _ (launched r (rn_ContainerID r))); [apply _|].
  intros runs live Hl. pose proof (launched_with r r' runs live Hl E1 E2 E3 E4) as Hl'.
  split; [apply Hl'|]. by eapply launched_fits.
Qed.

Lemma launched_fenced r cid w : at_ (launched r cid) w → at_ fenced w.
Proof. apply (sd_fenced (A := launched r cid)). Qed.

Lemma spec_stop_desired r from : active r → ¬ waiting (rn_Phase r) →
  hoare (at_ (launched r (rn_ContainerID r))) (stop_desired O ct r from) (λ _, at_ fenced).
Proof.
  intros Ha Hw. unfold stop_desired. eapply hoare_bind; [apply (spec_stop O _ (launched r (rn_ContainerID r))), _|].
  assert (∀ e, hoare (at_ (launched r (rn_ContainerID r))) (UpdateRun O (with_error r e)) (λ _, at_ fenced)) as Hu
    by (intros e; by apply spec_update_launched).
  intros [[]|e|e]; [|eapply hoare_pre; [|apply Hu]; by intros w [? _]..].
  eapply hoare_pre; [|eapply hoare_weaken, spec_finishRun]. intros w [Hl Hn]. by eapply launched_stop; [| |eapply Hn].
Qed.

Lemma spec_handleExit job r code oom : active r →
  hoare (at_ (idle r)) (handleExit O ct unmarshal job r code oom) (λ _, at_ fenced).
Proof.
  intros Ha. unfold handleExit. destruct (if bool_decide (jb_Desired job = DesiredStopped) then _ else _) as [[to reason] kind].
  set (r' := if bool_decide (to = Failed) then _ else r).
  assert (rn_ID r' = rn_ID r ∧ rn_JobID r' = rn_JobID r ∧ rn_Started r' = rn_Started r ∧ active r') as (E1 & E2 & E3 & E4)
    by (unfold r'; by case_bool_decide).
  eapply (hoare_pre _ (at_ (idle r'))).
  { intros w [Hh Hq]. split; [by eapply held_row|]. unfold at_ in *. by rewrite E2. }
  destruct (_ && _); [by apply spec_schedule_restart|]. eapply hoare_weaken, spec_finishRun.
Qed.

Lemma spec_reconcileRun job r st : active r → ¬ waiting (rn_Phase r) →
  hoare (λ w, at_ (launched r (rn_ContainerID r)) w ∧ (is_down (bst_Phase st) → cw_live w !! rn_ContainerID r = None))
    (reconcileRun O ct unmarshal job r st) (λ _, at_ fenced).
Proof.
  intros Ha Hw.
  assert (∀ m : C (result unit), hoare (at_ (launched r (rn_ContainerID r))) m (λ _, at_ fenced) →
    hoare (λ w, at_ (launched r (rn_ContainerID r)) w ∧ (is_down (bst_Phase st) → cw_live w !! rn_ContainerID r = None))
      m (λ _, at_ fenced)) as Hup by (intros m; apply hoare_pre; by intros w [? _]).
  assert (∀ m : C (result unit), is_down (bst_Phase st) → hoare (at_ (idle r)) m (λ _, at_ fenced) →
    hoare (λ w, at_ (launched r (rn_ContainerID r)) w ∧ (is_down (bst_Phase st) → cw_live w !! rn_ContainerID r = None))
      m (λ _, at_ fenced)) as Hdown.
  { intros m Hd. apply hoare_pre. intros w [Hl Hn]. by eapply launched_stop; [| |apply Hn]. }
  assert (hoare (at_ (launched r (rn_ContainerID r))) (ok ()) (λ _ : result unit, at_ fenced)) as Hok
    by (apply hoare_id, launched_fenced).
  unfold reconcileRun. destruct (bst_Phase st) eqn:Ep.
  - apply Hup. case_bool_decide; [by apply spec_stop_desired|]. destruct (_ || _); [|exact Hok].
    apply spec_update_launched; try done. by intros [?|?].
  - apply Hup. case_bool_decide; [by apply spec_stop_desired|]. destruct (_ || _); [|exact Hok].
    apply spec_update_launched; destruct (bst_HostPort st =? 0), (bool_decide _); try done; by intros [?|?].
  - apply Hdown; [by left|]. by apply spec_handleExit.
  - apply Hdown; [by right|]. case_bool_decide; [eapply hoare_weaken, spec_finishRun|].
    destruct (ShouldRestart _ _ _); [by apply spec_schedule_restart|]. eapply hoare_weaken, spec_finishRun.
  - apply Hup. case_bool_decide; [by apply spec_stop_desired|]. destruct (_ || _); [|exact Hok].
    by apply spec_update_launched.
Qed.

(** *** Reattaching *)

Definition eligible (j : bytes) (c : ContainerStats) : Prop := cs_Managed c = true ∧ cs_JobID c = j ∧ cs_ID c ≠ [].

Lemma newer_eligible best j c : newer best j c = best ∨ (eligible j c ∧ newer best j c = Some c).
Proof.
  unfold newer, eligible. destruct (cs_Managed c); cbn; [|by left]. case_bool_decide; [by left|].
  case_bool_decide; cbn; [by left|]. destruct best as [b|]; [|naive_solver].
  destruct (_ <? _); naive_solver.
Qed.

Lemma newer_ge best j c : eligible j c → ∃ b, newer best j c = Some b ∧ cs_StartedAt c ≤ cs_StartedAt b
  ∧ ∀ b0, best = Some b0 → cs_StartedAt b0 ≤ cs_StartedAt b.
Proof.
  intros (Hm & Hj & Hi). unfold newer. rewrite Hm, !bool_decide_false by naive_solver. cbn.
  destruct best as [b|]; [|exists c; split; [done|]; split; [lia|done]].
  destruct (Z.ltb_spec (cs_StartedAt b) (cs_StartedAt c)); eexists; (split; [done|]); split; naive_solver lia.
Qed.

Lemma best_container_spec cs j : match best_container cs j with
  | Some b => b ∈ cs ∧ eligible j b ∧ ∀ c, c ∈ cs → eligible j c → cs_StartedAt c ≤ cs_StartedAt b
  | None => ∀ c, c ∈ cs → ¬ eligible j c
  end.
Proof.
  unfold best_container. induction cs as [|c cs IH] using rev_ind; [by intros c ?%not_elem_of_nil|].
  rewrite foldl_app. cbn. set (best := foldl _ None cs) in *.
  destruct (newer_eligible best j c) as [Hsame|[Hel Hnew]].
  - destruct (decide (cs_Managed c = true ∧ cs_JobID c = j ∧ cs_ID c ≠ [])) as [Hel|Hnel].
    + destruct (newer_ge best j c Hel) as (b & Hb & Hge & _). rewrite Hb. rewrite Hsame in Hb. rewrite Hb in IH.
      destruct IH as (Hin & Helb & Hmax). split; [apply elem_of_app; by left|]. split; [done|].
      intros x [Hx| ->%list_elem_of_singleton]%elem_of_app; auto.
    + rewrite Hsame. destruct best as [b|].
      * destruct IH as (Hin & Helb & Hmax). split; [apply elem_of_app; by left|]. split; [done|].
        intros x [Hx| ->%list_elem_of_singleton]%elem_of_app; [auto|done].
      * intros x [Hx| ->%list_elem_of_singleton]%elem_of_app; [auto|done].
  - destruct (newer_ge best j c Hel) as (b & Hb & _ & Hge). rewrite Hnew in *. injection Hb as <-.
    split; [apply elem_of_app; right; by left|]. split; [done|].
    intros x [Hx| ->%list_elem_of_singleton]%elem_of_app; [|lia]. intros Hxe. destruct best as [b|].
    + destruct IH as (_ & _ & Hmax). specialize (Hmax x Hx Hxe). specialize (Hge b eq_refl). lia.
    + exfalso. by apply (IH x Hx).
Qed.

(** The listing finds the live container of a job. *)
Lemma listed_best t live cs c j : capacityAt O t live = Ok cs → live !! c = Some j → c ≠ [] →
  (∀ c', live !! c' = Some j → c' = c) → ∃ b, best_container cs j = Some b ∧ cs_ID b = c.
Proof.
  intros Hcs Hc Hne Hu. destruct (lw_listed O HO t live cs c j Hcs Hc Hu) as (s & Hs & Hid & Hj & Hm & Hnewest).
  assert (eligible j s) as Hel by (split_and!; congruence). pose proof (best_container_spec cs j) as Hb.
  destruct (best_container cs j) as [b|]; [|by destruct (Hb s Hs)]. exists b. split; [done|].
  destruct Hb as (Hbin & (_ & Hbj & _) & Hmax). destruct (decide (cs_ID b = c)); [done|].
  specialize (Hnewest b Hbin Hbj n). specialize (Hmax s Hs Hel). lia.
Qed.

Lemma spec_find r (P : assertion) : Steady P →
  hoare (at_ P) (findManagedContainer O (rn_JobID r)) (λ res w, at_ P w ∧ match res with
    | Ok (Some b) => cs_ID b ≠ [] ∧ ∀ c, cw_live w !! c = Some (rn_JobID r) → c = cs_ID b
    | Ok None => quiet (cw_live w) (rn_JobID r)
    | _ => True end).
Proof.
  intros HP. unfold findManagedContainer. eapply (hoare_ebind _ _ _ (λ res w, at_ P w ∧ ∀ cs, res = Ok cs →
    ∃ t, capacityAt O t (cw_live w) = Ok cs)); [| |by intros e w [? _]..].
  - apply hoare_prim; [intros w; apply (sd_fenced (A := P))|]. intros w Hw. split; [done|]. intros cs Hcs. cbn. eauto.
  - intros cs. apply hoare_ret. intros w [Hp Hcs]. split; [done|]. destruct (Hcs cs eq_refl) as [t Ht].
    assert (∀ c, cw_live w !! c = Some (rn_JobID r) → c ≠ []) as Hne.
    { intros c Hc ->. pose proof (fc_named _ _ (sd_fenced (A := P) _ _ Hp)) as Hn. congruence. }
    pose proof (fc_unique _ _ (sd_fenced (A := P) _ _ Hp)) as Huq.
    pose proof (best_container_spec cs (rn_JobID r)) as Hb. destruct (best_container cs (rn_JobID r)) as [b|] eqn:Eb.
    + split; [apply Hb|]. intros c Hc. destruct (listed_best t _ cs c _ Ht Hc (Hne c Hc) (λ c' Hc', Huq c' c _ Hc' Hc)) as (b' & Hb' & <-). congruence.
    + intros c Hc. destruct (listed_best t _ cs c _ Ht Hc (Hne c Hc) (λ c' Hc', Huq c' c _ Hc' Hc)) as (b' & Hb' & _). congruence.
Qed.

Lemma spec_reattach job r : jb_ID job = rn_JobID r → active r → ¬ waiting (rn_Phase r) →
  hoare (at_ (held r)) (reattach O ct unmarshal job r) (λ _, at_ fenced).
Proof.
  intros Hj Ha Hw. unfold reattach. rewrite Hj.
  eapply hoare_ebind; [apply (spec_find r (held r)), _| |intros e w [[? _] _]; done..].
  intros [c|]; [|apply hoare_id; by intros w [[? _] _]]. set (r1 := with_container r (cs_ID c)).
  eapply (hoare_pre _ (at_ (launched r1 (rn_ContainerID r1)))).
  { intros w [Hh [_ Hl]]. split; [by eapply held_row|done]. }
  eapply hoare_ebind; [apply (spec_status O _ (launched r1 (rn_ContainerID r1))), _| |by intros e w [?%launched_fenced _]..].
  intros st. destruct (match bst_Phase st with BGone => true | _ => false end) eqn:Eg;
    [apply hoare_id; by intros w [?%launched_fenced _]|].
  set (r2 := if bst_HostPort st =? 0 then r1 else with_port r1 (bst_HostPort st)). cbn zeta.
  assert (rn_ID r2 = rn_ID r1 ∧ rn_JobID r2 = rn_JobID r1 ∧ rn_Started r2 = rn_Started r1
    ∧ rn_ContainerID r2 = rn_ContainerID r1 ∧ active r2 ∧ rn_Phase r2 = rn_Phase r) as (E1 & E2 & E3 & E4 & E5 & E6)
    by (unfold r2; by destruct (_ =? _)).
  eapply (hoare_pre _ (λ w, at_ (launched r2 (rn_ContainerID r2)) w ∧ (is_down (bst_Phase st) → cw_live w !! rn_ContainerID r2 = None))).
  { intros w [Hl Hd]. split; [by eapply launched_with|]. rewrite E4. intros Hdown. by apply (Hd st). }
  assert (hoare (λ w, at_ (launched r2 (rn_ContainerID r2)) w ∧ (is_down (bst_Phase st) → cw_live w !! rn_ContainerID r2 = None))
    (reconcileRun O ct unmarshal job r2 st) (λ _, at_ fenced)) as Hrec by (apply spec_reconcileRun; [done|by rewrite E6]).
  destruct (bst_Phase st) eqn:Ep; [|  |exact Hrec|exact Hrec|exact Hrec].
  - eapply hoare_pre; [|apply (spec_update_launched r2); try done; by intros [?|?]]. by intros w [? _].
  - eapply hoare_post; [eapply hoare_pre; [|apply (spec_UpdateRunT _ _ _ _ (launched r2 (rn_ContainerID r2)) _)]|].
    + by intros w [? _].
    + intros runs live Hl. split; [eapply held_row; [apply Hl|done..]|]. apply (launched_fits _ (rn_ContainerID r2) runs).
      * exact (launched_with r2 (with_phase r2 PhaseRunning) runs live Hl eq_refl eq_refl eq_refl eq_refl).
      * done.
      * by intros [?|?].
      * done.
    + intros [] w; [by intros [? _]|apply launched_fenced..].
Qed.

Lemma spec_reconcile_one id : hoare (at_ fenced) (reconcile_one O ct unmarshal id) (λ _, at_ fenced).
Proof.
  unfold reconcile_one. eapply hoare_bind; [apply (spec_query O _ fenced), _|].
  intros [r|e|e]; [|apply hoare_id; by intros w [? _]..]. case_bool_decide as Ha; [|apply hoare_id; by intros w [? _]]. cbn [negb].
  eapply (hoare_pre _ (at_ (λ runs live, fenced runs live ∧ r ∈ runs))).
  { intros w [F Hg]. split; [done|]. specialize (Hg r eq_refl). unfold GetRun in Hg.
    destruct (get_run (cw_store w) id) as [r'|] eqn:E; [|done]. injection Hg as ->. by apply get_run_elem in E as [? _]. }
  eapply hoare_bind; [apply (spec_query O _ (λ runs live, fenced runs live ∧ r ∈ runs)), steady_and; [apply _|done]|].
  intros [job|e|e]; [|apply hoare_id; by intros w [[? _] _]..].
  destruct (decide (jb_ID job = rn_JobID r)) as [Hj|Hnj].
  2:{ intros w [_ Hg]. exfalso. apply Hnj. specialize (Hg job eq_refl). unfold GetJob, get_job in Hg.
      destruct (filter _ _) as [|j' l] eqn:E; [done|]. injection Hg as ->.
      assert (job ∈ filter (λ j, jb_ID j = rn_JobID r) (st_jobs (cw_store w))) as Hin by (rewrite E; left).
      by apply list_elem_of_filter in Hin as [? _]. }
  apply (hoare_bind _ _ _ (λ _, at_ fenced)); [|intros _; by apply hoare_id].
  eapply (hoare_pre _ (at_ (λ runs live, fenced runs live ∧ r ∈ runs))); [by intros w [? _]|].
  case_bool_decide as Hb; [|case_bool_decide as Hr; [|case_bool_decide as Hc]].
  - eapply hoare_pre; [|apply spec_maybeUnblock]. intros w [F Hin]. split; [by apply in_held|].
    apply (fc_waiting _ _ F r); [done..|by right].
  - eapply hoare_pre; [|apply spec_maybeRestart]. intros w [F Hin]. split; [by apply in_held|].
    apply (fc_waiting _ _ F r); [done..|by left].
  - eapply hoare_pre; [|apply spec_reattach; [done..|by intros [?|?]]]. intros w [F Hin]. by apply in_held.
  - eapply (hoare_pre _ (at_ (launched r (rn_ContainerID r)))).
    { intros w [F Hin]. split; [by apply in_held|]. intros c Hlc.
      destruct (ft_active _ _ (row_fits _ _ r F Hin Ha) Ha c Hlc); congruence. }
    eapply hoare_ebind; [apply (spec_status O _ (launched r (rn_ContainerID r))), _| |by intros e w [?%launched_fenced _]..].
    intros st. eapply hoare_pre; [|apply spec_reconcileRun; [done|by intros [?|?]]].
    intros w [Hl Hd]. split; [done|]. by apply Hd.
Qed.

Lemma spec_reconcile_all ids : hoare (at_ fenced) (reconcile_all O ct unmarshal ids) (λ _, at_ fenced).
Proof.
  induction ids as [|id ids IH]; cbn [reconcile_all]; [by apply hoare_id|].
  apply (hoare_bind _ _ _ (λ _, at_ fenced)); [apply spec_reconcile_one|]. intros _. exact IH.
Qed.

Lemma spec_reconcile : hoare (at_ fenced) (reconcile O ct unmarshal) (λ _, at_ fenced).
Proof.
  unfold reconcile. eapply hoare_ebind; [apply (spec_query O _ fenced), _| |by intros e w [? _]..].
  intros runs. apply (hoare_bind _ _ _ (λ _, at_ fenced)); [|intros _; by apply hoare_id].
  eapply hoare_pre; [|apply spec_reconcile_all]. by intros w [? _].
Qed.

(** *** Requests *)

(** Every live container of the job is recorded in its active run. *)
Definition recorded (j : bytes) (runs : list Run) (live : gmap bytes bytes) : Prop :=
  ∀ c, live !! c = Some j → ∃ r, r ∈ runs ∧ rn_JobID r = j ∧ active r ∧ rn_ContainerID r = c.
Definition secured (j : bytes) : assertion := λ runs live, fenced runs live ∧ recorded j runs live.
#[local] Instance steady_secured j : Steady (secured j).
Proof. apply steady_and; [apply _|]. intros runs live live' Hr Hs c Hc. apply Hr. by eapply lookup_weaken. Qed.

Lemma spec_exec_same f (P : assertion) : Steady P → (∀ now s s', f now s = Ok s' → st_runs s' = st_runs s) →
  hoare (at_ P) (exec O f) (λ _, at_ P).
Proof.
  intros HP Hf. eapply hoare_post; [apply (spec_exec O f P P HP)|by intros []]. intros now s s' live Hp Hs. by rewrite (Hf _ _ _ Hs).
Qed.

Lemma SetDesired_runs s now j d s' : SetDesired s now j d = Ok s' → st_runs s' = st_runs s.
Proof. unfold SetDesired. destruct (get_job s j); [|done]. by intros [= <-]. Qed.

Lemma LatestRun_elem s j r : LatestRun s j = Some r → r ∈ st_runs s ∧ rn_JobID r = j.
Proof.
  unfold LatestRun, ListRuns. intros Hh. destruct (merge_sort _ _) as [|x l] eqn:E; [done|]. injection Hh as ->.
  assert (r ∈ merge_sort text_desc (filter (λ r, rn_JobID r = j) (st_runs s))) as Hr by (rewrite E; left).
  rewrite merge_sort_Permutation in Hr. apply list_elem_of_filter in Hr as [??]. done.
Qed.

Lemma secured_launched r runs live : secured (rn_JobID r) runs live → r ∈ runs → active r →
  launched r (rn_ContainerID r) runs live.
Proof.
  intros [F Hrec] Hr Ha. split; [by apply in_held|]. intros c Hc. destruct (Hrec c Hc) as (r' & Hr' & Hj & Ha' & <-).
  f_equal. by apply (fc_one _ _ F).
Qed.

(** The run a request acts on: the job's active run, as the store has it. *)
Definition current (r : Run) : assertion := λ runs live, secured (rn_JobID r) runs live ∧ r ∈ runs.
#[local] Instance steady_current r : Steady (current r).
Proof. apply steady_and; [apply _|done]. Qed.

Lemma spec_latest j (P : assertion) : Steady P →
  hoare (at_ P) (query O (λ s, Ok (LatestRun s j))) (λ res w, at_ P w ∧ match res with
    | Ok (Some r) => rn_JobID r = j ∧ r ∈ st_runs (cw_store w) | _ => True end).
Proof.
  intros HP. eapply hoare_post; [apply (spec_query O _ P HP)|]. intros [[r|]| |] w [Hw Hq]; try done. split; [done|].
  specialize (Hq _ eq_refl). injection Hq as Hq. apply LatestRun_elem in Hq as [??]. done.
Qed.

Lemma spec_stop_finish r reason : active r →
  hoare (λ w, at_ (current r) w ∧ ∀ a : unit, Ok a = Ok () → cw_live w !! rn_ContainerID r = None)
    (finishRun O ct r (rn_Phase r) Cancelled reason) (λ _, at_ fenced).
Proof.
  intros Ha. eapply hoare_pre; [|eapply hoare_weaken, spec_finishRun]. intros w [[Hs Hr] Hn].
  eapply launched_stop; [by apply secured_launched|done|by eapply Hn].
Qed.

Lemma spec_Cancel j : hoare (at_ (secured j)) (Cancel O ct j) (λ _, at_ fenced).
Proof.
  unfold Cancel. eapply hoare_ebind; [apply (spec_query O _ (secured j)), _| |by intros e w [[? _] _]..]. intros job.
  apply (hoare_ebind _ _ _ (λ _, at_ (secured j))).
  { eapply hoare_pre; [|apply (spec_exec_same _ (secured j) _)]; [by intros w [? _]|]. intros now s s'. apply SetDesired_runs. }
  2,3: by intros e w [? _].
  intros []. eapply hoare_ebind; [apply (spec_latest j (secured j)), _| |by intros e w [[? _] _]..].
  intros [r|]; [|apply hoare_id; by intros w [[? _] _]]. case_bool_decide as Ha; [|apply hoare_id; by intros w [[? _] _]].
  eapply (hoare_pre _ (at_ (current r))); [by intros w [Hs [<- Hr]]|].
  eapply hoare_bind; [apply (spec_stop O _ (current r)), _|].
  assert (∀ e, hoare (at_ (current r)) (_ <-! UpdateRun O (with_error r e) ;; fail (bs "cancel: stop run " ++ rn_ID r ++ bs ": " ++ e))
    (λ _ : result unit, at_ fenced)) as Herr.
  { intros e. apply (hoare_ebind _ _ _ (λ _, at_ fenced)); [|intros _; by apply hoare_id|done|done].
    apply (spec_UpdateRun _ (current r)); [apply _|]. intros runs live [[F Hrec] Hr].
    destruct (row_fits runs live r F Hr Ha) as [F1 F2]. split; [eapply held_row; [by apply in_held|done..]|]. by split. }
  intros [[]|e|e]; [|eapply hoare_pre; [|apply Herr]; by intros w [? _]..]. 
  eapply hoare_pre; [|by apply spec_stop_finish]. intros w [Hc Hn]. split; [done|]. intros a _. by eapply Hn.
Qed.

Lemma spec_restart_stop r : active r →
  hoare (at_ (current r))
    (on_err (BStop O (rn_ContainerID r)) (λ e, Err (bs "restart: stop run " ++ rn_ID r ++ bs ": " ++ e)) (λ _,
     (if bool_decide (rn_ContainerID r = []) then ret () else _ ← BRemove O (rn_ContainerID r); ret ());;
     on_err (finishRun O ct r (rn_Phase r) Cancelled (bs "restart")) (λ e, Err (bs "restart: finish run " ++ rn_ID r ++ bs ": " ++ e)) ok))
    (λ _, at_ fenced).
Proof.
  intros Ha. eapply hoare_on_err; [apply (spec_stop O _ (current r)), _| |by intros e w [[[? _] _] _]..].
  intros []. apply (hoare_bind _ _ _ (λ _, at_ (λ runs live, current r runs live ∧ live !! rn_ContainerID r = None))).
  - assert (Steady (λ runs live, current r runs live ∧ live !! rn_ContainerID r = None)) as Hst.
    { apply steady_and; [apply _|]. intros runs live live' Hn Hs. by eapply lookup_weaken_None. }
    eapply (hoare_pre _ (at_ (λ runs live, current r runs live ∧ live !! rn_ContainerID r = None))).
    { intros w [Hc Hn]. split; [done|]. by eapply Hn. }
    case_bool_decide; [by apply hoare_id|]. eapply hoare_bind; [by apply spec_remove|]. intros res. apply hoare_id. by intros w [? _].
  - intros _. apply (hoare_on_err _ _ _ _ (λ _, at_ fenced)); [|intros []; by apply hoare_id|done|done].
    eapply hoare_pre; [|by apply spec_stop_finish]. intros w [Hc Hn]. split; [done|]. by intros.
Qed.

Lemma spec_doRestart j restore : hoare (at_ (secured j)) (doRestart O ct unmarshal j restore) (λ _, at_ fenced).
Proof.
  unfold doRestart. eapply hoare_on_err; [apply (spec_query O _ (secured j)), _| |by intros e w [[? _] _]..]. intros job.
  eapply hoare_on_err; [eapply hoare_pre; [|apply (spec_latest j (secured j)), _]; by intros w [? _]| |by intros e w [[? _] _]..].
  intros latest. apply (hoare_on_err _ _ _ _ (λ _, at_ fenced)); [|intros []|done|done].
  - destruct latest as [r|]; [|apply hoare_id; by intros w [[? _] _]].
    case_bool_decide as Ha; [|apply hoare_id; by intros w [[? _] _]].
    eapply (hoare_pre _ (at_ (current r))); [by intros w [Hs [<- Hr]]|]. by apply spec_restart_stop.
  - apply (hoare_on_err _ _ _ _ (λ _, at_ fenced)); [|intros _|done|done].
    { apply (spec_exec_same _ fenced _). intros now s s'. apply SetDesired_runs. }
    apply (hoare_on_err _ _ _ _ (λ _, at_ fenced)); [apply spec_start|intros _; by apply hoare_id|done|done].
Qed.

Lemma delete_runs_fenced runs live j : fenced runs live → quiet live j → fenced (filter (λ r, rn_JobID r ≠ j) runs) live.
Proof.
  intros F Hq. split; try apply F.
  - eapply sublist_NoDup; [apply (fc_ids _ _ F)|]. apply fmap_sublist, sublist_filter.
  - intros r r' [_ Hr]%list_elem_of_filter [_ Hr']%list_elem_of_filter. by apply (fc_one _ _ F).
  - intros c i Hc. destruct (fc_owned _ _ F c i Hc) as (r & Hr & Hj & ?). exists r.
    split; [apply list_elem_of_filter; split; [|done]|done]. rewrite Hj. intros ->. by destruct (Hq c).
  - intros r [_ Hr]%list_elem_of_filter. by apply (fc_waiting _ _ F).
Qed.

(** The loop of a deletion: without errors, every recorded container is down. *)
Lemma spec_removeRuns rs (P : assertion) : Steady P →
  hoare (at_ P) (removeRuns O rs) (λ errs w, at_ P w ∧
    (errs = [] → ∀ r, r ∈ rs → rn_ContainerID r ≠ [] → cw_live w !! rn_ContainerID r = None)).
Proof.
  revert P. induction rs as [|r rs IH]; intros P HP; cbn [removeRuns].
  { apply hoare_ret. intros w Hw. split; [done|]. by intros _ r ?%not_elem_of_nil. }
  case_bool_decide as Hc.
  { eapply hoare_post; [by apply IH|]. intros errs w [Hw He]. split; [done|].
    intros -> x [->|Hx]%elem_of_cons Hne; [done|]. by apply He. }
  apply (hoare_bind _ _ _ (λ _, at_ P)).
  { case_bool_decide; [|by apply hoare_id]. eapply hoare_post; [by apply spec_stop|]. by intros a w [? _]. }
  intros e1. eapply hoare_bind; [by apply spec_remove|]. intros e2.
  set (P' := λ runs live, P runs live ∧ (∀ u : unit, e2 = Ok u → live !! rn_ContainerID r = None)).
  assert (Steady P') as HP'.
  { apply steady_and; [done|]. intros runs live live' Hn Hs u Hu. eapply lookup_weaken_None; [by eapply Hn|done]. }
  eapply hoare_bind; [eapply (hoare_pre _ (at_ P')); [|by apply IH]; by intros w|]. intros es.
  apply hoare_ret. intros w [[Hw H2] Hes]. split; [done|]. intros Hnil x [->|Hx]%elem_of_cons Hne.
  - destruct e2 as [[]|e|e]; [by eapply H2|by destruct e1|by destruct e1].
  - apply Hes; [|done|done]. by destruct es, e1, e2.
Qed.

Lemma spec_Delete j data : hoare (at_ (secured j)) (DeleteWithOptions O j data) (λ _, at_ fenced).
Proof.
  unfold DeleteWithOptions. eapply hoare_ebind; [apply (spec_query O _ (secured j)), _| |by intros e w [[? _] _]..]. intros job.
  eapply hoare_ebind; [eapply hoare_pre; [|apply (spec_query O _ (secured j)), _]; by intros w [? _]| |by intros e w [[? _] _]..].
  intros rs. set (P := λ runs live, secured j runs live ∧ (∀ r, r ∈ runs → rn_JobID r = j → r ∈ rs)).
  assert (Steady P) as HP by (apply steady_and; [apply _|done]).
  eapply hoare_bind; [eapply (hoare_pre _ (at_ P)); [|by apply spec_removeRuns]|].
  { intros w [Hs Hq]. split; [done|]. intros r Hr Hj. specialize (Hq rs eq_refl). injection Hq as <-.
    unfold ListRuns. rewrite merge_sort_Permutation. by apply list_elem_of_filter. }
  intros [|e es]; [|apply hoare_id; by intros w [[[? _] _] _]].
  eapply (hoare_pre _ (at_ (calm j))).
  { intros w [[[F Hrec] Hall] Hdown]. split; [done|]. intros c Hc. destruct (Hrec c Hc) as (r & Hr & Hj & Ha & <-).
    rewrite (Hdown eq_refl r) in Hc; [done|by apply Hall|]. intros He. rewrite He in Hc.
    pose proof (fc_named _ _ F) as Hn. congruence. }
  apply (hoare_bind _ _ _ (λ _, at_ (calm j))).
  { destruct data; [|by apply hoare_id]. apply hoare_prim; [intros w; apply (sd_fenced (A := calm j))|]. by intros w Hw. }
  intros [[]|e|e]; [|apply hoare_id; by intros w [? _]..].
  apply (hoare_bind _ _ _ (λ _, at_ (calm j))); [by intros w Hw|]. intros _. unfold DeleteJob.
  apply (hoare_ebind _ _ _ (λ _, at_ (calm j))); [|intros _|by intros e w [? _]..].
  { apply (spec_exec_same _ (calm j) _). by intros now s s' [= <-]. }
  apply (hoare_ebind _ _ _ (λ _, at_ fenced)); [|intros _|done|done].
  { eapply hoare_post; [apply (spec_exec O _ (calm j) fenced _)|].
    - intros now s s' live [F Hq] [= <-]. by apply delete_runs_fenced.
    - intros [] w; [done|by intros [? _]..]. }
  apply (spec_exec_same _ fenced _). intros now s s'. unfold delete_job. destruct (get_job s j); [|done]. by intros [= <-].
Qed.

Lemma spec_record_and_launch job env reason :
  hoare (at_ fenced) (record_and_launch O ct unmarshal job env reason) (λ _, at_ fenced).
Proof.
  unfold record_and_launch. apply (hoare_on_err _ _ _ _ (λ _, at_ fenced)); [|intros _|done|done].
  { apply (spec_exec_same _ fenced _). intros now s s'. unfold CreateJob. destruct (get_job s (jb_ID job)); [done|]. by intros [= <-]. }
  apply (hoare_bind _ _ _ (λ _, at_ fenced)).
  { intros w Hw. unfold setSecrets. by case_bool_decide. }
  intros _. apply (hoare_on_err _ _ _ _ (λ _, at_ fenced)); [|intros _|done|done].
  { apply (spec_exec_same _ fenced _). by intros now s s' [= <-]. }
  apply (hoare_on_err _ _ _ _ (λ _, at_ fenced)); [apply spec_start|intros _; by apply hoare_id|done|done].
Qed.

Lemma spec_Submit doc env refs :
  hoare (at_ fenced) (SubmitWithSecretRefs O ct unmarshal parseQuantity compile doc env refs) (λ _, at_ fenced).
Proof.
  unfold SubmitWithSecretRefs. destruct (parseSDKManifest unmarshal doc) as [m|].
  - unfold submitSDK. case_bool_decide; [by apply hoare_id|]. case_bool_decide; [by apply hoare_id|].
    destruct (validateResources _ _); [|by apply hoare_id..]. apply hoare_now. intros t. apply hoare_newID. intros id.
    apply spec_record_and_launch.
  - apply (hoare_bind _ _ _ (λ _, at_ fenced)); [by intros w Hw|]. intros resolve.
    destruct (resolveEnvRefs _ _ _) as [venv| |]; [|by apply hoare_id..].
    destruct (compile doc venv) as [[[name delivery] graph]| |]; [|by apply hoare_id..].
    apply hoare_now. intros t. apply hoare_newID. intros id. apply spec_record_and_launch.
Qed.

Lemma spec_Savepoint agent j label : hoare (at_ fenced) (Savepoint O agent j label) (λ _, at_ fenced).
Proof.
  unfold Savepoint. case_bool_decide; [by apply hoare_id|].
  apply (hoare_ebind _ _ _ (λ _, at_ fenced)); [|intros addr|done|done].
  { unfold ControlAddress. eapply hoare_ebind; [apply (spec_latest j fenced), _| |by intros e w [? _]..].
    intros [r|]; [|apply hoare_id; by intros w [? _]]. destruct (_ || _); [apply hoare_id; by intros w [? _]|].
    eapply hoare_ebind; [eapply hoare_pre; [|apply (spec_status O _ fenced), _]; by intros w [? _]| |by intros e w [? _]..].
    intros st. apply hoare_id. by intros w [? _]. }
  case_bool_decide; [by apply hoare_id|]. destruct (agent addr label) as [code| |]; [|by apply hoare_id..].
  destruct (code =? 202); [|by apply hoare_id].
  apply (hoare_ebind _ _ _ (λ _, at_ fenced)); [|intros _|done|done].
  - apply (spec_exec_same _ fenced _). intros now s s'. apply SetDesired_runs.
  - apply (spec_exec_same _ fenced _). by intros now s s' [= <-].
Qed.

Lemma spec_sweep_all s rep cs : hoare (at_ fenced) (sweep_all O s rep cs) (λ _, at_ fenced).
Proof.
  revert rep. induction cs as [|c cs IH]; intros rep; cbn [sweep_all]; [by apply hoare_id|].
  apply (hoare_bind _ _ _ (λ _, at_ fenced)); [|intros rep'; apply IH]. unfold sweep_one.
  destruct (_ || _); [by apply hoare_id|]. destruct (match known_containers _ _ with Some _ => _ | None => _ end); [by apply hoare_id|].
  eapply hoare_bind; [apply (spec_status O _ fenced), _|]. intros [st|e|e]; [|apply hoare_id; by intros w [? _]..].
  destruct (bst_Phase st); try (apply hoare_id; by intros w [? _]);
    (eapply hoare_bind; [eapply hoare_pre; [|apply (spec_remove O _ fenced), _]; by intros w [? _]|];
     intros []; apply hoare_id; by intros w [? _]).
Qed.

Lemma spec_SweepOrphans : hoare (at_ fenced) (SweepOrphans O) (λ _, at_ fenced).
Proof.
  unfold SweepOrphans. apply (hoare_ebind _ _ _ (λ _, at_ fenced)); [|intros cs|done|done].
  { apply hoare_prim; [done|]. by intros w Hw. }
  eapply hoare_ebind; [apply (spec_query O _ fenced), _| |by intros e w [? _]..]. intros s.
  apply (hoare_bind _ _ _ (λ _, at_ fenced)); [eapply hoare_pre; [|apply spec_sweep_all]; by intros w [? _]|].
  intros rep. by apply hoare_id.
Qed.

(** ** Reachable states *)

(** A request or a pass of the reconciler. *)
Inductive request :=
| RSubmit (doc : bytes) (env : gmap bytes bytes) (refs : gmap bytes SecretRef)
| RCancel (job : bytes)
| RDelete (job : bytes) (deleteData : bool)
| RRestart (job restore : bytes)
| RSavepoint (agent : bytes → bytes → result Z) (job label : bytes)
| RReconcile
| RReconcileRun (run : bytes)
| RSweep.

(** The world after a request; when the process died, its memory is gone and a
    new one starts. *)
Definition settle {A} (res : option A * cworld) : cworld :=
  match res with
  | (Some _, w) => w
  | (None, w) => mkWorld (cw_store w) (cw_live w) ∅ (S (cw_tick w))
  end.

Definition serve (req : request) (w : cworld) : cworld :=
  match req with
  | RSubmit doc env refs => settle (SubmitWithSecretRefs O ct unmarshal parseQuantity compile doc env refs w)
  | RCancel j => settle (Cancel O ct j w)
  | RDelete j data => settle (DeleteWithOptions O j data w)
  | RRestart j restore => settle (doRestart O ct unmarshal j restore w)
  | RSavepoint agent j label => settle (Savepoint O agent j label w)
  | RReconcile => settle (reconcile O ct unmarshal w)
  | RReconcileRun id => settle (reconcile_one O ct unmarshal id w)
  | RSweep => settle (SweepOrphans O w)
  end.

(** Requests that stop a job come after its container was recorded. *)
Definition admissible (req : request) (w : cworld) : Prop :=
  match req with
  | RCancel j | RDelete j _ | RRestart j _ => recorded j (st_runs (cw_store w)) (cw_live w)
  | _ => True
  end.

Inductive serves : cworld → cworld → Prop :=
| serves_step req w : admissible req w → serves w (serve req w).

Lemma hoare_settle {A} P (m : C A) w : hoare P m (λ _, at_ fenced) → P w → Inv (settle (m w)).
Proof. intros Hm Hw. specialize (Hm w Hw). by destruct (m w) as [[a|] w']. Qed.

Lemma serve_inv req w : admissible req w → Inv w → Inv (serve req w).
Proof.
  intros Ha Hw. destruct req; cbn [serve].
  - by apply (hoare_settle (at_ fenced)); [apply spec_Submit|].
  - by apply (hoare_settle (at_ (secured job))); [apply spec_Cancel|split].
  - by apply (hoare_settle (at_ (secured job))); [apply spec_Delete|split].
  - by apply (hoare_settle (at_ (secured job))); [apply spec_doRestart|split].
  - by apply (hoare_settle (at_ fenced)); [apply spec_Savepoint|].
  - by apply (hoare_settle (at_ fenced)); [apply spec_reconcile|].
  - by apply (hoare_settle (at_ fenced)); [apply spec_reconcile_one|].
  - by apply (hoare_settle (at_ fenced)); [apply spec_SweepOrphans|].
Qed.

Lemma reachable_inv w w' : rtc serves w w' → Inv w → Inv w'.
Proof. induction 1 as [|w1 w2 w3 [req w Ha] _ IH]; [done|]. intros. by apply IH, serve_inv. Qed.
End operations.

(** The state of a new installation. *)
Definition new_world : cworld := mkWorld emptyStore ∅ ∅ 0.

Lemma new_world_inv : Inv new_world.
Proof.
  split; cbn.
  - constructor.
  - by intros r r' ?%not_elem_of_nil.
  - done.
  - intros c j. by rewrite lookup_empty.
  - intros c c' j. by rewrite lookup_empty.
  - by intros r ?%not_elem_of_nil.
Qed.


(** ** A concrete backend *)

Definition demo_id (tag : byte) (t : nat) : bytes := tag :: replicate t Byte.x61.

(** Nothing fails; the process dies at the calls in [crashes], the store refuses
    the calls in [faults] and the removal of a container fails at those in
    [stuck]. *)
Definition demo_oracle (crashes faults stuck : list nat) : oracle := mkOracle
  (λ t, bool_decide (t ∈ crashes))
  (λ t, if bool_decide (t ∈ faults) then Some (bs "disk full") else None)
  (λ t, Z.of_nat t * 1000000000)
  (demo_id Byte.x72)
  (λ t _, inl (demo_id Byte.x63 t))
  (λ _ _, None)
  (λ t _, if bool_decide (t ∈ stuck) then Some (bs "removal failed") else None)
  (λ _ _, Ok (mkBStatus BRunning 0 false [] 0 []))
  (λ _ live, Ok ((λ x : bytes * bytes, mkContainerStats x.1 x.2 true 0) <$> map_to_list live))
  (λ _ _, None)
  (λ _ _, Err (bs "no secret")).

Lemma demo_laws crashes faults : fencing_laws (demo_oracle crashes faults []).
Proof.
  split.
  - done.
  - intros t c _. done.
  - intros t live cs c j [= <-] Hc Hu. exists (mkContainerStats c j true 0).
    split; [apply list_elem_of_fmap; exists (c, j); by rewrite elem_of_map_to_list|].
    split_and!; try done. intros s' (x & -> & Hx%elem_of_map_to_list')%list_elem_of_fmap Hj Hne.
    exfalso. apply Hne, Hu. cbn in *. by rewrite <- Hj.
Qed.

Definition demo_ctl : Ctl := New (mkOptions (bs "runner") 0 (mkPolicy 0 0 0) 0).
Definition no_manifest (_ : bytes) : option sdkManifest := None.
Definition any_quantity (_ : bytes) : option bytes := None.
Definition demo_compile (_ : bytes) (_ : gmap bytes bytes) : result (bytes * bytes * bytes) := Ok (bs "wf", bs "exactly-once", []).
Abbreviation demo_serve O := (serve O demo_ctl no_manifest any_quantity demo_compile).
Abbreviation demo_serves O := (serves O demo_ctl no_manifest any_quantity demo_compile).

(** Submit a job, then run the reconciler. *)
Definition demo_world : cworld :=
  demo_serve (demo_oracle [] [] []) RReconcile (demo_serve (demo_oracle [] [] []) (RSubmit (bs "doc") ∅ ∅) new_world).


(** ** Where the fencing does not hold *)

(** The process dies after the launch and before the record; a restart request
    comes before the next reconcile pass. *)
Definition demo_unrecorded : cworld :=
  demo_serve (demo_oracle [5%nat] [] []) (RRestart (demo_id x72 0) [])
    (demo_serve (demo_oracle [5%nat] [] []) (RSubmit (bs "doc") ∅ ∅) new_world).


(** The store refuses the record of a launched container and its removal fails;
    then the job is restarted. *)
Definition demo_double_fault : cworld :=
  demo_serve (demo_oracle [] [6%nat] [7%nat]) (RRestart (demo_id x72 0) [])
    (demo_serve (demo_oracle [] [6%nat] [7%nat]) (RSubmit (bs "doc") ∅ ∅) new_world).

Example double_fault_runs_two :
  ∃ c c', c ≠ c' ∧ cw_live demo_double_fault !! c = Some (demo_id x72 0) ∧ cw_live demo_double_fault !! c' = Some (demo_id x72 0).
Proof. exists (demo_id x63 4), (demo_id x63 14). split; [done|]. split; vm_compute; reflexivity. Qed.

(** *** A launch that never happened *)

Lemma reattach_nothing O ct unmarshal job r w :
  (∀ t live, match capacityAt O t live with Ok cs => best_container cs (jb_ID job) = None | _ => True end) →
  st_runs (cw_store (reattach O ct unmarshal job r w).2) = st_runs (cw_store w).
Proof.
  intros Hcap. assert (∀ w1, match (findManagedContainer O (jb_ID job) w1).1 with Some (Ok (Some _)) => False | _ => True end
    ∧ st_runs (cw_store (findManagedContainer O (jb_ID job) w1).2) = st_runs (cw_store w1)) as Hf.
  { intros w1. unfold findManagedContainer, ebind, mbind, C_bind. specialize (Hcap (cw_tick w1) (cw_live w1)).
    unfold BCapacity, prim. destruct (crashAt O (cw_tick w1)); [done|].
    destruct (capacityAt O (cw_tick w1) (cw_live w1)); cbn; [|done..]. by rewrite Hcap. }
  unfold reattach. unfold ebind at 1, mbind, C_bind. destruct (Hf w) as [Hn Hk].
  by destruct (findManagedContainer O (jb_ID job) w) as [[[[c|]|e|e]|] w1].
Qed.

(** A run recorded as starting whose container was never launched is
    left unchanged by every reconcile pass: the reconciler never launches
    it. *)
Theorem unlaunched_run_stays O ct unmarshal w r :
  r ∈ st_runs (cw_store w) → NoDup (rn_ID <$> st_runs (cw_store w)) →
  rn_Phase r = Starting → rn_ContainerID r = [] →
  (∀ t live, match capacityAt O t live with Ok cs => best_container cs (rn_JobID r) = None | _ => True end) →
  st_runs (cw_store (settle (reconcile_one O ct unmarshal (rn_ID r) w))) = st_runs (cw_store w).
Proof.
  intros Hr Hnd Hp Hc Hcap.
  assert (∀ w', st_runs (cw_store w') = st_runs (cw_store w) → GetRun (cw_store w') (rn_ID r) = Ok r) as Hget.
  { intros w' Hw'. unfold GetRun. by rewrite (get_run_unique (cw_store w') r) by by rewrite Hw'. }
  enough (st_runs (cw_store (reconcile_one O ct unmarshal (rn_ID r) w).2) = st_runs (cw_store w)) as He.
  { unfold settle. by destruct (reconcile_one _ _ _ _ _) as [[]]. }
  unfold reconcile_one, mbind, C_bind.
  pose proof (keeps_query (λ w, st_runs (cw_store w)) (λ _ _ _ _ _, eq_refl) O (λ s, GetRun s (rn_ID r)) w) as K1.
  assert (∀ x, (query O (λ s, GetRun s (rn_ID r)) w).1 = Some (Ok x) → x = r) as Hx.
  { intros x. unfold query, prim. destruct (crashAt O (cw_tick w)); [done|]. cbn.
    destruct (storeFault O (cw_tick w)); [done|]. rewrite (Hget w eq_refl). congruence. }
  destruct (query O (λ s, GetRun s (rn_ID r)) w) as [[[x|e|e]|] w1]; cbn in K1, Hx |- *; try done.
  specialize (Hx x eq_refl). subst x. case_bool_decide; cbn; [|done]. rewrite <- K1.
  pose proof (keeps_query (λ w, st_runs (cw_store w)) (λ _ _ _ _ _, eq_refl) O (λ s, GetJob s (rn_JobID r)) w1) as K2.
  assert (∀ j, (query O (λ s, GetJob s (rn_JobID r)) w1).1 = Some (Ok j) → jb_ID j = rn_JobID r) as Hj.
  { intros j. unfold query, prim. destruct (crashAt O (cw_tick w1)); [done|]. cbn.
    destruct (storeFault O (cw_tick w1)); [done|]. unfold GetJob. destruct (get_job _ _) as [j'|] eqn:E; [|done].
    intros [= <-]. unfold get_job in E. destruct (filter _ _) as [|y l] eqn:Ef; [done|]. injection E as ->.
    assert (j' ∈ filter (λ j, jb_ID j = rn_JobID r) (st_jobs (cw_store w1))) as Hin by (rewrite Ef; left).
    by apply list_elem_of_filter in Hin as [? _]. }
  destruct (query O (λ s, GetJob s (rn_JobID r)) w1) as [[[j|e|e]|] w2]; cbn in K2, Hj |- *; try done.
  specialize (Hj j eq_refl). rewrite Hp, Hc, <- K2. cbn.
  pose proof (reattach_nothing O ct unmarshal j r w2) as Hre. rewrite Hj in Hre. specialize (Hre Hcap).
  rewrite !bool_decide_false by done.
  by destruct (reattach O ct unmarshal j r w2) as [[]].
Qed.

(** The process dies between the record of a run and its launch. *)
Definition demo_unlaunched : cworld := demo_serve (demo_oracle [4%nat] [] []) (RSubmit (bs "doc") ∅ ∅) new_world.


(** Afterwards the backend lists no container. *)
Definition demo_empty : oracle :=
  let O := demo_oracle [] [] [] in
  mkOracle (crashAt O) (storeFault O) (nowAt O) (newIDAt O) (launchAt O) (stopAt O) (removeAt O) (statusAt O)
    (λ _ _, Ok []) (deleteDataAt O) (secretAt O).

Definition demo_starting : Run :=
  mkRun (demo_id x72 3) (demo_id x72 0) [] 0 Starting 1 [] NoFailure 3000000000 None None.

Lemma unlaunched_run_stays_witness :
  st_runs (cw_store (settle (reconcile_one demo_empty demo_ctl no_manifest (rn_ID demo_starting) demo_unlaunched)))
  = st_runs (cw_store demo_unlaunched).
Proof.
  assert (st_runs (cw_store demo_unlaunched) = [demo_starting]) as E by (vm_compute; reflexivity).
  apply (unlaunched_run_stays demo_empty demo_ctl no_manifest demo_unlaunched demo_starting).
  - rewrite E. left.
  - rewrite E. apply NoDup_singleton.
  - reflexivity.
  - reflexivity.
  - intros t live. reflexivity.
Defined.

(** A job ran to its end and its container is kept for its logs. *)
Definition demo_finished_oracle (crashes : list nat) : oracle := mkOracle
  (λ t, bool_decide (t ∈ crashes)) (λ _, None) (λ t, Z.of_nat t * 1000000000) (demo_id x72) (λ t _, inl (demo_id x63 t)) (λ _ _, None) (λ _ _, None)
  (λ _ _, Ok (mkBStatus BExited 0 false [] 0 [])) (λ _ _, Ok [mkContainerStats (demo_id x63 4) (demo_id x72 0) true 4])
  (λ _ _, None) (λ _ _, Err (bs "no secret")).
Definition demo_finished : cworld :=
  demo_serve (demo_finished_oracle []) RReconcile (demo_serve (demo_finished_oracle []) (RSubmit (bs "doc") ∅ ∅) new_world).

(** The process dies between the record and the launch of its next run: the next
    reconcile pass takes the old container for it, and the run is finished without
    having run. *)
Example unlaunched_run_adopts_old_exit :
  let crashed := demo_serve (demo_finished_oracle [18%nat]) (RRestart (demo_id x72 0) []) demo_finished in
  let reconciled := demo_serve (demo_finished_oracle []) RReconcile crashed in
  (λ r, (rn_ContainerID r, rn_Phase r)) <$> st_runs (cw_store crashed) = [(demo_id x63 4, Finished); ([], Starting)]
  ∧ (λ r, (rn_ContainerID r, rn_Phase r)) <$> st_runs (cw_store reconciled) = [(demo_id x63 4, Finished); (demo_id x63 4, Finished)].
Proof. vm_compute. done. Qed.
