(* ===== verification/KeyedProcess.v ===== *)
(** * The keyed process operator ([src/operator/keyed_process.go])

    User functions with value state and event-time timers scoped to a key.  A
    user function is a program over the calls its [KeyedContext] offers; the
    model interprets it against any backend with its laws.  The trace of a run
    holds the emitted records and, for the theorems, the timer registrations,
    removals and callbacks.

    The JSON text of a timer list is the class [TimerJSON]; the snapshot is the
    structure before its JSON text. *)

From S2P Require Import Prelude Record State Pebble Decimal Stateless Join JoinCorrect.
From Stdlib Require Import Strings.Byte.

Definition keyedProcessTimersNS : bytes := bs "_timers".
Definition keyedProcessWMNS : bytes := bs "_watermark".
Definition keyedProcessWMKey : bytes := bs "wm".

(** A user function: what it does with its [KeyedContext] until it returns. *)
Inductive kprog :=
| KReturn (records : list Record_)
| KFail (err : bytes)
| KGet (name : bytes) (k : option bytes → kprog)
| KSet (name v : bytes) (k : kprog)
| KClear (name : bytes) (k : kprog)
| KTimer (ts : time) (k : kprog)
| KWatermark (k : time → kprog).

(** [keyedProcessSnapshot] *)
Record keyedProcessSnapshot := mkKPSnapshot {
  Namespaces : gmap bytes (gmap bytes bytes);
  Timers : gmap bytes bytes;
  ks_Watermark : Z
}.

(** What a barrier hands to the engine: the snapshot or the native backend's answer. *)
Inductive kp_snap := KSerialized (s : keyedProcessSnapshot) | KNative (r : result bytes).

(** What a run shows. *)
Inductive act :=
| AEmit (r : Record_)
| ARegister (key : bytes) (n : Z)
| ADue (key : bytes) (n : Z)
| ACall (key : bytes) (n : Z)
| ASnapshot (checkpoint : bytes) (s : kp_snap).

(** [json.Marshal] and [json.Unmarshal] on [[]int64]. *)
Class TimerJSON := {
  marshalTimers : list Z → bytes;
  unmarshalJSON : bytes → list Z;
  unmarshal_marshal : ∀ l, Forall in_i64 l → unmarshalJSON (marshalTimers l) = l;
  marshal_nonempty : ∀ l, marshalTimers l ≠ []
}.

Section keyed_process.
Context {TJ : TimerJSON} {B : Type} {SB : StateBackend B}.

(** The fields of [KeyedProcessOperator] fixed at construction and wiring. *)
Record kp_config := mkKPConfig {
  kp_Fn : bytes → time → Record_ → kprog;
  kp_OnTimer : option (bytes → time → time → kprog);
  kp_Label : bytes;
  kp_barrier : bool;
  kp_native : option (bytes → B → result bytes)
}.

(** [KeyedProcessOperator] *)
Record KeyedProcessOperator := mkKP {
  kp_cfg : kp_config;
  kp_backend : B;
  kp_names : gset bytes;
  kp_watermark : time
}.

Definition set_kbackend (op : KeyedProcessOperator) (b : B) : KeyedProcessOperator :=
  mkKP (kp_cfg op) b (kp_names op) (kp_watermark op).
Definition set_kwatermark (op : KeyedProcessOperator) (t : time) : KeyedProcessOperator :=
  mkKP (kp_cfg op) (kp_backend op) (kp_names op) t.

(** [KeyedProcess] and [Clone]; the backend is an argument. *)
Definition KeyedProcess (fn : bytes → time → Record_ → kprog) (onTimer : option (bytes → time → time → kprog)) (b : B)
    : KeyedProcessOperator := mkKP (mkKPConfig fn onTimer [] false None) b ∅ zeroTime.
Definition kp_Clone (op : KeyedProcessOperator) (fresh : B) : KeyedProcessOperator :=
  mkKP (mkKPConfig (kp_Fn (kp_cfg op)) (kp_OnTimer (kp_cfg op)) (kp_Label (kp_cfg op)) false None) fresh
    (kp_names op) zeroTime.

(** [remember] *)
Definition remember (op : KeyedProcessOperator) (name : bytes) : KeyedProcessOperator :=
  mkKP (kp_cfg op) (kp_backend op) ({[name]} ∪ kp_names op) (kp_watermark op).

Definition kp_wm : handle := SetKey (open_ns keyedProcessWMNS) keyedProcessWMKey.
Definition timers_at (k : bytes) : handle := SetKey (open_ns keyedProcessTimersNS) k.

(** [loadWatermark] *)
Definition kp_loadWatermark (op : KeyedProcessOperator) : KeyedProcessOperator :=
  match vs_Get (kp_backend op) kp_wm with
  | Some raw => if decide (length raw = 8%nat) then set_kwatermark op (UnixTime (wrap64 (Uint64 raw))) else op
  | None => op
  end.

(** [storeWatermark] *)
Definition kp_storeWatermark (op : KeyedProcessOperator) : KeyedProcessOperator :=
  set_kbackend op (vs_Set (kp_backend op) kp_wm (PutUint64 (wrapu64 (UnixNano (kp_watermark op))))).

(** [unmarshalTimers] *)
Definition unmarshalTimers (raw : option bytes) : list Z :=
  match raw with
  | None | Some [] => []
  | Some raw => unmarshalJSON raw
  end.

(** [splitTimers] *)
Definition splitTimers (raw : option bytes) (wm : time) : list Z * list Z :=
  (filter (λ n, After (UnixTime n) wm = false) (unmarshalTimers raw),
   filter (λ n, After (UnixTime n) wm = true) (unmarshalTimers raw)).

(** [RegisterEventTimeTimer] *)
Definition RegisterEventTimeTimer (op : KeyedProcessOperator) (key : bytes) (ts : time) : KeyedProcessOperator :=
  let existing := unmarshalTimers (vs_Get (kp_backend op) (timers_at key)) in
  let n := UnixNano ts in
  if decide (n ∈ existing) then op
  else set_kbackend op (vs_Set (kp_backend op) (timers_at key) (marshalTimers (merge_sort Z.le (existing ++ [n])))).

(** A user function at work on a key: every state call goes through
    [KeyedContext.ValueState]. *)
Fixpoint run_prog (op : KeyedProcessOperator) (key : bytes) (p : kprog)
    : KeyedProcessOperator * list act * (list Record_ + bytes) :=
  match p with
  | KReturn records => (op, [], inl records)
  | KFail err => (op, [], inr err)
  | KGet name k =>
      let op := remember op name in
      run_prog op key (k (vs_Get (kp_backend op) (SetKey (open_ns name) key)))
  | KSet name v k =>
      let op := remember op name in
      run_prog (set_kbackend op (vs_Set (kp_backend op) (SetKey (open_ns name) key) v)) key k
  | KClear name k =>
      let op := remember op name in
      run_prog (set_kbackend op (vs_Clear (kp_backend op) (SetKey (open_ns name) key))) key k
  | KTimer ts k =>
      let '(op', a, res) := run_prog (RegisterEventTimeTimer op key ts) key k in
      (op', ARegister key (UnixNano ts) :: a, res)
  | KWatermark k => run_prog op key (k (kp_watermark op))
  end.

Definition kp_error (op : KeyedProcessOperator) (key err : bytes) : OperatorError :=
  mkOperatorError (bs "KeyedProcess") (kp_Label (kp_cfg op)) key err.

(** Call a user function and send its records; the error is the panic. *)
Definition call_user (op : KeyedProcessOperator) (key : bytes) (p : kprog)
    : KeyedProcessOperator * list act * option OperatorError :=
  match run_prog op key p with
  | (op', a, inl records) => (op', a ++ (AEmit <$> records), None)
  | (op', a, inr err) => (op', a, Some (kp_error op key err))
  end.

(** Sequence two parts of a loop; a panic ends it. *)
Definition kthen (c : KeyedProcessOperator * list act * option OperatorError)
    (k : KeyedProcessOperator → KeyedProcessOperator * list act * option OperatorError)
    : KeyedProcessOperator * list act * option OperatorError :=
  match c with
  | (op, a, None) => let '(op', a', e) := k op in (op', a ++ a', e)
  | c => c
  end.

(** The callbacks of one key in [fireTimers]. *)
Fixpoint fire_due (f : bytes → time → time → kprog) (op : KeyedProcessOperator) (key : bytes) (due : list Z)
    : KeyedProcessOperator * list act * option OperatorError :=
  match due with
  | [] => (op, [], None)
  | n :: due =>
      kthen (kthen (op, [ACall key n], None) (λ op, call_user op key (f key (kp_watermark op) (UnixTime n))))
            (λ op, fire_due f op key due)
  end.

(** One key of [fireTimers] *)
Definition fire_key (f : bytes → time → time → kprog) (op : KeyedProcessOperator) (key : bytes)
    : KeyedProcessOperator * list act * option OperatorError :=
  let '(due, future) := splitTimers (vs_Get (kp_backend op) (timers_at key)) (kp_watermark op) in
  match due with
  | [] => (op, [], None)
  | _ =>
      let b := match future with
               | [] => vs_Clear (kp_backend op) (timers_at key)
               | _ => vs_Set (kp_backend op) (timers_at key) (marshalTimers future)
               end in
      kthen (set_kbackend op b, ADue key <$> due, None) (λ op, fire_due f op key due)
  end.

Fixpoint kp_fire_keys (f : bytes → time → time → kprog) (op : KeyedProcessOperator) (keys : list bytes)
    : KeyedProcessOperator * list act * option OperatorError :=
  match keys with
  | [] => (op, [], None)
  | key :: keys => kthen (fire_key f op key) (λ op, kp_fire_keys f op keys)
  end.

(** [fireTimers] *)
Definition fireTimers (op : KeyedProcessOperator) : KeyedProcessOperator * list act * option OperatorError :=
  match kp_OnTimer (kp_cfg op) with
  | None => (op, [], None)
  | Some f =>
      if IsZero (kp_watermark op) then (op, [], None)
      else kp_fire_keys f op (vs_Keys (kp_backend op) (open_ns keyedProcessTimersNS))
  end.

(** ** Snapshots *)

(** [Snapshot] *)
Definition kp_Snapshot (op : KeyedProcessOperator) : keyedProcessSnapshot :=
  mkKPSnapshot (set_to_map (λ name, (name, vs_SnapshotAll (kp_backend op) (open_ns name))) (kp_names op))
    (vs_SnapshotAll (kp_backend op) (open_ns keyedProcessTimersNS)) (unixNanoOrZero (kp_watermark op)).

(** [Restore]; [names] is the order the namespaces are ranged over. *)
Definition kp_Restore (op : KeyedProcessOperator) (s : keyedProcessSnapshot) (names : list bytes) : KeyedProcessOperator :=
  let op := foldl (λ op name, let op := remember op name in
                     set_kbackend op (vs_RestoreAll (kp_backend op) (open_ns name) (default ∅ (Namespaces s !! name))))
              op names in
  let op := set_kbackend op (vs_RestoreAll (kp_backend op) (open_ns keyedProcessTimersNS) (Timers s)) in
  kp_storeWatermark (set_kwatermark op (timeFromUnixNanoOrZero (ks_Watermark s))).

(** [snapshotBarrier] *)
Definition snapshotBarrier (op : KeyedProcessOperator) (r : Record_) : list act :=
  (if kp_barrier (kp_cfg op)
   then [ASnapshot (CheckpointID r) (match kp_native (kp_cfg op) with
                                     | Some f => KNative (f (CheckpointID r) (kp_backend op))
                                     | None => KSerialized (kp_Snapshot op)
                                     end)]
   else []) ++ [AEmit r].

(** ** The loop *)

(** One iteration of [Process]. *)
Definition kp_step (op : KeyedProcessOperator) (r : Record_) : KeyedProcessOperator * list act * option OperatorError :=
  if IsBarrier r then (op, snapshotBarrier op r, None)
  else if IsWatermark r then
    let op := if After (Timestamp r) (kp_watermark op)
              then kp_storeWatermark (set_kwatermark op (Timestamp r)) else op in
    kthen (fireTimers op) (λ op, (op, [AEmit r], None))
  else call_user op (Key r) (kp_Fn (kp_cfg op) (Key r) (Timestamp r) r).

Fixpoint kp_steps (op : KeyedProcessOperator) (input : list Record_)
    : KeyedProcessOperator * list act * option OperatorError :=
  match input with
  | [] => (op, [], None)
  | r :: input => kthen (kp_step op r) (λ op, kp_steps op input)
  end.

(** [Process] *)
Definition kp_Process (op : KeyedProcessOperator) (input : list Record_)
    : KeyedProcessOperator * list act * option OperatorError := kp_steps (kp_loadWatermark op) input.
End keyed_process.
Arguments KeyedProcessOperator : clear implicits.
Arguments kp_config : clear implicits.
