(* ===== verification/KeyedProcessCorrect.v ===== *)
(** * Correctness of the keyed process operator

    Timers: what is stored for a key is exactly what was registered and has not
    become due, and a watermark calls back every due timer once, in order.
    Recovery: an operator restored from a snapshot goes on as the original.
    Both rest on locality: a call for one key neither reads nor writes the
    state of another. *)

From S2P Require Import Prelude Record State Pebble Decimal Stateless Join JoinCorrect KeyedProcess.
From Stdlib Require Import Strings.Byte.

(** Namespaces the operator keeps for itself. *)
Definition reserved (name : bytes) : Prop := name = keyedProcessTimersNS ∨ name = keyedProcessWMNS.

(** A user function that leaves the reserved namespaces alone. *)
Inductive polite : kprog → Prop :=
| polite_return rs : polite (KReturn rs)
| polite_fail e : polite (KFail e)
| polite_get name k : ¬ reserved name → (∀ v, polite (k v)) → polite (KGet name k)
| polite_set name v k : ¬ reserved name → polite k → polite (KSet name v k)
| polite_clear name k : ¬ reserved name → polite k → polite (KClear name k)
| polite_timer ts k : polite k → polite (KTimer ts k)
| polite_watermark k : (∀ t, polite (k t)) → polite (KWatermark k).

(** A user function that returns without an error. *)
Inductive succeeds : kprog → Prop :=
| succ_return rs : succeeds (KReturn rs)
| succ_get name k : (∀ v, succeeds (k v)) → succeeds (KGet name k)
| succ_set name v k : succeeds k → succeeds (KSet name v k)
| succ_clear name k : succeeds k → succeeds (KClear name k)
| succ_timer ts k : succeeds k → succeeds (KTimer ts k)
| succ_watermark k : (∀ t, succeeds (k t)) → succeeds (KWatermark k).

#[export] Hint Constructors polite succeeds : weibo.

(** Whether timer [n] of key [k] is pending after an action: the last
    registration or removal decides. *)
Definition pends (k : bytes) (n : Z) (s : bool) (x : act) : bool :=
  match x with
  | ARegister k' n' => if decide ((k', n') = (k, n)) then true else s
  | ADue k' n' => if decide ((k', n') = (k, n)) then false else s
  | _ => s
  end.
Definition pending (k : bytes) (n : Z) (tr : list act) : bool := foldl (pends k n) false tr.

(** The callbacks and the removals of a key, the records sent. *)
Definition calls_of (k : bytes) (tr : list act) : list Z :=
  omap (λ x, match x with ACall k' n => if decide (k' = k) then Some n else None | _ => None end) tr.
Definition dues_of (k : bytes) (tr : list act) : list Z :=
  omap (λ x, match x with ADue k' n => if decide (k' = k) then Some n else None | _ => None end) tr.
Definition emitted (tr : list act) : list Record_ :=
  omap (λ x, match x with AEmit r => Some r | _ => None end) tr.

(** Actions of a user function: registrations for its key and records. *)
Definition user_act (key : bytes) (x : act) : Prop :=
  (∃ n, x = ARegister key n) ∨ (∃ r, x = AEmit r).

Lemma user_acts_calls key k a : Forall (user_act key) a → calls_of k a = [] ∧ dues_of k a = [].
Proof. induction 1 as [|x a [[n ->]|[r ->]] _ IH]; [done|exact IH..]. Qed.

Lemma pends_true k n s a : foldl (pends k n) s a = true → ARegister k n ∈ a ∨ (s = true ∧ n ∉ dues_of k a).
Proof.
  revert s. induction a as [|x a IH]; intros s Ha; [right; split; [done|apply not_elem_of_nil]|].
  cbn [foldl] in Ha. destruct (IH _ Ha) as [Hin|[Hs Hd]]; [left; by right|].
  destruct x as [r|k' n'|k' n'|k' n'|c sn]; cbn [pends] in Hs; try (by right).
  - destruct (decide _) as [[= -> ->]|]; [left; left|by right].
  - destruct (decide ((k', n') = (k, n))) as [|Hne]; [done|]. right. split; [done|].
    unfold dues_of. cbn [omap list_omap]. destruct (decide (k' = k)) as [->|]; [|done].
    rewrite not_elem_of_cons. split; [|done]. intros <-. by apply Hne.
Qed.

Section correct.
Context {TJ : TimerJSON} {B : Type} {SB : StateBackend B} {SL : StateBackendLaws B}.
Implicit Types (op : KeyedProcessOperator B) (b : B) (k key name : bytes) (n : Z) (a : list act).

(** ** Stored timers *)

Definition timers_of b k : list Z := unmarshalTimers (vs_Get b (timers_at k)).

(** The cell of a key holds the text of a non-empty sorted list, or nothing. *)
Definition timer_cell b k (T : list Z) : Prop :=
  vs_Get b (timers_at k) = match T with [] => None | _ => Some (marshalTimers T) end
  ∧ StronglySorted Z.lt T ∧ Forall in_i64 T.

Lemma timer_cell_of b k T : timer_cell b k T → timers_of b k = T.
Proof.
  unfold timers_of, timer_cell. intros (-> & _ & Hi). destruct T as [|n T]; [done|].
  cbn [unmarshalTimers]. pose proof (marshal_nonempty (n :: T)). pose proof (unmarshal_marshal _ Hi).
  by destruct (marshalTimers (n :: T)).
Qed.

Record kp_inv op : Prop := {
  ki_inv : sb_inv (kp_backend op);
  ki_cells k : ∃ T, timer_cell (kp_backend op) k T;
  ki_names name : name ∈ kp_names op → ¬ reserved name;
  ki_covered name k : ¬ reserved name → name ∉ kp_names op → vs_Get (kp_backend op) (mkHandle name k) = None
}.

Lemma kp_inv_cell op k : kp_inv op → timer_cell (kp_backend op) k (timers_of (kp_backend op) k).
Proof. intros Hi. destruct (ki_cells op Hi k) as [T HT]. by rewrite (timer_cell_of _ _ _ HT). Qed.

Lemma timers_sorted op k : kp_inv op → StronglySorted Z.lt (timers_of (kp_backend op) k).
Proof. intros Hi. by destruct (kp_inv_cell op k Hi) as (_ & ? & _). Qed.

Lemma sort_new (T : list Z) n : StronglySorted Z.lt T → n ∉ T → StronglySorted Z.lt (merge_sort Z.le (T ++ [n])).
Proof.
  intros HT Hn. assert (NoDup (merge_sort Z.le (T ++ [n]))) as Hnd.
  { rewrite merge_sort_Permutation. apply NoDup_app. split_and!; [|set_solver|apply NoDup_singleton].
    clear Hn. induction HT as [|x T HT IH Hx]; [constructor|]. constructor; [|done].
    intros Hin. rewrite Forall_forall in Hx. specialize (Hx _ Hin). lia. }
  pose proof (StronglySorted_merge_sort Z.le (T ++ [n])) as Hs. revert Hs Hnd.
  generalize (merge_sort Z.le (T ++ [n])) as l. clear. intros l Hs. induction Hs as [|x l Hs IH Hx]; [constructor|].
  intros [Hnin Hnd]%NoDup_cons. constructor; [auto|]. rewrite Forall_forall in *. intros y Hy. specialize (Hx y Hy).
  assert (x ≠ y) by (by intros ->). lia.
Qed.

(** ** Locality of a user function *)

(** Backends that agree on the cells of a key. *)
Definition same_at key b b' : Prop :=
  ∀ name, name ≠ keyedProcessWMNS → vs_Get b (mkHandle name key) = vs_Get b' (mkHandle name key).

(** The effect of work done for [key]. *)
Record local key op a op' : Prop := {
  lo_inv : kp_inv op';
  lo_cfg : kp_cfg op' = kp_cfg op;
  lo_wm : kp_watermark op' = kp_watermark op;
  lo_frame h : h_key h ≠ key ∨ h_ns h = keyedProcessWMNS → vs_Get (kp_backend op') h = vs_Get (kp_backend op) h;
  lo_timers n : bool_decide (n ∈ timers_of (kp_backend op') key)
                = foldl (pends key n) (bool_decide (n ∈ timers_of (kp_backend op) key)) a;
  lo_acts k n s : k ≠ key → foldl (pends k n) s a = s
}.

Lemma local_refl key op : kp_inv op → local key op [] op.
Proof. by constructor. Qed.

Lemma local_trans key op a op1 a' op2 : local key op a op1 → local key op1 a' op2 → local key op (a ++ a') op2.
Proof.
  intros [? C1 W1 F1 T1 A1] [? C2 W2 F2 T2 A2]. split; [done|congruence|congruence|..].
  - intros h Hh. by rewrite F2, F1.
  - intros n. by rewrite T2, T1, foldl_app.
  - intros k n s Hk. rewrite foldl_app, (A1 k n s Hk). auto.
Qed.

Lemma timers_cell_change b b' k : vs_Get b' (timers_at k) = vs_Get b (timers_at k) → timers_of b' k = timers_of b k.
Proof. unfold timers_of. by intros ->. Qed.

(** A write to a user cell of the key. *)
Lemma local_cell key op name b' : kp_inv op → ¬ reserved name → sb_inv b' →
  (∀ h, h ≠ mkHandle name key → vs_Get b' h = vs_Get (kp_backend op) h) →
  local key op [] (set_kbackend (remember op name) b').
Proof.
  intros Hi Hn Hb' Hg.
  assert (∀ k, vs_Get b' (timers_at k) = vs_Get (kp_backend op) (timers_at k)) as Ht.
  { intros k. apply Hg. intros [= <- _]. apply Hn. by left. }
  split; try done.
  - split; [done|..].
    + intros k. destruct (ki_cells op Hi k) as (T & HT & ?). exists T. split; [|done]. cbn. by rewrite Ht.
    + intros m. cbn [kp_names set_kbackend remember]. intros [->%elem_of_singleton|Hm]%elem_of_union; [done|]. by apply (ki_names op Hi).
    + intros m k Hr. cbn [kp_names set_kbackend remember]. intros [Hm1 Hm2]%not_elem_of_union. rewrite not_elem_of_singleton in Hm1. cbn.
      rewrite Hg by congruence. by apply (ki_covered op Hi).
  - intros h Hh. cbn. apply Hg. intros ->. destruct Hh as [Hh|Hh]; cbn in Hh; [done|]. subst name. apply Hn. by right.
  - intros n. cbn. by rewrite (timers_cell_change _ _ _ (Ht key)).
Qed.

Lemma timers_ns_ne : keyedProcessTimersNS ≠ keyedProcessWMNS.
Proof. done. Qed.

(** A write of a timer list. *)
Lemma local_timers key op a b' T : kp_inv op → sb_inv b' → timer_cell b' key T →
  (∀ h, h ≠ timers_at key → vs_Get b' h = vs_Get (kp_backend op) h) →
  (∀ n, bool_decide (n ∈ T) = foldl (pends key n) (bool_decide (n ∈ timers_of (kp_backend op) key)) a) →
  (∀ k n s, k ≠ key → foldl (pends k n) s a = s) →
  local key op a (set_kbackend op b').
Proof.
  intros Hi Hb' HT Hg Hp Ha. split; try done.
  - split; [done|..].
    + intros k. destruct (decide (k = key)) as [->|Hk]; [by exists T|].
      destruct (ki_cells op Hi k) as (T' & HT' & ?). exists T'. split; [|done]. cbn. rewrite Hg by (intros [= ?]; done). done.
    + apply (ki_names op Hi).
    + intros m k Hr Hm. cbn. rewrite Hg; [by apply (ki_covered op Hi)|]. intros [= -> _]. apply Hr. by left.
  - intros h Hh. cbn. apply Hg. intros ->. destruct Hh as [Hh|Hh]; cbn in Hh; [done|]. by apply timers_ns_ne.
  - intros n. cbn. rewrite (timer_cell_of _ _ _ HT). apply Hp.
Qed.

Lemma local_register key op ts : kp_inv op →
  local key op [ARegister key (UnixNano ts)] (RegisterEventTimeTimer op key ts).
Proof.
  intros Hi. unfold RegisterEventTimeTimer. set (n := UnixNano ts).
  fold (timers_of (kp_backend op) key). destruct (kp_inv_cell op key Hi) as (Hc & Hs & H64).
  assert (∀ k m s, k ≠ key → foldl (pends k m) s [ARegister key n] = s) as Ha.
  { intros k m s Hk. cbn. by rewrite decide_False by (intros [= -> ->]; done). }
  destruct (decide (n ∈ timers_of (kp_backend op) key)) as [Hin|Hnin].
  - split; try done. intros m. cbn. destruct (decide ((key, n) = (key, m))) as [[= <-]|]; [|done].
    by rewrite bool_decide_true.
  - set (T := merge_sort Z.le (timers_of (kp_backend op) key ++ [n])).
    assert (Hp : T ≡ₚ timers_of (kp_backend op) key ++ [n]) by apply merge_sort_Permutation.
    assert (HsT : StronglySorted Z.lt T) by (by apply sort_new). clearbody T.
    eapply (local_timers key op _ _ T); [done|by apply vs_Set_inv; apply (ki_inv op Hi)|..].
    + split; [|split; [done|]].
      * rewrite vs_Get_Set by apply (ki_inv op Hi). rewrite decide_True by done.
        destruct T; [|done]. apply Permutation_length in Hp. rewrite length_app in Hp. cbn in Hp. lia.
      * rewrite Hp. apply Forall_app. split; [done|]. constructor; [apply wrap64_range|done].
    + intros h Hh. rewrite vs_Get_Set by apply (ki_inv op Hi). by rewrite decide_False by congruence.
    + intros m. cbn. rewrite (bool_decide_ext _ (m ∈ timers_of (kp_backend op) key ∨ m = n)) by (rewrite Hp; set_solver).
      destruct (decide ((key, n) = (key, m))) as [[= <-]|Hne]; [apply bool_decide_true; by right|].
      apply bool_decide_ext. split; [|by left]. intros [?| ->]; [done|]. by destruct Hne.
    + exact Ha.
Qed.

Definition local_user key op a op' : Prop := local key op a op' ∧ Forall (user_act key) a.

Lemma run_prog_local key p : polite p → ∀ op op' a res, kp_inv op →
  run_prog op key p = (op', a, res) → local_user key op a op'.
Proof.
  induction 1 as [rs|e|name k Hn _ IH|name v k Hn _ IH|name k Hn _ IH|ts k _ IH|k _ IH]; intros op op' a res Hi Hr; cbn in Hr.
  - injection Hr as <- <- <-. split; [by apply local_refl|constructor].
  - injection Hr as <- <- <-. split; [by apply local_refl|constructor].
  - assert (local key op [] (remember op name)) as Hl by (apply (local_cell key op name (kp_backend op)); auto; apply (ki_inv op Hi)).
    destruct (IH _ _ _ _ _ (lo_inv _ _ _ _ Hl) Hr) as [H1 H2]. split; [|done]. by apply (local_trans _ _ [] _ _ _ Hl).
  - eassert (local key op [] _) as Hl.
    { apply (local_cell key op name (vs_Set (kp_backend op) (SetKey (open_ns name) key) v)); auto;
        [apply vs_Set_inv, (ki_inv op Hi)|]. intros h Hh. rewrite vs_Get_Set by apply (ki_inv op Hi). by rewrite decide_False. }
    destruct (IH _ _ _ _ (lo_inv _ _ _ _ Hl) Hr) as [H1 H2]. split; [|done]. by apply (local_trans _ _ [] _ _ _ Hl).
  - eassert (local key op [] _) as Hl.
    { apply (local_cell key op name (vs_Clear (kp_backend op) (SetKey (open_ns name) key))); auto;
        [apply vs_Clear_inv, (ki_inv op Hi)|]. intros h Hh. rewrite vs_Get_Clear by apply (ki_inv op Hi). by rewrite decide_False. }
    destruct (IH _ _ _ _ (lo_inv _ _ _ _ Hl) Hr) as [H1 H2]. split; [|done]. by apply (local_trans _ _ [] _ _ _ Hl).
  - destruct (run_prog _ key k) as [[op1 a1] res1] eqn:E. injection Hr as <- <- <-.
    pose proof (local_register key op ts Hi) as Hl. destruct (IH _ _ _ _ (lo_inv _ _ _ _ Hl) E) as [H1 H2].
    split; [by apply (local_trans _ _ [_] _ _ _ Hl)|]. constructor; [left; eauto|done].
  - by apply (IH _ _ _ _ _ Hi Hr).
Qed.

Lemma pends_emits k n s rs : foldl (pends k n) s (AEmit <$> rs) = s.
Proof. induction rs; [done|]. done. Qed.

Lemma local_emits key op rs : kp_inv op → local_user key op (AEmit <$> rs) op.
Proof.
  intros Hi. split; [|by apply Forall_fmap, Forall_true; right; eauto]. split; try done; intros; by rewrite pends_emits.
Qed.

Lemma local_user_trans key op a op1 a' op2 :
  local_user key op a op1 → local_user key op1 a' op2 → local_user key op (a ++ a') op2.
Proof. intros [L1 U1] [L2 U2]. split; [by apply (local_trans _ _ _ op1)|by apply Forall_app]. Qed.

Lemma call_user_local key p op op' a e : polite p → kp_inv op → call_user op key p = (op', a, e) → local_user key op a op'.
Proof.
  intros Hp Hi. unfold call_user. destruct (run_prog op key p) as [[op1 a1] res] eqn:E.
  pose proof (run_prog_local key p Hp _ _ _ _ Hi E) as Hl.
  destruct res as [rs|err]; intros [= <- <- <-]; [|done].
  apply (local_user_trans _ _ _ op1); [done|]. apply local_emits. apply Hl.
Qed.

Lemma kthen_inv c (g : KeyedProcessOperator B → _) op' a e : kthen c g = (op', a, e) →
  (c = (op', a, e) ∧ e ≠ None) ∨ (∃ op1 a1 a2, c = (op1, a1, None) ∧ g op1 = (op', a2, e) ∧ a = a1 ++ a2).
Proof.
  destruct c as [[op1 a1] [e1|]]; cbn; [intros [= <- <- <-]; by left|].
  destruct (g op1) as [[op2 a2] e2] eqn:E. intros [= <- <- <-]. right. eauto 10.
Qed.

Context (f : bytes → time → time → kprog) (f_polite : ∀ key wm ts, polite (f key wm ts)).

Lemma calls_of_app k a a' : calls_of k (a ++ a') = calls_of k a ++ calls_of k a'.
Proof. apply omap_app. Qed.
Lemma dues_of_app k a a' : dues_of k (a ++ a') = dues_of k a ++ dues_of k a'.
Proof. apply omap_app. Qed.

Lemma fire_due_local key due : ∀ op op' a e, kp_inv op → fire_due f op key due = (op', a, e) →
  local key op a op' ∧ (∀ k, dues_of k a = []) ∧ (∀ k, k ≠ key → calls_of k a = []) ∧ (e = None → calls_of key a = due).
Proof.
  induction due as [|n due IH]; intros op op' a e Hi; cbn [fire_due].
  { intros [= <- <- <-]. split; [by apply local_refl|done]. }
  destruct (call_user op key (f key (kp_watermark op) (UnixTime n))) as [[op1 a1] e1] eqn:E.
  assert (kthen (op, [ACall key n], None) (λ op, call_user op key (f key (kp_watermark op) (UnixTime n)))
          = (op1, ACall key n :: a1, e1)) as -> by (cbn [kthen]; by rewrite E).
  apply call_user_local in E as [L1 U1]; [|done..].
  assert (local key op (ACall key n :: a1) op1) as L by (destruct L1; by split).
  assert (∀ k, dues_of k (ACall key n :: a1) = []) as D1 by (intros k; apply (user_acts_calls key k a1 U1)).
  assert (∀ k, calls_of k (ACall key n :: a1) = if decide (key = k) then [n] else []) as C1.
  { intros k. unfold calls_of. cbn [omap list_omap]. fold (calls_of k a1). destruct (user_acts_calls key k a1 U1) as [-> _].
    by destruct (decide (key = k)). }
  intros [[H He]|(op2 & a2 & a3 & H & Hr & ->)]%kthen_inv.
  - injection H as <- <- <-. split_and!; [done|done| |done].
    intros k Hk. rewrite C1. by rewrite decide_False.
  - injection H as <- <- ->. destruct (IH _ _ _ _ (lo_inv _ _ _ _ L) Hr) as (L3 & D3 & C3 & N3).
    split_and!; [by apply (local_trans _ _ _ op1)|..].
    + intros k. by rewrite dues_of_app, D1, D3.
    + intros k Hk. by rewrite calls_of_app, C1, decide_False, C3.
    + intros He. by rewrite calls_of_app, C1, decide_True, N3.
Qed.

(** The timers of a list that a watermark makes due. *)
Definition due_at (wm : time) (T : list Z) : list Z := filter (λ n, After (UnixTime n) wm = false) T.

Lemma pends_dues key k n s due : foldl (pends k n) s (ADue key <$> due) = if decide (k = key ∧ n ∈ due) then false else s.
Proof.
  revert s. induction due as [|m due IH]; intros s; [by destruct (decide _) as [[_ []%not_elem_of_nil]|]|].
  cbn [fmap list_fmap foldl]. rewrite IH. cbn [pends].
  destruct (decide ((key, m) = (k, n))) as [[= -> ->]|Hne].
  - destruct (decide (k = k ∧ n ∈ due)); [|]; rewrite decide_True by (split; [done|left]); done.
  - apply decide_ext. split; [intros [-> ?]; split; [done|by right]|].
    intros [-> [->|?]%elem_of_cons]; [done|done].
Qed.

Lemma dues_of_fmap key k due : dues_of k (ADue key <$> due) = if decide (key = k) then due else [].
Proof. induction due as [|m due IH]; cbn; [by destruct (decide _)|]. fold (dues_of k (ADue key <$> due)). rewrite IH. by destruct (decide _). Qed.
Lemma calls_of_fmap key k due : calls_of k (ADue key <$> due) = [].
Proof. by induction due. Qed.

(** The backend after the due timers of a key were taken out. *)
Definition taken op key (future : list Z) : KeyedProcessOperator B :=
  set_kbackend op (match future with
                   | [] => vs_Clear (kp_backend op) (timers_at key)
                   | _ => vs_Set (kp_backend op) (timers_at key) (marshalTimers future)
                   end).

Lemma taken_get op key future h : sb_inv (kp_backend op) →
  vs_Get (kp_backend (taken op key future)) h
  = if decide (timers_at key = h) then match future with [] => None | _ => Some (marshalTimers future) end else vs_Get (kp_backend op) h.
Proof. intros Hb. unfold taken. cbn. destruct future; [by rewrite vs_Get_Clear|by rewrite vs_Get_Set]. Qed.

(** The timers of a list that lie after a watermark. *)
Definition later_than (wm : time) (T : list Z) : list Z := filter (λ n, After (UnixTime n) wm = true) T.

Lemma local_taken op key (T := timers_of (kp_backend op) key) : kp_inv op →
  local key op (ADue key <$> due_at (kp_watermark op) T) (taken op key (later_than (kp_watermark op) T)).
Proof.
  intros Hi. pose proof (ki_inv op Hi) as Hb. destruct (kp_inv_cell op key Hi) as (Hc & Hs & H64). fold T in Hc, Hs, H64.
  apply (local_timers key op _ _ (later_than (kp_watermark op) T)); [done|..].
  - destruct (later_than _ _); [by apply vs_Clear_inv|by apply vs_Set_inv].
  - split; [|split; [by apply StronglySorted_filter|]].
    + pose proof (taken_get op key (later_than (kp_watermark op) T) (timers_at key) Hb) as Hg. by rewrite decide_True in Hg.
    + rewrite Forall_forall in *. intros x [_ Hx]%list_elem_of_filter. auto.
  - intros h Hh. pose proof (taken_get op key (later_than (kp_watermark op) T) h Hb) as Hg. by rewrite decide_False in Hg.
  - intros n. rewrite pends_dues. fold T. unfold due_at, later_than.
    destruct (decide _) as [[_ Hd]|Hd].
    + apply bool_decide_false. rewrite list_elem_of_filter in *. destruct Hd as [Hd _]. intros [Hf _]. congruence.
    + apply bool_decide_ext. rewrite list_elem_of_filter in *. split; [by intros [_ ?]|]. intros Hn. split; [|done].
      destruct (After _ _) eqn:EA; [done|]. destruct Hd. done.
  - intros k n s Hk. rewrite pends_dues, decide_False; [done|]. by intros [? _].
Qed.

Lemma fire_key_eq op key (T := timers_of (kp_backend op) key) :
  fire_key f op key
  = match due_at (kp_watermark op) T with
    | [] => (op, [], None)
    | due => kthen (taken op key (later_than (kp_watermark op) T), ADue key <$> due, None) (λ op, fire_due f op key due)
    end.
Proof.
  subst T. unfold fire_key, splitTimers, due_at, later_than, timers_of.
  by destruct (filter (λ n, After (UnixTime n) (kp_watermark op) = false) _).
Qed.

Lemma fire_key_local op key op' a e : kp_inv op → fire_key f op key = (op', a, e) →
  local key op a op' ∧ (∀ k, k ≠ key → dues_of k a = [] ∧ calls_of k a = [])
  ∧ dues_of key a = due_at (kp_watermark op) (timers_of (kp_backend op) key)
  ∧ (e = None → calls_of key a = due_at (kp_watermark op) (timers_of (kp_backend op) key)).
Proof.
  intros Hi. rewrite fire_key_eq. pose proof (local_taken op key Hi) as L1. cbn zeta in *.
  destruct (due_at (kp_watermark op) (timers_of (kp_backend op) key)) as [|m ms] eqn:Ed.
  { intros [= <- <- <-]. split; [by apply local_refl|done]. }
  clear Ed. generalize dependent (m :: ms). intros due L1.
  intros [[H He]|(op2 & a2 & a3 & H & Hr & ->)]%kthen_inv; [by injection H as <- <- <-|].
  injection H as <- <-. destruct (fire_due_local key _ _ _ _ _ (lo_inv _ _ _ _ L1) Hr) as (L3 & D3 & C3 & N3).
  split_and!; [by apply (local_trans _ _ _ _ _ _ L1)|..].
  - intros k Hk. rewrite dues_of_app, calls_of_app, dues_of_fmap, calls_of_fmap, D3, C3 by done. by rewrite decide_False.
  - by rewrite dues_of_app, dues_of_fmap, D3, decide_True, app_nil_r.
  - intros He. by rewrite calls_of_app, calls_of_fmap, N3.
Qed.

(** The effect of a part of a run on all keys. *)
Record seg op a op' : Prop := {
  sg_inv : kp_inv op';
  sg_cfg : kp_cfg op' = kp_cfg op;
  sg_timers k n : bool_decide (n ∈ timers_of (kp_backend op') k)
                  = foldl (pends k n) (bool_decide (n ∈ timers_of (kp_backend op) k)) a
}.

Lemma seg_refl op : kp_inv op → seg op [] op.
Proof. by constructor. Qed.

Lemma seg_trans op a op1 a' op2 : seg op a op1 → seg op1 a' op2 → seg op (a ++ a') op2.
Proof. intros [? C1 T1] [? C2 T2]. split; [done|congruence|]. intros k n. by rewrite T2, T1, foldl_app. Qed.

Lemma local_seg key op a op' : local key op a op' → seg op a op'.
Proof.
  intros [Hi Hc Hw Hf Ht Ha]. split; [done..|]. intros k n. destruct (decide (k = key)) as [->|Hk]; [apply Ht|].
  rewrite Ha by done. rewrite (timers_cell_change (kp_backend op)); [done|]. apply Hf. by left.
Qed.

Lemma fire_keys_seg keys : ∀ op op' a e, kp_inv op → NoDup keys → kp_fire_keys f op keys = (op', a, e) →
  seg op a op' ∧ kp_watermark op' = kp_watermark op
  ∧ (∀ k, k ∉ keys → dues_of k a = [] ∧ calls_of k a = [])
  ∧ (e = None → ∀ k, k ∈ keys → let d := due_at (kp_watermark op) (timers_of (kp_backend op) k) in
       dues_of k a = d ∧ calls_of k a = d).
Proof.
  induction keys as [|key keys IH]; intros op op' a e Hi Hnd; cbn [kp_fire_keys].
  { intros [= <- <- <-]. split; [by apply seg_refl|]. split_and!; [done|done|]. intros _ k []%not_elem_of_nil. }
  apply NoDup_cons in Hnd as [Hkey Hnd].
  intros [[H He]|(op1 & a1 & a2 & H & Hr & ->)]%kthen_inv.
  - destruct (fire_key_local _ _ _ _ _ Hi H) as (L & O & _ & _). split; [by apply (local_seg key)|].
    split_and!; [apply (lo_wm _ _ _ _ L)| |done]. intros k [Hk _]%not_elem_of_cons. auto.
  - destruct (fire_key_local _ _ _ _ _ Hi H) as (L & O & D & N).
    destruct (IH _ _ _ _ (lo_inv _ _ _ _ L) Hnd Hr) as (S2 & W2 & O2 & N2).
    split; [by eapply seg_trans; [apply (local_seg key)|]|].
    split; [by rewrite W2, (lo_wm _ _ _ _ L)|]. split.
    + intros k [Hk1 Hk2]%not_elem_of_cons. rewrite dues_of_app, calls_of_app.
      destruct (O k Hk1) as [-> ->], (O2 k Hk2) as [-> ->]. done.
    + intros He k Hk. cbn zeta in *. rewrite dues_of_app, calls_of_app. destruct (decide (k = key)) as [->|Hne].
      * rewrite D, N by done. destruct (O2 key Hkey) as [-> ->]. by rewrite app_nil_r.
      * apply elem_of_cons in Hk as [?|Hk]; [done|]. destruct (O k Hne) as [-> ->], (N2 He k Hk) as [-> ->].
        cbn [app]. rewrite (lo_wm _ _ _ _ L), (timers_cell_change (kp_backend op)); [done|].
        apply (lo_frame _ _ _ _ L). by left.
Qed.

Lemma timers_keys op k : kp_inv op → k ∉ vs_Keys (kp_backend op) (open_ns keyedProcessTimersNS) →
  timers_of (kp_backend op) k = [].
Proof.
  intros Hi Hk. rewrite vs_Keys_spec in Hk by apply (ki_inv op Hi). unfold timers_of.
  change (SetKey (open_ns keyedProcessTimersNS) k) with (timers_at k) in Hk.
  destruct (vs_Get _ _); [|done]. destruct Hk. eauto.
Qed.
End correct.

Section run.
Context {TJ : TimerJSON} {B : Type} {SB : StateBackend B} {SL : StateBackendLaws B}.
Implicit Types (op : KeyedProcessOperator B) (b : B) (k key name : bytes) (n : Z) (a : list act).

(** User functions that leave the reserved namespaces alone. *)
Definition polite_cfg (c : kp_config B) : Prop :=
  (∀ key ts r, polite (kp_Fn c key ts r)) ∧ (∀ f key wm ts, kp_OnTimer c = Some f → polite (f key wm ts)).
Definition succeeding_cfg (c : kp_config B) : Prop :=
  (∀ key ts r, succeeds (kp_Fn c key ts r)) ∧ (∀ f key wm ts, kp_OnTimer c = Some f → succeeds (f key wm ts)).

(** What a watermark makes due. *)
Definition fires op wm k : list Z :=
  match kp_OnTimer (kp_cfg op) with
  | None => []
  | Some _ => if IsZero wm then [] else due_at wm (timers_of (kp_backend op) k)
  end.

Lemma fireTimers_seg op op' a e : polite_cfg (kp_cfg op) → kp_inv op → fireTimers op = (op', a, e) →
  seg op a op' ∧ kp_watermark op' = kp_watermark op
  ∧ (e = None → ∀ k, dues_of k a = fires op (kp_watermark op) k ∧ calls_of k a = fires op (kp_watermark op) k).
Proof.
  intros [_ Hp] Hi. unfold fireTimers, fires. destruct (kp_OnTimer (kp_cfg op)) as [f|] eqn:Ef.
  2: { intros [= <- <- <-]. split; [by apply seg_refl|]. done. }
  destruct (IsZero _) eqn:Ez.
  { intros [= <- <- <-]. split; [by apply seg_refl|]. done. }
  intros H. destruct (fire_keys_seg f ltac:(eauto) _ _ _ _ _ Hi (vs_Keys_NoDup _ _ (ki_inv op Hi)) H) as (S & W & O & N).
  split_and!; [done|done|]. intros He k. destruct (decide (k ∈ vs_Keys (kp_backend op) (open_ns keyedProcessTimersNS))) as [Hk|Hk].
  - by destruct (N He k Hk).
  - destruct (O k Hk) as [-> ->]. by rewrite (timers_keys op k Hi Hk).
Qed.

(** A write to the cell of the watermark. *)
Lemma seg_watermark op t : kp_inv op → seg op [] (kp_storeWatermark (set_kwatermark op t)).
Proof.
  intros Hi. pose proof (ki_inv op Hi) as Hb. unfold kp_storeWatermark. cbn [kp_backend set_kwatermark kp_watermark].
  set (b' := vs_Set _ _ _).
  assert (∀ h, h_ns h ≠ keyedProcessWMNS → vs_Get b' h = vs_Get (kp_backend op) h) as Hg.
  { intros h Hh. subst b'. rewrite vs_Get_Set by done. rewrite decide_False; [done|]. by intros <-. }
  split; [|done|].
  - split; cbn; [by apply vs_Set_inv|..].
    + intros k. destruct (ki_cells op Hi k) as (T & HT & ?). exists T. split; [|done]. rewrite Hg; done.
    + apply (ki_names op Hi).
    + intros name k Hr Hn. rewrite Hg; [by apply (ki_covered op Hi)|]. cbn. intros ->. apply Hr. by right.
  - intros k n. cbn. rewrite (timers_cell_change (kp_backend op)); [done|]. by apply Hg.
Qed.

Definition after_watermark op (r : Record_) : KeyedProcessOperator B :=
  if After (Timestamp r) (kp_watermark op) then kp_storeWatermark (set_kwatermark op (Timestamp r)) else op.

Lemma after_watermark_spec op r : kp_inv op →
  seg op [] (after_watermark op r) ∧ kp_watermark (after_watermark op r) = Z.max (kp_watermark op) (Timestamp r)
  ∧ (∀ k, timers_of (kp_backend (after_watermark op r)) k = timers_of (kp_backend op) k).
Proof.
  intros Hi. unfold after_watermark. destruct (After _ _) eqn:EA; unfold After in EA; b2p; unfold time in *.
  - split_and!; [by apply seg_watermark|cbn; lia|]. intros k. apply timers_cell_change. cbn.
    rewrite vs_Get_Set by apply (ki_inv op Hi). by rewrite decide_False.
  - split_and!; [by apply seg_refl|lia|done].
Qed.

Lemma kp_step_seg op r op' a e : polite_cfg (kp_cfg op) → kp_inv op → kp_step op r = (op', a, e) →
  seg op a op'
  ∧ (e = None → ∀ k, calls_of k a = if IsBarrier r then [] else if IsWatermark r then fires op (kp_watermark op') k else [])
  ∧ (e = None → IsBarrier r = false → IsWatermark r = true →
       kp_watermark op' = Z.max (kp_watermark op) (Timestamp r)
       ∧ ∀ k, dues_of k a = fires op (kp_watermark op') k).
Proof.
  intros Hp Hi. unfold kp_step. destruct (IsBarrier r).
  { intros [= <- <- <-]. split_and!; [|intros _ k; unfold snapshotBarrier; by destruct (kp_barrier _)|done].
    split; [done|done|]. intros k n. unfold snapshotBarrier. by destruct (kp_barrier _). }
  destruct (IsWatermark r).
  2: { intros H. pose proof (call_user_local _ _ _ _ _ _ (proj1 Hp _ _ _) Hi H) as [L U].
       split_and!; [by apply (local_seg (Key r))|intros _ k; by apply (user_acts_calls (Key r))|done]. }
  cbn zeta. fold (after_watermark op r). destruct (after_watermark_spec op r Hi) as (S0 & W0 & T0).
  intros [[H He]|(op1 & a1 & a2 & H & [= <- <- <-] & ->)]%kthen_inv.
  - destruct (fireTimers_seg (after_watermark op r) op' a e) as (S & W & N); [by rewrite (sg_cfg _ _ _ S0)|apply S0|done|].
    split_and!; [by apply (seg_trans _ [] _ _ _ S0)|done|done].
  - destruct (fireTimers_seg (after_watermark op r) op1 a1 None) as (S & W & N); [by rewrite (sg_cfg _ _ _ S0)|apply S0|done|].
    assert (∀ k, fires (after_watermark op r) (kp_watermark (after_watermark op r)) k = fires op (kp_watermark op1) k) as Hf.
    { intros k. unfold fires. by rewrite W, T0, (sg_cfg _ _ _ S0). }
    split_and!.
    + eapply seg_trans; [apply (seg_trans _ [] _ _ _ S0 S)|]. split; [apply S|done|done].
    + intros _ k. rewrite calls_of_app. destruct (N eq_refl k) as [_ ->]. rewrite Hf. apply app_nil_r.
    + intros _ _ _. split; [by rewrite W, W0|]. intros k. rewrite dues_of_app. destruct (N eq_refl k) as [-> _]. rewrite Hf. apply app_nil_r.
Qed.

Lemma kp_steps_seg input : ∀ op op' a e, polite_cfg (kp_cfg op) → kp_inv op → kp_steps op input = (op', a, e) → seg op a op'.
Proof.
  induction input as [|r input IH]; intros op op' a e Hp Hi; cbn [kp_steps].
  { intros [= <- <- <-]. by apply seg_refl. }
  intros [[H He]|(op1 & a1 & a2 & H & Hr & ->)]%kthen_inv.
  - by destruct (kp_step_seg _ _ _ _ _ Hp Hi H) as (S & _).
  - destruct (kp_step_seg _ _ _ _ _ Hp Hi H) as (S & _). apply (seg_trans _ _ _ _ _ S).
    eapply IH; [|apply S|done]. by rewrite (sg_cfg _ _ _ S).
Qed.

(** ** User functions that succeed never stop the operator *)

Lemma run_prog_succeeds key p : succeeds p → ∀ op, ∃ op' a rs, run_prog op key p = (op', a, inl rs).
Proof.
  induction 1 as [rs|name k _ IH|name v k _ IH|name k _ IH|ts k _ IH|k _ IH]; intros op; cbn; eauto.
  destruct (IH (RegisterEventTimeTimer op key ts)) as (op' & a & rs & ->). eauto.
Qed.

Lemma call_user_total op key p : succeeds p → (call_user op key p).2 = None.
Proof. intros Hs. unfold call_user. by destruct (run_prog_succeeds key p Hs op) as (op' & a & rs & ->). Qed.

Lemma kthen_total c (g : KeyedProcessOperator B → _) : c.2 = None → (∀ op, (g op).2 = None) → (kthen c g).2 = None.
Proof.
  destruct c as [[op a] e]; cbn. intros -> Hg. specialize (Hg op). by destruct (g op) as [[op' a'] e'].
Qed.

Lemma fire_key_total f op key : (∀ key wm ts, succeeds (f key wm ts)) → (fire_key f op key).2 = None.
Proof.
  intros Hs. unfold fire_key, splitTimers. destruct (filter _ _) as [|n due]; [done|].
  apply kthen_total; [done|]. intros op1. generalize (n :: due) as l. intros l. revert op1.
  induction l as [|m l IH]; intros op1; [done|]. cbn [fire_due]. apply kthen_total; [|done].
  apply kthen_total; [done|]. intros op2. by apply call_user_total.
Qed.

Lemma kp_step_total op r : succeeding_cfg (kp_cfg op) → (kp_step op r).2 = None.
Proof.
  intros [Hf Ht]. unfold kp_step. destruct (IsBarrier r); [done|]. destruct (IsWatermark r); [|by apply call_user_total].
  apply kthen_total; [|done]. fold (after_watermark op r). unfold fireTimers.
  assert (kp_cfg (after_watermark op r) = kp_cfg op) as -> by (unfold after_watermark; by destruct (After _ _)).
  destruct (kp_OnTimer (kp_cfg op)) as [f|] eqn:E; [|done]. destruct (IsZero _); [done|].
  generalize (vs_Keys (kp_backend (after_watermark op r)) (open_ns keyedProcessTimersNS)) as keys.
  intros keys. generalize (after_watermark op r) as op1. induction keys as [|key keys IH]; intros op1; [done|].
  cbn [kp_fire_keys]. apply kthen_total; [|done]. apply fire_key_total. eauto.
Qed.

Lemma kp_steps_total input op : polite_cfg (kp_cfg op) → succeeding_cfg (kp_cfg op) → kp_inv op →
  (kp_steps op input).2 = None.
Proof.
  revert op. induction input as [|r input IH]; intros op Hp Hs Hi; [done|]. cbn [kp_steps].
  pose proof (kp_step_total op r Hs) as Ht. destruct (kp_step op r) as [[op1 a1] e1] eqn:E. cbn in Ht. subst e1.
  destruct (kp_step_seg _ _ _ _ _ Hp Hi E) as (S & _). cbn [kthen].
  assert ((kp_steps op1 input).2 = None) as H by (apply IH; rewrite ?(sg_cfg _ _ _ S); auto; apply S).
  by destruct (kp_steps op1 input) as [[op2 a2] e2].
Qed.

(** A new operator over an empty backend. *)
Definition kp_start (cfg : kp_config B) (b : B) : KeyedProcessOperator B := mkKP cfg b ∅ zeroTime.

Lemma kp_start_inv cfg b : sb_inv b → (∀ h, vs_Get b h = None) → kp_inv (kp_start cfg b).
Proof.
  intros Hb He. split; [done|..].
  - intros k. exists []. split; [apply He|]. split; constructor.
  - intros name []%not_elem_of_empty.
  - intros name k _ _. apply He.
Qed.

Lemma kp_start_load cfg b : (∀ h, vs_Get b h = None) → kp_loadWatermark (kp_start cfg b) = kp_start cfg b.
Proof. intros He. unfold kp_loadWatermark. cbn [kp_backend kp_start]. by rewrite He. Qed.
End run.

(** C22: With user functions that succeed and leave the operator's own
    namespaces alone, a keyed process operator never fails: its stored
    timers are, for every key, sorted and exactly those registered and not
    yet fired; a watermark moves the clock forward only and calls back
    exactly the due timers of each key in order, and nothing else calls
    back. *)
Theorem keyed_timers_exact {TJ : TimerJSON} {B} {SB : StateBackend B} {SL : StateBackendLaws B} (cfg : kp_config B) (b : B) input :
  polite_cfg cfg → succeeding_cfg cfg → sb_inv b → (∀ h, vs_Get b h = None) →
  ∃ op tr, kp_Process (kp_start cfg b) input = (op, tr, None)
    ∧ (∀ k, StronglySorted Z.lt (timers_of (kp_backend op) k)
            ∧ ∀ n, n ∈ timers_of (kp_backend op) k ↔ pending k n tr = true)
    ∧ ∀ r, ∃ op' tr', kp_step op r = (op', tr', None)
      ∧ if negb (IsBarrier r) && IsWatermark r then
          kp_watermark op' = Z.max (kp_watermark op) (Timestamp r)
          ∧ ∀ k, calls_of k tr' = fires op (kp_watermark op') k
               ∧ ∀ n, n ∈ timers_of (kp_backend op') k → n ∈ fires op (kp_watermark op') k → ARegister k n ∈ tr'
        else ∀ k, calls_of k tr' = [].
Proof.
  intros Hp Hs Hb He. pose proof (kp_start_inv cfg b Hb He) as Hi. unfold kp_Process. rewrite (kp_start_load cfg b He).
  pose proof (kp_steps_total input (kp_start cfg b) Hp Hs Hi) as Ht.
  destruct (kp_steps (kp_start cfg b) input) as [[op tr] e] eqn:E. cbn in Ht. subst e. exists op, tr. split; [done|].
  pose proof (kp_steps_seg _ (kp_start cfg b) _ _ _ Hp Hi E) as S. pose proof (sg_inv _ _ _ S) as Hi'. split.
  - intros k. split; [by apply timers_sorted|]. intros n. rewrite <- (bool_decide_eq_true (n ∈ _)), (sg_timers _ _ _ S).
    cbn [kp_backend kp_start]. assert (timers_of b k = []) as -> by (unfold timers_of; by rewrite (He (timers_at k))).
    by rewrite bool_decide_false by apply not_elem_of_nil.
  - intros r. assert (kp_cfg op = cfg) as Hc by apply S. pose proof (kp_step_total op r ltac:(by rewrite Hc)) as Hst.
    destruct (kp_step op r) as [[op' tr'] e'] eqn:E'. cbn in Hst. subst e'. exists op', tr'. split; [done|].
    destruct (kp_step_seg op r op' tr' None ltac:(by rewrite Hc) Hi' E') as (S' & C' & W').
    specialize (C' eq_refl). destruct (IsBarrier r); [done|]. destruct (IsWatermark r); [|done].
    cbn [negb andb]. destruct (W' eq_refl eq_refl eq_refl) as [Hw Hd]. split; [done|]. intros k. split; [apply C'|].
    intros n Hn Hf.
    pose proof (sg_timers _ _ _ S' k n) as Hp'. rewrite (bool_decide_true _ Hn) in Hp'. symmetry in Hp'.
    destruct (pends_true _ _ _ _ Hp') as [|[_ Hnd]]; [done|]. rewrite Hd in Hnd. done.
Qed.

(** ** Recovery *)

Section restore.
Context {TJ : TimerJSON} {B : Type} {SB : StateBackend B} {SL : StateBackendLaws B}.
Implicit Types (op : KeyedProcessOperator B) (b : B) (k key name : bytes) (n : Z) (a : list act).

(** Operators that behave alike on a key. *)
Record near key op op' : Prop := {
  nr_inv : kp_inv op; nr_inv' : kp_inv op';
  nr_cfg : kp_cfg op = kp_cfg op';
  nr_wm : kp_watermark op = kp_watermark op';
  nr_same : same_at key (kp_backend op) (kp_backend op')
}.

(** Two executions for a key that show the same and stay alike. *)
Definition twin {X} key op op' (c c' : KeyedProcessOperator B * list act * X) : Prop :=
  ∃ o o' a x N, c = (o, a, x) ∧ c' = (o', a, x) ∧ near key o o'
    ∧ kp_names o = N ∪ kp_names op ∧ kp_names o' = N ∪ kp_names op'.

Lemma twin_ret {X} key op op' a (x : X) : near key op op' → twin key op op' (op, a, x) (op', a, x).
Proof. intros Hn. exists op, op', a, x, ∅. split_and!; [done|done|done|by rewrite (left_id_L ∅ (∪))..]. Qed.

Lemma near_cell key op op' name b b' : near key op op' → ¬ reserved name → sb_inv b → sb_inv b' →
  (∀ h, h ≠ mkHandle name key → vs_Get b h = vs_Get (kp_backend op) h) →
  (∀ h, h ≠ mkHandle name key → vs_Get b' h = vs_Get (kp_backend op') h) →
  vs_Get b (mkHandle name key) = vs_Get b' (mkHandle name key) →
  near key (set_kbackend (remember op name) b) (set_kbackend (remember op' name) b').
Proof.
  intros [Hi Hi' Hc Hw Hs] Hn Hb Hb' Hg Hg' He. split; [..|done|done|].
  - apply (local_cell key op name b); done.
  - apply (local_cell key op' name b'); done.
  - intros m Hm. cbn. destruct (decide (m = name)) as [->|]; [done|].
    rewrite Hg, Hg' by congruence. by apply Hs.
Qed.

Lemma near_timers key op op' : near key op op' → vs_Get (kp_backend op) (timers_at key) = vs_Get (kp_backend op') (timers_at key).
Proof. intros Hn. by apply (nr_same _ _ _ Hn). Qed.

Lemma near_register key op op' ts : near key op op' → near key (RegisterEventTimeTimer op key ts) (RegisterEventTimeTimer op' key ts).
Proof.
  intros Hn. pose proof (lo_inv _ _ _ _ (local_register key op ts (nr_inv _ _ _ Hn))) as H1.
  pose proof (lo_inv _ _ _ _ (local_register key op' ts (nr_inv' _ _ _ Hn))) as H2. revert H1 H2.
  unfold RegisterEventTimeTimer. rewrite (near_timers _ _ _ Hn). destruct (decide _); [done|]. intros H1 H2.
  destruct Hn as [Hi Hi' Hc Hw Hs]. split; [done..|]. intros m Hm. cbn.
  rewrite !vs_Get_Set by (by apply ki_inv). destruct (decide _); [done|]. by apply Hs.
Qed.

Lemma RegisterEventTimeTimer_names op key ts : kp_names (RegisterEventTimeTimer op key ts) = kp_names op.
Proof. unfold RegisterEventTimeTimer. by destruct (decide _). Qed.

Lemma twin_names {X} key op op' name (c c' : KeyedProcessOperator B * list act * X) b b' :
  twin key (set_kbackend (remember op name) b) (set_kbackend (remember op' name) b') c c' → twin key op op' c c'.
Proof.
  intros (o & o' & a & x & N & -> & -> & Hn & H1 & H2). exists o, o', a, x, (N ∪ {[name]}).
  cbn [kp_names set_kbackend remember] in *. by rewrite H1, H2, !(assoc_L (∪)).
Qed.

Lemma run_prog_twin key p : polite p → ∀ op op', near key op op' → twin key op op' (run_prog op key p) (run_prog op' key p).
Proof.
  induction 1 as [rs|e|name k Hr _ IH|name v k Hr _ IH|name k Hr _ IH|ts k _ IH|k _ IH]; intros op op' Hn; cbn [run_prog].
  - by apply twin_ret.
  - by apply twin_ret.
  - apply (twin_names key op op' name _ _ (kp_backend op) (kp_backend op')).
    cbn [kp_backend remember]. change (SetKey (open_ns name) key) with (mkHandle name key).
    rewrite (nr_same _ _ _ Hn name) by (intros ->; apply Hr; by right).
    apply IH. apply near_cell; try done; [apply (ki_inv _ (nr_inv _ _ _ Hn))|apply (ki_inv _ (nr_inv' _ _ _ Hn))|].
    apply (nr_same _ _ _ Hn). intros ->. apply Hr. by right.
  - pose proof (ki_inv _ (nr_inv _ _ _ Hn)) as Hb. pose proof (ki_inv _ (nr_inv' _ _ _ Hn)) as Hb'.
    eapply twin_names, IH, near_cell; try done; cbn [kp_backend remember]; [by apply vs_Set_inv..| | |];
      intros; rewrite ?vs_Get_Set by done; [by rewrite decide_False..|by rewrite !decide_True].
  - pose proof (ki_inv _ (nr_inv _ _ _ Hn)) as Hb. pose proof (ki_inv _ (nr_inv' _ _ _ Hn)) as Hb'.
    eapply twin_names, IH, near_cell; try done; cbn [kp_backend remember]; [by apply vs_Clear_inv..| | |];
      intros; rewrite ?vs_Get_Clear by done; [by rewrite decide_False..|by rewrite !decide_True].
  - destruct (IH _ _ (near_register key op op' ts Hn)) as (o & o' & a & x & N & -> & -> & Hn' & H1 & H2).
    exists o, o', (ARegister key (UnixNano ts) :: a), x, N. rewrite !RegisterEventTimeTimer_names in *. done.
  - rewrite (nr_wm _ _ _ Hn). auto.
Qed.

Lemma call_user_twin key p op op' : polite p → near key op op' → twin key op op' (call_user op key p) (call_user op' key p).
Proof.
  intros Hp Hn. unfold call_user, kp_error. rewrite (nr_cfg _ _ _ Hn).
  destruct (run_prog_twin key p Hp op op' Hn) as (o & o' & a & [rs|err] & N & -> & -> & Hn' & H1 & H2); by eexists _, _, _, _, N.
Qed.

Lemma kthen_twin key op op' c c' (g g' : KeyedProcessOperator B → _) : twin key op op' c c' →
  (∀ o o', near key o o' → twin key o o' (g o) (g' o')) → twin key op op' (kthen c g) (kthen c' g').
Proof.
  intros (o & o' & a & [e|] & N & -> & -> & Hn & H1 & H2) Hg; cbn [kthen]; [by eexists _, _, _, _, N|].
  destruct (Hg o o' Hn) as (p & p' & a' & e' & M & -> & -> & Hn' & H1' & H2').
  exists p, p', (a ++ a'), e', (M ∪ N). by rewrite H1', H2', H1, H2, !(assoc_L (∪)).
Qed.

Context (f : bytes → time → time → kprog) (f_polite : ∀ key wm ts, polite (f key wm ts)).

Lemma fire_due_twin key due : ∀ op op', near key op op' → twin key op op' (fire_due f op key due) (fire_due f op' key due).
Proof.
  induction due as [|n due IH]; intros op op' Hn; cbn [fire_due]; [by apply twin_ret|].
  apply kthen_twin; [|done]. apply kthen_twin; [by apply twin_ret|]. intros o o' Ho. rewrite (nr_wm _ _ _ Ho). by apply call_user_twin.
Qed.

Lemma fire_key_twin key op op' : near key op op' → twin key op op' (fire_key f op key) (fire_key f op' key).
Proof.
  intros Hn. pose proof (nr_inv _ _ _ Hn) as Hi. pose proof (nr_inv' _ _ _ Hn) as Hi'.
  pose proof (local_taken op key Hi) as L. pose proof (local_taken op' key Hi') as L'. cbn zeta in *.
  rewrite !fire_key_eq. cbn zeta. unfold timers_of in *. rewrite (near_timers _ _ _ Hn), (nr_wm _ _ _ Hn) in *.
  destruct (due_at _ _) as [|m due]; [by apply twin_ret|].
  apply kthen_twin; [|intros; by apply fire_due_twin].
  eexists _, _, _, _, ∅. split_and!; [done|done| |by rewrite (left_id_L ∅ (∪))..].
  split; [apply L|apply L'|apply Hn|apply Hn|]. intros name Hname.
  rewrite !taken_get by (by apply ki_inv). destruct (decide _); [done|]. by apply (nr_same _ _ _ Hn).
Qed.

Notation alone op k := (fire_key f op k).
Definition grown op (keys : list bytes) : gset bytes := ⋃ ((λ k, kp_names (alone op k).1.1) <$> keys).

Lemma local_same key op a op' k : local key op a op' → k ≠ key → same_at k (kp_backend op') (kp_backend op).
Proof. intros L Hk name _. apply (lo_frame _ _ _ _ L). by left. Qed.

(** Firing the keys one after the other is firing each of them alone. *)
Lemma fire_keys_alone keys : ∀ op cur op' a e, NoDup keys →
  (∀ k, k ∈ keys → near k cur op) → kp_inv cur → kp_names op ⊆ kp_names cur →
  kp_fire_keys f cur keys = (op', a, e) →
  (e = None ↔ Forall (λ k, (alone op k).2 = None) keys)
  ∧ (e = None → a = flat_map (λ k, (alone op k).1.2) keys
      ∧ (∀ k, k ∈ keys → same_at k (kp_backend op') (kp_backend (alone op k).1.1))
      ∧ (∀ h, h_key h ∉ keys → vs_Get (kp_backend op') h = vs_Get (kp_backend cur) h)
      ∧ kp_names op' = grown op keys ∪ kp_names cur).
Proof.
  induction keys as [|key keys IH]; intros op cur op' a e Hnd Hk Hi Hsub; cbn [kp_fire_keys].
  { intros [= <- <- <-]. split; [by split|]. intros _. split_and!; [done|by intros k []%not_elem_of_nil|done|].
    unfold grown. cbn. by rewrite (left_id_L ∅ (∪)). }
  apply NoDup_cons in Hnd as [Hkey Hnd].
  pose proof (Hk key ltac:(left)) as Hnear. rewrite Forall_cons.
  destruct (fire_key_twin key cur op Hnear) as (o & o' & a1 & x & N & E & E' & Hn & N1 & N2).
  assert (alone op key = (o', a1, x)) as Ea by exact E'.
  destruct (fire_key_local f f_polite _ _ _ _ _ Hi E) as (L & _).
  rewrite E, Ea. destruct x as [er|]; cbn [kthen fst snd].
  { intros [= <- <- <-]. split; [|done]. split; [done|]. by intros [? _]. }
  destruct (kp_fire_keys f o keys) as [[op2 a2] e2] eqn:E2. intros [= <- <- <-].
  assert (∀ k, k ∈ keys → near k o op) as Hk'.
  { intros k Hin. pose proof (Hk k ltac:(by right)) as [? ? ? ? Hs]. split; [apply Hn|done|..].
    - by rewrite (lo_cfg _ _ _ _ L).
    - by rewrite (lo_wm _ _ _ _ L).
    - intros name Hname. rewrite (local_same _ _ _ _ k L) by (done || (by intros ->)). by apply Hs. }
  assert (kp_names op ⊆ kp_names o) as Hsub' by (rewrite N1; by apply union_subseteq_r').
  destruct (IH op o op2 a2 e2 Hnd Hk' (nr_inv _ _ _ Hn) Hsub' E2) as [He Hr].
  split; [rewrite He; naive_solver|]. intros ->. destruct (Hr eq_refl) as (-> & Hs & Hf & Hnames).
  split_and!.
  - cbn [flat_map]. by rewrite Ea.
  - intros k [->|Hin]%elem_of_cons; [|by apply Hs].
    rewrite Ea. intros name Hname. cbn. rewrite Hf by done. by apply (nr_same _ _ _ Hn).
  - intros h [Hh1 Hh2]%not_elem_of_cons. rewrite Hf by done. apply (lo_frame _ _ _ _ L). by left.
  - rewrite Hnames, N1. unfold grown. cbn [fmap list_fmap union_list]. rewrite Ea. cbn [fst]. rewrite N2.
    apply leibniz_equiv. intros y. set_unfold. specialize (Hsub y). tauto.
Qed.

(** Operators that behave alike on every key. *)
Record krel op op' : Prop := {
  kr_inv : kp_inv op; kr_inv' : kp_inv op';
  kr_cfg : kp_cfg op = kp_cfg op';
  kr_wm : kp_watermark op = kp_watermark op';
  kr_names : kp_names op = kp_names op';
  kr_cells h : h_ns h ≠ keyedProcessWMNS → vs_Get (kp_backend op) h = vs_Get (kp_backend op') h
}.

Lemma krel_near key op op' : krel op op' → near key op op'.
Proof. intros []. split; try done. intros name Hn. auto. Qed.

Lemma near_refl key op : kp_inv op → near key op op.
Proof. by split. Qed.

Lemma grown_perm op keys keys' : keys ≡ₚ keys' → grown op keys = grown op keys'.
Proof.
  intros Hp. unfold grown. apply leibniz_equiv. intros y. rewrite !elem_of_union_list.
  by setoid_rewrite Hp.
Qed.

Lemma emitted_app a a' : emitted (a ++ a') = emitted a ++ emitted a'.
Proof. apply omap_app. Qed.

Lemma emitted_flat {A} (g : A → list act) l : emitted (flat_map g l) = flat_map (λ x, emitted (g x)) l.
Proof. induction l as [|x l IH]; [done|]. cbn [flat_map]. by rewrite emitted_app, IH. Qed.

Lemma flat_map_perm {A C} (g : A → list C) l l' : l ≡ₚ l' → flat_map g l ≡ₚ flat_map g l'.
Proof.
  induction 1 as [|x l l' _ IH|x y l|l l' l'' _ IH _ IH']; cbn; [done|by rewrite IH| |by etrans].
  rewrite !app_assoc. by rewrite (Permutation_app_comm (g y)).
Qed.

Lemma fire_keys_krel keys keys' op op' o a : krel op op' → NoDup keys → keys ≡ₚ keys' →
  kp_fire_keys f op keys = (o, a, None) →
  ∃ o' a', kp_fire_keys f op' keys' = (o', a', None) ∧ krel o o' ∧ emitted a ≡ₚ emitted a'.
Proof.
  intros Hr Hnd Hp E. destruct (kp_fire_keys f op' keys') as [[o' a'] e'] eqn:E'.
  assert (NoDup keys') as Hnd' by (by rewrite <- Hp).
  assert (∀ k, twin k op op' (alone op k) (alone op' k)) as Ht by (intros k; by apply fire_key_twin, krel_near).
  destruct (fire_keys_alone keys op op o a None Hnd ltac:(intros; apply near_refl, Hr) (kr_inv _ _ Hr) ltac:(done) E)
    as [He (-> & Hs & Hf & Hg)]; [done|].
  destruct (fire_keys_alone keys' op' op' o' a' e' Hnd' ltac:(intros; apply near_refl, Hr) (kr_inv' _ _ Hr) ltac:(done) E')
    as [He' Hrest].
  assert (e' = None) as ->.
  { apply He'. rewrite <- Hp. apply proj1 in He. specialize (He eq_refl). rewrite Forall_forall in *. intros k Hk.
    specialize (He k Hk). destruct (Ht k) as (? & ? & ? & x & ? & E1 & E2 & _). rewrite E1 in He. cbn in He. subst x.
    by rewrite E2. }
  destruct (Hrest eq_refl) as (-> & Hs' & Hf' & Hg'). eexists _, _. split; [done|].
  destruct (fire_keys_seg f f_polite _ _ _ _ _ (kr_inv _ _ Hr) Hnd E) as (S & W & _).
  destruct (fire_keys_seg f f_polite _ _ _ _ _ (kr_inv' _ _ Hr) Hnd' E') as (S' & W' & _).
  split.
  - split; [apply S|apply S'|by rewrite (sg_cfg _ _ _ S), (sg_cfg _ _ _ S'), (kr_cfg _ _ Hr)|by rewrite W, W', (kr_wm _ _ Hr)|..].
    + rewrite Hg, Hg', <- (kr_names _ _ Hr), (grown_perm op' keys' keys) by done. f_equal. unfold grown. f_equal.
      apply list_fmap_ext. intros i k _. destruct (Ht k) as (? & ? & ? & x & N & E1 & E2 & _ & N1 & N2).
      rewrite E1, E2. cbn. by rewrite N1, N2, (kr_names _ _ Hr).
    + intros h Hh. destruct (decide (h_key h ∈ keys)) as [Hin|Hin].
      * destruct h as [name k]. cbn in *. rewrite (Hs k Hin name Hh), (Hs' k ltac:(by rewrite <- Hp) name Hh).
        destruct (Ht k) as (? & ? & ? & x & N & E1 & E2 & Hn & _). rewrite E1, E2. by apply (nr_same _ _ _ Hn).
      * rewrite Hf, Hf' by (rewrite <- ?Hp; done). by apply (kr_cells _ _ Hr).
  - rewrite !emitted_flat. rewrite (flat_map_perm _ _ _ Hp). apply reflexive_eq.
    apply List.flat_map_ext. intros k. destruct (Ht k) as (? & ? & ? & x & N & E1 & E2 & _). by rewrite E1, E2.
Qed.
End restore.

Section recovery.
Context {TJ : TimerJSON} {B : Type} {SB : StateBackend B} {SL : StateBackendLaws B}.
Implicit Types (op : KeyedProcessOperator B) (b : B) (k key name : bytes) (n : Z) (a : list act).

Lemma krel_keys op op' : krel op op' →
  vs_Keys (kp_backend op) (open_ns keyedProcessTimersNS) ≡ₚ vs_Keys (kp_backend op') (open_ns keyedProcessTimersNS).
Proof.
  intros Hr. apply NoDup_Permutation; [apply vs_Keys_NoDup, (kr_inv _ _ Hr)|apply vs_Keys_NoDup, (kr_inv' _ _ Hr)|].
  intros k. rewrite !vs_Keys_spec by (apply (kr_inv _ _ Hr) || apply (kr_inv' _ _ Hr)). by rewrite (kr_cells _ _ Hr).
Qed.

Lemma fireTimers_krel op op' o a : polite_cfg (kp_cfg op) → krel op op' → fireTimers op = (o, a, None) →
  ∃ o' a', fireTimers op' = (o', a', None) ∧ krel o o' ∧ emitted a ≡ₚ emitted a'.
Proof.
  intros [_ Hp] Hr. unfold fireTimers. rewrite <- (kr_cfg _ _ Hr), <- (kr_wm _ _ Hr).
  destruct (kp_OnTimer (kp_cfg op)) as [f|] eqn:Ef; [|intros [= <- <-]; by exists op', []].
  destruct (IsZero _); [intros [= <- <-]; by exists op', []|].
  apply fire_keys_krel; [eauto|done|apply vs_Keys_NoDup, (kr_inv _ _ Hr)|by apply krel_keys].
Qed.

Lemma after_watermark_krel op op' r : krel op op' → krel (after_watermark op r) (after_watermark op' r).
Proof.
  intros Hr. pose proof (after_watermark_spec op r (kr_inv _ _ Hr)) as ([Hi _ _] & _ & _).
  pose proof (after_watermark_spec op' r (kr_inv' _ _ Hr)) as ([Hi' _ _] & _ & _). revert Hi Hi'.
  unfold after_watermark. rewrite <- (kr_wm _ _ Hr). destruct (After _ _); [|done]. intros Hi Hi'.
  destruct Hr as [I I' Hc Hw Hn Hg]. split; [done..|]. intros h Hh. cbn.
  rewrite !vs_Get_Set by (by apply ki_inv). rewrite !decide_False by (by intros <-). auto.
Qed.

Lemma kp_step_krel op op' r o a : polite_cfg (kp_cfg op) → krel op op' → kp_step op r = (o, a, None) →
  ∃ o' a', kp_step op' r = (o', a', None) ∧ krel o o' ∧ emitted a ≡ₚ emitted a'.
Proof.
  intros Hp Hr. unfold kp_step. destruct (IsBarrier r).
  { intros [= <- <-]. eexists _, _. split; [done|]. split; [done|]. unfold snapshotBarrier. rewrite <- (kr_cfg _ _ Hr).
    by destruct (kp_barrier _). }
  destruct (IsWatermark r).
  - fold (after_watermark op r). fold (after_watermark op' r). pose proof (after_watermark_krel op op' r Hr) as Hr'.
    assert (kp_cfg (after_watermark op r) = kp_cfg op) as Hc by (unfold after_watermark; by destruct (After _ _)).
    intros [[_ ?]|(o1 & a1 & a2 & H & [= <- <-] & ->)]%kthen_inv; [done|].
    destruct (fireTimers_krel _ _ _ _ ltac:(by rewrite Hc) Hr' H) as (o' & a' & -> & Hk & He).
    eexists _, _. split; [done|]. split; [done|]. by rewrite !emitted_app, He.
  - intros E. pose proof (call_user_twin (Key r) _ _ _ (proj1 Hp (Key r) (Timestamp r) r) (krel_near (Key r) _ _ Hr))
      as (o1 & o2 & a1 & x & N & E1 & E2 & Hn & N1 & N2).
    rewrite E in E1. injection E1 as <- <- <-. rewrite <- (kr_cfg _ _ Hr), E2. eexists _, _. split; [done|]. split; [|done].
    destruct (call_user_local _ _ _ _ _ _ (proj1 Hp _ _ _) (kr_inv _ _ Hr) E) as [L _].
    destruct (call_user_local _ _ _ _ _ _ (proj1 Hp _ _ _) (kr_inv' _ _ Hr) E2) as [L' _].
    split; [apply Hn|apply Hn|apply Hn|apply Hn|by rewrite N1, N2, (kr_names _ _ Hr)|]. intros h Hh.
    destruct (decide (h_key h = Key r)) as [Hk|Hk].
    + destruct h as [name k]. cbn in *. subst k. by apply (nr_same _ _ _ Hn).
    + rewrite (lo_frame _ _ _ _ L), (lo_frame _ _ _ _ L') by (by left). by apply (kr_cells _ _ Hr).
Qed.

(** What [Process] sends for each record; [None] if it panics. *)
Fixpoint kp_outputs op (input : list Record_) : option (list (list Record_)) :=
  match input with
  | [] => Some []
  | r :: input => match kp_step op r with
                  | (op, a, None) => cons (emitted a) <$> kp_outputs op input
                  | (_, _, Some _) => None
                  end
  end.

Lemma kp_outputs_krel input : ∀ op op' outs, polite_cfg (kp_cfg op) → krel op op' → kp_outputs op input = Some outs →
  ∃ outs', kp_outputs op' input = Some outs' ∧ Forall2 (≡ₚ) outs outs'.
Proof.
  induction input as [|r input IH]; intros op op' outs Hp Hr; cbn [kp_outputs].
  { intros [= <-]. by exists []. }
  destruct (kp_step op r) as [[o a] [e|]] eqn:E; [done|]. intros (os & Ho & ->)%fmap_Some.
  destruct (kp_step_krel _ _ _ _ _ Hp Hr E) as (o' & a' & -> & Hr' & He).
  destruct (kp_step_seg _ _ _ _ _ Hp (kr_inv _ _ Hr) E) as (S & _).
  destruct (IH o o' os ltac:(by rewrite (sg_cfg _ _ _ S)) Hr' Ho) as (os' & -> & HF). eexists. split; [done|]. by constructor.
Qed.

(** ** Restoring *)

Definition restore_ns (s : keyedProcessSnapshot) op name : KeyedProcessOperator B :=
  set_kbackend (remember op name) (vs_RestoreAll (kp_backend op) (open_ns name) (default ∅ (Namespaces s !! name))).

Lemma restore_names s names : ∀ op, sb_inv (kp_backend op) →
  let op' := foldl (restore_ns s) op names in
  sb_inv (kp_backend op') ∧ kp_cfg op' = kp_cfg op ∧ kp_names op' = list_to_set names ∪ kp_names op
  ∧ ∀ h, vs_Get (kp_backend op') h
         = if decide (h_ns h ∈ names) then default ∅ (Namespaces s !! h_ns h) !! h_key h else vs_Get (kp_backend op) h.
Proof.
  induction names as [|name names IH]; intros op Hb; cbn [foldl list_to_set].
  { split_and!; [done|done|by rewrite (left_id_L ∅ (∪))|done]. }
  destruct (IH (restore_ns s op name)) as (Hb' & Hc & Hn & Hg); [by apply vs_RestoreAll_inv|].
  split_and!; [done|done| |].
  - rewrite Hn. cbn [restore_ns kp_names set_kbackend remember]. apply leibniz_equiv. intros y. set_unfold. tauto.
  - intros h. rewrite Hg. cbn [restore_ns kp_backend set_kbackend]. rewrite vs_Get_RestoreAll by done. cbn [h_ns open_ns].
    destruct (decide (h_ns h ∈ names)) as [H1|H1]; destruct (decide (h_ns h ∈ name :: names)) as [H2|H2].
    + done.
    + destruct H2. by right.
    + apply elem_of_cons in H2 as [->|?]; [|done]. by rewrite decide_True.
    + rewrite decide_False; [done|]. intros ->. destruct H2. left.
Qed.

Lemma kp_snapshot_ns op name : kp_inv op →
  Namespaces (kp_Snapshot op) !! name
  = if decide (name ∈ kp_names op) then Some (vs_SnapshotAll (kp_backend op) (open_ns name)) else None.
Proof.
  intros Hi. cbn [Namespaces kp_Snapshot]. destruct (decide _) as [H|H].
  - apply lookup_set_to_map; [done|]. by exists name.
  - apply eq_None_not_Some. intros [m Hm]. apply lookup_set_to_map in Hm as (x & Hx & [= -> _]); done.
Qed.

Lemma restored_krel op fresh names :
  kp_inv op → kp_cfg fresh = kp_cfg op → kp_names fresh ⊆ kp_names op → sb_inv (kp_backend fresh) →
  (∀ h, vs_Get (kp_backend fresh) h = None) →
  (∀ name, name ∈ names ↔ is_Some (Namespaces (kp_Snapshot op) !! name)) →
  in_i64 (kp_watermark op) → kp_watermark op ≠ 0 → IsZero (kp_watermark op) = false →
  krel op (kp_loadWatermark (kp_Restore fresh (kp_Snapshot op) names)).
Proof.
  intros Hi Hc Hsub Hb He Hnames H64 H0 Hz. pose proof (ki_inv op Hi) as Hbo.
  assert (∀ name, name ∈ names ↔ name ∈ kp_names op) as Hin.
  { intros name. rewrite Hnames, kp_snapshot_ns by done. destruct (decide _); naive_solver. }
  unfold kp_Restore. fold (restore_ns (kp_Snapshot op)).
  destruct (restore_names (kp_Snapshot op) names fresh Hb) as (Hb1 & Hc1 & Hn1 & Hg1). cbn zeta in *.
  set (op1 := foldl _ fresh names) in *. clearbody op1. cbn [ks_Watermark kp_Snapshot Timers].
  rewrite time_roundtrip by (right; done). set (b2 := vs_RestoreAll _ _ _).
  assert (sb_inv b2) as Hb2 by (by apply vs_RestoreAll_inv).
  set (b3 := vs_Set b2 kp_wm (PutUint64 (wrapu64 (UnixNano (kp_watermark op))))).
  assert (sb_inv b3) as Hb3 by (by apply vs_Set_inv).
  assert (kp_loadWatermark (kp_storeWatermark (set_kwatermark (set_kbackend op1 b2) (kp_watermark op)))
          = mkKP (kp_cfg op) b3 (kp_names op) (kp_watermark op)) as ->.
  { unfold kp_loadWatermark, kp_storeWatermark. cbn [kp_backend set_kbackend set_kwatermark kp_watermark]. fold b3.
    unfold b3 at 1. rewrite vs_Get_Set, decide_True by done. rewrite decide_True by apply length_be.
    rewrite Uint64_Put by (apply Z.mod_pos_bound; done). rewrite wrap64_wrapu64. unfold UnixNano.
    rewrite wrap64_idemp, wrap64_id by done. unfold set_kwatermark, set_kbackend. cbn. rewrite Hc1, Hc, Hn1. f_equal.
    apply leibniz_equiv. intros y. rewrite elem_of_union, elem_of_list_to_set, Hin. specialize (Hsub y). tauto. }
  assert (∀ h, h_ns h ≠ keyedProcessWMNS → vs_Get (kp_backend op) h = vs_Get b3 h) as Hg.
  { intros [name k] Hh. cbn in Hh. unfold b3. rewrite vs_Get_Set by done. rewrite decide_False by (intros [= <- _]; done).
    unfold b2. rewrite vs_Get_RestoreAll by done. cbn [h_ns h_key open_ns].
    destruct (decide (keyedProcessTimersNS = name)) as [<-|Ht]; [by rewrite vs_SnapshotAll_spec|].
    rewrite Hg1. cbn [h_ns h_key]. rewrite kp_snapshot_ns by done.
    assert (¬ reserved name) as Hres by (intros [->| ->]; done).
    destruct (decide (name ∈ names)) as [H1%Hin|H1].
    - rewrite decide_True by done. cbn. by rewrite vs_SnapshotAll_spec.
    - rewrite He. apply (ki_covered op Hi); [done|]. by rewrite <- Hin. }
  split; try done. split; [done|..]; cbn [kp_backend kp_names].
  - intros k. destruct (ki_cells op Hi k) as (T & HT & ?). exists T. split; [|done]. rewrite <- Hg; done.
  - apply (ki_names op Hi).
  - intros name k Hr Hn. rewrite <- Hg; [by apply (ki_covered op Hi)|]. cbn. intros ->. apply Hr. by right.
Qed.
End recovery.

(** A keyed process operator restored from a snapshot into an empty
    backend emits for every later record the records the original emits, up
    to order, once a watermark in range was seen. *)
Theorem keyed_restore_transparent {TJ : TimerJSON} {B} {SB : StateBackend B} {SL : StateBackendLaws B}
    (cfg : kp_config B) (b b' : B) before after names op tr outs :
  polite_cfg cfg → sb_inv b → (∀ h, vs_Get b h = None) → sb_inv b' → (∀ h, vs_Get b' h = None) →
  kp_Process (kp_start cfg b) before = (op, tr, None) → kp_outputs op after = Some outs →
  in_i64 (kp_watermark op) → kp_watermark op ≠ 0 → IsZero (kp_watermark op) = false →
  (∀ name, name ∈ names ↔ is_Some (Namespaces (kp_Snapshot op) !! name)) →
  ∃ outs', kp_outputs (kp_loadWatermark (kp_Restore (kp_start cfg b') (kp_Snapshot op) names)) after = Some outs'
    ∧ Forall2 (≡ₚ) outs outs'.
Proof.
  intros Hp Hb He Hb' He' H Ho H64 H0 Hz Hn. unfold kp_Process in H. rewrite (kp_start_load cfg b He) in H.
  pose proof (kp_steps_seg _ (kp_start cfg b) _ _ _ Hp (kp_start_inv cfg b Hb He) H) as [Hi Hc _].
  cbn in Hc. eapply kp_outputs_krel; [by rewrite Hc| |done].
  by apply restored_krel.
Qed.

(** A snapshot taken before the first watermark restores the instant that the
    64-bit nanoseconds of the zero time stand for. *)
Lemma keyed_restore_no_watermark {TJ : TimerJSON} {B} {SB : StateBackend B} {SL : StateBackendLaws B}
    (fresh : KeyedProcessOperator B) s names :
  sb_inv (kp_backend fresh) → ks_Watermark s = 0 →
  kp_watermark (kp_Restore fresh s names) = zeroTime
  ∧ kp_watermark (kp_loadWatermark (kp_Restore fresh s names)) = -6795364578871345152.
Proof.
  intros Hb Hs. unfold kp_Restore. rewrite Hs. split; [done|]. fold (restore_ns s).
  destruct (restore_names s names fresh Hb) as (Hb1 & _). cbn zeta in *. set (op1 := foldl _ fresh names) in *. clearbody op1.
  unfold kp_loadWatermark, kp_storeWatermark. cbn [kp_backend set_kbackend set_kwatermark kp_watermark].
  rewrite vs_Get_Set by (by apply vs_RestoreAll_inv). rewrite decide_True by done. by rewrite decide_True by apply length_be.
Qed.

(** ** The JSON text of a timer list *)

Definition comma : byte := x2c.

Fixpoint join_texts (l : list bytes) : bytes :=
  match l with [] => [] | [x] => x | x :: l => x ++ comma :: join_texts l end.

Fixpoint split_texts (s cur : bytes) : list bytes :=
  match s with
  | [] => [cur]
  | c :: s => if decide (c = comma) then cur :: split_texts s [] else split_texts s (cur ++ [c])
  end.

Lemma split_texts_app x s cur : comma ∉ x → split_texts (x ++ s) cur = split_texts s (cur ++ x).
Proof.
  revert cur. induction x as [|c x IH]; intros cur Hx; [by rewrite app_nil_r|].
  apply not_elem_of_cons in Hx as [Hc Hx]. cbn. rewrite decide_False by congruence. by rewrite IH, <- app_assoc.
Qed.

Lemma split_join l : Forall (λ x, comma ∉ x) l → l ≠ [] → split_texts (join_texts l) [] = l.
Proof.
  induction 1 as [|x l Hx Hl IH]; [done|]. intros _. destruct l as [|y l].
  - rewrite <- (app_nil_r (join_texts [x])). by rewrite split_texts_app.
  - change (join_texts (x :: y :: l)) with (x ++ comma :: join_texts (y :: l)). rewrite split_texts_app by done.
    cbn [split_texts app]. rewrite decide_True by done. f_equal. by apply IH.
Qed.

Definition marshal_ints (l : list Z) : bytes := x5b :: join_texts (FormatInt <$> l) ++ [x5d].
Definition unmarshal_ints (s : bytes) : list Z :=
  match removelast (tail s) with [] => [] | t => omap ParseInt (split_texts t []) end.

#[export] Program Instance timer_json : TimerJSON := {| marshalTimers := marshal_ints; unmarshalJSON := unmarshal_ints |}.
Next Obligation.
  intros l Hl. unfold unmarshal_ints, marshal_ints. cbn [tail]. rewrite removelast_last.
  destruct l as [|n l]; [done|].
  assert (split_texts (join_texts (FormatInt <$> n :: l)) [] = FormatInt <$> n :: l) as Hs.
  { apply split_join; [|done]. apply Forall_fmap, Forall_true. intros m. apply FormatInt_no; [done|]. left. by vm_compute. }
  destruct (join_texts (FormatInt <$> n :: l)) as [|c t] eqn:E.
  { cbn in Hs. injection Hs as Hn _. symmetry in Hn. by apply FormatInt_nonempty in Hn. }
  rewrite Hs. clear Hs E. induction Hl as [|m l' Hm Hl IH]; [done|].
  cbn [fmap list_fmap omap list_omap]. rewrite ParseInt_FormatInt by done. f_equal. done.
Qed.
Next Obligation. done. Qed.

(** ** A concrete operator *)

(** Counts the records of a key, and reports the count ten nanoseconds later. *)
Definition demo_fn (key : bytes) (ts : time) (r : Record_) : kprog :=
  KGet (bs "n") (λ v, KSet (bs "n") (default [] v ++ [x31]) (KTimer (ts + 10) (KReturn []))).
Definition demo_on_timer (key : bytes) (wm ts : time) : kprog :=
  KGet (bs "n") (λ v, KReturn [NewRecord ts key (default [] v)]).
Definition demo_kp : kp_config Memory.MemoryBackend := mkKPConfig demo_fn (Some demo_on_timer) [] false None.

Lemma demo_kp_polite : polite_cfg demo_kp.
Proof.
  assert (¬ reserved (bs "n")) as Hn by (intros [?|?]; discriminate). split.
  - intros key ts r. repeat constructor; done.
  - intros f key wm ts [= <-]. repeat constructor; done.
Qed.
Lemma demo_kp_succeeds : succeeding_cfg demo_kp.
Proof. split; [intros key ts r; repeat constructor|]. intros f key wm ts [= <-]. repeat constructor. Qed.
Definition demo_kp_start : KeyedProcessOperator Memory.MemoryBackend := kp_start demo_kp Memory.NewMemoryBackend.
Definition demo_kp_before : list Record_ := [NewRecord 5 (bs "k") []; NewRecord 6 (bs "l") []; NewWatermark 7].
Definition demo_kp_after : list Record_ := [NewRecord 8 (bs "k") []; NewWatermark 20].
Definition demo_kp_mid : KeyedProcessOperator Memory.MemoryBackend := (kp_Process demo_kp_start demo_kp_before).1.1.
Definition demo_kp_outs : list (list Record_) :=
  [[]; [NewRecord 16 (bs "l") (bs "1"); NewRecord 15 (bs "k") (bs "11"); NewRecord 18 (bs "k") (bs "11"); NewWatermark 20]].

Lemma demo_kp_outputs : kp_outputs demo_kp_mid demo_kp_after = Some demo_kp_outs.
Proof. vm_compute. reflexivity. Qed.

Lemma keyed_timers_exact_witness : ∃ op tr, kp_Process demo_kp_start (demo_kp_before ++ demo_kp_after) = (op, tr, None)
  ∧ ∀ n, n ∈ timers_of (kp_backend op) (bs "k") ↔ pending (bs "k") n tr = true.
Proof.
  destruct (keyed_timers_exact (SL := Memory.memory_laws) demo_kp Memory.NewMemoryBackend (demo_kp_before ++ demo_kp_after)
    demo_kp_polite demo_kp_succeeds Memory.inv_new ltac:(done)) as (op & tr & H & Hp & _).
  exists op, tr. split; [exact H|]. apply Hp.
Defined.

Lemma keyed_restore_transparent_witness : ∃ outs,
  kp_outputs (kp_loadWatermark (kp_Restore demo_kp_start (kp_Snapshot demo_kp_mid)
                (map_order (Namespaces (kp_Snapshot demo_kp_mid))))) demo_kp_after = Some outs
  ∧ Forall2 (≡ₚ) demo_kp_outs outs.
Proof.
  apply (keyed_restore_transparent (SL := Memory.memory_laws) demo_kp Memory.NewMemoryBackend Memory.NewMemoryBackend demo_kp_before demo_kp_after _
    demo_kp_mid (kp_Process demo_kp_start demo_kp_before).1.2 demo_kp_outs demo_kp_polite Memory.inv_new ltac:(done)
    Memory.inv_new ltac:(done)).
  - vm_compute. reflexivity.
  - exact demo_kp_outputs.
  - vm_compute. split; [discriminate|reflexivity].
  - vm_compute. discriminate.
  - vm_compute. reflexivity.
  - intros name. apply elem_of_map_order.
Defined.
