(* ===== verification/Workflow.v ===== *)
(** * Workflow documents and their validation ([src/workflow/spec.go], [src/workflow/validate.go])

    The document types after parsing (the YAML and JSON decoders are not
    modelled) and the validator.  A [validator] method is a function that
    returns the errors it adds, in order.  [Quote] renders Go's [%q], and
    [mkdirAll] answers [os.MkdirAll].

    [valid_workflow] says what a valid document is, without loops or counters;
    the validator accepts exactly those. *)

From S2P Require Import Prelude Rfc3339 Decimal.
From Stdlib Require Import Strings.Byte.

(** ** The document *)

(** [any]: what the decoders produce for an untyped value; a float is its text. *)
Inductive anyval :=
| VNil
| VBool (b : bool)
| VString (s : bytes)
| VInt (n : Z)
| VFloat (text : bytes)
| VList (l : list anyval)
| VMap (m : list (bytes * anyval)).

Record CheckpointSpec := mkCheckpointSpec { ck_Interval : duration; ck_Dir : bytes; ck_RetainCompleted : Z }.
Record StateSpec := mkStateSpec { ss_Backend : bytes; ss_Dir : bytes }.
Record EnvSpec := mkEnvSpec {
  es_BufferSize : Z;
  es_ShutdownTimeout : duration;
  es_Checkpointing : option CheckpointSpec;
  es_State : option StateSpec
}.

Record WatermarkSpec := mkWatermarkSpec { ws_MaxOutOfOrderness : duration; ws_Interval : duration }.
Record SASLSpec := mkSASLSpec { sa_Mechanism : bytes; sa_Username : bytes; sa_Password : bytes }.
Record TLSSpec := mkTLSSpec { tl_CAFile : bytes; tl_CertFile : bytes; tl_KeyFile : bytes; tl_InsecureSkipVerify : bool }.

Record KafkaSourceSpec := mkKafkaSourceSpec {
  kf_Brokers : list bytes;
  kf_Topic : bytes;
  kf_Topics : list bytes;
  kf_GroupID : bytes;
  kf_StartFrom : bytes;
  kf_ExactlyOnce : bool;
  kf_Parallel : bool;
  kf_Watermark : option WatermarkSpec;
  kf_Deserialize : bytes;
  kf_CommitBatch : Z;
  kf_FetchMinBytes : Z;
  kf_FetchMaxBytes : Z;
  kf_SASL : option SASLSpec;
  kf_TLS : option TLSSpec
}.
Record RecordSpec := mkRecordSpec { rc_Key : bytes; rc_Value : bytes; rc_Source : bytes }.
Record FileSourceSpec := mkFileSourceSpec { fs_Path : bytes; fs_Source : bytes; fs_Deserialize : bytes; fs_MaxLineBytes : Z }.
Record SourceSpec := mkSourceSpec {
  so_Type : bytes;
  so_Kafka : option KafkaSourceSpec;
  so_File : option FileSourceSpec;
  so_Records : list RecordSpec
}.
Record NamedSourceSpec := mkNamedSource { ns_Name : bytes; ns_Source : SourceSpec }.

Record RefConfig := mkRef { rf_Ref : bytes; rf_Label : bytes; rf_Parallelism : Z }.
Record FilterConfig := mkFilterConfig { fc_Field : bytes; fc_Operator : bytes; fc_Value : anyval }.
Record RenameSpec := mkRenameSpec { rn_From : bytes; rn_To : bytes }.
Record SetSpec := mkSetSpec { st_Field : bytes; st_Value : anyval }.
Record KeyByConfig := mkKeyByConfig { kb_Field : bytes; kb_Partitions : Z; kb_Label : bytes }.
Record ReduceConfig := mkReduceConfig { rd_Function : bytes; rd_Field : bytes; rd_Label : bytes }.
Record WindowConfig := mkWindowConfig {
  wc_Type : bytes;
  wc_Size : duration;
  wc_Slide : duration;
  wc_Gap : duration;
  wc_Offset : duration;
  wc_IdleTimeout : duration;
  wc_AllowedLateness : duration;
  wc_Label : bytes
}.
Record JoinConfig := mkJoinConfig {
  jc_LeftSource : bytes;
  jc_RightSource : bytes;
  jc_Within : duration;
  jc_Before : duration;
  jc_After : duration;
  jc_Label : bytes
}.

(** [Operator]; [SelectFields], [RenameFields] and [SetFields] are their lists. *)
Record Operator := mkOperator {
  op_ID : bytes;
  op_Type : bytes;
  op_Filter : option FilterConfig;
  op_SelectFields : option (list bytes);
  op_RenameFields : option (list RenameSpec);
  op_SetFields : option (list SetSpec);
  op_KeyBy : option KeyByConfig;
  op_Reduce : option ReduceConfig;
  op_Window : option WindowConfig;
  op_Join : option JoinConfig;
  op_Map : option RefConfig;
  op_FlatMap : option RefConfig;
  op_Process : option RefConfig
}.

Record FileSinkSpec := mkFileSinkSpec { fk_Path : bytes; fk_Append : bool; fk_Serialize : bytes }.
Record KafkaSinkSpec := mkKafkaSinkSpec {
  ks_Brokers : list bytes;
  ks_Topic : bytes;
  ks_BatchSize : Z;
  ks_BatchTimeout : duration;
  ks_Acks : bytes;
  ks_Async : bool;
  ks_Serialize : bytes;
  ks_MaxRetries : Z;
  ks_OnError : bytes;
  ks_SASL : option SASLSpec;
  ks_TLS : option TLSSpec
}.
Record TxnKafkaSinkSpec := mkTxnKafkaSinkSpec {
  tk_Brokers : list bytes;
  tk_Topic : bytes;
  tk_TransactionalID : bytes;
  tk_MarkerTopic : bytes;
  tk_Serialize : bytes;
  tk_SASL : option SASLSpec;
  tk_TLS : option TLSSpec
}.
Record PostgresSinkSpec := mkPostgresSinkSpec {
  pg_DSN : bytes;
  pg_Table : bytes;
  pg_Mapping : gmap bytes bytes;
  pg_Mode : bytes;
  pg_ConflictColumns : list bytes;
  pg_UpdateColumns : list bytes;
  pg_BatchSize : Z;
  pg_FlushInterval : duration;
  pg_MaxRetries : Z;
  pg_OnError : bytes
}.
Record SinkSpec := mkSinkSpec {
  sk_Type : bytes;
  sk_Kafka : option KafkaSinkSpec;
  sk_TxnKafka : option TxnKafkaSinkSpec;
  sk_Postgres : option PostgresSinkSpec;
  sk_File : option FileSinkSpec
}.

Record Workflow := mkWorkflow {
  wf_Name : bytes;
  wf_Version : bytes;
  wf_Env : option EnvSpec;
  wf_Source : SourceSpec;
  wf_Sources : list NamedSourceSpec;
  wf_Pipeline : list Operator;
  wf_Sink : SinkSpec
}.

(** ** The validator *)

Record ValidationError := mkVError { ve_Path : bytes; ve_Msg : bytes }.

Definition supportedVersions : list bytes := [[]; bs "1"].
Definition supportedSourceTypes : list bytes := bs <$> ["kafka"; "slice"; "generator"]%string.
Definition supportedSinkTypes : list bytes := bs <$> ["kafka"; "txnKafka"; "postgres"; "stdout"; "blackhole"]%string.
Definition supportedOperatorTypes : list bytes :=
  bs <$> ["filter"; "selectFields"; "renameFields"; "setFields"; "keyBy"; "reduce"; "window"; "join"; "map"; "flatMap"; "process"]%string.

(** [A-Za-z0-9] *)
Definition is_alnum (b : byte) : bool :=
  let z := Z_of_byte b in
  ((65 <=? z) && (z <=? 90)) || ((97 <=? z) && (z <=? 122)) || ((48 <=? z) && (z <=? 57)).
(** [nameRe], [^[A-Za-z0-9][A-Za-z0-9_.-]*$] *)
Definition nameRe (s : bytes) : bool :=
  match s with
  | [] => false
  | b :: s => is_alnum b && forallb (λ c, is_alnum c || bool_decide (c ∈ bs "_.-")) s
  end.

(** [configBlocks] *)
Definition block {A} (name : string) (o : option A) : list bytes := match o with Some _ => [bs name] | None => [] end.
Definition configBlocks (o : Operator) : list bytes :=
  block "filter" (op_Filter o) ++ block "selectFields" (op_SelectFields o) ++ block "renameFields" (op_RenameFields o)
  ++ block "setFields" (op_SetFields o) ++ block "keyBy" (op_KeyBy o) ++ block "reduce" (op_Reduce o)
  ++ block "window" (op_Window o) ++ block "join" (op_Join o) ++ block "map" (op_Map o)
  ++ block "flatMap" (op_FlatMap o) ++ block "process" (op_Process o).

Section validator.
Context (Quote : bytes → bytes) (mkdirAll : bytes → option bytes).

(** [add], and a check that adds an error when its condition holds. *)
Definition add (path msg : bytes) : list ValidationError := [mkVError path msg].
Definition when (P : Prop) `{!Decision P} (path msg : bytes) : list ValidationError :=
  if decide P then add path msg else [].

(** [opPath] *)
Definition opPath (i : nat) (op : Operator) : bytes :=
  let p := bs "pipeline[" ++ FormatInt (Z.of_nat i) ++ bs "]" in
  if decide (op_ID op = []) then p else p ++ bs " " ++ Quote (op_ID op).

Definition indexed (name : string) (i : nat) : bytes := bs name ++ bs "[" ++ FormatInt (Z.of_nat i) ++ bs "]".

(** The loop over the named sources in [structural]; [seen] is [seenSources]. *)
Fixpoint structural_sources (i : nat) (seen : gmap bytes nat) (srcs : list NamedSourceSpec) : list ValidationError :=
  match srcs with
  | [] => []
  | src :: srcs =>
      let path := indexed "sources" i in
      let '(errs, seen) :=
        if decide (ns_Name src = []) then (add (path ++ bs ".name") (bs "source name is required"), seen)
        else match seen !! ns_Name src with
             | Some prev => (add (path ++ bs ".name") (bs "duplicate source name " ++ Quote (ns_Name src)
                              ++ bs " (also used by " ++ indexed "sources" prev ++ bs ")"), seen)
             | None =>
                 if nameRe (ns_Name src) then ([], <[ns_Name src := i]> seen)
                 else (add (path ++ bs ".name") (bs "invalid source name " ++ Quote (ns_Name src)
                              ++ bs " (letters, digits, and _.- only)"), seen)
             end in
      errs
      ++ (if decide (so_Type (ns_Source src) = []) then add (path ++ bs ".source") (bs "source configuration is required")
          else when (so_Type (ns_Source src) ∉ supportedSourceTypes) (path ++ bs ".source.type")
                 (bs "unsupported source type " ++ Quote (so_Type (ns_Source src))))
      ++ structural_sources (S i) seen srcs
  end.

(** The config block must match the operator's type. *)
Definition structural_block (path : bytes) (op : Operator) : list ValidationError :=
  match configBlocks op with
  | [] => add path (bs "operator type " ++ Quote (op_Type op) ++ bs " requires a " ++ Quote (op_Type op) ++ bs " config block")
  | [b] => when (b ≠ op_Type op) path
             (bs "operator type " ++ Quote (op_Type op) ++ bs " does not match config block " ++ Quote b)
  | _ => add path (bs "operator has multiple config blocks (expected only " ++ Quote (op_Type op) ++ bs ")")
  end.

(** The loop over the pipeline in [structural]; [ids] are the ids seen. *)
Fixpoint structural_ops (i : nat) (ids : gmap bytes nat) (ops : list Operator) : list ValidationError :=
  match ops with
  | [] => []
  | op :: ops =>
      let path := opPath i op in
      let '(errs, ids) :=
        if decide (op_ID op = []) then (add path (bs "operator id is required"), ids)
        else match ids !! op_ID op with
             | Some prev => (add path (bs "duplicate operator id " ++ Quote (op_ID op)
                              ++ bs " (also used by " ++ indexed "pipeline" prev ++ bs ")"), ids)
             | None => ([], <[op_ID op := i]> ids)
             end in
      errs
      ++ (if decide (op_Type op = []) then add path (bs "operator type is required")
          else if decide (op_Type op ∉ supportedOperatorTypes) then add path (bs "unsupported operator type " ++ Quote (op_Type op))
          else structural_block path op)
      ++ structural_ops (S i) ids ops
  end.

(** [structural] *)
Definition structural (wf : Workflow) : list ValidationError :=
  when (wf_Version wf ∉ supportedVersions) (bs "version") (bs "unsupported workflow version " ++ Quote (wf_Version wf))
  ++ (if decide (wf_Name wf = []) then add (bs "name") (bs "workflow name is required")
      else when (nameRe (wf_Name wf) = false) (bs "name") (bs "invalid workflow name " ++ Quote (wf_Name wf)))
  ++ when (so_Type (wf_Source wf) ≠ [] ∧ wf_Sources wf ≠ []) (bs "source") (bs "source and sources are mutually exclusive")
  ++ (if decide (so_Type (wf_Source wf) = [] ∧ wf_Sources wf = []) then add (bs "source") (bs "source is required")
      else when (so_Type (wf_Source wf) ≠ [] ∧ so_Type (wf_Source wf) ∉ supportedSourceTypes) (bs "source.type")
             (bs "unsupported source type " ++ Quote (so_Type (wf_Source wf))))
  ++ structural_sources 0 ∅ (wf_Sources wf)
  ++ (if decide (sk_Type (wf_Sink wf) = []) then add (bs "sink") (bs "sink is required")
      else when (sk_Type (wf_Sink wf) ∉ supportedSinkTypes) (bs "sink.type") (bs "unsupported sink type " ++ Quote (sk_Type (wf_Sink wf))))
  ++ structural_ops 0 ∅ (wf_Pipeline wf).

(** ** Configuration *)

(** [ensureDir] *)
Definition ensureDir (path dir : bytes) : list ValidationError :=
  match mkdirAll dir with
  | None => []
  | Some err => add path (bs "directory " ++ Quote dir ++ bs " cannot be created: " ++ err)
  end.

(** [envConfig] *)
Definition ckptConfig (c : CheckpointSpec) : list ValidationError :=
  when (ck_Interval c ≤ 0) (bs "env.checkpointing.interval") (bs "checkpoint interval must be greater than zero")
  ++ when (ck_RetainCompleted c < 0) (bs "env.checkpointing.retainCompleted") (bs "must not be negative")
  ++ (if decide (ck_Dir c = []) then [] else ensureDir (bs "env.checkpointing.dir") (ck_Dir c)).
Definition stateConfig (s : StateSpec) : list ValidationError :=
  if decide (ss_Backend s = bs "memory") then []
  else if decide (ss_Backend s = bs "pebble") then
    (if decide (ss_Dir s = []) then [] else ensureDir (bs "env.state.dir") (ss_Dir s))
  else if decide (ss_Backend s = []) then add (bs "env.state.backend") (bs "a backend is required (memory or pebble)")
  else add (bs "env.state.backend") (bs "unsupported state backend " ++ Quote (ss_Backend s) ++ bs " (memory or pebble)").
Definition envConfig (env : option EnvSpec) : list ValidationError :=
  match env with
  | None => []
  | Some env =>
      when (es_BufferSize env < 0) (bs "env.bufferSize") (bs "buffer size must not be negative")
      ++ from_option ckptConfig [] (es_Checkpointing env) ++ from_option stateConfig [] (es_State env)
  end.

(** [sourceConfigAt] *)
Definition sourceConfigAt (path : bytes) (src : SourceSpec) : list ValidationError :=
  if decide (so_Type src ≠ bs "kafka") then []
  else match so_Kafka src with
       | None => add (path ++ bs ".kafka") (bs "kafka source configuration is required")
       | Some k =>
           when (kf_Brokers k = []) (path ++ bs ".kafka.brokers") (bs "at least one broker is required")
           ++ when (kf_Topic k = [] ∧ kf_Topics k = []) (path ++ bs ".kafka.topic") (bs "a topic (or topics) is required")
           ++ when (kf_Parallel k = true ∧ kf_GroupID k ≠ []) (path ++ bs ".kafka") (bs "parallel and groupID are mutually exclusive")
           ++ match kf_Watermark k with
              | None => []
              | Some w => when (ws_MaxOutOfOrderness w ≤ 0) (path ++ bs ".kafka.watermark.maxOutOfOrderness") (bs "must be greater than zero")
              end
       end.

(** The columns a mapping fills. *)
Definition mapped (m : gmap bytes bytes) : list bytes := (map_to_list m).*2.

Definition columnsConfig (path msg : bytes) (p : PostgresSinkSpec) (cols : list bytes) : list ValidationError :=
  flat_map (λ col, when (col ∉ mapped (pg_Mapping p)) path (msg ++ Quote col ++ bs " is not present in mapping")) cols.

(** The postgres case of [sinkConfig] *)
Definition postgresConfig (path : bytes) (p : PostgresSinkSpec) : list ValidationError :=
  when (pg_DSN p = []) (path ++ bs ".postgres.dsn") (bs "a dsn is required")
  ++ when (pg_Table p = []) (path ++ bs ".postgres.table") (bs "a table is required")
  ++ when (pg_Mapping p = ∅) (path ++ bs ".postgres.mapping") (bs "a non-empty field to column mapping is required")
  ++ (if decide (pg_Mode p = [] ∨ pg_Mode p = bs "insert") then
        when (pg_ConflictColumns p ≠ [] ∨ pg_UpdateColumns p ≠ []) (path ++ bs ".postgres.mode") (bs "conflict/update columns require upsert mode")
      else if decide (pg_Mode p = bs "upsert") then
        when (pg_ConflictColumns p = []) (path ++ bs ".postgres.conflictColumns") (bs "upsert requires at least one conflict column")
      else add (path ++ bs ".postgres.mode") (bs "unsupported postgres mode " ++ Quote (pg_Mode p) ++ bs " (insert or upsert)"))
  ++ columnsConfig (path ++ bs ".postgres.conflictColumns") (bs "conflict column ") p (pg_ConflictColumns p)
  ++ columnsConfig (path ++ bs ".postgres.updateColumns") (bs "update column ") p (pg_UpdateColumns p).

(** [sinkConfig] *)
Definition sinkConfig (path : bytes) (snk : SinkSpec) : list ValidationError :=
  if decide (sk_Type snk = bs "kafka") then
    match sk_Kafka snk with
    | None => add (path ++ bs ".kafka") (bs "kafka sink configuration is required")
    | Some k => when (ks_Brokers k = []) (path ++ bs ".kafka.brokers") (bs "at least one broker is required")
                ++ when (ks_Topic k = []) (path ++ bs ".kafka.topic") (bs "a topic is required")
    end
  else if decide (sk_Type snk = bs "txnKafka") then
    match sk_TxnKafka snk with
    | None => add (path ++ bs ".txnKafka") (bs "transactional kafka sink configuration is required")
    | Some k => when (tk_Brokers k = []) (path ++ bs ".txnKafka.brokers") (bs "at least one broker is required")
                ++ when (tk_Topic k = []) (path ++ bs ".txnKafka.topic") (bs "a topic is required")
                ++ when (tk_TransactionalID k = []) (path ++ bs ".txnKafka.transactionalID")
                     (bs "a transactional id is required for transactional Kafka")
    end
  else if decide (sk_Type snk = bs "postgres") then
    match sk_Postgres snk with
    | None => add (path ++ bs ".postgres") (bs "postgres sink configuration is required")
    | Some p => postgresConfig path p
    end
  else [].

(** [windowConfig] *)
Definition windowConfig (path : bytes) (w : WindowConfig) : list ValidationError :=
  when (wc_AllowedLateness w < 0) (path ++ bs ".allowedLateness") (bs "allowed lateness must be non-negative")
  ++ (if decide (wc_Type w = []) then add (path ++ bs ".type") (bs "a window type is required (tumbling, sliding, or session)")
      else if decide (wc_Type w = bs "tumbling") then
        when (wc_Size w ≤ 0) (path ++ bs ".size") (bs "window size must be greater than zero")
      else if decide (wc_Type w = bs "sliding") then
        when (wc_Size w ≤ 0) (path ++ bs ".size") (bs "window size must be greater than zero")
        ++ when (wc_Slide w ≤ 0) (path ++ bs ".slide") (bs "window slide must be greater than zero")
        ++ when (0 < wc_Size w ∧ 0 < wc_Slide w ∧ wc_Size w < wc_Slide w) (path ++ bs ".slide")
             (bs "window slide must be less than or equal to size")
      else if decide (wc_Type w = bs "session") then
        when (wc_Gap w ≤ 0) (path ++ bs ".gap") (bs "session gap must be greater than zero")
      else add (path ++ bs ".type") (bs "unsupported window type " ++ Quote (wc_Type w))).

(** [joinConfig] *)
Definition joinConfig (path : bytes) (j : JoinConfig) : list ValidationError :=
  when (jc_LeftSource j = []) (path ++ bs ".leftSource") (bs "a left source is required")
  ++ when (jc_RightSource j = []) (path ++ bs ".rightSource") (bs "a right source is required")
  ++ when (jc_LeftSource j ≠ [] ∧ jc_LeftSource j = jc_RightSource j) (path ++ bs ".rightSource") (bs "left and right sources must differ")
  ++ when (jc_Within j < 0) (path ++ bs ".within") (bs "within must be non-negative")
  ++ when (jc_Before j < 0) (path ++ bs ".before") (bs "before must be non-negative")
  ++ when (jc_After j < 0) (path ++ bs ".after") (bs "after must be non-negative")
  ++ when (0 < jc_Within j ∧ (0 < jc_Before j ∨ 0 < jc_After j)) path (bs "within is mutually exclusive with before/after")
  ++ when (jc_Within j = 0 ∧ jc_Before j = 0 ∧ jc_After j = 0) path (bs "within or before/after must be configured").

(** The reduce case of [configuration] *)
Definition reduceConfig (path : bytes) (r : ReduceConfig) : list ValidationError :=
  if decide (rd_Function r = bs "count") then []
  else if decide (rd_Function r = bs "sum") then when (rd_Field r = []) (path ++ bs ".reduce.field") (bs "sum requires a field")
  else if decide (rd_Function r = []) then add (path ++ bs ".reduce.function") (bs "a function is required (count or sum)")
  else add (path ++ bs ".reduce.function") (bs "unsupported reduce function " ++ Quote (rd_Function r) ++ bs " (count or sum)").

(** One operator of [configuration]: the first block that is set. *)
Definition operatorConfig (path : bytes) (op : Operator) : list ValidationError :=
  match op_Filter op, op_SelectFields op, op_RenameFields op, op_SetFields op with
  | Some f, _, _, _ =>
      when (fc_Field f = []) (path ++ bs ".filter.field") (bs "a field is required")
      ++ when (fc_Operator f = []) (path ++ bs ".filter.operator") (bs "an operator is required")
  | _, Some l, _, _ => when (l = []) (path ++ bs ".selectFields.fields") (bs "at least one field is required")
  | _, _, Some l, _ => when (length l = 0%nat) (path ++ bs ".renameFields.renames") (bs "at least one rename is required")
  | _, _, _, Some l => when (length l = 0%nat) (path ++ bs ".setFields.sets") (bs "at least one set is required")
  | None, None, None, None =>
      match op_KeyBy op, op_Reduce op, op_Window op, op_Join op with
      | Some k, _, _, _ =>
          when (kb_Field k = []) (path ++ bs ".keyBy.field") (bs "a key field is required")
          ++ when (kb_Partitions k < 0) (path ++ bs ".keyBy.partitions") (bs "partitions must not be negative")
      | _, Some r, _, _ => reduceConfig path r
      | _, _, Some w, _ => windowConfig (path ++ bs ".window") w
      | _, _, _, Some j => joinConfig (path ++ bs ".join") j
      | None, None, None, None =>
          match op_Process op, op_Map op, op_FlatMap op with
          | Some r, _, _ => when (rf_Ref r = []) (path ++ bs ".process.ref") (bs "a function ref is required")
          | _, Some r, _ => when (rf_Ref r = []) (path ++ bs ".map.ref") (bs "a function ref is required")
          | _, _, Some r => when (rf_Ref r = []) (path ++ bs ".flatMap.ref") (bs "a function ref is required")
          | None, None, None => []
          end
      end
  end.

(** [configuration] *)
Definition configuration (wf : Workflow) : list ValidationError :=
  envConfig (wf_Env wf)
  ++ (if decide (so_Type (wf_Source wf) = []) then [] else sourceConfigAt (bs "source") (wf_Source wf))
  ++ concat (imap (λ i src, sourceConfigAt (indexed "sources" i ++ bs ".source") (ns_Source src)) (wf_Sources wf))
  ++ sinkConfig (bs "sink") (wf_Sink wf)
  ++ concat (imap (λ i op, operatorConfig (opPath i op) op) (wf_Pipeline wf)).

(** ** Pipeline order *)

(** The loop of [pipeline]; the flags are [sawKeyBy] and [sawReduceInGroup]. *)
Fixpoint pipeline_order (i : nat) (sawKeyBy sawReduce : bool) (ops : list Operator) : list ValidationError :=
  match ops with
  | [] => []
  | op :: ops =>
      if decide (op_Type op = bs "keyBy") then pipeline_order (S i) true false ops
      else if decide (op_Type op = bs "reduce") then
        when (sawKeyBy = false) (opPath i op) (bs "reduce requires a keyBy before it") ++ pipeline_order (S i) sawKeyBy true ops
      else if decide (op_Type op = bs "window") then
        when (sawKeyBy = false) (opPath i op) (bs "window requires a keyBy before it")
        ++ when (sawReduce = true) (opPath i op) (bs "window must appear before the aggregation that consumes it")
        ++ pipeline_order (S i) sawKeyBy sawReduce ops
      else pipeline_order (S i) sawKeyBy sawReduce ops
  end.

(** [pipeline] *)
Definition pipeline (wf : Workflow) : list ValidationError :=
  (if decide (wf_Sources wf = []) then []
   else match head (wf_Pipeline wf) ≫= op_Join with
        | None => add (bs "pipeline[0]") (bs "multi-source workflows must start with a join operator")
        | Some j =>
            let names := ns_Name <$> wf_Sources wf in
            when (jc_LeftSource j ∉ names) (bs "pipeline[0].join.leftSource") (bs "unknown source " ++ Quote (jc_LeftSource j))
            ++ when (jc_RightSource j ∉ names) (bs "pipeline[0].join.rightSource") (bs "unknown source " ++ Quote (jc_RightSource j))
        end)
  ++ pipeline_order 0 false false (wf_Pipeline wf).

(** ** Delivery guarantee *)

Definition source_eo (wf : Workflow) : bool :=
  bool_decide (so_Type (wf_Source wf) = bs "kafka") && from_option kf_ExactlyOnce false (so_Kafka (wf_Source wf)).
Definition checkpoints_on (wf : Workflow) : bool :=
  match wf_Env wf ≫= es_Checkpointing with Some c => 0 <? ck_Interval c | None => false end.

(** [deliveryGuarantee] *)
Definition validateDelivery (wf : Workflow) : list ValidationError :=
  let sinkTxn := bool_decide (sk_Type (wf_Sink wf) = bs "txnKafka") in
  if negb (source_eo wf) && negb sinkTxn then []
  else when (source_eo wf = false) (bs "source") (bs "exactly-once requires a Kafka source with exactlyOnce: true")
       ++ when (sinkTxn = false) (bs "sink") (bs "exactly-once requires a txnKafka (transactional) sink")
       ++ when (checkpoints_on wf = false) (bs "env.checkpointing")
            (bs "exactly-once requires checkpointing to be enabled with a positive interval").

(** [Validate]: the errors; none means the workflow is valid. *)
Definition Validate (wf : Workflow) : list ValidationError :=
  structural wf ++ configuration wf ++ pipeline wf ++ validateDelivery wf.
End validator.

(** ** What a valid workflow is *)

Section valid.
Context (mkdirAll : bytes → option bytes).

Definition creatable (dir : bytes) : Prop := dir = [] ∨ mkdirAll dir = None.

Definition valid_env (env : EnvSpec) : Prop :=
  0 ≤ es_BufferSize env
  ∧ (∀ c, es_Checkpointing env = Some c → 0 < ck_Interval c ∧ 0 ≤ ck_RetainCompleted c ∧ creatable (ck_Dir c))
  ∧ (∀ s, es_State env = Some s → ss_Backend s = bs "memory" ∨ (ss_Backend s = bs "pebble" ∧ creatable (ss_Dir s))).

Definition valid_source (src : SourceSpec) : Prop :=
  so_Type src ∈ supportedSourceTypes
  ∧ (so_Type src = bs "kafka" → ∃ k, so_Kafka src = Some k ∧ kf_Brokers k ≠ [] ∧ (kf_Topic k ≠ [] ∨ kf_Topics k ≠ [])
       ∧ (kf_Parallel k = true → kf_GroupID k = []) ∧ ∀ w, kf_Watermark k = Some w → 0 < ws_MaxOutOfOrderness w).

Definition valid_postgres (p : PostgresSinkSpec) : Prop :=
  pg_DSN p ≠ [] ∧ pg_Table p ≠ [] ∧ pg_Mapping p ≠ ∅
  ∧ (((pg_Mode p = [] ∨ pg_Mode p = bs "insert") ∧ pg_ConflictColumns p = [] ∧ pg_UpdateColumns p = [])
     ∨ (pg_Mode p = bs "upsert" ∧ pg_ConflictColumns p ≠ []))
  ∧ Forall (λ c, c ∈ mapped (pg_Mapping p)) (pg_ConflictColumns p ++ pg_UpdateColumns p).

Definition valid_sink (snk : SinkSpec) : Prop :=
  sk_Type snk ∈ supportedSinkTypes
  ∧ (sk_Type snk = bs "kafka" → ∃ k, sk_Kafka snk = Some k ∧ ks_Brokers k ≠ [] ∧ ks_Topic k ≠ [])
  ∧ (sk_Type snk = bs "txnKafka" → ∃ k, sk_TxnKafka snk = Some k ∧ tk_Brokers k ≠ [] ∧ tk_Topic k ≠ [] ∧ tk_TransactionalID k ≠ [])
  ∧ (sk_Type snk = bs "postgres" → ∃ p, sk_Postgres snk = Some p ∧ valid_postgres p).

Definition valid_window (w : WindowConfig) : Prop :=
  0 ≤ wc_AllowedLateness w
  ∧ ((wc_Type w = bs "tumbling" ∧ 0 < wc_Size w) ∨ (wc_Type w = bs "sliding" ∧ 0 < wc_Slide w ≤ wc_Size w)
     ∨ (wc_Type w = bs "session" ∧ 0 < wc_Gap w)).

(** Exactly one of the two ways to give the interval, and it is not empty. *)
Definition valid_join (j : JoinConfig) : Prop :=
  jc_LeftSource j ≠ [] ∧ jc_RightSource j ≠ [] ∧ jc_LeftSource j ≠ jc_RightSource j
  ∧ ((0 < jc_Within j ∧ jc_Before j = 0 ∧ jc_After j = 0)
     ∨ (jc_Within j = 0 ∧ 0 ≤ jc_Before j ∧ 0 ≤ jc_After j ∧ 0 < jc_Before j + jc_After j)).

Definition valid_reduce (r : ReduceConfig) : Prop :=
  rd_Function r = bs "count" ∨ (rd_Function r = bs "sum" ∧ rd_Field r ≠ []).

(** An operator has an id and exactly the config block of its type, filled in. *)
Record valid_operator (op : Operator) : Prop := {
  vo_id : op_ID op ≠ [];
  vo_type : op_Type op ∈ supportedOperatorTypes;
  vo_block : configBlocks op = [op_Type op];
  vo_filter f : op_Filter op = Some f → fc_Field f ≠ [] ∧ fc_Operator f ≠ [];
  vo_select l : op_SelectFields op = Some l → l ≠ [];
  vo_rename l : op_RenameFields op = Some l → l ≠ [];
  vo_set l : op_SetFields op = Some l → l ≠ [];
  vo_keyBy k : op_KeyBy op = Some k → kb_Field k ≠ [] ∧ 0 ≤ kb_Partitions k;
  vo_reduce r : op_Reduce op = Some r → valid_reduce r;
  vo_window w : op_Window op = Some w → valid_window w;
  vo_join j : op_Join op = Some j → valid_join j;
  vo_ref r : op_Map op = Some r ∨ op_FlatMap op = Some r ∨ op_Process op = Some r → rf_Ref r ≠ []
}.

Definition is_type (t : string) (op : Operator) : Prop := op_Type op = bs t.
#[export] Instance is_type_dec t op : Decision (is_type t op).
Proof. unfold is_type. apply _. Defined.

(** A reduce that no keyBy follows. *)
Definition open_reduce (ops : list Operator) : Prop :=
  ∃ l1 op l2, ops = l1 ++ op :: l2 ∧ is_type "reduce" op ∧ Forall (λ o, ¬ is_type "keyBy" o) l2.

(** Reductions and windows come after a keyBy, and a window before the
    reduction of its group. *)
Definition ordered (ops : list Operator) : Prop :=
  ∀ l1 op l2, ops = l1 ++ op :: l2 →
    (is_type "reduce" op ∨ is_type "window" op → Exists (is_type "keyBy") l1)
    ∧ (is_type "window" op → ¬ open_reduce l1).

Record valid_workflow (wf : Workflow) : Prop := {
  vw_version : wf_Version wf ∈ supportedVersions;
  vw_name : nameRe (wf_Name wf) = true;
  vw_env env : wf_Env wf = Some env → valid_env env;
  vw_source : (wf_Sources wf = [] ∧ valid_source (wf_Source wf)) ∨ (wf_Sources wf ≠ [] ∧ so_Type (wf_Source wf) = []);
  vw_sources : Forall (λ s, nameRe (ns_Name s) = true ∧ valid_source (ns_Source s)) (wf_Sources wf);
  vw_names : NoDup (ns_Name <$> wf_Sources wf);
  vw_multi : wf_Sources wf ≠ [] → ∃ j, head (wf_Pipeline wf) ≫= op_Join = Some j
    ∧ jc_LeftSource j ∈ ns_Name <$> wf_Sources wf ∧ jc_RightSource j ∈ ns_Name <$> wf_Sources wf;
  vw_sink : valid_sink (wf_Sink wf);
  vw_ops : Forall valid_operator (wf_Pipeline wf);
  vw_ids : NoDup (op_ID <$> wf_Pipeline wf);
  vw_ordered : ordered (wf_Pipeline wf);
  vw_delivery : source_eo wf = true ∨ sk_Type (wf_Sink wf) = bs "txnKafka" →
    source_eo wf = true ∧ sk_Type (wf_Sink wf) = bs "txnKafka" ∧ checkpoints_on wf = true
}.
End valid.

Lemma block_length {A} name (o : option A) : length (block name o) = match o with Some _ => 1%nat | None => 0%nat end.
Proof. by destruct o. Qed.

(** Case analysis on the one block that is set. *)
Ltac one_block Hl :=
  repeat (match type of Hl with context [match ?o with Some _ => 1%nat | None => 0%nat end] => destruct o eqn:?E end;
          cbn -[Nat.add] in Hl; try (exfalso; lia)).

Section exact.
Context (Quote : bytes → bytes) (mkdirAll : bytes → option bytes).

Lemma when_nil (P : Prop) `{!Decision P} path msg : when P path msg = [] ↔ ¬ P.
Proof. unfold when. by destruct (decide P). Qed.

Lemma app_nil_iff {A} (l k : list A) : l ++ k = [] ↔ l = [] ∧ k = [].
Proof. split; [apply app_eq_nil|by intros [-> ->]]. Qed.

Lemma concat_imap_nil {A C} (g : nat → A → list C) l : concat (imap g l) = [] ↔ ∀ i x, l !! i = Some x → g i x = [].
Proof.
  revert g. induction l as [|x l IH]; intros g; cbn [imap concat]; [by split|].
  rewrite app_nil_iff, IH. split.
  - intros [H1 H2] [|i] y; cbn; [by intros [= <-]|apply H2].
  - intros H. split; [by apply (H 0%nat)|]. intros i y Hy. by apply (H (S i)).
Qed.

Lemma and_iff (P P' Q Q' : Prop) : (P ↔ P') → (Q ↔ Q') → (P ∧ Q ↔ P' ∧ Q').
Proof. tauto. Qed.

Lemma and_iff2 (P1 P2 P Q Q' : Prop) : (P1 ∧ P2 ↔ P) → (Q ↔ Q') → (P1 ∧ P2 ∧ Q ↔ P ∧ Q').
Proof. tauto. Qed.

Lemma dec_em (P : Prop) `{!Decision P} : P ∨ ¬ P.
Proof. destruct (decide P); tauto. Qed.

Lemma add_nil path msg : add path msg = [] ↔ False.
Proof. done. Qed.

(** Decide the conditions of a chain of checks. *)
Ltac checks := rewrite ?app_nil_iff, ?when_nil, ?add_nil.

Lemma nameRe_nonempty s : nameRe s = true → s ≠ [].
Proof. by destruct s. Qed.

Lemma structural_sources_nil srcs : ∀ i seen,
  structural_sources Quote i seen srcs = []
  ↔ Forall (λ s, nameRe (ns_Name s) = true ∧ so_Type (ns_Source s) ∈ supportedSourceTypes) srcs
    ∧ NoDup (ns_Name <$> srcs) ∧ Forall (λ s, seen !! ns_Name s = None) srcs.
Proof.
  induction srcs as [|s srcs IH]; intros i seen; cbn [structural_sources fmap list_fmap].
  { split; [intros _; split_and!; constructor|done]. }
  rewrite !Forall_cons, NoDup_cons.
  assert (so_Type (ns_Source s) ∈ supportedSourceTypes → so_Type (ns_Source s) ≠ []) as Hne.
  { intros H E. rewrite E in H. by repeat (apply elem_of_cons in H as [H|H]; [done|]); apply not_elem_of_nil in H. }
  destruct (decide (ns_Name s = [])) as [En|En].
  { rewrite En. checks. split; [by intros [[] _]|]. intros ([[Hn _] _] & _). done. }
  destruct (seen !! ns_Name s) as [prev|] eqn:Es.
  { checks. split; [by intros [[] _]|]. by intros (_ & _ & ? & _). }
  destruct (nameRe (ns_Name s)) eqn:Er.
  2: { checks. split; [by intros [[] _]|]. by intros ([[? _] _] & _). }
  cbn [app]. rewrite app_nil_iff, IH.
  assert (Forall (λ s', <[ns_Name s:=i]> seen !! ns_Name s' = None) srcs
          ↔ ns_Name s ∉ ns_Name <$> srcs ∧ Forall (λ s', seen !! ns_Name s' = None) srcs) as ->.
  { rewrite !Forall_forall, list_elem_of_fmap. setoid_rewrite lookup_insert_None. split.
    - intros H. split; [|by intros x Hx; apply H]. intros (x & Hx & Hin). by apply (H x).
    - intros [H1 H2] x Hx. split; [auto|]. intros ?. apply H1. by exists x. }
  destruct (decide (so_Type (ns_Source s) = [])) as [Et|Et]; checks; [naive_solver|].
  destruct (decide (so_Type (ns_Source s) ∈ supportedSourceTypes)); naive_solver.
Qed.

Lemma structural_block_nil path op : structural_block Quote path op = [] ↔ configBlocks op = [op_Type op].
Proof.
  unfold structural_block. destruct (configBlocks op) as [|b [|c l]]; checks; [done| |done].
  split; [|by intros [= ->] []]. intros H. f_equal. destruct (decide (b = op_Type op)); [done|tauto].
Qed.

Lemma structural_ops_nil ops : ∀ i ids,
  structural_ops Quote i ids ops = []
  ↔ Forall (λ o, op_ID o ≠ [] ∧ op_Type o ∈ supportedOperatorTypes ∧ configBlocks o = [op_Type o]) ops
    ∧ NoDup (op_ID <$> ops) ∧ Forall (λ o, ids !! op_ID o = None) ops.
Proof.
  induction ops as [|o ops IH]; intros i ids; cbn [structural_ops fmap list_fmap].
  { split; [intros _; split_and!; constructor|done]. }
  rewrite !Forall_cons, NoDup_cons.
  assert (op_Type o ∈ supportedOperatorTypes → op_Type o ≠ []) as Hne.
  { intros H E. rewrite E in H. by repeat (apply elem_of_cons in H as [H|H]; [done|]); apply not_elem_of_nil in H. }
  destruct (decide (op_ID o = [])) as [En|En].
  { checks. split; [by intros [[] _]|]. by intros ([[? _] _] & _). }
  destruct (ids !! op_ID o) as [prev|] eqn:Es.
  { checks. split; [by intros [[] _]|]. by intros (_ & _ & ? & _). }
  cbn [app]. rewrite app_nil_iff, IH.
  assert (Forall (λ o', <[op_ID o:=i]> ids !! op_ID o' = None) ops
          ↔ op_ID o ∉ op_ID <$> ops ∧ Forall (λ o', ids !! op_ID o' = None) ops) as ->.
  { rewrite !Forall_forall, list_elem_of_fmap. setoid_rewrite lookup_insert_None. split.
    - intros H. split; [|by intros x Hx; apply H]. intros (x & Hx & Hin). by apply (H x).
    - intros [H1 H2] x Hx. split; [auto|]. intros ?. apply H1. by exists x. }
  destruct (decide (op_Type o = [])) as [Et|Et]; checks; [naive_solver|].
  destruct (decide (op_Type o ∉ supportedOperatorTypes)) as [Hs|Hs]; checks; [naive_solver|].
  rewrite structural_block_nil. destruct (decide (op_Type o ∈ supportedOperatorTypes)); naive_solver.
Qed.

Lemma ensureDir_nil path dir : ensureDir Quote mkdirAll path dir = [] ↔ mkdirAll dir = None.
Proof. unfold ensureDir. by destruct (mkdirAll dir). Qed.

Lemma envConfig_nil env : envConfig Quote mkdirAll env = [] ↔ ∀ e, env = Some e → valid_env mkdirAll e.
Proof.
  destruct env as [e|]; [|done]. unfold envConfig, valid_env, ckptConfig, stateConfig, creatable. rewrite app_nil_iff, app_nil_iff, when_nil.
  assert (∀ P : EnvSpec → Prop, (∀ e', Some e = Some e' → P e') ↔ P e) as ->
    by (intros P; split; [auto|by intros ? ? [= <-]]).
  apply and_iff; [lia|]. apply and_iff.
  - destruct (es_Checkpointing e) as [c|]; cbn; [|done]. checks.
    assert (∀ P : CheckpointSpec → Prop, (∀ c', Some c = Some c' → P c') ↔ P c) as ->
      by (intros P; split; [auto|by intros ? ? [= <-]]).
    unfold duration in *. apply and_iff; [lia|]. apply and_iff; [lia|]. destruct (decide _) as [Hd|Hd]; [tauto|].
    rewrite ensureDir_nil. tauto.
  - destruct (es_State e) as [s|]; cbn; [|done].
    assert (∀ P : StateSpec → Prop, (∀ c', Some s = Some c' → P c') ↔ P s) as ->
      by (intros P; split; [auto|by intros ? ? [= <-]]).
    destruct (decide _) as [H1|H1]; [tauto|]. destruct (decide _) as [H2|H2].
    + destruct (decide _); rewrite ?ensureDir_nil; tauto.
    + destruct (decide _); checks; tauto.
Qed.

Lemma sourceConfigAt_nil path src : so_Type src ∈ supportedSourceTypes →
  (sourceConfigAt path src = [] ↔ valid_source src).
Proof.
  intros Ht. unfold sourceConfigAt, valid_source. destruct (decide _) as [Hk|Hk%dec_stable]; [tauto|].
  destruct (so_Kafka src) as [k|]; checks.
  2: { split; [done|]. intros [_ H]. by destruct (H Hk) as (? & ? & _). }
  split.
  - intros (H1 & H2 & H3 & H4). split; [done|]. intros _. exists k. split; [done|]. split; [done|]. split.
    { destruct (decide (kf_Topic k = [])); [|by left]. right. tauto. }
    split; [intros Hp; destruct (decide (kf_GroupID k = [])); tauto|].
    intros w Hw. rewrite Hw, when_nil in H4. unfold duration in *. lia.
  - intros [_ H]. destruct (H Hk) as (k' & [= <-] & Hb & Hto & Hp & Hw). split_and!; [done|tauto|tauto|].
    destruct (kf_Watermark k) as [w|]; [|done]. rewrite when_nil. specialize (Hw w eq_refl). unfold duration in *. lia.
Qed.

Lemma columnsConfig_nil path msg p cols : columnsConfig Quote path msg p cols = [] ↔ Forall (λ c, c ∈ mapped (pg_Mapping p)) cols.
Proof.
  unfold columnsConfig. induction cols as [|c cols IH]; cbn [flat_map]; [by split|].
  rewrite Forall_cons, app_nil_iff, when_nil, IH. destruct (decide (c ∈ mapped (pg_Mapping p))); tauto.
Qed.

Lemma postgresConfig_nil path p : postgresConfig Quote path p = [] ↔ valid_postgres p.
Proof.
  unfold postgresConfig, valid_postgres. checks. rewrite !columnsConfig_nil, Forall_app.
  destruct (decide (pg_Mode p = [] ∨ pg_Mode p = bs "insert")) as [Hm|Hm].
  - rewrite when_nil. destruct (decide (pg_ConflictColumns p = [])), (decide (pg_UpdateColumns p = []));
      destruct Hm as [-> | ->]; split; try tauto; intros (? & ? & ? & [(_ & ? & ?)|[? ?]] & ?); try done; tauto.
  - destruct (decide (pg_Mode p = bs "upsert")); checks; tauto.
Qed.

Lemma sinkConfig_nil path snk : sk_Type snk ∈ supportedSinkTypes → (sinkConfig Quote path snk = [] ↔ valid_sink snk).
Proof.
  intros Ht. unfold sinkConfig, valid_sink.
  assert (∀ P : Prop, (sk_Type snk ∈ supportedSinkTypes ∧ P) ↔ P) as -> by tauto.
  destruct (decide (sk_Type snk = bs "kafka")) as [->|H1].
  { assert (bs "kafka" ≠ bs "txnKafka" ∧ bs "kafka" ≠ bs "postgres") as [? ?] by done.
    destruct (sk_Kafka snk) as [k|]; checks; naive_solver. }
  destruct (decide (sk_Type snk = bs "txnKafka")) as [->|H2].
  { assert (bs "txnKafka" ≠ bs "postgres") by done. destruct (sk_TxnKafka snk) as [k|]; checks; naive_solver. }
  destruct (decide (sk_Type snk = bs "postgres")) as [->|H3]; [|tauto].
  destruct (sk_Postgres snk) as [p|]; [rewrite postgresConfig_nil|rewrite add_nil]; naive_solver.
Qed.

Lemma windowConfig_nil path w : windowConfig Quote path w = [] ↔ valid_window w.
Proof.
  unfold windowConfig, valid_window. rewrite app_nil_iff, when_nil. unfold duration in *.
  assert (bs "tumbling" ≠ bs "sliding" ∧ bs "tumbling" ≠ bs "session" ∧ bs "sliding" ≠ bs "session"
          ∧ bs "tumbling" ≠ [] ∧ bs "sliding" ≠ [] ∧ bs "session" ≠ []) as (N1 & N2 & N3 & N4 & N5 & N6) by done.
  destruct (decide (wc_Type w = [])) as [E|E]; [rewrite E, add_nil; naive_solver|].
  destruct (decide (wc_Type w = bs "tumbling")) as [E1|E1]; [rewrite E1, when_nil; intuition (congruence || lia)|].
  destruct (decide (wc_Type w = bs "sliding")) as [E2|E2]; [rewrite E2; checks; intuition (congruence || lia)|].
  destruct (decide (wc_Type w = bs "session")) as [E3|E3]; [rewrite E3, when_nil; intuition (congruence || lia)|].
  rewrite add_nil. tauto.
Qed.

Lemma joinConfig_nil path j : joinConfig path j = [] ↔ valid_join j.
Proof.
  unfold joinConfig, valid_join. checks. unfold duration in *.
  destruct (decide (jc_LeftSource j = [])), (decide (jc_RightSource j = [])), (decide (jc_LeftSource j = jc_RightSource j));
    split; try tauto; intros H; repeat match type of H with _ ∧ _ => destruct H as [? H] end; split_and!; try tauto; try lia.
Qed.

Lemma reduceConfig_nil path r : reduceConfig Quote path r = [] ↔ valid_reduce r.
Proof.
  unfold reduceConfig, valid_reduce. destruct (decide _); [tauto|].
  destruct (decide _) as [->|]; [rewrite when_nil; naive_solver|]. destruct (decide _); rewrite add_nil; tauto.
Qed.

Lemma operatorConfig_nil path op : op_ID op ≠ [] → op_Type op ∈ supportedOperatorTypes → configBlocks op = [op_Type op] →
  (operatorConfig Quote path op = [] ↔ valid_operator op).
Proof.
  intros Hid Ht Hb. unfold operatorConfig.
  assert (length (configBlocks op) = 1%nat) as Hl by (by rewrite Hb).
  unfold configBlocks in Hl. rewrite !length_app, !block_length in Hl.
  one_block Hl; rewrite ?reduceConfig_nil, ?windowConfig_nil, ?joinConfig_nil; checks;
    rewrite ?length_zero_iff_nil, ?Z.nlt_ge;
    (split; [intros H; constructor; try done; intros; destruct_or?; simplify_eq; (done || tauto)|intros []; eauto 6]).
Qed.

(** The flags of the loop after a prefix of the pipeline. *)
Definition keyBy_seen (pre : list Operator) : bool := bool_decide (Exists (is_type "keyBy") pre).
Definition reduce_open (s : bool) (op : Operator) : bool :=
  if decide (is_type "keyBy" op) then false else if decide (is_type "reduce" op) then true else s.
Definition reduce_seen (pre : list Operator) : bool := foldl reduce_open false pre.

Lemma types_differ op : (is_type "keyBy" op → ¬ is_type "reduce" op ∧ ¬ is_type "window" op)
  ∧ (is_type "reduce" op → ¬ is_type "window" op).
Proof. unfold is_type. split; [intros ->; by split|by intros ->]. Qed.

Lemma reduce_seen_snoc pre op : reduce_seen (pre ++ [op]) = reduce_open (reduce_seen pre) op.
Proof. unfold reduce_seen. by rewrite foldl_app. Qed.

Lemma reduce_seen_open pre : reduce_seen pre = true ↔ open_reduce pre.
Proof.
  induction pre as [|op pre IH] using rev_ind.
  { split; [done|]. intros ([|? ?] & ? & ? & ? & _); done. }
  rewrite reduce_seen_snoc. unfold reduce_open, open_reduce. destruct (types_differ op) as [Hd _].
  destruct (decide (is_type "keyBy" op)) as [Hk|Hk].
  { split; [done|]. intros (l1 & o & l2 & E & Hr & Hf). destruct l2 as [|x l2 _] using rev_ind.
    - apply app_inj_tail in E as [_ ->]. by destruct (Hd Hk).
    - rewrite app_comm_cons, app_assoc in E. apply app_inj_tail in E as [_ ->].
      apply Forall_app in Hf as [_ Hf]. rewrite Forall_singleton in Hf. done. }
  destruct (decide (is_type "reduce" op)) as [Hr|Hr].
  { split; [intros _|done]. exists pre, op, []. done. }
  rewrite IH. split.
  - intros (l1 & o & l2 & -> & Ho & Hf). exists l1, o, (l2 ++ [op]). split; [by rewrite <- app_assoc|]. split; [done|].
    apply Forall_app. split; [done|]. by apply Forall_singleton.
  - intros (l1 & o & l2 & E & Ho & Hf). destruct l2 as [|x l2 _] using rev_ind.
    + apply app_inj_tail in E as [_ ->]. done.
    + rewrite app_comm_cons, app_assoc in E. apply app_inj_tail in E as [-> ->].
      apply Forall_app in Hf as [Hf _]. by exists l1, o, l2.
Qed.

Lemma keyBy_seen_snoc pre op : keyBy_seen (pre ++ [op]) = keyBy_seen pre || bool_decide (is_type "keyBy" op).
Proof.
  unfold keyBy_seen. rewrite <- bool_decide_or. apply bool_decide_ext. rewrite Exists_app, Exists_cons, Exists_nil. tauto.
Qed.

(** The conditions on one operator after a prefix. *)
Definition placed (pre : list Operator) (op : Operator) : Prop :=
  (is_type "reduce" op ∨ is_type "window" op → Exists (is_type "keyBy") pre) ∧ (is_type "window" op → ¬ open_reduce pre).

Lemma pipeline_order_step i pre op ops :
  pipeline_order Quote i (keyBy_seen pre) (reduce_seen pre) (op :: ops) = []
  ↔ placed pre op ∧ pipeline_order Quote (S i) (keyBy_seen (pre ++ [op])) (reduce_seen (pre ++ [op])) ops = [].
Proof.
  cbn [pipeline_order]. rewrite keyBy_seen_snoc, reduce_seen_snoc. unfold placed, reduce_open, is_type.
  rewrite <- reduce_seen_open. destruct (types_differ op) as [H1 H2]. unfold is_type in H1, H2.
  assert (Exists (λ o, op_Type o = bs "keyBy") pre ↔ keyBy_seen pre = true) as Hk
    by (unfold keyBy_seen, is_type; by rewrite bool_decide_eq_true).
  unfold is_type in Hk. rewrite Hk.
  destruct (decide (op_Type op = bs "keyBy")) as [E|E].
  { rewrite bool_decide_true, orb_true_r by done. destruct (H1 E). tauto. }
  rewrite bool_decide_false, orb_false_r by done.
  destruct (decide (op_Type op = bs "reduce")) as [E2|E2].
  { checks. specialize (H2 E2). destruct (keyBy_seen pre); naive_solver. }
  destruct (decide (op_Type op = bs "window")) as [E3|E3]; [|tauto].
  checks. destruct (keyBy_seen pre), (reduce_seen pre); naive_solver.
Qed.

Lemma pipeline_order_nil ops : ∀ i pre,
  pipeline_order Quote i (keyBy_seen pre) (reduce_seen pre) ops = []
  ↔ ∀ l1 op l2, ops = l1 ++ op :: l2 → placed (pre ++ l1) op.
Proof.
  induction ops as [|op ops IH]; intros i pre.
  { split; [|done]. intros _ [|? ?] ? ?; done. }
  rewrite pipeline_order_step, IH. split.
  - intros [H1 H2] [|o l1] op' l2 [= -> E]; [by rewrite app_nil_r|].
    rewrite cons_middle, app_assoc. by apply (H2 _ _ l2).
  - intros H. split; [by rewrite <- (app_nil_r pre); apply (H [] op ops)|].
    intros l1 op' l2 ->. rewrite <- app_assoc. by apply (H (op :: l1) op' l2).
Qed.

Lemma pipeline_nil wf : pipeline Quote wf = []
  ↔ (wf_Sources wf ≠ [] → ∃ j, head (wf_Pipeline wf) ≫= op_Join = Some j
       ∧ jc_LeftSource j ∈ ns_Name <$> wf_Sources wf ∧ jc_RightSource j ∈ ns_Name <$> wf_Sources wf)
    ∧ ordered (wf_Pipeline wf).
Proof.
  unfold pipeline. rewrite app_nil_iff. apply and_iff; [|apply (pipeline_order_nil (wf_Pipeline wf) 0 [])].
  destruct (decide (wf_Sources wf = [])) as [E|E]; [tauto|].
  destruct (head (wf_Pipeline wf) ≫= op_Join) as [j|]; checks; [|naive_solver].
  destruct (decide (jc_LeftSource j ∈ ns_Name <$> wf_Sources wf)), (decide (jc_RightSource j ∈ ns_Name <$> wf_Sources wf)); naive_solver.
Qed.

Lemma validateDelivery_nil wf : validateDelivery wf = []
  ↔ (source_eo wf = true ∨ sk_Type (wf_Sink wf) = bs "txnKafka" →
     source_eo wf = true ∧ sk_Type (wf_Sink wf) = bs "txnKafka" ∧ checkpoints_on wf = true).
Proof.
  unfold validateDelivery. destruct (source_eo wf), (bool_decide (sk_Type (wf_Sink wf) = bs "txnKafka")) eqn:Et,
    (checkpoints_on wf); (apply bool_decide_eq_true in Et || apply bool_decide_eq_false in Et); cbn; checks; naive_solver.
Qed.

Lemma structural_nil wf : structural Quote wf = []
  ↔ wf_Version wf ∈ supportedVersions ∧ nameRe (wf_Name wf) = true
    ∧ ((wf_Sources wf = [] ∧ so_Type (wf_Source wf) ∈ supportedSourceTypes) ∨ (wf_Sources wf ≠ [] ∧ so_Type (wf_Source wf) = []))
    ∧ (Forall (λ s, nameRe (ns_Name s) = true ∧ so_Type (ns_Source s) ∈ supportedSourceTypes) (wf_Sources wf)
       ∧ NoDup (ns_Name <$> wf_Sources wf))
    ∧ sk_Type (wf_Sink wf) ∈ supportedSinkTypes
    ∧ Forall (λ o, op_ID o ≠ [] ∧ op_Type o ∈ supportedOperatorTypes ∧ configBlocks o = [op_Type o]) (wf_Pipeline wf)
    ∧ NoDup (op_ID <$> wf_Pipeline wf).
Proof.
  unfold structural. rewrite !app_nil_iff, structural_sources_nil, structural_ops_nil, when_nil.
  assert (∀ (ts : list bytes) t, t ∈ ts → [] ∉ ts → t ≠ []) as Hne by (intros ts t ? ? ->; done).
  assert (∀ (A : Type) (key : A → bytes) (l : list A), Forall (λ o, (∅ : gmap bytes nat) !! key o = None) l) as Hem
    by (intros A key l; by apply Forall_true).
  pose proof (Hem _ ns_Name (wf_Sources wf)) as F1. pose proof (Hem _ op_ID (wf_Pipeline wf)) as F2.
  apply and_iff; [destruct (decide (wf_Version wf ∈ supportedVersions)); tauto|].
  apply and_iff.
  { destruct (decide (wf_Name wf = [])) as [->|]; [done|]. rewrite when_nil. by destruct (nameRe (wf_Name wf)). }
  apply and_iff2.
  { assert (so_Type (wf_Source wf) ∈ supportedSourceTypes → so_Type (wf_Source wf) ≠ []) as N1.
    { intros H. apply (Hne _ _ H). by apply (bool_decide_eq_false_1 _). }
    pose proof (dec_em (so_Type (wf_Source wf) = [])). pose proof (dec_em (wf_Sources wf = [])).
    pose proof (dec_em (so_Type (wf_Source wf) ∈ supportedSourceTypes)). destruct (decide _); checks; tauto. }
  apply and_iff; [tauto|]. apply and_iff; [|tauto].
  destruct (decide (sk_Type (wf_Sink wf) = [])) as [->|]; [|rewrite when_nil; destruct (decide (sk_Type (wf_Sink wf) ∈ supportedSinkTypes)); tauto].
  split; [done|]. intros H. by apply (bool_decide_eq_true_2 _) in H.
Qed.

Lemma configuration_nil wf :
  Forall (λ s, so_Type (ns_Source s) ∈ supportedSourceTypes) (wf_Sources wf) →
  (so_Type (wf_Source wf) ≠ [] → so_Type (wf_Source wf) ∈ supportedSourceTypes) →
  sk_Type (wf_Sink wf) ∈ supportedSinkTypes →
  Forall (λ o, op_ID o ≠ [] ∧ op_Type o ∈ supportedOperatorTypes ∧ configBlocks o = [op_Type o]) (wf_Pipeline wf) →
  (configuration Quote mkdirAll wf = []
   ↔ (∀ e, wf_Env wf = Some e → valid_env mkdirAll e) ∧ (so_Type (wf_Source wf) ≠ [] → valid_source (wf_Source wf))
     ∧ Forall (λ s, valid_source (ns_Source s)) (wf_Sources wf) ∧ valid_sink (wf_Sink wf) ∧ Forall valid_operator (wf_Pipeline wf)).
Proof.
  intros H1 H2 H3 H4. unfold configuration. rewrite !app_nil_iff, !concat_imap_nil, envConfig_nil, sinkConfig_nil by done.
  apply and_iff; [done|]. apply and_iff.
  { destruct (decide _) as [|Ht]; [tauto|]. rewrite sourceConfigAt_nil by auto. tauto. }
  apply and_iff; [|apply and_iff; [done|]].
  - rewrite Forall_lookup in *. apply forall_proper; intros i. apply forall_proper; intros s.
    split; intros H Hs; [rewrite <- sourceConfigAt_nil by (by apply (H1 i))|rewrite sourceConfigAt_nil by (by apply (H1 i))]; by apply H.
  - rewrite Forall_lookup in *. apply forall_proper; intros i. apply forall_proper; intros o.
    split; intros H Ho; destruct (H4 i o Ho) as (? & ? & ?);
      [rewrite <- operatorConfig_nil by done|rewrite operatorConfig_nil by done]; by apply H.
Qed.

Lemma Validate_nil wf : Validate Quote mkdirAll wf = [] ↔ valid_workflow mkdirAll wf.
Proof.
  unfold Validate. rewrite !app_nil_iff, structural_nil, pipeline_nil, validateDelivery_nil. split.
  - intros ((V & N & S & [SS SN] & K & O & I) & C & [M Or] & D).
    apply configuration_nil in C as (CE & CS & CSS & CK & CO); [|by eapply Forall_impl; [done|]; intros ? [_ ?]|naive_solver|done..].
    split; try done.
    + destruct S as [[E Ht]|[E Ht]]; [left|by right]. split; [done|]. apply CS. intros E'. rewrite E' in Ht.
      by apply (bool_decide_eq_true_2 _) in Ht.
    + rewrite Forall_forall in *. intros s Hs. split; [by apply SS|by apply CSS].
  - intros [V N E S SS SN M K O I Or D].
    assert (Forall (λ s, so_Type (ns_Source s) ∈ supportedSourceTypes) (wf_Sources wf)) as F1
      by (eapply Forall_impl; [done|]; by intros ? [_ [? _]]).
    assert (Forall (λ o, op_ID o ≠ [] ∧ op_Type o ∈ supportedOperatorTypes ∧ configBlocks o = [op_Type o]) (wf_Pipeline wf)) as F2
      by (eapply Forall_impl; [done|]; by intros ? []).
    split_and!; try done.
    + destruct S as [[? [? _]]|?]; [left|right]; done.
    + rewrite Forall_forall in *. intros s Hs. split; [by apply SS|by apply F1].
    + apply K.
    + apply configuration_nil; [done| |apply K|done|].
      { destruct S as [[_ [? _]]|[_ ?]]; [done|done]. }
      split_and!; try done.
      * destruct S as [[_ ?]|[_ ?]]; [done|done].
      * rewrite Forall_forall in *. intros s Hs. by apply SS.
Qed.
End exact.

