(* ===== verification/WorkflowCompile.v ===== *)
(** * The workflow compiler ([src/workflow/compiler], [src/stream.go])

    A validated document becomes an execution environment: its secrets are
    resolved, the runtime settings applied, sources and sink constructed and the
    operators appended to the stream in order.  Operators are descriptions of
    the calls on [Stream]; the constructors of connectors are as in their
    packages, with the file system and key parsing as parameters.  Text
    comparisons fold case as ASCII does; error texts leave out the quoted
    value of the setting they name.  A [None] setting of [StreamEnv] is the
    default of [NewEnv]. *)

From S2P Require Import Prelude Record Window Rfc3339 Decimal Planner TxnSink Workflow.
From Stdlib Require Import Strings.Byte.

(** ** Secrets ([resolve.go]) *)

Definition is_ident_start (b : byte) : bool :=
  let z := Z_of_byte b in ((65 <=? z) && (z <=? 90)) || ((97 <=? z) && (z <=? 122)) || (z =? 95).
Definition is_ident (b : byte) : bool := is_ident_start b || ((48 <=? Z_of_byte b) && (Z_of_byte b <=? 57)).

Fixpoint span (p : byte → bool) (s : bytes) : bytes * bytes :=
  match s with
  | b :: s' => if p b then let '(l, r) := span p s' in (b :: l, r) else ([], s)
  | [] => ([], [])
  end.

Definition ref_open : bytes := [x24; x7b].
(** A match of [secretRefRe] at the start of the text: the name. *)
Definition match_ref (s : bytes) : option bytes :=
  match s with
  | c :: d :: t =>
      if bool_decide ([c; d] = ref_open) then
        match span is_ident t with
        | (b :: name, e :: _) => if is_ident_start b && bool_decide (e = x7d) then Some (b :: name) else None
        | _ => None
        end
      else None
  | _ => None
  end.

Section secrets.
Context (resolve : bytes → option bytes).

(** [ReplaceAllStringFunc]; [skip] bytes belong to the last match. *)
Fixpoint replace_refs (field : bytes) (skip : nat) (s : bytes) : result bytes :=
  match s with
  | [] => Ok []
  | c :: s' =>
      match skip with
      | S k => replace_refs field k s'
      | O =>
          match match_ref s with
          | Some name =>
              match resolve name with
              | None => Err (field ++ bs ": secret " ++ name ++ bs " could not be resolved")
              | Some v => r <-? replace_refs field (length name + 2) s' ;; Ok (v ++ r)
              end
          | None => r <-? replace_refs field 0 s' ;; Ok (c :: r)
          end
      end
  end.

(** [resolveOne] *)
Definition resolveOne (field value : bytes) : result bytes :=
  if negb (bytes_contains value ref_open) then Ok value
  else
    out <-? replace_refs field 0 value ;;
    if bytes_contains out ref_open then Err (field ++ bs ": invalid secret reference syntax") else Ok out.

(** [resolveSASL] *)
Definition resolveSASL (s : SASLSpec) : result SASLSpec :=
  u <-? resolveOne (bs "username") (sa_Username s) ;;
  p <-? resolveOne (bs "password") (sa_Password s) ;;
  Ok (mkSASLSpec (sa_Mechanism s) u p).

Definition resolveSASLOpt (s : option SASLSpec) : result (option SASLSpec) :=
  match s with None => Ok None | Some s => s <-? resolveSASL s ;; Ok (Some s) end.

(** [resolveSourceSecrets] *)
Definition resolveSourceSecrets (src : SourceSpec) : result SourceSpec :=
  match so_Kafka src with
  | None => Ok src
  | Some k =>
      sasl <-? resolveSASLOpt (kf_SASL k) ;;
      Ok (mkSourceSpec (so_Type src)
            (Some (mkKafkaSourceSpec (kf_Brokers k) (kf_Topic k) (kf_Topics k) (kf_GroupID k) (kf_StartFrom k) (kf_ExactlyOnce k)
                     (kf_Parallel k) (kf_Watermark k) (kf_Deserialize k) (kf_CommitBatch k) (kf_FetchMinBytes k)
                     (kf_FetchMaxBytes k) sasl (kf_TLS k)))
            (so_File src) (so_Records src))
  end.

Fixpoint resolveSources (srcs : list NamedSourceSpec) : result (list NamedSourceSpec) :=
  match srcs with
  | [] => Ok []
  | s :: srcs =>
      src <-? resolveSourceSecrets (ns_Source s) ;;
      rest <-? resolveSources srcs ;;
      Ok (mkNamedSource (ns_Name s) src :: rest)
  end.

Definition resolveKafkaSink (k : KafkaSinkSpec) : result KafkaSinkSpec :=
  sasl <-? resolveSASLOpt (ks_SASL k) ;;
  Ok (mkKafkaSinkSpec (ks_Brokers k) (ks_Topic k) (ks_BatchSize k) (ks_BatchTimeout k) (ks_Acks k) (ks_Async k) (ks_Serialize k)
        (ks_MaxRetries k) (ks_OnError k) sasl (ks_TLS k)).
Definition resolveTxnSink (k : TxnKafkaSinkSpec) : result TxnKafkaSinkSpec :=
  sasl <-? resolveSASLOpt (tk_SASL k) ;;
  Ok (mkTxnKafkaSinkSpec (tk_Brokers k) (tk_Topic k) (tk_TransactionalID k) (tk_MarkerTopic k) (tk_Serialize k) sasl (tk_TLS k)).
Definition resolvePostgres (p : PostgresSinkSpec) : result PostgresSinkSpec :=
  dsn <-? resolveOne (bs "dsn") (pg_DSN p) ;;
  Ok (mkPostgresSinkSpec dsn (pg_Table p) (pg_Mapping p) (pg_Mode p) (pg_ConflictColumns p) (pg_UpdateColumns p) (pg_BatchSize p)
        (pg_FlushInterval p) (pg_MaxRetries p) (pg_OnError p)).

Definition on_some {A} (f : A → result A) (o : option A) : result (option A) :=
  match o with None => Ok None | Some a => b <-? f a ;; Ok (Some b) end.

(** The sink part of [resolveSecrets] *)
Definition resolveSinkSecrets (snk : SinkSpec) : result SinkSpec :=
  if decide (sk_Type snk = bs "kafka") then
    k <-? on_some resolveKafkaSink (sk_Kafka snk) ;;
    Ok (mkSinkSpec (sk_Type snk) k (sk_TxnKafka snk) (sk_Postgres snk) (sk_File snk))
  else if decide (sk_Type snk = bs "txnKafka" ∨ sk_Type snk = bs "transactional_kafka") then
    k <-? on_some resolveTxnSink (sk_TxnKafka snk) ;;
    Ok (mkSinkSpec (sk_Type snk) (sk_Kafka snk) k (sk_Postgres snk) (sk_File snk))
  else if decide (sk_Type snk = bs "postgres") then
    p <-? on_some resolvePostgres (sk_Postgres snk) ;;
    Ok (mkSinkSpec (sk_Type snk) (sk_Kafka snk) (sk_TxnKafka snk) p (sk_File snk))
  else Ok snk.

(** [resolveSecrets] *)
Definition resolveSecrets (wf : Workflow) : result Workflow :=
  src <-? resolveSourceSecrets (wf_Source wf) ;;
  srcs <-? resolveSources (wf_Sources wf) ;;
  snk <-? resolveSinkSecrets (wf_Sink wf) ;;
  Ok (mkWorkflow (wf_Name wf) (wf_Version wf) (wf_Env wf) src srcs (wf_Pipeline wf) snk).
End secrets.

(** ** The stream ([src/stream.go]) *)

(** The function of a map operator. *)
Inductive map_fn :=
| FnSelect (fields : list bytes)
| FnRename (renames : list RenameSpec)
| FnSet (sets : list SetSpec)
| FnMapRef (f : Record_ → Record_).

Inductive reduce_fn := FnCount | FnSum (field : bytes).
Inductive assigner := ATumbling (t : Tumbling) | ASliding (s : Sliding) | ASession (s : Session).

(** The operators that the methods of [Stream] append. *)
Inductive sop :=
| SMap (fn : map_fn) (label : bytes) (par : Z)
| SFilter (cfg : FilterConfig) (label : bytes) (par : Z)
| SFlatMap (f : Record_ → list Record_) (label : bytes) (par : Z)
| SProcess (f : Record_ → result Record_) (label : bytes) (par : Z)
| SKeyBy (field : bytes) (label : bytes) (partitions : Z)
| SReduce (fn : reduce_fn) (label : bytes)
| SWindow (a : assigner) (idle lateness : duration) (label : bytes)
| SJoin (left right : bytes) (before after : duration) (label : bytes).

(** Sources and sinks, by the settings they are constructed with. *)
Inductive kafka_option :=
| KBrokers (b : list bytes) | KGroupID (g : bytes) | KTopic (t : bytes) | KTopics (t : list bytes)
| KStartEarliest | KStartLatest | KDeserializeJSON | KExactlyOnce | KCommitBatch (n : Z) | KFetchBytes (a b : Z)
| KWatermarks (d : duration) | KWatermarkInterval (d : duration) | KSASL (s : SASLConfig) | KTLS (t : TLSConfig).
Inductive source_obj :=
| SrcKafka (opts : list kafka_option)
| SrcSlice (recs : list Record_)
| SrcGenerator (recs : list Record_)
| SrcFile (path name : bytes) (maxLine : Z) (json : bool).

Inductive acks := AcksLeader | AcksNone | AcksAll.
Inductive failure_policy := PolicyDrop | PolicyFail.
Inductive ksink_option :=
| KSBatchSize (n : Z) | KSBatchTimeout (d : duration) | KSAcks (a : acks) | KSAsync | KSSerializeJSON | KSMaxRetries (n : Z)
| KSPolicy (p : failure_policy) | KSSASL (s : SASLConfig) | KSTLS (t : TLSConfig).
Inductive sink_obj :=
| SinkKafka (brokers : list bytes) (topic : bytes) (opts : list ksink_option)
| SinkTxn (cfg : txnKafkaConfig)
| SinkPostgres (p : PostgresSinkSpec) (upsert : bool) (columns : list (bytes * bytes)) (policy : failure_policy)
| SinkStdout | SinkBlackhole
| SinkFile (path : bytes) (append json : bool).

(** [nativeJoin] *)
Record nativeJoin := mkNativeJoin {
  nj_leftName : bytes; nj_left : source_obj; nj_rightName : bytes; nj_right : source_obj;
  nj_before : duration; nj_after : duration; nj_label : bytes
}.

(** The fields of [StreamExecutionEnv] that the compiler sets. *)
Record StreamEnv := mkStreamEnv {
  se_buffer : option Z;
  se_shutdown : option duration;
  se_checkpoints : option (duration * bytes * Z);
  se_state : option (option bytes);
  se_source : option source_obj;
  se_join : option nativeJoin;
  se_operators : list sop;
  se_sink : option sink_obj
}.

Definition NewEnv : StreamEnv := mkStreamEnv None None None None None None [] None.
(** Values below 1 are ignored. *)
Definition WithBufferSize (e : StreamEnv) (n : Z) : StreamEnv :=
  mkStreamEnv (if 0 <? n then Some n else se_buffer e) (se_shutdown e) (se_checkpoints e) (se_state e) (se_source e) (se_join e) (se_operators e) (se_sink e).
Definition WithShutdownTimeout (e : StreamEnv) (d : duration) : StreamEnv :=
  mkStreamEnv (se_buffer e) (Some d) (se_checkpoints e) (se_state e) (se_source e) (se_join e) (se_operators e) (se_sink e).
Definition WithCheckpointing (e : StreamEnv) (interval : duration) (dir : bytes) (retain : Z) : StreamEnv :=
  mkStreamEnv (se_buffer e) (se_shutdown e) (Some (interval, dir, retain)) (se_state e) (se_source e) (se_join e) (se_operators e) (se_sink e).
Definition WithStateBackend (e : StreamEnv) (pebble : option bytes) : StreamEnv :=
  mkStreamEnv (se_buffer e) (se_shutdown e) (se_checkpoints e) (Some pebble) (se_source e) (se_join e) (se_operators e) (se_sink e).
Definition FromSource (e : StreamEnv) (s : source_obj) : StreamEnv :=
  mkStreamEnv (se_buffer e) (se_shutdown e) (se_checkpoints e) (se_state e) (Some s) (se_join e) (se_operators e) (se_sink e).
Definition JoinSources (e : StreamEnv) (ln : bytes) (l : source_obj) (rn : bytes) (r : source_obj) (before after : duration) (label : bytes)
    : StreamEnv :=
  mkStreamEnv (se_buffer e) (se_shutdown e) (se_checkpoints e) (se_state e) (se_source e)
    (Some (mkNativeJoin ln l rn r (Z.max 0 before) (Z.max 0 after) label)) (se_operators e) (se_sink e).
Definition JoinSourcesWithin (e : StreamEnv) ln l rn r (d : duration) label : StreamEnv := JoinSources e ln l rn r d d label.
Definition set_operators (e : StreamEnv) (ops : list sop) : StreamEnv :=
  mkStreamEnv (se_buffer e) (se_shutdown e) (se_checkpoints e) (se_state e) (se_source e) (se_join e) ops (se_sink e).
Definition ToSink (e : StreamEnv) (s : sink_obj) : StreamEnv :=
  mkStreamEnv (se_buffer e) (se_shutdown e) (se_checkpoints e) (se_state e) (se_source e) (se_join e) (se_operators e) (Some s).

(** The methods of [Stream]: each appends one operator. *)
Definition append_op (e : StreamEnv) (o : sop) : StreamEnv := set_operators e (se_operators e ++ [o]).
Definition Stream_Map (e : StreamEnv) (fn : map_fn) (label : bytes) : StreamEnv := append_op e (SMap fn label 0).
Definition Stream_Filter (e : StreamEnv) (cfg : FilterConfig) (label : bytes) : StreamEnv := append_op e (SFilter cfg label 0).
Definition Stream_FlatMap (e : StreamEnv) (f : Record_ → list Record_) (label : bytes) : StreamEnv := append_op e (SFlatMap f label 0).
Definition Stream_Process (e : StreamEnv) (f : Record_ → result Record_) (label : bytes) : StreamEnv := append_op e (SProcess f label 0).
Definition Stream_KeyBy (e : StreamEnv) (field label : bytes) : StreamEnv := append_op e (SKeyBy field label 16).
Definition Stream_Reduce (e : StreamEnv) (fn : reduce_fn) (label : bytes) : StreamEnv := append_op e (SReduce fn label).
Definition WindowWithOptions (e : StreamEnv) (a : assigner) (idle lateness : duration) (label : bytes) : StreamEnv :=
  append_op e (SWindow a (Z.max 0 idle) (Z.max 0 lateness) label).
Definition Stream_IntervalJoin (e : StreamEnv) (l r : bytes) (before after : duration) (label : bytes) : StreamEnv :=
  append_op e (SJoin l r (Z.max 0 before) (Z.max 0 after) label).
Definition Stream_JoinWithin (e : StreamEnv) (l r : bytes) (d : duration) (label : bytes) : StreamEnv := Stream_IntervalJoin e l r d d label.

(** Change the operator appended last. *)
Definition update_last (f : sop → sop) (e : StreamEnv) : StreamEnv :=
  match last (se_operators e) with
  | None => e
  | Some o => set_operators e (removelast (se_operators e) ++ [f o])
  end.
(** [WithPartitions], [WithParallelism]: no effect on an operator of another kind. *)
Definition WithPartitions (e : StreamEnv) (n : Z) : StreamEnv :=
  update_last (λ o, match o with SKeyBy f l _ => SKeyBy f l n | o => o end) e.
Definition WithParallelism (e : StreamEnv) (n : Z) : StreamEnv :=
  update_last (λ o, match o with
                    | SMap f l _ => SMap f l n | SFilter f l _ => SFilter f l n
                    | SFlatMap f l _ => SFlatMap f l n | SProcess f l _ => SProcess f l n
                    | o => o
                    end) e.

(** ** Sources ([source.go]) *)

Section compiler.
Context (scram : bool → bytes → bytes → result bytes) (buildTLS : TLSConfig → result (option tls_config)).
Context (mkdirAll : bytes → option bytes) (openStorage : bytes → Z → option bytes) (Join : list bytes → bytes).
Context (jsonSerializer : Serializer).

Definition compile_err {A} (msg : string) : result A := Err (bs "compiler: " ++ bs msg).

(** [compileDeserializer], [compileSerializer]: whether the format is JSON. *)
Definition compileDeserializer (format : bytes) : result bool :=
  if decide (to_lower format = []) then Ok false
  else if decide (to_lower format = bs "json") then Ok true
  else compile_err "unknown deserialize format".
Definition compileSerializer (format : bytes) : result bool :=
  if decide (to_lower format = []) then Ok false
  else if decide (to_lower format = bs "json") then Ok true
  else compile_err "unknown serialize format".

(** [compileSASL] *)
Definition compileSASL (s : SASLSpec) : result SASLConfig :=
  if bytes_contains (sa_Username s) ref_open then compile_err "SASL username contains an unresolved secret reference"
  else if bytes_contains (sa_Password s) ref_open then compile_err "SASL password contains an unresolved secret reference"
  else
    let m := to_upper (trim_space (sa_Mechanism s)) in
    if decide (m = bs "PLAIN") then Ok (mkSASL SASLPlain (sa_Username s) (sa_Password s))
    else if decide (m = bs "SCRAM-SHA-256") then Ok (mkSASL SASLScramSHA256 (sa_Username s) (sa_Password s))
    else if decide (m = bs "SCRAM-SHA-512") then Ok (mkSASL SASLScramSHA512 (sa_Username s) (sa_Password s))
    else compile_err "unsupported SASL mechanism".

(** [compileTLS] *)
Definition compileTLS (t : TLSSpec) : TLSConfig := mkTLS (tl_CertFile t) (tl_KeyFile t) (tl_CAFile t) (tl_InsecureSkipVerify t).

(** [compileRecords]; the records have the zero time. *)
Definition compileRecords (recs : list RecordSpec) : list Record_ :=
  (λ r, mkRecord (rc_Key r) (rc_Value r) zeroTime 0 0 (rc_Source r) ∅ false false []) <$> recs.

Definition opt_when {A} (c : bool) (a : A) : list A := if c then [a] else [].

(** [compileFileSource] *)
Definition compileFileSource (f : option FileSourceSpec) : result source_obj :=
  match f with
  | None => compile_err "file source configuration is required"
  | Some f =>
      if decide (fs_Path f = []) then compile_err "file source requires a path"
      else
        des <-? compileDeserializer (fs_Deserialize f) ;;
        Ok (SrcFile (fs_Path f) (if decide (fs_Source f = []) then fs_Path f else fs_Source f)
              (if 0 <? fs_MaxLineBytes f then fs_MaxLineBytes f else 1024 * 1024) des)
  end.

(** The start position of [compileKafkaSource] *)
Definition compileStartFrom (s : bytes) : result kafka_option :=
  if decide (to_lower s = [] ∨ to_lower s = bs "earliest") then Ok KStartEarliest
  else if decide (to_lower s = bs "latest") then Ok KStartLatest
  else compile_err "unknown startFrom (earliest or latest)".

Definition compileWatermark (w : option WatermarkSpec) : result (list kafka_option) :=
  match w with
  | None => Ok []
  | Some w =>
      if ws_MaxOutOfOrderness w <=? 0 then compile_err "watermark maxOutOfOrderness must be greater than zero"
      else Ok (KWatermarks (ws_MaxOutOfOrderness w) :: opt_when (0 <? ws_Interval w) (KWatermarkInterval (ws_Interval w)))
  end.

Definition compileSASLOpt {A} (c : SASLConfig → A) (s : option SASLSpec) : result (list A) :=
  match s with None => Ok [] | Some s => cfg <-? compileSASL s ;; Ok [c cfg] end.
Definition compileTLSOpt {A} (c : TLSConfig → A) (t : option TLSSpec) : list A :=
  match t with None => [] | Some t => [c (compileTLS t)] end.

(** [compileKafkaSource]; [NewKafkaSource] accepts what passed the checks. *)
Definition compileKafkaSource (k : option KafkaSourceSpec) : result source_obj :=
  match k with
  | None => compile_err "kafka source configuration is required"
  | Some k =>
      if decide (kf_Brokers k = []) then compile_err "kafka source requires at least one broker"
      else if decide (kf_Topic k = [] ∧ kf_Topics k = []) then compile_err "kafka source requires a topic or topics"
      else if kf_Parallel k then compile_err "parallel kafka sources are not supported declaratively"
      else if decide (kf_GroupID k = []) then compile_err "kafka source requires a groupID (consumer-group mode)"
      else
        start <-? compileStartFrom (kf_StartFrom k) ;;
        des <-? compileDeserializer (kf_Deserialize k) ;;
        wm <-? compileWatermark (kf_Watermark k) ;;
        sasl <-? compileSASLOpt KSASL (kf_SASL k) ;;
        Ok (SrcKafka ([KBrokers (kf_Brokers k); KGroupID (kf_GroupID k)]
              ++ opt_when (bool_decide (kf_Topic k ≠ [])) (KTopic (kf_Topic k))
              ++ opt_when (bool_decide (kf_Topics k ≠ [])) (KTopics (kf_Topics k))
              ++ [start] ++ opt_when des KDeserializeJSON ++ opt_when (kf_ExactlyOnce k) KExactlyOnce
              ++ opt_when (0 <? kf_CommitBatch k) (KCommitBatch (kf_CommitBatch k))
              ++ opt_when ((0 <? kf_FetchMinBytes k) || (0 <? kf_FetchMaxBytes k)) (KFetchBytes (kf_FetchMinBytes k) (kf_FetchMaxBytes k))
              ++ wm ++ sasl ++ compileTLSOpt KTLS (kf_TLS k)))
  end.

(** [CompileSource] *)
Definition CompileSource (spec : SourceSpec) : result source_obj :=
  if decide (so_Type spec = []) then compile_err "source type is required"
  else if decide (so_Type spec = bs "kafka") then compileKafkaSource (so_Kafka spec)
  else if decide (so_Type spec = bs "slice") then Ok (SrcSlice (compileRecords (so_Records spec)))
  else if decide (so_Type spec = bs "generator") then Ok (SrcGenerator (compileRecords (so_Records spec)))
  else if decide (so_Type spec = bs "file") then compileFileSource (so_File spec)
  else compile_err "unsupported source type".

(** ** Sinks ([sink.go]) *)

(** [columnRe] and [tableRe] *)
Definition columnRe (s : bytes) : bool :=
  match s with [] => false | b :: s => is_ident_start b && forallb is_ident s end.
Definition tableRe (s : bytes) : bool :=
  match span is_ident s with
  | (t, []) => columnRe t
  | (t, d :: c) => columnRe t && bool_decide (d = x2e) && columnRe c
  end.

(** [compileAcks], [compileFailurePolicy], [compilePostgresMode] *)
Definition compileAcks (a : bytes) : result acks :=
  let a := to_lower a in
  if decide (a = [] ∨ a = bs "leader" ∨ a = bs "one") then Ok AcksLeader
  else if decide (a = bs "none") then Ok AcksNone
  else if decide (a = bs "all") then Ok AcksAll
  else compile_err "unknown requiredAcks (none, leader, all)".
Definition compileFailurePolicy (p : bytes) : result failure_policy :=
  let p := to_lower p in
  if decide (p = [] ∨ p = bs "drop") then Ok PolicyDrop
  else if decide (p = bs "fail") then Ok PolicyFail
  else compile_err "unknown onError (drop or fail)".
Definition compilePostgresMode (m : bytes) : result bool :=
  if decide (m = [] ∨ m = bs "insert") then Ok false
  else if decide (m = bs "upsert") then Ok true
  else compile_err "unsupported postgres mode (insert or upsert)".

(** [buildTransportE] *)
Definition buildTransport (sasl : option SASLConfig) (tls : option TLSConfig) : result unit :=
  _ <-? match sasl with None => Ok () | Some s => _ <-? BuildSASLMechanism scram s ;; Ok () end ;;
  match tls with None => Ok () | Some t => _ <-? buildTLS t ;; Ok () end.

(** [compileKafkaSink] with [NewKafkaSinkE] *)
Definition compileKafkaSink (k : option KafkaSinkSpec) : result sink_obj :=
  match k with
  | None => compile_err "kafka sink configuration is required"
  | Some k =>
      if decide (ks_Brokers k = []) then compile_err "kafka sink requires at least one broker"
      else if decide (ks_Topic k = []) then compile_err "kafka sink requires a topic"
      else
        a <-? compileAcks (ks_Acks k) ;;
        ser <-? compileSerializer (ks_Serialize k) ;;
        pol <-? compileFailurePolicy (ks_OnError k) ;;
        sasl <-? match ks_SASL k with None => Ok None | Some s => c <-? compileSASL s ;; Ok (Some c) end ;;
        let tls := compileTLS <$> ks_TLS k in
        _ <-? buildTransport sasl tls ;;
        Ok (SinkKafka (ks_Brokers k) (ks_Topic k)
              (opt_when (0 <? ks_BatchSize k) (KSBatchSize (ks_BatchSize k))
               ++ opt_when (0 <? ks_BatchTimeout k) (KSBatchTimeout (ks_BatchTimeout k))
               ++ opt_when (bool_decide (ks_Acks k ≠ [])) (KSAcks a) ++ opt_when (ks_Async k) KSAsync ++ opt_when ser KSSerializeJSON
               ++ opt_when (0 <? ks_MaxRetries k) (KSMaxRetries (ks_MaxRetries k)) ++ [KSPolicy pol]
               ++ match sasl with None => [] | Some c => [KSSASL c] end ++ match tls with None => [] | Some t => [KSTLS t] end))
  end.

(** [compileTxnKafkaSink] *)
Definition compileTxnKafkaSink (t : option TxnKafkaSinkSpec) : result sink_obj :=
  match t with
  | None => compile_err "transactional kafka sink configuration is required"
  | Some t =>
      if decide (tk_Brokers t = []) then compile_err "transactional kafka sink requires at least one broker"
      else if decide (tk_Topic t = []) then compile_err "transactional kafka sink requires a topic"
      else if decide (tk_TransactionalID t = []) then compile_err "transactional kafka sink requires a transactionalID"
      else
        ser <-? compileSerializer (tk_Serialize t) ;;
        sasl <-? compileSASLOpt TxnKafkaSASL (tk_SASL t) ;;
        cfg <-? NewTxnKafkaSink buildTLS
          ([TxnKafkaBrokers (tk_Brokers t); TxnKafkaTopic (tk_Topic t); TxnKafkaTransactionalID (tk_TransactionalID t)]
           ++ opt_when (bool_decide (tk_MarkerTopic t ≠ [])) (TxnKafkaMarkerTopic (tk_MarkerTopic t))
           ++ opt_when ser (TxnKafkaSerialize jsonSerializer) ++ sasl ++ compileTLSOpt TxnKafkaTLS (tk_TLS t)) ;;
        Ok (SinkTxn cfg)
  end.

(** [validateColumnList], [validatePostgresUpsertColumns] *)
Definition validateColumnList (cols : list bytes) : result unit :=
  if forallb columnRe cols then Ok () else compile_err "unsafe postgres column".
Definition validatePostgresUpsertColumns (p : PostgresSinkSpec) : result unit :=
  if forallb (λ c, bool_decide (c ∈ mapped (pg_Mapping p))) (pg_ConflictColumns p ++ pg_UpdateColumns p) then Ok ()
  else compile_err "postgres column is not present in mapping".

(** [BuildPostgresMapper]: the fields with their columns, in the order of the columns. *)
Definition col_le (a b : bytes * bytes) : Prop := ¬ bytes_lt b.2 a.2.
#[local] Instance col_le_dec : RelDecision col_le.
Proof. intros a b. unfold col_le. apply _. Defined.
Definition BuildPostgresMapper (table : bytes) (mapping : gmap bytes bytes) : result (list (bytes * bytes)) :=
  if negb (tableRe table) then compile_err "unsafe postgres table name"
  else
    let pairs := map_to_list mapping in
    if forallb (λ fc, bool_decide (fc.1 ≠ []) && columnRe fc.2) pairs then Ok (merge_sort col_le pairs)
    else compile_err "unsafe postgres column name".

(** [compilePostgresSink] with [NewPostgresSinkE] *)
Definition compilePostgresSink (p : option PostgresSinkSpec) : result sink_obj :=
  match p with
  | None => compile_err "postgres sink configuration is required"
  | Some p =>
      if decide (pg_DSN p = []) then compile_err "postgres sink requires a dsn"
      else if bytes_contains (pg_DSN p) ref_open then compile_err "postgres sink dsn contains an unresolved secret reference"
      else if decide (pg_Table p = []) then compile_err "postgres sink requires a table"
      else if negb (tableRe (pg_Table p)) then compile_err "unsafe postgres table name"
      else if decide (pg_Mapping p = ∅) then compile_err "postgres sink requires a non-empty mapping"
      else
        mode <-? compilePostgresMode (pg_Mode p) ;;
        _ <-? validateColumnList (pg_ConflictColumns p) ;;
        _ <-? validateColumnList (pg_UpdateColumns p) ;;
        if mode && bool_decide (pg_ConflictColumns p = []) then compile_err "postgres upsert requires at least one conflict column"
        else if negb mode && (bool_decide (pg_ConflictColumns p ≠ []) || bool_decide (pg_UpdateColumns p ≠ []))
        then compile_err "postgres conflict/update columns require upsert mode"
        else
          _ <-? validatePostgresUpsertColumns p ;;
          cols <-? BuildPostgresMapper (pg_Table p) (pg_Mapping p) ;;
          pol <-? compileFailurePolicy (pg_OnError p) ;;
          Ok (SinkPostgres p mode cols pol)
  end.

(** [compileFileSink] *)
Definition compileFileSink (f : option FileSinkSpec) : result sink_obj :=
  match f with
  | None => compile_err "file sink configuration is required"
  | Some f =>
      if decide (fk_Path f = []) then compile_err "file sink requires a path"
      else ser <-? compileSerializer (fk_Serialize f) ;; Ok (SinkFile (fk_Path f) (fk_Append f) ser)
  end.

(** [CompileSink] *)
Definition CompileSink (spec : SinkSpec) : result sink_obj :=
  let t := sk_Type spec in
  if decide (t = []) then compile_err "sink type is required"
  else if decide (t = bs "kafka") then compileKafkaSink (sk_Kafka spec)
  else if decide (t = bs "txnKafka" ∨ t = bs "transactional_kafka") then compileTxnKafkaSink (sk_TxnKafka spec)
  else if decide (t = bs "postgres") then compilePostgresSink (sk_Postgres spec)
  else if decide (t = bs "stdout") then Ok SinkStdout
  else if decide (t = bs "blackhole") then Ok SinkBlackhole
  else if decide (t = bs "file") then compileFileSink (sk_File spec)
  else compile_err "unsupported sink type".

(** ** Operators ([operators.go], [registry.go]) *)

(** [FunctionRegistry] *)
Record FunctionRegistry := mkRegistry {
  Maps : gmap bytes (Record_ → Record_);
  FlatMaps : gmap bytes (Record_ → list Record_);
  Processes : gmap bytes (Record_ → result Record_)
}.
Definition RegisterMap (r : FunctionRegistry) (name : bytes) f : FunctionRegistry := mkRegistry (<[name := f]> (Maps r)) (FlatMaps r) (Processes r).
Definition RegisterFlatMap (r : FunctionRegistry) (name : bytes) f : FunctionRegistry := mkRegistry (Maps r) (<[name := f]> (FlatMaps r)) (Processes r).
Definition RegisterProcess (r : FunctionRegistry) (name : bytes) f : FunctionRegistry := mkRegistry (Maps r) (FlatMaps r) (<[name := f]> (Processes r)).

Definition mapFn (r : option FunctionRegistry) (name : bytes) : result (Record_ → Record_) :=
  match r ≫= λ r, Maps r !! name with Some f => Ok f | None => Err (bs "function registry has no map ref") end.
Definition flatMapFn (r : option FunctionRegistry) (name : bytes) : result (Record_ → list Record_) :=
  match r ≫= λ r, FlatMaps r !! name with Some f => Ok f | None => Err (bs "function registry has no flatMap ref") end.
Definition processFn (r : option FunctionRegistry) (name : bytes) : result (Record_ → result Record_) :=
  match r ≫= λ r, Processes r !! name with Some f => Ok f | None => Err (bs "function registry has no process ref") end.

Definition refLabel (id : bytes) (cfg : RefConfig) : bytes := if decide (rf_Label cfg = []) then id else rf_Label cfg.
Definition partitionsOrDefault (n : Z) : Z := if n <=? 0 then 16 else n.
Definition parallelismOrDefault (n : Z) : Z := if n <=? 0 then 1 else n.

(** [buildReducer] *)
Definition buildReducer (cfg : ReduceConfig) : result reduce_fn :=
  if decide (rd_Function cfg = bs "count") then Ok FnCount
  else if decide (rd_Function cfg = bs "sum") then
    if decide (rd_Field cfg = []) then Err (bs "reduce sum requires a field") else Ok (FnSum (rd_Field cfg))
  else Err (bs "unsupported reduce function (count or sum)").

(** [buildWindowAssigner] *)
Definition buildWindowAssigner (cfg : WindowConfig) : result assigner :=
  if decide (wc_Type cfg = bs "tumbling") then
    if wc_Size cfg <=? 0 then Err (bs "tumbling window requires a positive size")
    else let w := NewTumbling (wc_Size cfg) in
         Ok (ATumbling (if 0 <? wc_Offset cfg then Tumbling_WithOffset w (wc_Offset cfg) else w))
  else if decide (wc_Type cfg = bs "sliding") then
    if (wc_Size cfg <=? 0) || (wc_Slide cfg <=? 0) then Err (bs "sliding window requires positive size and slide")
    else let w := NewSliding (wc_Size cfg) (wc_Slide cfg) in
         Ok (ASliding (if 0 <? wc_Offset cfg then Sliding_WithOffset w (wc_Offset cfg) else w))
  else if decide (wc_Type cfg = bs "session") then
    if wc_Gap cfg <=? 0 then Err (bs "session window requires a positive gap") else Ok (ASession (mkSession (wc_Gap cfg)))
  else Err (bs "unsupported window type (tumbling, sliding, session)").

(** The blocks of [applyOperator] that need a function or an assigner. *)
Definition applyKeyed (e : StreamEnv) (op : Operator) (registry : option FunctionRegistry) : result StreamEnv :=
  match op_KeyBy op, op_Reduce op, op_Window op, op_Join op with
  | Some k, _, _, _ => Ok (WithPartitions (Stream_KeyBy e (kb_Field k) (op_ID op)) (partitionsOrDefault (kb_Partitions k)))
  | _, Some r, _, _ => fn <-? buildReducer r ;; Ok (Stream_Reduce e fn (op_ID op))
  | _, _, Some w, _ => a <-? buildWindowAssigner w ;; Ok (WindowWithOptions e a (wc_IdleTimeout w) (wc_AllowedLateness w) (op_ID op))
  | _, _, _, Some j =>
      Ok (if 0 <? jc_Within j then Stream_JoinWithin e (jc_LeftSource j) (jc_RightSource j) (jc_Within j) (op_ID op)
          else Stream_IntervalJoin e (jc_LeftSource j) (jc_RightSource j) (jc_Before j) (jc_After j) (op_ID op))
  | None, None, None, None =>
      match op_Map op, op_FlatMap op, op_Process op with
      | Some r, _, _ =>
          fn <-? mapFn registry (rf_Ref r) ;;
          Ok (WithParallelism (Stream_Map e (FnMapRef fn) (refLabel (op_ID op) r)) (parallelismOrDefault (rf_Parallelism r)))
      | _, Some r, _ =>
          fn <-? flatMapFn registry (rf_Ref r) ;;
          Ok (WithParallelism (Stream_FlatMap e fn (refLabel (op_ID op) r)) (parallelismOrDefault (rf_Parallelism r)))
      | _, _, Some r =>
          fn <-? processFn registry (rf_Ref r) ;;
          Ok (WithParallelism (Stream_Process e fn (refLabel (op_ID op) r)) (parallelismOrDefault (rf_Parallelism r)))
      | None, None, None => Err (bs "operator has no recognized config block")
      end
  end.

(** [applyOperator] *)
Definition applyOperator (e : StreamEnv) (op : Operator) (registry : option FunctionRegistry) : result StreamEnv :=
  match op_Filter op, op_SelectFields op, op_RenameFields op, op_SetFields op with
  | Some f, _, _, _ => Ok (Stream_Filter e f (op_ID op))
  | _, Some l, _, _ => Ok (Stream_Map e (FnSelect l) (op_ID op))
  | _, _, Some l, _ => Ok (Stream_Map e (FnRename l) (op_ID op))
  | _, _, _, Some l => Ok (Stream_Map e (FnSet l) (op_ID op))
  | None, None, None, None => applyKeyed e op registry
  end.

(** [applyOperatorsToStream] *)
Fixpoint applyOperatorsToStream (e : StreamEnv) (ops : list Operator) (registry : option FunctionRegistry) : result StreamEnv :=
  match ops with
  | [] => Ok e
  | op :: ops =>
      match applyOperator e op registry with
      | Ok e => applyOperatorsToStream e ops registry
      | Err m => Err (bs "compiler: pipeline " ++ op_ID op ++ bs ": " ++ m)
      | Panic m => Panic m
      end
  end.

(** ** Runtime ([runtime.go]) *)

Definition DefaultDataRoot : bytes := bs "./data".
Definition DefaultRetainedCheckpoints : Z := 3.

(** [sanitizeName] *)
Definition sanitizeName (name : bytes) : bytes :=
  let name := trim_space name in
  if decide (name = [] ∨ name = bs "." ∨ name = bs "..") then bs "default"
  else
    let safe := (λ c, if is_alnum c || bool_decide (c ∈ bs "_-.") then c else x5f) <$> name in
    if decide (safe = [] ∨ safe = bs "." ∨ safe = bs "..") then bs "default" else safe.

(** [jobDir] *)
Definition jobDir (configured dataRoot name resource : bytes) : bytes :=
  if decide (configured = []) then Join [dataRoot; name; resource] else Join [configured; name].

Definition runtimeCheckpoints (env : StreamEnv) (dataRoot name : bytes) (c : option CheckpointSpec) : result StreamEnv :=
  match c with
  | None => Ok env
  | Some c =>
      if ck_Interval c <=? 0 then compile_err "checkpoint interval must be greater than zero"
      else if ck_RetainCompleted c <? 0 then compile_err "checkpoint retention must not be negative"
      else
        let dir := jobDir (ck_Dir c) dataRoot name (bs "checkpoints") in
        match mkdirAll dir with
        | Some e => Err (bs "compiler: create checkpoint dir: " ++ e)
        | None =>
            let retain := if ck_RetainCompleted c =? 0 then DefaultRetainedCheckpoints else ck_RetainCompleted c in
            match openStorage dir retain with
            | Some e => Err (bs "compiler: initialize checkpoint storage: " ++ e)
            | None => Ok (WithCheckpointing env (ck_Interval c) dir retain)
            end
        end
  end.

Definition runtimeState (env : StreamEnv) (dataRoot name : bytes) (s : option StateSpec) : result StreamEnv :=
  match s with
  | None => Ok env
  | Some s =>
      if decide (ss_Backend s = [] ∨ ss_Backend s = bs "memory") then Ok (WithStateBackend env None)
      else if decide (ss_Backend s = bs "pebble") then
        let dir := jobDir (ss_Dir s) dataRoot name (bs "state") in
        match mkdirAll dir with
        | Some e => Err (bs "compiler: create state dir: " ++ e)
        | None => Ok (WithStateBackend env (Some dir))
        end
      else compile_err "unsupported state backend (memory or pebble)"
  end.

(** [CompileRuntime] *)
Definition CompileRuntime (workflowName dataRoot : bytes) (rt : option EnvSpec) : result StreamEnv :=
  let dataRoot := if decide (dataRoot = []) then DefaultDataRoot else dataRoot in
  let name := sanitizeName workflowName in
  match rt with
  | None => Ok NewEnv
  | Some rt =>
      if es_BufferSize rt <? 0 then compile_err "runtime bufferSize must not be negative"
      else
        let env := if 0 <? es_BufferSize rt then WithBufferSize NewEnv (es_BufferSize rt) else NewEnv in
        let env := if 0 <? es_ShutdownTimeout rt then WithShutdownTimeout env (es_ShutdownTimeout rt) else env in
        env <-? runtimeCheckpoints env dataRoot name (es_Checkpointing rt) ;;
        runtimeState env dataRoot name (es_State rt)
  end.

(** [CheckpointDir] *)
Definition CheckpointDir (workflowName dataRoot : bytes) (rt : option EnvSpec) : bytes :=
  match rt ≫= es_Checkpointing with
  | None => []
  | Some c =>
      if ck_Interval c <=? 0 then []
      else jobDir (ck_Dir c) (if decide (dataRoot = []) then DefaultDataRoot else dataRoot) (sanitizeName workflowName) (bs "checkpoints")
  end.

(** ** The compiler ([compiler.go]) *)

Inductive DeliveryGuarantee := AtMostOnce | AtLeastOnce | DeliverExactlyOnce.

(** [deliveryGuarantee] *)
Definition deliveryGuarantee (wf : Workflow) : DeliveryGuarantee :=
  let sinkTxn := bool_decide (sk_Type (wf_Sink wf) = bs "txnKafka" ∨ sk_Type (wf_Sink wf) = bs "transactional_kafka") in
  if source_eo wf && sinkTxn && checkpoints_on wf then DeliverExactlyOnce
  else if checkpoints_on wf then AtLeastOnce
  else AtMostOnce.

(** [PipelineGraph], [buildGraph], [graphSource] *)
Record PipelineGraph := mkGraph { g_Source : bytes; g_Operators : list (bytes * bytes); g_Sink : bytes }.
Definition graphSource (wf : Workflow) : bytes := match wf_Sources wf with [] => so_Type (wf_Source wf) | _ => bs "multi-source" end.
Definition buildGraph (wf : Workflow) : PipelineGraph :=
  mkGraph (graphSource wf) ((λ op, (op_ID op, op_Type op)) <$> wf_Pipeline wf) (sk_Type (wf_Sink wf)).

Record CompiledWorkflow := mkCompiled {
  cw_Env : StreamEnv; cw_Name : bytes; cw_Graph : PipelineGraph; cw_Delivery : DeliveryGuarantee; cw_CheckpointDir : bytes
}.

Fixpoint compileNamed (srcs : list NamedSourceSpec) (named : gmap bytes source_obj) : result (gmap bytes source_obj) :=
  match srcs with
  | [] => Ok named
  | s :: srcs =>
      match CompileSource (ns_Source s) with
      | Ok src => compileNamed srcs (<[ns_Name s := src]> named)
      | Err e => Err (bs "compiler: source " ++ ns_Name s ++ bs ": " ++ e)
      | Panic e => Panic e
      end
  end.

(** [compileStream] *)
Definition compileStream (env : StreamEnv) (wf : Workflow) (registry : option FunctionRegistry) : result StreamEnv :=
  match wf_Sources wf with
  | [] => src <-? CompileSource (wf_Source wf) ;; applyOperatorsToStream (FromSource env src) (wf_Pipeline wf) registry
  | srcs =>
      match wf_Pipeline wf with
      | first :: rest =>
          match op_Join first with
          | None => compile_err "multi-source workflows must start with a join operator"
          | Some j =>
              named <-? compileNamed srcs ∅ ;;
              match named !! jc_LeftSource j, named !! jc_RightSource j with
              | Some l, Some r =>
                  let env := if 0 <? jc_Within j
                             then JoinSourcesWithin env (jc_LeftSource j) l (jc_RightSource j) r (jc_Within j) (op_ID first)
                             else JoinSources env (jc_LeftSource j) l (jc_RightSource j) r (jc_Before j) (jc_After j) (op_ID first) in
                  applyOperatorsToStream env rest registry
              | _, _ => compile_err "join references unknown source(s)"
              end
          end
      | [] => compile_err "multi-source workflows must start with a join operator"
      end
  end.

(** [CompileWorkflow]; an invalid workflow gives its validation errors. *)
Definition CompileWorkflow (Quote : bytes → bytes) (resolve : bytes → option bytes) (baseDir : bytes) (registry : option FunctionRegistry)
    (spec : Workflow) : result CompiledWorkflow + list ValidationError :=
  match Validate Quote mkdirAll spec with
  | [] =>
      inl (match resolveSecrets resolve spec with
           | Err e => Err (bs "compiler: resolve secrets: " ++ e)
           | Panic e => Panic e
           | Ok wf =>
               env <-? CompileRuntime (wf_Name wf) baseDir (wf_Env wf) ;;
               env <-? compileStream env wf registry ;;
               snk <-? CompileSink (wf_Sink wf) ;;
               Ok (mkCompiled (ToSink env snk) (wf_Name wf) (buildGraph wf) (deliveryGuarantee wf)
                     (CheckpointDir (wf_Name wf) baseDir (wf_Env wf)))
           end)
  | errs => inr errs
  end.
End compiler.
