(* ===== verification/WorkflowCorrect.v ===== *)
(** * What the workflow compiler promises

    [compiles_to] says, by the type of an operator of the document, which
    operator of the stream stands for it; [to_op] is how the planner sees an
    operator of the stream.  A valid document whose secrets, connectors and
    function references exist compiles: to exactly these operators in their
    order, to a plan that can be built, and to the delivery guarantee that was
    asked for.  The names that validation accepts are their own directory
    names. *)

From S2P Require Import Prelude Record Window Rfc3339 Decimal Planner TxnSink Workflow WorkflowCompile.
From Stdlib Require Import Strings.Byte.

(** ** Operators of the document and of the stream *)

Definition or_default (d n : Z) : Z := if decide (0 < n) then n else d.

Definition compiled_reduce (r : ReduceConfig) : reduce_fn :=
  if decide (rd_Function r = bs "count") then FnCount else FnSum (rd_Field r).

(** The assigner of a window, with its offset when one is given. *)
Inductive compiled_window (w : WindowConfig) : assigner → Prop :=
| cw_tumbling : wc_Type w = bs "tumbling" → compiled_window w (ATumbling (mkTumbling (wc_Size w) (Z.max 0 (wc_Offset w))))
| cw_sliding : wc_Type w = bs "sliding" →
    compiled_window w (ASliding (mkSliding (wc_Size w) (wc_Slide w) (Z.max 0 (wc_Offset w))))
| cw_session : wc_Type w = bs "session" → compiled_window w (ASession (mkSession (wc_Gap w))).

Inductive compiles_to (reg : FunctionRegistry) (op : Operator) : sop → Prop :=
| ct_filter f : is_type "filter" op → op_Filter op = Some f → compiles_to reg op (SFilter f (op_ID op) 0)
| ct_select l : is_type "selectFields" op → op_SelectFields op = Some l → compiles_to reg op (SMap (FnSelect l) (op_ID op) 0)
| ct_rename l : is_type "renameFields" op → op_RenameFields op = Some l → compiles_to reg op (SMap (FnRename l) (op_ID op) 0)
| ct_set l : is_type "setFields" op → op_SetFields op = Some l → compiles_to reg op (SMap (FnSet l) (op_ID op) 0)
| ct_keyBy k : is_type "keyBy" op → op_KeyBy op = Some k →
    compiles_to reg op (SKeyBy (kb_Field k) (op_ID op) (or_default 16 (kb_Partitions k)))
| ct_reduce r : is_type "reduce" op → op_Reduce op = Some r → compiles_to reg op (SReduce (compiled_reduce r) (op_ID op))
| ct_window w a : is_type "window" op → op_Window op = Some w → compiled_window w a →
    compiles_to reg op (SWindow a (Z.max 0 (wc_IdleTimeout w)) (wc_AllowedLateness w) (op_ID op))
| ct_join j before after : is_type "join" op → op_Join op = Some j →
    (before, after) = (if decide (jc_Within j = 0) then (jc_Before j, jc_After j) else (jc_Within j, jc_Within j)) →
    compiles_to reg op (SJoin (jc_LeftSource j) (jc_RightSource j) before after (op_ID op))
| ct_map r f : is_type "map" op → op_Map op = Some r → Maps reg !! rf_Ref r = Some f →
    compiles_to reg op (SMap (FnMapRef f) (refLabel (op_ID op) r) (or_default 1 (rf_Parallelism r)))
| ct_flatMap r f : is_type "flatMap" op → op_FlatMap op = Some r → FlatMaps reg !! rf_Ref r = Some f →
    compiles_to reg op (SFlatMap f (refLabel (op_ID op) r) (or_default 1 (rf_Parallelism r)))
| ct_process r f : is_type "process" op → op_Process op = Some r → Processes reg !! rf_Ref r = Some f →
    compiles_to reg op (SProcess f (refLabel (op_ID op) r) (or_default 1 (rf_Parallelism r))).

(** The functions an operator refers to are registered. *)
Definition registered (reg : FunctionRegistry) (op : Operator) : Prop :=
  (∀ r, op_Map op = Some r → is_Some (Maps reg !! rf_Ref r))
  ∧ (∀ r, op_FlatMap op = Some r → is_Some (FlatMaps reg !! rf_Ref r))
  ∧ (∀ r, op_Process op = Some r → is_Some (Processes reg !! rf_Ref r)).

(** [Parallelism] *)
Definition Parallelism (par : Z) : Z := if par <? 1 then 1 else par.

(** An operator of the stream, by the interfaces its type implements. *)
Definition stateless_op (name : bytes) (par : Z) : Op := mkOp name None true (Some (Parallelism par)) false false false false false.
Definition stateful_op (name : bytes) : Op := mkOp name None false None true true true false true.
Definition to_op (o : sop) : Op :=
  match o with
  | SMap _ _ p => stateless_op (bs "Map") p
  | SFilter _ _ p => stateless_op (bs "Filter") p
  | SFlatMap _ _ p => stateless_op (bs "FlatMap") p
  | SProcess _ _ p => stateless_op (bs "Process") p
  | SKeyBy _ _ n => mkOp (bs "KeyBy") (Some n) false None false false false false false
  | SReduce _ _ => stateful_op (bs "Reduce")
  | SWindow _ _ _ _ => stateful_op (bs "Window")
  | SJoin _ _ _ _ _ => stateful_op (bs "IntervalJoin")
  end.
Definition op_label (o : sop) : bytes :=
  match o with
  | SMap _ l _ | SFilter _ l _ | SFlatMap _ l _ | SProcess _ l _ | SKeyBy _ l _ | SReduce _ l | SWindow _ _ _ l | SJoin _ _ _ _ l => l
  end.

(** Operators are appended one after the other. *)

Lemma append_op_app e os o : append_op (set_operators e os) o = set_operators e (os ++ [o]).
Proof. done. Qed.

Lemma update_last_append f e o : update_last f (append_op e o) = append_op e (f o).
Proof. unfold update_last. cbn. by rewrite last_snoc, removelast_last. Qed.

Lemma reducer_ok r : valid_reduce r → buildReducer r = Ok (compiled_reduce r).
Proof.
  unfold buildReducer, compiled_reduce. intros [->|[-> Hf]]; [done|].
  rewrite decide_False by done. rewrite decide_True by done. by rewrite decide_False.
Qed.

Lemma window_assigner_ok w : valid_window w → ∃ a, buildWindowAssigner w = Ok a ∧ compiled_window w a.
Proof.
  unfold buildWindowAssigner, NewTumbling, NewSliding, Tumbling_WithOffset, Sliding_WithOffset.
  intros [_ [[Ht Hs]|[[Ht Hs]|[Ht Hs]]]]; rewrite Ht; unfold duration in *;
    repeat (case_decide; try done);
    rewrite ?(proj2 (Z.leb_gt _ _)) by lia; cbn [orb]; (eexists; split; [done|]).
  - pose proof (cw_tumbling w Ht) as Hc. destruct (Z.ltb_spec 0 (wc_Offset w));
      [by rewrite Z.max_r in Hc by lia|by rewrite Z.max_l in Hc by lia].
  - pose proof (cw_sliding w Ht) as Hc. destruct (Z.ltb_spec 0 (wc_Offset w));
      [by rewrite Z.max_r in Hc by lia|by rewrite Z.max_l in Hc by lia].
  - by constructor.
Qed.

Lemma or_default_parallel n : parallelismOrDefault n = or_default 1 n.
Proof. unfold parallelismOrDefault, or_default. by destruct (Z.leb_spec n 0), (decide (0 < n)); try lia. Qed.
Lemma or_default_partitions n : partitionsOrDefault n = or_default 16 n.
Proof. unfold partitionsOrDefault, or_default. by destruct (Z.leb_spec n 0), (decide (0 < n)); try lia. Qed.

Lemma map_ref_ok reg r : is_Some (Maps reg !! rf_Ref r) → ∃ f, Maps reg !! rf_Ref r = Some f ∧ mapFn (Some reg) (rf_Ref r) = Ok f.
Proof. intros [f Hf]. exists f. split; [done|]. unfold mapFn. cbn. by rewrite Hf. Qed.
Lemma flatMap_ref_ok reg r :
  is_Some (FlatMaps reg !! rf_Ref r) → ∃ f, FlatMaps reg !! rf_Ref r = Some f ∧ flatMapFn (Some reg) (rf_Ref r) = Ok f.
Proof. intros [f Hf]. exists f. split; [done|]. unfold flatMapFn. cbn. by rewrite Hf. Qed.
Lemma process_ref_ok reg r :
  is_Some (Processes reg !! rf_Ref r) → ∃ f, Processes reg !! rf_Ref r = Some f ∧ processFn (Some reg) (rf_Ref r) = Ok f.
Proof. intros [f Hf]. exists f. split; [done|]. unfold processFn. cbn. by rewrite Hf. Qed.

Lemma join_interval e id j : valid_join j → ∃ before after,
  (before, after) = (if decide (jc_Within j = 0) then (jc_Before j, jc_After j) else (jc_Within j, jc_Within j))
  ∧ (if 0 <? jc_Within j then Stream_JoinWithin e (jc_LeftSource j) (jc_RightSource j) (jc_Within j) id
     else Stream_IntervalJoin e (jc_LeftSource j) (jc_RightSource j) (jc_Before j) (jc_After j) id)
    = append_op e (SJoin (jc_LeftSource j) (jc_RightSource j) before after id).
Proof.
  intros (_ & _ & _ & Hw). unfold duration in *. exists (if decide (jc_Within j = 0) then jc_Before j else jc_Within j),
    (if decide (jc_Within j = 0) then jc_After j else jc_Within j).
  split; [by destruct (decide _)|]. unfold Stream_JoinWithin, Stream_IntervalJoin.
  destruct (Z.ltb_spec 0 (jc_Within j)), (decide (jc_Within j = 0)); try lia; by rewrite !Z.max_r by lia.
Qed.

(** Each valid operator appends the operator it stands for. *)
Lemma applyOperator_ok reg e op : valid_operator op → registered reg op →
  ∃ o, compiles_to reg op o ∧ applyOperator e op (Some reg) = Ok (append_op e o).
Proof.
  intros [Hid Ht Hb _ _ _ _ Hk Hr Hw Hj _] (Rm & Rf & Rp).
  assert (length (configBlocks op) = 1%nat) as Hl by (by rewrite Hb).
  unfold configBlocks in Hl, Hb. rewrite !length_app, !block_length in Hl.
  unfold applyOperator, applyKeyed, Stream_Filter, Stream_Map, Stream_FlatMap, Stream_Process, Stream_KeyBy, Stream_Reduce,
    WindowWithOptions, WithPartitions, WithParallelism.
  one_block Hl; cbn [block app] in Hb; injection Hb as Hb; symmetry in Hb.
  - by eexists; split; [eapply ct_filter|].
  - by eexists; split; [eapply ct_select|].
  - by eexists; split; [eapply ct_rename|].
  - by eexists; split; [eapply ct_set|].
  - eexists; split; [by eapply ct_keyBy|]. by rewrite update_last_append, or_default_partitions.
  - eexists; split; [by eapply ct_reduce|]. by rewrite reducer_ok by auto.
  - destruct (window_assigner_ok w) as (a & -> & Ha); [auto|].
    eexists; split; [by eapply ct_window|]. cbn [rbind]. destruct (Hw w) as [Hp _]; [done|]. unfold duration in *.
    by rewrite (Z.max_r 0 (wc_AllowedLateness w)) by done.
  - destruct (join_interval e (op_ID op) j) as (b & a & Hba & ->); [auto|].
    by eexists; split; [eapply ct_join|].
  - destruct (map_ref_ok reg r) as (f & Hf & ->); [auto|].
    eexists; split; [by eapply ct_map|]. cbn [rbind]. by rewrite update_last_append, or_default_parallel.
  - destruct (flatMap_ref_ok reg r) as (f & Hf & ->); [auto|].
    eexists; split; [by eapply ct_flatMap|]. cbn [rbind]. by rewrite update_last_append, or_default_parallel.
  - destruct (process_ref_ok reg r) as (f & Hf & ->); [auto|].
    eexists; split; [by eapply ct_process|]. cbn [rbind]. by rewrite update_last_append, or_default_parallel.
Qed.

Lemma applyOperators_ok reg ops : ∀ e, Forall valid_operator ops → Forall (registered reg) ops →
  ∃ os, Forall2 (compiles_to reg) ops os
    ∧ applyOperatorsToStream e ops (Some reg) = Ok (set_operators e (se_operators e ++ os)).
Proof.
  induction ops as [|op ops IH]; intros e Hv Hr.
  { exists []. split; [done|]. rewrite app_nil_r. by destruct e. }
  rewrite Forall_cons in Hv. rewrite Forall_cons in Hr. destruct Hv as [Hv Hvs], Hr as [Hr Hrs].
  destruct (applyOperator_ok reg e op Hv Hr) as (o & Ho & E). cbn [applyOperatorsToStream]. rewrite E.
  destruct (IH (append_op e o) Hvs Hrs) as (os & Hos & ->). exists (o :: os). split; [by constructor|].
  cbn. by rewrite <- app_assoc.
Qed.

(** ** Resolving secrets changes only credentials *)

Ltac res_inv H :=
  repeat (let a := fresh "a" in let E := fresh "E" in apply rbind_Ok in H; destruct H as (a & E & H)); injection H as <-.

Section resolved.
Context (resolve : bytes → option bytes).

Lemma resolveSource_keeps s s' : resolveSourceSecrets resolve s = Ok s' →
  so_Type s' = so_Type s ∧ from_option kf_ExactlyOnce false (so_Kafka s') = from_option kf_ExactlyOnce false (so_Kafka s).
Proof.
  unfold resolveSourceSecrets. destruct (so_Kafka s) as [k|] eqn:Ek; intros H; [by res_inv H|].
  injection H as <-. by rewrite Ek.
Qed.

Lemma resolveSources_keeps ss : ∀ ss', resolveSources resolve ss = Ok ss' → ns_Name <$> ss' = ns_Name <$> ss.
Proof.
  induction ss as [|s ss IH]; intros ss' H; cbn [resolveSources] in H; [by injection H as <-|].
  res_inv H. cbn. f_equal. by apply IH.
Qed.

Lemma resolveSink_keeps s s' : resolveSinkSecrets resolve s = Ok s' → sk_Type s' = sk_Type s.
Proof. unfold resolveSinkSecrets. repeat case_decide; intros Hr; [by res_inv Hr..|by injection Hr as <-]. Qed.

Record same_shape (wf wf' : Workflow) : Prop := {
  sh_name : wf_Name wf' = wf_Name wf;
  sh_env : wf_Env wf' = wf_Env wf;
  sh_pipeline : wf_Pipeline wf' = wf_Pipeline wf;
  sh_sources : ns_Name <$> wf_Sources wf' = ns_Name <$> wf_Sources wf;
  sh_eo : source_eo wf' = source_eo wf;
  sh_sink : sk_Type (wf_Sink wf') = sk_Type (wf_Sink wf)
}.

Lemma resolveSecrets_keeps wf wf' : resolveSecrets resolve wf = Ok wf' → same_shape wf wf'.
Proof.
  intros H. unfold resolveSecrets in H. res_inv H. destruct (resolveSource_keeps _ _ E) as [Et Ee].
  split; try done; cbn.
  - by apply resolveSources_keeps.
  - unfold source_eo. cbn. by rewrite Et, Ee.
  - by apply resolveSink_keeps.
Qed.

Lemma same_sources_nil wf wf' : same_shape wf wf' → wf_Sources wf' = [] ↔ wf_Sources wf = [].
Proof.
  intros H. pose proof (sh_sources _ _ H) as E.
  split; intros E'; rewrite E' in E; [symmetry in E|]; cbn in E; by apply fmap_nil_inv in E.
Qed.
End resolved.

(** ** Compilation *)

Section compiled.
Context (scram : bool → bytes → bytes → result bytes) (buildTLS : TLSConfig → result (option tls_config)).
Context (mkdirAll : bytes → option bytes) (openStorage : bytes → Z → option bytes) (Join : list bytes → bytes).
Context (jsonSerializer : Serializer).

(** Directories can be created and checkpoint storage opened. *)
Definition storage_ok : Prop := (∀ d, mkdirAll d = None) ∧ ∀ d n, openStorage d n = None.

(** The checkpoint settings of the environment. *)
Definition checkpoint_settings (wf : Workflow) (dir : bytes) : option (duration * bytes * Z) :=
  (λ c, (ck_Interval c, dir, or_default 3 (ck_RetainCompleted c))) <$> (wf_Env wf ≫= es_Checkpointing).

Lemma or_default_retain n : 0 ≤ n → (if n =? 0 then DefaultRetainedCheckpoints else n) = or_default 3 n.
Proof. intros Hn. unfold or_default, DefaultRetainedCheckpoints. destruct (Z.eqb_spec n 0), (decide (0 < n)); lia. Qed.

Lemma CompileRuntime_ok wf base : storage_ok → (∀ e, wf_Env wf = Some e → valid_env mkdirAll e) →
  ∃ env, CompileRuntime mkdirAll openStorage Join (wf_Name wf) base (wf_Env wf) = Ok env ∧ se_operators env = []
    ∧ se_checkpoints env = checkpoint_settings wf (CheckpointDir Join (wf_Name wf) base (wf_Env wf)).
Proof.
  intros [Hm Ho] Hv. unfold CompileRuntime, checkpoint_settings, CheckpointDir.
  destruct (wf_Env wf) as [rt|]; [|by exists NewEnv]. destruct (Hv rt eq_refl) as (Hb & Hc & Hs).
  rewrite (proj2 (Z.ltb_ge _ _) Hb). cbn [mbind option_bind].
  set (env := if 0 <? es_ShutdownTimeout rt then _ else _).
  assert (se_operators env = [] ∧ se_checkpoints env = None) as [He1 He2]
    by (unfold env; by destruct (0 <? es_ShutdownTimeout rt), (0 <? es_BufferSize rt)).
  clearbody env. set (root := if decide (base = []) then _ else _).
  assert (∃ env', runtimeCheckpoints mkdirAll openStorage Join env root (sanitizeName (wf_Name wf)) (es_Checkpointing rt) = Ok env'
    ∧ se_operators env' = [] ∧ se_checkpoints env' = (λ c, (ck_Interval c,
        if ck_Interval c <=? 0 then [] else jobDir Join (ck_Dir c) root (sanitizeName (wf_Name wf)) (bs "checkpoints"),
        or_default 3 (ck_RetainCompleted c))) <$> es_Checkpointing rt) as (env' & -> & H1 & H2).
  { unfold runtimeCheckpoints. destruct (es_Checkpointing rt) as [c|]; [|by exists env].
    destruct (Hc c eq_refl) as (Hi & Hn & _). unfold duration in *.
    rewrite (proj2 (Z.leb_gt _ _) Hi), (proj2 (Z.ltb_ge _ _) Hn), Hm, Ho. rewrite or_default_retain by done.
    eexists. split; [done|]. split; [done|]. cbn. unfold duration in *. by rewrite (proj2 (Z.leb_gt _ _) Hi). }
  cbn [rbind]. unfold runtimeState. destruct (es_State rt) as [s|]; [|exists env'; split; [done|split; [done|]]].
  - destruct (Hs s eq_refl) as [Eb|[Eb _]]; rewrite Eb.
    + rewrite decide_True by auto. eexists; split; [done|]. split; [done|]. cbn. rewrite H2. by destruct (es_Checkpointing rt).
    + rewrite decide_False by (by intros [?|?]). rewrite decide_True by done. rewrite Hm.
      eexists; split; [done|]. split; [done|]. cbn. rewrite H2. by destruct (es_Checkpointing rt).
  - rewrite H2. by destruct (es_Checkpointing rt).
Qed.

(** The sources that a workflow reads. *)
Definition used_sources (wf : Workflow) : list SourceSpec :=
  match wf_Sources wf with [] => [wf_Source wf] | srcs => ns_Source <$> srcs end.

Lemma compileNamed_ok srcs : ∀ m,
  Forall (λ s, ∃ o, CompileSource (ns_Source s) = Ok o) srcs → NoDup (ns_Name <$> srcs) →
  ∃ named, compileNamed srcs m = Ok named
    ∧ ∀ n, n ∈ ns_Name <$> srcs → ∃ s o, s ∈ srcs ∧ ns_Name s = n ∧ CompileSource (ns_Source s) = Ok o ∧ named !! n = Some o.
Proof.
  induction srcs as [|s srcs IH]; intros m Hc Hn; cbn [compileNamed].
  { exists m. split; [done|]. by intros n ?%not_elem_of_nil. }
  rewrite Forall_cons in Hc. destruct Hc as [[o Ho] Hc]. cbn in Hn. rewrite NoDup_cons in Hn. destruct Hn as [Hx Hn].
  rewrite Ho. destruct (IH (<[ns_Name s := o]> m) Hc Hn) as (named & E & Hl). exists named. split; [done|].
  intros n [->|Hin]%elem_of_cons.
  - exists s, o. split_and!; [by left|done..|]. clear -E Hx. revert m E Hx.
    induction srcs as [|s' srcs IH]; intros m E Hx; cbn [compileNamed] in E.
    { injection E as <-. by simplify_map_eq. }
    destruct (CompileSource (ns_Source s')) as [o'| |]; [|done..]. cbn in Hx. rewrite not_elem_of_cons in Hx. destruct Hx as [Hs Hx].
    rewrite insert_insert_ne in E by done. by apply (IH (<[ns_Name s' := o']> m)).
  - destruct (Hl n Hin) as (s' & o' & ? & ? & ? & ?). exists s', o'. split_and!; [by right|done..].
Qed.

(** What the environment reads: the one source, or the two sources of the
    leading join with its interval. *)
Definition reads (wf : Workflow) (env : StreamEnv) : Prop :=
  match wf_Sources wf with
  | [] => ∃ s, CompileSource (wf_Source wf) = Ok s ∧ se_source env = Some s
  | srcs => ∃ j first l r ls rs, head (wf_Pipeline wf) = Some first ∧ op_Join first = Some j
      ∧ l ∈ srcs ∧ r ∈ srcs ∧ ns_Name l = jc_LeftSource j ∧ ns_Name r = jc_RightSource j
      ∧ CompileSource (ns_Source l) = Ok ls ∧ CompileSource (ns_Source r) = Ok rs
      ∧ se_join env = Some (if decide (jc_Within j = 0)
          then mkNativeJoin (ns_Name l) ls (ns_Name r) rs (jc_Before j) (jc_After j) (op_ID first)
          else mkNativeJoin (ns_Name l) ls (ns_Name r) rs (jc_Within j) (jc_Within j) (op_ID first))
  end.

(** The operators of the document that run as operators of the stream. *)
Definition stream_ops (wf : Workflow) : list Operator :=
  match wf_Sources wf with [] => wf_Pipeline wf | _ => tail (wf_Pipeline wf) end.

Lemma JoinSources_ok e ln l rn r j label : valid_join j →
  (if 0 <? jc_Within j then JoinSourcesWithin e ln l rn r (jc_Within j) label else JoinSources e ln l rn r (jc_Before j) (jc_After j) label)
  = JoinSources e ln l rn r (if decide (jc_Within j = 0) then jc_Before j else jc_Within j)
      (if decide (jc_Within j = 0) then jc_After j else jc_Within j) label.
Proof.
  intros (_ & _ & _ & Hw). unfold JoinSourcesWithin, duration in *.
  destruct (Z.ltb_spec 0 (jc_Within j)); repeat case_decide; (done || lia).
Qed.

(** Everything the compiler is given exists: functions, connectors, sources
    of the leading join. *)
Record compilable (reg : FunctionRegistry) (wf : Workflow) : Prop := {
  cp_ops : Forall valid_operator (wf_Pipeline wf);
  cp_refs : Forall (registered reg) (wf_Pipeline wf);
  cp_names : NoDup (ns_Name <$> wf_Sources wf);
  cp_sources : Forall (λ s, ∃ o, CompileSource s = Ok o) (used_sources wf);
  cp_multi : wf_Sources wf ≠ [] → ∃ j, head (wf_Pipeline wf) ≫= op_Join = Some j
    ∧ jc_LeftSource j ∈ ns_Name <$> wf_Sources wf ∧ jc_RightSource j ∈ ns_Name <$> wf_Sources wf
}.

Lemma compileStream_ok reg wf env : se_operators env = [] → compilable reg wf →
  ∃ env' os, compileStream env wf (Some reg) = Ok env' ∧ reads wf env' ∧ se_operators env' = os
    ∧ se_checkpoints env' = se_checkpoints env ∧ Forall2 (compiles_to reg) (stream_ops wf) os.
Proof.
  intros He [Hv Hr Hn Hs Hm]. unfold compileStream, reads, stream_ops, used_sources in *.
  destruct (wf_Sources wf) as [|s srcs].
  { rewrite Forall_singleton in Hs. destruct Hs as [s Es]. rewrite Es. cbn [rbind].
    destruct (applyOperators_ok reg _ (FromSource env s) Hv Hr) as (os & Hos & ->).
    exists (set_operators (FromSource env s) os), os. cbn. rewrite He. split_and!; eauto. }
  destruct Hm as (j & Hj & Hjl & Hjr); [done|]. destruct (wf_Pipeline wf) as [|first rest]; [done|].
  cbn [head mbind option_bind tail] in Hj |- *. rewrite Hj. rewrite Forall_cons in Hv. rewrite Forall_cons in Hr. destruct Hv as [Hv Hvs], Hr as [_ Hrs].
  rewrite Forall_fmap in Hs. destruct (compileNamed_ok _ ∅ Hs Hn) as (named & -> & Hnm). cbn [rbind].
  destruct (Hnm _ Hjl) as (l & ls & Hl & El & Cl & ->), (Hnm _ Hjr) as (r & rs & Hr & Er & Cr & ->).
  assert (valid_join j) as Hvj by (by apply (vo_join _ Hv)). rewrite JoinSources_ok by done.
  set (e := JoinSources _ _ _ _ _ _ _ _). destruct (applyOperators_ok reg rest e Hvs Hrs) as (os & Hos & ->).
  exists (set_operators e os), os. unfold e. cbn. rewrite He. split_and!; try done.
  exists j, first, l, r, ls, rs. split_and!; try done. rewrite El, Er. destruct Hvj as (_ & _ & _ & Hw). unfold duration in *.
  repeat case_decide; rewrite !Z.max_r by lia; done.
Qed.

Lemma router_compiled reg op o : compiles_to reg op o → router_ok (to_op o).
Proof.
  intros [] parts; cbn; try done. intros [= <-]. unfold or_default. by destruct (decide _); [|lia].
Qed.

(** The stages a plan runs between source and sink. *)
Definition plan_for (H : StageHooks) (os : list sop) : Prop :=
  ∃ mid, BuildPlan H true true (to_op <$> os) (op_label <$> os) = Ok (SourceStage :: mid ++ [SinkStage])
    ∧ Forall stage_ok mid ∧ concat (stage_ops <$> mid) = to_op <$> os.

Lemma plan_compiled reg H ops os : backends_ok H → Forall2 (compiles_to reg) ops os → plan_for H os.
Proof.
  intros Hb Hc. apply build_plan_ok; [done| |by rewrite !length_fmap]. apply Forall_fmap.
  induction Hc; constructor; [|done]. by eapply router_compiled.
Qed.

(** Exactly-once delivery was asked for. *)
Definition wants_exactly_once (wf : Workflow) : Prop := source_eo wf = true ∨ sk_Type (wf_Sink wf) = bs "txnKafka".

Lemma delivery_ok wf wf' : same_shape wf wf' → valid_workflow mkdirAll wf →
  deliveryGuarantee wf' = DeliverExactlyOnce ↔ wants_exactly_once wf.
Proof.
  intros Hs Hv. unfold deliveryGuarantee, wants_exactly_once, checkpoints_on.
  rewrite (sh_sink _ _ Hs), (sh_eo _ _ Hs), (sh_env _ _ Hs). fold (checkpoints_on wf).
  pose proof (vw_delivery _ _ Hv) as Hd. split.
  - destruct (source_eo wf); [by left|]. cbn. by destruct (checkpoints_on wf).
  - intros (-> & Ht & ->)%Hd. rewrite bool_decide_true by auto. done.
Qed.

(** C18: A valid workflow whose secrets, connectors and function references
    exist compiles: it reads the sources and writes the sink of the
    document, its operators stand one by one for the operators of the
    pipeline, a plan of all of them can be built, checkpoints go to the
    reported directory, and the delivery guarantee is exactly-once if and
    only if the document asks for it. *)
Theorem workflow_compiles Quote resolve base reg H wf wf' snk :
  valid_workflow mkdirAll wf → storage_ok → Forall (registered reg) (wf_Pipeline wf) → backends_ok H →
  resolveSecrets resolve wf = Ok wf' →
  Forall (λ s, ∃ o, CompileSource s = Ok o) (used_sources wf') →
  CompileSink scram buildTLS jsonSerializer (wf_Sink wf') = Ok snk →
  ∃ cw, CompileWorkflow scram buildTLS mkdirAll openStorage Join jsonSerializer Quote resolve base (Some reg) wf = inl (Ok cw)
    ∧ reads wf' (cw_Env cw) ∧ se_sink (cw_Env cw) = Some snk
    ∧ Forall2 (compiles_to reg) (stream_ops wf) (se_operators (cw_Env cw)) ∧ plan_for H (se_operators (cw_Env cw))
    ∧ se_checkpoints (cw_Env cw) = checkpoint_settings wf (cw_CheckpointDir cw)
    ∧ (cw_Delivery cw = DeliverExactlyOnce ↔ wants_exactly_once wf).
Proof.
  intros Hv Hst Hr Hb Hs Hsrc Hsnk. pose proof (resolveSecrets_keeps _ _ _ Hs) as Sh.
  unfold CompileWorkflow. rewrite (proj2 (Validate_nil Quote mkdirAll wf)) by done. rewrite Hs.
  destruct (CompileRuntime_ok wf base Hst) as (env & Er & Ho & Ec); [apply Hv|].
  rewrite (sh_name _ _ Sh), (sh_env _ _ Sh), Er. cbn [rbind].
  destruct (compileStream_ok reg wf' env Ho) as (env' & os & -> & Hreads & Eos & Eck & Hos).
  { pose proof (sh_sources _ _ Sh) as En. split; rewrite ?(sh_pipeline _ _ Sh), ?En; [apply Hv|done|apply Hv|done|].
    intros Hne. apply Hv. by rewrite <- (same_sources_nil _ _ Sh). }
  cbn [rbind]. rewrite Hsnk. eexists. split; [done|]. cbn. rewrite Eos. split_and!.
  - exact Hreads.
  - done.
  - unfold stream_ops in *. rewrite (sh_pipeline _ _ Sh) in Hos. pose proof (same_sources_nil _ _ Sh) as [E1 E2].
    destruct (wf_Sources wf), (wf_Sources wf'); try done; [by specialize (E2 eq_refl)|by specialize (E1 eq_refl)].
  - by eapply plan_compiled.
  - by rewrite Eck, Ec.
  - by apply delivery_ok.
Qed.
End compiled.

(** ** A workflow that compiles *)

Definition demo_id_op (id type : string) : Operator :=
  mkOperator (bs id) (bs type) None None None None None None None None None None None.
Definition with_filter (o : Operator) f := mkOperator (op_ID o) (op_Type o) (Some f) None None None None None None None None None None.
Definition with_keyBy (o : Operator) k := mkOperator (op_ID o) (op_Type o) None None None None (Some k) None None None None None None.
Definition with_reduce (o : Operator) r := mkOperator (op_ID o) (op_Type o) None None None None None (Some r) None None None None None.
Definition with_window (o : Operator) w := mkOperator (op_ID o) (op_Type o) None None None None None None (Some w) None None None None.
Definition with_map (o : Operator) r := mkOperator (op_ID o) (op_Type o) None None None None None None None None (Some r) None None.

Definition demo_pipeline : list Operator := [
  with_filter (demo_id_op "paid" "filter") (mkFilterConfig (bs "status") (bs "=") (VString (bs "paid")));
  with_map (demo_id_op "enrich" "map") (mkRef (bs "enrich") [] 4);
  with_keyBy (demo_id_op "by-user" "keyBy") (mkKeyByConfig (bs "user") 0 []);
  with_window (demo_id_op "minutes" "window") (mkWindowConfig (bs "tumbling") 60 0 0 0 0 5 []);
  with_reduce (demo_id_op "total" "reduce") (mkReduceConfig (bs "sum") (bs "amount") [])].

Definition demo_sasl (password : bytes) : SASLSpec := mkSASLSpec (bs "plain") (bs "u") password.
Definition demo_workflow (password : bytes) : Workflow :=
  mkWorkflow (bs "orders") (bs "1")
    (Some (mkEnvSpec 0 0 (Some (mkCheckpointSpec 10 [] 0)) (Some (mkStateSpec (bs "pebble") []))))
    (mkSourceSpec (bs "kafka")
       (Some (mkKafkaSourceSpec [bs "k:9092"] (bs "in") [] (bs "g") [] true false None (bs "json") 0 0 0 (Some (demo_sasl password)) None))
       None [])
    [] demo_pipeline
    (mkSinkSpec (bs "txnKafka") None
       (Some (mkTxnKafkaSinkSpec [bs "k:9092"] (bs "out") (bs "orders-txn") [] [] None None)) None None).

Definition demo_reg : FunctionRegistry := RegisterMap (mkRegistry ∅ ∅ ∅) (bs "enrich") id.
Definition demo_resolve (name : bytes) : option bytes := if decide (name = bs "PASS") then Some (bs "pw") else None.
Definition demo_secret : bytes := bs "${PASS}".
Definition demo_tls (c : TLSConfig) : result (option tls_config) := Ok None.
Definition demo_ser (r : Record_) : bytes + bytes := inl (Value r).
Definition demo_join (parts : list bytes) : bytes := concat ((λ p, p ++ bs "/") <$> parts).
Definition no_failure (d : bytes) : option bytes := None.
Definition no_storage_failure (d : bytes) (n : Z) : option bytes := None.
Definition demo_snk : sink_obj :=
  SinkTxn (mkTxnCfg [bs "k:9092"] (bs "out") (bs "orders-txn") (bs "out.checkpoints") None None None).

Lemma workflow_compiles_witness :
  ∃ cw, CompileWorkflow (λ _ _ p, Ok p) demo_tls no_failure no_storage_failure demo_join demo_ser id demo_resolve [] (Some demo_reg)
      (demo_workflow demo_secret) = inl (Ok cw)
    ∧ reads (demo_workflow (bs "pw")) (cw_Env cw) ∧ se_sink (cw_Env cw) = Some demo_snk
    ∧ Forall2 (compiles_to demo_reg) (stream_ops (demo_workflow demo_secret)) (se_operators (cw_Env cw))
    ∧ plan_for demo_hooks (se_operators (cw_Env cw))
    ∧ se_checkpoints (cw_Env cw) = checkpoint_settings (demo_workflow demo_secret) (cw_CheckpointDir cw)
    ∧ (cw_Delivery cw = DeliverExactlyOnce ↔ wants_exactly_once (demo_workflow demo_secret)).
Proof.
  apply (workflow_compiles (λ _ _ p, Ok p) demo_tls no_failure no_storage_failure demo_join demo_ser id demo_resolve [] demo_reg
           demo_hooks (demo_workflow demo_secret) (demo_workflow (bs "pw")) demo_snk).
  - apply (Validate_nil id no_failure). vm_compute. reflexivity.
  - by split.
  - repeat constructor; cbn; intros r [= <-]; by eexists.
  - intros mk owner [= <-]. by exists true.
  - vm_compute. reflexivity.
  - constructor; [|constructor]. eexists. vm_compute. reflexivity.
  - vm_compute. reflexivity.
Defined.

(** ** Directories *)

Definition name_byte (c : byte) : bool := is_alnum c || bool_decide (c ∈ bs "_.-").

Lemma name_byte_no_space c : name_byte c = true → is_space c = false.
Proof. destruct c; (done || by vm_compute). Qed.

Lemma trim_left_name s : Forall (λ c, name_byte c = true) s → trim_left s = s.
Proof. intros [|c s' Hc _]; [done|]. cbn [trim_left]. by rewrite name_byte_no_space. Qed.

Lemma trim_space_name s : Forall (λ c, name_byte c = true) s → trim_space s = s.
Proof.
  intros H. unfold trim_space. rewrite (trim_left_name s) by done.
  by rewrite trim_left_name, reverse_involutive by (by apply Forall_reverse).
Qed.

Lemma sanitize_byte c : name_byte c = true → (if is_alnum c || bool_decide (c ∈ bs "_-.") then c else x5f) = c.
Proof. destruct c; (done || by vm_compute). Qed.

(** A name that validation accepts is its own directory name. *)
Lemma sanitizeName_id name : nameRe name = true → sanitizeName name = name.
Proof.
  destruct name as [|b s]; [done|]. cbn [nameRe]. intros [Hb Hs]%andb_true_iff. rewrite forallb_forall in Hs.
  assert (Forall (λ c, name_byte c = true) (b :: s)) as Hn.
  { constructor; [unfold name_byte; by rewrite Hb|]. apply Forall_forall. intros c Hc. apply Hs. by apply list_elem_of_In. }
  unfold sanitizeName. rewrite trim_space_name by done.
  assert (∀ t, ¬ (b :: t = [] ∨ b :: t = bs "." ∨ b :: t = bs "..")) as Hd.
  { intros t [?|[[= -> _]|[= -> _]]]; done. }
  rewrite decide_False by apply Hd.
  assert ((λ c, if is_alnum c || bool_decide (c ∈ bs "_-.") then c else x5f) <$> b :: s = b :: s) as ->.
  { rewrite <- (list_fmap_id (b :: s)) at 2. apply list_fmap_ext. intros i c Hc. apply sanitize_byte.
    rewrite Forall_lookup in Hn. by eapply Hn. }
  rewrite decide_False by apply Hd. done.
Qed.

(** A workflow whose configured state and checkpoint directories are equal
    keeps its state among its checkpoints: only default directories are
    told apart by resource. *)
Example equal_directories_collide :
  jobDir demo_join (bs "/data") (bs "./data") (bs "orders") (bs "state")
  = jobDir demo_join (bs "/data") (bs "./data") (bs "orders") (bs "checkpoints")
  ∧ jobDir demo_join [] (bs "./data") (bs "orders") (bs "state") ≠ jobDir demo_join [] (bs "./data") (bs "orders") (bs "checkpoints").
Proof. split; [done|]. by vm_compute. Qed.

(** The value of a secret is itself searched for references. *)
Example secret_with_reference_refused :
  resolveOne (λ _, Some (bs "pa${ss")) (bs "password") demo_secret = Err (bs "password: invalid secret reference syntax").
Proof. vm_compute. reflexivity. Qed.
