(* ===== verification/FieldOps.v ===== *)
(** * Field operators ([src/workflow/record], [src/workflow/operators], [src/workflow/compiler/operators.go])

    Declarative operators read and change JSON records by dotted path.  Go maps
    are references and the operators change them in place, share them between
    records and keep them in the configuration, so objects live in a heap.  The
    JSON text is a parameter: [decode] reads the first value of a text,
    [unmarshal] a text that is one value, [marshal] writes a value; blank text
    is trimmed as ASCII.  A [float64] constant of the configuration is its
    shortest text. *)

From S2P Require Import Prelude Rfc3339 Decimal Record Float64 Workflow.
From Stdlib Require Import Strings.Byte.

(** ** Values *)

(** [any]: the dynamic types that occur; an object is a reference. *)
Inductive gval :=
| GNil
| GBool (b : bool)
| GString (s : bytes)
| GNumber (lit : bytes)
| GInt (n : Z)
| GFloat (text : bytes)
| GList (l : list gval)
| GObj (o : nat).

(** A JSON value as text has it; [JInt] and [JFloat] only occur when writing. *)
Inductive json :=
| JNull
| JBool (b : bool)
| JString (s : bytes)
| JNumber (lit : bytes)
| JInt (n : Z)
| JFloat (text : bytes)
| JArray (l : list json)
| JObject (fs : list (bytes * json)).

Record heap := mkHeap { objs : gmap nat (gmap bytes gval); hnext : nat }.

(** [JSONRecord]: a map, possibly nil. *)
Definition JSONRecord := option nat.

Definition new_object (h : heap) (m : gmap bytes gval) : heap * nat := (mkHeap (<[hnext h := m]> (objs h)) (S (hnext h)), hnext h).
(** Reading a nil map finds nothing; writing to it panics. *)
Definition fields (h : heap) (d : JSONRecord) : gmap bytes gval := match d with None => ∅ | Some o => default ∅ (objs h !! o) end.
Definition put (h : heap) (d : JSONRecord) (s : bytes) (v : gval) : result heap :=
  match d with
  | None => Panic (bs "assignment to entry in nil map")
  | Some o => Ok (mkHeap (<[o := <[s := v]> (fields h d)]> (objs h)) (hnext h))
  end.
Definition del (h : heap) (d : JSONRecord) (s : bytes) : heap :=
  match d with None => h | Some o => mkHeap (<[o := base.delete s (fields h d)]> (objs h)) (hnext h) end.

Section alloc.
Context (alloc : json → heap → heap * gval).
Fixpoint alloc_list (l : list json) (h : heap) : heap * list gval :=
  match l with
  | [] => (h, [])
  | j :: l => let '(h, v) := alloc j h in let '(h, vs) := alloc_list l h in (h, v :: vs)
  end.
(** A later field of the same name wins. *)
Fixpoint alloc_fields (fs : list (bytes * json)) (h : heap) (m : gmap bytes gval) : heap * gmap bytes gval :=
  match fs with
  | [] => (h, m)
  | (k, j) :: fs => let '(h, v) := alloc j h in alloc_fields fs h (<[k := v]> m)
  end.
End alloc.

(** What the decoder allocates. *)
Fixpoint alloc_json (j : json) (h : heap) : heap * gval :=
  match j with
  | JNull => (h, GNil)
  | JBool b => (h, GBool b)
  | JString s => (h, GString s)
  | JNumber l => (h, GNumber l)
  | JInt n => (h, GInt n)
  | JFloat t => (h, GFloat t)
  | JArray l => let '(h, l) := alloc_list alloc_json l h in (h, GList l)
  | JObject fs =>
      let '(h, m) := alloc_fields alloc_json fs h ∅ in
      let '(h, o) := new_object h m in (h, GObj o)
  end.

(** The constants of the configuration, allocated once. *)
Fixpoint json_of_any (v : anyval) : json :=
  match v with
  | VNil => JNull | VBool b => JBool b | VString s => JString s | VInt n => JInt n | VFloat t => JFloat t
  | VList l => JArray (map json_of_any l)
  | VMap m => JObject (map (λ kv, (kv.1, json_of_any kv.2)) m)
  end.
Definition alloc_any (v : anyval) (h : heap) : heap * gval := alloc_json (json_of_any v) h.

(** What the encoder sees; deeper than the heap has objects means a cycle. *)
Fixpoint read_json (fuel : nat) (h : heap) : gval → option json :=
  fix go (v : gval) : option json :=
    match v with
    | GNil => Some JNull
    | GBool b => Some (JBool b)
    | GString s => Some (JString s)
    | GNumber l => Some (JNumber l)
    | GInt n => Some (JInt n)
    | GFloat t => if bool_decide (t ∈ bs <$> ["NaN"; "+Inf"; "-Inf"]%string) then None else Some (JFloat t)
    | GList l => JArray <$> mapM go l
    | GObj o =>
        match fuel with
        | O => None
        | S fuel => JObject <$> mapM (λ kv, (λ j, (kv.1, j)) <$> read_json fuel h kv.2) (map_to_list (fields h (Some o)))
        end
    end.

(** ** [fmt.Sprint] *)

Definition key_le (a b : bytes * gval) : Prop := ¬ bytes_lt b.1 a.1.
#[local] Instance key_le_dec : RelDecision key_le.
Proof. intros a b. unfold key_le. apply _. Defined.

Definition join_with (sep : bytes) (l : list bytes) : bytes :=
  match l with [] => [] | x :: l => x ++ concat ((λ y, sep ++ y) <$> l) end.

Fixpoint sprint (fuel : nat) (h : heap) : gval → bytes :=
  fix go (v : gval) : bytes :=
    match v with
    | GNil => bs "<nil>"
    | GBool b => if b then bs "true" else bs "false"
    | GString s => s
    | GNumber l => l
    | GInt n => FormatInt n
    | GFloat t => t
    | GList l => bs "[" ++ join_with (bs " ") (map go l) ++ bs "]"
    | GObj o =>
        match fuel with
        | O => []
        | S fuel => bs "map[" ++ join_with (bs " ") (map (λ kv, kv.1 ++ bs ":" ++ sprint fuel h kv.2)
                                                        (merge_sort key_le (map_to_list (fields h (Some o))))) ++ bs "]"
        end
    end.
Definition Sprint (h : heap) (v : gval) : bytes := sprint (S (hnext h)) h v.

(** ** Paths ([path.go]) *)

(** [strings.Split(path, ".")] *)
Definition split_dots (s : bytes) : list bytes := strings_Split x2e s.

(** [splitPath] *)
Definition splitPath (path : bytes) : result (list bytes) :=
  if decide (path = []) then Err (bs "record: empty field path")
  else if decide ([] ∈ split_dots path) then Err (bs "record: invalid field path (empty segment)")
  else Ok (split_dots path).

Fixpoint get_segs (h : heap) (cur : JSONRecord) (segs : list bytes) : option gval :=
  match segs with
  | [] => None
  | [s] => fields h cur !! s
  | s :: segs => match fields h cur !! s with Some (GObj o) => get_segs h (Some o) segs | _ => None end
  end.

(** [GetField] *)
Definition GetField (h : heap) (data : JSONRecord) (path : bytes) : option gval :=
  match splitPath path with Ok segs => get_segs h data segs | _ => None end.

Definition not_object {A} : result A := Err (bs "record: not an object").

Fixpoint set_segs (h : heap) (cur : JSONRecord) (segs : list bytes) (value : gval) : heap * result unit :=
  match segs with
  | [] => (h, Ok tt)
  | [s] => match put h cur s value with Ok h => (h, Ok tt) | Err e => (h, Err e) | Panic e => (h, Panic e) end
  | s :: segs =>
      match fields h cur !! s with
      | None =>
          let '(h, o) := new_object h ∅ in
          match put h cur s (GObj o) with Ok h => set_segs h (Some o) segs value | Err e => (h, Err e) | Panic e => (h, Panic e) end
      | Some (GObj o) => set_segs h (Some o) segs value
      | Some _ => (h, not_object)
      end
  end.

(** [SetField] *)
Definition SetField (h : heap) (data : JSONRecord) (path : bytes) (value : gval) : heap * result unit :=
  match splitPath path with Ok segs => set_segs h data segs value | Err e => (h, Err e) | Panic e => (h, Panic e) end.

Fixpoint del_segs (h : heap) (cur : JSONRecord) (segs : list bytes) : heap * result unit :=
  match segs with
  | [] => (h, Ok tt)
  | [s] => (del h cur s, Ok tt)
  | s :: segs =>
      match fields h cur !! s with
      | None => (h, Ok tt)
      | Some (GObj o) => del_segs h (Some o) segs
      | Some _ => (h, not_object)
      end
  end.

(** [DeleteField] *)
Definition DeleteField (h : heap) (data : JSONRecord) (path : bytes) : heap * result unit :=
  match splitPath path with Ok segs => del_segs h data segs | Err e => (h, Err e) | Panic e => (h, Panic e) end.

(** ** Comparisons ([compare.go]) *)

Inductive CompareOp := OpEquals | OpNotEquals | OpGreaterThan | OpGreaterThanOrEqual | OpLessThan | OpLessThanOrEqual
| OpContains | OpExists | OpNotExists.

(** The operators by name; another name is not [Valid]. *)
Definition compareOps (name : bytes) : option CompareOp :=
  if decide (name = bs "equals") then Some OpEquals
  else if decide (name = bs "not_equals") then Some OpNotEquals
  else if decide (name = bs "greater_than") then Some OpGreaterThan
  else if decide (name = bs "greater_than_or_equal") then Some OpGreaterThanOrEqual
  else if decide (name = bs "less_than") then Some OpLessThan
  else if decide (name = bs "less_than_or_equal") then Some OpLessThanOrEqual
  else if decide (name = bs "contains") then Some OpContains
  else if decide (name = bs "exists") then Some OpExists
  else if decide (name = bs "not_exists") then Some OpNotExists
  else None.

(** [asNumber] *)
Definition asNumber (v : gval) : option bytes :=
  match v with GNumber l => Some l | GInt n => Some (FormatInt n) | GFloat t => Some t | _ => None end.

(** [asFloat] *)
Definition asFloat (v : gval) : option float64 :=
  n ← asNumber v; match ParseFloat n with (f, true) => Some f | (_, false) => None end.

(** [numbersEqual] *)
Definition numbersEqual (a b : bytes) : bool :=
  match ParseInt a, ParseInt b with
  | Some ai, Some bi => bool_decide (ai = bi)
  | _, _ => match ParseFloat a, ParseFloat b with (af, true), (bf, true) => f_eqb af bf | _, _ => false end
  end.

(** [valuesEqual] *)
Definition valuesEqual (a b : gval) : bool :=
  match asNumber a, asNumber b with
  | Some an, Some bn => numbersEqual an bn
  | Some _, None | None, Some _ => false
  | None, None =>
      match a, b with
      | GBool x, GBool y => bool_decide (x = y)
      | GString x, GString y => bool_decide (x = y)
      | _, _ => false
      end
  end.

(** [strings.Compare] *)
Definition bytes_cmp (a b : bytes) : comparison := if bytes_ltb a b then Lt else if bytes_ltb b a then Gt else Eq.

(** [orderedCmp]; neither less nor greater counts as equal, also for NaN. *)
Definition orderedCmp (a b : gval) (pred : comparison → bool) : bool :=
  match asFloat a with
  | Some af =>
      match asFloat b with
      | Some bf => if f_ltb af bf then pred Lt else if f_ltb bf af then pred Gt else pred Eq
      | None => false
      end
  | None => match a, b with GString x, GString y => pred (bytes_cmp x y) | _, _ => false end
  end.

(** [looseString] *)
Definition looseString (h : heap) (v : gval) : bytes :=
  match v with GString s => s | GNumber l => l | GNil => [] | v => Sprint h v end.

(** [contains] *)
Definition contains (h : heap) (field target : gval) : bool :=
  match field with
  | GString f => bytes_contains f (looseString h target)
  | GList l => existsb (λ e, valuesEqual e target) l
  | _ => false
  end.

Definition gt_sign (c : comparison) : bool := match c with Gt => true | _ => false end.
Definition lt_sign (c : comparison) : bool := match c with Lt => true | _ => false end.

(** [Compare]; [None] is the error of an unsupported operator. *)
Definition Compare (h : heap) (name : bytes) (field : option gval) (target : gval) : option bool :=
  match compareOps name with
  | None => None
  | Some OpExists => Some (bool_decide (is_Some field))
  | Some OpNotExists => Some (bool_decide (¬ is_Some field))
  | Some op =>
      match field with
      | None => Some false
      | Some v =>
          Some (match op with
                | OpEquals => valuesEqual v target
                | OpNotEquals => negb (valuesEqual v target)
                | OpGreaterThan => orderedCmp v target gt_sign
                | OpGreaterThanOrEqual => orderedCmp v target (λ c, negb (lt_sign c))
                | OpLessThan => orderedCmp v target lt_sign
                | OpLessThanOrEqual => orderedCmp v target (λ c, negb (gt_sign c))
                | OpContains => contains h v target
                | OpExists | OpNotExists => false
                end)
      end
  end.

(** ** Records ([json.go]) *)

(** A record with its cached view [Parsed]: a decoded object, or nothing usable. *)
Record jrecord := mkJ { j_rec : Record_; j_parsed : option JSONRecord }.

Definition set_value (r : Record_) (v : bytes) : Record_ :=
  mkRecord (Key r) v (Timestamp r) (Offset r) (Partition r) (Source r) (Headers r) (IsWatermark r) (IsBarrier r) (CheckpointID r).

Section codec.
Context (decode unmarshal : bytes → option json) (marshal : json → bytes).

(** [decodeJSONBytes] *)
Definition decodeJSONBytes (h : heap) (data : bytes) : heap * result JSONRecord :=
  if decide (trim_space data = []) then let '(h, o) := new_object h ∅ in (h, Ok (Some o))
  else
    match decode data with
    | Some JNull => (h, Ok None)
    | Some (JObject fs) => match alloc_json (JObject fs) h with (h, GObj o) => (h, Ok (Some o)) | (h, _) => (h, Ok None) end
    | _ => (h, Err (bs "record: decode json object"))
    end.

(** [DecodeJSON] *)
Definition DecodeJSON (h : heap) (r : jrecord) : heap * result JSONRecord :=
  match j_parsed r with Some p => (h, Ok p) | None => decodeJSONBytes h (Value (j_rec r)) end.

(** [EncodeJSON] *)
Definition EncodeJSON (h : heap) (data : JSONRecord) : option bytes :=
  marshal <$> match data with None => Some JNull | Some o => read_json (S (hnext h)) h (GObj o) end.

(** [BuildFilter]: keep the record? *)
Definition BuildFilter (name field : bytes) (target : gval) (h : heap) (r : jrecord) : heap * bool :=
  let '(h, d) := DecodeJSON h r in
  match d with
  | Ok jr => (h, default false (Compare h name (GetField h jr field) target))
  | _ => (h, false)
  end.

(** [applyMap]; the transforms return no error of their own. *)
Definition applyMap (h : heap) (r : jrecord) (transform : heap → JSONRecord → heap * result JSONRecord) : heap * result jrecord :=
  let '(h, d) := DecodeJSON h r in
  match d with
  | Ok inp =>
      let '(h, out) := transform h inp in
      match out with
      | Ok out => match EncodeJSON h out with
                  | Some b => (h, Ok (mkJ (set_value (j_rec r) b) (Some out)))
                  | None => (h, Ok r)
                  end
      | Err _ => (h, Ok r)
      | Panic e => (h, Panic e)
      end
  | _ => (h, Ok r)
  end.

(** The loop of [BuildSelect]; an error of [SetField] is dropped. *)
Fixpoint select_loop (h : heap) (inp out : JSONRecord) (fs : list bytes) : heap * result unit :=
  match fs with
  | [] => (h, Ok tt)
  | f :: fs =>
      match GetField h inp f with
      | None => select_loop h inp out fs
      | Some v =>
          let '(h, e) := SetField h out f v in
          match e with Panic e => (h, Panic e) | _ => select_loop h inp out fs end
      end
  end.

Definition select_transform (fs : list bytes) (h : heap) (inp : JSONRecord) : heap * result JSONRecord :=
  let '(h, o) := new_object h ∅ in
  let '(h, e) := select_loop h inp (Some o) fs in
  match e with Panic e => (h, Panic e) | _ => (h, Ok (Some o)) end.

(** [BuildSelect] *)
Definition BuildSelect (fs : list bytes) (h : heap) (r : jrecord) : heap * result jrecord := applyMap h r (select_transform fs).

(** One rename *)
Definition rename_one (h : heap) (inp : JSONRecord) (rn : RenameSpec) : heap * result unit :=
  match GetField h inp (rn_From rn) with
  | None => (h, Ok tt)
  | Some v =>
      let '(h, e) := SetField h inp (rn_To rn) v in
      match e with
      | Ok _ => ((DeleteField h inp (rn_From rn)).1, Ok tt)
      | Err _ => (h, Ok tt)
      | Panic e => (h, Panic e)
      end
  end.

Fixpoint rename_loop (h : heap) (inp : JSONRecord) (rns : list RenameSpec) : heap * result unit :=
  match rns with
  | [] => (h, Ok tt)
  | rn :: rns => let '(h, e) := rename_one h inp rn in match e with Panic e => (h, Panic e) | _ => rename_loop h inp rns end
  end.

(** [BuildRename] *)
Definition BuildRename (rns : list RenameSpec) (h : heap) (r : jrecord) : heap * result jrecord :=
  applyMap h r (λ h inp, let '(h, e) := rename_loop h inp rns in match e with Panic e => (h, Panic e) | _ => (h, Ok inp) end).

Fixpoint set_loop (h : heap) (inp : JSONRecord) (sets : list (bytes * gval)) : heap * result unit :=
  match sets with
  | [] => (h, Ok tt)
  | (f, v) :: sets => let '(h, e) := SetField h inp f v in match e with Panic e => (h, Panic e) | _ => set_loop h inp sets end
  end.

(** [BuildSet]; the constants were allocated with the configuration. *)
Definition BuildSet (sets : list (bytes * gval)) (h : heap) (r : jrecord) : heap * result jrecord :=
  applyMap h r (λ h inp, let '(h, e) := set_loop h inp sets in match e with Panic e => (h, Panic e) | _ => (h, Ok inp) end).

(** ** Keys and aggregates ([compiler/operators.go]) *)

(** [buildKeySelector] *)
Definition buildKeySelector (field : bytes) (h : heap) (r : jrecord) : heap * bytes :=
  let '(h, d) := DecodeJSON h r in
  match d with
  | Ok jr => (h, match GetField h jr field with Some v => Sprint h v | None => [] end)
  | _ => (h, [])
  end.

(** [toFloat] *)
Definition toFloat (v : gval) : float64 :=
  match v with
  | GNumber l => (ParseFloat l).1
  | GFloat t => (ParseFloat t).1
  | GInt n => f_of_int n
  | _ => f_zero
  end.

(** [isValidNumber] of the JSON package *)
Definition valid_exponent (s : bytes) : bool := match s with [] => true | _ => bool_decide (is_Some (parse_exponent s)) end.
Definition isValidNumber (s : bytes) : bool :=
  let s := match s with b :: s' => if bool_decide (b = minus) then s' else s | [] => [] end in
  let '(ip, s) := span_digits s in
  let '(ok, s) := match s with
                  | b :: s' => if bool_decide (b = x2e) then let '(fp, s'') := span_digits s' in (bool_decide (fp ≠ []), s'') else (true, s)
                  | [] => (true, [])
                  end in
  match ip with [] => false | d :: ip => bool_decide (d = 0 → ip = []) && ok && valid_exponent s end.

(** The text of a [json.Number] field of an accumulator. *)
Definition agg_number (j : json) : option bytes :=
  match j with JNumber l => Some l | JNull => Some [] | JString s => if isValidNumber s then Some s else None | _ => None end.

(** [readAgg] *)
Definition readAgg (accum : bytes) (key : bytes) : float64 :=
  if decide (accum = []) then f_zero
  else
    match unmarshal accum with
    | Some (JObject fs) =>
        match mapM (λ kv, (λ l, (kv.1, l)) <$> agg_number kv.2) fs with
        | Some ls => match foldl (λ a kl, if decide (kl.1 = key) then Some kl.2 else a) None ls with
                     | Some l => (ParseFloat l).1
                     | None => f_zero
                     end
        | None => f_zero
        end
    | _ => f_zero
    end.

(** [writeAgg] *)
Definition writeAgg (key : bytes) (val : float64) : bytes :=
  let num := if f_eqb val (f_of_int (f_to_int val)) then FormatInt (f_to_int val) else FormatFloat val in
  marshal (JObject [(key, JNumber num)]).

(** The functions of [buildReducer] *)
Definition count_fn (accum : bytes) : bytes := writeAgg (bs "count") (f_add (readAgg accum (bs "count")) (f_of_int 1)).
Definition sum_fn (field : bytes) (h : heap) (accum : bytes) (r : jrecord) : heap * bytes :=
  let s := readAgg accum (bs "sum") in
  let '(h, d) := DecodeJSON h r in
  let s := match d with
           | Ok jr => match GetField h jr field with Some v => f_add s (toFloat v) | None => s end
           | _ => s
           end in
  (h, writeAgg (bs "sum") s).
End codec.
