(* ===== verification/FieldOpsCorrect.v ===== *)
(** * What the field operators promise

    [look] reads a value by a path of fields and list positions.  In a heap
    where a record is a tree, renaming and selecting move exactly the named
    fields; integers up to 2^53 compare and count exactly.  Records that share
    objects, null records and larger numbers behave differently. *)

From S2P Require Import Prelude Rfc3339 Decimal Record Float64 Workflow FieldOps.
From Stdlib Require Import Strings.Byte.

(** ** Paths through the heap *)

#[local] Arguments fields : simpl never.

Inductive elem := F (s : bytes) | I (n : nat).
#[global] Instance elem_eq_dec : EqDecision elem.
Proof. solve_decision. Defined.

Fixpoint look (h : heap) (v : gval) (r : list elem) : option gval :=
  match r with
  | [] => Some v
  | F s :: r => match v with GObj o => w ← fields h (Some o) !! s; look h w r | _ => None end
  | I n :: r => match v with GList l => w ← l !! n; look h w r | _ => None end
  end.

Lemma look_app h v r1 r2 : look h v (r1 ++ r2) = w ← look h v r1; look h w r2.
Proof.
  revert v. induction r1 as [|[s|n] r1 IH]; intros v; [done|..]; cbn [app look];
    destruct v; try done; [by destruct (fields h (Some o) !! s); osimpl|by destruct (l !! n); osimpl].
Qed.

(** Reading a field is looking along its segments. *)
Lemma get_segs_look h x segs : segs ≠ [] → get_segs h (Some x) segs = look h (GObj x) (F <$> segs).
Proof.
  revert x. induction segs as [|s [|t segs] IH]; intros x Hne; [done|..].
  - cbn. by destruct (fields h (Some x) !! s).
  - rewrite fmap_cons. cbn [look].
    change (get_segs h (Some x) (s :: t :: segs))
      with (match fields h (Some x) !! s with Some (GObj o) => get_segs h (Some o) (t :: segs) | _ => None end).
    destruct (fields h (Some x) !! s) as [v|]; [|done]. osimpl. destruct v; try done. by apply IH.
Qed.

(** The objects of a value that no field leads to. *)
Definition below (n : nat) (v : gval) : Prop := ∀ r y, look (mkHeap ∅ 0) v (I <$> r) = Some (GObj y) → (y < n)%nat.

(** The objects of allocated objects are allocated. *)
Definition wf_heap (h : heap) : Prop :=
  ∀ y s v, (y < hnext h)%nat → fields h (Some y) !! s = Some v → below (hnext h) v.

(** A record is a tree when no object of it is reached twice. *)
Definition tree (h : heap) (v : gval) : Prop :=
  ∀ r1 r2 y, look h v r1 = Some (GObj y) → look h v r2 = Some (GObj y) → r1 = r2.

Lemma look_index h h' v r : look h v (I <$> r) = look h' v (I <$> r).
Proof. revert v. induction r as [|n r IH]; intros v; [done|]. cbn. destruct v; try done. destruct (l !! n); [|done]. apply IH. Qed.

Lemma below_obj n y : below n (GObj y) ↔ (y < n)%nat.
Proof.
  split; [intros H; apply (H []); done|]. intros Hy [|i r] z; [by intros [= <-]|done].
Qed.

Lemma below_step h v e w n : wf_heap h → n = hnext h → below n v → look h v [e] = Some w → below n w.
Proof.
  intros Hw -> Hb. destruct e as [s|i]; cbn.
  - destruct v; try done. destruct (fields h (Some o) !! s) as [u|] eqn:E; [|done]. intros [= ->]. apply (Hw o s); [by apply below_obj|done].
  - destruct v; try done. destruct (l !! i) as [u|] eqn:E; [|done]. intros [= ->] r y Hy. apply (Hb (i :: r)). cbn. by rewrite E.
Qed.

Lemma look_below h v r w : wf_heap h → below (hnext h) v → look h v r = Some w → below (hnext h) w.
Proof.
  intros Hw. revert v. induction r as [|e r IH]; intros v Hb; [by intros [= <-]|].
  change (e :: r) with ([e] ++ r). rewrite look_app. destruct (look h v [e]) as [u|] eqn:E; [|done]. osimpl.
  apply IH. by eapply below_step.
Qed.

(** A path that takes no changed field does not notice the change; [Q] holds of
    the values it passes. *)
Lemma look_agree_gen (Q : gval → Prop) (bad : nat → bytes → Prop) h h' v r : (∀ u e w, Q u → look h u [e] = Some w → Q w) → Q v →
  (∀ y t, Q (GObj y) → ¬ bad y t → fields h' (Some y) !! t = fields h (Some y) !! t) →
  (∀ r0 t r1 y, r = r0 ++ F t :: r1 → look h v r0 = Some (GObj y) → ¬ bad y t) →
  look h' v r = look h v r.
Proof.
  intros HQ Hv Hf. revert v Hv. induction r as [|e r IH]; intros v Hv Hr; [done|].
  assert (∀ w, look h v [e] = Some w → look h' w r = look h w r) as Hn.
  { intros w Hw. apply IH; [by eapply HQ|]. intros r0 t r1 y -> E. apply (Hr (e :: r0) t r1); [done|].
    change (e :: r0) with ([e] ++ r0). rewrite look_app, Hw. done. }
  destruct e as [t|i]; cbn in *.
  - destruct v; try done. rewrite (Hf o t); [|done|by apply (Hr [] t r)].
    destruct (fields h (Some o) !! t) as [w|]; [|done]. osimpl. by apply Hn.
  - destruct v; try done. destruct (l !! i) as [w|]; [|done]. osimpl. by apply Hn.
Qed.

(** One changed field. *)
Lemma look_agree h h' v r a s : wf_heap h → below (hnext h) v →
  (∀ y t, (y < hnext h)%nat → (y = a → t ≠ s) → fields h' (Some y) !! t = fields h (Some y) !! t) →
  (∀ r0 r1, r = r0 ++ F s :: r1 → look h v r0 ≠ Some (GObj a)) →
  look h' v r = look h v r.
Proof.
  intros Hw Hb Hf Hr. apply (look_agree_gen (below (hnext h)) (λ y t, y = a ∧ t = s)); [|done|..].
  - intros u e w. by apply below_step.
  - intros y t Hy Hn. apply Hf; [by apply below_obj|tauto].
  - intros r0 t r1 y -> E [-> ->]. by apply (Hr r0 r1).
Qed.

(** No changed field below the old allocation limit. *)
Lemma look_frame h h' v r : wf_heap h → below (hnext h) v →
  (∀ y, (y < hnext h)%nat → fields h' (Some y) = fields h (Some y)) → look h' v r = look h v r.
Proof.
  intros Hw Hb Hf. apply (look_agree_gen (below (hnext h)) (λ _ _, False)); [|done|..|tauto].
  - intros u e w. by apply below_step.
  - intros y t Hy _. by rewrite Hf by (by apply below_obj).
Qed.

(** ** Setting a field *)

Definition upd (h : heap) (x : nat) (s : bytes) (v : gval) : heap := mkHeap (<[x := <[s := v]> (fields h (Some x))]> (objs h)) (hnext h).

Lemma fields_upd h x s v y : fields (upd h x s v) (Some y) = if decide (y = x) then <[s := v]> (fields h (Some x)) else fields h (Some y).
Proof.
  unfold fields at 1, upd. cbn [objs]. destruct (decide (y = x)) as [->|]; [by rewrite lookup_insert_eq|]. by rewrite lookup_insert_ne.
Qed.

Lemma fields_new h m y : fields (new_object h m).1 (Some y) = if decide (y = hnext h) then m else fields h (Some y).
Proof.
  unfold fields, new_object. cbn [fst objs]. destruct (decide (y = hnext h)) as [->|]; [by rewrite lookup_insert_eq|].
  by rewrite lookup_insert_ne.
Qed.

(** A chain of new objects, from [lo] on, that leads along [post] to [v]. *)
Fixpoint built (lo : nat) (h : heap) (w : gval) (post : list bytes) (v : gval) : Prop :=
  match post with
  | [] => w = v
  | t :: post => ∃ n w', w = GObj n ∧ (lo ≤ n < hnext h)%nat ∧ fields h (Some n) = {[t := w']} ∧ built (S n) h w' post v
  end.

Lemma built_mono lo lo' h w post v : (lo ≤ lo')%nat → built lo' h w post v → built lo h w post v.
Proof. destruct post as [|t post]; [done|]. intros Hl (n & w' & -> & Hn & Hf & Hb). exists n, w'. split_and!; [done|lia|lia|done|done]. Qed.

Lemma set_segs_cons h x s t segs v : set_segs h (Some x) (s :: t :: segs) v =
  match fields h (Some x) !! s with
  | None => set_segs (upd (new_object h ∅).1 x s (GObj (hnext h))) (Some (hnext h)) (t :: segs) v
  | Some (GObj o) => set_segs h (Some o) (t :: segs) v
  | Some _ => (h, not_object)
  end.
Proof. done. Qed.

Lemma set_new segs : ∀ h o v, segs ≠ [] → (o < hnext h)%nat → fields h (Some o) = ∅ →
  ∃ h', set_segs h (Some o) segs v = (h', Ok tt) ∧ (hnext h ≤ hnext h')%nat
    ∧ (∀ y, (y < hnext h)%nat → y ≠ o → fields h' (Some y) = fields h (Some y)) ∧ built o h' (GObj o) segs v.
Proof.
  induction segs as [|s [|t segs] IH]; intros h o v Hne Ho Hf; [done|..].
  - exists (upd h o s v). split; [done|]. split; [done|]. split.
    + intros y _ Hy. rewrite fields_upd. by rewrite decide_False.
    + exists o, v. rewrite fields_upd, decide_True, Hf by done. done.
  - rewrite set_segs_cons, Hf, lookup_empty. set (h1 := upd _ _ _ _).
    assert (∀ y, fields h1 (Some y) = if decide (y = o) then {[s := GObj (hnext h)]} else if decide (y = hnext h) then ∅ else fields h (Some y)) as H1.
    { intros y. unfold h1. rewrite fields_upd, !fields_new. rewrite (decide_False (P := o = hnext h)), Hf by lia. by destruct (decide (y = o)). }
    destruct (IH h1 (hnext h) v) as (h' & E & Hn & Hy & Hb); [done|unfold h1; cbn; lia|by rewrite H1, decide_False, decide_True by lia|].
    exists h'. split; [done|]. split; [unfold h1 in Hn; cbn in Hn; lia|]. split.
    + intros y Hy1 Hy2. rewrite Hy, H1, !decide_False by (unfold h1; cbn; lia). done.
    + exists o, (GObj (hnext h)). split; [done|]. split; [unfold h1 in Hn; cbn in Hn; lia|].
      rewrite Hy, H1, decide_True by (unfold h1; cbn; lia). split; [done|]. eapply built_mono; [|done]. lia.
Qed.

(** A successful write changes one field of one object of the record: the last
    one on the path that exists. *)
Record set_effect (h h' : heap) (x : nat) (segs : list bytes) (v : gval) pre s post a w : Prop := {
  se_path : segs = pre ++ s :: post;
  se_found : look h (GObj x) (F <$> pre) = Some (GObj a);
  se_field : fields h' (Some a) = <[s := w]> (fields h (Some a));
  se_others y : (y < hnext h)%nat → y ≠ a → fields h' (Some y) = fields h (Some y);
  se_next : (hnext h ≤ hnext h')%nat;
  se_built : built (hnext h) h' w post v;
  se_absent : post ≠ [] → fields h (Some a) !! s = None
}.

Lemma set_segs_effect segs : ∀ h x v h', wf_heap h → (x < hnext h)%nat → segs ≠ [] → set_segs h (Some x) segs v = (h', Ok tt) →
  ∃ pre s post a w, set_effect h h' x segs v pre s post a w.
Proof.
  induction segs as [|s [|t segs] IH]; intros h x v h' Hw Hx Hne E; [done|..].
  - injection E as <-. exists [], s, [], x, v. split; try done.
    + change (fields (upd h x s v) (Some x) = <[s:=v]> (fields h (Some x))). by rewrite fields_upd, decide_True.
    + intros y _ Hy. change (fields (upd h x s v) (Some y) = fields h (Some y)). by rewrite fields_upd, decide_False.
  - rewrite set_segs_cons in E. destruct (fields h (Some x) !! s) as [u|] eqn:Es.
    + destruct u as [| | | | | | |o]; try done. destruct (IH h o v h') as (pre & s' & post & a & w & []); [done| |done|done|].
      { apply below_obj. by apply (Hw x s). }
      exists (s :: pre), s', post, a, w. split; try done.
      * cbn [app]. by f_equal.
      * cbn. rewrite Es. done.
    + set (h1 := upd _ _ _ _) in E.
      assert (∀ y, fields h1 (Some y) = if decide (y = x) then <[s := GObj (hnext h)]> (fields h (Some x))
                                        else if decide (y = hnext h) then ∅ else fields h (Some y)) as H1.
      { intros y. unfold h1. rewrite fields_upd, !fields_new. rewrite (decide_False (P := x = hnext h)) by lia. done. }
      destruct (set_new (t :: segs) h1 (hnext h) v) as (h'' & E' & Hn & Hy & Hb);
        [done|unfold h1; cbn; lia|by rewrite H1, decide_False, decide_True by lia|].
      rewrite E in E'. injection E' as <-. exists [], s, (t :: segs), x, (GObj (hnext h)).
      split; try done; try (unfold h1 in Hn; cbn in Hn; lia).
      * rewrite Hy, H1, decide_True by (unfold h1; cbn; lia). done.
      * intros y Hy1 Hy2. rewrite Hy, H1, !decide_False by (unfold h1; cbn; lia). done.
Qed.

(** The heap stays well formed. *)
Lemma below_mono n m v : (n ≤ m)%nat → below n v → below m v.
Proof. intros Hnm Hb r y Hy. specialize (Hb r y Hy). lia. Qed.

Lemma upd_wf h x s v : wf_heap h → below (hnext h) v → wf_heap (upd h x s v).
Proof.
  intros Hw Hv y t w Hy. rewrite fields_upd. cbn [hnext upd] in *. destruct (decide (y = x)) as [->|]; [|by apply Hw].
  intros [[_ <-]|[_ Ht]]%lookup_insert_Some; [done|by apply (Hw x t)].
Qed.

Lemma new_wf h : wf_heap h → wf_heap (new_object h ∅).1.
Proof.
  intros Hw y t w Hy. rewrite fields_new. destruct (decide (y = hnext h)) as [->|]; [by rewrite lookup_empty|].
  cbn in Hy. intros Ht. apply (below_mono (hnext h)); [cbn; lia|]. apply (Hw y t); [lia|done].
Qed.

Lemma set_segs_wf segs : ∀ h x v, wf_heap h → (x < hnext h)%nat → below (hnext h) v → wf_heap (set_segs h (Some x) segs v).1.
Proof.
  induction segs as [|s [|t segs] IH]; intros h x v Hw Hx Hv; [done|by apply (upd_wf h x s)|].
  rewrite set_segs_cons. destruct (fields h (Some x) !! s) as [u|] eqn:Es.
  - destruct u as [| | | | | | |o]; try done. apply IH; [done| |done]. apply below_obj. by apply (Hw x s).
  - apply IH.
    + apply upd_wf; [by apply new_wf|]. apply below_obj. cbn. lia.
    + cbn. lia.
    + apply (below_mono (hnext h)); [cbn; lia|done].
Qed.

(** ** What is read after a write *)

Lemma built_look lo h w post v r : built lo h w post v → look h w ((F <$> post) ++ r) = look h v r.
Proof.
  revert lo w. induction post as [|t post IH]; intros lo w; [by intros ->|]. intros (n & w' & -> & _ & Hf & Hb).
  cbn. rewrite Hf, lookup_singleton_eq. osimpl. by eapply IH.
Qed.

(** Off the chain there is nothing, on it there are its objects, each once. *)
Lemma built_other lo h w post v r : built lo h w post v → ¬ (F <$> post) `prefix_of` r →
  look h w r = None ∨ (r `prefix_of` (F <$> post) ∧ ∃ n, (lo ≤ n)%nat ∧ look h w r = Some (GObj n)).
Proof.
  revert lo w r. induction post as [|t post IH]; intros lo w r; [intros _ []; by exists r|].
  intros (n & w' & -> & Hn & Hf & Hb) Hr. destruct r as [|[s|i] r].
  - right. split; [apply prefix_nil|]. exists n. split; [lia|done].
  - cbn. rewrite Hf. destruct (decide (s = t)) as [->|]; [|left; by rewrite lookup_singleton_ne].
    rewrite lookup_singleton_eq. osimpl. destruct (IH _ _ r Hb) as [E|(Hp & m & Hm & E)].
    + intros Hp. apply Hr. by apply prefix_cons.
    + by left.
    + right. split; [by apply prefix_cons|]. exists m. split; [lia|done].
  - by left.
Qed.

Lemma built_inj lo h w post v r1 r2 n : built lo h w post v → ¬ (F <$> post) `prefix_of` r1 → ¬ (F <$> post) `prefix_of` r2 →
  look h w r1 = Some (GObj n) → look h w r2 = Some (GObj n) → r1 = r2.
Proof.
  revert lo w r1 r2. induction post as [|t post IH]; intros lo w r1 r2; [intros _ []; by exists r1|].
  intros (m & w' & -> & Hn & Hf & Hb) H1 H2.
  assert (∀ r, ¬ (F <$> t :: post) `prefix_of` r → look h (GObj m) r = Some (GObj n) →
    (r = [] ∧ n = m) ∨ (∃ r', r = F t :: r' ∧ look h w' r' = Some (GObj n) ∧ ¬ (F <$> post) `prefix_of` r' ∧ (m < n)%nat)) as Hc.
  { intros [|[s|i] r] Hr E; [by left; injection E as ->| |done]. right. cbn in E. rewrite Hf in E.
    destruct (decide (s = t)) as [->|]; [|by rewrite lookup_singleton_ne in E]. rewrite lookup_singleton_eq in E. cbn [mbind option_bind] in E.
    assert (¬ (F <$> post) `prefix_of` r) as Hr' by (intros Hp; apply Hr; by apply prefix_cons).
    exists r. split_and!; [done|done|done|]. destruct (built_other _ _ _ _ _ r Hb Hr') as [E'|(_ & k & Hk & E')]; [by rewrite E in E'|].
    rewrite E in E'. injection E' as ->. lia. }
  intros E1 E2. destruct (Hc r1 H1 E1) as [[-> ->]|(r1' & -> & E1' & H1' & Hlt)], (Hc r2 H2 E2) as [[-> Hm]|(r2' & -> & E2' & H2' & Hlt')]; try done; try lia.
  f_equal. by apply (IH _ w' r1' r2' Hb).
Qed.

Lemma prefix_elem_lt {A} (l : list A) r0 e r1 : l = r0 ++ e :: r1 → (length r0 < length l)%nat.
Proof. intros ->. rewrite length_app. cbn. lia. Qed.

Section write.
Context (h h' : heap) (x : nat) (segs : list bytes) (v : gval) (pre : list bytes) (s : bytes) (post : list bytes) (a : nat) (w : gval).
Context (Hw : wf_heap h) (Hx : (x < hnext h)%nat) (Ht : tree h (GObj x)) (He : set_effect h h' x segs v pre s post a w).
Let q := F <$> segs.
Let k := (F <$> pre) ++ [F s].

Lemma write_path : q = k ++ (F <$> post).
Proof. unfold q, k. rewrite (se_path _ _ _ _ _ _ _ _ _ _ He), fmap_app, fmap_cons, <- app_assoc. done. Qed.

Lemma write_fields y t : (y < hnext h)%nat → (y = a → t ≠ s) → fields h' (Some y) !! t = fields h (Some y) !! t.
Proof.
  intros Hy Hn. destruct (decide (y = a)) as [->|].
  - rewrite (se_field _ _ _ _ _ _ _ _ _ _ He). by rewrite lookup_insert_ne by naive_solver.
  - by rewrite (se_others _ _ _ _ _ _ _ _ _ _ He).
Qed.

(** Paths that avoid the changed field. *)
Lemma write_off r : ¬ k `prefix_of` r → look h' (GObj x) r = look h (GObj x) r.
Proof.
  intros Hk. apply (look_agree h h' (GObj x) r a s); [done|by apply below_obj|apply write_fields|].
  intros r0 r1 -> E. apply Hk. rewrite (Ht _ _ _ E (se_found _ _ _ _ _ _ _ _ _ _ He)). unfold k. exists r1. by rewrite <- app_assoc.
Qed.

Lemma write_at r : look h' (GObj x) (k ++ r) = look h' w r.
Proof.
  unfold k. rewrite <- app_assoc, look_app, write_off.
  2: { intros [l E]. unfold k in E. apply (f_equal length) in E. rewrite !length_app in E. cbn in E. lia. }
  rewrite (se_found _ _ _ _ _ _ _ _ _ _ He). cbn. by rewrite (se_field _ _ _ _ _ _ _ _ _ _ He), lookup_insert_eq.
Qed.

(** The new value, which does not contain the changed object. *)
Lemma write_new r : below (hnext h) v → (∀ r, look h v r ≠ Some (GObj a)) → look h' (GObj x) (q ++ r) = look h v r.
Proof.
  intros Hb Hv. rewrite write_path, <- app_assoc, write_at.
  rewrite (built_look _ _ _ _ _ _ (se_built _ _ _ _ _ _ _ _ _ _ He)).
  apply (look_agree h h' v r a s); [done|done|apply write_fields|]. intros r0 r1 _. apply Hv.
Qed.

Lemma write_absent r : post ≠ [] → look h (GObj x) (k ++ r) = None.
Proof.
  intros Hp. unfold k. rewrite <- app_assoc, look_app, (se_found _ _ _ _ _ _ _ _ _ _ He). cbn.
  by rewrite (se_absent _ _ _ _ _ _ _ _ _ _ He).
Qed.

(** Paths that do not reach the new value: as before, or a new object on the way to it. *)
Lemma write_other r : ¬ q `prefix_of` r →
  look h' (GObj x) r = look h (GObj x) r
  ∨ (r `prefix_of` q ∧ look h (GObj x) r = None ∧ ∃ n, (hnext h ≤ n)%nat ∧ look h' (GObj x) r = Some (GObj n)).
Proof.
  intros Hq. destruct (decide (k `prefix_of` r)) as [[r2 ->]|Hk]; [|left; by apply write_off].
  assert (post ≠ []) as Hp. { intros E. apply Hq. rewrite write_path, E, app_nil_r. by exists r2. }
  rewrite write_at, write_absent by done.
  assert (¬ (F <$> post) `prefix_of` r2) as Hr2.
  { intros H. apply Hq. rewrite write_path. by apply prefix_app. }
  destruct (built_other _ _ _ _ _ _ (se_built _ _ _ _ _ _ _ _ _ _ He) Hr2) as [E|(Hpre & n & Hn & E)]; [by left|].
  right. split_and!; [|done|by exists n]. rewrite write_path. by apply prefix_app.
Qed.

(** A new object is reached once. *)
Lemma write_fresh r1 r2 n : ¬ q `prefix_of` r1 → ¬ q `prefix_of` r2 → (hnext h ≤ n)%nat →
  look h' (GObj x) r1 = Some (GObj n) → look h' (GObj x) r2 = Some (GObj n) → r1 = r2.
Proof.
  intros H1 H2 Hn E1 E2.
  assert (∀ r, ¬ q `prefix_of` r → look h' (GObj x) r = Some (GObj n) →
    ∃ r', r = k ++ r' ∧ ¬ (F <$> post) `prefix_of` r' ∧ look h' w r' = Some (GObj n)) as Hc.
  { intros r Hr E. destruct (decide (k `prefix_of` r)) as [[r' ->]|Hk].
    - exists r'. split; [done|]. rewrite write_at in E. split; [|done]. intros H. apply Hr. rewrite write_path. by apply prefix_app.
    - rewrite write_off in E by done. apply look_below, below_obj in E; [lia|done|by apply below_obj]. }
  destruct (Hc r1 H1 E1) as (r1' & -> & H1' & E1'), (Hc r2 H2 E2) as (r2' & -> & H2' & E2').
  f_equal. by apply (built_inj _ _ _ _ _ _ _ _ (se_built _ _ _ _ _ _ _ _ _ _ He) H1' H2' E1').
Qed.
End write.

(** ** Deleting a field *)

Lemma fields_del h b t y : fields (del h (Some b) t) (Some y) = if decide (y = b) then base.delete t (fields h (Some b)) else fields h (Some y).
Proof.
  unfold fields at 1, del. cbn [objs]. destruct (decide (y = b)) as [->|]; [by rewrite lookup_insert_eq|]. by rewrite lookup_insert_ne.
Qed.

Lemma del_wf h b t : wf_heap h → wf_heap (del h (Some b) t).
Proof.
  intros Hw y u v Hy. rewrite fields_del. cbn [del hnext] in *. destruct (decide (y = b)) as [->|]; [|by apply Hw].
  intros [_ E]%lookup_delete_Some. by apply (Hw b u).
Qed.

Lemma del_segs_found p : ∀ h x b t, look h (GObj x) (F <$> p) = Some (GObj b) → del_segs h (Some x) (p ++ [t]) = (del h (Some b) t, Ok tt).
Proof.
  induction p as [|s p IH]; intros h x b t E; [by injection E as ->|]. cbn in E.
  destruct (fields h (Some x) !! s) as [u|] eqn:Es; [|done]. cbn [mbind option_bind] in E.
  assert (∃ o, u = GObj o) as [o ->].
  { destruct p as [|s' p]; [injection E as ->; eauto|]. cbn in E. destruct u; try done. eauto. }
  destruct p as [|s' p]; cbn [app del_segs] in *; rewrite Es; by apply (IH h o b t).
Qed.

Section delete.
Context (h : heap) (x b : nat) (p : list elem) (t : bytes).
Context (Hb : ∀ r, look h (GObj x) r = Some (GObj b) ↔ r = p).
Let k := p ++ [F t].

Lemma delete_off r : ¬ k `prefix_of` r → look (del h (Some b) t) (GObj x) r = look h (GObj x) r.
Proof.
  intros Hk. apply (look_agree_gen (λ _, True) (λ y u, y = b ∧ u = t)); [done|done| |].
  - intros y u _ Hn. rewrite fields_del. destruct (decide (y = b)) as [->|]; [|done]. by rewrite lookup_delete_ne by naive_solver.
  - intros r0 u r1 y -> E [-> ->]. apply Hk. apply Hb in E as ->. unfold k. exists r1. by rewrite <- app_assoc.
Qed.

Lemma delete_at r : look (del h (Some b) t) (GObj x) (k ++ r) = None.
Proof.
  unfold k. rewrite <- app_assoc, look_app, delete_off.
  2: { intros [l E]. unfold k in E. apply (f_equal length) in E. rewrite !length_app in E. cbn in E. lia. }
  rewrite (proj2 (Hb p)) by done. cbn [mbind option_bind app look]. by rewrite fields_del, decide_True, lookup_delete_eq by done.
Qed.
End delete.

(** ** Renaming *)

Definition unrelated (p q : list bytes) : Prop := ¬ p `prefix_of` q ∧ ¬ q `prefix_of` p.

Lemma fmap_F_prefix p q : (F <$> p) `prefix_of` (F <$> q) ↔ p `prefix_of` q.
Proof.
  split; [|intros [l ->]; exists (F <$> l); by rewrite fmap_app].
  revert q. induction p as [|s p IH]; intros [|t q] H; [apply prefix_nil..| |].
  - by apply prefix_nil_not in H.
  - pose proof (prefix_cons_inv_1 _ _ _ _ H) as [= ->]. apply prefix_cons. apply IH. by eapply prefix_cons_inv_2.
Qed.

(** The field at [p] has moved to [q]. *)
Record moved (h h' : heap) (x : nat) (p q : list bytes) : Prop := {
  mv_wf : wf_heap h';
  mv_next : (hnext h ≤ hnext h')%nat;
  mv_tree : tree h' (GObj x);
  mv_to r : look h' (GObj x) ((F <$> q) ++ r) = look h (GObj x) ((F <$> p) ++ r);
  mv_from r : look h' (GObj x) ((F <$> p) ++ r) = None;
  mv_other r : ¬ (F <$> p) `prefix_of` r → ¬ (F <$> q) `prefix_of` r →
    look h' (GObj x) r = look h (GObj x) r
    ∨ (r `prefix_of` (F <$> q) ∧ look h (GObj x) r = None ∧ ∃ n, (hnext h ≤ n)%nat ∧ look h' (GObj x) r = Some (GObj n))
}.

Section rename.
Context (h h1 : heap) (x : nat) (p q : list bytes) (v : gval).
Context (Hw : wf_heap h) (Hx : (x < hnext h)%nat) (Ht : tree h (GObj x)) (Hpq : unrelated p q) (Hp : p ≠ []) (Hq : q ≠ []).
Context (Hv : look h (GObj x) (F <$> p) = Some v) (Hs : set_segs h (Some x) q v = (h1, Ok tt)).

Lemma rename_below : below (hnext h) v.
Proof. eapply look_below; [done| |done]. by apply below_obj. Qed.

Lemma rename_look r : look h (GObj x) ((F <$> p) ++ r) = look h v r.
Proof. by rewrite look_app, Hv. Qed.

(** The changed object is not inside the moved value. *)
Lemma rename_apart pre s post a w r : set_effect h h1 x q v pre s post a w → look h v r ≠ Some (GObj a).
Proof.
  intros He E. rewrite <- rename_look in E. pose proof (Ht _ _ _ E (se_found _ _ _ _ _ _ _ _ _ _ He)) as E'.
  apply (proj1 Hpq). apply fmap_F_prefix. rewrite (se_path _ _ _ _ _ _ _ _ _ _ He), fmap_app, <- E', <- app_assoc. eexists. done.
Qed.

Lemma unrelated_app (l1 l2 : list bytes) r : unrelated l1 l2 → ¬ (F <$> l1) `prefix_of` (F <$> l2) ++ r.
Proof.
  intros [H1 H2] H. destruct (prefix_weak_total (F <$> l1) (F <$> l2) ((F <$> l2) ++ r)) as [H'|H'].
  - done.
  - by exists r.
  - by apply fmap_F_prefix in H'.
  - by apply fmap_F_prefix in H'.
Qed.

(** The object that holds the field to move, in both heaps. *)
Lemma rename_holder pre s post a w p' t : set_effect h h1 x q v pre s post a w → p = p' ++ [t] →
  ∃ b, ∀ r, look h1 (GObj x) r = Some (GObj b) ↔ r = F <$> p'.
Proof.
  intros He Ep. assert (∃ b, look h (GObj x) (F <$> p') = Some (GObj b)) as [b Hb].
  { rewrite Ep, fmap_app, look_app in Hv. destruct (look h (GObj x) (F <$> p')) as [u|]; [|done]. cbn in Hv. destruct u; try done. eauto. }
  assert (b < hnext h)%nat as Hlt by (apply below_obj; eapply look_below; [done|by apply below_obj|done]).
  assert (¬ (F <$> q) `prefix_of` (F <$> p')) as Hqp'.
  { intros H%fmap_F_prefix. apply (proj2 Hpq). rewrite Ep. by apply prefix_app_r. }
  exists b. intros r. split.
  - intros E. destruct (decide ((F <$> q) `prefix_of` r)) as [[r' ->]|Hr].
    + rewrite (write_new h h1 x q v pre s post a w Hw Hx Ht He r' rename_below) in E by (intros r''; by eapply rename_apart).
      rewrite <- rename_look in E. pose proof (Ht _ _ _ E Hb) as E'. apply (f_equal length) in E'.
      rewrite Ep, fmap_app, !length_app in E'. cbn in E'. lia.
    + destruct (write_other h h1 x q v pre s post a w Hw Hx Ht He r Hr) as [E'|(_ & _ & n & Hn & E')]; rewrite E in E'.
      * symmetry in E'. by apply (Ht _ _ b).
      * injection E' as ->. lia.
  - intros ->. destruct (write_other h h1 x q v pre s post a w Hw Hx Ht He _ Hqp') as [->|(_ & E' & _)]; [done|by rewrite Hb in E'].
Qed.

Lemma rename_moved : moved h (del_segs h1 (Some x) p).1 x p q.
Proof.
  destruct (set_segs_effect q h x v h1 Hw Hx Hq Hs) as (pre & s & post & a & w & He).
  assert (wf_heap h1) as Hw1.
  { pose proof (set_segs_wf q h x v Hw Hx rename_below) as H. by rewrite Hs in H. }
  assert (∀ r, look h1 (GObj x) ((F <$> q) ++ r) = look h v r) as Snew
    by (intros r; eapply write_new; [done..|apply rename_below|intros r'; by eapply rename_apart]).
  pose proof (write_other h h1 x q v pre s post a w Hw Hx Ht He) as Soth.
  pose proof (write_fresh h h1 x q v pre s post a w Hw Hx Ht He) as Sfresh.
  destruct (exists_last Hp) as (p' & t & Ep).
  destruct (rename_holder pre s post a w p' t He Ep) as [b Hb].
  assert (del_segs h1 (Some x) p = (del h1 (Some b) t, Ok tt)) as -> by (rewrite Ep; apply del_segs_found; by apply Hb). cbn [fst].
  pose proof (delete_off h1 x b (F <$> p') t Hb) as Doff. pose proof (delete_at h1 x b (F <$> p') t Hb) as Dat.
  assert ((F <$> p') ++ [F t] = F <$> p) as Ek by (by rewrite Ep, fmap_app). rewrite Ek in Doff, Dat.
  assert (unrelated q (p)) as Hqp by (destruct Hpq; by split).
  split.
  - by apply del_wf.
  - apply (se_next _ _ _ _ _ _ _ _ _ _ He).
  - intros r1 r2 y E1 E2.
    assert (∀ r, look (del h1 (Some b) t) (GObj x) r = Some (GObj y) → ¬ (F <$> p) `prefix_of` r ∧ look h1 (GObj x) r = Some (GObj y)) as Hnp.
    { intros r E. destruct (decide ((F <$> p) `prefix_of` r)) as [[r' ->]|Hr]; [by rewrite Dat in E|]. by rewrite Doff in E. }
    destruct (Hnp r1 E1) as [N1 L1], (Hnp r2 E2) as [N2 L2]. clear E1 E2 Hnp.
    assert (∀ r, look h1 (GObj x) r = Some (GObj y) →
      (∃ r', r = (F <$> q) ++ r' ∧ look h (GObj x) ((F <$> p) ++ r') = Some (GObj y))
      ∨ (¬ (F <$> q) `prefix_of` r ∧ (look h (GObj x) r = Some (GObj y) ∨ (hnext h ≤ y)%nat))) as Hc.
    { intros r L. destruct (decide ((F <$> q) `prefix_of` r)) as [[r' ->]|Hr].
      - left. exists r'. split; [done|]. by rewrite rename_look, <- Snew.
      - right. split; [done|]. destruct (Soth r Hr) as [E|(_ & _ & n & Hn & E)]; [left; by rewrite <- E|right].
        rewrite L in E. by injection E as ->. }
    assert (∀ r, look h (GObj x) r = Some (GObj y) → (y < hnext h)%nat) as Hold.
    { intros r L. apply below_obj. eapply look_below; [done|by apply below_obj|done]. }
    destruct (Hc r1 L1) as [(r1' & -> & O1)|(Q1 & O1)], (Hc r2 L2) as [(r2' & -> & O2)|(Q2 & O2)].
    + f_equal. pose proof (Ht _ _ _ O1 O2) as E. by apply app_inv_head in E.
    + destruct O2 as [O2|O2]; [|specialize (Hold _ O1); lia]. destruct N2. rewrite <- (Ht _ _ _ O1 O2). by eexists.
    + destruct O1 as [O1|O1]; [|specialize (Hold _ O2); lia]. destruct N1. rewrite (Ht _ _ _ O1 O2). by eexists.
    + destruct O1 as [O1|O1], O2 as [O2|O2]; [by eapply Ht|specialize (Hold _ O1); lia|specialize (Hold _ O2); lia|].
      by eapply Sfresh.
  - intros r. rewrite Doff by (by apply unrelated_app). by rewrite Snew, rename_look.
  - intros r. apply Dat.
  - intros r H1 H2. rewrite Doff by done. by apply Soth.
Qed.
End rename.

(** ** A list of renames *)

(** Every object on the way to [q] that exists is an object. *)
Definition free_path (h : heap) (x : nat) (q : list bytes) : Prop :=
  ∀ k u, k `prefix_of` q → k ≠ q → look h (GObj x) (F <$> k) = Some u → ∃ o, u = GObj o.

Lemma free_path_sets q : ∀ h x v, wf_heap h → q ≠ [] → (x < hnext h)%nat → free_path h x q → ∃ h', set_segs h (Some x) q v = (h', Ok tt).
Proof.
  induction q as [|s [|t q] IH]; intros h x v Hw Hne Hx Hf; [done|by eexists|].
  rewrite set_segs_cons. destruct (fields h (Some x) !! s) as [u|] eqn:Es.
  - destruct (Hf [s] u) as [o ->]; [by apply prefix_cons, prefix_nil|done|cbn; by rewrite Es|].
    apply (IH h o v); [done|done|apply below_obj; by apply (Hw x s)|].
    intros k u Hk Hkq E. apply (Hf (s :: k) u); [by apply prefix_cons|congruence|cbn; by rewrite Es].
  - destruct (set_new (t :: q) (upd (new_object h ∅).1 x s (GObj (hnext h))) (hnext h) v) as (h' & E & _); [done|cbn; lia| |by exists h'].
    rewrite fields_upd, decide_False by lia. by rewrite fields_new, decide_True.
Qed.

(** No path of one rename lies on a path of another. *)
Fixpoint independent (rns : list (list bytes * list bytes)) : Prop :=
  match rns with
  | [] => True
  | (p, q) :: rns =>
      unrelated p q ∧ Forall (λ pq, unrelated p pq.1 ∧ unrelated p pq.2 ∧ unrelated q pq.1 ∧ unrelated q pq.2) rns ∧ independent rns
  end.

(** Where the content of a path comes from. *)
Fixpoint origin (h : heap) (x : nat) (rns : list (list bytes * list bytes)) (r : list elem) : option (list elem) :=
  match rns with
  | [] => Some r
  | (p, q) :: rns =>
      if decide (is_Some (look h (GObj x) (F <$> p))) then
        if decide ((F <$> q) `prefix_of` r) then Some ((F <$> p) ++ drop (length q) r)
        else if decide ((F <$> p) `prefix_of` r) then None
        else origin h x rns r
      else origin h x rns r
  end.

(** The loop of [BuildRename] on segments. *)
Fixpoint rename_segs (h : heap) (x : nat) (rns : list (list bytes * list bytes)) : heap :=
  match rns with
  | [] => h
  | (p, q) :: rns =>
      rename_segs (match look h (GObj x) (F <$> p) with
                   | None => h
                   | Some v => match set_segs h (Some x) q v with
                               | (h1, Ok _) => (del_segs h1 (Some x) p).1
                               | (h1, _) => h1
                               end
                   end) x rns
  end.

Lemma unrelated_sym p q : unrelated p q → unrelated q p.
Proof. intros []. by split. Qed.

(** A path that extends one of two unrelated paths does not extend the other. *)
Lemma unrelated_ext p q r : unrelated p q → (F <$> p) `prefix_of` r → ¬ (F <$> q) `prefix_of` r.
Proof. intros Hu [l ->]. by apply unrelated_app, unrelated_sym. Qed.

Lemma origin_other h x rns p r : Forall (λ pq, unrelated p pq.1 ∧ unrelated p pq.2) rns → (F <$> p) `prefix_of` r → origin h x rns r = Some r.
Proof.
  intros Hf Hr. induction Hf as [|[p' q'] rns [H1 H2] _ IH]; [done|]. cbn [origin fst snd] in *.
  destruct (decide _); [|done]. by rewrite !decide_False by (by eapply unrelated_ext).
Qed.

Record record_ok (h : heap) (x : nat) : Prop := { ro_wf : wf_heap h; ro_in : (x < hnext h)%nat; ro_tree : tree h (GObj x) }.

Section moved_facts.
Context (h h1 : heap) (x : nat) (p q : list bytes) (Hm : moved h h1 x p q).

Lemma moved_ok : (x < hnext h)%nat → record_ok h1 x.
Proof. intros Hx. destruct Hm. split; [done|lia|done]. Qed.

(** A path away from both, and not on the way to the new place, reads as before. *)
Lemma moved_away r : ¬ (F <$> p) `prefix_of` r → ¬ (F <$> q) `prefix_of` r → ¬ r `prefix_of` (F <$> q) → look h1 (GObj x) r = look h (GObj x) r.
Proof. intros H1 H2 H3. destruct (mv_other _ _ _ _ _ Hm r H1 H2) as [?|[? _]]; done. Qed.

Lemma moved_unrelated p' r : unrelated p p' → unrelated q p' → look h1 (GObj x) ((F <$> p') ++ r) = look h (GObj x) ((F <$> p') ++ r).
Proof.
  intros H1 H2. apply moved_away; [by apply unrelated_app..|]. intros H.
  apply (proj2 H2). apply fmap_F_prefix. etrans; [|done]. by exists r.
Qed.

Lemma moved_free q' : unrelated p q' → unrelated q q' → free_path h x q' → free_path h1 x q'.
Proof.
  intros H1 H2 Hf k u Hk Hkq E.
  assert (∀ l, unrelated l q' → ¬ (F <$> l) `prefix_of` (F <$> k)) as Hn.
  { intros l Hl H%fmap_F_prefix. apply (proj1 Hl). by etrans. }
  destruct (mv_other _ _ _ _ _ Hm (F <$> k)) as [E'|(_ & _ & n & _ & E')]; [by apply Hn..| |].
  - apply (Hf k); [done|done|]. by rewrite <- E'.
  - rewrite E in E'. injection E' as ->. eauto.
Qed.
End moved_facts.

(** The loop moves every field that exists to its new place. *)
Lemma rename_segs_ok rns : ∀ h x, record_ok h x → independent rns → Forall (λ pq, pq.1 ≠ [] ∧ pq.2 ≠ [] ∧ free_path h x pq.2) rns →
  record_ok (rename_segs h x rns) x
  ∧ ∀ r, Forall (λ pq, r `prefix_of` (F <$> pq.2) → r = F <$> pq.2) rns →
      look (rename_segs h x rns) (GObj x) r = (origin h x rns r ≫= look h (GObj x)).
Proof.
  induction rns as [|[p q] rns IH]; intros h x Hok Hi Hne; [done|]. cbn [rename_segs independent] in *.
  destruct Hi as (Hpq & Hu & Hi). apply Forall_cons in Hne as [(Hp & Hq & Hf) Hne]. cbn [fst snd] in *.
  destruct (look h (GObj x) (F <$> p)) as [v|] eqn:Ev.
  2: { destruct (IH h x Hok Hi Hne) as [Hok' Hr]. split; [done|]. intros r Hpr. apply Forall_cons in Hpr as [_ Hpr].
       rewrite Hr by done. cbn [origin]. by rewrite Ev, decide_False by (by intros [? ?]). }
  destruct Hok as [Hw Hx Ht]. destruct (free_path_sets q h x v Hw Hq Hx Hf) as [h1 E1]. rewrite E1.
  pose proof (rename_moved h h1 x p q v Hw Hx Ht Hpq Hp Hq Ev E1) as Hm. set (h2 := (del_segs h1 (Some x) p).1) in *.
  destruct (IH h2 x) as [Hok' Hr]; [by eapply moved_ok|done| |].
  { rewrite Forall_forall in *. intros pq Hin. destruct (Hne pq Hin) as (? & ? & ?), (Hu pq Hin) as (? & ? & ? & ?).
    split_and!; [done|done|]. by eapply moved_free. }
  split; [done|]. intros r Hpr. apply Forall_cons in Hpr as [Hprq Hpr]. cbn [snd] in Hprq. rewrite Hr by done.
  assert (∀ r, origin h2 x rns r = origin h x rns r) as Horig.
  { clear -Hu Hm. intros r. induction Hu as [|[p' q'] rns (H1 & _ & H2 & _) _ IH]; [done|]. cbn [origin fst snd] in *.
    pose proof (moved_unrelated h h2 x p q Hm p' [] H1 H2) as E. rewrite !app_nil_r in E. by rewrite E, IH. }
  rewrite Horig. cbn [origin]. rewrite Ev, decide_True by eauto.
  destruct (decide ((F <$> q) `prefix_of` r)) as [Hqr|Hqr].
  { rewrite (origin_other h x rns q r); [|by eapply Forall_impl; [exact Hu|]; intros ? (? & ? & ? & ?)|done]. osimpl.
    destruct Hqr as [l ->]. rewrite (mv_to _ _ _ _ _ Hm). rewrite drop_app_length' by (by rewrite length_fmap). done. }
  destruct (decide ((F <$> p) `prefix_of` r)) as [Hpr'|Hpr'].
  { rewrite (origin_other h x rns p r); [|by eapply Forall_impl; [exact Hu|]; intros ? (? & ? & ? & ?)|done]. osimpl.
    destruct Hpr' as [l ->]. apply (mv_from _ _ _ _ _ Hm). }
  assert (origin h x rns r = Some r ∨ (∃ pq l, pq ∈ rns ∧ origin h x rns r = Some ((F <$> pq.1) ++ l)) ∨ origin h x rns r = None) as Hc.
  { clear. induction rns as [|[p' q'] rns IH]; [by left|]. cbn [origin]. repeat case_decide; [| |set_solver..].
    - right. left. exists (p', q'). eexists. split; [by left|done].
    - by right; right. }
  destruct Hc as [->|[(pq & l & Hin & ->)| ->]]; [| |done]; osimpl.
  - eapply moved_away; [done..|]. intros H. apply Hqr. rewrite (Hprq H). done.
  - rewrite Forall_forall in Hu. destruct (Hu pq Hin) as (H1 & _ & H2 & _). by eapply moved_unrelated.
Qed.

(** ** A decoded record is a tree *)

Fixpoint json_ind' (P : json → Prop) (Hb : ∀ j, (∀ l, j ≠ JArray l) → (∀ fs, j ≠ JObject fs) → P j)
    (Ha : ∀ l, Forall P l → P (JArray l)) (Ho : ∀ fs, Forall (λ kj, P kj.2) fs → P (JObject fs)) (j : json) : P j :=
  match j with
  | JArray l => Ha l ((fix go l := match l return Forall P l with [] => Forall_nil_2 _ | j :: l => Forall_cons_2 _ _ _ (json_ind' P Hb Ha Ho j) (go l) end) l)
  | JObject fs =>
      Ho fs ((fix go fs := match fs return Forall (λ kj, P kj.2) fs with
                           | [] => Forall_nil_2 _
                           | kj :: fs => Forall_cons_2 _ _ _ (json_ind' P Hb Ha Ho kj.2) (go fs)
                           end) fs)
  | j => Hb j ltac:(done) ltac:(done)
  end.

(** What an allocation leaves as it was. *)
Record extends (h h' : heap) : Prop := {
  ex_wf : wf_heap h';
  ex_next : (hnext h ≤ hnext h')%nat;
  ex_fields y : (y < hnext h)%nat → fields h' (Some y) = fields h (Some y)
}.

(** The values of [f] share nothing, and reach only objects from [lo] on. *)
Definition forest {K} (h : heap) (lo : nat) (f : K → option gval) : Prop :=
  ∀ i v r y, f i = Some v → look h v r = Some (GObj y) → (lo ≤ y < hnext h)%nat
    ∧ ∀ i' v' r', f i' = Some v' → look h v' r' = Some (GObj y) → i = i' ∧ r = r'.

Lemma extends_refl h : wf_heap h → extends h h.
Proof. intros Hw. by split. Qed.
Lemma extends_trans h1 h2 h3 : extends h1 h2 → extends h2 h3 → extends h1 h3.
Proof. intros [] [E1 E2 E3]. split; [done|lia|]. intros y Hy. rewrite E3 by lia. auto. Qed.

Lemma look_extends h h' v r : extends h h' → wf_heap h → below (hnext h) v → look h' v r = look h v r.
Proof. intros [] Hw Hb. by apply look_frame. Qed.

Lemma forest_below {K} h lo (f : K → option gval) i v : forest h lo f → f i = Some v → below (hnext h) v.
Proof. intros Hf Hi r y Hy. rewrite (look_index _ h) in Hy. by apply (Hf i v _ _ Hi Hy). Qed.

Lemma forest_extends {K} h h' lo (f : K → option gval) : extends h h' → wf_heap h → forest h lo f → forest h' lo f.
Proof.
  intros He Hw Hf i v r y Hi Hr.
  assert (∀ i v r, f i = Some v → look h' v r = look h v r) as Hl.
  { intros i' v' r' Hi'. apply look_extends; [done|done|]. by eapply forest_below. }
  rewrite (Hl i) in Hr by done. destruct (Hf i v r y Hi Hr) as [Hy Hu]. split; [destruct He; lia|].
  intros i' v' r' Hi' Hr'. rewrite (Hl i') in Hr' by done. by eapply Hu.
Qed.

(** One more value, from an allocation of its own. *)
Lemma forest_add {K} `{!EqDecision K} h h' lo (f g : K → option gval) i v : extends h h' → wf_heap h → (lo ≤ hnext h)%nat → forest h lo f →
  forest h' (hnext h) (λ _ : unit, Some v) → (∀ j, g j = if decide (j = i) then Some v else f j) → forest h' lo g.
Proof.
  intros He Hw Hlo Hf Hv Hg. pose proof (forest_extends h h' lo f He Hw Hf) as Hf'.
  assert (∀ j u r y, f j = Some u → look h' u r = Some (GObj y) → (y < hnext h)%nat) as Hlt.
  { intros j u r y Hj Hr. rewrite (look_extends h) in Hr by (done || by eapply forest_below). by apply (Hf j u r y). }
  intros j u r y. rewrite Hg. destruct (decide (j = i)) as [->|Hj].
  - intros [= <-] Hr. destruct (Hv tt v r y eq_refl Hr) as [Hy Hu]. split; [lia|]. intros j' u' r'. rewrite Hg.
    destruct (decide (j' = i)) as [->|Hj'].
    + intros [= <-] Hr'. split; [done|]. by apply (Hu tt v r').
    + intros Hj1 Hr'. specialize (Hlt _ _ _ _ Hj1 Hr'). lia.
  - intros Hu Hr. destruct (Hf' j u r y Hu Hr) as [Hy Hun]. split; [done|]. intros j' u' r'. rewrite Hg.
    destruct (decide (j' = i)) as [->|Hj'].
    + intros [= <-] Hr'. destruct (Hv tt v r' y eq_refl Hr') as [Hy' _]. specialize (Hlt _ _ _ _ Hu Hr). lia.
    + apply Hun.
Qed.

Definition alloc_ok (j : json) : Prop := ∀ h h' v, wf_heap h → alloc_json j h = (h', v) →
  extends h h' ∧ forest h' (hnext h) (λ _ : unit, Some v).

Lemma alloc_list_ok l : Forall alloc_ok l → ∀ h h' vs, wf_heap h → alloc_list alloc_json l h = (h', vs) →
  extends h h' ∧ forest h' (hnext h) (λ i, vs !! i).
Proof.
  induction 1 as [|j l Hj _ IH]; intros h h' vs Hw E; cbn [alloc_list] in E.
  { injection E as <- <-. split; [by apply extends_refl|]. by intros i v r y. }
  destruct (alloc_json j h) as [h1 v] eqn:E1. destruct (alloc_list alloc_json l h1) as [h2 vs'] eqn:E2. injection E as <- <-.
  destruct (Hj h h1 v Hw E1) as [X1 F1]. destruct (IH h1 h2 vs' (ex_wf _ _ X1) E2) as [X2 F2].
  split; [by eapply extends_trans|]. pose proof (forest_extends h1 h2 _ _ X2 (ex_wf _ _ X1) F1) as F1'.
  assert (∀ r y, look h2 v r = Some (GObj y) → (y < hnext h1)%nat) as Hlt.
  { intros r y Hr. rewrite (look_extends h1) in Hr by (done || apply X1 || by eapply (forest_below _ _ _ tt)). by apply (F1 tt v r y). }
  intros [|i] u r y; cbn; intros Hu Hr.
  - injection Hu as <-. destruct (F1' tt v r y eq_refl Hr) as [Hy Hun]. split; [done|]. intros [|i'] u' r'; cbn.
    + intros [= <-] Hr'. split; [done|]. by apply (Hun tt v r').
    + intros Hu' Hr'. destruct (F2 i' u' r' y Hu' Hr') as [? _]. specialize (Hlt _ _ Hr). lia.
  - destruct (F2 i u r y Hu Hr) as [Hy Hun]. split; [destruct X1; lia|]. intros [|i'] u' r'; cbn.
    + intros [= <-] Hr'. specialize (Hlt _ _ Hr'). lia.
    + intros Hu' Hr'. destruct (Hun i' u' r' Hu' Hr') as [-> ->]. done.
Qed.

Lemma alloc_fields_ok fs : Forall (λ kj, alloc_ok kj.2) fs → ∀ h h' lo m m', wf_heap h → (lo ≤ hnext h)%nat → forest h lo (λ k, m !! k) →
  alloc_fields alloc_json fs h m = (h', m') → extends h h' ∧ forest h' lo (λ k, m' !! k).
Proof.
  induction 1 as [|[k j] fs Hj _ IH]; intros h h' lo m m' Hw Hlo Hf E; cbn [alloc_fields] in E.
  { injection E as <- <-. split; [by apply extends_refl|done]. }
  destruct (alloc_json j h) as [h1 v] eqn:E1. destruct (Hj h h1 v Hw E1) as [X1 F1].
  destruct (IH h1 h' lo (<[k := v]> m) m') as [X2 F2]; [apply X1|destruct X1; lia| |done|].
  - eapply (forest_add h h1 lo (λ k, m !! k) _ k v X1 Hw Hlo Hf F1). intros k'.
    destruct (decide (k' = k)) as [->|]; [by rewrite lookup_insert_eq|by rewrite lookup_insert_ne].
  - split; [by eapply extends_trans|done].
Qed.

Lemma forest_leaf h lo v : (∀ r y, look h v r ≠ Some (GObj y)) → forest h lo (λ _ : unit, Some v).
Proof. intros H i u r y [= <-] E. by destruct (H r y). Qed.

Lemma alloc_json_ok j : alloc_ok j.
Proof.
  induction j as [j N1 N2|l IH|fs IH] using json_ind'; intros h h' v Hw E.
  - assert (h' = h ∧ ∀ e r, look h v [] ≠ Some (GObj r) ∧ look h v (e :: []) = None) as [-> Hn].
    { destruct j; cbn in E; try (by destruct (N1 l)); try (by destruct (N2 fs)); injection E as <- <-; (split; [done|]); by intros []. }
    split; [by apply extends_refl|]. apply forest_leaf. intros [|e r] y; [by apply (Hn (I 0))|].
    change (e :: r) with ([e] ++ r). rewrite look_app. destruct (Hn e 0%nat) as [_ ->]. done.
  - cbn [alloc_json] in E. destruct (alloc_list alloc_json l h) as [h1 vs] eqn:El. injection E as <- <-.
    destruct (alloc_list_ok l IH h h1 vs Hw El) as [X Fo]. split; [done|]. intros [] u r y [= <-] Hr.
    destruct r as [|[s|i] r]; [done..|]. cbn in Hr. destruct (vs !! i) as [w|] eqn:Ei; [|done]. cbn [mbind option_bind] in Hr.
    destruct (Fo i w r y Ei Hr) as [Hy Hu]. split; [done|]. intros [] v' r' [= <-] Hr'. split; [done|].
    destruct r' as [|[s|i'] r']; [done..|]. cbn in Hr'. destruct (vs !! i') as [w'|] eqn:Ei'; [|done]. cbn [mbind option_bind] in Hr'.
    by destruct (Hu i' w' r' Ei' Hr') as [-> ->].
  - cbn [alloc_json] in E. destruct (alloc_fields alloc_json fs h ∅) as [h1 m] eqn:Ef.
    destruct (alloc_fields_ok fs IH h h1 (hnext h) ∅ m Hw ltac:(lia) ltac:(by intros ? ? ? ? [=]) Ef) as [X Fo].
    cbn [new_object] in E. injection E as <- <-. set (h2 := mkHeap _ _).
    assert (∀ y, fields h2 (Some y) = if decide (y = hnext h1) then m else fields h1 (Some y)) as Hf2 by (intros y; apply (fields_new h1 m)).
    assert (extends h1 h2) as X2.
    { split; [|cbn; lia|intros y Hy; rewrite Hf2, decide_False by lia; done].
      intros y k w Hy. rewrite Hf2. cbn in Hy |- *. destruct (decide (y = hnext h1)) as [->|].
      - intros Hk. eapply below_mono; [|by eapply (forest_below _ _ _ k)]. lia.
      - intros Hk. eapply below_mono; [|eapply (ex_wf _ _ X); [|done]; lia]. lia. }
    split; [by eapply extends_trans|].
    assert (∀ r y, look h2 (GObj (hnext h1)) r = Some (GObj y) →
      (r = [] ∧ y = hnext h1) ∨ (∃ k w r', r = F k :: r' ∧ m !! k = Some w ∧ look h1 w r' = Some (GObj y))) as Hc.
    { intros [|[k|i] r] y Hr; [by left; injection Hr as ->| |done]. right. cbn [look] in Hr. rewrite Hf2, decide_True in Hr by done.
      destruct (m !! k) as [w|] eqn:Ek; [|done]. cbn [mbind option_bind] in Hr. exists k, w, r. split_and!; [done..|].
      by rewrite (look_extends h1) in Hr by (done || apply X || by eapply (forest_below _ _ _ k)). }
    intros [] u r y [= <-] Hr. cbn [hnext h2] in *. destruct (Hc r y Hr) as [[-> ->]|(k & w & r1 & -> & Hk & Hl)].
    + split; [destruct X; cbn; lia|]. intros [] v' r' [= <-] Hr'. split; [done|].
      destruct (Hc r' _ Hr') as [[-> _]|(k & w & r1 & -> & Hk & Hl)]; [done|]. destruct (Fo k w r1 _ Hk Hl). lia.
    + destruct (Fo k w r1 y Hk Hl) as [Hy Hu]. split; [cbn; lia|]. intros [] v' r' [= <-] Hr'. split; [done|].
      destruct (Hc r' _ Hr') as [[-> ->]|(k' & w' & r2 & -> & Hk' & Hl')]; [lia|]. by destruct (Hu k' w' r2 Hk' Hl') as [-> ->].
Qed.
