(* ===== verification/FieldOpsRun.v ===== *)
(** * Field operators on records

    The operators as they run: on a record decoded from its text, in a
    pipeline that shares objects, and on numbers. *)

From S2P Require Import Prelude Rfc3339 Decimal Record Float64 Workflow FieldOps FieldOpsCorrect.
From Stdlib Require Import Strings.Byte.

#[local] Arguments fields : simpl never.

(** ** A tree can be encoded *)

Fixpoint gval_ind' (P : gval → Prop) (Hb : ∀ v, (∀ l, v ≠ GList l) → P v) (Hl : ∀ l, Forall P l → P (GList l)) (v : gval) : P v :=
  match v with
  | GList l => Hl l ((fix go l := match l return Forall P l with [] => Forall_nil_2 _ | v :: l => Forall_cons_2 _ _ _ (gval_ind' P Hb Hl v) (go l) end) l)
  | v => Hb v ltac:(done)
  end.

(** The number of objects that a path enters. *)
Fixpoint nF (r : list elem) : nat := match r with [] => O | F _ :: r => S (nF r) | I _ :: r => nF r end.

Lemma nF_app r1 r2 : nF (r1 ++ r2) = (nF r1 + nF r2)%nat.
Proof. induction r1 as [|[] r1 IH]; cbn; lia. Qed.

(** The objects that a path enters. *)
Fixpoint entered (h : heap) (v : gval) (r : list elem) : list nat :=
  match r with
  | [] => []
  | e :: r => (match v, e with GObj o, F _ => [o] | _, _ => [] end) ++ (match look h v [e] with Some w => entered h w r | None => [] end)
  end.

Lemma entered_length h v r u : look h v r = Some u → length (entered h v r) = nF r.
Proof.
  revert v. induction r as [|e r IH]; intros v E; [done|]. change (e :: r) with ([e] ++ r) in E. rewrite look_app in E.
  cbn [entered]. destruct (look h v [e]) as [w|] eqn:Ee; [|done]. cbn [mbind option_bind] in E. rewrite length_app, (IH w) by done.
  destruct e as [s|i]; destruct v; done.
Qed.

Lemma entered_lookup h v r i y : entered h v r !! i = Some y → ∃ r0 r1, r = r0 ++ r1 ∧ nF r0 = i ∧ look h v r0 = Some (GObj y).
Proof.
  revert v i. induction r as [|e r IH]; intros v i; [done|]. cbn [entered].
  assert (∀ k w, look h v [e] = Some w → entered h w r !! k = Some y →
    ∃ r0 r1, e :: r = r0 ++ r1 ∧ nF r0 = (nF [e] + k)%nat ∧ look h v r0 = Some (GObj y)) as Hn.
  { intros k w Ew Hk. destruct (IH w k Hk) as (r0 & r1 & -> & <- & Hl). exists (e :: r0), r1. split_and!; [done|by destruct e|].
    change (e :: r0) with ([e] ++ r0). by rewrite look_app, Ew. }
  destruct v; try (destruct e; done); destruct e as [s|n]; try done.
  - destruct (look h (GList l) [I n]) as [w|] eqn:Ew; [|done]. cbn [app]. intros Hi. destruct (Hn i w eq_refl Hi) as (r0 & r1 & ? & ? & ?). by exists r0, r1.
  - destruct i as [|i]; [intros Hi; injection Hi as <-; by exists [], (F s :: r)|]. cbn [app].
    destruct (look h (GObj o) [F s]) as [w|] eqn:Ew; [|done]. cbn. intros Hi. destruct (Hn i w eq_refl Hi) as (r0 & r1 & ? & ? & ?). by exists r0, r1.
Qed.

(** No path is longer than there are objects. *)
Lemma depth_bound h x r u : record_ok h x → look h (GObj x) r = Some u → (nF r ≤ hnext h)%nat.
Proof.
  intros [Hw Hx Ht] E. rewrite <- (entered_length h (GObj x) r u E). rewrite <- (length_seq (hnext h) 0).
  apply submseteq_length, NoDup_submseteq.
  - apply NoDup_alt. intros i j y Hi Hj. apply entered_lookup in Hi as (r0 & ? & _ & <- & Hi), Hj as (r0' & ? & _ & <- & Hj).
    by rewrite (Ht _ _ _ Hi Hj).
  - intros y [i Hi]%list_elem_of_lookup. apply entered_lookup in Hi as (r0 & ? & _ & _ & Hi). apply elem_of_seq. cbn.
    split; [lia|]. apply below_obj. eapply look_below; [done|by apply below_obj|done].
Qed.

Definition encodable (h : heap) (x : nat) : Prop := ∀ r t, look h (GObj x) r = Some (GFloat t) → t ∉ bs <$> ["NaN"; "+Inf"; "-Inf"]%string.

Lemma read_json_list fuel h l : read_json fuel h (GList l) = JArray <$> mapM (read_json fuel h) l.
Proof. by destruct fuel. Qed.

Lemma read_json_ok h x : record_ok h x → encodable h x → ∀ fuel v r,
  look h (GObj x) r = Some v → (S (hnext h) ≤ fuel + nF r)%nat → is_Some (read_json fuel h v).
Proof.
  intros Hok He. induction fuel as [fuel IHf] using lt_wf_ind. intros v.
  induction v as [v Hl|l IHl] using gval_ind'; intros r Hr Hf.
  - destruct v as [| | | | |t|l|o]; try (destruct fuel; by eexists).
    + specialize (He r t Hr). destruct fuel; cbn [read_json]; rewrite bool_decide_false by done; by eexists.
    + by destruct (Hl l).
    + destruct fuel as [|fuel]; [pose proof (depth_bound _ _ _ _ Hok Hr); lia|]. cbn [read_json]. apply fmap_is_Some, mapM_is_Some.
      apply Forall_forall. intros [k w] Hk%elem_of_map_to_list. cbn. apply fmap_is_Some. apply (IHf fuel) with (r ++ [F k]); [lia| |rewrite nF_app; cbn; lia].
      rewrite look_app, Hr. cbn. by rewrite Hk.
  - rewrite read_json_list. apply fmap_is_Some, mapM_is_Some. rewrite Forall_lookup in *. intros i w Hi.
    apply (IHl i w Hi) with (r ++ [I i]); [|rewrite nF_app; cbn; lia]. rewrite look_app, Hr. cbn. by rewrite Hi.
Qed.

(** ** Records decoded from text *)

(** The decoder reads numbers as their literal. *)
Fixpoint plain (j : json) : bool :=
  match j with
  | JInt _ | JFloat _ => false
  | JArray l => forallb plain l
  | JObject fs => forallb (λ kj, plain kj.2) fs
  | _ => true
  end.

Definition clean {K} (h : heap) (f : K → option gval) : Prop := ∀ i v r t, f i = Some v → look h v r ≠ Some (GFloat t).

Lemma clean_extends {K} h h' lo (f : K → option gval) : extends h h' → wf_heap h → forest h lo f → clean h f → clean h' f.
Proof. intros He Hw Hf Hc i v r t Hi. rewrite (look_extends h) by (done || by eapply forest_below). by eapply Hc. Qed.

Definition alloc_clean (j : json) : Prop := ∀ h h' v, wf_heap h → plain j = true → alloc_json j h = (h', v) → clean h' (λ _ : unit, Some v).

Lemma alloc_list_clean l : Forall alloc_clean l → ∀ h h' vs, wf_heap h → forallb plain l = true → alloc_list alloc_json l h = (h', vs) →
  clean h' (λ i, vs !! i).
Proof.
  induction 1 as [|j l Hj _ IH]; intros h h' vs Hw Hp E; cbn [alloc_list forallb] in *; [by injection E as <- <-|].
  apply andb_true_iff in Hp as [Hp Hps].
  destruct (alloc_json j h) as [h1 v] eqn:E1. destruct (alloc_list alloc_json l h1) as [h2 vs'] eqn:E2. injection E as <- <-.
  destruct (alloc_json_ok j h h1 v Hw E1) as [X1 F1]. destruct (alloc_list_ok l) with h1 h2 vs' as [X2 F2];
    [apply Forall_forall; intros ? _; apply alloc_json_ok|apply X1|done|].
  intros [|i] u r t; cbn; [intros [= <-]|].
  - apply (clean_extends h1 h2 (hnext h) (λ _ : unit, Some v) X2 (ex_wf _ _ X1) F1 (Hj _ _ _ Hw Hp E1) tt). done.
  - intros Hu. by apply (IH h1 h2 vs' (ex_wf _ _ X1) Hps E2 i).
Qed.

Lemma alloc_fields_clean fs : Forall (λ kj, alloc_clean kj.2) fs → ∀ h h' lo m m', wf_heap h → (lo ≤ hnext h)%nat → forest h lo (λ k, m !! k) →
  clean h (λ k, m !! k) → forallb (λ kj, plain kj.2) fs = true → alloc_fields alloc_json fs h m = (h', m') → clean h' (λ k, m' !! k).
Proof.
  induction 1 as [|[k j] fs Hj _ IH]; intros h h' lo m m' Hw Hlo Hf Hc Hp E; cbn [alloc_fields forallb snd] in *; [by injection E as <- <-|].
  apply andb_true_iff in Hp as [Hp Hps]. destruct (alloc_json j h) as [h1 v] eqn:E1.
  destruct (alloc_json_ok j h h1 v Hw E1) as [X1 F1]. pose proof (Hj _ _ _ Hw Hp E1) as C1.
  apply (IH h1 h' lo (<[k := v]> m) m'); [apply X1|destruct X1; lia| | |done|done].
  - eapply (forest_add h h1 lo (λ k, m !! k) _ k v X1 Hw Hlo Hf F1). intros k'.
    destruct (decide (k' = k)) as [->|]; [by rewrite lookup_insert_eq|by rewrite lookup_insert_ne].
  - intros k' u r t [[-> <-]|[_ Hu]]%lookup_insert_Some; [by apply (C1 tt)|].
    by apply (clean_extends h h1 lo (λ k, m !! k) X1 Hw Hf Hc k').
Qed.

Lemma alloc_json_clean j : alloc_clean j.
Proof.
  induction j as [j N1 N2|l IH|fs IH] using json_ind'; intros h h' v Hw Hp E [] u r t [= <-].
  - destruct j; try (by destruct (N1 l)); try (by destruct (N2 fs)); try done; injection E as <- <-; destruct r as [|[] r]; done.
  - cbn [alloc_json] in E. destruct (alloc_list alloc_json l h) as [h1 vs] eqn:El. injection E as <- <-.
    destruct r as [|[s|i] r]; [done..|]. cbn. destruct (vs !! i) as [w|] eqn:Ei; [|done]. osimpl. by apply (alloc_list_clean l IH h h1 vs Hw Hp El i).
  - cbn [alloc_json] in E. destruct (alloc_fields alloc_json fs h ∅) as [h1 m] eqn:Ef. cbn [new_object] in E. injection E as <- <-.
    set (h2 := mkHeap _ _).
    destruct (alloc_fields_ok fs) with h h1 (hnext h) (∅ : gmap bytes gval) m as [X Fo];
      [apply Forall_forall; intros ? _; apply alloc_json_ok|done|done|by intros ? ? ? ? [=]|done|].
    assert (∀ y, fields h2 (Some y) = if decide (y = hnext h1) then m else fields h1 (Some y)) as Hf2 by (intros y; apply (fields_new h1 m)).
    destruct r as [|[s|i] r]; [done| |done]. cbn [look]. rewrite Hf2, decide_True by done. destruct (m !! s) as [w|] eqn:Es; [|done]. osimpl.
    rewrite (look_frame h1 h2 w r (ex_wf _ _ X)).
    + by apply (alloc_fields_clean fs IH h h1 (hnext h) ∅ m Hw ltac:(lia) ltac:(by intros ? ? ? ? [=]) ltac:(by intros ? ? ? ? [=]) Hp Ef s).
    + by eapply (forest_below _ _ _ s).
    + intros y Hy. by rewrite Hf2, decide_False by lia.
Qed.

(** A record decoded from the text of an object is a tree that can be encoded. *)
Lemma decoded_ok fs h h' o : wf_heap h → plain (JObject fs) = true → alloc_json (JObject fs) h = (h', GObj o) →
  record_ok h' o ∧ encodable h' o.
Proof.
  intros Hw Hp E. destruct (alloc_json_ok _ h h' _ Hw E) as [X Fo]. split.
  - split; [apply X|by apply (Fo tt (GObj o) [] o)|]. intros r1 r2 y H1 H2.
    destruct (Fo tt (GObj o) r1 y eq_refl H1) as [_ Hu]. by apply (Hu tt (GObj o) r2).
  - intros r t Hr. by destruct (alloc_json_clean _ h h' _ Hw Hp E tt (GObj o) r t).
Qed.

Lemma alloc_object fs h : ∃ h' o, alloc_json (JObject fs) h = (h', GObj o).
Proof. cbn [alloc_json]. destruct (alloc_fields _ _ _ _). by eexists _, _. Qed.

(** ** Renaming the fields of a record *)

Lemma splitPath_nonempty path segs : splitPath path = Ok segs → segs ≠ [].
Proof.
  unfold splitPath. repeat case_decide; try done. intros [= <-]. destruct path as [|b s]; [done|]. unfold split_dots. cbn [strings_Split].
  case_decide; [done|]. by destruct (strings_Split _ s).
Qed.

Lemma set_segs_no_panic segs : ∀ h x v e, (set_segs h (Some x) segs v).2 ≠ Panic e.
Proof.
  induction segs as [|s [|t segs] IH]; intros h x v e; [done..|]. rewrite set_segs_cons.
  destruct (fields h (Some x) !! s) as [u|]; [destruct u; try done|]; apply IH.
Qed.

Definition rename_paths (rn : RenameSpec) (pq : list bytes * list bytes) : Prop :=
  splitPath (rn_From rn) = Ok pq.1 ∧ splitPath (rn_To rn) = Ok pq.2.

Lemma rename_loop_segs rns segs x : Forall2 rename_paths rns segs → ∀ h, rename_loop h (Some x) rns = (rename_segs h x segs, Ok tt).
Proof.
  induction 1 as [|rn [p q] rns segs [Hp Hq] _ IH]; intros h; [done|]. cbn [rename_loop rename_segs fst snd] in *.
  unfold rename_one, GetField, SetField, DeleteField. rewrite Hp, Hq.
  rewrite get_segs_look by (by eapply splitPath_nonempty). destruct (look h (GObj x) (F <$> p)) as [v|]; [|apply IH].
  pose proof (set_segs_no_panic q h x v) as Hn. destruct (set_segs h (Some x) q v) as [h1 [[]|e|e]]; [apply IH..|by destruct (Hn e)].
Qed.

(** Renaming makes no float. *)
Lemma rename_segs_encodable rns : ∀ h x, record_ok h x → independent rns → Forall (λ pq, pq.1 ≠ [] ∧ pq.2 ≠ [] ∧ free_path h x pq.2) rns →
  encodable h x → encodable (rename_segs h x rns) x.
Proof.
  induction rns as [|[p q] rns IH]; intros h x Hok Hi Hne He; [done|]. cbn [rename_segs independent] in *.
  destruct Hi as (Hpq & Hu & Hi). apply Forall_cons in Hne as [(Hp & Hq & Hf) Hne]. cbn [fst snd] in *.
  destruct (look h (GObj x) (F <$> p)) as [v|] eqn:Ev; [|by apply IH].
  destruct Hok as [Hw Hx Ht]. destruct (free_path_sets q h x v Hw Hq Hx Hf) as [h1 E1]. rewrite E1.
  pose proof (rename_moved h h1 x p q v Hw Hx Ht Hpq Hp Hq Ev E1) as Hm. set (h2 := (del_segs h1 (Some x) p).1) in *.
  apply IH; [by eapply moved_ok|done| |].
  - rewrite Forall_forall in *. intros pq Hin. destruct (Hne pq Hin) as (? & ? & ?), (Hu pq Hin) as (? & ? & ? & ?).
    split_and!; [done|done|]. by eapply moved_free.
  - intros r t Hr. destruct (decide ((F <$> q) `prefix_of` r)) as [[l ->]|Hqr]; [rewrite (mv_to _ _ _ _ _ Hm) in Hr; by apply (He _ t) in Hr|].
    destruct (decide ((F <$> p) `prefix_of` r)) as [[l ->]|Hpr]; [by rewrite (mv_from _ _ _ _ _ Hm) in Hr|].
    destruct (mv_other _ _ _ _ _ Hm r Hpr Hqr) as [E|(_ & _ & n & _ & E)]; rewrite Hr in E; [|done]. by apply (He r t).
Qed.

Section renaming.
Context (decode : bytes → option json) (marshal : json → bytes).

(** A record read from the text of an object. *)
Record reads_object (h : heap) (r : jrecord) (fs : list (bytes * json)) (h0 : heap) (o : nat) : Prop := {
  rd_wf : wf_heap h;
  rd_raw : j_parsed r = None;
  rd_text : trim_space (Value (j_rec r)) ≠ [];
  rd_decode : decode (Value (j_rec r)) = Some (JObject fs);
  rd_plain : plain (JObject fs) = true;
  rd_alloc : alloc_json (JObject fs) h = (h0, GObj o)
}.

Lemma reads_object_decodes h r fs h0 o : reads_object h r fs h0 o → DecodeJSON decode h r = (h0, Ok (Some o)).
Proof. intros []. unfold DecodeJSON, decodeJSONBytes. by rewrite rd_raw0, decide_False, rd_decode0, rd_alloc0. Qed.

(** Renaming the fields of a decoded record, along paths that do not
    run through one another and with free destinations, never fails: the
    record keeps its object, its new text is the encoding of that object,
    and every path of the result reads what the path it came from read
    before, the other fields unchanged. *)
Theorem rename_fields_move h r fs h0 o rns segs :
  reads_object h r fs h0 o → Forall2 rename_paths rns segs → independent segs → Forall (λ pq, free_path h0 o pq.2) segs →
  ∃ h' b, BuildRename decode marshal rns h r = (h', Ok (mkJ (set_value (j_rec r) b) (Some (Some o))))
    ∧ EncodeJSON marshal h' (Some o) = Some b
    ∧ ∀ p, Forall (λ pq, p `prefix_of` (F <$> pq.2) → p = F <$> pq.2) segs →
        look h' (GObj o) p = (origin h0 o segs p ≫= look h0 (GObj o)).
Proof.
  intros Hr Hs Hi Hf. destruct (decoded_ok fs h h0 o) as [Hok He]; [apply Hr..|].
  assert (Forall (λ pq, pq.1 ≠ [] ∧ pq.2 ≠ [] ∧ free_path h0 o pq.2) segs) as Hne.
  { clear Hi. induction Hs as [|rn pq rns segs [Hp Hq] _ IH]; [done|]. apply Forall_cons in Hf as [Hf Hfs].
    constructor; [|by apply IH]. split_and!; [by eapply splitPath_nonempty..|done]. }
  destruct (rename_segs_ok segs h0 o Hok Hi Hne) as [Hok' Hl].
  pose proof (rename_segs_encodable segs h0 o Hok Hi Hne He) as He'. set (h' := rename_segs h0 o segs) in *.
  destruct (read_json_ok h' o Hok' He' (S (hnext h')) (GObj o) []) as [j Ej]; [done|cbn; lia|].
  assert (EncodeJSON marshal h' (Some o) = Some (marshal j)) as Eb by (unfold EncodeJSON; by rewrite Ej).
  exists h', (marshal j). split; [|done]. unfold BuildRename, applyMap. rewrite (reads_object_decodes h r fs h0 o Hr).
  rewrite (rename_loop_segs rns segs o Hs h0). fold h'. by rewrite Eb.
Qed.
End renaming.

Definition empty_heap : heap := mkHeap ∅ 0.
Definition demo_json : json :=
  JObject [(bs "cust", JObject [(bs "id", JNumber (bs "7"))]); (bs "amt", JNumber (bs "5"))].
Definition demo_decode (t : bytes) : option json := if decide (t = bs "{}") then Some (JObject []) else Some demo_json.
Definition demo_marshal (j : json) : bytes := match j with JObject [] => bs "{}" | _ => bs "text" end.
Definition demo_raw : jrecord := mkJ (NewRecord 1 (bs "k") (bs "text")) None.
Definition demo_renames : list RenameSpec :=
  [mkRenameSpec (bs "cust.id") (bs "customer"); mkRenameSpec (bs "amt") (bs "payment.amount")].
Definition demo_segs : list (list bytes * list bytes) :=
  [([bs "cust"; bs "id"], [bs "customer"]); ([bs "amt"], [bs "payment"; bs "amount"])].
Definition demo_heap : heap := (alloc_json demo_json empty_heap).1.

Lemma rename_fields_move_witness :
  ∃ h' b, BuildRename demo_decode demo_marshal demo_renames empty_heap demo_raw = (h', Ok (mkJ (set_value (j_rec demo_raw) b) (Some (Some 1%nat))))
    ∧ EncodeJSON demo_marshal h' (Some 1%nat) = Some b
    ∧ ∀ p, Forall (λ pq, p `prefix_of` (F <$> pq.2) → p = F <$> pq.2) demo_segs →
        look h' (GObj 1) p = (origin demo_heap 1 demo_segs p ≫= look demo_heap (GObj 1)).
Proof.
  apply (rename_fields_move demo_decode demo_marshal empty_heap demo_raw
           [(bs "cust", JObject [(bs "id", JNumber (bs "7"))]); (bs "amt", JNumber (bs "5"))] demo_heap 1 demo_renames demo_segs).
  - by split.
  - repeat constructor.
  - repeat split; try done; repeat constructor; intros H; by apply (bool_decide_eq_true_2 _) in H.
  - repeat constructor; intros k u Hk Hkq E.
    + destruct k as [|s k]; [injection E as <-; by exists 1%nat|]. destruct Hkq. destruct Hk as [l [= <- E']]. by destruct k.
    + destruct k as [|s [|t k]]; [injection E as <-; by exists 1%nat| |].
      * destruct Hk as [l [= <- E']]. discriminate E.
      * destruct Hkq. destruct Hk as [l [= <- <- E']]. by destruct k.
Defined.

(** ** Shared objects and nil records *)

Definition demo_set : list (bytes * anyval) := [(bs "meta", VMap [(bs "src", VString (bs "web"))])].
Definition demo_constants (h : heap) : heap * list (bytes * gval) :=
  let '(h, c) := alloc_any (VMap [(bs "src", VString (bs "web"))]) h in (h, [(bs "meta", c)]).
Definition demo_blank : jrecord := mkJ (NewRecord 1 (bs "k") (bs "{}")) None.

(** [setFields] followed by [renameFields], on one record. *)
Definition tag_and_rename (h : heap) (sets : list (bytes * gval)) (r : jrecord) : heap * result jrecord :=
  match BuildSet demo_decode demo_marshal sets h r with
  | (h, Ok r) => BuildRename demo_decode demo_marshal [mkRenameSpec (bs "meta.src") (bs "origin")] h r
  | (h, e) => (h, e)
  end.
Definition field_of (h : heap) (r : result jrecord) (path : bytes) : option gval :=
  match r with Ok (mkJ _ (Some d)) => GetField h d path | _ => None end.

(** Setting a field to an object stores the object of the document
    itself: after a rename out of it, the next record that passes the same
    two operators no longer gets the field. *)
Theorem constant_shared_between_records :
  let '(h, sets) := demo_constants empty_heap in
  let '(h1, r1) := tag_and_rename h sets demo_blank in
  let '(h2, r2) := tag_and_rename h1 sets demo_blank in
  field_of h1 r1 (bs "origin") = Some (GString (bs "web")) ∧ field_of h2 r2 (bs "origin") = None.
Proof. vm_compute. done. Qed.

(** A record whose text is [null] has a nil view: setting a field of it panics. *)
Lemma set_null_panics decode marshal sets f v h r : j_parsed r = None → trim_space (Value (j_rec r)) ≠ [] →
  decode (Value (j_rec r)) = Some JNull → (∃ segs, splitPath f = Ok segs) →
  ∃ h' e, BuildSet decode marshal ((f, v) :: sets) h r = (h', Panic e).
Proof.
  intros Hp Ht Hd [segs Hs]. unfold BuildSet, applyMap, DecodeJSON, decodeJSONBytes. rewrite Hp, decide_False, Hd by done.
  cbn [set_loop]. unfold SetField. rewrite Hs. pose proof (splitPath_nonempty _ _ Hs) as Hne. destruct segs as [|s [|t segs]]; [done|..].
  - by eexists _, _.
  - assert (fields h None !! s = None) as En by apply lookup_empty. cbn [set_segs]. rewrite En. by eexists _, _.
Qed.

(** A field renamed to itself is deleted. *)
Lemma rename_self_deletes h x s v : fields h (Some x) !! s = Some v → splitPath s = Ok [s] →
  GetField (rename_one h (Some x) (mkRenameSpec s s)).1 (Some x) s = None.
Proof.
  intros Hv Hs. unfold rename_one, GetField, SetField, DeleteField. cbn [rn_From rn_To]. rewrite Hs. cbn [get_segs set_segs put del_segs]. rewrite Hv.
  cbn [fst]. by rewrite fields_del, decide_True, lookup_delete_eq by done.
Qed.

(** ** Numbers *)

(** On integers of at most 2^53 in size, a filter compares a number of
    the record with an integer of the document exactly, for all six
    comparisons. *)
Theorem compare_exact_integers h a b : safe_int a → safe_int b →
  let cmp name := Compare h (bs name) (Some (GNumber (FormatInt a))) (GInt b) in
  cmp "equals" = Some (bool_decide (a = b)) ∧ cmp "not_equals" = Some (bool_decide (a ≠ b))
  ∧ cmp "greater_than" = Some (b <? a) ∧ cmp "greater_than_or_equal" = Some (b <=? a)
  ∧ cmp "less_than" = Some (a <? b) ∧ cmp "less_than_or_equal" = Some (a <=? b).
Proof.
  intros Ha Hb.
  assert (∀ n, safe_int n → in_i64 n) as Hi by (unfold safe_int, in_i64, two63; intros; lia).
  assert (valuesEqual (GNumber (FormatInt a)) (GInt b) = bool_decide (a = b)) as Hv.
  { unfold valuesEqual, numbersEqual. cbn [asNumber]. by rewrite !ParseInt_FormatInt by auto. }
  assert (∀ pred, orderedCmp (GNumber (FormatInt a)) (GInt b) pred = pred (a ?= b)) as Ho.
  { intros pred. unfold orderedCmp, asFloat. cbn [asNumber mbind option_bind]. rewrite !ParseFloat_int by done.
    unfold f_ltb, SpecFloat.SFltb. rewrite !f_compare_int by done. rewrite (Z.compare_antisym a b). by destruct (a ?= b). }
  assert (∀ name op, compareOps (bs name) = Some op → Compare h (bs name) (Some (GNumber (FormatInt a))) (GInt b)
    = Some (match op with
            | OpEquals => bool_decide (a = b) | OpNotEquals => negb (bool_decide (a = b))
            | OpGreaterThan => gt_sign (a ?= b) | OpGreaterThanOrEqual => negb (lt_sign (a ?= b))
            | OpLessThan => lt_sign (a ?= b) | OpLessThanOrEqual => negb (gt_sign (a ?= b))
            | OpContains => false | OpExists => true | OpNotExists => false
            end)) as Hc.
  { intros name op E. unfold Compare. rewrite E. destruct op; rewrite ?Hv, ?Ho; try done. }
  cbn beta zeta. rewrite (Hc "equals"%string OpEquals), (Hc "not_equals"%string OpNotEquals), (Hc "greater_than"%string OpGreaterThan),
    (Hc "greater_than_or_equal"%string OpGreaterThanOrEqual), (Hc "less_than"%string OpLessThan),
    (Hc "less_than_or_equal"%string OpLessThanOrEqual) by done.
  rewrite bool_decide_not. unfold gt_sign, lt_sign, Z.ltb, Z.leb. rewrite (Z.compare_antisym a b). destruct (a ?= b); by split_and!.
Qed.

Lemma compare_exact_integers_witness :
  let cmp name := Compare empty_heap (bs name) (Some (GNumber (FormatInt 9007199254740992))) (GInt (-3)) in
  cmp "equals"%string = Some (bool_decide (9007199254740992 = -3)) ∧ cmp "not_equals"%string = Some (bool_decide (9007199254740992 ≠ -3))
  ∧ cmp "greater_than"%string = Some (-3 <? 9007199254740992) ∧ cmp "greater_than_or_equal"%string = Some (-3 <=? 9007199254740992)
  ∧ cmp "less_than"%string = Some (9007199254740992 <? -3) ∧ cmp "less_than_or_equal"%string = Some (9007199254740992 <=? -3).
Proof. apply (compare_exact_integers empty_heap 9007199254740992 (-3)); unfold safe_int; lia. Defined.

(** One above 2^53 the order is lost: 2^53 + 1 is not equal to 2^53 and neither
    greater nor less. *)
Example compare_large_integers :
  let cmp name := Compare empty_heap (bs name) (Some (GNumber (FormatInt (2 ^ 53 + 1)))) (GInt (2 ^ 53)) in
  cmp "equals"%string = Some false ∧ cmp "greater_than"%string = Some false ∧ cmp "less_than"%string = Some false.
Proof. vm_compute. done. Qed.

(** *** Counting *)

Section counting.
Context (unmarshal : bytes → option json) (marshal : json → bytes).

(** An object with one integer reads back as it was written. *)
Definition count_codec : Prop := ∀ n, in_i64 n →
  marshal (JObject [(bs "count", JNumber (FormatInt n))]) ≠ []
  ∧ unmarshal (marshal (JObject [(bs "count", JNumber (FormatInt n))])) = Some (JObject [(bs "count", JNumber (FormatInt n))]).

Definition count_text (n : Z) : bytes := marshal (JObject [(bs "count", JNumber (FormatInt n))]).

Lemma f_eqb_refl_int n : safe_int n → f_eqb (f_of_int n) (f_of_int n) = true.
Proof. intros Hn. unfold f_eqb, SpecFloat.SFeqb. by rewrite f_compare_int, Z.compare_refl. Qed.

Lemma writeAgg_int n : 0 ≤ n ≤ 2 ^ 53 → writeAgg marshal (bs "count") (f_of_int n) = count_text n.
Proof.
  intros Hn. unfold writeAgg. rewrite f_to_int_exact by done. by rewrite f_eqb_refl_int by (unfold safe_int; lia).
Qed.

Lemma readAgg_int n : count_codec → 0 ≤ n ≤ 2 ^ 53 → readAgg unmarshal (count_text n) (bs "count") = f_of_int n.
Proof.
  intros Hc Hn. destruct (Hc n) as [H1 H2]; [unfold in_i64, two63; lia|]. unfold readAgg, count_text. rewrite decide_False, H2 by done.
  cbn [mapM agg_number fmap option_fmap option_map fst snd mbind option_bind mret option_ret foldl]. rewrite decide_True by done.
  by rewrite ParseFloat_int by (unfold safe_int; lia).
Qed.

(** Counting n records gives the text of n up to 2^53, where the count
    stays, because it is kept as a float64. *)
Theorem count_exact (n : nat) : count_codec →
  Nat.iter (S n) (count_fn unmarshal marshal) [] = count_text (Z.min (Z.of_nat (S n)) (2 ^ 53)).
Proof.
  intros Hc. induction n as [|n IH].
  { cbn [Nat.iter nat_rect]. unfold count_fn. change (readAgg unmarshal [] (bs "count")) with (f_of_int 0).
    rewrite f_add_one by lia. by apply writeAgg_int. }
  rewrite Nat.iter_succ, IH. unfold count_fn. rewrite readAgg_int by (done || lia).
  destruct (decide (Z.of_nat (S n) < 2 ^ 53)).
  - rewrite !Z.min_l by lia. rewrite f_add_one by lia. rewrite writeAgg_int by lia. f_equal. lia.
  - rewrite !Z.min_r by lia. rewrite f_add_one_stops. by apply writeAgg_int.
Qed.
End counting.

(** The text of an object with one number, and its reading. *)
Definition agg_head : bytes := [x7b; x22] ++ bs "count" ++ [x22; x3a].
Definition agg_marshal (j : json) : bytes := match j with JObject [(_, JNumber l)] => agg_head ++ l ++ [x7d] | _ => [] end.
Definition agg_unmarshal (t : bytes) : option json := Some (JObject [(bs "count", JNumber (take (length t - 10) (drop 9 t)))]).

Lemma agg_codec : count_codec agg_unmarshal agg_marshal.
Proof.
  intros n _. split; [done|]. unfold agg_unmarshal, agg_marshal. rewrite (drop_app_length' agg_head) by done.
  rewrite !length_app. change (length agg_head) with 9%nat. cbn [length].
  by rewrite take_app_length' by lia.
Qed.

Lemma count_exact_witness : Nat.iter 3 (count_fn agg_unmarshal agg_marshal) [] = count_text agg_marshal (Z.min 3 (2 ^ 53)).
Proof. apply (count_exact agg_unmarshal agg_marshal 2). apply agg_codec. Defined.

Example count_three : count_text agg_marshal 3 = [x7b; x22] ++ bs "count" ++ [x22; x3a; x33; x7d].
Proof. vm_compute. reflexivity. Qed.
