(* ===== verification/SourceWatermark.v ===== *)
(** * Watermarks of a source ([src/source/watermark.go], [kafka_watermark_tracker.go])

    [WatermarkSource] forwards the records of the source it wraps and injects a
    watermark at every tick.  With [NewGenerator] it keeps one generator per
    partition and emits the minimum over the partitions that are not idle.

    The select loop is a function of the list of chosen branches; an event
    carries what the clock said and whether the guarded send succeeded.  The
    generators are an interface ([WatermarkGenerator]); the bounded one of
    [Window] implements it. *)

From S2P Require Import Prelude Record Window Rfc3339 Decimal State Reduce WindowOp WindowCorrect WindowRun.

(** [watermark.WatermarkGenerator] *)
Class WatermarkGenerator (G : Type) := {
  gen_OnRecord : G → time → G;
  gen_GetWatermark : G → time
}.
#[export] Instance bounded_generator : WatermarkGenerator Watermark.BoundedOutOfOrderness := {|
  gen_OnRecord := Watermark.OnRecord;
  gen_GetWatermark := Watermark.GetWatermark
|}.

(** [time.Time.Sub]: the difference, saturated to a 64-bit duration. *)
Definition time_Sub (t u : time) : duration := Z.max (- two63) (Z.min (two63 - 1) (t - u)).

(** [partitionKey] *)
Definition partitionKey := (bytes * Z)%type.
Definition key_of (r : Record_) : partitionKey := (Source r, Partition r).

(** [time.Date(9999, 1, 1, 0, 0, 0, 0, time.UTC)] *)
Definition maxTime9999 : time := 253370764800 * 1000000000.
Definition maxWatermark : Record_ := NewWatermark maxTime9999.

(** [defaultPartitionIdleTimeout]: 30 seconds. *)
Definition defaultPartitionIdleTimeout : duration := 30 * 1000000000.

Section watermark_source.
Context {G : Type} `{!WatermarkGenerator G}.

(** [WatermarkSource]; [NewGenerator] is the generator a call of the function
    returns.  The wrapped source is the environment. *)
Record WatermarkSource := mkWatermarkSource {
  Generator : G;
  NewGenerator : option G;
  PartitionIdleTimeout : duration;
  Interval : duration
}.

(** [NewWatermarkSource] *)
Definition NewWatermarkSource (gen : G) (interval : duration) : WatermarkSource := mkWatermarkSource gen None 0 interval.

(** [partitionClock] *)
Record partitionClock := mkClock { clock_gen : G; lastSeen : time }.

Definition idle_timeout (ws : WatermarkSource) : duration :=
  if PartitionIdleTimeout ws =? 0 then defaultPartitionIdleTimeout else PartitionIdleTimeout ws.
Definition clock_idle (ws : WatermarkSource) (now : time) (p : partitionClock) : bool :=
  (0 <? idle_timeout ws) && (idle_timeout ws <=? time_Sub now (lastSeen p)).

(** One turn of the loop of [partitionWatermark]. *)
Definition min_clock (ws : WatermarkSource) (now : time) (min : time) (p : partitionClock) : time :=
  let wm := gen_GetWatermark (clock_gen p) in
  if IsZero wm then min
  else if clock_idle ws now p then min
  else if IsZero min || Before wm min then wm else min.

(** [partitionWatermark]; the map is ranged over in the order of [map_to_list],
    which does not matter ([min_clocks_perm]). *)
Definition partitionWatermark (ws : WatermarkSource) (now : time) (parts : gmap partitionKey partitionClock) : time :=
  foldl (min_clock ws now) zeroTime (map_to_list parts).*2.

(** The variables of [Run]. *)
Record ws_state := mkWsState {
  ws_gen : G;
  parts : gmap partitionKey partitionClock;
  lastWM : time
}.
Definition ws_init (ws : WatermarkSource) : ws_state := mkWsState (Generator ws) ∅ zeroTime.

(** The chosen branch: a record was received and forwarded or the context ended
    meanwhile; the ticker fired; the source ended with a result; the context
    ended.  [sent] tells whether the send in the branch succeeded, [flushed] that
    of the last watermark. *)
Inductive ws_event :=
| Taken (r : Record_) (now : time) (sent flushed : bool)
| Ticked (now : time) (sent : bool)
| Ended (err : result unit) (flushed : bool)
| Cancelled (flushed : bool).

Definition ctx_err : result unit := Err (bs "context canceled").

(** [emitMaxWatermark] *)
Definition emitMaxWatermark (flushed : bool) : list Record_ := if flushed then [maxWatermark] else [].

(** The update of the generators. *)
Definition observe (ws : WatermarkSource) (st : ws_state) (r : Record_) (now : time) : ws_state :=
  match NewGenerator ws with
  | Some fresh =>
      let gen := match parts st !! key_of r with Some p => clock_gen p | None => fresh end in
      mkWsState (ws_gen st) (<[key_of r := mkClock (gen_OnRecord gen (Timestamp r)) now]> (parts st)) (lastWM st)
  | None => mkWsState (gen_OnRecord (ws_gen st) (Timestamp r)) (parts st) (lastWM st)
  end.

(** The watermark of a tick. *)
Definition tick (ws : WatermarkSource) (st : ws_state) (now : time) : ws_state * time :=
  match NewGenerator ws with
  | Some _ =>
      let pm := partitionWatermark ws now (parts st) in
      let st := if After pm (lastWM st) then mkWsState (ws_gen st) (parts st) pm else st in
      (st, lastWM st)
  | None => (st, gen_GetWatermark (ws_gen st))
  end.

(** One turn of the select loop: the state, what was sent, and the result of
    [Run] when it returned. *)
Definition ws_step (ws : WatermarkSource) (st : ws_state) (ev : ws_event) : ws_state * list Record_ * option (result unit) :=
  match ev with
  | Taken r now sent flushed =>
      let st := observe ws st r now in
      if sent then (st, [r], None) else (st, emitMaxWatermark flushed, Some ctx_err)
  | Ticked now sent =>
      let '(st, wm) := tick ws st now in
      (st, if negb (IsZero wm) && sent then [NewWatermark wm] else [], None)
  | Ended err flushed => (st, emitMaxWatermark flushed, Some err)
  | Cancelled flushed => (st, emitMaxWatermark flushed, Some ctx_err)
  end.

Fixpoint ws_loop (ws : WatermarkSource) (st : ws_state) (evs : list ws_event) : ws_state * list Record_ * option (result unit) :=
  match evs with
  | [] => (st, [], None)
  | ev :: evs =>
      match ws_step ws st ev with
      | (st, o, Some r) => (st, o, Some r)
      | (st, o, None) => let '(st, o', r) := ws_loop ws st evs in (st, o ++ o', r)
      end
  end.

(** [Run]; [time.NewTicker] panics on an interval that is not positive. *)
Definition ws_Run (ws : WatermarkSource) (evs : list ws_event) : list Record_ * option (result unit) :=
  if Interval ws <=? 0 then ([], Some (Panic (bs "non-positive interval for NewTicker")))
  else let '(_, o, r) := ws_loop ws (ws_init ws) evs in (o, r).
End watermark_source.
Arguments WatermarkSource : clear implicits.
Arguments partitionClock : clear implicits.
Arguments ws_state : clear implicits.

(** [watermarkTracker] *)
Record watermarkTracker := mkWmTracker { outOfOrderness : duration; wt_interval : duration; wt_idleTimeout : duration }.
Definition enabled (w : watermarkTracker) : bool := 0 <? outOfOrderness w.
Definition wrap (w : watermarkTracker) : WatermarkSource Watermark.BoundedOutOfOrderness :=
  mkWatermarkSource (Watermark.NewBoundedOutOfOrderness (outOfOrderness w))
    (Some (Watermark.NewBoundedOutOfOrderness (outOfOrderness w))) (wt_idleTimeout w) (wt_interval w).

(** ** What the loop sends *)

Section stream.
Context {G : Type} `{!WatermarkGenerator G} (ws : WatermarkSource G).

Lemma min_clocks_perm now l l' a : l ≡ₚ l' → foldl (min_clock ws now) a l = foldl (min_clock ws now) a l'.
Proof.
  intros H. revert a. induction H as [|p l l' _ IH|p q l|l1 l2 l3 _ IH1 _ IH2]; intros a; cbn [foldl]; [done|apply IH| |by rewrite IH1].
  f_equal. unfold min_clock. unfold_time. generalize (gen_GetWatermark (clock_gen p)), (gen_GetWatermark (clock_gen q)). intros x y. unfold time in *.
  destruct (clock_idle ws now p), (clock_idle ws now q); 
    destruct (Z.eqb_spec a zeroTime), (Z.eqb_spec x zeroTime), (Z.eqb_spec y zeroTime), (Z.ltb_spec x a), (Z.ltb_spec y a);
    cbn [orb]; repeat (case_Z; cbn [orb]); lia.
Qed.

(** The minimum is reached, and bounds every partition that counts. *)
Definition counts now (p : partitionClock G) : Prop :=
  gen_GetWatermark (clock_gen p) ≠ zeroTime ∧ clock_idle ws now p = false.

#[local] Instance counts_dec now p : Decision (counts now p).
Proof. unfold counts. apply _. Defined.

Lemma min_clock_skip now a p : ¬ counts now p → min_clock ws now a p = a.
Proof.
  intros H. unfold min_clock, IsZero. case_Z; [done|]. destruct (clock_idle ws now p) eqn:E; [done|]. by destruct H.
Qed.
Lemma min_clock_count now a p : counts now p → let b := min_clock ws now a p in
  b ≠ zeroTime ∧ b ≤ gen_GetWatermark (clock_gen p) ∧ (a ≠ zeroTime → b ≤ a) ∧ (b = gen_GetWatermark (clock_gen p) ∨ b = a).
Proof.
  intros [Hz Hi]. unfold min_clock, IsZero, Before. rewrite Hi. cbn [orb]. unfold time in *.
  repeat (case_Z; cbn [orb]); split_and!; try lia; auto.
Qed.

Lemma min_clocks_spec now l : ∀ a, let m := foldl (min_clock ws now) a l in
  (∀ p, p ∈ l → counts now p → m ≠ zeroTime ∧ m ≤ gen_GetWatermark (clock_gen p))
  ∧ (a ≠ zeroTime → m ≠ zeroTime ∧ m ≤ a)
  ∧ (m = a ∨ ∃ p, p ∈ l ∧ counts now p ∧ m = gen_GetWatermark (clock_gen p)).
Proof.
  induction l as [|p l IH]; intros a; cbn [foldl].
  - split_and!; [by intros p ?%elem_of_nil|done|by left].
  - destruct (decide (counts now p)) as [Hp|Hp].
    + destruct (min_clock_count now a p Hp) as (Hnz & Hle & Ha & Hor). destruct (IH (min_clock ws now a p)) as (I1 & I2 & I3).
      destruct (I2 Hnz) as [Inz Ile]. split_and!.
      * intros q [->|Hq]%elem_of_cons Hc; [unfold time in *; split; [done|lia]|by apply I1].
      * intros Haz. split; [done|]. specialize (Ha Haz). unfold time in *. lia.
      * destruct I3 as [->|(q & Hq & Hc & ->)]; [|right; exists q; split_and!; [by right|done..]].
        destruct Hor as [-> | ->]; [|by left]. right. exists p. split_and!; [by left|done..].
    + rewrite min_clock_skip by done. destruct (IH a) as (I1 & I2 & I3). split_and!; [|done|].
      * intros q [->|Hq]%elem_of_cons Hc; [done|by apply I1].
      * destruct I3 as [->|(q & Hq & Hc & ->)]; [by left|right; exists q; split_and!; [by right|done..]].
Qed.

(** The minimum over the partitions that are not idle. *)
Lemma partitionWatermark_le now m k p : m !! k = Some p → counts now p →
  partitionWatermark ws now m ≤ gen_GetWatermark (clock_gen p).
Proof.
  intros Hk Hp. apply (proj1 (min_clocks_spec now (map_to_list m).*2 zeroTime)); [|done].
  apply list_elem_of_fmap. exists (k, p). split; [done|]. by apply elem_of_map_to_list.
Qed.
End stream.

(** ** Records and watermarks of a run *)

(** The records received, and those forwarded before [Run] returned. *)
Definition taken (evs : list ws_event) : list Record_ := omap (λ ev, match ev with Taken r _ _ _ => Some r | _ => None end) evs.
Fixpoint passed (evs : list ws_event) : list Record_ :=
  match evs with
  | Taken r _ true _ :: evs => r :: passed evs
  | Ticked _ _ :: evs => passed evs
  | _ => []
  end.
Definition watermarks (o : list Record_) : list time := Timestamp <$> filter (λ r, IsWatermark r = true) o.

(** No record is behind a watermark sent before it. *)
Definition in_time (x y : Record_) : Prop := IsWatermark x = true → is_data y → Timestamp x ≤ Timestamp y.

Lemma taken_cons r now sent flushed evs : taken (Taken r now sent flushed :: evs) = r :: taken evs.
Proof. done. Qed.
Lemma is_data_watermark r : is_data r → IsWatermark r = false.
Proof. unfold is_data, isMarker. by destruct (IsWatermark r), (IsBarrier r). Qed.

Section partitioned.
Context (ws : WatermarkSource Watermark.BoundedOutOfOrderness) (bound : duration).
Context (Hfresh : NewGenerator ws = Some (Watermark.NewBoundedOutOfOrderness bound)) (Hbound : 0 ≤ bound).

(** Records of one partition are at most [bound] behind an earlier one. *)
Definition bounded_disorder (evs : list ws_event) : Prop :=
  StronglySorted (λ r r', key_of r = key_of r' → Timestamp r - bound ≤ Timestamp r') (taken evs).

(** At every tick, the partitions that still deliver records have delivered one
    and are not idle. *)
Fixpoint live (st : ws_state Watermark.BoundedOutOfOrderness) (evs : list ws_event) : Prop :=
  match evs with
  | [] => True
  | ev :: evs =>
      match ev with
      | Ticked now _ => ∀ r, r ∈ taken evs → ∃ p, parts st !! key_of r = Some p ∧ clock_idle ws now p = false
      | _ => True
      end ∧ live (ws_step ws st ev).1.1 evs
  end.

(** The records are data with an event time in range. *)
Definition plain_record (r : Record_) : Prop :=
  is_data r ∧ zeroTime + bound < Timestamp r ≤ maxTime9999.

(** The state is behind every record to come. *)
Record behind (st : ws_state Watermark.BoundedOutOfOrderness) (evs : list ws_event) : Prop := {
  bh_last : lastWM st ≤ maxTime9999 ∧ ∀ r, r ∈ taken evs → lastWM st ≤ Timestamp r;
  bh_gen : ∀ k p, parts st !! k = Some p →
    Watermark.allowedLateness (clock_gen p) = bound ∧ zeroTime + bound < Watermark.maxTimestamp (clock_gen p) ≤ maxTime9999;
  bh_parts : ∀ k p r, parts st !! k = Some p → r ∈ taken evs → key_of r = k → gen_GetWatermark (clock_gen p) ≤ Timestamp r
}.

Lemma behind_init evs : Forall plain_record (taken evs) → behind (ws_init ws) evs.
Proof.
  intros Hp. split; cbn [ws_init lastWM parts].
  - split; [done|]. intros r Hr. rewrite Forall_forall in Hp. destruct (Hp r Hr) as [_ Hts]. unfold time, duration in *. lia.
  - intros k p Hk. by rewrite lookup_empty in Hk.
  - intros k p r Hk. by rewrite lookup_empty in Hk.
Qed.

Lemma get_watermark g : Watermark.allowedLateness g = bound → zeroTime + bound < Watermark.maxTimestamp g →
  Watermark.GetWatermark g = Watermark.maxTimestamp g - bound.
Proof.
  intros Ha Hm. unfold Watermark.GetWatermark. rewrite Ha. unfold_time. case_Z; [lia|done].
Qed.

Lemma observe_max r g : Watermark.maxTimestamp (Watermark.OnRecord g (Timestamp r)) = Z.max (Watermark.maxTimestamp g) (Timestamp r)
  ∧ Watermark.allowedLateness (Watermark.OnRecord g (Timestamp r)) = Watermark.allowedLateness g.
Proof. unfold Watermark.OnRecord. unfold_time. case_Z; simpl; split; lia || done. Qed.

Lemma behind_observe st r now sent flushed evs :
  behind st (Taken r now sent flushed :: evs) → Forall plain_record (r :: taken evs) → bounded_disorder (Taken r now sent flushed :: evs) →
  behind (observe ws st r now) evs.
Proof.
  intros [[Hl1 Hl2] Hg Hp] Hd Hs. unfold observe. rewrite Hfresh. unfold bounded_disorder in Hs. rewrite taken_cons in *.
  apply StronglySorted_inv in Hs as [_ Hs]. rewrite Forall_cons in Hd. destruct Hd as [[_ Hr] Hd]. rewrite Forall_forall in Hd, Hs.
  set (g := match parts st !! key_of r with Some p => clock_gen p | None => _ end).
  assert (Watermark.allowedLateness g = bound ∧ Watermark.maxTimestamp g ≤ maxTime9999
          ∧ (Watermark.maxTimestamp g = zeroTime ∨ ∀ r', r' ∈ taken evs → key_of r' = key_of r → Watermark.maxTimestamp g - bound ≤ Timestamp r')) as (Ha & Hmax & Hor).
  { unfold g. destruct (parts st !! key_of r) as [p|] eqn:E; [|split_and!; [done|done|by left]].
    destruct (Hg _ _ E) as (Ha & Hz & Hm). split_and!; [done|done|]. right. intros r' Hr' Hk.
    specialize (Hp _ _ r' E ltac:(by right) Hk). cbn [gen_GetWatermark bounded_generator] in Hp. by rewrite get_watermark in Hp. }
  clearbody g. destruct (observe_max r g) as [Om Oa]. split; cbn [lastWM parts].
  - split; [done|]. intros r' Hr'. apply Hl2. by right.
  - intros k p [[<- <-]|[Hne Hk]]%lookup_insert_Some; [|by eapply Hg]. cbn [clock_gen gen_OnRecord bounded_generator]. rewrite Om, Oa.
    split; [done|]. unfold time, duration in *. lia.
  - intros k p r' [[<- <-]|[Hne Hk]]%lookup_insert_Some Hr' Hkr.
    + cbn [clock_gen gen_OnRecord gen_GetWatermark bounded_generator]. rewrite get_watermark by (rewrite ?Om, ?Oa; unfold time, duration in *; done || lia).
      rewrite Om. specialize (Hs r' Hr' (eq_sym Hkr)). destruct Hor as [Hz|Hor].
      * unfold time, duration in *. lia.
      * specialize (Hor r' Hr' Hkr). unfold time, duration in *. lia.
    + eapply Hp; [done|by right|done].
Qed.

Lemma behind_tick st now sent evs :
  behind st (Ticked now sent :: evs) → (∀ r, r ∈ taken evs → ∃ p, parts st !! key_of r = Some p ∧ clock_idle ws now p = false) →
  behind (tick ws st now).1 evs ∧ lastWM st ≤ lastWM (tick ws st now).1 ∧ (tick ws st now).2 = lastWM (tick ws st now).1.
Proof.
  intros [[Hl1 Hl2] Hg Hp] Hlive. unfold tick. rewrite Hfresh. cbn [fst snd]. unfold After. case_Z; [|split_and!; [by split|lia|done]].
  cbn [lastWM]. split_and!; [|unfold time in *; lia|done]. split; cbn [lastWM parts]; [|done|done]. split.
  - destruct (min_clocks_spec ws now (map_to_list (parts st)).*2 zeroTime) as (_ & _ & [E|(p & Hin & _ & E)]).
    + change (partitionWatermark ws now (parts st) ≤ maxTime9999). unfold partitionWatermark. rewrite E. done.
    + apply list_elem_of_fmap in Hin as ([k p'] & -> & Hin). apply elem_of_map_to_list in Hin. destruct (Hg _ _ Hin) as (Ha & Hz & Hm).
      unfold partitionWatermark. rewrite E. cbn [snd gen_GetWatermark bounded_generator]. rewrite get_watermark by done. unfold time, duration in *. lia.
  - intros r Hr. destruct (Hlive r Hr) as (p & Hk & Hi). specialize (Hp _ _ r Hk Hr eq_refl). destruct (Hg _ _ Hk) as (Ha & Hz & _).
    etrans; [|exact Hp]. eapply partitionWatermark_le; [done|]. split; [|done].
    cbn [gen_GetWatermark bounded_generator]. rewrite get_watermark by done. unfold time, duration in *. lia.
Qed.

Lemma passed_taken evs r : r ∈ passed evs → r ∈ taken evs.
Proof.
  induction evs as [|[r' now [] f|now sent|err f|f] evs IH]; cbn [passed]; try by intros ?%elem_of_nil.
  - rewrite taken_cons. intros [->|Hr]%elem_of_cons; [by left|right; by apply IH].
  - apply IH.
Qed.

(** What a list of records sent from a state on looks like. *)
Record ws_sent (from : time) (data : list Record_) (o : list Record_) : Prop := {
  so_data : filter is_data o = data;
  so_wms : StronglySorted Z.le (watermarks o) ∧ Forall (λ t, from ≤ t ≤ maxTime9999) (watermarks o);
  so_time : StronglySorted in_time o
}.

Lemma ws_sent_nil from : ws_sent from [] [].
Proof. split; [done|split; constructor|constructor]. Qed.
Lemma ws_sent_max from : from ≤ maxTime9999 → ws_sent from [] [maxWatermark].
Proof. intros. split; [done|split; repeat constructor; done|repeat constructor]. Qed.
Lemma ws_sent_data from r data o : is_data r → ws_sent from data o → ws_sent from (r :: data) (r :: o).
Proof.
  intros Hr [Hd Hw Ht]. split.
  - by rewrite filter_cons_True, Hd.
  - unfold watermarks. rewrite filter_cons_False; [done|]. by rewrite (is_data_watermark r Hr).
  - constructor; [done|]. apply Forall_forall. intros y _ Hw'. by rewrite (is_data_watermark r Hr) in Hw'.
Qed.
Lemma ws_sent_watermark from wm data o : from ≤ wm ≤ maxTime9999 → Forall (λ r, wm ≤ Timestamp r) data → ws_sent wm data o →
  ws_sent from data (NewWatermark wm :: o).
Proof.
  intros Hle Hf [Hd [Hs Hw] Ht]. split.
  - by rewrite filter_cons_False.
  - unfold watermarks. rewrite filter_cons_True by done. fold (watermarks o). cbn [fmap list_fmap]. split.
    + constructor; [done|]. eapply Forall_impl; [exact Hw|]. simpl. unfold time in *. intros. lia.
    + constructor; [done|]. eapply Forall_impl; [exact Hw|]. simpl. unfold time in *. intros. lia.
  - constructor; [done|]. apply Forall_forall. intros y Hy _ Hdy. rewrite Forall_forall in Hf. apply Hf. rewrite <- Hd. by apply list_elem_of_filter.
Qed.
Lemma ws_sent_le from from' data o : from' ≤ from → ws_sent from data o → ws_sent from' data o.
Proof.
  intros Hle [Hd [Hs Hw] Ht]. split; [done| |done]. split; [done|]. eapply Forall_impl; [exact Hw|]. simpl. unfold time in *. intros. lia.
Qed.

Lemma loop_sent evs : ∀ st, behind st evs → Forall plain_record (taken evs) → bounded_disorder evs → live st evs →
  ws_sent (lastWM st) (passed evs) (ws_loop ws st evs).1.2.
Proof.
  induction evs as [|ev evs IH]; intros st Hb Hp Hd Hl; [apply ws_sent_nil|].
  assert (lastWM st ≤ maxTime9999) as Hmax by apply Hb. cbn [ws_loop live] in *. destruct Hl as [Hl1 Hl].
  destruct ev as [r now sent flushed|now sent|err flushed|flushed]; cbn [ws_step] in *.
  - pose proof (behind_observe _ _ _ _ _ _ Hb Hp Hd) as Hb'. rewrite taken_cons in Hp.
    assert (lastWM (observe ws st r now) = lastWM st) as El by (unfold observe; by rewrite Hfresh).
    unfold bounded_disorder in Hd. rewrite taken_cons in Hd. apply StronglySorted_inv in Hd as [Hd _].
    rewrite Forall_cons in Hp. destruct Hp as [Hr Hp].
    destruct sent; cbn [passed fst snd] in *; [|destruct flushed; [by apply ws_sent_max|apply ws_sent_nil]].
    specialize (IH _ Hb' Hp Hd Hl). rewrite El in IH. destruct (ws_loop _ _ evs) as [[st' o] r0]. cbn [fst snd app] in *.
    apply ws_sent_data; [apply Hr|done].
  - destruct (behind_tick _ _ _ _ Hb Hl1) as (Hb' & Hle & Ewm). destruct (tick ws st now) as [st1 wm]. cbn [fst snd] in *. subst wm.
    specialize (IH _ Hb' Hp Hd Hl). cbn [passed].
    assert (Forall (λ r, lastWM st1 ≤ Timestamp r) (passed evs)) as Hf by (apply Forall_forall; intros; apply Hb'; by apply passed_taken).
    assert (lastWM st1 ≤ maxTime9999) by apply Hb'.
    destruct (ws_loop ws st1 evs) as [[st' o] r0]. cbn [fst snd] in *.
    destruct (negb (IsZero (lastWM st1)) && sent); cbn [app]; [by apply ws_sent_watermark|by eapply ws_sent_le].
  - destruct flushed; [by apply ws_sent_max|apply ws_sent_nil].
  - destruct flushed; [by apply ws_sent_max|apply ws_sent_nil].
Qed.

End partitioned.

(** ** Windows behind a watermark source *)

Lemma accepted_in_time allowed o : 0 ≤ allowed → ∀ wm, StronglySorted in_time o →
  (∀ r, r ∈ o → is_data r → wm ≤ Timestamp r) → accepted allowed wm o = filter is_data o.
Proof.
  intros Ha. induction o as [|r o IH]; intros wm Hs Hwm; [done|]. apply StronglySorted_inv in Hs as [Hs Hr]. rewrite Forall_forall in Hr.
  cbn [accepted]. destruct (IsWatermark r) eqn:Ew.
  - rewrite filter_cons_False by (intros Hd%is_data_watermark; congruence). apply IH; [done|]. intros r' Hr' Hd.
    specialize (Hwm r' ltac:(by right) Hd). specialize (Hr r' Hr' Ew Hd). unfold time in *. lia.
  - assert (∀ r', r' ∈ o → is_data r' → wm ≤ Timestamp r') as Hwm' by (intros; apply Hwm; [by right|done]).
    destruct (IsBarrier r) eqn:Eb.
    + rewrite filter_cons_False by (unfold is_data, isMarker; by rewrite Eb). by apply IH.
    + assert (is_data r) as Hd by (unfold is_data, isMarker; by rewrite Ew, Eb). rewrite filter_cons_True by done.
      specialize (Hwm r ltac:(by left) Hd). unfold_time. rewrite IH by done. destruct (Z.ltb_spec (Timestamp r) (wm + - allowed)); [lia|]. by rewrite andb_false_r.
Qed.

Section windows.
Context {TT : TimeText} {RC : RecordCodec} {B : Type} {SB : StateBackend B} {SL : StateBackendLaws B}.

(** A window operator fed by a watermark source whose partitions are at
    most the bound out of order drops nothing: it emits, up to order, every
    record the source passed on once per window it belongs to. *)
Theorem source_windows_complete ws bound (op : WindowOperator B) (evs : list ws_event) :
  NewGenerator ws = Some (Watermark.NewBoundedOutOfOrderness bound) → 0 ≤ bound → 0 < Interval ws →
  Forall (plain_record bound) (taken evs) → bounded_disorder bound evs → live ws (ws_init ws) evs →
  sb_inv (backend op) → (∀ k, buf (backend op) k = []) → loadWatermark op = zeroTime → 0 ≤ AllowedLateness op →
  IsSession (Assigner op) = false → Reducer op = None → Forall (rec_ok (Assigner op)) (taken evs) →
  ∃ o, run op (ws_Run ws evs).1 = Ok o
    ∧ filter is_data o ≡ₚ flat_map (expected (Assigner op) (AllowedLateness op)) (passed evs).
Proof.
  intros Hf Hb Hi Hp Hd Hl Hinv Hbuf Hload Hlate Hsess Hred Hok.
  assert (∀ r, r ∈ passed evs → r ∈ taken evs ∧ zeroTime ≤ Timestamp r) as Hin.
  { intros r Hr%passed_taken. split; [done|]. rewrite Forall_forall in Hp. destruct (Hp r Hr). unfold time, duration in *. lia. }
  pose proof (loop_sent ws bound Hf Hb evs (ws_init ws) (behind_init ws bound Hb evs Hp) Hp Hd Hl) as [H1 _ H3].
  unfold ws_Run. case_Z; [unfold duration in *; lia|]. destruct (ws_loop _ _ _) as [[st o] res]. cbn [fst snd] in *.
  assert (∀ r, r ∈ o → is_data r → r ∈ passed evs) as Hpass by (intros r Hr Hdr; rewrite <- H1; by apply list_elem_of_filter).
  destruct (run_accepted op o Hinv Hbuf Hlate Hsess Hred) as (out & E & _ & Ht).
  { apply Forall_forall. intros r Hr Hdr. destruct (Hin r (Hpass r Hr Hdr)) as [Ht _]. rewrite Forall_forall in Hok. by apply (Hok r Ht). }
  exists out. split; [done|]. rewrite Ht, Hload, accepted_in_time, H1; [done|done|done|].
  intros r Hr Hdr. by apply Hin, Hpass.
Qed.
End windows.

(** ** Witnesses *)

Definition demo_part (part ts : Z) : Record_ := mkRecord (bs "k") (bs "v") ts 0 part (bs "orders") ∅ false false [].
(** Two partitions, the first ahead of the second. *)
Definition demo_ws : WatermarkSource Watermark.BoundedOutOfOrderness := wrap (mkWmTracker 5 100 0).
Definition demo_events : list ws_event :=
  [Taken (demo_part 0 12) 1000 true false; Taken (demo_part 1 3) 1001 true false; Ticked 1100 true;
   Taken (demo_part 1 8) 1150 true false; Ticked 1200 true; Taken (demo_part 0 9) 1210 true false; Ended (Ok tt) true].

Example demo_ws_output : (ws_Run demo_ws demo_events).1
  = [demo_part 0 12; demo_part 1 3; NewWatermark (-2); demo_part 1 8; NewWatermark 3; demo_part 0 9; maxWatermark].
Proof. vm_compute. reflexivity. Qed.

Lemma demo_ws_plain : Forall (plain_record 5) (taken demo_events).
Proof. repeat constructor; unfold time, duration; cbn; by compute. Qed.
Lemma demo_ws_disorder : bounded_disorder 5 demo_events.
Proof. unfold bounded_disorder. repeat (constructor; cbn; try done). Qed.
Lemma demo_ws_live : live demo_ws (ws_init demo_ws) demo_events.
Proof.
  repeat split; intros r Hr; repeat (apply elem_of_cons in Hr as [->|Hr]; [eexists; split; vm_compute; reflexivity|]); by apply elem_of_nil in Hr.
Qed.


#[local] Existing Instance demo_codec.
Lemma source_windows_complete_witness :
  ∃ o, run (demo_op demo_tumbling) (ws_Run demo_ws demo_events).1 = Ok o
    ∧ filter is_data o ≡ₚ flat_map (expected demo_tumbling 5) (passed demo_events).
Proof.
  apply (source_windows_complete demo_ws 5 (demo_op demo_tumbling));
    [done|done|done|apply demo_ws_plain|apply demo_ws_disorder|apply demo_ws_live|apply Memory.inv_new|done|by vm_compute|by vm_compute|done|done|].
  repeat constructor; try (simpl; solve_i64); (apply tumbling_ok; simpl; [unfold ws_safe; simpl; solve_i64|lia|solve_i64]).
Defined.
