(* ===== verification/KafkaSource.v ===== *)
(** * The Kafka source ([src/source/kafka.go] and its parts)

    Configuration with its options and defaults; conversion and
    deserialization of messages with their failure policies; the fetch and
    commit loops with their backoff; the single-reader loop with batched
    commits; draining, committing and restoring offsets; the manager of the
    per-partition readers.

    The client library is the environment: one turn of the read loop is given
    what each call to it answered ([turn]), the manager the branches its select
    loop took.  What a run does to its environment is a list of actions. *)

From S2P Require Import Prelude Record Window Rfc3339 Decimal TxnSink Workflow WorkflowCompile Injector SourceWatermark Positions.
From coqutil Require Import Datatypes.RecordSetters.
Import OCamlLikeNotations.

(** ** Configuration ([kafka_options.go], [kafka_offset.go], [failure.go]) *)

Inductive CommitPolicy := CommitPolicySkip | CommitPolicyFail.
Inductive DeserFailurePolicy := DeserFailureDrop | DeserFailureDLQ | DeserFailureFail.

(** [Offset]; the client library's [FirstOffset] and [LastOffset] have the same
    values. *)
Definition OffsetEarliest : Z := -2.
Definition OffsetLatest : Z := -1.
Definition FirstOffset : Z := -2.
Definition LastOffset : Z := -1.
Definition toKafka (mode : Z) : Z :=
  if mode =? OffsetEarliest then FirstOffset else if mode =? OffsetLatest then LastOffset else mode.
Definition Display (mode : Z) : bytes :=
  if mode =? OffsetEarliest then bs "earliest" else if mode =? OffsetLatest then bs "latest" else FormatInt mode.

Definition second : duration := 1000000000.

(** ** Readers ([auth.go], [kafka_reader_supervisor.go]) *)

(** The fields of a [kafka.Dialer] and a [kafka.ReaderConfig] that are filled in. *)
Record dialer := mkDialer { d_mechanism : option sasl_mechanism; d_tls : option tls_config }.
Record reader_config := mkReaderConfig {
  rc_Brokers : list bytes;
  rc_GroupID : bytes;
  rc_Topic : bytes;
  rc_GroupTopics : list bytes;
  rc_Partition : Z;
  rc_MinBytes : Z;
  rc_MaxBytes : Z;
  rc_StartOffset : Z;
  rc_ReadCommitted : bool;
  rc_Dialer : option dialer
}.

Section kafka_source.
(** The type of deserialized payloads; the SCRAM constructor and the TLS files. *)
Context {P : Type} (scram : bool → bytes → bytes → result bytes) (buildTLS : TLSConfig → result (option tls_config)).

(** [buildDialer]: errors are panics. *)
Definition must {A} (r : result A) : result A := match r with Err e => Panic (bs "weibo/source: " ++ e) | r => r end.
Definition buildDialer (sasl : option SASLConfig) (tls : option TLSConfig) : result (option dialer) :=
  match sasl, tls with
  | None, None => Ok None
  | _, _ =>
      mech <-? match sasl with None => Ok None | Some s => m <-? must (BuildSASLMechanism scram s) ;; Ok (Some m) end ;;
      conf <-? match tls with None => Ok None | Some t => must (buildTLS t) end ;;
      Ok (Some (mkDialer mech conf))
  end.

Definition Deserializer := bytes → gmap bytes bytes → result P.

(** [kafkaSourceConfig]; [kc_deserDLQ] tells whether a dead-letter sink is set. *)
Record kafkaSourceConfig := mkConfig {
  kc_brokers : list bytes;
  kc_topic : bytes;
  kc_topics : list bytes;
  kc_groupID : bytes;
  kc_minBytes : Z;
  kc_maxBytes : Z;
  kc_offset : Z;
  kc_commitBatch : Z;
  kc_sasl : option SASLConfig;
  kc_tls : option TLSConfig;
  kc_outOfOrderness : duration;
  kc_wmInterval : duration;
  kc_wmIdle : duration;
  kc_deserializer : option Deserializer;
  kc_deserPolicy : DeserFailurePolicy;
  kc_deserDLQ : bool;
  kc_fetchMaxRetries : Z;
  kc_commitMaxRetries : Z;
  kc_commitPolicy : CommitPolicy;
  kc_parallel : bool;
  kc_watch : duration;
  kc_exactlyOnce : bool
}.

(** The zero value. *)
Definition emptyConfig : kafkaSourceConfig :=
  mkConfig [] [] [] [] 0 0 0 0 None None 0 0 0 None DeserFailureDrop false 0 0 CommitPolicySkip false 0 false.

Definition KafkaSourceOption := kafkaSourceConfig → kafkaSourceConfig.
Definition KafkaExactlyOnce : KafkaSourceOption := λ c, {c with kc_exactlyOnce := true}.
Definition KafkaBrokers (b : list bytes) : KafkaSourceOption := λ c, {c with kc_brokers := b}.
Definition KafkaTopic (t : bytes) : KafkaSourceOption := λ c, {c with kc_topic := t}.
Definition KafkaTopics (ts : list bytes) : KafkaSourceOption := λ c, {c with kc_topics := ts}.
Definition KafkaGroupID (id : bytes) : KafkaSourceOption := λ c, {c with kc_groupID := id}.
Definition KafkaStartFrom (o : Z) : KafkaSourceOption := λ c, {c with kc_offset := o}.
Definition KafkaFetchBytes (mn mx : Z) : KafkaSourceOption := λ c, {c with kc_minBytes := mn; kc_maxBytes := mx}.
Definition KafkaCommitBatch (n : Z) : KafkaSourceOption := λ c, {c with kc_commitBatch := n}.
Definition KafkaSASL (s : SASLConfig) : KafkaSourceOption := λ c, {c with kc_sasl := Some s}.
Definition KafkaTLS (t : TLSConfig) : KafkaSourceOption := λ c, {c with kc_tls := Some t}.
Definition KafkaDeserialize (d : Deserializer) : KafkaSourceOption := λ c, {c with kc_deserializer := Some d}.
Definition KafkaDeserializeFailurePolicy (p : DeserFailurePolicy) : KafkaSourceOption := λ c, {c with kc_deserPolicy := p}.
Definition KafkaDeserializeDLQ : KafkaSourceOption := λ c, {c with kc_deserDLQ := true}.
Definition KafkaWithWatermarks (d : duration) : KafkaSourceOption :=
  λ c, {c with kc_outOfOrderness := d; kc_wmInterval := 500000000}.
Definition KafkaPartitionIdleTimeout (d : duration) : KafkaSourceOption := λ c, {c with kc_wmIdle := d}.
Definition KafkaWatermarkInterval (d : duration) : KafkaSourceOption := λ c, {c with kc_wmInterval := d}.
Definition KafkaFetchMaxRetries (n : Z) : KafkaSourceOption := λ c, {c with kc_fetchMaxRetries := n}.
Definition KafkaCommitMaxRetries (n : Z) : KafkaSourceOption := λ c, {c with kc_commitMaxRetries := n}.
Definition KafkaCommitPolicy (p : CommitPolicy) : KafkaSourceOption := λ c, {c with kc_commitPolicy := p}.
Definition KafkaParallel : KafkaSourceOption := λ c, {c with kc_parallel := true}.
Definition KafkaWatchPartitions (d : duration) : KafkaSourceOption := λ c, {c with kc_watch := d}.

(** [applyDefaults] *)
Definition applyDefaults (c : kafkaSourceConfig) : kafkaSourceConfig :=
  {c with kc_minBytes := if kc_minBytes c =? 0 then 1 else kc_minBytes c;
          kc_maxBytes := if kc_maxBytes c =? 0 then 10 * 1024 * 1024 else kc_maxBytes c;
          kc_offset := if kc_offset c =? 0 then OffsetEarliest else kc_offset c;
          kc_wmInterval := if kc_wmInterval c =? 0 then 500000000 else kc_wmInterval c;
          kc_fetchMaxRetries := if kc_fetchMaxRetries c =? 0 then 5 else kc_fetchMaxRetries c;
          kc_commitMaxRetries := if kc_commitMaxRetries c =? 0 then 3 else kc_commitMaxRetries c}.

(** [buildSerialReader], [buildPartitionReader] *)
Definition buildSerialReader (c : kafkaSourceConfig) : result reader_config :=
  d <-? buildDialer (kc_sasl c) (kc_tls c) ;;
  Ok (mkReaderConfig (kc_brokers c) (kc_groupID c) (kc_topic c) (kc_topics c) 0 (kc_minBytes c) (kc_maxBytes c)
        (toKafka (kc_offset c)) (kc_exactlyOnce c) d).
Definition buildPartitionReader (c : kafkaSourceConfig) (partition : Z) : result reader_config :=
  d <-? buildDialer (kc_sasl c) (kc_tls c) ;;
  Ok (mkReaderConfig (kc_brokers c) [] (kc_topic c) [] partition (kc_minBytes c) (kc_maxBytes c)
        (toKafka (kc_offset c)) (kc_exactlyOnce c) d).

(** ** Messages and delivery ([kafka_delivery_coordinator.go]) *)

(** The fields of a [kafka.Message] that the source reads. *)
Record kmessage := mkKMessage {
  km_msg : message;
  km_Key : bytes;
  km_Value : bytes;
  km_Headers : list (bytes * bytes);
  km_Time : time
}.

(** [KafkaToRecord]; of repeated headers the last one stays. *)
Definition KafkaToRecord (m : kmessage) : Record_ :=
  mkRecord (km_Key m) (km_Value m) (km_Time m) (m_Offset (km_msg m)) (m_Partition (km_msg m)) (m_Topic (km_msg m))
    (foldl (λ hs h, <[h.1 := h.2]> hs) ∅ (km_Headers m)) false false [].

(** A delivered record with its payload [Parsed]. *)
Definition delivery := (Record_ * option P)%type.

(** [toRecord]: the record, if any, or a fatal error, and what went to the
    dead-letter sink; [dlq] is the error of the dead-letter write. *)
Definition toRecord (c : kafkaSourceConfig) (m : kmessage) (dlq : option bytes) : result (option delivery) * list Record_ :=
  let record := KafkaToRecord m in
  match kc_deserializer c with
  | None => (Ok (Some (record, None)), [])
  | Some d =>
      match d (Value record) (Headers record) with
      | Ok p => (Ok (Some (record, Some p)), [])
      | Panic e => (Panic e, [])
      | Err e =>
          match kc_deserPolicy c with
          | DeserFailureDLQ =>
              if kc_deserDLQ c then
                match dlq with
                | None => (Ok None, [WithHeader record (bs "_deser_error") e])
                | Some w => (Err (bs "weibo/source: deserialization DLQ write failed: " ++ w), [])
                end
              else (Err (bs "weibo/source: deserialization DLQ is nil: " ++ e), [])
          | DeserFailureFail => (Err (bs "weibo/source: deserialize record: " ++ e), [])
          | DeserFailureDrop => (Ok None, [])
          end
      end
  end.

(** ** Fetching and committing *)

(** [time.Duration(1<<uint(attempt)) * time.Second], at 64 bits: shifts of 64 and
    more give 0. *)
Definition backoff (attempt : Z) : duration :=
  i64_mul (if 64 <=? attempt then 0 else wrap64 (Z.shiftl 1 attempt)) second.
Definition fetch_backoff (attempt : Z) : duration :=
  let b := backoff attempt in if 30 * second <? b then 30 * second else b.

(** What a call of [FetchMessage] answered: a message, an error (and whether
    the context ended during the wait that follows), or an error because the
    context ended. *)
Inductive fetch_ans := FetchOk (m : kmessage) | FetchErr (e : bytes) (cancelled : bool) | FetchCtx.

(** [fetchWithRetry] from attempt number [attempt] on: the waits, and the result
    once there is one. *)
Fixpoint fetch_loop (max attempt : Z) (lastErr : bytes) (calls : list fetch_ans) : list duration * option (result kmessage) :=
  if (max <? 0) || (attempt <=? max) then
    match calls with
    | [] => ([], None)
    | FetchOk m :: _ => ([], Some (Ok m))
    | FetchCtx :: _ => ([], Some (Err (bs "context canceled")))
    | FetchErr e cancelled :: calls =>
        if (max <? 0) || (attempt <? max) then
          if cancelled then ([fetch_backoff attempt], Some (Err (bs "context canceled")))
          else let '(ws, r) := fetch_loop max (attempt + 1) e calls in (fetch_backoff attempt :: ws, r)
        else fetch_loop max (attempt + 1) e calls
    end
  else ([], Some (Err (bs "kafka fetch failed after " ++ FormatInt max ++ bs " retries: " ++ lastErr))).
Definition fetchWithRetry (c : kafkaSourceConfig) (calls : list fetch_ans) : list duration * option (result kmessage) :=
  fetch_loop (kc_fetchMaxRetries c) 0 [] calls.

(** What a call of [CommitMessages] answered. *)
Inductive commit_ans := CommitOk | CommitErr (e : bytes) (cancelled : bool) | CommitCtx.

(** The loop of [commitWithRetry]: the waits, and once it ended, whether the
    broker accepted the commit and the last error, or that the context ended. *)
Inductive commit_end := CommitDone | CommitCancelled | CommitGaveUp (lastErr : bytes).
Fixpoint commit_loop (max attempt : Z) (lastErr : bytes) (calls : list commit_ans) : list duration * option commit_end :=
  if attempt <=? max then
    match calls with
    | [] => ([], None)
    | CommitOk :: _ => ([], Some CommitDone)
    | CommitCtx :: _ => ([], Some CommitCancelled)
    | CommitErr e cancelled :: calls =>
        if attempt <? max then
          if cancelled then ([backoff attempt], Some CommitCancelled)
          else let '(ws, r) := commit_loop max (attempt + 1) e calls in (backoff attempt :: ws, r)
        else commit_loop max (attempt + 1) e calls
    end
  else ([], Some (CommitGaveUp lastErr)).

(** ** The source *)

(** [KafkaSource]: the mutable parts. *)
Record KafkaSource := mkSource {
  ks_cfg : kafkaSourceConfig;
  ks_offsets : offsetTracker;
  ks_pending : list kmessage;
  ks_initial : list Z
}.

(** What a run does: progress is tracked, a record goes downstream or to the
    dead-letter sink, the broker is asked to commit (and accepts or not), the
    loop waits. *)
Inductive kact :=
| KTrack (m : kmessage)
| KEmit (d : delivery)
| KDead (r : Record_)
| KCommit (ms : list message) (accepted : bool)
| KWait (d : duration).

(** How a call ended; [None] for one that has not returned. *)
Definition outcome := option (result unit).

(** [commitWithRetry] *)
Definition commitWithRetry (k : KafkaSource) (ms : list message) (calls : list commit_ans) : KafkaSource * list kact * outcome :=
  let c := ks_cfg k in
  let '(ws, e) := commit_loop (kc_commitMaxRetries c) 0 [] calls in
  let acts accepted := (KWait <$> ws) ++ [KCommit ms accepted] in
  match e with
  | None => (k, KWait <$> ws, None)
  | Some CommitDone => ({k with ks_offsets := markCommitted (ks_offsets k) ms}, acts true, Some (Ok tt))
  | Some CommitCancelled => (k, acts false, Some (Err (bs "context canceled")))
  | Some (CommitGaveUp e) =>
      match kc_commitPolicy c with
      | CommitPolicyFail =>
          (k, acts false, Some (Err (bs "kafka commit failed after " ++ FormatInt (kc_commitMaxRetries c) ++ bs " retries: " ++ e)))
      | CommitPolicySkip => (k, acts false, Some (Ok tt))
      end
  end.

(** [commitBatchWithRetry]: the pending messages are forgotten before the commit. *)
Definition commitBatchWithRetry (k : KafkaSource) (calls : list commit_ans) : KafkaSource * list kact * outcome :=
  match ks_pending k with
  | [] => (k, [], Some (Ok tt))
  | ms => commitWithRetry {k with ks_pending := [] } (km_msg <$> ms) calls
  end.

(** What the environment did during one turn of the read loop. *)
Record turn := mkTurn {
  t_fetch : list fetch_ans;
  t_dlq : option bytes;
  t_sent : bool;
  t_commit : list commit_ans
}.

(** The commit at the end of a turn of [runSerial]. *)
Definition serial_commit (k : KafkaSource) (m : kmessage) (calls : list commit_ans) : KafkaSource * list kact * outcome :=
  let c := ks_cfg k in
  if kc_exactlyOnce c then (k, [], Some (Ok tt))
  else if 0 <? kc_commitBatch c then
    let k := {k with ks_pending := ks_pending k ++ [m] } in
    if kc_commitBatch c <=? Z.of_nat (length (ks_pending k)) then commitBatchWithRetry k calls else (k, [], Some (Ok tt))
  else commitWithRetry k [km_msg m] calls.

(** Fetch, track, convert and emit; then [finish], which is the commit in
    [runSerial] and nothing in [readerHandle]. *)
Definition read_turn (finish : KafkaSource → kmessage → list commit_ans → KafkaSource * list kact * outcome)
    (k : KafkaSource) (t : turn) : KafkaSource * list kact * outcome :=
  let '(ws, e) := fetchWithRetry (ks_cfg k) (t_fetch t) in
  let waits := KWait <$> ws in
  match e with
  | None => (k, waits, None)
  | Some (Err e) => (k, waits, Some (Err e))
  | Some (Panic e) => (k, waits, Some (Panic e))
  | Some (Ok m) =>
      let k := {k with ks_offsets := trackMessage (ks_offsets k) (km_msg m)} in
      let '(r, dead) := toRecord (ks_cfg k) m (t_dlq t) in
      let acts := waits ++ KTrack m :: (KDead <$> dead) in
      match r with
      | Err e => (k, acts, Some (Err e))
      | Panic e => (k, acts, Some (Panic e))
      | Ok None => (k, acts, Some (Ok tt))
      | Ok (Some d) =>
          if t_sent t then let '(k, acts', o) := finish k m (t_commit t) in (k, acts ++ KEmit d :: acts', o)
          else (k, acts, Some (Err (bs "context canceled")))
      end
  end.

Fixpoint read_loop (finish : KafkaSource → kmessage → list commit_ans → KafkaSource * list kact * outcome)
    (k : KafkaSource) (ts : list turn) : KafkaSource * list kact * outcome :=
  match ts with
  | [] => (k, [], None)
  | t :: ts =>
      match read_turn finish k t with
      | (k, acts, Some (Ok _)) => let '(k, acts', o) := read_loop finish k ts in (k, acts ++ acts', o)
      | r => r
      end
  end.

(** [runSerial] and the loop of [readerHandle] *)
Definition runSerial (k : KafkaSource) (ts : list turn) : KafkaSource * list kact * outcome := read_loop serial_commit k ts.
Definition readerHandle (k : KafkaSource) (ts : list turn) : KafkaSource * list kact * outcome :=
  read_loop (λ k _ _, (k, [], Some (Ok tt))) k ts.

(** [Drain] *)
Definition Drain (k : KafkaSource) (calls : list commit_ans) : KafkaSource * list kact * outcome :=
  if kc_parallel (ks_cfg k) || kc_exactlyOnce (ks_cfg k) then (k, [], Some (Ok tt))
  else match ks_pending k with
       | [] => (k, [], Some (Ok tt))
       | ms => commitWithRetry k (km_msg <$> ms) calls
       end.

(** [legacyCheckpointTopic] *)
Definition legacyCheckpointTopic (c : kafkaSourceConfig) : bytes :=
  if decide (kc_topic c ≠ []) then kc_topic c else match kc_topics c with [t] => t | _ => [] end.

Section offsets.
Context `{!PositionJSON} (range : gmap PositionKey Z → list (PositionKey * Z)).

(** [CommitOffsets] *)
Definition commit_position (p : Position) : message := mkMessage (p_Source p) (p_Partition p) (i64_sub (p_Offset p) 1) 0.
Definition CommitOffsets (k : KafkaSource) (data : bytes) (calls : list commit_ans) : KafkaSource * list kact * outcome :=
  if decide (kc_groupID (ks_cfg k) = []) then (k, [], Some (Ok tt))
  else
    match DecodePositions data (legacyCheckpointTopic (ks_cfg k)) with
    | Ok ps => match commit_position <$> ps with [] => (k, [], Some (Ok tt)) | ms => commitWithRetry k ms calls end
    | Err e => (k, [], Some (Err (bs "commit offsets: " ++ e)))
    | Panic e => (k, [], Some (Panic e))
    end.

(** [CheckpointOffset], [RestoreOffset] *)
Definition CheckpointOffset (k : KafkaSource) : bytes := snapshot range (ks_offsets k).
Definition RestoreOffset (k : KafkaSource) (data : bytes) : result KafkaSource :=
  t <-? restore (ks_offsets k) data (legacyCheckpointTopic (ks_cfg k)) ;; Ok {k with ks_offsets := t}.

(** [restoredPositions], in the order the map is ranged over. *)
Definition restoredPositions (t : offsetTracker) : list Position := position_of <$> range (restored t).

(** The client that resets the group; [newClient] is the answer of its
    constructor. *)
Definition group_client (c : kafkaSourceConfig) (newClient : result unit) : result unit :=
  _ <-? match kc_sasl c with Some s => _ <-? BuildKgoSASL s ;; Ok tt | None => Ok tt end ;;
  _ <-? match kc_tls c with Some t => _ <-? buildTLS t ;; Ok tt | None => Ok tt end ;;
  newClient.

(** [applyRestoredGroupOffsets]: what the broker is told, a seek of the reader
    or offsets of the group.  [setOffset], [newClient] and [commitAll] are the
    answers of the calls. *)
Inductive reset := ResetNone | ResetSeek (offset : Z) | ResetGroup (offsets : list Position).
Definition applyRestoredGroupOffsets (k : KafkaSource) (setOffset newClient commitAll : result unit) : reset * result unit :=
  let c := ks_cfg k in
  match restoredPositions (ks_offsets k) with
  | [] => (ResetNone, Ok tt)
  | p :: ps =>
      if decide (kc_groupID c = []) then
        match ps with
        | [] => (ResetSeek (p_Offset p), setOffset)
        | _ => (ResetNone, Err (bs "non-group serial source cannot restore " ++ FormatInt (Z.of_nat (length (p :: ps))) ++ bs " partitions"))
        end
      else
        match group_client c newClient with
        | Ok _ => (ResetGroup (p :: ps), commitAll)
        | e => (ResetNone, e)
        end
  end.

(** [runOnce] of a source with one reader: the restored offsets, the reader,
    the loop. *)
Definition runOnce (k : KafkaSource) (setOffset newClient commitAll : result unit) (ts : list turn) : KafkaSource * list kact * outcome :=
  match (applyRestoredGroupOffsets k setOffset newClient commitAll).2, buildSerialReader (ks_cfg k) with
  | Err e, _ => (k, [], Some (Err (bs "kafka restore offsets: " ++ e)))
  | Panic e, _ => (k, [], Some (Panic e))
  | Ok _, Ok _ => runSerial k ts
  | Ok _, Err e => (k, [], Some (Err e))
  | Ok _, Panic e => (k, [], Some (Panic e))
  end.
End offsets.

(** [NewKafkaSource]; [discover] is the answer of partition discovery. *)
Definition NewKafkaSource (opts : list KafkaSourceOption) (discover : result (list Z)) : result KafkaSource :=
  let c := applyDefaults (foldl (λ c opt, opt c) emptyConfig opts) in
  if decide (kc_brokers c = []) then Panic (bs "weibo/source: KafkaSource requires KafkaBrokers(...)")
  else if decide (kc_topics c = [] ∧ kc_topic c = []) then Panic (bs "weibo/source: KafkaSource requires KafkaTopic or KafkaTopics")
  else if kc_parallel c then
    if decide (kc_groupID c ≠ []) then Panic (bs "weibo/source: KafkaParallel and KafkaGroupID are mutually exclusive")
    else if decide (kc_topic c = [] ∨ kc_topics c ≠ []) then Panic (bs "weibo/source: KafkaParallel requires a single KafkaTopic (KafkaTopics is not supported)")
    else match discover with
         | Ok ids => Ok (mkSource c newOffsetTracker [] ids)
         | Err e | Panic e => Panic (bs "weibo/source: " ++ e)
         end
  else Ok (mkSource c newOffsetTracker [] []).

(** The watermarks of [Run]: the raw loop is wrapped when they are enabled. *)
Definition source_watermarks (k : KafkaSource) : option (WatermarkSource Watermark.BoundedOutOfOrderness) :=
  let c := ks_cfg k in
  let w := mkWmTracker (kc_outOfOrderness c) (kc_wmInterval c) (kc_wmIdle c) in
  if enabled w then Some (wrap w) else None.

(** ** Partition readers ([kafka_partition_manager.go]) *)

(** A running reader: where it started reading. *)
Definition partitionReader := Z.

Inductive mact := MStart (id start : Z) | MStop (id : Z).

(** [partitionManager]: the readers running; [pm_seek] tells whether the reader
    of a partition accepts a seek. *)
Record partitionManager := mkManager {
  pm_cfg : kafkaSourceConfig;
  pm_offsets : offsetTracker;
  pm_seek : Z → bool;
  running : gmap Z partitionReader
}.

(** [newPartitionManager] *)
Definition newPartitionManager (c : kafkaSourceConfig) (t : offsetTracker) (seek : Z → bool) : partitionManager := mkManager c t seek ∅.

(** [startReader]: the restored position, or the configured start. *)
Definition start_position (m : partitionManager) (id : Z) : Z :=
  match restoredOffset (pm_offsets m) (kc_topic (pm_cfg m)) id with
  | Some off => if pm_seek m id then off else toKafka (kc_offset (pm_cfg m))
  | None => toKafka (kc_offset (pm_cfg m))
  end.
Definition startReader (m : partitionManager) (id : Z) : result (partitionManager * list mact) :=
  _ <-? buildPartitionReader (pm_cfg m) id ;;
  Ok ({m with running := <[id := start_position m id]> (running m)}, [MStart id (start_position m id)]).

(** The second loop of [reconcile]. *)
Fixpoint start_missing (m : partitionManager) (desired : list Z) : result (partitionManager * list mact) :=
  match desired with
  | [] => Ok (m, [])
  | id :: desired =>
      if decide (is_Some (running m !! id)) then start_missing m desired
      else
        x <-? startReader m id ;;
        y <-? start_missing x.1 desired ;;
        Ok (y.1, x.2 ++ y.2)
  end.

(** [reconcile] *)
Definition reconcile (m : partitionManager) (desired : list Z) : result (partitionManager * list mact) :=
  let gone := filter (λ id, id ∉ desired) (map_to_list (running m)).*1 in
  x <-? start_missing {m with running := filter (λ kv, kv.1 ∈ desired) (running m)} desired ;;
  Ok (x.1, (MStop <$> gone) ++ x.2).

(** [stopAll] *)
Definition stopAll (m : partitionManager) : partitionManager * list mact :=
  ({m with running := ∅}, MStop <$> (map_to_list (running m)).*1).

(** The branches of the select loop of [run]: the context ended, a reader failed
    while its context was live, a tick with the answer of the discovery.  Ticks
    come only when an interval is set. *)
Inductive mevent := MDone | MFatal (e : bytes) | MTick (ids : result (list Z)).

Fixpoint manage_loop (m : partitionManager) (evs : list mevent) : partitionManager * list mact * outcome :=
  match evs with
  | [] => (m, [], None)
  | MDone :: _ => let '(m, acts) := stopAll m in (m, acts, Some (Ok tt))
  | MFatal e :: _ => let '(m, acts) := stopAll m in (m, acts, Some (Err e))
  | MTick (Ok ids) :: evs =>
      if 0 <? kc_watch (pm_cfg m) then
        match reconcile m ids with
        | Ok (m, acts) => let '(m, acts', o) := manage_loop m evs in (m, acts ++ acts', o)
        | Err e => (m, [], Some (Err e))
        | Panic e => (m, [], Some (Panic e))
        end
      else manage_loop m evs
  | MTick _ :: evs => manage_loop m evs
  end.

(** [run] *)
Definition manage (m : partitionManager) (seed : list Z) (evs : list mevent) : partitionManager * list mact * outcome :=
  match reconcile m seed with
  | Ok (m, acts) => let '(m, acts', o) := manage_loop m evs in (m, acts ++ acts', o)
  | Err e => (m, [], Some (Err e))
  | Panic e => (m, [], Some (Panic e))
  end.
End kafka_source.
