(* ===== verification/KafkaSourceCorrect.v ===== *)
(** * Commits, retries and readers of the Kafka source

    In the single-reader loop the broker is never asked to commit a message
    before that message and everything fetched before it was handed on; in
    exactly-once mode it is not asked at all, and the offsets of a checkpoint are
    committed as they are.  The waits between attempts, and the readers of the
    parallel mode. *)

From S2P Require Import Prelude Record Window Rfc3339 Decimal TxnSink Workflow WorkflowCompile Injector SourceWatermark Positions KafkaSource.
From coqutil Require Import Datatypes.RecordSetters.
Import OCamlLikeNotations.

Section serial.
Context {P : Type}.
Implicit Types (k : @KafkaSource P) (acts : list (@kact P)) (m : kmessage).

(** ** Traces *)

(** Where a message or a record stands: partition and offset. *)
Definition coord (m : message) : PositionKey * Z := (m_key m, m_Offset m).
Definition rcoord (r : Record_) : PositionKey * Z := ((Source r, Partition r), Offset r).

Definition tracks acts : list kmessage := omap (λ a, match a with KTrack m => Some m | _ => None end) acts.
Definition emits acts : list (PositionKey * Z) := omap (λ a, match a with KEmit d => Some (rcoord d.1) | _ => None end) acts.
Definition commits acts : list (PositionKey * Z) :=
  acts ≫= λ a, match a with KCommit ms _ => coord <$> ms | _ => [] end.
Definition pending k : list (PositionKey * Z) := coord ∘ km_msg <$> ks_pending k.

Lemma rcoord_message m : rcoord (KafkaToRecord m) = coord (km_msg m).
Proof. done. Qed.

(** A fetched message was handed on: emitted, written to the dead-letter sink,
    or dropped as the policy says. *)
Definition handled (c : @kafkaSourceConfig P) m acts : Prop :=
  (∃ p, KEmit (KafkaToRecord m, p) ∈ acts)
  ∨ ∃ d e, kc_deserializer c = Some d ∧ d (km_Value m) (Headers (KafkaToRecord m)) = Err e
      ∧ (kc_deserPolicy c = DeserFailureDrop
         ∨ kc_deserPolicy c = DeserFailureDLQ ∧ KDead (WithHeader (KafkaToRecord m) (bs "_deser_error") e) ∈ acts).

Lemma handled_mono c m acts acts' : acts ⊆ acts' → handled c m acts → handled c m acts'.
Proof. intros Hs [(p & Hp)|(d & e & Hd & He & Ho)]; [left; eauto|right; exists d, e]. split_and!; [done|done|]. destruct Ho as [?|[? ?]]; auto. Qed.

(** What an action may rely on: before a message is tracked or committed,
    everything fetched was handed on; a commit is never ahead of the output; only
    fetched messages are emitted. *)
Definition safe_at (c : @kafkaSourceConfig P) acts (a : @kact P) : Prop :=
  match a with
  | KTrack _ => ∀ m, m ∈ tracks acts → handled c m acts
  | KCommit ms _ => (∀ m, m ∈ tracks acts → handled c m acts) ∧ commits acts ++ (coord <$> ms) `prefix_of` emits acts
  | KEmit d => ∃ m, m ∈ tracks acts ∧ rcoord d.1 = coord (km_msg m)
  | _ => True
  end.

Inductive trace (c : @kafkaSourceConfig P) : list kact → Prop :=
| trace_nil : trace c []
| trace_snoc acts a : trace c acts → safe_at c acts a → trace c (acts ++ [a]).

Lemma trace_at c acts pre a post : trace c acts → acts = pre ++ a :: post → safe_at c pre a.
Proof.
  intros Ht. revert post. induction Ht as [|acts b Ht IH Hb]; intros post E; [by destruct pre|].
  destruct post as [|x post _] using rev_ind; [by apply app_inj_tail in E as [-> ->]|].
  rewrite app_comm_cons, app_assoc in E. apply app_inj_tail in E as [E _]. by eapply IH.
Qed.

Lemma trace_emits c acts : trace c acts → ∀ x, x ∈ emits acts → ∃ m, m ∈ tracks acts ∧ x = coord (km_msg m).
Proof.
  induction 1 as [|acts a Ht IH Ha]; intros x Hx; [by apply elem_of_nil in Hx|]. unfold emits, tracks in *. rewrite !omap_app in *.
  apply elem_of_app in Hx as [Hx|Hx].
  - destruct (IH x Hx) as (m & Hm & ->). exists m. split; [|done]. apply elem_of_app. by left.
  - destruct a as [m|d|r|ms b|d]; cbn in Hx; try by apply elem_of_nil in Hx. apply list_elem_of_singleton in Hx as ->.
    destruct Ha as (m & Hm & ->). exists m. split; [|done]. apply elem_of_app. by left.
Qed.

(** Actions that neither track, emit nor commit. *)
Definition silent (a : @kact P) : Prop := match a with KDead _ | KWait _ => True | _ => False end.
Lemma silent_parts acts : Forall silent acts → tracks acts = [] ∧ emits acts = [] ∧ commits acts = [].
Proof.
  induction 1 as [|a acts Ha _ (H1 & H2 & H3)]; [done|]. unfold tracks, emits, commits in *. by destruct a; try done; cbn.
Qed.
Lemma trace_silent c acts acts' : Forall silent acts' → trace c acts → trace c (acts ++ acts').
Proof.
  intros Hs. revert acts. induction Hs as [|a acts' Ha _ IH]; intros acts Ht; [by rewrite app_nil_r|].
  rewrite (app_assoc acts [a] acts' : acts ++ a :: acts' = (acts ++ [a]) ++ acts'). apply IH. constructor; [done|]. by destruct a.
Qed.
Lemma silent_waits ws : Forall silent (KWait <$> ws : list (@kact P)).
Proof. apply Forall_fmap, Forall_forall. done. Qed.
Lemma silent_dead rs : Forall silent (KDead <$> rs : list (@kact P)).
Proof. apply Forall_fmap, Forall_forall. done. Qed.

(** ** The loop *)

(** Between turns everything fetched was handed on, and what is not yet
    committed is pending. *)
Record settled k acts : Prop := {
  st_trace : trace (ks_cfg k) acts;
  st_handled : ∀ m, m ∈ tracks acts → handled (ks_cfg k) m acts;
  st_exact : commits acts ++ pending k = emits acts
}.

Lemma tracks_app a b : tracks (a ++ b) = tracks a ++ tracks b.
Proof. apply omap_app. Qed.
Lemma emits_app a b : emits (a ++ b) = emits a ++ emits b.
Proof. apply omap_app. Qed.
Lemma commits_app a b : commits (a ++ b) = commits a ++ commits b.
Proof. apply bind_app. Qed.

Lemma commitWithRetry_shape k ms calls k' acts o : commitWithRetry k ms calls = (k', acts, o) →
  ks_cfg k' = ks_cfg k ∧ ks_pending k' = ks_pending k
  ∧ ∃ ws, (o = None ∧ acts = KWait <$> ws) ∨ ∃ b, acts = (KWait <$> ws) ++ [KCommit ms b].
Proof.
  unfold commitWithRetry. destruct (commit_loop _ _ _ _) as [ws [[| |e]|]]; [| |destruct (kc_commitPolicy _)|];
    intros [= <- <- <-]; (split; [done|]); (split; [done|]); exists ws; eauto.
Qed.

Lemma commit_trace c acts ms cacts ws (o : outcome) rest :
  trace c acts → (∀ m, m ∈ tracks acts → handled c m acts) → commits acts ++ (coord <$> ms) ++ rest = emits acts →
  (o = None ∧ cacts = KWait <$> ws) ∨ (∃ b, cacts = (KWait <$> ws) ++ [KCommit ms b]) →
  trace c (acts ++ cacts) ∧ tracks cacts = [] ∧ emits cacts = [] ∧ (o = None ∨ commits cacts = coord <$> ms).
Proof.
  intros Ht Hh He [[-> ->]|[b ->]]; destruct (silent_parts _ (silent_waits ws)) as (E1 & E2 & E3).
  - split_and!; [by apply trace_silent, Ht; apply silent_waits|done|done|by left].
  - rewrite tracks_app, emits_app, commits_app, E1, E2, E3. split_and!; [|done|done|right; cbn; by rewrite app_nil_r].
    rewrite app_assoc. constructor; [by apply trace_silent, Ht; apply silent_waits|]. split.
    + intros m. rewrite tracks_app, E1, app_nil_r. intros Hm. eapply handled_mono; [|by apply Hh]. set_solver.
    + rewrite commits_app, emits_app, E2, E3, !app_nil_r, <- He. exists rest. by rewrite app_assoc.
Qed.

Lemma serial_commit_ok k m calls acts k' cacts o : kc_exactlyOnce (ks_cfg k) = false →
  trace (ks_cfg k) acts → (∀ m, m ∈ tracks acts → handled (ks_cfg k) m acts) →
  commits acts ++ pending k ++ [coord (km_msg m)] = emits acts → (kc_commitBatch (ks_cfg k) ≤ 0 → ks_pending k = []) →
  serial_commit k m calls = (k', cacts, o) →
  ks_cfg k' = ks_cfg k ∧ trace (ks_cfg k) (acts ++ cacts)
  ∧ (o ≠ None → settled k' (acts ++ cacts) ∧ (kc_commitBatch (ks_cfg k) ≤ 0 → ks_pending k' = [])).
Proof.
  intros Heo Ht Hh He Hp. unfold serial_commit. rewrite Heo.
  assert (∀ k' cacts, ks_cfg k' = ks_cfg k → trace (ks_cfg k) (acts ++ cacts) → tracks cacts = [] → emits cacts = [] →
    commits cacts ++ pending k' = pending k ++ [coord (km_msg m)] → settled k' (acts ++ cacts)) as Hset.
  { intros k1 ca Ec Htr E1 E2 E3. split; [by rewrite Ec|rewrite Ec|].
    - intros m'. rewrite tracks_app, E1, app_nil_r. intros Hm. eapply handled_mono; [|by apply Hh]. set_solver.
    - by rewrite commits_app, emits_app, E2, app_nil_r, <- app_assoc, E3, He. }
  destruct (Z.ltb_spec 0 (kc_commitBatch (ks_cfg k))) as [Hb|Hb].
  - cbn [ks_pending apply_update constant ks_cfg ks_offsets ks_initial]. unfold constant. cbn [ks_pending ks_cfg].
    destruct (Z.leb_spec (kc_commitBatch (ks_cfg k)) (Z.of_nat (length (ks_pending k ++ [m])))) as [Hl|Hl].
    + unfold commitBatchWithRetry. cbn [ks_pending]. destruct (ks_pending k ++ [m]) as [|x l] eqn:El; [by destruct (ks_pending k)|].
      intros E. apply commitWithRetry_shape in E as (E1 & E2 & ws & E3). cbn in E1, E2.
      assert (coord <$> (km_msg <$> x :: l) = pending k ++ [coord (km_msg m)]) as Em
        by (rewrite <- El; unfold pending; by rewrite !fmap_app, <- list_fmap_compose).
      destruct (commit_trace (ks_cfg k) acts (km_msg <$> x :: l) cacts ws o []) as (Htr & T1 & T2 & T3); [done|done|by rewrite app_nil_r, Em|done|].
      split_and!; [done|done|]. intros Ho. split; [|lia]. apply Hset; try done.
      destruct T3 as [?|T3]; [done|]. rewrite T3, Em. unfold pending at 2. by rewrite E2, app_nil_r.
    + intros [= <- <- <-]. rewrite app_nil_r. split_and!; [done|done|]. intros _. split; [|lia].
      rewrite <- (app_nil_r acts). apply Hset; try done; [by rewrite app_nil_r|]. unfold pending. cbn. by rewrite fmap_app.
  - intros E. apply commitWithRetry_shape in E as (E1 & E2 & ws & E3). specialize (Hp Hb).
    assert (pending k = []) as Hpk by (unfold pending; by rewrite Hp).
    destruct (commit_trace (ks_cfg k) acts [km_msg m] cacts ws o []) as (Htr & T1 & T2 & T3); [done|done|by rewrite <- He, Hpk|done|].
    split_and!; [done|done|]. intros Ho. split; [|by rewrite E2]. apply Hset; try done.
    destruct T3 as [?|T3]; [done|]. rewrite T3. unfold pending. by rewrite E2, Hp.
Qed.

Lemma toRecord_some c m dlq d dead : @toRecord P c m dlq = (Ok (Some d), dead) → d.1 = KafkaToRecord m ∧ dead = [].
Proof.
  unfold toRecord. destruct (kc_deserializer c) as [f|]; [|by intros [= <- <-]]. destruct (f _ _); [by intros [= <- <-]| |done].
  destruct (kc_deserPolicy c), (kc_deserDLQ c), dlq; done.
Qed.
Lemma toRecord_none c m dlq dead : @toRecord P c m dlq = (Ok None, dead) → handled c m (KDead <$> dead).
Proof.
  unfold toRecord. destruct (kc_deserializer c) as [f|] eqn:Ed; [|done]. destruct (f _ _) as [p|e|] eqn:Ef; [done| |done].
  destruct (kc_deserPolicy c) eqn:Ep; [|destruct (kc_deserDLQ c), dlq|]; intros [= <-]; right; exists f, e; split_and!; auto.
  right. split; [done|]. by left.
Qed.

Lemma handled_weaken c acts acts' : tracks acts' = [] → (∀ m, m ∈ tracks acts → handled c m acts) →
  ∀ m, m ∈ tracks (acts ++ acts') → handled c m (acts ++ acts').
Proof. intros E H m. rewrite tracks_app, E, app_nil_r. intros Hm. eapply handled_mono; [|by apply H]. set_solver. Qed.

(** What a turn promises the next. *)
Definition ready k acts : Prop := settled k acts ∧ (kc_commitBatch (ks_cfg k) ≤ 0 → ks_pending k = []).

Lemma turn_ok k t acts0 k' acts o : kc_exactlyOnce (ks_cfg k) = false → ready k acts0 → read_turn serial_commit k t = (k', acts, o) →
  ks_cfg k' = ks_cfg k ∧ trace (ks_cfg k) (acts0 ++ acts) ∧ (o = Some (Ok tt) → ready k' (acts0 ++ acts)).
Proof.
  intros Heo [[Ht Hh He] Hp]. unfold read_turn. destruct (fetchWithRetry _ _) as [ws e].
  pose proof (trace_silent _ _ _ (silent_waits ws) Ht) as Htw. destruct (silent_parts _ (silent_waits ws)) as (W1 & W2 & W3).
  destruct e as [[m|e|e]|]; try (intros [= <- <- <-]; by split_and!).
  set (k1 := {k with ks_offsets := trackMessage (ks_offsets k) (km_msg m)}).
  assert (ks_cfg k1 = ks_cfg k ∧ ks_pending k1 = ks_pending k) as [Ec Epd] by done. rewrite Ec.
  pose proof (handled_weaken _ _ _ W1 Hh) as Hhw.
  set (base := acts0 ++ (KWait <$> ws)) in *.
  assert (trace (ks_cfg k) (base ++ [KTrack m])) as Htk by (by constructor).
  destruct (toRecord (ks_cfg k) m (t_dlq t)) as [r dead] eqn:Er.
  assert (acts0 ++ (KWait <$> ws) ++ KTrack m :: (KDead <$> dead) = (base ++ [KTrack m]) ++ (KDead <$> dead)) as Ea
    by (unfold base; by rewrite <- !app_assoc).
  destruct (silent_parts _ (silent_dead dead)) as (D1 & D2 & D3).
  pose proof (trace_silent _ _ _ (silent_dead dead) Htk) as Htd.
  assert (tracks (base ++ [KTrack m]) = tracks acts0 ++ [m]) as Et by (unfold base; by rewrite !tracks_app, W1, app_nil_r).
  assert (emits (base ++ [KTrack m]) = emits acts0) as Ee by (unfold base; by rewrite !emits_app, W2, !app_nil_r).
  assert (commits (base ++ [KTrack m]) = commits acts0) as Eco by (unfold base; by rewrite !commits_app, W3, !app_nil_r).
  assert (∀ acts', handled (ks_cfg k) m acts' → ∀ m', m' ∈ tracks acts0 ++ [m] → handled (ks_cfg k) m' ((base ++ [KTrack m]) ++ acts')) as Hall.
  { intros acts' Hm m' [Hm'|Hm']%elem_of_app.
    - eapply handled_mono; [|by apply Hh]. unfold base. set_solver.
    - apply list_elem_of_singleton in Hm' as ->. eapply handled_mono; [|exact Hm]. set_solver. }
  destruct r as [[d|]|e|e]; try (intros [= <- <- <-]; rewrite Ea; by split_and!).
  - apply toRecord_some in Er as [Ed ->]. cbn [fmap list_fmap] in *. destruct (t_sent t); [|intros [= <- <- <-]; rewrite Ea; by split_and!].
    destruct (serial_commit k1 m (t_commit t)) as [[k2 cacts] o2] eqn:Es. intros [= <- <- <-].
    set (em := KEmit d). cbn [fmap list_fmap] in *. rewrite app_nil_r in Htd.
    assert (acts0 ++ ((KWait <$> ws) ++ [KTrack m]) ++ em :: cacts = ((base ++ [KTrack m]) ++ [em]) ++ cacts) as ->
      by (unfold base; by rewrite <- !app_assoc).
    assert (rcoord d.1 = coord (km_msg m)) as Edc by (by rewrite Ed).
    assert (trace (ks_cfg k) ((base ++ [KTrack m]) ++ [em])) as Hte.
    { constructor; [done|]. exists m. rewrite Et. split; [set_solver|done]. }
    destruct (serial_commit_ok k1 m (t_commit t) ((base ++ [KTrack m]) ++ [em]) k2 cacts o2) as (S1 & S2 & S3); try done.
    + rewrite Ec. intros m'. rewrite tracks_app, Et, app_nil_r. apply Hall. left. exists d.2. rewrite <- Ed.
      unfold em. rewrite <- surjective_pairing. by left.
    + rewrite commits_app, emits_app, Ee, Eco, app_nil_r, app_assoc. unfold pending. rewrite Epd. fold (pending k). rewrite He.
      unfold em. cbn. by rewrite Edc.
    + rewrite Ec in S1, S2. split_and!; [done|done|]. intros ->. destruct S3 as [S3 S4]; [done|]. split; [done|]. by rewrite S1.
  - intros [= <- <- <-]. rewrite Ea. apply toRecord_none in Er. split_and!; [done|done|]. intros _. split; [|done]. split; [done| |].
    + intros m'. rewrite tracks_app, Et, D1, app_nil_r. by apply Hall.
    + rewrite commits_app, emits_app, Ee, Eco, D2, D3, !app_nil_r. unfold pending. rewrite Epd. exact He.
Qed.

Lemma serial_loop_ok ts : ∀ k acts0 k' acts o, kc_exactlyOnce (ks_cfg k) = false → ready k acts0 →
  read_loop serial_commit k ts = (k', acts, o) → trace (ks_cfg k) (acts0 ++ acts).
Proof.
  induction ts as [|t ts IH]; intros k acts0 k' acts o Heo Hr; cbn [read_loop].
  { intros [= <- <- <-]. rewrite app_nil_r. apply Hr. }
  destruct (read_turn serial_commit k t) as [[k1 a1] o1] eqn:E1. destruct (turn_ok k t acts0 k1 a1 o1 Heo Hr E1) as (Ec & Ht & Hs).
  destruct o1 as [[[]|e|e]|]; try by intros [= <- <- <-].
  destruct (read_loop serial_commit k1 ts) as [[k2 a2] o2] eqn:E2. intros [= <- <- <-].
  rewrite app_assoc, <- Ec. eapply IH; [by rewrite Ec|by apply Hs|exact E2].
Qed.

(** Kafka hands out the messages of a partition in the order of their offsets. *)
Definition in_order (ms : list kmessage) : Prop :=
  StronglySorted (λ a b, m_key (km_msg a) = m_key (km_msg b) → m_Offset (km_msg a) < m_Offset (km_msg b)) ms.

(** C25: When the messages of every partition are fetched in order, every
    message at or below an offset the serial Kafka source asks the broker to
    commit was before that sent downstream, dropped or dead-lettered by the
    deserialization policy. *)
Theorem committed_were_delivered k ts pre ms ok post c m :
  kc_exactlyOnce (ks_cfg k) = false → ks_pending k = [] →
  (runSerial k ts).1.2 = pre ++ KCommit ms ok :: post → in_order (tracks (pre ++ post)) →
  c ∈ ms → m ∈ tracks (pre ++ post) → m_key (km_msg m) = m_key c → m_Offset (km_msg m) ≤ m_Offset c →
  handled (ks_cfg k) m pre.
Proof.
  intros Heo Hp Ea Ho Hc Hm Hk Hle. destruct (runSerial k ts) as [[k' acts] o] eqn:E. cbn [fst snd] in Ea. subst acts.
  assert (ready k []) as Hr.
  { split; [|done]. split; [constructor|by intros m' ?%elem_of_nil|]. unfold pending. by rewrite Hp. }
  pose proof (serial_loop_ok ts k [] k' _ o Heo Hr E) as Ht. cbn [app] in Ht.
  destruct (trace_at _ _ pre _ post Ht eq_refl) as [Hh [rest Hpre]]. apply Hh.
  assert (trace (ks_cfg k) pre) as Htp.
  { clear -Ht. revert Ht. generalize (KCommit ms ok :: post). intros l. induction l as [|a l IH] using rev_ind; [by rewrite app_nil_r|].
    rewrite app_assoc. intros Ht. inversion Ht as [Hn|acts' a' Ht' Ha' E]; [by destruct pre, l|]. apply app_inj_tail in E as [-> _]. by apply IH. }
  assert (∃ mc, mc ∈ tracks pre ∧ coord c = coord (km_msg mc)) as (mc & Hmc & Ec).
  { apply (trace_emits _ _ Htp). rewrite Hpre. apply elem_of_app. left. apply elem_of_app. right. by apply list_elem_of_fmap_2. }
  rewrite tracks_app in Hm, Ho. apply elem_of_app in Hm as [Hm|Hm]; [done|exfalso].
  injection Ec as Ek1 Ek2 Eo. apply StronglySorted_app_1_elem_of with (x1 := mc) (x2 := m) in Ho; [|done..].
  assert (m_key (km_msg mc) = m_key (km_msg m)) as Hkk by (rewrite Hk; unfold m_key; by rewrite Ek1, Ek2).
  specialize (Ho Hkk). lia.
Qed.
End serial.

(** ** Exactly-once mode *)

Section exactly_once.
Context {P : Type} `{!PositionJSON}.
Implicit Types (k : @KafkaSource P).

Lemma eo_turn k t k' acts o : kc_exactlyOnce (ks_cfg k) = true → read_turn serial_commit k t = (k', acts, o) →
  ks_cfg k' = ks_cfg k ∧ commits acts = [].
Proof.
  intros Heo. unfold read_turn, serial_commit. destruct (fetchWithRetry _ _) as [ws e].
  destruct (silent_parts _ (@silent_waits P ws)) as (_ & _ & W).
  destruct e as [[m|e|e]|]; try (intros [= <- <- <-]; by split).
  destruct (toRecord _ _ _) as [r dead]. destruct (silent_parts _ (@silent_dead P dead)) as (_ & _ & D).
  assert (commits ((KWait <$> ws) ++ KTrack m :: (KDead <$> dead)) = []) as E by (rewrite commits_app, W; exact D).
  set (k1 := {k with ks_offsets := trackMessage (ks_offsets k) (km_msg m)}).
  assert (kc_exactlyOnce (ks_cfg k1) = true) as -> by exact Heo.
  destruct r as [[d|]|e|e]; [destruct (t_sent t)| | |]; intros [= <- <- <-]; (split; [done|]); first [exact E|by rewrite (commits_app _ [KEmit d]), E].
Qed.

Lemma eo_loop ts : ∀ k, kc_exactlyOnce (ks_cfg k) = true →
  ks_cfg (runSerial k ts).1.1 = ks_cfg k ∧ commits (runSerial k ts).1.2 = [].
Proof.
  unfold runSerial. induction ts as [|t ts IH]; intros k Heo; cbn [read_loop]; [done|].
  destruct (read_turn serial_commit k t) as [[k1 a1] o1] eqn:E1. destruct (eo_turn k t k1 a1 o1 Heo E1) as [Ec Ea].
  destruct o1 as [[[]|e|e]|]; try done. destruct (IH k1 ltac:(by rewrite Ec)) as [IH1 IH2].
  destruct (read_loop serial_commit k1 ts) as [[k2 a2] o2]. cbn [fst snd] in *. by rewrite commits_app, Ea, IH1, IH2.
Qed.

Lemma i64_sub_add z : in_i64 z → i64_add (i64_sub z 1) 1 = z.
Proof.
  intros Hz. unfold i64_add, i64_sub. rewrite <- (wrap64_id z Hz) at 2. unfold wrap64. f_equal.
  replace ((z - 1 + two63) mod two64 - two63 + 1 + two63) with ((z - 1 + two63) mod two64 + 1) by lia.
  rewrite Zplus_mod_idemp_l. f_equal. lia.
Qed.

Lemma markCommitted_lookup ms : ∀ t key z, NoDup (m_key <$> ms) → (∃ m, m ∈ ms ∧ m_key m = key ∧ i64_add (m_Offset m) 1 = z) →
  committed (markCommitted t ms) !! key = Some z.
Proof.
  unfold markCommitted. induction ms as [|m ms IH] using rev_ind; intros t key z Hnd (m' & Hm & Hk & Hz); [by apply elem_of_nil in Hm|].
  rewrite foldl_snoc. unfold markCommitted1 at 1. cbn [committed]. rewrite fmap_app in Hnd. apply NoDup_app in Hnd as (Hnd & Hdis & _).
  apply elem_of_app in Hm as [Hm|Hm%list_elem_of_singleton].
  - rewrite lookup_insert_ne; [by eapply IH; eauto|]. intros E. apply (Hdis key); [by rewrite <- Hk; apply list_elem_of_fmap_2|]. rewrite <- E. by left.
  - subst m'. by rewrite Hk, Hz, lookup_insert_eq.
Qed.

(** An exactly-once Kafka source commits nothing while it reads; the
    positions of a completed checkpoint are then committed as they are, so
    that the broker resumes at the checkpoint. *)
Theorem exactly_once_commits k ts ps calls :
  kc_exactlyOnce (ks_cfg k) = true → kc_groupID (ks_cfg k) ≠ [] → 0 ≤ kc_commitMaxRetries (ks_cfg k) →
  Forall pos_ok ps → Forall (λ p, in_i64 (p_Offset p)) ps → NoDup (p_key <$> ps) → ps ≠ [] →
  let '(k', acts, _) := runSerial k ts in
  commits acts = []
  ∧ ∃ k'', CommitOffsets k' (EncodePositions ps) (CommitOk :: calls) = (k'', [KCommit (commit_position <$> merge_sort pos_le ps) true], Some (Ok tt))
    ∧ ∀ p, p ∈ ps → committed (ks_offsets k'') !! p_key p = Some (p_Offset p).
Proof.
  intros Heo Hg Hr Hok Hi Hnd Hne. destruct (eo_loop ts k Heo) as [Ecfg Hc].
  destruct (runSerial k ts) as [[k' acts] o]. cbn [fst snd] in *. split; [done|].
  unfold CommitOffsets. rewrite Ecfg, decide_False by done. rewrite DecodePositions_Encode by done.
  set (qs := merge_sort pos_le ps). assert (qs ≡ₚ ps) as Hp by apply merge_sort_Permutation.
  destruct (commit_position <$> qs) as [|m0 ms0] eqn:Em.
  { apply fmap_nil_inv in Em. rewrite Em in Hp. by apply Permutation_nil_l in Hp. }
  rewrite <- Em. unfold commitWithRetry. rewrite Ecfg. cbn [commit_loop]. destruct (Z.leb_spec 0 (kc_commitMaxRetries (ks_cfg k))); [|lia].
  eexists. split; [done|]. intros p Hin. cbn [ks_offsets apply_update constant]. unfold constant. apply markCommitted_lookup.
  - rewrite <- list_fmap_compose. change (NoDup (p_key <$> qs)). by rewrite Hp.
  - exists (commit_position p). split_and!; [apply list_elem_of_fmap_2; by rewrite Hp|done|].
    rewrite Forall_forall in Hi. apply i64_sub_add. by apply Hi.
Qed.
End exactly_once.

(** ** Waiting between attempts *)

Lemma backoff_doubles a : 0 ≤ a ≤ 33 → backoff a = 2 ^ a * second.
Proof.
  intros Ha. unfold backoff. destruct (Z.leb_spec 64 a); [lia|]. rewrite Z.shiftl_1_l.
  assert (1 ≤ 2 ^ a ≤ 2 ^ 33) as Hp by (split; [apply (Z.pow_le_mono_r 2 0); lia|apply Z.pow_le_mono_r; lia]).
  change (2 ^ 33) with 8589934592 in Hp. unfold i64_mul, second, duration. rewrite (wrap64_id (2 ^ a)) by solve_i64. rewrite wrap64_id by solve_i64. done.
Qed.

(** Past 55 doublings the 64-bit product is a multiple of 2^64. *)
Lemma backoff_vanishes a : 55 ≤ a → backoff a = 0.
Proof.
  intros Ha. unfold backoff. destruct (Z.leb_spec 64 a); [done|].
  assert (a = 55 ∨ a = 56 ∨ a = 57 ∨ a = 58 ∨ a = 59 ∨ a = 60 ∨ a = 61 ∨ a = 62 ∨ a = 63) as Hc by lia.
  by repeat destruct Hc as [->|Hc]; try subst a.
Qed.

Section waits.
Context {P : Type}.

Lemma fetch_loop_forever max calls : max < 0 → ∀ a e, Forall (λ c, ∃ e, c = FetchErr e false) calls →
  fetch_loop max a e calls = (fetch_backoff <$> seqZ a (Z.of_nat (length calls)), None).
Proof.
  intros Hm. assert ((max <? 0) = true) as Em by lia.
  induction calls as [|c calls IH]; intros a e Hc; cbn [fetch_loop]; rewrite Em; cbn [orb]; [done|].
  apply Forall_cons in Hc as [[e' ->] Hc]. rewrite IH by done. cbn [length].
  rewrite (seqZ_cons a (Z.of_nat (S (length calls)))) by lia. cbn [fmap list_fmap]. do 4 f_equal; lia.
Qed.

Lemma fetch_loop_bounded max calls : 0 ≤ max → ∀ a e, 0 ≤ a ≤ max + 1 → Forall (λ c, ∃ e, c = FetchErr e false) calls →
  max - a < Z.of_nat (length calls) →
  ∃ e', fetch_loop max a e calls = (fetch_backoff <$> seqZ a (max - a), Some (Err e')).
Proof.
  intros Hm. assert ((max <? 0) = false) as Em by lia.
  induction calls as [|c calls IH]; intros a e Ha Hc Hl; cbn [fetch_loop]; rewrite Em; cbn [orb length] in *.
  - destruct (Z.leb_spec a max); [lia|]. rewrite (seqZ_nil a (max - a)) by lia. by eexists.
  - apply Forall_cons in Hc as [[e' ->] Hc]. destruct (Z.leb_spec a max).
    + destruct (IH (a + 1) e' ltac:(lia) Hc ltac:(lia)) as [e2 E]. rewrite E. exists e2. destruct (Z.ltb_spec a max).
      * rewrite (seqZ_cons a (max - a)) by lia. cbn [fmap list_fmap]. do 4 f_equal; lia.
      * by rewrite (seqZ_nil a (max - a)), (seqZ_nil (a + 1) _) by lia.
    + rewrite (seqZ_nil a (max - a)) by lia. by eexists.
Qed.

(** The intended wait: doubled each time, at most half a minute. *)
Definition schedule (attempt : Z) : duration := Z.min (2 ^ attempt * second) (30 * second).

(** A failing fetch is retried after 1, 2, 4, 8 and 16 and then 30
    seconds, as often as configured; with unlimited retries the 64-bit shift
    overflows and from attempt 55 on the wait is zero. *)
Theorem fetch_waits (c : @kafkaSourceConfig P) (calls : list fetch_ans) :
  Forall (λ a, ∃ e, a = FetchErr e false) calls →
  (0 ≤ kc_fetchMaxRetries c < Z.of_nat (length calls) →
     ∃ e, fetchWithRetry c calls = (fetch_backoff <$> seqZ 0 (kc_fetchMaxRetries c), Some (Err e)))
  ∧ (kc_fetchMaxRetries c < 0 → fetchWithRetry c calls = (fetch_backoff <$> seqZ 0 (Z.of_nat (length calls)), None))
  ∧ (∀ a, 0 ≤ a ≤ 33 → fetch_backoff a = schedule a)
  ∧ (∀ a, 55 ≤ a → fetch_backoff a = 0).
Proof.
  intros Hc. split_and!.
  - intros Hm. destruct (fetch_loop_bounded (kc_fetchMaxRetries c) calls ltac:(lia) 0 [] ltac:(lia) Hc ltac:(lia)) as [e E].
    exists e. unfold fetchWithRetry. rewrite E. by rewrite Z.sub_0_r.
  - intros Hm. by apply fetch_loop_forever.
  - intros a Ha. unfold fetch_backoff, schedule. rewrite backoff_doubles by done. destruct (Z.ltb_spec (30 * second) (2 ^ a * second)); lia.
  - intros a Ha. unfold fetch_backoff. by rewrite backoff_vanishes.
Qed.

End waits.

Lemma fetch_waits_witness : let c := applyDefaults (@emptyConfig unit) in let calls := replicate 6 (FetchErr (bs "timeout") false) in
  ∃ e, fetchWithRetry c calls = (fetch_backoff <$> seqZ 0 5, Some (Err e)).
Proof.
  intros c calls. apply (proj1 (fetch_waits c calls ltac:(repeat constructor; by eexists))). done.
Defined.

(** ** Readers of the parallel mode *)

Section manager.
Context {P : Type} (scram : bool → bytes → bytes → result bytes) (buildTLS : TLSConfig → result (option tls_config)).
Implicit Types (m : @partitionManager P).

(** The partitions with a reader after the actions; [None] when a reader was
    started twice or stopped without running. *)
Fixpoint readers_of (live : gset Z) (acts : list mact) : option (gset Z) :=
  match acts with
  | [] => Some live
  | MStart id _ :: acts => if decide (id ∈ live) then None else readers_of ({[id]} ∪ live) acts
  | MStop id :: acts => if decide (id ∈ live) then readers_of (live ∖ {[id]}) acts else None
  end.

Lemma readers_of_app live a b : readers_of live (a ++ b) = readers_of live a ≫= λ l, readers_of l b.
Proof.
  revert live. induction a as [|[id st|id] a IH]; intros live; cbn [app readers_of]; [done|..]; case_decide; try done; apply IH.
Qed.
Lemma readers_of_stops ids : ∀ live, NoDup ids → (∀ id, id ∈ ids → id ∈ live) → readers_of live (MStop <$> ids) = Some (live ∖ list_to_set ids).
Proof.
  induction ids as [|id ids IH]; intros live Hnd Hin; cbn [fmap list_fmap readers_of]; [f_equal; set_solver|].
  apply NoDup_cons in Hnd as [Hni Hnd]. rewrite decide_True by (apply Hin; left). rewrite IH; [f_equal; set_solver|done|].
  intros id' Hid'. apply elem_of_difference. split; [apply Hin; by right|]. intros ->%elem_of_singleton. done.
Qed.

(** The settings a reader's start depends on. *)
Definition same_settings m m' : Prop := pm_cfg m' = pm_cfg m ∧ pm_offsets m' = pm_offsets m ∧ pm_seek m' = pm_seek m.
Lemma same_start m m' id : same_settings m m' → start_position m' id = start_position m id.
Proof. intros (E1 & E2 & E3). unfold start_position. by rewrite E1, E2, E3. Qed.
Definition starts_ok m (acts : list mact) : Prop := ∀ id st, MStart id st ∈ acts → st = start_position m id.

(** Every configured secret and file exists. *)
Definition dialer_ok m : Prop := ∃ d, buildDialer scram buildTLS (kc_sasl (pm_cfg m)) (kc_tls (pm_cfg m)) = Ok d.

Lemma start_missing_ok desired : ∀ m, dialer_ok m →
  ∃ m' acts, start_missing scram buildTLS m desired = Ok (m', acts) ∧ same_settings m m' ∧ starts_ok m acts
    ∧ dom (running m') = dom (running m) ∪ list_to_set desired
    ∧ readers_of (dom (running m)) acts = Some (dom (running m'))
    ∧ running m ⊆ running m'.
Proof.
  induction desired as [|id desired IH]; intros m Hd; cbn [start_missing].
  - exists m, []. split_and!; [done|done|by intros id st ?%elem_of_nil|set_solver|done|done].
  - case_decide as Hr.
    + destruct (IH m Hd) as (m' & acts & -> & Hs & Ho & Hdom & Hro & Hsub). exists m', acts. split_and!; try done.
      rewrite Hdom. apply elem_of_dom in Hr. set_solver.
    + unfold startReader, buildPartitionReader. destruct Hd as [d Hd]. rewrite Hd. cbn [rbind fst snd].
      set (m1 := {m with running := <[id:=start_position m id]> (running m)}).
      assert (same_settings m m1) as Hs1 by done. assert (running m1 = <[id:=start_position m id]> (running m)) as Er by done.
      destruct (IH m1) as (m' & acts & -> & Hs & Ho & Hdom & Hro & Hsub); [by exists d|]. cbn [rbind fst snd app].
      exists m', (MStart id (start_position m id) :: acts). split_and!; [done| | | | |].
      * destruct Hs as (S1 & S2 & S3). by split_and!; [rewrite S1|rewrite S2|rewrite S3].
      * intros id' st [[= -> ->]|Hin]%elem_of_cons; [done|]. rewrite (Ho _ _ Hin). by apply same_start.
      * rewrite Hdom, Er, dom_insert_L. set_solver.
      * cbn [readers_of]. rewrite decide_False by (by rewrite elem_of_dom). by rewrite Er, dom_insert_L in Hro.
      * etrans; [|exact Hsub]. rewrite Er. apply insert_subseteq. destruct (running m !! id) eqn:E; [|done]. destruct Hr. by eexists.
Qed.

Lemma reconcile_ok m desired : dialer_ok m →
  ∃ m' acts, reconcile scram buildTLS m desired = Ok (m', acts) ∧ same_settings m m' ∧ starts_ok m acts
    ∧ dom (running m') = list_to_set desired ∧ readers_of (dom (running m)) acts = Some (dom (running m'))
    ∧ (∀ id st, running m !! id = Some st → id ∈ desired → running m' !! id = Some st).
Proof.
  intros Hd. unfold reconcile. set (m1 := {m with running := filter (λ kv, kv.1 ∈ desired) (running m)}).
  assert (running m1 = filter (λ kv, kv.1 ∈ desired) (running m)) as Er by done.
  destruct (start_missing_ok desired m1) as (m' & acts & -> & Hs & Ho & Hdom & Hro & Hsub); [done|]. cbn [rbind fst snd].
  assert (∀ id, id ∈ dom (running m1) ↔ id ∈ dom (running m) ∧ id ∈ desired) as Hd1.
  { intros id. rewrite Er, !elem_of_dom. split.
    - intros [st [H1 H2]%map_lookup_filter_Some]. split; [by eexists|done].
    - intros [[st H1] H2]. exists st. by apply map_lookup_filter_Some. }
  set (gone := filter (λ id, id ∉ desired) (map_to_list (running m)).*1).
  assert (∀ id, id ∈ gone ↔ id ∈ dom (running m) ∧ id ∉ desired) as Hgone.
  { intros id. unfold gone. rewrite list_elem_of_filter, elem_of_dom, list_elem_of_fmap. split.
    - intros [H1 ([id' st] & -> & H2%elem_of_map_to_list)]. split; [by eexists|done].
    - intros [[st H1] H2]. split; [done|]. exists (id, st). split; [done|]. by apply elem_of_map_to_list. }
  exists m', ((MStop <$> gone) ++ acts). split_and!; [done|done| | | |].
  - intros id st [(? & ? & _)%list_elem_of_fmap|Hin]%elem_of_app; [done|]. by apply Ho.
  - rewrite Hdom. apply set_eq. intros id. rewrite elem_of_union, Hd1, elem_of_list_to_set. naive_solver.
  - rewrite readers_of_app, readers_of_stops; cbn [mbind option_bind].
    + rewrite <- Hro. f_equal. apply set_eq. intros id. rewrite elem_of_difference, elem_of_list_to_set, Hgone, Hd1.
      destruct (decide (id ∈ desired)); naive_solver.
    + apply NoDup_filter, NoDup_fst_map_to_list.
    + intros id Hid%Hgone. apply Hid.
  - intros id st Hst Hin. eapply lookup_weaken; [|exact Hsub]. rewrite Er. by apply map_lookup_filter_Some.
Qed.

(** The last partition set that was discovered. *)
Fixpoint wanted m (seed : list Z) (evs : list mevent) : list Z :=
  match evs with
  | MTick (Ok ids) :: evs => wanted m (if 0 <? kc_watch (pm_cfg m) then ids else seed) evs
  | _ :: evs => wanted m seed evs
  | [] => seed
  end.

(** What holds of a run of the manager. *)
Definition managed m seed evs (r : @partitionManager P * list mact * outcome) (live : gset Z) : Prop :=
  let '(m', acts, o) := r in
  readers_of live acts = Some (dom (running m')) ∧ starts_ok m acts
  ∧ match o with
    | None => dom (running m') = list_to_set (wanted m seed evs)
    | Some (Panic _) => False
    | Some _ => running m' = ∅
    end.

Lemma stopAll_ok m : readers_of (dom (running m)) (stopAll m).2 = Some (dom (running (stopAll m).1)) ∧ running (stopAll m).1 = ∅ ∧ starts_ok m (stopAll m).2.
Proof.
  unfold stopAll. cbn [fst snd]. split_and!; [|done|by intros id st (? & ? & _)%list_elem_of_fmap].
  rewrite readers_of_stops.
  - f_equal. change (dom (running m) ∖ list_to_set (map_to_list (running m)).*1 = dom (∅ : gmap Z partitionReader)).
    rewrite dom_empty_L. apply set_eq. intros id. rewrite elem_of_difference, elem_of_list_to_set, list_elem_of_fmap.
    split; [|by intros ?%elem_of_empty]. intros [[st Hst]%elem_of_dom Hn]. destruct Hn. exists (id, st). split; [done|]. by apply elem_of_map_to_list.
  - apply NoDup_fst_map_to_list.
  - intros id ([id' st] & -> & H%elem_of_map_to_list)%list_elem_of_fmap. apply elem_of_dom. by eexists.
Qed.

Lemma wanted_same m m' evs : same_settings m m' → ∀ seed, wanted m' seed evs = wanted m seed evs.
Proof.
  intros Hs. pose proof (proj1 Hs) as E. induction evs as [|[|e|[ids|e|e]] evs IH]; intros seed; cbn [wanted]; rewrite ?E; auto.
Qed.

Lemma manage_loop_ok evs : ∀ m seed, dialer_ok m → dom (running m) = list_to_set seed →
  managed m seed evs (manage_loop scram buildTLS m evs) (dom (running m)).
Proof.
  induction evs as [|ev evs IH]; intros m seed Hd Hdom; cbn [manage_loop wanted].
  { split_and!; [done|by intros id st ?%elem_of_nil|done]. }
  destruct (stopAll_ok m) as (S1 & S2 & S3). destruct ev as [|e|[ids|e|e]].
  - destruct (stopAll m) as [m' acts]. by split_and!.
  - destruct (stopAll m) as [m' acts]. by split_and!.
  - unfold managed. cbn [wanted]. destruct (0 <? kc_watch (pm_cfg m)) eqn:Ew; [|by apply IH].
    destruct (reconcile_ok m ids Hd) as (m1 & a1 & -> & Hs & Ho & Hdom1 & Hro & _).
    assert (dialer_ok m1) as Hd1 by (destruct Hd as [d Hd]; exists d; by rewrite (proj1 Hs)).
    specialize (IH m1 ids Hd1 Hdom1). unfold managed in IH. destruct (manage_loop scram buildTLS m1 evs) as [[m2 a2] o].
    destruct IH as (I1 & I2 & I3). rewrite (wanted_same m m1) in I3 by done. split_and!; [| |done].
    + by rewrite readers_of_app, Hro.
    + intros id st [Hin|Hin]%elem_of_app; [by apply Ho|]. rewrite (I2 _ _ Hin). by apply same_start.
  - by apply IH.
  - by apply IH.
Qed.

(** Through discovery ticks, failed discoveries, reader failures and
    shutdown, the readers that run are exactly those of the last partition
    set seen, each started once since it appeared, at its restored position
    or the configured start, and all are stopped at the end. *)
Theorem readers_follow_partitions m seed evs :
  dialer_ok m → running m = ∅ → managed m seed evs (manage scram buildTLS m seed evs) ∅.
Proof.
  intros Hd Hr. unfold manage. destruct (reconcile_ok m seed Hd) as (m1 & a1 & -> & Hs & Ho & Hdom1 & Hro & _).
  assert (dialer_ok m1) as Hd1 by (destruct Hd as [d Hd]; exists d; by rewrite (proj1 Hs)).
  pose proof (manage_loop_ok evs m1 seed Hd1 Hdom1) as IH. unfold managed in *. destruct (manage_loop scram buildTLS m1 evs) as [[m2 a2] o].
  destruct IH as (I1 & I2 & I3). rewrite (wanted_same m m1) in I3 by done. split_and!; [| |done].
  - rewrite readers_of_app. rewrite Hr, dom_empty_L in Hro. by rewrite Hro.
  - intros id st [Hin|Hin]%elem_of_app; [by apply Ho|]. rewrite (I2 _ _ Hin). by apply same_start.
Qed.
End manager.

(** A partition that is missing from one answer of the discovery and back in the
    next is read again from its checkpointed offset, whatever was read before. *)
Section readded.
Context {P : Type}.
Definition demo_parallel : @kafkaSourceConfig P :=
  {applyDefaults emptyConfig with kc_brokers := [bs "b:9092"]; kc_topic := bs "orders"; kc_parallel := true; kc_watch := 1000000000 }.
Definition demo_manager : @partitionManager P :=
  newPartitionManager demo_parallel (restore_position (restore_position newOffsetTracker (mkPosition (bs "orders") 0 40)) (mkPosition (bs "orders") 1 7)) (λ _, true).
Definition no_scram (_ : bool) (_ _ : bytes) : result bytes := Err (bs "no scram").
Definition no_tls (_ : TLSConfig) : result (option tls_config) := Ok None.

Example partition_read_again :
  (manage no_scram no_tls demo_manager [0; 1; 2] [MTick (Ok [0; 2]); MTick (Err (bs "timeout")); MTick (Ok [0; 1; 2])]).1.2
  = [MStart 0 40; MStart 1 7; MStart 2 (-2); MStop 1; MStart 1 7].
Proof. vm_compute. reflexivity. Qed.
End readded.

Lemma readers_follow_partitions_witness :
  managed (@demo_manager unit) [0; 1; 2] [MTick (Ok [0; 2]); MFatal (bs "fetch")]
    (manage no_scram no_tls demo_manager [0; 1; 2] [MTick (Ok [0; 2]); MFatal (bs "fetch")]) ∅.
Proof. apply (readers_follow_partitions no_scram no_tls demo_manager); [by exists None|done]. Defined.

(** ** Witnesses of the single-reader loop *)

Definition demo_km (part off : Z) (v : string) : kmessage := mkKMessage (mkMessage (bs "orders") part off 100) (bs "k") (bs v) [] 1000.
(** A deserializer that rejects one text. *)
Definition demo_deser (v : bytes) (_ : gmap bytes bytes) : result unit := if decide (v = bs "bad") then Err (bs "boom") else Ok tt.
Definition demo_kcfg (eo : bool) : @kafkaSourceConfig unit :=
  {applyDefaults emptyConfig with kc_brokers := [bs "b:9092"]; kc_topic := bs "orders"; kc_groupID := bs "g"; kc_commitBatch := 2;
     kc_deserializer := Some demo_deser; kc_exactlyOnce := eo }.
Definition demo_source (eo : bool) : @KafkaSource unit := mkSource (demo_kcfg eo) newOffsetTracker [] [].
Definition demo_turn (m : kmessage) : turn := mkTurn [FetchErr (bs "timeout") false; FetchOk m] None true [CommitOk].
Definition demo_turns : list turn :=
  [demo_turn (demo_km 0 5 "a"); demo_turn (demo_km 1 9 "bad"); demo_turn (demo_km 0 6 "b"); demo_turn (demo_km 1 10 "c")].
Definition demo_pre : list (@kact unit) :=
  [KWait 1000000000; KTrack (demo_km 0 5 "a"); KEmit (KafkaToRecord (demo_km 0 5 "a"), Some tt);
   KWait 1000000000; KTrack (demo_km 1 9 "bad");
   KWait 1000000000; KTrack (demo_km 0 6 "b"); KEmit (KafkaToRecord (demo_km 0 6 "b"), Some tt)].
Definition demo_post : list (@kact unit) :=
  [KWait 1000000000; KTrack (demo_km 1 10 "c"); KEmit (KafkaToRecord (demo_km 1 10 "c"), Some tt)].

Lemma committed_were_delivered_witness : handled (demo_kcfg false) (demo_km 0 5 "a") demo_pre.
Proof.
  apply (committed_were_delivered (demo_source false) demo_turns demo_pre
           [mkMessage (bs "orders") 0 5 100; mkMessage (bs "orders") 0 6 100] true demo_post (mkMessage (bs "orders") 0 6 100)).
  - done.
  - done.
  - vm_compute. reflexivity.
  - unfold in_order. cbn. repeat (constructor; cbn; try done).
  - right. by left.
  - by left.
  - done.
  - cbn. lia.
Defined.

Definition demo_positions : list Position := [mkPosition (bs "orders") 1 11; mkPosition (bs "orders") 0 7].
#[local] Existing Instance demo_json.
Lemma exactly_once_commits_witness :
  let '(k', acts, _) := runSerial (demo_source true) demo_turns in
  commits acts = []
  ∧ ∃ k'', CommitOffsets k' (EncodePositions demo_positions) [CommitOk]
           = (k'', [KCommit (commit_position <$> merge_sort pos_le demo_positions) true], Some (Ok tt))
    ∧ ∀ p, p ∈ demo_positions → committed (ks_offsets k'') !! p_key p = Some (p_Offset p).
Proof.
  apply (exactly_once_commits (demo_source true) demo_turns demo_positions []).
  - done.
  - done.
  - cbn. lia.
  - apply Forall_cons_2; [by split_and!|apply Forall_cons_2; [by split_and!|apply Forall_nil_2]].
  - apply Forall_cons_2; [cbn; solve_i64|apply Forall_cons_2; [cbn; solve_i64|apply Forall_nil_2]].
  - apply (bool_decide_eq_true_1 (NoDup (p_key <$> demo_positions))). vm_compute. reflexivity.
  - done.
Defined.

(** ** Sources of a workflow *)

Section compiled.
Context {P : Type} (json : @Deserializer P).

(** The option of the source package that a compiled setting stands for. *)
Definition apply_option (o : kafka_option) : @KafkaSourceOption P :=
  match o with
  | KBrokers b => KafkaBrokers b
  | KGroupID g => KafkaGroupID g
  | KTopic t => KafkaTopic t
  | KTopics ts => KafkaTopics ts
  | KStartEarliest => KafkaStartFrom OffsetEarliest
  | KStartLatest => KafkaStartFrom OffsetLatest
  | KDeserializeJSON => KafkaDeserialize json
  | KExactlyOnce => KafkaExactlyOnce
  | KCommitBatch n => KafkaCommitBatch n
  | WorkflowCompile.KFetchBytes a b => KafkaFetchBytes a b
  | KWatermarks d => KafkaWithWatermarks d
  | KWatermarkInterval d => KafkaWatermarkInterval d
  | KSASL s => KafkaSASL s
  | KTLS t => KafkaTLS t
  end.

Definition configured (opts : list kafka_option) : @kafkaSourceConfig P :=
  applyDefaults (foldl (λ c o, apply_option o c) emptyConfig opts).

(** A field keeps its value under options that do not concern it. *)
Lemma inert_options {A} (f : @kafkaSourceConfig P → A) opts c : Forall (λ o, ∀ c, f (apply_option o c) = f c) opts →
  f (foldl (λ c o, apply_option o c) c opts) = f c.
Proof. intros H. revert c. induction H as [|o opts Ho _ IH]; intros c; [done|]. cbn [foldl]. by rewrite IH. Qed.
Lemma inert_when {A} (f : @kafkaSourceConfig P → A) b o : (∀ c, f (apply_option o c) = f c) →
  Forall (λ o, ∀ c, f (apply_option o c) = f c) (opt_when b o).
Proof. intros H. destruct b; repeat constructor; auto. Qed.

(** The one option that sets a field. *)
Lemma when_option {A} (f : @kafkaSourceConfig P → A) b o v c : (∀ c, f (apply_option o c) = v) →
  f (foldl (λ c o, apply_option o c) c (opt_when b o)) = if b then v else f c.
Proof. intros H. destruct b; [apply H|done]. Qed.

#[local] Ltac solve_inert := first [apply inert_when; reflexivity | repeat constructor; reflexivity].
#[local] Ltac project :=
  repeat first
    [ rewrite inert_options by solve_inert
    | match goal with |- context [?f (foldl _ ?c (opt_when ?b ?o))] =>
        let v := eval cbn in (f (apply_option o emptyConfig)) in rewrite (when_option f b o v c) by reflexivity end
    | match goal with |- context [?f (apply_option ?o ?c)] => change (f (apply_option o c)) with (f c) end ].

(** The settings of the document arrive in the source's configuration. *)
Definition configured_as (k : KafkaSourceSpec) (c : @kafkaSourceConfig P) : Prop :=
  kc_brokers c = kf_Brokers k ∧ kc_groupID c = kf_GroupID k ∧ kc_topic c = kf_Topic k ∧ kc_topics c = kf_Topics k
  ∧ kc_parallel c = false ∧ kc_exactlyOnce c = kf_ExactlyOnce k ∧ kc_commitBatch c = Z.max 0 (kf_CommitBatch k)
  ∧ kc_outOfOrderness c = default 0 (ws_MaxOutOfOrderness <$> kf_Watermark k).

Lemma configured_compiled k opts : compileKafkaSource (Some k) = Ok (SrcKafka opts) → configured_as k (foldl (λ c o, apply_option o c) emptyConfig opts).
Proof.
  unfold compileKafkaSource. case_decide; [done|]. case_decide; [done|]. destruct (kf_Parallel k); [done|]. case_decide; [done|].
  intros (start & Es & (des & _ & (wm & Ew & (sasl & Ea & [= <-])%rbind_Ok)%rbind_Ok)%rbind_Ok)%rbind_Ok.
  assert (start = KStartEarliest ∨ start = KStartLatest) as Hst.
  { unfold compileStartFrom in Es. repeat case_decide; try done; injection Es as <-; auto. }
  assert (sasl = [] ∨ ∃ s, sasl = [KSASL s]) as Hsa.
  { unfold compileSASLOpt in Ea. destruct (kf_SASL k); [|injection Ea as <-; auto]. apply rbind_Ok in Ea as (c & _ & [= <-]). eauto. }
  assert (∃ tls, compileTLSOpt KTLS (kf_TLS k) = tls ∧ (tls = [] ∨ ∃ t, tls = [KTLS t])) as (tls & -> & Htl).
  { unfold compileTLSOpt. destruct (kf_TLS k); eauto. }
  assert (kf_Watermark k = None ∧ wm = [] ∨ ∃ w b, kf_Watermark k = Some w ∧ wm = KWatermarks (ws_MaxOutOfOrderness w) :: opt_when b (KWatermarkInterval (ws_Interval w))) as Hwm.
  { unfold compileWatermark in Ew. destruct (kf_Watermark k) as [w|]; [|left; by injection Ew as <-]. right.
    destruct (ws_MaxOutOfOrderness w <=? 0); [done|]. injection Ew as <-. eauto. }
  clear Es Ea Ew. unfold configured_as.
  destruct Hst as [-> | ->], Hsa as [->|[s ->]], Htl as [->|[t ->]], Hwm as [[-> ->]|(w & b & -> & ->)];
    do 3 (cbn [foldl app]; rewrite ?foldl_app).
  all: split_and!; project; unfold constant; cbn [kc_topic kc_topics kc_exactlyOnce kc_commitBatch emptyConfig]; try done.
  all: try (case_bool_decide as Hn; [done|by rewrite Hn]).
  all: try by destruct (kf_ExactlyOnce k).
  all: destruct (Z.ltb_spec 0 (kf_CommitBatch k)); lia.
Qed.

(** A compiled Kafka source is constructed without a panic and configured as the document says. *)
Theorem compiled_source_configured k opts discover : compileKafkaSource (Some k) = Ok (SrcKafka opts) →
  ∃ c, NewKafkaSource (apply_option <$> opts) discover = Ok (mkSource c newOffsetTracker [] []) ∧ configured_as k c.
Proof.
  intros E. pose proof (configured_compiled k opts E) as Hc. exists (configured opts). unfold NewKafkaSource. rewrite foldl_fmap.
  fold (configured opts).
  assert (configured_as k (configured opts)) as Hc' by exact Hc. split; [|done].
  destruct Hc' as (E1 & E2 & E3 & E4 & E5 & _). rewrite E1, E3, E4, E5.
  unfold compileKafkaSource in E. destruct (decide (kf_Brokers k = [])); [done|].
  destruct (decide (kf_Topic k = [] ∧ kf_Topics k = [])); [done|]. by rewrite decide_False by naive_solver.
Qed.
End compiled.

Definition demo_kspec : KafkaSourceSpec :=
  mkKafkaSourceSpec [bs "b:9092"] (bs "orders") [] (bs "g") (bs "latest") true false (Some (mkWatermarkSpec 5 0)) (bs "json") 10 0 0 None None.
Definition demo_kopts : list kafka_option :=
  match compileKafkaSource (Some demo_kspec) with Ok (SrcKafka opts) => opts | _ => [] end.

Lemma compiled_source_configured_witness :
  ∃ c, NewKafkaSource (apply_option demo_deser <$> demo_kopts) (Err (bs "unreachable")) = Ok (mkSource c newOffsetTracker [] []) ∧ configured_as demo_kspec c.
Proof. apply (compiled_source_configured demo_deser demo_kspec demo_kopts). vm_compute. reflexivity. Defined.
