(* ===== verification/BatchSink.v ===== *)
(** * Batching sinks ([src/sink/batch.go], [failure.go], [kafka.go])

    [batchWriter] collects converted records and hands them to the sink's flush
    function when the batch is full, on a tick, when the input closes and, after
    a bounded drain, when the context ends; asynchronous writers flush in
    goroutines.  The Kafka sink is built on it: conversion, retries and the
    failure policy.

    The select loop is a function of the list of chosen branches.  What the
    flush of call number [n] answers is the environment's choice ([flush n]);
    the flag it gets tells whether the context it runs under was already
    cancelled.  Asynchronous flushes finish in any order ([BFinished]). *)

From S2P Require Import Prelude Record Rfc3339 Decimal.

Definition defaultBatchSize : Z := 100.

Section batch_writer.
Context {T : Type}.

(** [batchWriter]; [bw_convert] is [convert] or [convertWithError], given the
    answer of a dead-letter write: the entry if any, and what was dead-lettered. *)
Record batchWriter := mkBatchWriter {
  bw_batchSize : Z;
  bw_flushInterval : duration;
  bw_async : bool;
  bw_convert : option bytes → Record_ → result (option T) * list Record_;
  bw_flush : nat → bool → list T → option bytes
}.
Implicit Types (b : batchWriter).

(** The variables of [run]: the batch, the batches handed to flush so far with
    the state of their context, the dead letters, the running flushes, and the
    error channel of capacity one. *)
Record bw_state := mkBwState {
  bs_batch : list T;
  bs_calls : list (bool * list T);
  bs_dead : list Record_;
  bs_inflight : list nat;
  bs_errCh : option bytes
}.
Implicit Types (st : bw_state).
Definition bw_init : bw_state := mkBwState [] [] [] [] None.

Definition batch_size b : Z := if bw_batchSize b <=? 0 then defaultBatchSize else bw_batchSize b.

(** [add]: is the batch full now? *)
Definition add b st (r : Record_) (dlq : option bytes) : bw_state * result bool :=
  let '(c, dead) := bw_convert b dlq r in
  match c with
  | Ok (Some item) =>
      let batch := bs_batch st ++ [item] in
      (mkBwState batch (bs_calls st) (bs_dead st ++ dead) (bs_inflight st) (bs_errCh st),
       Ok (batch_size b <=? Z.of_nat (length batch)))
  | Ok None => (mkBwState (bs_batch st) (bs_calls st) (bs_dead st ++ dead) (bs_inflight st) (bs_errCh st), Ok false)
  | Err e => (st, Err e)
  | Panic e => (st, Panic e)
  end.

(** [doFlush] under a context that is cancelled or not; the error is that of a
    synchronous flush. *)
Definition doFlush b st (cancelled : bool) : bw_state * option bytes :=
  match bs_batch st with
  | [] => (st, None)
  | items =>
      let n := length (bs_calls st) in
      if bw_async b then
        (mkBwState [] (bs_calls st ++ [(cancelled, items)]) (bs_dead st) (n :: bs_inflight st) (bs_errCh st), None)
      else
        (mkBwState [] (bs_calls st ++ [(cancelled, items)]) (bs_dead st) (bs_inflight st) (bs_errCh st), bw_flush b n cancelled items)
  end.

(** The end of the goroutine of flush [n]: the first error waits in the channel. *)
Definition finish_flush b st (n : nat) : bw_state :=
  if decide (n ∈ bs_inflight st) then
    let err := match bs_calls st !! n with Some (c, items) => bw_flush b n c items | None => None end in
    mkBwState (bs_batch st) (bs_calls st) (bs_dead st) (filter (λ m, m ≠ n) (bs_inflight st))
      (match bs_errCh st with Some e => Some e | None => err end)
  else st.

(** [wg.Wait]: the running flushes finish, in some order. *)
Definition wait b st (order : list nat) : bw_state := foldl (finish_flush b) st (order ++ bs_inflight st).

(** [drain]: the records read after the cancellation. *)
Fixpoint drain b st (rs : list (Record_ * option bytes)) : bw_state * result unit :=
  match rs with
  | [] => (st, Ok tt)
  | (r, dlq) :: rs =>
      match add b st r dlq with
      | (st, Ok _) => drain b st rs
      | (st, Err e) => (st, Err e)
      | (st, Panic e) => (st, Panic e)
      end
  end.

(** The chosen branch of the select loop; [cancelled] tells whether the context
    had ended when the branch ran, [order] how the running flushes ended. *)
Inductive bevent :=
| BErr (order : list nat)
| BDone (drained : list (Record_ * option bytes)) (order : list nat)
| BClosed (cancelled : bool) (order : list nat)
| BIn (r : Record_) (dlq : option bytes) (cancelled : bool) (order : list nat)
| BTick (cancelled : bool)
| BFinished (n : nat).

(** How [run] returned: nil, the context's error, or another error. *)
Inductive bresult := BwDone | BwCancelled | BwFailed (e : bytes).

(** The last steps of both regular ends: flush, wait, look for errors. *)
Definition final_flush b st (cancelled : bool) (order : list nat) (ret : bresult) : bw_state * bresult :=
  let '(st, err) := doFlush b st cancelled in
  let st := wait b st order in
  match err with
  | Some e => (st, BwFailed e)
  | None => match bs_errCh st with Some e => (st, BwFailed e) | None => (st, ret) end
  end.

Definition bw_step b st (ev : bevent) : bw_state * option bresult :=
  match ev with
  | BErr order => match bs_errCh st with Some e => (wait b st order, Some (BwFailed e)) | None => (st, None) end
  | BDone drained order =>
      match drain b st drained with
      | (st, Ok _) => let '(st, ret) := final_flush b st false order BwCancelled in (st, Some ret)
      | (st, Err e) | (st, Panic e) => (wait b st order, Some (BwFailed e))
      end
  | BClosed cancelled order => let '(st, ret) := final_flush b st cancelled order (if cancelled then BwCancelled else BwDone) in (st, Some ret)
  | BIn r dlq cancelled order =>
      match add b st r dlq with
      | (st, Err e) | (st, Panic e) => (wait b st order, Some (BwFailed e))
      | (st, Ok false) => (st, None)
      | (st, Ok true) =>
          let '(st, err) := doFlush b st cancelled in
          (st, match err with Some e => Some (BwFailed e) | None => None end)
      end
  | BTick cancelled =>
      if 0 <? bw_flushInterval b then
        let '(st, err) := doFlush b st cancelled in
        (st, match err with Some e => Some (BwFailed e) | None => None end)
      else (st, None)
  | BFinished n => (finish_flush b st n, None)
  end.

(** [run]: the events until it returns. *)
Fixpoint bw_run b st (evs : list bevent) : bw_state * option bresult :=
  match evs with
  | [] => (st, None)
  | ev :: evs => match bw_step b st ev with (st, None) => bw_run b st evs | r => r end
  end.
End batch_writer.
Arguments batchWriter : clear implicits.
Arguments bw_state : clear implicits.

(** ** Failure policies ([failure.go]) *)

Inductive FailurePolicy := FailurePolicyDrop | FailurePolicyDLQ | FailurePolicyFail.

(** [applyFailurePolicy]: the dead letter and the error; [dlq] is the answer of
    the dead-letter sink, if there is one. *)
Definition applyFailurePolicy (policy : FailurePolicy) (hasDLQ : bool) (dlq : option bytes) (r : Record_) : list Record_ * option bytes :=
  match policy with
  | FailurePolicyDrop => ([], None)
  | FailurePolicyDLQ =>
      if hasDLQ then match dlq with None => ([r], None) | Some e => ([], Some e) end
      else ([], Some (bs "weibo/sink: DLQ is nil but FailurePolicyDLQ is configured"))
  | FailurePolicyFail => ([], Some (bs "weibo/sink: write failed after all retries, record key=" ++ Key r))
  end.

(** Records handed to the policy one after the other, until an error. *)
Fixpoint apply_policy_all (policy : FailurePolicy) (hasDLQ : bool) (dlq : nat → option bytes) (i : nat) (rs : list Record_) : list Record_ * option bytes :=
  match rs with
  | [] => ([], None)
  | r :: rs =>
      match applyFailurePolicy policy hasDLQ (dlq i) r with
      | (dead, Some e) => (dead, Some e)
      | (dead, None) => let '(dead', e) := apply_policy_all policy hasDLQ dlq (S i) rs in (dead ++ dead', e)
      end
  end.

(** ** The Kafka sink ([kafka.go]) *)

(** The fields of a [kafka.Message] the sink fills in; the order of headers is
    that of a map. *)
Record sink_message := mkSinkMessage { sm_Key : bytes; sm_Value : bytes; sm_Time : time; sm_Headers : gmap bytes bytes }.

(** The settings of [kafkaSinkConfig] that [Write] reads. *)
Record kafkaSinkConfig := mkSinkConfig {
  sc_batchSize : Z;
  sc_batchTimeout : duration;
  sc_serializer : option (Record_ → result bytes);
  sc_maxRetries : Z;
  sc_policy : FailurePolicy;
  sc_dlq : bool
}.

(** [applyDefaults] *)
Definition sink_defaults (c : kafkaSinkConfig) : kafkaSinkConfig :=
  mkSinkConfig (if sc_batchSize c =? 0 then 100 else sc_batchSize c)
    (if sc_batchTimeout c =? 0 then 1000000000 else sc_batchTimeout c) (sc_serializer c)
    (if sc_maxRetries c =? 0 then 3 else sc_maxRetries c) (sc_policy c) (sc_dlq c).

(** [recordToKafka] *)
Definition recordToKafka (c : kafkaSinkConfig) (r : Record_) : result sink_message :=
  value <-? match sc_serializer c with Some f => f r | None => Ok (Value r) end ;;
  Ok (mkSinkMessage (Key r) value (if IsZero (Timestamp r) then zeroTime else Timestamp r) (Headers r)).

(** What the broker client did during one flush: the answer of each write
    attempt (and whether the context ended in the wait after it), and of each
    dead-letter write. *)
Record flush_env := mkFlushEnv { fe_write : nat → option (bytes * bool); fe_dlq : nat → option bytes }.

(** [writeWithRetry]: were the messages written, and the error; [more] attempts
    remain after this one. *)
Fixpoint write_loop (more attempt : nat) (w : nat → option (bytes * bool)) : bool * option bytes :=
  match w attempt with
  | None => (true, None)
  | Some (e, cancelled) =>
      match more with
      | O => (false, Some e)
      | S more => if cancelled then (false, Some (bs "context canceled")) else write_loop more (S attempt) w
      end
  end.
Definition writeWithRetry (maxRetries : Z) (w : nat → option (bytes * bool)) : bool * option bytes :=
  if maxRetries <? 0 then (false, None) else write_loop (Z.to_nat maxRetries) 0 w.

(** [kafkaBatchEntry] *)
Definition kafkaBatchEntry := (sink_message * Record_)%type.

(** The effect of a flush: messages written, dead letters, error. *)
Record flushed := mkFlushed { fl_written : list sink_message; fl_dead : list Record_; fl_err : option bytes }.

(** [flushBatch] *)
Definition flushBatch (c : kafkaSinkConfig) (env : flush_env) (entries : list kafkaBatchEntry) : flushed :=
  match writeWithRetry (sc_maxRetries c) (fe_write env) with
  | (ok, None) => mkFlushed (if ok then entries.*1 else []) [] None
  | (_, Some e) =>
      let '(dead, err) := apply_policy_all (sc_policy c) (sc_dlq c) (fe_dlq env) 0 entries.*2 in
      mkFlushed [] dead ((λ f, bs "kafka sink: write: " ++ e ++ bs " (failure policy: " ++ f ++ bs ")") <$> err)
  end.

(** The conversion of [Write]: a record that cannot be serialized goes to the
    failure policy. *)
Definition sink_convert (c : kafkaSinkConfig) (dlq : option bytes) (r : Record_) : result (option kafkaBatchEntry) * list Record_ :=
  match recordToKafka c r with
  | Ok m => (Ok (Some (m, r)), [])
  | Panic e => (Panic e, [])
  | Err e =>
      match applyFailurePolicy (sc_policy c) (sc_dlq c) dlq r with
      | (dead, None) => (Ok None, dead)
      | (_, Some f) => (Err (bs "kafka sink: serialize: " ++ e ++ bs " (failure policy: " ++ f ++ bs ")"), [])
      end
  end.

(** [Write]: the batch writer of the sink; flush number [n] meets [env n]. *)
Definition kafka_writer (c : kafkaSinkConfig) (env : nat → bool → flush_env) : batchWriter kafkaBatchEntry :=
  mkBatchWriter (sc_batchSize c) (sc_batchTimeout c) true (sink_convert c) (λ n cancelled items, fl_err (flushBatch c (env n cancelled) items)).

(** What the flushes of a run did together. *)
Definition sink_flushes (c : kafkaSinkConfig) (env : nat → bool → flush_env) (calls : list (bool * list kafkaBatchEntry)) : list flushed :=
  imap (λ n call, flushBatch c (env n call.1) call.2) calls.

(** ** A run loses nothing *)

Section complete.
Context {T : Type} (b : batchWriter T).
Implicit Types (st : bw_state T).

(** The records that entered the writer, with the answers of the dead-letter
    sink. *)
Fixpoint fed (evs : list bevent) : list (Record_ * option bytes) :=
  match evs with
  | [] => []
  | BIn r dlq _ _ :: evs => (r, dlq) :: fed evs
  | BDone drained _ :: _ => drained
  | BClosed _ _ :: _ => []
  | _ :: evs => fed evs
  end.
Definition converted (rd : Record_ * option bytes) : option T :=
  match (bw_convert b rd.2 rd.1).1 with Ok (Some i) => Some i | _ => None end.
Definition dead_letters (rd : Record_ * option bytes) : list Record_ := (bw_convert b rd.2 rd.1).2.
Definition convertible (rd : Record_ * option bytes) : Prop := ∃ i, (bw_convert b rd.2 rd.1).1 = Ok i.

(** Every batch handed over is running, succeeded, or its error waits. *)
Record steady st (input : list (Record_ * option bytes)) : Prop := {
  sd_items : concat (bs_calls st).*2 ++ bs_batch st = omap converted input;
  sd_dead : bs_dead st = input ≫= dead_letters;
  sd_input : Forall convertible input;
  sd_calls : Forall (λ c, c.2 ≠ []) (bs_calls st);
  sd_results : ∀ n c items, bs_calls st !! n = Some (c, items) →
    n ∈ bs_inflight st ∨ bw_flush b n c items = None ∨ is_Some (bs_errCh st)
}.

Lemma add_steady st input r dlq st' full : steady st input → add b st r dlq = (st', Ok full) →
  steady st' (input ++ [(r, dlq)]) ∧ bs_calls st' = bs_calls st
  ∧ (full = false → Z.of_nat (length (bs_batch st)) < batch_size b → Z.of_nat (length (bs_batch st')) < batch_size b)
  ∧ Z.of_nat (length (bs_batch st')) ≤ Z.of_nat (length (bs_batch st)) + 1.
Proof.
  intros [H1 H2 H3 H4 H5]. unfold add. destruct (bw_convert b dlq r) as [[[i|]|e|e] dead] eqn:E; intros [= <- <-];
    (split_and!; [split; cbn [bs_calls bs_batch bs_dead bs_inflight bs_errCh]| | |cbn; rewrite ?length_app; cbn; lia]); try done.
  - unfold converted. rewrite app_assoc, H1, omap_app. cbn. unfold converted. cbn. by rewrite E.
  - rewrite bind_app, H2. cbn. unfold dead_letters. cbn. by rewrite E, app_nil_r.
  - apply Forall_app. split; [done|]. repeat constructor. exists (Some i). cbn. by rewrite E.
  - intros ?%Z.leb_gt _. done.
  - rewrite H1, omap_app. cbn. unfold converted. cbn. by rewrite E, app_nil_r.
  - rewrite bind_app, H2. cbn. unfold dead_letters. cbn. by rewrite E, app_nil_r.
  - apply Forall_app. split; [done|]. repeat constructor. exists None. cbn. by rewrite E.
Qed.

Lemma doFlush_steady st input cancelled st' : steady st input → doFlush b st cancelled = (st', None) →
  steady st' input ∧ bs_batch st' = []
  ∧ (bs_batch st = [] ∧ bs_calls st' = bs_calls st ∨ bs_calls st' = bs_calls st ++ [(cancelled, bs_batch st)]).
Proof.
  intros Hs. pose proof Hs as [H1 H2 H3 H4 H5]. unfold doFlush. destruct (bs_batch st) as [|i items] eqn:Eb.
  { intros [= <-]. by split_and!; [| |left]. }
  assert (∀ infl err, (∀ n c its, (bs_calls st ++ [(cancelled, i :: items)]) !! n = Some (c, its) →
            n ∈ infl ∨ bw_flush b n c its = None ∨ is_Some err) →
    steady (mkBwState [] (bs_calls st ++ [(cancelled, i :: items)]) (bs_dead st) infl err) input) as Hst.
  { intros infl err Hr. split; cbn [bs_calls bs_batch bs_dead bs_inflight bs_errCh]; [|done|done| |done].
    - rewrite fmap_app, concat_app. cbn. by rewrite !app_nil_r.
    - apply Forall_app. split; [done|]. by repeat constructor. }
  destruct (bw_async b).
  - intros [= <-]. split_and!; [|done|by right]. apply Hst. intros n c its [Hn|[Hn Hl]]%lookup_app_Some.
    + destruct (H5 _ _ _ Hn) as [?|?]; [left; by right|by right].
    + left. apply list_lookup_singleton_Some in Hl as [E _]. replace n with (length (bs_calls st)) by lia. by left.
  - destruct (bw_flush b (length (bs_calls st)) cancelled (i :: items)) eqn:Ef; [done|]. intros [= <-]. split_and!; [|done|by right]. apply Hst.
    intros n c its [Hn|[Hn Hl]]%lookup_app_Some; [by eapply H5|]. right. left. apply list_lookup_singleton_Some in Hl as [E [= <- <-]].
    by replace n with (length (bs_calls st)) by lia.
Qed.

Lemma finish_steady st input n : steady st input → steady (finish_flush b st n) input.
Proof.
  intros [H1 H2 H3 H4 H5]. unfold finish_flush. case_decide as Hn; [|done]. split; cbn [bs_calls bs_batch bs_dead bs_inflight bs_errCh]; try done.
  intros m c items Hm. destruct (bs_errCh st) as [e|] eqn:Ee; [right; right; by eexists|].
  destruct (H5 m c items Hm) as [Hin|[Hf|Hs]]; [|by right; left|by destruct Hs].
  destruct (decide (m = n)) as [->|Hne].
  - rewrite Hm. destruct (bw_flush b n c items); [right; right; by eexists|by right; left].
  - left. by apply list_elem_of_filter.
Qed.

Lemma finish_fields st n : bs_batch (finish_flush b st n) = bs_batch st ∧ bs_calls (finish_flush b st n) = bs_calls st
  ∧ bs_inflight (finish_flush b st n) = filter (λ m, m ≠ n) (bs_inflight st).
Proof.
  unfold finish_flush. case_decide as Hn; [done|]. split_and!; [done|done|]. symmetry. apply filter_all, Forall_forall. intros m Hm ->. done.
Qed.

Lemma finish_all l : ∀ st, let st' := foldl (finish_flush b) st l in
  bs_batch st' = bs_batch st ∧ bs_calls st' = bs_calls st ∧ bs_inflight st' = filter (λ m, m ∉ l) (bs_inflight st).
Proof.
  induction l as [|n l IH]; intros st; cbn [foldl].
  - split_and!; [done|done|]. symmetry. apply filter_all, Forall_forall. intros m _ ?%elem_of_nil. done.
  - destruct (IH (finish_flush b st n)) as (I1 & I2 & I3), (finish_fields st n) as (F1 & F2 & F3). rewrite I1, I2, I3, F1, F2, F3.
    split_and!; [done|done|]. rewrite list_filter_filter. apply list_filter_iff. intros m. rewrite not_elem_of_cons. tauto.
Qed.

Lemma wait_steady st input order : steady st input → let st' := wait b st order in
  steady st' input ∧ bs_batch st' = bs_batch st ∧ bs_calls st' = bs_calls st ∧ bs_inflight st' = [].
Proof.
  intros Hs. unfold wait. destruct (finish_all (order ++ bs_inflight st) st) as (I1 & I2 & I3). split_and!; [|done|done|].
  - clear I1 I2 I3. revert Hs. generalize (order ++ bs_inflight st). intros l. revert st. induction l as [|n l IH]; intros st Hs; [done|].
    cbn [foldl]. apply IH. by apply finish_steady.
  - rewrite I3. apply filter_none, Forall_forall. intros m Hm Hn. apply Hn, elem_of_app. by right.
Qed.

Lemma drain_steady rs : ∀ st input st', steady st input → drain b st rs = (st', Ok tt) →
  steady st' (input ++ rs) ∧ bs_calls st' = bs_calls st.
Proof.
  induction rs as [|[r dlq] rs IH]; intros st input st' Hs; cbn [drain]; [intros [= <-]; by rewrite app_nil_r|].
  destruct (add b st r dlq) as [st1 [full|e|e]] eqn:E; try done. destruct (add_steady _ _ _ _ _ _ Hs E) as (Hs1 & Ec & _).
  intros Hd. destruct (IH _ _ _ Hs1 Hd) as [Hs2 Ec2]. split; [|by rewrite Ec2]. by rewrite <- app_assoc in Hs2.
Qed.

(** Batches stay within the configured size. *)
Record sized st : Prop := {
  sz_calls : Forall (λ c, Z.of_nat (length c.2) ≤ batch_size b) (bs_calls st);
  sz_batch : Z.of_nat (length (bs_batch st)) < batch_size b
}.

(** What a regular end of the loop means. *)
Record finished st (input : list (Record_ * option bytes)) : Prop := {
  fin_items : concat (bs_calls st).*2 = omap converted input;
  fin_dead : bs_dead st = input ≫= dead_letters;
  fin_input : Forall convertible input;
  fin_written : ∀ n c items, bs_calls st !! n = Some (c, items) → items ≠ [] ∧ bw_flush b n c items = None;
  fin_sizes : ∀ n c items, bs_calls st !! n = Some (c, items) → (S n < length (bs_calls st))%nat → Z.of_nat (length items) ≤ batch_size b
}.

Lemma final_flush_ok st input cancelled order ret st' r : steady st input → Forall (λ c, Z.of_nat (length c.2) ≤ batch_size b) (bs_calls st) →
  final_flush b st cancelled order ret = (st', r) → (∀ e, r ≠ BwFailed e) → finished st' input.
Proof.
  intros Hs Hz E Hret. unfold final_flush in E. destruct (doFlush b st cancelled) as [st1 err] eqn:Ef.
  destruct err as [e|]; [injection E as _ <-; by destruct (Hret e)|]. destruct (doFlush_steady _ _ _ _ Hs Ef) as (Hs1 & Eb1 & Hc1).
  destruct (wait_steady st1 input order Hs1) as ([W1 W2 W3 W4 W5] & Wb & Wc & Wi).
  destruct (bs_errCh (wait b st1 order)) as [e|] eqn:Ee; [injection E as _ <-; by destruct (Hret e)|]. injection E as <- _.
  split; [|done|done| |].
  - by rewrite <- W1, Wb, Eb1, app_nil_r.
  - intros n c items Hn. rewrite Forall_lookup in W4. split; [by apply (W4 n (c, items))|].
    destruct (W5 n c items Hn) as [Hin|[Hf|He]]; [rewrite Wi in Hin; by apply elem_of_nil in Hin|done|by destruct He].
  - intros n c items Hn Hlt. rewrite Wc in Hn, Hlt. rewrite Forall_lookup in Hz. destruct Hc1 as [[_ Ec]|Ec]; rewrite Ec in Hn, Hlt.
    + by apply (Hz n (c, items)).
    + rewrite length_app in Hlt. cbn in Hlt. rewrite lookup_app_l in Hn by lia. by apply (Hz n (c, items)).
Qed.

Lemma batch_size_pos : 0 < batch_size b.
Proof. unfold batch_size, defaultBatchSize. destruct (Z.leb_spec (bw_batchSize b) 0); lia. Qed.

Lemma doFlush_sized st cancelled st' input : steady st input → doFlush b st cancelled = (st', None) →
  Forall (λ c, Z.of_nat (length c.2) ≤ batch_size b) (bs_calls st) → Z.of_nat (length (bs_batch st)) ≤ batch_size b → sized st'.
Proof.
  intros Hs E Hz Hb. destruct (doFlush_steady _ _ _ _ Hs E) as (_ & Eb & [[_ Ec]|Ec]); (split; [|rewrite Eb; apply batch_size_pos]); rewrite Ec; [done|].
  apply Forall_app. split; [done|]. by repeat constructor.
Qed.

Lemma run_finished evs : ∀ st input st' ret, steady st input → sized st → bw_run b st evs = (st', Some ret) →
  (∀ e, ret ≠ BwFailed e) → finished st' (input ++ fed evs).
Proof.
  induction evs as [|ev evs IH]; intros st input st' ret Hs Hz E Hret; cbn [bw_run] in E; [done|].
  destruct ev as [order|drained order|cancelled order|r dlq cancelled order|cancelled|n]; cbn [bw_step fed] in E |- *.
  - destruct (bs_errCh st) as [e|]; [injection E as _ <-; by destruct (Hret e)|]. by eapply IH.
  - destruct (drain b st drained) as [st1 [[]|e|e]] eqn:Ed; [|injection E as _ <-; by destruct (Hret e)..].
    destruct (drain_steady _ _ _ _ Hs Ed) as [Hs1 Ec]. destruct (final_flush b st1 false order BwCancelled) as [st2 r2] eqn:Ef.
    injection E as <- <-. apply (final_flush_ok st1 _ _ _ _ _ _ Hs1) in Ef; [done|rewrite Ec; apply Hz|done].
  - destruct (final_flush b st cancelled order _) as [st2 r2] eqn:Ef. injection E as <- <-. rewrite app_nil_r.
    apply (final_flush_ok st _ _ _ _ _ _ Hs) in Ef; [done|apply Hz|done].
  - destruct (add b st r dlq) as [st1 [full|e|e]] eqn:Ea; [|injection E as _ <-; by destruct (Hret e)..].
    destruct (add_steady _ _ _ _ _ _ Hs Ea) as (Hs1 & Ec & Hf & Hl). destruct Hz as [Hz1 Hz2]. change (input ++ (r, dlq) :: fed evs) with (input ++ [(r, dlq)] ++ fed evs). rewrite app_assoc.
    destruct full.
    + destruct (doFlush b st1 cancelled) as [st2 [e|]] eqn:Ed; [injection E as _ <-; by destruct (Hret e)|].
      eapply IH; [by eapply doFlush_steady| |exact E|done]. eapply doFlush_sized; [done..|by rewrite Ec|lia].
    + eapply IH; [done| |exact E|done]. split; [by rewrite Ec|auto].
  - destruct (0 <? bw_flushInterval b); [|by eapply IH].
    destruct (doFlush b st cancelled) as [st2 [e|]] eqn:Ed; [injection E as _ <-; by destruct (Hret e)|].
    eapply IH; [by eapply doFlush_steady| |exact E|done]. destruct Hz. eapply doFlush_sized; [done..|lia].
  - eapply IH; [by apply finish_steady| |exact E|done]. destruct (finish_fields st n) as (F1 & F2 & _). destruct Hz. by split; rewrite ?F1, ?F2.
Qed.

Lemma run_complete evs st ret : bw_run b bw_init evs = (st, Some ret) → (∀ e, ret ≠ BwFailed e) → finished st (fed evs).
Proof.
  intros E Hret. apply (run_finished evs bw_init [] st ret); [|split; [constructor|apply batch_size_pos]|done|done].
  split; [done|done|constructor|constructor|]. intros n c items Hn. by destruct n.
Qed.

(** A batch writer that ends without failing handed every convertible record to its flush function once and in order, in batches that are not empty and within the size except the last of a drain. *)
Theorem batch_writer_complete (evs : list bevent) (st : bw_state T) (ret : bresult) :
  bw_run b bw_init evs = (st, Some ret) → (∀ e, ret ≠ BwFailed e) → finished st (fed evs).
Proof. apply run_complete. Qed.
End complete.

(** ** The Kafka sink accounts for every record *)

Lemma write_loop_ok more : ∀ attempt w ok, write_loop more attempt w = (ok, None) → ok = true.
Proof.
  induction more as [|more IH]; intros attempt w ok; cbn [write_loop]; destruct (w attempt) as [[e [|]]|]; try done; try (by intros [= <-]). apply IH.
Qed.

Lemma apply_policy_all_none policy h dlq rs : ∀ i dead, apply_policy_all policy h dlq i rs = (dead, None) →
  match policy with FailurePolicyDrop => True | FailurePolicyDLQ => dead = rs | FailurePolicyFail => rs = [] end.
Proof.
  induction rs as [|r rs IH]; intros i dead; cbn [apply_policy_all]; [destruct policy; by intros [= <-]|].
  destruct policy; cbn [applyFailurePolicy]; [done| |done]. destruct h; [|done]. destruct (dlq i); [done|].
  destruct (apply_policy_all _ _ _ _ rs) as [dead' e] eqn:E. intros [= <- ->]. cbn. f_equal. by apply (IH (S i)).
Qed.

Section kafka_sink.
Context (c : kafkaSinkConfig) (env : nat → bool → flush_env) (Hmax : 0 ≤ sc_maxRetries c).

(** A flush that reports no error wrote its batch or gave every record to the
    policy. *)
Lemma flushBatch_ok e items : fl_err (flushBatch c e items) = None →
  fl_written (flushBatch c e items) = items.*1
  ∨ sc_policy c = FailurePolicyDrop ∨ sc_policy c = FailurePolicyDLQ ∧ fl_dead (flushBatch c e items) = items.*2
  ∨ sc_policy c = FailurePolicyFail ∧ items = [].
Proof.
  unfold flushBatch, writeWithRetry. destruct (Z.ltb_spec (sc_maxRetries c) 0); [lia|].
  destruct (write_loop _ _ _) as [ok [er|]] eqn:Ew; [|intros _; left; by rewrite (write_loop_ok _ _ _ _ Ew)].
  destruct (apply_policy_all _ _ _ _ _) as [dead [f|]] eqn:Ep; [done|]. intros _. right. apply apply_policy_all_none in Ep.
  destruct (sc_policy c); [by left|by right; left|right; right]. split; [done|]. by apply fmap_nil_inv in Ep.
Qed.

Lemma converted_entry rd i : converted (kafka_writer c env) rd = Some i → recordToKafka c rd.1 = Ok i.1 ∧ i.2 = rd.1.
Proof.
  unfold converted. cbn [bw_convert kafka_writer]. unfold sink_convert. destruct (recordToKafka c rd.1) as [m|e|e]; [by intros [= <-]| |done].
  by destruct (applyFailurePolicy _ _ _ _) as [dead [f|]].
Qed.

Lemma unconverted_record rd : converted (kafka_writer c env) rd = None → convertible (kafka_writer c env) rd →
  sc_policy c = FailurePolicyDrop ∨ sc_policy c = FailurePolicyDLQ ∧ dead_letters (kafka_writer c env) rd = [rd.1].
Proof.
  unfold converted, convertible, dead_letters. cbn [bw_convert kafka_writer]. unfold sink_convert.
  destruct (recordToKafka c rd.1) as [m|e|e]; [done| |by intros _ [i ?]].
  unfold applyFailurePolicy. destruct (sc_policy c); [by left|destruct (sc_dlq c), rd.2; cbn; try (by intros _ [i ?]); by right|by intros _ [i ?]].
Qed.

Lemma imap_bind_ext {A B C} (f : nat → A → B) (g : B → list C) (h : A → list C) l :
  (∀ n x, l !! n = Some x → g (f n x) = h x) → imap f l ≫= g = l ≫= h.
Proof.
  revert f. induction l as [|x l IH]; intros f H; [done|]. cbn [imap mbind list_bind]. f_equal; [by apply (H 0%nat)|].
  apply IH. intros n y Hn. by apply (H (S n)).
Qed.

Lemma concat_fmap_fst (calls : list (bool * list kafkaBatchEntry)) : calls ≫= (λ call, call.2.*1) = (concat calls.*2).*1.
Proof. induction calls as [|[b items] calls IH]; [done|]. cbn. by rewrite fmap_app, IH. Qed.

Lemma all_converted l : sc_policy c = FailurePolicyFail → Forall (convertible (kafka_writer c env)) l →
  Forall2 (λ rd m, recordToKafka c rd.1 = Ok m) l (omap (converted (kafka_writer c env)) l).*1.
Proof.
  intros Hf. induction 1 as [|rd l Hc _ IH]; [constructor|]. cbn [omap list_omap].
  destruct (converted (kafka_writer c env) rd) as [i|] eqn:Ei.
  - constructor; [|done]. by apply converted_entry in Ei as [? _].
  - apply (unconverted_record rd Ei) in Hc as [?|[? _]]; congruence.
Qed.

End kafka_sink.

(** ** Edge cases *)

(** With a negative number of retries no write is attempted: every flush reports
    success with nothing written. *)
Lemma negative_retries_write_nothing c env calls : sc_maxRetries c < 0 →
  Forall (λ f, f = mkFlushed [] [] None) (sink_flushes c env calls).
Proof.
  intros Hm. apply Forall_lookup. intros n f. unfold sink_flushes. rewrite list_lookup_imap. destruct (calls !! n) as [call|]; [|done]. intros [= <-].
  unfold flushBatch, writeWithRetry. by destruct (Z.ltb_spec (sc_maxRetries c) 0); [|lia].
Qed.

(** An input that closes when the context has already ended is flushed under the
    cancelled context: a synchronous sink that honours it loses the batch. *)
Lemma close_after_cancel_loses {T} (b : batchWriter T) st i items order :
  bw_async b = false → bs_batch st = i :: items → (∀ n its, ∃ e, bw_flush b n true its = Some e) →
  ∃ st' e, bw_step b st (BClosed true order) = (st', Some (BwFailed e)).
Proof.
  intros Ha Hb Hf. cbn [bw_step]. unfold final_flush, doFlush. rewrite Hb, Ha. destruct (Hf (length (bs_calls st)) (i :: items)) as [e ->]. by eexists _, e.
Qed.

(** ** Witnesses *)

Definition demo_sink_config (policy : FailurePolicy) : kafkaSinkConfig :=
  sink_defaults (mkSinkConfig 2 0 (Some (λ r, if decide (Value r = []) then Err (bs "empty") else Ok (Value r))) 0 policy true).
(** The second flush fails on all its attempts. *)
Definition demo_flush_env (n : nat) (_ : bool) : flush_env :=
  mkFlushEnv (λ a, if decide (n = 1%nat ∨ a = 0%nat) then Some (bs "broker down", false) else None) (λ _, None).
Definition demo_rec (v : string) : Record_ := NewRecord 5 (bs "k") (bs v).
Definition demo_sink_events : list bevent :=
  [BIn (demo_rec "a") None false []; BIn (demo_rec "") None false []; BIn (demo_rec "b") None false [];
   BIn (demo_rec "c") None false []; BTick false; BFinished 1; BIn (demo_rec "d") None false []; BDone [(demo_rec "e", None); (demo_rec "f", None)] [0%nat]].

Example demo_kafka_sink_run :
  let '(st, ret) := bw_run (kafka_writer (demo_sink_config FailurePolicyDLQ) demo_flush_env) bw_init demo_sink_events in
  let fl := sink_flushes (demo_sink_config FailurePolicyDLQ) demo_flush_env (bs_calls st) in
  ret = Some BwCancelled
  ∧ sm_Value <$> (fl ≫= fl_written) = [bs "a"; bs "b"; bs "d"; bs "e"; bs "f"]
  ∧ Value <$> bs_dead st ++ (fl ≫= fl_dead) = [[]; bs "c"].
Proof. vm_compute. done. Qed.

Definition demo_sink_state : bw_state kafkaBatchEntry :=
  (bw_run (kafka_writer (demo_sink_config FailurePolicyDLQ) demo_flush_env) bw_init demo_sink_events).1.

Lemma batch_writer_complete_witness :
  finished (kafka_writer (demo_sink_config FailurePolicyDLQ) demo_flush_env) demo_sink_state (fed demo_sink_events).
Proof.
  apply (batch_writer_complete (kafka_writer (demo_sink_config FailurePolicyDLQ) demo_flush_env) demo_sink_events demo_sink_state BwCancelled); [|done].
  vm_compute. reflexivity.
Defined.


(** Records drained on shutdown all go into one last batch, past the size. *)
Example demo_drain_oversized :
  let '(st, _) := bw_run (kafka_writer (demo_sink_config FailurePolicyFail) demo_flush_env) bw_init
                    [BDone ((λ v, (demo_rec v, None)) <$> ["a"; "b"; "c"; "d"; "e"]%string) []] in
  length <$> (bs_calls st).*2 = [5%nat].
Proof. vm_compute. done. Qed.
