(* ===== verification/PostgresSink.v ===== *)
(** * The Postgres sink ([src/sink/postgres.go], [postgres_options.go])

    The sink maps records to rows, batches them with [BatchSink]'s writer, groups
    a batch by table and columns, collapses rows with the same conflict key when
    upserting, and sends one statement per group with retries and a failure
    policy.

    Column values are of any type [V]; [fmt_key] is [fmt.Sprintf] of a list of
    them with the verb [%#v], and [Quote] is [%q].  The database is the environment. *)

From S2P Require Import Prelude Record Rfc3339 Decimal TxnSink Workflow WorkflowCompile BatchSink.
From Stdlib Require Import Strings.Byte.

(** The type is a string: the two constants and any other text. *)
Inductive PostgresWriteMode := PostgresInsert | PostgresUpsert | PostgresOther (mode : bytes).

(** ** Statements *)

Definition quote_ident (c : bytes) : bytes := [x22] ++ c ++ [x22].

(** [quotePostgresTable]: the quotes inside a part are doubled. *)
Definition quotePostgresTable (table : bytes) : bytes :=
  strings_Join [x2e] ((λ part, [x22] ++ (part ≫= λ c, if decide (c = x22) then [x22; x22] else [c]) ++ [x22]) <$> strings_Split x2e table).

(** [postgresWriteQuery] *)
Record postgresWriteQuery := mkQuery {
  q_Table : bytes;
  q_Columns : list bytes;
  q_RowCount : nat;
  q_Mode : PostgresWriteMode;
  q_ConflictColumns : list bytes;
  q_UpdateColumns : list bytes
}.

(** The numbers of the placeholders, row by row, from [start] on. *)
Fixpoint placeholders (rows cols : nat) (start : Z) : list (list Z) :=
  match rows with
  | O => []
  | S rows => seqZ start (Z.of_nat cols) :: placeholders rows cols (start + Z.of_nat cols)
  end.
Definition placeholder_text (n : Z) : bytes := [x24] ++ FormatInt n.

(** The columns an upsert updates: those given, or all that are not in the key. *)
Definition update_columns (q : postgresWriteQuery) : list bytes :=
  match q_UpdateColumns q with
  | [] => filter (λ c, c ∉ q_ConflictColumns q) (q_Columns q)
  | upd => upd
  end.

Definition conflict_clause (q : postgresWriteQuery) : bytes :=
  bs " ON CONFLICT (" ++ strings_Join [x2c] (quote_ident <$> q_ConflictColumns q) ++ bs ")"
  ++ match update_columns q with
     | [] => bs " DO NOTHING"
     | upd => bs " DO UPDATE SET " ++ strings_Join [x2c] ((λ c, quote_ident c ++ bs "=EXCLUDED." ++ quote_ident c) <$> upd)
     end.

(** [buildPostgresWriteQuery] *)
Definition buildPostgresWriteQuery (q : postgresWriteQuery) : bytes :=
  bs "INSERT INTO " ++ quotePostgresTable (q_Table q) ++ bs " (" ++ strings_Join [x2c] (quote_ident <$> q_Columns q) ++ bs ") VALUES "
  ++ strings_Join [x2c] ((λ row, bs "(" ++ strings_Join [x2c] (placeholder_text <$> row) ++ bs ")") <$> placeholders (q_RowCount q) (length (q_Columns q)) 1)
  ++ match q_Mode q with PostgresUpsert => conflict_clause q | _ => [] end.

(** The pattern of [postgresIdentRe] is that of the compiler's [columnRe]. *)
Definition postgresIdentRe : bytes → bool := columnRe.

Section postgres.
Context {V : Type} (fmt_key : list V → bytes) (Quote : bytes → bytes).

(** [pendingRow] *)
Record pendingRow := mkRow { r_table : bytes; r_columns : list bytes; r_values : list V; r_record : Record_ }.

(** [postgresSinkConfig], and [validateWriteMode] *)
Record postgresSinkConfig := mkPgConfig {
  pg_dsn : bytes;
  pg_mapper : option (Record_ → bytes * list bytes * list V);
  pg_batchSize : Z;
  pg_flushInterval : duration;
  pg_maxRetries : Z;
  pg_mode : PostgresWriteMode;
  pg_conflictCols : list bytes;
  pg_updateCols : list bytes;
  pg_policy : FailurePolicy;
  pg_dlq : bool
}.

Definition pg_defaults (c : postgresSinkConfig) : postgresSinkConfig :=
  mkPgConfig (pg_dsn c) (pg_mapper c) (if pg_batchSize c =? 0 then 100 else pg_batchSize c)
    (if pg_flushInterval c =? 0 then 5 * 1000000000 else pg_flushInterval c)
    (if pg_maxRetries c =? 0 then 3 else pg_maxRetries c)
    (match pg_mode c with PostgresOther [] => PostgresInsert | m => m end) (pg_conflictCols c) (pg_updateCols c) (pg_policy c) (pg_dlq c).

Definition validateWriteMode (c : postgresSinkConfig) : result unit :=
  match pg_mode c with
  | PostgresInsert =>
      if decide (pg_conflictCols c ≠ [] ∨ pg_updateCols c ≠ []) then Err (bs "postgres conflict/update columns require upsert mode") else Ok tt
  | PostgresUpsert =>
      if decide (pg_conflictCols c = []) then Err (bs "postgres upsert requires at least one conflict column")
      else match filter (λ col, postgresIdentRe col = false) (pg_conflictCols c), filter (λ col, postgresIdentRe col = false) (pg_updateCols c) with
           | col :: _, _ => Err (bs "unsafe postgres conflict column " ++ Quote col)
           | [], col :: _ => Err (bs "unsafe postgres update column " ++ Quote col)
           | [], [] => Ok tt
           end
  | PostgresOther mode => Err (bs "unsupported postgres write mode " ++ Quote mode)
  end.

(** [NewPostgresSinkE] *)
Definition NewPostgresSinkE (c : postgresSinkConfig) : result postgresSinkConfig :=
  let c := pg_defaults c in
  if decide (pg_dsn c = []) then Err (bs "PostgresSink requires PostgresDSN(...)")
  else match pg_mapper c with
       | None => Err (bs "PostgresSink requires PostgresMapper(...)")
       | Some _ => _ <-? validateWriteMode c ;; Ok c
       end.

(** [mapRecord] *)
Definition mapRecord (mapper : Record_ → bytes * list bytes * list V) (r : Record_) : option pendingRow :=
  let '(table, columns, values) := mapper r in
  if decide (table = [] ∨ columns = [] ∨ length columns ≠ length values) then None else Some (mkRow table columns values r).

(** ** Rows with the same conflict key *)

(** The position of a column, the first one. *)
Definition column_index (columns : list bytes) (c : bytes) : option nat := fst <$> list_find (λ x, x = c) columns.

(** The values at the positions; [values] has one per column. *)
Definition values_at (idx : list nat) (values : list V) : list V := omap (λ i, values !! i) idx.

(** The loop of [dedupeByConflictKey]: the position of each key in the output,
    and the output. *)
Definition dedupe_step (idx : list nat) (acc : gmap bytes nat * list pendingRow) (r : pendingRow) : gmap bytes nat * list pendingRow :=
  let key := fmt_key (values_at idx (r_values r)) in
  match acc.1 !! key with
  | Some i => (acc.1, <[i := r]> acc.2)
  | None => (<[key := length acc.2]> acc.1, acc.2 ++ [r])
  end.
Definition dedupe_rows (idx : list nat) (rows : list pendingRow) : list pendingRow := (foldl (dedupe_step idx) (∅, []) rows).2.

(** [dedupeByConflictKey] *)
Definition dedupeByConflictKey (rows : list pendingRow) (columns conflictCols : list bytes) : list pendingRow :=
  let idx := omap (column_index columns) conflictCols in
  if decide (length idx = length conflictCols) then dedupe_rows idx rows else rows.

(** ** Writing a batch *)

(** The loop of [insertGroupWithRetry]; the attempts' answers are [w]. *)
Inductive exec_end := ExecOk | ExecCancelled | ExecGaveUp (e : bytes).
Fixpoint exec_loop (more attempt : nat) (w : nat → option (bytes * bool)) : exec_end :=
  match w attempt with
  | None => ExecOk
  | Some (e, cancelled) =>
      match more with
      | O => ExecGaveUp e
      | S more => if cancelled then ExecCancelled else exec_loop more (S attempt) w
      end
  end.
Definition exec_retry (maxRetries : Z) (w : nat → option (bytes * bool)) : exec_end :=
  if maxRetries <? 0 then ExecGaveUp [] else exec_loop (Z.to_nat maxRetries) 0 w.

(** The effect of a statement or a batch: statements executed with their
    arguments and rows, dead letters, error. *)
Record statement := mkStatement { s_query : bytes; s_args : list V; s_rows : list pendingRow }.
Record pg_flushed := mkPgFlushed { pf_done : list statement; pf_dead : list Record_; pf_err : option bytes }.

(** [insertGroupWithRetry] *)
Definition insertGroupWithRetry (c : postgresSinkConfig) (env : flush_env) (table : bytes) (columns : list bytes) (rows : list pendingRow) : pg_flushed :=
  let rows := match pg_mode c with PostgresUpsert => dedupeByConflictKey rows columns (pg_conflictCols c) | _ => rows end in
  let query := buildPostgresWriteQuery (mkQuery table columns (length rows) (pg_mode c) (pg_conflictCols c) (pg_updateCols c)) in
  let st := mkStatement query (rows ≫= r_values) rows in
  match exec_retry (pg_maxRetries c) (fe_write env) with
  | ExecOk => mkPgFlushed [st] [] None
  | ExecCancelled => mkPgFlushed [] [] (Some (bs "context canceled"))
  | ExecGaveUp e =>
      let '(dead, err) := apply_policy_all (pg_policy c) (pg_dlq c) (fe_dlq env) 0 (r_record <$> rows) in
      mkPgFlushed [] dead ((λ f, bs "postgres insert into " ++ table ++ bs ": " ++ e ++ bs " (failure policy: " ++ f ++ bs ")") <$> err)
  end.

(** The groups of a batch, in the order of their first rows. *)
Definition group_key (r : pendingRow) : bytes * bytes := (r_table r, strings_Join [x2c] (r_columns r)).
Definition groups (rows : list pendingRow) : list (list pendingRow) :=
  (λ k, filter (λ r, group_key r = k) rows) <$> foldl (λ ks r, if decide (group_key r ∈ ks) then ks else ks ++ [group_key r]) [] rows.

(** [insertBatch]; group number [i] meets [env i]. *)
Fixpoint insert_groups (c : postgresSinkConfig) (env : nat → flush_env) (i : nat) (gs : list (list pendingRow)) : pg_flushed :=
  match gs with
  | [] => mkPgFlushed [] [] None
  | g :: gs =>
      match g with
      | [] => insert_groups c env (S i) gs
      | r :: _ =>
          let f := insertGroupWithRetry c (env i) (r_table r) (r_columns r) g in
          match pf_err f with
          | Some e => mkPgFlushed (pf_done f) (pf_dead f) (Some (bs "postgres insert into " ++ r_table r ++ bs ": " ++ e))
          | None =>
              let f' := insert_groups c env (S i) gs in
              mkPgFlushed (pf_done f ++ pf_done f') (pf_dead f ++ pf_dead f') (pf_err f')
          end
      end
  end.
Definition insertBatch (c : postgresSinkConfig) (env : nat → flush_env) (rows : list pendingRow) : pg_flushed := insert_groups c env 0 (groups rows).

(** [Write], once the pool is open. *)
Definition postgres_writer (c : postgresSinkConfig) (mapper : Record_ → bytes * list bytes * list V) (env : nat → bool → nat → flush_env) : batchWriter pendingRow :=
  mkBatchWriter (pg_batchSize c) (pg_flushInterval c) false (λ _ r, (Ok (mapRecord mapper r), []))
    (λ n cancelled rows, pf_err (insertBatch c (env n cancelled) rows)).
End postgres.
Arguments pendingRow : clear implicits.
Arguments postgresSinkConfig : clear implicits.

(** ** Upserts *)

(** [%#v] distinguishes the keys. *)
Section upsert.
Context {V : Type} `{Countable V} (fmt_key : list V → bytes) (Hfmt : Inj (=) (=) fmt_key).
Implicit Types (r x : pendingRow V) (t : gmap (list V) (list V)).

Definition row_key (idx : list nat) r : list V := values_at idx (r_values r).

(** Rows written one after the other, each replacing the row of its key. *)
Definition put_row (idx : list nat) t r := <[row_key idx r := r_values r]> t.

Lemma put_rows_out idx rows k : ∀ t, k ∉ row_key idx <$> rows → foldl (put_row idx) t rows !! k = t !! k.
Proof.
  induction rows as [|r rows IH]; intros t Hk; [done|]. cbn [foldl fmap list_fmap] in *. apply not_elem_of_cons in Hk as [Hne Hk].
  rewrite IH by done. unfold put_row. by rewrite lookup_insert_ne.
Qed.
Lemma put_rows_in idx rows x : ∀ t, NoDup (row_key idx <$> rows) → x ∈ rows → foldl (put_row idx) t rows !! row_key idx x = Some (r_values x).
Proof.
  induction rows as [|r rows IH]; intros t Hnd Hx; [by apply elem_of_nil in Hx|]. cbn [foldl fmap list_fmap] in *. apply NoDup_cons in Hnd as [Hni Hnd].
  apply elem_of_cons in Hx as [->|Hx]; [|by apply IH]. rewrite put_rows_out by done. unfold put_row. by rewrite lookup_insert_eq.
Qed.

(** The invariant of the loop: positions and output agree, keys are unique. *)
Definition dedupe_inv (idx : list nat) (acc : gmap bytes nat * list (pendingRow V)) : Prop :=
  (∀ s i, acc.1 !! s = Some i → ∃ x, acc.2 !! i = Some x ∧ fmt_key (row_key idx x) = s)
  ∧ (∀ x, x ∈ acc.2 → is_Some (acc.1 !! fmt_key (row_key idx x)))
  ∧ NoDup (row_key idx <$> acc.2).

Lemma dedupe_same_keys idx acc i r x : dedupe_inv idx acc → acc.2 !! i = Some x → fmt_key (row_key idx x) = fmt_key (row_key idx r) →
  row_key idx <$> <[i := r]> acc.2 = row_key idx <$> acc.2.
Proof.
  intros _ Hx E. apply Hfmt in E. rewrite list_fmap_insert. apply list_insert_id. by rewrite list_lookup_fmap, Hx, <- E.
Qed.

Lemma dedupe_step_inv idx acc r : dedupe_inv idx acc → dedupe_inv idx (dedupe_step fmt_key idx acc r).
Proof.
  intros Hi. pose proof Hi as (H1 & H2 & H3). unfold dedupe_step. fold (row_key idx r).
  destruct (acc.1 !! fmt_key (row_key idx r)) as [i|] eqn:Ep.
  - destruct (H1 _ _ Ep) as (x & Hx & Ex). pose proof (dedupe_same_keys idx acc i r x Hi Hx Ex) as Ek.
    assert (row_key idx x = row_key idx r) as Exr by (by apply Hfmt).
    assert (∀ y, y ∈ <[i:=r]> acc.2 → ∃ z, z ∈ acc.2 ∧ row_key idx z = row_key idx y) as Hk.
    { intros y Hy. apply (list_elem_of_fmap_2 (row_key idx)) in Hy. rewrite Ek in Hy. apply list_elem_of_fmap in Hy as (z & E & Hz). eauto. }
    split_and!; cbn [fst snd].
    + intros s j Hj. destruct (H1 _ _ Hj) as (y & Hy & Ey). destruct (decide (i = j)) as [->|Hne].
      * exists r. split; [apply list_lookup_insert_eq; by eapply lookup_lt_Some|]. rewrite <- Exr. congruence.
      * exists y. by rewrite list_lookup_insert_ne.
    + intros y Hy. destruct (Hk y Hy) as (z & Hz & <-). by apply H2.
    + by rewrite Ek.
  - split_and!; cbn [fst snd].
    + intros s j [[<- <-]|[Hne Hj]]%lookup_insert_Some.
      * exists r. split; [|done]. by rewrite lookup_app_r, Nat.sub_diag by lia.
      * destruct (H1 _ _ Hj) as (y & Hy & Ey). exists y. split; [|done]. by apply lookup_app_l_Some.
    + intros y [Hy|Hy%list_elem_of_singleton]%elem_of_app; [|subst y; rewrite lookup_insert_eq; by eexists].
      destruct (H2 y Hy) as [j Hj]. rewrite lookup_insert_ne; [by eexists|]. intros E. congruence.
    + rewrite fmap_app. apply NoDup_app. split_and!; [done| |by apply NoDup_singleton].
      intros k Hk Hr%list_elem_of_singleton. apply list_elem_of_fmap in Hk as (y & -> & Hy). destruct (H2 y Hy) as [j Hj]. rewrite Hr in Hj. congruence.
Qed.

(** One more row has the same effect on the deduplicated output. *)
Lemma dedupe_step_put idx acc r t : dedupe_inv idx acc →
  foldl (put_row idx) t (dedupe_step fmt_key idx acc r).2 = put_row idx (foldl (put_row idx) t acc.2) r.
Proof.
  intros Hi. pose proof (dedupe_step_inv idx acc r Hi) as (_ & _ & Hnd'). pose proof Hi as (H1 & _ & H3).
  unfold dedupe_step in *. fold (row_key idx r) in *.
  destruct (acc.1 !! fmt_key (row_key idx r)) as [i|] eqn:Ep; cbn [snd] in *; [|by rewrite foldl_app].
  destruct (H1 _ _ Ep) as (x & Hx & Ex). pose proof (dedupe_same_keys idx acc i r x Hi Hx Ex) as Ek. apply Hfmt in Ex.
  apply map_eq. intros k. unfold put_row at 2. destruct (decide (row_key idx r = k)) as [E|E].
  - rewrite <- E, lookup_insert_eq. apply put_rows_in; [done|]. apply list_elem_of_lookup. exists i. apply list_lookup_insert_eq. by eapply lookup_lt_Some.
  - rewrite lookup_insert_ne by done. destruct (decide (k ∈ row_key idx <$> acc.2)) as [Hk|Hk]; [|by rewrite !put_rows_out by (rewrite ?Ek; done)].
    apply list_elem_of_fmap in Hk as (y & -> & Hy). rewrite !put_rows_in; [done|done|done|done|].
    apply list_elem_of_lookup in Hy as [j Hj]. apply list_elem_of_lookup. exists j. rewrite list_lookup_insert_ne; [done|]. congruence.
Qed.

(** Rows that are superseded within a batch leave no trace. *)
Lemma dedupe_put idx rows t : foldl (put_row idx) t (dedupe_rows fmt_key idx rows) = foldl (put_row idx) t rows
  ∧ NoDup (row_key idx <$> dedupe_rows fmt_key idx rows).
Proof.
  unfold dedupe_rows.
  assert (dedupe_inv idx (foldl (dedupe_step fmt_key idx) (∅, []) rows)
          ∧ foldl (put_row idx) t (foldl (dedupe_step fmt_key idx) (∅, []) rows).2 = foldl (put_row idx) t rows) as [(_ & _ & Hn) Hp]; [|done].
  induction rows as [|r rows IH] using rev_ind.
  - split; [|done]. split_and!; cbn [foldl fst snd fmap list_fmap]; [|by intros x ?%elem_of_nil|constructor]. intros s i Hi. by rewrite lookup_empty in Hi.
  - rewrite !foldl_app. cbn [foldl]. destruct IH as [Hi E]. split; [by apply dedupe_step_inv|]. by rewrite dedupe_step_put, E.
Qed.

(** The meaning of [INSERT ... ON CONFLICT (key) DO UPDATE SET upd = EXCLUDED.upd]
    for one row: a new key is inserted, an old one has the columns [upd]
    replaced. *)
Definition merge_values (columns upd : list bytes) (old new : list V) : list V :=
  zip_with (λ cn o, if decide (cn.1 ∈ upd) then cn.2 else o) (zip columns new) old.
Definition upsert_row (columns upd : list bytes) (idx : list nat) t r : gmap (list V) (list V) :=
  match t !! row_key idx r with
  | None => put_row idx t r
  | Some old => <[row_key idx r := merge_values columns upd old (r_values r)]> t
  end.

(** A table whose rows are stored under their keys. *)
Definition table_ok (columns : list bytes) (idx : list nat) t : Prop :=
  ∀ k vals, t !! k = Some vals → length vals = length columns ∧ values_at idx vals = k.

Lemma values_at_lookup idx (a b : list V) i : Forall (λ j, (j < length a)%nat ∧ (j < length b)%nat) idx →
  values_at idx a = values_at idx b → i ∈ idx → a !! i = b !! i.
Proof.
  unfold values_at. induction 1 as [|j idx [Ha Hb] _ IH]; intros E Hi; [by apply elem_of_nil in Hi|]. cbn [omap list_omap] in E.
  destruct (lookup_lt_is_Some_2 a j Ha) as [x Ex], (lookup_lt_is_Some_2 b j Hb) as [y Ey]. rewrite Ex, Ey in E. injection E as -> E.
  apply elem_of_cons in Hi as [->|Hi]; [by rewrite Ex, Ey|by apply IH].
Qed.

(** When every column is in the key or updated, an upsert replaces the row. *)
Lemma upsert_is_put columns conflict upd t r : NoDup columns →
  let idx := omap (column_index columns) conflict in
  (∀ c, c ∈ columns → c ∈ upd ∨ c ∈ conflict) → length (r_values r) = length columns → table_ok columns idx t →
  upsert_row columns upd idx t r = put_row idx t r.
Proof.
  intros Hnd idx Hcov Hlen Ht. unfold upsert_row. destruct (t !! row_key idx r) as [old|] eqn:Eo; [|done]. unfold put_row. f_equal.
  destruct (Ht _ _ Eo) as [Hold Hkey].
  assert (Forall (λ j, (j < length old)%nat ∧ (j < length (r_values r))%nat) idx) as Hidx.
  { apply Forall_forall. intros j (c & _ & Hj)%list_elem_of_omap. unfold column_index in Hj.
    destruct (list_find _ columns) as [[j' c']|] eqn:Ef; [|done]. injection Hj as <-. apply list_find_Some in Ef as (Hl & _).
    apply lookup_lt_Some in Hl. lia. }
  apply list_eq_same_length with (n := length columns); [done| |].
  { unfold merge_values. rewrite length_zip_with, length_zip_with. lia. }
  intros i x y Hi Hx Hy. unfold merge_values in Hx. apply lookup_zip_with_Some in Hx as ([c v] & o & -> & Hz & Ho).
  apply lookup_zip_with_Some in Hz as (c' & v' & [= -> ->] & Hc & Hv). cbn [fst snd]. rewrite Hv in Hy. injection Hy as ->.
  case_decide as Hu; [done|]. destruct (Hcov c') as [?|Hcf]; [by eapply list_elem_of_lookup_2|done|].
  assert (i ∈ idx) as Hii.
  { apply list_elem_of_omap. exists c'. split; [done|]. unfold column_index.
    destruct (list_find (λ w, w = c') columns) as [[j z]|] eqn:Ef.
    - apply list_find_Some in Ef as (Hj & -> & _). cbn. f_equal. by eapply NoDup_lookup.
    - apply list_find_None in Ef. rewrite Forall_forall in Ef. destruct (Ef c'); [by eapply list_elem_of_lookup_2|done]. }
  pose proof (values_at_lookup idx old (r_values r) i Hidx Hkey Hii) as E. rewrite Ho, Hv in E. by injection E as ->.
Qed.

Lemma put_table_ok columns idx t r : length (r_values r) = length columns → table_ok columns idx t → table_ok columns idx (put_row idx t r).
Proof. intros Hl Ht k vals. unfold put_row. intros [[<- <-]|[_ Hk]]%lookup_insert_Some; [done|by apply Ht]. Qed.

Lemma upserts_are_puts columns conflict upd rows : NoDup columns → (∀ c, c ∈ columns → c ∈ upd ∨ c ∈ conflict) →
  Forall (λ r, length (r_values r) = length columns) rows → ∀ t, table_ok columns (omap (column_index columns) conflict) t →
  foldl (upsert_row columns upd (omap (column_index columns) conflict)) t rows = foldl (put_row (omap (column_index columns) conflict)) t rows.
Proof.
  intros Hnd Hcov. induction 1 as [|r rows Hr _ IH]; intros t Ht; [done|]. cbn [foldl]. rewrite upsert_is_put by done. apply IH. by apply put_table_ok.
Qed.

Lemma dedupe_subset idx rows : ∀ x, x ∈ dedupe_rows fmt_key idx rows → x ∈ rows.
Proof.
  unfold dedupe_rows. induction rows as [|r rows IH] using rev_ind; intros x; [by intros ?%elem_of_nil|]. rewrite foldl_app. cbn [foldl].
  unfold dedupe_step at 1. destruct (_ !! _) as [i|]; cbn [snd].
  - intros Hx. apply list_elem_of_lookup in Hx as [j Hj]. destruct (decide (i = j)) as [->|Hne].
    + apply list_lookup_insert_Some in Hj as [(_ & <- & _)|[? _]]; [apply elem_of_app; right; by left|done].
    + rewrite list_lookup_insert_ne in Hj by done. apply elem_of_app. left. apply IH. by eapply list_elem_of_lookup_2.
  - intros [Hx|Hx]%elem_of_app; apply elem_of_app; [left; by apply IH|by right].
Qed.

(** When an upsert updates every column outside the key, keeping the
    last row per conflict key leaves keys distinct and changes the table as
    upserting all rows one by one does. *)
Theorem dedupe_matches_upserts columns conflict upd rows t :
  NoDup columns → (∀ c, c ∈ conflict → c ∈ columns) → (∀ c, c ∈ columns → c ∈ upd ∨ c ∈ conflict) →
  Forall (λ r, length (r_values r) = length columns) rows → table_ok columns (omap (column_index columns) conflict) t →
  let idx := omap (column_index columns) conflict in
  let kept := dedupeByConflictKey fmt_key rows columns conflict in
  NoDup (row_key idx <$> kept)
  ∧ foldl (upsert_row columns upd idx) t kept = foldl (upsert_row columns upd idx) t rows.
Proof.
  intros Hnd Hsub Hcov Hlen Ht idx kept.
  assert (length idx = length conflict) as Hl.
  { unfold idx. clear -Hsub. induction conflict as [|c conflict IH]; [done|]. cbn [omap list_omap].
    destruct (column_index columns c) as [i|] eqn:E; [cbn [length]; f_equal; apply IH; intros; apply Hsub; by right|].
    unfold column_index in E. destruct (list_find _ columns) eqn:Ef; [done|]. apply list_find_None in Ef. rewrite Forall_forall in Ef.
    destruct (Ef c); [apply Hsub; by left|done]. }
  assert (kept = dedupe_rows fmt_key idx rows) as Ek by (unfold kept, dedupeByConflictKey; by rewrite decide_True).
  destruct (dedupe_put idx rows t) as [Hp Hk]. rewrite Ek. split; [done|].
  etrans; [apply upserts_are_puts; [done|done| |done]|etrans; [exact Hp|symmetry; by apply upserts_are_puts]].
  apply Forall_forall. intros x Hx%dedupe_subset. rewrite Forall_forall in Hlen. by apply Hlen.
Qed.
End upsert.

(** ** Placeholders and arguments *)

Lemma placeholders_lookup rows cols : ∀ start i j, (i < rows)%nat → (j < cols)%nat →
  placeholders rows cols start !! i ≫= (λ row, row !! j) = Some (start + Z.of_nat i * Z.of_nat cols + Z.of_nat j).
Proof.
  induction rows as [|rows IH]; intros start i j Hi Hj; [lia|]. cbn [placeholders]. destruct i as [|i]; cbn [lookup list_lookup].
  - cbn [mbind option_bind]. rewrite lookup_seqZ_lt by lia. f_equal. lia.
  - rewrite IH by lia. f_equal. nia.
Qed.

Section binding.
Context {V : Type} (fmt_key : list V → bytes).

Lemma args_lookup cols (rows : list (pendingRow V)) : Forall (λ r, length (r_values r) = cols) rows → ∀ i j r, rows !! i = Some r → (j < cols)%nat →
  (rows ≫= r_values) !! (i * cols + j)%nat = r_values r !! j.
Proof.
  induction 1 as [|r rows Hr _ IH]; intros i j x Hi Hj; [by rewrite lookup_nil in Hi|]. cbn [mbind list_bind]. destruct i as [|i]; cbn in Hi.
  - injection Hi as ->. cbn. by rewrite lookup_app_l by lia.
  - rewrite lookup_app_r by lia. rewrite <- (IH i j x Hi Hj). f_equal. lia.
Qed.
Lemma args_length cols (rows : list (pendingRow V)) : Forall (λ r, length (r_values r) = cols) rows → length (rows ≫= r_values) = (length rows * cols)%nat.
Proof. induction 1 as [|r rows Hr _ IH]; [done|]. cbn [mbind list_bind length]. rewrite length_app, IH, Hr. lia. Qed.

(** Every placeholder of an executed statement is bound to the value of its row and column. *)
Theorem statement_binds_values (c : postgresSinkConfig V) env table columns rows st :
  Forall (λ r, length (r_values r) = length columns) rows →
  pf_done (insertGroupWithRetry fmt_key c env table columns rows) = [st] →
  let marks := placeholders (length (s_rows st)) (length columns) 1 in
  s_query st = buildPostgresWriteQuery (mkQuery table columns (length (s_rows st)) (pg_mode c) (pg_conflictCols c) (pg_updateCols c))
  ∧ length (s_args st) = (length (s_rows st) * length columns)%nat
  ∧ ∀ i j r, s_rows st !! i = Some r → (j < length columns)%nat →
      ∃ n, marks !! i ≫= (λ row, row !! j) = Some n ∧ s_args st !! Z.to_nat (n - 1) = r_values r !! j.
Proof.
  intros Hl E. unfold insertGroupWithRetry in E. set (kept := match pg_mode c with PostgresUpsert => _ | _ => _ end) in E.
  assert (Forall (λ r, length (r_values r) = length columns) kept) as Hk.
  { unfold kept, dedupeByConflictKey. destruct (pg_mode c); [done| |done]. case_decide; [|done]. apply Forall_forall. intros x Hx%dedupe_subset.
    rewrite Forall_forall in Hl. by apply Hl. }
  destruct (exec_retry _ _); [injection E as <-|done|by destruct (apply_policy_all _ _ _ _ _) as [dead err]]. cbn [s_rows s_args s_query].
  split_and!; [done|by apply args_length|]. intros i j r Hi Hj.
  eexists. split; [apply placeholders_lookup; [by eapply lookup_lt_Some|done]|].
  rewrite <- (args_lookup (length columns) kept Hk i j r Hi Hj). f_equal. nia.
Qed.
End binding.

(** ** Witnesses *)

Definition demo_fmt (l : list Z) : bytes := bytes_of_pos (encode l).
Lemma demo_fmt_inj : Inj (=) (=) demo_fmt.
Proof. intros a b E. apply (f_equal pos_of_bytes) in E. unfold demo_fmt in E. rewrite !pos_of_bytes_of in E. by apply encode_inj in E. Qed.

Definition demo_columns : list bytes := [bs "id"; bs "city"; bs "n"].
Definition demo_row (id city n : Z) : pendingRow Z := mkRow (bs "t") demo_columns [id; city; n] zeroRecord.
Definition demo_rows : list (pendingRow Z) := [demo_row 1 10 100; demo_row 2 20 200; demo_row 1 11 101].
Definition demo_idx : list nat := omap (column_index demo_columns) [bs "id"].

Lemma demo_rows_sized : Forall (λ r, length (r_values r) = length demo_columns) demo_rows.
Proof. repeat constructor. Qed.

Lemma dedupe_matches_upserts_witness :
  let kept := dedupeByConflictKey demo_fmt demo_rows demo_columns [bs "id"] in
  NoDup (row_key demo_idx <$> kept)
  ∧ foldl (upsert_row demo_columns [bs "city"; bs "n"] demo_idx) ∅ kept = foldl (upsert_row demo_columns [bs "city"; bs "n"] demo_idx) ∅ demo_rows.
Proof.
  apply (dedupe_matches_upserts demo_fmt demo_fmt_inj demo_columns [bs "id"] [bs "city"; bs "n"] demo_rows ∅).
  - apply (bool_decide_eq_true_1 (NoDup demo_columns)). vm_compute. reflexivity.
  - intros c ->%list_elem_of_singleton. by left.
  - intros c Hc. unfold demo_columns in Hc. set_solver.
  - apply demo_rows_sized.
  - intros k vals Hk. by rewrite lookup_empty in Hk.
Defined.

(** With fewer update columns the collapsed batch differs: the first row's city
    would have stayed. *)
Example dedupe_partial_update :
  let t rows := foldl (upsert_row demo_columns [bs "n"] demo_idx) ∅ rows !! [1] in
  t demo_rows = Some [1; 10; 101] ∧ t (dedupeByConflictKey demo_fmt demo_rows demo_columns [bs "id"]) = Some [1; 11; 101].
Proof. vm_compute. done. Qed.

Definition demo_pg : postgresSinkConfig Z :=
  pg_defaults (mkPgConfig (bs "dsn") None 0 0 0 PostgresUpsert [bs "id"] [] FailurePolicyFail false).
Definition demo_exec : flush_env := mkFlushEnv (λ _, None) (λ _, None).
Definition demo_statement : statement :=
  match pf_done (insertGroupWithRetry demo_fmt demo_pg demo_exec (bs "t") demo_columns demo_rows) with st :: _ => st | [] => mkStatement [] [] [] end.

Lemma statement_binds_values_witness :
  let marks := placeholders (length (s_rows demo_statement)) (length demo_columns) 1 in
  s_query demo_statement = buildPostgresWriteQuery (mkQuery (bs "t") demo_columns (length (s_rows demo_statement)) PostgresUpsert [bs "id"] [])
  ∧ length (s_args demo_statement) = (length (s_rows demo_statement) * length demo_columns)%nat
  ∧ ∀ i j r, s_rows demo_statement !! i = Some r → (j < length demo_columns)%nat →
      ∃ n, marks !! i ≫= (λ row, row !! j) = Some n ∧ s_args demo_statement !! Z.to_nat (n - 1) = r_values r !! j.
Proof.
  apply (statement_binds_values demo_fmt demo_pg demo_exec (bs "t") demo_columns demo_rows demo_statement demo_rows_sized). vm_compute. reflexivity.
Defined.
