(* ===== verification/FileConnector.v ===== *)
(** * Files, slices and generators as connectors

    [src/sink/file.go] writes one record per line; [src/source/file.go] reads one
    record per line and checkpoints the line number; [slice.go] and
    [generator.go] emit a fixed list.

    A file is its bytes.  [bufio.Scanner] is written out: lines end at a newline,
    a carriage return before it is dropped, and a line must be shorter than the
    larger of the configured limit and the first buffer.  Sends that fail because
    the context ended are the environment's choice. *)

From S2P Require Import Prelude Record Rfc3339 Decimal Injector Positions.
From Stdlib Require Import Strings.Byte.

Definition newline : byte := x0a.

(** ** Lines *)

(** The first line and the rest; [None] when there is no newline. *)
Fixpoint cut_line (s : bytes) : option (bytes * bytes) :=
  match s with
  | [] => None
  | c :: s => if decide (c = newline) then Some ([], s) else prod_map (cons c) id <$> cut_line s
  end.

(** [dropCR] of [bufio]. *)
Definition drop_cr (l : bytes) : bytes :=
  match last l with Some c => if decide (c = x0d) then take (length l - 1) l else l | None => l end.

(** The lines a scanner gives, and whether it stopped at a line that is too
    long; every turn consumes a byte, so the length is enough fuel. *)
Definition first_buffer : Z := 64 * 1024.
Definition scan_limit (maxLine : Z) : Z := Z.max maxLine first_buffer.
Fixpoint scan (fuel : nat) (limit : Z) (s : bytes) : list bytes * bool :=
  match fuel, s with
  | S fuel, _ :: _ =>
      match cut_line s with
      | Some (l, rest) =>
          if Z.of_nat (length l) <? limit then let '(ls, ok) := scan fuel limit rest in (drop_cr l :: ls, ok) else ([], false)
      | None => if Z.of_nat (length s) <? limit then ([drop_cr s], true) else ([], false)
      end
  | _, _ => ([], true)
  end.
Definition scan_lines (maxLine : Z) (s : bytes) : list bytes * bool := scan (S (length s)) (scan_limit maxLine) s.

(** ** The source *)

Definition defaultFileScannerBuffer : Z := 1024 * 1024.

Section file_source.
Context {P : Type}.

(** [fileSourceConfig], [FileSource] *)
Record FileSource := mkFileSource {
  f_path : bytes;
  f_sourceName : bytes;
  f_maxLine : Z;
  f_deser : option (bytes → result P);
  nextLine : Z
}.

(** [NewFileSourceE] *)
Definition NewFileSourceE (path sourceName : bytes) (maxLine : Z) (deser : option (bytes → result P)) : result FileSource :=
  if decide (path = []) then Err (bs "FileSource requires FilePath(...)")
  else Ok (mkFileSource path (if decide (sourceName = []) then path else sourceName)
             (if maxLine <=? 0 then defaultFileScannerBuffer else maxLine) deser 0).

Definition set_nextLine (s : FileSource) (n : Z) : FileSource := mkFileSource (f_path s) (f_sourceName s) (f_maxLine s) (f_deser s) n.

(** The record of a line. *)
Definition line_record (s : FileSource) (line : Z) (value : bytes) : Record_ :=
  mkRecord (FormatInt line) value zeroTime line 0 (f_sourceName s) ∅ false false [].

(** The payload of a line. *)
Definition parse_line (s : FileSource) (l : bytes) : result (option P) :=
  match f_deser s with None => Ok None | Some d => p <-? d l ;; Ok (Some p) end.

(** The loop of [Run]; [sent] tells how many sends succeed before the context
    ends ([None]: all). *)
Fixpoint file_loop (s : FileSource) (start line : Z) (ls : list bytes) (sent : option nat) : FileSource * list (Record_ * option P) * option (result unit) :=
  match ls with
  | [] => (s, [], None)
  | l :: ls =>
      if line <? start then file_loop s start (line + 1) ls sent
      else
        match parse_line s l with
        | Err e => (s, [], Some (Err (bs "file source: deserialize " ++ f_path s ++ bs " line " ++ FormatInt (line + 1) ++ bs ": " ++ e)))
        | Panic e => (s, [], Some (Panic e))
        | Ok parsed =>
            match sent with
            | Some O => (s, [], Some (Err (bs "context canceled")))
            | _ =>
                let '(s', o, r) := file_loop (set_nextLine s (line + 1)) start (line + 1) ls (Nat.pred <$> sent) in
                (s', (line_record s line l, parsed) :: o, r)
            end
        end
  end.

(** [Run]; [file] is the contents, or the error of opening it. *)
Definition file_Run (s : FileSource) (file : result bytes) (sent : option nat) : FileSource * list (Record_ * option P) * result unit :=
  match file with
  | Err e => (s, [], Err (bs "file source: open " ++ f_path s ++ bs ": " ++ e))
  | Panic e => (s, [], Panic e)
  | Ok contents =>
      let '(ls, ok) := scan_lines (f_maxLine s) contents in
      let '(s', o, r) := file_loop s (nextLine s) 0 ls sent in
      (s', o, match r with
              | Some r => r
              | None => if ok then Ok tt else Err (bs "file source: read " ++ f_path s ++ bs ": bufio.Scanner: token too long")
              end)
  end.

Section checkpoints.
Context `{!PositionJSON}.

(** [CheckpointOffset], [RestoreOffset] *)
Definition file_CheckpointOffset (s : FileSource) : bytes := EncodePositions [mkPosition (f_sourceName s) 0 (nextLine s)].
Definition file_RestoreOffset (s : FileSource) (data : bytes) : result FileSource :=
  ps <-? DecodePositions data (f_sourceName s) ;;
  match ps with
  | [p] =>
      if decide (p_Source p ≠ f_sourceName s ∨ p_Partition p ≠ 0) then Err (bs "file source: checkpoint belongs to " ++ p_Source p ++ bs "/" ++ FormatInt (p_Partition p)
                  ++ bs ", want " ++ f_sourceName s ++ bs "/0")
      else Ok (set_nextLine s (p_Offset p))
  | _ => Err (bs "file source: expected one checkpoint position, got " ++ FormatInt (Z.of_nat (length ps)))
  end.
End checkpoints.
End file_source.
Arguments FileSource : clear implicits.

(** ** The sink *)

Record FileSink := mkFileSink { fk_path : bytes; fk_append : bool; fk_serializer : option (Record_ → result bytes) }.

(** [NewFileSinkE]; the default serializer is the raw value, a nil one is
    refused. *)
Definition NewFileSinkE (path : bytes) (append : bool) (serializer : option (Record_ → result bytes)) : result FileSink :=
  if decide (path = []) then Err (bs "FileSink requires FileSinkPath(...)")
  else match serializer with
       | None => Err (bs "FileSink requires a non-nil serializer")
       | Some _ => Ok (mkFileSink path append serializer)
       end.
Definition raw_serializer (r : Record_) : result bytes := Ok (Value r).

(** [bufio.Writer]: the bytes in the file and those in the buffer. *)
Definition buffer_size : nat := 4096.
Definition buf_write (fb : bytes * bytes) (p : bytes) : bytes * bytes :=
  let '(file, buf) := fb in
  let avail := (buffer_size - length buf)%nat in
  if decide (length p ≤ avail)%nat then (file, buf ++ p)
  else match buf with
       | [] => (file ++ p, [])
       | _ =>
           let file := file ++ buf ++ take avail p in
           let p := drop avail p in
           if decide (length p ≤ buffer_size)%nat then (file, p) else (file ++ p, [])
       end.
Definition buf_write_byte (fb : bytes * bytes) (c : byte) : bytes * bytes :=
  let '(file, buf) := fb in
  if decide (length buf < buffer_size)%nat then (file, buf ++ [c]) else (file ++ buf, [c]).
Definition buf_flush (fb : bytes * bytes) : bytes := fb.1 ++ fb.2.

(** [Write]: the bytes of the file at the end, and the result; [closed] tells
    whether the input closed or the context ended.  A record that cannot be
    serialized ends the sink without a flush.  [old] is what the file holds before,
    [open_err] the error of opening it; writes to an open file succeed. *)
Fixpoint sink_loop (f : Record_ → result bytes) (fb : bytes * bytes) (rs : list Record_) (closed : bool) : bytes * result unit :=
  match rs with
  | [] => (buf_flush fb, if closed then Ok tt else Err (bs "context canceled"))
  | r :: rs =>
      match f r with
      | Ok b => sink_loop f (buf_write_byte (buf_write fb b) newline) rs closed
      | Err e => (fb.1, Err (bs "file sink: serialize: " ++ e))
      | Panic e => (fb.1, Panic e)
      end
  end.
Definition file_Write (k : FileSink) (old : bytes) (open_err : option bytes) (rs : list Record_) (closed : bool) : bytes * result unit :=
  match open_err with
  | Some e => (old, Err (bs "file sink: open " ++ fk_path k ++ bs ": " ++ e))
  | None => sink_loop (default raw_serializer (fk_serializer k)) (if fk_append k then old else [], []) rs closed
  end.

(** ** Fixed lists *)

(** [SliceSource.Run], [GeneratorSource.Run]: what is sent before the context
    ends after [sent] sends. *)
Definition slice_Run (records : list Record_) (sent : option nat) : list Record_ * result unit :=
  match sent with
  | Some n => if decide (n < length records)%nat then (take n records, Err (bs "context canceled")) else (records, Ok tt)
  | None => (records, Ok tt)
  end.

(** [FromSlices]; the clock is [now]. *)
Definition FromSlices (now : nat → time) (keys values : list bytes) : result (list Record_) :=
  if decide (length keys = length values) then
    Ok (imap (λ i kv, mkRecord kv.1 kv.2 (now i) (Z.of_nat i) 0 [] ∅ false false []) (zip keys values))
  else Panic (bs "source.FromSlices: keys and values length mismatch").

(** ** What is written is read back *)

Lemma buf_write_bytes fb p : buf_flush (buf_write fb p) = buf_flush fb ++ p.
Proof.
  destruct fb as [file buf]. unfold buf_write, buf_flush. case_decide; cbn [fst snd]; [by rewrite app_assoc|].
  destruct buf as [|c buf]; cbn [fst snd]; [by rewrite !app_nil_r|]. case_decide; cbn [fst snd]; rewrite ?app_nil_r, <- !app_assoc; do 2 f_equal;
    apply take_drop.
Qed.
Lemma buf_write_byte_bytes fb c : buf_flush (buf_write_byte fb c) = buf_flush fb ++ [c].
Proof. destruct fb as [file buf]. unfold buf_write_byte, buf_flush. case_decide; cbn [fst snd]; by rewrite ?app_assoc. Qed.

(** The text of a list of lines. *)
Definition text_of (ls : list bytes) : bytes := ls ≫= λ l, l ++ [newline].

Lemma sink_loop_text f rs ls fb closed : Forall2 (λ r l, f r = Ok l) rs ls →
  sink_loop f fb rs closed = (buf_flush fb ++ text_of ls, if closed then Ok tt else Err (bs "context canceled")).
Proof.
  intros H. revert fb. induction H as [|r l rs ls Hf _ IH]; intros fb; cbn [sink_loop text_of mbind list_bind]; [by rewrite app_nil_r|].
  rewrite Hf, IH, buf_write_byte_bytes, buf_write_bytes. fold (text_of ls). by rewrite <- !app_assoc.
Qed.

(** A line that survives the scanner. *)
Definition clean_line (limit : Z) (l : bytes) : Prop := newline ∉ l ∧ last l ≠ Some x0d ∧ Z.of_nat (length l) < limit.

Lemma cut_line_text l rest : newline ∉ l → cut_line (l ++ newline :: rest) = Some (l, rest).
Proof.
  induction l as [|c l IH]; intros Hn; cbn [app cut_line]; [by rewrite decide_True|].
  apply not_elem_of_cons in Hn as [Hc Hn]. rewrite decide_False by done. by rewrite IH.
Qed.
Lemma drop_cr_clean l : last l ≠ Some x0d → drop_cr l = l.
Proof. unfold drop_cr. destruct (last l) as [c|]; [|done]. intros H. rewrite decide_False; [done|]. congruence. Qed.

Lemma scan_text limit ls : Forall (clean_line limit) ls → ∀ fuel, (length (text_of ls) < fuel)%nat → scan fuel limit (text_of ls) = (ls, true).
Proof.
  induction 1 as [|l ls (Hn & Hc & Hl) _ IH]; intros fuel Hf; [by destruct fuel|]. cbn [text_of mbind list_bind] in *. fold (text_of ls) in *.
  rewrite <- app_assoc in *. cbn [app] in *. rewrite length_app in Hf. cbn [length] in Hf. destruct fuel as [|fuel]; [lia|].
  destruct (l ++ newline :: text_of ls) as [|c s] eqn:E; [by destruct l|]. cbn [scan]. rewrite <- E, cut_line_text by done.
  destruct (Z.ltb_spec (Z.of_nat (length l)) limit); [|lia]. rewrite IH by lia. by rewrite drop_cr_clean.
Qed.

Section resume.
Context {P : Type} `{!PositionJSON}.
Implicit Types (s : FileSource P).

(** The records of lines from a line number on. *)
Fixpoint line_records s (line : Z) (ls : list bytes) (ps : list (option P)) : list (Record_ * option P) :=
  match ls, ps with
  | l :: ls, p :: ps => (line_record s line l, p) :: line_records s (line + 1) ls ps
  | _, _ => []
  end.

Lemma line_records_set s n line ls ps : line_records (set_nextLine s n) line ls ps = line_records s line ls ps.
Proof. revert line ps. induction ls as [|l ls IH]; intros line [|p ps]; cbn [line_records]; [done..|]. by rewrite IH. Qed.
Lemma line_records_app s line ls ls' ps ps' : length ls = length ps →
  line_records s line (ls ++ ls') (ps ++ ps') = line_records s line ls ps ++ line_records s (line + Z.of_nat (length ls)) ls' ps'.
Proof.
  revert line ps. induction ls as [|l ls IH]; intros line [|p ps] Hl; try done; cbn [app line_records length]; [by rewrite Z.add_0_r|].
  rewrite IH by (injection Hl as ->; done). do 3 f_equal. lia.
Qed.

Lemma file_loop_skip s start pre ls sent : ∀ line, line + Z.of_nat (length pre) ≤ start →
  file_loop s start line (pre ++ ls) sent = file_loop s start (line + Z.of_nat (length pre)) ls sent.
Proof.
  induction pre as [|l pre IH]; intros line Hl; cbn [app length file_loop] in *; [by rewrite Z.add_0_r|].
  destruct (Z.ltb_spec line start); [|lia]. rewrite IH by lia. f_equal. lia.
Qed.

(** How many lines go out. *)
Definition sends (sent : option nat) (n : nat) : nat := match sent with None => n | Some k => Nat.min k n end.

Lemma file_loop_from start ls : ∀ ps s line sent, start ≤ line → Forall2 (λ l p, parse_line s l = Ok p) ls ps → nextLine s = line →
  file_loop s start line ls sent
  = (set_nextLine s (line + Z.of_nat (sends sent (length ls))), take (sends sent (length ls)) (line_records s line ls ps),
     if decide (sends sent (length ls) < length ls)%nat then Some (Err (bs "context canceled")) else None).
Proof.
  induction ls as [|l ls IH]; intros ps s line sent Hs Hp Hn.
  - apply Forall2_nil_inv_l in Hp as ->. cbn [file_loop line_records length]. rewrite take_nil, decide_False by lia.
    replace (sends sent 0) with 0%nat by (destruct sent; cbn; lia). rewrite Z.add_0_r, <- Hn. by destruct s.
  - apply Forall2_cons_inv_l in Hp as (p & ps' & Hl & Hp & ->). cbn [file_loop length line_records]. destruct (Z.ltb_spec line start); [lia|]. rewrite Hl.
    destruct sent as [[|n]|].
    + cbn [sends Nat.min take]. rewrite decide_True, Z.add_0_r, <- Hn by lia. by destruct s.
    + rewrite (IH ps') by (done || lia). cbn [sends fmap option_fmap option_map Nat.pred Nat.min]. rewrite line_records_set. cbn [take].
      replace (line + 1 + Z.of_nat (n `min` length ls)) with (line + Z.of_nat (S (n `min` length ls))) by lia.
      do 2 f_equal. by apply decide_ext; lia.
    + rewrite (IH ps') by (done || lia). cbn [sends fmap option_fmap option_map]. rewrite line_records_set. cbn [take].
      replace (line + 1 + Z.of_nat (length ls)) with (line + Z.of_nat (S (length ls))) by lia. do 2 f_equal. by apply decide_ext; lia.
Qed.

Lemma length_line_records s ls ps : ∀ line, length ls = length ps → length (line_records s line ls ps) = length ls.
Proof. revert ps. induction ls as [|l ls IH]; intros [|p ps] line Hl; try done. cbn. f_equal. apply IH. by injection Hl. Qed.

Lemma drop_line_records s ls ps line m : length ls = length ps → (m ≤ length ls)%nat →
  drop m (line_records s line ls ps) = line_records s (line + Z.of_nat m) (drop m ls) (drop m ps).
Proof.
  intros Hl Hm. rewrite <- (take_drop m ls) at 1. rewrite <- (take_drop m ps) at 1.
  rewrite line_records_app by (rewrite !length_take; lia). rewrite drop_app_length'; [by rewrite length_take_le|].
  rewrite length_line_records by (rewrite !length_take; lia). by rewrite length_take_le.
Qed.

(** Records written by the file sink as clean lines, read by a file
    source that stops anywhere and resumes from its checkpoint, come back
    once each and in order. *)
Theorem file_written_read_once (k : FileSink) s old rs ls ps n :
  fk_append k = false → Forall2 (λ r l, default raw_serializer (fk_serializer k) r = Ok l) rs ls →
  nextLine s = 0 → text_ok (f_sourceName s) → f_sourceName s ≠ [] →
  Forall (clean_line (scan_limit (f_maxLine s))) ls → Forall2 (λ l p, parse_line s l = Ok p) ls ps →
  let file := (file_Write k old None rs true).1 in
  let '(s1, o1, _) := file_Run s (Ok file) (Some n) in
  ∃ s2, file_RestoreOffset s (file_CheckpointOffset s1) = Ok s2
    ∧ let '(s3, o2, r2) := file_Run s2 (Ok file) None in
      r2 = Ok tt ∧ o1 ++ o2 = line_records s 0 ls ps.
Proof.
  intros Ha Hr Hn Ht Hne Hc Hp file. unfold file, file_Write. rewrite (sink_loop_text _ _ ls), Ha by done. cbn [fst buf_flush snd app]. clear file.
  assert (∀ s', f_maxLine s' = f_maxLine s → scan_lines (f_maxLine s') (text_of ls) = (ls, true)) as Hscan
    by (intros s' ->; apply scan_text; [done|lia]).
  unfold file_Run. rewrite Hscan by done. rewrite Hn, (file_loop_from 0 ls ps) by done.
  set (m := sends (Some n) (length ls)). assert (m ≤ length ls)%nat as Hm by (unfold m; cbn; lia).
  set (s1 := set_nextLine s (0 + Z.of_nat m)).
  exists (set_nextLine s (Z.of_nat m)). split.
  - unfold file_RestoreOffset, file_CheckpointOffset. cbn [f_sourceName set_nextLine nextLine s1]. rewrite DecodePositions_Encode.
    + cbn [rbind merge_sort]. cbn. rewrite decide_False; [done|]. cbn. by intros [?|?].
    + apply Forall_cons_2; [|apply Forall_nil_2]. split_and!; [done|done|done|cbn; lia].
    + cbn. apply NoDup_singleton.
  - change (f_maxLine (set_nextLine s (Z.of_nat m))) with (f_maxLine s). rewrite Hscan by done. cbn [nextLine set_nextLine].
    pose proof (Forall2_length _ _ _ Hp) as Hl.
    assert (file_loop (set_nextLine s (Z.of_nat m)) (Z.of_nat m) 0 ls None
      = (set_nextLine s (Z.of_nat (length ls)), line_records s (Z.of_nat m) (drop m ls) (drop m ps), None)) as ->.
    { rewrite <- (take_drop m ls) at 1. rewrite file_loop_skip by (rewrite length_take; lia).
      replace (0 + Z.of_nat (length (take m ls))) with (Z.of_nat m) by (rewrite length_take; lia).
      rewrite (file_loop_from _ (drop m ls) (drop m ps)); [|lia|by apply Forall2_drop|done].
      cbn [sends]. rewrite decide_False, line_records_set, take_ge by (rewrite ?length_line_records, ?length_drop; rewrite ?length_drop; lia).
      rewrite length_drop. do 2 f_equal. unfold set_nextLine. cbn. f_equal. lia. }
    split; [done|]. pose proof (drop_line_records s ls ps 0 m) as Hd. rewrite Z.add_0_l in Hd. rewrite <- Hd by lia. apply take_drop.
Qed.
End resume.

#[local] Existing Instance demo_json.

(** Three lines are written, the source stops after one and resumes. *)
Lemma file_written_read_once_witness :
  let k := mkFileSink (bs "out") false (Some raw_serializer) in
  let s := mkFileSource (bs "out") (bs "out") defaultFileScannerBuffer (None : option (bytes → result unit)) 0 in
  let rs := (λ v, mkRecord [] v zeroTime 0 0 [] ∅ false false []) <$> [bs "a"; bs ""; bs "b,c"] in
  let file := (file_Write k (bs "old") None rs true).1 in
  let '(s1, o1, _) := file_Run s (Ok file) (Some 1%nat) in
  ∃ s2, file_RestoreOffset s (file_CheckpointOffset s1) = Ok s2
    ∧ let '(s3, o2, r2) := file_Run s2 (Ok file) None in
      r2 = Ok tt ∧ o1 ++ o2 = line_records s 0 [bs "a"; bs ""; bs "b,c"] [None; None; None].
Proof.
  apply (file_written_read_once _ _ (bs "old") _ [bs "a"; bs ""; bs "b,c"] [None; None; None] 1).
  - reflexivity.
  - repeat constructor.
  - reflexivity.
  - vm_compute. repeat constructor.
  - discriminate.
  - unfold clean_line. repeat constructor; try (vm_compute; reflexivity); try (vm_compute; congruence); apply (bool_decide_unpack _); vm_compute; exact I.
  - repeat constructor.
Defined.
