(* ===== verification/Stages.v ===== *)
(** * The ends of a pipeline ([src/pipeline/stage.go])

    [SourceStage] runs the source, flushes its offsets and forwards its records.
    [SinkStage] hands the stream to the sink through a bounded channel, keeps
    markers away from sinks that do not coordinate checkpoints, and reports a
    barrier only when the sink has taken everything ahead of it.

    The sink stage is a step relation: one constructor per communication of its
    loop or of the goroutine that runs the sink, interleaved freely.  The input
    is what the stage before will ever send; when a record becomes available is
    unconstrained, since a receive may be delayed at will.  When and how the
    sink's [Write] returns is the environment's choice. *)

From S2P Require Import Prelude Record Rfc3339 Decimal Merge.

(** ** Errors *)

(** A Go error: its text, and whether it is [context.Canceled]. *)
Record gerr := mkGerr { e_text : bytes; e_canceled : bool }.
Definition wrap_err (prefix : bytes) (e : gerr) : gerr := mkGerr (prefix ++ e_text e) (e_canceled e).
Definition hard_err : gerr := mkGerr (bs "context canceled") true.

(** ** The source stage *)

(** What happens at its loop: a record comes and is sent or not, the pipeline is
    torn down, or the source has closed its channel. *)
Inductive source_event :=
| SeRecord (r : Record_) (sent : bool)
| SeHard
| SeClosed.

(** What the goroutine of the source reports: the error of [Run], or that of the
    drain when there is none. *)
Definition source_done (runErr : option gerr) (drain : option (option gerr)) : option gerr :=
  match runErr, drain with
  | None, Some (Some e) => Some (wrap_err (bs "source drain: ") e)
  | err, _ => err
  end.

(** [SourceStage.Run]; [ctxDone] tells whether the caller's context had ended. *)
Fixpoint source_Run (fin : option gerr) (ctxDone : bool) (evs : list source_event) : list Record_ * option (option gerr) :=
  match evs with
  | [] => ([], None)
  | SeRecord r true :: evs => let '(o, ret) := source_Run fin ctxDone evs in (r :: o, ret)
  | SeRecord _ false :: _ | SeHard :: _ => ([], Some (Some hard_err))
  | SeClosed :: _ =>
      ([], Some match fin with
                | Some e => if ctxDone && e_canceled e then None else Some (wrap_err (bs "source: ") e)
                | None => None
                end)
  end.

(** ** The channel stage *)

(** What an operator's goroutine ends with: [ProcessE] or [Process], a panic
    caught by [runOperator]. *)
Definition runOperator (name : bytes) (ran : result unit) : option gerr :=
  match ran with
  | Ok _ => None
  | Err e => Some (mkGerr e false)
  | Panic e => Some (mkGerr (bs "operator " ++ name ++ bs " panicked: " ++ e) false)
  end.

(** The loop of [ChannelStage.Run]: a record of the operator is sent on or not;
    the pipeline is torn down, with the operator's report waiting or not; the
    operator has closed its output. *)
Inductive channel_event :=
| CeRecord (r : Record_) (sent : bool)
| CeHard (reported : bool)
| CeClosed.

(** [ChannelStage.Run] *)
Fixpoint channel_Run (stage : bytes) (opErr : option gerr) (evs : list channel_event) : list Record_ * option (option gerr) :=
  match evs with
  | [] => ([], None)
  | CeRecord r true :: evs => let '(o, ret) := channel_Run stage opErr evs in (r :: o, ret)
  | CeRecord _ false :: _ => ([], Some (Some hard_err))
  | CeHard reported :: _ => ([], Some (match opErr with Some e => if reported then Some e else Some hard_err | None => Some hard_err end))
  | CeClosed :: _ => ([], Some (wrap_err (bs "stage " ++ stage ++ bs ": ") <$> opErr))
  end.

(** ** The sink stage *)

(** [SinkStage]: is [OnBarrier] set, and is the sink a [CheckpointedSink]? *)
Record SinkStage := mkSinkStage { ss_hook : bool; ss_coordinated : bool }.

(** Where the loop is: at the receive, waiting for the sink before it reports a
    barrier, at the send, waiting for the sink to return, or done. *)
Inductive sink_loc :=
| AtReceive
| AtBarrier (r : Record_)
| AtSend (r : Record_)
| AtClose
| Returned (e : option gerr).

Record sink_state := mkSinkState {
  sk_in : list Record_;                    (* what is still to come *)
  sk_loc : sink_loc;
  sk_pumping : bool;
  sk_pumped : list Record_;                (* the channel [pumped] *)
  sk_taken : list Record_;                 (* what [Write] has received *)
  sk_done : option (option gerr);          (* the result of [Write] *)
  sk_hard : bool;                          (* [hardCtx] has ended *)
  sk_saved : list (bytes * list Record_)   (* calls of [OnBarrier], with what was taken by then *)
}.

Definition sink_init (input : list Record_) : sink_state := mkSinkState input AtReceive true [] [] None false [].

Section sink_stage.
Context (s : SinkStage).

(** Markers that the sink must not see. *)
Definition hidden (r : Record_) : bool := IsWatermark r || (IsBarrier r && negb (ss_coordinated s)).

(** Where the loop goes with a record once a barrier is reported. *)
Definition after_hook (r : Record_) : sink_loc := if hidden r then AtReceive else AtSend r.

(** Where it goes with a record it received. *)
Definition on_receive (r : Record_) : sink_loc := if IsBarrier r && ss_hook s then AtBarrier r else after_hook r.

Inductive sink_step : sink_state → sink_state → Prop :=
(** [for r := range in], while pumping and after it *)
| sink_receive r rs q t d h k :
    sink_step (mkSinkState (r :: rs) AtReceive true q t d h k) (mkSinkState rs (on_receive r) true q t d h k)
| sink_discard r rs q t d h k :
    sink_step (mkSinkState (r :: rs) AtReceive false q t d h k) (mkSinkState rs AtReceive false q t d h k)
(** the wait before [OnBarrier]: the channel is empty, the sink returned, or the
    pipeline is torn down *)
| sink_report r rs t d h k :
    sink_step (mkSinkState rs (AtBarrier r) true [] t d h k) (mkSinkState rs (after_hook r) true [] t d h (k ++ [(CheckpointID r, t)]))
| sink_barrier_done r rs q t e h k : q ≠ [] →
    sink_step (mkSinkState rs (AtBarrier r) true q t (Some e) h k) (mkSinkState rs (Returned e) true q t (Some e) h k)
| sink_barrier_hard r rs q t d k : q ≠ [] →
    sink_step (mkSinkState rs (AtBarrier r) true q t d true k) (mkSinkState rs AtReceive false q t d true k)
(** the send *)
| sink_send r rs q t d h k : (length q < internalBuf)%nat →
    sink_step (mkSinkState rs (AtSend r) true q t d h k) (mkSinkState rs AtReceive true (q ++ [r]) t d h k)
| sink_send_done r rs q t e h k :
    sink_step (mkSinkState rs (AtSend r) true q t (Some e) h k) (mkSinkState rs (Returned e) true q t (Some e) h k)
| sink_send_hard r rs q t d k :
    sink_step (mkSinkState rs (AtSend r) true q t d true k) (mkSinkState rs AtReceive false q t d true k)
(** the input closed *)
| sink_closed p q t d h k :
    sink_step (mkSinkState [] AtReceive p q t d h k) (mkSinkState [] AtClose p q t d h k)
| sink_return rs p q t e h k :
    sink_step (mkSinkState rs AtClose p q t (Some e) h k) (mkSinkState rs (Returned e) p q t (Some e) h k)
(** the goroutine of the sink *)
| sink_take rs l p r q t h k :
    sink_step (mkSinkState rs l p (r :: q) t None h k) (mkSinkState rs l p q (t ++ [r]) None h k)
| sink_write_returns rs l p q t h k e :
    sink_step (mkSinkState rs l p q t None h k) (mkSinkState rs l p q t (Some e) h k)
(** the pipeline is torn down *)
| sink_tear_down rs l p q t d k :
    sink_step (mkSinkState rs l p q t d false k) (mkSinkState rs l p q t d true k).

(** ** What the sink gets, and when barriers are reported *)

(** What of a stream the sink sees. *)
Definition visible (l : list Record_) : list Record_ := filter (λ r, hidden r = false) l.

(** What of the input is in the hands of the loop. *)
Definition at_hand (l : sink_loc) : list Record_ := match l with AtBarrier r | AtSend r => [r] | _ => [] end.

Definition returned (l : sink_loc) : Prop := match l with Returned _ => True | _ => False end.

(** While it pumps, the sink has taken or will find in the channel exactly what
    it may see of the input so far; a report was made when the sink had taken
    all it may see of the input before that barrier. *)
Record pumps (input : list Record_) (st : sink_state) : Prop := {
  pu_taken : sk_taken st ++ sk_pumped st `prefix_of` visible input;
  pu_seen : sk_pumping st = true → ¬ returned (sk_loc st) →
    ∃ seen, input = seen ++ at_hand (sk_loc st) ++ sk_in st ∧ sk_taken st ++ sk_pumped st = visible seen;
  pu_hand : match sk_loc st with AtBarrier r => IsBarrier r = true | AtSend r => hidden r = false | _ => True end;
  pu_saved : ∀ id t, (id, t) ∈ sk_saved st →
    ∃ pre r post, input = pre ++ r :: post ∧ IsBarrier r = true ∧ CheckpointID r = id ∧ t = visible pre;
  pu_kept : ∀ id t, (id, t) ∈ sk_saved st → t `prefix_of` sk_taken st
}.

Lemma visible_app l l' : visible (l ++ l') = visible l ++ visible l'.
Proof. apply filter_app. Qed.
Lemma visible_hidden r : hidden r = true → visible [r] = [].
Proof. intros H. unfold visible. rewrite filter_cons_False by congruence. done. Qed.
Lemma visible_shown r : hidden r = false → visible [r] = [r].
Proof. intros H. unfold visible. by rewrite filter_cons_True. Qed.

Lemma pumps_init input : pumps input (sink_init input).
Proof. split; [apply prefix_nil|intros _ _; by exists []|done|..]; intros id t Hin; by apply elem_of_nil in Hin. Qed.

(** The record at hand goes where the sink does not see it, or to the send. *)
Lemma after_hook_pumps input seen r rs q t d h k : input = seen ++ r :: rs → t ++ q = visible seen →
  (∀ id u, (id, u) ∈ k → ∃ pre r post, input = pre ++ r :: post ∧ IsBarrier r = true ∧ CheckpointID r = id ∧ u = visible pre) →
  (∀ id u, (id, u) ∈ k → u `prefix_of` t) →
  pumps input (mkSinkState rs (after_hook r) true q t d h k).
Proof.
  intros -> Hq Hk Hp. unfold after_hook. destruct (hidden r) eqn:Hr; split; cbn; try done.
  - rewrite Hq, visible_app. by apply prefix_app_r.
  - intros _ _. exists (seen ++ [r]). by rewrite <- app_assoc, visible_app, visible_hidden, app_nil_r.
  - rewrite Hq, visible_app. by apply prefix_app_r.
  - intros _ _. by exists seen.
Qed.

Lemma pumps_step input st st' : sink_step st st' → pumps input st → pumps input st'.
Proof.
  intros Hs [Ht Hn Hh Hk Hp]. destruct Hs; cbn in Ht, Hn, Hh, Hk, Hp.
  - destruct Hn as (seen & Ei & Eq); [done|by intros []|]. unfold on_receive. destruct (IsBarrier r && ss_hook s) eqn:Eb;
      [|by eapply after_hook_pumps]. apply andb_true_iff in Eb as [Eb _]. split; cbn; [done| |done|done|done]. intros _ _. by exists seen.
  - by split.
  - destruct Hn as (seen & Ei & Eq); [done|by intros []|]. cbn in Ei. rewrite app_nil_r in Eq.
    apply (after_hook_pumps input seen); [done|by rewrite app_nil_r|..]; intros id u [Hin|Hin]%elem_of_app;
      [by apply Hk| |by eapply Hp|]; apply list_elem_of_singleton in Hin as [= -> ->]; [by exists seen, r, rs|done].
  - split; cbn; [done|by intros _ []|done..].
  - split; cbn; done.
  - destruct Hn as (seen & Ei & Eq); [done|by intros []|]. cbn in Ei.
    assert (t ++ q ++ [r] = visible (seen ++ [r])) as E by (by rewrite visible_app, visible_shown, app_assoc, Eq).
    split; cbn; [|intros _ _; exists (seen ++ [r]); by rewrite <- app_assoc|done..].
    rewrite E, Ei, (cons_middle r seen rs), app_assoc, (visible_app (seen ++ [r])). by apply prefix_app_r.
  - split; cbn; [done|by intros _ []|done..].
  - split; cbn; done.
  - split; cbn; [done|by intros; apply Hn|done..].
  - split; cbn; [done|by intros _ []|done..].
  - split; cbn; rewrite <- ?app_assoc; try done. intros id u Hin. apply prefix_app_r. by eapply Hp.
  - by split.
  - by split.
Qed.

Lemma pumps_reachable input st : rtc sink_step (sink_init input) st → pumps input st.
Proof.
  intros H. assert (∀ st0, rtc sink_step st0 st → pumps input st0 → pumps input st) as Hr.
  { clear H. intros st0 H. induction H; eauto using pumps_step. }
  by eapply Hr; [|apply pumps_init].
Qed.
End sink_stage.
