(* ===== verification/Engine.v ===== *)
(** * Running a job ([src/engine.go])

    What [Execute] checks before it starts a pipeline, how it finds the checkpoint
    to resume from, how a checkpoint of the uncoordinated mode is put together
    and saved when the sink stage reports a barrier, and which error a run ends
    with.  The stages themselves are in [Stages], [Parallel] and the operators'
    files, barrier injection is in [Injector], the collection and restore of
    operator state in [Snapshots], the coordinator in [Coordinator].

    A source is the list of its wrapper layers, outermost first, each with the
    optional interfaces it implements; the empty list is a nil source. *)

From S2P Require Import Prelude Record Rfc3339 Decimal Storage Coordinator Injector Snapshots Stages.

(** ** Capabilities ([src/source/source.go], [src/sink/sink.go]) *)

Record Capabilities := mkCaps {
  c_CheckpointOffsets : bool;
  c_PositionedCheckpoints : bool;
  c_Drain : bool;
  c_CommitOffsets : bool;
  c_OperationalState : bool;
  c_Describe : bool
}.

(** [CheckpointSource]: what its two methods answer. *)
Record CheckpointSource := mkCheckpointSource {
  cs_CheckpointOffset : result bytes;
  cs_RestoreOffset : bytes → option bytes
}.

(** The optional interfaces of one layer. *)
Record layer := mkLayer {
  l_caps : option Capabilities;
  l_checkpoint : option CheckpointSource;
  l_positioned : option (Record_ → PositionKey);
  l_drain : bool;
  l_commit : bool;
  l_state : bool;
  l_describe : bool
}.

(** [As]: the first layer that implements an interface. *)
Fixpoint As {A} (f : layer → option A) (src : list layer) : option A :=
  match src with
  | [] => None
  | l :: src => match f l with Some x => Some x | None => As f src end
  end.
Definition implements (f : layer → bool) (src : list layer) : bool := bool_decide (is_Some (As (λ l, if f l then Some tt else None) src)).

(** [CapabilitiesOf] of a source *)
Definition CapabilitiesOf (src : list layer) : Capabilities :=
  let c := default (mkCaps false false false false false false) (As l_caps src) in
  mkCaps (c_CheckpointOffsets c || bool_decide (is_Some (As l_checkpoint src)))
    (c_PositionedCheckpoints c || bool_decide (is_Some (As l_positioned src)))
    (c_Drain c || implements l_drain src) (c_CommitOffsets c || implements l_commit src)
    (c_OperationalState c || implements l_state src) (c_Describe c || implements l_describe src).

(** A sink: the coordination it declares, and whether it is a [CheckpointedSink]. *)
Record sink_obj := mkSinkObj { so_declared : option bool; so_checkpointed : bool }.
Definition sink_coordinates (k : sink_obj) : bool := default false (so_declared k) || so_checkpointed k.

(** ** The environment *)

Record job_join := mkJobJoin { jj_left : list layer; jj_right : list layer; jj_valid : option bytes }.

Record job_env := mkJobEnv {
  je_source : list layer;
  je_sink : option sink_obj;
  je_join : option job_join;
  je_interval : duration;
  je_storage : bool
}.

(** The checks of [Execute] before anything is restored; the result tells whether
    the run is coordinated. *)
Definition execute_checks (e : job_env) : result bool :=
  match je_source e, je_sink e with
  | [], _ => Err (bs "weibo: no source configured, use FromSource()")
  | _, None => Err (bs "weibo: no sink configured, use ToSink()")
  | src, Some k =>
      if sink_coordinates k then
        if negb (so_checkpointed k) then Err (bs "weibo: sink declares coordinated checkpoints but does not implement sink.CheckpointedSink")
        else if negb (je_storage e) || (je_interval e <=? 0) then Err (bs "weibo: a CheckpointedSink requires WithCheckpointing(interval, storage)")
        else if negb (c_CheckpointOffsets (CapabilitiesOf src)) then
          Err (bs "weibo: exactly-once requires a source with CheckpointOffsets capability (source.CheckpointSource)")
        else match As l_checkpoint src with
             | None => Err (bs "weibo: source declares CheckpointOffsets but does not implement source.CheckpointSource")
             | Some _ => Ok true
             end
      else Ok (so_checkpointed k)
  end.

(** The checks of [executeNativeJoin]. *)
Definition join_checks (e : job_env) (j : job_join) : result unit :=
  match jj_left j, jj_right j, je_sink e with
  | [], _, _ | _, [], _ => Err (bs "weibo: join requires both sources")
  | _, _, None => Err (bs "weibo: no sink configured, use ToSink()")
  | _, _, Some k =>
      match jj_valid j with
      | Some err => Err err
      | None =>
          if sink_coordinates k then Err (bs "weibo: native two-source joins do not yet support coordinated transactional sinks")
          else Ok tt
      end
  end.

(** The recovery of [Execute]: what is restored, and the storage actions. *)
Definition execute_recover (retain : Z) (wasCommitted : bytes → option bool) (storage : option disk) (coordinated : bool)
    : result (option CheckpointData * list wact) :=
  match storage with
  | None => Ok (None, [])
  | Some d =>
      if coordinated then
        match resolveCoordinatedRecovery retain wasCommitted d with
        | Err err => Err (bs "weibo: recovery: " ++ err)
        | r => r
        end
      else let '(x, acts) := Load d in Ok (x, WDisk <$> acts)
  end.

(** [restoreSourceOffset]: the bytes the source is told to seek to, if any, and the
    error that is only logged. *)
Definition restoreSourceOffset (src : list layer) (data : CheckpointData) : option (bytes * option bytes) :=
  cps ← As l_checkpoint src;
  offsets ← Storage.Source data !! bs "offset";
  Some (offsets, cs_RestoreOffset cps offsets).

Definition nativeJoinLeftOffsetKey : bytes := bs "join:left".
Definition nativeJoinRightOffsetKey : bytes := bs "join:right".

(** [restoreNativeJoinSourceOffsets] *)
Definition restore_side (src : list layer) (data : CheckpointData) (key : bytes) : option (bytes * option bytes) :=
  cps ← As l_checkpoint src;
  offsets ← Storage.Source data !! key;
  Some (offsets, cs_RestoreOffset cps offsets).
Definition restoreNativeJoinSourceOffsets (j : job_join) (data : CheckpointData) : option (bytes * option bytes) * option (bytes * option bytes) :=
  (restore_side (jj_left j) data nativeJoinLeftOffsetKey, restore_side (jj_right j) data nativeJoinRightOffsetKey).

(** ** Checkpoint reports *)

Record CheckpointReport := mkReport { rp_ID : bytes; rp_Duration : duration; rp_InlineBytes : Z }.
Record checkpointMeta := mkMeta { startedAt : time; inlineBytes : Z; haveBytes : bool }.
Definition zeroMeta : checkpointMeta := mkMeta zeroTime 0 false.

(** [noteCheckpointStart]; [stale] is the first other checkpoint the iteration
    meets. *)
Definition noteCheckpointStart (stale : gmap bytes checkpointMeta → bytes → option bytes) (m : gmap bytes checkpointMeta) (id : bytes) (now : time)
    : gmap bytes checkpointMeta :=
  let m := if (16 <? size m)%nat then match stale m id with Some old => delete old m | None => m end else m in
  let x := default zeroMeta (m !! id) in
  <[id := mkMeta now (inlineBytes x) (haveBytes x)]> m.

(** [addCheckpointBytes] *)
Definition addCheckpointBytes (m : gmap bytes checkpointMeta) (id : bytes) (n : Z) : gmap bytes checkpointMeta :=
  let x := default zeroMeta (m !! id) in
  <[id := mkMeta (startedAt x) (i64_add (inlineBytes x) n) true]> m.

(** [snapBytes] *)
Definition snapBytes (snaps : gmap bytes snap) : Z :=
  foldl (λ n kv, i64_add n (Z.of_nat (length (default [] kv.2)))) 0 (map_to_list snaps).

(** [notifyCheckpoint]: the report the observers get, if there are any. *)
Definition notifyCheckpoint (observed : bool) (m : gmap bytes checkpointMeta) (id : bytes) (now : time)
    : gmap bytes checkpointMeta * option CheckpointReport :=
  (delete id m,
   if observed then
     let x := default zeroMeta (m !! id) in
     Some (mkReport id (if IsZero (startedAt x) then 0 else now - startedAt x) (if haveBytes x then inlineBytes x else 0))
   else None).

(** ** Saving a checkpoint *)

Section save.
Context (state_ref : bytes → option bytes) (mk_ref : bytes → bytes).

(** The source positions of a checkpoint: those registered with its barrier, or
    the live position. *)
Definition source_entry (src : list layer) (g : engine) (id : bytes) : gmap bytes bytes * engine :=
  match As l_checkpoint src with
  | None => (∅, g)
  | Some cps =>
      let '(aligned, g') := takeAlignedOffsets g id in
      match aligned with
      | Some data => ({[bs "offset" := data]}, g')
      | None => (match cs_CheckpointOffset cps with Ok data => {[bs "offset" := data]} | _ => ∅ end, g)
      end
  end.

(** [addNativeJoinSourceOffsets] *)
Definition add_side (src : list layer) (key : bytes) (m : gmap bytes bytes) : gmap bytes bytes :=
  match As l_checkpoint src with
  | Some cps => match cs_CheckpointOffset cps with Ok data => <[key := data]> m | _ => m end
  | None => m
  end.
Definition addNativeJoinSourceOffsets (j : option job_join) (m : gmap bytes bytes) : gmap bytes bytes :=
  match j with
  | None => m
  | Some j => add_side (jj_right j) nativeJoinRightOffsetKey (add_side (jj_left j) nativeJoinLeftOffsetKey m)
  end.

(** The state a checkpoint is put together from. *)
Record save_env := mkSaveEnv {
  sv_engine : engine;
  sv_snaps : gmap bytes (gmap bytes snap);
  sv_meta : gmap bytes checkpointMeta
}.

(** The record [saveCheckpoint] builds. *)
Definition checkpoint_record (e : job_env) (join_op : option operator) (ops workers : list operator) (v : save_env) (id : bytes) (now : time)
    : CheckpointData :=
  let '(snaps, dirs, _) := collectSnapshots state_ref mk_ref (sv_snaps v) id join_op ops workers in
  mkCheckpoint id now (default [] <$> snaps) (addNativeJoinSourceOffsets (je_join e) (source_entry (je_source e) (sv_engine v) id).1)
    StatusCompleted [] dirs.

(** [saveCheckpoint]: the storage actions, and the report when it was saved. *)
Definition saveCheckpoint (retain : Z) (d : disk) (observed : bool) (e : job_env) (join_op : option operator) (ops workers : list operator)
    (v : save_env) (id : bytes) (now : time) : save_env * list act * option CheckpointReport :=
  let '(snaps, _, rest) := collectSnapshots state_ref mk_ref (sv_snaps v) id join_op ops workers in
  let meta := addCheckpointBytes (sv_meta v) id (snapBytes snaps) in
  let g := (source_entry (je_source e) (sv_engine v) id).2 in
  match save retain d (checkpoint_record e join_op ops workers v id now) with
  | Ok acts => let '(meta, report) := notifyCheckpoint observed meta id now in (mkSaveEnv g rest meta, acts, report)
  | _ => (mkSaveEnv g rest meta, [], None)
  end.
End save.

(** ** How a run ends *)

(** The last lines of [Execute]: the coordinator's error unless it is the
    cancellation of the run, then the first stage error that is not a
    cancellation. *)
Definition execute_result (coordErr : option gerr) (ctxDone : bool) (errs : list (option gerr)) : option gerr :=
  let first := head (filter (λ e, e_canceled e = false) (omap id errs)) in
  match coordErr with
  | Some e => if e_canceled e && ctxDone then first else Some e
  | None => first
  end.

(** The end of [executeNativeJoin]: the join operator's error, then the first
    error any source or stage reported. *)
Definition join_result (joinErr firstErr : option gerr) : option gerr :=
  match joinErr with
  | Some e => Some e
  | None => match firstErr with Some e => if e_canceled e then None else Some e | None => None end
  end.

(** The records of a join source as the join sees them ([runJoinSource]). *)
Definition tag_source (name : bytes) (r : Record_) : Record_ :=
  if decide (Record.Source r = []) then
    mkRecord (Key r) (Value r) (Record.Timestamp r) (Offset r) (Partition r) name (Headers r) (IsWatermark r) (IsBarrier r) (CheckpointID r)
  else r.
Fixpoint runJoinSource (name : bytes) (fin : option gerr) (ctxDone : bool) (evs : list source_event) : list Record_ * option (option gerr) :=
  match evs with
  | [] => ([], None)
  | SeRecord r true :: evs => let '(o, ret) := runJoinSource name fin ctxDone evs in (tag_source name r :: o, ret)
  | SeRecord _ false :: _ | SeHard :: _ => ([], Some (Some hard_err))
  | SeClosed :: _ =>
      ([], Some match fin with
                | Some e => if ctxDone && e_canceled e then None else Some (wrap_err (bs "source " ++ name ++ bs ": ") e)
                | None => None
                end)
  end.

(** [barrierDetect]: the state of a checkpoint is registered before its barrier
    goes on; [accepts] tells which sends succeed. *)
Fixpoint barrierDetect (accepts : nat → bool) (n : nat) (rs : list Record_) : list bytes * list Record_ :=
  match rs with
  | [] => ([], [])
  | r :: rs =>
      let here := if IsBarrier r then [CheckpointID r] else [] in
      if accepts n then let '(ids, o) := barrierDetect accepts (S n) rs in (here ++ ids, r :: o) else (here, [])
  end.

(** ** Wrapped sources *)

Lemma As_wrapped {A} (f : layer → option A) (w : layer) src : f w = None → As f (w :: src) = As f src.
Proof. intros H. cbn. by rewrite H. Qed.

(** A wrapper without interfaces of its own, such as the watermark source, hides
    nothing. *)
Definition bare (w : layer) : Prop :=
  l_caps w = None ∧ l_checkpoint w = None ∧ l_positioned w = None ∧ l_drain w = false ∧ l_commit w = false ∧ l_state w = false ∧ l_describe w = false.

Lemma CapabilitiesOf_wrapped w src : bare w → CapabilitiesOf (w :: src) = CapabilitiesOf src.
Proof.
  intros (H1 & H2 & H3 & H4 & H5 & H6 & H7). unfold CapabilitiesOf, implements.
  rewrite !As_wrapped by (by rewrite ?H1, ?H2, ?H3, ?H4, ?H5, ?H6, ?H7). done.
Qed.

(** A run is coordinated exactly when it can be: the sink stages its output, and
    the positions of the source can be saved and restored. *)
Theorem coordinated_runs_can_recover (e : job_env) : execute_checks e = Ok true →
  (∃ k, je_sink e = Some k ∧ so_checkpointed k = true) ∧ je_storage e = true ∧ 0 < je_interval e ∧ is_Some (As l_checkpoint (je_source e)).
Proof.
  unfold execute_checks. destruct (je_source e) as [|w src]; [done|]. destruct (je_sink e) as [k|]; [|done].
  destruct (sink_coordinates k) eqn:Ek.
  - destruct (so_checkpointed k) eqn:Ec; [|done]. cbn [negb]. destruct (je_storage e); [|done]. cbn [negb orb].
    destruct (Z.leb_spec (je_interval e) 0); [done|]. destruct (negb _); [done|]. destruct (As l_checkpoint (w :: src)); [|done].
    intros _. split_and!; eauto.
  - unfold sink_coordinates in Ek. apply orb_false_iff in Ek as [_ ->]. done.
Qed.

(** A run that reports no error ended cleanly or by cancellation in every stage. *)
Lemma execute_result_none coordErr ctxDone errs : execute_result coordErr ctxDone errs = None →
  Forall (λ e, e = None ∨ ∃ x, e = Some x ∧ e_canceled x = true) errs ∧ (∀ e, coordErr = Some e → e_canceled e = true ∧ ctxDone = true).
Proof.
  unfold execute_result. intros H. assert (head (filter (λ e, e_canceled e = false) (omap id errs)) = None) as Hh.
  { destruct coordErr as [e|]; [|done]. by destruct (e_canceled e && ctxDone). }
  split.
  - apply head_None in Hh. apply Forall_forall. intros [x|] Hin; [right|by left]. exists x. split; [done|].
    destruct (e_canceled x) eqn:Ex; [done|]. assert (x ∈ filter (λ e, e_canceled e = false) (omap id errs)) as Hx.
    { apply list_elem_of_filter. split; [done|]. apply list_elem_of_omap. by exists (Some x). }
    rewrite Hh in Hx. by apply elem_of_nil in Hx.
  - intros e ->. destruct (e_canceled e), ctxDone; done.
Qed.
