(* ===== verification/Supervisor.v ===== *)
(** * Supervision of a run ([src/engine.go], [Execute])

    The goroutines around a running pipeline: the stages with their errors, the
    goroutine that turns the end of the caller's context into a hard
    cancellation after the shutdown timeout, the watcher of the coordinator's
    fatal errors, and [Execute] itself, which waits for them and returns.

    A state is what these goroutines share and where each of them is.  The
    steps of the supervision ([own_step]) are apart from those of its
    surroundings ([outer_step]): time, the caller, the stages and the finalize
    worker. *)

From S2P Require Import Prelude Stages Engine.

(** The shutdown goroutine: at its first select, with its timer armed, ended. *)
Inductive shutdown_at := TWait | TArmed (deadline : time) | TEnd.
(** The watcher: at its select, with an error it took from the coordinator, ended. *)
Inductive watch_at := WWait | WTook (e : gerr) | WEnd.
(** [Execute]: waiting for the stages, in [Stop], waiting for the watcher, returned. *)
Inductive main_at := MRun | MStop | MWatch | MRet (res : option gerr).

(** [x_ctx] is when the caller cancelled; [x_stages] holds the result of every
    stage that returned; [x_fatal] is the coordinator's channel and [x_first]
    the first error it ever reported; [x_worker] tells that the finalize worker
    ended; [x_relay] is [coordErrCh], [x_done] the closed [pipelineDone]. *)
Record exec := mkExec {
  x_now : time; x_ctx : option time; x_hard : bool; x_stages : list (option (option gerr)); x_timer : shutdown_at;
  x_fatal : option gerr; x_first : option gerr; x_worker : bool; x_watch : watch_at; x_relay : option gerr; x_done : bool; x_main : main_at
}.

Definition stage_errs (s : exec) : list (option gerr) := omap id (x_stages s).
Definition all_returned (st : list (option (option gerr))) : bool := forallb (λ x : option (option gerr), bool_decide (is_Some x)) st.
Definition first_of {A} (x y : option A) : option A := match x with Some _ => x | None => y end.

Section supervision.
Context (timeout : duration) (coordinated : bool).

Definition exec_init (n : nat) (now : time) : exec :=
  mkExec now None false (replicate n None) TWait None None (negb coordinated) (if coordinated then WWait else WEnd) None false MRun.

(** What happens to the supervision. *)
Inductive outer_step : exec → exec → Prop :=
| o_clock now ctx hard st tm fa fi wk wa re dn mn (d : duration) : 0 ≤ d →
    outer_step (mkExec now ctx hard st tm fa fi wk wa re dn mn) (mkExec (now + d) ctx hard st tm fa fi wk wa re dn mn)
| o_cancel now hard st tm fa fi wk wa re dn mn :
    outer_step (mkExec now None hard st tm fa fi wk wa re dn mn) (mkExec now (Some now) hard st tm fa fi wk wa re dn mn)
| o_stage now ctx hard st tm fa fi wk wa re dn mn i err : st !! i = Some None →
    outer_step (mkExec now ctx hard st tm fa fi wk wa re dn mn)
      (mkExec now ctx (hard || bool_decide (is_Some err)) (<[i := Some err]> st) tm fa fi wk wa re dn mn)
| o_report now ctx hard st tm fa fi wa re dn mn e :
    outer_step (mkExec now ctx hard st tm fa fi false wa re dn mn) (mkExec now ctx hard st tm (first_of fa (Some e)) (first_of fi (Some e)) false wa re dn mn)
| o_worker now ctx hard st tm fa fi wa re dn :
    outer_step (mkExec now ctx hard st tm fa fi false wa re dn MStop) (mkExec now ctx hard st tm fa fi true wa re dn MStop).

(** What it does. *)
Inductive own_step : exec → exec → Prop :=
| t_arm now t0 hard st fa fi wk wa re dn mn :
    own_step (mkExec now (Some t0) hard st TWait fa fi wk wa re dn mn) (mkExec now (Some t0) hard st (TArmed (now + timeout)) fa fi wk wa re dn mn)
| t_fire now ctx hard st dl fa fi wk wa re dn mn : dl ≤ now →
    own_step (mkExec now ctx hard st (TArmed dl) fa fi wk wa re dn mn) (mkExec now ctx true st TEnd fa fi wk wa re dn mn)
| t_quit now ctx hard st tm fa fi wk wa re mn : tm ≠ TEnd →
    own_step (mkExec now ctx hard st tm fa fi wk wa re true mn) (mkExec now ctx hard st TEnd fa fi wk wa re true mn)
| w_take now ctx hard st tm e fi wk re dn mn :
    own_step (mkExec now ctx hard st tm (Some e) fi wk WWait re dn mn) (mkExec now ctx hard st tm None fi wk (WTook e) re dn mn)
| w_relay now ctx hard st tm fa fi wk e re dn mn :
    own_step (mkExec now ctx hard st tm fa fi wk (WTook e) re dn mn) (mkExec now ctx true st tm fa fi wk WEnd (Some e) dn mn)
| w_quit now ctx hard st tm fa fi wk re mn :
    own_step (mkExec now ctx hard st tm fa fi wk WWait re true mn) (mkExec now ctx hard st tm fa fi wk WEnd re true mn)
| m_done now ctx hard st tm fa fi wk wa re : let s := mkExec now ctx hard st tm fa fi wk wa re false MRun in all_returned st = true →
    own_step s (mkExec now ctx hard st tm fa fi wk wa re true
      (if coordinated then MStop else MRet (execute_result None (bool_decide (is_Some ctx)) (stage_errs s))))
| m_stop now ctx hard st tm fa fi wa re dn : own_step (mkExec now ctx hard st tm fa fi true wa re dn MStop) (mkExec now ctx hard st tm fa fi true wa re dn MWatch)
| m_return now ctx hard st tm fa fi wk re dn : let s := mkExec now ctx hard st tm fa fi wk WEnd re dn MWatch in
    own_step s (mkExec now ctx hard st tm fa fi wk WEnd re dn (MRet (execute_result (first_of re fa) (bool_decide (is_Some ctx)) (stage_errs s)))).

Definition exec_step (s s' : exec) : Prop := outer_step s s' ∨ own_step s s'.

(** ** Invariant *)

(** Why a hard cancellation may have happened: a failed stage, a fatal error of
    the coordinator, or a shutdown that took longer than the timeout. *)
Definition hard_reason (s : exec) : Prop :=
  (∃ e, Some (Some e) ∈ x_stages s) ∨ is_Some (x_first s) ∨ ∃ t0, x_ctx s = Some t0 ∧ t0 + timeout ≤ x_now s.

(** Where the first fatal error is. *)
Definition fatal_kept (s : exec) : Prop :=
  match x_first s with
  | None => x_fatal s = None ∧ x_relay s = None ∧ ∀ e, x_watch s ≠ WTook e
  | Some e => (x_fatal s = Some e ∧ x_relay s = None ∧ ∀ e', x_watch s ≠ WTook e')
              ∨ (x_watch s = WTook e ∧ x_relay s = None) ∨ (x_watch s = WEnd ∧ x_relay s = Some e ∧ x_hard s = true)
  end.

Definition main_fits (s : exec) : Prop :=
  match x_main s with
  | MRun => x_done s = false
  | MStop => x_done s = true ∧ all_returned (x_stages s) = true ∧ coordinated = true
  | MWatch => x_done s = true ∧ all_returned (x_stages s) = true ∧ coordinated = true ∧ x_worker s = true
  | MRet res => x_done s = true ∧ all_returned (x_stages s) = true ∧ x_worker s = true
                ∧ ∃ c : bool, (c = true → is_Some (x_ctx s)) ∧ res = execute_result (x_first s) c (stage_errs s)
  end.

Record well_supervised (s : exec) : Prop := {
  ws_main : main_fits s;
  ws_fatal : fatal_kept s;
  ws_hard : x_hard s = true → hard_reason s;
  ws_failed : (∃ e, Some (Some e) ∈ x_stages s) → x_hard s = true;
  ws_timer : match x_timer s with TArmed dl => ∃ t0, x_ctx s = Some t0 ∧ t0 + timeout ≤ dl | TWait => True | TEnd => x_hard s = true ∨ x_done s = true end;
  ws_ctx : ∀ t0, x_ctx s = Some t0 → t0 ≤ x_now s;
  ws_plain : coordinated = false → x_first s = None ∧ x_worker s = true ∧ x_watch s = WEnd;
  ws_watch : coordinated = true → x_watch s = WEnd → x_hard s = true ∨ x_done s = true
}.

Lemma all_returned_running st i : all_returned st = true → st !! i = Some None → False.
Proof.
  unfold all_returned. rewrite forallb_forall. intros H Hi. apply list_elem_of_lookup_2, list_elem_of_In in Hi. apply H in Hi.
  apply bool_decide_eq_true in Hi. by destruct Hi.
Qed.
Lemma stage_elem (st : list (option (option gerr))) i err : st !! i = Some None →
  (∃ e, Some (Some e) ∈ <[i := Some err]> st) ↔ is_Some err ∨ ∃ e, Some (Some e) ∈ st.
Proof.
  intros Hi. split.
  - intros (e & [j Hj]%list_elem_of_lookup). destruct (decide (j = i)) as [->|Hne].
    + rewrite list_lookup_insert_eq in Hj by (by eapply lookup_lt_Some). injection Hj as ->. left. by eexists.
    + rewrite list_lookup_insert_ne in Hj by done. right. exists e. by eapply list_elem_of_lookup_2.
  - intros [[e ->]|[e [j Hj]%list_elem_of_lookup]]; exists e.
    + eapply list_elem_of_lookup_2. apply list_lookup_insert_eq. by eapply lookup_lt_Some.
    + apply (list_elem_of_lookup_2 _ j). rewrite list_lookup_insert_ne; [done|]. intros ->. congruence.
Qed.

Lemma init_supervised n now : well_supervised (exec_init n now).
Proof.
  split; cbn; try done; try (by destruct coordinated).
  intros (e & He). by apply elem_of_replicate in He as [He _].
Qed.

Lemma outer_supervised s s' : outer_step s s' → well_supervised s → well_supervised s'.
Proof.
  intros H [H1 H2 H3 H4 H5 H6 H7 H8]. destruct H as [now ctx hard st tm fa fi wk wa re dn mn d Hd|now hard st tm fa fi wk wa re dn mn
    |now ctx hard st tm fa fi wk wa re dn mn i err Hi|now ctx hard st tm fa fi wa re dn mn e|now ctx hard st tm fa fi wa re dn]; cbn in *.
  - split; cbn; try done.
    + intros Hh. destruct (H3 Hh) as [?|[?|(t0 & ? & ?)]]; [by left|by right; left|]. right; right. exists t0. cbn in *. unfold time, duration in *. split; [done|lia].
    + intros t0 Ht. specialize (H6 t0 Ht). unfold time, duration in *. lia.
  - split; cbn; try done.
    + unfold main_fits in *. destruct mn; cbn in *; try done. destruct H1 as (? & ? & ? & c & Hc & ->). split_and!; try done. exists c. split; [by eexists|done].
    + intros Hh. destruct (H3 Hh) as [?|[?|(t0 & ? & ?)]]; [by left|by right; left|done].
    + destruct tm as [|dl|]; [done|by destruct H5 as (? & ? & _)|done].
    + intros t0 [= ->]. unfold time. lia.
  - assert (mn = MRun) as ->. { destruct mn; [done|..]; unfold main_fits in H1; cbn in H1; (destruct (all_returned_running _ i (proj1 (proj2 H1)) Hi)). }
    split; cbn; try done.
    + unfold fatal_kept in *. cbn in *. destruct fi; [|done]. destruct H2 as [?|[?|(? & ? & ->)]]; auto.
    + intros Hh. apply orb_true_iff in Hh as [Hh|Hh].
      * destruct (H3 Hh) as [?|[?|?]]; [|by right; left|by right; right]. left. cbn. apply stage_elem; auto.
      * left. cbn. apply bool_decide_eq_true in Hh. apply stage_elem; auto.
    + rewrite stage_elem by done. intros [Hx|Hx]; [by rewrite bool_decide_eq_true_2, orb_true_r|]. by rewrite H4.
    + destruct tm as [|dl|]; [done|done|]. destruct H5 as [->|?]; auto.
    + intros Hc Hw. destruct (H8 Hc Hw) as [->|?]; auto.
  - split; cbn; try done.
    + unfold main_fits in *. destruct mn; cbn in *; try done; naive_solver.
    + unfold fatal_kept in *. cbn in *. destruct fi as [x|]; cbn [first_of].
      * destruct H2 as [(-> & ? & ?)|[?|?]]; [by left|by right; left|by right; right].
      * destruct H2 as (-> & ? & ?). by left.
    + intros Hh. destruct (H3 Hh) as [?|[[x Hx]|?]]; [by left| |by right; right]. right; left. cbn in *. rewrite Hx. by eexists.
    + intros Hc. by destruct (H7 Hc) as (_ & ? & _).
  - split; cbn; try done. intros Hc. by destruct (H7 Hc) as (_ & ? & _).
Qed.

(** At its end the watcher has left the first error in one of the two places
    [Execute] looks at. *)
Lemma fatal_found s : fatal_kept s → x_watch s = WEnd → first_of (x_relay s) (x_fatal s) = x_first s.
Proof.
  unfold fatal_kept. intros H Hw. rewrite Hw in H. destruct (x_first s) as [e|]; [|by destruct H as (-> & -> & _)].
  destruct H as [(-> & -> & _)|[[? _]|(_ & -> & _)]]; done.
Qed.

Lemma own_supervised s s' : own_step s s' → well_supervised s → well_supervised s'.
Proof.
  intros H [H1 H2 H3 H4 H5 H6 H7 H8]. destruct H as [now t0 hard st fa fi wk wa re dn mn|now ctx hard st dl fa fi wk wa re dn mn Hd|now ctx hard st tm fa fi wk wa re mn Ht
    |now ctx hard st tm e fi wk re dn mn|now ctx hard st tm fa fi wk e re dn mn|now ctx hard st tm fa fi wk re mn|now ctx hard st tm fa fi wk wa re s Hr
    |now ctx hard st tm fa fi wa re dn|now ctx hard st tm fa fi wk re dn s]; cbn in *.
  - split; cbn; try done. exists t0. specialize (H6 t0 eq_refl). unfold time, duration in *. split; [done|lia].
  - split; cbn; try done; auto.
    + unfold fatal_kept in *. cbn in *. destruct fi; [|done]. destruct H2 as [?|[?|(? & ? & _)]]; [by left|by right; left|by right; right].
    + intros _. right; right. destruct H5 as (t0 & ? & ?). exists t0. cbn. unfold time, duration in *. split; [done|lia].
  - split; cbn; try done; auto.
  - split; cbn; try done.
    + unfold fatal_kept in *. cbn in *. destruct fi as [x|]; [|by destruct H2]. destruct H2 as [([= ->] & ? & _)|[[? _]|(? & _)]]; try done. by right; left.
    + intros Hc. by destruct (H7 Hc) as (_ & _ & ?).
  - assert (fi = Some e ∧ re = None) as [-> ->].
    { unfold fatal_kept in H2. cbn in H2. destruct fi as [x|]; [|by destruct H2 as (_ & _ & []%(λ f, f e eq_refl))].
      destruct H2 as [(_ & _ & []%(λ f, f e eq_refl))|[[[= ->] ->]|(? & _)]]; done. }
    split; cbn; try done; auto.
    + intros _. right; left. by eexists.
    + destruct tm; auto.
    + intros Hc. by destruct (H7 Hc) as (_ & _ & ?).
  - split; cbn; try done; auto.
    + unfold fatal_kept in *. cbn in *. destruct fi as [x|]; [|by destruct H2 as (? & ? & _)]. destruct H2 as [(? & ? & _)|[[? _]|(? & _)]]; try done. by left.
    + intros Hc. by destruct (H7 Hc) as (_ & _ & ?).
  - split; cbn; try done; auto.
    + unfold main_fits. cbn. destruct coordinated eqn:Ec; cbn; [done|]. destruct (H7 eq_refl) as (-> & -> & ->). split_and!; try done.
      exists (bool_decide (is_Some ctx)). split; [by intros ?%bool_decide_eq_true|done].
    + destruct tm; auto.
  - split; cbn; try done; auto. unfold main_fits in *. cbn in *. naive_solver.
  - split; cbn; try done; auto. unfold main_fits in *. cbn in *. destruct H1 as (? & ? & ? & ?). split_and!; try done.
    exists (bool_decide (is_Some ctx)). split; [by intros ?%bool_decide_eq_true|]. f_equal. by apply (fatal_found _ H2).
Qed.

Lemma exec_supervised n now s : rtc exec_step (exec_init n now) s → well_supervised s.
Proof.
  intros H. assert (∀ s0, well_supervised s0 → rtc exec_step s0 s → well_supervised s) as Hind; [|by apply (Hind _ (init_supervised n now))].
  clear H. intros s0 H0 H. induction H as [|x y z [Ho|Ho] _ IH]; [done|..]; apply IH; [by eapply outer_supervised|by eapply own_supervised].
Qed.

(** ** Progress *)

(** The steps the supervision can still take on its own. *)
Definition own_work (s : exec) : nat :=
  match x_timer s with TWait => 2 | TArmed _ => 1 | TEnd => 0 end + match x_watch s with WWait => 2 | WTook _ => 1 | WEnd => 0 end
  + match x_main s with MRun => 3 | MStop => 2 | MWatch => 1 | MRet _ => 0 end.
Lemma own_decreases s s' : own_step s s' → (own_work s' < own_work s)%nat.
Proof. destruct 1; unfold own_work; cbn; try lia; [destruct tm; [lia|lia|done]|destruct coordinated; cbn; lia]. Qed.
Lemma own_bounded n s s' : nsteps own_step n s s' → (n + own_work s' ≤ own_work s)%nat.
Proof. induction 1 as [|n x y z H _ IH]; [lia|]. apply own_decreases in H. lia. Qed.

(** What the supervision may have to wait for: a stage that is still running,
    while there is no reason to unwind, in the time of grace or after the hard
    cancellation; or the finalize worker. *)
Definition waits (s : exec) : Prop :=
  (∃ i, x_stages s !! i = Some None)
    ∧ (x_hard s = true ∨ x_first s = None ∧ (∀ e, Some (Some e) ∉ x_stages s) ∧ (x_ctx s = None ∨ ∃ dl, x_timer s = TArmed dl ∧ x_now s < dl))
  ∨ x_main s = MStop ∧ x_worker s = false.

Lemma some_running st : all_returned st = false → ∃ i : nat, st !! i = Some None.
Proof.
  induction st as [|[e|] st IH]; cbn; [done| |by exists 0%nat]. intros H. destruct (IH H) as [i Hi]. by exists (S i).
Qed.

Lemma watcher_done s : x_done s = true → (∃ s', own_step s s') ∨ x_watch s = WEnd.
Proof.
  destruct s as [now ctx hard st tm fa fi wk wa re dn mn]. cbn. intros ->. destruct wa; [left; eexists; apply w_quit|left; eexists; apply w_relay|by right].
Qed.

(** The shutdown goroutine of a run that has not been cancelled hard. *)
Lemma timer_waits s : well_supervised s → x_done s = false → x_hard s = false →
  (∃ s', own_step s s') ∨ x_ctx s = None ∨ ∃ dl, x_timer s = TArmed dl ∧ x_now s < dl.
Proof.
  intros [_ _ _ _ H5 _ _ _] Hd Hh. destruct s as [now ctx hard st tm fa fi wk wa re dn mn]. cbn in *. subst hard dn. destruct tm as [|dl|]; [|..|naive_solver].
  - destruct ctx; [left; eexists; apply t_arm|by right; left].
  - destruct (decide (dl ≤ now)) as [Hl|Hl]; [left; eexists; by apply t_fire|]. right; right. exists dl. unfold time in *. split; [done|lia].
Qed.
(** The watcher of one. *)
Lemma watcher_waits s : well_supervised s → x_done s = false → x_hard s = false → (∃ s', own_step s s') ∨ x_first s = None.
Proof.
  intros [_ H2 _ _ _ _ H7 H8] Hd Hh. destruct s as [now ctx hard st tm fa fi wk wa re dn mn]. cbn in *. subst hard dn. unfold fatal_kept in H2. cbn in H2.
  destruct wa as [|e|]; [|left; eexists; apply w_relay|].
  - destruct fa as [e|]; [left; eexists; apply w_take|]. right. destruct fi; naive_solver.
  - right. destruct coordinated; [naive_solver|]. by destruct (H7 eq_refl) as (-> & _).
Qed.

Lemma run_waits s : well_supervised s → x_main s = MRun → (∃ s', own_step s s') ∨ waits s.
Proof.
  intros Hs Hm. pose proof (ws_main s Hs) as Hd. unfold main_fits in Hd. rewrite Hm in Hd. destruct (all_returned (x_stages s)) eqn:Hr.
  { left. destruct s as [now ctx hard st tm fa fi wk wa re dn mn]. cbn in *. subst. eexists. by apply m_done. }
  apply some_running in Hr. destruct (x_hard s) eqn:Hh; [by right; left; split; [|left]|].
  destruct (watcher_waits s Hs Hd Hh) as [?|Hf]; [by left|]. destruct (timer_waits s Hs Hd Hh) as [?|Ht]; [by left|].
  right; left. split; [done|]. right. split_and!; [done| |done]. intros e He. pose proof (ws_failed s Hs (ex_intro _ e He)). congruence.
Qed.

Lemma own_or_waits s : well_supervised s → (∃ res, x_main s = MRet res) ∨ (∃ s', own_step s s') ∨ waits s.
Proof.
  intros Hs. pose proof (ws_main s Hs) as Hm. unfold main_fits in Hm. destruct (x_main s) as [| | |res] eqn:Em; [by right; apply run_waits|..|by left; eexists]; right.
  - destruct (x_worker s) eqn:Ew; [|by right; right]. left. destruct s. cbn in *. subst. eexists. apply m_stop.
  - destruct Hm as (Hd & _). destruct (watcher_done s Hd) as [?|Hw]; [by left|]. left. destruct s. cbn in *. subst. eexists. apply m_return.
Qed.

(** C8: However the stages, the finalize worker, the watcher of fatal
    errors, the shutdown timer and the caller interleave, Execute returns
    the first fatal error of the coordinator, unless that is a cancellation
    the caller asked for; it returns nil only if no stage failed with
    anything but a cancellation, and every error it returns was reported. *)
Theorem execute_never_loses_failure n now s res :
  rtc exec_step (exec_init n now) s → x_main s = MRet res →
  (∀ e, x_first s = Some e → e_canceled e = false → res = Some e)
  ∧ (res = None → (∀ e, Some (Some e) ∈ x_stages s → e_canceled e = true)
                 ∧ ∀ e, x_first s = Some e → e_canceled e = true ∧ is_Some (x_ctx s))
  ∧ (∀ e, res = Some e → x_first s = Some e ∨ e_canceled e = false ∧ Some (Some e) ∈ x_stages s).
Proof.
  intros H Hm. pose proof (ws_main s (exec_supervised _ _ _ H)) as Hs. unfold main_fits in Hs. rewrite Hm in Hs. destruct Hs as (_ & _ & _ & c & Hc & ->).
  split_and!.
  - intros e -> He. unfold execute_result. by rewrite He.
  - intros Hn. apply execute_result_none in Hn as [H1 H2]. split.
    + intros e He. rewrite Forall_forall in H1. destruct (H1 (Some e)) as [?|(x & [= <-] & ?)]; [|done|done]. apply list_elem_of_omap. by exists (Some (Some e)).
    + intros e He. destruct (H2 e He) as [? Hx]. auto.
  - intros e. unfold execute_result. assert (head (filter (λ e, e_canceled e = false) (omap id (stage_errs s))) = Some e →
      e_canceled e = false ∧ Some (Some e) ∈ x_stages s) as Hfirst.
    { intros Hh. apply head_Some_elem_of, list_elem_of_filter in Hh as [? Hh]. split; [done|].
      apply list_elem_of_omap in Hh as (y & Hy & Ey). apply list_elem_of_omap in Hy as (z & Hz & Ez). cbn in Ey, Ez. by subst. }
    destruct (x_first s) as [x|]; [|auto]. destruct (e_canceled x && c); [auto|]. intros [= ->]. by left.
Qed.

(** C9: A run is cancelled hard only after a failed stage, a fatal error of
    the coordinator or the shutdown timeout; the supervision is never stuck:
    until Execute returns it has a step of its own, of at most seven in a
    row, or waits for the finalize worker or for a running stage, and for a
    stage only after the hard cancellation, within the time of grace, or
    when there is nothing to unwind. *)
Theorem shutdown_unwinds n now s :
  rtc exec_step (exec_init n now) s →
  (x_hard s = true → hard_reason s)
  ∧ (∀ k s', nsteps own_step k s s' → (k ≤ 7)%nat)
  ∧ ((∃ res, x_main s = MRet res) ∨ (∃ s', own_step s s') ∨ waits s).
Proof.
  intros H. apply exec_supervised in H as Hs. split_and!; [apply Hs| |by apply own_or_waits]. intros k s' Hk. apply own_bounded in Hk.
  assert (own_work s ≤ 7)%nat; [|lia]. unfold own_work. destruct (x_timer s), (x_watch s), (x_main s); lia.
Qed.
End supervision.

(** ** A failed commit *)

(** The coordinator reports that it cannot commit; the stages end, the last with
    a cancellation, and [Execute] is in [Stop] before the watcher has passed the
    error on. *)
Definition demo_fatal : gerr := mkGerr (bs "checkpoint cp-1: sink commit: broker down") false.
Definition demo_canceled : gerr := mkGerr (bs "context canceled") true.
Definition demo_unwound : exec :=
  mkExec 0 None true [Some None; Some (Some demo_canceled)] TEnd None (Some demo_fatal) true WEnd (Some demo_fatal) true (MRet (Some demo_fatal)).

Lemma demo_unwinds : rtc (exec_step 30 true) (exec_init true 2 0) demo_unwound.
Proof.
  eapply rtc_l; [left; apply (o_report _ _ _ _ _ _ _ _ _ _ _ demo_fatal)|]. eapply rtc_l; [right; apply w_take|].
  eapply rtc_l; [left; by apply (o_stage _ _ _ _ _ _ _ _ _ _ _ _ 0 None)|]. eapply rtc_l; [left; by apply (o_stage _ _ _ _ _ _ _ _ _ _ _ _ 1 (Some demo_canceled))|].
  cbn. eapply rtc_l; [right; by apply m_done|]. eapply rtc_l; [left; apply o_worker|]. eapply rtc_l; [right; apply m_stop|].
  eapply rtc_l; [right; apply w_relay|]. eapply rtc_l; [right; by apply t_quit|]. eapply rtc_l; [right; apply m_return|]. apply rtc_refl.
Qed.

Lemma execute_never_loses_failure_witness :
  rtc (exec_step 30 true) (exec_init true 2 0) demo_unwound ∧ x_main demo_unwound = MRet (Some demo_fatal)
  ∧ ∀ e, x_first demo_unwound = Some e → e_canceled e = false → Some demo_fatal = Some e.
Proof.
  split; [exact demo_unwinds|]. split; [reflexivity|].
  exact (proj1 (execute_never_loses_failure 30 true 2 0 demo_unwound (Some demo_fatal) demo_unwinds eq_refl)).
Defined.

Lemma shutdown_unwinds_witness : x_hard demo_unwound = true ∧ hard_reason 30 demo_unwound.
Proof. split; [reflexivity|]. exact (proj1 (shutdown_unwinds 30 true 2 0 demo_unwound demo_unwinds) eq_refl). Defined.
