(* ===== verification/AtLeastOnce.v ===== *)
(** * Delivery with plain sinks

    A job whose sink does not take part in checkpoints, end to end: the source
    delivers the logs of its partitions, the injector ([Injector]) adds barriers
    and registers positions, the operators process the stream, the sink stage
    ([Stages]) reports a barrier when the sink has taken everything ahead of it,
    the engine ([Engine]) saves the checkpoint, the process dies at any point,
    even between two writes of the storage ([Storage]), and a new process loads a
    checkpoint, restores the operators ([Snapshots]) and seeks the source
    ([Positions]).

    [StreamOperator] is what the operators of the pipeline promise; the reduce
    operator implements it. *)

From S2P Require Import Prelude Record Rfc3339 Decimal State Reduce Storage Coordinator Injector Positions Snapshots BatchSink Stages Engine.

(** ** Checkpoints on disk *)

(** Checkpoints saved one after the other; a save that fails leaves nothing. *)
Fixpoint save_all (retain : Z) (d : disk) (datas : list CheckpointData) : list act :=
  match datas with
  | [] => []
  | x :: datas =>
      match save retain d x with
      | Ok acts => acts ++ save_all retain (exec d acts) datas
      | _ => save_all retain d datas
      end
  end.

Lemma exec_file d acts id x : files (exec d acts) !! id = Some (Some x) → files d !! id = Some (Some x) ∨ AWrite x ∈ acts.
Proof.
  revert d. induction acts as [|a acts IH]; intros d Hx; [by left|]. destruct (IH (apply_act d a) Hx) as [Hd|]; [|set_solver].
  destruct a as [y|[] y|y|y]; cbn in Hd; [|by left|by left| |by left].
  - apply lookup_insert_Some in Hd as [[_ [= ->]]|[_ Hd]]; [right; left|by left].
  - apply lookup_delete_Some in Hd as [_ Hd]. by left.
Qed.

Lemma save_writes retain d x acts y : CStatus x = StatusCompleted → save retain d x = Ok acts → AWrite y ∈ acts → y = x.
Proof.
  intros Hc Hs Hin. unfold save in Hs. rewrite Hc in Hs. destruct (decide (StatusCompleted = StatusNone)); [done|].
  case_decide; [|done]. rewrite Hc in Hs. destruct (decide (StatusCompleted = StatusCompleted)); [|done]. injection Hs as <-.
  change (?a :: ?b :: ?c :: ?l) with ([a; b] ++ [c] ++ l) in Hin. rewrite !elem_of_app in Hin.
  destruct Hin as [Hin|[Hin|Hin]]; [set_solver..|]. unfold enforceRetention in Hin. destruct (retain <? 1); [set_solver|].
  apply list_elem_of_In, in_flat_map in Hin as (v & _ & Hin). cbn in Hin. naive_solver.
Qed.

Lemma save_all_writes retain datas y : ∀ d, Forall (λ x, CStatus x = StatusCompleted) datas → AWrite y ∈ save_all retain d datas → y ∈ datas.
Proof.
  induction datas as [|x datas IH]; intros d Hc Hin; [by apply elem_of_nil in Hin|]. apply Forall_cons in Hc as [Hx Hc]. cbn [save_all] in Hin.
  destruct (save retain d x) as [acts|e|e] eqn:Es; [|right; by eapply IH|right; by eapply IH].
  apply elem_of_app in Hin as [Hin|Hin]; [|right; by eapply IH]. apply (save_writes _ _ _ _ _ Hx Es) in Hin as ->. left.
Qed.

Definition no_disk : disk := mkDisk ∅ None None ∅.

(** Whatever was done of the saves, what is loaded is one of the checkpoints. *)
Lemma load_saved retain datas acts x : Forall (λ x, CStatus x = StatusCompleted) datas → acts `prefix_of` save_all retain no_disk datas →
  (Load (exec no_disk acts)).1 = Some x → x ∈ datas.
Proof.
  intros Hc Hp Hl. destruct (loadPointer_file _ false x Hl) as [id Hid]. apply exec_file in Hid as [Hid|Hin]; [change (files no_disk) with (∅ : gmap bytes (option CheckpointData)) in Hid; by rewrite lookup_empty in Hid|].
  apply (save_all_writes retain datas x no_disk Hc). by eapply elem_of_prefix.
Qed.

(** ** Operators *)

(** A stream through a function on records. *)
Fixpoint run_with {S} (step : S → Record_ → S * list Record_) (s : S) (l : list Record_) : S * list Record_ :=
  match l with
  | [] => (s, [])
  | r :: l => let '(s, o) := step s r in let '(s, os) := run_with step s l in (s, o ++ os)
  end.

(** A deterministic chain of operators, one record at a time.  Its state at a
    barrier is captured as one text per operator; [so_ok] are the streams on
    which a chain restored from the captured state behaves as the original. *)
Class StreamOperator (S : Type) := {
  so_init : S;
  so_step : S → Record_ → S * list Record_;
  so_snaps : S → list bytes;
  so_restore : list bytes → S;
  so_ok : list Record_ → Prop;
  so_barrier : ∀ s b, IsBarrier b = true → so_step s b = (s, [b]);
  so_no_barrier : ∀ s r, IsBarrier r = false → Forall (λ x, IsBarrier x = false) (so_step s r).2;
  so_resumes : ∀ before after, so_ok (before ++ after) → let s := (run_with so_step so_init before).1 in
    (run_with so_step (so_restore (so_snaps s)) after).2 = (run_with so_step s after).2
}.
Notation so_run := (run_with so_step).

Section operators.
Context {S} `{!StreamOperator S}.
Implicit Types (s : S).

Lemma so_run_cons s r l : so_run s (r :: l) = ((so_run (so_step s r).1 l).1, (so_step s r).2 ++ (so_run (so_step s r).1 l).2).
Proof. cbn [run_with]. destruct (so_step s r) as [s1 o]. cbn [fst snd]. by destruct (so_run s1 l). Qed.

Lemma so_run_app l l' : ∀ s, (so_run s (l ++ l')).2 = (so_run s l).2 ++ (so_run (so_run s l).1 l').2.
Proof.
  induction l as [|r l IH]; intros s; [done|]. change ((r :: l) ++ l') with (r :: (l ++ l')).
  rewrite !so_run_cons. cbn [fst snd]. by rewrite IH, app_assoc.
Qed.

(** A barrier in the output is a barrier of the input, behind the output of what
    came before it. *)
Lemma so_run_barrier l : ∀ s o1 b o2, (so_run s l).2 = o1 ++ b :: o2 → IsBarrier b = true →
  ∃ pre post, l = pre ++ b :: post ∧ o1 = (so_run s pre).2.
Proof.
  induction l as [|r l IH]; intros s o1 b o2 E Hb; [by destruct o1|]. rewrite so_run_cons in E. cbn [snd] in E.
  destruct (IsBarrier r) eqn:Er.
  - rewrite so_barrier in E by done. cbn [fst snd app] in E. destruct o1 as [|x o1]; injection E as -> E; [by exists [], l|].
    destruct (IH s o1 b o2 E Hb) as (pre & post & -> & ->). exists (x :: pre), post. split; [done|].
    by rewrite so_run_cons, so_barrier.
  - pose proof (so_no_barrier s r Er) as Hn. apply app_eq_app in E as (o & [[E1 E2]|[E1 E2]]).
    + destruct o as [|y o].
      * rewrite app_nil_r in E1. subst o1. destruct (IH _ [] b o2 (eq_sym E2) Hb) as (pre & post & -> & Ep). exists (r :: pre), post.
        split; [done|]. rewrite so_run_cons. cbn [snd]. by rewrite <- Ep, app_nil_r.
      * injection E2 as <- _. rewrite E1, Forall_app, Forall_cons in Hn. destruct Hn as (_ & Hn & _). congruence.
    + destruct (IH _ o b o2 E2 Hb) as (pre & post & -> & ->). exists (r :: pre), post. split; [done|]. by rewrite so_run_cons, E1.
Qed.
End operators.

(** ** The stream behind the injector *)

Section injected.
Context (E : Coordinator.env) (f : Record_ → PositionKey) (encode : bool → gmap PositionKey Z → option bytes).
Context (accepts : nat → bool) (runNonce : Z).

(** Barriers come from the injector. *)
Definition made (r : Record_) : Prop := IsBarrier r = true → r = NewBarrier (CheckpointID r).

Lemma forward_made st r : made r → Forall made (out st) → Forall made (out (forward accepts st r).1).
Proof. intros Hr Ho. unfold forward. destruct (accepts _); cbn; [|done]. by apply Forall_app_2; [|apply Forall_singleton]. Qed.
Lemma barrier_made st s : Forall made (out st) → Forall made (out (barrier E (Some f) encode accepts runNonce st s).1).
Proof. intros Ho. unfold barrier. by apply forward_made; [intros _|]. Qed.
Lemma pass_made st r : IsBarrier r = false → Forall made (out st) → Forall made (out (pass (Some f) accepts st r).1).
Proof. intros Hr Ho. unfold pass. apply forward_made; [|done]. intros Hb. congruence. Qed.
Lemma drain_made evs : ∀ st, no_barriers evs → Forall made (out st) → Forall made (out (Injector.drain (Some f) accepts st evs)).
Proof.
  induction evs as [|[|r| |] evs IH]; intros st Hb Ho; try done. cbn [Injector.drain]. apply Forall_cons in Hb as [Hr Hb].
  pose proof (pass_made st r Hr Ho) as Hp. destruct (pass _ _ st r) as [st' []]; [by apply IH|done].
Qed.
Lemma inject_made evs : ∀ st, no_barriers evs → Forall made (out st) → Forall made (out (inject E (Some f) encode accepts runNonce st evs)).
Proof.
  induction evs as [|ev evs IH]; intros st Hb Ho; [done|].
  pose proof (barrier_made st (bs "-shutdown") Ho) as Hs. pose proof (barrier_made st [] Ho) as Ht. pose proof (barrier_made st (bs "-final") Ho) as Hf.
  destruct ev as [|r| |]; cbn [inject].
  - destruct (barrier _ _ _ _ _ st _) as [st' []]; [by apply drain_made|done].
  - apply Forall_cons in Hb as [Hr Hb]. pose proof (pass_made st r Hr Ho) as Hp. destruct (pass _ _ st r) as [st' []]; [by apply IH|done].
  - done.
  - destruct (barrier _ _ _ _ _ st []) as [st' []]; [by apply IH|done].
Qed.

(** The records of a partition. *)
Definition part (k : PositionKey) (l : list Record_) : list Record_ := filter (λ r, IsWatermark r || IsBarrier r = false ∧ f r = k) l.

Lemma part_prefix k l l' : l `prefix_of` l' → part k l `prefix_of` part k l'.
Proof. intros [m ->]. unfold part. rewrite filter_app. by apply prefix_app_r. Qed.
Lemma part_data k l : part k (data_of l) = part k l.
Proof.
  unfold part, data_of. rewrite list_filter_filter. apply list_filter_iff. intros r.
  rewrite orb_false_iff. naive_solver.
Qed.

(** A source that delivers the log of each partition in order. *)
Record log_source (log : PositionKey → list Record_) (evs : list ievent) : Prop := {
  ls_plain : no_barriers evs;
  ls_order : ∀ k, part k (delivered evs) `prefix_of` log k;
  ls_offset : ∀ k i r, log k !! i = Some r → Offset r = Z.of_nat i ∧ Z.of_nat i < 2 ^ 62
}.

(** The registered position of a partition is the length of what came from it,
    and with the log from there on it is the whole log. *)
Lemma positions_cover log evs pre post k : log_source log evs →
  out (inject E (Some f) encode accepts runNonce (start_injector (mkEngine ∅ None [])) evs) = pre ++ post →
  part k pre `prefix_of` log k
  ∧ default 0 (positions (Some f) pre !! k) = Z.of_nat (length (part k pre))
  ∧ part k pre ++ drop (Z.to_nat (default 0 (positions (Some f) pre !! k))) (log k) = log k.
Proof.
  intros [Hb Ho Hl] Eo.
  assert (part k pre `prefix_of` log k) as Hp.
  { etrans; [|apply Ho]. destruct (inject_feeds E (Some f) encode accepts runNonce evs (start_injector (mkEngine ∅ None [])) Hb) as (l & Hp & El).
    cbn [out start_injector] in El. rewrite Eo in El. cbn [data_of] in El.
    etrans; [|by apply part_prefix]. rewrite <- (part_data k pre). apply part_prefix.
    assert (data_of (pre ++ post) = l) as <- by exact El. unfold data_of. rewrite filter_app. by apply prefix_app_r. }
  assert (default 0 (positions (Some f) pre !! k) = Z.of_nat (length (part k pre))) as Hd.
  { rewrite positions_lookup. change (filter _ pre) with (part k pre).
    destruct (last (part k pre)) as [r|] eqn:El; cbn; [|by apply last_None in El as ->].
    rewrite last_lookup in El. destruct Hp as [l' Hp].
    assert (log k !! pred (length (part k pre)) = Some r) as Hr by (rewrite Hp; by apply lookup_app_l_Some).
    apply Hl in Hr as [-> Hlt]. apply lookup_lt_Some in El. unfold i64_add. rewrite wrap64_id; [lia|]. unfold in_i64, two63. lia. }
  split_and!; [done|done|]. rewrite Hd, Nat2Z.id. destruct Hp as [l' ->]. by rewrite drop_app_length.
Qed.
End injected.

(** ** What a checkpoint holds *)

(** An empty text and no state are restored alike. *)
Lemma restore_inline snaps dirs key op :
  restoreOperatorState (Some <$> (default [] <$> snaps : gmap bytes bytes)) dirs key op = restoreOperatorState snaps dirs key op.
Proof.
  unfold restoreOperatorState. rewrite !lookup_fmap. unfold snap in *. destruct (op_snapshot op); [|by destruct (dirs !! key)].
  destruct (snaps !! key) as [[[|b l]|]|]; done.
Qed.
Lemma restore_all_inline name snaps dirs ops : ∀ i,
  restore_all name i (Some <$> (default [] <$> snaps : gmap bytes bytes)) dirs ops = restore_all name i snaps dirs ops.
Proof. induction ops as [|op ops IH]; intros i; cbn [restore_all]; [done|]. by rewrite restore_inline, IH. Qed.

Section job.
Context `{!PositionJSON} (range : gmap PositionKey Z → list (PositionKey * Z)) (Hrange : ranges range).
Context {S} `{!StreamOperator S} (state_ref : bytes → option bytes) (mk_ref : bytes → bytes).
Context (E : Coordinator.env) (f : Record_ → PositionKey) (accepts : nat → bool) (runNonce : Z).
Context (e : job_env) (cps : CheckpointSource) (Hsrc : As l_checkpoint (je_source e) = Some cps) (Hjoin : je_join e = None).

(** The injector of a new job after some events. *)
Definition job_injector (evs : list ievent) : injector :=
  inject E (Some f) (encode_positions range) accepts runNonce (start_injector (mkEngine ∅ None [])) evs.

(** The state of the operators ahead of a point of the stream. *)
Definition state_at (pre : list Record_) : S := (so_run so_init pre).1.

(** What the engine holds when checkpoint [id] is put together: the positions
    registered with its barrier, and the state each operator captured when the
    barrier passed it, none of which reads as a reference. *)
Record captured (ops : list operator) (evs : list ievent) (v : save_env) (id : bytes) : Prop := {
  ca_offsets : pendingOffsets (sv_engine v) !! id = registered (eng (job_injector evs)) id;
  ca_refs : own_refs state_ref (assemble mk_ref (sv_snaps v) id None ops []);
  ca_ops : Forall (λ op, is_Some (op_snapshot op)) ops;
  ca_state : ∀ pre post, out (job_injector evs) = pre ++ NewBarrier id :: post →
    length ops = length (so_snaps (state_at pre))
    ∧ ∀ i b, so_snaps (state_at pre) !! i = Some b →
        b ≠ [] ∧ ref_of state_ref (Some b) = None ∧ default ∅ (sv_snaps v !! id) !! op_key (Z.of_nat i) = Some (Some b)
}.

Local Notation record_of ops v id now := (checkpoint_record state_ref mk_ref e None ops [] v id now).

Lemma record_state ops evs v id now pre post : captured ops evs v id → out (job_injector evs) = pre ++ NewBarrier id :: post →
  restoreWorkersFromCheckpoint (Some <$> Operators (record_of ops v id now)) (StateDirs (record_of ops v id now)) ops []
  = RInline <$> so_snaps (state_at pre).
Proof.
  intros [_ Hr Hops Hst] Eo. destruct (Hst pre post Eo) as [Hl Hs]. unfold checkpoint_record, collectSnapshots.
  set (all := assemble mk_ref (sv_snaps v) id None ops []) in *. rewrite (surjective_pairing (extractStateDirs state_ref all)).
  cbn [Operators StateDirs]. unfold restoreWorkersFromCheckpoint. cbn [restore_all]. rewrite app_nil_r, restore_all_inline.
  assert (∀ j b, so_snaps (state_at pre) !! j = Some b → all !! op_key (Z.of_nat j) = Some (Some b)) as Hall.
  { intros j b Hj. apply assemble_keeps. by apply Hs. }
  rewrite (restore_all_extracted state_ref all op_key 0 ops Hr).
  - apply list_eq. intros j. rewrite list_lookup_imap, list_lookup_fmap. destruct (ops !! j) as [op|] eqn:Eop; cbn [fmap option_fmap option_map].
    + destruct (lookup_lt_is_Some_2 (so_snaps (state_at pre)) j) as [b Hb]; [rewrite <- Hl; by eapply lookup_lt_Some|].
      rewrite Z.add_0_l, Hb. unfold snap in *. rewrite (Hall j b Hb). cbn [from_option Datatypes.id fmap option_fmap option_map]. destruct (Hs j b Hb) as (Hne & Href & _).
      unfold owed_action. rewrite Href. destruct b as [|c b]; [done|]. rewrite Forall_forall in Hops.
      destruct (Hops op) as [sn ->]; [by eapply list_elem_of_lookup_2|done].
    + apply lookup_ge_None in Eop. rewrite Hl in Eop. by rewrite (proj2 (lookup_ge_None _ _) Eop).
  - intros j op Hj. rewrite Z.add_0_l. destruct (lookup_lt_is_Some_2 (so_snaps (state_at pre)) j) as [b Hb]; [rewrite <- Hl; by eapply lookup_lt_Some|].
    eexists. by apply Hall.
Qed.

(** The positions in the record are those of the stream ahead of the barrier. *)
Lemma record_source ops evs v id now pre post : no_barriers evs → Z.of_nat (length evs) < 2 ^ 62 → captured ops evs v id →
  out (job_injector evs) = pre ++ NewBarrier id :: post →
  Storage.Source (record_of ops v id now) !! bs "offset" = Some (EncodePositions (position_of <$> range (positions (Some f) pre))).
Proof.
  intros Hb Hlen [Ho _ _ _] Eo. unfold checkpoint_record. destruct (collectSnapshots _ _ _ _ _ _ _) as [[snaps dirs] rest]. cbn [Storage.Source].
  rewrite Hjoin. cbn [addNativeJoinSourceOffsets]. unfold source_entry. rewrite Hsrc. cbn [takeAlignedOffsets]. rewrite Ho. unfold job_injector.
  destruct (inject_aligned_start E (Some f) (encode_positions range) accepts runNonce (mkEngine ∅ None []) evs Hb Hlen) as [_ Ha].
  destruct (Ha pre id post Eo) as (_ & _ & _ & _ & _ & Hreg). rewrite (Hreg _ eq_refl). cbn [fst]. by rewrite lookup_singleton_eq.
Qed.

(** The checkpoints saved for the reports of a sink stage, in order. *)
Definition saved_for (ops : list operator) (evs : list ievent) (reports : list (bytes * list Record_)) (datas : list CheckpointData) : Prop :=
  Forall2 (λ rep x, ∃ v now, captured ops evs v rep.1 ∧ x = record_of ops v rep.1 now) reports datas.

(** A report of the sink stage, traced back to the stream behind the injector. *)
Lemma report_barrier evs k id t : no_barriers evs → rtc (sink_step (mkSinkStage true false)) (sink_init (so_run so_init (out (job_injector evs))).2) k →
  (id, t) ∈ sk_saved k →
  ∃ pre post, out (job_injector evs) = pre ++ NewBarrier id :: post
    ∧ t = visible (mkSinkStage true false) (so_run so_init pre).2 ∧ t `prefix_of` sk_taken k.
Proof.
  intros Hb Hk Hin. apply pumps_reachable in Hk as [_ _ _ Hsaved Hkept].
  destruct (Hsaved id t Hin) as (o1 & b & o2 & Eo & Hbar & Hid & ->).
  destruct (so_run_barrier _ _ _ _ _ Eo Hbar) as (pre & post & Es & ->). exists pre, post.
  assert (made b) as Hm.
  { pose proof (inject_made E f (encode_positions range) accepts runNonce evs _ Hb (Forall_nil_2 _ : Forall made (out (start_injector (mkEngine ∅ None []))))) as Hall.
    rewrite Forall_forall in Hall. apply Hall. change (b ∈ out (job_injector evs)). rewrite Es. set_solver. }
  rewrite (Hm Hbar), Hid in Es. split_and!; [done|done|by eapply Hkept].
Qed.

End job.

(** ** The reduce operator *)

Section reduce_operator.
Context (enc : gmap bytes bytes → bytes) (dec : bytes → gmap bytes bytes) (codec : ∀ m, dec (enc m) = m) (fn : ReduceFn).

Lemma Process_barrier (op : ReduceOperator Memory.MemoryBackend) b : IsBarrier b = true → (Process op b).1 = (op, [b]).
Proof. intros Hb. unfold Process. rewrite Hb. by destruct (IsWatermark b). Qed.
Lemma Process_data (op : ReduceOperator Memory.MemoryBackend) r : IsBarrier r = false → Forall (λ x, IsBarrier x = false) (Process op r).1.2.
Proof. intros Hr. unfold Process. rewrite Hr. destruct (IsWatermark r); by apply Forall_singleton. Qed.

#[local] Program Instance reduce_stream : StreamOperator (ReduceOperator Memory.MemoryBackend) := {|
  so_init := Reduce fn Memory.NewMemoryBackend;
  so_step op r := (Process op r).1;
  so_snaps op := [enc (Snapshot op)];
  so_restore l := Restore (Reduce fn Memory.NewMemoryBackend) (dec (default [] (head l)));
  so_ok := in_order zeroTime
|}.
Next Obligation. intros op b Hb. apply Process_barrier, Hb. Qed.
Next Obligation. apply Process_data. Qed.
Next Obligation.
  intros before after Hok.
  assert (∀ l op, run_with (λ op r, (Process op r).1) op l = run_reduce op l) as Hrun.
  { induction l as [|r l IH]; intros op; [done|]. cbn [run_with run_reduce]. destruct (Process op r) as [[op1 o] sn]. cbn [fst]. by rewrite IH. }
  cbn zeta. rewrite !Hrun. cbn [head from_option]. unfold Datatypes.id. rewrite codec.
  apply reduce_restore_transparent; [apply Memory.inv_new|done|apply Memory.inv_new|done].
Qed.
End reduce_operator.

(** ** A concrete job *)

#[local] Existing Instance demo_json.

Definition demo_enc (m : gmap bytes bytes) : bytes := bytes_of_pos (encode m).
Definition demo_dec (b : bytes) : gmap bytes bytes := default ∅ (decode (pos_of_bytes b)).
Lemma demo_codec m : demo_dec (demo_enc m) = m.
Proof. unfold demo_dec, demo_enc. by rewrite pos_of_bytes_of, decode_encode. Qed.

#[local] Instance demo_reduce : StreamOperator (ReduceOperator Memory.MemoryBackend) := reduce_stream demo_enc demo_dec demo_codec demo_count.

(** One partition with three records; a checkpoint is taken after two. *)
Definition demo_log (k : PositionKey) : list Record_ :=
  if decide (k = (bs "orders", 0)) then demo_kafka <$> [0; 1; 2] else [].
Definition demo_job_events : list ievent := [EvRecord (demo_kafka 0); EvRecord (demo_kafka 1); EvTick; EvRecord (demo_kafka 2)].
Definition demo_job : injector := job_injector map_to_list demo_quiet_env demo_key (λ _, true) 99 demo_job_events.

(** What the operator makes of the stream. *)
Definition demo_counted (off : Z) (n : bytes) : Record_ := update_record (demo_kafka off) n.
Lemma demo_output : (so_run so_init (out demo_job)).2
  = [demo_counted 0 (bs "x"); demo_counted 1 (bs "xx"); NewBarrier (bs "cp-99-1"); demo_counted 2 (bs "xxx")].
Proof. vm_compute. reflexivity. Qed.

(** The sink has taken two records when the barrier is reported, and dies. *)
Definition demo_crash : sink_state :=
  mkSinkState [demo_counted 2 (bs "xxx")] AtReceive true [] [demo_counted 0 (bs "x"); demo_counted 1 (bs "xx")] None false
    [(bs "cp-99-1", [demo_counted 0 (bs "x"); demo_counted 1 (bs "xx")])].

Lemma demo_crash_reached : rtc (sink_step (mkSinkStage true false)) (sink_init (so_run so_init (out demo_job)).2) demo_crash.
Proof.
  rewrite demo_output. unfold sink_init.
  do 2 (eapply rtc_l; [apply sink_receive|]; eapply rtc_l; [apply sink_send; cbn; unfold Merge.internalBuf; lia|]).
  eapply rtc_l; [apply sink_receive|]. do 2 (eapply rtc_l; [apply sink_take|]). eapply rtc_l; [apply sink_report|]. apply rtc_refl.
Qed.

Definition demo_cps : CheckpointSource := mkCheckpointSource (Ok []) (λ _, None).
Definition demo_job_env : job_env :=
  mkJobEnv [mkLayer None None None false false false false; mkLayer None (Some demo_cps) (Some demo_key) false false false true]
    (Some (mkSinkObj None false)) None 1000 true.
Definition demo_job_ops : list operator := [mkOperator true None (Some (Ok [])) true].
Definition demo_state : list bytes := so_snaps (state_at (demo_kafka <$> [0; 1])).
Definition demo_save : save_env :=
  mkSaveEnv (eng demo_job) {[bs "cp-99-1" := {[op_key 0 := Some (default [] (head demo_state))]}]} ∅.
Definition demo_saved : CheckpointData :=
  checkpoint_record (λ _, None) (λ b, b) demo_job_env None demo_job_ops [] demo_save (bs "cp-99-1") 7.
Definition demo_acts : list act := save_all 3 no_disk [demo_saved].

Lemma demo_log_source : log_source demo_key demo_log demo_job_events.
Proof.
  split; [repeat constructor|..].
  - intros [src pt]. destruct (decide ((src, pt) = (bs "orders", 0) :> PositionKey)) as [E|Hne].
    + injection E as -> ->. vm_compute. exists []. done.
    + replace (part demo_key (src, pt) (delivered demo_job_events)) with ([] : list Record_); [apply prefix_nil|].
change (delivered demo_job_events) with (demo_kafka <$> [0; 1; 2]). unfold part. cbn [fmap list_fmap].
      rewrite !filter_cons_False by (intros [_ E]; apply Hne; by rewrite <- E). done.
  - intros k i r Hi. unfold demo_log in Hi. case_decide; [|done].
    do 3 (destruct i as [|i]; [cbn in Hi; injection Hi as <-; done|]). done.
Qed.

Lemma demo_captured : captured map_to_list (λ _, None) (λ b, b) demo_quiet_env demo_key (λ _, true) 99 demo_job_ops demo_job_events demo_save (bs "cp-99-1").
Proof.
  split; [reflexivity| |by repeat constructor; eexists|].
  - intros k v r _. unfold ref_of. by destruct v.
  - intros pre post Eo.
    assert (out demo_job = [demo_kafka 0; demo_kafka 1; NewBarrier (bs "cp-99-1"); demo_kafka 2]) as Ej by (vm_compute; reflexivity).
    unfold demo_job in Ej. rewrite Ej in Eo. destruct pre as [|a [|b [|c [|d pre]]]]; try discriminate Eo; [|by destruct pre].
    injection Eo as <- <- _. split; [done|]. intros i b Hi. destruct i as [|i]; [|done]. injection Hi as <-.
    split_and!; [by vm_compute|done|by vm_compute].
Qed.


(** ** Sinks that batch *)

(** C40: The sink stage reports a checkpoint while the Kafka sink's batch
    still holds the record ahead of its barrier: the sink has taken the
    record, nothing was flushed, and the checkpoint covers it. *)
Theorem checkpoint_before_flush (c : kafkaSinkConfig) (env : nat → bool → flush_env) (r : Record_) (id : bytes) (m : sink_message) :
  is_data r → recordToKafka c r = Ok m → 1 < batch_size (kafka_writer c env) →
  ∃ st, rtc (sink_step (mkSinkStage true false)) (sink_init [r; NewBarrier id]) st ∧ sk_saved st = [(id, [r])] ∧ sk_taken st = [r]
    ∧ ∃ w, bw_run (kafka_writer c env) bw_init ((λ r, BIn r None false []) <$> sk_taken st) = (w, None) ∧ bs_calls w = [] ∧ bs_batch w = [(m, r)].
Proof.
  intros Hd Hm Hsize. unfold is_data, isMarker in Hd. apply orb_false_iff in Hd as [Hb Hw].
  exists (mkSinkState [] AtReceive true [] [r] None false [(id, [r])]). split_and!; [|done|done|].
  - eapply rtc_l; [apply sink_receive|]. unfold on_receive, after_hook, hidden. cbn [ss_hook ss_coordinated]. rewrite Hb, Hw. cbn [andb orb].
    eapply rtc_l; [apply sink_send; cbn; unfold Merge.internalBuf; lia|]. eapply rtc_l; [apply sink_take|].
    eapply rtc_l; [apply sink_receive|]. eapply rtc_l; [apply sink_report|]. apply rtc_refl.
  - eexists. cbn [sk_taken fmap list_fmap bw_run bw_step]. unfold BatchSink.add. cbn [bw_convert kafka_writer]. unfold sink_convert. rewrite Hm.
    cbn [bs_batch bw_init app length]. destruct (Z.leb_spec (batch_size (kafka_writer c env)) (Z.of_nat 1)); [lia|]. done.
Qed.

Lemma checkpoint_before_flush_witness :
  let c := demo_sink_config FailurePolicyFail in
  ∃ st, rtc (sink_step (mkSinkStage true false)) (sink_init [demo_rec "a"; NewBarrier (bs "cp")]) st ∧ sk_saved st = [(bs "cp", [demo_rec "a"])]
    ∧ sk_taken st = [demo_rec "a"]
    ∧ ∃ w, bw_run (kafka_writer c demo_flush_env) bw_init ((λ r, BIn r None false []) <$> sk_taken st) = (w, None) ∧ bs_calls w = []
        ∧ bs_batch w = [(mkSinkMessage (bs "k") (bs "a") 5 ∅, demo_rec "a")].
Proof.
  intros c. apply (checkpoint_before_flush c demo_flush_env (demo_rec "a") (bs "cp") (mkSinkMessage (bs "k") (bs "a") 5 ∅)); [done|vm_compute; reflexivity|done].
Defined.
