(* ===== verification/Savepoint.v ===== *)
(** * Savepoints ([src/checkpoint/archive.go], [savepoint.go], [blob.go])

    A savepoint is an archive of the newest completed checkpoint, its record and
    the files of its native state, kept in a blob store under a label; it is
    extracted into the storage of another job.

    Paths are absolute and cleaned: the list of their components.  A file system
    maps paths to contents; directories are implicit.  The checkpoint records of
    a storage are those of [Storage].  An archive is the list of its entries and
    the error that ends it, if any.  The JSON of a record is given by its round
    trip; [walk] is the order in which a directory tree is visited. *)

From S2P Require Import Prelude Rfc3339 Decimal Storage.
From Stdlib Require Import Strings.Byte.

(** ** Paths ([path/filepath]) *)

Definition slash : byte := x2f.
Notation path := (list bytes).

(** One element applied to a cleaned absolute path. *)
Definition enter (p : path) (c : bytes) : path :=
  if decide (c = [] ∨ c = bs ".") then p
  else if decide (c = bs "..") then take (length p - 1) p
  else p ++ [c].

(** [filepath.Join] of a cleaned absolute path and a slash-separated text. *)
Definition filepath_Join (p : path) (s : bytes) : path := foldl enter p (strings_Split slash s).

(** [filepath.Rel] of cleaned absolute paths. *)
Fixpoint filepath_Rel (base p : path) : path :=
  match base, p with
  | [], [] => [bs "."]
  | [], p => p
  | b :: base', c :: p' =>
      if decide (b = c) then filepath_Rel base' p' else replicate (length base) (bs "..") ++ p
  | base, [] => replicate (length base) (bs "..")
  end.

(** The text of a path. *)
Definition render (p : path) : bytes := p ≫= λ c, slash :: c.

Notation fsys := (gmap path bytes).

(** ** Archives *)

Definition archiveMetaName : bytes := bs "checkpoint.json".
Definition archiveStateRoot : bytes := bs "state".

Record archive := mkArchive { a_entries : list (bytes * bytes); a_err : option bytes }.

(** A [FileStorage] with its state files. *)
Record file_storage := mkFileStorage { fs_dir : path; fs_retain : Z; fs_disk : disk; fs_files : fsys }.

(** [StateDir] *)
Definition StateDir (st : file_storage) (id : bytes) : path := filepath_Join (fs_dir st) (bs "checkpoint-" ++ id ++ bs ".state").

(** A path below another one: the rest. *)
Fixpoint below (base p : path) : option path :=
  match base, p with
  | [], c :: p => Some (c :: p)
  | b :: base, c :: p => if decide (b = c) then below base p else None
  | _, [] => None
  end.

Section archives.
Context (marshal : CheckpointData → bytes) (unmarshal : bytes → result CheckpointData).
Context (walk : fsys → list (path * bytes)) (range : gmap bytes bytes → list (bytes * bytes)).

(** [walkIntoTar]: the files at or below [base], named relative to the root. *)
Definition walkIntoTar (files : fsys) (root base : path) : list (bytes * bytes) :=
  omap (λ pf, if decide (base `prefix_of` pf.1) then Some (archiveStateRoot ++ render (filepath_Rel root pf.1), pf.2) else None) (walk files).

(** [ArchiveCheckpoint] *)
Definition ArchiveCheckpoint (st : file_storage) (id : bytes) : result archive :=
  match loadSpecific (fs_disk st) id with
  | Err e => Err (bs "checkpoint: archive load " ++ id ++ bs ": " ++ e)
  | Panic e => Panic e
  | Ok None => Err (bs "checkpoint: archive: no checkpoint " ++ id)
  | Ok (Some data) =>
      Ok (mkArchive ((archiveMetaName, marshal data)
           :: (range (StateDirs data) ≫= λ kv, walkIntoTar (fs_files st) (StateDir st id) (filepath_Join (StateDir st id) kv.2))) None)
  end.

(** The loop of [ExtractCheckpoint]: the files written so far, and the record. *)
Fixpoint extract_loop (st : file_storage) (files : fsys) (data : option CheckpointData) (entries : list (bytes * bytes)) : fsys * result (option CheckpointData) :=
  match entries with
  | [] => (files, Ok data)
  | (name, content) :: entries =>
      if decide (name = archiveMetaName) then
        match unmarshal content with
        | Ok x => extract_loop st files (Some x) entries
        | Err e => (files, Err (bs "checkpoint: extract meta: " ++ e))
        | Panic e => (files, Panic e)
        end
      else if has_prefix (archiveStateRoot ++ [slash]) name then
        match data with
        | None => (files, Err (bs "checkpoint: extract: state file before checkpoint.json"))
        | Some x =>
            let stateDir := StateDir st (ID x) in
            let dest := filepath_Join stateDir (drop (length (archiveStateRoot ++ [slash])) name) in
            if has_prefix (render stateDir ++ [slash]) (render dest) then extract_loop st (<[dest := content]> files) data entries
            else (files, Err (bs "checkpoint: extract: unsafe path " ++ name ++ bs " escapes state dir"))
        end
      else extract_loop st files data entries
  end.

(** The native-state directories that exist, as [Storage] sees them: the first
    components below the state root. *)
Definition state_roots (st : file_storage) (files : fsys) (id : bytes) : gset bytes :=
  list_to_set (omap (λ pf, rest ← below (StateDir st id) pf.1; head rest) (map_to_list files)).

(** [ExtractCheckpoint] *)
Definition ExtractCheckpoint (st : file_storage) (a : archive) : file_storage * result bytes :=
  let '(files, r) := extract_loop st (fs_files st) None (a_entries a) in
  let st' := mkFileStorage (fs_dir st) (fs_retain st) (fs_disk st) files in
  match r, a_err a with
  | Err e, _ => (st', Err e)
  | Panic e, _ => (st', Panic e)
  | Ok _, Some e => (st', Err e)
  | Ok None, None => (st', Err (bs "checkpoint: extract: archive missing checkpoint.json"))
  | Ok (Some data), None =>
      match extract_save (fs_retain st) (fs_disk st) data (state_roots st files (ID data)) with
      | Ok acts => (mkFileStorage (fs_dir st) (fs_retain st) (exec (mkDisk (Storage.files (fs_disk st)) (latest (fs_disk st)) (latestCompleted (fs_disk st))
                      (<[ID data := state_roots st files (ID data)]> (stateDirs (fs_disk st)))) acts) files, Ok (ID data))
      | Err e => (st', Err (bs "checkpoint: extract save: " ++ e))
      | Panic e => (st', Panic e)
      end
  end.
End archives.

(** ** Blob stores *)

(** [path] of a key *)
Definition blob_path (key : bytes) : result path :=
  if decide (key = []) then Err (bs "checkpoint: empty blob key")
  else if decide (bs ".." ∈ strings_Split slash key) then Err (bs "checkpoint: invalid blob key " ++ key)
  else Ok (filepath_Join [] key).

Definition ErrBlobNotFound : bytes := bs "checkpoint: blob not found".

(** The interface [Blobstore]. *)
Class Blobstore (B : Type) := {
  Put : B → bytes → archive → B * result unit;
  Get : B → bytes → result archive;
  Exists : B → bytes → result bool;
  List_ : B → bytes → result (list bytes);
  Delete : B → bytes → B * result unit
}.

(** A component of a cleaned path. *)
Definition clean_comp (c : bytes) : Prop := c ≠ [] ∧ c ≠ bs "." ∧ c ≠ bs ".." ∧ slash ∉ c.

(** What its documentation promises of a store that answers: keys name the blobs
    of a map, by their cleaned path. *)
Class BlobstoreLaws (B : Type) `{!Blobstore B} := {
  available : B → Prop;
  view : B → path → option archive;
  put_ok : ∀ b key p a, available b → blob_path key = Ok p → p ≠ [] → a_err a = None →
    ∃ b', Put b key a = (b', Ok tt) ∧ available b' ∧ ∀ q, Forall clean_comp q → view b' q = if decide (q = p) then Some a else view b q;
  put_broken : ∀ b key p a e, blob_path key = Ok p → a_err a = Some e → Put b key a = (b, Err e);
  get_ok : ∀ b key p, available b → blob_path key = Ok p → p ≠ [] →
    Get b key = match view b p with Some a => Ok a | None => Err ErrBlobNotFound end;
  exists_ok : ∀ b key p, available b → blob_path key = Ok p → p ≠ [] → Exists b key = Ok (bool_decide (is_Some (view b p)));
  delete_ok : ∀ b key p, available b → blob_path key = Ok p → p ≠ [] →
    ∃ b', Delete b key = (b', Ok tt) ∧ available b' ∧ ∀ q, Forall clean_comp q → view b' q = if decide (q = p) then None else view b q
}.

(** [FileBlobstore]: what is below its root.  A blob is renamed into place once it
    was read completely. *)
Notation blobs := (gmap path archive).

Definition file_Put (b : blobs) (key : bytes) (a : archive) : blobs * result unit :=
  match blob_path key with
  | Ok p => match a_err a with None => (<[p := a]> b, Ok tt) | Some e => (b, Err e) end
  | Err e => (b, Err e)
  | Panic e => (b, Panic e)
  end.
Definition file_Get (b : blobs) (key : bytes) : result archive :=
  p <-? blob_path key ;; match b !! p with Some a => Ok a | None => Err ErrBlobNotFound end.
Definition file_Exists (b : blobs) (key : bytes) : result bool := p <-? blob_path key ;; Ok (bool_decide (is_Some (b !! p))).
Definition file_Delete (b : blobs) (key : bytes) : blobs * result unit :=
  match blob_path key with Ok p => (delete p b, Ok tt) | Err e => (b, Err e) | Panic e => (b, Panic e) end.
(** A listed key is the path without the leading slash. *)
Definition file_List (b : blobs) (prefix : bytes) : result (list bytes) :=
  Ok (filter (λ k, has_prefix prefix k = true) ((λ pb, drop 1 (render pb.1)) <$> map_to_list b)).

#[export] Instance FileBlobstore : Blobstore blobs :=
  {| Put := file_Put; Get := file_Get; Exists := file_Exists; List_ := file_List; Delete := file_Delete |}.

#[export] Program Instance FileBlobstore_laws : BlobstoreLaws blobs := {| available b := True; view b p := b !! p |}.
Next Obligation.
  intros b key p a _ Hk _ Ha. cbn [Put FileBlobstore]. unfold file_Put. rewrite Hk, Ha. eexists. split_and!; [done|done|].
  intros q _. case_decide; subst; [by rewrite lookup_insert_eq|by rewrite lookup_insert_ne].
Qed.
Next Obligation. intros b key p a e Hk Ha. cbn [Put FileBlobstore]. unfold file_Put. by rewrite Hk, Ha. Qed.
Next Obligation. intros b key p _ Hk _. cbn [Get FileBlobstore]. unfold file_Get. by rewrite Hk. Qed.
Next Obligation. intros b key p _ Hk _. cbn [Exists FileBlobstore]. unfold file_Exists. by rewrite Hk. Qed.
Next Obligation.
  intros b key p _ Hk _. cbn [Delete FileBlobstore]. unfold file_Delete. rewrite Hk. eexists. split_and!; [done|done|].
  intros q _. case_decide; subst; [by rewrite lookup_delete_eq|by rewrite lookup_delete_ne].
Qed.

(** ** Savepoints *)

Definition SavepointPrefix : bytes := bs "savepoints/".
Definition SavepointKey (label : bytes) : bytes := SavepointPrefix ++ label.

Section savepoints.
Context (marshal : CheckpointData → bytes) (unmarshal : bytes → result CheckpointData).
Context (walk : fsys → list (path * bytes)) (range : gmap bytes bytes → list (bytes * bytes)).
Context {B : Type} `{!Blobstore B}.

(** [CreateSavepoint]; an archive that fails fails the upload. *)
Definition CreateSavepoint (st : file_storage) (b : B) (label : bytes) : B * result bytes :=
  match (LoadLatestCompleted (fs_disk st)).1 with
  | None => (b, Err (bs "checkpoint: savepoint " ++ label ++ bs ": no completed checkpoint to promote"))
  | Some data =>
      let a := match ArchiveCheckpoint marshal walk range st (ID data) with Ok a => a | Err e | Panic e => mkArchive [] (Some e) end in
      match Put b (SavepointKey label) a with
      | (b, Ok _) => (b, Ok (ID data))
      | (b, Err e) => (b, Err (bs "checkpoint: savepoint " ++ label ++ bs " put: " ++ e))
      | (b, Panic e) => (b, Panic e)
      end
  end.

(** [RestoreSavepoint] *)
Definition RestoreSavepoint (st : file_storage) (b : B) (label : bytes) : file_storage * result bytes :=
  match Get b (SavepointKey label) with
  | Ok a =>
      match ExtractCheckpoint unmarshal st a with
      | (st, Err e) => (st, Err (bs "checkpoint: restore savepoint " ++ label ++ bs ": " ++ e))
      | r => r
      end
  | Err e => (st, Err (bs "checkpoint: restore savepoint " ++ label ++ bs ": " ++ e))
  | Panic e => (st, Panic e)
  end.

(** [ListSavepoints]: [path.Base] of every key. *)
Definition path_Base (key : bytes) : bytes := default [] (last (filter (λ c, c ≠ []) (strings_Split slash key))).
Definition ListSavepoints (b : B) : result (list bytes) := keys <-? List_ b SavepointPrefix ;; Ok (path_Base <$> keys).
End savepoints.

(** ** Paths *)

Definition plain_path (p : path) : Prop := Forall (λ c, slash ∉ c) p.

Lemma enter_clean p c : clean_comp c → enter p c = p ++ [c].
Proof. intros (H1 & H2 & H3 & _). unfold enter. rewrite decide_False by (by intros [?|?]). by rewrite decide_False. Qed.
Lemma foldl_enter_clean l : ∀ p, Forall clean_comp l → foldl enter p l = p ++ l.
Proof.
  induction l as [|c l IH]; intros p Hl; [by rewrite app_nil_r|]. apply Forall_cons in Hl as [Hc Hl]. cbn [foldl].
  rewrite enter_clean, IH by done. by rewrite <- app_assoc.
Qed.
Lemma enter_plain p c : plain_path p → slash ∉ c → plain_path (enter p c).
Proof.
  intros Hp Hc. unfold enter. case_decide; [done|]. case_decide; [by apply Forall_take|]. apply Forall_app_2; [done|by apply Forall_singleton].
Qed.
Lemma Join_plain p s : plain_path p → plain_path (filepath_Join p s).
Proof.
  intros Hp. unfold filepath_Join. assert (Forall (λ c, slash ∉ c) (strings_Split slash s)) as Hs.
  { apply Forall_forall. intros c. apply strings_Split_free. }
  revert p Hp. induction Hs as [|c l Hc _ IH]; intros p Hp; [done|]. by apply IH, enter_plain.
Qed.

(** The path of a key has only proper components. *)
Lemma blob_path_clean key p : blob_path key = Ok p → Forall clean_comp p.
Proof.
  unfold blob_path. case_decide; [done|]. case_decide as Hdd; [done|]. intros [= <-]. unfold filepath_Join.
  assert (∀ l p, Forall (λ c, slash ∉ c ∧ c ≠ bs "..") l → Forall clean_comp p → Forall clean_comp (foldl enter p l)) as Hl.
  { induction l as [|c l IH]; intros p Hl Hp; [done|]. apply Forall_cons in Hl as [[Hs Hc] Hl]. apply IH; [done|]. unfold enter.
    case_decide as E; [done|]. rewrite decide_False by done. apply Forall_app_2; [done|]. apply Forall_singleton.
    split_and!; [|by intros ->; destruct E; right|done|done]. intros ->. destruct E. by left. }
  apply Hl; [|apply Forall_nil_2]. apply Forall_forall. intros c Hc. split; [by eapply strings_Split_free|]. by intros ->.
Qed.

Lemma Split_render c r : slash ∉ c → plain_path r → strings_Split slash (c ++ render r) = c :: r.
Proof.
  intros Hc Hr. revert c Hc. induction Hr as [|d r Hd _ IH]; intros c Hc.
  - cbn [render mbind list_bind]. rewrite app_nil_r. induction c as [|b c IHc]; [done|]. apply not_elem_of_cons in Hc as [Hb Hc]. cbn [strings_Split].
    rewrite decide_False by congruence. by rewrite IHc.
  - cbn [render mbind list_bind app]. fold (render r). induction c as [|b c IHc]; cbn [app strings_Split].
    + rewrite decide_True by done. by rewrite IH.
    + apply not_elem_of_cons in Hc as [Hb Hc]. rewrite decide_False by congruence. by rewrite IHc.
Qed.

Lemma below_app base c r : below base (base ++ c :: r) = Some (c :: r).
Proof. induction base as [|b base IH]; [done|]. cbn [app below]. by rewrite decide_True. Qed.
Lemma Rel_app base c r : filepath_Rel base (base ++ c :: r) = c :: r.
Proof. induction base as [|b base IH]; [done|]. cbn [app filepath_Rel]. by rewrite decide_True. Qed.
Lemma below_Some base p q : below base p = Some q ↔ p = base ++ q ∧ q ≠ [].
Proof.
  split.
  - revert p. induction base as [|b base IH]; intros [|c p]; cbn [below]; try done; [by intros [= <-]|].
    case_decide as E; [|done]. subst c. intros (-> & Hq)%IH. done.
  - intros [-> Hq]. destruct q as [|c q]; [done|]. apply below_app.
Qed.

(** A text split at its first slash. *)
Lemma slash_split (a b x y : bytes) : slash ∉ a → slash ∉ b → head x = Some slash → (y = [] ∨ head y = Some slash) → a ++ x `prefix_of` b ++ y →
  a = b ∧ x `prefix_of` y.
Proof.
  revert b. induction a as [|c a IH]; intros b Ha Hb Hx Hy Hp; cbn [app] in Hp.
  - destruct b as [|d b]; [done|]. destruct x as [|e x]; [done|]. injection Hx as ->. apply prefix_cons_inv_1 in Hp. destruct Hb. apply elem_of_cons. left. congruence.
  - apply not_elem_of_cons in Ha as [Hc Ha]. destruct b as [|d b]; cbn [app] in Hp.
    + destruct y as [|e y]; [by apply prefix_nil_inv in Hp|]. destruct Hy as [?|Hy]; [done|]. injection Hy as ->.
      apply prefix_cons_inv_1 in Hp. congruence.
    + apply not_elem_of_cons in Hb as [Hd Hb]. pose proof (prefix_cons_inv_1 _ _ _ _ Hp) as ->. apply prefix_cons_inv_2 in Hp.
      by destruct (IH b Ha Hb Hx Hy Hp) as [-> ?].
Qed.
Lemma render_head p : render p = [] ∨ head (render p) = Some slash.
Proof. destruct p; [by left|by right]. Qed.

(** The guard of the extraction: a text prefix is a path prefix. *)
Lemma guard_below base p : plain_path base → plain_path p → has_prefix (render base ++ [slash]) (render p) = true → is_Some (below base p).
Proof.
  intros Hb. rewrite has_prefix_spec. revert p. induction Hb as [|b base Hb _ IH]; intros p Hp Hpre.
  - destruct p as [|c p]; [by apply prefix_nil_inv in Hpre|]. cbn. eauto.
  - destruct p as [|c p]; [by apply prefix_nil_inv in Hpre|]. apply Forall_cons in Hp as [Hc Hp]. cbn in Hpre.
    apply prefix_cons_inv_2 in Hpre. rewrite <- app_assoc in Hpre. fold (render base) (render p) in Hpre.
    apply slash_split in Hpre as [-> Hpre]; [|done|done|by destruct base|apply render_head].
    destruct (IH p Hp Hpre) as [q Hq]. cbn [below]. rewrite decide_True by done. eauto.
Qed.
Lemma guard_passes base c r : has_prefix (render base ++ [slash]) (render (base ++ c :: r)) = true.
Proof.
  apply has_prefix_spec. unfold render. rewrite bind_app. cbn [mbind list_bind]. apply prefix_app. cbn. apply prefix_cons, prefix_nil.
Qed.

(** ** Extraction stays in its directory *)

(** Closed decidable goals. *)
Ltac compute_decide := apply (bool_decide_unpack _); vm_compute; exact I.

Section confined.
Context (unmarshal : bytes → result CheckpointData).

(** A path below the state directory of some record of the archive. *)
Definition confined_to (st : file_storage) (entries : list (bytes * bytes)) (p : path) : Prop :=
  ∃ content x, (archiveMetaName, content) ∈ entries ∧ unmarshal content = Ok x ∧ is_Some (below (StateDir st (ID x)) p).

Lemma confined_weaken st e entries p : confined_to st entries p → confined_to st (e :: entries) p.
Proof. intros (c & x & Hin & H). exists c, x. split; [by right|done]. Qed.

Lemma extract_loop_confined st all entries p : ∀ files data, plain_path (fs_dir st) → (∀ e, e ∈ entries → e ∈ all) →
  (∀ x, data = Some x → ∃ c, (archiveMetaName, c) ∈ all ∧ unmarshal c = Ok x) →
  (extract_loop unmarshal st files data entries).1 !! p ≠ files !! p → confined_to st all p.
Proof.
  induction entries as [|[name content] entries IH]; intros files data Hd Hall Hdata Hne; cbn [extract_loop] in Hne; [done|].
  assert (∀ e, e ∈ entries → e ∈ all) as Hall' by (intros; apply Hall; by right). case_decide as En.
  - destruct (unmarshal content) as [x|e|e] eqn:Eu; [|done|done]. apply (IH files (Some x)); [done|done| |done].
    intros y [= <-]. exists content. split; [|done]. rewrite <- En. apply Hall. left.
  - destruct (has_prefix _ name); [|by eapply IH]. destruct data as [x|]; [|done]. set (dest := filepath_Join _ _) in *.
    destruct (has_prefix (render _ ++ _) _) eqn:Eg; [|done]. destruct (decide (dest = p)) as [<-|Hp].
    + destruct (Hdata x eq_refl) as (c & Hc & Ec). exists c, x. split_and!; [done|done|].
      apply guard_below; [by apply Join_plain|by apply Join_plain, Join_plain|done].
    + apply (IH (<[dest := content]> files) (Some x)); [done|done|done|]. intros E. apply Hne. rewrite E. by apply lookup_insert_ne.
Qed.

Lemma ExtractCheckpoint_files st a : fs_files (ExtractCheckpoint unmarshal st a).1 = (extract_loop unmarshal st (fs_files st) None (a_entries a)).1.
Proof.
  unfold ExtractCheckpoint. destruct (extract_loop _ _ _ _ _) as [files r]. destruct r as [[x|]|e|e], (a_err a); try done.
  by destruct (extract_save _ _ _ _).
Qed.

(** Whatever an archive holds, extracting it changes no file outside
    the state directories its own records name; when no checkpoint ID in it
    contains a slash, all of them lie directly in the storage's directory. *)
Theorem extract_confined (st : file_storage) (a : archive) (p : path) :
  plain_path (fs_dir st) → fs_files (ExtractCheckpoint unmarshal st a).1 !! p ≠ fs_files st !! p →
  confined_to st (a_entries a) p
  ∧ ((∀ content x, (archiveMetaName, content) ∈ a_entries a → unmarshal content = Ok x → slash ∉ ID x) →
     ∃ id, is_Some (below (fs_dir st ++ [bs "checkpoint-" ++ id ++ bs ".state"]) p)).
Proof.
  intros Hd Hne. rewrite ExtractCheckpoint_files in Hne. assert (confined_to st (a_entries a) p) as Hc
    by (by apply (extract_loop_confined st (a_entries a) (a_entries a) p (fs_files st) None)).
  split; [done|]. intros Hid. destruct Hc as (c & x & Hin & Hu & Hb). exists (ID x).
  assert (StateDir st (ID x) = fs_dir st ++ [bs "checkpoint-" ++ ID x ++ bs ".state"]) as <-; [|done].
  unfold StateDir, filepath_Join. set (name := bs "checkpoint-" ++ ID x ++ bs ".state").
  assert (clean_comp name) as Hn.
  { split_and!; [done..|]. unfold name. rewrite !not_elem_of_app. split_and!; [compute_decide|by eapply Hid|compute_decide]. }
  pose proof (Split_render name [] ltac:(apply Hn) (Forall_nil_2 _)) as Hs. cbn [render mbind list_bind] in Hs. rewrite app_nil_r in Hs.
  rewrite Hs. cbn [foldl]. by rewrite enter_clean.
Qed.
End confined.

(** ** Savepoints restore *)

(** A checkpoint newer than the completed ones is found again after its save. *)
Lemma save_found retain d x acts : named d → 1 ≤ retain → CStatus x = StatusCompleted → ID x ≠ [] →
  (∀ id y, files d !! id = Some (Some y) → id ≠ ID x → Completed y = true → Timestamp y < Timestamp x) →
  save retain d x = Ok acts → LoadLatestCompleted (exec d acts) = (Some x, []).
Proof.
  intros Hn Hr Hc Hid Hnew Hs. unfold save in Hs. rewrite Hc in Hs. destruct (decide (StatusCompleted = StatusNone)); [done|].
  case_decide; [|done]. rewrite Hc in Hs. destruct (decide (StatusCompleted = StatusCompleted)); [|done]. injection Hs as <-.
  set (writes := AWrite x :: APointer false (ID x) :: [APointer true (ID x)]). set (d1 := exec d writes).
  change (LoadLatestCompleted (exec d (writes ++ enforceRetention retain d1)) = (Some x, [])).
  unfold exec. rewrite foldl_app. change (foldl apply_act d writes) with d1. fold (exec d1 (enforceRetention retain d1)).
  assert (files d1 = <[ID x := Some x]> (files d)) as Hf by done.
  assert (named d1) as Hn1.
  { intros id y Hy. rewrite Hf in Hy. apply lookup_insert_Some in Hy as [[<- [= <-]]|[_ Hy]]; [done|by apply Hn]. }
  assert (x ∉ victims retain d1) as Hv.
  { apply victims_not_newest; [done|done|]. intros y Hy Hcy Hne. apply elem_of_scan in Hy; [|done]. rewrite Hf in Hy.
    apply lookup_insert_Some in Hy as [[_ [= E]]|[Hk Hy]]; [done|]. by eapply Hnew. }
  assert (x ∈ Storage.scan d1) as Hx by (apply elem_of_scan; [done|]; rewrite Hf; by rewrite lookup_insert_eq).
  unfold enforceRetention. destruct (Z.ltb_spec retain 1); [lia|].
  apply (loadPointer_hit _ true (ID x)).
  - cbn [pointer]. by destruct (exec_removals_lookup d1 (victims retain d1) []) as (_ & _ & _ & ->).
  - destruct (exec_removals_lookup d1 (victims retain d1) (ID x)) as (-> & _). rewrite decide_False; [rewrite Hf; by rewrite lookup_insert_eq|].
    intros Hin. apply Hv. by apply (victim_id retain d1 Hn1).
  - unfold usable, Completed. by rewrite Hc.
Qed.

Section roundtrip.
Context (marshal : CheckpointData → bytes) (unmarshal : bytes → result CheckpointData) (json : ∀ x, unmarshal (marshal x) = Ok x).
Context (walk : fsys → list (path * bytes)) (Hwalk : ∀ m, walk m ≡ₚ map_to_list m).
Context (range : gmap bytes bytes → list (bytes * bytes)) (Hrange : ∀ m, range m ≡ₚ map_to_list m).

(** The archive entry of a state file. *)
Definition entry_of (rc : path * bytes) : bytes * bytes := (archiveStateRoot ++ render rc.1, rc.2).

(** The files written for a list of entries. *)
Definition write_files (root : path) (files : fsys) (l : list (path * bytes)) : fsys := foldl (λ m rc, <[root ++ rc.1 := rc.2]> m) files l.

Lemma extract_loop_entries st x l : ∀ files, Forall (λ rc : path * bytes, rc.1 ≠ [] ∧ Forall clean_comp rc.1) l →
  extract_loop unmarshal st files (Some x) (entry_of <$> l) = (write_files (StateDir st (ID x)) files l, Ok (Some x)).
Proof.
  induction l as [|[rest content] l IH]; intros files Hl; [done|]. apply Forall_cons in Hl as [[Hne Hcl] Hl]. cbn [fst] in Hne, Hcl.
  destruct rest as [|c r]; [done|]. cbn [fmap list_fmap extract_loop entry_of fst snd]. rewrite decide_False by done.
  assert (has_prefix (archiveStateRoot ++ [slash]) (archiveStateRoot ++ render (c :: r)) = true) as -> by done.
  assert (drop (length (archiveStateRoot ++ [slash])) (archiveStateRoot ++ render (c :: r)) = c ++ render r) as -> by done.
  assert (filepath_Join (StateDir st (ID x)) (c ++ render r) = StateDir st (ID x) ++ c :: r) as ->.
  { unfold filepath_Join. rewrite Split_render; [by apply foldl_enter_clean|by apply Forall_cons in Hcl as [(_ & _ & _ & ?) _]|].
    apply Forall_cons in Hcl as [_ Hcl]. eapply Forall_impl; [done|]. by intros ? (_ & _ & _ & ?). }
  rewrite guard_passes. by apply IH.
Qed.

Lemma write_files_lookup root l : ∀ files rest, (∀ c c', (rest, c) ∈ l → (rest, c') ∈ l → c = c') →
  (∀ c, (rest, c) ∈ l → write_files root files l !! (root ++ rest) = Some c)
  ∧ ((∀ c, (rest, c) ∉ l) → write_files root files l !! (root ++ rest) = files !! (root ++ rest)).
Proof.
  induction l as [|[rest' c'] l IH] using rev_ind; intros files rest Hfun; [split; [by intros c ?%elem_of_nil|done]|].
  destruct (IH files rest) as [IH1 IH2]; [intros; eapply Hfun; set_solver|]. unfold write_files in *. rewrite foldl_app. cbn [foldl fst snd].
  destruct (decide (rest' = rest)) as [->|Hne].
  - split; [|intros Hno; destruct (Hno c'); set_solver]. intros c Hc. rewrite (Hfun c c'); [by rewrite lookup_insert_eq|done|set_solver].
  - assert (root ++ rest' ≠ root ++ rest) as Hr by (intros E; by apply app_inv_head in E).
    rewrite lookup_insert_ne by done. split; [intros c Hc; apply IH1; set_solver|]. intros Hno. apply IH2. set_solver.
Qed.

(** The state files an archive takes along. *)
Definition archived (st : file_storage) (data : CheckpointData) : list (path * bytes) :=
  range (StateDirs data) ≫= λ kv,
    omap (λ pf, if decide (filepath_Join (StateDir st (ID data)) kv.2 `prefix_of` pf.1)
                then Some (filepath_Rel (StateDir st (ID data)) pf.1, pf.2) else None)
      (walk (fs_files st)).

Lemma walk_entries files root base :
  walkIntoTar walk files root base
  = entry_of <$> omap (λ pf, if decide (base `prefix_of` pf.1) then Some (filepath_Rel root pf.1, pf.2) else None) (walk files).
Proof.
  unfold walkIntoTar. induction (walk files) as [|pf l IH]; [done|]. cbn [omap list_omap].
  case_decide; [|exact IH].
  cbn [fmap list_fmap]. by rewrite IH.
Qed.

Lemma ArchiveCheckpoint_entries st data : files (fs_disk st) !! ID data = Some (Some data) →
  ArchiveCheckpoint marshal walk range st (ID data) = Ok (mkArchive ((archiveMetaName, marshal data) :: (entry_of <$> archived st data)) None).
Proof.
  intros Hd. unfold ArchiveCheckpoint, loadSpecific. rewrite Hd. do 3 f_equal. unfold archived.
  induction (range (StateDirs data)) as [|kv l IH]; [done|]. cbn [mbind list_bind]. by rewrite IH, walk_entries, fmap_app.
Qed.

(** What of a checkpoint can travel: its state directories are plain names with
    files below them. *)
Record portable (st : file_storage) (data : CheckpointData) : Prop := {
  po_files : ∀ p, is_Some (fs_files st !! p) → Forall clean_comp p;
  po_dirs : ∀ owner rel, StateDirs data !! owner = Some rel →
    clean_comp rel ∧ fs_files st !! (StateDir st (ID data) ++ [rel]) = None
    ∧ ∃ rest, rest ≠ [] ∧ is_Some (fs_files st !! (StateDir st (ID data) ++ rel :: rest))
}.

Lemma elem_of_archived st data rest c : portable st data → (rest, c) ∈ archived st data ↔
  fs_files st !! (StateDir st (ID data) ++ rest) = Some c
  ∧ ∃ owner rel rest', StateDirs data !! owner = Some rel ∧ rest = rel :: rest' ∧ rest' ≠ [].
Proof.
  intros Hp. unfold archived. rewrite list_elem_of_bind.
  assert (∀ owner rel, StateDirs data !! owner = Some rel → filepath_Join (StateDir st (ID data)) rel = StateDir st (ID data) ++ [rel]) as Hj.
  { intros owner rel Ho. destruct (po_dirs _ _ Hp owner rel Ho) as [Hc _].
    pose proof (Split_render rel [] ltac:(apply Hc) (Forall_nil_2 _)) as Hs. cbn [render mbind list_bind] in Hs. rewrite app_nil_r in Hs.
    unfold filepath_Join. rewrite Hs. cbn [foldl]. by apply enter_clean. }
  split.
  - intros ([owner rel] & Hin & Hkv). rewrite Hrange in Hkv. apply elem_of_map_to_list in Hkv. apply list_elem_of_omap in Hin as ([p c'] & Hpf & E).
    rewrite Hwalk in Hpf. apply elem_of_map_to_list in Hpf. cbn [fst snd] in *. rewrite (Hj owner rel Hkv) in E.
    case_decide as Hpre; [|done]. destruct Hpre as [q ->]. rewrite <- app_assoc in E, Hpf. cbn [app] in E, Hpf. rewrite Rel_app in E.
    injection E as <- <-. split; [done|]. exists owner, rel, q. split_and!; [done|done|]. intros ->.
    destruct (po_dirs _ _ Hp owner rel Hkv) as (_ & Hno & _). congruence.
  - intros (Hf & owner & rel & rest' & Ho & -> & Hne). exists (owner, rel). split; [|rewrite Hrange; by apply elem_of_map_to_list].
    apply list_elem_of_omap. exists (StateDir st (ID data) ++ rel :: rest', c). split; [rewrite Hwalk; by apply elem_of_map_to_list|].
    cbn [fst snd]. rewrite (Hj owner rel Ho), Rel_app, decide_True; [done|]. exists rest'. by rewrite <- app_assoc.
Qed.

(** The files after an extraction. *)
Lemma extract_files st dst data : portable st data →
  extract_loop unmarshal dst (fs_files dst) None (a_entries (mkArchive ((archiveMetaName, marshal data) :: (entry_of <$> archived st data)) None))
  = (write_files (StateDir dst (ID data)) (fs_files dst) (archived st data), Ok (Some data)).
Proof.
  intros Hp. cbn [a_entries extract_loop]. rewrite decide_True, json by done. apply extract_loop_entries. apply Forall_forall.
  intros [rest c] Hin. apply elem_of_archived in Hin as (Hf & owner & rel & rest' & _ & -> & _); [|done]. cbn [fst]. split; [done|].
  assert (Forall clean_comp (StateDir st (ID data) ++ rel :: rest')) as Ha by (apply (po_files _ _ Hp); eauto). by apply Forall_app in Ha as [_ ?].
Qed.

Lemma written_files st dst data owner rel rest : portable st data → StateDirs data !! owner = Some rel → rest ≠ [] →
  is_Some (fs_files st !! (StateDir st (ID data) ++ rel :: rest)) →
  write_files (StateDir dst (ID data)) (fs_files dst) (archived st data) !! (StateDir dst (ID data) ++ rel :: rest)
  = fs_files st !! (StateDir st (ID data) ++ rel :: rest).
Proof.
  intros Hp Ho Hne [c Hc].
  destruct (write_files_lookup (StateDir dst (ID data)) (archived st data) (fs_files dst) (rel :: rest)) as [Hw _].
  { intros c1 c2 H1 H2. apply elem_of_archived in H1 as [H1 _], H2 as [H2 _]; [|done..]. congruence. }
  rewrite Hc. apply Hw. apply elem_of_archived; [done|]. split; [done|]. by exists owner, rel, rest.
Qed.

Lemma extracted_has_state st dst data : portable st data →
  let fs' := write_files (StateDir dst (ID data)) (fs_files dst) (archived st data) in
  map_Forall (λ _ rel, rel ∈ state_roots dst fs' (ID data)) (StateDirs data).
Proof.
  intros Hp fs' owner rel Ho. destruct (po_dirs _ _ Hp owner rel Ho) as (_ & _ & rest & Hne & Hs).
  pose proof (written_files st dst data owner rel rest Hp Ho Hne Hs) as Hw. destruct Hs as [c Hc]. rewrite Hc in Hw.
  unfold state_roots. apply elem_of_list_to_set, list_elem_of_omap. exists (StateDir dst (ID data) ++ rel :: rest, c).
  split; [by apply elem_of_map_to_list|]. cbn [fst]. by rewrite below_app.
Qed.

(** A savepoint brings the newest completed checkpoint and its state along. *)
Lemma savepoint_roundtrip {B : Type} `{!Blobstore B, !BlobstoreLaws B} st dst (b : B) label data p :
  (LoadLatestCompleted (fs_disk st)).1 = Some data → named (fs_disk st) → portable st data →
  available b → blob_path (SavepointKey label) = Ok p → p ≠ [] →
  named (fs_disk dst) → 1 ≤ fs_retain dst →
  (∀ id y, files (fs_disk dst) !! id = Some (Some y) → id ≠ ID data → Completed y = true → Timestamp y < Timestamp data) →
  let '(b', created) := CreateSavepoint marshal walk range st b label in
  let '(dst', restored) := RestoreSavepoint unmarshal dst b' label in
  created = Ok (ID data) ∧ restored = Ok (ID data)
  ∧ LoadLatestCompleted (fs_disk dst') = (Some (setStatus data StatusCompleted), [])
  ∧ ∀ owner rel rest, StateDirs data !! owner = Some rel → rest ≠ [] → is_Some (fs_files st !! (StateDir st (ID data) ++ rel :: rest)) →
      fs_files dst' !! (StateDir dst (ID data) ++ rel :: rest) = fs_files st !! (StateDir st (ID data) ++ rel :: rest).
Proof.
  intros Hl Hn Hp Hb Hk Hp0 Hnd Hr Hnew. assert (files (fs_disk st) !! ID data = Some (Some data) ∧ ID data ≠ []) as [Hf Hid].
  { destruct (loadPointer_file _ true data Hl) as [id Hd]. by destruct (Hn id data Hd) as [-> ?]. }
  unfold CreateSavepoint. rewrite Hl, (ArchiveCheckpoint_entries st data Hf). set (a := mkArchive _ None).
  destruct (put_ok b (SavepointKey label) p a Hb Hk Hp0 eq_refl) as (b' & -> & Hb' & Hv).
  unfold RestoreSavepoint. rewrite (get_ok b' _ p Hb' Hk Hp0), Hv by (by eapply blob_path_clean). rewrite decide_True by done.
  unfold ExtractCheckpoint, a. rewrite (extract_files st dst data Hp).
  cbn [a_err]. set (fs' := write_files _ _ _). unfold extract_save.
  set (d' := mkDisk _ _ _ _). set (x := setStatus data StatusCompleted).
  assert (∃ acts, save (fs_retain dst) d' x = Ok acts) as [acts Es].
  { assert (has_state d' x) as Hs.
    { unfold has_state. cbn [StateDirs x setStatus stateDirs d' ID]. rewrite lookup_insert_eq. exact (extracted_has_state st dst data Hp). }
    unfold save. change (CStatus x) with StatusCompleted. destruct (decide (StatusCompleted = StatusNone)); [done|].
    destruct (decide (has_state d' x)); [eauto|done]. }
  rewrite Es. cbn [fs_disk fs_files]. split_and!; [done|done| |].
  - by apply (save_found (fs_retain dst) d' x acts).
  - intros owner rel rest Ho Hne Hs. by eapply written_files.
Qed.

End roundtrip.

(** ** A concrete savepoint *)

Definition status_code (s : Status) : nat := match s with StatusPrepared => O | StatusCompleted => S O | StatusNone => S (S O) end.
Definition status_of (n : nat) : Status := match n with O => StatusPrepared | S O => StatusCompleted | _ => StatusNone end.
Definition ck_tuple (x : CheckpointData) : bytes * Z * gmap bytes bytes * gmap bytes bytes * nat * bytes * gmap bytes bytes :=
  (ID x, Timestamp x, Operators x, Storage.Source x, status_code (CStatus x), TxnID x, StateDirs x).
Definition ck_of (t : bytes * Z * gmap bytes bytes * gmap bytes bytes * nat * bytes * gmap bytes bytes) : CheckpointData :=
  let '(id, ts, ops, src, s, txn, dirs) := t in mkCheckpoint id ts ops src (status_of s) txn dirs.
Definition demo_marshal (x : CheckpointData) : bytes := bytes_of_pos (encode (ck_tuple x)).
Definition demo_unmarshal (b : bytes) : result CheckpointData :=
  match decode (pos_of_bytes b) with Some t => Ok (ck_of t) | None => Err (bs "invalid") end.
Lemma demo_roundtrip x : demo_unmarshal (demo_marshal x) = Ok x.
Proof. unfold demo_unmarshal, demo_marshal. rewrite pos_of_bytes_of, decode_encode. by destruct x as [? ? ? ? []]. Qed.

Definition demo_source_disk : disk :=
  let x := mkCheckpoint (bs "cp-7") 40 {[bs "op-0" := bs "sum"]} ∅ StatusCompleted [] {[bs "worker-0" := bs "worker-0"]} in
  mkDisk {[bs "cp-7" := Some x]} (Some (bs "cp-7")) (Some (bs "cp-7")) {[bs "cp-7" := {[bs "worker-0"]}]}.
Definition demo_checkpoint : CheckpointData :=
  mkCheckpoint (bs "cp-7") 40 {[bs "op-0" := bs "sum"]} ∅ StatusCompleted [] {[bs "worker-0" := bs "worker-0"]}.
Definition demo_source : file_storage :=
  mkFileStorage [bs "data"; bs "a"] 3 demo_source_disk
    {[[bs "data"; bs "a"; bs "checkpoint-cp-7.state"; bs "worker-0"; bs "000001.sst"] := bs "table"]}.
Definition demo_target : file_storage := mkFileStorage [bs "data"; bs "b"] 3 (mkDisk ∅ None None ∅) ∅.

Lemma demo_portable : portable demo_source demo_checkpoint.
Proof.
  split.
  - intros p [c Hc]. unfold demo_source in Hc. cbn [fs_files] in Hc. apply lookup_singleton_Some in Hc as [<- _].
    repeat (apply Forall_cons; split; [split_and!; [done..|compute_decide]|]). apply Forall_nil_2.
  - intros owner rel Ho. cbn [StateDirs demo_checkpoint] in Ho. apply lookup_singleton_Some in Ho as [_ <-]. split; [split_and!; [done..|compute_decide]|].
    split; [vm_compute; done|]. exists [bs "000001.sst"]. split; [done|]. vm_compute. eauto.
Qed.


(** An archive whose record names itself across directories. *)
Definition demo_hostile : archive :=
  mkArchive [(archiveMetaName, demo_marshal (mkCheckpoint (bs "x/../../../etc/job") 1 ∅ ∅ StatusCompleted [] ∅)); (bs "state/cron", bs "boom")] None.

Lemma extract_confined_witness :
  let p := [bs "etc"; bs "job.state"; bs "cron"] in
  confined_to demo_unmarshal demo_target (a_entries demo_hostile) p
  ∧ ((∀ content x, (archiveMetaName, content) ∈ a_entries demo_hostile → demo_unmarshal content = Ok x → slash ∉ ID x) →
     ∃ id, is_Some (below (fs_dir demo_target ++ [bs "checkpoint-" ++ id ++ bs ".state"]) p)).
Proof.
  apply (extract_confined demo_unmarshal demo_target demo_hostile).
  - repeat (apply Forall_cons; split; [compute_decide|]). apply Forall_nil_2.
  - vm_compute. discriminate.
Defined.

(** The guard is relative to a directory the archive chooses: the file lands
    outside the storage. *)
Example extract_id_escapes :
  let '(dst, r) := ExtractCheckpoint demo_unmarshal demo_target demo_hostile in
  r = Ok (bs "x/../../../etc/job") ∧ fs_files dst !! [bs "etc"; bs "job.state"; bs "cron"] = Some (bs "boom")
  ∧ below (fs_dir demo_target) [bs "etc"; bs "job.state"; bs "cron"] = None.
Proof. vm_compute. done. Qed.

(** A label with a slash is listed without its first part. *)
Example nested_label_listed :
  let '(b, _) := CreateSavepoint demo_marshal map_to_list map_to_list demo_source (∅ : blobs) (bs "team/nightly") in
  ListSavepoints b = Ok [bs "nightly"] ∧ Get b (SavepointKey (bs "nightly")) = Err ErrBlobNotFound.
Proof. vm_compute. done. Qed.
