(* ===== verification/JsonText.v ===== *)
(** * JSON text ([encoding/json])

    What the sinks use of the standard library: [json.Valid], which is the
    library's scanner, a pushdown automaton over the bytes of a text, and the
    quoting of strings by [json.Marshal]. *)

From S2P Require Import Prelude Rfc3339 Decimal.
From Stdlib Require Import Strings.Byte.

(** ** The scanner *)

(** What encloses the value being scanned. *)
Inductive parse_state := ParseObjectKey | ParseObjectValue | ParseArrayValue.

Inductive scan_state :=
| BeginValueOrEmpty | BeginValue | BeginStringOrEmpty | BeginString | EndValue | EndTop
| InString | InStringEsc | EscU | EscU1 | EscU12 | EscU123
| Neg | Int1 | Int0 | Dot | Dot0 | Exp | ExpSign | Exp0
| LitT | LitTr | LitTru | LitF | LitFa | LitFal | LitFals | LitN | LitNu | LitNul.

Definition isSpace (c : byte) : bool := let z := Z_of_byte c in (z =? 32) || (z =? 9) || (z =? 13) || (z =? 10).
Definition isDigit (c : byte) : bool := let z := Z_of_byte c in (48 <=? z) && (z <=? 57).
Definition isHex (c : byte) : bool :=
  let z := Z_of_byte c in isDigit c || ((97 <=? z) && (z <=? 102)) || ((65 <=? z) && (z <=? 70)).

Notation scanner := (scan_state * list parse_state)%type.

Section scanner.
Context (max : nat).

Definition pushed (ps : parse_state) (st : scan_state) (stack : list parse_state) : option scanner :=
  if decide (length (ps :: stack) ≤ max)%nat then Some (st, ps :: stack) else None.
Definition popped (stack : list parse_state) : option scanner := Some (match stack with [] => EndTop | _ => EndValue end, stack).

Definition end_value (stack : list parse_state) (c : byte) : option scanner :=
  match stack with
  | [] => if isSpace c then Some (EndTop, []) else None
  | ps :: rest =>
      if isSpace c then Some (EndValue, stack)
      else match ps with
           | ParseObjectKey => if decide (c = x3a) then Some (BeginValue, ParseObjectValue :: rest) else None
           | ParseObjectValue =>
               if decide (c = x2c) then Some (BeginString, ParseObjectKey :: rest)
               else if decide (c = x7d) then popped rest else None
           | ParseArrayValue =>
               if decide (c = x2c) then Some (BeginValue, stack)
               else if decide (c = x5d) then popped rest else None
           end
  end.

Definition begin_value (stack : list parse_state) (c : byte) : option scanner :=
  if isSpace c then Some (BeginValue, stack)
  else if decide (c = x7b) then pushed ParseObjectKey BeginStringOrEmpty stack
  else if decide (c = x5b) then pushed ParseArrayValue BeginValueOrEmpty stack
  else if decide (c = x22) then Some (InString, stack)
  else if decide (c = x2d) then Some (Neg, stack)
  else if decide (c = x30) then Some (Int0, stack)
  else if decide (c = x74) then Some (LitT, stack)
  else if decide (c = x66) then Some (LitF, stack)
  else if decide (c = x6e) then Some (LitN, stack)
  else if isDigit c then Some (Int1, stack) else None.

Definition begin_string (stack : list parse_state) (c : byte) : option scanner :=
  if isSpace c then Some (BeginString, stack) else if decide (c = x22) then Some (InString, stack) else None.

Definition letter (want : byte) (st : scan_state) (stack : list parse_state) (c : byte) : option scanner :=
  if decide (c = want) then Some (st, stack) else None.
Definition hex (st : scan_state) (stack : list parse_state) (c : byte) : option scanner := if isHex c then Some (st, stack) else None.

(** After the digits before a point, and after those behind it. *)
Definition int_end (stack : list parse_state) (c : byte) : option scanner :=
  if decide (c = x2e) then Some (Dot, stack) else if decide (c = x65 ∨ c = x45) then Some (Exp, stack) else end_value stack c.

Definition scan_step (s : scanner) (c : byte) : option scanner :=
  let '(st, stack) := s in
  match st with
  | BeginValueOrEmpty =>
      if isSpace c then Some (BeginValueOrEmpty, stack) else if decide (c = x5d) then end_value stack c else begin_value stack c
  | BeginValue => begin_value stack c
  | BeginStringOrEmpty =>
      if isSpace c then Some (BeginStringOrEmpty, stack)
      else if decide (c = x7d) then end_value (match stack with _ :: rest => ParseObjectValue :: rest | [] => [] end) c
      else begin_string stack c
  | BeginString => begin_string stack c
  | EndValue => end_value stack c
  | EndTop => if isSpace c then Some (EndTop, stack) else None
  | InString =>
      if decide (c = x22) then Some (EndValue, stack) else if decide (c = x5c) then Some (InStringEsc, stack)
      else if Z_of_byte c <? 32 then None else Some (InString, stack)
  | InStringEsc =>
      if decide (c ∈ [x62; x66; x6e; x72; x74; x5c; x2f; x22]) then Some (InString, stack)
      else if decide (c = x75) then Some (EscU, stack) else None
  | EscU => hex EscU1 stack c
  | EscU1 => hex EscU12 stack c
  | EscU12 => hex EscU123 stack c
  | EscU123 => hex InString stack c
  | Neg => if decide (c = x30) then Some (Int0, stack) else if isDigit c then Some (Int1, stack) else None
  | Int1 => if isDigit c then Some (Int1, stack) else int_end stack c
  | Int0 => int_end stack c
  | Dot => if isDigit c then Some (Dot0, stack) else None
  | Dot0 => if isDigit c then Some (Dot0, stack) else if decide (c = x65 ∨ c = x45) then Some (Exp, stack) else end_value stack c
  | Exp => if decide (c = x2b ∨ c = x2d) then Some (ExpSign, stack) else if isDigit c then Some (Exp0, stack) else None
  | ExpSign => if isDigit c then Some (Exp0, stack) else None
  | Exp0 => if isDigit c then Some (Exp0, stack) else end_value stack c
  | LitT => letter x72 LitTr stack c
  | LitTr => letter x75 LitTru stack c
  | LitTru => letter x65 EndValue stack c
  | LitF => letter x61 LitFa stack c
  | LitFa => letter x6c LitFal stack c
  | LitFal => letter x73 LitFals stack c
  | LitFals => letter x65 EndValue stack c
  | LitN => letter x75 LitNu stack c
  | LitNu => letter x6c LitNul stack c
  | LitNul => letter x6c EndValue stack c
  end.

Fixpoint scan_text (s : scanner) (l : bytes) : option scanner :=
  match l with [] => Some s | c :: l => s ← scan_step s c; scan_text s l end.

(** [eof] *)
Definition ended (s : scanner) : bool :=
  match s.1 with
  | EndTop => true
  | _ => match scan_step s x20 with Some (EndTop, _) => true | _ => false end
  end.

(** Is a text one value, nested at most [max] deep? *)
Definition valid_within (l : bytes) : bool := match scan_text (BeginValue, []) l with Some s => ended s | None => false end.
End scanner.

Definition maxNestingDepth : Z := 10000.

(** [json.Valid] *)
Definition json_Valid (l : bytes) : bool := valid_within (Z.to_nat maxNestingDepth) l.

(** ** Strings *)

(** The length of the rune at the head of a text with a byte above ASCII; 0 when
    the encoding is not valid ([utf8.DecodeRuneInString]). *)
Definition cont (c : byte) : bool := let z := Z_of_byte c in (128 <=? z) && (z <=? 191).
Definition within (a b : Z) (c : byte) : bool := let z := Z_of_byte c in (a <=? z) && (z <=? b).
Definition rune_len (s : bytes) : nat :=
  match s with
  | b :: c :: s =>
      if within 194 223 b then if cont c then 2%nat else 0%nat
      else
        let second3 := if within 224 224 b then within 160 191 c else if within 237 237 b then within 128 159 c else cont c in
        let second4 := if within 240 240 b then within 144 191 c else if within 244 244 b then within 128 143 c else cont c in
        if within 224 239 b then match s with d :: _ => if second3 && cont d then 3%nat else 0%nat | [] => 0%nat end
        else if within 240 244 b then match s with d :: e :: _ => if second4 && cont d && cont e then 4%nat else 0%nat | _ => 0%nat end
        else 0%nat
  | _ => 0%nat
  end.

Definition hex_digit (z : Z) : byte := byte_of_Z (if z <? 10 then 48 + z else 87 + z).

(** An ASCII byte in a JSON string. *)
Definition escape_ascii (c : byte) : bytes :=
  let z := Z_of_byte c in
  if decide (c = x22 ∨ c = x5c) then [x5c; c]
  else if z =? 8 then bs "\b" else if z =? 12 then bs "\f"
  else if z =? 10 then bs "\n" else if z =? 13 then bs "\r" else if z =? 9 then bs "\t"
  else if (z <? 32) || (z =? 60) || (z =? 62) || (z =? 38) then bs "\u00" ++ [hex_digit (z / 16); hex_digit (z mod 16)]
  else [c].

(** The inside of a quoted string ([appendString] with HTML escapes). *)
Fixpoint quote_body (s : bytes) : bytes :=
  match s with
  | [] => []
  | b :: s1 =>
      if Z_of_byte b <? 128 then escape_ascii b ++ quote_body s1
      else
        match rune_len s, s1 with
        | 2%nat, c :: s2 => [b; c] ++ quote_body s2
        | 3%nat, c :: d :: s3 =>
            (if decide ([b; c] = [xe2; x80]) then
               if decide (d = xa8) then bs "\u2028" else if decide (d = xa9) then bs "\u2029" else [b; c; d]
             else [b; c; d]) ++ quote_body s3
        | 4%nat, c :: d :: e :: s4 => [b; c; d; e] ++ quote_body s4
        | _, _ => bs "\ufffd" ++ quote_body s1
        end
  end.

(** [json.Marshal] of a string *)
Definition json_quote (s : bytes) : bytes := x22 :: quote_body s ++ [x22].

Example quote_demo : json_quote [x61; x22; x0a; x3c; xff; xc3; xa9] = [x22; x61; x5c; x22] ++ bs "\n\u003c\ufffd" ++ [xc3; xa9; x22].
Proof. vm_compute. reflexivity. Qed.
Example valid_demo : json_Valid (bs " [1, -0.5e+3, {}, [ ], true] ") = true ∧ json_Valid (bs "[1,]") = false ∧ json_Valid (bs "01") = false
  ∧ json_Valid [] = false.
Proof. vm_compute. done. Qed.

(** ** Scanning inside an array *)

Lemma scan_text_app max l l' : ∀ s, scan_text max s (l ++ l') = scan_text max s l ≫= λ s, scan_text max s l'.
Proof. induction l as [|c l IH]; intros s; [done|]. cbn [app scan_text]. destruct (scan_step max s c); [apply IH|done]. Qed.

(** A scan of a text of its own, seen from inside an enclosing value. *)
Definition lift (base : list parse_state) (s : scanner) : scanner :=
  match s.1 with EndTop => (EndValue, base) | st => (st, s.2 ++ base) end.

(** The top is left only with an empty stack. *)
Definition at_top (s : scanner) : Prop := s.1 = EndTop → s.2 = [].

Section enclosed.
Context (max : nat) (ps : parse_state) (rest : list parse_state).
Local Notation base := (ps :: rest).
Local Notation max' := (max + length base)%nat.

Lemma end_value_lift stack c s : end_value stack c = Some s → at_top s ∧ end_value (stack ++ base) c = Some (lift base s).
Proof.
  unfold end_value. destruct stack as [|p stack]; cbn [app].
  - destruct (isSpace c); [|done]. by intros [= <-].
  - destruct (isSpace c); [by intros [= <-]|]. destruct p; repeat case_decide; try done; try (by intros [= <-]);
      intros [= <-]; destruct stack; done.
Qed.
Lemma pushed_lift p st stack s : st ≠ EndTop → pushed max p st stack = Some s → at_top s ∧ pushed max' p st (stack ++ base) = Some (lift base s).
Proof.
  intros Hst. unfold pushed. case_decide as H; [|done]. intros [= <-]. split; [by intros ?|].
  rewrite decide_True by (cbn [length] in *; rewrite length_app; cbn [length]; lia). by destruct st.
Qed.
Lemma begin_value_lift stack c s : begin_value max stack c = Some s → at_top s ∧ begin_value max' (stack ++ base) c = Some (lift base s).
Proof.
  unfold begin_value. destruct (isSpace c); [by intros [= <-]|].
  case_decide; [by apply pushed_lift|]. case_decide; [by apply pushed_lift|].
  repeat (case_decide; [by intros [= <-]|]). destruct (isDigit c); [by intros [= <-]|done].
Qed.
Lemma begin_string_lift stack c s : begin_string stack c = Some s → at_top s ∧ begin_string (stack ++ base) c = Some (lift base s).
Proof. unfold begin_string. destruct (isSpace c); [by intros [= <-]|]. case_decide; [by intros [= <-]|done]. Qed.
Lemma int_end_lift stack c s : int_end stack c = Some s → at_top s ∧ int_end (stack ++ base) c = Some (lift base s).
Proof.
  unfold int_end. case_decide; [by intros [= <-]|]. case_decide; [by intros [= <-]|]. apply end_value_lift.
Qed.

Lemma scan_step_lift s c s' : at_top s → scan_step max s c = Some s' → at_top s' ∧ scan_step max' (lift base s) c = Some (lift base s').
Proof.
  destruct s as [st stack]. intros Ht. destruct st; cbn [scan_step lift fst snd]; unfold hex, letter;
    try (by apply begin_value_lift); try (by apply end_value_lift); try (by apply begin_string_lift); try (by apply int_end_lift);
    repeat (case_match || case_decide); try done; try (by intros [= <-]); simplify_eq/=;
    try (by apply begin_value_lift); try (by apply end_value_lift); try (by apply begin_string_lift); try (by apply int_end_lift).
  - done.
  - intros [= <-]. by destruct l.
  - intros [= <-]. assert (stack = []) as -> by exact (Ht eq_refl). split; [done|]. by rewrite H.
Qed.

Lemma scan_text_lift l : ∀ s s', at_top s → scan_text max s l = Some s' → at_top s' ∧ scan_text max' (lift base s) l = Some (lift base s').
Proof.
  induction l as [|c l IH]; intros s s' Ht; cbn [scan_text]; [by intros [= <-]|].
  destruct (scan_step max s c) as [s1|] eqn:E; [|done]. destruct (scan_step_lift s c s1 Ht E) as [Ht1 ->]. cbn [mbind option_bind]. by apply IH.
Qed.

(** Behind a complete value the enclosing one goes on. *)
Lemma ended_lift s c : at_top s → ended max s = true → isSpace c = false → isDigit c = false → c ∉ [x2e; x65; x45] →
  scan_step max' (lift base s) c = end_value base c.
Proof.
  destruct s as [st stack]. intros Ht He Hs Hd Hc. rewrite !not_elem_of_cons in Hc. destruct Hc as (Hc1 & Hc2 & Hc3 & _).
  assert (stack = [] → st ∈ [EndValue; Int1; Int0; Dot0; Exp0] → scan_step max' (st, base) c = end_value base c) as Hnum.
  { intros _ Hst. repeat (apply elem_of_cons in Hst as [-> | Hst]); cbn [scan_step]; unfold int_end; rewrite ?Hd, ?decide_False by naive_solver; try done.
    by apply elem_of_nil in Hst. }
  destruct st; cbn [lift fst]; try discriminate He; try done; destruct stack as [|p stack]; try (by destruct p); apply Hnum; set_solver.
Qed.

Lemma value_enclosed l c : valid_within max l = true → isSpace c = false → isDigit c = false → c ∉ [x2e; x65; x45] →
  scan_text max' (BeginValue, base) (l ++ [c]) = end_value base c.
Proof.
  unfold valid_within. destruct (scan_text max (BeginValue, []) l) as [s|] eqn:E; [|done]. intros He Hs Hd Hc.
  destruct (scan_text_lift l (BeginValue, []) s) as [Ht El]; [done|done|]. rewrite scan_text_app.
  change (lift base (BeginValue, [])) with (BeginValue, base) in El. rewrite El. cbn [mbind option_bind scan_text].
  rewrite (ended_lift s c) by done. by destruct (end_value base c).
Qed.
End enclosed.

(** ** Quoted strings *)

(** A printable piece of a string that leaves the scanner inside the string. *)
Record in_string (l : bytes) : Prop := {
  is_scan : ∀ max stack, scan_text max (InString, stack) l = Some (InString, stack);
  is_printable : Forall (λ c, 32 ≤ Z_of_byte c) l
}.

Lemma in_string_app l l' : in_string l → in_string l' → in_string (l ++ l').
Proof. intros [H P] [H' P']. split; [|by apply Forall_app_2]. intros max stack. rewrite scan_text_app, H. apply H'. Qed.
Lemma in_string_high l : Forall (λ c, 128 ≤ Z_of_byte c) l → in_string l.
Proof.
  induction 1 as [|c l Hc _ IH]; [split; [done|constructor]|]. change (c :: l) with ([c] ++ l). apply in_string_app; [|done].
  split; [|by repeat constructor; lia]. intros max stack. cbn [scan_text scan_step]. rewrite !decide_False by (intros ->; vm_compute in Hc; done).
  destruct (Z.ltb_spec (Z_of_byte c) 32); [lia|done].
Qed.
Lemma escape_in_string c : Z_of_byte c < 128 → in_string (escape_ascii c).
Proof. intros Hc. destruct c; vm_compute in Hc; try done; (split; [reflexivity|repeat constructor; done]). Qed.
Lemma replacement_in_string : in_string (bs "\ufffd") ∧ in_string (bs "\u2028") ∧ in_string (bs "\u2029").
Proof. split_and!; (split; [reflexivity|repeat constructor; done]). Qed.

Lemma rune_len_high s : match rune_len s, s with
  | 2%nat, b :: c :: _ => 128 ≤ Z_of_byte c
  | 3%nat, b :: c :: d :: _ => 128 ≤ Z_of_byte c ∧ 128 ≤ Z_of_byte d
  | 4%nat, b :: c :: d :: e :: _ => 128 ≤ Z_of_byte c ∧ 128 ≤ Z_of_byte d ∧ 128 ≤ Z_of_byte e
  | _, _ => True
  end.
Proof.
  destruct s as [|b [|c s]]; [done..|]. unfold rune_len, cont, within. cbv zeta.
  repeat case_match; try done; b2p; lia.
Qed.

Lemma quote_body_in_string s : in_string (quote_body s).
Proof.
  assert (∀ n s, (length s ≤ n)%nat → in_string (quote_body s)) as H; [|by eapply H]. clear s. destruct replacement_in_string as (Hr1 & Hr2 & Hr3).
  induction n as [|n IH]; intros [|b s] Hn; cbn [length] in Hn; try lia; try (by split; [|constructor]). cbn [quote_body].
  destruct (Z.ltb_spec (Z_of_byte b) 128) as [Hb|Hb]; [apply in_string_app; [by apply escape_in_string|apply IH; lia]|].
  assert (in_string (bs "\ufffd" ++ quote_body s)) as Hbad by (apply in_string_app; [done|apply IH; lia]).
  pose proof (rune_len_high (b :: s)) as Hr. destruct (rune_len (b :: s)) as [|[|[|[|[|]]]]]; try done; destruct s as [|c [|d [|e s]]]; try done;
    cbn [length] in Hn; (apply in_string_app; [|apply IH; cbn [length]; lia]);
    repeat case_decide; try done; apply in_string_high; repeat constructor; lia.
Qed.

Lemma quote_valid max s : valid_within max (json_quote s) = true.
Proof.
  unfold valid_within, json_quote. cbn [scan_text].
  change (scan_step max (BeginValue, []) x22) with (Some (InString, [] : list parse_state)). cbn [mbind option_bind].
  rewrite scan_text_app, (is_scan _ (quote_body_in_string s)). reflexivity.
Qed.

(** A quoted string is one line. *)
Lemma quote_printable s : Forall (λ c, 32 ≤ Z_of_byte c) (json_quote s).
Proof.
  unfold json_quote. apply Forall_cons_2; [done|]. apply Forall_app_2; [apply quote_body_in_string|by repeat constructor].
Qed.
