(* ===== verification/HttpSink.v ===== *)
(** * HTTP and object-store sinks ([src/sink/http.go], [s3.go], [dlq.go])

    Both sinks are built on the synchronous batch writer of [BatchSink]: a flush
    serializes the batch, gives what cannot be serialized to the failure policy,
    and delivers the rest as one request or one object, or gives it to the policy
    when the delivery failed.

    The answers of the endpoint, of the object store and of the dead-letter sink
    are the environment's choice, attempt by attempt; parsing URLs and HTTP dates,
    compression and the random suffix of object names are parameters.  A
    serializer is a function of the record; the default one returns the value of
    a record that carries no decoded payload. *)

From S2P Require Import Prelude Record Rfc3339 Decimal JsonText BatchSink.
From Stdlib Require Import Strings.Byte.

(** ** Bodies *)

Definition newline : byte := x0a.
Definition carriage : byte := x0d.

(** A payload on its line: quoted when it contains a line break. *)
Definition line_of (p : bytes) : bytes := if decide (newline ∈ p ∨ carriage ∈ p) then json_quote p else p.

(** [encodeNDJSON] *)
Definition encodeNDJSON (payloads : list bytes) : bytes := payloads ≫= λ p, line_of p ++ [newline].

(** A payload as an element of an array: quoted when it is not JSON. *)
Definition element_of (p : bytes) : bytes := if json_Valid p then p else json_quote p.

(** [encodeJSONArray] *)
Definition encodeJSONArray (payloads : list bytes) : bytes := x5b :: strings_Join [x2c] (element_of <$> payloads) ++ [x5d].

(** ** The HTTP sink *)

Definition second : duration := 1000000000.

Inductive HTTPBodyFormat := HTTPBodyNDJSON | HTTPBodyJSONArray.
#[export] Instance HTTPBodyFormat_eq_dec : EqDecision HTTPBodyFormat.
Proof. solve_decision. Defined.

(** [httpSinkConfig]; the client is the environment, and [hc_dlq] tells whether a
    dead-letter sink is configured. *)
Record httpSinkConfig := mkHttpConfig {
  hc_url : bytes;
  hc_method : bytes;
  hc_headers : gmap bytes bytes;
  hc_format : HTTPBodyFormat;
  hc_encoder : option (list Record_ → result (bytes * bytes));
  hc_serializer : option (Record_ → result bytes);
  hc_batchSize : Z;
  hc_flushInterval : duration;
  hc_timeout : duration;
  hc_maxRetries : Z;
  hc_policy : FailurePolicy;
  hc_dlq : bool
}.
Definition http_zero : httpSinkConfig := mkHttpConfig [] [] ∅ HTTPBodyNDJSON None None 0 0 0 0 FailurePolicyDrop false.

(** The options. *)
Definition HTTPSinkOption := httpSinkConfig → httpSinkConfig.
Definition HTTPURL (url : bytes) : HTTPSinkOption := λ c,
  mkHttpConfig url (hc_method c) (hc_headers c) (hc_format c) (hc_encoder c) (hc_serializer c) (hc_batchSize c) (hc_flushInterval c) (hc_timeout c) (hc_maxRetries c) (hc_policy c) (hc_dlq c).
Definition HTTPMethod (method : bytes) : HTTPSinkOption := λ c,
  mkHttpConfig (hc_url c) method (hc_headers c) (hc_format c) (hc_encoder c) (hc_serializer c) (hc_batchSize c) (hc_flushInterval c) (hc_timeout c) (hc_maxRetries c) (hc_policy c) (hc_dlq c).
Definition HTTPHeader (key value : bytes) : HTTPSinkOption := λ c,
  mkHttpConfig (hc_url c) (hc_method c) (<[key := value]> (hc_headers c)) (hc_format c) (hc_encoder c) (hc_serializer c) (hc_batchSize c) (hc_flushInterval c) (hc_timeout c) (hc_maxRetries c) (hc_policy c) (hc_dlq c).
Definition HTTPBearerToken (token : bytes) : HTTPSinkOption := HTTPHeader (bs "Authorization") (bs "Bearer " ++ token).
Definition HTTPFormat (f : HTTPBodyFormat) : HTTPSinkOption := λ c,
  mkHttpConfig (hc_url c) (hc_method c) (hc_headers c) f (hc_encoder c) (hc_serializer c) (hc_batchSize c) (hc_flushInterval c) (hc_timeout c) (hc_maxRetries c) (hc_policy c) (hc_dlq c).
Definition HTTPEncoderFunc (fn : list Record_ → result (bytes * bytes)) : HTTPSinkOption := λ c,
  mkHttpConfig (hc_url c) (hc_method c) (hc_headers c) (hc_format c) (Some fn) (hc_serializer c) (hc_batchSize c) (hc_flushInterval c) (hc_timeout c) (hc_maxRetries c) (hc_policy c) (hc_dlq c).
Definition HTTPSerialize (s : Record_ → result bytes) : HTTPSinkOption := λ c,
  mkHttpConfig (hc_url c) (hc_method c) (hc_headers c) (hc_format c) (hc_encoder c) (Some s) (hc_batchSize c) (hc_flushInterval c) (hc_timeout c) (hc_maxRetries c) (hc_policy c) (hc_dlq c).
Definition HTTPBatchSize (n : Z) : HTTPSinkOption := λ c,
  mkHttpConfig (hc_url c) (hc_method c) (hc_headers c) (hc_format c) (hc_encoder c) (hc_serializer c) n (hc_flushInterval c) (hc_timeout c) (hc_maxRetries c) (hc_policy c) (hc_dlq c).
Definition HTTPFlushInterval (d : duration) : HTTPSinkOption := λ c,
  mkHttpConfig (hc_url c) (hc_method c) (hc_headers c) (hc_format c) (hc_encoder c) (hc_serializer c) (hc_batchSize c) d (hc_timeout c) (hc_maxRetries c) (hc_policy c) (hc_dlq c).
Definition HTTPTimeout (d : duration) : HTTPSinkOption := λ c,
  mkHttpConfig (hc_url c) (hc_method c) (hc_headers c) (hc_format c) (hc_encoder c) (hc_serializer c) (hc_batchSize c) (hc_flushInterval c) d (hc_maxRetries c) (hc_policy c) (hc_dlq c).
Definition HTTPMaxRetries (n : Z) : HTTPSinkOption := λ c,
  mkHttpConfig (hc_url c) (hc_method c) (hc_headers c) (hc_format c) (hc_encoder c) (hc_serializer c) (hc_batchSize c) (hc_flushInterval c) (hc_timeout c) n (hc_policy c) (hc_dlq c).
Definition HTTPFailurePolicy (p : FailurePolicy) : HTTPSinkOption := λ c,
  mkHttpConfig (hc_url c) (hc_method c) (hc_headers c) (hc_format c) (hc_encoder c) (hc_serializer c) (hc_batchSize c) (hc_flushInterval c) (hc_timeout c) (hc_maxRetries c) p (hc_dlq c).
Definition HTTPDLQ (dlq : bool) : HTTPSinkOption := λ c,
  mkHttpConfig (hc_url c) (hc_method c) (hc_headers c) (hc_format c) (hc_encoder c) (hc_serializer c) (hc_batchSize c) (hc_flushInterval c) (hc_timeout c) (hc_maxRetries c) (hc_policy c) dlq.

(** [JSONSerializer] on a record without a decoded payload. *)
Definition json_serializer (r : Record_) : result bytes := Ok (Value r).

(** [applyDefaults] *)
Definition http_defaults (c : httpSinkConfig) : httpSinkConfig :=
  mkHttpConfig (hc_url c) (if decide (hc_method c = []) then bs "POST" else hc_method c) (hc_headers c) (hc_format c) (hc_encoder c)
    (Some (default json_serializer (hc_serializer c))) (if hc_batchSize c <=? 0 then defaultBatchSize else hc_batchSize c)
    (if hc_flushInterval c =? 0 then second else hc_flushInterval c) (if hc_timeout c <=? 0 then 30 * second else hc_timeout c)
    (if hc_maxRetries c <? 0 then 0 else hc_maxRetries c) (hc_policy c) (hc_dlq c).

(** [NewHTTPSinkE]; [parse] is the error of [url.Parse], if any. *)
Definition NewHTTPSinkE (parse : bytes → option bytes) (opts : list HTTPSinkOption) : result httpSinkConfig :=
  let c := http_defaults (foldl (λ c opt, opt c) http_zero opts) in
  if decide (hc_url c = []) then Err (bs "HTTPSink requires HTTPURL(...)")
  else match parse (hc_url c) with Some e => Err (bs "HTTPSink invalid URL: " ++ e) | None => Ok c end.

(** *** One attempt *)

(** What became of a request: it could not be built, the transport failed, or
    there was a response. *)
Inductive http_answer :=
| NoRequest (e : bytes)
| NoResponse (e : bytes)
| Response (status : Z) (retryAfter : bytes) (body : bytes).

(** [parseRetryAfter]; [date] is [http.ParseTime]. *)
Definition parseRetryAfter (date : bytes → option time) (now : time) (v : bytes) : duration :=
  if decide (v = []) then 0
  else match ParseInt v with
       | Some secs => if secs <=? 0 then 0 else i64_mul secs second
       | None => match date v with Some t => if 0 <? t - now then t - now else 0 | None => 0 end
       end.

Definition maxErrorBodyBytes : nat := 512.

(** [send]: is it worth another attempt, when, and the error. *)
Definition send (date : bytes → option time) (now : time) (c : httpSinkConfig) (a : http_answer) : bool * duration * option bytes :=
  let where_ := bs "http sink: " ++ hc_method c ++ bs " " ++ hc_url c ++ bs ": " in
  match a with
  | NoRequest e => (false, 0, Some (bs "http sink: build request: " ++ e))
  | NoResponse e => (true, 0, Some (where_ ++ e))
  | Response status retryAfter body =>
      if (200 <=? status) && (status <? 300) then (false, 0, None)
      else
        let err := where_ ++ bs "status " ++ FormatInt status ++ bs ": " ++ trim_space (take maxErrorBodyBytes body) in
        if (status =? 429) || (500 <=? status) then (true, parseRetryAfter date now retryAfter, Some err) else (false, 0, Some err)
  end.

(** [1<<uint(attempt)] seconds, at 64 bits. *)
Definition http_backoff (attempt : Z) : duration := i64_mul (if 64 <=? attempt then 0 else wrap64 (Z.shiftl 1 attempt)) second.

(** The environment of a flush: the answer to each attempt and the time it came,
    whether the context ends during the wait behind it, and the answers of the
    dead-letter sink. *)
Record http_env := mkHttpEnv {
  he_answer : nat → http_answer;
  he_now : nat → time;
  he_cancel : nat → bool;
  he_dlq : nat → option bytes
}.

Section http.
Context (date : bytes → option time) (c : httpSinkConfig).

(** The loop of [sendWithRetry]: the number of requests, the waits and the error;
    [more] attempts remain after this one. *)
Fixpoint send_loop (env : http_env) (more attempt : nat) : nat * list duration * option bytes :=
  match send date (he_now env attempt) c (he_answer env attempt) with
  | (_, _, None) => (1%nat, [], None)
  | (false, _, Some e) => (1%nat, [], Some e)
  | (true, retryAfter, Some e) =>
      match more with
      | O => (1%nat, [], Some e)
      | S more =>
          let backoff := if 0 <? retryAfter then retryAfter else http_backoff (Z.of_nat attempt) in
          if he_cancel env attempt then (1%nat, [backoff], Some (bs "context canceled"))
          else let '(n, waits, err) := send_loop env more (S attempt) in (S n, backoff :: waits, err)
      end
  end.
Definition sendWithRetry (env : http_env) : nat * list duration * option bytes :=
  if hc_maxRetries c <? 0 then (0%nat, [], None) else send_loop env (Z.to_nat (hc_maxRetries c)) 0.
End http.

(** ** Serializing a batch *)

(** The loop over a batch in [encode] and in the flush of the object store: the
    dead letters, and the payloads with their records; [i] counts the records
    given to the policy. *)
Fixpoint serialize_all (name : bytes) (serialize : Record_ → result bytes) (policy : FailurePolicy) (hasDLQ : bool) (dlq : nat → option bytes) (i : nat)
    (batch : list Record_) : list Record_ * nat * result (list (bytes * Record_)) :=
  match batch with
  | [] => ([], i, Ok [])
  | r :: batch =>
      match serialize r with
      | Ok b =>
          let '(dead, i, res) := serialize_all name serialize policy hasDLQ dlq i batch in
          (dead, i, rest <-? res ;; Ok ((b, r) :: rest))
      | Panic e => ([], i, Panic e)
      | Err e =>
          match applyFailurePolicy policy hasDLQ (dlq i) r with
          | (dead, Some f) => (dead, S i, Err (name ++ bs ": serialize: " ++ e ++ bs " (failure policy: " ++ f ++ bs ")"))
          | (dead, None) => let '(dead', i, res) := serialize_all name serialize policy hasDLQ dlq (S i) batch in (dead ++ dead', i, res)
          end
      end
  end.

(** What a flush did: what was accepted and the records in it, dead letters,
    error. *)
Record delivered (B : Type) := mkDelivered { dl_sent : option (B * list Record_); dl_dead : list Record_; dl_err : option bytes }.
Arguments mkDelivered {B} _ _ _.
Arguments dl_sent {B} _.
Arguments dl_dead {B} _.
Arguments dl_err {B} _.

(** The end of both flushes: the records of a failed delivery go to the policy. *)
Definition settle {B} (name : bytes) (policy : FailurePolicy) (hasDLQ : bool) (dlq : nat → option bytes) (i : nat) (dead : list Record_)
    (body : B) (encoded : list Record_) (err : option bytes) : delivered B :=
  match err with
  | None => mkDelivered (Some (body, encoded)) dead None
  | Some e =>
      let '(dead', f) := apply_policy_all policy hasDLQ dlq i encoded in
      mkDelivered None (dead ++ dead') ((λ f, name ++ bs ": " ++ e ++ bs " (failure policy: " ++ f ++ bs ")") <$> f)
  end.

(** A body: its content type and its bytes. *)
Definition http_body := (bytes * bytes)%type.

(** [encode] *)
Definition encode (c : httpSinkConfig) (dlq : nat → option bytes) (batch : list Record_)
    : list Record_ * nat * result (option (http_body * list Record_)) :=
  match hc_encoder c with
  | Some enc =>
      ([], 0%nat,
       match enc batch with
       | Ok (body, ctype) => Ok (match batch with [] => None | _ => Some (ctype, body, batch) end)
       | Err e => Err (bs "http sink: encode batch: " ++ e)
       | Panic e => Panic e
       end)
  | None =>
      let '(dead, i, res) := serialize_all (bs "http sink") (default json_serializer (hc_serializer c)) (hc_policy c) (hc_dlq c) dlq 0 batch in
      (dead, i,
       entries <-? res ;;
       Ok (match entries with
           | [] => None
           | _ => Some (if decide (hc_format c = HTTPBodyJSONArray) then (bs "application/json", encodeJSONArray entries.*1)
                        else (bs "application/x-ndjson", encodeNDJSON entries.*1), entries.*2)
           end))
  end.

(** [flushBatch] *)
Definition http_flushBatch (date : bytes → option time) (c : httpSinkConfig) (env : http_env) (batch : list Record_) : delivered http_body :=
  match encode c (he_dlq env) batch with
  | (dead, i, Ok None) => mkDelivered None dead None
  | (dead, i, Ok (Some (body, encoded))) =>
      settle (bs "http sink") (hc_policy c) (hc_dlq c) (he_dlq env) i dead body encoded (sendWithRetry date c env).2
  | (dead, i, Err e) | (dead, i, Panic e) => mkDelivered None dead (Some e)
  end.

(** [Write] *)
Definition http_writer (date : bytes → option time) (c : httpSinkConfig) (env : nat → bool → http_env) : batchWriter Record_ :=
  mkBatchWriter (hc_batchSize c) (hc_flushInterval c) false (λ _ r, (Ok (Some r), []))
    (λ n cancelled batch, dl_err (http_flushBatch date c (env n cancelled) batch)).

(** ** The object-store sink *)

(** [s3SinkConfig]; [s3_client] tells whether a client was injected. *)
Record s3SinkConfig := mkS3Config {
  s3_bucket : bytes;
  s3_region : bytes;
  s3_prefix : bytes;
  s3_endpoint : bytes;
  s3_pathStyle : bool;
  s3_credentials : bytes * bytes * bytes;
  s3_serializer : option (Record_ → result bytes);
  s3_keyFunc : option (time → Z → bytes);
  s3_gzip : bool;
  s3_batchSize : Z;
  s3_flushInterval : duration;
  s3_maxAttempts : Z;
  s3_client : bool;
  s3_policy : FailurePolicy;
  s3_dlq : bool
}.
Definition s3_zero : s3SinkConfig := mkS3Config [] [] [] [] false ([], [], []) None None false 0 0 0 false FailurePolicyDrop false.

Definition S3SinkOption := s3SinkConfig → s3SinkConfig.
Definition S3Bucket (b : bytes) : S3SinkOption := λ c,
  mkS3Config b (s3_region c) (s3_prefix c) (s3_endpoint c) (s3_pathStyle c) (s3_credentials c) (s3_serializer c) (s3_keyFunc c) (s3_gzip c) (s3_batchSize c) (s3_flushInterval c) (s3_maxAttempts c) (s3_client c) (s3_policy c) (s3_dlq c).
Definition S3Region (r : bytes) : S3SinkOption := λ c,
  mkS3Config (s3_bucket c) r (s3_prefix c) (s3_endpoint c) (s3_pathStyle c) (s3_credentials c) (s3_serializer c) (s3_keyFunc c) (s3_gzip c) (s3_batchSize c) (s3_flushInterval c) (s3_maxAttempts c) (s3_client c) (s3_policy c) (s3_dlq c).
Definition S3Prefix (p : bytes) : S3SinkOption := λ c,
  mkS3Config (s3_bucket c) (s3_region c) p (s3_endpoint c) (s3_pathStyle c) (s3_credentials c) (s3_serializer c) (s3_keyFunc c) (s3_gzip c) (s3_batchSize c) (s3_flushInterval c) (s3_maxAttempts c) (s3_client c) (s3_policy c) (s3_dlq c).
Definition S3Endpoint (e : bytes) : S3SinkOption := λ c,
  mkS3Config (s3_bucket c) (s3_region c) (s3_prefix c) e (s3_pathStyle c) (s3_credentials c) (s3_serializer c) (s3_keyFunc c) (s3_gzip c) (s3_batchSize c) (s3_flushInterval c) (s3_maxAttempts c) (s3_client c) (s3_policy c) (s3_dlq c).
Definition S3PathStyle : S3SinkOption := λ c,
  mkS3Config (s3_bucket c) (s3_region c) (s3_prefix c) (s3_endpoint c) true (s3_credentials c) (s3_serializer c) (s3_keyFunc c) (s3_gzip c) (s3_batchSize c) (s3_flushInterval c) (s3_maxAttempts c) (s3_client c) (s3_policy c) (s3_dlq c).
Definition S3StaticCredentials (accessKey secretKey sessionToken : bytes) : S3SinkOption := λ c,
  mkS3Config (s3_bucket c) (s3_region c) (s3_prefix c) (s3_endpoint c) (s3_pathStyle c) (accessKey, secretKey, sessionToken) (s3_serializer c) (s3_keyFunc c) (s3_gzip c) (s3_batchSize c) (s3_flushInterval c) (s3_maxAttempts c) (s3_client c) (s3_policy c) (s3_dlq c).
Definition S3Serialize (s : Record_ → result bytes) : S3SinkOption := λ c,
  mkS3Config (s3_bucket c) (s3_region c) (s3_prefix c) (s3_endpoint c) (s3_pathStyle c) (s3_credentials c) (Some s) (s3_keyFunc c) (s3_gzip c) (s3_batchSize c) (s3_flushInterval c) (s3_maxAttempts c) (s3_client c) (s3_policy c) (s3_dlq c).
Definition S3KeyNaming (fn : time → Z → bytes) : S3SinkOption := λ c,
  mkS3Config (s3_bucket c) (s3_region c) (s3_prefix c) (s3_endpoint c) (s3_pathStyle c) (s3_credentials c) (s3_serializer c) (Some fn) (s3_gzip c) (s3_batchSize c) (s3_flushInterval c) (s3_maxAttempts c) (s3_client c) (s3_policy c) (s3_dlq c).
Definition S3Gzip : S3SinkOption := λ c,
  mkS3Config (s3_bucket c) (s3_region c) (s3_prefix c) (s3_endpoint c) (s3_pathStyle c) (s3_credentials c) (s3_serializer c) (s3_keyFunc c) true (s3_batchSize c) (s3_flushInterval c) (s3_maxAttempts c) (s3_client c) (s3_policy c) (s3_dlq c).
Definition S3BatchSize (n : Z) : S3SinkOption := λ c,
  mkS3Config (s3_bucket c) (s3_region c) (s3_prefix c) (s3_endpoint c) (s3_pathStyle c) (s3_credentials c) (s3_serializer c) (s3_keyFunc c) (s3_gzip c) n (s3_flushInterval c) (s3_maxAttempts c) (s3_client c) (s3_policy c) (s3_dlq c).
Definition S3FlushInterval (d : duration) : S3SinkOption := λ c,
  mkS3Config (s3_bucket c) (s3_region c) (s3_prefix c) (s3_endpoint c) (s3_pathStyle c) (s3_credentials c) (s3_serializer c) (s3_keyFunc c) (s3_gzip c) (s3_batchSize c) d (s3_maxAttempts c) (s3_client c) (s3_policy c) (s3_dlq c).
Definition S3MaxAttempts (n : Z) : S3SinkOption := λ c,
  mkS3Config (s3_bucket c) (s3_region c) (s3_prefix c) (s3_endpoint c) (s3_pathStyle c) (s3_credentials c) (s3_serializer c) (s3_keyFunc c) (s3_gzip c) (s3_batchSize c) (s3_flushInterval c) n (s3_client c) (s3_policy c) (s3_dlq c).
Definition S3Client : S3SinkOption := λ c,
  mkS3Config (s3_bucket c) (s3_region c) (s3_prefix c) (s3_endpoint c) (s3_pathStyle c) (s3_credentials c) (s3_serializer c) (s3_keyFunc c) (s3_gzip c) (s3_batchSize c) (s3_flushInterval c) (s3_maxAttempts c) true (s3_policy c) (s3_dlq c).
Definition S3FailurePolicy (p : FailurePolicy) : S3SinkOption := λ c,
  mkS3Config (s3_bucket c) (s3_region c) (s3_prefix c) (s3_endpoint c) (s3_pathStyle c) (s3_credentials c) (s3_serializer c) (s3_keyFunc c) (s3_gzip c) (s3_batchSize c) (s3_flushInterval c) (s3_maxAttempts c) (s3_client c) p (s3_dlq c).
Definition S3DLQ (dlq : bool) : S3SinkOption := λ c,
  mkS3Config (s3_bucket c) (s3_region c) (s3_prefix c) (s3_endpoint c) (s3_pathStyle c) (s3_credentials c) (s3_serializer c) (s3_keyFunc c) (s3_gzip c) (s3_batchSize c) (s3_flushInterval c) (s3_maxAttempts c) (s3_client c) (s3_policy c) dlq.

(** [applyDefaults] *)
Definition s3_defaults (c : s3SinkConfig) : s3SinkConfig :=
  mkS3Config (s3_bucket c) (s3_region c) (s3_prefix c) (s3_endpoint c) (s3_pathStyle c) (s3_credentials c)
    (Some (default json_serializer (s3_serializer c))) (s3_keyFunc c) (s3_gzip c) (if s3_batchSize c <=? 0 then 5000 else s3_batchSize c)
    (if s3_flushInterval c =? 0 then 60 * second else s3_flushInterval c) (if s3_maxAttempts c <=? 0 then 3 else s3_maxAttempts c)
    (s3_client c) (s3_policy c) (s3_dlq c).

(** The options [buildS3ClientE] hands to the AWS library. *)
Inductive aws_option :=
| WithRetryMaxAttempts (n : Z)
| WithRegion (r : bytes)
| WithStaticCredentials (k : bytes * bytes * bytes)
| BaseEndpoint (e : bytes)
| UsePathStyle.
Definition load_options (c : s3SinkConfig) : list aws_option :=
  WithRetryMaxAttempts (s3_maxAttempts c)
  :: (if decide (s3_region c = []) then [] else [WithRegion (s3_region c)])
  ++ (if decide ((s3_credentials c).1.1 = []) then [] else [WithStaticCredentials (s3_credentials c)]).
Definition client_options (c : s3SinkConfig) : list aws_option :=
  (if decide (s3_endpoint c = []) then [] else [BaseEndpoint (s3_endpoint c)]) ++ (if s3_pathStyle c then [UsePathStyle] else []).

(** [buildS3ClientE]; [load] is the library's error for the load options. *)
Definition buildS3ClientE (load : list aws_option → option bytes) (c : s3SinkConfig) : result (list aws_option) :=
  match load (load_options c) with
  | Some e => Err (bs "S3Sink: load AWS config: " ++ e)
  | None => Ok (load_options c ++ client_options c)
  end.

(** [NewS3SinkE] *)
Definition NewS3SinkE (load : list aws_option → option bytes) (opts : list S3SinkOption) : result s3SinkConfig :=
  let c := s3_defaults (foldl (λ c opt, opt c) s3_zero opts) in
  if decide (s3_bucket c = []) then Err (bs "S3Sink requires S3Bucket(...)")
  else if s3_client c then Ok c
  else _ <-? buildS3ClientE load c ;; Ok c.

(** [strings.Trim(s, /)] *)
Fixpoint trim_slashes (s : bytes) : bytes := match s with c :: s' => if decide (c = slash) then trim_slashes s' else s | [] => [] end.
Definition Trim (s : bytes) : bytes := reverse (trim_slashes (reverse (trim_slashes s))).

(** The date and time parts of an object name. *)
Definition key_date (t : time) : bytes := let dt := civil_from_days (t / nanosPerDay) in fmt4 (year dt) ++ [x2d] ++ fmt2 (month dt) ++ [x2d] ++ fmt2 (day dt).
Definition secs_of_day (t : time) : Z := t mod nanosPerDay / second.
Definition key_hour (t : time) : bytes := fmt2 (secs_of_day t / 3600).
Definition key_stamp (t : time) : bytes :=
  let dt := civil_from_days (t / nanosPerDay) in
  fmt4 (year dt) ++ fmt2 (month dt) ++ fmt2 (day dt) ++ [x54] ++ fmt2 (secs_of_day t / 3600) ++ fmt2 (secs_of_day t / 60 mod 60) ++ fmt2 (secs_of_day t mod 60).

(** [objectKey] with the next value of the counter. *)
Definition objectKey (c : s3SinkConfig) (now : time) (seq : Z) (suffix : bytes) : bytes :=
  match s3_keyFunc c with
  | Some f => f now seq
  | None =>
      (if decide (Trim (s3_prefix c) = []) then [] else Trim (s3_prefix c) ++ [slash])
      ++ bs "date=" ++ key_date now ++ bs "/hour=" ++ key_hour now ++ bs "/part-" ++ key_stamp now ++ [minus]
      ++ FormatInt seq ++ [minus] ++ suffix ++ bs ".jsonl" ++ (if s3_gzip c then bs ".gz" else [])
  end.

(** The environment of a flush: the time, the counter before it, the random
    suffix, the compressed body or an error, the answers of the store and of the
    dead-letter sink. *)
Record s3_env := mkS3Env {
  se_now : time;
  se_seq : Z;
  se_suffix : bytes;
  se_gzip : bytes → result bytes;
  se_put : bytes → option bytes;
  se_dlq : nat → option bytes
}.

(** [put] *)
Definition put_error (c : s3SinkConfig) (env : s3_env) (key : bytes) : option bytes :=
  (λ e, bs "s3 sink: put s3://" ++ s3_bucket c ++ bs "/" ++ key ++ bs ": " ++ e) <$> se_put env key.

(** [flushBatch]: an accepted object is its key and its body. *)
Definition s3_flushBatch (c : s3SinkConfig) (env : s3_env) (batch : list Record_) : delivered http_body :=
  match serialize_all (bs "s3 sink") (default json_serializer (s3_serializer c)) (s3_policy c) (s3_dlq c) (se_dlq env) 0 batch with
  | (dead, i, Ok []) => mkDelivered None dead None
  | (dead, i, Ok entries) =>
      match (if s3_gzip c then se_gzip env (encodeNDJSON entries.*1) else Ok (encodeNDJSON entries.*1)) with
      | Ok body =>
          let key := objectKey c (se_now env) (i64_add (se_seq env) 1) (se_suffix env) in
          settle (bs "s3 sink") (s3_policy c) (s3_dlq c) (se_dlq env) i dead (key, body) entries.*2 (put_error c env key)
      | Err e => mkDelivered None dead (Some (bs "s3 sink: gzip: " ++ e))
      | Panic e => mkDelivered None dead (Some e)
      end
  | (dead, i, Err e) | (dead, i, Panic e) => mkDelivered None dead (Some e)
  end.

(** [Write] *)
Definition s3_writer (c : s3SinkConfig) (env : nat → bool → s3_env) : batchWriter Record_ :=
  mkBatchWriter (s3_batchSize c) (s3_flushInterval c) false (λ _ r, (Ok (Some r), []))
    (λ n cancelled batch, dl_err (s3_flushBatch c (env n cancelled) batch)).

(** ** Dead letters *)

(** [dlqEnvelope] *)
Record dlqEnvelope := mkEnvelope {
  de_DLQTime : bytes;
  de_Key : bytes;
  de_Value : option bytes;
  de_Timestamp : Z;
  de_Offset : Z;
  de_Partition : Z;
  de_Headers : gmap bytes bytes
}.

(** [newDLQEnvelope] *)
Definition newDLQEnvelope (r : Record_) (now : time) : dlqEnvelope :=
  mkEnvelope (formatRFC3339Nano now) (Key r) (if decide (Value r = []) then None else Some (element_of (Value r)))
    (if IsZero (Timestamp r) then 0 else UnixNano (Timestamp r)) (Offset r) (Partition r) (Headers r).

(** [FileDLQ]: its file, and is it closed? *)
Record FileDLQ := mkFileDLQ { fd_lines : list bytes; fd_sync : bool; fd_closed : bool }.

(** [FileDLQ.Write]; [marshal] is the JSON of an envelope, [io] what writing and
    syncing answered. *)
Definition FileDLQ_Write (marshal : dlqEnvelope → result bytes) (d : FileDLQ) (now : time) (io : option bytes * option bytes) (r : Record_)
    : FileDLQ * option bytes :=
  match marshal (newDLQEnvelope r now) with
  | Err e | Panic e => (d, Some (bs "weibo/sink: file DLQ: encode: " ++ e))
  | Ok line =>
      if fd_closed d then (d, Some (bs "weibo/sink: file DLQ: write after close"))
      else match io.1 with
           | Some e => (d, Some (bs "weibo/sink: file DLQ: write: " ++ e))
           | None =>
               let d := mkFileDLQ (fd_lines d ++ [line]) (fd_sync d) (fd_closed d) in
               (d, if fd_sync d then (λ e, bs "weibo/sink: file DLQ: sync: " ++ e) <$> io.2 else None)
           end
  end.
(** [FileDLQ.Close] *)
Definition FileDLQ_Close (d : FileDLQ) : FileDLQ := mkFileDLQ (fd_lines d) (fd_sync d) true.

(** [KafkaDLQ.Write]: the message to be written, or the error. *)
Definition KafkaDLQ_Write (serializer : option (Record_ → result bytes)) (r : Record_) : result sink_message :=
  match (match serializer with Some f => f r | None => Ok (Value r) end) with
  | Ok value => Ok (mkSinkMessage (Key r) value (if IsZero (Timestamp r) then zeroTime else Timestamp r) (Headers r))
  | Err e => Err (bs "weibo/sink: kafka DLQ: serialize: " ++ e)
  | Panic e => Panic e
  end.

(** [kafkaDLQConfig], the options and the checks of [NewKafkaDLQ]. *)
Record kafkaDLQConfig := mkDLQConfig { dq_brokers : list bytes; dq_topic : bytes; dq_serializer : option (Record_ → result bytes) }.
Definition KafkaDLQBrokers (b : list bytes) (c : kafkaDLQConfig) : kafkaDLQConfig := mkDLQConfig b (dq_topic c) (dq_serializer c).
Definition KafkaDLQTopic (t : bytes) (c : kafkaDLQConfig) : kafkaDLQConfig := mkDLQConfig (dq_brokers c) t (dq_serializer c).
Definition KafkaDLQSerialize (s : Record_ → result bytes) (c : kafkaDLQConfig) : kafkaDLQConfig := mkDLQConfig (dq_brokers c) (dq_topic c) (Some s).
Definition NewKafkaDLQ (opts : list (kafkaDLQConfig → kafkaDLQConfig)) : result kafkaDLQConfig :=
  let c := foldl (λ c opt, opt c) (mkDLQConfig [] [] None) opts in
  if decide (dq_brokers c = []) then Panic (bs "weibo/sink: KafkaDLQ requires KafkaDLQBrokers(...)")
  else if decide (dq_topic c = []) then Panic (bs "weibo/sink: KafkaDLQTopic(...) is required")
  else Ok c.

(** ** Bodies keep the records apart *)

Lemma line_of_free p : newline ∉ line_of p.
Proof.
  unfold line_of. case_decide as H; [|tauto]. intros Hin. pose proof (quote_printable p) as Hq. rewrite Forall_forall in Hq.
  specialize (Hq _ Hin). vm_compute in Hq. done.
Qed.

Lemma Split_line l rest : newline ∉ l → strings_Split newline (l ++ newline :: rest) = l :: strings_Split newline rest.
Proof.
  induction l as [|c l IH]; intros Hl; cbn [app strings_Split]; [by rewrite decide_True|].
  apply not_elem_of_cons in Hl as [Hc Hl]. rewrite decide_False by congruence. by rewrite IH.
Qed.

(** The lines of a body are the payloads, one each. *)
Lemma ndjson_lines ps : strings_Split newline (encodeNDJSON ps) = (line_of <$> ps) ++ [[]].
Proof.
  unfold encodeNDJSON. induction ps as [|p ps IH]; [done|]. cbn [mbind list_bind fmap list_fmap]. rewrite <- app_assoc. cbn [app].
  rewrite Split_line by apply line_of_free. by rewrite IH.
Qed.

Definition no_number (c : byte) : Prop := isSpace c = false ∧ isDigit c = false ∧ c ∉ [x2e; x65; x45].
Lemma comma_no_number : no_number x2c.
Proof. split_and!; [done..|]. rewrite !not_elem_of_cons. split_and!; try done. apply not_elem_of_nil. Qed.
Lemma bracket_no_number : no_number x5d.
Proof. split_and!; [done..|]. rewrite !not_elem_of_cons. split_and!; try done. apply not_elem_of_nil. Qed.

Lemma elements_valid max ps : ps ≠ [] → Forall (λ p, valid_within max p = true) ps →
  scan_text (max + 1) (BeginValue, [ParseArrayValue]) (strings_Join [x2c] ps ++ [x5d]) = Some (EndTop, []).
Proof.
  change (max + 1)%nat with (max + length [ParseArrayValue])%nat. intros Hne Hps.
  induction Hps as [|p ps Hp Hps IH]; [done|]. destruct ps as [|q ps]; cbn [strings_Join].
  - by rewrite value_enclosed by (done || apply bracket_no_number).
  - rewrite <- !app_assoc, app_assoc, scan_text_app, value_enclosed by (done || apply comma_no_number). by apply IH.
Qed.

(** The first element of an array may be missing; no value starts with the bracket. *)
Lemma begin_or_empty max stack l s : scan_text max (BeginValue, stack) l = Some s → s.1 ≠ BeginValue → scan_text max (BeginValueOrEmpty, stack) l = Some s.
Proof.
  induction l as [|c l IH]; cbn [scan_text]; [intros [= <-] Hn; by destruct Hn|]. cbn [scan_step]. unfold begin_value at 1.
  destruct (isSpace c) eqn:Es; [done|]. destruct (decide (c = x5d)) as [-> | Hc]; [done|]. unfold begin_value. by rewrite Es.
Qed.

(** An array of payloads that are not nested too deep is a JSON text. *)
Lemma json_array_valid ps : Forall (λ p, json_Valid p = true → valid_within (Z.to_nat maxNestingDepth - 1) p = true) ps →
  json_Valid (encodeJSONArray ps) = true.
Proof.
  intros Hps. assert (Forall (λ p, valid_within (Z.to_nat maxNestingDepth - 1) p = true) (element_of <$> ps)) as Hv.
  { apply Forall_fmap. eapply Forall_impl; [exact Hps|]. intros q Hq. cbn. unfold element_of. destruct (json_Valid q) eqn:E; [by apply Hq|]. apply quote_valid. }
  unfold json_Valid, valid_within, encodeJSONArray. assert (Z.to_nat maxNestingDepth = Z.to_nat maxNestingDepth - 1 + 1)%nat as Em
    by (symmetry; apply Nat.sub_add; change 1%nat with (Z.to_nat 1); by apply Z2Nat.inj_le).
  clear Hps. set (max := (Z.to_nat maxNestingDepth - 1)%nat) in *. clearbody max. rewrite Em. cbn [scan_text].
  assert (scan_step (max + 1) (BeginValue, []) x5b = Some (BeginValueOrEmpty, [ParseArrayValue])) as ->.
  { change (pushed (max + 1) ParseArrayValue BeginValueOrEmpty [] = Some (BeginValueOrEmpty, [ParseArrayValue])).
    unfold pushed. by rewrite decide_True by (cbn; lia). }
  cbn [mbind option_bind]. destruct ps as [|p ps]; [done|].
  by rewrite (begin_or_empty _ _ _ (EndTop, [])); [|apply elements_valid|].
Qed.

(** ** No record is lost *)

Definition sent_records {B} (d : delivered B) : list Record_ := from_option snd [] (dl_sent d).

(** What a flush without an error did with its batch. *)
Record settled {B} (policy : FailurePolicy) (batch : list Record_) (d : delivered B) : Prop := {
  se_each : ∀ r, r ∈ batch → r ∈ sent_records d ∨ policy = FailurePolicyDLQ ∧ r ∈ dl_dead d ∨ policy = FailurePolicyDrop;
  se_all : policy = FailurePolicyFail → sent_records d = batch;
  se_sub : sent_records d `sublist_of` batch
}.

Lemma policy_none policy h dlq r dead : applyFailurePolicy policy h dlq r = (dead, None) →
  policy = FailurePolicyDrop ∨ policy = FailurePolicyDLQ ∧ dead = [r].
Proof. unfold applyFailurePolicy. destruct policy; [by left| |done]. destruct h, dlq; try done. intros [= <-]. by right. Qed.

Lemma serialize_all_ok name ser policy h dlq batch : ∀ i dead i' entries, serialize_all name ser policy h dlq i batch = (dead, i', Ok entries) →
  Forall (λ e, ser e.2 = Ok e.1) entries ∧ entries.*2 `sublist_of` batch ∧ (policy = FailurePolicyFail → entries.*2 = batch)
  ∧ ∀ r, r ∈ batch → r ∈ entries.*2 ∨ policy = FailurePolicyDLQ ∧ r ∈ dead ∨ policy = FailurePolicyDrop.
Proof.
  induction batch as [|r batch IH]; intros i dead i' entries; cbn [serialize_all].
  { intros [= <- <- <-]. split_and!; [constructor|constructor|done|]. by intros r ?%elem_of_nil. }
  destruct (ser r) as [b|e|e] eqn:Er.
  - destruct (serialize_all _ _ _ _ _ i batch) as [[dead1 i1] res] eqn:E. intros [= <- <- Hres].
    destruct res as [rest|?|?]; try done. injection Hres as <-. destruct (IH _ _ _ _ E) as (H1 & H2 & H3 & H4).
    split_and!; [by constructor|by constructor|intros Hp; cbn; by rewrite H3|].
    intros x [->|Hx]%elem_of_cons; [left; by left|]. destruct (H4 x Hx) as [?|[?|?]]; [left; by right|by right; left|by right; right].
  - destruct (applyFailurePolicy policy h (dlq i) r) as [dead0 [f|]] eqn:Ef; [done|].
    destruct (serialize_all _ _ _ _ _ (S i) batch) as [[dead1 i1] res] eqn:E. intros [= <- <- ->]. destruct (IH _ _ _ _ E) as (H1 & H2 & H3 & H4).
    apply policy_none in Ef as [-> | [-> ->]]; (split_and!; [done|by constructor|done|]); [by intros; right; right|].
    intros x [->|Hx]%elem_of_cons; [right; left; split; [done|by left]|].
    destruct (H4 x Hx) as [?|[[? ?]|?]]; [by left|right; left; split; [done|by right]|done].
  - done.
Qed.

Lemma settle_settled {B} name policy h dlq i dead (body : B) encoded err batch :
  encoded `sublist_of` batch → (policy = FailurePolicyFail → encoded = batch) →
  (∀ r, r ∈ batch → r ∈ encoded ∨ policy = FailurePolicyDLQ ∧ r ∈ dead ∨ policy = FailurePolicyDrop) → encoded ≠ [] →
  dl_err (settle name policy h dlq i dead body encoded err) = None → settled policy batch (settle name policy h dlq i dead body encoded err).
Proof.
  intros Hsub Hall Heach Hne. unfold settle. destruct err as [e|]; [|by split].
  destruct (apply_policy_all policy h dlq i encoded) as [dead' [f|]] eqn:Ep; [done|]. intros _. apply apply_policy_all_none in Ep. split; cbn.
  - intros r Hr. destruct policy; [by right; right| |done]. subst dead'. right. left. split; [done|]. apply elem_of_app.
    destruct (Heach r Hr) as [?|[[_ ?]|?]]; [by right|by left|done].
  - intros ->. done.
  - apply sublist_nil_l.
Qed.

Section accounts.
Context {B : Type} (policy : FailurePolicy) (flush : nat → bool → list Record_ → delivered B) (b : batchWriter Record_).
Context (Hconv : ∀ dlq r, bw_convert b dlq r = (Ok (Some r), [])) (Hflush : ∀ n c items, bw_flush b n c items = dl_err (flush n c items)).
Context (Hset : ∀ n c items, items ≠ [] → dl_err (flush n c items) = None → settled policy items (flush n c items)).

(** The flushes of a run. *)
Definition deliveries (calls : list (bool * list Record_)) : list (delivered B) := imap (λ n call, flush n call.1 call.2) calls.

Lemma accounts evs st ret : bw_run b bw_init evs = (st, Some ret) → (∀ e, ret ≠ BwFailed e) →
  let fl := deliveries (bs_calls st) in
  (∀ r, r ∈ (fed evs).*1 → r ∈ fl ≫= sent_records ∨ policy = FailurePolicyDLQ ∧ r ∈ fl ≫= dl_dead ∨ policy = FailurePolicyDrop)
  ∧ (policy = FailurePolicyFail → fl ≫= sent_records = (fed evs).*1).
Proof.
  intros Hrun Hret fl. destruct (run_complete b evs st ret Hrun Hret) as [Hi _ _ Hw _].
  assert (omap (converted b) (fed evs) = (fed evs).*1) as Hc.
  { clear Hi. induction (fed evs) as [|rd l IH]; [done|]. cbn [omap list_omap fmap list_fmap].
    assert (converted b rd = Some rd.1) as -> by (unfold converted; by rewrite Hconv). by f_equal. }
  rewrite Hc in Hi.
  assert (∀ n c items, bs_calls st !! n = Some (c, items) → settled policy items (flush n c items)) as Hs.
  { intros n c items Hn. destruct (Hw n c items Hn) as [Hne Herr]. rewrite Hflush in Herr. by apply Hset. }
  split.
  - intros r Hr. rewrite <- Hi in Hr. apply list_elem_of_In, in_concat in Hr as (items & Hin & Hr). apply list_elem_of_In in Hin, Hr.
    apply list_elem_of_fmap in Hin as ([c its] & -> & Hin). apply list_elem_of_lookup in Hin as [n Hn]. cbn [snd] in Hr.
    assert (flush n c its ∈ fl) as Hfl.
    { apply list_elem_of_lookup. exists n. unfold fl, deliveries. by rewrite list_lookup_imap, Hn. }
    destruct (se_each _ _ _ (Hs n c its Hn) r Hr) as [?|[[? ?]|?]]; [left|right; left; split; [done|]|by right; right];
      apply list_elem_of_bind; by exists (flush n c its).
  - intros Hp. rewrite <- Hi. transitivity (bs_calls st ≫= snd); [|clear; induction (bs_calls st) as [|[c its] l IH]; [done|]; cbn; by f_equal].
    unfold fl, deliveries. apply imap_bind_ext. intros n [c its] Hn. by apply (se_all _ _ _ (Hs n c its Hn)).
Qed.
End accounts.

(** What an accepted HTTP body holds. *)
Definition body_of (c : httpSinkConfig) (body : http_body) (rs : list Record_) : Prop :=
  hc_encoder c = None → ∃ payloads, Forall2 (λ r p, default json_serializer (hc_serializer c) r = Ok p) rs payloads
    ∧ if decide (hc_format c = HTTPBodyJSONArray) then body = (bs "application/json", encodeJSONArray payloads)
      else body.1 = bs "application/x-ndjson" ∧ strings_Split newline body.2 = (line_of <$> payloads) ++ [[]].

Lemma http_flush_settled date c env batch : batch ≠ [] → dl_err (http_flushBatch date c env batch) = None →
  settled (hc_policy c) batch (http_flushBatch date c env batch)
  ∧ ∀ body rs, dl_sent (http_flushBatch date c env batch) = Some (body, rs) → body_of c body rs.
Proof.
  intros Hne. unfold http_flushBatch, encode, body_of. destruct (hc_encoder c) as [enc|].
  - destruct (enc batch) as [[body ctype]|e|e]; [|done|done]. destruct batch as [|r batch]; [done|]. intros Herr. split; [|done].
    apply settle_settled; [done|done|by left|done|done].
  - destruct (serialize_all _ _ _ _ _ 0 batch) as [[dead i] [entries|e|e]] eqn:Es; [|done|done].
    destruct (serialize_all_ok _ _ _ _ _ _ _ _ _ _ Es) as (H1 & H2 & H3 & H4). cbn [rbind]. destruct entries as [|en entries].
    + intros _. split; [|done]. split; [|done|apply sublist_nil_l]. intros r Hr. destruct (H4 r Hr) as [?%elem_of_nil|?]; [done|by right].
    + intros Herr. split; [by apply settle_settled|]. intros body rs. unfold settle. destruct (_.2) as [e|]; [by destruct (apply_policy_all _ _ _ _ _)|].
      intros [= <- <-] _. exists (en :: entries).*1. split.
      { change (Forall2 (λ r p, default json_serializer (hc_serializer c) r = Ok p) (en :: entries).*2 (en :: entries).*1).
        clear -H1. induction H1; by constructor. }
      case_decide; [done|]. split; [done|]. exact (ndjson_lines (en :: entries).*1).
Qed.

(** ** Attempts *)

Section attempts.
Context (date : bytes → option time) (c : httpSinkConfig) (env : http_env).

(** An answer worth another attempt. *)
Definition retryable (a : http_answer) : Prop :=
  match a with
  | NoRequest _ => False
  | NoResponse _ => True
  | Response status _ _ => status = 429 ∨ 500 ≤ status
  end.
Definition accepted (a : http_answer) : Prop := match a with Response status _ _ => 200 ≤ status < 300 | _ => False end.

Lemma send_class now a : let '(again, _, err) := send date now c a in (err = None ↔ accepted a) ∧ (again = true ↔ retryable a).
Proof.
  unfold send. destruct a as [e|e|status v body]; cbn [accepted retryable]; [done|done|].
  repeat case_Z; cbn [andb orb]; split; split; try done; try lia; by intros [].
Qed.

(** The cases of a single attempt. *)
Ltac one_attempt :=
  cbv beta iota; match goal with |- context [(?a + (1 - 1))%nat] => replace (a + (1 - 1))%nat with a by lia end;
  split_and!; [lia|lia|intros; lia|try done; naive_solver|try done; naive_solver].

(** Requests go on while the answers are worth it, at most [more] times after the
    first, and end with an accepted request or an error. *)
Lemma send_loop_spec more : ∀ attempt, let '(n, waits, err) := send_loop date c env more attempt in
  (1 ≤ n ≤ S more)%nat
  ∧ (∀ k, (k < n - 1)%nat → retryable (he_answer env (attempt + k)))
  ∧ (err = None ↔ accepted (he_answer env (attempt + (n - 1))))
  ∧ (err ≠ None → ¬ retryable (he_answer env (attempt + (n - 1))) ∨ n = S more ∨ he_cancel env (attempt + (n - 1)) = true).
Proof.
  induction more as [|more IH]; intros attempt; cbn [send_loop]; pose proof (send_class (he_now env attempt) (he_answer env attempt)) as Hc;
    destruct (send date (he_now env attempt) c (he_answer env attempt)) as [[again after] [e|]]; destruct Hc as [Ha Hr].
  - destruct again; one_attempt.
  - destruct again; one_attempt.
  - destruct again.
    + destruct (he_cancel env attempt) eqn:Ec; [one_attempt|].
      specialize (IH (S attempt)). destruct (send_loop date c env more (S attempt)) as [[n waits] err]. destruct IH as (I1 & I2 & I3 & I4).
      replace (attempt + (S n - 1))%nat with (S attempt + (n - 1))%nat by lia. split_and!; [lia|lia| |done|].
      * intros [|k] Hk; [rewrite Nat.add_0_r; by apply Hr|]. replace (attempt + S k)%nat with (S attempt + k)%nat by lia. apply I2. lia.
      * intros He. destruct (I4 He) as [?|[?|?]]; [by left|right; left; lia|by right; right].
    + one_attempt.
  - destruct again; one_attempt.
Qed.
End attempts.

(** An accepted delivery was answered so. *)
Lemma http_flush_accepted date c env batch body rs : 0 ≤ hc_maxRetries c → dl_sent (http_flushBatch date c env batch) = Some (body, rs) →
  ∃ k, accepted (he_answer env k).
Proof.
  intros Hm. unfold http_flushBatch. destruct (encode c (he_dlq env) batch) as [[dead i] [[[b encoded]|]|e|e]]; try done.
  unfold sendWithRetry. destruct (Z.ltb_spec (hc_maxRetries c) 0); [lia|]. pose proof (send_loop_spec date c env (Z.to_nat (hc_maxRetries c)) 0) as Hs.
  destruct (send_loop _ _ _ _ _) as [[n waits] err]. destruct Hs as (_ & _ & Ha & _). unfold settle. cbn [snd].
  destruct err as [e|]; [by destruct (apply_policy_all _ _ _ _ _)|]. intros _. eexists. by apply Ha.
Qed.

(** When the HTTP sink ends without failing, every record it was given
    was in a request the endpoint accepted, or was dead-lettered or dropped
    as its policy says; under the failing policy all of them were accepted,
    in order. *)
Theorem http_sink_accounts date (c : httpSinkConfig) (env : nat → bool → http_env) (evs : list bevent) (st : bw_state Record_) (ret : bresult) :
  bw_run (http_writer date c env) bw_init evs = (st, Some ret) → (∀ e, ret ≠ BwFailed e) → 0 ≤ hc_maxRetries c →
  let flush n cancelled batch := http_flushBatch date c (env n cancelled) batch in
  let fl := deliveries flush (bs_calls st) in
  (∀ r, r ∈ (fed evs).*1 →
     r ∈ fl ≫= sent_records ∨ hc_policy c = FailurePolicyDLQ ∧ r ∈ fl ≫= dl_dead ∨ hc_policy c = FailurePolicyDrop)
  ∧ (hc_policy c = FailurePolicyFail → fl ≫= sent_records = (fed evs).*1)
  ∧ ∀ n cancelled batch body rs, bs_calls st !! n = Some (cancelled, batch) → dl_sent (flush n cancelled batch) = Some (body, rs) →
      body_of c body rs ∧ ∃ k, accepted (he_answer (env n cancelled) k).
Proof.
  intros Hrun Hret Hm flush fl.
  destruct (accounts (hc_policy c) flush (http_writer date c env)) with (evs := evs) (st := st) (ret := ret)
    as [H1 H2]; [done|done|by intros; apply http_flush_settled|done|done|]. split_and!; [done|done|].
  intros n cc items body rs Ec Hd. destruct (run_complete _ evs st ret Hrun Hret) as [_ _ _ Hw _]. destruct (Hw n cc items Ec) as [Hne Herr].
  split; [exact (proj2 (http_flush_settled date c (env n cc) items Hne Herr) body rs Hd)|by eapply http_flush_accepted].
Qed.

(** ** Objects *)

Lemma s3_flush_settled c env batch : batch ≠ [] → dl_err (s3_flushBatch c env batch) = None → settled (s3_policy c) batch (s3_flushBatch c env batch).
Proof.
  intros Hne. unfold s3_flushBatch. destruct (serialize_all _ _ _ _ _ 0 batch) as [[dead i] [entries|e|e]] eqn:Es; [|done|done].
  destruct (serialize_all_ok _ _ _ _ _ _ _ _ _ _ Es) as (_ & H2 & H3 & H4). destruct entries as [|en entries].
  - intros _. split; [|done|apply sublist_nil_l]. intros r Hr. destruct (H4 r Hr) as [?%elem_of_nil|?]; [done|by right].
  - destruct (if s3_gzip c then _ else _); [|done|done]. intros Herr. by apply settle_settled.
Qed.

(** The object-store sink loses no record either. *)
Lemma s3_sink_accounts (c : s3SinkConfig) (env : nat → bool → s3_env) evs st ret :
  bw_run (s3_writer c env) bw_init evs = (st, Some ret) → (∀ e, ret ≠ BwFailed e) →
  let fl := deliveries (λ n cancelled batch, s3_flushBatch c (env n cancelled) batch) (bs_calls st) in
  (∀ r, r ∈ (fed evs).*1 →
     r ∈ fl ≫= sent_records ∨ s3_policy c = FailurePolicyDLQ ∧ r ∈ fl ≫= dl_dead ∨ s3_policy c = FailurePolicyDrop)
  ∧ (s3_policy c = FailurePolicyFail → fl ≫= sent_records = (fed evs).*1).
Proof. apply accounts; [done|done|intros; by apply s3_flush_settled]. Qed.

Lemma FormatInt_free z : 0 ≤ z → minus ∉ FormatInt z.
Proof.
  intros Hz. unfold FormatInt. destruct (Z.ltb_spec z 0); [lia|]. destruct (FormatUint_digits z) as (d & ds & -> & Hr & _).
  intros (x & Ex & Hx)%list_elem_of_fmap. rewrite Forall_forall in Hr. symmetry in Ex. revert Ex. apply dig_not; [by apply Hr|by left].
Qed.

Lemma split_free {A} (b : A) l : ∀ l' r r', b ∉ l → b ∉ l' → l ++ b :: r = l' ++ b :: r' → l = l' ∧ r = r'.
Proof.
  induction l as [|x l IH]; intros [|y l'] r r' Hl Hl' E; simplify_eq/=; try done.
  - destruct Hl'. by left.
  - destruct Hl. by left.
  - apply not_elem_of_cons in Hl as [_ Hl], Hl' as [_ Hl']. destruct (IH l' r r') as [-> ->]; done.
Qed.

(** Two uploads of one sink have different names, whenever they are made. *)
Lemma objectKey_inj c now now' seq seq' suffix suffix' : s3_keyFunc c = None → 0 < seq → 0 < seq' → in_i64 seq → in_i64 seq' →
  objectKey c now seq suffix = objectKey c now' seq' suffix' → seq = seq'.
Proof.
  intros Hk Hp Hp' Hi Hi'. unfold objectKey. rewrite Hk. intros E. apply app_inv_head, app_inv_head in E.
  apply app_inj_1 in E as [_ E]; [|done]. apply app_inv_head in E. apply app_inj_1 in E as [_ E]; [|done]. apply app_inv_head in E.
  apply app_inj_1 in E as [_ E]; [|done]. apply app_inv_head in E.
  apply split_free in E as [E _]; [|by apply FormatInt_free; lia..]. by apply FormatInt_inj in E.
Qed.

(** ** A concrete run *)

Definition demo_http : httpSinkConfig :=
  http_defaults (foldl (λ c opt, opt c) http_zero
    [HTTPURL (bs "http://x"); HTTPBatchSize 2; HTTPMaxRetries 1; HTTPFailurePolicy FailurePolicyDLQ; HTTPDLQ true;
     HTTPSerialize (λ r, if decide (Value r = []) then Err (bs "empty") else Ok (Value r))]).
(** The endpoint is overloaded once, then accepts; it refuses the second batch. *)
Definition demo_http_env (n : nat) (_ : bool) : http_env :=
  mkHttpEnv (λ a, if decide (n = 1%nat) then Response 400 [] (bs "bad") else if decide (a = 0%nat) then Response 503 (bs "7") [] else Response 204 [] [])
    (λ _, 0) (λ _, false) (λ _, None).
Definition demo_http_events : list bevent :=
  [BIn (demo_rec "a") None false []; BIn (demo_rec "b") None false []; BIn (demo_rec "c") None false []; BTick false;
   BIn (demo_rec "") None false []; BIn (demo_rec "d") None false []; BClosed false []].
Definition demo_http_writer : batchWriter Record_ := http_writer (λ _, None) demo_http demo_http_env.
Definition demo_http_state : bw_state Record_ := (bw_run demo_http_writer bw_init demo_http_events).1.
Definition demo_http_flushes : list (delivered http_body) :=
  deliveries (λ n cancelled batch, http_flushBatch (λ _, None) demo_http (demo_http_env n cancelled) batch) (bs_calls demo_http_state).

Example demo_http_run :
  (λ d, (snd ∘ fst <$> dl_sent d, Value <$> sent_records d, Value <$> dl_dead d)) <$> demo_http_flushes
  = [(Some [x61; newline; x62; newline], [bs "a"; bs "b"], []); (None, [], [bs "c"]); (Some [x64; newline], [bs "d"], [[]])]
  ∧ sendWithRetry (λ _, None) demo_http (demo_http_env 0 false) = (2%nat, [7 * second], None).
Proof. vm_compute. done. Qed.

Lemma http_sink_accounts_witness :
  (∀ r, r ∈ (fed demo_http_events).*1 →
     r ∈ demo_http_flushes ≫= sent_records ∨ hc_policy demo_http = FailurePolicyDLQ ∧ r ∈ demo_http_flushes ≫= dl_dead
     ∨ hc_policy demo_http = FailurePolicyDrop)
  ∧ (hc_policy demo_http = FailurePolicyFail → demo_http_flushes ≫= sent_records = (fed demo_http_events).*1)
  ∧ ∀ n cancelled batch body rs, bs_calls demo_http_state !! n = Some (cancelled, batch) →
      dl_sent (http_flushBatch (λ _, None) demo_http (demo_http_env n cancelled) batch) = Some (body, rs) →
      body_of demo_http body rs ∧ ∃ k, accepted (he_answer (demo_http_env n cancelled) k).
Proof.
  apply (http_sink_accounts (λ _, None) demo_http demo_http_env demo_http_events demo_http_state BwDone); [vm_compute; reflexivity|done|vm_compute; done].
Defined.
