(* ===== verification/Backend.v ===== *)
(** * Container backends ([src/control/backend])

    How Docker and Kubernetes implement the backend interface of [Controller]:
    the Docker operations over a daemon given by the documented behaviour of its
    API ([DockerDaemon]), the Kubernetes operations over the answers of the API
    server, and the job slots both report.

    The Kubernetes quantity parser and the daemon are parameters.  Live
    utilization figures, logs and registry credentials are left out. *)

From S2P Require Import Prelude Rfc3339 Decimal Lifecycle JobStore Controller.

(** ** Launch specifications *)

Definition PullIfNotPresent : bytes := bs "ifnotpresent".
Definition PullAlways : bytes := bs "always".
Definition PullNever : bytes := bs "never".

(** [orString] *)
Definition orString (v def : bytes) : bytes := if decide (v = []) then def else v.

(** A port of zero means 8080. *)
Definition control_port (spec : LaunchSpec) : Z := if ls_Port spec =? 0 then 8080 else ls_Port spec.

(** [joinReason], [shortID] *)
Definition joinReason (a b : bytes) : bytes := if decide (a = []) then b else if decide (b = []) then a else a ++ bs "; " ++ b.
Definition shortID (id : bytes) : bytes := take 12 id.

(** A quantity: its value in thousandths, and rounded up to units. *)
Notation quantity_parser := (bytes → result (Z * Z)).

(** ** Docker *)

(** What a container is created with. *)
Record dconfig := mkDConfig {
  dc_Image : bytes;
  dc_Env : list bytes;
  dc_Port : Z;
  dc_Labels : gmap bytes bytes;
  dc_Binds : list bytes;
  dc_NanoCPUs : Z;
  dc_Memory : Z;
  dc_Name : bytes
}.
Definition job_label (c : dconfig) : bytes := default [] (dc_Labels c !! bs "weibo.job").

(** An error of the daemon; [client.IsErrNotFound] tells the first kind. *)
Inductive derr := NotFound (e : bytes) | OtherErr (e : bytes).
Definition derr_text (e : derr) : bytes := match e with NotFound e | OtherErr e => e end.

(** [ContainerJSON]: running and paused, exit code, killed for memory; the
    published ports; the limits. *)
Record dinspect := mkInspect {
  in_State : option (bool * bool * Z * bool);
  in_Ports : list (list (bytes * bytes));
  in_Limits : option (Z * Z)
}.

(** An entry of the container list. *)
Record dlisted := mkListed { dl_ID : bytes; dl_Job : option bytes; dl_State : bytes; dl_Created : Z }.

(** The daemon: [up] is what it runs. *)
Class DockerDaemon (D : Type) := {
  up : D → bytes → option dconfig;
  ImageList : D → bytes → result bool;
  ImagePull : D → bytes → option bytes * D;
  VolumeCreate : D → bytes → option bytes * D;
  VolumeRemove : D → bytes → option derr * D;
  ContainerCreate : D → dconfig → result bytes * D;
  CopyToContainer : D → bytes → bytes → option bytes * D;
  ContainerStart : D → bytes → option bytes * D;
  ContainerStop : D → bytes → Z → option derr * D;
  ContainerRemove : D → bytes → option derr * D;
  ContainerInspect : D → bytes → dinspect + derr;
  ContainerList : D → result (list dlisted);
  DaemonInfo : D → result (Z * Z);
  created : D → bytes → option dconfig;
  pull_up : ∀ d ref id, up (ImagePull d ref).2 id = up d id;
  volume_up : ∀ d v id, up (VolumeCreate d v).2 id = up d id;
  create_up : ∀ d c id, up (ContainerCreate d c).2 id = up d id;
  create_ok : ∀ d c id d', ContainerCreate d c = (Ok id, d') → id ≠ [] ∧ up d id = None ∧ created d' id = Some c;
  copy_up : ∀ d i doc id, up (CopyToContainer d i doc).2 id = up d id;
  copy_created : ∀ d i doc id, created (CopyToContainer d i doc).2 id = created d id;
  start_others : ∀ d i id, id ≠ i → up (ContainerStart d i).2 id = up d id;
  start_ok : ∀ d i d', ContainerStart d i = (None, d') → up d' i = created d i;
  stop_others : ∀ d i t id, id ≠ i → up (ContainerStop d i t).2 id = up d id;
  stop_ok : ∀ d i t e d', ContainerStop d i t = (e, d') → (∀ m, e ≠ Some (OtherErr m)) → up d' i = None;
  stop_err : ∀ d i t id c, up (ContainerStop d i t).2 id = Some c → up d id = Some c;
  remove_others : ∀ d i id, id ≠ i → up (ContainerRemove d i).2 id = up d id;
  remove_ok : ∀ d i e d', ContainerRemove d i = (e, d') → (∀ m, e ≠ Some (OtherErr m)) → up d' i = None;
  remove_err : ∀ d i id c, up (ContainerRemove d i).2 id = Some c → up d id = Some c;
  inspect_gone : ∀ d i e, ContainerInspect d i = inr (NotFound e) → up d i = None;
  inspect_up : ∀ d i info, ContainerInspect d i = inl info → is_Some (up d i) → ∃ p c o, in_State info = Some (true, p, c, o)
}.

Section docker.
Context {D : Type} `{!DockerDaemon D} (quantity : quantity_parser) (image : bytes).
Implicit Types (d : D).

(** [HasImage], [pullImage] *)
Definition HasImage d (ref : bytes) : result bool := ImageList d ref.
Definition pullImage d (ref policy : bytes) : option bytes * D :=
  let policy := orString policy PullIfNotPresent in
  if decide (policy = PullNever) then (None, d)
  else if decide (policy = PullIfNotPresent) then
    match HasImage d ref with Ok true => (None, d) | _ => ImagePull d ref end
  else ImagePull d ref.

Definition containerWorkflowPath : bytes := bs "/wf/workflow.yaml".
Definition containerDataDir : bytes := bs "/data".
Definition containerSavepointDir : bytes := bs "/savepoints".
Definition sharedSavepointVolume : bytes := bs "weibo-savepoints".
Definition volume_name (job : bytes) : bytes := bs "weibo-" ++ job.

(** [cpuToNanoCPUs], [applyResources] *)
Definition cpuToNanoCPUs (s : bytes) : result Z := q <-? quantity s ;; Ok (i64_mul q.1 1000000).
Definition applyResources (r : option ResourceLimits) : result (Z * Z) :=
  match r with
  | None => Ok (0, 0)
  | Some r =>
      cpu <-? (if decide (lim_CPU r = []) then Ok 0
               else match cpuToNanoCPUs (lim_CPU r) with Err e => Err (bs "cpu " ++ lim_CPU r ++ bs ": " ++ e) | x => x end) ;;
      mem <-? (if decide (lim_Memory r = []) then Ok 0
               else match quantity (lim_Memory r) with
                    | Ok q => Ok q.2
                    | Err e => Err (bs "memory " ++ lim_Memory r ++ bs ": " ++ e)
                    | Panic e => Panic e
                    end) ;;
      Ok (cpu, mem)
  end.

(** The environment of the container; the order of the job's own variables is
    that of a map. *)
Definition docker_env (spec : LaunchSpec) : list bytes :=
  [bs "DATA_DIR=" ++ containerDataDir; bs "SAVEPOINT_DIR=" ++ containerSavepointDir; bs "PORT=" ++ FormatInt (control_port spec)]
  ++ (if decide (ls_Doc spec = []) then [] else [bs "WORKFLOW=" ++ containerWorkflowPath])
  ++ (if decide (ls_Restore spec = []) then [] else [bs "RESTORE_SAVEPOINT=" ++ ls_Restore spec])
  ++ ((λ kv, kv.1 ++ bs "=" ++ kv.2) <$> map_to_list (ls_Env spec)).

Definition docker_config (spec : LaunchSpec) (limits : Z * Z) (now : time) : dconfig :=
  mkDConfig (orString (ls_Image spec) image) (docker_env spec) (control_port spec)
    {[bs "weibo.job" := ls_JobID spec; bs "weibo.name" := ls_Name spec]}
    [volume_name (ls_JobID spec) ++ bs ":" ++ containerDataDir; sharedSavepointVolume ++ bs ":" ++ containerSavepointDir]
    limits.1 limits.2 (bs "weibo-" ++ ls_JobID spec ++ bs "-" ++ FormatInt (UnixNano now)).

Fixpoint create_volumes d (vs : list bytes) : option bytes * D :=
  match vs with
  | [] => (None, d)
  | v :: vs => match VolumeCreate d v with
               | (None, d) => create_volumes d vs
               | (Some e, d) => (Some (bs "docker: create volume " ++ v ++ bs ": " ++ e), d)
               end
  end.

(** The image: pulled, or a local one when the pull fails. *)
Definition prepare_image d (ref policy : bytes) : option bytes * D :=
  match pullImage d ref policy with
  | (None, d) => (None, d)
  | (Some e, d) => match HasImage d ref with
                   | Ok true => (None, d)
                   | _ => (Some (bs "docker: pull image " ++ ref ++ bs ": " ++ e), d)
                   end
  end.

(** The steps behind the creation of the container: the document is copied and
    the process started; a failure removes the container. *)
Definition start_created d (id : bytes) (doc : bytes) : result bytes * D :=
  let '(copyErr, d) := if decide (doc = []) then (None, d) else CopyToContainer d id doc in
  match copyErr with
  | Some e => (Err (bs "docker: copy workflow: " ++ e), (ContainerRemove d id).2)
  | None =>
      match ContainerStart d id with
      | (None, d) => (Ok id, d)
      | (Some e, d) => (Err (bs "docker: start container: " ++ e), (ContainerRemove d id).2)
      end
  end.

(** [Launch] *)
Definition docker_Launch d (spec : LaunchSpec) (policy : bytes) (now : time) : result bytes * D :=
  let ref := orString (ls_Image spec) image in
  match prepare_image d ref policy with
  | (Some e, d) => (Err e, d)
  | (None, d) =>
      match create_volumes d [volume_name (ls_JobID spec); sharedSavepointVolume] with
      | (Some e, d) => (Err e, d)
      | (None, d) =>
          match applyResources (ls_Resources spec) with
          | Err e => (Err (bs "docker: " ++ e), d)
          | Panic e => (Panic e, d)
          | Ok limits =>
              match ContainerCreate d (docker_config spec limits now) with
              | (Ok id, d) => start_created d id (ls_Doc spec)
              | (Err e, d) | (Panic e, d) => (Err (bs "docker: create container: " ++ e), d)
              end
          end
      end
  end.

(** An absent container is as good as a stopped or removed one. *)
Definition unless_gone (e : option derr) : option bytes := match e with None | Some (NotFound _) => None | Some (OtherErr e) => Some e end.

(** [Stop], [Remove]; the timeout in whole seconds. *)
Definition docker_Stop d (id : bytes) (timeout : duration) : option bytes * D :=
  let '(e, d) := ContainerStop d id (Z.quot timeout 1000000000) in (unless_gone e, d).
Definition docker_Remove d (id : bytes) : option bytes * D := let '(e, d) := ContainerRemove d id in (unless_gone e, d).

(** The published port: the last binding that parses. *)
Definition bind_port (st : BStatus) (b : bytes * bytes) : BStatus :=
  if decide (b.2 = []) then st
  else match ParseInt b.2 with
       | Some p =>
           let host := if decide (b.1 = [] ∨ b.1 = bs "0.0.0.0") then bs "127.0.0.1" else b.1 in
           mkBStatus (bst_Phase st) (bst_ExitCode st) (bst_OOMKilled st) (bst_Reason st) p (host ++ bs ":" ++ b.2)
       | None => st
       end.

(** [statusFromInspect] *)
Definition statusFromInspect (info : dinspect) : BStatus :=
  let st := match in_State info with
            | Some (true, true, _, _) => mkBStatus BUnhealthy 0 false (bs "container paused") 0 []
            | Some (true, false, _, _) => mkBStatus BRunning 0 false [] 0 []
            | Some (false, _, code, oom) => mkBStatus BExited code oom [] 0 []
            | None => mkBStatus BExited 0 false [] 0 []
            end in
  foldl bind_port st (concat (in_Ports info)).

(** [Status] *)
Definition docker_Status d (id : bytes) : result BStatus :=
  match ContainerInspect d id with
  | inl info => Ok (statusFromInspect info)
  | inr (NotFound _) => Ok (mkBStatus BGone 0 false [] 0 [])
  | inr (OtherErr e) => Err e
  end.

(** [DeleteJobData] *)
Definition docker_DeleteJobData d (job : bytes) : option bytes * D :=
  if decide (job = []) then (Some (bs "docker: delete data: empty job id"), d)
  else match VolumeRemove d (volume_name job) with
       | (Some (OtherErr e), d) =>
           (if bytes_contains (to_lower e) (bs "no such volume") then None
            else Some (bs "docker: remove volume " ++ volume_name job ++ bs ": " ++ e), d)
       | (_, d) => (None, d)
       end.
End docker.

(** ** Capacity *)

Record CapacityConfig := mkCapConfig { cc_MaxJobs : Z; cc_DefaultJobCPU : bytes; cc_DefaultJobMemory : bytes }.

(** [CapacitySnapshot], without the name of the backend, the time, the configured
    limit, which is an input, and the figures of the host. *)
Record CapacitySnapshot := mkSnapshot {
  cap_Health : bytes;
  cap_Source : bytes;
  cap_Reason : bytes;
  cap_Unsupported : bool;
  cap_Total : option Z;
  cap_Used : Z;
  cap_Available : option Z;
  cap_CPU : Z * Z * Z;        (* total, reserved, available *)
  cap_Memory : Z * Z * Z;
  cap_Default : Z * Z;
  cap_Counts : Z * Z * Z * Z; (* running, starting, exited, unhealthy *)
  cap_Containers : list ContainerStats
}.

Definition maxInt64 : Z := 2 ^ 63 - 1.
Definition min64 (v : Z) (rest : list Z) : Z := foldl (λ m x, if x <? m then x else m) v rest.
Definition max64 (a b : Z) : Z := if b <? a then a else b.

(** A default of the configuration, or the fallback with a reason. *)
Definition default_quantity (quantity : quantity_parser) (pick : Z * Z → Z) (text def : bytes) (fallback : Z) (what : bytes) (reason : bytes)
    : Z * option bytes :=
  match quantity (orString text def) with
  | Ok q => (pick q, None)
  | Err e | Panic e => (fallback, Some (joinReason reason (bs "invalid default job " ++ what ++ bs ": " ++ e)))
  end.

(** The slots that remain: what the processors, the memory and the configured
    limit leave. *)
Definition slots_by (default total available : Z) : Z := if (0 <? default) && (0 <? total) then i64_div available default else maxInt64.
Definition slots_by_limit (maxJobs used : Z) : Z :=
  if 0 <? maxJobs then (let a := i64_sub maxJobs used in if a <? 0 then 0 else a) else maxInt64.
Definition docker_slots (cpu mem : Z * Z * Z) (dflt : Z * Z) (maxJobs used : Z) : Z :=
  let a := min64 (slots_by dflt.1 cpu.1.1 cpu.2) [slots_by dflt.2 mem.1.1 mem.2; slots_by_limit maxJobs used] in
  if a <? 0 then 0 else a.

(** The loop over the containers. *)
Record docker_tally := mkTally {
  ta_degraded : bool;
  ta_reason : bytes;
  ta_counts : Z * Z * Z * Z;
  ta_used : Z;
  ta_cpu : Z;
  ta_mem : Z;
  ta_containers : list ContainerStats
}.

(** [containerSnapshot] *)
Definition containerSnapshot (c : dlisted) : ContainerStats :=
  mkContainerStats (shortID (dl_ID c)) (default [] (dl_Job c)) (bool_decide (default [] (dl_Job c) ≠ [])) (dl_Created c).

Definition is_state (c : dlisted) (names : list string) : bool := bool_decide (dl_State c ∈ bs <$> names).

Section capacity.
Context {D : Type} `{!DockerDaemon D} (quantity : quantity_parser).
(** The error of the statistics of a running container. *)
Context (statsErr : bytes → option bytes).

Definition count_container (t : docker_tally) (c : dlisted) : docker_tally :=
  let '(running, starting, exited, unhealthy) := ta_counts t in
  let counts :=
    if is_state c ["running"] then (running + 1, starting, exited, unhealthy)
    else if is_state c ["created"; "restarting"] then (running, starting + 1, exited, unhealthy)
    else if is_state c ["exited"; "dead"; "removing"] then (running, starting, exited + 1, unhealthy)
    else (running, starting, exited, unhealthy) in
  let counts := if is_state c ["running"; "created"; "restarting"; "exited"] then counts else (counts.1, counts.2 + 1) in
  mkTally (ta_degraded t) (ta_reason t) counts (ta_used t) (ta_cpu t) (ta_mem t) (ta_containers t ++ [containerSnapshot c]).

Definition degrade (t : docker_tally) (reason : bytes) : docker_tally :=
  mkTally true (joinReason (ta_reason t) reason) (ta_counts t) (ta_used t) (ta_cpu t) (ta_mem t) (ta_containers t).
Definition reserve (t : docker_tally) (cpu mem : Z) : docker_tally :=
  mkTally (ta_degraded t) (ta_reason t) (ta_counts t) (ta_used t + 1) (i64_add (ta_cpu t) cpu) (i64_add (ta_mem t) mem) (ta_containers t).

Definition tally_container (d : D) (dflt : Z * Z) (t : docker_tally) (c : dlisted) : docker_tally :=
  let t := count_container t c in
  if negb (is_state c ["running"; "created"; "restarting"]) then t
  else
    let t := if is_state c ["running"] then
               match statsErr (dl_ID c) with Some e => degrade t (bs "stats " ++ shortID (dl_ID c) ++ bs ": " ++ e) | None => t end
             else t in
    if bool_decide (default [] (dl_Job c) = []) then t
    else match ContainerInspect d (dl_ID c) with
         | inr e => reserve (degrade t (bs "inspect " ++ shortID (dl_ID c) ++ bs ": " ++ derr_text e)) dflt.1 dflt.2
         | inl info =>
             match in_Limits info with
             | Some (nano, mem) => reserve t (if 0 <? nano then nano / 1000000 else dflt.1) (if 0 <? mem then mem else dflt.2)
             | None => reserve t dflt.1 dflt.2
             end
         end.

(** [Capacity] of the Docker backend: failures of the daemon are part of the
    snapshot, never an error. *)
Definition docker_Capacity (d : D) (cfg : CapacityConfig) : CapacitySnapshot :=
  let source := bs "docker_host_resources" in
  match DaemonInfo d with
  | Err e | Panic e => mkSnapshot (bs "unreachable") source e false None 0 None (0, 0, 0) (0, 0, 0) (0, 0) (0, 0, 0, 0) []
  | Ok (ncpu, memTotal) =>
      let cpuTotal := i64_mul ncpu 1000 in
      let '(cpuD, r1) := default_quantity quantity fst (cc_DefaultJobCPU cfg) (bs "1") 1000 (bs "cpu") [] in
      let '(memD, r2) := default_quantity quantity snd (cc_DefaultJobMemory cfg) (bs "1Gi") (2 ^ 30) (bs "memory") (default [] r1) in
      let reason := default (default [] r1) r2 in
      let degraded := bool_decide (is_Some r1) || bool_decide (is_Some r2) in
      match ContainerList d with
      | Err e | Panic e =>
          mkSnapshot (bs "degraded") source (joinReason reason (bs "list containers: " ++ e)) false None 0 None
            (cpuTotal, 0, 0) (memTotal, 0, 0) (cpuD, memD) (0, 0, 0, 0) []
      | Ok list =>
          let t := foldl (tally_container d (cpuD, memD)) (mkTally degraded reason (0, 0, 0, 0) 0 0 0 []) list in
          let cpu := (cpuTotal, ta_cpu t, max64 (i64_sub cpuTotal (ta_cpu t)) 0) in
          let mem := (memTotal, ta_mem t, max64 (i64_sub memTotal (ta_mem t)) 0) in
          let available := docker_slots cpu mem (cpuD, memD) (cc_MaxJobs cfg) (ta_used t) in
          mkSnapshot (if ta_degraded t then bs "degraded" else bs "healthy")
            (if 0 <? cc_MaxJobs cfg then bs "docker_host_resources + configured_limit" else source) (ta_reason t) false
            (Some (i64_add (ta_used t) available)) (ta_used t) (Some available) cpu mem (cpuD, memD) (ta_counts t) (ta_containers t)
      end
  end.
End capacity.

(** ** Kubernetes *)

(** An error of the API server, by the kinds the code distinguishes. *)
Inductive kerr := KNotFound | KExists | KErr (e : bytes).

(** *** The job resource *)

(** A toleration of the cluster's API, passed on as it is: key, operator, value,
    effect. *)
Notation toleration := (bytes * bytes * bytes * bytes)%type.

Record Kubernetes := mkK8s {
  k_namespace : bytes;
  k_image : bytes;
  k_pvcSize : bytes;
  k_storageClass : bytes;
  k_serviceAccount : bytes;
  k_pullSecrets : list bytes;
  k_runtimeClass : bytes;
  k_priorityClass : bytes;
  k_nodeSelector : gmap bytes bytes;
  k_tolerations : list toleration;
  k_ttl : option Z;
  k_addressTemplate : bytes
}.

(** [newK8s]: from the options, in their order. *)
Definition newK8s (namespace image pvcSize storageClass account : bytes) (secrets : list bytes) (runtimeClass priorityClass : bytes)
    (nodeSelector : gmap bytes bytes) (tolerations : list toleration) (ttl : option Z) (template : bytes) : Kubernetes :=
  mkK8s (orString namespace (bs "default")) image (orString pvcSize (bs "1Gi")) storageClass account secrets runtimeClass priorityClass
    nodeSelector tolerations ttl template.

(** [labels] *)
Definition labels (job run : bytes) : gmap bytes bytes :=
  let m : gmap bytes bytes := {[bs "app.kubernetes.io/managed-by" := bs "weibo"; bs "weibo.job" := job]} in
  if decide (run = []) then m else <[bs "weibo.run" := run]> m.

Definition k8sDataDir : bytes := bs "/data".
Definition k8sSavepointDir : bytes := bs "/data/savepoints".
Definition k8sWorkflowPath : bytes := bs "/wf/workflow.yaml".
Definition nonRootUID : Z := 65532.

(** [k8sPullPolicy] *)
Definition k8sPullPolicy (policy : bytes) : bytes :=
  if decide (policy = PullAlways) then bs "Always" else if decide (policy = PullNever) then bs "Never"
  else if decide (policy = PullIfNotPresent) then bs "IfNotPresent" else [].

(** [k8sResources]: requests and limits; a quantity that does not parse panics. *)
Definition k8sResources (quantity : quantity_parser) (r : option ResourceLimits) : result (list (bytes * (Z * Z))) :=
  let must name text :=
    if decide (text = []) then Ok []
    else match quantity text with Ok q => Ok [(name, q)] | Err e | Panic e => Panic e end in
  match r with
  | None => Ok []
  | Some r =>
      cpu <-? must (bs "cpu") (lim_CPU r) ;;
      mem <-? must (bs "memory") (lim_Memory r) ;;
      disk <-? must (bs "ephemeral-storage") (lim_Storage r) ;;
      Ok (cpu ++ mem ++ disk)
  end.

(** Name and labels of an object ([meta]). *)
Record kmeta := mkMeta { km_name : bytes; km_namespace : bytes; km_labels : gmap bytes bytes }.
Definition meta (k : Kubernetes) (name job run : bytes) : kmeta := mkMeta name (k_namespace k) (labels job run).

(** An HTTP probe: path, port, initial delay, period and failure threshold. *)
Record kprobe := mkProbe { pr_path : bytes; pr_port : Z; pr_initial : Z; pr_period : Z; pr_failures : Z }.

(** The [batch/v1] job with its one pod and container. *)
Record kjob := mkKJob {
  kj_meta : kmeta;
  kj_backoffLimit : Z;
  kj_ttl : option Z;
  kj_podLabels : gmap bytes bytes;
  kj_annotations : gmap bytes bytes;
  kj_restart : bytes;
  kj_grace : Z;
  kj_account : bytes;
  kj_pullSecrets : list bytes;
  kj_runtimeClass : option bytes;
  kj_priorityClass : bytes;
  kj_nodeSelector : gmap bytes bytes;
  kj_tolerations : list toleration;
  kj_uids : Z * Z * Z;                       (* user, group, group of the volumes; never root *)
  kj_image : bytes;
  kj_pullPolicy : bytes;
  kj_env : list (bytes * bytes);
  kj_envFrom : list bytes;
  kj_port : Z;
  kj_mounts : list (bytes * bytes * bool);   (* volume, path, read only *)
  kj_probes : kprobe * kprobe;               (* liveness, readiness *)
  kj_resources : list (bytes * (Z * Z));     (* requests and limits *)
  kj_volumes : list (bytes * bytes)          (* name, claim or config map *)
}.

(** [buildJob]: the container has no privileges and a read-only root. *)
Definition buildJob (k : Kubernetes) (run job pvc cm secret image : bytes) (port : Z) (restore policy : bytes) (resources : list (bytes * (Z * Z))) : kjob :=
  let yaml {A} (x : A) : list A := if decide (cm = []) then [] else [x] in
  let liveness := mkProbe (bs "/livez") port 3 5 6 in
  {| kj_meta := meta k run job run;
     kj_backoffLimit := 0;
     kj_ttl := k_ttl k;
     kj_podLabels := labels job run;
     kj_annotations := {[bs "prometheus.io/scrape" := bs "true"; bs "prometheus.io/path" := bs "/metrics"; bs "prometheus.io/port" := FormatInt port]};
     kj_restart := bs "Never";
     kj_grace := 45;
     kj_account := k_serviceAccount k;
     kj_pullSecrets := k_pullSecrets k;
     kj_runtimeClass := if decide (k_runtimeClass k = []) then None else Some (k_runtimeClass k);
     kj_priorityClass := k_priorityClass k;
     kj_nodeSelector := k_nodeSelector k;
     kj_tolerations := k_tolerations k;
     kj_uids := (nonRootUID, nonRootUID, nonRootUID);
     kj_image := image;
     kj_pullPolicy := k8sPullPolicy policy;
     kj_env := [(bs "DATA_DIR", k8sDataDir); (bs "SAVEPOINT_DIR", k8sSavepointDir); (bs "PORT", FormatInt port)]
               ++ yaml (bs "WORKFLOW", k8sWorkflowPath)
               ++ (if decide (restore = []) then [] else [(bs "RESTORE_SAVEPOINT", restore)]);
     kj_envFrom := if decide (secret = []) then [] else [secret];
     kj_port := port;
     kj_mounts := (bs "data", k8sDataDir, false) :: yaml (bs "wf", bs "/wf", true);
     kj_probes := (liveness, mkProbe (bs "/readyz") (pr_port liveness) (pr_initial liveness) (pr_period liveness) (pr_failures liveness));
     kj_resources := resources;
     kj_volumes := (bs "data", pvc) :: yaml (bs "wf", cm) |}.

(** [buildService]: the selector and the port, which is also the target port. *)
Record kservice := mkService { sv_meta : kmeta; sv_selector : gmap bytes bytes; sv_port : Z }.
Definition buildService (k : Kubernetes) (run job : bytes) (port : Z) : kservice :=
  mkService (meta k run job run) {[bs "weibo.run" := run]} port.

(** *** Launch *)

(** What the launch asks the API server to do. *)
Inductive kcall :=
| GetPVC (name : bytes) | CreatePVC (m : kmeta) (size : Z * Z) (storageClass : option bytes)
| CreateConfigMap (m : kmeta) (doc : bytes) | CreateSecret (m : kmeta) (env : gmap bytes bytes)
| CreateJob_ (j : kjob) | CreateService (s : kservice)
| DeleteJob_ (run : bytes) | DeleteService (run : bytes) | DeleteConfigMap (run : bytes) | DeleteSecret (run : bytes)
| DeletePVC (name : bytes).

Section k8s.
Context (quantity : quantity_parser) (k : Kubernetes).
(** What the server answers to a call. *)
Context (answer : kcall → option kerr).

Definition kerr_text (e : kerr) : bytes := match e with KNotFound => bs "not found" | KExists => bs "already exists" | KErr e => e end.

(** [ensurePVC]: the calls made and the outcome; a size that does not parse
    panics. *)
Definition ensurePVC (name job : bytes) : list kcall * result unit :=
  match answer (GetPVC name) with
  | None => ([GetPVC name], Ok tt)
  | Some KNotFound =>
      match quantity (k_pvcSize k) with
      | Err e | Panic e => ([GetPVC name], Panic e)
      | Ok size =>
          let create := CreatePVC (meta k name job []) size (if decide (k_storageClass k = []) then None else Some (k_storageClass k)) in
          ([GetPVC name; create], match answer create with None | Some KExists => Ok tt | Some e => Err (kerr_text e) end)
      end
  | Some e => ([GetPVC name], Err (bs "k8s: get pvc: " ++ kerr_text e))
  end.

(** [cleanup]: all four deletions are tried; [order] is the order in which Go
    ranges over the map of their errors. *)
Definition cleanup_calls (run : bytes) : list kcall := [DeleteJob_ run; DeleteService run; DeleteConfigMap run; DeleteSecret run].
Definition cleanup (order : list (bytes * kcall) → list (bytes * kcall)) (run : bytes) : list kcall * option bytes :=
  let kinds := zip [bs "job"; bs "service"; bs "configmap"; bs "secret"] (cleanup_calls run) in
  let errs := omap (λ kc : bytes * kcall, match answer kc.2 with
                           | Some KNotFound | None => None
                           | Some e => Some (bs "delete " ++ kc.1 ++ bs ": " ++ kerr_text e)
                           end) (order kinds) in
  (cleanup_calls run, match errs with [] => None | _ => Some (strings_Join [byte_of_Z 10] errs) end).

(** [Remove], [DeleteJobData] *)
Definition k8s_Remove := cleanup.
Definition k8s_DeleteJobData (job : bytes) : list kcall * option bytes :=
  if decide (job = []) then ([], Some (bs "k8s: delete data: empty job id"))
  else let c := DeletePVC (bs "weibo-" ++ job ++ bs "-data") in
       ([c], match answer c with None | Some KNotFound => None | Some e => Some (kerr_text e) end).

(** A creation that fails undoes the launch. *)
Definition create_or (c : kcall) (what : bytes) (undo : list kcall) (k : list kcall * result bytes) : list kcall * result bytes :=
  match answer c with
  | None => (c :: k.1, k.2)
  | Some e => (c :: undo, Err (bs "k8s: create " ++ what ++ bs ": " ++ kerr_text e))
  end.

(** [Launch] *)
Definition k8s_Launch (spec : LaunchSpec) (policy : bytes) (now : time) : list kcall * result bytes :=
  let job := ls_JobID spec in
  let run := bs "weibo-" ++ job ++ bs "-" ++ FormatInt (UnixNano now) in
  let pvc := bs "weibo-" ++ job ++ bs "-data" in
  let port := control_port spec in
  let undo := cleanup_calls run in
  let '(calls, err) := ensurePVC pvc job in
  match err with
  | Err e => (calls, Err e)
  | Panic e => (calls, Panic e)
  | Ok _ =>
      let start :=
        match k8sResources quantity (ls_Resources spec) with
        | Ok res =>
            create_or (CreateJob_ (buildJob k run job pvc (if decide (ls_Doc spec = []) then [] else run)
                         (if decide (ls_Env spec = ∅) then [] else run) (orString (ls_Image spec) (k_image k)) port (ls_Restore spec) policy res))
              (bs "job") undo (create_or (CreateService (buildService k run job port)) (bs "service") undo ([], Ok run))
        | Err e => ([], Err e)
        | Panic e => ([], Panic e)
        end in
      let with_secret :=
        if decide (ls_Env spec = ∅) then start else create_or (CreateSecret (meta k run job run) (ls_Env spec)) (bs "secret") undo start in
      let with_doc :=
        if decide (ls_Doc spec = []) then with_secret
        else create_or (CreateConfigMap (meta k run job run) (ls_Doc spec)) (bs "configmap") [] with_secret in
      (calls ++ with_doc.1, with_doc.2)
  end.
End k8s.

(** *** Status *)

Inductive cstate := CRunning | CWaiting (reason message : bytes) | CTerminated (code : Z) (reason : bytes) | CNone.
Record kpod := mkPod {
  kp_name : bytes;
  kp_phase : bytes;
  kp_conditions : list (bool * bytes * bytes);   (* is it false, reason, message *)
  kp_containers : list (cstate * bool)           (* state, ready *)
}.
Record kevent := mkEvent { ke_object : bytes; ke_reason : bytes; ke_type : bytes; ke_message : bytes; ke_times : list time }.

(** [eventTime]: the first time that is set, of the event, the last and the first
    occurrence, or the creation. *)
Definition eventTime (e : kevent) : time :=
  match filter (λ t, IsZero t = false) (take 3 (ke_times e)) with
  | t :: _ => t
  | [] => default zeroTime (ke_times e !! 3%nat)
  end.

(** The answers of the server to the queries of a status. *)
Record kview := mkView {
  kv_job : (Z * Z * Z) + kerr;          (* succeeded, failed, active *)
  kv_pods : result (list kpod);
  kv_service : result (list Z);
  kv_events : result (list kevent)
}.

Section status.
Context (k : Kubernetes) (run : bytes).

(** [podPendingReason] *)
Definition podPendingReason (v : kview) : bytes :=
  match kv_pods v with
  | Ok (p :: _) =>
      match filter (λ c : bool * bytes * bytes, c.1.1 = true ∧ c.1.2 ≠ []) (kp_conditions p) with
      | (_, reason, message) :: _ => reason ++ bs ": " ++ message
      | [] =>
          match omap (λ c : cstate * bool, match c.1 with CWaiting r m => Some (r ++ bs ": " ++ m) | _ => None end) (kp_containers p) with
          | t :: _ => t
          | [] => kp_phase p
          end
      end
  | _ => bs "waiting for pod"
  end.

(** [podRuntimeStatus] *)
Definition pod_ready (p : kpod) : bool := existsb (λ c : cstate * bool, match c with (CRunning, true) => true | _ => false end) (kp_containers p).
Definition podRuntimeStatus (v : kview) : BackendPhase * bytes :=
  match kv_pods v with
  | Ok ((_ :: _) as pods) => if existsb pod_ready pods then (BRunning, []) else (BPending, podPendingReason v)
  | _ => (BPending, bs "waiting for pod")
  end.

(** [podExitCode], [podOOMKilled] *)
Definition terminations (v : kview) : list (Z * bytes) :=
  match kv_pods v with
  | Ok pods => pods ≫= λ p, omap (λ c : cstate * bool, match c.1 with CTerminated code r => Some (code, r) | _ => None end) (kp_containers p)
  | _ => []
  end.
Definition podExitCode (v : kview) : Z := match terminations v with (code, _) :: _ => code | [] => 1 end.
Definition podOOMKilled (v : kview) : bool := existsb (λ t, bool_decide (t.2 = bs "OOMKilled")) (terminations v).

(** [recentEvents]: the three newest of the job and its pods. *)
Definition event_newer (e e' : kevent) : Prop := eventTime e' ≤ eventTime e.
#[local] Instance event_newer_dec : RelDecision event_newer.
Proof. intros e e'. unfold event_newer. apply _. Defined.
Definition event_text (e : kevent) : bytes :=
  let label := orString (ke_reason e) (ke_type e) in
  if decide (label = []) then ke_message e else label ++ bs ": " ++ ke_message e.
Definition recentEvents (v : kview) : bytes :=
  match kv_events v with
  | Ok events =>
      let names := run :: match kv_pods v with Ok pods => kp_name <$> pods | _ => [] end in
      let matched := filter (λ e, ke_object e ∈ names ∧ ke_message e ≠ []) events in
      strings_Join (bs " | ") (event_text <$> take 3 (merge_sort event_newer matched))
  | _ => []
  end.

(** The address from the template: [strings.NewReplacer] on the three tokens. *)
Fixpoint replace_tokens (fuel : nat) (port : bytes) (s : bytes) : bytes :=
  match fuel, s with
  | S fuel, c :: s' =>
      if has_prefix (bs "{service}") s then run ++ replace_tokens fuel port (drop 9 s)
      else if has_prefix (bs "{namespace}") s then k_namespace k ++ replace_tokens fuel port (drop 11 s)
      else if has_prefix (bs "{port}") s then port ++ replace_tokens fuel port (drop 6 s)
      else c :: replace_tokens fuel port s'
  | _, _ => []
  end.
Definition control_address (port : Z) : bytes :=
  let t := orString (k_addressTemplate k) (bs "{service}.{namespace}.svc.cluster.local:{port}") in
  replace_tokens (length t) (FormatInt port) t.

(** [Status] *)
Definition k8s_Status (v : kview) : result BStatus :=
  match kv_job v with
  | inr KNotFound => Ok (mkBStatus BGone 0 false [] 0 [])
  | inr e => Err (kerr_text e)
  | inl (succeeded, failed, active) =>
      let st :=
        if 0 <? succeeded then mkBStatus BExited 0 false [] 0 []
        else if 0 <? failed then mkBStatus BExited (podExitCode v) (podOOMKilled v) [] 0 []
        else if 0 <? active then (let '(p, r) := podRuntimeStatus v in mkBStatus p 0 false r 0 [])
        else mkBStatus BPending 0 false (podPendingReason v) 0 [] in
      let address := match kv_service v with Ok (port :: _) => control_address port | _ => [] end in
      let events := recentEvents v in
      Ok (mkBStatus (bst_Phase st) (bst_ExitCode st) (bst_OOMKilled st)
            (if decide (events = []) then bst_Reason st else joinReason (bst_Reason st) (bs "events: " ++ events)) 0 address)
  end.

(** *** Stop *)

(** What the loop of [Stop] sees at each poll until its context ends: the answer
    for the job, and the number of pods. *)
Notation poll := (option kerr * result nat)%type.

Fixpoint stop_loop (timeout : bytes) (polls : list poll) : option bytes :=
  match polls with
  | [] => Some (bs "k8s: job " ++ run ++ bs " did not terminate within " ++ timeout ++ bs ": context deadline exceeded")
  | (job, pods) :: polls =>
      match job, pods with
      | Some KNotFound, Ok O => None
      | Some KNotFound, Ok _ | None, Ok _ => stop_loop timeout polls
      | Some KNotFound, Err e | Some KNotFound, Panic e | None, Err e | None, Panic e => Some (bs "k8s: wait for pods of " ++ run ++ bs ": " ++ e)
      | Some e, _ => Some (bs "k8s: wait for job " ++ run ++ bs " termination: " ++ kerr_text e)
      end
  end.

(** The deletions of the pods: an absent pod is fine. *)
Fixpoint delete_pods (deletePod : bytes → option kerr) (pods : list bytes) : option bytes :=
  match pods with
  | [] => None
  | p :: pods =>
      match deletePod p with
      | None | Some KNotFound => delete_pods deletePod pods
      | Some e => Some (bs "k8s: stop pod " ++ p ++ bs ": " ++ kerr_text e)
      end
  end.

(** The time [Stop] waits, and the grace period in seconds: [Round] is to the
    nearest second, halves away from zero. *)
Definition stop_timeout (timeout : duration) : duration := if timeout <=? 0 then 30 * 10 ^ 9 else timeout.
Definition stop_grace (timeout : duration) : Z := Z.max 1 ((stop_timeout timeout + 5 * 10 ^ 8) / 10 ^ 9).

(** [Stop]: what the server answers to the listing of the pods, to the deletions
    with a grace period, and to the polls; [show] prints the duration. *)
Definition k8s_Stop (show : duration → bytes) (timeout : duration) (listed : result (list bytes)) (deletePod : bytes → Z → option kerr)
    (deleteJob : Z → option kerr) (polls : list poll) : option bytes :=
  let seconds := stop_grace timeout in
  match listed with
  | Err e | Panic e => Some (bs "k8s: list pods for stop " ++ run ++ bs ": " ++ e)
  | Ok pods =>
      match delete_pods (λ p, deletePod p seconds) pods with
      | Some e => Some e
      | None =>
          match deleteJob seconds with
          | Some KNotFound => None
          | Some e => Some (bs "k8s: stop job " ++ run ++ bs ": " ++ kerr_text e)
          | None => stop_loop (show (stop_timeout timeout)) polls
          end
      end
  end.
End status.

(** *** Capacity *)

(** A quota: hard and used CPU and memory, where set. *)
Record kquota := mkQuota { kq_cpu : option (Z * Z); kq_mem : option (Z * Z) }.
(** A job of the namespace: name, job label, image, status and creation. *)
Record kjobinfo := mkJobInfo { ji_name : bytes; ji_job : bytes; ji_status : Z * Z * Z; ji_created : Z }.

Definition k8s_count (c : Z * Z * Z * Z) (j : kjobinfo) : Z * Z * Z * Z :=
  let '(running, starting, exited, used) := c in
  let '(succeeded, failed, active) := ji_status j in
  if 0 <? active then (running + active, starting, exited, used + active)
  else if (0 <? succeeded) || (0 <? failed) then (running, starting, exited + 1, used)
  else (running, starting + 1, exited, used + 1).

Definition k8s_stats (j : kjobinfo) : ContainerStats :=
  mkContainerStats (ji_name j) (ji_job j) (bool_decide (ji_job j ≠ [])) (ji_created j).

(** The slots a quota leaves for jobs of the default size; [None] when neither
    bound applies. *)
Definition quota_slots (cpu mem : Z * Z * Z) (dflt : Z * Z) : option Z :=
  let by_cpu := if (0 <? dflt.1) && (0 <? cpu.1.1) then Some (Z.quot cpu.2 dflt.1) else None in
  let by_mem := if (0 <? dflt.2) && (0 <? mem.1.1) then Some (Z.quot mem.2 dflt.2) else None in
  match by_cpu, by_mem with
  | Some c, Some m => Some (if (c <? 0) || (m <? c) then m else c)
  | None, m => m
  | c, None => c
  end.

Definition with_available (q : option (Z * Z)) : Z * Z * Z := match q with Some (hard, used) => (hard, used, Z.max 0 (i64_sub hard used)) | None => (0, 0, 0) end.

(** [Capacity] of the Kubernetes backend. *)
Definition k8s_Capacity (quantity : quantity_parser) (cfg : CapacityConfig) (ping : option bytes) (jobs : result (list kjobinfo)) (quotas : result (list kquota))
    : CapacitySnapshot :=
  let unsupported := bs "detailed kubernetes capacity requires quota/node-resource aggregation" in
  let bad health reason := mkSnapshot health (bs "kubernetes_api") reason true None 0 None (0, 0, 0) (0, 0, 0) (0, 0) (0, 0, 0, 0) [] in
  match ping, jobs with
  | Some e, _ => bad (bs "unreachable") e
  | None, Err e | None, Panic e => bad (bs "degraded") e
  | None, Ok jobs =>
      let '(running, starting, exited, used) := foldl k8s_count (0, 0, 0, 0) jobs in
      let quota := match quotas with
                   | Ok qs => head (filter (λ q, is_Some (kq_cpu q) ∨ is_Some (kq_mem q)) qs)
                   | _ => None
                   end in
      let cpu := with_available (q ← quota; kq_cpu q) in
      let mem := with_available (q ← quota; kq_mem q) in
      let dflt := (match quantity (cc_DefaultJobCPU cfg) with Ok q => q.1 | _ => 0 end, match quantity (cc_DefaultJobMemory cfg) with Ok q => q.2 | _ => 0 end) in
      let available := match quota with
                       | Some _ =>
                           slots ← quota_slots cpu mem dflt;
                           if slots <? 0 then None
                           else Some (if (0 <? cc_MaxJobs cfg) && (i64_sub (cc_MaxJobs cfg) used <? slots) then Z.max 0 (i64_sub (cc_MaxJobs cfg) used) else slots)
                       | None => if 0 <? cc_MaxJobs cfg then Some (Z.max 0 (i64_sub (cc_MaxJobs cfg) used)) else None
                       end in
      mkSnapshot (bs "healthy")
        (match quota with Some _ => bs "resource_quota" | None => if 0 <? cc_MaxJobs cfg then bs "configured_limit" else bs "kubernetes_api" end)
        (match quota with Some _ => [] | None => unsupported end) (match quota with Some _ => false | None => true end)
        (i64_add used <$> available) used available cpu mem dflt (running, starting, exited, 0) (k8s_stats <$> jobs)
  end.

(** ** The controller's picture of a Docker host *)

Section tracks.
Context {D : Type} `{!DockerDaemon D} (quantity : quantity_parser) (image : bytes).
Implicit Types (d : D).

(** Whatever runs is among the containers the controller counts as live. *)
Definition tracks d (live : gmap bytes bytes) : Prop := ∀ id c, up d id = Some c → live !! id = Some (job_label c).

(** Nothing but [id] changed, and the daemon refused to remove it. *)
Definition leaked d (id : bytes) (d' : D) : Prop :=
  (∃ d1, d' = (ContainerRemove d1 id).2 ∧ unless_gone (ContainerRemove d1 id).1 ≠ None) ∧ up d id = None ∧ ∀ x, x ≠ id → up d' x = up d x.

Lemma unless_gone_None e : unless_gone e = None → ∀ m, e ≠ Some (OtherErr m).
Proof. by intros H m ->. Qed.

Lemma pullImage_up d ref policy id : up (pullImage d ref policy).2 id = up d id.
Proof. unfold pullImage. repeat case_decide; [done| |apply pull_up]. destruct (HasImage d ref) as [[]|?|?]; [done|apply pull_up..]. Qed.
Lemma prepare_image_up d ref policy id : up (prepare_image d ref policy).2 id = up d id.
Proof.
  unfold prepare_image. pose proof (pullImage_up d ref policy id) as H. destruct (pullImage d ref policy) as [[e|] d1]; [|done].
  by destruct (HasImage d1 ref) as [[]|?|?].
Qed.
Lemma create_volumes_up vs id : ∀ d, up (create_volumes d vs).2 id = up d id.
Proof.
  induction vs as [|v vs IH]; intros d; [done|]. cbn [create_volumes]. pose proof (volume_up d v id) as H.
  destruct (VolumeCreate d v) as [[e|] d1]; [done|]. by rewrite IH.
Qed.

(** A removal after a failed start: the container is gone, or leaked. *)
Lemma removed_or_leaked d d1 id : up d id = None → (∀ x, x ≠ id → up d1 x = up d x) →
  let d' := (ContainerRemove d1 id).2 in (∀ x, up d' x = up d x) ∨ leaked d id d'.
Proof.
  intros Hnew Hsame d'. assert (∀ x, x ≠ id → up d' x = up d x) as Ho by (intros x Hx; unfold d'; by rewrite remove_others, Hsame).
  destruct (unless_gone (ContainerRemove d1 id).1) as [m|] eqn:Eg.
  - right. split; [|done]. exists d1. by rewrite Eg.
  - left. intros x. destruct (decide (x = id)) as [-> |Hx]; [|by apply Ho]. rewrite Hnew.
    apply (remove_ok d1 id (ContainerRemove d1 id).1); [apply surjective_pairing|by apply unless_gone_None].
Qed.

Lemma start_created_up d id doc c : up d id = None → created d id = Some c →
  let '(r, d') := start_created d id doc in
  match r with
  | Ok id' => id' = id ∧ up d' id = Some c ∧ ∀ x, x ≠ id → up d' x = up d x
  | _ => (∀ x, up d' x = up d x) ∨ leaked d id d'
  end.
Proof.
  intros Hnew Hc. unfold start_created.
  destruct (if decide (doc = []) then (None, d) else CopyToContainer d id doc) as [copyErr d1] eqn:Ecp.
  assert ((∀ x, up d1 x = up d x) ∧ created d1 id = Some c) as [Hu Hc1].
  { case_decide; [by injection Ecp as <- <-|]. pose proof (copy_up d id doc) as H1. pose proof (copy_created d id doc id) as H2.
    rewrite Ecp in H1, H2. cbn [snd] in H1, H2. split; [done|congruence]. }
  destruct copyErr as [e|]; [by apply removed_or_leaked|].
  pose proof (start_others d1 id) as Hso. pose proof (start_ok d1 id) as Hok. destruct (ContainerStart d1 id) as [[e|] d2]; cbn [snd] in Hso.
  - apply removed_or_leaked; [done|]. intros x Hx. by rewrite Hso.
  - split_and!; [done|by rewrite (Hok d2)|]. intros x Hx. by rewrite Hso.
Qed.

(** A launch: the new container runs with the job's volume, or nothing new runs
    unless the daemon leaks it. *)
Lemma docker_Launch_up d spec policy now :
  let '(r, d') := docker_Launch quantity image d spec policy now in
  match r with
  | Ok id => id ≠ [] ∧ up d id = None ∧ (∃ limits, up d' id = Some (docker_config image spec limits now)) ∧ ∀ x, x ≠ id → up d' x = up d x
  | _ => (∀ x, up d' x = up d x) ∨ ∃ id, leaked d id d'
  end.
Proof.
  unfold docker_Launch. pose proof (prepare_image_up d (orString (ls_Image spec) image) policy) as Hp.
  destruct (prepare_image d _ policy) as [[e|] d1]; [by left|].
  pose proof (λ x, create_volumes_up [volume_name (ls_JobID spec); sharedSavepointVolume] x d1) as Hv.
  destruct (create_volumes d1 _) as [[e|] d2]; cbn [snd] in *; [left; intros; congruence|].
  destruct (applyResources quantity (ls_Resources spec)) as [limits|e|e]; [|left; intros; congruence..].
  pose proof (create_up d2 (docker_config image spec limits now)) as Hcu. pose proof (create_ok d2 (docker_config image spec limits now)) as Hco.
  destruct (ContainerCreate d2 _) as [[id|e|e] d3]; cbn [snd] in Hcu; [|left; intros; congruence..].
  destruct (Hco id d3 eq_refl) as (Hne & Hnew & Hc). assert (∀ x, up d3 x = up d x) as Hu by (intros; congruence).
  pose proof (start_created_up d3 id (ls_Doc spec) _ ltac:(congruence) Hc) as Hs. destruct (start_created d3 id (ls_Doc spec)) as [[id'|e|e] d4].
  - destruct Hs as (-> & Hup & Ho). split_and!; [done|congruence|by exists limits|]. intros x Hx. by rewrite Ho, Hu.
  - destruct Hs as [Hs|[H1 [H2 H3]]]; [left; intros; congruence|]. right. exists id. split_and!; [done|congruence|]. intros x Hx. by rewrite H3, Hu.
  - destruct Hs as [Hs|[H1 [H2 H3]]]; [left; intros; congruence|]. right. exists id. split_and!; [done|congruence|]. intros x Hx. by rewrite H3, Hu.
Qed.

Lemma docker_config_job spec limits now : job_label (docker_config image spec limits now) = ls_JobID spec.
Proof. reflexivity. Qed.

Lemma tracks_same d d' live : (∀ x, up d' x = up d x) → tracks d live → tracks d' live.
Proof. intros Hs Ht id c. rewrite Hs. apply Ht. Qed.
Lemma tracks_delete d d' id live : up d' id = None → (∀ x, x ≠ id → up d' x = up d x) → tracks d live → tracks d' (delete id live).
Proof.
  intros Hn Hs Ht x c Hx. destruct (decide (x = id)) as [-> |Hne]; [congruence|]. rewrite lookup_delete_ne by done. apply Ht. by rewrite <- Hs.
Qed.
Lemma tracks_less d d' live : (∀ x c, up d' x = Some c → up d x = Some c) → tracks d live → tracks d' live.
Proof. intros Hs Ht x c Hx. by apply Ht, Hs. Qed.

(** An answer of [Launch] as the controller sees it. *)
Definition launch_answer (r : result bytes) : bytes + LaunchError :=
  match r with Ok id => inl id | Err e | Panic e => inr (mkLaunchError e None) end.

Lemma docker_Stop_tracks d id t live : tracks d live →
  match docker_Stop d id t with (None, d') => tracks d' (delete id live) | (Some _, d') => tracks d' live end.
Proof.
  intros Ht. unfold docker_Stop. set (secs := Z.quot t 1000000000). pose proof (stop_others d id secs) as Ho. pose proof (stop_ok d id secs) as Hk.
  pose proof (stop_err d id secs) as He. destruct (ContainerStop d id secs) as [e d']. cbn [snd] in *.
  destruct (unless_gone e) as [m|] eqn:Eg; [by eapply tracks_less|].
  eapply tracks_delete; [|done|done]. by apply (Hk e d'), unless_gone_None.
Qed.
Lemma docker_Remove_tracks d id live : tracks d live →
  match docker_Remove d id with (None, d') => tracks d' (delete id live) | (Some _, d') => tracks d' live end.
Proof.
  intros Ht. unfold docker_Remove. pose proof (remove_others d id) as Ho. pose proof (remove_ok d id) as Hk.
  pose proof (remove_err d id) as He. destruct (ContainerRemove d id) as [e d']. cbn [snd] in *.
  destruct (unless_gone e) as [m|] eqn:Eg; [by eapply tracks_less|].
  eapply tracks_delete; [|done|done]. by apply (Hk e d'), unless_gone_None.
Qed.

Lemma bind_port_phase l : ∀ st, bst_Phase (foldl bind_port st l) = bst_Phase st.
Proof.
  induction l as [|b l IH]; intros st; [done|]. cbn [foldl]. rewrite IH. unfold bind_port. case_decide; [done|]. by destruct (ParseInt b.2).
Qed.

(** A status that says down is right. *)
Lemma docker_Status_down d id st : docker_Status d id = Ok st → bst_Phase st = BExited ∨ bst_Phase st = BGone → up d id = None.
Proof.
  unfold docker_Status. destruct (ContainerInspect d id) as [info|[e|e]] eqn:Ei; [|intros _ _; by eapply inspect_gone|done].
  intros [= <-]. unfold statusFromInspect. rewrite bind_port_phase. destruct (up d id) as [c|] eqn:Eu; [|done].
  destruct (inspect_up d id info Ei) as (p & code & o & ->); [by eexists|]. destruct p; cbn; by intros [?|?].
Qed.

(** C30: A Docker daemon whose running containers the controller's picture
    covers keeps being covered: a launch adds exactly the container it
    reports, or leaves one behind only when its removal failed too; a stop
    or removal reported as done leaves the container down; a status of
    exited or gone means that it is down. *)
Theorem docker_backs_controller O w d : tracks d (cw_live w) → crashAt O (cw_tick w) = false →
  (∀ spec policy now, let '(r, d') := docker_Launch quantity image d spec policy now in launchAt O (cw_tick w) spec = launch_answer r →
     tracks d' (cw_live (Launch O spec w).2) ∨ ∃ id, leaked d id d')
  ∧ (∀ id timeout, let '(e, d') := docker_Stop d id timeout in stopAt O (cw_tick w) id = e → tracks d' (cw_live (BStop O id w).2))
  ∧ (∀ id, let '(e, d') := docker_Remove d id in removeAt O (cw_tick w) id = e → tracks d' (cw_live (BRemove O id w).2))
  ∧ (∀ id, statusAt O (cw_tick w) id = docker_Status d id → tracks d (cw_live (BGetStatus O id w).2)).
Proof.
  intros Ht Hc. split_and!.
  - intros spec policy now. pose proof (docker_Launch_up d spec policy now) as Hl.
    destruct (docker_Launch quantity image d spec policy now) as [r d']. intros Ha. unfold Launch, prim. rewrite Hc, Ha.
    destruct r as [id|e|e]; cbn [launch_answer fst snd cw_live set_live].
    + destruct Hl as (_ & Hnew & (limits & Hup) & Ho). left. intros x c Hx. destruct (decide (x = id)) as [-> |Hne].
      * rewrite Hup in Hx. injection Hx as <-. by rewrite lookup_insert_eq, docker_config_job.
      * rewrite lookup_insert_ne by done. apply Ht. by rewrite <- Ho.
    + destruct Hl as [Hl|Hl]; [left; by eapply tracks_same|by right].
    + destruct Hl as [Hl|Hl]; [left; by eapply tracks_same|by right].
  - intros id timeout. pose proof (docker_Stop_tracks d id timeout _ Ht) as Hs. destruct (docker_Stop d id timeout) as [e d']. intros Ha.
    unfold BStop, prim. rewrite Hc, Ha. by destruct e.
  - intros id. pose proof (docker_Remove_tracks d id _ Ht) as Hs. destruct (docker_Remove d id) as [e d']. intros Ha.
    unfold BRemove, prim. rewrite Hc, Ha. by destruct e.
  - intros id Ha. unfold BGetStatus, prim. rewrite Hc, Ha. destruct (docker_Status d id) as [st|e|e] eqn:Es; [|done|done].
    pose proof (docker_Status_down d id st Es) as Hd. cbn [fst snd cw_live].
    destruct (bst_Phase st); try done; (eapply tracks_delete; [by apply Hd; auto|done|done]).
Qed.

(** When the controller counts one live container per job, the host runs one. *)
Lemma docker_runs_one d live : tracks d live → (∀ c c' j, live !! c = Some j → live !! c' = Some j → c = c') →
  ∀ c c' x x', up d c = Some x → up d c' = Some x' → job_label x = job_label x' → c = c'.
Proof. intros Ht Hu c c' x x' Hx Hx' E. apply Ht in Hx, Hx'. rewrite E in Hx. by eapply Hu. Qed.
End tracks.

(** ** Slots *)

(** A number of further jobs of the default size that the host and the limit
    take. *)
Definition fits (s : CapacitySnapshot) (maxJobs n : Z) : Prop :=
  0 ≤ n
  ∧ (0 < (cap_Default s).1 → 0 < (cap_CPU s).1.1 → n * (cap_Default s).1 ≤ (cap_CPU s).2)
  ∧ (0 < (cap_Default s).2 → 0 < (cap_Memory s).1.1 → n * (cap_Default s).2 ≤ (cap_Memory s).2)
  ∧ (0 < maxJobs → n = 0 ∨ cap_Used s + n ≤ maxJobs).

Lemma min64_spec v l : (∀ x, x ∈ v :: l → min64 v l ≤ x) ∧ min64 v l ∈ v :: l.
Proof.
  unfold min64. revert v. induction l as [|y l IH]; intros v; cbn [foldl]; [split; [intros x [->|H]%elem_of_cons; [lia|by apply elem_of_nil in H]|by left]|].
  destruct (IH (if y <? v then y else v)) as [H1 H2]. split.
  - intros x [->|[->|Hx]%elem_of_cons]%elem_of_cons; [| |apply H1; by right];
      (etrans; [apply H1; by left|]); destruct (Z.ltb_spec y v); lia.
  - apply elem_of_cons in H2 as [-> |H2]; [|by do 2 right]. destruct (y <? v); [by right; left|by left].
Qed.

Lemma slots_by_spec dflt total available n : 0 ≤ available ≤ maxInt64 → 0 ≤ n ≤ maxInt64 →
  n ≤ slots_by dflt total available ↔ (0 < dflt → 0 < total → n * dflt ≤ available).
Proof.
  intros Ha Hn. unfold slots_by. destruct (Z.ltb_spec 0 dflt), (Z.ltb_spec 0 total); cbn [andb]; try (split; [lia|intros _; lia]).
  unfold i64_div. rewrite Z.quot_div_nonneg by lia.
  assert (0 ≤ available / dflt ≤ available) by (split; [apply Z.div_pos; lia|apply Z.div_le_upper_bound; nia]).
  rewrite wrap64_id by (unfold in_i64, two63, maxInt64 in *; lia). split.
  - intros Hle _ _. pose proof (Z.mul_div_le available dflt). nia.
  - intros Hle. apply Z.div_le_lower_bound; [lia|]. rewrite Z.mul_comm. by apply Hle.
Qed.

Lemma slots_by_range dflt total available : 0 ≤ available ≤ maxInt64 → 0 ≤ slots_by dflt total available ≤ maxInt64.
Proof.
  intros Ha. unfold slots_by. destruct (Z.ltb_spec 0 dflt), (Z.ltb_spec 0 total); cbn [andb]; try (unfold maxInt64; lia).
  unfold i64_div. rewrite Z.quot_div_nonneg by lia.
  assert (0 ≤ available / dflt ≤ available) by (split; [apply Z.div_pos; lia|apply Z.div_le_upper_bound; nia]).
  rewrite wrap64_id by (unfold in_i64, two63, maxInt64 in *; lia). lia.
Qed.
Lemma slots_by_limit_range maxJobs used : 0 ≤ used ≤ maxInt64 → maxJobs ≤ maxInt64 → 0 ≤ slots_by_limit maxJobs used ≤ maxInt64.
Proof.
  intros Hu Hm. unfold slots_by_limit. destruct (Z.ltb_spec 0 maxJobs); [|unfold maxInt64; lia]. unfold i64_sub.
  rewrite wrap64_id by (unfold in_i64, two63, maxInt64 in *; lia). destruct (Z.ltb_spec (maxJobs - used) 0); [unfold maxInt64; lia|lia].
Qed.
Lemma slots_by_limit_spec maxJobs used n : 0 ≤ used ≤ maxInt64 → maxJobs ≤ maxInt64 → 0 ≤ n ≤ maxInt64 →
  n ≤ slots_by_limit maxJobs used ↔ (0 < maxJobs → n = 0 ∨ used + n ≤ maxJobs).
Proof.
  intros Hu Hm Hn. unfold slots_by_limit. destruct (Z.ltb_spec 0 maxJobs); [|split; [lia|intros _; lia]]. unfold i64_sub.
  rewrite wrap64_id by (unfold in_i64, two63, maxInt64 in *; lia). destruct (Z.ltb_spec (maxJobs - used) 0); split; lia.
Qed.

Section slots.
Context {D : Type} `{!DockerDaemon D} (quantity : quantity_parser) (statsErr : bytes → option bytes).

Lemma count_used t c : ta_used (count_container t c) = ta_used t.
Proof. unfold count_container. by destruct (ta_counts t) as [[[? ?] ?] ?]. Qed.
Lemma tally_used dflt l : ∀ (d : D) t, ta_used t ≤ ta_used (foldl (tally_container statsErr d dflt) t l) ≤ ta_used t + Z.of_nat (length l).
Proof.
  induction l as [|c l IH]; intros d t; cbn [foldl]; [cbn; lia|].
  assert (ta_used t ≤ ta_used (tally_container statsErr d dflt t c) ≤ ta_used t + 1) as H.
  { unfold tally_container. rewrite <- (count_used t c). generalize (count_container t c). clear t. intros t.
    destruct (negb _); [lia|]. set (t' := if is_state c ["running"%string] then _ else _).
    assert (ta_used t' = ta_used t) as <- by (unfold t'; destruct (is_state _ _); [by destruct (statsErr _)|done]).
    generalize t'. clear t t'. intros t. destruct (bool_decide _); [lia|].
    destruct (ContainerInspect d (dl_ID c)) as [info|e]; [destruct (in_Limits info) as [[nano mem]|]|]; cbn; lia. }
  specialize (IH d (tally_container statsErr d dflt t c)). cbn [length]. lia.
Qed.

Lemma max64_range a b : 0 ≤ max64 (i64_sub a b) 0 ≤ maxInt64.
Proof.
  unfold max64. pose proof (wrap64_range (a - b)) as Hw. unfold i64_sub. destruct (Z.ltb_spec 0 (wrap64 (a - b)));
    unfold in_i64, two63, maxInt64 in *; lia.
Qed.

(** The slots the Docker backend reports as available fit into the free
    processors and memory and under the configured limit, at 64-bit width,
    and no larger number does. *)
Theorem capacity_slots_fit (d : D) (cfg : CapacityConfig) (list : list dlisted) (a : Z) :
  ContainerList d = Ok list → Z.of_nat (length list) ≤ maxInt64 → cc_MaxJobs cfg ≤ maxInt64 →
  let s := docker_Capacity quantity statsErr d cfg in
  cap_Available s = Some a →
  fits s (cc_MaxJobs cfg) a ∧ (∀ n, fits s (cc_MaxJobs cfg) n → n ≤ maxInt64 → n ≤ a) ∧ cap_Used s ≤ Z.of_nat (length list).
Proof.
  intros Hl Hlen Hmax s. unfold s, docker_Capacity. destruct (DaemonInfo d) as [[ncpu memTotal]|e|e]; [|done|done].
  destruct (default_quantity _ _ _ _ _ _ _) as [cpuD r1]. destruct (default_quantity _ _ _ _ _ _ _) as [memD r2]. rewrite Hl.
  set (t := foldl _ _ _). pose proof (tally_used (cpuD, memD) list d (mkTally (bool_decide (is_Some r1) || bool_decide (is_Some r2))
    (default (default [] r1) r2) (0, 0, 0, 0) 0 0 0 [])) as Hu. fold t in Hu. cbn [ta_used] in Hu.
  cbn [cap_Available]. intros [= <-]. unfold fits. cbn [cap_Default cap_CPU cap_Memory cap_Used fst snd].
  set (cpuA := max64 _ _). set (memA := max64 (i64_sub memTotal _) _).
  assert (0 ≤ cpuA ≤ maxInt64) as Hc by apply max64_range. assert (0 ≤ memA ≤ maxInt64) as Hm by apply max64_range.
  unfold docker_slots. cbn [fst snd]. set (cpuS := slots_by _ _ cpuA). set (memS := slots_by _ _ memA). set (limS := slots_by_limit _ _).
  assert (∀ n, 0 ≤ n ≤ maxInt64 → (n ≤ cpuS ↔ (0 < cpuD → 0 < i64_mul ncpu 1000 → n * cpuD ≤ cpuA))
    ∧ (n ≤ memS ↔ (0 < memD → 0 < memTotal → n * memD ≤ memA)) ∧ (n ≤ limS ↔ (0 < cc_MaxJobs cfg → n = 0 ∨ ta_used t + n ≤ cc_MaxJobs cfg))) as Hspec
    by (intros n Hn; split_and!; [by apply slots_by_spec|by apply slots_by_spec|apply slots_by_limit_spec; lia]).
  destruct (min64_spec cpuS [memS; limS]) as [Hmin Hin]. set (m := min64 cpuS [memS; limS]) in *.
  assert (0 ≤ m ≤ maxInt64) as Hrange.
  { assert (0 ≤ cpuS ≤ maxInt64 ∧ 0 ≤ memS ≤ maxInt64 ∧ 0 ≤ limS ≤ maxInt64) as (R1 & R2 & R3)
      by (split_and!; apply slots_by_range || apply slots_by_limit_range; lia).
    clearbody m. repeat (apply elem_of_cons in Hin as [-> |Hin]); try lia. by apply elem_of_nil in Hin. }
  destruct (Z.ltb_spec m 0); [lia|]. split_and!; try lia.
  - apply (Hspec m Hrange). apply Hmin. by left.
  - apply (Hspec m Hrange). apply Hmin. by right; left.
  - apply (Hspec m Hrange). apply Hmin. by right; right; left.
  - intros n (Hn0 & H1 & H2 & H3) Hn. destruct (Hspec n ltac:(lia)) as (E1 & E2 & E3).
    repeat (apply elem_of_cons in Hin as [-> |Hin]); [by apply E1|by apply E2|by apply E3|by apply elem_of_nil in Hin].
Qed.
End slots.

(** ** Stopping on Kubernetes *)

(** [Stop] reports success when the job was already gone, or when a poll saw
    neither the job nor a pod. *)
Lemma k8s_stop_waits run show timeout listed deletePod deleteJob polls : k8s_Stop run show timeout listed deletePod deleteJob polls = None →
  let deleted := deleteJob (stop_grace timeout) in
  deleted = Some KNotFound ∨ deleted = None ∧ ∃ before after, polls = before ++ (Some KNotFound, Ok O) :: after.
Proof.
  unfold k8s_Stop. destruct listed as [dels|e|e]; [|done|done]. destruct (delete_pods _ dels); [done|].
  destruct (deleteJob _) as [[]|]; [by left|done|done|]. intros H. right. split; [done|]. revert H.
  induction polls as [|[job pods] polls IH]; cbn [stop_loop]; [done|].
  destruct job as [[| |e]|], pods as [[|n]|e'|e']; try done; try (by intros _; exists [], polls);
    intros H; destruct (IH H) as (before & after & ->); by eexists (_ :: before), after.
Qed.

(** A job that is already deleted is reported as stopped while its pods run. *)
Example k8s_stop_skips_pods : k8s_Stop (bs "run") (λ _, bs "30s") 0 (Ok [bs "pod"]) (λ _ _, None) (λ _, Some KNotFound) [(Some KNotFound, Ok 1%nat)] = None.
Proof. reflexivity. Qed.

(** The undo of a launch. *)
Definition undone (run : bytes) (calls : list kcall) : Prop :=
  ∀ c, c ∈ cleanup_calls run → c ∈ calls.

Lemma create_or_undone answer c what run k calls e : create_or answer c what (cleanup_calls run) k = (calls, Err e) →
  undone run calls ∨ k.2 = Err e ∧ calls = c :: k.1.
Proof.
  unfold create_or. destruct (answer c) as [er|]; [|intros [= <- ->]; by right]. intros [= <- _]. left. intros x Hx. by right.
Qed.
Lemma undone_cons run c calls : undone run calls → undone run (c :: calls).
Proof. intros H x Hx. right. by apply H. Qed.

(** A launch whose job was requested and that fails deletes what it created. *)
Lemma k8s_launch_undone quantity k answer spec policy now calls e : k8s_Launch quantity k answer spec policy now = (calls, Err e) →
  (∃ j, CreateJob_ j ∈ calls) → undone (bs "weibo-" ++ ls_JobID spec ++ bs "-" ++ FormatInt (UnixNano now)) calls.
Proof.
  unfold k8s_Launch. set (run := bs "weibo-" ++ ls_JobID spec ++ bs "-" ++ FormatInt _).
  set (pvc := bs "weibo-" ++ ls_JobID spec ++ bs "-data").
  assert (∀ j, CreateJob_ j ∉ (ensurePVC quantity k answer pvc (ls_JobID spec)).1) as Hpvc.
  { intros j. unfold ensurePVC. destruct (answer (GetPVC pvc)) as [[]|]; [destruct (quantity _)| | |]; cbn [fst]; rewrite ?not_elem_of_cons; split_and!; try done; apply not_elem_of_nil. }
  destruct (ensurePVC quantity k answer pvc (ls_JobID spec)) as [pcalls [[]|perr|perr]]; cbn [fst] in Hpvc; [|intros [= <- _] [j Hj]; by destruct (Hpvc j)|done].
  set (start := match k8sResources quantity (ls_Resources spec) with Ok _ => _ | Err e => _ | Panic e => _ end).
  assert (start.2 = Err e → (∃ j, CreateJob_ j ∈ start.1) → undone run start.1) as Hstart.
  { unfold start. destruct (k8sResources quantity (ls_Resources spec)) as [res|e'|e']; cbn [fst snd]; [|intros _ [j Hj]; by apply elem_of_nil in Hj|done].
    set (inner := create_or _ (CreateService _) _ _ _). destruct (create_or _ (CreateJob_ _) _ _ inner) as [cs r] eqn:Ec.
    cbn [fst snd]. intros -> _. apply create_or_undone in Ec as [?|[Ei ->]]; [done|]. apply undone_cons. unfold inner in *.
    destruct (create_or _ (CreateService _) _ _ _) as [cs r] eqn:Es. cbn [fst snd] in *. subst r. by apply create_or_undone in Es as [?|[? _]]. }
  clearbody start.
  set (with_secret := if decide (ls_Env spec = ∅) then start else _).
  assert (with_secret.2 = Err e → (∃ j, CreateJob_ j ∈ with_secret.1) → undone run with_secret.1) as Hsec.
  { unfold with_secret. case_decide; [done|]. destruct (create_or _ _ _ _ start) as [cs r] eqn:Ec. cbn [fst snd]. intros -> [j Hj].
    apply create_or_undone in Ec as [?|[Ei ->]]; [done|]. apply undone_cons, Hstart; [done|].
    apply elem_of_cons in Hj as [?|?]; [done|by exists j]. }
  clearbody with_secret. intros [= <- Hr] [j Hj]. apply elem_of_app in Hj as [Hj|Hj]; [by destruct (Hpvc j)|].
  intros x Hx. apply elem_of_app. right. revert x Hx. case_decide; [by apply Hsec; [|exists j]|].
  unfold create_or in *. destruct (answer (CreateConfigMap _ (ls_Doc spec))) as [er|]; cbn [fst snd] in *.
  - apply elem_of_cons in Hj as [?|Hj%elem_of_nil]; done.
  - apply undone_cons, Hsec; [done|]. apply elem_of_cons in Hj as [?|?]; [done|by exists j].
Qed.

(** ** A concrete Docker host *)

Record demo_docker := mkDemoDocker { dm_made : gmap bytes dconfig; dm_up : gset bytes; dm_count : nat; dm_stuck : bool }.
Definition demo_cid (n : nat) : bytes := bs "c" ++ replicate n Byte.x61.
Definition demo_up (d : demo_docker) (id : bytes) : option dconfig := if decide (id ∈ dm_up d) then dm_made d !! id else None.
Definition demo_create (d : demo_docker) (c : dconfig) : result bytes * demo_docker :=
  let id := demo_cid (dm_count d) in
  if decide (id ∈ dm_up d) then (Err (bs "conflict"), d)
  else (Ok id, mkDemoDocker (<[id := c]> (dm_made d)) (dm_up d) (S (dm_count d)) (dm_stuck d)).
Definition demo_down (d : demo_docker) (id : bytes) : option derr * demo_docker :=
  if dm_stuck d then (Some (OtherErr (bs "stuck")), d)
  else (None, mkDemoDocker (dm_made d) (dm_up d ∖ {[id]}) (dm_count d) (dm_stuck d)).

Lemma demo_create_up d c id : demo_up (demo_create d c).2 id = demo_up d id.
Proof.
  unfold demo_create, demo_up. destruct (decide (demo_cid (dm_count d) ∈ dm_up d)) as [|Hn]; [done|]. cbn [snd dm_made dm_up].
  case_decide as Hin; [|done]. apply lookup_insert_ne. by intros <-.
Qed.
Lemma demo_create_ok d c id d' : demo_create d c = (Ok id, d') → id ≠ [] ∧ demo_up d id = None ∧ dm_made d' !! id = Some c.
Proof.
  unfold demo_create, demo_up. destruct (decide (demo_cid (dm_count d) ∈ dm_up d)) as [|Hn]; [done|]. intros [= <- <-]. cbn [dm_made].
  by rewrite decide_False, lookup_insert_eq.
Qed.
Lemma demo_down_others d i id : id ≠ i → demo_up (demo_down d i).2 id = demo_up d id.
Proof. intros Hne. unfold demo_down, demo_up. destruct (dm_stuck d); [done|]. cbn. repeat case_decide; set_solver. Qed.
Lemma demo_down_ok d i e d' : demo_down d i = (e, d') → (∀ m, e ≠ Some (OtherErr m)) → demo_up d' i = None.
Proof.
  unfold demo_down, demo_up. destruct (dm_stuck d); intros [= <- <-] Hm; [by destruct (Hm (bs "stuck"))|]. cbn. rewrite decide_False by set_solver. done.
Qed.
Lemma demo_down_err d i id c : demo_up (demo_down d i).2 id = Some c → demo_up d id = Some c.
Proof. unfold demo_down, demo_up. destruct (dm_stuck d); [done|]. cbn. repeat case_decide; set_solver. Qed.

#[local] Program Instance demo_daemon : DockerDaemon demo_docker := {|
  up := demo_up;
  ImageList _ _ := Ok true;
  ImagePull d _ := (None, d);
  VolumeCreate d _ := (None, d);
  VolumeRemove d _ := (None, d);
  ContainerCreate := demo_create;
  CopyToContainer d _ _ := (None, d);
  ContainerStart d id := (None, mkDemoDocker (dm_made d) (dm_up d ∪ {[id]}) (dm_count d) (dm_stuck d));
  ContainerStop d id _ := demo_down d id;
  ContainerRemove := demo_down;
  ContainerInspect d id := match demo_up d id with
                           | Some _ => inl (mkInspect (Some (true, false, 0, false)) [[(bs "0.0.0.0", bs "32768")]] (Some (500000000, 0)))
                           | None => inr (NotFound (bs "no such container"))
                           end;
  ContainerList d := Ok ((λ x, mkListed x.1 (dc_Labels x.2 !! bs "weibo.job") (if decide (x.1 ∈ dm_up d) then bs "running" else bs "exited") 7) <$> map_to_list (dm_made d));
  DaemonInfo _ := Ok (4, 8 * 2 ^ 30);
  created d id := dm_made d !! id
|}.
Solve All Obligations with done.
Next Obligation. apply demo_create_up. Qed.
Next Obligation. apply demo_create_ok. Qed.
Next Obligation. intros d i id Hne. unfold demo_up. cbn. repeat case_decide; set_solver. Qed.
Next Obligation. intros d i d' [= <-]. unfold demo_up. cbn. by rewrite decide_True by set_solver. Qed.
Next Obligation. intros d i t. cbn. apply demo_down_others. Qed.
Next Obligation. intros d i t. cbn. apply demo_down_ok. Qed.
Next Obligation. intros d i t. cbn. apply demo_down_err. Qed.
Next Obligation. apply demo_down_others. Qed.
Next Obligation. apply demo_down_ok. Qed.
Next Obligation. apply demo_down_err. Qed.
Next Obligation. intros d i e. cbn. by destruct (demo_up d i). Qed.
Next Obligation. intros d i info. cbn. destruct (demo_up d i); [|done]. intros [= <-] _. by eexists _, _, _. Qed.

Definition demo_quantity (s : bytes) : result (Z * Z) := if decide (s = bs "1Gi") then Ok (2 ^ 30 * 1000, 2 ^ 30) else if decide (s = bs "1") then Ok (1000, 1) else Err (bs "bad").
Definition demo_spec : LaunchSpec := mkLaunchSpec (bs "j1") (bs "orders") [] (bs "doc") ∅ 0 [] None.
Definition demo_host : demo_docker := mkDemoDocker ∅ ∅ 0 false.
Definition demo_launched : result bytes * demo_docker := docker_Launch demo_quantity (bs "runner") demo_host demo_spec PullIfNotPresent 5.
Definition demo_docker_oracle : oracle :=
  mkOracle (λ _, false) (λ _, None) (λ _, 0) (demo_cid) (λ _ _, launch_answer demo_launched.1) (λ _ id, (docker_Stop demo_host id 0).1)
    (λ _ id, (docker_Remove demo_host id).1) (λ _ id, docker_Status demo_host id) (λ _ _, Ok []) (λ _ _, None) (λ _ _, Err []).
Definition demo_cw : cworld := mkWorld emptyStore ∅ ∅ 0.

Example demo_launch : demo_launched.1 = Ok (bs "c") ∧ dc_Env <$> up demo_launched.2 (bs "c")
  = Some [bs "DATA_DIR=/data"; bs "SAVEPOINT_DIR=/savepoints"; bs "PORT=8080"; bs "WORKFLOW=/wf/workflow.yaml"]
  ∧ docker_Status demo_launched.2 (bs "c") = Ok (mkBStatus BRunning 0 false [] 32768 (bs "127.0.0.1:32768")).
Proof. vm_compute. done. Qed.

Lemma docker_backs_controller_witness :
  cw_live (Launch demo_docker_oracle demo_spec demo_cw).2 !! bs "c" = Some (bs "j1")
  ∧ (tracks demo_launched.2 (cw_live (Launch demo_docker_oracle demo_spec demo_cw).2) ∨ ∃ id, leaked demo_host id demo_launched.2)
  ∧ tracks demo_host (cw_live (BGetStatus demo_docker_oracle (bs "c") demo_cw).2).
Proof.
  assert (tracks demo_host (cw_live demo_cw)) as Ht.
  { intros id c Hc. cbn in Hc. unfold demo_up in Hc. rewrite decide_False in Hc by set_solver. done. }
  pose proof (docker_backs_controller demo_quantity (bs "runner") demo_docker_oracle demo_cw demo_host Ht eq_refl) as (Hl & _ & _ & Hs).
  split_and!; [vm_compute; reflexivity| |by apply Hs].
  specialize (Hl demo_spec PullIfNotPresent 5). unfold demo_launched. destruct (docker_Launch _ _ _ _ _ _) as [r d'] eqn:E. apply Hl.
  unfold demo_docker_oracle, demo_launched. cbn [launchAt]. by rewrite E.
Defined.

Definition demo_cap : CapacitySnapshot := docker_Capacity demo_quantity (λ _, None) demo_launched.2 (mkCapConfig 3 [] []).

Lemma capacity_slots_fit_witness :
  cap_Available demo_cap = Some 2 ∧ fits demo_cap 3 2 ∧ (∀ n, fits demo_cap 3 n → n ≤ maxInt64 → n ≤ 2) ∧ cap_Used demo_cap ≤ 1.
Proof.
  split; [vm_compute; reflexivity|].
  apply (capacity_slots_fit demo_quantity (λ _, None) demo_launched.2 (mkCapConfig 3 [] []) [mkListed (bs "c") (Some (bs "j1")) (bs "running") 7] 2);
    [vm_compute; reflexivity|done|done|vm_compute; reflexivity].
Defined.

(** A host that reports neither processors nor memory, without a configured limit:
    the sum of the slots wraps around. *)
Example total_slots_wrap : i64_add 1 (docker_slots (0, 0, 0) (0, 0, 0) (1000, 2 ^ 30) 0 1) = - 2 ^ 63.
Proof. vm_compute. reflexivity. Qed.

(** A listing that fails is reported as a snapshot without containers, not as an
    error. *)
Example listing_failure_hidden :
  let snap := k8s_Capacity demo_quantity (mkCapConfig 0 [] []) None (Err (bs "timeout")) (Ok []) in
  cap_Health snap = bs "degraded" ∧ cap_Containers snap = [].
Proof. vm_compute. done. Qed.
