(* ===== verification/S3Blobstore.v ===== *)
(** * The object-store blob store ([src/checkpoint/s3_blobstore.go])

    Savepoints in S3 or a compatible store.  The AWS client is the class
    [S3Client]: what each call answers, and the documented behaviour of a service
    that is up.  Everything the program decides is written out: the options, the
    object names, the upload with its digest, the paged listing.

    The blob store implements the interface of [Savepoint], except that [List]
    cleans its argument and so also finds siblings ([s3_lists_siblings]). *)

From S2P Require Import Prelude Rfc3339 Decimal Storage Savepoint HttpSink.
From Stdlib Require Import Strings.Byte.

(** ** Configuration *)

(** [s3BlobstoreConfig]; the injected client is an argument of the constructor. *)
Record s3BlobstoreConfig := mkS3Blob {
  sb_bucket : bytes;
  sb_prefix : bytes;
  sb_region : bytes;
  sb_endpoint : bytes;
  sb_pathStyle : bool;
  sb_credentials : bytes * bytes * bytes;
  sb_hasClient : bool;
  sb_sse : bytes;
  sb_kmsKeyID : bytes;
  sb_tmpDir : bytes;
  sb_maxAttempts : Z
}.
Definition S3BlobstoreOption := s3BlobstoreConfig → s3BlobstoreConfig.

Definition S3BlobBucket (bucket : bytes) : S3BlobstoreOption := λ c,
  mkS3Blob bucket (sb_prefix c) (sb_region c) (sb_endpoint c) (sb_pathStyle c) (sb_credentials c) (sb_hasClient c) (sb_sse c) (sb_kmsKeyID c) (sb_tmpDir c) (sb_maxAttempts c).
Definition S3BlobPrefix (prefix : bytes) : S3BlobstoreOption := λ c,
  mkS3Blob (sb_bucket c) (Trim prefix) (sb_region c) (sb_endpoint c) (sb_pathStyle c) (sb_credentials c) (sb_hasClient c) (sb_sse c) (sb_kmsKeyID c) (sb_tmpDir c) (sb_maxAttempts c).
Definition S3BlobRegion (region : bytes) : S3BlobstoreOption := λ c,
  mkS3Blob (sb_bucket c) (sb_prefix c) region (sb_endpoint c) (sb_pathStyle c) (sb_credentials c) (sb_hasClient c) (sb_sse c) (sb_kmsKeyID c) (sb_tmpDir c) (sb_maxAttempts c).
Definition S3BlobEndpoint (endpoint : bytes) : S3BlobstoreOption := λ c,
  mkS3Blob (sb_bucket c) (sb_prefix c) (sb_region c) endpoint (sb_pathStyle c) (sb_credentials c) (sb_hasClient c) (sb_sse c) (sb_kmsKeyID c) (sb_tmpDir c) (sb_maxAttempts c).
Definition S3BlobPathStyle : S3BlobstoreOption := λ c,
  mkS3Blob (sb_bucket c) (sb_prefix c) (sb_region c) (sb_endpoint c) true (sb_credentials c) (sb_hasClient c) (sb_sse c) (sb_kmsKeyID c) (sb_tmpDir c) (sb_maxAttempts c).
Definition S3BlobStaticCredentials (access secret session : bytes) : S3BlobstoreOption := λ c,
  mkS3Blob (sb_bucket c) (sb_prefix c) (sb_region c) (sb_endpoint c) (sb_pathStyle c) (access, secret, session) (sb_hasClient c) (sb_sse c) (sb_kmsKeyID c) (sb_tmpDir c) (sb_maxAttempts c).
Definition S3BlobClient : S3BlobstoreOption := λ c,
  mkS3Blob (sb_bucket c) (sb_prefix c) (sb_region c) (sb_endpoint c) (sb_pathStyle c) (sb_credentials c) true (sb_sse c) (sb_kmsKeyID c) (sb_tmpDir c) (sb_maxAttempts c).
Definition S3BlobSSE (sse kms : bytes) : S3BlobstoreOption := λ c,
  mkS3Blob (sb_bucket c) (sb_prefix c) (sb_region c) (sb_endpoint c) (sb_pathStyle c) (sb_credentials c) (sb_hasClient c) sse kms (sb_tmpDir c) (sb_maxAttempts c).
Definition S3BlobTempDir (dir : bytes) : S3BlobstoreOption := λ c,
  mkS3Blob (sb_bucket c) (sb_prefix c) (sb_region c) (sb_endpoint c) (sb_pathStyle c) (sb_credentials c) (sb_hasClient c) (sb_sse c) (sb_kmsKeyID c) dir (sb_maxAttempts c).
Definition S3BlobMaxAttempts (n : Z) : S3BlobstoreOption := λ c,
  mkS3Blob (sb_bucket c) (sb_prefix c) (sb_region c) (sb_endpoint c) (sb_pathStyle c) (sb_credentials c) (sb_hasClient c) (sb_sse c) (sb_kmsKeyID c) (sb_tmpDir c) n.

(** [loadS3BlobAWSConfig] and the options of the client. *)
Definition blob_load_options (c : s3BlobstoreConfig) : list aws_option :=
  (if decide (sb_region c = []) then [] else [WithRegion (sb_region c)])
  ++ (if 0 <? sb_maxAttempts c then [WithRetryMaxAttempts (sb_maxAttempts c)] else [])
  ++ (if decide (sb_credentials c = ([], [], [])) then [] else [WithStaticCredentials (sb_credentials c)]).
Definition blob_client_options (c : s3BlobstoreConfig) : list aws_option :=
  (if decide (sb_endpoint c = []) then [] else [BaseEndpoint (sb_endpoint c)]) ++ (if sb_pathStyle c then [UsePathStyle] else []).

(** [S3Blobstore]; [st] is the state of the service behind its client. *)
Record S3Blobstore (S : Type) := mkS3Blobstore { s3b_bucket : bytes; s3b_prefix : bytes; s3b_sse : bytes; s3b_kms : bytes; s3b_service : S }.
Arguments mkS3Blobstore {S} _ _ _ _ _.
Arguments s3b_bucket {S} _.
Arguments s3b_prefix {S} _.
Arguments s3b_sse {S} _.
Arguments s3b_kms {S} _.
Arguments s3b_service {S} _.

Definition s3blob_zero : s3BlobstoreConfig := mkS3Blob [] [] [] [] false ([], [], []) false [] [] [] 3.

(** [NewS3Blobstore]; [load] is the library's error for the load options, [dial]
    the client for all of them. *)
Definition NewS3Blobstore {S} (load : list aws_option → option bytes) (dial : list aws_option → S) (injected : S) (opts : list S3BlobstoreOption)
    : result (S3Blobstore S) :=
  let c := foldl (λ c opt, opt c) s3blob_zero opts in
  if decide (sb_bucket c = []) then Err (bs "checkpoint: S3 blobstore requires bucket")
  else
    let make client := mkS3Blobstore (sb_bucket c) (sb_prefix c) (sb_sse c) (sb_kmsKeyID c) client in
    if sb_hasClient c then Ok (make injected)
    else match load (blob_load_options c) with
         | Some e => Err (bs "checkpoint: S3 blobstore load config: " ++ e)
         | None => Ok (make (dial (blob_load_options c ++ blob_client_options c)))
         end.

(** ** The service *)

(** An upload: the body, its digest, and the encryption settings. *)
Record s3_object := mkObject { ob_body : archive; ob_sha256 : bytes; ob_sse : option bytes; ob_kms : option bytes }.

(** An error of the client; [S3NotFound] is what [isS3NotFound] recognizes: the
    type [types.NotFound], or an API error with one of two codes. *)
Inductive s3_error := TypesNotFound | APIError (code : bytes) | OtherError (e : bytes).
Definition s3_error_text (e : s3_error) : bytes := match e with TypesNotFound => bs "NotFound" | APIError code => code | OtherError e => e end.
Definition isS3NotFound (e : s3_error) : bool :=
  match e with
  | TypesNotFound => true
  | APIError code => bool_decide (code = bs "NotFound") || bool_decide (code = bs "NoSuchKey")
  | OtherError _ => false
  end.

(** A page of a listing: keys, [IsTruncated], [NextContinuationToken]. *)
Record s3_page := mkPage { pg_keys : list bytes; pg_truncated : option bool; pg_next : option bytes }.

Class S3Service (S : Type) := {
  PutObject : S → bytes → bytes → s3_object → option s3_error * S;
  GetObject : S → bytes → bytes → s3_object + s3_error;
  HeadObject : S → bytes → bytes → option s3_error;
  ListObjectsV2 : S → bytes → bytes → option bytes → s3_page + s3_error;
  DeleteObject : S → bytes → bytes → option s3_error * S
}.

(** The pages of a listing from a token on, until one is not truncated. *)
Inductive listing {S} `{!S3Service S} (s : S) (bucket prefix : bytes) : option bytes → list bytes → Prop :=
| listing_last tok page : ListObjectsV2 s bucket prefix tok = inl page → pg_truncated page ≠ Some true → listing s bucket prefix tok (pg_keys page)
| listing_more tok page rest : ListObjectsV2 s bucket prefix tok = inl page → pg_truncated page = Some true →
    listing s bucket prefix (pg_next page) rest → listing s bucket prefix tok (pg_keys page ++ rest).

(** A service that is up stores objects by key. *)
Class S3Laws (S : Type) `{!S3Service S} := {
  s3_up : S → Prop;
  s3_objects : S → bytes → bytes → option s3_object;
  s3_put : ∀ s b k o, s3_up s → k ≠ [] → ∃ s', PutObject s b k o = (None, s') ∧ s3_up s'
    ∧ ∀ b' k', s3_objects s' b' k' = if decide (b' = b ∧ k' = k) then Some o else s3_objects s b' k';
  s3_get : ∀ s b k, s3_up s → k ≠ [] →
    match s3_objects s b k with
    | Some o => GetObject s b k = inl o
    | None => ∃ e, GetObject s b k = inr e ∧ isS3NotFound e = true
    end;
  s3_head : ∀ s b k, s3_up s → k ≠ [] →
    match s3_objects s b k with
    | Some _ => HeadObject s b k = None
    | None => ∃ e, HeadObject s b k = Some e ∧ isS3NotFound e = true
    end;
  s3_delete : ∀ s b k, s3_up s → k ≠ [] → ∃ e s', DeleteObject s b k = (e, s') ∧ s3_up s' ∧ (∀ x, e = Some x → isS3NotFound x = true)
    ∧ ∀ b' k', s3_objects s' b' k' = if decide (b' = b ∧ k' = k) then None else s3_objects s b' k';
  s3_list : ∀ s b prefix, s3_up s → ∃ keys, listing s b prefix None keys ∧ NoDup keys
    ∧ ∀ k, k ∈ keys ↔ is_Some (s3_objects s b k) ∧ prefix `prefix_of` k
}.

(** ** Operations *)

(** [objectKey] and its inverse [externalKey] *)
Definition s3_key (prefix : bytes) (p : path) : bytes :=
  let clean := drop 1 (render p) in if decide (prefix = []) then clean else prefix ++ slash :: clean.
Definition blob_objectKey (prefix key : bytes) : result bytes := p <-? blob_path key ;; Ok (s3_key prefix p).
Definition trim_prefix (pre s : bytes) : bytes := if has_prefix pre s then drop (length pre) s else s.
Definition externalKey (prefix key : bytes) : bytes := if decide (prefix = []) then key else trim_prefix [slash] (trim_prefix prefix key).

Section ops.
Context {S : Type} `{!S3Service S}.
(** The hexadecimal SHA-256 digest. *)
Context (sha256 : archive → bytes).
Implicit Types (b : S3Blobstore S).

Definition with_service b (s : S) : S3Blobstore S := mkS3Blobstore (s3b_bucket b) (s3b_prefix b) (s3b_sse b) (s3b_kms b) s.
Definition nonempty (x : bytes) : option bytes := if decide (x = []) then None else Some x.

(** [Put]: the blob is read to its end before the upload starts. *)
Definition s3_Put b (key : bytes) (a : archive) : S3Blobstore S * result unit :=
  match blob_objectKey (s3b_prefix b) key with
  | Err e => (b, Err e)
  | Panic e => (b, Panic e)
  | Ok k =>
      match a_err a with
      | Some e => (b, Err e)
      | None =>
          let '(err, s) := PutObject (s3b_service b) (s3b_bucket b) k (mkObject a (sha256 a) (nonempty (s3b_sse b)) (nonempty (s3b_kms b))) in
          (with_service b s, match err with Some e => Err (s3_error_text e) | None => Ok tt end)
      end
  end.

(** [Get] *)
Definition s3_Get b (key : bytes) : result archive :=
  k <-? blob_objectKey (s3b_prefix b) key ;;
  match GetObject (s3b_service b) (s3b_bucket b) k with
  | inl o => Ok (ob_body o)
  | inr e => if isS3NotFound e then Err ErrBlobNotFound else Err (s3_error_text e)
  end.

(** [Exists] *)
Definition s3_Exists b (key : bytes) : result bool :=
  k <-? blob_objectKey (s3b_prefix b) key ;;
  match HeadObject (s3b_service b) (s3b_bucket b) k with
  | None => Ok true
  | Some e => if isS3NotFound e then Ok false else Err (s3_error_text e)
  end.

(** [Delete] *)
Definition s3_Delete b (key : bytes) : S3Blobstore S * result unit :=
  match blob_objectKey (s3b_prefix b) key with
  | Err e => (b, Err e)
  | Panic e => (b, Panic e)
  | Ok k =>
      let '(err, s) := DeleteObject (s3b_service b) (s3b_bucket b) k in
      (with_service b s, match err with Some e => if isS3NotFound e then Ok tt else Err (s3_error_text e) | None => Ok tt end)
  end.

(** [List]: pages are requested until one is not truncated; [None] when the fuel
    ran out. *)
Fixpoint list_pages (fuel : nat) b (prefix : bytes) (tok : option bytes) : option (result (list bytes)) :=
  match fuel with
  | O => None
  | Datatypes.S fuel =>
      match ListObjectsV2 (s3b_service b) (s3b_bucket b) prefix tok with
      | inr e => Some (Err (s3_error_text e))
      | inl page =>
          let keys := externalKey (s3b_prefix b) <$> pg_keys page in
          if decide (pg_truncated page = Some true) then
            (λ r, rest <-? r ;; Ok (keys ++ rest)) <$> list_pages fuel b prefix (pg_next page)
          else Some (Ok keys)
      end
  end.
Definition s3_List (fuel : nat) b (prefix : bytes) : option (result (list bytes)) :=
  match blob_objectKey (s3b_prefix b) prefix with
  | Ok k => list_pages fuel b k None
  | Err e => Some (Err e)
  | Panic e => Some (Panic e)
  end.
End ops.

(** ** Object names *)

Lemma split_clean p : Forall clean_comp p → p ≠ [] → strings_Split slash (drop 1 (render p)) = p.
Proof.
  intros Hp Hne. destruct p as [|c r]; [done|]. apply Forall_cons in Hp as [(_ & _ & _ & Hc) Hr].
  change (drop 1 (render (c :: r))) with (c ++ render r). apply Split_render; [done|].
  eapply Forall_impl; [done|]. by intros ? (_ & _ & _ & ?).
Qed.

(** Different blobs have different objects. *)
Lemma path_text_ne p : Forall clean_comp p → p ≠ [] → drop 1 (render p) ≠ [].
Proof.
  intros Hp Hp0. destruct p as [|c r]; [done|]. apply Forall_cons in Hp as [(Hc & _) _].
  change (drop 1 (render (c :: r))) with (c ++ render r). by destruct c.
Qed.
Lemma s3_key_inj prefix p q : Forall clean_comp p → Forall clean_comp q → p ≠ [] → s3_key prefix p = s3_key prefix q → p = q.
Proof.
  intros Hp Hq Hp0 E. assert (drop 1 (render p) = drop 1 (render q)) as E'.
  { unfold s3_key in E. case_decide; [done|]. apply app_inv_head in E. by injection E. }
  assert (q ≠ []) as Hq0 by (intros ->; by apply (path_text_ne p)).
  rewrite <- (split_clean p Hp Hp0), <- (split_clean q Hq Hq0). by f_equal.
Qed.
Lemma s3_key_ne prefix p : Forall clean_comp p → p ≠ [] → s3_key prefix p ≠ [].
Proof. intros Hp Hp0. unfold s3_key. case_decide; [by apply path_text_ne|by destruct prefix]. Qed.

Lemma has_prefix_app pre s : has_prefix pre (pre ++ s) = true.
Proof. apply has_prefix_spec. by exists s. Qed.

(** A listed key is the one that was stored. *)
Lemma externalKey_key prefix p : externalKey prefix (s3_key prefix p) = drop 1 (render p).
Proof.
  unfold externalKey, s3_key. case_decide; [done|]. unfold trim_prefix. rewrite has_prefix_app, drop_app_length.
  cbn [has_prefix]. done.
Qed.

(** ** The blob store of the interface *)

Section blobstore.
Context {S : Type} `{!S3Service S, !S3Laws S} (sha256 : archive → bytes) (fuel : nat).
Implicit Types (b : S3Blobstore S).

#[export] Instance s3_Blobstore : Blobstore (S3Blobstore S) :=
  {| Put := s3_Put sha256; Get := s3_Get; Exists := s3_Exists; List_ b p := default (Err (bs "still listing")) (s3_List fuel b p); Delete := s3_Delete |}.

Definition s3_view b (p : path) : option archive := ob_body <$> s3_objects (s3b_service b) (s3b_bucket b) (s3_key (s3b_prefix b) p).

Lemma objectKey_ok prefix key p : blob_path key = Ok p → blob_objectKey prefix key = Ok (s3_key prefix p).
Proof. intros H. unfold blob_objectKey. by rewrite H. Qed.

(** What an update of one object does to the view. *)
Lemma view_update b s' p o : Forall clean_comp p → p ≠ [] →
  (∀ bu k, s3_objects s' bu k = if decide (bu = s3b_bucket b ∧ k = s3_key (s3b_prefix b) p) then o else s3_objects (s3b_service b) bu k) →
  ∀ q, Forall clean_comp q → s3_view (with_service b s') q = if decide (q = p) then ob_body <$> o else s3_view b q.
Proof.
  intros Hp Hp0 Hs q Hq. unfold s3_view, with_service. cbn [s3b_service s3b_bucket s3b_prefix]. rewrite Hs. case_decide as E.
  - destruct E as [_ E]. symmetry in E. apply s3_key_inj in E as <-; [|done..]. by rewrite decide_True.
  - rewrite decide_False; [done|]. intros ->. by destruct E.
Qed.

#[export] Program Instance s3_Blobstore_laws : BlobstoreLaws (S3Blobstore S) := {| available b := s3_up (s3b_service b); view := s3_view |}.
Next Obligation.
  intros b key p a Hb Hk Hp0 Ha. pose proof (blob_path_clean key p Hk) as Hp. cbn [Put s3_Blobstore]. unfold s3_Put.
  rewrite (objectKey_ok _ key p Hk), Ha.
  destruct (s3_put (s3b_service b) (s3b_bucket b) (s3_key (s3b_prefix b) p) (mkObject a (sha256 a) (nonempty (s3b_sse b)) (nonempty (s3b_kms b))))
    as (s' & -> & Hup & Ho); [done|by apply s3_key_ne|]. eexists. split_and!; [done|done|]. exact (view_update b s' p (Some _) Hp Hp0 Ho).
Qed.
Next Obligation.
  intros b key p a e Hk Ha. cbn [Put s3_Blobstore]. unfold s3_Put. by rewrite (objectKey_ok _ key p Hk), Ha.
Qed.
Next Obligation.
  intros b key p Hb Hk Hp0. pose proof (blob_path_clean key p Hk) as Hp. cbn [Get s3_Blobstore]. unfold s3_Get. rewrite (objectKey_ok _ key p Hk).
  cbn [rbind]. pose proof (s3_get (s3b_service b) (s3b_bucket b) (s3_key (s3b_prefix b) p) Hb ltac:(by apply s3_key_ne)) as Hg. unfold s3_view.
  destruct (s3_objects _ _ _); cbn [fmap option_fmap option_map]; [by rewrite Hg|]. destruct Hg as (e & -> & ->). done.
Qed.
Next Obligation.
  intros b key p Hb Hk Hp0. pose proof (blob_path_clean key p Hk) as Hp. cbn [Exists s3_Blobstore]. unfold s3_Exists. rewrite (objectKey_ok _ key p Hk).
  cbn [rbind]. pose proof (s3_head (s3b_service b) (s3b_bucket b) (s3_key (s3b_prefix b) p) Hb ltac:(by apply s3_key_ne)) as Hg. unfold s3_view.
  destruct (s3_objects _ _ _); cbn [fmap option_fmap option_map]; [by rewrite Hg|]. destruct Hg as (e & -> & ->). done.
Qed.
Next Obligation.
  intros b key p Hb Hk Hp0. pose proof (blob_path_clean key p Hk) as Hp. cbn [Delete s3_Blobstore]. unfold s3_Delete. rewrite (objectKey_ok _ key p Hk).
  destruct (s3_delete (s3b_service b) (s3b_bucket b) (s3_key (s3b_prefix b) p)) as (e & s' & -> & Hup & He & Ho); [done|by apply s3_key_ne|].
  exists (with_service b s'). split_and!; [|done|exact (view_update b s' p None Hp Hp0 Ho)]. destruct e as [x|]; [|done]. by rewrite (He x).
Qed.

(** *** Listing *)

Lemma list_pages_listing b prefix tok keys : listing (s3b_service b) (s3b_bucket b) prefix tok keys →
  ∃ n, ∀ m, (n ≤ m)%nat → list_pages m b prefix tok = Some (Ok (externalKey (s3b_prefix b) <$> keys)).
Proof.
  induction 1 as [tok page Hp Ht|tok page rest Hp Ht _ [n IH]].
  - exists 1%nat. intros [|m] Hm; [lia|]. cbn [list_pages]. rewrite Hp. by rewrite decide_False.
  - exists (Datatypes.S n). intros [|m] Hm; [lia|]. cbn [list_pages]. rewrite Hp, decide_True, IH by (done || lia).
    cbn. by rewrite fmap_app.
Qed.

(** A listing ends, and names the objects whose name starts with the object name
    of the prefix. *)
Lemma s3_List_spec b prefix p : s3_up (s3b_service b) → blob_path prefix = Ok p →
  ∃ n keys, (∀ m, (n ≤ m)%nat → s3_List m b prefix = Some (Ok (externalKey (s3b_prefix b) <$> keys)))
  ∧ ∀ k, k ∈ keys ↔ is_Some (s3_objects (s3b_service b) (s3b_bucket b) k) ∧ s3_key (s3b_prefix b) p `prefix_of` k.
Proof.
  intros Hb Hk. destruct (s3_list (s3b_service b) (s3b_bucket b) (s3_key (s3b_prefix b) p) Hb) as (keys & Hl & _ & Hin).
  destruct (list_pages_listing b _ _ keys Hl) as [n Hn]. exists n, keys. split; [|done]. intros m Hm. unfold s3_List.
  rewrite (objectKey_ok _ prefix p Hk). by apply Hn.
Qed.
End blobstore.

(** ** Two stores of one interface *)

Inductive blob_op := OpPut (key : bytes) (a : archive) | OpGet (key : bytes) | OpExists (key : bytes) | OpDelete (key : bytes).
Inductive blob_answer := Done (r : result unit) | Blob (r : result archive) | Present (r : result bool).

Definition blob_do {B} `{!Blobstore B} (b : B) (o : blob_op) : B * blob_answer :=
  match o with
  | OpPut k a => let '(b, r) := Put b k a in (b, Done r)
  | OpGet k => (b, Blob (Get b k))
  | OpExists k => (b, Present (Exists b k))
  | OpDelete k => let '(b, r) := Delete b k in (b, Done r)
  end.
Fixpoint blob_run {B} `{!Blobstore B} (b : B) (ops : list blob_op) : list blob_answer :=
  match ops with [] => [] | o :: ops => let '(b, r) := blob_do b o in r :: blob_run b ops end.

Definition op_key (o : blob_op) : bytes := match o with OpPut k _ | OpGet k | OpExists k | OpDelete k => k end.
(** A key that names a blob. *)
Definition names_blob (key : bytes) : Prop := ∃ p, blob_path key = Ok p ∧ p ≠ [].

Section agree.
Context {B1 B2 : Type} `{!Blobstore B1, !BlobstoreLaws B1, !Blobstore B2, !BlobstoreLaws B2}.

Definition same_blobs (b1 : B1) (b2 : B2) : Prop := available b1 ∧ available b2 ∧ ∀ p, Forall clean_comp p → view b1 p = view b2 p.

Lemma blob_do_agrees b1 b2 o : same_blobs b1 b2 → names_blob (op_key o) →
  let '(b1', r1) := blob_do b1 o in let '(b2', r2) := blob_do b2 o in r1 = r2 ∧ same_blobs b1' b2'.
Proof.
  intros (H1 & H2 & Hv) (p & Hk & Hp). pose proof (blob_path_clean _ _ Hk) as Hc. destruct o as [k a|k|k|k]; cbn [blob_do op_key] in *.
  - destruct (a_err a) as [e|] eqn:Ea; [by rewrite !(put_broken _ k p a e)|].
    destruct (put_ok b1 k p a) as (b1' & -> & A1 & V1); [done..|]. destruct (put_ok b2 k p a) as (b2' & -> & A2 & V2); [done..|].
    split; [done|]. split_and!; [done|done|]. intros q Hq. rewrite V1, V2 by done. by case_decide; [|apply Hv].
  - by rewrite !(get_ok _ k p), Hv.
  - by rewrite !(exists_ok _ k p), Hv.
  - destruct (delete_ok b1 k p) as (b1' & -> & A1 & V1); [done..|]. destruct (delete_ok b2 k p) as (b2' & -> & A2 & V2); [done..|].
    split; [done|]. split_and!; [done|done|]. intros q Hq. rewrite V1, V2 by done. by case_decide; [|apply Hv].
Qed.

Lemma blob_run_agrees ops : ∀ b1 b2, same_blobs b1 b2 → Forall (names_blob ∘ op_key) ops → blob_run b1 ops = blob_run b2 ops.
Proof.
  induction ops as [|o ops IH]; intros b1 b2 Hs Ho; [done|]. apply Forall_cons in Ho as [Ho Hops]. cbn [blob_run].
  pose proof (blob_do_agrees b1 b2 o Hs Ho) as H. destruct (blob_do b1 o) as [b1' r1], (blob_do b2 o) as [b2' r2].
  destruct H as [-> Hs']. f_equal. by apply IH.
Qed.
End agree.


(** ** A concrete service *)

(** Objects by bucket and key, listed one key per page; the token counts the keys
    already listed. *)
Notation demo_s3 := (gmap (bytes * bytes) s3_object).
Definition demo_matching (s : demo_s3) (bucket prefix : bytes) : list bytes :=
  filter (λ k, has_prefix prefix k = true) (omap (λ x : (bytes * bytes) * s3_object, if decide (x.1.1 = bucket) then Some x.1.2 else None) (map_to_list s)).
Definition demo_page (keys : list bytes) (tok : option bytes) : s3_page :=
  let n := length (default [] tok) in
  mkPage (take 1 (drop n keys)) (Some (bool_decide (n + 1 < length keys)%nat)) (Some (replicate (n + 1) x61)).

#[local] Instance demo_s3_service : S3Service demo_s3 := {|
  PutObject s b k o := (None, <[(b, k) := o]> s);
  GetObject s b k := match s !! (b, k) with Some o => inl o | None => inr (APIError (bs "NoSuchKey")) end;
  HeadObject s b k := match s !! (b, k) with Some _ => None | None => Some TypesNotFound end;
  ListObjectsV2 s b prefix tok := inl (demo_page (demo_matching s b prefix) tok);
  DeleteObject s b k := (None, delete (b, k) s)
|}.

Lemma elem_of_demo_matching s b prefix k : k ∈ demo_matching s b prefix ↔ is_Some (s !! (b, k)) ∧ prefix `prefix_of` k.
Proof.
  unfold demo_matching. rewrite list_elem_of_filter, has_prefix_spec, list_elem_of_omap. split.
  - intros [Hp ([[b' k'] o] & Hin & E)]. cbn in E. case_decide; [|done]. injection E as <-. subst b'.
    apply elem_of_map_to_list in Hin. eauto.
  - intros [[o Ho] Hp]. split; [done|]. exists ((b, k), o). split; [by apply elem_of_map_to_list|]. cbn. by rewrite decide_True.
Qed.
Lemma demo_matching_nodup s b prefix : NoDup (demo_matching s b prefix).
Proof.
  unfold demo_matching. apply NoDup_filter. pose proof (NoDup_fst_map_to_list s) as Hn. induction (map_to_list s) as [|[[b' k'] o] l IH]; [constructor|].
  cbn [fmap list_fmap fst] in Hn. apply NoDup_cons in Hn as [Hx Hn]. cbn [omap list_omap fst snd]. case_decide as E; [|by apply IH].
  apply NoDup_cons. split; [|by apply IH]. intros ([[b2 k2] o2] & Hin & E2)%list_elem_of_omap. cbn in E2. case_decide; [|done].
  injection E2 as ->. apply Hx. subst. apply list_elem_of_fmap. by eexists (_, o2).
Qed.

Lemma demo_listing s b prefix : listing s b prefix None (demo_matching s b prefix).
Proof.
  assert (∀ m n tok, length (default [] tok) = n → (length (demo_matching s b prefix) ≤ n + m)%nat →
    listing s b prefix tok (drop n (demo_matching s b prefix))) as H.
  { induction m as [|m IH]; intros n tok Hn Hm.
    - pose proof (listing_last s b prefix tok (demo_page (demo_matching s b prefix) tok) eq_refl) as Hl. cbn [pg_keys demo_page pg_truncated] in Hl.
      rewrite Hn in Hl. rewrite drop_ge in Hl by lia. rewrite drop_ge by lia. apply Hl. rewrite bool_decide_false by lia. done.
    - destruct (decide (n + 1 < length (demo_matching s b prefix))%nat) as [Hlt|Hge].
      + rewrite <- (take_drop 1 (drop n _)), drop_drop. pose proof (listing_more s b prefix tok (demo_page (demo_matching s b prefix) tok)) as Hl.
        cbn [pg_keys demo_page pg_truncated pg_next] in Hl. rewrite Hn in Hl. apply Hl; [done|by rewrite bool_decide_true|].
        apply IH; [cbn [default from_option id]; by rewrite length_replicate|lia].
      + pose proof (listing_last s b prefix tok (demo_page (demo_matching s b prefix) tok) eq_refl) as Hl. cbn [pg_keys demo_page pg_truncated] in Hl.
        rewrite Hn, take_ge in Hl by (rewrite length_drop; lia). apply Hl. by rewrite bool_decide_false. }
  apply (H (length (demo_matching s b prefix)) 0%nat None); [done|lia].
Qed.

#[local] Program Instance demo_s3_laws : S3Laws demo_s3 := {| s3_up s := True; s3_objects s b k := s !! (b, k) |}.
Next Obligation.
  intros s b k o _ _. eexists. split_and!; [done|done|]. intros b' k'. case_decide as E; [destruct E as [-> ->]; by rewrite lookup_insert_eq|].
  apply lookup_insert_ne. intros [= -> ->]. by destruct E.
Qed.
Next Obligation. intros s b k _ _. cbn. destruct (s !! (b, k)); [done|]. by eexists. Qed.
Next Obligation. intros s b k _ _. cbn. destruct (s !! (b, k)); [done|]. by eexists. Qed.
Next Obligation.
  intros s b k _ _. eexists None, _. split_and!; [done|done|done|]. intros b' k'. case_decide as E; [destruct E as [-> ->]; by rewrite lookup_delete_eq|].
  apply lookup_delete_ne. intros [= -> ->]. by destruct E.
Qed.
Next Obligation.
  intros s b prefix _. exists (demo_matching s b prefix). split_and!; [apply demo_listing|apply demo_matching_nodup|apply elem_of_demo_matching].
Qed.

Definition demo_s3_store : S3Blobstore demo_s3 := mkS3Blobstore (bs "jobs") (bs "prod") [] [] ∅.
Definition demo_blob : archive := mkArchive [(bs "checkpoint.json", bs "{}")] None.
Definition demo_blob_ops : list blob_op :=
  [OpPut (bs "savepoints/a") demo_blob; OpGet (bs "savepoints//a"); OpExists (bs "savepoints/b"); OpDelete (bs "./savepoints/a"); OpGet (bs "savepoints/a")].


(** The prefix of a listing loses its final slash, so blobs beside the directory
    are listed too; the file store lists only what is below it. *)
Example s3_lists_siblings :
  let ops b := (Put (Put b (bs "savepoints/a") demo_blob).1 (bs "savepoints-old/z") demo_blob).1 in
  let s3 := s3_Blobstore (λ _, []) 5 in
  @ListSavepoints _ s3 (@Put _ s3 (@Put _ s3 demo_s3_store (bs "savepoints/a") demo_blob).1 (bs "savepoints-old/z") demo_blob).1 = Ok [bs "z"; bs "a"]
  ∧ ListSavepoints (ops (∅ : blobs)) = Ok [bs "a"].
Proof. vm_compute. done. Qed.

(** An empty prefix is an error here and lists everything there. *)
Example s3_list_all_refused :
  s3_List 5 demo_s3_store [] = Some (Err (bs "checkpoint: empty blob key")) ∧ file_List ∅ [] = Ok [].
Proof. vm_compute. done. Qed.
