(* ===== verification/JobAgent.v ===== *)
(** * The job agent and its process ([src/jobagent], [src/sdk/sdk.go])

    An agent supervises one job inside its process: it runs the engine, tracks the
    phase, and turns requests of the control plane into a graceful stop, with or
    without a savepoint.  [Serve] is the process around it: it seeds the storage
    from a savepoint, runs the agent, promotes the final checkpoint when a
    savepoint was asked for, and chooses the exit code.

    The agent's methods are its critical sections; [agent_step] interleaves them
    with the run of the engine, with signals and with requests.  A request for a
    savepoint takes the lock twice, so it is two steps.  [Execute] is the
    environment's choice of an error.  Counters, logs and spans are left out. *)

From S2P Require Import Prelude Rfc3339 Decimal Storage Stages Engine Savepoint.
From Stdlib Require Import Strings.Byte.

(** ** The agent *)

(** [Phase] *)
Inductive APhase := AStarting | ARunning | ACancelling | AFinished | AFailed.
#[export] Instance APhase_eq_dec : EqDecision APhase.
Proof. solve_decision. Defined.
Definition ATerminal (p : APhase) : bool := match p with AFinished | AFailed => true | _ => false end.

(** [Checkpoint] *)
Record ACheckpoint := mkACheckpoint { ac_ID : bytes; ac_CompletedAt : time; ac_DurationMs : Z; ac_SizeBytes : Z }.

(** [Agent] with the stored part of its [State]; [ag_cancel] tells whether the
    cancel function is set. *)
Record Agent := mkAgent {
  ag_phase : APhase;
  ag_startedAt : time;
  ag_checkpointID : bytes;
  ag_lastCheckpointAt : option time;
  ag_checkpoints : list ACheckpoint;
  ag_lastError : bytes;
  ag_cancel : bool;
  ag_savepointReq : bool;
  ag_savepointLabel : bytes
}.

(** [New] *)
Definition NewAgent : Agent := mkAgent AStarting zeroTime [] None [] [] false false [].

Definition set_phase (a : Agent) (p : APhase) : Agent :=
  mkAgent p (ag_startedAt a) (ag_checkpointID a) (ag_lastCheckpointAt a) (ag_checkpoints a) (ag_lastError a) (ag_cancel a) (ag_savepointReq a) (ag_savepointLabel a).
Definition fail_with (a : Agent) (e : bytes) : Agent :=
  mkAgent AFailed (ag_startedAt a) (ag_checkpointID a) (ag_lastCheckpointAt a) (ag_checkpoints a) e (ag_cancel a) (ag_savepointReq a) (ag_savepointLabel a).

(** The first critical section of [Run]. *)
Definition run_begin (a : Agent) (now : time) : Agent :=
  mkAgent ARunning now (ag_checkpointID a) (ag_lastCheckpointAt a) (ag_checkpoints a) (ag_lastError a) true (ag_savepointReq a) (ag_savepointLabel a).

(** The last one: a cancellation counts as clean only when a shutdown was
    requested. *)
Definition run_end (a : Agent) (err : option gerr) (shutdownRequested : bool) : Agent :=
  match err with
  | Some e => if e_canceled e && shutdownRequested then set_phase a AFinished else fail_with a (e_text e)
  | None => set_phase a AFinished
  end.

(** [Cancel]; the flag tells whether the run's context is cancelled. *)
Definition Cancel (a : Agent) : Agent * bool :=
  if negb (ag_cancel a) || ATerminal (ag_phase a) then (a, false) else (set_phase a ACancelling, true).

(** The critical section of [RequestSavepoint], and the method. *)
Definition request_mark (a : Agent) (label : bytes) : Agent * bool :=
  if negb (ag_cancel a) || ATerminal (ag_phase a) then (a, false)
  else (mkAgent (ag_phase a) (ag_startedAt a) (ag_checkpointID a) (ag_lastCheckpointAt a) (ag_checkpoints a) (ag_lastError a) (ag_cancel a) true label, true).
Definition RequestSavepoint (a : Agent) (label : bytes) : Agent * bool :=
  let '(a, ok) := request_mark a label in if ok then ((Cancel a).1, true) else (a, false).

(** [SavepointRequest] *)
Definition SavepointRequest (a : Agent) : option bytes := if ag_savepointReq a then Some (ag_savepointLabel a) else None.

(** [MarkSavepointFailed]; [Quote] is the verb [%q]. *)
Definition MarkSavepointFailed (Quote : bytes → bytes) (a : Agent) (label e : bytes) : Agent :=
  fail_with a (bs "savepoint " ++ Quote label ++ bs ": " ++ e).

(** [onCheckpointReport] *)
Definition maxCheckpoints : nat := 10.
Definition onCheckpointReport (a : Agent) (now : time) (rep : CheckpointReport) : Agent :=
  let cp := mkACheckpoint (rp_ID rep) now (Z.quot (rp_Duration rep) 1000000) (rp_InlineBytes rep) in
  mkAgent (ag_phase a) (ag_startedAt a) (rp_ID rep) (Some now) (take maxCheckpoints (cp :: ag_checkpoints a)) (ag_lastError a) (ag_cancel a)
    (ag_savepointReq a) (ag_savepointLabel a).

(** [time.Duration.String] of whole seconds. *)
Definition seconds_text (s : Z) : bytes :=
  let n := Z.abs s in
  (if s <? 0 then bs "-" else [])
  ++ (if n <? 3600 then [] else FormatInt (n / 3600) ++ bs "h")
  ++ (if n <? 60 then [] else FormatInt (n / 60 mod 60) ++ bs "m")
  ++ FormatInt (n mod 60) ++ bs "s".
(** [Round] to seconds, halves away from zero. *)
Definition round_seconds (d : duration) : Z := Z.sgn d * ((Z.abs d + 500000000) / 1000000000).

(** [State]: the computed fields of the snapshot. *)
Record AState := mkAState { as_agent : Agent; as_uptime : bytes; as_recordsIn : Z; as_recordsOut : Z; as_ready : bool }.
Definition State (a : Agent) (now : time) (recordsIn recordsOut : Z) : AState :=
  mkAState a (if IsZero (ag_startedAt a) then [] else seconds_text (round_seconds (now - ag_startedAt a)))
    recordsIn recordsOut (bool_decide (ag_phase a = ARunning)).

(** *** The HTTP surface *)

(** An answer: the status and the phase it reports, or an error text. *)
Inductive areply := APhaseReply (status : Z) (p : APhase) | AErrorReply (status : Z) (e : bytes) | AAlive.

Inductive arequest := GetLivez | GetReadyz | GetHealthz | GetState | PostCancel | PostSavepoint (label : bytes).

(** [Handler] *)
Definition Handler (a : Agent) (r : arequest) : Agent * areply :=
  match r with
  | GetLivez => (a, AAlive)
  | GetReadyz => (a, APhaseReply (if decide (ag_phase a = ARunning) then 200 else 503) (ag_phase a))
  | GetHealthz => (a, APhaseReply (if decide (ag_phase a = AFailed) then 503 else 200) (ag_phase a))
  | GetState => (a, APhaseReply 200 (ag_phase a))
  | PostCancel => let a := (Cancel a).1 in (a, APhaseReply 202 (ag_phase a))
  | PostSavepoint label =>
      if decide (label = []) then (a, AErrorReply 400 (bs "missing ?label"))
      else match RequestSavepoint a label with
           | (a, true) => (a, APhaseReply 202 (ag_phase a))
           | (a, false) => (a, AErrorReply 409 (bs "job is not running"))
           end
  end.

(** ** Concurrent use *)

Inductive run_state := NotStarted | Executing | Returned (err : option gerr) (shutdownRequested : bool) | RunDone (err : option gerr) (shutdownRequested : bool).

(** The agent, its [Run], whether the run's context is done, the accepted
    requests that have not yet called [Cancel], and the labels accepted so far. *)
Record system := mkSystem { sy_agent : Agent; sy_run : run_state; sy_done : bool; sy_pending : nat; sy_accepted : list bytes }.

Inductive agent_step : system → system → Prop :=
| step_begin a d n acc now : agent_step (mkSystem a NotStarted d n acc) (mkSystem (run_begin a now) Executing d n acc)
| step_signal a r d n acc : agent_step (mkSystem a r d n acc) (mkSystem a r true n acc)
| step_checkpoint a d n acc now rep : agent_step (mkSystem a Executing d n acc) (mkSystem (onCheckpointReport a now rep) Executing d n acc)
| step_cancel a r d n acc : agent_step (mkSystem a r d n acc) (mkSystem (Cancel a).1 r (d || (Cancel a).2) n acc)
| step_request a r d n acc label : label ≠ [] →
    agent_step (mkSystem a r d n acc)
      (if (request_mark a label).2 then mkSystem (request_mark a label).1 r d (S n) (acc ++ [label]) else mkSystem a r d n acc)
| step_request_cancel a r d n acc : agent_step (mkSystem a r d (S n) acc) (mkSystem (Cancel a).1 r (d || (Cancel a).2) n acc)
| step_return a d n acc err : agent_step (mkSystem a Executing d n acc) (mkSystem a (Returned err d) true n acc)
| step_finish a d n acc err sd : agent_step (mkSystem a (Returned err sd) d n acc) (mkSystem (run_end a err sd) (RunDone err sd) d n acc).

Definition new_system (signalled : bool) : system := mkSystem NewAgent NotStarted signalled 0 [].

(** ** The process *)

Section serve.
Context (Quote : bytes → bytes).
Context (marshal : CheckpointData → bytes) (unmarshal : bytes → result CheckpointData).
Context (walk : fsys → list (path * bytes)) (range : gmap bytes bytes → list (bytes * bytes)).
Context {B : Type} `{!Blobstore B}.

(** [promoteSavepoint]; [st] is the checkpoint storage, if checkpoints are on. *)
Definition promoteSavepoint (a : Agent) (st : option file_storage) (b : B) : Agent * B :=
  match SavepointRequest a with
  | None => (a, b)
  | Some label =>
      match st with
      | None => (MarkSavepointFailed Quote a label (bs "checkpointing is disabled"), b)
      | Some st =>
          match CreateSavepoint marshal walk range st b label with
          | (b, Ok _) => (a, b)
          | (b, Err e) | (b, Panic e) => (MarkSavepointFailed Quote a label e, b)
          end
      end
  end.

(** The end of [Serve]: the agent's phase decides the exit code. *)
Definition exit_code (a : Agent) : Z := if decide (ag_phase a = AFailed) then 1 else 0.

(** The start of [Serve]: the blob store and the storage to run with. *)
Definition serve_start (blobs : result B) (st : option file_storage) (restore : bytes) : option (B * option file_storage) :=
  match blobs with
  | Err _ | Panic _ => None
  | Ok b =>
      if decide (restore = []) then Some (b, st)
      else match st with
           | None => None
           | Some st => match RestoreSavepoint unmarshal st b restore with (st, Ok _) => Some (b, Some st) | _ => None end
           end
  end.

(** [Serve]; [job] is the run of the agent on the storage: the agent afterwards
    and the storage it leaves. *)
Definition Serve (blobs : result B) (st : option file_storage) (restore : bytes) (job : option file_storage → Agent * option file_storage)
    : option B * Z :=
  match serve_start blobs st restore with
  | None => (None, 1)
  | Some (b, st) =>
      let '(a, st) := job st in
      let '(a, b) := promoteSavepoint a st b in
      (Some b, exit_code a)
  end.
End serve.

(** ** The phases *)

Definition rank (p : APhase) : Z := match p with AStarting => 0 | ARunning => 1 | ACancelling => 2 | AFinished => 3 | AFailed => 4 end.

(** A run that ended cleanly. *)
Definition clean_end (err : option gerr) (shutdownRequested : bool) : Prop :=
  match err with None => True | Some e => e_canceled e = true ∧ shutdownRequested = true end.
#[export] Instance clean_end_dec err sd : Decision (clean_end err sd).
Proof. destruct err; apply _. Defined.

(** What holds of the agent in every state of its run. *)
Definition phase_fits (r : run_state) (a : Agent) : Prop :=
  match r with
  | NotStarted => a = NewAgent
  | Executing | Returned _ _ => ag_cancel a = true ∧ (ag_phase a = ARunning ∨ ag_phase a = ACancelling)
  | RunDone err sd => ag_cancel a = true ∧ ATerminal (ag_phase a) = true ∧ (ag_phase a = AFinished ↔ clean_end err sd)
  end.
Record supervised (s : system) : Prop := {
  su_phase : phase_fits (sy_run s) (sy_agent s);
  su_request : SavepointRequest (sy_agent s) = last (sy_accepted s);
  su_cancelling : ag_phase (sy_agent s) = ACancelling → sy_done s = true;
  su_bounded : (length (ag_checkpoints (sy_agent s)) ≤ maxCheckpoints)%nat
}.

Lemma new_supervised sig : supervised (new_system sig).
Proof. split; [done|done|done|cbn; unfold maxCheckpoints; lia]. Qed.

Lemma run_end_phase a err sd : (ag_phase (run_end a err sd) = AFinished ↔ clean_end err sd) ∧ ATerminal (ag_phase (run_end a err sd)) = true
  ∧ SavepointRequest (run_end a err sd) = SavepointRequest a ∧ ag_cancel (run_end a err sd) = ag_cancel a
  ∧ ag_checkpoints (run_end a err sd) = ag_checkpoints a ∧ ag_phase (run_end a err sd) ≠ ACancelling.
Proof.
  unfold run_end, clean_end. destruct err as [e|]; [|done]. destruct (e_canceled e), sd; cbn; split_and!; naive_solver.
Qed.

Lemma Cancel_spec a : (Cancel a).1 = (if ag_cancel a && negb (ATerminal (ag_phase a)) then set_phase a ACancelling else a)
  ∧ (Cancel a).2 = (ag_cancel a && negb (ATerminal (ag_phase a))).
Proof. unfold Cancel. by destruct (ag_cancel a), (ATerminal (ag_phase a)). Qed.

Lemma Cancel_fits r a : phase_fits r a → phase_fits r (Cancel a).1.
Proof.
  destruct (Cancel_spec a) as [-> _]. destruct r as [| |err sd|err sd]; cbn [phase_fits].
  - by intros ->.
  - intros [H1 [H2|H2]]; rewrite H1, H2; cbn; by eauto.
  - intros [H1 [H2|H2]]; rewrite H1, H2; cbn; by eauto.
  - intros (H1 & H2 & H3). by rewrite H2, andb_false_r.
Qed.

Lemma Cancel_supervised a r d n acc m : supervised (mkSystem a r d n acc) → supervised (mkSystem (Cancel a).1 r (d || (Cancel a).2) m acc).
Proof.
  intros [Hp Hr Hc Hb]. cbn in *. pose proof (Cancel_fits r a Hp) as Hf. destruct (Cancel_spec a) as [E1 ->]. rewrite E1 in *.
  split; cbn [sy_run sy_agent sy_done sy_accepted]; [done|..]; destruct (ag_cancel a && negb _); cbn [set_phase ag_phase ag_checkpoints SavepointRequest];
    rewrite ?orb_true_r, ?orb_false_r; done.
Qed.

Lemma step_supervised s s' : agent_step s s' → supervised s → supervised s'.
Proof.
  destruct 1 as [a d n acc now|a r d n acc|a d n acc now rep|a r d n acc|a r d n acc label Hl|a r d n acc|a d n acc err|a d n acc err sd];
    intros Hs; try (eapply Cancel_supervised; exact Hs); destruct Hs as [Hp Hr Hc Hb]; cbn [sy_run sy_agent sy_done sy_accepted] in *.
  - cbn [phase_fits] in Hp. subst a. split; cbn; [by eauto|done|done|unfold maxCheckpoints; lia].
  - by split.
  - split; cbn [sy_run sy_agent sy_done sy_accepted]; [exact Hp|exact Hr|exact Hc|]. unfold onCheckpointReport. cbn [ag_checkpoints]. rewrite length_take. lia.
  - unfold request_mark. destruct (negb (ag_cancel a) || ATerminal (ag_phase a)) eqn:E; [by split|]. cbn [fst snd].
    apply orb_false_iff in E as [Eb Et]. split; cbn [sy_run sy_agent sy_done sy_accepted]; [|cbn; by rewrite last_snoc|exact Hc|exact Hb].
    destruct r as [| |err sd|err sd]; cbn [phase_fits] in *; [by subst a|exact Hp|exact Hp|]. destruct Hp as (_ & Ht & _). congruence.
  - by split.
  - destruct (run_end_phase a err sd) as (H1 & H2 & H3 & H4 & H5 & H6). split; cbn [sy_run sy_agent sy_done sy_accepted phase_fits].
    + destruct Hp as [Hca _]. rewrite H4. done.
    + by rewrite H3.
    + done.
    + by rewrite H5.
Qed.

Lemma reachable_supervised sig s : rtc agent_step (new_system sig) s → supervised s.
Proof.
  intros H. remember (new_system sig) as s0 eqn:E0. assert (supervised s0) as H0 by (subst; apply new_supervised). clear E0.
  induction H; [done|]. eauto using step_supervised.
Qed.

Lemma step_forward s s' : agent_step s s' → supervised s →
  rank (ag_phase (sy_agent s)) ≤ rank (ag_phase (sy_agent s'))
  ∧ (ATerminal (ag_phase (sy_agent s)) = true → ag_phase (sy_agent s') = ag_phase (sy_agent s)).
Proof.
  assert (∀ a, rank (ag_phase a) ≤ rank (ag_phase (Cancel a).1) ∧ (ATerminal (ag_phase a) = true → ag_phase (Cancel a).1 = ag_phase a)) as HC.
  { intros a. destruct (Cancel_spec a) as [-> _]. destruct (ag_cancel a), (ag_phase a) eqn:E; cbn; rewrite ?E; cbn; split; done || lia. }
  destruct 1 as [a d n acc now|a r d n acc|a d n acc now rep|a r d n acc|a r d n acc label Hl|a r d n acc|a d n acc err|a d n acc err sd];
    intros Hs; try apply HC; destruct Hs as [Hp _ _ _]; cbn [sy_run sy_agent phase_fits] in *; try (split; [lia|done]).
  - subst a. cbn. split; [lia|done].
  - cbn. split; [lia|done].
  - unfold request_mark. destruct (negb _ || _); cbn; split; done || lia.
  - destruct Hp as [_ Hp]. destruct (run_end_phase a err sd) as (_ & Ht & _). destruct (ag_phase (run_end a err sd)); try done;
      destruct Hp as [-> | ->]; cbn; split; done || lia.
Qed.


(** ** Stop with a savepoint *)

Section stop.
Context (Quote : bytes → bytes).
Context (marshal : CheckpointData → bytes) (unmarshal : bytes → result CheckpointData) (json : ∀ x, unmarshal (marshal x) = Ok x).
Context (walk : fsys → list (path * bytes)) (Hwalk : ∀ m, walk m ≡ₚ map_to_list m).
Context (range : gmap bytes bytes → list (bytes * bytes)) (Hrange : ∀ m, range m ≡ₚ map_to_list m).
Context {B : Type} `{!Blobstore B, !BlobstoreLaws B}.
Implicit Types (b : B).

(** The savepoint that was asked for last was created. *)
Definition promoted (s : system) (st : option file_storage) b b' : Prop :=
  match last (sy_accepted s) with
  | None => b' = b
  | Some label => ∃ st' id, st = Some st' ∧ CreateSavepoint marshal walk range st' b label = (b', Ok id)
  end.

Lemma promote_spec s st b err requested : supervised s → sy_run s = RunDone err requested →
  let '(a, b') := promoteSavepoint Quote marshal walk range (sy_agent s) st b in
  exit_code a = 0 ↔ clean_end err requested ∧ promoted s st b b'.
Proof.
  intros [Hp Hr _ _] E. rewrite E in Hp. destruct Hp as (_ & Ht & Hf). unfold promoteSavepoint, promoted. rewrite Hr.
  assert (exit_code (sy_agent s) = 0 ↔ clean_end err requested) as Hcode.
  { unfold exit_code. rewrite <- Hf. destruct (ag_phase (sy_agent s)); try done; case_decide; done. }
  assert (∀ label e, exit_code (MarkSavepointFailed Quote (sy_agent s) label e) = 1) as Hfail by done.
  destruct (last (sy_accepted s)) as [label|]; [|by rewrite Hcode; split; [intros ?|intros []]].
  destruct st as [st|]; [|rewrite Hfail; split; [done|by intros [_ (? & ? & ? & _)]]].
  destruct (CreateSavepoint marshal walk range st b label) as [b' [id|e|e]] eqn:Ec.
  - rewrite Hcode. split; [intros ?; split; [done|by exists st, id]|by intros []].
  - rewrite Hfail. split; [done|]. intros [_ (st' & id & [= <-] & E')]. by rewrite Ec in E'.
  - rewrite Hfail. split; [done|]. intros [_ (st' & id & [= <-] & E')]. by rewrite Ec in E'.
Qed.

End stop.

(** ** Concrete runs *)

Definition demo_report : CheckpointReport := mkReport (bs "cp-7") 1500000 12.

Definition demo_stopped : system :=
  mkSystem (run_end (onCheckpointReport (Cancel (request_mark (run_begin NewAgent 5) (bs "nightly")).1).1 9 demo_report) (Some hard_err) true)
    (RunDone (Some hard_err) true) true 0 [bs "nightly"].

(** A job is started, asked for a savepoint, takes its last checkpoint and ends
    with the cancellation of its context. *)
Lemma demo_stops : rtc agent_step (new_system false) demo_stopped.
Proof.
  unfold demo_stopped. eapply rtc_l; [apply (step_begin _ _ _ _ 5)|]. eapply rtc_l; [by apply (step_request _ _ _ _ _ (bs "nightly"))|].
  eapply rtc_l; [apply step_request_cancel|]. eapply rtc_l; [apply (step_checkpoint _ _ _ _ 9 demo_report)|].
  eapply rtc_l; [apply (step_return _ _ _ _ (Some hard_err))|]. eapply rtc_l; [apply step_finish|]. apply rtc_refl.
Qed.



(** A cancellation that arrives before the run has started is acknowledged and has
    no effect. *)
Example cancel_before_run_lost :
  let '(a, reply) := Handler NewAgent PostCancel in reply = APhaseReply 202 AStarting ∧ ag_phase (run_begin a 5) = ARunning.
Proof. done. Qed.

(** Of two accepted savepoints only the last is created. *)
Example second_label_wins :
  let '(a, r1) := Handler (run_begin NewAgent 5) (PostSavepoint (bs "a")) in
  let '(a, r2) := Handler a (PostSavepoint (bs "b")) in
  r1 = APhaseReply 202 ACancelling ∧ r2 = APhaseReply 202 ACancelling ∧ SavepointRequest (run_end a None true) = Some (bs "b").
Proof. done. Qed.

(** An error of the job that looks like a cancellation is a failure unless a
    shutdown was requested. *)
Example unrequested_cancellation_fails : ag_phase (run_end (run_begin NewAgent 5) (Some hard_err) false) = AFailed.
Proof. done. Qed.
