(* ===== verification/Sdk.v ===== *)
(** * Job processes ([src/sdk/sdk.go], [src/cmd/weibo-runner/main.go])

    What a job's process makes of its environment: the harness of Go jobs and the
    runner of workflow documents, both up to the call of [Serve] ([JobAgent]).
    The last section puts them behind the container backends of [Backend]: what a
    launch puts into the environment is what the process reads.

    Directories, the parser of durations and the loader of documents are
    parameters. *)

From S2P Require Import Prelude Decimal Workflow WorkflowCompile Controller Backend HttpSink S3Blobstore.
From Stdlib Require Import Strings.Byte.

Definition defaultDataDir : bytes := bs "/data".
Definition defaultPort : bytes := bs "8080".
Definition defaultSavepointDir : bytes := bs "/savepoints".

(** [orDefault] *)
Definition orDefault (v def : bytes) : bytes := if decide (v = []) then def else v.

(** [truthy] *)
Definition truthy (v : bytes) : bool := bool_decide (to_lower (trim_space v) ∈ [bs "1"; bs "true"; bs "yes"; bs "y"; bs "on"]).

(** [SavepointS3Options], [SavepointS3FromEnv] *)
Record SavepointS3Options := mkSavepointS3 {
  so_Bucket : bytes; so_Prefix : bytes; so_Region : bytes; so_Endpoint : bytes; so_PathStyle : bool; so_SSE : bytes; so_KMSKeyID : bytes;
  so_AccessKey : bytes; so_SecretKey : bytes; so_SessionToken : bytes
}.
Definition SavepointS3FromEnv (getenv : bytes → bytes) : SavepointS3Options := {|
  so_Bucket := getenv (bs "SAVEPOINT_S3_BUCKET");
  so_Prefix := getenv (bs "SAVEPOINT_S3_PREFIX");
  so_Region := getenv (bs "AWS_REGION");
  so_Endpoint := getenv (bs "SAVEPOINT_S3_ENDPOINT");
  so_PathStyle := truthy (getenv (bs "SAVEPOINT_S3_PATH_STYLE"));
  so_SSE := getenv (bs "SAVEPOINT_S3_SSE");
  so_KMSKeyID := getenv (bs "SAVEPOINT_S3_KMS_KEY_ID");
  so_AccessKey := getenv (bs "AWS_ACCESS_KEY_ID");
  so_SecretKey := getenv (bs "AWS_SECRET_ACCESS_KEY");
  so_SessionToken := getenv (bs "AWS_SESSION_TOKEN")
|}.

(** [ServeOptions], without the writers, the logger and the tracer. *)
Record ServeOptions := mkServeOptions {
  sv_Name : bytes; sv_Port : bytes; sv_CheckpointDir : bytes; sv_SavepointDir : bytes; sv_SavepointS3 : SavepointS3Options; sv_RestoreSavepoint : bytes
}.

(** The address [Serve] listens on. *)
Definition serve_port (o : ServeOptions) : bytes := orDefault (sv_Port o) defaultPort.

(** [savepointBlobstore]: a directory, or the options of an object store. *)
Definition savepointBlobstore (o : ServeOptions) : bytes + list S3BlobstoreOption :=
  let s := sv_SavepointS3 o in
  if decide (so_Bucket s = []) then inl (orDefault (sv_SavepointDir o) defaultSavepointDir)
  else inr ([S3BlobBucket (so_Bucket s); S3BlobPrefix (so_Prefix s); S3BlobRegion (so_Region s); S3BlobEndpoint (so_Endpoint s);
             S3BlobStaticCredentials (so_AccessKey s) (so_SecretKey s) (so_SessionToken s)]
            ++ (if so_PathStyle s then [S3BlobPathStyle] else [])
            ++ (if decide (so_SSE s = []) then [] else [S3BlobSSE (so_SSE s) (so_KMSKeyID s)])).

Section process.
Context (mkdirAll : bytes → option bytes) (openStorage : bytes → Z → option bytes) (Join : list bytes → bytes).
Context (ParseDuration : bytes → result duration).

(** [runBuild] up to [Serve]: an exit code, or the environment handed to the
    pipeline's builder and the options. *)
Definition sdk_checkpoints (getenv : bytes → bytes) (dataDir : bytes) : Z + StreamEnv * bytes :=
  let iv := getenv (bs "CHECKPOINT_INTERVAL") in
  if decide (iv = []) then inr (NewEnv, [])
  else match ParseDuration iv with
       | Ok d =>
           if d <=? 0 then inl 2
           else
             let checkpointDir := Join [dataDir; bs "checkpoints"] in
             let stateDir := Join [dataDir; bs "state"] in
             match mkdirAll checkpointDir with
             | Some _ => inl 1
             | None =>
                 match mkdirAll stateDir with
                 | Some _ => inl 1
                 | None =>
                     let value := getenv (bs "CHECKPOINT_RETENTION") in
                     let retain := if decide (value = []) then Some DefaultRetainedCheckpoints
                                   else n ← ParseInt value; if n <? 1 then None else Some n in
                     match retain with
                     | None => inl 2
                     | Some retain =>
                         match openStorage checkpointDir retain with
                         | Some _ => inl 1
                         | None => inr (WithStateBackend (WithCheckpointing NewEnv d checkpointDir retain) (Some stateDir), checkpointDir)
                         end
                     end
                 end
             end
       | Err _ | Panic _ => inl 2
       end.
Definition runBuild (getenv : bytes → bytes) : Z + StreamEnv * ServeOptions :=
  let dataDir := orDefault (getenv (bs "DATA_DIR")) defaultDataDir in
  match mkdirAll dataDir with
  | Some _ => inl 1
  | None =>
      match sdk_checkpoints getenv dataDir with
      | inl code => inl code
      | inr (env, dir) =>
          inr (env, mkServeOptions (orDefault (getenv (bs "JOB_NAME")) (bs "sdk-job")) (getenv (bs "PORT")) dir (getenv (bs "SAVEPOINT_DIR"))
                      (SavepointS3FromEnv getenv) (getenv (bs "RESTORE_SAVEPOINT")))
      end
  end.

(** The runner: [compile] is [runner.CompileFile] for a path and a data
    directory. *)
Definition runner_run (compile : bytes → bytes → result CompiledWorkflow) (getenv : bytes → bytes) : Z + StreamEnv * ServeOptions :=
  let workflowPath := getenv (bs "WORKFLOW") in
  if decide (workflowPath = []) then inl 2
  else
    let dataDir := orDefault (getenv (bs "DATA_DIR")) defaultDataDir in
    match mkdirAll dataDir with
    | Some _ => inl 1
    | None =>
        match compile workflowPath dataDir with
        | Ok cw => inr (cw_Env cw, mkServeOptions (cw_Name cw) (getenv (bs "PORT")) (cw_CheckpointDir cw) (getenv (bs "SAVEPOINT_DIR"))
                                     (SavepointS3FromEnv getenv) (getenv (bs "RESTORE_SAVEPOINT")))
        | Err _ | Panic _ => inl 1
        end
    end.
End process.

(** ** The environment of a container *)

Definition equals : byte := x3d.
Definition env_entry (kv : bytes * bytes) : bytes := kv.1 ++ equals :: kv.2.

(** [os.Getenv]: of several entries for a name the first counts. *)
Fixpoint getenv (env : list bytes) (name : bytes) : bytes :=
  match env with
  | [] => []
  | e :: env => if has_prefix (name ++ [equals]) e then drop (length name + 1) e else getenv env name
  end.

Lemma entry_prefix name k v : equals ∉ name → equals ∉ k → has_prefix (name ++ [equals]) (env_entry (k, v)) = bool_decide (name = k).
Proof.
  intros Hn Hk. apply eq_true_iff_eq. rewrite has_prefix_spec, bool_decide_eq_true. unfold env_entry. cbn [fst snd]. split.
  - revert k Hk. induction name as [|c name IH]; intros [|d k] Hk [z E]; cbn in E; [done|..].
    + destruct Hk. injection E as <- _. apply elem_of_cons. by left.
    + destruct Hn. injection E as <- _. apply elem_of_cons. by left.
    + injection E as <- E. apply not_elem_of_cons in Hn as [_ Hn], Hk as [_ Hk]. f_equal. apply IH; [done|done|]. by exists z.
  - intros ->. exists v. by rewrite <- app_assoc.
Qed.

(** The value of a name is the first of its entries. *)
Lemma getenv_entries name l : equals ∉ name → Forall (λ kv : bytes * bytes, equals ∉ kv.1) l →
  getenv (env_entry <$> l) name = default [] ((list_to_map l : gmap bytes bytes) !! name).
Proof.
  intros Hn. induction 1 as [|[k v] l Hk _ IH]; [done|]. cbn [fmap list_fmap getenv list_to_map foldr uncurry fst snd]. rewrite entry_prefix by done.
  destruct (decide (name = k)) as [->|Hne].
  - rewrite bool_decide_true by done. rewrite lookup_insert_eq. unfold env_entry. cbn [fst snd default from_option id].
    replace (length k + 1)%nat with (length (k ++ [equals])) by (rewrite length_app; done).
    change (k ++ equals :: v) with (k ++ ([equals] ++ v)). rewrite app_assoc. by rewrite drop_app_length.
  - rewrite bool_decide_false by done. by rewrite IH, lookup_insert_ne.
Qed.

(** What a launch sets, ahead of the job's own variables. *)
Definition launch_vars (dataDir savepointDir workflow : bytes) (spec : LaunchSpec) : list (bytes * bytes) :=
  [(bs "DATA_DIR", dataDir); (bs "SAVEPOINT_DIR", savepointDir); (bs "PORT", FormatInt (control_port spec))]
  ++ (if decide (ls_Doc spec = []) then [] else [(bs "WORKFLOW", workflow)])
  ++ (if decide (ls_Restore spec = []) then [] else [(bs "RESTORE_SAVEPOINT", ls_Restore spec)]).
Definition reserved : list bytes := [bs "DATA_DIR"; bs "SAVEPOINT_DIR"; bs "PORT"; bs "WORKFLOW"; bs "RESTORE_SAVEPOINT"].
Definition pod_env (j : kjob) (secret : gmap bytes bytes) : list bytes := env_entry <$> (kj_env j ++ map_to_list secret).

Lemma docker_env_vars spec : docker_env spec
  = env_entry <$> (launch_vars containerDataDir containerSavepointDir containerWorkflowPath spec ++ map_to_list (ls_Env spec)).
Proof. unfold docker_env, launch_vars. rewrite !fmap_app. do 2 case_decide; done. Qed.

Lemma k8s_env_vars k run pvc image policy res spec : run ≠ [] →
  kj_env (buildJob k run (ls_JobID spec) pvc (if decide (ls_Doc spec = []) then [] else run) (if decide (ls_Env spec = ∅) then [] else run)
            image (control_port spec) (ls_Restore spec) policy res)
  = launch_vars k8sDataDir k8sSavepointDir k8sWorkflowPath spec.
Proof. intros Hr. unfold buildJob, launch_vars. cbn [kj_env]. destruct (decide (ls_Doc spec = [])); [done|]. by rewrite decide_False. Qed.

Section configured.
Context (dataDir savepointDir workflow : bytes) (spec : LaunchSpec).
Context (Hown : ∀ k, is_Some (ls_Env spec !! k) → equals ∉ k ∧ k ∉ reserved).
Notation vars := (launch_vars dataDir savepointDir workflow spec).
Notation env := (env_entry <$> (vars ++ map_to_list (ls_Env spec))).

Lemma vars_reserved : Forall (λ kv, kv.1 ∈ reserved) vars.
Proof.
  unfold launch_vars, reserved. repeat (apply Forall_app_2 || apply Forall_cons_2 || apply Forall_nil_2 || case_decide); compute_done.
Qed.
Lemma reserved_plain : Forall (λ k, equals ∉ k) reserved.
Proof. compute_done. Qed.

(** A variable among those of the launch. *)
Ltac find_var := unfold launch_vars; repeat (rewrite decide_False by done); cbn [app list_to_map foldr uncurry fst snd];
  repeat (rewrite lookup_insert_ne by compute_done); apply lookup_insert_eq.

(** A variable set by the launch has its value, any other the job's own. *)
Lemma env_lookup name : equals ∉ name → getenv env name = default (default [] (ls_Env spec !! name)) ((list_to_map vars : gmap bytes bytes) !! name).
Proof.
  intros Hn. rewrite getenv_entries; [|done|].
  - rewrite list_to_map_app, list_to_map_to_list, lookup_union. by destruct ((list_to_map vars : gmap bytes bytes) !! name), (ls_Env spec !! name).
  - apply Forall_app_2.
    + eapply Forall_impl; [exact vars_reserved|]. intros [k v] Hk. pose proof reserved_plain as Hp. rewrite Forall_forall in Hp. by apply Hp.
    + apply Forall_forall. intros [k v] Hk%elem_of_map_to_list. cbn. apply Hown. eauto.
Qed.
Lemma env_own name : equals ∉ name → name ∉ reserved → getenv env name = default [] (ls_Env spec !! name).
Proof.
  intros Hn Hr. rewrite env_lookup by done. rewrite not_elem_of_list_to_map_1; [done|]. intros ([k v] & -> & Hin)%list_elem_of_fmap.
  pose proof vars_reserved as Hv. rewrite Forall_forall in Hv. by destruct Hr; apply (Hv (k, v)).
Qed.

Lemma runner_configured mkdirAll compile : ls_Doc spec ≠ [] → workflow ≠ [] → dataDir ≠ [] →
  runner_run mkdirAll compile (getenv env)
  = match mkdirAll dataDir, compile workflow dataDir with
    | None, Ok cw =>
        inr (cw_Env cw, mkServeOptions (cw_Name cw) (FormatInt (control_port spec)) (cw_CheckpointDir cw) savepointDir
                          (SavepointS3FromEnv (λ k, default [] (ls_Env spec !! k))) (ls_Restore spec))
    | _, _ => inl 1
    end.
Proof.
  intros Hd Hw Hdd. assert (∀ name v, equals ∉ name → (list_to_map vars : gmap bytes bytes) !! name = Some v → getenv env name = v) as Hset.
  { intros name v Hn E. by rewrite env_lookup, E by done. }
  unfold runner_run. rewrite (Hset (bs "WORKFLOW") workflow); [|compute_done|find_var].
  rewrite decide_False by done. rewrite (Hset (bs "DATA_DIR") dataDir); [|compute_done|find_var].
  replace (orDefault dataDir defaultDataDir) with dataDir by (unfold orDefault; by rewrite decide_False).
  destruct (mkdirAll dataDir); [done|]. destruct (compile workflow dataDir) as [cw|e|e]; [|done|done]. do 2 f_equal.
  rewrite (Hset (bs "PORT") (FormatInt (control_port spec))); [|compute_done|find_var].
  rewrite (Hset (bs "SAVEPOINT_DIR") savepointDir); [|compute_done|find_var]. f_equal.
  - unfold SavepointS3FromEnv. by rewrite !env_own by compute_done.
  - destruct (decide (ls_Restore spec = [])) as [Hr|Hr]; [|apply Hset; [compute_done|find_var]].
    rewrite env_lookup, not_elem_of_list_to_map_1 by (unfold launch_vars; rewrite ?(decide_True _ _ Hr), ?(decide_False _ _ Hd); compute_done).
    destruct (ls_Env spec !! bs "RESTORE_SAVEPOINT") as [v|] eqn:E; [|by rewrite Hr].
    destruct (Hown (bs "RESTORE_SAVEPOINT")) as [_ []]; [eauto|compute_done].
Qed.
End configured.


(** ** A concrete launch *)

Definition demo_job_spec : LaunchSpec :=
  mkLaunchSpec (bs "j1") (bs "orders") [] (bs "doc") {[bs "KAFKA_PASSWORD" := bs "s3cret"]} 9000 (bs "nightly") None.
Definition demo_compiled : CompiledWorkflow := mkCompiled NewEnv (bs "orders") (mkGraph (bs "kafka") [] (bs "kafka")) AtMostOnce (bs "/data/orders/checkpoints").


(** The harness of a Go job: checkpoints are off unless asked for; a bad interval
    or retention ends the process. *)
Example sdk_defaults :
  runBuild (λ _, None) (λ _ _, None) (strings_Join (bs "/")) (λ _, Ok 5) (getenv [bs "JOB_NAME=agg"])
  = inr (NewEnv, mkServeOptions (bs "agg") [] [] [] (mkSavepointS3 [] [] [] [] false [] [] [] [] []) [])
  ∧ runBuild (λ _, None) (λ _ _, None) (strings_Join (bs "/")) (λ _, Ok 5) (getenv [bs "CHECKPOINT_INTERVAL=5ns"; bs "CHECKPOINT_RETENTION=0"]) = inl 2.
Proof. vm_compute. done. Qed.
