(* ===== verification/TypedStream.v ===== *)
(** * Typed streams ([src/typed_stream.go])

    The typed layer of the Go interface: operators decode the payload of a record,
    from [Parsed] when it has the right dynamic type and from the JSON of [Value]
    otherwise, call the user's function and write both back.

    Go types are codes [ty] with their values; a dynamic value carries its code.
    The JSON codec is a parameter.  An operator's loop is a function from the
    records it receives to the records it sends and the error it ends with; the
    sink adapter, which runs the typed sink in a goroutine behind a channel of 256
    records, is a step relation. *)

From S2P Require Import Prelude Record Stateless.
From Stdlib Require Import Eqdep_dec.

Section typed.
Context {ty : Type} `{!EqDecision ty} {val : ty → Type}.
Context (marshal : ∀ t, val t → result bytes) (unmarshal : ∀ t, bytes → result (val t)).

(** ** Payloads *)

(** The field [Parsed]: nil, a value, or a pointer that may be nil. *)
Inductive parsed := PNil | PVal (t : ty) (v : val t) | PPtr (t : ty) (v : option (val t)).
Record trecord := mkTRecord { t_rec : Record_; t_parsed : parsed }.

(** A type assertion. *)
Definition cast (s t : ty) (v : val s) : option (val t) :=
  match decide (s = t) with left E => Some (eq_rect s val v t E) | right _ => None end.

(** The JSON of the value. *)
Definition typed_json (t : ty) (r : trecord) : result (val t) :=
  if decide (Value (t_rec r) = []) then Err (bs "typed stream: record has no parsed value or JSON payload")
  else match unmarshal t (Value (t_rec r)) with
       | Ok v => Ok v
       | Err e => Err (bs "typed stream: decode JSON: " ++ e)
       | Panic e => Panic e
       end.

(** [typedValue] *)
Definition typedValue (t : ty) (r : trecord) : result (val t) :=
  match t_parsed r with
  | PVal s v => match cast s t v with Some v => Ok v | None => typed_json t r end
  | PPtr s (Some v) => match cast s t v with Some v => Ok v | None => typed_json t r end
  | PPtr s None => if decide (s = t) then Err (bs "typed stream: parsed value is nil *T") else typed_json t r
  | PNil => typed_json t r
  end.

(** [recordWithTypedValue] *)
Definition set_value (r : Record_) (b : bytes) : Record_ :=
  mkRecord (Key r) b (Timestamp r) (Offset r) (Partition r) (Source r) (Headers r) (IsWatermark r) (IsBarrier r) (CheckpointID r).
Definition recordWithTypedValue (t : ty) (r : trecord) (v : val t) : result trecord :=
  match marshal t v with
  | Ok b => Ok (mkTRecord (set_value (t_rec r) b) (PVal t v))
  | Err e => Err (bs "typed stream: encode JSON: " ++ e)
  | Panic e => Panic e
  end.

(** ** Operators *)

(** The operators from values of one type to values of another; a function that
    fails returns an error. *)
Inductive typed_op : ty → ty → Type :=
| TMap t u (fn : val t → val u) (label : bytes) : typed_op t u
| TFilter t (fn : val t → bool) (label : bytes) : typed_op t t
| TFlatMap t u (fn : val t → list (val u)) (label : bytes) : typed_op t u
| TProcess t (fn : val t → result (val t)) (label : bytes) : typed_op t t.

(** [Name] and the label. *)
Definition op_name {t u} (o : typed_op t u) : bytes :=
  match o with TMap _ _ _ _ => bs "Process" | TFilter _ _ _ => bs "TypedFilter" | TFlatMap _ _ _ _ => bs "TypedFlatMap" | TProcess _ _ _ => bs "TypedProcess" end.
Definition op_label {t u} (o : typed_op t u) : bytes :=
  match o with TMap _ _ _ l | TFilter _ _ l | TFlatMap _ _ _ l | TProcess _ _ l => l end.

(** How a loop ends: at the end of its input, with an error, with a panic. *)
Definition failed {t u} (o : typed_op t u) (r : trecord) (e : bytes) : outcome unit :=
  Failed (mkOperatorError (op_name o) (op_label o) (Key (t_rec r)) e).

(** The outputs of one record, sent one by one until one cannot be encoded. *)
Fixpoint send_items {t u} (o : typed_op t u) (s : ty) (r : trecord) (items : list (val s)) : list trecord * outcome unit :=
  match items with
  | [] => ([], Done tt)
  | v :: items =>
      match recordWithTypedValue s r v with
      | Ok x => let '(out, res) := send_items o s r items in (x :: out, res)
      | Err e => ([], failed o r e)
      | Panic e => ([], Panicked e)
      end
  end.

(** What an operator makes of one data record. *)
Definition typed_one {t u} (o : typed_op t u) (r : trecord) : list trecord * outcome unit :=
  match typedValue t r with
  | Err e => ([], failed o r e)
  | Panic e => ([], Panicked e)
  | Ok v =>
      match o in typed_op t u return val t → list trecord * outcome unit with
      | TMap t u fn l => λ v, send_items (TMap t u fn l) u r [fn v]
      | TFilter t fn l => λ v, if fn v then send_items (TFilter t fn l) t r [v] else ([], Done tt)
      | TFlatMap t u fn l => λ v, send_items (TFlatMap t u fn l) u r (fn v)
      | TProcess t fn l => λ v,
          match fn v with
          | Ok w => send_items (TProcess t fn l) t r [w]
          | Err e => ([], failed (TProcess t fn l) r e)
          | Panic e => ([], Panicked e)
          end
      end v
  end.

(** [ProcessE] *)
Fixpoint typed_loop {t u} (o : typed_op t u) (rs : list trecord) : list trecord * outcome unit :=
  match rs with
  | [] => ([], Done tt)
  | r :: rs =>
      if isMarker (t_rec r) then let '(out, res) := typed_loop o rs in (r :: out, res)
      else match typed_one o r with
           | (out, Done _) => let '(out', res) := typed_loop o rs in (out ++ out', res)
           | (out, res) => (out, res)
           end
  end.

(** The operators by name: [typedFilterOperator], [typedFlatMapOperator],
    [typedFlatMapOperator2], [typedProcessOperator] and [typedMapOperator]. *)
Definition filter_ProcessE (t : ty) (fn : val t → bool) (label : bytes) := typed_loop (TFilter t fn label).
Definition flatMap_ProcessE (t : ty) (fn : val t → list (val t)) (label : bytes) := typed_loop (TFlatMap t t fn label).
Definition flatMap2_ProcessE (t u : ty) (fn : val t → list (val u)) (label : bytes) := typed_loop (TFlatMap t u fn label).
Definition process_ProcessE (t : ty) (fn : val t → result (val t)) (label : bytes) := typed_loop (TProcess t fn label).
Definition typedMapOperator (t u : ty) (fn : val t → val u) (label : bytes) := typed_loop (TMap t u fn label).

(** The key selector of [KeyBy]: a record that does not decode has no key. *)
Definition typed_key (t : ty) (fn : val t → bytes) (r : trecord) : bytes :=
  match typedValue t r with Ok v => fn v | _ => [] end.

(** The outputs of a keyed function ([ProcessKeyed]): all of them or the first
    error; those of a timer carry the key and the time of the timer. *)
Fixpoint typed_outputs (t : ty) (r : trecord) (items : list (val t)) : result (list trecord) :=
  match items with
  | [] => Ok []
  | v :: items => x <-? recordWithTypedValue t r v ;; rest <-? typed_outputs t r items ;; Ok (x :: rest)
  end.
Definition keyed_fn (t : ty) (fn : val t → result (list (val t))) (r : trecord) : result (list trecord) :=
  v <-? typedValue t r ;; items <-? fn v ;; typed_outputs t r items.
Definition keyed_timer (t : ty) (onTimer : time → result (list (val t))) (key : bytes) (ts : time) : result (list trecord) :=
  items <-? onTimer ts ;;
  typed_outputs t (mkTRecord (mkRecord key [] ts 0 0 [] ∅ false false []) PNil) items.

(** ** Typed sources and sinks *)

(** [TypedRecord] *)
Record TypedRecord (t : ty) := mkTyped {
  ty_Key : bytes; ty_Value : val t; ty_Timestamp : time; ty_Offset : Z; ty_Partition : Z; ty_Source : bytes; ty_Headers : gmap bytes bytes
}.
Arguments mkTyped {t} _ _ _ _ _ _ _.
Arguments ty_Key {t} _.
Arguments ty_Value {t} _.
Arguments ty_Timestamp {t} _.
Arguments ty_Offset {t} _.
Arguments ty_Partition {t} _.
Arguments ty_Source {t} _.
Arguments ty_Headers {t} _.

(** [typedRecordFromRecord], [recordFromTypedRecord] *)
Definition typedRecordFromRecord (t : ty) (r : trecord) : result (TypedRecord t) :=
  v <-? typedValue t r ;;
  Ok (mkTyped (Key (t_rec r)) v (Timestamp (t_rec r)) (Offset (t_rec r)) (Partition (t_rec r)) (Source (t_rec r)) (Headers (t_rec r))).
Definition recordFromTypedRecord {t} (now : time) (tr : TypedRecord t) : result trecord :=
  recordWithTypedValue t
    (mkTRecord (mkRecord (ty_Key tr) [] (if IsZero (ty_Timestamp tr) then now else ty_Timestamp tr) (ty_Offset tr) (ty_Partition tr) (ty_Source tr)
                  (ty_Headers tr) false false []) PNil) (ty_Value tr).

(** [typedSliceSource.Run]: the records sent, with the clock at each. *)
Fixpoint typed_slice {t} (now : nat → time) (i : nat) (rs : list (TypedRecord t)) : list trecord * option bytes :=
  match rs with
  | [] => ([], None)
  | tr :: rs =>
      match recordFromTypedRecord (now i) tr with
      | Ok r => let '(out, err) := typed_slice now (S i) rs in (r :: out, err)
      | Err e | Panic e => ([], Some e)
      end
  end.
(** [FromTypedValues] *)
Definition typed_values {t} (now : nat → time) (vs : list (val t)) : list (TypedRecord t) :=
  imap (λ i v, mkTyped [] v (now i) (Z.of_nat i) 0 [] ∅) vs.
End typed.

Arguments parsed {ty} val.
Arguments trecord {ty} val.
Arguments typed_op {ty} val _ _.
Arguments TypedRecord {ty} val t.
Arguments mkTyped {ty val t} _ _ _ _ _ _ _.
Arguments ty_Key {ty val t} _.
Arguments ty_Value {ty val t} _.
Arguments ty_Timestamp {ty val t} _.
Arguments ty_Offset {ty val t} _.
Arguments ty_Partition {ty val t} _.
Arguments ty_Source {ty val t} _.
Arguments ty_Headers {ty val t} _.

(** ** What a typed pipeline computes *)

Section pipelines.
Context {ty : Type} `{!EqDecision ty} {val : ty → Type}.
Context (marshal : ∀ t, val t → result bytes) (unmarshal : ∀ t, bytes → result (val t)).
Notation typed_loop := (typed_loop marshal unmarshal).

(** A chain of operators with matching types. *)
Inductive pipe : ty → ty → Type :=
| POne t u (o : typed_op val t u) : pipe t u
| PThen t u w (o : typed_op val t u) (p : pipe u w) : pipe t w.

Fixpoint run_pipe {t u} (p : pipe t u) (rs : list (trecord val)) : list (trecord val) * outcome unit :=
  match p with
  | POne _ _ o => typed_loop o rs
  | PThen _ _ _ o p =>
      let '(out, r1) := typed_loop o rs in
      let '(out', r2) := run_pipe p out in
      (out', match r1 with Done _ => r2 | e => e end)
  end.

(** The same chain on plain values. *)
Definition op_sem {t u} (o : typed_op val t u) : val t → result (list (val u)) :=
  match o in typed_op _ t u return val t → result (list (val u)) with
  | TMap _ _ fn _ => λ v, Ok [fn v]
  | TFilter _ fn _ => λ v, Ok (if fn v then [v] else [])
  | TFlatMap _ _ fn _ => λ v, Ok (fn v)
  | TProcess _ fn _ => λ v, w <-? fn v ;; Ok [w]
  end.
Fixpoint bind_all {A B} (f : A → result (list B)) (l : list A) : result (list B) :=
  match l with [] => Ok [] | x :: l => a <-? f x ;; b <-? bind_all f l ;; Ok (a ++ b) end.
Fixpoint pipe_sem {t u} (p : pipe t u) : val t → result (list (val u)) :=
  match p in pipe t u return val t → result (list (val u)) with
  | POne _ _ o => op_sem o
  | PThen _ _ _ o p => λ v, vs <-? op_sem o v ;; bind_all (pipe_sem p) vs
  end.

(** A record with another payload. *)
Definition stamp (u : ty) (r : trecord val) (w : val u) : trecord val :=
  match recordWithTypedValue marshal u r w with Ok x => x | _ => r end.
(** The output for one record. *)
Definition outputs {t u} (f : val t → result (list (val u))) (r : trecord val) : list (trecord val) :=
  if isMarker (t_rec r) then [r]
  else match typedValue unmarshal t r with
       | Ok v => match f v with Ok ws => stamp u r <$> ws | _ => [] end
       | _ => []
       end.
(** A record that decodes and that the chain accepts. *)
Definition accepted {t u} (f : val t → result (list (val u))) (r : trecord val) : Prop :=
  isMarker (t_rec r) = true ∨ ∃ v ws, typedValue unmarshal t r = Ok v ∧ f v = Ok ws.

(** JSON keeps values. *)
Context (json : ∀ t v, ∃ b, marshal t v = Ok b ∧ b ≠ [] ∧ unmarshal t b = Ok v).

Lemma cast_refl t v : cast (val := val) t t v = Some v.
Proof. unfold cast. destruct (decide (t = t)) as [E|]; [|done]. by rewrite (UIP_dec EqDecision0 E eq_refl). Qed.

Lemma stamp_ok u r w : recordWithTypedValue marshal u r w = Ok (stamp u r w) ∧ typedValue unmarshal u (stamp u r w) = Ok w
  ∧ typedValue unmarshal u (mkTRecord (t_rec (stamp u r w)) PNil) = Ok w ∧ isMarker (t_rec (stamp u r w)) = isMarker (t_rec r)
  ∧ set_value (t_rec (stamp u r w)) [] = set_value (t_rec r) [].
Proof.
  destruct (json u w) as (b & Hm & Hb & Hu). unfold stamp, recordWithTypedValue. rewrite Hm. split_and!; [done| |  |done|done].
  - unfold typedValue. cbn [t_parsed]. by rewrite cast_refl.
  - unfold typedValue, typed_json. cbn. rewrite decide_False by done. by rewrite Hu.
Qed.
Lemma stamp_stamp u u' r w w' : stamp u' (stamp u r w) w' = stamp u' r w'.
Proof.
  destruct (json u w) as (b & Hm & _), (json u' w') as (b' & Hm' & _). unfold stamp, recordWithTypedValue. rewrite Hm'. cbn. by rewrite Hm.
Qed.

Lemma send_items_ok {t u} (o : typed_op val t u) s r items : send_items marshal o s r items = (stamp s r <$> items, Done tt).
Proof.
  induction items as [|v items IH]; [done|]. cbn [send_items]. destruct (stamp_ok s r v) as [-> _]. by rewrite IH.
Qed.

Lemma typed_one_ok {t u} (o : typed_op val t u) r v ws : typedValue unmarshal t r = Ok v → op_sem o v = Ok ws →
  typed_one marshal unmarshal o r = (stamp u r <$> ws, Done tt).
Proof.
  intros Hv. unfold typed_one. rewrite Hv. destruct o as [t u fn l|t fn l|t u fn l|t fn l]; cbn [op_sem].
  - intros [= <-]. apply send_items_ok.
  - intros [= <-]. destruct (fn v); [apply send_items_ok|done].
  - intros [= <-]. apply send_items_ok.
  - destruct (fn v) as [w|e|e]; cbn [rbind]; [|done|done]. intros [= <-]. apply send_items_ok.
Qed.

Lemma typed_loop_ok {t u} (o : typed_op val t u) rs : Forall (accepted (op_sem o)) rs → typed_loop o rs = (rs ≫= outputs (op_sem o), Done tt).
Proof.
  induction 1 as [|r rs Hr _ IH]; [done|]. cbn [TypedStream.typed_loop mbind list_bind]. unfold outputs at 1.
  destruct (isMarker (t_rec r)) eqn:Em; [by rewrite IH|]. destruct Hr as [?|(v & ws & Hv & Hw)]; [congruence|].
  rewrite (typed_one_ok o r v ws), Hv, Hw, IH by done. done.
Qed.

(** Outputs of outputs. *)
Lemma bind_bind {A B C} (f : A → list B) (g : B → list C) l : (l ≫= f) ≫= g = l ≫= (λ x, f x ≫= g).
Proof. induction l as [|x l IH]; [done|]. cbn [mbind list_bind]. by rewrite <- IH, bind_app. Qed.
Lemma bind_all_Ok {A B} (f : A → result (list B)) l bs : bind_all f l = Ok bs → Forall (λ x, ∃ b, f x = Ok b) l
  ∧ ∀ {C} (g : A → list C) (h : B → C), (∀ x b, x ∈ l → f x = Ok b → g x = h <$> b) → l ≫= g = h <$> bs.
Proof.
  revert bs. induction l as [|x l IH]; intros bs; cbn [bind_all]; [intros [= <-]; by split|].
  destruct (f x) as [a|e|e] eqn:Ef; [|done|done]. cbn [rbind]. destruct (bind_all f l) as [b|e|e] eqn:El; [|done|done]. cbn [rbind].
  intros [= <-]. destruct (IH b eq_refl) as [IH1 IH2]. split; [constructor; eauto|]. intros C g h Hg. cbn [mbind list_bind].
  rewrite fmap_app, (Hg x a), (IH2 C g h); [done| |by left|done]. intros y b' Hy. apply Hg. by right.
Qed.

Lemma run_pipe_ok {t u} (p : pipe t u) : ∀ rs, Forall (accepted (pipe_sem p)) rs → run_pipe p rs = (rs ≫= outputs (pipe_sem p), Done tt).
Proof.
  induction p as [t u o|t u w o p IH]; intros rs Hrs; [by apply typed_loop_ok|]. cbn [run_pipe pipe_sem] in *.
  assert (Forall (accepted (op_sem o)) rs) as Ho.
  { eapply Forall_impl; [exact Hrs|]. intros r [?|(v & ws & Hv & Hw)]; [by left|right]. exists v. destruct (op_sem o v); [eauto|done|done]. }
  rewrite typed_loop_ok by done. assert (Forall (accepted (pipe_sem p)) (rs ≫= outputs (op_sem o))) as Hmid.
  { apply Forall_bind. eapply Forall_impl; [exact Hrs|]. intros r Hr. change (Forall (accepted (pipe_sem p)) (outputs (op_sem o) r)).
    unfold outputs. destruct (isMarker (t_rec r)) eqn:Em; [apply Forall_singleton; by left|].
    destruct Hr as [?|(v & ws & Hv & Hw)]; [congruence|]. rewrite Hv. destruct (op_sem o v) as [vs|e|e]; [|done|done]. cbn [rbind] in Hw.
    apply bind_all_Ok in Hw as [Hw _]. apply Forall_fmap. eapply Forall_impl; [exact Hw|]. intros x [b Hb]. right. exists x, b. split; [apply stamp_ok|done]. }
  rewrite (IH _ Hmid). f_equal. rewrite bind_bind. apply Forall_bind_ext. eapply Forall_impl; [exact Hrs|]. intros r Hr.
  unfold outputs at 2 3. destruct (isMarker (t_rec r)) eqn:Em; [cbn; unfold outputs; by rewrite Em|].
  destruct Hr as [?|(v & ws & Hv & Hw)]; [congruence|]. rewrite Hv, Hw. destruct (op_sem o v) as [vs|e|e]; [|done|done]. cbn [rbind] in Hw.
  apply bind_all_Ok in Hw as [_ Hw]. rewrite list_fmap_bind. apply (Hw _ (outputs (pipe_sem p) ∘ stamp u r) (stamp w r)).
  intros x b _ Hb. cbn. destruct (stamp_ok u r x) as (_ & Hx & _ & Hmk & _). unfold outputs. rewrite Hmk, Em, Hx, Hb.
  apply list_fmap_ext. intros _ y _. apply stamp_stamp.
Qed.


(** A typed record keeps its payload and metadata on the way through a record. *)
Lemma typed_record_roundtrip {t} now (tr : TypedRecord val t) : ty_Timestamp tr ≠ zeroTime →
  (r <-? recordFromTypedRecord marshal now tr ;; typedRecordFromRecord unmarshal t r) = Ok tr.
Proof.
  intros Ht. unfold recordFromTypedRecord. destruct tr as [k v ts off pa src h]. cbn [ty_Timestamp ty_Key ty_Value ty_Offset ty_Partition ty_Source ty_Headers] in *.
  unfold IsZero. destruct (Z.eqb_spec ts zeroTime) as [|_]; [done|]. match goal with |- context [recordWithTypedValue marshal t ?x v] => destruct (stamp_ok t x v) as (-> & Hv & _ & _ & Hm) end.
  cbn [rbind]. unfold typedRecordFromRecord. rewrite Hv. cbn [rbind]. unfold set_value in Hm. cbn in Hm. by injection Hm as -> -> -> -> -> ->.
Qed.

(** The first record that does not decode ends an operator, naming its key; the
    outputs before it were sent. *)
Lemma typed_loop_fails {t u} (o : typed_op val t u) rs r rest e : Forall (accepted (op_sem o)) rs → isMarker (t_rec r) = false →
  typedValue unmarshal t r = Err e → typed_loop o (rs ++ r :: rest) = (rs ≫= outputs (op_sem o), failed o r e).
Proof.
  intros Hrs Em Hv. induction Hrs as [|x rs Hx _ IH]; cbn [app TypedStream.typed_loop mbind list_bind].
  - rewrite Em. unfold typed_one. by rewrite Hv.
  - unfold outputs at 1. destruct (isMarker (t_rec x)) eqn:Ex; [by rewrite IH|]. destruct Hx as [?|(v & ws & Hxv & Hw)]; [congruence|].
    rewrite (typed_one_ok o x v ws), Hxv, Hw, IH by done. done.
Qed.
End pipelines.

(** ** The sink adapter *)

Section adapter.
Context {ty : Type} `{!EqDecision ty} {val : ty → Type} (unmarshal : ∀ t, bytes → result (val t)) (t : ty).
(** [TypedSinkFunc]: the user's function, which may fail. *)
Context (f : TypedRecord val t → option bytes).

(** Where [typedSinkAdapter.Write] is: at its select, sending a record, waiting for
    the sink with an error of its own or for the sink's, or returned. *)
Inductive adapter_at := AtLoop | AtSend (tr : TypedRecord val t) | AtWait (own : option bytes) | AtReturn (err : option bytes).

(** The input that is left, the channel, whether it is closed, the records the
    function took, the return of the sink's goroutine, and the context. *)
Record adapter := mkAdapter {
  ad_in : list (trecord val); ad_chan : list (TypedRecord val t); ad_closed : bool; ad_taken : list (TypedRecord val t);
  ad_sink : option (option bytes); ad_at : adapter_at; ad_ctx : bool
}.
Definition adapter_init (rs : list (trecord val)) : adapter := mkAdapter rs [] false [] None AtLoop false.
Definition ctx_err : bytes := bs "context canceled".
Definition chan_cap : nat := 256.

Inductive adapter_step : adapter → adapter → Prop :=
| ad_cancel i ch cl tk sk at_ : adapter_step (mkAdapter i ch cl tk sk at_ false) (mkAdapter i ch cl tk sk at_ true)
| ad_loop_ctx i ch tk sk : adapter_step (mkAdapter i ch false tk sk AtLoop true) (mkAdapter i ch true tk sk (AtWait (Some ctx_err)) true)
| ad_loop_err i ch tk e c : adapter_step (mkAdapter i ch false tk (Some e) AtLoop c) (mkAdapter i ch true tk (Some e) (AtReturn e) c)
| ad_loop_end ch tk sk c : adapter_step (mkAdapter [] ch false tk sk AtLoop c) (mkAdapter [] ch true tk sk (AtWait None) c)
| ad_loop_marker r i ch tk sk c : isMarker (t_rec r) = true →
    adapter_step (mkAdapter (r :: i) ch false tk sk AtLoop c) (mkAdapter i ch false tk sk AtLoop c)
| ad_loop_bad r i ch tk sk c e : isMarker (t_rec r) = false → typedRecordFromRecord unmarshal t r = Err e →
    adapter_step (mkAdapter (r :: i) ch false tk sk AtLoop c) (mkAdapter i ch true tk sk (AtWait (Some e)) c)
| ad_loop_data r i ch tk sk c tr : isMarker (t_rec r) = false → typedRecordFromRecord unmarshal t r = Ok tr →
    adapter_step (mkAdapter (r :: i) ch false tk sk AtLoop c) (mkAdapter i ch false tk sk (AtSend tr) c)
| ad_send i ch tk sk c tr : (length ch < chan_cap)%nat →
    adapter_step (mkAdapter i ch false tk sk (AtSend tr) c) (mkAdapter i (ch ++ [tr]) false tk sk AtLoop c)
| ad_send_ctx i ch tk sk tr : adapter_step (mkAdapter i ch false tk sk (AtSend tr) true) (mkAdapter i ch true tk sk (AtWait (Some ctx_err)) true)
| ad_send_err i ch tk e c tr : adapter_step (mkAdapter i ch false tk (Some e) (AtSend tr) c) (mkAdapter i ch true tk (Some e) (AtReturn e) c)
| ad_wait i ch cl tk e own c :
    adapter_step (mkAdapter i ch cl tk (Some e) (AtWait own) c)
      (mkAdapter i ch cl tk (Some e) (AtReturn (match own with Some x => Some x | None => e end)) c)
| sink_take i tr ch cl tk at_ c : f tr = None → adapter_step (mkAdapter i (tr :: ch) cl tk None at_ c) (mkAdapter i ch cl (tk ++ [tr]) None at_ c)
| sink_fail i tr ch cl tk at_ c e : f tr = Some e → adapter_step (mkAdapter i (tr :: ch) cl tk None at_ c) (mkAdapter i ch cl tk (Some (Some e)) at_ c)
| sink_end i tk at_ c : adapter_step (mkAdapter i [] true tk None at_ c) (mkAdapter i [] true tk (Some None) at_ c)
| sink_ctx i ch cl tk at_ : adapter_step (mkAdapter i ch cl tk None at_ true) (mkAdapter i ch cl tk (Some (Some ctx_err)) at_ true).

(** The typed records of the data records that decode. *)
Definition decoded (r : trecord val) : option (TypedRecord val t) :=
  if isMarker (t_rec r) then None else match typedRecordFromRecord unmarshal t r with Ok tr => Some tr | _ => None end.
Definition decodes (r : trecord val) : Prop := isMarker (t_rec r) = true ∨ ∃ tr, typedRecordFromRecord unmarshal t r = Ok tr.

(** The records on their way: what the sink failed on ([mid]) and what the writer
    holds ([pend]). *)
Definition in_flight (s : adapter) (mid pend : list (TypedRecord val t)) : Prop :=
  (match ad_sink s with Some (Some _) => True | _ => mid = [] end)
  ∧ match ad_at s with
    | AtSend tr => pend = [tr]
    | AtLoop | AtWait None | AtReturn None => pend = []
    | _ => True
    end.
(** The phases of the writer. *)
Definition phase_ok (s : adapter) : Prop :=
  match ad_at s with
  | AtLoop | AtSend _ => ad_closed s = false
  | AtWait None => ad_closed s = true ∧ ad_in s = []
  | AtReturn None => ad_in s = [] ∧ ad_sink s = Some None
  | _ => ad_closed s = true
  end.
Definition failing (s : adapter) : Prop := match ad_at s with AtWait (Some _) | AtReturn (Some _) => True | _ => False end.
Definition adapter_inv (rs : list (trecord val)) (s : adapter) : Prop :=
  phase_ok s
  ∧ (ad_sink s = Some None → ad_closed s = true ∧ ad_chan s = [])
  ∧ ∃ dn mid pend, rs = dn ++ ad_in s ∧ omap decoded dn = ad_taken s ++ mid ++ ad_chan s ++ pend
      ∧ in_flight s mid pend ∧ (failing s ∨ Forall decodes dn).

Lemma decoded_snoc dn r : omap decoded (dn ++ [r]) = omap decoded dn ++ option_list (decoded r).
Proof. rewrite omap_app. cbn. by destruct (decoded r). Qed.

Ltac inv_adapter := repeat split; cbn in *; auto.
Lemma adapter_inv_step rs s s' : adapter_inv rs s → adapter_step s s' → adapter_inv rs s'.
Proof.
  intros (Hp & Hs & dn & mid & pend & Hrs & Hd & [Hm Hw] & Hf) Hstep. destruct Hstep; cbn in *; unfold adapter_inv, phase_ok, in_flight, failing in *; cbn in *.
  - split_and!; [done|done|]. exists dn, mid, pend. inv_adapter.
  - split_and!; [done|naive_solver|]. exists dn, mid, pend. inv_adapter.
  - destruct e as [e|]; [|naive_solver]. split_and!; [done|done|]. exists dn, mid, pend. inv_adapter.
  - split_and!; [done|done|naive_solver|]. exists dn, mid, pend. inv_adapter.
  - split_and!; [done|done|]. exists (dn ++ [r]), mid, pend. rewrite decoded_snoc, <- app_assoc. unfold decoded at 2. rewrite H, app_nil_r. inv_adapter.
    right. destruct Hf as [|Hf]; [done|]. apply Forall_app; split; [done|]. apply Forall_singleton. by left.
  - split_and!; [done|naive_solver|]. exists (dn ++ [r]), mid, pend. rewrite decoded_snoc, <- app_assoc. unfold decoded at 2. rewrite H, H0, app_nil_r. inv_adapter.
  - split_and!; [done|done|]. exists (dn ++ [r]), mid, [tr]. rewrite decoded_snoc, <- app_assoc. unfold decoded at 2. rewrite H, H0, Hd. subst pend.
    rewrite app_nil_r, <- !app_assoc. inv_adapter. right. destruct Hf as [|Hf]; [done|]. apply Forall_app; split; [done|]. apply Forall_singleton. right. eauto.
  - split_and!; [done|naive_solver|]. exists dn, mid, []. subst pend. rewrite app_nil_r. inv_adapter.
  - split_and!; [done|naive_solver|]. exists dn, mid, pend. inv_adapter.
  - destruct e as [e|]; [|naive_solver]. split_and!; [done|done|]. exists dn, mid, pend. inv_adapter.
  - destruct own as [x|]; [|destruct e as [e|]].
    + split_and!; [done|done|]. exists dn, mid, pend. inv_adapter.
    + split_and!; [by destruct Hp|done|]. exists dn, mid, pend. inv_adapter.
    + split; [by destruct Hp|split; [done|]]. exists dn, mid, pend. inv_adapter.
  - split_and!; [by destruct at_ as [| |[]|[]]; destruct_and?|done|]. exists dn, mid, pend. subst mid. rewrite <- app_assoc. inv_adapter.
  - split_and!; [by destruct at_ as [| |[]|[]]; destruct_and?|done|]. exists dn, [tr], pend. subst mid. inv_adapter.
  - split_and!; [by destruct at_ as [| |[]|[]]; destruct_and?|done|]. exists dn, mid, pend. inv_adapter.
  - split_and!; [by destruct at_ as [| |[]|[]]; destruct_and?|done|]. exists dn, mid, pend. inv_adapter.
Qed.

Lemma adapter_inv_steps rs n s : nsteps adapter_step n (adapter_init rs) s → adapter_inv rs s.
Proof.
  intros H. assert (adapter_inv rs (adapter_init rs)) as Hi.
  { split; [done|split; [done|]]. exists [], [], []. by repeat split; auto. }
  revert Hi H. generalize (adapter_init rs). induction n as [|n IH]; intros s0 Hi H; inversion H; subst; [done|].
  eapply IH; [|done]. by eapply adapter_inv_step.
Qed.

(** The work that is left. *)
Definition adapter_work (s : adapter) : nat :=
  4 * length (ad_in s) + length (ad_chan s) + match ad_at s with AtLoop => 3 | AtSend _ => 5 | AtWait _ => 1 | AtReturn _ => 0 end
  + (if ad_sink s then 0 else 1) + (if ad_ctx s then 0 else 1).
Lemma adapter_work_step s s' : adapter_step s s' → (adapter_work s' < adapter_work s)%nat.
Proof. intros []; unfold adapter_work; cbn [ad_in ad_chan ad_at ad_sink ad_ctx length]; rewrite ?length_app; cbn [length]; lia. Qed.
Lemma adapter_work_steps n s s' : nsteps adapter_step n s s' → (n + adapter_work s' ≤ adapter_work s)%nat.
Proof. induction 1 as [|n x y z Hxy _ IH]; [lia|]. apply adapter_work_step in Hxy. lia. Qed.

(** A writer that has not returned can go on without a cancellation. *)
Lemma adapter_moves rs s : (∀ b e, unmarshal t b ≠ Panic e) → adapter_inv rs s → (∀ err, ad_at s ≠ AtReturn err) →
  ∃ s', adapter_step s s' ∧ ad_ctx s' = ad_ctx s.
Proof.
  intros Hnp (Hp & Hs & _) Hat. destruct s as [i ch cl tk [e|] [|tr|own|err] c]; unfold phase_ok in Hp; cbn in *; [| | |by edestruct Hat| | | |by edestruct Hat].
  - subst cl. eexists. split; [apply ad_loop_err|done].
  - subst cl. eexists. split; [apply ad_send_err|done].
  - eexists. split; [apply ad_wait|done].
  - subst cl. destruct i as [|r i]; [eexists; split; [apply ad_loop_end|done]|]. destruct (isMarker (t_rec r)) eqn:Em; [eexists; split; [by apply ad_loop_marker|done]|].
    destruct (typedRecordFromRecord unmarshal t r) as [tr|e|e] eqn:Er; [eexists; split; [by eapply ad_loop_data|done]|eexists; split; [by eapply ad_loop_bad|done]|].
    exfalso. unfold typedRecordFromRecord, typedValue, typed_json in Er. specialize (Hnp (Value (t_rec r))).
    repeat (case_match; cbn in *; try congruence).
  - subst cl. destruct ch as [|x ch]; [eexists; split; [apply ad_send; cbn; unfold chan_cap; lia|done]|].
    destruct (f x) eqn:Ef; eexists; (split; [by econstructor|done]).
  - assert (cl = true) as -> by (by destruct own; destruct_and?). destruct ch as [|x ch]; [eexists; split; [apply sink_end|done]|].
    destruct (f x) eqn:Ef; eexists; (split; [by econstructor|done]).
Qed.

(** Nothing fails when every record decodes, the function accepts every record and
    nobody cancels. *)
Definition unfailing (s : adapter) : Prop :=
  ad_ctx s = false → Forall decodes (ad_in s) ∧ ¬ failing s ∧ ∀ e, ad_sink s ≠ Some (Some e).
Lemma unfailing_steps n s s' : (∀ tr, f tr = None) → unfailing s → nsteps adapter_step n s s' → unfailing s'.
Proof.
  intros Hf Hu H. induction H as [|n x y z Hxy _ IH]; [done|]. apply IH. clear IH. destruct Hxy; intros Hc; cbn in *; subst; try done;
    destruct Hu as (Hu & Hfl & Hk); try done; unfold failing in *; cbn in *; try (by (split_and!; [by inversion Hu|done|done])); try (by edestruct Hk);
    try (by (split_and!; [done|done|congruence])).
  - destruct e as [e|]; [by edestruct Hk|done].
  - exfalso. inversion_clear Hu as [|? ? [?|[? ?]] ?]; congruence.
  - destruct e as [e|]; [by edestruct Hk|done].
  - destruct own; [by destruct Hfl|]. destruct e as [e|]; [by edestruct Hk|done].
Qed.

End adapter.

(** ** Examples *)

(** Two Go types, [bool] and [struct{}], with their JSON. *)
Definition demo_val (t : bool) : Type := if t then bool else unit.
Definition demo_marshal (t : bool) : demo_val t → result bytes :=
  match t return demo_val t → result bytes with
  | true => λ b : bool, Ok (if b then bs "true" else bs "false")
  | false => λ _, Ok (bs "{}")
  end.
Definition demo_unmarshal (t : bool) (b : bytes) : result (demo_val t) :=
  match t return result (demo_val t) with
  | true => if decide (b = bs "true") then Ok true else if decide (b = bs "false") then Ok false else Err (bs "invalid character")
  | false => if decide (b = bs "{}") then Ok tt else Err (bs "invalid character")
  end.
Definition demo_typed (v : bytes) : trecord demo_val := mkTRecord (mkRecord (bs "k") v 7 0 0 [] ∅ false false []) PNil.
Definition demo_pipe : pipe (val := demo_val) true false :=
  PThen true true false (TFlatMap (val := demo_val) true true (λ b : bool, [b; negb b]) [])
    (PThen true true false (TFilter (val := demo_val) true (λ b : bool, b) []) (POne true false (TMap (val := demo_val) true false (λ _, tt) []))).


(** A record that does not decode gets the empty key from the typed [KeyBy] and is
    an error of a typed filter. *)
Example typed_key_hides_errors :
  typed_key demo_unmarshal true (λ b : bool, bs "x") (demo_typed (bs "oops")) = []
  ∧ (typed_loop demo_marshal demo_unmarshal (TFilter (val := demo_val) true (λ b : bool, b) (bs "f")) [demo_typed (bs "oops")]).2
    = Failed (mkOperatorError (bs "TypedFilter") (bs "f") (bs "k") (bs "typed stream: decode JSON: invalid character")).
Proof. vm_compute. auto. Qed.

