(* ===== verification/History.v ===== *)
(** * Metrics history, discovery and diagnostics ([src/control/history.go],
    [discovery.go], [diagnostics.go])

    The bounded series of samples the controller keeps per job, the sampling of the
    live jobs found by discovery, and the read-only views of the API: attempts,
    logs and the diagnosis of a failure.

    Controller calls are in the monad of [Controller].  The history is a value
    passed along; requests to the job agents are parameters. *)

From S2P Require Import Prelude Decimal Float64 Lifecycle JobStore Controller FieldOps.
From Stdlib Require Import Strings.Byte SpecFloat.

(** ** The series *)

Definition DefaultHistorySamples : Z := 240.

(** [Sample] *)
Record Sample := mkSample {
  sa_At : time; sa_Phase : bytes; sa_RecordsIn : Z; sa_RecordsOut : Z; sa_CheckpointID : bytes; sa_LastCheckpointAt : option time;
  sa_CheckpointDurationMs : Z; sa_CheckpointSizeBytes : Z; sa_KafkaLag : Z; sa_EdgeQueued : Z; sa_Errors : Z; sa_LastError : bytes
}.
Definition zeroSample : Sample := mkSample zeroTime [] 0 0 [] None 0 0 0 0 0 [].

(** [History] *)
Record History := mkHistory { h_max : Z; h_series : gmap bytes (list Sample) }.
Definition NewHistory (max : Z) : History := mkHistory (if max <=? 0 then DefaultHistorySamples else max) ∅.
Definition series_of (h : History) (job : bytes) : list Sample := default [] (h_series h !! job).

(** [History.Add]: the oldest samples go. *)
Definition history_Add (h : History) (job : bytes) (s : Sample) : History :=
  let series := series_of h job ++ [s] in
  let n := Z.of_nat (length series) in
  let series := if h_max h <? n then drop (Z.to_nat (n - h_max h)) series else series in
  mkHistory (h_max h) (<[job := series]> (h_series h)).

(** [History.Series]; the positions are computed in floating point. *)
Definition stride (n m : Z) : float64 := SFdiv prec emax (f_of_int (n - 1)) (f_of_int (m - 1)).
Definition point (n m i : Z) : Z := f_to_int (SFmul prec emax (f_of_int i) (stride n m)).
Fixpoint pick_points (series : list Sample) (n m : Z) (poss : list nat) : result (list Sample) :=
  match poss with
  | [] => Ok []
  | i :: poss =>
      let k := point n m (Z.of_nat i) in
      match (if k <? 0 then None else series !! Z.to_nat k) with
      | Some s => rest <-? pick_points series n m poss ;; Ok (s :: rest)
      | None => Panic (bs "index out of range")
      end
  end.
Definition Series (h : History) (job : bytes) (maxPoints : Z) : result (list Sample) :=
  let series := series_of h job in
  let n := Z.of_nat (length series) in
  if (maxPoints <=? 0) || (n <=? maxPoints) then Ok series
  else if maxPoints =? 1 then match last series with Some s => Ok [s] | None => Panic (bs "index out of range") end
  else pick_points series n maxPoints (seq 0 (Z.to_nat maxPoints)).

(** [Drop], [Latest], [JobsWithHistory] *)
Definition history_Drop (h : History) (job : bytes) : History := mkHistory (h_max h) (delete job (h_series h)).
Definition Latest (h : History) (job : bytes) : option Sample := last (series_of h job).
Definition JobsWithHistory (h : History) : list bytes := (map_to_list (filter (λ x, x.2 ≠ []) (h_series h))).*1.

(** ** Scraping an agent *)

(** [strings.Fields] on ASCII. *)
Fixpoint fields_from (cur s : bytes) : list bytes :=
  match s with
  | [] => if decide (cur = []) then [] else [cur]
  | b :: s => if is_space b then (if decide (cur = []) then fields_from [] s else cur :: fields_from [] s) else fields_from (cur ++ [b]) s
  end.
Definition strings_Fields (s : bytes) : list bytes := fields_from [] s.

(** [promSample]: the text before the first brace and the value. *)
Fixpoint before_byte (c : byte) (s : bytes) : bytes :=
  match s with [] => [] | b :: s => if decide (b = c) then [] else b :: before_byte c s end.
Definition promSample (line : bytes) : option (bytes * Z) :=
  let line := trim_space line in
  if bool_decide (line = []) || has_prefix (bs "#") line then None
  else match strings_Fields line with
       | name :: value :: _ => let '(f, fine) := ParseFloat value in if fine then Some (before_byte x7b name, f_to_int f) else None
       | _ => None
       end.

(** [scrapeAgentMetrics] on the text of the answer; no answer counts as zeros. *)
Definition error_metrics : list bytes :=
  [bs "weibo_stage_errors_total"; bs "weibo_operator_worker_errors_total"; bs "weibo_source_errors_total"; bs "weibo_sink_errors_total";
   bs "weibo_records_failed_total"].
Definition metrics_line (acc : Z * Z) (line : bytes) : Z * Z :=
  match promSample line with
  | Some (name, v) => if decide (name = bs "weibo_edge_queue_size") then (i64_add acc.1 v, acc.2)
                      else if decide (name ∈ error_metrics) then (acc.1, i64_add acc.2 v) else acc
  | None => acc
  end.
Definition scrapeAgentMetrics (resp : result (Z * bytes)) : Z * Z :=
  match resp with
  | Ok (200, body) => foldl metrics_line (0, 0) (strings_Split x0a (take (Z.to_nat (4 * 2 ^ 20)) body))
  | _ => (0, 0)
  end.

(** [sumLag] *)
Definition lag_of (item : json) : Z :=
  match item with
  | JObject fs =>
      match last (filter (λ x, x.1 = bs "lag") fs) with
      | Some (_, JNumber lit) => let f := (ParseFloat lit).1 in if f_ltb f_zero f then f_to_int f else 0
      | _ => 0
      end
  | _ => 0
  end.
Definition sumLag (source : json) : Z := match source with JArray items => foldl (λ t j, i64_add t (lag_of j)) 0 items | _ => 0 end.

(** [agentState], [scrapeTarget]; [decode] reads the JSON of the state. *)
Record agentState := mkAgentState {
  as_Phase : bytes; as_RecordsIn : Z; as_RecordsOut : Z; as_CheckpointID : bytes; as_LastCheckpointAt : option time; as_LastError : bytes;
  as_Source : json; as_Checkpoints : list (Z * Z)
}.
Definition scrapeTarget (decode : bytes → result agentState) (now : time) (get : bytes → result (Z * bytes)) : result Sample :=
  answer <-? get (bs "/state") ;;
  let '(status, body) := answer in
  if negb (status =? 200) then Err (bs "agent returned " ++ FormatInt status)
  else
    st <-? decode body ;;
    let '(dur, size) := default (0, 0) (head (as_Checkpoints st)) in
    let '(queued, errs) := scrapeAgentMetrics (get (bs "/metrics")) in
    Ok (mkSample now (as_Phase st) (as_RecordsIn st) (as_RecordsOut st) (as_CheckpointID st) (as_LastCheckpointAt st) dur size
          (sumLag (as_Source st)) queued errs (as_LastError st)).

(** ** Discovery *)

Definition backend_phase_text (p : BackendPhase) : bytes :=
  match p with BPending => bs "pending" | BRunning => bs "running" | BExited => bs "exited" | BGone => bs "gone" | BUnhealthy => bs "unhealthy" end.

(** [DiscoveryTarget] *)
Record DiscoveryTarget := mkTarget { tg_Targets : list bytes; tg_Labels : gmap bytes bytes }.
Definition target_of (addr id name phase : bytes) : DiscoveryTarget :=
  mkTarget [addr] {[bs "weibo_job_id" := id; bs "weibo_job_name" := name; bs "weibo_run_phase" := phase]}.
Definition target_job (t : DiscoveryTarget) : bytes := default [] (tg_Labels t !! bs "weibo_job_id").
Definition target_addr (t : DiscoveryTarget) : bytes := default [] (head (tg_Targets t)).
Definition addr_le (t u : DiscoveryTarget) : Prop := ¬ bytes_lt (target_addr u) (target_addr t).
#[export] Instance addr_le_dec : RelDecision addr_le.
Proof. intros t u. unfold addr_le. apply _. Defined.

Section discovery.
Context (O : oracle).

(** The probe of one run; a probe the deadline cuts off adds nothing. *)
Definition probe (expired : bool) (r : Run) : C (option DiscoveryTarget) :=
  if decide (rn_ContainerID r = []) then ret None
  else if expired then ret None
  else
    on_err (query O (λ s, GetJob s (rn_JobID r))) (λ _, None) (λ job,
    on_err (BGetStatus O (rn_ContainerID r)) (λ _, None) (λ st,
    if decide (bst_Address st = []) then ret None
    else match bst_Phase st with
         | BRunning | BPending => ret (Some (target_of (bst_Address st) (jb_ID job) (jb_Name job) (backend_phase_text (bst_Phase st))))
         | _ => ret None
         end)).
Fixpoint probes (expired : nat → bool) (i : nat) (rs : list Run) : C (list DiscoveryTarget) :=
  match rs with
  | [] => ret []
  | r :: rs => t ← probe (expired i) r; ts ← probes expired (S i) rs; ret (option_list t ++ ts)
  end.

(** [DiscoveryTargets]: the probes of the runs and the targets by address; [late]
    is whether the deadline has passed in the end. *)
Definition DiscoveryTargets (expired : nat → bool) (late : bool) : C (result (list DiscoveryTarget)) :=
  on_err (query O (λ s, Ok (ActiveRuns s))) Err (λ rs,
  ts ← probes expired 0 rs;
  if late && bool_decide (ts = []) then fail (bs "context deadline exceeded") else ok (merge_sort addr_le ts)).
End discovery.

(** ** Sampling *)

(** The sampling of one target, and of the targets in the order in which the
    goroutines finish. *)
Definition sample_one (fetch : bytes → result Sample) (h : History) (t : DiscoveryTarget) : History :=
  if bool_decide (target_job t = []) || bool_decide (target_addr t = []) then h
  else match fetch (target_addr t) with Ok s => history_Add h (target_job t) s | _ => h end.
Definition sample_all (fetch : bytes → result Sample) (h : History) (ts : list DiscoveryTarget) : History := foldl (sample_one fetch) h ts.

(** [sampleOnce]; [order] is the order of the goroutines. *)
Definition sampleOnce (O : oracle) (expired : nat → bool) (late : bool) (fetch : bytes → result Sample)
    (order : list DiscoveryTarget → list DiscoveryTarget) (h : History) : C History :=
  on_err (DiscoveryTargets O expired late) (λ _, h) (λ ts, ret (sample_all fetch h (order ts))).

(** ** Diagnostics *)

(** [FailureDiagnosis] *)
Record FailureDiagnosis := mkDiagnosis { fd_Kind : bytes; fd_Title : bytes; fd_Hint : bytes; fd_Message : bytes }.

(** The text of a failure kind and [failureHints]. *)
Definition failure_text (k : FailureKind) : bytes :=
  match k with
  | NoFailure => []
  | FailureLaunchTransient => bs "launch_transient"
  | FailureLaunchPermanent => bs "launch_permanent"
  | FailureLaunchRecord => bs "launch_record"
  | FailureSecretBlocked => bs "secret_blocked"
  | FailureContainerUnhealthy => bs "container_unhealthy"
  | FailureOOMKilled => bs "oom_killed"
  end.
Definition failureHints : list (bytes * (bytes * bytes)) := [
  (bs "launch_transient", (bs "Temporary launch failure", bs "The backend hiccupped — the reconciler retries automatically with backoff."));
  (bs "launch_permanent", (bs "Permanent launch failure", bs "Needs operator action: check the image reference, manifest, and backend credentials."));
  (bs "launch_record", (bs "Launch bookkeeping failure", bs "The container started but recording it failed — check controller logs; orphan cleanup ran."));
  (bs "secret_blocked", (bs "Blocked on secrets", bs "A durable secret reference cannot resolve — set the missing value and the reconciler retries."));
  (bs "container_unhealthy", (bs "Container unhealthy", bs "The container is up but not making progress (e.g. paused) — check its state and resume or restart it manually."));
  (bs "oom_killed", (bs "Out of memory", bs "The container exceeded its memory limit and was killed by the OS — the reconciler retries automatically with backoff, but it will keep happening until the job's memory limit is raised."));
  (bs "restarting", (bs "Restart scheduled", bs "The last attempt failed — retrying automatically with backoff."))].

(** [DiagnoseFailure] *)
Definition DiagnoseFailure (run : option Run) : option FailureDiagnosis :=
  r ← run;
  kind ← (if decide (rn_FailureKind r = NoFailure)
          then match rn_Phase r with Failed => Some (bs "run_failed") | Restarting => Some (bs "restarting") | _ => None end
          else Some (failure_text (rn_FailureKind r)));
  let '(title, hint) := default (bs "Run failed", bs "The container exited unexpectedly — check its logs and transitions.")
                          (snd <$> head (filter (λ x, x.1 = kind) failureHints)) in
  Some (mkDiagnosis kind title hint (rn_Error r)).

(** [RestartStatus]: [time.Until(at).Seconds() + 0.5] as an integer, not negative. *)
Record RestartStatus := mkRestart { rst_ScheduledAt : time; rst_InSeconds : Z }.
Definition seconds (d : duration) : float64 :=
  f_add (f_of_int (Z.quot d 1000000000)) (SFdiv prec emax (f_of_int (Z.rem d 1000000000)) (f_of_int 1000000000)).
Definition until (now at_ : time) : duration := Z.max (- two63) (Z.min (two63 - 1) (at_ - now)).
Definition restart_status (now : time) (r : Run) : option RestartStatus :=
  match rn_Phase r, rn_RestartAt r with
  | Restarting, Some at_ => Some (mkRestart at_ (Z.max 0 (f_to_int (f_add (seconds (until now at_)) (S754_finite false 4503599627370496 (-53))))))
  | _, _ => None
  end.

(** [Diagnostics], with [Activity] and [CheckpointStatus] *)
Record Activity := mkActivity { av_At : time; av_RecordsIn : Z; av_RecordsOut : Z }.
Record CheckpointStatus := mkCpStatus { cps_ID : bytes; cps_CompletedAt : option time; cps_DurationMs : Z; cps_SizeBytes : Z }.
Record Diagnostics := mkDiagnostics {
  dg_JobID : bytes; dg_Phase : option Phase; dg_Desired : DesiredState; dg_Failure : option FailureDiagnosis; dg_Activity : option Activity;
  dg_Restart : option RestartStatus; dg_Checkpoint : option CheckpointStatus; dg_RunID : bytes; dg_Attempt : Z
}.
(** [RunDetail] *)
Record RunDetail := mkRunDetail { rd_Run : Run; rd_Transitions : list Transition; rd_Restart : option RestartStatus }.

Section views.
Context (O : oracle) (logsAt : nat → bytes → Z → result bytes).

(** [Controller.Diagnostics] *)
Definition job_diagnostics (h : History) (job : bytes) : C (result Diagnostics) :=
  j <-! query O (λ s, GetJob s job) ;;
  run <-! query O (λ s, Ok (LatestRun s job)) ;;
  now ← Now O;
  let sample := Latest h job in
  ok (mkDiagnostics (jb_ID j) (rn_Phase <$> run) (jb_Desired j) (DiagnoseFailure run)
        ((λ s, mkActivity (sa_At s) (sa_RecordsIn s) (sa_RecordsOut s)) <$> sample)
        (run ≫= restart_status now)
        (s ← sample; if decide (sa_CheckpointID s = []) then None
                     else Some (mkCpStatus (sa_CheckpointID s) (sa_LastCheckpointAt s) (sa_CheckpointDurationMs s) (sa_CheckpointSizeBytes s)))
        (default [] (rn_ID <$> run)) (default 0 (rn_Attempt <$> run))).

(** [Controller.RunDetail] *)
Definition run_detail (job run : bytes) : C (result RunDetail) :=
  _ <-! query O (λ s, GetJob s job) ;;
  r <-! query O (λ s, GetRun s run) ;;
  if decide (rn_JobID r = job) then
    all <-! query O (λ s, Ok (ListTransitions s job)) ;;
    now ← Now O;
    ok (mkRunDetail r (filter (λ t, tn_RunID t = run) all) (restart_status now r))
  else fail (bs "store: run not found").

(** [backend.Logs] *)
Definition BLogs (id : bytes) (tail : Z) : C (result bytes) := prim O (λ t w, (logsAt t id tail, w)).

(** [Controller.Logs] *)
Definition Logs (job : bytes) (tail : Z) : C (result bytes) :=
  latest <-! query O (λ s, Ok (LatestRun s job)) ;;
  match latest with
  | Some r => if decide (rn_ContainerID r = []) then ok [] else BLogs (rn_ContainerID r) tail
  | None => ok []
  end.

(** [RunLogs]: the logs, or an HTTP status and an error. *)
Definition RunLogs (job run : bytes) (tail : Z) : C (Z * result bytes) :=
  on_err (query O (λ s, GetRun s run)) (λ _, (404, Err (bs "run not found"))) (λ r,
  if decide (rn_JobID r = job) then
    if decide (rn_ContainerID r = []) then ret (410, Err (bs "logs unavailable: no container recorded for run"))
    else
      on_err (BGetStatus O (rn_ContainerID r)) (λ e, (502, Err e)) (λ st,
      match bst_Phase st with
      | BGone => ret (410, Err (bs "logs unavailable: container removed"))
      | _ => on_err (BLogs (rn_ContainerID r) tail) (λ e, (502, Err e)) (λ out, ret (200, Ok out))
      end)
  else ret (404, Err (bs "run not found"))).
End views.

(** ** What the history holds *)

Inductive hevent := HAdd (job : bytes) (s : Sample) | HDrop (job : bytes).
Definition h_apply (h : History) (e : hevent) : History :=
  match e with HAdd job s => history_Add h job s | HDrop job => history_Drop h job end.
(** The samples of a job since it was last dropped. *)
Definition since (job : bytes) (evs : list hevent) : list Sample :=
  foldl (λ acc e, match e with
                  | HAdd k s => if decide (k = job) then acc ++ [s] else acc
                  | HDrop k => if decide (k = job) then [] else acc
                  end) [] evs.
Definition newest {A} (n : Z) (l : list A) : list A := drop (length l - Z.to_nat n) l.

Lemma newest_snoc {A} n (l : list A) x : 0 < n → newest n (newest n l ++ [x]) = newest n (l ++ [x]).
Proof.
  intros Hn. unfold newest. rewrite !length_app, length_drop. cbn [length]. destruct (decide (length l <= Z.to_nat n)%nat) as [Hl|Hl].
  - replace (length l - Z.to_nat n)%nat with 0%nat by lia. by rewrite drop_0, Nat.sub_0_r.
  - rewrite (drop_app_le l) by lia. rewrite drop_app_le by (rewrite length_drop; lia). rewrite drop_drop. f_equal. f_equal. lia.
Qed.
Lemma last_newest {A} n (l : list A) : 0 < n → last (newest n l) = last l.
Proof. intros Hn. unfold newest. destruct l as [|x l]; [done|]. rewrite !last_lookup, lookup_drop, length_drop. f_equal. cbn [length]. lia. Qed.

Lemma history_Add_series h job s j : 0 < h_max h →
  series_of (history_Add h job s) j = if decide (job = j) then newest (h_max h) (series_of h j ++ [s]) else series_of h j.
Proof.
  intros Hm. unfold history_Add, series_of. cbn [h_series]. destruct (decide (job = j)) as [->|Hj]; [|by rewrite lookup_insert_ne].
  rewrite lookup_insert_eq. cbn [default]. unfold newest. destruct (Z.ltb_spec (h_max h) (Z.of_nat (length (default [] (h_series h !! j) ++ [s])))) as [Hl|Hl].
  - cbn. f_equal. lia.
  - cbn. replace (_ - _)%nat with 0%nat by lia. done.
Qed.

Lemma history_max h evs : h_max (foldl h_apply h evs) = h_max h.
Proof. revert h. induction evs as [|[] evs IH]; intros h; [done|..]; cbn [foldl]; by rewrite IH. Qed.
Lemma since_snoc job evs e : since job (evs ++ [e]) = match e with
  | HAdd k s => if decide (k = job) then since job evs ++ [s] else since job evs
  | HDrop k => if decide (k = job) then [] else since job evs end.
Proof. unfold since. rewrite foldl_app. done. Qed.

(** After any additions and drops the history of a job is the newest
    samples since its last drop, at most the configured number, and its
    latest sample is the one added last. *)
Theorem history_keeps_recent (max : Z) (evs : list hevent) (job : bytes) :
  let h := foldl h_apply (NewHistory max) evs in
  series_of h job = newest (h_max h) (since job evs) ∧ Latest h job = last (since job evs)
  ∧ Z.of_nat (length (series_of h job)) ≤ h_max h ∧ h_max h = (if max <=? 0 then 240 else max).
Proof.
  intros h. assert (h_max h = (if max <=? 0 then 240 else max)) as Hm by apply history_max.
  assert (0 < h_max h) as Hpos by (rewrite Hm; destruct (Z.leb_spec max 0); lia).
  assert (series_of h job = newest (h_max h) (since job evs)) as Hs.
  { clear Hm. subst h. rewrite history_max in *. induction evs as [|e evs IH] using rev_ind; [done|].
    rewrite foldl_app, since_snoc. cbn [foldl]. destruct e as [k s|k]; cbn [h_apply].
    - rewrite history_Add_series, history_max by (by rewrite history_max). rewrite IH. destruct (decide (k = job)); [by apply newest_snoc|done].
    - unfold history_Drop, series_of. cbn [h_series]. destruct (decide (k = job)) as [->|Hk]; [by rewrite lookup_delete_eq|by rewrite lookup_delete_ne]. }
  unfold Latest. rewrite Hs. split_and!; [done|by apply last_newest| |done]. unfold newest. rewrite length_drop. lia.
Qed.

(** ** Calls that only read *)

(** A call that leaves the store and the secrets alone. *)
Definition kept_part (w : cworld) : store * gmap bytes (gmap bytes bytes) := (cw_store w, cw_secrets w).
Definition reads {A} (m : C A) : Prop := keeps kept_part m.

Lemma reads_ret {A} (a : A) : reads (ret a).
Proof. done. Qed.
Lemma reads_bind {A B} (m : C A) (k : A → C B) : reads m → (∀ a, reads (k a)) → reads (m ≫= k).
Proof. apply keeps_bind. Qed.
Lemma reads_ebind {A B} (m : C (result A)) (k : A → C (result B)) : reads m → (∀ a, reads (k a)) → reads (ebind m k).
Proof. apply keeps_ebind. Qed.
Lemma reads_on_err {A B} (m : C (result A)) (f : bytes → B) (k : A → C B) : reads m → (∀ a, reads (k a)) → reads (on_err m f k).
Proof. apply keeps_on_err. Qed.
Lemma reads_prim {A} O (f : nat → cworld → A * cworld) : (∀ t w, kept_part (f t w).2 = kept_part w) → reads (prim O f).
Proof. by apply keeps_prim. Qed.
Lemma reads_query {A} O (q : store → result A) : reads (query O q).
Proof. by apply keeps_query. Qed.
Lemma reads_status O id : reads (BGetStatus O id).
Proof. apply reads_prim. intros t w. destruct (statusAt O t id) as [st|e|e]; [|done|done]. by destruct (bst_Phase st). Qed.
Lemma reads_logs O logsAt id tail : reads (BLogs O logsAt id tail).
Proof. by apply reads_prim. Qed.
Lemma reads_now O : reads (Now O).
Proof. done. Qed.
Create HintDb reads.
#[export] Hint Resolve reads_ret reads_bind reads_ebind reads_on_err reads_query reads_status reads_logs reads_now : reads.
Ltac reads := repeat first [progress intros | apply reads_ebind | apply reads_on_err | apply reads_bind | progress case_decide | case_match | solve [eauto with reads] | done].

Lemma probe_reads O e r : reads (probe O e r).
Proof. unfold probe. reads. Qed.
Lemma probes_reads O expired i rs : reads (probes O expired i rs).
Proof. revert i. induction rs as [|r rs IH]; intros i; cbn [probes]; [done|]. apply reads_bind; [apply probe_reads|]. intros t. apply reads_bind; [apply IH|done]. Qed.

(** A query answers from the store. *)
Lemma query_answer {A} O (q : store → result A) w r w' : query O q w = (Some r, w') →
  cw_store w' = cw_store w ∧ ∀ a, r = Ok a → q (cw_store w) = Ok a.
Proof.
  unfold query, prim. destruct (crashAt O (cw_tick w)); [done|]. destruct (storeFault O (cw_tick w)); intros [= <- <-]; split; done.
Qed.

Lemma GetJob_id s id j : GetJob s id = Ok j → jb_ID j = id ∧ j ∈ st_jobs s.
Proof.
  unfold GetJob, get_job. destruct (head _) as [x|] eqn:E; [|done]. intros [= <-]. apply head_Some_elem_of in E. by apply list_elem_of_filter in E.
Qed.

Lemma probe_job O e r w x w' : probe O e r w = (Some (Some x), w') → target_job x = rn_JobID r.
Proof.
  unfold probe. case_decide; [done|]. destruct e; [done|]. unfold on_err at 1, mbind, C_bind at 1.
  destruct (query O (λ s, GetJob s (rn_JobID r)) w) as [[a|] w1] eqn:Eq; [|done]. apply query_answer in Eq as [_ Hq].
  destruct a as [j|e|e]; [|done|done]. destruct (GetJob_id _ _ _ (Hq _ eq_refl)) as [<- _]. unfold on_err, mbind, C_bind.
  destruct (BGetStatus O (rn_ContainerID r) w1) as [[[st|e|e]|] w2]; [|done|done|done]. case_decide; [done|].
  destruct (bst_Phase st); intros [= <- _] || done; reflexivity.
Qed.

(** The targets belong to different active runs. *)
Lemma probes_jobs O expired i rs w ts w' : probes O expired i rs w = (Some ts, w') → target_job <$> ts `sublist_of` rn_JobID <$> rs.
Proof.
  revert i w ts w'. induction rs as [|r rs IH]; intros i w ts w'; cbn [probes]; [by intros [= <- _]|]. unfold mbind, C_bind.
  destruct (probe O (expired i) r w) as [[t|] w1] eqn:Ep; [|done]. destruct (probes O expired (S i) rs w1) as [[ts'|] w2] eqn:Eps; [|done].
  intros [= <- _]. apply IH in Eps. rewrite fmap_app, fmap_cons. destruct t as [x|]; cbn; [|by constructor].
  rewrite (probe_job _ _ _ _ _ _ Ep). by constructor.
Qed.

(** A job's series depends on the targets of that job only. *)
Lemma sample_one_max fetch h t : h_max (sample_one fetch h t) = h_max h.
Proof. unfold sample_one. destruct (_ || _); [done|]. by destruct (fetch _). Qed.
Lemma sample_all_max fetch h ts : h_max (sample_all fetch h ts) = h_max h.
Proof. revert h. induction ts as [|t ts IH]; intros h; [done|]. cbn. unfold sample_all in IH. by rewrite IH, sample_one_max. Qed.
Lemma sample_one_other fetch h t j : target_job t ≠ j → h_series (sample_one fetch h t) !! j = h_series h !! j.
Proof. intros Hj. unfold sample_one. destruct (_ || _); [done|]. destruct (fetch _); [|done|done]. cbn. by rewrite lookup_insert_ne. Qed.
Lemma sample_one_agree fetch h h' t : h_max h = h_max h' → h_series h !! target_job t = h_series h' !! target_job t →
  h_series (sample_one fetch h t) !! target_job t = h_series (sample_one fetch h' t) !! target_job t.
Proof.
  intros Hm Hs. unfold sample_one. destruct (_ || _); [done|]. destruct (fetch _) as [s|e|e]; [|done|done].
  unfold history_Add, series_of. cbn. rewrite Hm, Hs. by rewrite !lookup_insert_eq.
Qed.
Lemma sample_all_lookup fetch ts j : ∀ h h', h_max h = h_max h' → h_series h !! j = h_series h' !! j →
  h_series (sample_all fetch h ts) !! j = h_series (sample_all fetch h' (filter (λ t, target_job t = j) ts)) !! j.
Proof.
  induction ts as [|t ts IH]; intros h h' Hm Hs; [done|]. rewrite filter_cons. cbn. case_decide as Hj.
  - cbn. apply IH; [by rewrite !sample_one_max|]. subst j. by apply sample_one_agree.
  - apply IH; [by rewrite sample_one_max|]. by rewrite sample_one_other.
Qed.

Lemma filter_one ts j : NoDup (target_job <$> ts) →
  filter (λ t, target_job t = j) ts = [] ∨ ∃ t, t ∈ ts ∧ filter (λ t, target_job t = j) ts = [t].
Proof.
  induction ts as [|t ts IH]; [by left|]. rewrite fmap_cons, filter_cons. intros [Hn Hd]%NoDup_cons. case_decide as Hj; [|destruct IH as [?|(x & ? & ?)]; [done|by left|]].
  - right. exists t. split; [by left|]. f_equal. apply elem_of_nil_inv. intros x [Hx Hin]%list_elem_of_filter. destruct Hn. rewrite Hj, <- Hx. by apply list_elem_of_fmap_2.
  - right. exists x. split; [by right|done].
Qed.

Lemma sample_all_perm fetch h ts ts' : NoDup (target_job <$> ts) → ts' ≡ₚ ts → sample_all fetch h ts' = sample_all fetch h ts.
Proof.
  intros Hd Hp. assert (h_series (sample_all fetch h ts') = h_series (sample_all fetch h ts)) as Hs.
  { apply map_eq. intros j. rewrite (sample_all_lookup fetch ts' j h h), (sample_all_lookup fetch ts j h h) by done. do 3 f_equal.
    assert (filter (λ t, target_job t = j) ts' ≡ₚ filter (λ t, target_job t = j) ts) as Hf by (by rewrite Hp).
    destruct (filter_one ts j Hd) as [E|(t & _ & E)]; rewrite E in *.
    - by apply Permutation_nil_r in Hf.
    - by apply Permutation_singleton_r in Hf. }
  pose proof (sample_all_max fetch h ts) as H1. pose proof (sample_all_max fetch h ts') as H2.
  destruct (sample_all fetch h ts), (sample_all fetch h ts'). cbn in *. by subst.
Qed.

Lemma sample_all_series fetch h ts job : 0 < h_max h → NoDup (target_job <$> ts) →
  series_of (sample_all fetch h ts) job = series_of h job
  ∨ ∃ addr s, fetch addr = Ok s ∧ series_of (sample_all fetch h ts) job = newest (h_max h) (series_of h job ++ [s]).
Proof.
  intros Hm Hd. unfold series_of at 1 3. rewrite (sample_all_lookup fetch ts job h h) by done. destruct (filter_one ts job Hd) as [->|(t & Ht & E)]; [by left|].
  assert (target_job t = job) as Hj. { assert (t ∈ filter (λ t, target_job t = job) ts) as Hf by (rewrite E; by left). by apply list_elem_of_filter in Hf as [? _]. }
  rewrite E. cbn. unfold sample_one. destruct (_ || _); [by left|]. destruct (fetch (target_addr t)) as [s|e|e] eqn:Ef; [|by left|by left].
  right. exists (target_addr t), s. split; [done|]. change (series_of (history_Add h (target_job t) s) job = newest (h_max h) (series_of h job ++ [s])).
  rewrite history_Add_series by done. by rewrite decide_True.
Qed.

Lemma discovery_targets_distinct O expired late w ts w' : store_ok (cw_store w) →
  DiscoveryTargets O expired late w = (Some (Ok ts), w') → NoDup (target_job <$> ts).
Proof.
  intros Hok. unfold DiscoveryTargets, on_err, mbind, C_bind. destruct (query O _ w) as [[a|] w1] eqn:Eq; [|done].
  apply query_answer in Eq as [_ Hq]. destruct a as [rs|e|e]; [|done|done]. specialize (Hq rs eq_refl). injection Hq as <-.
  destruct (probes O expired 0 (ActiveRuns (cw_store w)) w1) as [[xs|] w2] eqn:Ep; [|done]. apply probes_jobs in Ep.
  destruct (late && _); [done|]. intros [= <- _]. rewrite merge_sort_Permutation. eapply sublist_NoDup; [|exact Ep]. unfold ActiveRuns.
  apply NoDup_fmap_2_strong; [|apply NoDup_filter, (NoDup_fmap_1 rn_ID), (so_runs _ Hok)].
  intros r r' [Ha Hr]%list_elem_of_filter [Ha' Hr']%list_elem_of_filter. by apply (so_one _ Hok).
Qed.

Lemma discovery_reads O expired late : reads (DiscoveryTargets O expired late).
Proof. unfold DiscoveryTargets. apply reads_on_err; [apply reads_query|]. intros rs. apply reads_bind; [apply probes_reads|]. intros ts. by destruct (late && _). Qed.

(** The order in which the goroutines of a sampling pass end makes no difference:
    the targets belong to different jobs, and every job gets at most one sample. *)
Theorem sampling_order_free O expired late fetch order order' h w :
  store_ok (cw_store w) → 0 < h_max h → (∀ ts, order ts ≡ₚ ts) → (∀ ts, order' ts ≡ₚ ts) →
  let res := sampleOnce O expired late fetch order h w in
  res = sampleOnce O expired late fetch order' h w
  ∧ cw_store res.2 = cw_store w
  ∧ ∀ h' job, res.1 = Some h' →
      series_of h' job = series_of h job ∨ ∃ addr s, fetch addr = Ok s ∧ series_of h' job = newest (h_max h) (series_of h job ++ [s]).
Proof.
  intros Hok Hm Ho Ho' res. subst res. split_and!.
  - unfold sampleOnce, on_err, mbind, C_bind. destruct (DiscoveryTargets O expired late w) as [[[ts|e|e]|] w'] eqn:E; [|done..].
    apply discovery_targets_distinct in E; [|done]. unfold ret, mret, C_ret. by rewrite (sample_all_perm fetch h ts (order ts)), (sample_all_perm fetch h ts (order' ts)).
  - assert (reads (sampleOnce O expired late fetch order h)) as Hr by (apply reads_on_err; [apply discovery_reads|done]). by injection (Hr w).
  - intros h' job. unfold sampleOnce, on_err, mbind, C_bind. destruct (DiscoveryTargets O expired late w) as [[[ts|e|e]|] w'] eqn:E;
      [|by intros [= <-]; left|by intros [= <-]; left|done].
    apply discovery_targets_distinct in E; [|done]. cbn. intros [= <-]. apply sample_all_series; [done|].
    by rewrite Ho.
Qed.

(** ** Examples *)

Definition demo_sample (i : nat) : Sample := mkSample (Z.of_nat i) (bs "running") (Z.of_nat i) 0 [] None 0 0 0 0 0 [].
Definition demo_history (n : nat) : History := foldl (λ h i, history_Add h (bs "j") (demo_sample i)) (NewHistory 0) (seq 0 n).

(** Thirty points of 32 samples end with the last but one sample. *)
Example series_misses_newest :
  Latest (demo_history 32) (bs "j") = Some (demo_sample 31)
  ∧ (s ← match Series (demo_history 32) (bs "j") 30 with Ok l => Some l | _ => None end; last s) = Some (demo_sample 30).
Proof. vm_compute. auto. Qed.

(** Every position of the thirty points of the job list is one of the series. *)
Example default_points_in_range :
  forallb (λ n, forallb (λ i, let k := point (Z.of_nat n) 30 (Z.of_nat i) in (0 <=? k) && (k <? Z.of_nat n)) (seq 0 30)) (seq 31 210) = true.
Proof. vm_compute. reflexivity. Qed.

Example prom_sample_reads :
  promSample ([x20] ++ bs "weibo_edge_queue_size{edge=edge-0} 42") = Some (bs "weibo_edge_queue_size", 42)
  ∧ promSample (bs "# HELP x") = None ∧ promSample (bs "weibo_stage_errors_total 3.0") = Some (bs "weibo_stage_errors_total", 3).
Proof. vm_compute. auto. Qed.

Example restart_rounds :
  rst_InSeconds <$> restart_status 0 (mkRun [] [] [] 0 Restarting 1 [] NoFailure 0 None (Some 1499999999)) = Some 1
  ∧ rst_InSeconds <$> restart_status 9 (mkRun [] [] [] 0 Restarting 1 [] NoFailure 0 None (Some 1)) = Some 0.
Proof. vm_compute. auto. Qed.

(** Two jobs with a live container each; the addresses are the container names. *)
Definition live_run (id job cid : bytes) : Run := mkRun id job cid 0 PhaseRunning 1 [] NoFailure 0 None None.
Definition two_jobs : store :=
  mkStore [demo_job; mkJob (bs "k") (bs "wg") KindYAML [] [] ∅ [] [] DesiredRunning 0 0]
    [live_run (bs "a") (bs "j") (bs "c2"); live_run (bs "b") (bs "k") (bs "c1")] [] 1.
Lemma two_jobs_ok : store_ok two_jobs.
Proof.
  apply reachable_store_ok. eapply rtc_l; [by apply (stmt_createJob _ _ demo_job)|].
  eapply rtc_l; [by apply (stmt_createJob _ _ (mkJob (bs "k") (bs "wg") KindYAML [] [] ∅ [] [] DesiredRunning 0 0))|].
  eapply rtc_l; [by apply (stmt_insertRun _ _ (live_run (bs "a") (bs "j") (bs "c2")))|].
  eapply rtc_l; [by apply (stmt_insertRun _ _ (live_run (bs "b") (bs "k") (bs "c1")))|]. apply rtc_refl.
Qed.
Definition probe_oracle : oracle := mkOracle (λ _, false) (λ _, None) Z.of_nat (λ _, []) (λ _ _, inl []) (λ _ _, None) (λ _ _, None)
  (λ _ c, Ok (mkBStatus BRunning 0 false [] 0 c)) (λ _ _, Ok []) (λ _ _, None) (λ _ _, Err []).

Lemma sampling_order_free_witness :
  let go order := sampleOnce probe_oracle (λ _, false) false (λ _, Ok (demo_sample 5)) order (NewHistory 10) (mkWorld two_jobs ∅ ∅ 0) in
  go (λ ts, ts) = go reverse ∧ (default 0%nat ((λ h, size (h_series h)) <$> (go reverse).1) = 2)%nat.
Proof.
  split; [|vm_compute; reflexivity].
  apply (sampling_order_free probe_oracle (λ _, false) false (λ _, Ok (demo_sample 5)) (λ ts, ts) reverse (NewHistory 10) (mkWorld two_jobs ∅ ∅ 0));
    [exact two_jobs_ok|reflexivity|reflexivity|intros ts; apply reverse_Permutation].
Defined.
