(* ===== verification/Api.v ===== *)
(** * The HTTP API of the control plane ([src/control/api/api.go])

    Tokens and roles, the limit on mutations, the routes and every handler, and the
    chain authentication, audit, limit, metrics, routing in front of them.

    A request is served in one step on the state of the server: the world of the
    controller, the metrics history, the limiter and the audit log.  The digest,
    JSON, the agents' HTTP answers and the backend's logs and capacity are
    parameters. *)

From S2P Require Import Prelude Decimal Rfc3339 Lifecycle JobStore Controller Fencing Backend History.
From Stdlib Require Import Strings.Byte.

(** ** Requests and answers *)

(** The body is what can be read, and the error reading ends with, if any. *)
Record api_request := mkReq {
  q_Method : bytes; q_Path : bytes; q_Query : list (bytes * bytes); q_Authorization : bytes; q_ContentType : bytes;
  q_Body : bytes * option bytes; q_RemoteAddr : bytes
}.
(** [r.URL.Query().Get] *)
Definition query_get (r : api_request) (k : bytes) : bytes := default [] (snd <$> head (filter (λ x, x.1 = k) (q_Query r))).

(** The body of an answer. *)
Inductive answer :=
| AError (msg : bytes)
| AFields (fs : list (bytes * bytes))
| AJob (j : Job)
| AWarning (j : Job) (warning : bytes)
| AJobs (js : list (Job * bytes))
| ADetail (j : Job) (run : option Run) (ts : list Transition)
| ARuns (rs : list Run)
| ARun (d : RunDetail)
| ADiagnostics (d : Diagnostics)
| APage (ts : list Transition) (nextBefore : Z)
| ATargets (ts : list DiscoveryTarget)
| AHistory (job : bytes) (points : list Sample)
| AHistories (hs : list (bytes * list Sample))
| AValid (name delivery graph : bytes)
| ACluster (c : CapacitySnapshot)
| AText (text : bytes)
| AForward (contentType body : bytes)
| AEvents (sent : bytes)
| AStatic.
Record reply := mkReply { rp_Status : Z; rp_Body : answer }.
Definition writeErr (status : Z) (msg : bytes) : reply := mkReply status (AError msg).

(** ** Roles and tokens *)

Inductive Role := RoleReadOnly | RoleReadWrite.
#[export] Instance Role_eq_dec : EqDecision Role.
Proof. solve_decision. Defined.
Definition role_text (r : Role) : bytes := match r with RoleReadOnly => bs "readonly" | RoleReadWrite => bs "readwrite" end.

(** [AuthConfig] *)
Record AuthConfig := mkAuth { au_Token : bytes; au_TokenSHA256 : list bytes }.

(** [normalizeTokenHashes] *)
Definition normalizeTokenHashes (parts : list bytes) : list bytes :=
  filter (λ item, item ≠ []) (parts ≫= λ part, trim_space <$> strings_Split x2c part).

(** [hex.EncodeToString], and whether a text is one. *)
Definition hex_digit (z : Z) : byte := byte_of_Z (if z <? 10 then 48 + z else 87 + z).
Definition hex_encode (s : bytes) : bytes := s ≫= λ b, [hex_digit (Z_of_byte b / 16); hex_digit (Z_of_byte b mod 16)].
Definition is_hex (b : byte) : bool := let z := Z_of_byte b in ((48 <=? z) && (z <=? 57)) || ((97 <=? z) && (z <=? 102)).

(** [strings.Cut] at a byte. *)
Fixpoint cut (c : byte) (s : bytes) : option (bytes * bytes) :=
  match s with
  | [] => None
  | b :: s => if decide (b = c) then Some ([], s) else (λ x, (b :: x.1, x.2)) <$> cut c s
  end.

(** [parseTokenHash] *)
Definition parseTokenHash (raw : bytes) : option (Role * bytes) :=
  let body := trim_space raw in
  x ← match cut x3a body with
      | Some (before, after) =>
          let name := to_lower (trim_space before) in
          if decide (name = bs "readonly") then Some (RoleReadOnly, trim_space after)
          else if decide (name = bs "readwrite") then Some (RoleReadWrite, trim_space after)
          else None
      | None => Some (RoleReadWrite, body)
      end;
  let body := to_lower x.2 in
  if bool_decide (length body = 64%nat) && forallb is_hex body then Some (x.1, body) else None.

Section auth.
Context (Sum256 : bytes → bytes).

(** [authConfigured], [authenticate]; the hashes are tried in order. *)
Definition authConfigured (c : AuthConfig) : bool := negb (bool_decide (au_Token c = [])) || negb (bool_decide (au_TokenSHA256 c = [])).
Fixpoint match_hash (got : bytes) (raws : list bytes) : option Role :=
  match raws with
  | [] => None
  | raw :: raws => match parseTokenHash raw with
                   | Some (role, want) => if decide (got = want) then Some role else match_hash got raws
                   | None => match_hash got raws
                   end
  end.
Definition authenticate (c : AuthConfig) (header : bytes) : option Role :=
  if has_prefix (bs "Bearer ") header then
    let token := drop 7 header in
    if decide (token = []) then None
    else if decide (au_Token c ≠ [] ∧ token = au_Token c) then Some RoleReadWrite
    else match_hash (hex_encode (Sum256 token)) (au_TokenSHA256 c)
  else None.
End auth.

(** [NewServerWithAuth] *)
Definition server_auth (c : AuthConfig) : AuthConfig := mkAuth (au_Token c) (normalizeTokenHashes (au_TokenSHA256 c)).

(** [publicRoute], [mutationRoute] *)
Definition publicRoute (r : api_request) : bool :=
  bool_decide (q_Method r = bs "GET") && bool_decide (q_Path r ∈ [bs "/"; bs "/healthz"; bs "/livez"; bs "/readyz"; bs "/metrics"]).
Definition mutationRoute (r : api_request) : bool :=
  bool_decide (q_Method r ∈ [bs "POST"; bs "DELETE"; bs "PUT"; bs "PATCH"])
  && negb (bool_decide (q_Path r = bs "/auth")) && negb (bool_decide (q_Path r = bs "/validate")).

(** ** The limiter *)

Notation hits := (gmap bytes (list time)).
(** [mutationLimiter.Allow] *)
Definition Allow (limit : Z) (window : duration) (now : time) (key : bytes) (h : hits) : bool * hits :=
  let cutoff := Add now (- window) in
  let keep := filter (λ ts, After ts cutoff = true) (default [] (h !! key)) in
  if limit <=? Z.of_nat (length keep) then (false, <[key := keep]> h) else (true, <[key := keep ++ [now]]> h).
Definition mutation_limit : Z := 30.
Definition mutation_window : duration := 60 * 1000000000.

(** [net.SplitHostPort] (the host), [clientIP] *)
Fixpoint last_index (c : byte) (s : bytes) : option nat :=
  match s with
  | [] => None
  | b :: s => match last_index c s with Some i => Some (S i) | None => if decide (b = c) then Some 0%nat else None end
  end.
Definition SplitHost (s : bytes) : option bytes :=
  i ← last_index x3a s;
  match s with
  | x5b :: rest =>
      inside ← cut x5d rest;
      let e := S (length inside.1) in
      if bool_decide (S e = i) && negb (bool_decide (x5b ∈ rest)) && negb (bool_decide (x5d ∈ drop (S e) s)) then Some inside.1 else None
  | _ =>
      let host := take i s in
      if bool_decide (x3a ∈ host) || bool_decide (x5b ∈ s) || bool_decide (x5d ∈ s) then None else Some host
  end.
Definition clientIP (r : api_request) : bytes :=
  match SplitHost (q_RemoteAddr r) with
  | Some host => host
  | None => if decide (q_RemoteAddr r = []) then bs "unknown" else q_RemoteAddr r
  end.

(** ** Routes *)

Inductive route :=
| RtIndex | RtLogo | RtHealth | RtLive | RtReady | RtMetrics | RtTargets | RtAuth | RtCluster | RtValidate
| RtSubmit | RtList | RtGet (id : bytes) | RtDelete (id : bytes) | RtCancel (id : bytes) | RtRestart (id : bytes) | RtSavepoint (id : bytes)
| RtLogs (id : bytes) | RtProxy (path id : bytes) | RtHistory (id : bytes) | RtBulkHistory | RtConfig | RtDiagnostics (id : bytes)
| RtRuns (id : bytes) | RtRunDetail (id run : bytes) | RtRunLogs (id run : bytes) | RtTransitions (id : bytes) | RtLogsStream (id : bytes).

(** The handlers of a path by method, the more specific pattern first; a wildcard
    is a segment that is not empty. *)
Definition one_job (id : bytes) (verb : bytes) : list (bytes * route) :=
  let get := bs "GET" in
  let post := bs "POST" in
  if decide (verb = bs "cancel") then [(post, RtCancel id)]
  else if decide (verb = bs "restart") then [(post, RtRestart id)]
  else if decide (verb = bs "savepoint") then [(post, RtSavepoint id)]
  else if decide (verb = bs "logs") then [(get, RtLogs id)]
  else if decide (verb ∈ [bs "state"; bs "metrics"; bs "describe"; bs "plan"]) then [(get, RtProxy (x2f :: verb) id)]
  else if decide (verb = bs "history") then [(get, RtHistory id)]
  else if decide (verb = bs "diagnostics") then [(get, RtDiagnostics id)]
  else if decide (verb = bs "runs") then [(get, RtRuns id)]
  else if decide (verb = bs "transitions") then [(get, RtTransitions id)]
  else [].
Definition top_level (name : bytes) : list (bytes * route) :=
  let get := bs "GET" in
  let post := bs "POST" in
  if decide (name = []) then [(get, RtIndex)]
  else if decide (name = bs "logo.png") then [(get, RtLogo)]
  else if decide (name = bs "healthz") then [(get, RtHealth)]
  else if decide (name = bs "livez") then [(get, RtLive)]
  else if decide (name = bs "readyz") then [(get, RtReady)]
  else if decide (name = bs "metrics") then [(get, RtMetrics)]
  else if decide (name = bs "targets") then [(get, RtTargets)]
  else if decide (name = bs "auth") then [(post, RtAuth)]
  else if decide (name = bs "cluster") then [(get, RtCluster)]
  else if decide (name = bs "validate") then [(post, RtValidate)]
  else if decide (name = bs "jobs") then [(post, RtSubmit); (get, RtList)]
  else if decide (name = bs "config") then [(get, RtConfig)]
  else [].
Definition handlers (segs : list bytes) : list (bytes * route) :=
  match segs with
  | [name] => top_level name
  | jobs :: id :: rest =>
      if decide (jobs = bs "jobs" ∧ id ≠ []) then
        match rest with
        | [] => (if decide (id = bs "history") then [(bs "GET", RtBulkHistory)] else []) ++ [(bs "GET", RtGet id); (bs "DELETE", RtDelete id)]
        | [verb] => one_job id verb
        | [runs; run] =>
            if decide (runs = bs "runs" ∧ run ≠ []) then [(bs "GET", RtRunDetail id run)]
            else if decide (runs = bs "logs" ∧ run = bs "stream") then [(bs "GET", RtLogsStream id)]
            else []
        | [runs; run; logs] => if decide (runs = bs "runs" ∧ run ≠ [] ∧ logs = bs "logs") then [(bs "GET", RtRunLogs id run)] else []
        | _ => []
        end
      else []
  | _ => []
  end.

(** [http.ServeMux]: a path that is not clean is redirected; a pattern for GET also
    takes HEAD; a path known for other methods only is 405. *)
Inductive muxed := Found (rt : route) | NotFound | NotAllowed | Moved.
Definition clean_segs (segs : list bytes) : bool :=
  forallb (λ s, negb (bool_decide (s ∈ [bs "."; bs ".."]))) segs && negb (bool_decide ([] ∈ take (length segs - 1) segs)).
Definition method_matches (method : bytes) (m : bytes) : bool :=
  bool_decide (m = method) || (bool_decide (method = bs "HEAD") && bool_decide (m = bs "GET")).
Definition mux (method path : bytes) : muxed :=
  match strings_Split x2f path with
  | [] :: segs =>
      if negb (clean_segs segs) then Moved
      else match handlers segs with
           | [] => NotFound
           | hs => match head (filter (λ h, method_matches method h.1 = true) hs) with Some (_, rt) => Found rt | None => NotAllowed end
           end
  | _ => NotFound
  end.

(** The routes whose handlers change the state of jobs. *)
Definition mutates (rt : route) : bool :=
  match rt with RtSubmit | RtDelete _ | RtCancel _ | RtRestart _ | RtSavepoint _ => true | _ => false end.

(** ** Reading a request *)

(** [readLimited], [statusForError] *)
Inductive body_error := TooLarge | BodyError (e : bytes).
Definition readLimited (max : Z) (body : bytes * option bytes) : bytes + body_error :=
  if max <? Z.of_nat (length body.1) then inr TooLarge
  else match body.2 with Some e => inr (BodyError e) | None => inl body.1 end.
Definition statusForError (e : body_error) : Z := match e with TooLarge => 413 | BodyError _ => 400 end.
Definition error_text (e : body_error) : bytes := match e with TooLarge => bs "body too large" | BodyError e => e end.
Definition body_reply (prefix : bytes) (e : body_error) : reply := writeErr (statusForError e) (prefix ++ error_text e).
Definition maxWorkflowBody : Z := 4 * 2 ^ 20.
Definition maxSavepointBody : Z := 2 ^ 16.

(** [isJSON], [logTail], [historyPoints] *)
Definition isJSON (r : api_request) : bool := bytes_contains (to_lower (q_ContentType r)) (bs "application/json").
Definition maxLogTail : Z := 5000.
Definition logTail (r : api_request) : Z :=
  let t := query_get r (bs "tail") in
  let tail := if decide (t = []) then 200 else default 200 (ParseInt t) in
  if tail <? 0 then 0 else if maxLogTail <? tail then maxLogTail else tail.
Definition historyPoints (r : api_request) (def : Z) : Z :=
  let q := query_get r (bs "points") in
  if decide (q = []) then def else match ParseInt q with Some n => if 0 <=? n then n else def | None => def end.

Section bodies.
(** The JSON of the two bodies: the fields [workflow], [env] and [envRefs], and
    [label] and [savepoint]. *)
Context (decode_submit : bytes → result (bytes * gmap bytes bytes * gmap bytes SecretRef)) (decode_label : bytes → result (bytes * bytes)).

(** [readWorkflow] *)
Definition readWorkflow (r : api_request) : (bytes * gmap bytes bytes * gmap bytes SecretRef) + reply :=
  match readLimited maxWorkflowBody (q_Body r) with
  | inr e => inr (body_reply (bs "read body: ") e)
  | inl body =>
      if isJSON r then match decode_submit body with
                       | Ok x => inl x
                       | Err e | Panic e => inr (writeErr 400 (bs "invalid JSON: " ++ e))
                       end
      else inl (body, ∅, ∅)
  end.

(** [savepointLabel] *)
Definition savepointLabel (r : api_request) : bytes + reply :=
  let l := query_get r (bs "label") in
  if decide (l ≠ []) then inl l
  else match readLimited maxSavepointBody (q_Body r) with
       | inr e => inr (body_reply [] e)
       | inl [] => inl []
       | inl body => match decode_label body with
                     | Ok (label, savepoint) => inl (if decide (label ≠ []) then label else savepoint)
                     | Err e | Panic e => inr (writeErr 400 e)
                     end
       end.
End bodies.

(** ** Following a log *)

(** [send] *)
Definition event (text : bytes) : bytes :=
  let text := if 65536 <? Z.of_nat (length text) then bs "[…truncated…]" ++ [x0a] ++ drop (length text - Z.to_nat 65536) text else text in
  (strings_Split x0a text ≫= λ line, bs "data: " ++ line ++ [x0a]) ++ [x0a].
(** [singleLine] *)
Definition singleLine (s : bytes) : bytes := before_byte x0a s.

(** What one tick sends: new output, the window again, or a heartbeat. *)
Inductive tick := TDelta (text : bytes) | TWindow (text : bytes) | TPing.
Definition stream_tick (last cur : bytes) : tick :=
  if (length last <? length cur)%nat && has_prefix last cur then TDelta (drop (length last) cur)
  else if (length cur =? length last)%nat then TPing
  else TWindow cur.
Definition tick_bytes (t : tick) : bytes :=
  match t with TDelta text | TWindow text => event text | TPing => bs ": ping" ++ [x0a; x0a] end.

(** ** The handlers *)

(** [Store.ListJobs]: newest first by the stored text. *)
Definition created_desc (j1 j2 : Job) : Prop := ¬ bytes_lt (formatRFC3339Nano (jb_Created j1)) (formatRFC3339Nano (jb_Created j2)).
#[export] Instance created_desc_dec : RelDecision created_desc.
Proof. intros j1 j2. unfold created_desc. apply _. Defined.
Definition ListJobs (s : store) : list Job := merge_sort created_desc (st_jobs s).

Section handlers.
Context (O : oracle) (ct : Ctl) (unmarshal : bytes → option sdkManifest) (parseQuantity : bytes → option bytes).
Context (compile : bytes → gmap bytes bytes → result (bytes * bytes * bytes)).
Context (decode_submit : bytes → result (bytes * gmap bytes bytes * gmap bytes SecretRef)) (decode_label : bytes → result (bytes * bytes)).
(** The backend's logs and capacity, the answers of the agents, the deadline of a
    discovery, and how long a client follows a log. *)
Context (logsAt : nat → bytes → Z → result bytes) (capacity : nat → result CapacitySnapshot).
Context (agentGet : nat → bytes → bytes → result (Z * bytes * bytes)) (agentSavepoint : bytes → bytes → result Z).
Context (expired : nat → bool) (late : bool) (ticks : api_request → nat) (grafanaURL : bytes).

Definition found {A} (m : C (result A)) (status : Z) (k : A → C reply) : C reply := on_err m (writeErr status) k.
Definition api_GetJob (id : bytes) : C (result Job) := query O (λ s, GetJob s id).

(** [Controller.Cluster], [Controller.Ready] *)
Definition Cluster : C (result CapacitySnapshot) := prim O (λ t w, (capacity t, w)).
Definition Ready : C (result unit) :=
  on_err (query O (λ s, Ok (ListJobs s))) (λ e, Err (bs "store: " ++ e)) (λ _,
  on_err Cluster (λ e, Err (bs "backend: " ++ e)) (λ snap,
  if decide (cap_Health snap = bs "unreachable") then
    fail (if decide (cap_Reason snap = []) then bs "backend unreachable" else bs "backend unreachable: " ++ cap_Reason snap)
  else ok ())).

(** [readyz], [cluster], [targets] *)
Definition api_readyz : C reply :=
  on_err Ready (λ e, mkReply 503 (AFields [(bs "status", bs "not_ready"); (bs "reason", e)])) (λ _,
  ret (mkReply 200 (AFields [(bs "status", bs "ready")]))).
Definition api_cluster : C reply := found Cluster 500 (λ snap, ret (mkReply 200 (ACluster snap))).
Definition api_targets : C reply := found (DiscoveryTargets O expired late) 500 (λ ts, ret (mkReply 200 (ATargets ts))).

(** [history], [bulkHistory] *)
Definition api_history (h : History) (id : bytes) (r : api_request) : C reply :=
  found (api_GetJob id) 404 (λ _,
  match Series h id (historyPoints r 120) with
  | Ok points => ret (mkReply 200 (AHistory id points))
  | Err e | Panic e => ret (writeErr 500 e)
  end).
Definition series_points (s : result (list Sample)) : list Sample := match s with Ok l => l | _ => [] end.
Definition api_bulkHistory (h : History) (r : api_request) : C reply :=
  ret (mkReply 200 (AHistories ((λ id, (id, series_points (Series h id (historyPoints r 30)))) <$> JobsWithHistory h))).

(** [diagnostics], [runs], [runDetail], [runLogs] *)
Definition api_diagnostics (h : History) (id : bytes) : C reply := found (job_diagnostics O h id) 404 (λ d, ret (mkReply 200 (ADiagnostics d))).
Definition api_runs (id : bytes) : C reply :=
  found (api_GetJob id) 404 (λ _, found (query O (λ s, Ok (ListRuns s id))) 500 (λ rs, ret (mkReply 200 (ARuns rs)))).
Definition api_runDetail (id run : bytes) : C reply := found (run_detail O id run) 404 (λ d, ret (mkReply 200 (ARun d))).
Definition api_runLogs (id run : bytes) (r : api_request) : C reply :=
  x ← RunLogs O logsAt id run (logTail r);
  ret (match x with (_, Ok out) => mkReply 200 (AText out) | (status, Err e) | (status, Panic e) => writeErr status e end).

(** [transitions] *)
Definition api_transitions (id : bytes) (r : api_request) : C reply :=
  found (api_GetJob id) 404 (λ _,
  let pos q def := match ParseInt q with Some n => if 0 <? n then n else def | None => def end in
  let before := pos (query_get r (bs "before")) 0 in
  let limit := pos (query_get r (bs "limit")) 50 in
  found (query O (λ s, Ok (ListTransitionsPaged s id before limit))) 500 (λ ts,
  ret (mkReply 200 (APage ts (default 0 (tn_ID <$> last ts)))))).

(** [logsStream] *)
Fixpoint follow (n : nat) (id last : bytes) : C bytes :=
  match n with
  | 0%nat => ret []
  | S n =>
      cur ← Logs O logsAt id maxLogTail;
      match cur with
      | Ok cur => rest ← follow n id cur; ret (tick_bytes (stream_tick last cur) ++ rest)
      | Err e | Panic e => rest ← follow n id last; ret (bs ": backend error: " ++ singleLine e ++ [x0a; x0a] ++ rest)
      end
  end.
Definition api_logsStream (id : bytes) (r : api_request) : C reply :=
  run ← query O (λ s, Ok (LatestRun s id));
  match run with
  | Ok (Some run) =>
      if decide (rn_ContainerID run = []) then ret (writeErr 404 (bs "no container recorded for job"))
      else if Terminal (rn_Phase run) then ret (writeErr 409 (bs "job is terminal; nothing to follow"))
      else
        first ← Logs O logsAt id (logTail r);
        match first with
        | Ok last => rest ← follow (ticks r) id last; ret (mkReply 200 (AEvents (event last ++ rest)))
        | Err e | Panic e => ret (mkReply 200 (AEvents (event (bs "log stream unavailable: " ++ e))))
        end
  | _ => ret (writeErr 404 (bs "no container recorded for job"))
  end.

(** [validate], [submit] *)
Definition api_validate (r : api_request) : C reply :=
  match readWorkflow decode_submit r with
  | inr e => ret e
  | inl (doc, env, _) =>
      if decide (doc = []) then ret (writeErr 400 (bs "empty workflow"))
      else match compile doc env with
           | Ok (name, delivery, graph) => ret (mkReply 200 (AValid name delivery graph))
           | Err e | Panic e => ret (writeErr 400 e)
           end
  end.
Definition submit_reply (res : job_err) : reply :=
  match res with
  | (Some job, None) => mkReply 201 (AJob job)
  | (Some job, Some e) => mkReply 202 (AWarning job e)
  | (None, e) => writeErr 400 (default [] e)
  end.
Definition api_submit (r : api_request) : C reply :=
  match readWorkflow decode_submit r with
  | inr e => ret e
  | inl (doc, env, refs) =>
      if decide (doc = []) then ret (writeErr 400 (bs "empty workflow"))
      else res ← SubmitWithSecretRefs O ct unmarshal parseQuantity compile doc env refs; ret (submit_reply res)
  end.

(** [list], [get] *)
Definition latest_phase (run : result (option Run)) : bytes := match run with Ok (Some r) => phase_text (rn_Phase r) | _ => bs "—" end.
Fixpoint list_phases (jobs : list Job) : C (list (Job * bytes)) :=
  match jobs with
  | [] => ret []
  | j :: jobs => run ← query O (λ s, Ok (LatestRun s (jb_ID j))); rest ← list_phases jobs; ret ((j, latest_phase run) :: rest)
  end.
Definition api_list : C reply :=
  found (query O (λ s, Ok (ListJobs s))) 500 (λ jobs, items ← list_phases jobs; ret (mkReply 200 (AJobs items))).
Definition api_get (id : bytes) : C reply :=
  found (api_GetJob id) 404 (λ j,
  run ← query O (λ s, Ok (LatestRun s id));
  ts ← query O (λ s, Ok (ListTransitions s id));
  ret (mkReply 200 (ADetail j (match run with Ok r => r | _ => None end) (match ts with Ok l => l | _ => [] end)))).

(** [delete]: with the job its series goes. *)
Definition api_delete (h : History) (id : bytes) (r : api_request) : C (reply * History) :=
  on_err (DeleteWithOptions O id (bool_decide (query_get r (bs "deleteData") = bs "true"))) (λ e, (writeErr 404 e, h)) (λ _,
  ret (mkReply 202 (AFields [(bs "status", bs "deleted")]), history_Drop h id)).

(** [cancel], [restart], [savepoint] *)
Definition api_cancel (id : bytes) : C reply := found (Cancel O ct id) 404 (λ _, ret (mkReply 202 (AFields [(bs "status", bs "cancelling")]))).
Definition restart_reply (res : job_err) : reply :=
  match res with
  | (Some job, None) => mkReply 202 (AJob job)
  | (Some _, Some e) => writeErr 500 e
  | (None, e) => writeErr 404 (default [] e)
  end.
Definition api_restart (id : bytes) (r : api_request) : C reply :=
  match savepointLabel decode_label r with
  | inr e => ret e
  | inl label =>
      res ← (if decide (label ≠ []) then RestartFromSavepoint O ct unmarshal id label else Restart O ct unmarshal id);
      ret (restart_reply res)
  end.
Definition api_savepoint (id : bytes) (r : api_request) : C reply :=
  match savepointLabel decode_label r with
  | inr e => ret e
  | inl label =>
      if decide (label = []) then ret (writeErr 400 (bs "missing savepoint label (?label= or {" ++ [x22] ++ bs "label" ++ [x22] ++ bs ":...})"))
      else found (Savepoint O agentSavepoint id label) 409 (λ _,
           ret (mkReply 202 (AFields [(bs "savepoint", label); (bs "status", bs "stopping")])))
  end.

(** [logs], [proxy] *)
Definition api_logs (id : bytes) (r : api_request) : C reply := found (Logs O logsAt id (logTail r)) 500 (λ out, ret (mkReply 200 (AText out))).
Definition api_proxy (path id : bytes) : C reply :=
  found (api_GetJob id) 404 (λ _,
  found (ControlAddress O id) 404 (λ addr,
  if decide (addr = []) then ret (writeErr 503 (bs "job has no running control surface"))
  else
    resp ← prim O (λ t w, (agentGet t addr path, w));
    ret (match resp with
         | Ok (status, ctype, body) => mkReply status (AForward ctype body)
         | Err e | Panic e => writeErr 502 (bs "control surface unreachable: " ++ e)
         end))).

(** [authCheck]: the role of the request; [None] when the API is open. *)
Definition api_authCheck (configured : bool) (role : option Role) : C reply :=
  let text := if configured then default (bs "unknown") (role_text <$> role) else bs "open" in
  ret (mkReply 200 (AFields [(bs "status", bs "ok"); (bs "role", text)])).

(** The handler of a route. *)
Definition handle (configured : bool) (role : option Role) (h : History) (rt : route) (r : api_request) : C (reply * History) :=
  let keep (m : C reply) : C (reply * History) := rep ← m; ret (rep, h) in
  match rt with
  | RtIndex | RtLogo | RtMetrics => keep (ret (mkReply 200 AStatic))
  | RtHealth | RtReady => keep api_readyz
  | RtLive => keep (ret (mkReply 200 (AFields [(bs "status", bs "ok")])))
  | RtTargets => keep api_targets
  | RtAuth => keep (api_authCheck configured role)
  | RtCluster => keep api_cluster
  | RtValidate => keep (api_validate r)
  | RtSubmit => keep (api_submit r)
  | RtList => keep api_list
  | RtGet id => keep (api_get id)
  | RtDelete id => api_delete h id r
  | RtCancel id => keep (api_cancel id)
  | RtRestart id => keep (api_restart id r)
  | RtSavepoint id => keep (api_savepoint id r)
  | RtLogs id => keep (api_logs id r)
  | RtProxy path id => keep (api_proxy path id)
  | RtHistory id => keep (api_history h id r)
  | RtBulkHistory => keep (api_bulkHistory h r)
  | RtConfig => keep (ret (mkReply 200 (AFields [(bs "grafanaUrl", grafanaURL)])))
  | RtDiagnostics id => keep (api_diagnostics h id)
  | RtRuns id => keep (api_runs id)
  | RtRunDetail id run => keep (api_runDetail id run)
  | RtRunLogs id run => keep (api_runLogs id run r)
  | RtTransitions id => keep (api_transitions id r)
  | RtLogsStream id => keep (api_logsStream id r)
  end.
End handlers.

(** ** The server *)

(** The template of a route and the job it names. *)
Definition route_text (rt : route) : bytes :=
  match rt with
  | RtIndex => bs "GET /{$}" | RtLogo => bs "GET /logo.png" | RtHealth => bs "GET /healthz" | RtLive => bs "GET /livez" | RtReady => bs "GET /readyz"
  | RtMetrics => bs "GET /metrics" | RtTargets => bs "GET /targets" | RtAuth => bs "POST /auth" | RtCluster => bs "GET /cluster"
  | RtValidate => bs "POST /validate" | RtSubmit => bs "POST /jobs" | RtList => bs "GET /jobs" | RtGet _ => bs "GET /jobs/{id}"
  | RtDelete _ => bs "DELETE /jobs/{id}" | RtCancel _ => bs "POST /jobs/{id}/cancel" | RtRestart _ => bs "POST /jobs/{id}/restart"
  | RtSavepoint _ => bs "POST /jobs/{id}/savepoint" | RtLogs _ => bs "GET /jobs/{id}/logs" | RtProxy path _ => bs "GET /jobs/{id}" ++ path
  | RtHistory _ => bs "GET /jobs/{id}/history" | RtBulkHistory => bs "GET /jobs/history" | RtConfig => bs "GET /config"
  | RtDiagnostics _ => bs "GET /jobs/{id}/diagnostics" | RtRuns _ => bs "GET /jobs/{id}/runs" | RtRunDetail _ _ => bs "GET /jobs/{id}/runs/{runId}"
  | RtRunLogs _ _ => bs "GET /jobs/{id}/runs/{runId}/logs" | RtTransitions _ => bs "GET /jobs/{id}/transitions"
  | RtLogsStream _ => bs "GET /jobs/{id}/logs/stream"
  end.
Definition route_job (rt : route) : bytes :=
  match rt with
  | RtGet id | RtDelete id | RtCancel id | RtRestart id | RtSavepoint id | RtLogs id | RtProxy _ id | RtHistory id | RtDiagnostics id | RtRuns id
  | RtRunDetail id _ | RtRunLogs id _ | RtTransitions id | RtLogsStream id => id
  | _ => []
  end.

(** What [AuditMutation] logs. *)
Record auditEntry := mkAudit { ae_Method : bytes; ae_Route : bytes; ae_Job : bytes; ae_Actor : bytes; ae_Remote : bytes; ae_Status : Z }.

Record server := mkServer {
  sv_world : cworld; sv_history : History; sv_hits : hits; sv_audit : list auditEntry; sv_observed : list (bytes * bytes * Z)
}.

(** A handler of the chain gets the role of the request; its answer comes with the
    route the multiplexer found. *)
Definition chain : Type := option Role → api_request → server → option (reply * option route) * server.
Definition answered (rep : reply) (s : server) : option (reply * option route) * server := (Some (rep, None), s).
Definition pattern_text (r : api_request) (rt : option route) : bytes :=
  match rt with Some rt => route_text rt | None => q_Method r ++ bs " unknown" end.

Section server.
Context (O : oracle) (ct : Ctl) (unmarshal : bytes → option sdkManifest) (parseQuantity : bytes → option bytes).
Context (compile : bytes → gmap bytes bytes → result (bytes * bytes * bytes)).
Context (decode_submit : bytes → result (bytes * gmap bytes bytes * gmap bytes SecretRef)) (decode_label : bytes → result (bytes * bytes)).
Context (logsAt : nat → bytes → Z → result bytes) (capacity : nat → result CapacitySnapshot).
Context (agentGet : nat → bytes → bytes → result (Z * bytes * bytes)) (agentSavepoint : bytes → bytes → result Z).
Context (expired : nat → bool) (late : bool) (ticks : api_request → nat) (grafanaURL : bytes).
Context (Sum256 : bytes → bytes) (cfg : AuthConfig).

Notation handle := (handle O ct unmarshal parseQuantity compile decode_submit decode_label logsAt capacity agentGet agentSavepoint expired late
  ticks grafanaURL (authConfigured cfg)).

(** The multiplexer and the handlers. *)
Definition serve_mux : chain := λ role r s,
  match mux (q_Method r) (q_Path r) with
  | Found rt =>
      match handle role (sv_history s) rt r (sv_world s) with
      | (Some (rep, h), w) => (Some (rep, Some rt), mkServer w h (sv_hits s) (sv_audit s) (sv_observed s))
      | (None, w) => (None, mkServer w (sv_history s) (sv_hits s) (sv_audit s) (sv_observed s))
      end
  | NotFound => answered (mkReply 404 AStatic) s
  | NotAllowed => answered (mkReply 405 AStatic) s
  | Moved => answered (mkReply 307 AStatic) s
  end.

(** [instrument] *)
Definition instrument (next : chain) : chain := λ role r s,
  match next role r s with
  | (Some (rep, rt), s) =>
      (Some (rep, rt), mkServer (sv_world s) (sv_history s) (sv_hits s) (sv_audit s)
         (sv_observed s ++ [(q_Method r, pattern_text r rt, rp_Status rep)]))
  | dead => dead
  end.

(** [rateLimitMutations] *)
Definition rateLimitMutations (next : chain) : chain := λ role r s,
  if mutationRoute r then
    let '(fine, hs) := Allow mutation_limit mutation_window (nowAt O (cw_tick (sv_world s))) (clientIP r) (sv_hits s) in
    let s := mkServer (sv_world s) (sv_history s) hs (sv_audit s) (sv_observed s) in
    if fine then next role r s else answered (writeErr 429 (bs "too many mutation requests")) s
  else next role r s.

(** [auditMutations] *)
Definition auditMutations (next : chain) : chain := λ role r s,
  if mutationRoute r then
    match next role r s with
    | (Some (rep, rt), s) =>
        (Some (rep, rt), mkServer (sv_world s) (sv_history s) (sv_hits s)
           (sv_audit s ++ [mkAudit (q_Method r) (pattern_text r rt) (default [] (route_job <$> rt))
                             (default (bs "anonymous") (role_text <$> role)) (clientIP r) (rp_Status rep)]) (sv_observed s))
    | dead => dead
    end
  else next role r s.

(** [auth] *)
Definition auth (next : chain) : chain := λ role r s,
  if negb (authConfigured cfg) then next role r s
  else if publicRoute r then next role r s
  else match authenticate Sum256 cfg (q_Authorization r) with
       | None => answered (writeErr 401 (bs "unauthorized")) s
       | Some RoleReadOnly =>
           if mutationRoute r then answered (writeErr 403 (bs "read-only token cannot mutate jobs")) s else next (Some RoleReadOnly) r s
       | Some RoleReadWrite => next (Some RoleReadWrite) r s
       end.

(** [Server.Handler] *)
Definition ServeHTTP (r : api_request) (s : server) : option (reply * option route) * server :=
  auth (auditMutations (rateLimitMutations (instrument serve_mux))) None r s.
End server.

(** ** Only mutations change the state of jobs *)

(** A route that changes jobs is a mutation for the middleware. *)
Lemma one_job_mutates id verb m rt : (m, rt) ∈ one_job id verb → mutates rt = true → m = bs "POST".
Proof.
  unfold one_job. repeat case_decide; rewrite ?elem_of_cons, ?elem_of_nil; intros Hin Hm; naive_solver.
Qed.
Lemma top_level_mutates name m rt : (m, rt) ∈ top_level name → mutates rt = true → m = bs "POST".
Proof.
  unfold top_level. repeat case_decide; rewrite ?elem_of_cons, ?elem_of_nil; intros Hin Hm; naive_solver.
Qed.
Lemma handlers_mutate segs m rt : (m, rt) ∈ handlers segs → mutates rt = true → m ∈ [bs "POST"; bs "DELETE"].
Proof.
  intros H Hm. destruct segs as [|a segs]; [by apply not_elem_of_nil in H|]. destruct segs as [|id rest].
  { rewrite (top_level_mutates _ _ _ H Hm). set_solver. }
  cbn [handlers] in H. case_decide; [|by apply not_elem_of_nil in H]. destruct rest as [|verb [|run [|logs [|]]]].
  - assert ((m, rt) = (bs "GET", RtGet id) ∨ (m, rt) = (bs "DELETE", RtDelete id) ∨ (m, rt) = (bs "GET", RtBulkHistory)) as Hc.
    { case_decide; rewrite ?elem_of_app, ?elem_of_cons, ?elem_of_nil in H; naive_solver. }
    destruct Hc as [[= -> ->]|[[= -> ->]|[= -> ->]]]; [done|set_solver|done].
  - rewrite (one_job_mutates _ _ _ _ H Hm). set_solver.
  - repeat case_decide; rewrite ?elem_of_cons, ?elem_of_nil in H; naive_solver.
  - repeat case_decide; rewrite ?elem_of_cons, ?elem_of_nil in H; naive_solver.
  - by apply not_elem_of_nil in H.
Qed.

Lemma mux_one method path seg m rt0 rt : strings_Split x2f path = [[]; seg] → handlers [seg] = [(m, rt0)] →
  mux method path = Found rt → rt = rt0.
Proof.
  intros Hs Hh. unfold mux. rewrite Hs, Hh. destruct (clean_segs [seg]); [|done]. cbn [negb]. rewrite filter_cons, filter_nil. case_decide; [|done].
  by intros [= <-].
Qed.
Lemma mux_mutates r rt : mux (q_Method r) (q_Path r) = Found rt → mutates rt = true → mutationRoute r = true.
Proof.
  intros Hx Hm. assert (q_Path r ≠ bs "/auth" ∧ q_Path r ≠ bs "/validate") as [Ha Hv].
  { split; intros E; rewrite E in Hx.
    - apply (mux_one _ _ (bs "auth") (bs "POST") RtAuth) in Hx; [by subst|vm_compute; reflexivity..].
    - apply (mux_one _ _ (bs "validate") (bs "POST") RtValidate) in Hx; [by subst|vm_compute; reflexivity..]. }
  revert Hx. unfold mux. destruct (strings_Split x2f (q_Path r)) as [|[|] segs]; [done| |done]. destruct (clean_segs segs); [cbn [negb]|done].
  destruct (handlers segs) as [|h0 hs] eqn:Eh; [done|]. destruct (head _) as [[m rt']|] eqn:E; [|done]. intros [= ->].
  apply head_Some_elem_of, list_elem_of_filter in E as [Hmm Hin]. rewrite <- Eh in Hin. apply handlers_mutate in Hin; [|done]. cbn [fst] in Hmm.
  unfold mutationRoute. rewrite (bool_decide_eq_false_2 _ Ha), (bool_decide_eq_false_2 _ Hv). cbn [negb]. rewrite !andb_true_r. apply bool_decide_eq_true.
  unfold method_matches in Hmm. apply orb_true_iff in Hmm as [Hmm|[_ Hmm]%andb_true_iff]; apply bool_decide_eq_true in Hmm; subst m; set_solver.
Qed.

Section safety.
Context (O : oracle) (ct : Ctl) (unmarshal : bytes → option sdkManifest) (parseQuantity : bytes → option bytes).
Context (compile : bytes → gmap bytes bytes → result (bytes * bytes * bytes)).
Context (decode_submit : bytes → result (bytes * gmap bytes bytes * gmap bytes SecretRef)) (decode_label : bytes → result (bytes * bytes)).
Context (logsAt : nat → bytes → Z → result bytes) (capacity : nat → result CapacitySnapshot).
Context (agentGet : nat → bytes → bytes → result (Z * bytes * bytes)) (agentSavepoint : bytes → bytes → result Z).
Context (expired : nat → bool) (late : bool) (ticks : api_request → nat) (grafanaURL : bytes).
Context (Sum256 : bytes → bytes) (cfg : AuthConfig).

Notation handle := (handle O ct unmarshal parseQuantity compile decode_submit decode_label logsAt capacity agentGet agentSavepoint expired late
  ticks grafanaURL).
Notation serve_mux := (serve_mux O ct unmarshal parseQuantity compile decode_submit decode_label logsAt capacity agentGet agentSavepoint expired late
  ticks grafanaURL cfg).
Notation ServeHTTP := (ServeHTTP O ct unmarshal parseQuantity compile decode_submit decode_label logsAt capacity agentGet agentSavepoint expired late
  ticks grafanaURL Sum256 cfg).

Lemma reads_found {A} (m : C (result A)) status k : reads m → (∀ a, reads (k a)) → reads (found m status k).
Proof. apply reads_on_err. Qed.
Lemma reads_logs_of id tail : reads (Logs O logsAt id tail).
Proof. unfold Logs. reads. Qed.
Lemma reads_cluster : reads (Cluster O capacity).
Proof. by apply reads_prim. Qed.
Lemma reads_address id : reads (ControlAddress O id).
Proof. unfold ControlAddress. reads. Qed.
Lemma reads_follow n id last : reads (follow O logsAt n id last).
Proof.
  revert last. induction n as [|n IH]; intros last; cbn [follow]; [done|]. apply reads_bind; [apply reads_logs_of|].
  intros [cur|e|e]; (apply reads_bind; [apply IH|done]).
Qed.
Lemma reads_list_phases jobs : reads (list_phases O jobs).
Proof.
  induction jobs as [|j jobs IH]; cbn [list_phases]; [done|]. apply reads_bind; [apply reads_query|]. intros run. apply reads_bind; [apply IH|done].
Qed.
Lemma reads_agent addr path : reads (prim O (λ t w, (agentGet t addr path, w))).
Proof. by apply reads_prim. Qed.
Hint Resolve reads_found reads_logs_of reads_cluster reads_address reads_follow reads_list_phases discovery_reads probes_reads reads_agent : reads.
Ltac reads_all := repeat first [progress intros | apply reads_found | apply reads_ebind | apply reads_on_err | apply reads_bind
  | solve [eauto with reads] | case_decide | case_match | done].

(** A route that does not mutate leaves the store, the secrets and the history. *)
Lemma handle_reads conf role h rt r : mutates rt = false → reads (handle conf role h rt r).
Proof.
  destruct rt; intros Hm; try done; cbn [Api.handle]; apply reads_bind; try done;
    unfold api_readyz, Ready, api_cluster, api_targets, api_history, api_diagnostics, job_diagnostics, api_runs, api_runDetail, run_detail, api_runLogs, RunLogs,
      api_transitions, api_logsStream, api_validate, api_list, api_get, api_logs, api_proxy, api_GetJob, ok, fail; reads_all.
Qed.
Lemma keep_history (m : C reply) (h : History) w x : ((rep ← m; ret (rep, h)) w).1 = Some x → x.2 = h.
Proof. unfold mbind, C_bind. destruct (m w) as [[rep|] w']; [|done]. by intros [= <-]. Qed.
Lemma handle_history conf role h rt r w x : mutates rt = false → (handle conf role h rt r w).1 = Some x → x.2 = h.
Proof. destruct rt; intros Hm; try done; apply keep_history. Qed.

(** What a change needs: the state of the jobs as the server keeps it. *)
Definition jobs_state (s : server) : store * gmap bytes (gmap bytes bytes) * History := (cw_store (sv_world s), cw_secrets (sv_world s), sv_history s).

Lemma serve_mux_change role r s : jobs_state (serve_mux role r s).2 ≠ jobs_state s →
  ∃ rt, mux (q_Method r) (q_Path r) = Found rt ∧ mutates rt = true.
Proof.
  unfold Api.serve_mux. destruct (mux (q_Method r) (q_Path r)) as [rt| | |] eqn:Em; [|by destruct 1..]. intros Hc. exists rt. split; [done|].
  destruct (mutates rt) eqn:Hm; [done|]. destruct Hc. pose proof (handle_reads (authConfigured cfg) role (sv_history s) rt r Hm (sv_world s)) as H12. injection H12 as H1 H2.
  pose proof (handle_history (authConfigured cfg) role (sv_history s) rt r (sv_world s)) as H3. unfold jobs_state.
  destruct (handle _ _ _ _ _ (sv_world s)) as [[[rep h]|] w]; cbn in *; [|by rewrite H1, H2]. rewrite H1, H2. by rewrite <- (H3 (rep, h) Hm eq_refl).
Qed.
Lemma instrument_change next role r s : jobs_state (instrument next role r s).2 = jobs_state (next role r s).2.
Proof. unfold instrument. by destruct (next role r s) as [[[rep rt]|] s']. Qed.
Lemma serve_mux_logs role r s : sv_audit (serve_mux role r s).2 = sv_audit s ∧ sv_hits (serve_mux role r s).2 = sv_hits s.
Proof.
  unfold Api.serve_mux. destruct (mux _ _) as [rt| | |]; [|done..]. by destruct (handle _ _ _ _ _ (sv_world s)) as [[[rep h]|] w].
Qed.
Lemma instrument_logs next role r s : sv_audit (instrument next role r s).2 = sv_audit (next role r s).2.
Proof. unfold instrument. by destruct (next role r s) as [[[rep rt]|] s']. Qed.

(** The limiter lets a request pass. *)
Definition allowed (r : api_request) (s : server) : Prop :=
  (Allow mutation_limit mutation_window (nowAt O (cw_tick (sv_world s))) (clientIP r) (sv_hits s)).1 = true.

Lemma limited_change role r s : let res := rateLimitMutations O (instrument serve_mux) role r s in
  jobs_state res.2 ≠ jobs_state s → mutationRoute r = true ∧ allowed r s ∧ ∃ rt, mux (q_Method r) (q_Path r) = Found rt ∧ mutates rt = true.
Proof.
  intros res. subst res. unfold rateLimitMutations, allowed. destruct (mutationRoute r) eqn:Hm.
  - destruct (Allow _ _ _ _ _) as [fine hs]. destruct fine; [|by destruct 1]. rewrite instrument_change. intros Hc. split; [done|]. split; [done|].
    by apply (serve_mux_change role r (mkServer (sv_world s) (sv_history s) hs (sv_audit s) (sv_observed s))).
  - rewrite instrument_change. intros Hc. exfalso. apply serve_mux_change in Hc as (rt & Hx & Hr). rewrite (mux_mutates r rt Hx Hr) in Hm. done.
Qed.
Lemma limited_audit role r s : sv_audit (rateLimitMutations O (instrument serve_mux) role r s).2 = sv_audit s.
Proof.
  unfold rateLimitMutations. destruct (mutationRoute r).
  - destruct (Allow _ _ _ _ _) as [[] hs]; [|done]. rewrite instrument_logs. by destruct (serve_mux_logs role r (mkServer (sv_world s) (sv_history s) hs (sv_audit s) (sv_observed s))) as [-> _].
  - rewrite instrument_logs. apply serve_mux_logs.
Qed.

(** The entry of an answer in the audit log. *)
Definition entry (role : option Role) (r : api_request) (rep : reply) (rt : option route) : auditEntry :=
  mkAudit (q_Method r) (pattern_text r rt) (default [] (route_job <$> rt)) (default (bs "anonymous") (role_text <$> role)) (clientIP r) (rp_Status rep).
Lemma audited_change role r s : let res := auditMutations (rateLimitMutations O (instrument serve_mux)) role r s in
  jobs_state res.2 ≠ jobs_state s →
  mutationRoute r = true ∧ allowed r s ∧ (∃ rt, mux (q_Method r) (q_Path r) = Found rt ∧ mutates rt = true)
  ∧ ∀ rep rt, res.1 = Some (rep, rt) → sv_audit res.2 = sv_audit s ++ [entry role r rep rt].
Proof.
  intros res. subst res. unfold auditMutations. pose proof (limited_change role r s) as Hl. pose proof (limited_audit role r s) as Ha. cbn zeta in Hl.
  destruct (mutationRoute r) eqn:Hm.
  - destruct (rateLimitMutations O (instrument serve_mux) role r s) as [[[rep rt]|] s'] eqn:E; cbn in *; intros Hc.
    + destruct (Hl Hc) as (_ & H2 & H3). split_and!; [done|done|done|]. intros rep' rt' [= <- <-]. by rewrite Ha.
    + destruct (Hl Hc) as (_ & H2 & H3). by split_and!.
  - intros Hc. by destruct (Hl Hc).
Qed.

(** C11: With tokens configured, a request changes jobs, secrets or history
    only if it carries a read-write token, is a mutation the limiter lets
    pass and matches a mutating route, and its answer is then in the audit
    log; a request without a token is refused outside the public routes, and
    a mutation with a read-only token is forbidden, both without any change. *)
Theorem api_change_accounted (r : api_request) (s : server) :
  authConfigured cfg = true →
  let res := ServeHTTP r s in
  (jobs_state res.2 ≠ jobs_state s →
     authenticate Sum256 cfg (q_Authorization r) = Some RoleReadWrite ∧ mutationRoute r = true ∧ allowed r s
     ∧ (∃ rt, mux (q_Method r) (q_Path r) = Found rt ∧ mutates rt = true)
     ∧ ∀ rep rt, res.1 = Some (rep, rt) → sv_audit res.2 = sv_audit s ++ [entry (Some RoleReadWrite) r rep rt])
  ∧ (publicRoute r = false → authenticate Sum256 cfg (q_Authorization r) = None → res = (Some (writeErr 401 (bs "unauthorized"), None), s))
  ∧ (authenticate Sum256 cfg (q_Authorization r) = Some RoleReadOnly → mutationRoute r = true → rp_Status <$> (fst <$> res.1) = Some 403 ∧ res.2 = s).
Proof.
  intros Hcfg res. subst res. unfold Api.ServeHTTP, auth. rewrite Hcfg. cbn [negb]. destruct (publicRoute r) eqn:Hp.
  - assert (mutationRoute r = false) as Hm.
    { unfold publicRoute in Hp. apply andb_true_iff in Hp as [Hp _]. apply bool_decide_eq_true in Hp. unfold mutationRoute. rewrite Hp. done. }
    split_and!; [|done|by rewrite Hm]. intros Hc. apply audited_change in Hc as [Hm' _]. congruence.
  - destruct (authenticate Sum256 cfg (q_Authorization r)) as [[]|]; [destruct (mutationRoute r) eqn:Hm|..].
    + split_and!; [by destruct 1|done|done].
    + split_and!; [|done|done]. intros Hc. apply audited_change in Hc as [Hm' _]. congruence.
    + split_and!; [|done|done]. intros Hc. apply audited_change in Hc. by split_and!; try apply Hc.
    + split_and!; [by destruct 1|done|done].
Qed.
End safety.

(** ** What a submission leaves behind *)

Definition jobs_of (w : cworld) : list Job := st_jobs (cw_store w).
Notation keeps_jobs := (keeps jobs_of).

Section submission.
Context (O : oracle) (ct : Ctl) (unmarshal : bytes → option sdkManifest) (parseQuantity : bytes → option bytes).
Context (compile : bytes → gmap bytes bytes → result (bytes * bytes * bytes)).
Context (decode_submit : bytes → result (bytes * gmap bytes bytes * gmap bytes SecretRef)).

Lemma insertRun_jobs s r s' : insertRun s r = Ok s' → st_jobs s' = st_jobs s.
Proof. unfold insertRun. case_bool_decide; [done|]. destruct (_ && _); [done|]. by intros [= <-]. Qed.
Lemma updateRun_jobs s r s' : updateRun s r = Ok s' → st_jobs s' = st_jobs s.
Proof. unfold updateRun. destruct (get_run s (rn_ID r)); [|done]. destruct (_ && _); [done|]. by intros [= <-]. Qed.
Lemma keeps_jobs_UpdateRun r : keeps_jobs (UpdateRun O r).
Proof. apply keeps_exec; [done|]. intros now w s. apply updateRun_jobs. Qed.
Lemma keeps_jobs_UpdateRunT r from to reason : keeps_jobs (UpdateRunT O r from to reason).
Proof.
  apply keeps_exec; [done|]. intros now w s. unfold UpdateRunWithTransition. destruct (updateRun (cw_store w) r) as [s1|e|e] eqn:E; [|done|done].
  intros [= <-]. by apply updateRun_jobs in E.
Qed.
Lemma keeps_jobs_create r t : keeps_jobs (exec O (λ now s, CreateRunWithTransition s r (t now))).
Proof.
  apply keeps_exec; [done|]. intros now w s. unfold CreateRunWithTransition. destruct (insertRun (cw_store w) r) as [s1|e|e] eqn:E; [|done|done].
  intros [= <-]. by apply insertRun_jobs in E.
Qed.
Lemma keeps_jobs_append job from to reason : keeps_jobs (AppendTransition O job from to reason).
Proof. apply keeps_exec; [done|]. by intros now w s [= <-]. Qed.
Lemma keeps_jobs_query {A} (q : store → result A) : keeps_jobs (query O q).
Proof. by apply keeps_query. Qed.
Lemma keeps_jobs_launch spec : keeps_jobs (Launch O spec).
Proof. apply keeps_prim; [done|]. intros t w. by destruct (launchAt O t spec). Qed.
Lemma keeps_jobs_status id : keeps_jobs (BGetStatus O id).
Proof. apply keeps_prim; [done|]. intros t w. destruct (statusAt O t id) as [st|e|e]; [|done|done]. by destruct (bst_Phase st). Qed.
Lemma keeps_jobs_remove id : keeps_jobs (BRemove O id).
Proof. apply keeps_prim; [done|]. intros t w. by destruct (removeAt O t id). Qed.
Lemma keeps_jobs_pure {A} (f : cworld → A) : keeps_jobs (λ w, (Some (f w), w)).
Proof. done. Qed.
Lemma keeps_jobs_env job : keeps_jobs (launchEnv O job).
Proof. done. Qed.
Hint Resolve keeps_jobs_UpdateRun keeps_jobs_UpdateRunT keeps_jobs_create keeps_jobs_append keeps_jobs_query keeps_jobs_launch keeps_jobs_status
  keeps_jobs_remove keeps_jobs_env : reads.
Ltac kept := repeat match goal with
  | |- ∀ _, _ => intro
  | |- keeps _ (ebind _ _) => apply keeps_ebind
  | |- keeps _ (on_err _ _ _) => apply keeps_on_err
  | |- keeps _ (_ ≫= _) => apply keeps_bind
  | |- _ => solve [eauto with reads]
  | |- _ => case_match
  | |- _ => done
  end.

Lemma keeps_jobs_start job attempt restore : keeps_jobs (launchLocked O ct unmarshal job attempt restore).
Proof.
  unfold launchLocked, startRun, launch_failed, launch_unrecorded, markLaunchRecordFailure, scheduleRestartFrom, blockRun, fail, ok. kept.
Qed.
Lemma keeps_jobs_secrets job env : keeps_jobs (setSecrets job env).
Proof. intros w. unfold setSecrets. by case_bool_decide. Qed.

(** Which worlds an answer of a submission may come with. *)
Definition submitted (w : cworld) (res : job_err) (w' : cworld) : Prop :=
  match res with
  | (Some job, _) => jobs_of w' = jobs_of w ++ [job]
  | (None, e) => is_Some e ∧ cw_store w' = cw_store w ∧ cw_secrets w' = cw_secrets w
  end.

Lemma keeps_jobs_rest job env reason : keeps_jobs (
  setSecrets (jb_ID job) env;;
  on_err (AppendTransition O (jb_ID job) None Submitted reason) (λ e, (Some job, Some (bs "submit: transition: " ++ e))) (λ _,
  on_err (launchLocked O ct unmarshal job 1 []) (λ e, (Some job, Some (bs "submit: launch: " ++ e))) (λ _, ret (Some job, None : option bytes)))).
Proof.
  apply keeps_bind; [apply keeps_jobs_secrets|]. intros _. apply keeps_on_err; [apply keeps_jobs_append|]. intros _.
  apply keeps_on_err; [apply keeps_jobs_start|done].
Qed.

Lemma record_answers job env reason w res w' : record_and_launch O ct unmarshal job env reason w = (Some res, w') → submitted w res w'.
Proof.
  unfold record_and_launch. unfold on_err at 1, mbind at 1, C_bind at 1. unfold exec, prim. destruct (crashAt O (cw_tick w)); [done|].
  destruct (storeFault O (cw_tick w)) as [e|]; [by intros [= <- <-]; cbn|]. destruct (CreateJob (cw_store w) job) as [s|e|e] eqn:Ec; [|by intros [= <- <-]; cbn..].
  set (w1 := mkWorld _ _ _ _). intros H. assert (jobs_of w1 = jobs_of w ++ [job]) as Hw1.
  { revert Ec. unfold CreateJob. destruct (get_job _ _); [done|]. by intros [= <-]. }
  pose proof (keeps_jobs_rest job env reason w1) as Hk. rewrite H in Hk. cbn in Hk. rewrite Hw1 in Hk.
  assert (∃ e, res = (Some job, e)) as [e ->]; [|done]. revert H. unfold on_err, mbind, C_bind.
  destruct (setSecrets _ _ w1) as [[u|] w2]; [|done]. destruct (AppendTransition _ _ _ _ _ w2) as [[[]|] w3]; [|by intros [= <- _]; eexists..|done].
  destruct (launchLocked _ _ _ _ _ _ w3) as [[[]|] w4]; [by intros [= <- _]; eexists..|done].
Qed.

Lemma submit_answers_of doc env refs w res w' :
  SubmitWithSecretRefs O ct unmarshal parseQuantity compile doc env refs w = (Some res, w') → submitted w res w'.
Proof.
  unfold SubmitWithSecretRefs. destruct (parseSDKManifest unmarshal doc) as [m|].
  - unfold submitSDK. case_bool_decide; [by intros [= <- <-]|]. case_bool_decide; [by intros [= <- <-]|].
    destruct (validateResources _ _); [|by intros [= <- <-]..]. apply record_answers.
  - unfold mbind at 1, C_bind at 1. cbn. destruct (resolveEnvRefs _ _ _) as [venv| |]; [|by intros [= <- <-]..].
    destruct (compile doc venv) as [[[name delivery] graph]| |]; [|by intros [= <- <-]..]. apply record_answers.
Qed.

(** Every answer to a submission says what happened: with 201 or 202
    the job in the answer was added to the store as its only new job, with
    400 or 413 neither the store nor the secrets changed. *)
Theorem submit_binds_answer (r : api_request) (w : cworld) (rep : reply) (w' : cworld) :
  api_submit O ct unmarshal parseQuantity compile decode_submit r w = (Some rep, w') →
  (∃ job, (rep = mkReply 201 (AJob job) ∨ ∃ e, rep = mkReply 202 (AWarning job e)) ∧ jobs_of w' = jobs_of w ++ [job])
  ∨ (∃ msg, (rep = writeErr 400 msg ∨ rep = writeErr 413 msg) ∧ cw_store w' = cw_store w ∧ cw_secrets w' = cw_secrets w).
Proof.
  unfold api_submit, readWorkflow. destruct (readLimited maxWorkflowBody (q_Body r)) as [body|[|e]].
  2,3: intros [= <- <-]; right; eexists; split; [eauto|done].
  assert (∀ doc env refs,
    (if decide (doc = []) then ret (writeErr 400 (bs "empty workflow"))
     else res ← SubmitWithSecretRefs O ct unmarshal parseQuantity compile doc env refs; ret (submit_reply res)) w = (Some rep, w') →
    (∃ job, (rep = mkReply 201 (AJob job) ∨ ∃ e, rep = mkReply 202 (AWarning job e)) ∧ jobs_of w' = jobs_of w ++ [job])
    ∨ (∃ msg, (rep = writeErr 400 msg ∨ rep = writeErr 413 msg) ∧ cw_store w' = cw_store w ∧ cw_secrets w' = cw_secrets w)) as Hgo.
  { intros doc env refs. case_decide; [intros [= <- <-]; right; eexists; split; [eauto|done]|]. unfold mbind, C_bind.
    destruct (SubmitWithSecretRefs _ _ _ _ _ doc env refs w) as [[[job err]|] w1] eqn:E; [|done]. intros [= <- <-]. apply submit_answers_of in E. cbn in E.
    destruct job as [job|]; [left; exists job; split; [destruct err; eauto|done]|]. right. destruct E as (_ & H1 & H2). eexists; split; [left; reflexivity|done]. }
  destruct (isJSON r); [|apply Hgo]. destruct (decode_submit body) as [[[doc env] refs]|e|e]; [apply Hgo|..].
  all: intros [= <- <-]; right; eexists; split; [eauto|done].
Qed.
End submission.

(** ** The limit on mutations *)

Section limiter.
Context (limit : Z) (window : duration).

(** Requests with their clients and times, and which of them pass. *)
Definition limiter_step (st : list (bytes * time * bool) * hits) (ev : bytes * time) : list (bytes * time * bool) * hits :=
  let '(fine, h) := Allow limit window ev.2 ev.1 st.2 in (st.1 ++ [(ev.1, ev.2, fine)], h).
Definition limiter_run (evs : list (bytes * time)) : list (bytes * time * bool) * hits := foldl limiter_step ([], ∅) evs.

(** The times at which a client passed after [c]. *)
Definition passed (key : bytes) (c : time) (log : list (bytes * time * bool)) : list time :=
  filter (λ ts, c < ts) (omap (λ x : bytes * time * bool, if bool_decide (x.1.1 = key) && x.2 then Some x.1.2 else None) log).

Lemma passed_snoc key c log k now b : passed key c (log ++ [(k, now, b)]) =
  passed key c log ++ (if bool_decide (k = key) && b && (c <? now) then [now] else []).
Proof.
  unfold passed. rewrite omap_app, filter_app. f_equal. cbn [omap list_omap fst snd]. destruct (bool_decide (k = key) && b); cbn [andb]; [|done]. rewrite filter_cons, filter_nil.
  destruct (Z.ltb_spec c now) as [Hl|Hl]; [by rewrite decide_True|by rewrite decide_False by lia].
Qed.

(** The limiter remembers what it needs from [now - window] on. *)
Definition limiter_inv (st : list (bytes * time * bool) * hits) (now : time) : Prop :=
  ∀ key c, now - window ≤ c → filter (λ ts, c < ts) (default [] (st.2 !! key)) = passed key c st.1.

Lemma filter_filter_gt (c c' : time) (l : list time) : c ≤ c' → filter (λ ts, c' < ts) (filter (λ ts, c < ts) l) = filter (λ ts, c' < ts) l.
Proof. intros Hc. rewrite list_filter_filter. apply list_filter_iff. unfold time in *. lia. Qed.

Lemma limiter_step_spec st last key now : limiter_inv st last → last ≤ now →
  let fine := bool_decide (Z.of_nat (length (passed key (now - window) st.1)) < limit) in
  (limiter_step st (key, now)).1 = st.1 ++ [(key, now, fine)] ∧ limiter_inv (limiter_step st (key, now)) now.
Proof.
  intros Hi Hl fine. unfold limiter_step, Allow. cbn [fst snd]. set (keep := filter _ _).
  assert (keep = passed key (now - window) st.1) as Hkeep.
  { etrans; [|apply (Hi key (now - window)); unfold time, duration in *; lia]. apply list_filter_iff. intros ts. unfold After, Add. rewrite Z.ltb_lt. unfold time, duration in *. lia. }
  assert (∀ c, now - window ≤ c → filter (λ ts, c < ts) keep = passed key c st.1) as Hk.
  { intros c Hc. rewrite Hkeep. unfold passed. by apply filter_filter_gt. }
  unfold fine. rewrite Hkeep in *. match goal with |- context [limit <=? ?x] => destruct (Z.leb_spec limit x) as [Hle|Hlt] end; cbn [fst snd].
  - rewrite (bool_decide_eq_false_2 _ (proj2 (Z.nlt_ge _ _) Hle)). split; [done|]. intros k c Hc. cbn [fst snd]. rewrite passed_snoc, andb_false_r, app_nil_r.
    destruct (decide (k = key)) as [->|Hne]; [rewrite lookup_insert_eq; by apply Hk|]. rewrite lookup_insert_ne by done. apply Hi. unfold time, duration in *. lia.
  - rewrite (bool_decide_eq_true_2 _ Hlt). split; [done|]. intros k c Hc. cbn [fst snd]. rewrite passed_snoc, andb_true_r.
    destruct (decide (k = key)) as [->|Hne].
    + rewrite lookup_insert_eq, bool_decide_eq_true_2 by done. match goal with |- context [default [] (Some ?l)] => change (default [] (Some l)) with l end. rewrite filter_app. f_equal; [by apply Hk|].
      cbn [andb]. rewrite filter_cons, filter_nil. destruct (Z.ltb_spec c now); [by rewrite decide_True|by rewrite decide_False by (unfold time in *; lia)].
    + rewrite lookup_insert_ne, bool_decide_eq_false_2 by done. cbn [andb]. rewrite app_nil_r. apply Hi. unfold time, duration in *. lia.
Qed.

Lemma limiter_snoc evs e : limiter_run (evs ++ [e]) = limiter_step (limiter_run evs) e.
Proof. unfold limiter_run. by rewrite foldl_app. Qed.
Lemma limiter_inv_mono st a b : a ≤ b → limiter_inv st a → limiter_inv st b.
Proof. intros Hab Hi key c Hc. apply Hi. unfold time, duration in *. lia. Qed.

Lemma limiter_inv_run evs now : StronglySorted Z.le evs.*2 → Forall (λ t, t ≤ now) evs.*2 → limiter_inv (limiter_run evs) now.
Proof.
  revert now. induction evs as [|[k t] evs IH] using rev_ind; intros now Hs Hn; [intros key c _; cbn; by rewrite lookup_empty|]. rewrite fmap_app in Hs, Hn. cbn in Hs, Hn.
  apply Forall_app in Hn as [_ Hn]. rewrite Forall_singleton in Hn. apply (limiter_inv_mono _ t); [exact Hn|]. rewrite limiter_snoc.
  apply (limiter_step_spec _ t); [|apply Z.le_refl]. apply IH; [by apply StronglySorted_app_1_l in Hs|]. apply Forall_forall. intros x Hx.
  eapply (StronglySorted_app_1_elem_of Z.le); [exact Hs|done|by left].
Qed.
Lemma limiter_log_snoc evs k now : StronglySorted Z.le (evs ++ [(k, now)]).*2 →
  (limiter_run (evs ++ [(k, now)])).1 =
  (limiter_run evs).1 ++ [(k, now, bool_decide (Z.of_nat (length (passed k (now - window) (limiter_run evs).1)) < limit))].
Proof.
  intros Hs. rewrite limiter_snoc. rewrite fmap_app in Hs. cbn in Hs. apply (limiter_step_spec _ now); [|apply Z.le_refl].
  apply limiter_inv_run; [by apply StronglySorted_app_1_l in Hs|]. apply Forall_forall. intros x Hx.
  eapply (StronglySorted_app_1_elem_of Z.le); [exact Hs|done|by left].
Qed.
Lemma passed_in key c log x : x ∈ passed key c log → x ∈ log.*1.*2 ∧ c < x.
Proof.
  unfold passed. intros [Hc Hx]%list_elem_of_filter. split; [|done]. apply list_elem_of_omap in Hx as ([[k t] b] & Hin & E). cbn in E.
  destruct (bool_decide (k = key) && b); [|done]. injection E as <-. apply list_elem_of_fmap. exists (k, t). split; [done|]. apply list_elem_of_fmap. by exists (k, t, b).
Qed.

(** C34: For requests in the order of their times, the limiter lets a
    request pass exactly if its client passed fewer than the limit within
    the window before it, so that in no window a client passes more than the
    limit. *)
Theorem mutations_limited (evs : list (bytes * time)) :
  StronglySorted Z.le evs.*2 →
  let log := (limiter_run evs).1 in
  log.*1 = evs
  ∧ (∀ i key now fine, log !! i = Some (key, now, fine) → fine = bool_decide (Z.of_nat (length (passed key (now - window) (take i log))) < limit))
  ∧ (0 ≤ limit → ∀ key t, Z.of_nat (length (filter (λ ts, ts ≤ t) (passed key (t - window) log))) ≤ limit).
Proof.
  induction evs as [|[k now] evs IH] using rev_ind; intros Hs; [split_and!; [done|done|done]|]. cbn zeta in *.
  assert (StronglySorted Z.le evs.*2) as Hs' by (rewrite fmap_app in Hs; by apply StronglySorted_app_1_l in Hs).
  rewrite limiter_log_snoc by done. destruct (IH Hs') as (H1 & H2 & H3). set (log := (limiter_run evs).1) in *. split_and!.
  - by rewrite fmap_app, H1.
  - intros i key t fine. destruct (decide (i < length log)%nat) as [Hi|Hi].
    + rewrite lookup_app_l, take_app_le by (unfold time in *; lia). apply H2.
    + intros Hl. pose proof (lookup_lt_Some _ _ _ Hl) as Hlen. rewrite length_app in Hlen. cbn in Hlen. assert (i = length log) as -> by (unfold time in *; lia).
      rewrite lookup_app_r, Nat.sub_diag in Hl by (unfold time in *; lia). injection Hl as <- <- <-. by rewrite take_app_length.
  - intros Hlim key t. rewrite passed_snoc, filter_app, length_app. specialize (H3 Hlim key t).
    destruct (bool_decide (k = key)) eqn:Ek; [apply bool_decide_eq_true in Ek as ->|cbn; unfold time in *; lia]. case_bool_decide as Hb; [|cbn; unfold time in *; lia]. cbn [andb].
    destruct (Z.ltb_spec (t - window) now) as [Hw|Hw]; [|cbn; unfold time in *; lia]. rewrite filter_cons, filter_nil. case_decide as Ht; [|cbn; unfold time in *; lia]. cbn [length].
    enough (length (filter (λ ts, (ts ≤ t)%Z) (passed key (t - window)%Z log)) ≤ length (passed key (now - window)%Z log))%nat by (unfold time, duration in *; lia).
    etrans; [apply sublist_length, sublist_filter|]. replace (passed key (t - window) log) with (filter (λ ts, t - window < ts) (passed key (now - window) log));
      [apply sublist_length, sublist_filter|]. unfold passed. apply filter_filter_gt. unfold time, duration in *. lia.
Qed.
End limiter.

(** ** Configured tokens *)

Definition lower_byte (b : byte) : byte := let z := Z_of_byte b in if (65 <=? z) && (z <=? 90) then byte_of_Z (z + 32) else b.
(** A byte of a hash is a lower-case digit, and none of the separators. *)
Lemma is_hex_plain b : is_hex b = true → lower_byte b = b ∧ is_space b = false ∧ b ≠ x2c ∧ b ≠ x3a.
Proof. destruct b; vm_compute; intros E; (discriminate E || (split_and!; congruence)). Qed.
Lemma hex_digits_hex b : is_hex (hex_digit (Z_of_byte b / 16)) = true ∧ is_hex (hex_digit (Z_of_byte b mod 16)) = true.
Proof. by destruct b. Qed.
Definition hex_value (b : byte) : Z := let z := Z_of_byte b in if z <? 58 then z - 48 else z - 87.
Lemma hex_value_digits b : hex_value (hex_digit (Z_of_byte b / 16)) * 16 + hex_value (hex_digit (Z_of_byte b mod 16)) = Z_of_byte b.
Proof. by destruct b. Qed.

Lemma hex_encode_hex s : Forall (λ b, is_hex b = true) (hex_encode s).
Proof.
  unfold hex_encode. apply Forall_bind, Forall_true. intros b. destruct (hex_digits_hex b). by repeat constructor.
Qed.
Lemma hex_encode_length s : length (hex_encode s) = (2 * length s)%nat.
Proof. induction s as [|b s IH]; [done|]. unfold hex_encode in *. cbn [mbind list_bind app length]. rewrite IH. cbn [length]. lia. Qed.
Lemma hex_encode_inj s s' : hex_encode s = hex_encode s' → s = s'.
Proof.
  revert s'. induction s as [|b s IH]; intros [|b' s']; [done|done|done|]. intros E. unfold hex_encode in E. cbn [mbind list_bind app] in E.
  injection E as E1 E2 E3. f_equal; [|by apply IH]. apply Z_of_byte_inj. rewrite <- (hex_value_digits b), <- (hex_value_digits b'). by rewrite E1, E2.
Qed.

Lemma to_lower_hex s : Forall (λ b, is_hex b = true) s → to_lower s = s.
Proof.
  intros Hs. unfold to_lower. change (lower_byte <$> s = s). induction Hs as [|b s Hb _ IH]; [done|]. rewrite fmap_cons, IH. by destruct (is_hex_plain b Hb) as [-> _].
Qed.
Lemma forallb_hex s : forallb is_hex (hex_encode s) = true.
Proof. induction (hex_encode_hex s) as [|b l Hb _ IH]; [done|]. cbn. by rewrite Hb, IH. Qed.
Lemma cut_first c p s : c ∉ p → cut c (p ++ c :: s) = Some (p, s).
Proof.
  induction p as [|b p IH]; intros Hp; cbn [app cut]; [by rewrite decide_True|]. apply not_elem_of_cons in Hp as [Hb Hp].
  rewrite decide_False by congruence. by rewrite IH.
Qed.


(** The line of a token in the configuration. *)
Definition token_line (Sum256 : bytes → bytes) (x : Role * bytes) : bytes := role_text x.1 ++ [x3a] ++ hex_encode (Sum256 x.2).

Section tokens.
Context (Sum256 : bytes → bytes) (digest : ∀ b, length (Sum256 b) = 32%nat).

Lemma hash_plain b : Forall (λ b, is_space b = false) (hex_encode (Sum256 b)).
Proof. eapply Forall_impl; [apply hex_encode_hex|]. intros c Hc. by destruct (is_hex_plain c Hc) as (_ & ? & _). Qed.
Lemma token_line_plain x : Forall (λ b, is_space b = false) (token_line Sum256 x).
Proof.
  unfold token_line. repeat (apply Forall_app; split); [destruct x as [[] ?]; by repeat constructor|by repeat constructor|apply hash_plain].
Qed.
Lemma token_line_no_comma x : x2c ∉ token_line Sum256 x.
Proof.
  unfold token_line. rewrite !elem_of_app. intros [H|[H|H]].
  - revert H. destruct x as [[] ?]; by vm_compute; set_solver.
  - by apply list_elem_of_singleton in H.
  - pose proof (hex_encode_hex (Sum256 x.2)) as Hf. rewrite Forall_forall in Hf. by destruct (is_hex_plain _ (Hf _ H)) as (_ & _ & ? & _).
Qed.
Lemma parse_token_line x : parseTokenHash (token_line Sum256 x) = Some (x.1, hex_encode (Sum256 x.2)).
Proof using digest.
  unfold parseTokenHash. rewrite trim_space_plain by apply token_line_plain. unfold token_line.
  change (role_text x.1 ++ [x3a] ++ hex_encode (Sum256 x.2)) with (role_text x.1 ++ x3a :: hex_encode (Sum256 x.2)). rewrite cut_first by (destruct x as [[] ?]; vm_compute; set_solver).
  assert (trim_space (role_text x.1) = role_text x.1 ∧ to_lower (role_text x.1) = role_text x.1) as [-> ->] by (by destruct x as [[] ?]).
  rewrite (trim_space_plain (hex_encode _)) by apply hash_plain.
  assert ((if decide (role_text x.1 = bs "readonly") then Some (RoleReadOnly, hex_encode (Sum256 x.2))
     else if decide (role_text x.1 = bs "readwrite") then Some (RoleReadWrite, hex_encode (Sum256 x.2)) else None) = Some (x.1, hex_encode (Sum256 x.2))) as ->
    by (by destruct x as [[] ?]).
  cbn [mbind option_bind fst snd]. rewrite to_lower_hex by apply hex_encode_hex. rewrite bool_decide_eq_true_2 by (rewrite hex_encode_length, digest; done).
  by rewrite forallb_hex.
Qed.

Lemma normalize_lines toks : toks ≠ [] → normalizeTokenHashes [strings_Join [x2c] (token_line Sum256 <$> toks)] = token_line Sum256 <$> toks.
Proof.
  intros Hne. unfold normalizeTokenHashes. cbn [mbind list_bind]. rewrite app_nil_r, strings_Split_Join; cycle 1.
  { apply Forall_fmap, Forall_true. intros x. apply token_line_no_comma. }
  { by destruct toks. }
  clear Hne. induction toks as [|x toks IH]; [done|]. rewrite !fmap_cons, filter_cons, trim_space_plain by apply token_line_plain.
  rewrite decide_True by (by destruct x as [[] ?]). by rewrite IH.
Qed.
Lemma match_lines token toks : match_hash (hex_encode (Sum256 token)) (token_line Sum256 <$> toks) = fst <$> head (filter (λ x, Sum256 x.2 = Sum256 token) toks).
Proof using digest.
  induction toks as [|x toks IH]; [done|]. rewrite fmap_cons, filter_cons. cbn [match_hash]. rewrite parse_token_line.
  case_decide as E; case_decide as E'; [done| |by rewrite E' in E|exact IH]. by apply hex_encode_inj in E.
Qed.

(** C35: A token whose role and digest are written into the configuration is
    read back: authentication gives it the role of the first configured
    token with its digest, and no role to any other token. *)
Theorem configured_tokens_accepted (toks : list (Role * bytes)) (token : bytes) :
  toks ≠ [] → token ≠ [] →
  let cfg := server_auth (mkAuth [] [strings_Join [x2c] (token_line Sum256 <$> toks)]) in
  authConfigured cfg = true
  ∧ authenticate Sum256 cfg (bs "Bearer " ++ token) = fst <$> head (filter (λ x, Sum256 x.2 = Sum256 token) toks).
Proof using digest.
  intros Hne Ht cfg. unfold cfg, server_auth, authConfigured, authenticate. cbn [au_Token au_TokenSHA256]. rewrite normalize_lines by done. split.
  - rewrite (bool_decide_eq_false_2 (_ <$> _ = _)); [done|]. by destruct toks.
  - rewrite (proj2 (has_prefix_spec _ _)) by (by eexists). change 7%nat with (length (bs "Bearer ")). rewrite drop_app_length.
    rewrite decide_False by done. rewrite decide_False by (intros [? _]; done). apply match_lines.
Qed.
End tokens.

(** ** Following a growing log *)

(** The text the client got after some ticks. *)
Fixpoint followed (last : bytes) (curs : list bytes) : bytes * list tick :=
  match curs with
  | [] => (last, [])
  | cur :: curs => let '(final, ts) := followed cur curs in (final, stream_tick last cur :: ts)
  end.
Definition new_text (t : tick) : bytes := match t with TDelta text => text | _ => [] end.

(** While every read of the log extends the one before, the burst and the new
    output of the ticks are the whole log, and no window is sent again. *)
Lemma stream_sends_growth first curs : (∀ i a b, (first :: curs) !! i = Some a → (first :: curs) !! S i = Some b → a `prefix_of` b) →
  let '(final, ts) := followed first curs in
  first ++ (ts ≫= new_text) = final ∧ Forall (λ t, match t with TWindow _ => False | _ => True end) ts.
Proof.
  revert first. induction curs as [|cur curs IH]; intros first Hp; cbn [followed]; [by rewrite app_nil_r|].
  specialize (IH cur (λ i a b Ha Hb, Hp (S i) a b Ha Hb)). destruct (followed cur curs) as [final ts]. destruct IH as [IH1 IH2].
  destruct (Hp 0%nat first cur eq_refl eq_refl) as [k ->]. unfold stream_tick. rewrite length_app. destruct k as [|b k].
  - rewrite app_nil_r in *. cbn [length]. rewrite Nat.add_0_r, Nat.ltb_irrefl, Nat.eqb_refl. cbn [andb mbind list_bind new_text app]. split; [done|by constructor].
  - rewrite (proj2 (Nat.ltb_lt _ _)) by (cbn [length]; lia). rewrite (proj2 (has_prefix_spec _ _)) by (by eexists). cbn [andb mbind list_bind new_text].
    rewrite drop_app_length. split; [by rewrite app_assoc|by constructor].
Qed.

(** A window of the same length with other output is taken for no change, and a log
    longer than the first burst is sent again with the first tick. *)
Example stream_loses_output : stream_tick (bs "line 1 line 2 ") (bs "line 2 line 3 ") = TPing.
Proof. vm_compute. reflexivity. Qed.
Example stream_repeats_output : stream_tick (bs "line 2 ") (bs "line 1 line 2 ") = TWindow (bs "line 1 line 2 ").
Proof. vm_compute. reflexivity. Qed.

(** ** Examples *)

Definition demo_cfg : AuthConfig := mkAuth (bs "secret") [].
Definition demo_request (method path token : bytes) : api_request :=
  mkReq method path [] (bs "Bearer " ++ token) [] (bs "doc", None) (bs "10.0.0.7:4242").
Definition demo_server : server := mkServer new_world (NewHistory 0) ∅ [] [].
Definition demo_digest (b : bytes) : bytes := take 32 (b ++ replicate 32 x00).
Abbreviation demo_api := (ServeHTTP (demo_oracle [] [] []) demo_ctl no_manifest any_quantity demo_compile (λ b, Ok (b, ∅, ∅)) (λ b, Ok (b, []))
  (λ _ _ _, Ok []) (λ _, Err []) (λ _ _ _, Err []) (λ _ _, Ok 202) (λ _, false) false (λ _, 0%nat) [] demo_digest demo_cfg).

Lemma api_change_accounted_witness :
  let r := demo_request (bs "POST") (bs "/jobs") (bs "secret") in
  length (st_jobs (cw_store (sv_world (demo_api r demo_server).2))) = 1%nat
  ∧ authenticate demo_digest demo_cfg (q_Authorization r) = Some RoleReadWrite
  ∧ (demo_api (demo_request (bs "POST") (bs "/jobs") (bs "wrong")) demo_server).2 = demo_server.
Proof.
  intros r. split; [vm_compute; reflexivity|]. split.
  - apply (api_change_accounted (demo_oracle [] [] []) demo_ctl no_manifest any_quantity demo_compile (λ b, Ok (b, ∅, ∅)) (λ b, Ok (b, []))
      (λ _ _ _, Ok []) (λ _, Err []) (λ _ _ _, Err []) (λ _ _, Ok 202) (λ _, false) false (λ _, 0%nat) [] demo_digest demo_cfg r demo_server); [reflexivity|].
    intros E. apply (f_equal (λ x, length (st_jobs x.1.1))) in E. vm_compute in E. discriminate E.
  - vm_compute. reflexivity.
Defined.

Lemma submit_binds_answer_witness :
  ∃ job w', api_submit (demo_oracle [] [] []) demo_ctl no_manifest any_quantity demo_compile (λ b, Ok (b, ∅, ∅))
    (demo_request (bs "POST") (bs "/jobs") []) new_world = (Some (mkReply 201 (AJob job)), w') ∧ jobs_of w' = [job].
Proof.
  destruct (api_submit (demo_oracle [] [] []) demo_ctl no_manifest any_quantity demo_compile (λ b, Ok (b, ∅, ∅))
    (demo_request (bs "POST") (bs "/jobs") []) new_world) as [[rep|] w'] eqn:E; [|vm_compute in E; discriminate E].
  pose proof (submit_binds_answer (demo_oracle [] [] []) demo_ctl no_manifest any_quantity demo_compile (λ b, Ok (b, ∅, ∅))
    (demo_request (bs "POST") (bs "/jobs") []) new_world rep w' E) as H.
  assert (rp_Status rep = 201) as Hs.
  { assert (rp_Status <$> (api_submit (demo_oracle [] [] []) demo_ctl no_manifest any_quantity demo_compile (λ b, Ok (b, ∅, ∅))
      (demo_request (bs "POST") (bs "/jobs") []) new_world).1 = Some 201) as Hv by (vm_compute; reflexivity). rewrite E in Hv. cbn in Hv. congruence. }
  destruct H as [(job & [-> | [e ->]] & Hj)|(msg & [-> | ->] & _)]; cbn in Hs; try discriminate Hs. exists job, w'. split; [reflexivity|exact Hj].
Defined.

Lemma mutations_limited_witness :
  let evs := [(bs "a", 0); (bs "a", 5); (bs "b", 6); (bs "a", 20)] in
  (limiter_run 1 10 evs).1.*2 = [true; false; true; true]
  ∧ ∀ key t, Z.of_nat (length (filter (λ ts, ts ≤ t) (passed key (t - 10) (limiter_run 1 10 evs).1))) ≤ 1.
Proof.
  intros evs. split; [vm_compute; reflexivity|]. apply (mutations_limited 1 10 evs); [|lia]. cbn. repeat constructor; lia.
Defined.

Lemma configured_tokens_accepted_witness :
  let toks := [(RoleReadOnly, bs "viewer"); (RoleReadWrite, bs "admin")] in
  let cfg := server_auth (mkAuth [] [strings_Join [x2c] (token_line demo_digest <$> toks)]) in
  authenticate demo_digest cfg (bs "Bearer admin") = Some RoleReadWrite ∧ authenticate demo_digest cfg (bs "Bearer viewer") = Some RoleReadOnly.
Proof.
  intros toks cfg. split; [|vm_compute; reflexivity].
  refine (proj2 (configured_tokens_accepted demo_digest _ toks (bs "admin") _ _)); [|done|done].
  intros b. unfold demo_digest. rewrite length_take, length_app, length_replicate. lia.
Defined.

(** The name of a job may be hidden by a literal pattern, and paths are matched
    after the middleware has looked at them. *)
Example mux_examples :
  mux (bs "GET") (bs "/jobs/history") = Found RtBulkHistory
  ∧ mux (bs "DELETE") (bs "/jobs/history") = Found (RtDelete (bs "history"))
  ∧ mux (bs "POST") (bs "/jobs/a/restart") = Found (RtRestart (bs "a"))
  ∧ mux (bs "PUT") (bs "/jobs/a") = NotAllowed ∧ mux (bs "GET") (bs "/nope") = NotFound ∧ mux (bs "POST") (bs "//jobs") = Moved
  ∧ mux (bs "HEAD") (bs "/") = Found RtIndex.
Proof. vm_compute. auto 10. Qed.
Example client_addresses :
  clientIP (demo_request [] [] []) = bs "10.0.0.7" ∧ SplitHost (bs "[::1]:80") = Some (bs "::1") ∧ SplitHost (bs "::1") = None.
Proof. vm_compute. auto. Qed.
