(* ===== verification/Cli.v ===== *)
(** * The command line ([src/control/cmd/weibo])

    The management commands ([client.go], [commands.go]): flags, the request each
    command sends and its exit code; the checks and settings of the dashboard
    command ([main.go]); the steps of a deployment ([deploy.go]).

    Flags are parsed as the package [flag] does.  A request is the one the API gets:
    escaping of an identifier is the identity on letters, digits and hyphens.  YAML,
    JSON, the docker command and base-0 integers are parameters; what is printed is
    left out. *)

From S2P Require Import Prelude FileConnector Controller Fencing Backend History Api.
From Stdlib Require Import Strings.Byte.

(** ** Flags *)

Inductive fkind := FString | FBool | FInt.
Definition flags : Type := list (bytes * fkind).

(** [strconv.ParseBool] *)
Definition ParseBool (s : bytes) : option bool :=
  if decide (s ∈ [bs "1"; bs "t"; bs "T"; bs "TRUE"; bs "true"; bs "True"]) then Some true
  else if decide (s ∈ [bs "0"; bs "f"; bs "F"; bs "FALSE"; bs "false"; bs "False"]) then Some false
  else None.

Section parse.
Context (int0 : bytes → option Z) (fs : flags).

Definition settable (k : fkind) (v : bytes) : bool :=
  match k with FString => true | FBool => bool_decide (is_Some (ParseBool v)) | FInt => bool_decide (is_Some (int0 v)) end.
Definition flag_kind (name : bytes) : option fkind := snd <$> head (filter (λ x, x.1 = name) fs).

(** The name after the hyphens and the value after an equals sign that is not the
    first byte. *)
Definition split_value (s : bytes) : bytes * option bytes :=
  match s with
  | [] => ([], None)
  | b :: s => match cut x3d s with Some (n, v) => (b :: n, Some v) | None => (b :: s, None) end
  end.
Definition hyphen : byte := x2d.

(** [FlagSet.Parse]: parsing stops at the first argument that is no flag, and after
    two hyphens.  The assignments in order, and the arguments that are left. *)
Fixpoint Parse (args : list bytes) : result (list (bytes * bytes) * list bytes) :=
  match args with
  | [] => Ok ([], [])
  | s :: rest =>
      match s with
      | c :: d :: s' =>
          if decide (c = hyphen) then
            if decide (d = hyphen ∧ s' = []) then Ok ([], rest)
            else
              let body := if decide (d = hyphen) then s' else d :: s' in
              if decide (head body = None ∨ head body = Some hyphen ∨ head body = Some x3d) then Err (bs "bad flag syntax: " ++ s)
              else
                let '(name, value) := split_value body in
                match flag_kind name with
                | None => Err (bs "flag provided but not defined: -" ++ name)
                | Some k =>
                    match value, k with
                    | Some v, _ => if settable k v then x <-? Parse rest ;; Ok ((name, v) :: x.1, x.2) else Err (bs "invalid value for flag -" ++ name)
                    | None, FBool => x <-? Parse rest ;; Ok ((name, bs "true") :: x.1, x.2)
                    | None, _ =>
                        match rest with
                        | v :: rest' => if settable k v then x <-? Parse rest' ;; Ok ((name, v) :: x.1, x.2) else Err (bs "invalid value for flag -" ++ name)
                        | [] => Err (bs "flag needs an argument: -" ++ name)
                        end
                    end
                end
          else Ok ([], args)
      | _ => Ok ([], args)
      end
  end.
End parse.

(** The value of a flag. *)
Definition flag_value (def : bytes) (name : bytes) (sets : list (bytes * bytes)) : bytes := default def (snd <$> last (filter (λ x, x.1 = name) sets)).

(** ** Requests of the client *)

(** [client]: the token is trimmed. *)
Record client := mkClient { cl_base : bytes; cl_token : bytes }.
Fixpoint trim_right_slash (s : bytes) : bytes :=
  match s with [] => [] | b :: s => match trim_right_slash s with [] => if decide (b = x2f) then [] else [b] | r => b :: r end end.
Definition newClient (base token : bytes) : client := mkClient (trim_right_slash base) (trim_space token).

(** A management command with its arguments. *)
Inductive command :=
| KJobs | KStatus (id : bytes) | KLogs (id : bytes) (tail : Z) | KFollow (id : bytes) (tail : Z) | KRuns (id : bytes)
| KCancel (id : bytes) | KRestart (id savepoint : bytes) | KSavepoint (id label : bytes) | KDelete (id : bytes) (deleteData : bool)
| KSubmit (doc : bytes) (env : gmap bytes bytes).

Definition job_path (id suffix : bytes) : bytes := bs "/jobs/" ++ id ++ suffix.

Section client.
Context (encode_submit : bytes → gmap bytes bytes → bytes) (encode_savepoint : bytes → bytes) (remote : bytes).

(** [do]: a request with the token of the client. *)
Definition client_do (c : client) (method path : bytes) (query : list (bytes * bytes)) (contentType body : bytes) : api_request :=
  mkReq method path query (if decide (cl_token c = []) then [] else bs "Bearer " ++ cl_token c) contentType (body, None) remote.
Definition tail_query (tail : Z) : list (bytes * bytes) := [(bs "tail", Decimal.FormatInt tail)].

(** [submit], [listJobs], [getJob], [cancel], [restart], [savepoint], [deleteJob],
    [runs], [followLogs], [logs] *)
Definition client_submit (c : client) (doc : bytes) (env : gmap bytes bytes) : api_request :=
  client_do c (bs "POST") (bs "/jobs") [] (bs "application/json") (encode_submit doc env).
Definition client_listJobs (c : client) : api_request := client_do c (bs "GET") (bs "/jobs") [] [] [].
Definition client_getJob (c : client) (id : bytes) : api_request := client_do c (bs "GET") (job_path id []) [] [] [].
Definition client_cancel (c : client) (id : bytes) : api_request := client_do c (bs "POST") (job_path id (bs "/cancel")) [] [] [].
Definition client_restart (c : client) (id savepoint : bytes) : api_request :=
  if decide (savepoint = []) then client_do c (bs "POST") (job_path id (bs "/restart")) [] [] []
  else client_do c (bs "POST") (job_path id (bs "/restart")) [] (bs "application/json") (encode_savepoint savepoint).
Definition client_savepoint (c : client) (id label : bytes) : api_request :=
  client_do c (bs "POST") (job_path id (bs "/savepoint")) [(bs "label", label)] [] [].
Definition client_deleteJob (c : client) (id : bytes) (deleteData : bool) : api_request :=
  client_do c (bs "DELETE") (job_path id []) (if deleteData then [(bs "deleteData", bs "true")] else []) [] [].
Definition client_runs (c : client) (id : bytes) : api_request := client_do c (bs "GET") (job_path id (bs "/runs")) [] [] [].
Definition client_followLogs (c : client) (id : bytes) (tail : Z) : api_request :=
  client_do c (bs "GET") (job_path id (bs "/logs/stream")) (tail_query tail) [] [].
Definition client_logs (c : client) (id : bytes) (tail : Z) : api_request := client_do c (bs "GET") (job_path id (bs "/logs")) (tail_query tail) [] [].

(** The request of a command. *)
Definition request_of (c : client) (k : command) : api_request :=
  match k with
  | KJobs => client_listJobs c
  | KStatus id => client_getJob c id
  | KLogs id n => client_logs c id n
  | KFollow id n => client_followLogs c id n
  | KRuns id => client_runs c id
  | KCancel id => client_cancel c id
  | KRestart id savepoint => client_restart c id savepoint
  | KSavepoint id label => client_savepoint c id label
  | KDelete id data => client_deleteJob c id data
  | KSubmit doc env => client_submit c doc env
  end.

(** [followLogs]: the lines it delivers, and whether the scanner came to the end
    of what was sent; heartbeats and comments are skipped. *)
Definition follow_line (line : bytes) : option bytes :=
  if has_prefix (bs "data: ") line then Some (drop 6 line) else if decide (line = bs "data:") then Some [] else None.
Definition follow_lines (sent : bytes) : list bytes * bool := prod_map (omap follow_line) id (FileConnector.scan_lines 65536 sent).
End client.

Ltac unfold_client := unfold client_submit, client_listJobs, client_getJob, client_cancel, client_savepoint, client_deleteJob, client_runs, client_followLogs,
  client_logs, client_do; cbn [q_Authorization q_Method q_Path q_Query q_Body].

(** The exit code after an answer. *)
Definition accepted_status (status : Z) : bool := (200 <=? status) && (status <? 300).
Definition exit_of (rep : reply) : Z := if accepted_status (rp_Status rep) then 0 else 1.

(** ** Commands *)

Section commands.
Context (int0 : bytes → option Z) (getenv : bytes → bytes).

(** [envOr], [controllerFlags] *)
Definition envOr (key def : bytes) : bytes := if decide (getenv key = []) then def else getenv key.
Definition controllerFlags : flags := [(bs "controller", FString); (bs "token", FString)].
Definition client_of (sets : list (bytes * bytes)) : client :=
  newClient (flag_value (envOr (bs "WEIBO_CONTROLLER") (bs "http://localhost:9000")) (bs "controller") sets)
    (flag_value (getenv (bs "WEIBO_TOKEN")) (bs "token") sets).

(** What a command does: exit with a code, or send a request. *)
Definition todo : Type := Z + (client * command).
Definition with_flags (fs : flags) (args : list bytes) (k : list (bytes * bytes) → bytes → Z + command) : todo :=
  match Parse int0 (controllerFlags ++ fs) args with
  | Ok (sets, rest) => match k sets (default [] (head rest)) with inl code => inl code | inr c => inr (client_of sets, c) end
  | _ => inl 2
  end.
Definition with_id (id : bytes) (c : command) : Z + command := if decide (id = []) then inl 2 else inr c.
Definition is_set (name : bytes) (sets : list (bytes * bytes)) : bool := default false (ParseBool (flag_value (bs "false") name sets)).

(** [runJobs], [runStatus], [runLogs], [runRuns], [runCancel], [runRestart],
    [runDelete], [runSavepoint] *)
Definition runJobs (args : list bytes) : todo := with_flags [] args (λ _ _, inr KJobs).
Definition runStatus (args : list bytes) : todo := with_flags [] args (λ _ id, with_id id (KStatus id)).
Definition runLogs (args : list bytes) : todo :=
  with_flags [(bs "tail", FInt); (bs "follow", FBool)] args (λ sets id,
    let tail := default 200 (int0 (flag_value (bs "200") (bs "tail") sets)) in
    with_id id (if is_set (bs "follow") sets then KFollow id tail else KLogs id tail)).
Definition runRuns (args : list bytes) : todo := with_flags [] args (λ _ id, with_id id (KRuns id)).
Definition runCancel (args : list bytes) : todo := with_flags [] args (λ _ id, with_id id (KCancel id)).
Definition runRestart (args : list bytes) : todo :=
  with_flags [(bs "savepoint", FString)] args (λ sets id, with_id id (KRestart id (flag_value [] (bs "savepoint") sets))).
Definition runDelete (args : list bytes) : todo :=
  with_flags [(bs "delete-data", FBool)] args (λ sets id, with_id id (KDelete id (is_set (bs "delete-data") sets))).
Definition runSavepoint (args : list bytes) : todo :=
  with_flags [(bs "label", FString)] args (λ sets id,
    let label := flag_value [] (bs "label") sets in
    if decide (id = [] ∨ label = []) then inl 2 else inr (KSavepoint id label)).

(** [main], without the dashboard and deployments. *)
Definition manage (args : list bytes) : todo :=
  match args with
  | [] => inl 2
  | name :: args =>
      if decide (name = bs "jobs") then runJobs args
      else if decide (name = bs "status") then runStatus args
      else if decide (name = bs "logs") then runLogs args
      else if decide (name = bs "cancel") then runCancel args
      else if decide (name = bs "restart") then runRestart args
      else if decide (name = bs "savepoint") then runSavepoint args
      else if decide (name = bs "delete") then runDelete args
      else if decide (name = bs "runs") then runRuns args
      else if decide (name ∈ [bs "-h"; bs "--help"; bs "help"]) then inl 0
      else inl 2
  end.
End commands.

(** ** The order of flags and arguments *)

Definition plain_byte (b : byte) : bool :=
  let z := Z_of_byte b in ((48 <=? z) && (z <=? 57)) || ((65 <=? z) && (z <=? 90)) || ((97 <=? z) && (z <=? 122)).
(** An identifier of letters and digits. *)
Definition plain_id (id : bytes) : Prop := id ≠ [] ∧ Forall (λ b, plain_byte b = true) id.

Lemma plain_not b : plain_byte b = true → b ≠ hyphen ∧ b ≠ x2f ∧ b ≠ x2e.
Proof. destruct b; vm_compute; intros E; (discriminate E || (split_and!; congruence)). Qed.
Lemma Parse_stops int0 fs id rest : plain_id id → Parse int0 fs (id :: rest) = Ok ([], id :: rest).
Proof.
  intros [Hne Hf]. destruct id as [|c [|d id]]; [done|done|]. cbn [Parse]. apply Forall_cons in Hf as [Hc _]. apply plain_not in Hc as [Hc _].
  by rewrite decide_False.
Qed.

Lemma cut_absent c s : c ∉ s → cut c s = None.
Proof. induction s as [|b s IH]; [done|]. intros [Hb Hs]%not_elem_of_cons. cbn. rewrite decide_False by congruence. by rewrite IH. Qed.
(** A flag without an equals sign. *)
Lemma Parse_named int0 fs name rest k : x3d ∉ name → head name ≠ None → head name ≠ Some hyphen → flag_kind fs name = Some k →
  Parse int0 fs ((hyphen :: name) :: rest) =
  match k, rest with
  | FBool, _ => x <-? Parse int0 fs rest ;; Ok ((name, bs "true") :: x.1, x.2)
  | _, v :: rest => if settable int0 k v then x <-? Parse int0 fs rest ;; Ok ((name, v) :: x.1, x.2) else Err (bs "invalid value for flag -" ++ name)
  | _, [] => Err (bs "flag needs an argument: -" ++ name)
  end.
Proof.
  intros He H0 Hh Hk. destruct name as [|d name]; [done|]. cbn [Parse]. rewrite decide_True by done. apply not_elem_of_cons in He as [Hd He].
  assert (d ≠ hyphen) as Hdh by (intros ->; done). rewrite (decide_False (P := _ ∧ _)) by (by intros [? _]). rewrite (decide_False (P := d = hyphen)) by done. cbn [head].
  rewrite decide_False by (intros [?|[?|?]]; congruence). unfold split_value. rewrite cut_absent, Hk by done. by destruct k.
Qed.

Lemma with_flags_ok int0 getenv fs args k sets rest c : Parse int0 (controllerFlags ++ fs) args = Ok (sets, rest) →
  k sets (default [] (head rest)) = inr c → with_flags int0 getenv fs args k = inr (client_of getenv sets, c).
Proof. intros Hp Hk. unfold with_flags. rewrite Hp. by rewrite Hk. Qed.

(** C39: Flags written after the job ID, as the usage text shows them, are
    not read: restart ignores the savepoint and resumes from the last
    checkpoint, delete keeps the data, and savepoint fails for the missing
    label; ahead of the ID they work. *)
Theorem flags_after_id_ignored int0 getenv (id label : bytes) :
  plain_id id →
  let c := client_of getenv [] in
  manage int0 getenv [bs "restart"; id; bs "-savepoint"; label] = inr (c, KRestart id [])
  ∧ manage int0 getenv [bs "delete"; id; bs "-delete-data"] = inr (c, KDelete id false)
  ∧ manage int0 getenv [bs "savepoint"; id; bs "-label"; label] = inl 2
  ∧ (label ≠ [] →
     manage int0 getenv [bs "restart"; bs "-savepoint"; label; id] = inr (client_of getenv [(bs "savepoint", label)], KRestart id label)
     ∧ manage int0 getenv [bs "delete"; bs "-delete-data"; id] = inr (client_of getenv [(bs "delete-data", bs "true")], KDelete id true)
     ∧ manage int0 getenv [bs "savepoint"; bs "-label"; label; id] = inr (client_of getenv [(bs "label", label)], KSavepoint id label)).
Proof.
  intros Hid c. pose proof (λ fs rest, Parse_stops int0 fs id rest Hid) as Hp. destruct Hid as [Hne _].
  assert (∀ k : command, with_id id k = inr k) as Hw by (intros k; unfold with_id; by rewrite decide_False).
  split; [|split; [|split; [|intros Hl; split; [|split]]]].
  - apply (with_flags_ok _ _ _ _ _ [] [id; bs "-savepoint"; label]); [apply Hp|apply Hw].
  - apply (with_flags_ok _ _ _ _ _ [] [id; bs "-delete-data"]); [apply Hp|apply Hw].
  - change (runSavepoint int0 getenv [id; bs "-label"; label] = inl 2). unfold runSavepoint, with_flags. rewrite Hp.
    rewrite decide_True; [done|]. by right.
  - apply (with_flags_ok _ _ _ _ _ [(bs "savepoint", label)] [id]); [|apply Hw].
    change (bs "-savepoint") with (hyphen :: bs "savepoint"). rewrite (Parse_named _ _ _ _ FString); [cbn [settable]; by rewrite Hp|by vm_compute; set_solver|done|done|done].
  - apply (with_flags_ok _ _ _ _ _ [(bs "delete-data", bs "true")] [id]); [|apply Hw].
    change (bs "-delete-data") with (hyphen :: bs "delete-data"). rewrite (Parse_named _ _ _ _ FBool); [by rewrite Hp|by vm_compute; set_solver|done|done|done].
  - apply (with_flags_ok _ _ _ _ _ [(bs "label", label)] [id]).
    + change (bs "-label") with (hyphen :: bs "label"). rewrite (Parse_named _ _ _ _ FString); [cbn [settable]; by rewrite Hp|by vm_compute; set_solver|done|done|done].
    + cbn [head]. change (flag_value [] (bs "label") [(bs "label", label)]) with label. rewrite decide_False; [done|]. by intros [?|?].
Qed.

(** ** From a command to the controller *)

Lemma plain_id_path id : plain_id id → id ≠ [] ∧ x2f ∉ id ∧ id ∉ [bs "."; bs ".."].
Proof.
  intros [Hne Hf]. rewrite Forall_forall in Hf. assert (∀ b, b ∈ id → b ≠ x2f ∧ b ≠ x2e) as Hb by (intros b Hb; by apply plain_not, Hf).
  split_and!; [done|by intros Hin; destruct (Hb _ Hin)|]. intros [->|[->|[]%not_elem_of_nil]%elem_of_cons]%elem_of_cons; by destruct (Hb x2e) as [_ ?]; [left|].
Qed.
Lemma split_job_path id suffix : x2f ∉ id → strings_Split x2f (job_path id suffix) = [] :: bs "jobs" :: strings_Split x2f (id ++ suffix).
Proof.
  intros Hid. change (job_path id suffix) with ([] ++ x2f :: bs "jobs" ++ x2f :: id ++ suffix). rewrite Split_app by apply not_elem_of_nil.
  by rewrite Split_app by (vm_compute; set_solver).
Qed.
Lemma clean_job_segs id rest : id ≠ [] → id ∉ [bs "."; bs ".."] → clean_segs rest = true → clean_segs (bs "jobs" :: id :: rest) = true.
Proof.
  intros Hne Hd. unfold clean_segs. intros [H1 H2]%andb_true_iff. apply andb_true_iff. split.
  - cbn [forallb]. rewrite (bool_decide_eq_false_2 (id ∈ _)) by done. rewrite (bool_decide_eq_false_2 (bs "jobs" ∈ _)) by (vm_compute; set_solver). by rewrite H1.
  - apply negb_true_iff, bool_decide_eq_false. apply negb_true_iff, bool_decide_eq_false in H2. cbn [length].
    destruct rest as [|x rest]; [cbn; rewrite list_elem_of_singleton; done|]. intros Hin. apply H2.
    replace (S (S (length (x :: rest))) - 1)%nat with (S (S (length (x :: rest) - 1))) in Hin by (cbn; lia). cbn [take] in Hin.
    apply elem_of_cons in Hin as [?|Hin]; [done|]. apply elem_of_cons in Hin as [?|Hin]; [done|exact Hin].
Qed.
(** The route of a verb of a job. *)
Lemma mux_verb id verb m rt : plain_id id → x2f ∉ verb → verb ∉ [bs "."; bs ".."] → one_job id verb = [(m, rt)] →
  mux m (job_path id (x2f :: verb)) = Found rt.
Proof.
  intros Hid Hv Hd Ho. destruct (plain_id_path id Hid) as (Hne & Hs & Hdot). unfold mux. rewrite split_job_path, Split_app, Split_single by done.
  rewrite clean_job_segs; [|done|done|]; cycle 1.
  { unfold clean_segs. cbn. by rewrite (bool_decide_eq_false_2 (verb ∈ _)). }
  cbn [negb handlers]. rewrite decide_True by done. rewrite Ho. rewrite filter_cons, filter_nil, decide_True; [done|].
  unfold method_matches. by rewrite bool_decide_eq_true_2.
Qed.
Lemma mux_delete id : plain_id id → mux (bs "DELETE") (job_path id []) = Found (RtDelete id).
Proof.
  intros Hid. destruct (plain_id_path id Hid) as (Hne & Hs & Hdot). unfold mux. rewrite split_job_path, app_nil_r, Split_single by done.
  rewrite clean_job_segs by done. cbn [negb handlers]. rewrite decide_True by done. by case_decide.
Qed.

Section reach.
Context (O : oracle) (ct : Ctl) (unmarshal : bytes → option sdkManifest) (parseQuantity : bytes → option bytes).
Context (compile : bytes → gmap bytes bytes → result (bytes * bytes * bytes)).
Context (decode_submit : bytes → result (bytes * gmap bytes bytes * gmap bytes JobStore.SecretRef)) (decode_label : bytes → result (bytes * bytes)).
Context (logsAt : nat → bytes → Z → result bytes) (capacity : nat → result CapacitySnapshot).
Context (agentGet : nat → bytes → bytes → result (Z * bytes * bytes)) (agentSavepoint : bytes → bytes → result Z).
Context (expired : nat → bool) (late : bool) (ticks : api_request → nat) (grafanaURL : bytes).
Context (Sum256 : bytes → bytes) (cfg : AuthConfig).
Context (encode_submit : bytes → gmap bytes bytes → bytes) (encode_savepoint : bytes → bytes) (remote : bytes).

Notation handle := (handle O ct unmarshal parseQuantity compile decode_submit decode_label logsAt capacity agentGet agentSavepoint expired late
  ticks grafanaURL (authConfigured cfg)).
Notation ServeHTTP := (ServeHTTP O ct unmarshal parseQuantity compile decode_submit decode_label logsAt capacity agentGet agentSavepoint expired late
  ticks grafanaURL Sum256 cfg).
Notation request_of := (request_of encode_submit encode_savepoint remote).

(** What a mutating command asks of the controller, and whether it succeeded. *)
Definition effect (k : command) : C bool :=
  let done_ {A} (m : C (result A)) : C bool := r ← m; ret (match r with Ok _ => true | _ => false end) in
  let job (m : C job_err) : C bool := r ← m; ret (match r with (Some _, None) => true | _ => false end) in
  match k with
  | KCancel id => done_ (Cancel O ct id)
  | KRestart id savepoint => job (if decide (savepoint ≠ []) then RestartFromSavepoint O ct unmarshal id savepoint else Restart O ct unmarshal id)
  | KSavepoint id label => done_ (Savepoint O agentSavepoint id label)
  | KDelete id data => done_ (DeleteWithOptions O id data)
  | _ => ret true
  end.
Definition command_job (k : command) : option bytes :=
  match k with KCancel id | KRestart id _ | KSavepoint id _ | KDelete id _ => Some id | _ => None end.

(** A mutation with a read-write token that the limiter lets pass reaches its
    handler. *)
Lemma serve_mutation r rt s : authConfigured cfg = true → authenticate Sum256 cfg (q_Authorization r) = Some RoleReadWrite →
  mutationRoute r = true → allowed O r s → mux (q_Method r) (q_Path r) = Found rt →
  sv_world (ServeHTTP r s).2 = (handle (Some RoleReadWrite) (sv_history s) rt r (sv_world s)).2
  ∧ (λ x, fst x) <$> (ServeHTTP r s).1 = (λ x, fst x) <$> (handle (Some RoleReadWrite) (sv_history s) rt r (sv_world s)).1.
Proof.
  intros Hc Ha Hm Hl Hx. unfold Api.ServeHTTP, auth. replace (negb (authConfigured cfg)) with false by (by rewrite Hc).
  assert (publicRoute r = false) as ->.
  { unfold publicRoute. destruct (bool_decide (q_Method r = bs "GET")) eqn:E; [|done]. apply bool_decide_eq_true in E. unfold mutationRoute in Hm. rewrite E in Hm. done. }
  rewrite Ha. unfold auditMutations, rateLimitMutations, instrument. rewrite Hm. unfold allowed in Hl.
  destruct (Allow _ _ _ _ _) as [fine hs]. cbn in Hl. subst fine. unfold Api.serve_mux. rewrite Hx. cbn [sv_history sv_world].
  by destruct (handle (Some RoleReadWrite) (sv_history s) rt r (sv_world s)) as [[[rep h]|] w].
Qed.

(** The handler of a mutating command does what the command asks. *)
Definition label_codec : Prop := ∀ sp, decode_label (encode_savepoint sp) = Ok ([], sp) ∧ encode_savepoint sp ≠ [] ∧
  (Z.of_nat (length sp) ≤ 1024 → Z.of_nat (length (encode_savepoint sp)) ≤ maxSavepointBody).
Definition command_ok (k : command) : Prop :=
  match k with KSavepoint _ label => label ≠ [] | KRestart _ sp => Z.of_nat (length sp) ≤ 1024 | _ => True end.
Definition command_route (k : command) : route :=
  match k with KCancel id => RtCancel id | KRestart id _ => RtRestart id | KSavepoint id _ => RtSavepoint id | KDelete id _ => RtDelete id | _ => RtList end.

Lemma command_muxed c k id : command_job k = Some id → plain_id id →
  mux (q_Method (request_of c k)) (q_Path (request_of c k)) = Found (command_route k) ∧ mutationRoute (request_of c k) = true.
Proof.
  intros Hk Hid. assert (mux (q_Method (request_of c k)) (q_Path (request_of c k)) = Found (command_route k)) as Hx.
  { destruct k; try done; injection Hk as ->; cbn [Cli.request_of].
    - apply mux_verb; [done|by vm_compute; set_solver..|reflexivity].
    - unfold client_restart. case_decide; (apply mux_verb; [done|by vm_compute; set_solver..|reflexivity]).
    - apply mux_verb; [done|by vm_compute; set_solver..|reflexivity].
    - by apply mux_delete. }
  split; [exact Hx|]. apply (mux_mutates _ _ Hx). by destruct k.
Qed.

Lemma restart_label c id sp : label_codec → Z.of_nat (length sp) ≤ 1024 → savepointLabel decode_label (request_of c (KRestart id sp)) = inl sp.
Proof.
  intros Hc Hl. destruct (Hc sp) as (Hd & Hne & Hlen). specialize (Hlen Hl). cbn [Cli.request_of]. unfold client_restart. case_decide as Hsp.
  - subst sp. reflexivity.
  - unfold savepointLabel, query_get, readLimited, client_do. cbn [q_Query q_Body fst snd]. destruct (Z.ltb_spec maxSavepointBody (Z.of_nat (length (encode_savepoint sp)))) as [?|_]; [lia|].
    rewrite Hd. by destruct (encode_savepoint sp).
Qed.

Lemma command_handled c k h : label_codec → command_job k ≠ None → command_ok k → ∀ w,
  let res := handle (Some RoleReadWrite) h (command_route k) (request_of c k) w in
  res.2 = (effect k w).2 ∧ (λ x, exit_of (fst x)) <$> res.1 = (λ b : bool, if b then 0 else 1) <$> (effect k w).1.
Proof.
  intros Hc Hk Ho w. destruct k; try done; cbn zeta; cbn [command_route Api.handle effect].
  - unfold api_cancel, found, on_err, mbind, C_bind. by destruct (Cancel O ct id w) as [[[]|] w'].
  - unfold api_restart. rewrite restart_label by done. unfold mbind, C_bind.
    case_decide; [destruct (RestartFromSavepoint _ _ _ _ _ w) as [[[[job|] [e|]]|] w']|destruct (Restart _ _ _ _ w) as [[[[job|] [e|]]|] w']]; done.
  - unfold api_savepoint. assert (savepointLabel decode_label (request_of c (KSavepoint id label)) = inl label) as ->.
    { unfold savepointLabel. change (query_get (request_of c (KSavepoint id label)) (bs "label")) with label. by rewrite decide_True. }
    cbn in Ho. rewrite decide_False by done. unfold found, on_err, mbind, C_bind. by destruct (Savepoint O agentSavepoint id label w) as [[[]|] w'].
  - unfold api_delete. assert (bool_decide (query_get (request_of c (KDelete id deleteData)) (bs "deleteData") = bs "true") = deleteData) as ->
      by (by destruct deleteData).
    unfold on_err, mbind, C_bind. by destruct (DeleteWithOptions O id deleteData w) as [[[]|] w'].
Qed.

End reach.

(** ** Following logs *)

Lemma event_as_text text : Z.of_nat (length text) ≤ 65536 →
  event text = FileConnector.text_of (((λ line, bs "data: " ++ line) <$> strings_Split x0a text) ++ [[]]).
Proof.
  intros Hl. unfold event. destruct (Z.ltb_spec 65536 (Z.of_nat (length text))) as [?|_]; [lia|]. unfold FileConnector.text_of. rewrite bind_app.
  f_equal. clear. induction (strings_Split x0a text) as [|l ls IH]; [done|]. rewrite fmap_cons. cbn [mbind list_bind]. by rewrite IH, <- !app_assoc.
Qed.

(** The client prints the lines of the text an event carries, when the scanner
    takes them. *)
Lemma follow_event text : Z.of_nat (length text) ≤ 65536 →
  Forall (λ l, last l ≠ Some x0d ∧ Z.of_nat (length l) < 65530) (strings_Split x0a text) → follow_lines (event text) = (strings_Split x0a text, true).
Proof.
  intros Hl Hc. unfold follow_lines, FileConnector.scan_lines. rewrite event_as_text, FileConnector.scan_text; [|..|lia|done].
  - unfold prod_map. f_equal. cbn [fst]. rewrite omap_app. cbn [omap list_omap]. rewrite app_nil_r. clear. induction (strings_Split x0a text) as [|l ls IH]; [done|].
    rewrite fmap_cons. cbn [omap list_omap]. unfold follow_line at 1. rewrite (proj2 (has_prefix_spec _ _)) by (by eexists).
    change 6%nat with (length (bs "data: ")). rewrite drop_app_length. by f_equal.
  - apply Forall_app. split; [|apply Forall_singleton; by repeat split; [set_solver|..]]. apply Forall_fmap, Forall_forall. intros l Hin.
    destruct (proj1 (Forall_forall _ _) Hc l Hin) as [Hr Hs]. repeat split.
    + rewrite not_elem_of_app. split; [vm_compute; set_solver|]. by eapply strings_Split_free.
    + rewrite last_app. destruct (last l) eqn:E; [done|vm_compute; congruence].
    + rewrite length_app. change (length (bs "data: ")) with 6%nat. change (FileConnector.scan_limit 65536) with 65536. lia.
Qed.

(** The server cuts an event to 64 KiB, but a line of it comes with its field
    name in front, which is more than the client's scanner takes. *)
Example long_line_ends_follow : follow_lines (event (replicate 65536 x61)) = ([], false).
Proof. vm_compute. reflexivity. Qed.

(** ** The dashboard command *)

(** [splitCSV], [envBool] *)
Definition splitCSV (s : bytes) : list bytes := filter (λ p, p ≠ []) (trim_space <$> strings_Split x2c s).
Definition envBool (v : bytes) : bool := bool_decide (to_lower (trim_space v) ∈ [bs "1"; bs "true"; bs "t"; bs "yes"; bs "y"; bs "on"]).

(** [authConfigured] of the command, [isPublicBind] *)
Definition cli_authConfigured (token hashes : bytes) : bool := negb (bool_decide (trim_space token = [])) || negb (bool_decide (splitCSV hashes = [])).
Definition trim_brackets (s : bytes) : bytes :=
  let strip := fix strip s := match s with b :: s' => if decide (b = x5b ∨ b = x5d) then strip s' else s | [] => [] end in
  reverse (strip (reverse (strip s))).
Definition isPublicBind (addr : bytes) : bool :=
  match SplitHost addr with
  | None => has_prefix (bs ":") addr
  | Some host => bool_decide (trim_brackets host ∈ [[]; bs "0.0.0.0"; bs "::"])
  end.

(** The check before the dashboard starts, and the tokens of its server. *)
Definition refuses_bind (token hashes addr : bytes) (allowOpenPublic : bool) : bool :=
  negb (cli_authConfigured token hashes) && isPublicBind addr && negb allowOpenPublic.
Definition dashboard_auth (token hashes : bytes) : AuthConfig := server_auth (mkAuth token (splitCSV hashes)).

(** [parseKeyValues] *)
Fixpoint key_values (parts : list bytes) (m : gmap bytes bytes) : result (gmap bytes bytes) :=
  match parts with
  | [] => Ok m
  | part :: parts =>
      match cut x3d part with
      | Some (k, v) =>
          if decide (trim_space k = [] ∨ trim_space v = []) then Err (bs "expected key=value, got " ++ part)
          else key_values parts (<[trim_space k := trim_space v]> m)
      | None => Err (bs "expected key=value, got " ++ part)
      end
  end.
Definition parseKeyValues (s : bytes) : result (gmap bytes bytes) := key_values (splitCSV s) ∅.

(** [parseTolerations] *)
Record Toleration := mkToleration { to_Key : bytes; to_Equal : bool; to_Value : bytes; to_Effect : bytes }.
Definition one_toleration (part : bytes) : result Toleration :=
  let '(body, effect) := match cut x3a part with Some x => x | None => (part, []) end in
  let '(key, value, hasValue) := match cut x3d body with Some (k, v) => (k, v, true) | None => (body, [], false) end in
  let key := trim_space key in
  let value := trim_space value in
  let effect := trim_space effect in
  if decide (key = []) then Err (bs "empty toleration key in " ++ part)
  else if hasValue && bool_decide (value = []) then Err (bs "empty toleration value in " ++ part)
  else if decide (effect ∉ [[]; bs "NoSchedule"; bs "PreferNoSchedule"; bs "NoExecute"]) then Err (bs "invalid toleration effect in " ++ part)
  else Ok (mkToleration key hasValue value effect).
Fixpoint tolerations (parts : list bytes) : result (list Toleration) :=
  match parts with [] => Ok [] | p :: parts => t <-? one_toleration p ;; ts <-? tolerations parts ;; Ok (t :: ts) end.
Definition parseTolerations (s : bytes) : result (list Toleration) := tolerations (splitCSV s).

(** [int32PtrFromNonNegative], [browserURL] *)
Definition int32PtrFromNonNegative (n : Z) : option Z := if n <? 0 then None else Some ((n + 2 ^ 31) mod 2 ^ 32 - 2 ^ 31).
Definition browserURL (addr : bytes) : bytes :=
  match SplitHost addr, last_index x3a addr with
  | Some host, Some i =>
      bs "http://" ++ (if decide (host ∈ [[]; bs "0.0.0.0"; bs "::"]) then bs "localhost" else host) ++ bs ":" ++ drop (S i) addr
  | _, _ => bs "http://localhost" ++ addr
  end.

(** ** Deployments *)

(** [fullImageRef], [parseEnv] *)
Definition fullImageRef (registry image : bytes) : bytes :=
  let registry := trim_right_slash registry in
  if bool_decide (registry = []) || bool_decide (x2f ∈ image) then image else registry ++ [x2f] ++ image.
Fixpoint parseEnv (pairs : list bytes) (env : gmap bytes bytes) : result (gmap bytes bytes) :=
  match pairs with
  | [] => Ok env
  | p :: pairs =>
      match cut x3d p with
      | Some (k, v) => if decide (k = []) then Err (bs "invalid -env " ++ p) else parseEnv pairs (<[k := v]> env)
      | None => Err (bs "invalid -env " ++ p)
      end
  end.

(** A document of YAML: a mapping in order, or something else. *)
Inductive ydoc := YMap (fs : list (bytes * bytes)) | YOther.
Definition yfield (d : ydoc) (k : bytes) : bytes := match d with YMap fs => default [] (snd <$> head (filter (λ x, x.1 = k) fs)) | YOther => [] end.
(** The first field [image] gets the new value. *)
Fixpoint set_image (image : bytes) (fs : list (bytes * bytes)) : option (list (bytes * bytes)) :=
  match fs with
  | [] => None
  | (k, v) :: fs => if decide (k = bs "image") then Some ((k, image) :: fs) else cons (k, v) <$> set_image image fs
  end.

Inductive step_ := DockerBuild (dockerfile image context : bytes) | DockerPush (image : bytes) | Submit_ (doc : bytes) (env : gmap bytes bytes).

Section deploy.
Context (load : bytes → result ydoc) (dump : ydoc → bytes) (docker : step_ → option bytes).

(** [rewriteManifestImage] *)
Definition rewriteManifestImage (doc image : bytes) : result bytes :=
  d <-? load doc ;;
  match d with
  | YMap fs => match set_image image fs with Some fs => Ok (dump (YMap fs)) | None => Err (bs "no top-level image field to rewrite") end
  | YOther => Err (bs "manifest is not a YAML mapping")
  end.

(** [runDeploy] up to the answer of the controller: the steps taken, and the error
    that ended them. *)
Definition docker_steps (noBuild noPush : bool) (dockerfile context image : bytes) : list step_ :=
  (if noBuild then [] else [DockerBuild dockerfile image context]) ++ (if noPush then [] else [DockerPush image]).
Fixpoint run_docker (steps : list step_) : list step_ * option bytes :=
  match steps with
  | [] => ([], None)
  | st :: steps => match docker st with
                   | Some e => ([st], Some e)
                   | None => let '(done, err) := run_docker steps in (st :: done, err)
                   end
  end.
Definition runDeploy (manifest : result bytes) (registry dockerfile context : bytes) (noBuild noPush : bool) (envs : list bytes)
    : list step_ * option bytes :=
  match manifest with
  | Err e | Panic e => ([], Some (bs "read manifest: " ++ e))
  | Ok doc =>
      match load doc with
      | Err e | Panic e => ([], Some (bs "parse manifest: " ++ e))
      | Ok m =>
          match parseEnv envs ∅ with
          | Err e | Panic e => ([], Some e)
          | Ok env =>
              if bool_decide (to_lower (yfield m (bs "kind")) = bs "sdk") && negb (bool_decide (yfield m (bs "image") = [])) then
                let image := fullImageRef registry (yfield m (bs "image")) in
                match (if decide (image = yfield m (bs "image")) then Ok doc else rewriteManifestImage doc image) with
                | Err e | Panic e => ([], Some (bs "rewrite image: " ++ e))
                | Ok doc =>
                    let '(done, err) := run_docker (docker_steps noBuild noPush dockerfile context image) in
                    match err with Some e => (done, Some e) | None => (done ++ [Submit_ doc env], None) end
                end
              else ([Submit_ doc env], None)
          end
      end
  end.
End deploy.

(** ** What the commands guarantee *)

Lemma splitCSV_normal s : normalizeTokenHashes (splitCSV s) = [] → splitCSV s = [].
Proof.
  unfold normalizeTokenHashes. destruct (splitCSV s) as [|p ps] eqn:E; [done|]. intros Hn. exfalso.
  assert (p ∈ splitCSV s) as Hp by (rewrite E; by left). unfold splitCSV in Hp. apply list_elem_of_filter in Hp as [Hne Hp].
  apply list_elem_of_fmap in Hp as (q & -> & Hq). apply strings_Split_free in Hq.
  assert (trim_space q ∈ filter (λ x, x ≠ []) ((trim_space q :: ps) ≫= λ part, trim_space <$> strings_Split x2c part)) as Hin; [|by rewrite Hn in Hin; apply not_elem_of_nil in Hin].
  apply list_elem_of_filter. split; [done|]. cbn [mbind list_bind]. apply elem_of_app. left. apply list_elem_of_fmap. exists (trim_space q).
  split; [by rewrite trim_space_idem|]. rewrite Split_single; [by left|]. intros Hc. apply Hq. by apply trim_space_sub.
Qed.

(** A dashboard that binds to a public address without being told to stay open has
    a token configured. *)
Theorem public_bind_needs_token (token hashes addr : bytes) :
  refuses_bind token hashes addr false = false → isPublicBind addr = true → authConfigured (dashboard_auth token hashes) = true.
Proof.
  unfold refuses_bind. intros Hr Hp. rewrite Hp in Hr. rewrite !andb_true_r in Hr. apply negb_false_iff in Hr. unfold cli_authConfigured in Hr.
  unfold authConfigured, dashboard_auth, server_auth. cbn [au_Token au_TokenSHA256]. apply orb_true_iff. apply orb_true_iff in Hr as [Hr|Hr].
  - left. apply negb_true_iff, bool_decide_eq_false in Hr. apply negb_true_iff, bool_decide_eq_false. by intros ->.
  - right. apply negb_true_iff, bool_decide_eq_false in Hr. apply negb_true_iff, bool_decide_eq_false. by intros E%splitCSV_normal.
Qed.

(** An address with another spelling of the unspecified host is not taken for a
    public one, and a token with a line end is never the one a client sends. *)
Example unspecified_host_unnoticed : isPublicBind (bs "[::0]:9000") = false ∧ isPublicBind (bs "[::]:9000") = true ∧ isPublicBind (bs ":9000") = true.
Proof. vm_compute. auto. Qed.
Example padded_token_locks_out :
  let token := bs "secret" ++ [x0a] in
  let c := newClient (bs "http://localhost:9000") token in
  authenticate demo_digest (dashboard_auth token []) (bs "Bearer " ++ cl_token c) = None.
Proof. vm_compute. reflexivity. Qed.
Example ttl_wraps : int32PtrFromNonNegative 2147483648 = Some (-2147483648).
Proof. vm_compute. reflexivity. Qed.

Section deployments.
Context (load : bytes → result ydoc) (dump : ydoc → bytes) (docker : step_ → option bytes) (yaml : ∀ d, load (dump d) = Ok d).

Lemma set_image_fields image fs fs' : set_image image fs = Some fs' →
  yfield (YMap fs') (bs "image") = image ∧ ∀ k, k ≠ bs "image" → yfield (YMap fs') k = yfield (YMap fs) k.
Proof.
  revert fs'. induction fs as [|[k v] fs IH]; intros fs'; cbn [set_image]; [done|]. case_decide as Hk.
  - intros [= <-]. subst k. split; [done|]. intros k Hk. unfold yfield. rewrite !filter_cons. cbn [fst]. by rewrite !decide_False.
  - destruct (set_image image fs) as [l|] eqn:E; [|done]. intros [= <-]. destruct (IH l eq_refl) as [H1 H2]. unfold yfield in *. rewrite filter_cons. cbn [fst].
    rewrite decide_False by done. split; [done|]. intros k' Hk'. rewrite !filter_cons. cbn [fst]. case_decide; [done|by apply H2].
Qed.
Lemma run_docker_all steps : (run_docker docker steps).2 = None → (run_docker docker steps).1 = steps.
Proof.
  induction steps as [|st steps IH]; [done|]. cbn [run_docker]. destruct (docker st); [done|]. destruct (run_docker docker steps) as [done_ err]. cbn in *. intros H. by rewrite IH.
Qed.

(** A deployment that succeeds submits a manifest whose image was pushed, and
    built unless that was turned off. *)
Theorem deployed_image_is_pushed manifest registry dockerfile context noBuild envs steps :
  runDeploy load dump docker manifest registry dockerfile context noBuild false envs = (steps, None) →
  ∃ before doc env m, steps = before ++ [Submit_ doc env] ∧ load doc = Ok m
    ∧ (to_lower (yfield m (bs "kind")) = bs "sdk" → yfield m (bs "image") ≠ [] →
         DockerPush (yfield m (bs "image")) ∈ before
         ∧ (noBuild = false → DockerBuild dockerfile (yfield m (bs "image")) context ∈ before)).
Proof using yaml.
  unfold runDeploy. destruct manifest as [doc|e|e]; [|done|done]. destruct (load doc) as [m|e|e] eqn:El; [|done|done].
  destruct (parseEnv envs ∅) as [env|e|e]; [|done|done]. destruct (_ && _) eqn:Ek.
  - set (image := fullImageRef registry (yfield m (bs "image"))).
    assert (∀ doc', (if decide (image = yfield m (bs "image")) then Ok doc else rewriteManifestImage load dump doc image) = Ok doc' →
      ∃ m', load doc' = Ok m' ∧ yfield m' (bs "image") = image) as Hdoc.
    { intros doc'. destruct (decide (image = yfield m (bs "image"))) as [Ei|Ei]; [intros [= <-]; by exists m|]. unfold rewriteManifestImage. rewrite El. cbn [rbind]. destruct m as [fs|]; [|done].
      destruct (set_image image fs) as [fs'|] eqn:Es; [|done]. intros [= <-]. exists (YMap fs'). split; [apply yaml|]. by destruct (set_image_fields _ _ _ Es). }
    destruct (if decide _ then _ else _) as [doc'|e|e] ; [|done|done]. destruct (Hdoc doc' eq_refl) as (m' & Hm & Him).
    pose proof (run_docker_all (docker_steps noBuild false dockerfile context image)) as Hd.
    destruct (run_docker docker _) as [done_ [e|]]; [done|]. intros [= <-]. specialize (Hd eq_refl). cbn in Hd. subst done_.
    exists (docker_steps noBuild false dockerfile context image), doc', env, m'. split_and!; [done|done|]. rewrite Him. intros _ _. unfold docker_steps.
    split; [apply elem_of_app; right; by left|]. intros ->. by left.
  - intros [= <-]. exists [], doc, env, m. split_and!; [done|done|]. intros Hk Hi. rewrite bool_decide_eq_true_2, bool_decide_eq_false_2 in Ek by done. done.
Qed.
End deployments.

(** ** Witnesses *)

Lemma flags_after_id_ignored_witness :
  manage (λ _, None) (λ _, []) [bs "restart"; bs "a1"; bs "-savepoint"; bs "s"] = inr (client_of (λ _, []) [], KRestart (bs "a1") []).
Proof. apply (flags_after_id_ignored (λ _, None) (λ _, []) (bs "a1") (bs "s")). split; [done|]. by repeat constructor. Defined.

Lemma public_bind_needs_token_witness : authConfigured (dashboard_auth [] (bs "readonly:ab")) = true.
Proof. apply (public_bind_needs_token [] (bs "readonly:ab") (bs ":9000")); vm_compute; reflexivity. Defined.

(** A command that cancels the job of a submission. *)
Definition demo_running : server := (demo_api (demo_request (bs "POST") (bs "/jobs") (bs "secret")) demo_server).2.
Definition demo_client : client := newClient (bs "http://localhost:9000/") (bs "secret").

(** A concrete codec of documents. *)
Definition ydoc_code (d : ydoc) : option (list (bytes * bytes)) := match d with YMap fs => Some fs | YOther => None end.
Definition demo_dump (d : ydoc) : bytes := bytes_of_pos (encode (ydoc_code d)).
Definition demo_load (b : bytes) : result ydoc :=
  match decode (A := option (list (bytes * bytes))) (pos_of_bytes b) with Some (Some fs) => Ok (YMap fs) | Some None => Ok YOther | None => Err (bs "yaml") end.
Lemma demo_yaml d : demo_load (demo_dump d) = Ok d.
Proof. unfold demo_load, demo_dump. rewrite pos_of_bytes_of, decode_encode. by destruct d. Qed.
Definition demo_manifest : ydoc := YMap [(bs "kind", bs "SDK"); (bs "name", bs "orders"); (bs "image", bs "orders:1")].

Definition demo_deploy : list step_ * option bytes :=
  runDeploy demo_load demo_dump (λ _, None) (Ok (demo_dump demo_manifest)) (bs "reg/me/") (bs "Dockerfile") (bs ".") false false [].

Lemma deployed_image_is_pushed_witness :
  take 2 demo_deploy.1 = [DockerBuild (bs "Dockerfile") (bs "reg/me/orders:1") (bs "."); DockerPush (bs "reg/me/orders:1")]
  ∧ ∃ before doc env m, demo_deploy.1 = before ++ [Submit_ doc env] ∧ demo_load doc = Ok m
    ∧ (to_lower (yfield m (bs "kind")) = bs "sdk" → yfield m (bs "image") ≠ [] → DockerPush (yfield m (bs "image")) ∈ before
       ∧ (false = false → DockerBuild (bs "Dockerfile") (yfield m (bs "image")) (bs ".") ∈ before)).
Proof.
  split; [vm_compute; reflexivity|].
  apply (deployed_image_is_pushed demo_load demo_dump (λ _, None) demo_yaml (Ok (demo_dump demo_manifest)) (bs "reg/me/") (bs "Dockerfile") (bs ".") false [] demo_deploy.1).
  vm_compute. reflexivity.
Defined.
